(* ===== verification/_CoqProject ===== *)
-Q . S2P
Prelude.v
RustStr.v
Bytes.v
Tolerant.v
LineTag.v
Edit.v
EditFacts.v
Paths.v
Trailer.v
Patch.v
PatchFacts.v
Harmony.v
ErrorClass.v
Retry.v
ThinkTags.v
LineBuffer.v
Diff.v
Sse.v
Network.v
Todo.v
History.v
Tokenize.v
Parse.v
ParseFacts.v
ParseTotal.v
Lower.v
LowerFacts.v
Assess.v
AssessFacts.v
Permission.v
Glob.v
PermissionFacts.v
F32.v
ToolText.v
Messages.v
Tree.v
Intent.v
IntentFacts.v
ToolPolicy.v
Questions.v
Board.v
PermHub.v
Gate.v
GateFacts.v
Schedule.v
Pairing.v
Summary.v
Session.v
SessionFacts.v
ToolStream.v
Hooks.v
Thinking.v
StreamRules.v
SwarmHub.v
Steer.v
WorkerCancel.v
Models.v
Control.v
Compaction.v
Turn.v
TurnFacts.v
TurnPairs.v
TurnText.v
FileClaims.v
ConfigTypes.v
ConfigMerge.v
ConfigFacts.v
ConfigLoad.v
Commands.v
ConfigCheck.v
ConfigTree.v
ConfigEdit.v
Secrets.v
SecretsFacts.v
Editor.v
DraftFacts.v
