(* ===== verification/Prelude.v ===== *)
(** * whycodes: the decisions of a coding agent, verified

    whycodes is a coding agent: a model proposes tool calls, the program decides
    which may run, runs them, edits files, keeps the transcript within the model's
    context and talks to unreliable providers. This library models the parts of
    the program that decide, transform and remember, in the shallow style: a Rust
    function is a Rocq function of the same name, a [Result] is [result], a panic
    is [None], a [&mut self] method returns the new state, a loop is a [Fixpoint]
    on the data or on fuel.

    ** The parts, and the files that model them

    - Text. [RustStr] and [Bytes] are the part of [std] the program rests on:
      characters as scalar values, UTF-8 lengths, byte slices that fail off a
      character boundary, searching, splitting, replacing, printing and parsing
      numbers.
    - Command safety, [crates/command-risk]: [Paths] (paths.rs) says where a path
      lies, [Tokenize] (tokenize.rs) splits a line into segments, [Parse],
      [ParseFacts] and [ParseTotal] (parse.rs) are the recursive-descent parser,
      [Lower] and [LowerFacts] turn a tree into the readings of a line, [Assess]
      and [AssessFacts] (assess.rs) grade readings and decide. The parser runs
      in a state monad whose outcomes are a value, [ParseError], a panic and
      exhausted fuel.
    - Permission rules, [crates/core/src/types.rs]: [Permission],
      [PermissionFacts], and [Glob] for the matcher with one backtracking point.
    - The gate of tool calls, [crates/agent]: [Intent] and [IntentFacts]
      (intent.rs, with binary32 in [F32]), [ToolPolicy] (tool_policy.rs), [Gate]
      and [GateFacts] (agent/gate.rs: hooks, intent, permissions, risk, prompts,
      dispatch and retries, over an environment that answers them), [Schedule]
      (batches of calls). The gate calls the rules and the risk assessment above.
    - File edits, [crates/tools/src/file]: [Tolerant], [LineTag], [Edit] and
      [EditFacts] (planning an edit), [Patch] and [PatchFacts] (apply_patch.rs),
      [Trailer] (the counts the session reads back from reports).
    - The session, [crates/session]: [Messages] (the transcript's types),
      [Pairing] (pairing.rs), [Tree] (tree.rs), [History] (history.rs),
      [ToolText], [Summary], [Session] and [SessionFacts] (session.rs: caps of
      tool output, summaries, the transcript, its token cache and compaction).
    - Shared services, [crates/core]: [Harmony] (leaked control tokens),
      [Network] (host policy), [Todo], [FileClaims] (which agent may write a file;
      a read is two steps, as it takes two locks one after the other).
    - Providers, [crates/llm]: [ErrorClass], [Retry] (retries and fallback),
      [ThinkTags] and [LineBuffer] (streams cut anywhere), [Models] (what is known
      of a model, its reasoning effort, and which model serves which request);
      [Sse], the event streams of [crates/mcp]; [Secrets] and [SecretsFacts]
      (secrets.rs), which take known and recognisable secrets out of a request and put
      them back into the answer.
    - The turn, [crates/agent]: [Control] is a monad of computations that may stop
      early, with a weakest precondition and rules for invariants. [ToolStream]
      (tool_stream.rs) and [Thinking] (thinking_acc.rs) put calls and thoughts
      together as they stream, [StreamRules] watches the stream, [Compaction]
      (agent/compact.rs) makes room, and [Turn] (agent/turn.rs, with what it uses of
      agent/mod.rs and agent/prewalk.rs) is the loop from the first request of a
      turn to its reply. Its state is the record [Turn], one field per variable of
      [run_turn_steps]; [iteration] is one pass of its [loop], whose [continue],
      [break], [return Err] and panics are the exits [XContinue], [XBreak], [XFail]
      and [XPanic]. [TurnFacts] shows that a turn ends, [TurnPairs] that it leaves
      every call answered, [TurnText] what its reply says. [SwarmHub], [Steer] and
      [WorkerCancel] are the mailboxes by which agents and the user reach a turn.
    - Asking the user: [Questions] (the question tool and its prompters), [Board]
      (a table of requests that wait) and [PermHub] (server/src/perm.rs: permission
      and question asks of a session, answered by clients that come and go, as steps
      that interleave, the two by which an ask runs out of time included). [Hooks] (plugin/src/hooks.rs) runs the user's commands around
      a tool call and may block or rewrite it; [Diff] (format/src/diff.rs) is the
      preview an edit is shown with.
    - Configuration, [crates/config]: [ConfigTypes] (types.rs: every section, its
      defaults, the built-in agents), [ConfigMerge] (merge.rs: how layers combine),
      [ConfigFacts] (what the configuration lets the operator agent write),
      [ConfigLoad] (load.rs: files, variables, the environment, secrets), [Commands]
      (slash commands, prompt overlays, the expansion of a template), [ConfigCheck]
      (validate.rs), [ConfigTree] (dotted.rs: keys, leaves, redaction) and
      [ConfigEdit] (dotted.rs, patch.rs, edit.rs: writing one key).
    - The prompt of the terminal, [crates/tui]: [Editor] (paste.rs, the editing actions
      of input.rs and the draft of app.rs) and [DraftFacts]. The draft is a record, an
      action a function on it, a session of typing a list of actions.

    ** How they interact

    A call of the model passes [Gate], which asks [Intent], [Permission], [Assess]
    and the user, then dispatches to a tool; [Schedule] runs a batch of them and
    returns one result per call. [Edit] and [Patch] are such tools and leave
    [Trailer]s in their reports. [Session] appends the results (cut by [ToolText])
    to the transcript, shrinks and compacts it (with [Summary]) and repairs it with
    [Pairing] for every request; [History] and [Tree] keep the user's other
    transcripts. [Retry] runs a request against providers and [ErrorClass] decides
    what a failure means; the answer arrives through [LineBuffer] and [ThinkTags].
    [Turn] is where they meet: it makes room with [Compaction] over [Session], reads
    the stream into [ToolStream] and [Thinking], lets [StreamRules] and [Harmony]
    throw drafts away, chooses the next key or model with [ErrorClass], runs batches
    with [Schedule] and adds their results. The provider, the clock, the user and the
    tools are the classes [CompactEnv] and [TurnEnv]; the theorems hold for every
    instance, and a small world in [TurnFacts] runs the loop on examples. Before all
    this [ConfigLoad] makes one configuration of the defaults, the user's file, the
    project's and the environment; its agents carry the [PermissionSet]s the gate reads,
    its sections the [NetworkPolicy], the stream rules and the hooks. [PermHub] is one of
    the prompters the gate asks. A request leaves the program through [Secrets]; the
    placeholders of its answer, the arguments of tool calls among them, are resolved
    before the tools see them. [Editor] is where the text of a turn comes from.

    ** What the theorems show

    Safety: what a refused command, a network address outside the policy or a
    claimed file can never do; no panic in the slices and indices of edits,
    patches, hosts and caps. Functional behaviour: exact accounts of edits, hunks,
    patches of several files, authorization, retries, caps, compaction. Refinement:
    index arithmetic, shared logs, the trie and the claim registry implement plain
    specifications of copies, lists and maps. Round trips: printed line tags,
    patches, tokens and trailers are read back, and so are events, calls and thoughts
    however a stream is cut. Termination and bounds: the parser, the tokenizer, the
    glob matcher, the retry loop and, with a step limit, a whole turn end; attempts
    and sizes are bounded. Invariants: the token count, the pairing of calls and
    results over a turn, messages that wait for a worker or a turn, the permissions of
    the built-in agents under any layers. Configuration: a stack of layers gives each
    setting the value of the highest layer that sets it (custom tools and the schema
    version apart), a project's file never moves the user's search endpoint, secrets are
    not printed, validation reports exactly what is wrong, and an edit of a key changes
    that key and leaves the order, spacing and comments around it. Secrets: a text of a
    request holds no secret that was known before it, and what was replaced is restored,
    for secrets that no placeholder can be confused with. The prompt: no action cuts a
    character, and a paste shown as a token is given back by a submission straight after
    it. Several theorems hold under conditions the code does not check (ASCII tool texts
    for the token count, no rewind for the pairing of a turn, no overlapping reads of one
    agent for the claim registry); each names its own, and for most an [Example] shows what
    happens without. Where the code falls short of what it
    says, a lemma or an [Example] next to the definition exhibits the input.

    ** Fuel and bounds

    Fuel is always proved enough, or the function's totality is a theorem: the
    parser is given a multiple of the length of the line, loops over text the length
    of the text, the retry loop [max_retries + 1], the walk of the tree the number
    of its nodes. Two loops have no bound. [Assess.assess_fuel]: the classifier recurses
    on the scripts of [bash -c] without a bound, and a lemma shows that it can
    diverge; it returns exactly on the lines whose nesting of shells ends
    ([nesting_ends]), and then with the same result from some fuel on. So does
    [Commands.expand_shell], which runs commands found in the output of commands: as many
    rounds as the text has backticks are enough when no output has one, and a lemma shows
    the other case. The loop of a turn takes its
    iterations as fuel: [turn_bound] of them are enough, a lexicographic measure
    (steps left, dialect and overflow retries, fallback models, keys, rules that may
    still fire, time left for a dropped stream) counted as a number. Machine integers are kept at
    their width where the code can reach it (counts of footers, delays, hunks,
    ids); elsewhere lengths are natural numbers.

    ** What is not modelled

    Third-party code and the operating system: JSON values ([serde_json], the class
    [Json]), dates ([chrono]), hashes, [git], the file system beyond a map of paths,
    processes, HTTP and terminals; each is a parameter of the definitions that use
    it, as are the regular expressions and the SHA-256 of [Secrets]. Of a turn, what precedes its first request (system prompt, memory, magic
    words), status lines, usage and cost, statistics, the response cache, early
    reads and the work after the reply do not steer the loop and are left out.
    Of the configuration, reading and writing files and the syntax of TOML are
    parameters ([toml], [toml_edit]), and the copy of a legacy home is left out. Of
    the terminal only the prompt is modelled, without suggestions, images, the mouse and
    the timing of keys. The other front ends ([cli], [sdk], the routes of [server]),
    provider clients, the database and logging are not modelled: they render, transport
    or store what the parts above decide. *)

From Stdlib Require Import String Ascii.
Export StringSyntax AsciiSyntax.
#[global] Delimit Scope string_scope with string.
#[global] Delimit Scope char_scope with char.
From stdpp Require Export base list numbers option gmap.

#[export] Set Default Goal Selector "!".

(** ** Characters and strings

    A Rust [char] is its Unicode scalar value, an [N]; a [str] is the list of its
    characters. Operations of [std] that count or index bytes go through [utf8]
    (file RustStr). String literals of the source are ASCII and are written
    [lit "..."]; a character literal is [chr "c"]. *)

Abbreviation rchar := N (only parsing).
Abbreviation str := (list N).

Abbreviation string := String.string (only parsing).

Definition chr (a : Ascii.ascii) : rchar := N_of_ascii a.
Arguments chr _%_char : simpl never.

Definition lit (s : String.string) : str := chr <$> list_ascii_of_string s.
Arguments lit _%_string : simpl never.

(** Characters that have no convenient literal. *)
Definition cHT : rchar := 9.
Definition cLF : rchar := 10.
Definition cCR : rchar := 13.
Definition cDQ : rchar := 34.
Definition cSQ : rchar := 39.
Definition cBS : rchar := 92.
Definition cBT : rchar := 96.

Declare Scope rust_scope.
Delimit Scope rust_scope with rust.

(** [a == b] is the boolean equality the source's [==] computes. *)
Notation "a == b" := (bool_decide (a = b)) (at level 70, no associativity) : rust_scope.
Notation "a != b" := (negb (bool_decide (a = b))) (at level 70, no associativity) : rust_scope.
#[global] Open Scope rust_scope.

(** [matches!(s, "a" | "b" | ...)], and membership in a [&[&str]] table. *)
Definition is_one_of (s : str) (table : list string) : bool :=
  existsb (λ t, s == lit t) table.
Arguments is_one_of _ _%_list_scope.

(** ** Automation shared by the development *)

Create HintDb rust discriminated.

(** Booleans of the source to propositions. *)
Ltac boolp :=
  repeat match goal with
  | H : _ && _ = true |- _ => apply andb_true_iff in H as [? ?]
  | H : _ || _ = false |- _ => apply orb_false_iff in H as [? ?]
  | H : negb _ = true |- _ => apply negb_true_iff in H
  | H : negb _ = false |- _ => apply negb_false_iff in H
  | H : bool_decide _ = true |- _ => apply bool_decide_eq_true_1 in H
  | H : bool_decide _ = false |- _ => apply bool_decide_eq_false_1 in H
  | H : (_ =? _)%N = true |- _ => apply N.eqb_eq in H
  | H : (_ =? _)%N = false |- _ => apply N.eqb_neq in H
  | H : (_ =? _)%nat = true |- _ => apply Nat.eqb_eq in H
  | H : (_ =? _)%nat = false |- _ => apply Nat.eqb_neq in H
  | H : (_ <? _)%nat = true |- _ => apply Nat.ltb_lt in H
  | H : (_ <? _)%nat = false |- _ => apply Nat.ltb_ge in H
  | H : (_ <=? _)%nat = true |- _ => apply Nat.leb_le in H
  | H : (_ <=? _)%nat = false |- _ => apply Nat.leb_gt in H
  | H : (_ <? _)%N = true |- _ => apply N.ltb_lt in H
  | H : (_ <? _)%N = false |- _ => apply N.ltb_ge in H
  | H : (_ <=? _)%N = true |- _ => apply N.leb_le in H
  | H : (_ <=? _)%N = false |- _ => apply N.leb_gt in H
  end.

(** Case analysis on the innermost [match]/[if] of the goal or a hypothesis. *)
Ltac dmatch :=
  match goal with
  | |- context [match ?x with _ => _ end] =>
      lazymatch x with
      | context [match _ with _ => _ end] => fail
      | _ => destruct x eqn:?
      end
  end.
Ltac dmatch_in H :=
  match type of H with
  | context [match ?x with _ => _ end] =>
      lazymatch x with
      | context [match _ with _ => _ end] => fail
      | _ => destruct x eqn:?
      end
  end.

(** ** Generic list facts *)

Lemma drop_lookup_cons {A} (l : list A) i x r :
  drop i l = x :: r ↔ l !! i = Some x ∧ drop (S i) l = r.
Proof.
  revert i; induction l as [|y l IH]; intros [|i]; simpl.
  - naive_solver.
  - naive_solver.
  - rewrite drop_0. naive_solver.
  - apply IH.
Qed.

Lemma drop_nil_iff {A} (l : list A) i : drop i l = [] ↔ length l ≤ i.
Proof.
  split; [|apply drop_ge].
  intros H%(f_equal length). rewrite length_drop in H. simpl in H. lia.
Qed.

Lemma existsb_false_iff {A} (f : A → bool) l :
  existsb f l = false ↔ ∀ x, x ∈ l → f x = false.
Proof.
  induction l as [|y l IH]; simpl.
  - split; [|done]. intros _ x Hx. by apply elem_of_nil in Hx.
  - rewrite orb_false_iff, IH. setoid_rewrite elem_of_cons. naive_solver.
Qed.

Lemma existsb_true_iff {A} (f : A → bool) l :
  existsb f l = true ↔ ∃ x, x ∈ l ∧ f x = true.
Proof.
  rewrite existsb_exists. setoid_rewrite list_elem_of_In. done.
Qed.

Lemma forallb_true_iff {A} (f : A → bool) l :
  forallb f l = true ↔ ∀ x, x ∈ l → f x = true.
Proof.
  rewrite forallb_forall. setoid_rewrite list_elem_of_In. done.
Qed.

Lemma list_filter_id {A} (P : A → Prop) `{!∀ x, Decision (P x)} (l : list A) :
  (∀ x, x ∈ l → P x) → filter P l = l.
Proof.
  induction l as [|x l IH]; intros HP; [done|].
  rewrite filter_cons_True by (apply HP; by left). f_equal. apply IH. intros y Hy. apply HP. by right.
Qed.

(** An infix of a list: what a slice [&s[a..b]] returns. *)
Definition infix_of {A} (k l : list A) : Prop := ∃ a b, l = a ++ k ++ b.

Lemma infix_of_length {A} (k l : list A) : infix_of k l → length k ≤ length l.
Proof. intros (a & b & ->). rewrite !length_app. lia. Qed.

Lemma infix_take_drop {A} (l : list A) i n : infix_of (take n (drop i l)) l.
Proof.
  exists (take i l), (drop n (drop i l)).
  by rewrite (take_drop n (drop i l)), take_drop.
Qed.

(** ** Errors and panics

    [result] is [Result<T, String>]. [outcome] is a computation that may panic
    ([None]) or return a [result]; [x <-? m; k] is the source's [?]. *)
Inductive result (A : Type) := Ok (a : A) | Err (e : str).
Arguments Ok {_} _.
Arguments Err {_} _.
Notation outcome A := (option (result A)).
Definition try_bind {A B} (m : outcome A) (k : A → outcome B) : outcome B :=
  match m with
  | Some (Ok a) => k a
  | Some (Err e) => Some (Err e)
  | None => None
  end.
Notation "x <-? m ; k" := (try_bind m (λ x, k)) 
  (at level 20, m at level 100, k at level 200, only parsing).
Notation "' x <-? m ; k" := (try_bind m (λ x, k))
  (at level 20, x pattern, m at level 100, k at level 200, only parsing).

Lemma try_bind_Some {A B} (m : outcome A) (k : A → outcome B) r :
  try_bind m k = Some r ↔
  (∃ e, m = Some (Err e) ∧ r = Err e) ∨ (∃ a, m = Some (Ok a) ∧ k a = Some r).
Proof. unfold try_bind. repeat case_match; naive_solver. Qed.
