(* ===== verification/RustStr.v ===== *)
(** Rust's [std] string and character operations, as the modelled crates use
    them, on strings as lists of Unicode scalar values. Everything here is
    executable and models the language's standard library, not the program. *)

From S2P Require Import Prelude.

(** ** Characters *)

Definition is_ascii_lower (c : rchar) : bool := (97 <=? c)%N && (c <=? 122)%N.
Definition is_ascii_upper (c : rchar) : bool := (65 <=? c)%N && (c <=? 90)%N.
Definition is_ascii_digit (c : rchar) : bool := (48 <=? c)%N && (c <=? 57)%N.
Definition is_ascii_alphabetic (c : rchar) : bool := is_ascii_lower c || is_ascii_upper c.
Definition is_ascii_alphanumeric (c : rchar) : bool := is_ascii_alphabetic c || is_ascii_digit c.

(** [char::is_whitespace]: the Unicode [White_Space] property. *)
Definition is_whitespace (c : rchar) : bool :=
  ((9 <=? c)%N && (c <=? 13)%N) || (c =? 32)%N || (c =? 133)%N || (c =? 160)%N
  || (c =? 5760)%N || ((8192 <=? c)%N && (c <=? 8202)%N)
  || (c =? 8232)%N || (c =? 8233)%N || (c =? 8239)%N || (c =? 8287)%N || (c =? 12288)%N.

(** [u8::is_ascii_whitespace]: space, tab, LF, FF, CR (no vertical tab). *)
Definition is_ascii_whitespace (b : N) : bool :=
  (b =? 32)%N || (b =? 9)%N || (b =? 10)%N || (b =? 12)%N || (b =? 13)%N.

Definition ascii_lower (c : rchar) : rchar := if is_ascii_upper c then (c + 32)%N else c.

(** [char::is_digit(radix)] for radix 8 and 16, and the digit's value. *)
Definition to_digit (radix c : N) : option N :=
  let v := if is_ascii_digit c then Some (c - 48)%N
           else if is_ascii_lower c then Some (c - 87)%N
           else if is_ascii_upper c then Some (c - 55)%N
           else None in
  match v with Some d => if (d <? radix)%N then Some d else None | None => None end.
Definition is_digit (radix c : N) : bool := bool_decide (is_Some (to_digit radix c)).

(** [char::from_u32]. *)
Definition char_from_u32 (n : N) : option rchar :=
  if ((n <? 55296) || ((57343 <? n) && (n <=? 1114111)))%N then Some n else None.

(** [u32::from_str_radix] on a string of digits: [Err] on the empty string and on
    overflow. (The parser only passes digits.) *)
Fixpoint from_digits (radix : N) (acc : N) (s : str) : option N :=
  match s with
  | [] => Some acc
  | c :: r =>
      match to_digit radix c with
      | None => None
      | Some d =>
          let acc' := (acc * radix + d)%N in
          if (acc' <=? 4294967295)%N then from_digits radix acc' r else None
      end
  end.
Definition from_str_radix (radix : N) (s : str) : option N :=
  match s with [] => None | _ => from_digits radix 0 s end.

(** ** UTF-8: what [str::as_bytes] and [str::len] see *)

Definition utf8_char (c : rchar) : list N :=
  if (c <? 128)%N then [c]
  else if (c <? 2048)%N then [192 + c / 64; 128 + c mod 64]%N
  else if (c <? 65536)%N then [224 + c / 4096; 128 + (c / 64) mod 64; 128 + c mod 64]%N
  else [240 + c / 262144; 128 + (c / 4096) mod 64; 128 + (c / 64) mod 64; 128 + c mod 64]%N.
Definition utf8 (s : str) : list N := mjoin (utf8_char <$> s).
(** [str::len]. *)
Definition byte_len (s : str) : nat := length (utf8 s).

(** ** Prefixes, suffixes, search *)

Fixpoint strip_prefix (p s : str) : option str :=
  match p, s with
  | [], _ => Some s
  | a :: p', b :: s' => if (a =? b)%N then strip_prefix p' s' else None
  | _ :: _, [] => None
  end.
Definition starts_with (s p : str) : bool := bool_decide (is_Some (strip_prefix p s)).
Definition strip_suffix (p s : str) : option str :=
  match strip_prefix (rev p) (rev s) with Some r => Some (rev r) | None => None end.
Definition ends_with (s p : str) : bool := bool_decide (is_Some (strip_suffix p s)).

(** [s.contains(p)] for a string pattern. *)
Fixpoint contains (s p : str) : bool :=
  starts_with s p || match s with [] => false | _ :: r => contains r p end.
(** [s.contains(c)] for a character pattern. *)
Definition contains_char (s : str) (c : rchar) : bool := existsb (N.eqb c) s.

(** [s.find(c)], [s.rfind(c)]: here as a character index. *)
Fixpoint find_index (f : rchar → bool) (s : str) : option nat :=
  match s with
  | [] => None
  | c :: r => if f c then Some 0 else S <$> find_index f r
  end.
Definition rfind_index (f : rchar → bool) (s : str) : option nat :=
  match find_index f (rev s) with Some i => Some (length s - S i) | None => None end.

(** ** Trimming and replacing *)

Fixpoint drop_while {A} (f : A → bool) (s : list A) : list A :=
  match s with [] => [] | c :: r => if f c then drop_while f r else s end.
Fixpoint take_while {A} (f : A → bool) (s : list A) : list A :=
  match s with [] => [] | c :: r => if f c then c :: take_while f r else [] end.
Definition trim_start_matches (f : rchar → bool) (s : str) : str := drop_while f s.
Definition trim_end_matches (f : rchar → bool) (s : str) : str := rev (drop_while f (rev s)).
Definition trim_start (s : str) : str := trim_start_matches is_whitespace s.
Definition trim_end (s : str) : str := trim_end_matches is_whitespace s.
Definition trim (s : str) : str := trim_end (trim_start s).

(** [s.trim_start_matches(p)] for a non-empty string pattern. *)
Fixpoint trim_start_str_go (fuel : nat) (p s : str) : str :=
  match fuel with
  | O => s
  | S n => match strip_prefix p s with Some r => trim_start_str_go n p r | None => s end
  end.
Definition trim_start_str (p s : str) : str := trim_start_str_go (length s) p s.

(** [s.replace(from, to)] for a non-empty [from]: leftmost, non-overlapping.
    [skip] counts the characters of a match still to be consumed. *)
Fixpoint replace_go (from to : str) (skip : nat) (s : str) : str :=
  match s with
  | [] => []
  | c :: r =>
      match skip with
      | S k => replace_go from to k r
      | O => if starts_with s from then to ++ replace_go from to (pred (length from)) r
             else c :: replace_go from to 0 r
      end
  end.
Definition replace (s from to : str) : str := replace_go from to 0 s.
(** [s.replace(c, to)] for a character pattern. *)
Definition replace_char (s : str) (c : rchar) (to : str) : str :=
  mjoin ((λ x, if (x =? c)%N then to else [x]) <$> s).

Definition to_ascii_lowercase (s : str) : str := ascii_lower <$> s.
Definition eq_ignore_ascii_case (a b : str) : bool := to_ascii_lowercase a == to_ascii_lowercase b.

(** ** Splitting and joining *)

(** [s.split(f)]: always at least one piece. *)
Fixpoint split_on (f : rchar → bool) (s : str) : list str :=
  match s with
  | [] => [[]]
  | c :: r =>
      if f c then [] :: split_on f r
      else match split_on f r with
           | p :: ps => (c :: p) :: ps
           | [] => [[c]]
           end
  end.
(** [s.split_whitespace()]: the non-empty pieces. *)
Definition split_whitespace (s : str) : list str :=
  filter (λ w, w ≠ []) (split_on is_whitespace s).
(** [s.rsplit(f).next()]: the piece after the last separator. *)
Definition rsplit_next (f : rchar → bool) (s : str) : str := rev (take_while (λ c, negb (f c)) (rev s)).
(** [v.join(sep)]. *)
Fixpoint join (sep : str) (v : list str) : str :=
  match v with
  | [] => []
  | [x] => x
  | x :: r => x ++ sep ++ join sep r
  end.

Definition quoted (s : str) : str := [cBT] ++ s ++ [cBT].

(** ** Lines *)

(** [s.lines()]. *)
Definition strip_cr (l : str) : str := default l (strip_suffix [cCR] l).
Fixpoint lines_of (pieces : list str) : list str :=
  match pieces with
  | [] => []
  | [last] => if last == [] then [] else [last]
  | p :: ps => strip_cr p :: lines_of ps
  end.
Definition lines (s : str) : list str := lines_of (split_on (N.eqb cLF) s).

(** ** Decimal numbers *)

Fixpoint digits_go (fuel : nat) (n : N) (acc : str) : str :=
  match fuel with
  | O => acc
  | S k =>
      let acc := (48 + n mod 10)%N :: acc in
      if (n / 10 =? 0)%N then acc else digits_go k (n / 10)%N acc
  end.
(** The decimal digits of [n]. *)
Definition digits (n : N) : str := digits_go (S (N.to_nat (N.size n))) n [].

(** [s.parse::<uN>()] with maximum value [max]: an optional [+], then digits,
    with every step checked for overflow. *)
Fixpoint parse_digits (max acc : N) (s : str) : option N :=
  match s with
  | [] => Some acc
  | c :: r =>
      if is_ascii_digit c then
        let acc' := (acc * 10 + (c - 48))%N in
        if (acc' <=? max)%N then parse_digits max acc' r else None
      else None
  end.
Definition parse_uint (max : N) (s : str) : option N :=
  match s with
  | [] => None
  | c :: r => if (c =? 43)%N then match r with [] => None | _ => parse_digits max 0 r end
              else parse_digits max 0 s
  end.
Definition usize_max : N := 18446744073709551615.
Definition u64_max : N := 18446744073709551615.

(** ** Laws *)

Lemma strip_prefix_Some p s r : strip_prefix p s = Some r ↔ s = p ++ r.
Proof.
  revert s; induction p as [|a p IH]; intros s; simpl.
  - naive_solver.
  - destruct s as [|b s]; [naive_solver|].
    destruct (N.eqb_spec a b) as [->|Hne]; [|naive_solver].
    rewrite IH. naive_solver.
Qed.

Lemma strip_prefix_ne a p c r : a ≠ c → strip_prefix (a :: p) (c :: r) = None.
Proof. intros H. simpl. by rewrite (proj2 (N.eqb_neq a c)). Qed.

Lemma starts_with_true s p : starts_with s p = true ↔ ∃ r, s = p ++ r.
Proof.
  unfold starts_with. rewrite bool_decide_eq_true. unfold is_Some.
  by setoid_rewrite strip_prefix_Some.
Qed.

Lemma starts_with_app p r : starts_with (p ++ r) p = true.
Proof. apply starts_with_true. eauto. Qed.

Lemma strip_suffix_Some p s r : strip_suffix p s = Some r ↔ s = r ++ p.
Proof.
  unfold strip_suffix. destruct (strip_prefix (rev p) (rev s)) as [t|] eqn:E.
  - apply strip_prefix_Some in E.
    apply (f_equal (@rev _)) in E. rewrite rev_app_distr, !rev_involutive in E.
    split; [naive_solver|]. intros ->. apply app_inv_tail in E. by rewrite <- E.
  - split; [done|]. intros ->. rewrite rev_app_distr in E.
    assert (strip_prefix (rev p) (rev p ++ rev r) = Some (rev r)) as E'
      by by apply strip_prefix_Some.
    congruence.
Qed.

Lemma ends_with_true s p : ends_with s p = true ↔ ∃ r, s = r ++ p.
Proof.
  unfold ends_with. rewrite bool_decide_eq_true. unfold is_Some.
  by setoid_rewrite strip_suffix_Some.
Qed.

Lemma contains_true s p : contains s p = true ↔ infix_of p s.
Proof.
  unfold infix_of. induction s as [|c s IH]; simpl.
  - rewrite orb_false_r, starts_with_true. split.
    + intros [r ->]. by exists [], r.
    + intros (a & b & E). destruct a, p, b; try done. by exists [].
  - rewrite orb_true_iff, starts_with_true, IH. split.
    + intros [[r ->]|(a & b & ->)]; [by exists [], r|by exists (c :: a), b].
    + intros ([|x a] & b & E); [left; by exists b|right].
      simplify_eq/=. by exists a, b.
Qed.

Lemma contains_char_true s c : contains_char s c = true ↔ c ∈ s.
Proof.
  unfold contains_char. rewrite existsb_true_iff. setoid_rewrite N.eqb_eq. naive_solver.
Qed.
Lemma contains_char_false s c : contains_char s c = false ↔ c ∉ s.
Proof. rewrite <- contains_char_true. by destruct (contains_char s c). Qed.

Lemma take_drop_while {A} f (s : list A) : take_while f s ++ drop_while f s = s.
Proof. induction s as [|c s IH]; simpl; [done|]. case_match; simpl; by rewrite ?IH. Qed.

Lemma take_while_all {A} f (s : list A) : Forall (λ c, f c = true) (take_while f s).
Proof. induction s; simpl; [done|]. case_match; auto. Qed.

Lemma drop_while_head {A} f (s : list A) c r : drop_while f s = c :: r → f c = false.
Proof. induction s; simpl; [done|]. case_match; naive_solver. Qed.

Lemma drop_while_infix {A} f (s : list A) : ∃ p, s = p ++ drop_while f s.
Proof. exists (take_while f s). by rewrite take_drop_while. Qed.

Lemma drop_while_id {A} f (s : list A) : (∀ c r, s = c :: r → f c = false) → drop_while f s = s.
Proof. destruct s as [|c s]; simpl; [done|]. intros H. by rewrite (H c s). Qed.

Lemma trim_end_matches_prefix f s : ∃ p, s = trim_end_matches f s ++ p.
Proof.
  unfold trim_end_matches. destruct (drop_while_infix f (rev s)) as [p E].
  exists (rev p). by rewrite <- rev_app_distr, <- E, rev_involutive.
Qed.

Lemma trim_end_matches_id f s c : f c = false → trim_end_matches f (s ++ [c]) = s ++ [c].
Proof.
  intros Hc. unfold trim_end_matches.
  rewrite drop_while_id; [by rewrite rev_involutive|].
  rewrite rev_app_distr. simpl. naive_solver.
Qed.

Lemma trim_end_matches_last f s c r : trim_end_matches f s = r ++ [c] → f c = false.
Proof.
  unfold trim_end_matches. intros E%(f_equal (@rev _)).
  rewrite rev_involutive, rev_app_distr in E. exact (drop_while_head _ _ _ _ E).
Qed.

Lemma trim_id s : Forall (λ c, is_whitespace c = false) s → trim s = s.
Proof.
  intros H. unfold trim, trim_start, trim_start_matches. rewrite drop_while_id.
  - destruct s as [|c s _] using rev_ind; [done|]. apply trim_end_matches_id.
    apply Forall_app in H as [_ H]. by inversion H.
  - intros c r ->. by inversion H.
Qed.
Lemma trim_id_ends a m z : is_whitespace a = false → is_whitespace z = false → trim (a :: m ++ [z]) = a :: m ++ [z].
Proof.
  intros Ha Hz. unfold trim, trim_start, trim_start_matches. cbn [drop_while]. rewrite Ha.
  apply (trim_end_matches_id _ (a :: m) z Hz).
Qed.
(** Visible ASCII is no white space. *)
Lemma trim_id_head_last s : (∀ a, head s = Some a → is_whitespace a = false) → (∀ z, last s = Some z → is_whitespace z = false) → trim s = s.
Proof.
  intros Ha Hz. unfold trim, trim_start, trim_end, trim_start_matches, trim_end_matches.
  rewrite (drop_while_id _ s); [rewrite drop_while_id; [apply rev_involutive|]|].
  - intros c r E. apply Hz. rewrite <- (rev_involutive s), E. cbn. by rewrite last_snoc.
  - intros c r ->. by apply Ha.
Qed.
Lemma trim_start_head s c r : trim_start s = c :: r → is_whitespace c = false.
Proof. unfold trim_start, trim_start_matches. apply drop_while_head. Qed.
Lemma trim_head s c r : trim s = c :: r → is_whitespace c = false.
Proof.
  unfold trim, trim_end. intros E.
  destruct (trim_end_matches_prefix is_whitespace (trim_start s)) as [q Eq]. rewrite E in Eq.
  by apply (trim_start_head s c (r ++ q)).
Qed.
Lemma trim_trim (s : str) : trim (trim s) = trim s.
Proof.
  apply trim_id_head_last.
  - intros a Ha. destruct (trim s) as [|c r] eqn:E; [done|]. injection Ha as ->. by apply trim_head in E.
  - intros z Hz. destruct (trim s) as [|r c _] eqn:E using rev_ind; [done|]. rewrite last_snoc in Hz. injection Hz as ->.
    by apply trim_end_matches_last in E.
Qed.

Lemma visible_not_whitespace c : (33 ≤ c ≤ 126)%N → is_whitespace c = false.
Proof.
  intros Hc. unfold is_whitespace. repeat (apply orb_false_iff; split);
    try apply andb_false_iff; rewrite ?N.leb_gt, ?N.eqb_neq; lia.
Qed.

Lemma ascii_lower_idemp c : ascii_lower (ascii_lower c) = ascii_lower c.
Proof.
  unfold ascii_lower. destruct (is_ascii_upper c) eqn:E; [|by rewrite E].
  destruct (is_ascii_upper (c + 32)) eqn:E'; [|done]. exfalso.
  unfold is_ascii_upper in *. boolp. lia.
Qed.

Lemma to_ascii_lowercase_idemp s : to_ascii_lowercase (to_ascii_lowercase s) = to_ascii_lowercase s.
Proof.
  unfold to_ascii_lowercase. rewrite <- list_fmap_compose.
  apply list_fmap_ext. intros. apply ascii_lower_idemp.
Qed.

(** Text up to a separator comes back whole. *)
Lemma take_while_app {A} f (s : list A) c r :
  Forall (λ x, f x = true) s → f c = false → take_while f (s ++ c :: r) = s.
Proof.
  intros Hs Hc. induction Hs as [|x s Hx _ IH]; simpl; [by rewrite Hc|].
  by rewrite Hx, IH.
Qed.

Lemma drop_while_app {A} (f : A → bool) (a b : list A) c :
  Forall (λ x, f x = true) a → f c = false → drop_while f (a ++ c :: b) = c :: b.
Proof. intros Ha Hc. induction Ha as [|x a Hx _ IH]; simpl; [by rewrite Hc|by rewrite Hx]. Qed.

Lemma rsplit_next_app f (a s : str) c :
  f c = true → Forall (λ c, f c = false) s → rsplit_next f (a ++ c :: s) = s.
Proof.
  intros Hc Hs. unfold rsplit_next. rewrite rev_app_distr. simpl rev.
  rewrite <- app_assoc. simpl app. rewrite take_while_app.
  - apply rev_involutive.
  - apply Forall_forall. intros x Hx. rewrite <- in_rev, <- list_elem_of_In in Hx
    || (apply list_elem_of_In, in_rev, list_elem_of_In in Hx).
    by rewrite (proj1 (Forall_forall _ _) Hs x Hx).
  - by rewrite Hc.
Qed.

Lemma split_on_nonempty f s : split_on f s ≠ [].
Proof. destruct s; simpl; [done|]. repeat case_match; done. Qed.

Lemma split_on_app f (a : str) c b :
  Forall (λ x, f x = false) a → f c = true → split_on f (a ++ c :: b) = a :: split_on f b.
Proof.
  intros Ha Hc. induction Ha as [|x a Hx _ IH]; cbn [app split_on]; [by rewrite Hc|].
  by rewrite Hx, IH.
Qed.

Lemma split_on_none f (a : str) : Forall (λ x, f x = false) a → split_on f a = [a].
Proof. induction 1 as [|x a Hx _ IH]; [done|]. cbn [split_on]. by rewrite Hx, IH. Qed.

(** Lines written one after the other are read back. *)
Definition clean_line (l : str) : Prop := Forall (λ c, c ≠ cLF) l ∧ last l ≠ Some cCR.
Definition unlines (ls : list str) : str := mjoin ((λ l, l ++ [cLF]) <$> ls).

Lemma strip_cr_id l : last l ≠ Some cCR → strip_cr l = l.
Proof.
  intros Hl. unfold strip_cr. destruct (strip_suffix [cCR] l) as [r|] eqn:E; [|done].
  apply strip_suffix_Some in E as ->. by rewrite last_snoc in Hl.
Qed.

Lemma split_on_unlines ls t :
  Forall clean_line ls → split_on (N.eqb cLF) (unlines ls ++ t) = ls ++ split_on (N.eqb cLF) t.
Proof.
  induction 1 as [|l ls [Hl _] _ IH]; [done|].
  change (unlines (l :: ls)) with ((l ++ [cLF]) ++ unlines ls). rewrite <- !app_assoc. cbn [app]. rewrite split_on_app.
  - by rewrite IH.
  - eapply Forall_impl; [exact Hl|]. intros c Hc. apply N.eqb_neq. congruence.
  - done.
Qed.

Lemma lines_of_snoc_nil ls : Forall clean_line ls → lines_of (ls ++ [[]]) = ls.
Proof.
  induction 1 as [|l ls [_ Hl] _ IH]; [done|]. cbn [app lines_of].
  destruct (ls ++ [[]]) eqn:E; [by apply app_eq_nil in E as [_ ?]|]. by rewrite strip_cr_id, IH.
Qed.

Lemma lines_unlines ls : Forall clean_line ls → lines (unlines ls) = ls.
Proof.
  intros Hls. unfold lines. rewrite <- (app_nil_r (unlines ls)), split_on_unlines by done.
  by apply lines_of_snoc_nil.
Qed.

Lemma split_whitespace_word s w : w ∈ split_whitespace s → w ≠ [].
Proof. unfold split_whitespace. intros Hw. by apply list_elem_of_filter in Hw as [? _]. Qed.

(** *** Words of a text *)

Definition is_word (w : str) : Prop := w ≠ [] ∧ Forall (λ c, is_whitespace c = false) w.

Lemma split_on_pieces f (s : str) : Forall (Forall (λ c, f c = false)) (split_on f s).
Proof.
  induction s as [|c s IH]; cbn; [repeat constructor|]. case_match eqn:E; [by constructor|].
  destruct (split_on f s) as [|p ps]; [repeat constructor; done|].
  inversion_clear IH. constructor; [by constructor|done].
Qed.

Lemma split_whitespace_words s : Forall is_word (split_whitespace s).
Proof.
  apply Forall_forall. unfold split_whitespace. intros w [Hne Hin]%list_elem_of_filter.
  split; [done|]. exact (proj1 (Forall_forall _ _) (split_on_pieces _ s) w Hin).
Qed.

Lemma split_whitespace_skip ws s :
  Forall (λ c, is_whitespace c = true) ws → split_whitespace (ws ++ s) = split_whitespace s.
Proof.
  induction 1 as [|c ws Hc _ IH]; [done|]. cbn [app]. unfold split_whitespace in *.
  cbn [split_on]. rewrite Hc, filter_cons_False; [done|]. by intros [].
Qed.

Lemma split_whitespace_word_app w ws s :
  is_word w → Forall (λ c, is_whitespace c = true) ws → ws ≠ [] →
  split_whitespace (w ++ ws ++ s) = w :: split_whitespace s.
Proof.
  intros [Hne Hw] Hws Hn. destruct Hws as [|c ws Hc Hws]; [done|]. unfold split_whitespace at 1.
  cbn [app]. rewrite split_on_app, filter_cons_True by done. f_equal.
  by apply split_whitespace_skip.
Qed.

Lemma split_whitespace_single w : is_word w → split_whitespace w = [w].
Proof.
  intros [Hne Hw]. unfold split_whitespace. rewrite split_on_none by done.
  by rewrite filter_cons_True.
Qed.

Lemma byte_len_app a b : byte_len (a ++ b) = byte_len a + byte_len b.
Proof. unfold byte_len, utf8. by rewrite fmap_app, join_app, length_app. Qed.

Lemma utf8_app a b : utf8 (a ++ b) = utf8 a ++ utf8 b.
Proof. unfold utf8. by rewrite fmap_app, join_app. Qed.

(** The decimal rendering of a number parses back to it. *)
Lemma is_ascii_digit_mod n : is_ascii_digit (48 + n mod 10) = true.
Proof.
  pose proof (N.mod_lt n 10 ltac:(done)) as H. revert H. generalize (n mod 10)%N.
  intros m H. unfold is_ascii_digit. apply andb_true_iff; split; apply N.leb_le; lia.
Qed.

Lemma digits_go_app k n acc : digits_go k n acc = digits_go k n [] ++ acc.
Proof.
  revert n acc; induction k as [|k IH]; intros n acc; cbn [digits_go]; [done|].
  case_match; [done|]. rewrite IH, (IH _ [_]), <- app_assoc. done.
Qed.

Lemma digits_go_all k n acc :
  Forall (λ c, is_ascii_digit c = true) acc →
  Forall (λ c, is_ascii_digit c = true) (digits_go k n acc).
Proof.
  revert n acc; induction k as [|k IH]; intros n acc Ha; cbn [digits_go]; [done|].
  assert (Forall (λ c, is_ascii_digit c = true) ((48 + n mod 10)%N :: acc))
    by (constructor; [apply is_ascii_digit_mod|done]).
  case_match; [done|]. by apply IH.
Qed.

Lemma digits_all n : Forall (λ c, is_ascii_digit c = true) (digits n).
Proof. apply digits_go_all. constructor. Qed.

Lemma digits_forall n (P : rchar → Prop) : (∀ c, (48 ≤ c ≤ 57)%N → P c) → Forall P (digits n).
Proof.
  intros HP. eapply Forall_impl; [apply digits_all|]. intros c Hc. apply HP.
  unfold is_ascii_digit in Hc. boolp. lia.
Qed.

Lemma digits_go_nonnil k n acc : k ≠ 0 → digits_go k n acc ≠ [].
Proof.
  destruct k as [|k]; [done|]. intros _. cbn [digits_go]. case_match; [done|].
  rewrite digits_go_app. intros [_ ?]%app_eq_nil. done.
Qed.

Lemma digits_nonnil n : digits n ≠ [].
Proof. by apply digits_go_nonnil. Qed.

Lemma parse_digits_app max acc s t v :
  parse_digits max acc s = Some v → parse_digits max acc (s ++ t) = parse_digits max v t.
Proof.
  revert acc; induction s as [|c s IH]; intros acc; simpl; [by intros [= ->]|].
  repeat case_match; try done. apply IH.
Qed.

Lemma parse_digits_go max k n :
  (n < 10 ^ N.of_nat k)%N → (n ≤ max)%N →
  parse_digits max 0 (digits_go k n []) = Some n.
Proof.
  revert n; induction k as [|k IH]; intros n Hn Hm.
  { simpl in Hn. replace n with 0%N by lia. done. }
  cbn [digits_go]. pose proof (N.mod_lt n 10 ltac:(done)) as Hr.
  pose proof (N.div_mod n 10 ltac:(done)) as Hd.
  assert (∀ q, (q * 10 + n mod 10 = n)%N →
    parse_digits max q [(48 + n mod 10)%N] = Some n) as Hlast.
  { intros q Hq. cbn [parse_digits]. rewrite is_ascii_digit_mod.
    rewrite (N.add_comm 48), N.add_sub, Hq.
    by rewrite (proj2 (N.leb_le _ _) Hm). }
  destruct (n / 10 =? 0)%N eqn:E; boolp.
  - apply Hlast. lia.
  - rewrite digits_go_app.
    erewrite parse_digits_app; [|apply IH].
    + apply Hlast. lia.
    + apply N.Div0.div_lt_upper_bound. rewrite Nat2N.inj_succ, N.pow_succ_r' in Hn. lia.
    + etrans; [|exact Hm]. apply N.Div0.div_le_upper_bound. lia.
Qed.

Lemma size_pow10 n : (n < 10 ^ N.of_nat (S (N.to_nat (N.size n))))%N.
Proof.
  rewrite Nat2N.inj_succ, N2Nat.id, N.pow_succ_r'.
  pose proof (N.size_gt n). pose proof (N.pow_le_mono_l 2 10 (N.size n) ltac:(lia)). lia.
Qed.

Lemma parse_uint_digits max n : (n ≤ max)%N → parse_uint max (digits n) = Some n.
Proof.
  intros Hm. unfold parse_uint. pose proof (digits_all n) as Ha.
  destruct (digits n) as [|c r] eqn:E; [by apply digits_nonnil in E|].
  inversion_clear Ha as [|? ? Hc _].
  destruct (N.eqb_spec c 43) as [->|_]; [by vm_compute in Hc|].
  rewrite <- E. apply parse_digits_go; [apply size_pow10|done].
Qed.

Lemma parse_digits_bound max acc s v : (acc ≤ max)%N → parse_digits max acc s = Some v → (v ≤ max)%N.
Proof.
  revert acc; induction s as [|c s IH]; intros acc Ha; simpl; [by intros [= <-]|].
  repeat case_match; try done. apply IH. by boolp.
Qed.

#[export] Hint Rewrite strip_prefix_Some starts_with_true strip_suffix_Some
  ends_with_true contains_true contains_char_true : rust.
#[export] Hint Resolve infix_take_drop starts_with_app : rust.

(** Anchors against [std]'s documented behaviour. *)
Example trim_ex : trim (lit "  a b ") = lit "a b".
Proof. reflexivity. Qed.
Example replace_ex : replace (lit "a$HOMEb$HOME") (lit "$HOME") (lit "/h") = lit "a/hb/h".
Proof. reflexivity. Qed.
Example split_ex : split_whitespace (lit " a  b ") = [lit "a"; lit "b"].
Proof. reflexivity. Qed.
Example rsplit_ex : rsplit_next (N.eqb (chr "/")) (lit "/usr/bin/env") = lit "env".
Proof. reflexivity. Qed.
Example strip_suffix_ex : strip_suffix (lit "*") (lit "git *") = Some (lit "git ").
Proof. reflexivity. Qed.
