(* ===== verification/Bytes.v ===== *)
(** Byte offsets into a [str]. The source keeps positions as byte offsets and
    slices with them; a slice that is out of range or cuts a character panics.
    Here a slice is [None] where the code would panic, and the lemmas say that
    a slice exists exactly at the character boundaries. [find] and
    [match_indices] are [std]'s searches, with byte offsets as results. *)

From S2P Require Import Prelude RustStr.

(** [char::len_utf8]. *)
Definition len_utf8 (c : rchar) : nat := length (utf8_char c).

(** [&s[i..]], [&s[..i]] and [&s[i..j]]; [None] is the panic. *)
Fixpoint slice_from (s : str) (i : nat) : option str :=
  match i with
  | O => Some s
  | _ =>
      match s with
      | [] => None
      | c :: r => if len_utf8 c <=? i then slice_from r (i - len_utf8 c) else None
      end
  end.
Fixpoint slice_to (s : str) (i : nat) : option str :=
  match i with
  | O => Some []
  | _ =>
      match s with
      | [] => None
      | c :: r => if len_utf8 c <=? i then cons c <$> slice_to r (i - len_utf8 c) else None
      end
  end.
Definition slice (s : str) (i j : nat) : option str :=
  if i <=? j then t ← slice_from s i; slice_to t (j - i) else None.

(** [s.is_char_boundary(i)]. *)
Definition is_char_boundary (s : str) (i : nat) : bool := bool_decide (is_Some (slice_from s i)).

(** [s.find(p)]: the byte offset of the first occurrence. *)
Fixpoint find_go (p s : str) (i : nat) : option nat :=
  if starts_with s p then Some i
  else match s with [] => None | c :: r => find_go p r (i + len_utf8 c) end.
Definition find (s p : str) : option nat := find_go p s 0.

(** [s.match_indices(p)] for a non-empty [p], the offsets: leftmost, not
    overlapping. [skip] counts the characters of a match still to be passed. *)
Fixpoint match_go (p : str) (skip i : nat) (s : str) : list nat :=
  match s with
  | [] => []
  | c :: r =>
      match skip with
      | S k => match_go p k (i + len_utf8 c) r
      | O => if starts_with s p then i :: match_go p (pred (length p)) (i + len_utf8 c) r
             else match_go p 0 (i + len_utf8 c) r
      end
  end.
Definition match_indices (s p : str) : list nat := match_go p 0 0 s.

(** [s.rfind(c)] as a byte offset, for a character. *)
Fixpoint rfind_go (c : rchar) (s : str) (i : nat) (acc : option nat) : option nat :=
  match s with
  | [] => acc
  | d :: r => rfind_go c r (i + len_utf8 d) (if (d =? c)%N then Some i else acc)
  end.
Definition rfind_char (s : str) (c : rchar) : option nat := rfind_go c s 0 None.

(** [s.rfind(p)] for a string: the offset of the last occurrence. *)
Fixpoint rfind_str_go (p s : str) (i : nat) (acc : option nat) : option nat :=
  let acc := if starts_with s p then Some i else acc in
  match s with [] => acc | c :: r => rfind_str_go p r (i + len_utf8 c) acc end.
Definition rfind_str (s p : str) : option nat := rfind_str_go p s 0 None.

(** [s.find(f)] as a byte offset, for a character set or closure. *)
Fixpoint find_char_go (f : rchar → bool) (s : str) (i : nat) : option nat :=
  match s with
  | [] => None
  | d :: r => if f d then Some i else find_char_go f r (i + len_utf8 d)
  end.
Definition find_char (s : str) (f : rchar → bool) : option nat := find_char_go f s 0.

(** [s.split_once(p)]: around the first occurrence. *)
Fixpoint split_once (s p : str) : option (str * str) :=
  match strip_prefix p s with
  | Some r => Some ([], r)
  | None => match s with [] => None | c :: r => prod_map (cons c) id <$> split_once r p end
  end.

(** [s.matches(p).count()]. *)
Definition count_matches (s p : str) : nat := length (match_indices s p).

#[global] Arguments byte_len : simpl never.
#[global] Arguments utf8 : simpl never.
#[global] Arguments len_utf8 : simpl never.

(** ** Laws *)

Lemma len_utf8_pos c : 0 < len_utf8 c.
Proof. unfold len_utf8, utf8_char. repeat case_match; simpl; lia. Qed.

Lemma len_utf8_ascii c : (c < 128)%N → len_utf8 c = 1.
Proof. intros H%N.ltb_lt. unfold len_utf8, utf8_char. by rewrite H. Qed.

Lemma byte_len_nil : byte_len [] = 0.
Proof. done. Qed.
Lemma byte_len_cons c s : byte_len (c :: s) = len_utf8 c + byte_len s.
Proof. unfold byte_len, utf8, len_utf8. simpl. by rewrite length_app. Qed.
#[export] Hint Rewrite byte_len_nil byte_len_cons byte_len_app : bytes.

(** Normal form of byte lengths, then arithmetic. *)
Ltac blia := autorewrite with bytes in *; lia.

Lemma byte_len_zero s : byte_len s = 0 → s = [].
Proof. destruct s as [|c s]; [done|]. pose proof (len_utf8_pos c). blia. Qed.

Lemma slice_from_Some s i r : slice_from s i = Some r ↔ ∃ p, s = p ++ r ∧ byte_len p = i.
Proof.
  revert i; induction s as [|c s IH]; intros i.
  - destruct i; simpl; split.
    + intros [= <-]. by exists [].
    + intros (p & [-> ->]%eq_sym%app_eq_nil & _). done.
    + done.
    + intros (p & [-> ->]%eq_sym%app_eq_nil & H). done.
  - pose proof (len_utf8_pos c). destruct i as [|i]; cbn [slice_from].
    + split.
      * intros [= <-]. by exists [].
      * intros (p & E & H0%byte_len_zero). subst p. simpl in E. by subst r.
    + destruct (Nat.leb_spec (len_utf8 c) (S i)) as [Hl|Hl].
      * rewrite IH. split.
        -- intros (p & -> & Hp). exists (c :: p). split; [done|]. blia.
        -- intros ([|d p] & E & Hp); [done|]. simplify_eq/=. exists p. split; [done|]. blia.
      * split; [done|]. intros ([|d p] & E & Hp); [done|]. simplify_eq/=. blia.
Qed.

Lemma slice_to_Some s i p : slice_to s i = Some p ↔ ∃ r, s = p ++ r ∧ byte_len p = i.
Proof.
  revert i p; induction s as [|c s IH]; intros i p.
  - destruct i; simpl; split.
    + intros [= <-]. by exists [].
    + intros (r & [-> ->]%eq_sym%app_eq_nil & _). done.
    + done.
    + intros (r & [-> ->]%eq_sym%app_eq_nil & H). done.
  - pose proof (len_utf8_pos c). destruct i as [|i]; cbn [slice_to].
    + split.
      * intros [= <-]. by exists (c :: s).
      * intros (r & E & H0%byte_len_zero). by subst p.
    + destruct (Nat.leb_spec (len_utf8 c) (S i)) as [Hl|Hl].
      * split.
        -- intros (q & [r [-> Hq]]%IH & ->)%fmap_Some. exists r. split; [done|]. blia.
        -- intros (r & E & Hp). destruct p as [|d p]; [done|]. simplify_eq/=.
           apply fmap_Some. exists p. split; [|done]. apply IH. exists r. split; [done|]. blia.
      * split; [done|]. intros (r & E & Hp). destruct p as [|d p]; [done|]. simplify_eq/=. blia.
Qed.

Lemma slice_Some s i j m :
  slice s i j = Some m ↔ ∃ p q, s = p ++ m ++ q ∧ byte_len p = i ∧ byte_len (p ++ m) = j.
Proof.
  unfold slice. destruct (Nat.leb_spec i j) as [Hl|Hl].
  - rewrite bind_Some. split.
    + intros (t & (p & -> & Hp)%slice_from_Some & (q & -> & Hq)%slice_to_Some).
      exists p, q. split_and!; [done|done|blia].
    + intros (p & q & -> & Hp & Hj). exists (m ++ q). split.
      * apply slice_from_Some. eauto.
      * apply slice_to_Some. exists q. split; [done|]. blia.
  - split; [done|]. intros (p & q & -> & Hp & Hj). blia.
Qed.

Lemma slice_from_app p r : slice_from (p ++ r) (byte_len p) = Some r.
Proof. apply slice_from_Some. eauto. Qed.
Lemma slice_to_app p r : slice_to (p ++ r) (byte_len p) = Some p.
Proof. apply slice_to_Some. eauto. Qed.
Lemma slice_app p m q : slice (p ++ m ++ q) (byte_len p) (byte_len p + byte_len m) = Some m.
Proof. apply slice_Some. exists p, q. rewrite byte_len_app. done. Qed.

(** Two splits of a text at the same byte offset are the same split. *)
Lemma byte_split_eq p q r t : p ++ r = q ++ t → byte_len p = byte_len q → p = q ∧ r = t.
Proof.
  revert q; induction p as [|c p IH]; intros [|d q] E H.
  - done.
  - pose proof (len_utf8_pos d). blia.
  - pose proof (len_utf8_pos c). blia.
  - simplify_eq/=. destruct (IH q) as [-> ->]; [done|blia|done].
Qed.

(** A longer prefix of the same text contains the shorter one. *)
Lemma byte_split_le p q r t :
  p ++ r = q ++ t → byte_len p ≤ byte_len q → ∃ m, q = p ++ m ∧ r = m ++ t.
Proof.
  revert q; induction p as [|c p IH]; intros q E H.
  - exists q. done.
  - destruct q as [|d q]; [pose proof (len_utf8_pos c); blia|].
    simplify_eq/=. destruct (IH q) as (m & -> & ->); [done|blia|]. eauto.
Qed.

Lemma is_char_boundary_true s i :
  is_char_boundary s i = true ↔ ∃ p r, s = p ++ r ∧ byte_len p = i.
Proof.
  unfold is_char_boundary. rewrite bool_decide_eq_true. unfold is_Some.
  setoid_rewrite slice_from_Some. naive_solver.
Qed.

Lemma slice_boundaries s i j :
  is_char_boundary s i = true → is_char_boundary s j = true → i ≤ j → is_Some (slice s i j).
Proof.
  intros (p & r & -> & <-)%is_char_boundary_true (q & t & E & <-)%is_char_boundary_true Hij.
  destruct (byte_split_le p q r t E Hij) as (m & -> & ->). exists m. apply slice_Some. by exists p, t.
Qed.

Lemma byte_len_utf8 s : length (utf8 s) = byte_len s.
Proof. done. Qed.

Lemma byte_len_length s : length s ≤ byte_len s.
Proof. induction s as [|c s IH]; simpl; [blia|]. pose proof (len_utf8_pos c). blia. Qed.

(** *** Searching *)

Lemma find_go_Some p s i j :
  find_go p s i = Some j ↔
  ∃ a b, s = a ++ p ++ b ∧ j = i + byte_len a ∧
    ∀ a' b', s = a' ++ p ++ b' → length a ≤ length a'.
Proof.
  revert i; induction s as [|c s IH]; intros i; cbn [find_go].
  - destruct (starts_with [] p) eqn:E.
    + apply starts_with_true in E as [b E]. symmetry in E.
      apply app_eq_nil in E as [-> ->]. split.
      * intros [= <-]. exists [], []. split_and!; [done|blia|]. intros. simpl. lia.
      * intros (a & b & Es & -> & _). symmetry in Es. apply app_eq_nil in Es as [-> _]. f_equal. blia.
    + split; [done|]. intros (a & b & Es & _). symmetry in Es.
      apply app_eq_nil in Es as [-> Es]. apply app_eq_nil in Es as [-> ->]. done.
  - destruct (starts_with (c :: s) p) eqn:E.
    + apply starts_with_true in E as [b E]. split.
      * intros [= <-]. exists [], b. split_and!; [done|blia|]. intros. simpl. lia.
      * intros (a & b' & Es & -> & Hmin). specialize (Hmin [] b E).
        destruct a; simpl in *; [f_equal; blia|lia].
    + rewrite IH. assert (∀ b, c :: s ≠ p ++ b) as Hne.
      { intros b Hb. rewrite Hb, starts_with_app in E. done. }
      split.
      * intros (a & b & -> & -> & Hmin). exists (c :: a), b. split_and!; [done|blia|].
        intros [|d a'] b' Es; [by apply Hne in Es|]. simplify_eq/=.
        specialize (Hmin a' b' ltac:(done)). lia.
      * intros ([|d a] & b & Es & -> & Hmin); [by apply Hne in Es|]. simplify_eq/=.
        exists a, b. split_and!; [done|blia|]. intros a' b' Es.
        specialize (Hmin (d :: a') b' ltac:(by rewrite Es)). simpl in Hmin. lia.
Qed.

Lemma find_Some s p j :
  find s p = Some j ↔
  ∃ a b, s = a ++ p ++ b ∧ j = byte_len a ∧ ∀ a' b', s = a' ++ p ++ b' → length a ≤ length a'.
Proof. unfold find. apply find_go_Some. Qed.

Lemma find_go_None p s i : find_go p s i = None ↔ ¬ infix_of p s.
Proof.
  rewrite <- contains_true. revert i. induction s as [|c s IH]; intros i; cbn [find_go contains].
  - destruct (starts_with [] p); naive_solver.
  - destruct (starts_with (c :: s) p); simpl; [naive_solver|]. apply IH.
Qed.

Lemma find_None s p : find s p = None ↔ ¬ infix_of p s.
Proof. apply find_go_None. Qed.

(** Every match is an occurrence, and consecutive matches do not overlap:
    [matches_at i l s] lists the matches of [s] from byte [i] on. *)
Inductive matches_at (p : str) : nat → list nat → str → Prop :=
| matches_nil i s : ¬ infix_of p s → matches_at p i [] s
| matches_cons i a b l :
    (∀ a' b', a ++ p ++ b = a' ++ p ++ b' → length a ≤ length a') →
    matches_at p (i + byte_len a + byte_len p) l b →
    matches_at p i (i + byte_len a :: l) (a ++ p ++ b).

Lemma match_go_skip p k i a s :
  length a = k → match_go p k i (a ++ s) = match_go p 0 (i + byte_len a) s.
Proof.
  revert k i; induction a as [|c a IH]; intros k i <-; simpl.
  - by rewrite byte_len_nil, Nat.add_0_r.
  - rewrite IH by done. f_equal. blia.
Qed.

Lemma infix_of_nil {A} (p : list A) : infix_of p [] → p = [].
Proof. intros (a & b & E). destruct a, p; done. Qed.

Lemma match_go_first p i a b :
  p ≠ [] → (∀ a' b', a ++ p ++ b = a' ++ p ++ b' → length a ≤ length a') →
  match_go p 0 i (a ++ p ++ b) = (i + byte_len a) :: match_go p 0 (i + byte_len a + byte_len p) b.
Proof.
  intros Hp. revert i; induction a as [|c a IH]; intros i Hmin.
  - destruct p as [|d p']; [done|]. cbn [app match_go].
    rewrite (app_comm_cons p' b d), starts_with_app. cbn [length pred].
    rewrite match_go_skip by done. rewrite byte_len_cons, byte_len_nil. f_equal; [lia|f_equal; lia].
  - cbn [app match_go]. destruct (starts_with (c :: a ++ p ++ b) p) eqn:E.
    + apply starts_with_true in E as [t E]. specialize (Hmin [] t E). simpl in Hmin. lia.
    + rewrite IH.
      * rewrite byte_len_cons. f_equal; [lia|f_equal; lia].
      * intros a' b' E'. specialize (Hmin (c :: a') b' ltac:(simpl; by rewrite E')).
        simpl in Hmin. lia.
Qed.

Lemma match_go_none p i s : ¬ infix_of p s → match_go p 0 i s = [].
Proof.
  revert i; induction s as [|c s IH]; intros i Hn; [done|]. cbn [match_go].
  destruct (starts_with (c :: s) p) eqn:E.
  - apply starts_with_true in E as [t E]. destruct Hn. by exists [], t.
  - apply IH. intros (a & b & ->). apply Hn. by exists (c :: a), b.
Qed.

Lemma infix_first (p s : str) :
  infix_of p s → ∃ a b, s = a ++ p ++ b ∧ ∀ a' b', s = a' ++ p ++ b' → length a ≤ length a'.
Proof.
  intros H. destruct (find s p) as [j|] eqn:E.
  - apply find_Some in E as (a & b & Hs & _ & Hm). eauto.
  - by apply find_None in E.
Qed.

Lemma match_go_spec p i s : p ≠ [] → matches_at p i (match_go p 0 i s) s.
Proof.
  intros Hp. revert i. induction s as [s IH] using (induction_ltof1 _ (@length N)). intros i.
  destruct (contains s p) eqn:Ec.
  - apply contains_true in Ec. destruct (infix_first _ _ Ec) as (a & b & -> & Hm).
    rewrite match_go_first by done. apply matches_cons; [done|]. apply IH.
    unfold ltof. rewrite !length_app. destruct p; [done|simpl; lia].
  - assert (¬ infix_of p s) by (rewrite <- contains_true; congruence).
    rewrite match_go_none by done. by apply matches_nil.
Qed.

Lemma match_indices_spec s p : p ≠ [] → matches_at p 0 (match_indices s p) s.
Proof. apply match_go_spec. Qed.

(** [replace], one occurrence at a time. *)
Lemma replace_go_skip from to k a s :
  length a = k → replace_go from to k (a ++ s) = replace_go from to 0 s.
Proof. revert k; induction a as [|c a IH]; intros k <-; cbn; [done|]. by apply IH. Qed.

Lemma replace_go_first from to a b :
  from ≠ [] → (∀ a' b', a ++ from ++ b = a' ++ from ++ b' → length a ≤ length a') →
  replace_go from to 0 (a ++ from ++ b) = a ++ to ++ replace_go from to 0 b.
Proof.
  intros Hf. induction a as [|c a IH]; intros Hm.
  - destruct from as [|d from']; [done|]. cbn [app replace_go].
    rewrite (app_comm_cons from' b d), starts_with_app. cbn [length pred].
    by rewrite replace_go_skip.
  - cbn [app replace_go]. destruct (starts_with (c :: a ++ from ++ b) from) eqn:E.
    + apply starts_with_true in E as [t E]. specialize (Hm [] t E). simpl in Hm. lia.
    + rewrite IH; [done|]. intros a' b' E'. specialize (Hm (c :: a') b' ltac:(cbn; by rewrite E')).
      cbn in Hm. lia.
Qed.

Lemma replace_go_none from to s : ¬ infix_of from s → replace_go from to 0 s = s.
Proof.
  induction s as [|c s IH]; intros Hn; [done|]. cbn [replace_go].
  destruct (starts_with (c :: s) from) eqn:E.
  - apply starts_with_true in E as [t E]. destruct Hn. by exists [], t.
  - rewrite IH; [done|]. intros (a & b & ->). apply Hn. by exists (c :: a), b.
Qed.

(** [rfind]: the last occurrence of a character. *)
Lemma rfind_go_Some c s i acc :
  rfind_go c s i acc =
  match rfind_go c s i None with Some j => Some j | None => acc end.
Proof.
  revert i acc; induction s as [|d s IH]; intros i acc; cbn [rfind_go]; [done|].
  rewrite IH, (IH _ (if (d =? c)%N then Some i else None)). by repeat case_match.
Qed.

Lemma rfind_char_spec s c :
  match rfind_char s c with
  | Some j => ∃ a b, s = a ++ c :: b ∧ byte_len a = j ∧ c ∉ b
  | None => c ∉ s
  end.
Proof.
  unfold rfind_char. enough (∀ i, match rfind_go c s i None with
    | Some j => ∃ a b, s = a ++ c :: b ∧ i + byte_len a = j ∧ c ∉ b | None => c ∉ s end) as H.
  { specialize (H 0). by destruct (rfind_go c s 0 None). }
  induction s as [|d s IH]; intros i; cbn [rfind_go]; [apply not_elem_of_nil|].
  rewrite rfind_go_Some. specialize (IH (i + len_utf8 d)).
  destruct (rfind_go c s _ None) as [j|].
  - destruct IH as (a & b & -> & Hj & Hb). exists (d :: a), b. split_and!; [done|blia|done].
  - destruct (N.eqb_spec d c) as [->|Hne].
    + exists [], s. split_and!; [done|blia|done].
    + by apply not_elem_of_cons.
Qed.

Lemma rfind_str_go_acc p s i acc :
  rfind_str_go p s i acc = match rfind_str_go p s i None with Some j => Some j | None => acc end.
Proof.
  revert i acc; induction s as [|c s IH]; intros i acc; cbn [rfind_str_go].
  - by destruct (starts_with [] p).
  - rewrite IH, (IH _ (if starts_with (c :: s) p then Some i else None)).
    destruct (rfind_str_go p s _ None); [done|]. by destruct (starts_with (c :: s) p).
Qed.

(** The last occurrence: every other one starts before it. *)
Lemma rfind_str_spec s p : p ≠ [] →
  match rfind_str s p with
  | Some j => ∃ a b, s = a ++ p ++ b ∧ byte_len a = j ∧ ∀ a' b', s = a' ++ p ++ b' → length a' ≤ length a
  | None => ¬ infix_of p s
  end.
Proof.
  intros Hp. unfold rfind_str. enough (∀ i, match rfind_str_go p s i None with
    | Some j => ∃ a b, s = a ++ p ++ b ∧ i + byte_len a = j ∧ ∀ a' b', s = a' ++ p ++ b' → length a' ≤ length a
    | None => ¬ infix_of p s end) as H.
  { specialize (H 0). by destruct (rfind_str_go p s 0 None). }
  induction s as [|c s IH]; intros i; cbn [rfind_str_go].
  - destruct (starts_with [] p) eqn:E.
    + apply starts_with_true in E as [r E]. by destruct p.
    + intros H. by apply infix_of_nil in H.
  - rewrite rfind_str_go_acc. specialize (IH (i + len_utf8 c)).
    destruct (rfind_str_go p s _ None) as [j|].
    + destruct IH as (a & b & -> & <- & Hm). exists (c :: a), b. split_and!; [done|blia|].
      intros [|d a'] b' E; [cbn; lia|]. injection E as _ E. apply Hm in E. cbn. lia.
    + destruct (starts_with (c :: s) p) eqn:E.
      * apply starts_with_true in E as [b E]. exists [], b. split_and!; [done|blia|].
        intros [|d a'] b' E'; [done|]. injection E' as _ E'. exfalso. apply IH. by exists a', b'.
      * intros ([|d a] & b & E'); cbn in E'.
        -- rewrite E', starts_with_app in E. done.
        -- injection E' as _ E'. apply IH. by exists a, b.
Qed.

Lemma find_char_spec s f :
  match find_char s f with
  | Some j => ∃ a c b, s = a ++ c :: b ∧ byte_len a = j ∧ f c = true ∧ Forall (λ x, f x = false) a
  | None => Forall (λ x, f x = false) s
  end.
Proof.
  unfold find_char. enough (∀ i, match find_char_go f s i with
    | Some j => ∃ a c b, s = a ++ c :: b ∧ i + byte_len a = j ∧ f c = true ∧ Forall (λ x, f x = false) a
    | None => Forall (λ x, f x = false) s end) as H.
  { specialize (H 0). by destruct (find_char_go f s 0). }
  induction s as [|d s IH]; intros i; cbn [find_char_go]; [constructor|].
  destruct (f d) eqn:Ed.
  - exists [], d, s. split_and!; [done|blia|done|constructor].
  - specialize (IH (i + len_utf8 d)). destruct (find_char_go f s _) as [j|].
    + destruct IH as (a & c & b & -> & Hj & Hc & Ha). exists (d :: a), c, b.
      split_and!; [done|blia|done|by constructor].
    + by constructor.
Qed.

Lemma find_char_app f a c b :
  Forall (λ x, f x = false) a → f c = true → find_char (a ++ c :: b) f = Some (byte_len a).
Proof.
  intros Ha Hc. unfold find_char. enough (∀ i, find_char_go f (a ++ c :: b) i = Some (i + byte_len a)) as H
    by (by rewrite H).
  induction Ha as [|d a Hd _ IH]; intros i; cbn [app find_char_go].
  - rewrite Hc. f_equal. blia.
  - rewrite Hd, IH. f_equal. blia.
Qed.

Lemma find_char_none f s : Forall (λ x, f x = false) s → find_char s f = None.
Proof.
  intros Hs. unfold find_char. generalize 0. induction Hs as [|d s Hd _ IH]; intros i; cbn [find_char_go]; [done|].
  by rewrite Hd.
Qed.

Lemma rfind_go_none c s i acc : c ∉ s → rfind_go c s i acc = acc.
Proof.
  revert i acc; induction s as [|d s IH]; intros i acc Hs; cbn [rfind_go]; [done|].
  apply not_elem_of_cons in Hs as [Hd Hs]. rewrite IH by done.
  by destruct (N.eqb_spec d c) as [->|].
Qed.
Lemma rfind_char_none s c : c ∉ s → rfind_char s c = None.
Proof. apply rfind_go_none. Qed.
Lemma rfind_char_app s c a : c ∉ a → rfind_char (s ++ c :: a) c = Some (byte_len s).
Proof.
  intros Ha. unfold rfind_char. enough (∀ i acc, rfind_go c (s ++ c :: a) i acc = Some (i + byte_len s)) as H
    by (by rewrite H).
  induction s as [|d s IH]; intros i acc; cbn [app rfind_go].
  - rewrite rfind_go_none, N.eqb_refl by done. f_equal. blia.
  - rewrite IH. f_equal. blia.
Qed.

(** The last byte of a text is that of its last character; an ASCII byte there
    is an ASCII character. *)
Lemma last_byte r c a : (a < 128)%N →
  utf8 (r ++ [c]) !! (byte_len (r ++ [c]) - 1) = Some a ↔ c = a.
Proof.
  intros Ha. rewrite utf8_app, lookup_app_r by (rewrite byte_len_utf8; pose proof (len_utf8_pos c); blia).
  rewrite byte_len_utf8, byte_len_app, byte_len_cons, byte_len_nil.
  replace (byte_len r + (len_utf8 c + 0) - 1 - byte_len r) with (len_utf8 c - 1)
    by (pose proof (len_utf8_pos c); lia).
  unfold utf8. cbn [fmap list_fmap mjoin list_join]. change (mjoin [utf8_char c]) with (utf8_char c ++ []).
  rewrite app_nil_r. unfold len_utf8, utf8_char.
  repeat case_match; cbn.
  - naive_solver.
  - boolp. split; [intros [= E]|]; generalize dependent (c mod 64)%N; lia.
  - boolp. split; [intros [= E]|]; generalize dependent (c mod 64)%N; lia.
  - boolp. split; [intros [= E]|]; generalize dependent (c mod 64)%N; lia.
Qed.

Example find_ex : find (lit "abcabc") (lit "ca") = Some 2 ∧ find (233 :: lit "x")%N (lit "x") = Some 2.
Proof. split; reflexivity. Qed.
Example match_indices_ex : match_indices (lit "aaaa") (lit "aa") = [0; 2].
Proof. reflexivity. Qed.
Example slice_ex : slice (233 :: lit "xy")%N 2 3 = Some (lit "x") ∧ slice (233 :: lit "x")%N 1 2 = None.
Proof. split; reflexivity. Qed.

(** ** [split_once] *)

Lemma split_once_Some s p a b :
  split_once s p = Some (a, b) ↔
  s = a ++ p ++ b ∧ ∀ a' b', s = a' ++ p ++ b' → length a ≤ length a'.
Proof.
  revert a; induction s as [|c s IH]; intros a; cbn [split_once].
  - destruct (strip_prefix p []) as [r|] eqn:E.
    + apply strip_prefix_Some in E. split.
      * intros [= <- <-]. split; [done|]. intros. cbn. lia.
      * intros [E' _]. by destruct a, p, b, r.
    + split; [done|]. intros [E' _]. by destruct a, p, b.
  - destruct (strip_prefix p (c :: s)) as [r|] eqn:E.
    + apply strip_prefix_Some in E. split.
      * intros [= <- <-]. split; [done|]. intros. cbn. lia.
      * intros [E' Hm]. specialize (Hm [] r E). destruct a; [|cbn in Hm; lia]. cbn in E'.
        rewrite E in E'. by apply app_inv_head in E' as ->.
    + assert (∀ b', c :: s ≠ p ++ b') as Hne.
      { intros b' Eb. apply strip_prefix_Some in Eb. congruence. }
      split.
      * destruct (split_once s p) as [[u v]|] eqn:Es; [|done]. cbn. intros [= <- <-].
        destruct (proj1 (IH u) eq_refl) as [-> Hm]. split; [done|].
        intros [|d a'] b' Eb; [by apply Hne in Eb|]. injection Eb as _ Eb.
        specialize (Hm a' b' Eb). cbn. lia.
      * intros [E' Hm]. destruct a as [|d a]; [by apply Hne in E'|]. injection E' as <- E'.
        assert (split_once s p = Some (a, b)) as ->; [|done]. apply IH. split; [done|].
        intros a' b' Eb. specialize (Hm (c :: a') b' ltac:(cbn; by rewrite Eb)). cbn in Hm. lia.
Qed.

Lemma split_once_None s p : split_once s p = None ↔ ¬ infix_of p s.
Proof.
  split.
  - intros E Hin. destruct (infix_first _ _ Hin) as (a & b & Es & Hm).
    assert (split_once s p = Some (a, b)) by by apply split_once_Some. congruence.
  - intros Hn. destruct (split_once s p) as [[a b]|] eqn:E; [|done].
    apply split_once_Some in E as [-> _]. destruct Hn. by exists a, b.
Qed.

(** ** ASCII text: bytes and characters agree *)

Definition ascii (t : str) : Prop := Forall (λ c, (c < 128)%N) t.
Lemma ascii_byte_len t : ascii t → byte_len t = length t.
Proof. induction 1 as [|c r Hc _ IH]; [done|]. rewrite byte_len_cons, len_utf8_ascii, IH by done. done. Qed.
Lemma ascii_utf8 t : ascii t → utf8 t = t.
Proof.
  induction 1 as [|c r Hc _ IH]; [done|].
  change (utf8 (c :: r)) with (utf8_char c ++ utf8 r). rewrite IH. unfold utf8_char.
  by rewrite (proj2 (N.ltb_lt _ _) Hc).
Qed.
Lemma ascii_app a b : ascii (a ++ b) ↔ ascii a ∧ ascii b.
Proof. apply Forall_app. Qed.
