(* ===== verification/Tolerant.v ===== *)
(** [tools/src/file/tolerant.rs]: what lets [edit] and [apply_patch] find text
    that differs in line endings or in typographic punctuation. The lemmas say
    what the two normalisations keep: [to_crlf] undoes itself, and [fold] with
    its byte map sends every character boundary of the folded text to the same
    boundary of the text. *)

From S2P Require Import Prelude RustStr Bytes.

Definition CRLF : str := [cCR; cLF].
Definition LF : str := [cLF].

Definition is_crlf (text : str) : bool :=
  let crlf := count_matches text CRLF in
  (0 <? crlf) && (count_matches text LF <=? crlf * 2).

Definition to_crlf (text : str) : str := replace (replace text CRLF LF) LF CRLF.

(** The ASCII stand-in for a typographic character, or the character. *)
Definition fold_char (c : rchar) : rchar :=
  (if (c =? 0x2018) || (c =? 0x2019) || (c =? 0x201A) || (c =? 0x201B) || (c =? 0x2032) then cSQ
   else if (c =? 0x201C) || (c =? 0x201D) || (c =? 0x201E) || (c =? 0x201F) || (c =? 0x2033) then cDQ
   else if ((0x2010 <=? c) && (c <=? 0x2015)) || (c =? 0x2212) then chr "-"
   else if (c =? 0x00A0) || (c =? 0x2007) || (c =? 0x202F) then chr " "
   else c)%N.

(** The loop over [char_indices]: the folded text, and for every byte of it the
    offset of the character it came from. *)
Fixpoint fold_go (offset : nat) (text : str) : str * list nat :=
  match text with
  | [] => ([], [])
  | c :: r =>
      let folded := fold_char c in
      let '(out, map) := fold_go (offset + len_utf8 c) r in
      (folded :: out, replicate (len_utf8 folded) offset ++ map)
  end.
Definition fold (text : str) : str * list nat :=
  let '(out, map) := fold_go 0 text in (out, map ++ [byte_len text]).

(** ** Laws *)

Lemma fold_go_fst i s : (fold_go i s).1 = fold_char <$> s.
Proof.
  revert i; induction s as [|c s IH]; intros i; simpl; [done|].
  specialize (IH (i + len_utf8 c)). destruct (fold_go _ s); simpl in *. by rewrite IH.
Qed.
Lemma fold_fst s : (fold s).1 = fold_char <$> s.
Proof. unfold fold. pose proof (fold_go_fst 0 s). by destruct (fold_go 0 s). Qed.

Lemma fold_go_length i s : length (fold_go i s).2 = byte_len (fold_char <$> s).
Proof.
  revert i; induction s as [|c s IH]; intros i; simpl; [done|].
  specialize (IH (i + len_utf8 c)). destruct (fold_go _ s); simpl in *.
  rewrite length_app, length_replicate, IH. symmetry. apply byte_len_cons.
Qed.

Lemma fold_go_map i a b :
  (fold_go i (a ++ b)).2 =
  (fold_go i a).2 ++ (fold_go (i + byte_len a) b).2.
Proof.
  revert i; induction a as [|c a IH]; intros i; simpl.
  - by rewrite byte_len_nil, Nat.add_0_r.
  - specialize (IH (i + len_utf8 c)).
    destruct (fold_go _ (a ++ b)), (fold_go _ a); simpl in *. subst.
    rewrite <- app_assoc. do 3 f_equal. rewrite byte_len_cons. f_equal. lia.
Qed.

(** The byte map takes the boundary after [a] in the folded text to the
    boundary after [a] in the text. *)
Lemma fold_map_boundary a b : (fold (a ++ b)).2 !! byte_len (fold_char <$> a) = Some (byte_len a).
Proof.
  unfold fold. pose proof (fold_go_map 0 a b) as Hm. pose proof (fold_go_length 0 a) as Hl.
  destruct (fold_go 0 (a ++ b)) as [out m]; simpl in *. subst m. rewrite <- Hl, <- app_assoc.
  rewrite lookup_app_r by lia. rewrite Nat.sub_diag. destruct b as [|c b]; simpl.
  - by rewrite app_nil_r.
  - destruct (fold_go _ b). simpl. pose proof (len_utf8_pos (fold_char c)).
    by destruct (len_utf8 (fold_char c)); [lia|].
Qed.

Lemma not_whitespace_dash c : (0x2010 ≤ c)%N → (c ≤ 0x2015)%N → is_whitespace c = false.
Proof.
  intros H1 H2. assert (c ∈ [0x2010; 0x2011; 0x2012; 0x2013; 0x2014; 0x2015]%N) as Hc.
  { assert (c = 0x2010 ∨ c = 0x2011 ∨ c = 0x2012 ∨ c = 0x2013 ∨ c = 0x2014 ∨ c = 0x2015)%N
      by lia. set_solver. }
  repeat (apply elem_of_cons in Hc as [->|Hc]; [reflexivity|]). by apply elem_of_nil in Hc.
Qed.

Lemma fold_char_cases c :
  fold_char c = c ∨ (fold_char c = cSQ ∨ fold_char c = cDQ ∨ fold_char c = chr "-") ∧ is_whitespace c = false
  ∨ fold_char c = chr " " ∧ is_whitespace c = true.
Proof.
  unfold fold_char. case_match eqn:E1; [right; left; split; [by left|]|].
  { repeat (apply orb_true_iff in E1 as [E1|E1]); apply N.eqb_eq in E1 as ->; reflexivity. }
  case_match eqn:E2; [right; left; split; [by right; left|]|].
  { repeat (apply orb_true_iff in E2 as [E2|E2]); apply N.eqb_eq in E2 as ->; reflexivity. }
  case_match eqn:E3; [right; left; split; [by right; right|]|].
  { apply orb_true_iff in E3 as [[H1 H2]%andb_true_iff| ->%N.eqb_eq]; [|reflexivity].
    apply N.leb_le in H1, H2. by apply not_whitespace_dash. }
  case_match eqn:E4; [right; right; split; [done|]|by left].
  repeat (apply orb_true_iff in E4 as [E4|E4]); apply N.eqb_eq in E4 as ->; reflexivity.
Qed.

(** Folding neither makes nor removes white space. *)
Lemma fold_char_whitespace c : is_whitespace (fold_char c) = is_whitespace c.
Proof.
  destruct (fold_char_cases c) as [->|[[[->|[->| ->]] ->]|[-> ->]]]; done.
Qed.

Lemma fold_char_idemp c : fold_char (fold_char c) = fold_char c.
Proof. destruct (fold_char_cases c) as [E|[[[->|[->| ->]] _]|[-> _]]]; [by rewrite !E|done..]. Qed.

(** *** Line endings *)

Lemma to_crlf_go_LF t : replace t LF CRLF = mjoin ((λ c, if (c =? cLF)%N then CRLF else [c]) <$> t).
Proof.
  unfold replace. induction t as [|c t IH]; [done|]. cbn [replace_go].
  destruct (N.eqb_spec c cLF) as [->|Hne].
  - assert (starts_with (cLF :: t) LF = true) as -> by by (apply starts_with_true; exists t).
    simpl. by rewrite IH.
  - destruct (starts_with (c :: t) LF) eqn:E; [apply starts_with_true in E as [? [=]]; done|].
    simpl. destruct (N.eqb_spec c cLF); [done|]. simpl. by rewrite IH.
Qed.

Definition add_cr (c : rchar) : str := if (c =? cLF)%N then CRLF else [c].
Lemma add_cr_head t : mjoin (add_cr <$> t) = [] ∨ ∃ c r, mjoin (add_cr <$> t) = c :: r ∧ c ≠ cLF.
Proof.
  destruct t as [|c t]; [by left|]. right. simpl. unfold add_cr at 1.
  destruct (N.eqb_spec c cLF); simpl; eauto.
Qed.

(** Writing every break as [\r\n] and reading it back is the identity, so
    [to_crlf] is idempotent. *)
Lemma crlf_roundtrip t : replace (replace t LF CRLF) CRLF LF = t.
Proof.
  rewrite to_crlf_go_LF. change (λ c, _) with add_cr. unfold replace.
  induction t as [|c t IH]; [done|]. 
  change (mjoin (add_cr <$> c :: t)) with (add_cr c ++ mjoin (add_cr <$> t)).
  pose proof (add_cr_head t) as Hd. unfold add_cr at 1. revert IH Hd.
  generalize (mjoin (add_cr <$> t)). intros u IH Hd.
  destruct (N.eqb_spec c cLF) as [->|Hne].
  - change (CRLF ++ u) with (cCR :: cLF :: u). cbn [replace_go].
    replace (starts_with (cCR :: cLF :: u) CRLF) with true
      by (symmetry; apply starts_with_true; by exists u).
    simpl in *. congruence.
  - cbn [app replace_go]. destruct (starts_with (c :: u) CRLF) eqn:E; [|by rewrite IH].
    apply starts_with_true in E as [r [= -> ->]].
    destruct Hd as [H|(d & q & H & Hd)]; congruence.
Qed.

Lemma to_crlf_idemp t : to_crlf (to_crlf t) = to_crlf t.
Proof. unfold to_crlf. by rewrite crlf_roundtrip. Qed.

Example fold_ex : (fold ([0x201C]%N ++ lit "a" ++ [0x201D]%N)).1 = cDQ :: lit "a" ++ [cDQ]
  ∧ (fold ([0x201C]%N ++ lit "a" ++ [0x201D]%N)).2 = [0; 3; 4; 7].
Proof. split; reflexivity. Qed.
