(* ===== verification/LineTag.v ===== *)
(** [tools/src/file/line_tag.rs]: the short content tags that [read] and [grep]
    print in front of a line and that [edit] takes instead of the text. A tag is
    a base-36 prefix of a hash of the line; the hash function is a third party's
    and a parameter here.

    The theorems: the offsets split the text into its lines; a shorter tag is a
    prefix of the longer one; two different lines of a window never share a tag
    unless six digits do not tell them apart; and looking a tag up finds exactly
    the lines that have it. *)

From stdpp Require Import sorting.
From S2P Require Import Prelude RustStr Bytes.

Definition ALPH : str := lit "0123456789abcdefghijklmnopqrstuvwxyz".
Definition MIN_LEN : nat := 2.
Definition MAX_LEN : nat := 6.

(** [ALPH[(n % 36) as usize]]: the index is below 36 ([alph_digit]). *)
Definition alph (n : N) : rchar := default 0%N (ALPH !! N.to_nat (n mod 36)).

(** The loop that fills [digits] from the last slot. *)
Fixpoint encode_digits (slots : nat) (n : N) (filled : str) : str :=
  match slots with
  | O => filled
  | S k => encode_digits k (n / 36)%N (alph n :: filled)
  end.
Definition clamp (x lo hi : nat) : nat := if x <? lo then lo else if hi <? x then hi else x.
Definition encode (hash : N) (len : nat) : str :=
  take (clamp len MIN_LEN MAX_LEN) (encode_digits MAX_LEN hash []).

(** [42 a3|contents] *)
Definition format_read_line (n : N) (tag line : str) : str :=
  digits n ++ lit " " ++ tag ++ lit "|" ++ line.
(** [path:12 a3:contents] *)
Definition format_grep_line (path : str) (n : N) (tag line : str) (sep : rchar) : str :=
  path ++ lit ":" ++ digits n ++ lit " " ++ tag ++ [sep] ++ line.

Record LineOffsets := mkOffsets { start : nat; content_end : nat; line_end : nat }.

Definition is_eol_byte (b : N) : bool := (b =? cLF)%N || (b =? cCR)%N.
(** [if i < bytes.len() && bytes[i] == b { i += 1 }] *)
Definition skip_byte (b : N) (bytes : list N) (i : nat) : nat :=
  if bytes !! i == Some b then S i else i.
(** [while i < bytes.len() && bytes[i] != b'\n' && bytes[i] != b'\r' { i += 1 }] *)
Definition scan_content (bytes : list N) (i : nat) : nat :=
  i + length (take_while (λ b, negb (is_eol_byte b)) (drop i bytes)).

(** The outer loop; every turn consumes a byte, so [length bytes] turns are enough. *)
Fixpoint offsets_loop (fuel : nat) (bytes : list N) (i : nat) : list LineOffsets :=
  match fuel with
  | O => []
  | S k =>
      if i <? length bytes then
        let content_end := scan_content bytes i in
        let i' := skip_byte cLF bytes (skip_byte cCR bytes content_end) in
        mkOffsets i content_end i' :: offsets_loop k bytes i'
      else []
  end.
Definition line_offsets (s : str) : list LineOffsets :=
  let bytes := utf8 s in offsets_loop (length bytes) bytes 0.

(** [&s[off.start..off.content_end]] *)
Definition line_text (s : str) (off : LineOffsets) : option str :=
  slice s (start off) (content_end off).

Inductive TagHit := Unique (i : nat) | Missing | Ambiguous (hits : list nat).

Definition is_tag_char (b : N) : bool := is_ascii_digit b || is_ascii_lower b.

(** The [HashMap] of [content_tags_unique]: tag to the last line that had it. *)
Fixpoint unique_go (first : gmap str str) (l : list (str * str)) : bool :=
  match l with
  | [] => true
  | (line, tag) :: r =>
      match first !! tag with
      | Some prev => if prev != line then false else unique_go (<[tag := line]> first) r
      | None => unique_go (<[tag := line]> first) r
      end
  end.
Definition content_tags_unique (lines tags : list str) : bool := unique_go ∅ (zip lines tags).

Section tags.
Context (fx_hash : str → N).

Definition hash_u64 (line : str) : N := fx_hash line.
Definition tag_of (line : str) (len : nat) : str := encode (hash_u64 line) len.

Fixpoint lengthen (lines : list str) (lens : list nat) : list str :=
  match lens with
  | [] => (λ l, tag_of l MAX_LEN) <$> lines
  | len :: r =>
      let tags := (λ l, tag_of l len) <$> lines in
      if content_tags_unique lines tags then tags else lengthen lines r
  end.
Definition tags_for_window (lines : list str) : list str :=
  match lines with
  | [] => []
  | _ => lengthen lines (seq MIN_LEN (S MAX_LEN - MIN_LEN))
  end.

(** The loop of [find_tag] over the lines from index [i] on. *)
Fixpoint tag_hits (s tag : str) (len i : nat) (offs : list LineOffsets) : option (list nat) :=
  match offs with
  | [] => Some []
  | off :: r =>
      text ← line_text s off;
      hits ← tag_hits s tag len (S i) r;
      Some (if tag_of text len == tag then i :: hits else hits)
  end.
Definition find_tag (s : str) (offs : list LineOffsets) (tag : str) : option TagHit :=
  let len := byte_len tag in
  if negb ((MIN_LEN <=? len) && (len <=? MAX_LEN)) || negb (forallb is_tag_char (utf8 tag))
  then Some Missing
  else
    hits ← tag_hits s tag len 0 offs;
    Some match hits with
         | [] => Missing
         | [i] => Unique i
         | _ => Ambiguous hits
         end.

(** The loop of [nearby_snippet], over the offsets [i..to]. *)
Fixpoint snippet_lines (s : str) (i : nat) (offs : list LineOffsets) : option str :=
  match offs with
  | [] => Some []
  | off :: r =>
      text ← line_text s off;
      rest ← snippet_lines s (S i) r;
      Some (format_read_line (N.of_nat (S i)) (tag_of text MIN_LEN) text ++ [cLF] ++ rest)
  end.
Definition nearby_snippet (s : str) (offs : list LineOffsets) (center radius : nat) : option str :=
  match offs with
  | [] => Some (lit "(empty file)")
  | _ =>
      let from := center - radius in
      let to := Nat.min (center + radius + 1) (length offs) in
      snippet_lines s from (drop from (take to offs))
  end.
End tags.

(** ** Tags *)

Lemma alph_digit n : ∃ c, ALPH !! N.to_nat (n mod 36) = Some c ∧ alph n = c.
Proof.
  unfold alph. destruct (ALPH !! N.to_nat (n mod 36)) as [c|] eqn:E; [by exists c|].
  apply lookup_ge_None in E. change (length ALPH) with 36 in E.
  pose proof (N.mod_lt n 36 ltac:(done)). exfalso. revert H E. generalize (n mod 36)%N. lia.
Qed.

Lemma alph_tag_char n : is_tag_char (alph n) = true ∧ (alph n < 128)%N.
Proof.
  destruct (alph_digit n) as (c & Hc & ->).
  assert (Forall (λ c, is_tag_char c = true ∧ (c < 128)%N) ALPH) as HF.
  { unfold ALPH. vm_compute. repeat constructor. }
  exact (Forall_lookup_1 _ _ _ _ HF Hc).
Qed.

Lemma encode_digits_app k n acc : ∃ ds, length ds = k ∧ encode_digits k n acc = ds ++ acc ∧
  Forall (λ c, is_tag_char c = true ∧ (c < 128)%N) ds.
Proof.
  revert n acc; induction k as [|k IH]; intros n acc; [by exists []|]. cbn [encode_digits].
  destruct (IH (n / 36)%N (alph n :: acc)) as (ds & Hl & -> & HF).
  exists (ds ++ [alph n]). split_and!.
  - rewrite length_app, Hl. simpl. lia.
  - by rewrite <- app_assoc.
  - apply Forall_app. split; [done|]. constructor; [apply alph_tag_char|done].
Qed.

Lemma encode_chars h len : Forall (λ c, is_tag_char c = true ∧ (c < 128)%N) (encode h len).
Proof.
  unfold encode. destruct (encode_digits_app MAX_LEN h []) as (ds & _ & -> & HF).
  rewrite app_nil_r. by apply Forall_take.
Qed.

Lemma encode_length h len : length (encode h len) = clamp len MIN_LEN MAX_LEN.
Proof.
  unfold encode. destruct (encode_digits_app MAX_LEN h []) as (ds & Hl & -> & _).
  rewrite app_nil_r, length_take, Hl. unfold clamp, MIN_LEN, MAX_LEN. repeat case_match; boolp; lia.
Qed.

Lemma encode_byte_len h len : byte_len (encode h len) = clamp len MIN_LEN MAX_LEN.
Proof.
  rewrite <- (encode_length h). apply ascii_byte_len.
  eapply Forall_impl; [apply encode_chars|]. by intros c [_ ?].
Qed.

Lemma clamp_id x lo hi : lo ≤ x → x ≤ hi → clamp x lo hi = x.
Proof. intros. unfold clamp. repeat case_match; boolp; lia. Qed.

(** A shorter tag of a line is a prefix of a longer one. *)
Lemma encode_prefix h len len' : len ≤ len' → encode h len `prefix_of` encode h len'.
Proof.
  intros Hl. unfold encode. destruct (encode_digits_app MAX_LEN h []) as (ds & _ & -> & _).
  rewrite app_nil_r. assert (clamp len MIN_LEN MAX_LEN ≤ clamp len' MIN_LEN MAX_LEN) as Hc.
  { unfold clamp, MIN_LEN, MAX_LEN. repeat case_match; boolp; lia. }
  exists (drop (clamp len MIN_LEN MAX_LEN) (take (clamp len' MIN_LEN MAX_LEN) ds)).
  rewrite <- (take_drop (clamp len MIN_LEN MAX_LEN) (take (clamp len' _ _) ds)) at 1.
  by rewrite take_take, Nat.min_l.
Qed.

(** ** Offsets *)

(** The lines of a text, character by character: a content without line ends,
    then [\n], [\r\n] or a lone [\r], or nothing at the end of the text. *)
Definition is_eol (c : rchar) : bool := is_eol_byte c.
Inductive offsets_of : nat → str → list LineOffsets → Prop :=
| offsets_nil i : offsets_of i [] []
| offsets_line i c t r offs :
    c ++ t ≠ [] → Forall (λ x, is_eol x = false) c →
    (t = [] ∧ r = [] ∨ t = [cCR] ∧ (∀ r', r ≠ cLF :: r') ∨ t = [cLF] ∨ t = [cCR; cLF]) →
    offsets_of (i + byte_len c + byte_len t) r offs →
    offsets_of i (c ++ t ++ r)
      (mkOffsets i (i + byte_len c) (i + byte_len c + byte_len t) :: offs).

Lemma utf8_char_high c : (128 ≤ c)%N → Forall (λ b, (128 ≤ b)%N) (utf8_char c).
Proof.
  intros H%N.ltb_ge. unfold utf8_char. rewrite H.
  repeat case_match; repeat constructor; (etrans; [|apply N.le_add_r]); done.
Qed.
Lemma utf8_char_low c : (c < 128)%N → utf8_char c = [c].
Proof. intros H%N.ltb_lt. unfold utf8_char. by rewrite H. Qed.

Lemma take_while_Forall {A} f (s t : list A) :
  Forall (λ x, f x = true) s → take_while f (s ++ t) = s ++ take_while f t.
Proof. induction 1 as [|x s Hx _ IH]; simpl; [done|]. by rewrite Hx, IH. Qed.

Lemma is_eol_byte_true b : is_eol_byte b = true ↔ b = cLF ∨ b = cCR.
Proof. unfold is_eol_byte. rewrite orb_true_iff, !N.eqb_eq. done. Qed.

(** Scanning the bytes stops where scanning the characters does. *)
Lemma take_while_utf8 s :
  take_while (λ b, negb (is_eol_byte b)) (utf8 s) = utf8 (take_while (λ c, negb (is_eol c)) s).
Proof.
  induction s as [|c s IH]; [done|]. change (utf8 (c :: s)) with (utf8_char c ++ utf8 s).
  cbn [take_while]. unfold is_eol at 1. destruct (is_eol_byte c) eqn:E; simpl.
  - apply is_eol_byte_true in E as [-> | ->]; done.
  - rewrite take_while_Forall.
    + by rewrite IH.
    + destruct (N.lt_ge_cases c 128).
      * rewrite utf8_char_low by done. repeat constructor. by rewrite E.
      * eapply Forall_impl; [by apply utf8_char_high|]. intros b Hb. simpl.
        destruct (is_eol_byte b) eqn:Eb; [|done].
        apply is_eol_byte_true in Eb as [-> | ->]; unfold cLF, cCR in Hb; lia.
Qed.

Lemma utf8_lookup p r : utf8 (p ++ r) !! byte_len p = head (utf8 r).
Proof.
  rewrite utf8_app, lookup_app_r by done. rewrite byte_len_utf8, Nat.sub_diag.
  by destruct (utf8 r).
Qed.

Lemma skip_byte_char b p r : (b < 128)%N →
  skip_byte b (utf8 (p ++ r)) (byte_len p) =
  match r with c :: _ => if (c =? b)%N then S (byte_len p) else byte_len p | [] => byte_len p end.
Proof.
  intros Hb. unfold skip_byte. rewrite utf8_lookup. destruct r as [|c r]; [done|].
  change (utf8 (c :: r)) with (utf8_char c ++ utf8 r).
  destruct (N.lt_ge_cases c 128) as [Hc|Hc].
  - rewrite utf8_char_low by done. simpl. destruct (N.eqb_spec c b) as [->|Hne].
    + by rewrite bool_decide_eq_true_2.
    + rewrite bool_decide_eq_false_2; [done|]. congruence.
  - pose proof (utf8_char_high c Hc) as HF. destruct (N.eqb_spec c b); [lia|].
    rewrite bool_decide_eq_false_2; [done|].
    pose proof (len_utf8_pos c) as Hp. unfold len_utf8 in Hp.
    destruct (utf8_char c); simpl in *; [lia|]. inversion HF; subst. intros [=]. lia.
Qed.

Lemma scan_content_char p r :
  scan_content (utf8 (p ++ r)) (byte_len p) =
  byte_len p + byte_len (take_while (λ c, negb (is_eol c)) r).
Proof.
  unfold scan_content. rewrite utf8_app, drop_app_length' by done.
  by rewrite take_while_utf8.
Qed.

(** What the two [skip_byte]s after the content consume. *)
Lemma offsets_turn p c d :
  Forall (λ x, is_eol x = false) c → (∀ x d', d = x :: d' → is_eol x = true) →
  ∃ t e, d = t ++ e ∧
    (t = [] ∧ e = [] ∨ t = [cCR] ∧ (∀ r', e ≠ cLF :: r') ∨ t = [cLF] ∨ t = [cCR; cLF]) ∧
    skip_byte cLF (utf8 (p ++ c ++ d)) (skip_byte cCR (utf8 (p ++ c ++ d)) (byte_len (p ++ c))) =
    byte_len (p ++ c) + byte_len t.
Proof.
  intros Hc Hd. rewrite app_assoc. generalize (p ++ c). clear Hc. intros q.
  destruct d as [|x d].
  - exists [], []. split_and!; [done|by left|]. rewrite !skip_byte_char by done. done.
  - specialize (Hd x d eq_refl). apply is_eol_byte_true in Hd as [-> | ->].
    + exists [cLF], d. split_and!; [done|naive_solver|]. rewrite !skip_byte_char by done.
      simpl. change (byte_len [cLF]) with 1. lia.
    + rewrite (skip_byte_char cCR) by done. simpl.
      replace (S (byte_len q)) with (byte_len (q ++ [cCR]))
        by (rewrite byte_len_app; change (byte_len [cCR]) with 1; lia).
      change (q ++ cCR :: d) with (q ++ [cCR] ++ d). rewrite app_assoc, skip_byte_char by done.
      destruct d as [|y d]; [|destruct (N.eqb_spec y cLF) as [->|Hne]].
      * exists [cCR], []. rewrite byte_len_app. split_and!; [done| |done]. right; left. done.
      * exists [cCR; cLF], d. split_and!; [done|naive_solver|].
        rewrite byte_len_app. change (byte_len [cCR]) with 1. change (byte_len [cCR; cLF]) with 2. lia.
      * exists [cCR], (y :: d). rewrite byte_len_app. split_and!; [done| |done].
        right; left. split; [done|]. congruence.
Qed.

Lemma offsets_loop_spec fuel p r :
  byte_len r ≤ fuel → offsets_of (byte_len p) r (offsets_loop fuel (utf8 (p ++ r)) (byte_len p)).
Proof.
  revert p r; induction fuel as [|k IH]; intros p r Hk.
  { rewrite (byte_len_zero r) by lia. constructor. }
  cbn [offsets_loop]. rewrite byte_len_utf8, byte_len_app.
  destruct (Nat.ltb_spec (byte_len p) (byte_len p + byte_len r)) as [Hlt|Hge].
  2:{ rewrite (byte_len_zero r) by lia. constructor. }
  rewrite scan_content_char, <- byte_len_app.
  pose proof (take_drop_while (λ c, negb (is_eol c)) r) as Hs.
  pose proof (take_while_all (λ c, negb (is_eol c)) r) as Ha.
  pose proof (drop_while_head (λ c, negb (is_eol c)) r) as Hd.
  revert Hs Ha Hd. generalize (drop_while (λ c, negb (is_eol c)) r).
  generalize (take_while (λ c, negb (is_eol c)) r). intros c d <- Ha Hd.
  destruct (offsets_turn p c d) as (t & e & -> & Ht & ->).
  - eapply Forall_impl; [exact Ha|]. intros x Hx. by apply negb_true_iff.
  - intros x d' ->. apply negb_false_iff. by apply (Hd x d').
  - rewrite byte_len_app. apply offsets_line; [|eapply Forall_impl; [exact Ha|]; intros; by apply negb_true_iff|done|].
    + intros [-> ->]%app_eq_nil. destruct Ht as [[_ ->]|[[]|[]]]; try done. simpl in Hlt. blia.
    + replace (byte_len p + byte_len c + byte_len t) with (byte_len (p ++ c ++ t)) by blia.
      replace (p ++ c ++ t ++ e) with ((p ++ c ++ t) ++ e) by by rewrite <- !app_assoc.
      apply IH. assert (0 < byte_len (c ++ t)); [|blia].
      destruct (decide (byte_len (c ++ t) = 0)) as [H0|]; [|lia]. apply byte_len_zero in H0.
      apply app_eq_nil in H0 as [-> ->]. destruct Ht as [[_ ->]|[[]|[]]]; try done. simpl in Hlt. blia.
Qed.

Lemma line_offsets_spec s : offsets_of 0 s (line_offsets s).
Proof. apply (offsets_loop_spec (byte_len s) [] s). done. Qed.

(** *** The line view of a text *)

(** A line: its content and its end. *)
Abbreviation line := (str * str)%type (only parsing).
Definition whole (l : line) : str := l.1 ++ l.2.
Definition line_at (i : nat) (ls : list line) (k : nat) : option LineOffsets :=
  match ls !! k with
  | Some (c, t) =>
      let at_ := i + byte_len (mjoin (whole <$> take k ls)) in
      Some (mkOffsets at_ (at_ + byte_len c) (at_ + byte_len c + byte_len t))
  | None => None
  end.

Lemma byte_len_lines_cons c t (ls : list line) :
  byte_len (mjoin (whole <$> (c, t) :: ls)) = byte_len c + byte_len t + byte_len (mjoin (whole <$> ls)).
Proof.
  change (mjoin (whole <$> (c, t) :: ls)) with ((c ++ t) ++ mjoin (whole <$> ls)).
  by rewrite !byte_len_app.
Qed.

Lemma offsets_lines i s offs :
  offsets_of i s offs →
  ∃ ls : list line, s = mjoin (whole <$> ls) ∧ (∀ k, offs !! k = line_at i ls k) ∧
    Forall (λ l, Forall (λ x, is_eol x = false) l.1 ∧ l.2 ∈ [[]; [cCR]; [cLF]; [cCR; cLF]]) ls.
Proof.
  induction 1 as [i|i c t r offs Hne Hc Ht _ (ls & -> & Hk & HF)].
  - exists []. done.
  - exists ((c, t) :: ls). split_and!.
    + cbn. unfold whole at 1. by rewrite <- app_assoc.
    + intros [|k]; cbn.
      * unfold line_at. cbn. change (byte_len []) with 0. rewrite Nat.add_0_r. done.
      * rewrite Hk. unfold line_at. change (((c, t) :: ls) !! S k) with (ls !! k).
        change (take (S k) ((c, t) :: ls)) with ((c, t) :: take k ls).
        destruct (ls !! k) as [[c' t']|]; [|done]. rewrite byte_len_lines_cons.
        f_equal. f_equal; lia.
    + constructor; [|done]. split; [done|]. cbn. set_solver.
Qed.

Lemma line_offsets_lines s :
  ∃ ls : list line, s = mjoin (whole <$> ls) ∧ (∀ k, line_offsets s !! k = line_at 0 ls k) ∧
    Forall (λ l, Forall (λ x, is_eol x = false) l.1 ∧ l.2 ∈ [[]; [cCR]; [cLF]; [cCR; cLF]]) ls.
Proof. apply offsets_lines, line_offsets_spec. Qed.

Lemma lines_split (ls : list line) k c t :
  ls !! k = Some (c, t) →
  mjoin (whole <$> ls) = mjoin (whole <$> take k ls) ++ (c ++ t) ++ mjoin (whole <$> drop (S k) ls).
Proof.
  intros Hk. rewrite <- (take_drop_middle ls k (c, t) Hk) at 1.
  by rewrite fmap_app, join_app.
Qed.

(** Every offset record is made of character boundaries, so slicing with it
    never panics. *)
Lemma line_text_total s k off :
  line_offsets s !! k = Some off →
  ∃ p c t r, s = p ++ c ++ t ++ r ∧ start off = byte_len p ∧ content_end off = byte_len (p ++ c) ∧
    line_end off = byte_len (p ++ c ++ t) ∧ line_text s off = Some c.
Proof.
  destruct (line_offsets_lines s) as (ls & -> & Hk & _). rewrite Hk. unfold line_at.
  destruct (ls !! k) as [[c t]|] eqn:E; [|done]. intros [= <-].
  exists (mjoin (whole <$> take k ls)), c, t, (mjoin (whole <$> drop (S k) ls)).
  rewrite (lines_split _ _ _ _ E), <- app_assoc. cbn [start content_end line_end].
  rewrite !byte_len_app. split_and!; [done|done|cbn; lia|cbn; lia|].
  apply slice_app.
Qed.

(** The lines [i] to [j] of the view, as the bytes between their offsets. *)
Lemma line_range_view (ls : list line) i j oi oj :
  line_at 0 ls i = Some oi → line_at 0 ls j = Some oj → i ≤ j →
  mjoin (whole <$> ls) =
    mjoin (whole <$> take i ls) ++ mjoin (whole <$> drop i (take (S j) ls))
    ++ mjoin (whole <$> drop (S j) ls) ∧
  start oi = byte_len (mjoin (whole <$> take i ls)) ∧
  line_end oj =
    byte_len (mjoin (whole <$> take i ls) ++ mjoin (whole <$> drop i (take (S j) ls))).
Proof.
  unfold line_at. intros Hi Hj Hij. destruct (ls !! i) as [[ci ti]|] eqn:Ei; [|done].
  destruct (ls !! j) as [[cj tj]|] eqn:Ej; [|done]. simplify_eq/=.
  rewrite app_assoc, <- !join_app, <- !fmap_app.
  replace (take i ls) with (take i (take (S j) ls)) by (rewrite take_take, Nat.min_l by lia; done).
  rewrite !take_drop. split_and!; [done|done|].
  rewrite (take_S_r _ _ _ Ej), fmap_app, join_app.
  rewrite byte_len_app, byte_len_lines_cons. change (byte_len (mjoin (whole <$> []))) with 0.
  cbn. lia.
Qed.

Lemma line_range s i j oi oj :
  line_offsets s !! i = Some oi → line_offsets s !! j = Some oj → i ≤ j →
  ∃ p m r, s = p ++ m ++ r ∧ start oi = byte_len p ∧ line_end oj = byte_len (p ++ m).
Proof.
  intros Hi Hj Hij. destruct (line_offsets_lines s) as (ls & -> & Hk & _). rewrite Hk in Hi, Hj.
  destruct (line_range_view ls i j oi oj Hi Hj Hij) as (E & Hs & He). rewrite E.
  do 3 eexists. split; [reflexivity|done].
Qed.

(** ** Looking a tag up *)

Section find.
Context (fx_hash : str → N).

(** Line [k] of the text has the tag. *)
Definition has_tag (s tag : str) (k : nat) : Prop :=
  ∃ off text, line_offsets s !! k = Some off ∧ line_text s off = Some text ∧
    tag_of fx_hash text (byte_len tag) = tag.

Lemma tag_hits_spec s tag len i offs :
  (∀ off, off ∈ offs → is_Some (line_text s off)) →
  ∃ hits, tag_hits fx_hash s tag len i offs = Some hits ∧ StronglySorted lt hits ∧
    ∀ k, k ∈ hits ↔ ∃ j off text, k = i + j ∧ offs !! j = Some off ∧ line_text s off = Some text ∧
      tag_of fx_hash text len = tag.
Proof.
  revert i; induction offs as [|off offs IH]; intros i Ht; cbn [tag_hits].
  - exists []. split_and!; [done|constructor|]. intros k. rewrite elem_of_nil. split; [done|].
    intros (j & off & text & _ & Hj & _). done.
  - destruct (Ht off ltac:(by left)) as [text Et]. rewrite Et. cbn.
    destruct (IH (S i)) as (hits & -> & Hs & Hk). { intros o Ho. apply Ht. by right. }
    cbn. eexists. split; [reflexivity|]. split.
    + case_match; [|done]. constructor; [done|]. apply Forall_forall. intros k Hin.
      apply Hk in Hin as (j & _ & _ & -> & _). lia.
    + intros k. split.
      * case_match eqn:E; [rewrite elem_of_cons; intros [->|Hin]|intros Hin].
        -- boolp. exists 0, off, text. split_and!; [lia|done..].
        -- apply Hk in Hin as (j & o & t & -> & ?). exists (S j), o, t. split; [lia|done].
        -- apply Hk in Hin as (j & o & t & -> & ?). exists (S j), o, t. split; [lia|done].
      * intros ([|j] & o & t & -> & Hj & Ho & Htag); cbn in Hj.
        -- simplify_eq. rewrite bool_decide_eq_true_2 by done. rewrite Nat.add_0_r. by left.
        -- assert (i + S j ∈ hits) as Hin by (apply Hk; exists j, o, t; split; [lia|done]).
           case_match; [by right|done].
Qed.

Lemma tag_of_len text len : byte_len (tag_of fx_hash text len) = clamp len MIN_LEN MAX_LEN.
Proof. apply encode_byte_len. Qed.

Lemma tag_of_chars text len : forallb is_tag_char (utf8 (tag_of fx_hash text len)) = true.
Proof.
  pose proof (encode_chars (hash_u64 fx_hash text) len) as HF.
  assert (utf8 (tag_of fx_hash text len) = tag_of fx_hash text len) as E; [apply ascii_utf8|].
  { eapply Forall_impl; [exact HF|]. by intros c [_ ?]. }
  rewrite E. apply forallb_true_iff. intros c Hc.
  by apply (proj1 (Forall_forall _ _) HF).
Qed.

(** Looking a tag up never panics and finds exactly the lines that have it: one
    line, no line, or the list of the lines in order. *)
Lemma find_tag_exact s tag :
  ∃ hit, find_tag fx_hash s (line_offsets s) tag = Some hit ∧
    match hit with
    | Unique i => ∀ k, has_tag s tag k ↔ k = i
    | Missing => ∀ k, ¬ has_tag s tag k
    | Ambiguous hits => 2 ≤ length hits ∧ StronglySorted lt hits ∧ ∀ k, has_tag s tag k ↔ k ∈ hits
    end.
Proof.
  unfold find_tag. case_match eqn:Hform.
  - eexists. split; [reflexivity|]. intros k (off & text & _ & _ & Htag).
    pose proof (tag_of_len text (byte_len tag)) as Hl. pose proof (tag_of_chars text (byte_len tag)) as Hc.
    rewrite Htag in Hl, Hc. rewrite Hc in Hform. cbn [negb] in Hform. rewrite orb_false_r in Hform.
    apply negb_true_iff, andb_false_iff in Hform. revert Hl. unfold clamp, MIN_LEN, MAX_LEN in *.
    repeat case_match; boolp; destruct Hform; boolp; lia.
  - destruct (tag_hits_spec s tag (byte_len tag) 0 (line_offsets s)) as (hits & -> & Hs & Hk).
    { intros off [k Hk]%list_elem_of_lookup. destruct (line_text_total _ _ _ Hk) as (? & ? & ? & ? & ?).
      naive_solver. }
    assert (∀ k, k ∈ hits ↔ has_tag s tag k) as Hk'.
    { intros k. rewrite Hk. unfold has_tag. naive_solver. }
    cbn. eexists. split; [reflexivity|]. destruct hits as [|i [|j hits]].
    + intros k Ht%Hk'. by apply elem_of_nil in Ht.
    + intros k. rewrite <- Hk'. apply list_elem_of_singleton.
    + split_and!; [simpl; lia|done|]. intros k. by rewrite Hk'.
Qed.

End find.

(** *** Tags of a window *)

(** The [HashMap] check says what it is meant to say. *)
Definition agrees (first : gmap str str) (l : list (str * str)) : Prop :=
  (∀ tag x y, first !! tag = Some x → (y, tag) ∈ l → y = x) ∧
  (∀ tag x y, (x, tag) ∈ l → (y, tag) ∈ l → x = y).

Lemma agrees_cons first line tag l :
  agrees first ((line, tag) :: l) ↔
  (∀ prev, first !! tag = Some prev → prev = line) ∧ agrees (<[tag := line]> first) l.
Proof.
  unfold agrees. split.
  - intros [H1 H2]. split_and!.
    + intros prev Hp. symmetry. apply (H1 tag); [done|by left].
    + intros t x y Hx Hy. destruct (decide (t = tag)) as [->|Ht].
      * rewrite lookup_insert_eq in Hx. injection Hx as <-. apply (H2 tag); [by right|by left].
      * rewrite lookup_insert_ne in Hx by done. apply (H1 t); [done|by right].
    + intros t x y Hx Hy. apply (H2 t); by right.
  - intros (Hp & H1 & H2).
    assert (∀ y, (y, tag) ∈ l → y = line) as Hl.
    { intros y Hy. apply (H1 tag); [apply lookup_insert_eq|done]. }
    split.
    + intros t x y Hx [[= -> ->]|Hy]%elem_of_cons; [symmetry; by apply Hp|].
      destruct (decide (t = tag)) as [->|Ht]; [rewrite (Hp _ Hx); by apply Hl|].
      apply (H1 t); [by rewrite lookup_insert_ne|done].
    + intros t x y [[= -> ->]|Hx]%elem_of_cons Hy'.
      * apply elem_of_cons in Hy' as [[= ->]|Hy]; [done|]. symmetry. by apply Hl.
      * apply elem_of_cons in Hy' as [[= -> ->]|Hy]; [by apply Hl|]. by apply (H2 t).
Qed.

Lemma unique_go_spec first l : unique_go first l = true ↔ agrees first l.
Proof.
  revert first; induction l as [|[line tag] l IH]; intros first; cbn [unique_go].
  - split; [|done]. intros _. split; intros t x y; [intros _|]; intros []%elem_of_nil.
  - rewrite agrees_cons. destruct (first !! tag) as [prev|] eqn:E.
    + case_bool_decide as Hd; cbn; [rewrite IH|].
      * split; [|by intros [_ ?]]. intros ?. split; [|done]. by intros ? [= <-].
      * split; [done|]. intros [Hp _]. destruct Hd. by apply Hp.
    + rewrite IH. split; [|by intros [_ ?]]. by split.
Qed.

Lemma content_tags_unique_spec lines (f : str → str) :
  content_tags_unique lines (f <$> lines) = true ↔
  ∀ x y, x ∈ lines → y ∈ lines → f x = f y → x = y.
Proof.
  unfold content_tags_unique. rewrite unique_go_spec.
  assert (∀ x t, (x, t) ∈ zip lines (f <$> lines) ↔ x ∈ lines ∧ t = f x) as Hz.
  { intros x t. induction lines as [|l lines IH]; cbn.
    - rewrite !elem_of_nil. naive_solver.
    - rewrite !elem_of_cons, IH. naive_solver. }
  split.
  - intros [_ H] x y Hx Hy Hf. apply (H (f x)); apply Hz; naive_solver.
  - intros H. split; [done|]. intros t x y [Hx ->]%Hz [Hy ?]%Hz. by apply H.
Qed.

Section window.
Context (fx_hash : str → N).

(** The tags of a window all have one length; they tell different lines apart,
    unless that length is already [MAX_LEN]. *)
Lemma tags_for_window_spec lines :
  ∃ len, MIN_LEN ≤ len ≤ MAX_LEN ∧
    tags_for_window fx_hash lines = (λ l, tag_of fx_hash l len) <$> lines ∧
    (len = MAX_LEN ∨
     ∀ x y, x ∈ lines → y ∈ lines → tag_of fx_hash x len = tag_of fx_hash y len → x = y).
Proof.
  assert (∀ lens, Forall (λ n, MIN_LEN ≤ n ≤ MAX_LEN) lens →
    ∃ len, MIN_LEN ≤ len ≤ MAX_LEN ∧
      lengthen fx_hash lines lens = (λ l, tag_of fx_hash l len) <$> lines ∧
      (len = MAX_LEN ∨
       ∀ x y, x ∈ lines → y ∈ lines → tag_of fx_hash x len = tag_of fx_hash y len → x = y)) as H.
  { induction 1 as [|len lens Hl _ IH]; cbn [lengthen].
    - exists MAX_LEN. split_and!; [unfold MIN_LEN, MAX_LEN; lia..|done|by left].
    - destruct (content_tags_unique _ _) eqn:E; [|done].
      pose proof (proj1 (content_tags_unique_spec lines (λ l, tag_of fx_hash l len)) E) as Hu.
      exists len. split_and!; [lia..|done|by right]. }
  destruct lines as [|l lines]; [|apply H; unfold MIN_LEN, MAX_LEN; repeat constructor].
  exists MIN_LEN. split_and!; [unfold MIN_LEN, MAX_LEN; lia..|done|right].
  intros x y []%elem_of_nil.
Qed.

(** Reading and editing agree. A tag that [read] printed for a line of a
    window finds that line in the file again, alone or in the list of candidates. *)
Theorem window_tag_found s (window : list str) w tag text k off :
  tags_for_window fx_hash window !! w = Some tag → window !! w = Some text →
  line_offsets s !! k = Some off → line_text s off = Some text →
  find_tag fx_hash s (line_offsets s) tag = Some (Unique k) ∨
  ∃ hits, find_tag fx_hash s (line_offsets s) tag = Some (Ambiguous hits) ∧ k ∈ hits.
Proof.
  intros Ht Hw Hoff Htext. destruct (tags_for_window_spec window) as (len & Hlen & E & _).
  rewrite E, list_lookup_fmap, Hw in Ht. cbn in Ht. injection Ht as <-.
  assert (has_tag fx_hash s (tag_of fx_hash text len) k) as Hhas.
  { exists off, text. split_and!; [done..|]. by rewrite tag_of_len, clamp_id by lia. }
  destruct (find_tag_exact fx_hash s (tag_of fx_hash text len)) as (hit & -> & Hhit).
  destruct hit as [i| |hits].
  - left. apply Hhit in Hhas as ->. done.
  - by apply Hhit in Hhas.
  - right. exists hits. split; [done|]. apply Hhit, Hhas.
Qed.
End window.

(** A window of two lines of a file of three. *)
Lemma window_tag_found_witness :
  let hash := foldr N.add 0%N in
  let s := lit "ab" ++ [cLF] ++ lit "c" ++ [cLF] ++ lit "d" in
  find_tag hash s (line_offsets s) (tag_of hash (lit "c") 5) = Some (Unique 1) ∨
  ∃ hits, find_tag hash s (line_offsets s) (tag_of hash (lit "c") 5) = Some (Ambiguous hits) ∧ 1 ∈ hits.
Proof.
  apply (window_tag_found (foldr N.add 0%N) (lit "ab" ++ [cLF] ++ lit "c" ++ [cLF] ++ lit "d")
    [lit "ab"; lit "c"] 1 (tag_of (foldr N.add 0%N) (lit "c") 5) (lit "c") 1 (mkOffsets 3 4 5));
    vm_compute; reflexivity.
Defined.
