(* ===== verification/Edit.v ===== *)
(** [tools/src/file/edit.rs]: planning an [edit] call. The text to replace is
    found exactly, or up to white space, or up to typographic punctuation, in
    that order, or it is named by content tags; the plan is the new text of the
    file. Offsets are byte offsets as in the code, and a slice off a character
    boundary is a panic ([None]); file EditFacts shows that none happens.

    Loops carry fuel, the length of the text: every turn moves forward by at
    least one byte ([find_ws_flexible_from_total], [ws_flexible_spans_total]). *)

From S2P Require Import Prelude RustStr Bytes Tolerant LineTag.

Abbreviation span := (nat * nat)%type (only parsing).

Inductive Locate := LNone | LAmbiguous (count : nat) | LHits (spans : list span).

Definition is_ident_char (c : rchar) : bool := is_ascii_alphanumeric c || (c =? chr "_")%N.
Definition ident_boundary_missing : bool := true.

Definition ident_left_ok (haystack : str) (start : nat) : option bool :=
  before ← slice_to haystack start;
  Some match last before with
       | Some prev => negb (is_ident_char prev)
       | None => ident_boundary_missing
       end.
Definition left_boundary_ok (haystack : str) (start : nat) (token : str) : option bool :=
  match head token with
  | None => Some false
  | Some first =>
      if (start =? 0) || negb (is_ident_char first) then Some true
      else ident_left_ok haystack start
  end.

Definition ident_right_ok (haystack : str) (end_ : nat) : option bool :=
  after ← slice_from haystack end_;
  Some match head after with
       | Some next => negb (is_ident_char next)
       | None => ident_boundary_missing
       end.
Definition right_boundary_ok (haystack : str) (end_ : nat) (token : str) : option bool :=
  match last token with
  | None => Some false
  | Some l =>
      if (byte_len haystack <=? end_) || negb (is_ident_char l) then Some true
      else ident_right_ok haystack end_
  end.

Definition skip_ws (s : str) (i : nat) : option nat :=
  rest ← slice_from s i; Some (i + byte_len (take_while is_whitespace rest)).

Definition skip_token_at (start len : nat) : nat := start + len.

(** The outer option is the panic, the inner one the function's result. *)
Fixpoint tokens_match_after (haystack : str) (tokens : list str) (i : nat) : option (option nat) :=
  match tokens with
  | [] => Some (Some i)
  | tok :: tokens =>
      after_ws ← skip_ws haystack i;
      if after_ws =? i then Some None
      else
        rest ← slice_from haystack after_ws;
        if negb (starts_with rest tok) then Some None
        else
          ok ← right_boundary_ok haystack (after_ws + byte_len tok) tok;
          if negb ok then Some None
          else tokens_match_after haystack tokens (after_ws + byte_len tok)
  end.

(** The loop of [find_ws_flexible_from], from offset [search] on. *)
Fixpoint flexible_loop (fuel : nat) (haystack first : str) (rest : list str) (search : nat)
  : option (option span) :=
  match fuel with
  | O => None
  | S k =>
      if search <? byte_len haystack then
        tail ← slice_from haystack search;
        match find tail first with
        | None => Some None
        | Some rel =>
            let start := search + rel in
            let again := flexible_loop k haystack first rest (skip_token_at start (byte_len first)) in
            left ← left_boundary_ok haystack start first;
            right ← (if left then right_boundary_ok haystack (start + byte_len first) first
                     else Some false);
            if negb left || negb right then again
            else
              found ← tokens_match_after haystack rest (start + byte_len first);
              match found with
              | Some end_ => Some (Some (start, end_))
              | None => again
              end
        end
      else Some None
  end.
Definition find_ws_flexible_from (haystack : str) (tokens : list str) (from : nat)
  : option (option span) :=
  match tokens with
  | [] => None
  | first :: rest => flexible_loop (S (byte_len haystack)) haystack first rest from
  end.

Fixpoint flexible_spans_loop (fuel : nat) (haystack : str) (tokens : list str) (from : nat)
  : option (list span) :=
  match fuel with
  | O => None
  | S k =>
      if from <? byte_len haystack then
        found ← find_ws_flexible_from haystack tokens from;
        match found with
        | Some (start, end_) =>
            rest ← flexible_spans_loop k haystack tokens end_; Some ((start, end_) :: rest)
        | None => Some []
        end
      else Some []
  end.
Definition ws_flexible_spans (haystack needle : str) : option (list span) :=
  let tokens := split_whitespace needle in
  if length tokens <? 2 then Some []
  else flexible_spans_loop (S (byte_len haystack)) haystack tokens 0.

Definition exact_spans (haystack needle : str) : list span :=
  match needle with
  | [] => []
  | _ => (λ i, (i, i + byte_len needle)) <$> match_indices haystack needle
  end.

(** [map[s]] and [map[e]]: out of range panics. *)
Definition map_span (map : list nat) (sp : span) : option span :=
  s ← map !! sp.1; e ← map !! sp.2; Some (s, e).
Definition folded_spans (original old : str) : option (list span) :=
  let '(haystack, map) := fold original in
  let needle := (fold old).1 in
  let exact := exact_spans haystack needle in
  spans ← match exact with [] => ws_flexible_spans haystack needle | _ => Some exact end;
  mapM (map_span map) spans.

Definition finish_spans (spans : list span) (replace_all : bool) : Locate :=
  match spans with
  | [] => LNone
  | [_] => LHits spans
  | _ => if replace_all then LHits spans else LAmbiguous (length spans)
  end.

Definition decide_spans (exact : list span) (original old : str) (replace_all : bool) : option Locate :=
  match exact with
  | _ :: _ => Some (finish_spans exact replace_all)
  | [] =>
      flexible ← ws_flexible_spans original old;
      match flexible with
      | _ :: _ => Some (finish_spans flexible replace_all)
      | [] => folded ← folded_spans original old; Some (finish_spans folded replace_all)
      end
  end.
Definition locate_spans (original old : str) (replace_all : bool) : option Locate :=
  decide_spans (exact_spans original old) original old replace_all.

(** The loop of [apply_spans]: what is written from offset [last_] on. *)
Fixpoint apply_spans_from (original : str) (spans : list span) (new : str) (last_ : nat) : option str :=
  match spans with
  | [] => slice_from original last_
  | (start, end_) :: r =>
      kept ← slice original last_ start;
      rest ← apply_spans_from original r new end_;
      Some (kept ++ new ++ rest)
  end.
Definition apply_spans (original : str) (spans : list span) (new : str) : option str :=
  apply_spans_from original spans new 0.

(** [format/src/diff.rs]: where the first match starts, for the report. *)
Definition count_lf (s : str) : nat := count_occ N.eq_dec s cLF.
Definition first_line_number (haystack needle : str) : option (option nat) :=
  match needle with
  | [] => Some (Some 1)
  | _ => match find haystack needle with
         | None => Some None
         | Some pos => before ← slice_to haystack pos; Some (Some (count_lf before + 1))
         end
  end.

Record EditTarget := mkTarget {
  old_string : str; replace_all : bool;
  target_from : option str; target_to : option str; insert_after : option str }.

Record EditPlan := mkPlan {
  matched : str; new_text : str; modified : str; plan_count : nat; plan_start : option nat }.

Definition require_from_tag (from : option str) : result str :=
  match from with
  | Some tag => Ok tag
  | None => Err (lit "from is required when insert_after is not set.")
  end.

Section plan.
Context (fx_hash : str → N).

Definition miss_with_snippet (original old : str) : option str :=
  let offs := line_offsets original in
  center ← match head (split_whitespace old) with
           | Some tok =>
               match find original tok with
               | Some pos => before ← slice_to original pos; Some (count_lf before)
               | None => Some 0
               end
           | None => Some 0
           end;
  near ← nearby_snippet fx_hash original offs center 3;
  Some (lit "Could not find the specified text in the file." ++ LF ++ lit "Nearby lines:" ++ LF ++ near).

Fixpoint ambiguous_loop (fuel : nat) (original old : str) (offs : list LineOffsets)
    (shown from : nat) (msg : str) : option str :=
  match fuel with
  | O => None
  | S k =>
      if (shown <? 6) && (from <? byte_len original) then
        tail ← slice_from original from;
        match find tail old with
        | None => Some msg
        | Some rel =>
            let abs := from + rel in
            before ← slice_to original abs;
            let line_i := count_lf before in
            let from' := abs + Nat.max (byte_len old) 1 in
            match offs !! line_i with
            | Some off =>
                text ← line_text original off;
                let tag := tag_of fx_hash text MIN_LEN in
                ambiguous_loop k original old offs (S shown) from'
                  (msg ++ format_read_line (N.of_nat (line_i + 1)) tag text ++ LF)
            | None => ambiguous_loop k original old offs shown from' msg
            end
        end
      else Some msg
  end.
Definition ambiguous_with_tags (original old : str) (count : nat) : option str :=
  ambiguous_loop (S (byte_len original)) original old (line_offsets original) 0 0
    (lit "Found " ++ digits (N.of_nat count)
     ++ lit " occurrences of the search text. Use replace_all=true, a more specific match, or a content tag."
     ++ LF).

Fixpoint candidate_lines (original tag : str) (offs : list LineOffsets) (hits : list nat) : option str :=
  match hits with
  | [] => Some []
  | i :: r =>
      off ← offs !! i;
      text ← line_text original off;
      rest ← candidate_lines original tag offs r;
      Some (format_read_line (N.of_nat (i + 1)) (tag_of fx_hash text (Nat.max MIN_LEN (byte_len tag))) text
            ++ LF ++ rest)
  end.

(** The closure [resolve] of [apply_tagged]. *)
Definition resolve (original : str) (offs : list LineOffsets) (tag : str) (label : string) : outcome nat :=
  hit ← find_tag fx_hash original offs tag;
  match hit with
  | Unique i => Some (Ok i)
  | Missing =>
      near ← nearby_snippet fx_hash original offs 0 4;
      Some (Err (lit "Content tag `" ++ tag ++ lit "` (" ++ lit label
                 ++ lit ") was not found. File may have changed." ++ LF ++ near))
  | Ambiguous hits =>
      rows ← candidate_lines original tag offs (take 8 hits);
      Some (Err (lit "Content tag `" ++ tag ++ lit "` (" ++ lit label ++ lit ") matches "
                 ++ digits (N.of_nat (length hits))
                 ++ lit " lines. Use a longer tag from the last `read`." ++ LF ++ rows))
  end.

Arguments resolve _ _ _ _%_string.

(** What [insert_after] writes: the new text as lines of its own. *)
Definition insertion (original before new_string : str) (insert_at : nat) : str :=
  let insert := if negb (new_string == []) && negb (ends_with new_string LF)
                then new_string ++ LF else new_string in
  let insert := if negb (insert == []) && (0 <? insert_at) && negb (ends_with before LF)
                then LF ++ insert else insert in
  if is_crlf original then to_crlf insert else insert.

Definition apply_tagged (original : str) (from to insert_after : option str) (new_string : str)
  : outcome (str * str * option nat) :=
  if bool_decide (is_Some from) && bool_decide (is_Some insert_after)
  then Some (Err (lit "Use either from/to or insert_after, not both."))
  else
    let offs := line_offsets original in
    if offs == [] then Some (Err (lit "File is empty " ++ [8212]%N ++ lit " tags cannot be resolved."))
    else
      match insert_after with
      | Some after =>
          i <-? resolve original offs after "insert_after";
          off ← offs !! i;
          let insert_at := line_end off in
          before ← slice_to original insert_at;
          rest ← slice_from original insert_at;
          let insert := insertion original before new_string insert_at in
          Some (Ok ([], before ++ insert ++ rest, Some (i + 2)))
      | None =>
          from_tag <-? Some (require_from_tag from);
          start_i <-? resolve original offs from_tag "from";
          end_i <-? match to with
                    | Some to_tag =>
                        j <-? resolve original offs to_tag "to";
                        Some (if j <? start_i then Err (lit "`to` must not precede `from`.") else Ok j)
                    | None => Some (Ok start_i)
                    end;
          first ← offs !! start_i;
          last_ ← offs !! end_i;
          let byte_start := start first in
          let byte_end := line_end last_ in
          matched ← slice original byte_start byte_end;
          modified ← apply_spans original [(byte_start, byte_end)] new_string;
          Some (Ok (matched, modified, Some (start_i + 1)))
      end.

Definition plan_edit (original : str) (target : EditTarget) (new_string : str) : outcome EditPlan :=
  let '(old, new_text) :=
    if is_crlf original then (to_crlf (old_string target), to_crlf new_string)
    else (old_string target, new_string) in
  if bool_decide (is_Some (target_from target)) || bool_decide (is_Some (insert_after target)) then
    '(matched, modified, start) <-? apply_tagged original (target_from target) (target_to target)
                                      (insert_after target) new_text;
    Some (Ok (mkPlan matched new_text modified 1 start))
  else
    located ← locate_spans original old (replace_all target);
    match located with
    | LNone => msg ← miss_with_snippet original old; Some (Err msg)
    | LAmbiguous count => msg ← ambiguous_with_tags original old count; Some (Err msg)
    | LHits spans =>
        first ← spans !! 0;
        matched ← slice original first.1 first.2;
        start ← first_line_number original matched;
        modified ← apply_spans original spans new_text;
        Some (Ok (mkPlan matched new_text modified (length spans) start))
    end.
End plan.
Arguments resolve _ _ _ _ _%_string.
