(* ===== verification/EditFacts.v ===== *)
(** What [edit] promises: planning never panics; a planned edit only touches
    the spans it found, whose words are those of [old_string]; an exact
    [old_string] is replaced as [str::replace] would; and content tags replace
    or extend whole lines. *)

From S2P Require Import Prelude RustStr Bytes Tolerant LineTag Edit.

(** ** Spans

    [spans_of P i l s]: [l] are sorted, disjoint spans of the text [s], which
    starts at byte [i]; they lie on character boundaries and the text of each
    satisfies [P]. *)
Inductive spans_of (P : str → Prop) : nat → list span → str → Prop :=
| spans_nil i s : spans_of P i [] s
| spans_cons i a m b l :
    P m → spans_of P (i + byte_len a + byte_len m) l b →
    spans_of P i ((i + byte_len a, i + byte_len a + byte_len m) :: l) (a ++ m ++ b).

Lemma spans_impl (P Q : str → Prop) i l s :
  (∀ m, P m → Q m) → spans_of P i l s → spans_of Q i l s.
Proof. intros HPQ. induction 1; constructor; auto. Qed.

(** The text with the spans replaced: [ps] are the kept pieces, each with the
    matched piece after it. *)
Definition with_matched (x : str * str) : str := x.1 ++ x.2.
Definition with_new (new : str) (x : str * str) : str := x.1 ++ new.

Lemma apply_spans_from_spec P original spans new p r :
  original = p ++ r → spans_of P (byte_len p) spans r →
  ∃ ps tail, r = mjoin (with_matched <$> ps) ++ tail ∧ length ps = length spans ∧
    Forall (λ x, P x.2) ps ∧
    apply_spans_from original spans new (byte_len p) = Some (mjoin (with_new new <$> ps) ++ tail).
Proof.
  intros -> Hs. remember (byte_len p) as i eqn:Ei. revert p Ei.
  induction Hs as [i s|i a m b l Hm Hs IH]; intros p ->.
  - exists [], s. split_and!; [done..|]. apply slice_from_app.
  - destruct (IH (p ++ a ++ m)) as (ps & tail & Hr & Hl & HF & Ha); [blia|].
    exists ((a, m) :: ps), tail. split_and!; [by rewrite Hr; cbn; rewrite <- !app_assoc| by cbn; f_equal| |].
    { by constructor. }
    cbn [apply_spans_from]. rewrite slice_app. cbn [mbind option_bind].
    replace (p ++ a ++ m ++ b) with ((p ++ a ++ m) ++ b) by by rewrite <- !app_assoc.
    replace (byte_len p + byte_len a + byte_len m) with (byte_len (p ++ a ++ m)) in * by blia.
    rewrite Ha. cbn. unfold with_new at 2. cbn. by rewrite <- !app_assoc.
Qed.

Lemma apply_spans_spec P original spans new :
  spans_of P 0 spans original →
  ∃ ps tail, original = mjoin (with_matched <$> ps) ++ tail ∧ length ps = length spans ∧
    Forall (λ x, P x.2) ps ∧
    apply_spans original spans new = Some (mjoin (with_new new <$> ps) ++ tail).
Proof. apply (apply_spans_from_spec P original spans new [] original eq_refl). Qed.

Lemma spans_first_slice P original sp spans :
  spans_of P 0 (sp :: spans) original →
  ∃ a m b, original = a ++ m ++ b ∧ P m ∧ slice original sp.1 sp.2 = Some m.
Proof.
  inversion 1; subst. exists a, m, b. split_and!; [done..|]. cbn. apply slice_app.
Qed.

(** *** Exact matches *)

Lemma matches_spans p i l s :
  matches_at p i l s → spans_of (λ m, m = p) i ((λ j, (j, j + byte_len p)) <$> l) s.
Proof. induction 1; cbn; by constructor. Qed.

Lemma exact_spans_of haystack needle : spans_of (λ m, m = needle) 0 (exact_spans haystack needle) haystack.
Proof.
  destruct needle as [|c needle]; [constructor|]. by apply matches_spans, match_indices_spec.
Qed.

(** Replacing the exact spans is [str::replace]. *)
Lemma apply_spans_matches old new original l p r :
  old ≠ [] → original = p ++ r → matches_at old (byte_len p) l r →
  apply_spans_from original ((λ j, (j, j + byte_len old)) <$> l) new (byte_len p) =
  Some (replace_go old new 0 r).
Proof.
  intros Hold -> Hm. remember (byte_len p) as i eqn:Ei. revert p Ei.
  induction Hm as [i s Hn|i a b l Hfirst Hm IH]; intros p ->.
  - rewrite replace_go_none by done. apply slice_from_app.
  - cbn [fmap list_fmap apply_spans_from]. rewrite slice_app. cbn [mbind option_bind].
    replace (p ++ a ++ old ++ b) with ((p ++ a ++ old) ++ b) by by rewrite <- !app_assoc.
    specialize (IH (p ++ a ++ old)).
    replace (byte_len p + byte_len a + byte_len old) with (byte_len (p ++ a ++ old)) in * by blia.
    rewrite IH by done. rewrite replace_go_first by done. done.
Qed.

Lemma apply_exact_spans original old new :
  old ≠ [] → apply_spans original (exact_spans original old) new = Some (replace original old new).
Proof.
  intros Hold. destruct old as [|c old]; [done|].
  apply (apply_spans_matches (c :: old) new original _ [] original); [done..|].
  by apply match_indices_spec.
Qed.

Lemma match_indices_nonempty s p : p ≠ [] → infix_of p s → match_indices s p ≠ [].
Proof.
  intros Hp Hin E. pose proof (match_indices_spec s p Hp) as Hm. rewrite E in Hm.
  by inversion Hm.
Qed.

(** ** Whitespace-tolerant matches *)

(** Words, each but the last followed by white space. *)
Inductive spaced : list str → str → Prop :=
| spaced_nil : spaced [] []
| spaced_cons ws w words m :
    ws ≠ [] → Forall (λ c, is_whitespace c = true) ws → spaced words m →
    spaced (w :: words) (ws ++ w ++ m).

Lemma spaced_words w words m :
  is_word w → Forall is_word words → spaced words m → split_whitespace (w ++ m) = w :: words.
Proof.
  intros Hw Hws Hs. revert w Hw Hws. induction Hs as [|ws w' words m Hne Hall _ IH]; intros w Hw Hws.
  - rewrite app_nil_r. by apply split_whitespace_single.
  - inversion_clear Hws. rewrite split_whitespace_word_app by done. f_equal. by apply IH.
Qed.

(** *** The scanning functions are total at boundaries *)

Lemma skip_ws_spec p r :
  skip_ws (p ++ r) (byte_len p) = Some (byte_len (p ++ take_while is_whitespace r)).
Proof. unfold skip_ws. rewrite slice_from_app. cbn. by rewrite byte_len_app. Qed.

Lemma left_boundary_total p r token : is_Some (left_boundary_ok (p ++ r) (byte_len p) token).
Proof.
  unfold left_boundary_ok, ident_left_ok. rewrite slice_to_app. repeat case_match; by eexists.
Qed.
Lemma right_boundary_total p r token : is_Some (right_boundary_ok (p ++ r) (byte_len p) token).
Proof.
  unfold right_boundary_ok, ident_right_ok. rewrite slice_from_app. repeat case_match; by eexists.
Qed.

Lemma byte_len_inj_app p ws : byte_len (p ++ ws) = byte_len p → ws = [].
Proof. rewrite byte_len_app. intros. apply byte_len_zero. lia. Qed.

Lemma tokens_match_after_spec tokens p r :
  ∃ o, tokens_match_after (p ++ r) tokens (byte_len p) = Some o ∧
    ∀ j, o = Some j → ∃ m b, r = m ++ b ∧ j = byte_len (p ++ m) ∧ spaced tokens m.
Proof.
  revert p r; induction tokens as [|tok tokens IH]; intros p r; cbn [tokens_match_after].
  { exists (Some (byte_len p)). split; [done|]. intros j [= <-]. exists [], r.
    rewrite app_nil_r. split_and!; [done..|constructor]. }
  rewrite skip_ws_spec. cbn [mbind option_bind].
  pose proof (take_drop_while is_whitespace r) as Hr. pose proof (take_while_all is_whitespace r) as Ha.
  revert Hr Ha. generalize (take_while is_whitespace r), (drop_while is_whitespace r).
  intros ws d <- Ha. case_match eqn:E0; [by exists None|]. rewrite app_assoc, slice_from_app.
  cbn [mbind option_bind]. destruct (starts_with d tok) eqn:Es; cbn [negb]; [|by exists None].
  apply starts_with_true in Es as [d' ->]. rewrite <- byte_len_app, app_assoc.
  destruct (right_boundary_total ((p ++ ws) ++ tok) d' tok) as [ok ->]. cbn [mbind option_bind].
  destruct ok; cbn [negb]; [|by exists None].
  destruct (IH ((p ++ ws) ++ tok) d') as (o & Ho & Hj). exists o. split; [exact Ho|].
  intros j [m (b & -> & -> & Hs)]%Hj. exists (ws ++ tok ++ m), b.
  split_and!; [by rewrite <- !app_assoc|by rewrite <- !app_assoc|]. constructor; [|done..].
  intros ->. boolp. rewrite app_nil_r in E0. done.
Qed.

(** *** The searches *)

(** What a successful search returns: a span after byte [byte_len p] whose text
    has the words looked for. *)
Definition flexible_hit (tokens : list str) (p r : str) (sp : span) : Prop :=
  ∃ a m b, r = a ++ m ++ b ∧ sp = (byte_len (p ++ a), byte_len (p ++ a ++ m)) ∧
    m ≠ [] ∧ split_whitespace m = tokens.

Lemma flexible_hit_shift tokens p a r sp :
  flexible_hit tokens (p ++ a) r sp → flexible_hit tokens p (a ++ r) sp.
Proof.
  intros (a' & m & b & -> & -> & Hm & Hw). exists (a ++ a'), m, b.
  rewrite <- !app_assoc. done.
Qed.

Lemma flexible_loop_spec fuel first rest p r :
  is_word first → Forall is_word rest → byte_len r < fuel →
  ∃ o, flexible_loop fuel (p ++ r) first rest (byte_len p) = Some o ∧
    ∀ sp, o = Some sp → flexible_hit (first :: rest) p r sp.
Proof.
  intros Hf Hrest. revert p r; induction fuel as [|k IH]; intros p r Hk; [lia|]. cbn [flexible_loop].
  case_match; [|by exists None]. rewrite slice_from_app. cbn [mbind option_bind].
  destruct (find r first) as [rel|] eqn:Efind; [|by exists None].
  apply find_Some in Efind as (a & b & -> & -> & _).
  assert (byte_len first ≠ 0) as Hpos by (intros ?%byte_len_zero; by destruct Hf).
  (* the continuation after skipping this occurrence *)
  assert (∃ o, flexible_loop k (p ++ a ++ first ++ b) first rest
      (skip_token_at (byte_len p + byte_len a) (byte_len first)) = Some o ∧
      ∀ sp, o = Some sp → flexible_hit (first :: rest) p (a ++ first ++ b) sp) as Hagain.
  { destruct (IH (p ++ a ++ first) b) as (o & Ho & Hsp); [blia|]. exists o. split.
    - rewrite <- Ho. unfold skip_token_at. rewrite <- !app_assoc. f_equal. blia.
    - intros sp ->. specialize (Hsp sp eq_refl). apply flexible_hit_shift in Hsp.
      by rewrite <- app_assoc in Hsp. }
  rewrite <- byte_len_app in *. rewrite (app_assoc p a) in *.
  destruct (left_boundary_total (p ++ a) (first ++ b) first) as [left_ ->]. cbn [mbind option_bind].
  replace (byte_len (p ++ a) + byte_len first) with (byte_len ((p ++ a) ++ first)) in * by blia.
  assert (∃ right_, (if left_ then right_boundary_ok ((p ++ a) ++ first ++ b) (byte_len ((p ++ a) ++ first)) first
    else Some false) = Some right_) as [right_ ->].
  { destruct left_; [|by eexists]. rewrite (app_assoc (p ++ a)).
    destruct (right_boundary_total ((p ++ a) ++ first) b first) as [? ->]. by eexists. }
  cbn [mbind option_bind]. case_match; [exact Hagain|].
  destruct (tokens_match_after_spec rest ((p ++ a) ++ first) b) as (o & Ho & Hj).
  rewrite <- (app_assoc (p ++ a)) in Ho. rewrite (app_assoc (p ++ a)) in Ho.
  rewrite (app_assoc (p ++ a)). rewrite Ho. cbn [mbind option_bind].
  rewrite <- (app_assoc (p ++ a)). destruct o as [j|]; [|exact Hagain].
  destruct (Hj j eq_refl) as (m & b' & -> & -> & Hs). eexists. split; [reflexivity|].
  intros sp [= <-]. exists a, (first ++ m), b'. split_and!.
  - by rewrite <- !app_assoc.
  - by rewrite <- !app_assoc.
  - destruct Hf as [Hne _]. by destruct first.
  - by apply spaced_words.
Qed.

Lemma flexible_spans_loop_spec fuel first rest p r :
  is_word first → Forall is_word rest → byte_len r < fuel →
  ∃ l, flexible_spans_loop fuel (p ++ r) (first :: rest) (byte_len p) = Some l ∧
    spans_of (λ m, split_whitespace m = first :: rest) (byte_len p) l r.
Proof.
  intros Hf Hrest. revert p r; induction fuel as [|k IH]; intros p r Hk; [lia|].
  cbn [flexible_spans_loop]. case_match; [|by exists []; split; [|constructor]].
  unfold find_ws_flexible_from.
  destruct (flexible_loop_spec (S (byte_len (p ++ r))) first rest p r) as (o & -> & Ho); [done..|blia|].
  cbn [mbind option_bind]. destruct o as [[st en]|]; [|by exists []; split; [|constructor]].
  destruct (Ho _ eq_refl) as (a & m & b & -> & [= -> ->] & Hm & Hw).
  destruct (IH (p ++ a ++ m) b) as (l & Hl & Hs).
  { assert (byte_len m ≠ 0) by by intros ?%byte_len_zero. blia. }
  rewrite <- !app_assoc in Hl. rewrite Hl. cbn. eexists. split; [reflexivity|].
  rewrite !byte_len_app, !Nat.add_assoc. constructor; [done|].
  by rewrite !byte_len_app, !Nat.add_assoc in Hs.
Qed.

(** Every span of the whitespace-tolerant search has the words of the needle. *)
Lemma ws_flexible_spans_spec haystack needle :
  ∃ l, ws_flexible_spans haystack needle = Some l ∧
    spans_of (λ m, split_whitespace m = split_whitespace needle) 0 l haystack.
Proof.
  unfold ws_flexible_spans. pose proof (split_whitespace_words needle) as Hw.
  destruct (split_whitespace needle) as [|first rest].
  { exists []. split; [done|constructor]. }
  case_match; [exists []; split; [done|constructor]|]. inversion_clear Hw.
  apply (flexible_spans_loop_spec _ first rest [] haystack); [done..|]. lia.
Qed.

(** *** Folded matches *)

Lemma fmap_app_inv {A B} (f : A → B) (s : list A) a b :
  f <$> s = a ++ b → ∃ a' b', s = a' ++ b' ∧ a = f <$> a' ∧ b = f <$> b'.
Proof.
  intros E. exists (take (length a) s), (drop (length a) s).
  rewrite take_drop, fmap_take, fmap_drop, E, take_app_length, drop_app_length. done.
Qed.

Lemma map_span_boundaries p a m b :
  map_span (fold (p ++ a ++ m ++ b)).2
    (byte_len (fold_char <$> p) + byte_len (fold_char <$> a),
     byte_len (fold_char <$> p) + byte_len (fold_char <$> a) + byte_len (fold_char <$> m)) =
  Some (byte_len p + byte_len a, byte_len p + byte_len a + byte_len m).
Proof.
  unfold map_span. cbn [fst snd]. rewrite <- !byte_len_app, <- !fmap_app.
  rewrite <- (app_assoc p a m).
  assert ((fold (p ++ a ++ m ++ b)).2 !! byte_len (fold_char <$> p ++ a) = Some (byte_len (p ++ a))) as ->.
  { rewrite (app_assoc p a). apply fold_map_boundary. }
  assert ((fold (p ++ a ++ m ++ b)).2 !! byte_len (fold_char <$> p ++ a ++ m)
    = Some (byte_len (p ++ a ++ m))) as ->.
  { rewrite (app_assoc a m b), (app_assoc p (a ++ m)). apply fold_map_boundary. }
  done.
Qed.

Lemma folded_spans_map P p r i l hay :
  hay = fold_char <$> r → i = byte_len (fold_char <$> p) → spans_of P i l hay →
  ∃ l', mapM (map_span (fold (p ++ r)).2) l = Some l' ∧ length l' = length l ∧
    spans_of (λ m, P (fold_char <$> m)) (byte_len p) l' r.
Proof.
  intros -> -> Hs. remember (fold_char <$> r) as hay eqn:Eh.
  remember (byte_len (fold_char <$> p)) as i eqn:Ei. revert p r Eh Ei.
  induction Hs as [i s|i a m b l HP Hs IH]; intros p r Eh ->.
  { exists []. split_and!; [done..|constructor]. }
  symmetry in Eh. apply fmap_app_inv in Eh as (a' & r' & -> & -> & Eh). symmetry in Eh.
  apply fmap_app_inv in Eh as (m' & b' & -> & -> & ->).
  destruct (IH (p ++ a' ++ m') b') as (l' & Hl' & Hlen & Hs'); [done| |].
  { by rewrite !fmap_app, !byte_len_app, !Nat.add_assoc. }
  exists ((byte_len p + byte_len a', byte_len p + byte_len a' + byte_len m') :: l').
  split_and!; [|by cbn; f_equal|].
  - cbn [mapM]. rewrite map_span_boundaries. cbn [mbind option_bind].
    rewrite <- !app_assoc in Hl'. by rewrite Hl'.
  - constructor; [done|]. by rewrite !byte_len_app, !Nat.add_assoc in Hs'.
Qed.

(** The text has the words of [old], up to typographic punctuation. *)
Definition same_words (old m : str) : Prop :=
  split_whitespace (fold_char <$> m) = split_whitespace (fold_char <$> old).

Lemma folded_spans_spec original old :
  ∃ l, folded_spans original old = Some l ∧ spans_of (same_words old) 0 l original.
Proof.
  unfold folded_spans. pose proof (fold_fst original) as Hh. pose proof (fold_fst old) as Hn.
  pose proof (folded_spans_map (λ m, split_whitespace m = split_whitespace (fold_char <$> old))
    [] original 0) as Hmap. cbn [app] in Hmap.
  destruct (fold original) as [hay map]. destruct (fold old) as [nd map']. cbn [fst snd] in *.
  assert (∃ l, (match exact_spans hay nd with [] => ws_flexible_spans hay nd | x => Some x end) = Some l ∧
    spans_of (λ m, split_whitespace m = split_whitespace (fold_char <$> old)) 0 l hay) as (l & Hl & Hs).
  { pose proof (exact_spans_of hay nd) as He. destruct (exact_spans hay nd) as [|sp sps].
    - rewrite <- Hn. apply ws_flexible_spans_spec.
    - exists (sp :: sps). split; [done|]. eapply spans_impl; [|exact He]. intros m ->. by rewrite Hn. }
  replace (match exact_spans hay nd with [] => ws_flexible_spans hay nd | _ :: _ => Some (exact_spans hay nd) end)
    with (Some l) by (rewrite <- Hl; by destruct (exact_spans hay nd)).
  cbn [mbind option_bind]. destruct (Hmap l hay) as (l' & -> & _ & Hs'); [done..|].
  exists l'. split; [done|exact Hs'].
Qed.

Lemma split_fold_words s :
  split_whitespace (fold_char <$> s) = fmap (M := list) fold_char <$> split_whitespace s.
Proof.
  unfold split_whitespace. assert (split_on is_whitespace (fold_char <$> s) =
    fmap (M := list) fold_char <$> split_on is_whitespace s) as ->.
  { induction s as [|c s IH]; [done|]. cbn. rewrite fold_char_whitespace.
    case_match; cbn; [by f_equal|]. cbn in IH. rewrite IH. by destruct (split_on is_whitespace s). }
  induction (split_on is_whitespace s) as [|w ws IH]; [done|].
  rewrite fmap_cons. destruct w as [|c w].
  - rewrite !filter_cons_False by (by intros []). exact IH.
  - rewrite !filter_cons_True by done. exact (f_equal (cons _) IH).
Qed.

(** Locating never panics. What it finds has the words of [old]; several hits
    are only returned when all are to be replaced. *)
Lemma locate_spans_spec original old ra :
  ∃ loc, locate_spans original old ra = Some loc ∧
    match loc with
    | LNone => True
    | LAmbiguous n => ra = false ∧ 2 ≤ n
    | LHits spans => spans ≠ [] ∧ (length spans = 1 ∨ ra = true) ∧
        spans_of (same_words old) 0 spans original
    end.
Proof.
  assert (∀ spans, spans_of (same_words old) 0 spans original →
    match finish_spans spans ra with
    | LNone => True
    | LAmbiguous n => ra = false ∧ 2 ≤ n
    | LHits spans => spans ≠ [] ∧ (length spans = 1 ∨ ra = true) ∧
        spans_of (same_words old) 0 spans original
    end) as Hfin.
  { intros [|x [|y spans]] Hs; cbn; [done|by auto|]. destruct ra; [by auto|]. split; [done|lia]. }
  unfold locate_spans, decide_spans. pose proof (exact_spans_of original old) as He.
  destruct (exact_spans original old) as [|x xs].
  - destruct (ws_flexible_spans_spec original old) as (l & -> & Hl). cbn [mbind option_bind].
    destruct l as [|y l].
    + destruct (folded_spans_spec original old) as (l & -> & Hl'). cbn [mbind option_bind].
      eexists. split; [done|]. by apply Hfin.
    + eexists. split; [done|]. apply Hfin. eapply spans_impl; [|exact Hl].
      intros m Hm. unfold same_words. by rewrite !split_fold_words, Hm.
  - eexists. split; [done|]. apply Hfin. eapply spans_impl; [|exact He]. by intros m ->.
Qed.

(** ** Reports never panic *)

Section reports.
Context (fx_hash : str → N).

Lemma snippet_lines_total s i offs :
  (∀ off, off ∈ offs → off ∈ line_offsets s) → is_Some (snippet_lines fx_hash s i offs).
Proof.
  revert i; induction offs as [|off offs IH]; intros i Hin; cbn [snippet_lines]; [by eexists|].
  pose proof (Hin off ltac:(by left)) as Hoff.
  apply list_elem_of_lookup in Hoff as [k Hk].
  destruct (line_text_total _ _ _ Hk) as (? & ? & ? & ? & _ & _ & _ & _ & ->). cbn [mbind option_bind].
  destruct (IH (S i)) as [rest ->]; [|by eexists]. intros o Ho. apply Hin. by right.
Qed.

Lemma nearby_snippet_total s center radius : is_Some (nearby_snippet fx_hash s (line_offsets s) center radius).
Proof.
  unfold nearby_snippet. destruct (line_offsets s) as [|off offs] eqn:E; [by eexists|].
  apply snippet_lines_total. rewrite <- E. intros o Ho.
  apply list_elem_of_lookup in Ho as [k Hk]. rewrite lookup_drop in Hk.
  apply lookup_take_Some in Hk as [Hk _]. by eapply list_elem_of_lookup_2.
Qed.

Lemma miss_with_snippet_total original old : is_Some (miss_with_snippet fx_hash original old).
Proof.
  unfold miss_with_snippet. assert (∃ center, (match head (split_whitespace old) with
    | Some tok => match find original tok with
                  | Some pos => before ← slice_to original pos; Some (count_lf before)
                  | None => Some 0 end
    | None => Some 0 end) = Some center) as [center ->].
  { destruct (head (split_whitespace old)) as [tok|]; [|by eexists].
    destruct (find original tok) as [pos|] eqn:E; [|by eexists].
    apply find_Some in E as (a & b & -> & -> & _). rewrite slice_to_app. by eexists. }
  cbn [mbind option_bind]. destruct (nearby_snippet_total original center 3) as [near ->]. by eexists.
Qed.

Lemma ambiguous_loop_total fuel old shown p r msg :
  old ≠ [] → byte_len r < fuel →
  is_Some (ambiguous_loop fx_hash fuel (p ++ r) old (line_offsets (p ++ r)) shown (byte_len p) msg).
Proof.
  intros Hold. revert shown p r msg; induction fuel as [|k IH]; intros shown p r msg Hk; [lia|].
  cbn [ambiguous_loop]. case_match; [|by eexists]. rewrite slice_from_app. cbn [mbind option_bind].
  destruct (find r old) as [rel|] eqn:E; [|by eexists].
  apply find_Some in E as (a & b & -> & -> & _).
  assert (byte_len old ≠ 0) as Hpos by by intros ?%byte_len_zero.
  assert (∀ shown msg, is_Some (ambiguous_loop fx_hash k (p ++ a ++ old ++ b) old
    (line_offsets (p ++ a ++ old ++ b)) shown (byte_len p + byte_len a + Nat.max (byte_len old) 1) msg)) as Hnext.
  { intros shown' msg'. specialize (IH shown' (p ++ a ++ old) b msg' ltac:(blia)).
    rewrite <- !app_assoc in IH. rewrite Nat.max_l by lia.
    by rewrite !byte_len_app, Nat.add_assoc in IH. }
  rewrite <- byte_len_app. rewrite (app_assoc p a) at 1. rewrite slice_to_app. cbn [mbind option_bind].
  rewrite byte_len_app. destruct (line_offsets (p ++ a ++ old ++ b) !! _) as [off|] eqn:Eoff; [|apply Hnext].
  destruct (line_text_total _ _ _ Eoff) as (? & ? & ? & ? & _ & _ & _ & _ & ->). apply Hnext.
Qed.

Lemma ambiguous_with_tags_total original old count :
  old ≠ [] → is_Some (ambiguous_with_tags fx_hash original old count).
Proof. intros Hold. apply (ambiguous_loop_total _ old 0 [] original); [done|lia]. Qed.

Lemma candidate_lines_total s tag hits :
  (∀ k, k ∈ hits → has_tag fx_hash s tag k) →
  is_Some (candidate_lines fx_hash s tag (line_offsets s) hits).
Proof.
  induction hits as [|k hits IH]; intros Hin; cbn [candidate_lines]; [by eexists|].
  destruct (Hin k ltac:(by left)) as (off & text & -> & Ht & _). cbn [mbind option_bind]. rewrite Ht.
  cbn [mbind option_bind]. destruct IH as [rest ->]; [|by eexists]. intros i Hi. apply Hin. by right.
Qed.

(** Resolving a tag: the index of the only line that has it, or an error. *)
Lemma resolve_spec s tag label :
  ∃ r, resolve fx_hash s (line_offsets s) tag label = Some r ∧
    match r with
    | Ok i => ∀ k, has_tag fx_hash s tag k ↔ k = i
    | Err _ => ¬ ∃ i, ∀ k, has_tag fx_hash s tag k ↔ k = i
    end.
Proof.
  unfold resolve. destruct (find_tag_exact fx_hash s tag) as (hit & -> & Hhit). cbn [mbind option_bind].
  destruct hit as [i| |hits].
  - by eexists.
  - destruct (nearby_snippet_total s 0 4) as [near ->]. eexists. split; [done|].
    intros [i Hi]. by apply (Hhit i), Hi.
  - destruct Hhit as (Hl & Hs & Hk).
    destruct (candidate_lines_total s tag (take 8 hits)) as [rows ->].
    { intros k [j Hj]%list_elem_of_lookup. apply Hk. apply lookup_take_Some in Hj as [Hj _].
      by eapply list_elem_of_lookup_2. }
    eexists. split; [done|]. intros [i Hi].
    destruct hits as [|x [|y hits]]; [cbn in Hl; lia..|].
    assert (x = i) as -> by (apply Hi, Hk; by left). assert (y = i) as -> by (apply Hi, Hk; by right; left).
    inversion_clear Hs as [|? ? _ Hf]. inversion_clear Hf. lia.
Qed.
End reports.

(** ** Plans *)

Section plans.
Context (fx_hash : str → N).

Definition adapt (original text : str) : str := if is_crlf original then to_crlf text else text.

Lemma plan_edit_adapt original target new :
  plan_edit fx_hash original target new =
  if bool_decide (is_Some (target_from target)) || bool_decide (is_Some (insert_after target)) then
    '(matched, modified, start) <-? apply_tagged fx_hash original (target_from target) (target_to target)
                                      (insert_after target) (adapt original new);
    Some (Ok (mkPlan matched (adapt original new) modified 1 start))
  else
    located ← locate_spans original (adapt original (old_string target)) (replace_all target);
    match located with
    | LNone => msg ← miss_with_snippet fx_hash original (adapt original (old_string target)); Some (Err msg)
    | LAmbiguous count =>
        msg ← ambiguous_with_tags fx_hash original (adapt original (old_string target)) count; Some (Err msg)
    | LHits spans =>
        first ← spans !! 0;
        matched ← slice original first.1 first.2;
        start ← first_line_number original matched;
        modified ← apply_spans original spans (adapt original new);
        Some (Ok (mkPlan matched (adapt original new) modified (length spans) start))
    end.
Proof. unfold plan_edit, adapt. destruct (is_crlf original); reflexivity. Qed.

Lemma first_line_number_total s needle : is_Some (first_line_number s needle).
Proof.
  unfold first_line_number. destruct needle as [|c needle]; [by eexists|].
  destruct (find s (c :: needle)) as [pos|] eqn:E; [|by eexists].
  apply find_Some in E as (a & b & -> & -> & _). rewrite slice_to_app. by eexists.
Qed.

Lemma locate_spans_nil original ra : locate_spans original [] ra = Some LNone.
Proof.
  unfold locate_spans, decide_spans, folded_spans. cbn.
  by destruct (fold original).
Qed.

(** A span list that locating returned makes a plan. *)
Lemma plan_of_spans original spans new P :
  spans ≠ [] → spans_of P 0 spans original →
  ∃ m s ps tail,
    (first ← spans !! 0;
     matched ← slice original first.1 first.2;
     start ← first_line_number original matched;
     modified ← apply_spans original spans new;
     Some (@Ok EditPlan (mkPlan matched new modified (length spans) start))) =
    Some (Ok (mkPlan m new (mjoin (with_new new <$> ps) ++ tail) (length spans) s)) ∧
    original = mjoin (with_matched <$> ps) ++ tail ∧ length ps = length spans ∧
    Forall (λ x, P x.2) ps ∧ P m.
Proof.
  intros Hne Hs. destruct spans as [|sp spans]; [done|]. cbn [lookup list_lookup mbind option_bind].
  destruct (spans_first_slice _ _ _ _ Hs) as (a & m & b & _ & HP & ->). cbn [mbind option_bind].
  destruct (first_line_number_total original m) as [st ->]. cbn [mbind option_bind].
  destruct (apply_spans_spec _ _ _ new Hs) as (ps & tail & Ho & Hl & HF & ->).
  exists m, st, ps, tail. split_and!; [done|exact Ho|done..].
Qed.

(** *** By content tags *)

Lemma apply_tagged_total original from to insert_after new :
  is_Some (apply_tagged fx_hash original from to insert_after new).
Proof.
  unfold apply_tagged. case_match; [by eexists|]. case_match; [by eexists|].
  destruct insert_after as [after|].
  - destruct (resolve_spec fx_hash original after "insert_after"%string) as (r & -> & Hr).
    destruct r as [i|e]; [|by eexists]. cbn [try_bind].
    destruct (proj2 (Hr i) eq_refl) as (off & text & Hoff & _). rewrite Hoff. cbn [mbind option_bind].
    destruct (line_text_total _ _ _ Hoff) as (p & c & t & r & E & _ & _ & Hend & _).
    rewrite Hend. rewrite E at 1. replace (p ++ c ++ t ++ r) with ((p ++ c ++ t) ++ r) by
      by rewrite <- !app_assoc.
    rewrite slice_to_app. cbn [mbind option_bind].
    replace original with ((p ++ c ++ t) ++ r) by by rewrite E, <- !app_assoc.
    rewrite slice_from_app. by eexists.
  - unfold require_from_tag. destruct from as [tag|]; [|by eexists]. cbn [try_bind].
    destruct (resolve_spec fx_hash original tag "from"%string) as (r & -> & Hr).
    destruct r as [i|e]; [|by eexists]. cbn [try_bind].
    destruct (proj2 (Hr i) eq_refl) as (oi & _ & Hoi & _).
    assert (∀ j oj, line_offsets original !! j = Some oj → i ≤ j →
      is_Some (first ← line_offsets original !! i; last_ ← line_offsets original !! j;
        matched ← slice original (start first) (line_end last_);
        modified ← apply_spans original [(start first, line_end last_)] new;
        Some (Ok (matched, modified, Some (i + 1))))) as Hrange.
    { intros j oj Hoj Hij. rewrite Hoi, Hoj. cbn [mbind option_bind].
      destruct (line_range _ _ _ _ _ Hoi Hoj Hij) as (p & m & r & -> & -> & ->).
      rewrite byte_len_app, slice_app. cbn [mbind option_bind]. unfold apply_spans. cbn [apply_spans_from].
      replace (slice (p ++ m ++ r) 0 (byte_len p)) with (Some p) by
        (symmetry; apply (slice_app [] p (m ++ r))).
      cbn [mbind option_bind]. rewrite <- byte_len_app, app_assoc, slice_from_app. by eexists. }
    destruct to as [to_tag|]; cbn [try_bind]; [|by eapply Hrange].
    destruct (resolve_spec fx_hash original to_tag "to"%string) as (r & -> & Hr').
    destruct r as [j|e]; [|by eexists]. cbn [try_bind].
    destruct (Nat.ltb_spec j i); cbn [try_bind]; [by eexists|].
    destruct (proj2 (Hr' j) eq_refl) as (oj & _ & Hoj & _). by eapply Hrange.
Qed.

(** What a replacement of the lines [i..j] gives. *)
Lemma apply_tagged_lines original from to i j new :
  (∀ k, has_tag fx_hash original from k ↔ k = i) →
  match to with Some t => ∀ k, has_tag fx_hash original t k ↔ k = j | None => j = i end → i ≤ j →
  ∃ ls : list line,
    original = mjoin (whole <$> ls) ∧ (∀ k, line_offsets original !! k = line_at 0 ls k) ∧
    apply_tagged fx_hash original (Some from) to None new =
    Some (Ok (mjoin (whole <$> drop i (take (S j) ls)),
              mjoin (whole <$> take i ls) ++ new ++ mjoin (whole <$> drop (S j) ls), Some (i + 1))).
Proof.
  intros Hi Hj Hij. destruct (line_offsets_lines original) as (ls & E & Hk & _).
  exists ls. split_and!; [done|done|].
  destruct (proj2 (Hi i) eq_refl) as (oi & _ & Hoi & _).
  assert (∃ oj, line_offsets original !! j = Some oj) as [oj Hoj].
  { destruct to as [t|]; [destruct (proj2 (Hj j) eq_refl) as (oj & _ & Hoj & _); eauto|].
    subst j. eauto. }
  assert (∀ label, ∃ r, resolve fx_hash original (line_offsets original) from label = Some r ∧ r = Ok i) as Hres.
  { intros label. destruct (resolve_spec fx_hash original from label) as (r & Hr & Hrs).
    exists r. split; [done|]. destruct r as [i'|e]; [|by destruct Hrs; exists i].
    by rewrite (proj1 (Hi i') (proj2 (Hrs i') eq_refl)). }
  unfold apply_tagged. cbn [andb]. rewrite andb_false_r. case_bool_decide as H0; [by rewrite H0 in Hoi|].
  cbn [require_from_tag try_bind]. destruct (Hres "from"%string) as (r & -> & ->). cbn [try_bind].
  assert (try_bind (match to with
    | Some to_tag =>
        j <-? resolve fx_hash original (line_offsets original) to_tag "to"%string;
        Some (if j <? i then Err (lit "`to` must not precede `from`.") else Ok j)
    | None => Some (Ok i) end) (λ end_i,
          first ← line_offsets original !! i;
          last_ ← line_offsets original !! end_i;
          matched ← slice original (start first) (line_end last_);
          modified ← apply_spans original [(start first, line_end last_)] new;
          Some (Ok (matched, modified, Some (i + 1)))) =
    (first ← line_offsets original !! i;
          last_ ← line_offsets original !! j;
          matched ← slice original (start first) (line_end last_);
          modified ← apply_spans original [(start first, line_end last_)] new;
          Some (Ok (matched, modified, Some (i + 1))))) as ->.
  { destruct to as [t|]; [|by subst j].
    destruct (resolve_spec fx_hash original t "to"%string) as (r & -> & Hrs).
    destruct r as [j'|e]; [|by destruct Hrs; exists j]. cbn [try_bind].
    rewrite (proj1 (Hj j') (proj2 (Hrs j') eq_refl)).
    by destruct (Nat.ltb_spec j i); [lia|]. }
  rewrite Hoi, Hoj. cbn [mbind option_bind]. rewrite Hk in Hoi, Hoj.
  destruct (line_range_view ls i j oi oj Hoi Hoj Hij) as (El & -> & ->). rewrite <- E in El.
  revert El. generalize (mjoin (whole <$> take i ls)), (mjoin (whole <$> drop i (take (S j) ls))),
    (mjoin (whole <$> drop (S j) ls)). intros p m q El. rewrite El.
  rewrite byte_len_app, slice_app. cbn [mbind option_bind]. unfold apply_spans. cbn [apply_spans_from].
  replace (slice (p ++ m ++ q) 0 (byte_len p)) with (Some p) by
    (symmetry; apply (slice_app [] p (m ++ q))).
  cbn [mbind option_bind]. rewrite <- byte_len_app. rewrite (app_assoc p m q) at 1.
  by rewrite slice_from_app.
Qed.
End plans.

(** ** The properties *)

(** Planning an edit never panics: every slice it takes is on character
    boundaries, every index in range and every loop ends, whatever the file, the
    target and the new text are (multi-byte text included). *)
Theorem plan_edit_total fx_hash original target new :
  plan_edit fx_hash original target new ≠ None.
Proof.
  apply not_eq_None_Some. rewrite plan_edit_adapt. case_match.
  - destruct (apply_tagged_total fx_hash original (target_from target) (target_to target)
      (insert_after target) (adapt original new)) as [[[[m t] s]|e] ->]; by eexists.
  - destruct (locate_spans_spec original (adapt original (old_string target)) (replace_all target))
      as (loc & Hloc & Hspec). rewrite Hloc. cbn [mbind option_bind].
    destruct loc as [|n|spans].
    + destruct (miss_with_snippet_total fx_hash original (adapt original (old_string target))) as [msg ->].
      by eexists.
    + destruct (ambiguous_with_tags_total fx_hash original (adapt original (old_string target)) n)
        as [msg ->]; [|by eexists].
      intros E. rewrite E, locate_spans_nil in Hloc. done.
    + destruct Hspec as (Hne & _ & Hs).
      destruct (plan_of_spans original spans (adapt original new) _ Hne Hs) as (? & ? & ? & ? & -> & _).
      by eexists.
Qed.

(** C18: an edit by text only rewrites what it matched. When a plan is returned,
    the file is a sequence of kept pieces and matched pieces, the new file is the
    same sequence with every matched piece replaced by the new text, every
    matched piece has the words of [old_string] (white space and typographic
    punctuation apart), and more than one piece is only replaced on request. *)
Theorem edit_touches_matches_only fx_hash original target new plan :
  target_from target = None → insert_after target = None →
  plan_edit fx_hash original target new = Some (Ok plan) →
  ∃ ps tail,
    original = mjoin (with_matched <$> ps) ++ tail ∧
    modified plan = mjoin (with_new (adapt original new) <$> ps) ++ tail ∧
    Forall (λ x, same_words (adapt original (old_string target)) x.2) ps ∧
    length ps = plan_count plan ∧ plan_count plan ≠ 0 ∧
    (plan_count plan = 1 ∨ replace_all target = true).
Proof.
  intros Hf Hi. rewrite plan_edit_adapt, Hf, Hi. cbn [orb bool_decide].
  destruct (locate_spans_spec original (adapt original (old_string target)) (replace_all target))
    as (loc & -> & Hspec). cbn [mbind option_bind]. destruct loc as [|n|spans].
  - by destruct (miss_with_snippet fx_hash _ _).
  - by destruct (ambiguous_with_tags fx_hash _ _ _).
  - destruct Hspec as (Hne & Hone & Hs).
    destruct (plan_of_spans original spans (adapt original new) _ Hne Hs) as (m & st & ps & tail & -> & Ho & Hl & HF & _).
    intros [= <-]. exists ps, tail. cbn. split_and!; [done..| |done]. by destruct spans.
Qed.

(** An [old_string] that occurs in the file is replaced as [str::replace]
    would, when it occurs once or all occurrences are asked for, and refused
    with an error otherwise. *)
Theorem edit_exact_is_replace fx_hash original target new :
  target_from target = None → insert_after target = None →
  adapt original (old_string target) ≠ [] →
  infix_of (adapt original (old_string target)) original →
  let n := count_matches original (adapt original (old_string target)) in
  if (n =? 1) || replace_all target then
    ∃ plan, plan_edit fx_hash original target new = Some (Ok plan) ∧
      modified plan = replace original (adapt original (old_string target)) (adapt original new) ∧
      matched plan = adapt original (old_string target) ∧ plan_count plan = n
  else ∃ msg, plan_edit fx_hash original target new = Some (Err msg).
Proof.
  intros Hf Hi Hne Hin. rewrite plan_edit_adapt, Hf, Hi. cbn [orb bool_decide]. cbv zeta.
  revert Hne Hin. generalize (adapt original (old_string target)). intros old Hne Hin.
  pose proof (match_indices_nonempty _ _ Hne Hin) as Hmi.
  assert (exact_spans original old = (λ i, (i, i + byte_len old)) <$> match_indices original old) as Hex
    by by destruct old.
  assert (length (exact_spans original old) = count_matches original old) as Hlen
    by by rewrite Hex, length_fmap.
  assert (exact_spans original old ≠ []) as Hen.
  { intros E. rewrite E in Hlen. symmetry in Hlen. by apply nil_length_inv in Hlen. }
  assert (locate_spans original old (replace_all target) =
    Some (finish_spans (exact_spans original old) (replace_all target))) as ->.
  { unfold locate_spans, decide_spans. by destruct (exact_spans original old). }
  cbn [mbind option_bind].
  assert (finish_spans (exact_spans original old) (replace_all target) =
    if (count_matches original old =? 1) || replace_all target then LHits (exact_spans original old)
    else LAmbiguous (count_matches original old)) as ->.
  { rewrite <- Hlen. destruct (exact_spans original old) as [|x [|y l]]; [done|done|].
    cbn. by destruct (replace_all target). }
  case_match.
  - destruct (plan_of_spans original _ (adapt original new) _ Hen (exact_spans_of original old))
      as (m & st & ps & tail & E & _ & _ & _ & ->). rewrite E. eexists. split; [done|]. cbn.
    split_and!; [|done|done].
    revert E. rewrite apply_exact_spans by done.
    destruct (exact_spans original old !! 0) as [sp|]; [|done]. cbn.
    destruct (slice _ _ _); [|done]. cbn. destruct (first_line_number _ _); [|done]. cbn.
    by intros [= _ <- _].
  - destruct (ambiguous_with_tags_total fx_hash original old (count_matches original old) Hne) as [msg ->].
    by exists msg.
Qed.

(** Content tags that each name one line replace exactly the lines from the
    first to the second: the lines before and after are kept as they are. *)
Theorem tagged_edit_replaces_lines fx_hash original target new from i j :
  target_from target = Some from → insert_after target = None →
  (∀ k, has_tag fx_hash original from k ↔ k = i) →
  match target_to target with
  | Some t => ∀ k, has_tag fx_hash original t k ↔ k = j
  | None => j = i
  end → i ≤ j →
  ∃ (ls : list line) plan,
    original = mjoin (whole <$> ls) ∧ (∀ k, line_offsets original !! k = line_at 0 ls k) ∧
    plan_edit fx_hash original target new = Some (Ok plan) ∧
    modified plan =
      mjoin (whole <$> take i ls) ++ adapt original new ++ mjoin (whole <$> drop (S j) ls) ∧
    matched plan = mjoin (whole <$> drop i (take (S j) ls)).
Proof.
  intros Hf Hins Hi Hj Hij. rewrite plan_edit_adapt, Hf, Hins.
  destruct (apply_tagged_lines fx_hash original from (target_to target) i j (adapt original new) Hi Hj Hij)
    as (ls & E & Hk & Ha). exists ls. eexists. split_and!; [done|done| | |].
  - cbn [orb bool_decide is_Some_dec]. rewrite Ha. done.
  - done.
  - done.
Qed.

(** ** Instances *)

Definition sum_hash : str → N := foldr N.add 0%N.
Definition by_text (old : string) (all : bool) : EditTarget := mkTarget (lit old) all None None None.
Arguments by_text _%_string _.
Definition file_ex : str := lit "fn  run() {" ++ LF ++ lit "    x;" ++ LF ++ lit "}" ++ LF.

Lemma edit_touches_matches_only_witness :
  let plan := mkPlan (lit "fn  run()") (lit "fn go()") (lit "fn go() {" ++ LF ++ lit "    x;" ++ LF ++ lit "}" ++ LF)
                1 (Some 1) in
  ∃ ps tail,
    file_ex = mjoin (with_matched <$> ps) ++ tail ∧
    modified plan = mjoin (with_new (adapt file_ex (lit "fn go()")) <$> ps) ++ tail ∧
    Forall (λ x, same_words (adapt file_ex (lit "fn run()")) x.2) ps ∧
    length ps = plan_count plan ∧ plan_count plan ≠ 0 ∧ (plan_count plan = 1 ∨ false = true).
Proof.
  apply (edit_touches_matches_only sum_hash file_ex (by_text "fn run()" false) (lit "fn go()"));
    [reflexivity|reflexivity|vm_compute; reflexivity].
Defined.

Lemma edit_exact_is_replace_witness :
  ∃ plan, plan_edit sum_hash (lit "a b a b") (by_text "a" true) (lit "xy") = Some (Ok plan) ∧
    modified plan = replace (lit "a b a b") (adapt (lit "a b a b") (lit "a")) (adapt (lit "a b a b") (lit "xy")) ∧
    matched plan = adapt (lit "a b a b") (lit "a") ∧
    plan_count plan = count_matches (lit "a b a b") (adapt (lit "a b a b") (lit "a")).
Proof.
  apply (edit_exact_is_replace sum_hash (lit "a b a b") (by_text "a" true) (lit "xy"));
    [reflexivity|reflexivity|vm_compute; discriminate|].
  exists [], (lit " b a b"). vm_compute. reflexivity.
Defined.

(** The line of [    x;], by its tag. *)
Lemma tagged_edit_replaces_lines_witness :
  ∃ (ls : list line) plan,
    file_ex = mjoin (whole <$> ls) ∧ (∀ k, line_offsets file_ex !! k = line_at 0 ls k) ∧
    plan_edit sum_hash file_ex (mkTarget [] false (Some (tag_of sum_hash (lit "    x;") 6)) None None)
      (lit "y;" ++ LF) = Some (Ok plan) ∧
    modified plan = mjoin (whole <$> take 1 ls) ++ adapt file_ex (lit "y;" ++ LF) ++ mjoin (whole <$> drop 2 ls) ∧
    matched plan = mjoin (whole <$> drop 1 (take 2 ls)).
Proof.
  apply (tagged_edit_replaces_lines sum_hash file_ex
    (mkTarget [] false (Some (tag_of sum_hash (lit "    x;") 6)) None None) (lit "y;" ++ LF)
    (tag_of sum_hash (lit "    x;") 6) 1 1);
    [reflexivity|reflexivity| |reflexivity|lia].
  intros k. split.
  - intros (off & text & Hoff & Ht & Htag). destruct k as [|[|[|k]]]; [|done| |done];
      vm_compute in Hoff; injection Hoff as <-; vm_compute in Ht; injection Ht as <-;
      vm_compute in Htag; discriminate.
  - intros ->. eexists _, _. split_and!; vm_compute; reflexivity.
Defined.
