(* ===== verification/Paths.v ===== *)
(** Path classification ([crates/command-risk/src/paths.rs]): what a command
    argument would touch. A [Path] is its string, a [PathBuf] under construction
    is its list of components; [std::path] is modelled as it behaves on Unix. *)

From S2P Require Import Prelude RustStr.

Definition cSlash : rchar := 47.
Definition is_slash (c : rchar) : bool := (c =? cSlash)%N.
(** The pattern [['/', '\\']]. *)
Definition is_sep (c : rchar) : bool := (c =? cSlash)%N || (c =? cBS)%N.

(** ** [std::path] on Unix *)

Inductive component :=
| RootDir
| CurDir
| ParentDir
| Normal (name : str).

#[global] Instance component_eq_dec : EqDecision component.
Proof. solve_decision. Defined.

Definition component_of (piece : str) : option component :=
  if (piece == []) || (piece == lit ".") then None
  else if piece == lit ".." then Some ParentDir
  else Some (Normal piece).

Definition path_is_absolute (p : str) : bool := starts_with p (lit "/").

(** [Path::components]: empty pieces and [.] are dropped, except a leading [.]
    of a relative path. *)
Definition components (p : str) : list component :=
  let pieces := split_on is_slash p in
  if path_is_absolute p then RootDir :: omap component_of pieces
  else (if head pieces == Some (lit ".") then [CurDir] else []) ++ omap component_of pieces.

(** [Path::join]. *)
Definition path_join (base p : str) : str :=
  if path_is_absolute p then p
  else if (base == []) || ends_with base (lit "/") then base ++ p
  else base ++ lit "/" ++ p.

(** [PathBuf::push] of one component, and [PathBuf::pop] (no effect at a root). *)
Definition path_push (out : list component) (c : component) : list component :=
  match c with RootDir => [RootDir] | _ => out ++ [c] end.
Definition path_pop (out : list component) : list component :=
  match last out with
  | None | Some RootDir => out
  | Some _ => removelast out
  end.

Definition component_name (c : component) : str :=
  match c with RootDir => [] | CurDir => lit "." | ParentDir => lit ".." | Normal s => s end.
(** [Path::to_string_lossy]. *)
Definition path_to_str (p : list component) : str :=
  match p with
  | RootDir :: r => lit "/" ++ join (lit "/") (component_name <$> r)
  | _ => join (lit "/") (component_name <$> p)
  end.

(** ** The crate's definitions *)

Inductive PathScope := InProject | Outside | ScopeCatastrophic.

#[global] Instance PathScope_eq_dec : EqDecision PathScope.
Proof. solve_decision. Defined.

Section environment.
(** [std::env::var(..).ok()]: the process environment. *)
Variable env : string → option str.
Arguments env _%_string.

Definition env_nonempty (var : string) : option str :=
match env var with Some v => if v == [] then None else Some v | None => None end.

Arguments env_nonempty _%_string.

Definition home_dir : option str :=
match env_nonempty "HOME" with
| Some v => Some v
| None =>
  match env_nonempty "USERPROFILE" with
  | Some v => Some v
  | None =>
      match env_nonempty "HOMEDRIVE", env_nonempty "HOMEPATH" with
      | Some d, Some p => Some (d ++ p)
      | _, _ => None
      end
  end
end.
End environment.

Definition is_null_device (raw : str) : bool :=
  let s := trim raw in
  (s == lit "/dev/null") || eq_ignore_ascii_case s (lit "nul").

Definition PROTECTED_PREFIXES : list string :=
  ["/"; "/bin"; "/boot"; "/dev"; "/etc"; "/lib"; "/opt"; "/proc"; "/root"; "/sbin"; "/srv";
   "/sys"; "/usr"; "/var"; "/Applications"; "/Library"; "/System"; "/Users"; "/Volumes"]%string.

Definition PROTECTED_PREFIXES_WINDOWS : list string :=
  ["c:/windows"; "c:/program files"; "c:/program files (x86)"; "c:/programdata"; "c:/users"]%string.

Definition expand_vars (home_str s : str) : str :=
  foldl (λ s var, if contains s (lit var) then replace s (lit var) home_str else s) s
    ["$HOME"; "${HOME}"; "%USERPROFILE%"; "$env:USERPROFILE"]%string.

Definition expand (raw : str) (home : option str) : str :=
  match home with
  | None => raw
  | Some home_str =>
      if raw == lit "~" then home_str
      else
        match strip_prefix (lit "~/") raw with
        | Some rest => trim_end_matches is_sep home_str ++ lit "/" ++ rest
        | None =>
            match strip_prefix [chr "~"; cBS] raw with
            | Some rest => trim_end_matches is_sep home_str ++ lit "/" ++ rest
            | None => expand_vars home_str raw
            end
        end
  end.

Fixpoint has_unresolved_variable (path : str) : bool :=
  match path with
  | c :: (next :: _) as r =>
      ((c =? chr "$")%N && (is_ascii_alphanumeric next || (next =? chr "_")%N || (next =? chr "{")%N))
      || ((c =? chr "%")%N && is_ascii_alphabetic next)
      || has_unresolved_variable r
  | _ => false
  end.

Definition is_windows_absolute (path : str) : bool :=
  match path with
  | b0 :: b1 :: b2 :: _ =>
      is_ascii_alphabetic b0 && (b1 =? chr ":")%N && ((b2 =? cBS)%N || (b2 =? cSlash)%N)
  | _ => false
  end.

Definition normalize_step (out : list component) (comp : component) : list component :=
  match comp with
  | CurDir => out
  | ParentDir => path_pop out
  | other => path_push out other
  end.

Definition normalize (path base : str) : list component :=
  let joined :=
    if path_is_absolute path || is_windows_absolute path then path else path_join base path in
  foldl normalize_step [] (components joined).

Definition as_comparable (path : str) : str :=
  let s := replace_char path cBS (lit "/") in
  let trimmed := trim_end_matches is_slash s in
  if trimmed == [] then lit "/" else trimmed.

Definition is_at_or_above (path prefix : str) : bool := eq_ignore_ascii_case path prefix.

(** [*], [?] and [.]: the characters [strip_glob_tail] takes for a glob. *)
Definition is_glob_char (c : rchar) : bool :=
  (c =? chr "*")%N || (c =? chr "?")%N || (c =? chr ".")%N.

Definition strip_glob_tail (path : str) : str :=
  let last := rsplit_next is_sep path in
  if negb (last == []) && forallb is_glob_char last then
    let cut := take (length path - length last) path in
    let head := trim_end_matches is_sep cut in
    if head == [] then cut else head
  else path.

Definition is_drive_root (lower : str) : bool :=
  match lower with
  | b0 :: b1 :: rest => (length rest <=? 1) && is_ascii_alphabetic b0 && (b1 =? chr ":")%N
  | _ => false
  end.

Definition classify (raw project : str) (home : option str) : PathScope :=
  let expanded := expand raw home in
  if has_unresolved_variable expanded then Outside
  else
    let expanded := strip_glob_tail expanded in
    let cmp := as_comparable (path_to_str (normalize expanded project)) in
    if match home with Some h => is_at_or_above cmp (as_comparable h) | None => false end
    then ScopeCatastrophic
    else if existsb (λ prefix, is_at_or_above cmp (lit prefix)) PROTECTED_PREFIXES
    then ScopeCatastrophic
    else if existsb (λ prefix, is_at_or_above (to_ascii_lowercase cmp) (lit prefix))
              PROTECTED_PREFIXES_WINDOWS
    then ScopeCatastrophic
    else if is_drive_root (to_ascii_lowercase cmp) then ScopeCatastrophic
    else
      let project_cmp := as_comparable project in
      if eq_ignore_ascii_case cmp project_cmp
         || starts_with (to_ascii_lowercase cmp) (to_ascii_lowercase project_cmp ++ lit "/")
      then InProject else Outside.

Definition looks_like_path (word : str) : bool :=
  negb (word == []) && negb (starts_with word (lit "-")).

(** The crate's own unit tests, evaluated on the model. *)
Example classify_tests :
  let c raw := classify (lit raw) (lit "/work/proj") (Some (lit "/home/user")) in
  c "build"%string = InProject ∧ c "/work/proj/target"%string = InProject ∧
  c "../sibling"%string = Outside ∧ c "~"%string = ScopeCatastrophic ∧
  c "${HOME}"%string = ScopeCatastrophic ∧ c "~/Documents"%string = Outside ∧
  c "C:\Program Files"%string = ScopeCatastrophic ∧ c "D:/"%string = ScopeCatastrophic ∧
  c "../../.."%string = ScopeCatastrophic ∧ c "%APPDATA%"%string = Outside ∧
  c "/etc/*"%string = ScopeCatastrophic ∧ c "src/*/mod.rs"%string = InProject ∧
  c "/etc/hosts"%string = Outside ∧ c "foo/./bar"%string = InProject.
Proof. vm_compute. repeat split. Qed.

(** ** Normal forms *)

Definition is_normal (c : component) : Prop := match c with Normal _ => True | _ => False end.

(** No [.], no [..], a root only in front. *)
Definition nf (p : list component) : Prop :=
  match p with RootDir :: r => Forall is_normal r | _ => Forall is_normal p end.

Lemma nf_cases p : nf p ↔ ∃ names, p = RootDir :: (Normal <$> names) ∨ p = Normal <$> names.
Proof.
  assert (∀ q, Forall is_normal q ↔ ∃ names, q = Normal <$> names) as Hq.
  { intros q. split.
    - induction 1 as [|c q Hc _ [names ->]]; [by exists []|].
      destruct c; try done. by exists (name :: names).
    - intros [names ->]. apply Forall_fmap. by apply Forall_true. }
  destruct p as [|[]]; simpl; rewrite ?Hq; [| |naive_solver..].
  - split; intros _; exists []; auto.
  - split.
    + intros [names ->]. exists names. by left.
    + intros [names [?|E]]; [simplify_eq; eauto|by destruct names].
Qed.

Lemma path_pop_names names : path_pop (Normal <$> names) = Normal <$> removelast names.
Proof.
  induction names as [|x names _] using rev_ind; [done|].
  unfold path_pop. rewrite fmap_app, last_app. simpl.
  by rewrite !removelast_last.
Qed.

Lemma path_pop_root_names names :
  path_pop (RootDir :: (Normal <$> names)) = RootDir :: (Normal <$> removelast names).
Proof.
  induction names as [|x names _] using rev_ind; [done|].
  unfold path_pop. rewrite fmap_app, app_comm_cons, last_app. simpl fmap. simpl last.
  rewrite !removelast_last. done.
Qed.

Lemma normalize_step_nf out c : nf out → nf (normalize_step out c).
Proof.
  rewrite !nf_cases. intros [names [-> | ->]]; destruct c; simpl.
  - exists []. by left.
  - eauto.
  - rewrite path_pop_root_names. eauto.
  - exists (names ++ [name]). left. by rewrite fmap_app.
  - exists []. by left.
  - eauto.
  - rewrite path_pop_names. eauto.
  - exists (names ++ [name]). right. by rewrite fmap_app.
Qed.

Lemma foldl_normalize_nf cs out : nf out → nf (foldl normalize_step out cs).
Proof. revert out; induction cs; simpl; auto using normalize_step_nf. Qed.

Lemma normalize_nf path base : nf (normalize path base).
Proof. apply foldl_normalize_nf. exact I || constructor. Qed.

(** ** Splitting and rebuilding paths *)

Lemma split_on_app_sep f (a b : str) c :
  f c = true → split_on f (a ++ c :: b) = split_on f a ++ split_on f b.
Proof.
  intros Hc. induction a as [|x a IH]; simpl; [by rewrite Hc|].
  destruct (f x); [by rewrite IH|]. rewrite IH.
  pose proof (split_on_nonempty f a). by destruct (split_on f a).
Qed.

Lemma split_on_no_sep f s : Forall (λ c, f c = false) s → split_on f s = [s].
Proof. induction 1 as [|x s Hx _ IH]; simpl; [done|]. by rewrite Hx, IH. Qed.

Lemma split_on_subset f s w c : w ∈ split_on f s → c ∈ w → c ∈ s.
Proof.
  revert w. induction s as [|x s IH]; simpl; intros w Hw Hc.
  - apply list_elem_of_singleton in Hw. by subst.
  - destruct (f x).
    + apply elem_of_cons in Hw as [->|Hw]; [by apply elem_of_nil in Hc|].
      apply elem_of_cons. right. eauto.
    + destruct (split_on f s) as [|p ps].
      * apply list_elem_of_singleton in Hw. subst w.
        apply list_elem_of_singleton in Hc. subst. by left.
      * apply elem_of_cons in Hw as [->|Hw]; [|right; eapply IH; [by right|done]].
        apply elem_of_cons in Hc as [->|Hc]; [by left|right; eapply IH; [by left|done]].
Qed.

(** A name a Unix directory can have, without a backslash. *)
Definition clean_name (s : str) : Prop :=
  s ≠ [] ∧ Forall (λ c, is_slash c = false) s ∧ cBS ∉ s.

Lemma split_on_join_slash names :
  names ≠ [] → Forall (λ w, Forall (λ c, is_slash c = false) w) names →
  split_on is_slash (join (lit "/") names) = names.
Proof.
  intros Hne Hall. induction Hall as [|w names Hw Hall IH]; [done|].
  destruct names as [|w' names]; [simpl; by apply split_on_no_sep|].
  change (join (lit "/") (w :: w' :: names))
    with (w ++ cSlash :: join (lit "/") (w' :: names)).
  rewrite split_on_app_sep by done. rewrite IH by done.
  by rewrite split_on_no_sep.
Qed.

Lemma join_last names x :
  names ≠ [] → x ≠ [] → ∃ r c, join (lit "/") (names ++ [x]) = r ++ [c] ∧ last x = Some c.
Proof.
  intros Hne Hx. destruct x as [|c x _] using rev_ind; [done|].
  clear Hne Hx. rewrite last_app. simpl.
  induction names as [|w names [r [c' [IH E]]]].
  - by exists x, c.
  - simplify_eq. exists (w ++ lit "/" ++ r), c'. split; [|done].
    destruct names; simpl in *; rewrite IH; by rewrite <- ?app_assoc.
Qed.

Lemma component_of_clean piece name :
  component_of piece = Some (Normal name) → name = piece ∧ piece ≠ [].
Proof. unfold component_of. repeat case_match; boolp; naive_solver. Qed.

(** ** Absolute paths *)

(** The string of an absolute path with the given names. *)
Definition abs_path (names : list str) : str := path_to_str (RootDir :: (Normal <$> names)).

Lemma component_names (names : list str) : component_name <$> (Normal <$> names) = names.
Proof. rewrite <- list_fmap_compose. apply list_fmap_id. Qed.

Lemma abs_path_eq names : abs_path names = cSlash :: join (lit "/") names.
Proof.
  unfold abs_path, path_to_str. by rewrite component_names.
Qed.

Lemma components_abs t :
  components (cSlash :: t) = RootDir :: omap component_of (split_on is_slash t).
Proof. reflexivity. Qed.

Lemma omap_component_no_root (ps : list str) : RootDir ∉ omap component_of ps.
Proof.
  rewrite list_elem_of_omap. intros (p & _ & E). unfold component_of in E.
  repeat case_match; done.
Qed.

(** From a root ([abs = true]) or from nothing, steps other than a root keep the
    shape and only add names that were components. *)
Definition at_root (abs : bool) (ns : list str) : list component :=
  (if abs then [RootDir] else []) ++ (Normal <$> ns).

Lemma path_pop_at_root abs ns : path_pop (at_root abs ns) = at_root abs (removelast ns).
Proof. destruct abs; [apply path_pop_root_names|apply path_pop_names]. Qed.

Lemma foldl_normalize_root abs (cs : list component) (ns : list str) :
  RootDir ∉ cs →
  ∃ ns', foldl normalize_step (at_root abs ns) cs = at_root abs ns'
    ∧ ∀ x, x ∈ ns' → x ∈ ns ∨ Normal x ∈ cs.
Proof.
  revert ns. induction cs as [|c cs IH]; intros ns Hr; [exists ns; auto|].
  apply not_elem_of_cons in Hr as [Hc Hr].
  assert (∃ ns1, normalize_step (at_root abs ns) c = at_root abs ns1
            ∧ ∀ x, x ∈ ns1 → x ∈ ns ∨ Normal x ∈ c :: cs) as (ns1 & E1 & H1).
  { destruct c as [| | |name]; simpl; [done|by exists ns; auto| |].
    - rewrite path_pop_at_root. exists (removelast ns). split; [done|].
      intros x Hx. left. destruct ns as [|y ns _] using rev_ind; [done|].
      rewrite removelast_last in Hx. apply elem_of_app; auto.
    - exists (ns ++ [name]). unfold at_root. rewrite fmap_app, app_assoc. split; [done|].
      intros x [Hx| ->%list_elem_of_singleton]%elem_of_app; [auto|right; by left]. }
  simpl. rewrite E1. destruct (IH ns1 Hr) as (ns' & E & H'). exists ns'. split; [done|].
  intros x [Hx|Hx]%H'; [auto|right; by right].
Qed.

Lemma normal_in_components (t x : str) :
  Normal x ∈ omap component_of (split_on is_slash t) →
  x ≠ [] ∧ Forall (λ c, is_slash c = false) x ∧ (∀ c, c ∈ x → c ∈ t).
Proof.
  rewrite list_elem_of_omap. intros (p & Hp & [-> Hne]%component_of_clean).
  split_and!; [done| |].
  - by eapply (proj1 (Forall_forall _ _) (split_on_pieces is_slash t)).
  - intros c Hc. by eapply split_on_subset.
Qed.

(** Normalising a path without a backslash gives clean names. *)
Lemma normalize_clean (t : str) :
  cBS ∉ t →
  ∃ ns, foldl normalize_step [] (components t) = at_root (path_is_absolute t) ns
    ∧ Forall clean_name ns.
Proof.
  intros Hbs.
  assert (foldl normalize_step [] (components t)
          = foldl normalize_step (at_root (path_is_absolute t) [])
              (omap component_of (split_on is_slash t))) as ->.
  { unfold components. destruct (path_is_absolute t); [done|].
    by destruct (head (split_on is_slash t) == Some (lit ".")). }
  destruct (foldl_normalize_root (path_is_absolute t) (omap component_of (split_on is_slash t)) [])
    as (names & E & Hn); [apply omap_component_no_root|].
  exists names. split; [done|]. apply Forall_forall. intros x Hx.
  destruct (Hn x Hx) as [H0|H0]; [by apply elem_of_nil in H0|].
  apply normal_in_components in H0 as (? & ? & Hsub). repeat split; auto.
Qed.

Lemma replace_char_id (s : str) c to : c ∉ s → replace_char s c to = s.
Proof.
  unfold replace_char. induction s as [|x s IH]; [done|].
  intros [Hx Hs]%not_elem_of_cons. csimpl. rewrite IH by done.
  by rewrite (proj2 (N.eqb_neq x c)) by done.
Qed.

Lemma not_in_join c (names : list str) : c ≠ cSlash → Forall (λ w, c ∉ w) names → c ∉ join (lit "/") names.
Proof.
  intros Hc. induction 1 as [|w names Hw _ IH]; simpl; [by intros ?%elem_of_nil|].
  destruct names; [done|].
  intros [?|[->|?]%elem_of_cons]%elem_of_app; [done|by destruct Hc|done].
Qed.

Lemma join_clean_last names :
  names ≠ [] → Forall clean_name names →
  ∃ r c, join (lit "/") names = r ++ [c] ∧ is_slash c = false.
Proof.
  destruct names as [|x names _] using rev_ind; [done|]. intros _ [_ Hx]%Forall_app.
  inversion Hx as [|? ? (Hne & Hs & _) _]; subst.
  destruct x as [|c x _] using rev_ind; [done|].
  apply Forall_app in Hs as [_ Hc]. inversion Hc; subst.
  destruct names as [|w names]; [by exists x, c|].
  destruct (join_last (w :: names) (x ++ [c])) as (r & c' & E & Hl); [done..|].
  rewrite last_app in Hl. simplify_eq/=. by exists r, c'.
Qed.

Lemma join_clean_no_backslash names : Forall clean_name names → cBS ∉ join (lit "/") names.
Proof.
  intros Hn. apply not_in_join; [done|]. eapply Forall_impl; [exact Hn|].
  by intros w (_ & _ & ?).
Qed.

Lemma as_comparable_id s r c :
  cBS ∉ s → s = r ++ [c] → is_slash c = false → as_comparable s = s.
Proof.
  intros Hbs -> Hc. unfold as_comparable. rewrite replace_char_id by done.
  rewrite trim_end_matches_id by done. rewrite bool_decide_eq_false_2; [done|]. by destruct r.
Qed.

Lemma as_comparable_abs names :
  Forall clean_name names → as_comparable (abs_path names) = abs_path names.
Proof.
  intros Hn. rewrite abs_path_eq. destruct (decide (names = [])) as [->|Hne]; [done|].
  destruct (join_clean_last names) as (r & c & E & Hc); [done..|].
  apply (as_comparable_id _ (cSlash :: r) c); [|by rewrite E|done].
  apply not_elem_of_cons. split; [done|]. by apply join_clean_no_backslash.
Qed.

Lemma as_comparable_rel names :
  names ≠ [] → Forall clean_name names →
  as_comparable (join (lit "/") names) = join (lit "/") names.
Proof.
  intros Hne Hn. destruct (join_clean_last names) as (r & c & E & Hc); [done..|].
  apply (as_comparable_id _ r c); [by apply join_clean_no_backslash|done|done].
Qed.

Lemma is_slash_lower c : is_slash (ascii_lower c) = is_slash c.
Proof.
  unfold ascii_lower. destruct (is_ascii_upper c) eqn:E; [|done].
  unfold is_slash, is_ascii_upper, cSlash in *. boolp.
  by rewrite (proj2 (N.eqb_neq _ _)), (proj2 (N.eqb_neq _ _)) by lia.
Qed.

Lemma split_on_lower s :
  split_on is_slash (to_ascii_lowercase s) = to_ascii_lowercase <$> split_on is_slash s.
Proof.
  induction s as [|c s IH]; [done|]. csimpl. rewrite is_slash_lower.
  destruct (is_slash c); [by rewrite IH|].
  change (ascii_lower <$> s) with (to_ascii_lowercase s). rewrite IH.
  by destruct (split_on is_slash s).
Qed.

(** ** What an [InProject] verdict guarantees *)

Lemma lower_abs_path names :
  to_ascii_lowercase (abs_path names) = abs_path (to_ascii_lowercase <$> names).
Proof.
  rewrite !abs_path_eq. change (to_ascii_lowercase (?c :: ?r))
    with (ascii_lower c :: to_ascii_lowercase r).
  f_equal. induction names as [|w names IH]; [done|].
  destruct names as [|w' names]; [done|].
  change (join (lit "/") (w :: w' :: names)) with (w ++ cSlash :: join (lit "/") (w' :: names)).
  unfold to_ascii_lowercase at 1. rewrite fmap_app, fmap_cons.
  change (ascii_lower <$> ?x) with (to_ascii_lowercase x). rewrite IH. done.
Qed.

Lemma clean_slash_free names :
  Forall clean_name names → Forall (λ w, Forall (λ c, is_slash c = false) w) names.
Proof. intros H. eapply Forall_impl; [exact H|]. by intros w (_ & ? & _). Qed.

Lemma lower_slash_free names :
  Forall (λ w, Forall (λ c, is_slash c = false) w) names →
  Forall (λ w, Forall (λ c, is_slash c = false) w) (to_ascii_lowercase <$> names).
Proof.
  intros H. apply Forall_fmap. eapply Forall_impl; [exact H|]. intros w Hw.
  apply Forall_fmap. eapply Forall_impl; [exact Hw|]. intros c Hc. simpl.
  by rewrite is_slash_lower.
Qed.

(** Rendered absolute paths have their names back. *)
Lemma abs_path_names names t :
  Forall (λ w, Forall (λ c, is_slash c = false) w) names → names ≠ [] →
  abs_path names = cSlash :: t → split_on is_slash t = names.
Proof.
  intros Hs Hne. rewrite abs_path_eq. intros [= <-]. by apply split_on_join_slash.
Qed.

Lemma abs_path_prefix pnames names rest :
  Forall (λ w, Forall (λ c, is_slash c = false) w) pnames →
  Forall (λ w, Forall (λ c, is_slash c = false) w) names → pnames ≠ [] →
  abs_path names = abs_path pnames ++ cSlash :: rest → pnames `prefix_of` names.
Proof.
  intros Hp Hn Hne. rewrite !abs_path_eq. intros [= E].
  exists (split_on is_slash rest).
  destruct names as [|x names]; [by destruct (join (lit "/") pnames)|].
  apply (f_equal (split_on is_slash)) in E.
  rewrite split_on_app_sep in E by done. by rewrite !split_on_join_slash in E.
Qed.

(** The comparison at the end of [classify], on absolute paths. *)
Lemma in_project_prefix pnames names :
  pnames ≠ [] → Forall clean_name pnames → Forall clean_name names →
  let cmp := abs_path names in
  let project_cmp := abs_path pnames in
  eq_ignore_ascii_case cmp project_cmp
  || starts_with (to_ascii_lowercase cmp) (to_ascii_lowercase project_cmp ++ lit "/") = true →
  (to_ascii_lowercase <$> pnames) `prefix_of` (to_ascii_lowercase <$> names).
Proof.
  intros Hne Hcl Hn%clean_slash_free%lower_slash_free cmp pcmp.
  pose proof (lower_slash_free _ (clean_slash_free _ Hcl)) as Hp.
  unfold cmp, pcmp, eq_ignore_ascii_case. rewrite !lower_abs_path.
  set (ln := to_ascii_lowercase <$> names) in *. set (lp := to_ascii_lowercase <$> pnames) in *.
  assert (lp ≠ []) by (by destruct pnames).
  rewrite orb_true_iff. intros [E|[r E]%starts_with_true].
  - boolp. rewrite !abs_path_eq in E. injection E as E.
    apply (f_equal (split_on is_slash)) in E. rewrite (split_on_join_slash lp) in E by done.
    destruct ln as [|x ln]; [|rewrite split_on_join_slash in E by done; by rewrite E].
    destruct pnames as [|[|c w] ps]; [done| |discriminate E].
    exfalso. inversion Hcl as [|? ? [Hx _] _]. by apply Hx.
  - rewrite <- app_assoc in E. by apply (abs_path_prefix lp ln r).
Qed.

(** Expanding and cutting a glob tail introduce no backslash. *)
Lemma strip_glob_tail_prefix path : ∃ p, path = strip_glob_tail path ++ p.
Proof.
  unfold strip_glob_tail. case_match; [|exists []; by rewrite app_nil_r].
  set (cut := take _ _). assert (∃ q, path = cut ++ q) as [q Hq]
    by (exists (drop (length path - length (rsplit_next is_sep path)) path);
        unfold cut; by rewrite take_drop).
  destruct (trim_end_matches_prefix is_sep cut) as [q' Hq'].
  case_match; [by exists q|]. exists (q' ++ q). by rewrite app_assoc, <- Hq'.
Qed.

Definition catastrophic_cmp (cmp : str) (home : option str) : bool :=
  match home with Some h => is_at_or_above cmp (as_comparable h) | None => false end
  || existsb (λ prefix, is_at_or_above cmp (lit prefix)) PROTECTED_PREFIXES
  || existsb (λ prefix, is_at_or_above (to_ascii_lowercase cmp) (lit prefix))
       PROTECTED_PREFIXES_WINDOWS
  || is_drive_root (to_ascii_lowercase cmp).

(** [classify] as a three-way decision on the compared string. *)
Lemma classify_eq raw project home :
  has_unresolved_variable (expand raw home) = false →
  let cmp := as_comparable (path_to_str (normalize (strip_glob_tail (expand raw home)) project)) in
  let project_cmp := as_comparable project in
  classify raw project home =
    if catastrophic_cmp cmp home then ScopeCatastrophic
    else if eq_ignore_ascii_case cmp project_cmp
            || starts_with (to_ascii_lowercase cmp) (to_ascii_lowercase project_cmp ++ lit "/")
         then InProject else Outside.
Proof.
  intros Hv cmp pcmp. unfold classify, catastrophic_cmp. rewrite Hv.
  fold cmp pcmp.
  generalize (existsb (λ prefix, is_at_or_above cmp (lit prefix)) PROTECTED_PREFIXES).
  generalize (existsb (λ prefix, is_at_or_above (to_ascii_lowercase cmp) (lit prefix))
                PROTECTED_PREFIXES_WINDOWS).
  generalize (is_drive_root (to_ascii_lowercase cmp)).
  generalize (match home with Some h => is_at_or_above cmp (as_comparable h) | None => false end).
  by intros [] [] [] [].
Qed.

Lemma normalize_shape (p : str) names :
  cBS ∉ p → Forall clean_name names →
  ∃ ns, normalize p (abs_path names) = at_root (negb (is_windows_absolute p)) ns
    ∧ Forall clean_name ns.
Proof.
  intros Hbs Hn. unfold normalize.
  destruct (path_is_absolute p) eqn:Ha.
  { assert (is_windows_absolute p = false) as ->.
    { apply starts_with_true in Ha as [r ->]. by destruct r as [|? []]. }
    simpl. rewrite <- Ha. by apply normalize_clean. }
  destruct (is_windows_absolute p) eqn:Hw; simpl.
  { rewrite <- Ha. by apply normalize_clean. }
  pose proof (join_clean_no_backslash _ Hn) as Hj. 
  assert (∃ t, path_join (abs_path names) p = cSlash :: t ∧ cBS ∉ t) as (t & -> & Ht).
  { unfold path_join. rewrite Ha, abs_path_eq. destruct (_ || _).
    - exists (join (lit "/") names ++ p). by rewrite not_elem_of_app.
    - exists (join (lit "/") names ++ cSlash :: p). rewrite not_elem_of_app, not_elem_of_cons.
      done. }
  destruct (normalize_clean (cSlash :: t)) as (ns & -> & Hns); [by apply not_elem_of_cons|].
  by exists ns.
Qed.

(** A path that stays relative after normalising never compares inside. *)
Lemma relative_not_in_project ns pnames home :
  Forall clean_name ns →
  let cmp := as_comparable (path_to_str (at_root false ns)) in
  catastrophic_cmp cmp home = false →
  eq_ignore_ascii_case cmp (abs_path pnames)
  || starts_with (to_ascii_lowercase cmp) (to_ascii_lowercase (abs_path pnames) ++ lit "/") = false.
Proof.
  intros Hn cmp Hcat.
  assert (ns ≠ []) as Hne.
  { intros ->. unfold catastrophic_cmp in Hcat.
    change cmp with (lit "/") in Hcat. by destruct home as [h|]; [destruct (is_at_or_above _ _)|]. }
  assert (∃ c r, cmp = c :: r ∧ is_slash c = false) as (c & r & -> & Hc).
  { unfold cmp. assert (path_to_str (at_root false ns) = join (lit "/") ns) as ->.
    { rewrite <- (component_names ns) at 2. by destruct ns. }
    rewrite as_comparable_rel by done. destruct ns as [|n ns]; [done|].
    apply Forall_cons in Hn as [(Hx & Hs & _) _]. destruct n as [|c n]; [done|].
    apply Forall_cons in Hs as [Hc _]. destruct ns; by eexists _, _. }
  rewrite abs_path_eq. unfold eq_ignore_ascii_case. apply orb_false_iff. split.
  - apply bool_decide_eq_false_2. intros [= E _].
    rewrite <- is_slash_lower, E in Hc. done.
  - apply not_true_iff_false. intros [q [= E _]]%starts_with_true.
    rewrite <- is_slash_lower, E in Hc. done.
Qed.

(** An [InProject] verdict confines the path: whatever variables, [..], glob
    tail or letter case it is written with, its lexical normalisation from the
    project is an absolute path made of plain names, at or below the project
    directory (up to ASCII case, as the code compares). *)
Theorem in_project_confined raw pnames home :
  pnames ≠ [] → Forall clean_name pnames →
  cBS ∉ expand raw home →
  classify raw (abs_path pnames) home = InProject →
  ∃ names,
    normalize (strip_glob_tail (expand raw home)) (abs_path pnames) = RootDir :: (Normal <$> names)
    ∧ Forall clean_name names
    ∧ (to_ascii_lowercase <$> pnames) `prefix_of` (to_ascii_lowercase <$> names).
Proof.
  intros Hne Hp Hbs Hc.
  destruct (has_unresolved_variable (expand raw home)) eqn:Hv.
  { unfold classify in Hc. by rewrite Hv in Hc. }
  rewrite classify_eq in Hc by done. revert Hc.
  destruct (strip_glob_tail_prefix (expand raw home)) as [q Hq].
  set (p := strip_glob_tail (expand raw home)) in *.
  assert (cBS ∉ p) as Hbsp by (intros ?; apply Hbs; rewrite Hq; apply elem_of_app; auto).
  destruct (normalize_shape p pnames) as (ns & -> & Hns); [done..|].
  rewrite (as_comparable_abs pnames) by done.
  destruct (catastrophic_cmp _ _) eqn:Hcat; [done|].
  destruct (is_windows_absolute p); simpl negb in *.
  { by rewrite (relative_not_in_project ns pnames home) by done. }
  change (path_to_str (at_root true ns)) with (abs_path ns).
  rewrite as_comparable_abs by done. case_match eqn:Hin; [|done]. intros _.
  exists ns. repeat split; [done|]. by apply in_project_prefix in Hin.
Qed.

(** ** Traversal *)

(** [n] copies of [../]. *)
Definition dotdots (n : nat) : str := mjoin (replicate n (lit "../")).

Lemma split_on_dotdots n t :
  split_on is_slash (dotdots n ++ t) = replicate n (lit "..") ++ split_on is_slash t.
Proof.
  induction n as [|n IH]; [done|].
  change (dotdots (S n) ++ t) with (lit ".." ++ cSlash :: (dotdots n ++ t)).
  rewrite split_on_app_sep by done. by rewrite IH.
Qed.

Lemma pop_names abs n names :
  foldl normalize_step (at_root abs names) (replicate n ParentDir)
  = at_root abs (take (length names - n) names).
Proof.
  revert names. induction n as [|n IH]; intros names; simpl.
  - by rewrite Nat.sub_0_r, firstn_all.
  - rewrite path_pop_at_root, IH. f_equal.
    destruct names as [|x names _] using rev_ind; [done|].
    rewrite removelast_last, length_app. simpl.
    rewrite take_app_le by lia. f_equal. lia.
Qed.

Lemma component_of_name s :
  s ≠ [] → s ≠ lit "." → s ≠ lit ".." → component_of s = Some (Normal s).
Proof.
  intros. unfold component_of.
  by rewrite !bool_decide_eq_false_2 by done.
Qed.

Lemma push_names abs ns names :
  Forall (λ s, s ≠ [] ∧ s ≠ lit "." ∧ s ≠ lit "..") ns →
  foldl normalize_step (at_root abs names) (omap component_of ns) = at_root abs (names ++ ns).
Proof.
  revert names. induction ns as [|s ns IH]; intros names; [by rewrite app_nil_r|].
  intros [(? & ? & ?) Hns]%Forall_cons. csimpl. rewrite component_of_name by done. simpl.
  change (at_root abs names ++ [Normal s])
    with (at_root abs names ++ (Normal <$> [s])).
  assert (at_root abs names ++ (Normal <$> [s]) = at_root abs (names ++ [s])) as ->.
  { unfold at_root. by rewrite fmap_app, app_assoc. }
  rewrite IH by done. by rewrite <- app_assoc.
Qed.

(** A directory name as a project path has it. *)
Definition dir_name (s : str) : Prop := clean_name s ∧ s ≠ lit "." ∧ s ≠ lit "..".

(** Going up [n] levels and down into [s] is resolved lexically. *)
Lemma normalize_dotdots n s names :
  names ≠ [] → Forall dir_name names → dir_name s →
  normalize (dotdots (S n) ++ s) (abs_path names)
  = at_root true (take (length names - S n) names ++ [s]).
Proof.
  intros Hne Hn Hs. unfold normalize.
  assert (∃ r, dotdots (S n) ++ s = 46%N :: 46%N :: r) as [r Hr] by by eexists.
  assert (path_is_absolute (dotdots (S n) ++ s) = false) as Ha by by rewrite Hr.
  assert (is_windows_absolute (dotdots (S n) ++ s) = false) as -> by by (rewrite Hr; destruct r).
  assert (path_join (abs_path names) (dotdots (S n) ++ s)
          = cSlash :: (join (lit "/") names ++ cSlash :: (dotdots (S n) ++ s))) as Hj.
  { unfold path_join. rewrite Ha, abs_path_eq. simpl orb.
    assert (ends_with (cSlash :: join (lit "/") names) (lit "/") = false) as ->; [|done].
    apply not_true_iff_false. intros [q Hq]%ends_with_true.
    destruct (join_clean_last names) as (r' & c & E & Hc); [done| |].
    { eapply Forall_impl; [exact Hn|]. by intros ? [? _]. }
    rewrite E, app_comm_cons in Hq. apply app_inj_tail in Hq as [_ ->]. done. }
  rewrite Ha, Hj. simpl orb. cbv iota. rewrite components_abs.
  rewrite split_on_app_sep, split_on_dotdots by done.
  rewrite split_on_join_slash; [|done|].
  2: { eapply Forall_impl; [exact Hn|]. by intros ? [(_ & ? & _) _]. }
  rewrite (split_on_no_sep is_slash s) by apply Hs.
  rewrite !omap_app.
  change (foldl normalize_step [] (RootDir :: ?x)) with (foldl normalize_step (at_root true []) x).
  rewrite !foldl_app, push_names. 2: { eapply Forall_impl; [exact Hn|].
    intros ? [(? & _) [? ?]]. done. }
  assert (omap component_of (replicate (S n) (lit "..")) = replicate (S n) ParentDir) as ->.
  { clear. induction (S n) as [|m IH]; [done|]. csimpl. by rewrite IH. }
  rewrite pop_names, push_names; [done|]. constructor; [|done]. split_and!; apply Hs.
Qed.

(** Text without [$] and [%] has nothing to expand. *)
Definition var_free (s : str) : Prop := chr "$" ∉ s ∧ chr "%" ∉ s.

Lemma not_contains_head s c p : c ∉ s → contains s (c :: p) = false.
Proof.
  intros Hc. apply not_true_iff_false. intros (a & b & ->)%contains_true.
  apply Hc. apply elem_of_app. right. apply elem_of_app. left. by left.
Qed.

Lemma has_unresolved_variable_free s : var_free s → has_unresolved_variable s = false.
Proof.
  induction s as [|c s IH]; [done|]. intros [Hd Hp].
  apply not_elem_of_cons in Hd as [Hd1 Hd2], Hp as [Hp1 Hp2].
  simpl. destruct s as [|d s]; [done|].
  rewrite (proj2 (N.eqb_neq c (chr "$"))), (proj2 (N.eqb_neq c (chr "%"))) by congruence.
  by apply IH.
Qed.

Lemma expand_free s home c r : s = c :: r → c ≠ chr "~" → var_free s → expand s home = s.
Proof.
  intros E Hc [Hd Hp]. unfold expand. destruct home as [h|]; [|done].
  rewrite bool_decide_eq_false_2 by (rewrite E; by intros [= ?]).
  assert (strip_prefix (lit "~/") s = None) as ->.
  { rewrite E. by apply (strip_prefix_ne (chr "~") (lit "/")). }
  assert (strip_prefix [chr "~"; cBS] s = None) as ->.
  { rewrite E. by apply (strip_prefix_ne (chr "~") [cBS]). }
  unfold expand_vars, foldl.
  assert (contains s (lit "$HOME") = false) as -> by by apply (not_contains_head s (chr "$")).
  assert (contains s (lit "${HOME}") = false) as -> by by apply (not_contains_head s (chr "$")).
  assert (contains s (lit "%USERPROFILE%") = false) as ->
    by by apply (not_contains_head s (chr "%")).
  assert (contains s (lit "$env:USERPROFILE") = false) as ->
    by by apply (not_contains_head s (chr "$")).
  done.
Qed.


Lemma strip_glob_tail_id a s c :
  is_sep c = true → Forall (λ c, is_sep c = false) s → forallb is_glob_char s = false →
  strip_glob_tail (a ++ c :: s) = a ++ c :: s.
Proof.
  intros Hc Hs Hg. unfold strip_glob_tail. rewrite rsplit_next_app by done.
  by rewrite Hg, andb_false_r.
Qed.

(** A trailing glob component is cut: what stays is the directory it expands in. *)
Lemma strip_glob_tail_glob d c g s :
  d ++ [c] = s → is_sep c = false →
  g ≠ [] → forallb is_glob_char g = true →
  strip_glob_tail (s ++ lit "/" ++ g) = s.
Proof.
  intros <- Hc Hg Hall. unfold strip_glob_tail.
  change (lit "/" ++ g) with (cSlash :: g).
  assert (Forall (λ c, is_sep c = false) g) as Hs.
  { apply Forall_forall. intros x Hx.
    assert (is_glob_char x = true) as Hx' by by apply (proj1 (forallb_true_iff _ _) Hall).
    unfold is_glob_char in Hx'. rewrite !orb_true_iff, !N.eqb_eq in Hx'.
    by destruct Hx' as [[-> | ->]| ->]. }
  rewrite rsplit_next_app by done. rewrite bool_decide_eq_false_2 by done. rewrite Hall. simpl negb.
  simpl andb. cbv iota.
  assert (take (length ((d ++ [c]) ++ cSlash :: g) - length g) ((d ++ [c]) ++ cSlash :: g)
          = (d ++ [c]) ++ [cSlash]) as ->.
  { change (cSlash :: g) with ([cSlash] ++ g). rewrite app_assoc.
    rewrite take_app_length'; [done|]. rewrite (length_app (_ ++ _) g). lia. }
  assert (trim_end_matches is_sep ((d ++ [c]) ++ [cSlash]) = d ++ [c]) as ->.
  { unfold trim_end_matches. rewrite rev_app_distr. simpl.
    fold (trim_end_matches is_sep (d ++ [c])). by apply trim_end_matches_id. }
  rewrite bool_decide_eq_false_2; [done|]. by destruct d.
Qed.

(** The protected directories directly under the root. *)
Definition protected_names : list string :=
  ["bin"; "boot"; "dev"; "etc"; "lib"; "opt"; "proc"; "root"; "sbin"; "srv"; "sys"; "usr"; "var";
   "Applications"; "Library"; "System"; "Users"; "Volumes"]%string.

#[global] Instance clean_name_dec s : Decision (clean_name s).
Proof. unfold clean_name. apply _. Defined.
#[global] Instance dir_name_dec s : Decision (dir_name s).
Proof. unfold dir_name. apply _. Defined.
#[global] Instance var_free_dec s : Decision (var_free s).
Proof. unfold var_free. apply _. Defined.

Lemma protected_names_spec s :
  s ∈ protected_names →
  dir_name (lit s) ∧ var_free (lit s) ∧ Forall (λ c, is_sep c = false) (lit s)
  ∧ forallb is_glob_char (lit s) = false
  ∧ existsb (λ prefix, is_at_or_above (abs_path [lit s]) (lit prefix)) PROTECTED_PREFIXES = true.
Proof.
  revert s. apply Forall_forall. apply (bool_decide_unpack _). by vm_compute.
Qed.

Lemma var_free_app a b : var_free a → var_free b → var_free (a ++ b).
Proof. unfold var_free. rewrite !not_elem_of_app. naive_solver. Qed.

Lemma var_free_dotdots n : var_free (dotdots n).
Proof.
  induction n as [|n IH]; [by apply (bool_decide_unpack _)|].
  change (dotdots (S n)) with (lit "../" ++ dotdots n).
  apply var_free_app; [by apply (bool_decide_unpack _)|done].
Qed.

Lemma dotdots_end n : ∃ x, dotdots (S n) = x ++ [cSlash].
Proof.
  induction n as [|n [x IH]]; [by exists (lit "..")|].
  exists (lit "../" ++ x). rewrite <- app_assoc, <- IH. done.
Qed.

(** Traversal is seen through: from a project at depth at most [S n], [S n]
    copies of [../] in front of a protected top-level directory are classified
    [Catastrophic], whatever the home directory. *)
Theorem traversal_reaches_root n s names home :
  names ≠ [] → Forall dir_name names → length names ≤ S n → s ∈ protected_names →
  classify (dotdots (S n) ++ lit s) (abs_path names) home = ScopeCatastrophic.
Proof.
  intros Hne Hn Hlen (Hd & Hv & Hsep & Hg & Hprot)%protected_names_spec.
  assert (var_free (dotdots (S n) ++ lit s)) as Hvf by (apply var_free_app; [apply var_free_dotdots|done]).
  assert (expand (dotdots (S n) ++ lit s) home = dotdots (S n) ++ lit s) as He
    by by eapply (expand_free _ _ (chr ".")).
  rewrite classify_eq; rewrite He; [|by apply has_unresolved_variable_free].
  assert (strip_glob_tail (dotdots (S n) ++ lit s) = dotdots (S n) ++ lit s) as ->.
  { destruct (dotdots_end n) as [x ->]. rewrite <- app_assoc. by apply strip_glob_tail_id. }
  rewrite normalize_dotdots by done.
  replace (length names - S n) with 0 by lia. rewrite take_0. simpl app.
  change (path_to_str (at_root true [lit s])) with (abs_path [lit s]).
  rewrite as_comparable_abs by (constructor; [apply Hd|done]).
  unfold catastrophic_cmp. rewrite Hprot, orb_true_r. done.
Qed.

(** ** The parent directory

    [strip_glob_tail] takes [.] for a glob character, so a last component [..]
    is cut like a [*]: [..] is judged as the project, not as its parent. *)

Lemma normalize_empty names :
  names ≠ [] → Forall dir_name names → normalize [] (abs_path names) = at_root true names.
Proof.
  intros Hne Hn. unfold normalize. simpl orb. cbv iota.
  assert (path_join (abs_path names) [] = cSlash :: (join (lit "/") names ++ [cSlash])
          ∨ path_join (abs_path names) [] = cSlash :: join (lit "/") names) as Hj.
  { unfold path_join. rewrite abs_path_eq. simpl path_is_absolute. cbv iota.
    destruct (_ || _); [right; by rewrite app_nil_r|left; done]. }
  assert (Forall (λ w, Forall (λ c, is_slash c = false) w) names) as Hsl.
  { eapply Forall_impl; [exact Hn|]. by intros ? [(_ & ? & _) _]. }
  assert (foldl normalize_step (at_root true []) (omap component_of names) = at_root true names)
    as Hpush.
  { rewrite push_names; [done|]. eapply Forall_impl; [exact Hn|]. by intros ? [(? & _) [? ?]]. }
  destruct Hj as [-> | ->]; rewrite components_abs;
    change (foldl normalize_step [] (RootDir :: ?x)) with (foldl normalize_step (at_root true []) x).
  - rewrite split_on_app_sep, split_on_join_slash, omap_app, foldl_app by done.
    rewrite Hpush. done.
  - by rewrite split_on_join_slash, Hpush.
Qed.

(** In every project, [..] is classified as inside the project, although it
    names the directory above it: the glob tail check takes its dots for a glob. *)
Theorem parent_dir_is_in_project names home :
  names ≠ [] → Forall dir_name names → catastrophic_cmp (abs_path names) home = false →
  classify (lit "..") (abs_path names) home = InProject.
Proof.
  intros Hne Hn Hcat.
  assert (expand (lit "..") home = lit "..") as He by by destruct home.
  rewrite classify_eq; rewrite He; [|done].
  change (strip_glob_tail (lit "..")) with (@nil N). rewrite normalize_empty by done.
  change (path_to_str (at_root true names)) with (abs_path names).
  rewrite as_comparable_abs by (eapply Forall_impl; [exact Hn|]; by intros ? [? _]).
  rewrite Hcat. unfold eq_ignore_ascii_case. by rewrite bool_decide_eq_true_2.
Qed.

(** The same directory, spelled with a trailing slash, is the home directory. *)
Example parent_dir_is_in_project_witness :
  classify (lit "..") (lit "/home/user/proj") (Some (lit "/home/user")) = InProject
  ∧ classify (lit "../") (lit "/home/user/proj") (Some (lit "/home/user")) = ScopeCatastrophic.
Proof.
  split; [|by vm_compute].
  apply (parent_dir_is_in_project [lit "home"; lit "user"; lit "proj"]);
    [done|by apply (bool_decide_unpack _)|by vm_compute].
Defined.

(** Only the last glob component is cut: [/*/*] is judged by [/*]. *)
Example nested_root_glob :
  classify (lit "/*") (lit "/work/proj") None = ScopeCatastrophic
  ∧ classify (lit "/*/*") (lit "/work/proj") None = Outside.
Proof. by vm_compute. Qed.

Example in_project_confined_witness :
  ∃ names,
    normalize (strip_glob_tail (expand (lit "src/../Target") None)) (abs_path [lit "work"; lit "proj"])
      = RootDir :: (Normal <$> names)
    ∧ Forall clean_name names
    ∧ (to_ascii_lowercase <$> [lit "work"; lit "proj"]) `prefix_of` (to_ascii_lowercase <$> names).
Proof.
  apply in_project_confined; [done|by apply (bool_decide_unpack _)..|by vm_compute].
Defined.

Example traversal_reaches_root_witness :
  classify (lit "../../../etc") (lit "/work/proj") None = ScopeCatastrophic.
Proof.
  apply (traversal_reaches_root 2 "etc"%string [lit "work"; lit "proj"]);
    [done|by apply (bool_decide_unpack _)|simpl; lia|by apply (bool_decide_unpack _)].
Defined.
