(* ===== verification/Trailer.v ===== *)
(** [core/src/edit_trailer.rs]: the [[+12 -3]] line at the end of a result of a
    tool that changes files, and the sum of all such lines the session takes. *)

From S2P Require Import Prelude RustStr Bytes.

(** [[+added -removed]] *)
Definition edit_trailer (added removed : nat) : str :=
  lit "[+" ++ digits (N.of_nat added) ++ lit " -" ++ digits (N.of_nat removed) ++ lit "]".

Definition parse_one (line : str) : option (N * N) :=
  inner ← strip_prefix (lit "[+") line;
  inner ← strip_suffix (lit "]") inner;
  '(plus, minus) ← split_once inner (lit " -");
  plus ← parse_uint u64_max plus;
  minus ← parse_uint u64_max minus;
  Some (plus, minus).

(** [u64] addition as a release build computes it. *)
Definition wrapping_add (a b : N) : N := ((a + b) mod 2 ^ 64)%N.

Fixpoint sum_trailers (ls : list str) (found : bool) (added removed : N) : option (N * N) :=
  match ls with
  | [] => if found then Some (added, removed) else None
  | line :: ls =>
      match parse_one (trim_end line) with
      | None => sum_trailers ls found added removed
      | Some (plus, minus) => sum_trailers ls true (wrapping_add added plus) (wrapping_add removed minus)
      end
  end.
Definition parse_edit_trailers (content : str) : option (N * N) := sum_trailers (lines content) false 0 0.

(** ** Laws *)

Lemma split_once_digits n m :
  split_once (digits n ++ lit " -" ++ m) (lit " -") = Some (digits n, m).
Proof.
  pose proof (digits_forall n (λ c, c ≠ 32%N)) as Hd. revert Hd. generalize (digits n). intros ds Hd.
  assert (Forall (λ c, c ≠ 32%N) ds) as HF by (apply Hd; lia). clear Hd.
  induction HF as [|c ds Hc _ IH].
  - cbn [app]. change (lit " -" ++ m) with (32%N :: 45%N :: m). cbn. reflexivity.
  - cbn [app split_once]. change (lit " -") with [32; 45]%N at 1.
    rewrite strip_prefix_ne by done. by rewrite IH.
Qed.

Lemma parse_trailer a r :
  (N.of_nat a ≤ u64_max)%N → (N.of_nat r ≤ u64_max)%N →
  parse_one (edit_trailer a r) = Some (N.of_nat a, N.of_nat r).
Proof.
  intros Ha Hr. unfold parse_one, edit_trailer.
  rewrite (proj2 (strip_prefix_Some (lit "[+") _ _) eq_refl). cbn [mbind option_bind].
  rewrite (proj2 (strip_suffix_Some (lit "]") _ (digits (N.of_nat a) ++ lit " -" ++ digits (N.of_nat r))))
    by by rewrite <- !app_assoc. cbn [mbind option_bind].
  rewrite split_once_digits. cbn [mbind option_bind].
  by rewrite !parse_uint_digits.
Qed.

Lemma trim_end_trailer a r : trim_end (edit_trailer a r) = edit_trailer a r.
Proof. unfold edit_trailer, trim_end. rewrite !app_assoc. by apply trim_end_matches_id. Qed.

Lemma trailer_clean a r : clean_line (edit_trailer a r).
Proof.
  unfold edit_trailer. split.
  - repeat (apply Forall_app; split); try (repeat constructor; done); apply digits_forall;
      intros c Hc ->; unfold cLF in Hc; lia.
  - change (lit "]") with [93]%N. rewrite !app_assoc, last_snoc. done.
Qed.

(** A report: lines that are no trailer, then its trailer. *)
Definition report (x : list str * (nat * nat)) : list str := x.1 ++ [edit_trailer x.2.1 x.2.2].
Definition plain_line (l : str) : Prop := clean_line l ∧ parse_one (trim_end l) = None.
Definition report_ok (x : list str * (nat * nat)) : Prop :=
  Forall plain_line x.1 ∧ (N.of_nat x.2.1 ≤ u64_max)%N ∧ (N.of_nat x.2.2 ≤ u64_max)%N.

Lemma sum_trailers_plain ls rest found a r :
  Forall plain_line ls → sum_trailers (ls ++ rest) found a r = sum_trailers rest found a r.
Proof. induction 1 as [|l ls [_ Hl] _ IH]; [done|]. cbn [app sum_trailers]. by rewrite Hl. Qed.

Lemma sum_trailers_reports xs rest found a r :
  Forall report_ok xs →
  sum_trailers (mjoin (report <$> xs) ++ rest) found a r =
  sum_trailers rest (found || bool_decide (xs ≠ []))
    (foldl wrapping_add a ((λ x, N.of_nat x.2.1) <$> xs))
    (foldl wrapping_add r ((λ x, N.of_nat x.2.2) <$> xs)).
Proof.
  intros Hx. revert found a r. induction Hx as [|x xs (Hp & Ha & Hr) _ IH]; intros found a r.
  { by rewrite orb_false_r. }
  change (mjoin (report <$> x :: xs)) with (report x ++ mjoin (report <$> xs)).
  unfold report at 1. rewrite <- !app_assoc, sum_trailers_plain by done.
  cbn [app sum_trailers]. rewrite trim_end_trailer, parse_trailer by done.
  rewrite IH. cbn [orb]. by rewrite bool_decide_eq_true_2, orb_true_r by done.
Qed.

(** The session reads back what the tools wrote: in a result of several
    reports, each ending in its trailer, the trailers sum to the counts that were
    printed (modulo 2^64), and a text without trailers has no sum. *)
Theorem trailers_round_trip xs tail :
  Forall report_ok xs → Forall plain_line tail →
  parse_edit_trailers (unlines (mjoin (report <$> xs) ++ tail)) =
  match xs with
  | [] => None
  | _ => Some (foldl wrapping_add 0%N ((λ x, N.of_nat x.2.1) <$> xs),
               foldl wrapping_add 0%N ((λ x, N.of_nat x.2.2) <$> xs))
  end.
Proof.
  intros Hx Ht. unfold parse_edit_trailers. rewrite lines_unlines.
  - rewrite sum_trailers_reports by done. rewrite <- (app_nil_r tail), sum_trailers_plain by done.
    by destruct xs.
  - apply Forall_app. split; [|eapply Forall_impl; [exact Ht|by intros l [? _]]].
    induction Hx as [|x xs (Hp & _) _ IH]; [constructor|].
    change (mjoin (report <$> x :: xs)) with (report x ++ mjoin (report <$> xs)).
    apply Forall_app. split; [|done]. apply Forall_app.
    split; [eapply Forall_impl; [exact Hp|by intros l [? _]]|constructor; [apply trailer_clean|done]].
Qed.

Lemma trailers_round_trip_witness :
  parse_edit_trailers (unlines (mjoin (report <$> [([lit "Patch applied to `a` (1 hunk)."], (1, 1));
      ([lit "Patch applied to `b` (2 hunks)."], (4, 0))]) ++ [lit "done"])) = Some (5%N, 1%N).
Proof.
  apply (trailers_round_trip [([lit "Patch applied to `a` (1 hunk)."], (1, 1));
    ([lit "Patch applied to `b` (2 hunks)."], (4, 0))] [lit "done"]);
    repeat constructor; vm_compute; congruence.
Defined.

Example trailer_ex : parse_edit_trailers (lit "Wrote a.rs" ++ [cLF; cLF] ++ lit "[+12 -3]") = Some (12%N, 3%N)
  ∧ parse_edit_trailers (lit "[+x -1]") = None ∧ parse_edit_trailers (lit "[+1 -]") = None.
Proof. split_and!; vm_compute; reflexivity. Qed.
