(* ===== verification/Patch.v ===== *)
(** [tools/src/file/apply_patch.rs]: applying a unified diff. The text of a
    patch is split into files, each file's hunks are parsed, and the hunks are
    applied to the lines of the file from the last to the first. [Vec::remove]
    and [Vec::insert] panic out of range: [None] here.

    A tool result with an empty call id is a [result]: [Ok] or [Err] with its
    content. The file system, and the write check of the tool context, are an
    interface, [PatchEnv]. *)

From stdpp Require Import sorting.
From S2P Require Import Prelude RustStr Bytes Tolerant Paths Trailer.

(** ** The hunks of a patch *)

Inductive Op := OpContext (text : str) | OpRemove (text : str) | OpAdd (text : str).
Record Hunk := mkHunk { old_start : N; ops : list Op }.

Definition malformed_hunk_header (line : str) : str := lit "malformed hunk header: " ++ line.

(** [line.strip_prefix("@@").and_then(|s| s.split("@@").next())]: the text up to
    the next [@@], or to the end. *)
Fixpoint until_at (s : str) : str :=
  match s with
  | [] => []
  | c :: r => if starts_with s (lit "@@") then [] else c :: until_at r
  end.
Definition hunk_body (line : str) : result str :=
  match strip_prefix (lit "@@") line with
  | Some rest => Ok (until_at rest)
  | None => Err (malformed_hunk_header line)
  end.
Definition old_hunk_token (rest line : str) : result str :=
  match List.find (λ t, starts_with t (lit "-")) (split_whitespace rest) with
  | Some old => Ok old
  | None => Err (malformed_hunk_header line)
  end.
Definition is_dash (c : rchar) : bool := (c =? chr "-")%N.
Definition parse_hunk_header (line : str) : result N :=
  match hunk_body line with
  | Err e => Err e
  | Ok rest =>
      match old_hunk_token rest line with
      | Err e => Err e
      | Ok old =>
          let num := default (lit "0")
                       (head (split_on (N.eqb (chr ",")) (trim_start_matches is_dash old))) in
          match parse_uint usize_max num with
          | Some n => Ok n
          | None => Err (malformed_hunk_header line)
          end
      end
  end.

Definition add_op (h : Hunk) (op : Op) : Hunk := mkHunk (old_start h) (ops h ++ [op]).

(** What a line of a hunk's body adds to it. *)
Definition hunk_line (h : Hunk) (line : str) : Hunk :=
  match strip_prefix (lit "+") line with
  | Some rest => add_op h (OpAdd rest)
  | None =>
      match strip_prefix (lit "-") line with
      | Some rest => add_op h (OpRemove rest)
      | None =>
          match strip_prefix (lit " ") line with
          | Some rest => add_op h (OpContext rest)
          | None => if starts_with line [cBS] || (line == []) then h else add_op h (OpContext line)
          end
      end
  end.

(** The loop of [parse_hunks]: [hunks] are finished, [current] is being read. *)
Fixpoint parse_loop (raws : list str) (hunks : list Hunk) (current : option Hunk) : result (list Hunk) :=
  match raws with
  | [] => Ok (match current with Some h => hunks ++ [h] | None => hunks end)
  | raw :: raws =>
      let line := strip_cr raw in
      if starts_with line (lit "@@") then
        let hunks := match current with Some h => hunks ++ [h] | None => hunks end in
        match parse_hunk_header line with
        | Err e => Err e
        | Ok old_start => parse_loop raws hunks (Some (mkHunk old_start []))
        end
      else
        match current with
        | None => parse_loop raws hunks None
        | Some h => parse_loop raws hunks (Some (hunk_line h line))
        end
  end.
Definition parse_hunks (patch : str) : result (list Hunk) := parse_loop (lines patch) [] None.

Definition require_hunks (hunks : list Hunk) : result unit :=
  match hunks with [] => Err (lit "no @@ hunks in patch") | _ => Ok tt end.

(** ** Applying a hunk *)

(** A line of the file: its text and its line end. *)
Abbreviation fline := (str * str)%type (only parsing).

Definition same_line (existing text : str) : bool :=
  (existing == text) || ((fold (trim_end existing)).1 == (fold (trim_end text)).1).

Definition vec_remove {A} (idx : nat) (l : list A) : option (list A) :=
  if idx <? length l then Some (take idx l ++ drop (S idx) l) else None.
Definition vec_insert {A} (idx : nat) (x : A) (l : list A) : option (list A) :=
  if idx <=? length l then Some (take idx l ++ x :: drop idx l) else None.

Definition file_ended (what : string) (i : nat) (text : str) : str :=
  lit what ++ lit " mismatch at line " ++ digits (N.of_nat (i + 1)) ++ lit ": file ended, expected `"
  ++ text ++ lit "`".
Arguments file_ended _%_string _ _.
Definition line_differs (what : string) (i : nat) (text existing : str) : str :=
  lit what ++ lit " mismatch at line " ++ digits (N.of_nat (i + 1)) ++ lit ": expected `" ++ text
  ++ lit "`, found `" ++ existing ++ lit "`".
Arguments line_differs _%_string _ _ _.

(** The first loop of [apply_hunk]: match context and removals from index [i] on,
    and collect the removals and the insertions, by index into the old file. *)
Fixpoint match_ops (file : list fline) (ops : list Op) (i : nat)
    (inserts : list (nat * str)) (removes : list nat) : result (list (nat * str) * list nat) :=
  match ops with
  | [] => Ok (inserts, removes)
  | OpContext text :: ops =>
      match file !! i with
      | None => Err (file_ended "context" i text)
      | Some (existing, _) =>
          if negb (same_line existing text) then Err (line_differs "context" i text existing)
          else match_ops file ops (i + 1) inserts removes
      end
  | OpRemove text :: ops =>
      match file !! i with
      | None => Err (file_ended "removal" i text)
      | Some (existing, _) =>
          if negb (same_line existing text) then Err (line_differs "removal" i text existing)
          else match_ops file ops (i + 1) inserts (removes ++ [i])
      end
  | OpAdd text :: ops => match_ops file ops i (inserts ++ [(i, text)]) removes
  end.

(** An insertion behind a removed line moves up by one. *)
Definition shift_insert (idx : nat) (ins : nat * str) : nat * str :=
  if idx <? ins.1 then (ins.1 - 1, ins.2) else ins.

(** The removals, in the order given, each moving the insertions behind it. *)
Fixpoint remove_lines (removes : list nat) (file : list fline) (inserts : list (nat * str))
  : option (list fline * list (nat * str)) :=
  match removes with
  | [] => Some (file, inserts)
  | idx :: r => file' ← vec_remove idx file; remove_lines r file' (shift_insert idx <$> inserts)
  end.
Fixpoint insert_lines (eol : str) (inserts : list (nat * str)) (file : list fline) : option (list fline) :=
  match inserts with
  | [] => Some file
  | (idx, text) :: r => file' ← vec_insert idx (text, eol) file; insert_lines eol r file'
  end.

(** [hunk.old_start] as an index. *)
Definition hunk_start (h : Hunk) : N := if (old_start h =? 0)%N then 0%N else (old_start h - 1)%N.

Definition apply_hunk (file : list fline) (hunk : Hunk) (eol : str) : outcome (list fline) :=
  let start := hunk_start hunk in
  if (N.of_nat (length file) <? start)%N then
    Some (Err (lit "hunk starts at line " ++ digits (old_start hunk) ++ lit " but file has "
               ++ digits (N.of_nat (length file)) ++ lit " lines"))
  else
    '(inserts, removes) <-? Some (match_ops file (ops hunk) (N.to_nat start) [] []);
    '(file, inserts) ← remove_lines (rev removes) file inserts;
    file ← insert_lines eol (rev inserts) file;
    Some (Ok file).

Fixpoint apply_hunks (file : list fline) (hunks : list Hunk) (eol : str) : outcome (list fline) :=
  match hunks with
  | [] => Some (Ok file)
  | h :: r => file <-? apply_hunk file h eol; apply_hunks file r eol
  end.

(** ** The lines of a file *)

(** [s.split_inclusive('\n')]. *)
Fixpoint split_inclusive (s : str) : list str :=
  match s with
  | [] => []
  | c :: r =>
      if (c =? cLF)%N then [c] :: split_inclusive r
      else match split_inclusive r with
           | [] => [[c]]
           | p :: ps => (c :: p) :: ps
           end
  end.
Definition pop_empty_split (ls : list str) : list str :=
  if last ls == Some [] then removelast ls else ls.
Definition split_end (l : str) : fline :=
  match strip_suffix CRLF l with
  | Some stripped => (stripped, CRLF)
  | None => match strip_suffix LF l with Some stripped => (stripped, LF) | None => (l, []) end
  end.
Definition file_lines (original : str) : list fline := split_end <$> pop_empty_split (split_inclusive original).
Definition render (file : list fline) : str := mjoin ((λ l, l.1 ++ l.2) <$> file).

(** [sort_by_key] on [Reverse(old_start)], then [Reverse] of the index: the keys are all
    different, so any sort gives the same result. *)
Definition later_first (x y : nat * Hunk) : Prop :=
  (old_start y.2 < old_start x.2)%N ∨ old_start y.2 = old_start x.2 ∧ y.1 ≤ x.1.
#[global] Instance later_first_dec x y : Decision (later_first x y).
Proof. apply _. Defined.
Definition order_hunks (hunks : list Hunk) : list Hunk :=
  snd <$> merge_sort later_first (imap pair hunks).

Definition apply_unified_diff (original patch : str) : outcome str :=
  hunks <-? Some (parse_hunks patch);
  _ <-? Some (require_hunks hunks);
  let eol := if is_crlf original then CRLF else LF in
  file <-? apply_hunks (file_lines original) (order_hunks hunks) eol;
  Some (Ok (render file)).

(** ** Counting *)

Definition count_hunks (patch : str) : nat :=
  Nat.max (length (filter (λ l, starts_with l (lit "@@") = true) (lines patch))) 1.

Definition is_added (line : str) : bool := starts_with line (lit "+") && negb (starts_with line (lit "+++")).
Definition is_removed (line : str) : bool := starts_with line (lit "-") && negb (starts_with line (lit "---")).
Fixpoint count_loop (ls : list str) (added removed : nat) : nat * nat :=
  match ls with
  | [] => (added, removed)
  | line :: r =>
      if is_added line then count_loop r (added + 1) removed
      else if is_removed line then count_loop r added (removed + 1)
      else count_loop r added removed
  end.
Definition count_changed_lines (patch : str) : nat * nat := count_loop (lines patch) 0 0.

(** ** The files of a patch *)

Record FilePatch := mkFilePatch { header_path : option str; body : str }.

Definition strip_diff_path (raw : str) : str :=
  trim_start_str (lit "b/") (trim_start_str (lit "a/") (default [] (head (split_whitespace raw)))).

Definition named_path (p : str) : option str :=
  if (p == []) || (p == lit "/dev/null") then None else Some p.

Definition path_from_diff_git (line : str) : option str :=
  rest ← strip_prefix (lit "diff --git ") line;
  b ← split_whitespace rest !! 1;
  named_path (strip_diff_path b).

Record SplitState := mkSplit {
  sp_files : list FilePatch; sp_header : option str; sp_body : str; sp_saw_hunk : bool }.

(** The closure [flush]. *)
Definition flush (st : SplitState) : SplitState :=
  let files := if sp_saw_hunk st && negb (sp_body st == [])
               then sp_files st ++ [mkFilePatch (sp_header st) (sp_body st)] else sp_files st in
  mkSplit files None [] false.

Definition split_step (st : SplitState) (raw : str) : SplitState :=
  let line := strip_cr raw in
  if starts_with line (lit "diff --git ") then
    let st := flush st in
    mkSplit (sp_files st) (path_from_diff_git line) (sp_body st) (sp_saw_hunk st)
  else
    let header :=
      match strip_prefix (lit "+++ ") line with
      | Some rest => match named_path (strip_diff_path rest) with
                     | Some p => Some p
                     | None => sp_header st
                     end
      | None => sp_header st
      end in
    let saw := sp_saw_hunk st || starts_with line (lit "@@") in
    mkSplit (sp_files st) header (sp_body st ++ raw ++ LF) saw.
Definition split_patch_files (patch : str) : list FilePatch :=
  sp_files (flush (foldl split_step (mkSplit [] None [] false) (lines patch))).

Definition join_or_abs (working_dir path : str) : str :=
  if path_is_absolute path then path else path_join working_dir path.

Definition resolve_target (working_dir explicit : str) (header : option str) : result str :=
  match header with
  | Some h =>
      if negb (h == []) && negb (h == lit ".") then Ok (join_or_abs working_dir h)
      else if negb (explicit == []) && negb (explicit == lit ".")
      then Ok (join_or_abs working_dir explicit)
      else Err (lit "Error: 'path' is required when the patch has no +++ / diff --git headers")
  | None =>
      if negb (explicit == []) && negb (explicit == lit ".")
      then Ok (join_or_abs working_dir explicit)
      else Err (lit "Error: 'path' is required when the patch has no +++ / diff --git headers")
  end.

Fixpoint strip_components (base p : list component) : option (list component) :=
  match base, p with
  | [], _ => Some p
  | a :: base, b :: p => if a == b then strip_components base p else None
  | _ :: _, [] => None
  end.
(** [display_path] of [file/paths.rs]: [Path::strip_prefix] by components. *)
Definition display_path (path working_dir : str) : str :=
  match strip_components (components working_dir) (components path) with
  | Some [] => lit "."
  | Some rest => path_to_str rest
  | None => path
  end.

(** ** The tool *)

(** What the tool asks of its surroundings: [std::fs::read_to_string] and
    [write_atomic], with the text of the error, and [ToolContext::check_file_write]. *)
Class PatchEnv (World : Type) := {
  read_to_string : World → str → result str;
  write_atomic : World → str → str → result unit * World;
  check_file_write : World → str → result unit * World }.

Section tool.
Context {World : Type} `{!PatchEnv World}.

Definition write_patched_result (r : result unit) (shown patch_content : str) : result str :=
  match r with
  | Ok _ =>
      let hunks := count_hunks patch_content in
      let '(added, removed) := count_changed_lines patch_content in
      Ok (lit "Patch applied to `" ++ shown ++ lit "` (" ++ digits (N.of_nat hunks) ++ lit " hunk"
          ++ (if hunks =? 1 then [] else lit "s") ++ lit ")." ++ LF ++ edit_trailer added removed)
  | Err e => Err (lit "Error writing '" ++ shown ++ lit "': " ++ e)
  end.

Definition apply_to_file (w : World) (full_path shown patch_content : str) : option (result str * World) :=
  match read_to_string w full_path with
  | Err e => Some (Err (lit "Error reading '" ++ shown ++ lit "': " ++ e), w)
  | Ok original =>
      r ← apply_unified_diff original patch_content;
      match r with
      | Ok modified =>
          let '(res, w') := write_atomic w full_path modified in
          Some (write_patched_result res shown patch_content, w')
      | Err e => Some (Err (lit "Failed to apply patch to `" ++ shown ++ lit "`: " ++ e), w)
      end
  end.

Fixpoint apply_files (w : World) (working_dir explicit_path : str) (files : list FilePatch)
    (reports : list str) : option (result str * World) :=
  match files with
  | [] => Some (Ok (join LF reports), w)
  | file :: files =>
      match resolve_target working_dir explicit_path (header_path file) with
      | Err msg => Some (Err msg, w)
      | Ok full_path =>
          let '(checked, w) := check_file_write w full_path in
          match checked with
          | Err msg => Some (Err msg, w)
          | Ok _ =>
              '(res, w) ← apply_to_file w full_path (display_path full_path working_dir) (body file);
              match res with
              | Err e => Some (Err e, w)
              | Ok content => apply_files w working_dir explicit_path files (reports ++ [content])
              end
          end
      end
  end.
End tool.
