(* ===== verification/PatchFacts.v ===== *)
(** What [apply_patch] promises. The index arithmetic of [apply_hunk] (removals
    from the end, insertions moved, then made from the end) is the plain reading
    of a hunk; hunks written in order apply as one script; a printed script
    parses back to its hunks; nothing panics; and a patch of several files
    stops at the first that fails. *)

From stdpp Require Import sorting.
From S2P Require Import Prelude RustStr Bytes Tolerant Paths Trailer Patch.

(** ** The reference reading of a hunk

    [run_ops eol ops rest]: the lines the hunk leaves in place of the ones it
    reads, and the lines it does not reach. *)
Fixpoint run_ops (eol : str) (ops : list Op) (rest : list fline) : option (list fline * list fline) :=
  match ops with
  | [] => Some ([], rest)
  | OpContext text :: ops =>
      match rest with
      | x :: r => if same_line x.1 text
                  then '(new, left_) ← run_ops eol ops r; Some (x :: new, left_) else None
      | [] => None
      end
  | OpRemove text :: ops =>
      match rest with
      | x :: r => if same_line x.1 text then run_ops eol ops r else None
      | [] => None
      end
  | OpAdd text :: ops => '(new, left_) ← run_ops eol ops rest; Some ((text, eol) :: new, left_)
  end.

(** Where a hunk stands: [n] lines of the file are before it. Its header counts lines
    from 1 and names the first one it reads; a hunk for an empty file has 0. *)
Definition stands (h : Hunk) (n : nat) : Prop :=
  old_start h = (N.of_nat n + 1)%N ∨ old_start h = 0%N ∧ n = 0.
(** What the format of patches says, of a hunk that reads the lines [old]: the number of
    a hunk that reads none is that of the line before it. The code takes it for the line
    behind it, so of these only those at the top are as the format has them. *)
Definition stands_by_format (h : Hunk) (old : list fline) (n : nat) : Prop :=
  match old with
  | [] => old_start h = 0%N ∧ n = 0
  | _ => old_start h = (N.of_nat n + 1)%N
  end.
Lemma stands_start h n : stands h n ↔ hunk_start h = N.of_nat n.
Proof. unfold stands, hunk_start. destruct (N.eqb_spec (old_start h) 0); lia. Qed.
Lemma stands_format h old n : stands_by_format h old n → stands h n.
Proof. unfold stands_by_format, stands. destruct old; auto. Qed.

(** ** Removals and insertions, relative to a position *)

Definition move (n : nat) (ins : nat * str) : nat * str := (n + ins.1, ins.2).
Definition finish (eol : str) (file : list fline) (inserts : list (nat * str)) (removes : list nat)
  : option (list fline) :=
  '(file, inserts) ← remove_lines (rev removes) file inserts;
  insert_lines eol (rev inserts) file.

Lemma fmap_rev {A B} (f : A → B) (l : list A) : f <$> rev l = rev (f <$> l).
Proof. induction l as [|x l IH]; [done|]. cbn [rev fmap list_fmap]. by rewrite fmap_app, IH. Qed.

Lemma vec_remove_app {A} (pre l : list A) k :
  vec_remove (length pre + k) (pre ++ l) = app pre <$> vec_remove k l.
Proof.
  unfold vec_remove. rewrite length_app. destruct (Nat.ltb_spec k (length l)).
  - rewrite (proj2 (Nat.ltb_lt _ _)) by lia. cbn. rewrite take_app_add.
    rewrite <- Nat.add_succ_r, drop_app_add. by rewrite <- app_assoc.
  - by rewrite (proj2 (Nat.ltb_ge _ _)) by lia.
Qed.

Lemma vec_insert_app {A} (pre l : list A) k x :
  vec_insert (length pre + k) x (pre ++ l) = app pre <$> vec_insert k x l.
Proof.
  unfold vec_insert. rewrite length_app. destruct (Nat.leb_spec k (length l)).
  - rewrite (proj2 (Nat.leb_le _ _)) by lia. cbn. rewrite take_app_add, drop_app_add.
    by rewrite <- app_assoc.
  - by rewrite (proj2 (Nat.leb_gt _ _)) by lia.
Qed.

Lemma shift_insert_move n idx ins : shift_insert (n + idx) (move n ins) = move n (shift_insert idx ins).
Proof.
  unfold shift_insert, move. cbn [fst snd]. destruct (Nat.ltb_spec idx ins.1).
  - rewrite (proj2 (Nat.ltb_lt _ _)) by lia. cbn [fst snd]. f_equal. lia.
  - by rewrite (proj2 (Nat.ltb_ge _ _)) by lia.
Qed.

Lemma remove_lines_app (pre l : list fline) (rs : list nat) (ins : list (nat * str)) :
  remove_lines (Nat.add (length pre) <$> rs) (pre ++ l) (move (length pre) <$> ins) =
  prod_map (app pre) (fmap (M := list) (move (length pre))) <$> remove_lines rs l ins.
Proof.
  revert l ins; induction rs as [|r rs IH]; intros l ins; cbn [remove_lines fmap list_fmap]; [done|].
  rewrite vec_remove_app. destruct (vec_remove r l) as [l'|]; [|done].
  cbn [fmap option_fmap option_map mbind option_bind]. rewrite <- list_fmap_compose.
  rewrite (list_fmap_ext _ (move (length pre) ∘ shift_insert r)) by (intros; apply shift_insert_move).
  rewrite list_fmap_compose. apply IH.
Qed.

Lemma insert_lines_app eol (pre : list fline) (ins : list (nat * str)) l :
  insert_lines eol (move (length pre) <$> ins) (pre ++ l) = app pre <$> insert_lines eol ins l.
Proof.
  revert l; induction ins as [|[k t] ins IH]; intros l; cbn [insert_lines fmap list_fmap]; [done|].
  unfold move at 1. cbn [fst snd]. rewrite vec_insert_app.
  destruct (vec_insert k _ l) as [l'|]; [|done]. apply IH.
Qed.

Lemma finish_app eol (pre l : list fline) (ins : list (nat * str)) (rs : list nat) :
  finish eol (pre ++ l) (move (length pre) <$> ins) (Nat.add (length pre) <$> rs) =
  app pre <$> finish eol l ins rs.
Proof.
  unfold finish. rewrite <- fmap_rev, remove_lines_app.
  destruct (remove_lines (rev rs) l ins) as [[l' ins']|]; [|done]. cbn.
  rewrite <- fmap_rev. apply insert_lines_app.
Qed.

Lemma remove_lines_snoc rs k l ins :
  remove_lines (rs ++ [k]) l ins =
  '(l', ins') ← remove_lines rs l ins; remove_lines [k] l' ins'.
Proof.
  revert l ins; induction rs as [|r rs IH]; intros l ins; [done|]. cbn [app remove_lines].
  destruct (vec_remove r l); [|done]. cbn [mbind option_bind]. apply IH.
Qed.

Lemma insert_lines_snoc eol ins x l :
  insert_lines eol (ins ++ [x]) l = l' ← insert_lines eol ins l; insert_lines eol [x] l'.
Proof.
  revert l; induction ins as [|[k t] ins IH]; intros l; [done|]. cbn [app insert_lines].
  destruct (vec_insert k _ l); [|done]. cbn [mbind option_bind]. apply IH.
Qed.

(** An insertion at the front is made last. *)
Lemma remove_lines_front rs l t ins :
  remove_lines rs l ((0, t) :: ins) = prod_map id (cons (0, t)) <$> remove_lines rs l ins.
Proof.
  revert l ins; induction rs as [|r rs IH]; intros l ins; [done|]. cbn [remove_lines fmap list_fmap].
  destruct (vec_remove r l); [|done]. cbn [mbind option_bind]. apply IH.
Qed.

Lemma finish_add eol l t ins rs : finish eol l ((0, t) :: ins) rs = cons (t, eol) <$> finish eol l ins rs.
Proof.
  unfold finish. rewrite remove_lines_front. destruct (remove_lines (rev rs) l ins) as [[l' ins']|]; [|done].
  cbn [fmap option_fmap option_map mbind option_bind prod_map id rev]. rewrite insert_lines_snoc.
  cbn [fst snd]. by destruct (insert_lines eol (rev ins') l').
Qed.

Lemma finish_remove eol x l (ins : list (nat * str)) (rs : list nat) :
  finish eol (x :: l) (move 1 <$> ins) (0 :: (Nat.add 1 <$> rs)) = finish eol l ins rs.
Proof.
  unfold finish. cbn [rev]. rewrite remove_lines_snoc, <- fmap_rev.
  rewrite (remove_lines_app [x] l). destruct (remove_lines (rev rs) l ins) as [[l' ins']|]; [|done].
  cbn [fmap option_fmap option_map mbind option_bind prod_map]. cbn.
  change (list_fmap _ _ (shift_insert 0) (list_fmap _ _ (move 1) ins')) with
    (shift_insert 0 <$> (move 1 <$> ins')).
  rewrite <- list_fmap_compose, (list_fmap_ext _ id), list_fmap_id; [done|].
  intros _ [k t] _. cbn. f_equal. lia.
Qed.

(** ** The loop of [apply_hunk] *)

Lemma match_ops_spec eol file ops pre rest ins0 rem0 :
  file = pre ++ rest →
  match run_ops eol ops rest with
  | Some (new, left_) =>
      ∃ ins rs, match_ops file ops (length pre) ins0 rem0 =
          Ok (ins0 ++ (move (length pre) <$> ins), rem0 ++ (Nat.add (length pre) <$> rs)) ∧
        finish eol rest ins rs = Some (new ++ left_)
  | None => ∃ e, match_ops file ops (length pre) ins0 rem0 = Err e
  end.
Proof.
  revert pre rest ins0 rem0; induction ops as [|op ops IH]; intros pre rest ins0 rem0 ->.
  { exists [], []. cbn. by rewrite !app_nil_r. }
  assert (∀ x r, (pre ++ x :: r) = (pre ++ [x]) ++ r) as Hsplit by (intros; by rewrite <- app_assoc).
  assert (∀ x : fline, length (pre ++ [x]) = length pre + 1) as Hlen by (intros; by rewrite length_app).
  assert (∀ r : list fline, (pre ++ r) !! length pre = head r) as Hlook.
  { intros r. rewrite lookup_app_r, Nat.sub_diag by done. by destruct r. }
  assert (∀ n (ins : list (nat * str)), move (n + 1) <$> ins = move n <$> (move 1 <$> ins)) as Hmove.
  { intros n ins. rewrite <- list_fmap_compose. apply list_fmap_ext. intros _ [k t] _. unfold move. cbn.
    f_equal. lia. }
  assert (∀ n (rs : list nat), Nat.add (n + 1) <$> rs = Nat.add n <$> (Nat.add 1 <$> rs)) as Hadd.
  { intros n rs. rewrite <- list_fmap_compose. apply list_fmap_ext. intros; cbn; lia. }
  destruct op as [text|text|text]; cbn [run_ops match_ops].
  - rewrite Hlook. destruct rest as [|[existing e] r]; cbn [head fst]; [by eexists|].
    destruct (same_line existing text); cbn [negb]; [|by eexists].
    specialize (IH (pre ++ [(existing, e)]) r ins0 rem0 (Hsplit _ _)). rewrite Hlen in IH.
    destruct (run_ops eol ops r) as [[new left_]|]; cbn [mbind option_bind]; [|exact IH].
    destruct IH as (ins & rs & -> & Hf). exists (move 1 <$> ins), (Nat.add 1 <$> rs).
    rewrite Hmove, Hadd. split; [done|]. rewrite (finish_app eol [(existing, e)] r), Hf. done.
  - rewrite Hlook. destruct rest as [|[existing e] r]; cbn [head fst]; [by eexists|].
    destruct (same_line existing text); cbn [negb]; [|by eexists].
    specialize (IH (pre ++ [(existing, e)]) r ins0 (rem0 ++ [length pre]) (Hsplit _ _)). rewrite Hlen in IH.
    destruct (run_ops eol ops r) as [[new left_]|]; [|exact IH].
    destruct IH as (ins & rs & -> & Hf). exists (move 1 <$> ins), (0 :: (Nat.add 1 <$> rs)).
    rewrite Hmove, Hadd. split; [|by rewrite finish_remove].
    rewrite fmap_cons, Nat.add_0_r, <- app_assoc. done.
  - specialize (IH pre rest (ins0 ++ [(length pre, text)]) rem0 eq_refl).
    destruct (run_ops eol ops rest) as [[new left_]|]; cbn [mbind option_bind]; [|exact IH].
    destruct IH as (ins & rs & -> & Hf). exists ((0, text) :: ins), rs. rewrite finish_add, Hf.
    split; [|done]. rewrite fmap_cons. unfold move at 2. cbn. rewrite Nat.add_0_r, <- app_assoc. done.
Qed.

(** The whole of [apply_hunk] against the reference reading: the lines before
    the hunk are kept, the hunk is run on the rest; it is an error when the hunk
    starts behind the file or a line it expects is not there. *)
Lemma apply_hunk_run file h eol :
  (N.of_nat (length file) < hunk_start h)%N ∧ (∃ e, apply_hunk file h eol = Some (Err e)) ∨
  (hunk_start h ≤ N.of_nat (length file))%N ∧
  match run_ops eol (ops h) (drop (N.to_nat (hunk_start h)) file) with
  | Some (new, left_) =>
      apply_hunk file h eol = Some (Ok (take (N.to_nat (hunk_start h)) file ++ new ++ left_))
  | None => ∃ e, apply_hunk file h eol = Some (Err e)
  end.
Proof.
  unfold apply_hunk. destruct (N.ltb_spec (N.of_nat (length file)) (hunk_start h)) as [Hlt|Hge].
  { left. split; [done|by eexists]. }
  right. split; [done|].
  set (start := N.to_nat (hunk_start h)) in *. assert (start ≤ length file) as Hs by lia.
  pose proof (match_ops_spec eol file (ops h) (take start file) (drop start file) [] []) as Hm.
  rewrite take_drop, length_take, Nat.min_l in Hm by done. specialize (Hm eq_refl).
  destruct (run_ops eol (ops h) (drop start file)) as [[new left_]|].
  - destruct Hm as (ins & rs & -> & Hf). cbn [try_bind app].
    pose proof (finish_app eol (take start file) (drop start file) ins rs) as Ha.
    rewrite take_drop, length_take, Nat.min_l, Hf in Ha by done. unfold finish in Ha.
    destruct (remove_lines _ _ _) as [[f' i']|]; [|done]. cbn [mbind option_bind] in *.
    rewrite Ha. done.
  - destruct Hm as [e ->]. by eexists.
Qed.

Lemma apply_hunk_total file h eol : is_Some (apply_hunk file h eol).
Proof.
  destruct (apply_hunk_run file h eol) as [(_ & e & ->)|[_ H]]; [by eexists|].
  destruct (run_ops _ _ _) as [[new left_]|]; [rewrite H; by eexists|]. destruct H as [e ->]. by eexists.
Qed.

Lemma apply_hunks_total file hs eol : is_Some (apply_hunks file hs eol).
Proof.
  revert file; induction hs as [|h hs IH]; intros file; cbn [apply_hunks]; [by eexists|].
  destruct (apply_hunk_total file h eol) as [[f|e] ->]; cbn [try_bind]; [apply IH|by eexists].
Qed.

(** ** Scripts

    [applies eol pos l hs l']: the hunks [hs], in the order of the file, read
    disjoint stretches of the lines [l] (the first of which is line [pos]) and
    leave [l']. *)
Inductive applies (eol : str) : nat → list fline → list Hunk → list fline → Prop :=
| applies_nil pos l : applies eol pos l [] l
| applies_cons pos kept old rest h hs new rest' :
    stands_by_format h old (pos + length kept) →
    run_ops eol (ops h) old = Some (new, []) →
    applies eol (pos + length kept + length old) rest hs rest' →
    applies eol pos (kept ++ old ++ rest) (h :: hs) (kept ++ new ++ rest').

Lemma run_ops_more eol ops old new left_ rest :
  run_ops eol ops old = Some (new, left_) → run_ops eol ops (old ++ rest) = Some (new, left_ ++ rest).
Proof.
  revert old new; induction ops as [|[t|t|t] ops IH]; intros old new; cbn [run_ops].
  - by intros [= <- <-].
  - destruct old as [|x old]; [done|]. cbn [app]. case_match; [|done].
    destruct (run_ops eol ops old) as [[n l]|] eqn:E; cbn [mbind option_bind]; [|done].
    intros [= <- <-]. by rewrite (IH _ _ E).
  - destruct old as [|x old]; [done|]. cbn [app]. case_match; [|done]. apply IH.
  - destruct (run_ops eol ops old) as [[n l]|] eqn:E; cbn [mbind option_bind]; [|done].
    intros [= <- <-]. by rewrite (IH _ _ E).
Qed.

Lemma apply_hunks_app file hs hs' eol :
  apply_hunks file (hs ++ hs') eol = (file <-? apply_hunks file hs eol; apply_hunks file hs' eol).
Proof.
  revert file; induction hs as [|h hs IH]; intros file; [done|]. cbn [app apply_hunks].
  destruct (apply_hunk file h eol) as [[f|e]|]; cbn [try_bind]; [apply IH|done..].
Qed.

(** From the last hunk to the first, each hunk still finds its lines in place. *)
Lemma applies_from_end eol pos l hs l' :
  applies eol pos l hs l' →
  ∀ pre, length pre = pos → apply_hunks (pre ++ l) (rev hs) eol = Some (Ok (pre ++ l')).
Proof.
  induction 1 as [pos l|pos kept old rest h hs new rest' Hs Hrun _ IH]; intros pre Hpre; [done|].
  cbn [rev]. rewrite apply_hunks_app.
  replace (pre ++ kept ++ old ++ rest) with ((pre ++ kept ++ old) ++ rest) by by rewrite <- !app_assoc.
  apply stands_format, stands_start in Hs. rewrite IH by (rewrite !length_app; lia). cbn [try_bind apply_hunks].
  replace ((pre ++ kept ++ old) ++ rest') with ((pre ++ kept) ++ old ++ rest') by by rewrite <- !app_assoc.
  destruct (apply_hunk_run ((pre ++ kept) ++ old ++ rest') h eol) as [[Hlt _]|[_ H]].
  { rewrite Hs, !length_app in Hlt. lia. }
  rewrite Hs, Nat2N.id in H. replace (pos + length kept) with (length (pre ++ kept)) in H
    by (rewrite length_app; lia).
  rewrite drop_app_length, take_app_length, (run_ops_more _ _ _ _ _ _ Hrun) in H. rewrite H.
  cbn [try_bind app]. by rewrite <- !app_assoc.
Qed.

(** *** The order of application *)

Definition in_file_order (hs : list Hunk) : Prop := StronglySorted (λ a b, (old_start a ≤ old_start b)%N) hs.

Lemma numbered_sorted n hs :
  in_file_order hs →
  StronglySorted (λ x y, later_first y x) (imap (λ i h, (n + i, h)) hs).
Proof.
  intros Hs. revert n. induction Hs as [|h hs _ IH Hh]; intros n; cbn [imap]; [constructor|].
  constructor.
  - specialize (IH (S n)). replace (imap _ hs) with (imap (λ i h, (S n + i, h)) hs); [exact IH|].
    apply imap_ext. intros i x _. cbn. f_equal. lia.
  - apply Forall_forall. intros [j x] Hin. apply list_elem_of_lookup in Hin as [k Hk].
    rewrite list_lookup_imap in Hk. destruct (hs !! k) as [y|] eqn:Ey; [|done]. cbn in Hk. simplify_eq.
    unfold later_first. cbn. pose proof (Forall_lookup_1 _ _ _ _ Hh Ey) as Hle. cbn in Hle. lia.
Qed.

Lemma StronglySorted_rev {A} (R : A → A → Prop) l :
  StronglySorted (λ x y, R y x) l → StronglySorted R (rev l).
Proof.
  induction 1 as [|x l _ IH Hx]; [constructor|]. cbn [rev].
  apply StronglySorted_app_2; [|done|repeat constructor].
  intros y z Hy Hz. apply list_elem_of_singleton in Hz as ->.
  apply (proj1 (Forall_forall _ _) Hx). by apply list_elem_of_In, in_rev, list_elem_of_In.
Qed.

#[global] Instance later_first_trans : Transitive later_first.
Proof. intros [i x] [j y] [k z]. unfold later_first. cbn. lia. Qed.
#[global] Instance later_first_total : Total later_first.
Proof. intros [i x] [j y]. unfold later_first. cbn. lia. Qed.

Lemma order_hunks_rev hs : in_file_order hs → order_hunks hs = rev hs.
Proof.
  intros Hs. unfold order_hunks. assert (merge_sort later_first (imap pair hs) = rev (imap pair hs)) as ->.
  { apply (StronglySorted_unique_strong later_first).
    - intros [i x] [j y] Hi Hj H1 H2. assert (i = j) as -> by (unfold later_first in *; cbn in *; lia).
      assert (∀ (l : list Hunk) z, (j, z) ∈ imap pair l → l !! j = Some z) as Hl.
      { intros l z Hin. apply list_elem_of_lookup in Hin as [k Hk]. rewrite list_lookup_imap in Hk.
        destruct (l !! k) eqn:E; [|done]. cbn in Hk. by simplify_eq. }
      rewrite merge_sort_Permutation in Hi. apply Hl in Hi.
      apply list_elem_of_In, in_rev, list_elem_of_In in Hj. apply Hl in Hj. congruence.
    - by apply StronglySorted_merge_sort; try apply _.
    - apply StronglySorted_rev, (numbered_sorted 0 hs Hs).
    - rewrite merge_sort_Permutation. apply Permutation_rev. }
  rewrite fmap_rev. f_equal.
  apply list_eq. intros i. rewrite list_lookup_fmap, list_lookup_imap. by destruct (hs !! i).
Qed.

(** ** Printing a patch and reading it back *)

Definition op_line (op : Op) : str :=
  match op with
  | OpContext t => lit " " ++ t
  | OpRemove t => lit "-" ++ t
  | OpAdd t => lit "+" ++ t
  end.
Definition op_text (op : Op) : str := match op with OpContext t | OpRemove t | OpAdd t => t end.
Definition clean_op (op : Op) : Prop := clean_line (op_text op).

(** [@@ -3,2 +3,4 @@]; [counts] is what follows the first number. *)
Definition print_header (n : N) (counts : str) : str :=
  lit "@@ -" ++ digits n ++ lit "," ++ counts ++ lit " @@".
Definition print_hunk (x : str * Hunk) : list str :=
  print_header (old_start x.2) x.1 :: (op_line <$> ops x.2).
Definition print_patch (headers : list str) (hs : list (str * Hunk)) : str :=
  unlines (headers ++ mjoin (print_hunk <$> hs)).

(** The text between the [@@]s after the first comma: anything without another [@@]. *)
Definition clean_counts (counts : str) : Prop :=
  clean_line (counts ++ lit " @@") ∧ ¬ infix_of (lit "@@") (counts ++ lit " @").

Lemma op_line_clean op : clean_op op → clean_line (op_line op).
Proof.
  unfold clean_op, clean_line. intros [Hf Hl]. destruct op as [t|t|t]; cbn [op_line op_text] in *;
    (split; [constructor; [done|exact Hf]|]; destruct t; [done|exact Hl]).
Qed.

Lemma op_line_not_header op : starts_with (op_line op) (lit "@@") = false.
Proof. by destruct op. Qed.

Lemma hunk_line_op h op : hunk_line h (op_line op) = add_op h op.
Proof. by destruct op. Qed.

Lemma parse_loop_ops opl raws hunks h :
  Forall clean_op opl →
  parse_loop ((op_line <$> opl) ++ raws) hunks (Some h) =
  parse_loop raws hunks (Some (mkHunk (old_start h) (ops h ++ opl))).
Proof.
  intros Hc. revert h. induction Hc as [|op opl Hop _ IH]; intros h.
  { rewrite app_nil_r. by destruct h. }
  cbn [fmap list_fmap app parse_loop]. rewrite strip_cr_id by apply (op_line_clean _ Hop).
  rewrite op_line_not_header, hunk_line_op. rewrite IH. cbn. by rewrite <- app_assoc.
Qed.

Lemma until_at_spec s t :
  ¬ infix_of (lit "@@") (s ++ lit "@") → until_at (s ++ lit "@@" ++ t) = s.
Proof.
  change (lit "@@") with [64; 64]%N. change (lit "@") with [64]%N.
  induction s as [|c s IH]; intros Hn; [done|]. cbn [app until_at].
  change (lit "@@") with [64; 64]%N.
  destruct (starts_with (c :: s ++ 64%N :: 64%N :: t) [64; 64]%N) eqn:E.
  - apply starts_with_true in E as [r E]. destruct Hn. cbn in E. injection E as -> E.
    destruct s as [|d s]; [by exists [], []|]. cbn in E. injection E as -> _.
    by exists [], (s ++ [64]%N).
  - f_equal. apply IH. intros (a & b & Eab). apply Hn. exists (c :: a), b. cbn. by rewrite Eab.
Qed.

Lemma digits_word n x : Forall (λ c, is_whitespace c = false) x → Forall (λ c, is_whitespace c = false) (digits n ++ x).
Proof.
  intros Hx. apply Forall_app. split; [|done]. eapply Forall_impl; [apply digits_all|].
  intros c Hc. unfold is_ascii_digit in Hc. boolp. unfold is_whitespace.
  repeat (apply orb_false_iff; split); try (apply N.eqb_neq; lia);
    apply andb_false_iff; first [left; apply N.leb_gt; lia|right; apply N.leb_gt; lia].
Qed.

Lemma split_on_head f (a : str) t : Forall (λ x, f x = false) a →
  head (split_on f (a ++ t)) = Some (a ++ take_while (λ x, negb (f x)) t).
Proof.
  induction 1 as [|x a Hx _ IH]; cbn [app split_on].
  - induction t as [|c t IH]; [done|]. cbn. destruct (f c); cbn; [done|].
    destruct (split_on f t); [done|]. cbn in *. congruence.
  - rewrite Hx. destruct (split_on f (a ++ t)); [done|]. cbn in *. congruence.
Qed.

Lemma no_at_cons c s : c ≠ 64%N → ¬ infix_of [64; 64]%N s → ¬ infix_of [64; 64]%N (c :: s).
Proof.
  intros Hc Hn (a & b & E). destruct a as [|x a]; cbn in E; [by injection E|].
  injection E as -> E. apply Hn. by exists a, b.
Qed.

Lemma no_at_app a s : Forall (λ c, c ≠ 64%N) a → ¬ infix_of [64; 64]%N s → ¬ infix_of [64; 64]%N (a ++ s).
Proof. induction 1; [done|]. intros Hn. apply no_at_cons; auto. Qed.

Lemma split_whitespace_head a t :
  a ≠ [] → Forall (λ c, is_whitespace c = false) a →
  ∃ ws, split_whitespace (a ++ t) = (a ++ take_while (λ c, negb (is_whitespace c)) t) :: ws.
Proof.
  intros Hne Ha. unfold split_whitespace. pose proof (split_on_head is_whitespace a t Ha) as Hh.
  destruct (split_on is_whitespace (a ++ t)) as [|w ws]; [done|]. cbn in Hh. injection Hh as ->.
  rewrite filter_cons_True; [by eexists|]. by destruct a.
Qed.

Lemma parse_print_header n counts :
  (n ≤ usize_max)%N → clean_counts counts → parse_hunk_header (print_header n counts) = Ok n.
Proof.
  intros Hn [_ Hat]. unfold parse_hunk_header, hunk_body, print_header.
  rewrite (proj2 (strip_prefix_Some (lit "@@") _ (lit " -" ++ digits n ++ lit "," ++ counts ++ lit " @@"))) by done.
  replace (lit " -" ++ digits n ++ lit "," ++ counts ++ lit " @@")
    with ((lit " -" ++ digits n ++ lit "," ++ counts ++ lit " ") ++ lit "@@" ++ [])
    by (rewrite <- !app_assoc; done).
  rewrite until_at_spec.
  2:{ replace ((lit " -" ++ digits n ++ lit "," ++ counts ++ lit " ") ++ lit "@")
        with (lit " -" ++ digits n ++ lit "," ++ counts ++ lit " @") by (rewrite <- !app_assoc; done).
      apply no_at_app; [repeat constructor; done|]. apply no_at_app; [apply digits_forall; lia|].
      apply no_at_app; [repeat constructor; done|]. exact Hat. }
  unfold old_hunk_token. change (lit " -") with (lit " " ++ lit "-"). rewrite <- (app_assoc (lit " ")).
  rewrite split_whitespace_skip by (repeat constructor).
  rewrite (app_assoc (digits n)), (app_assoc (lit "-")).
  assert (Forall (λ c, is_whitespace c = false) (lit "-" ++ digits n ++ lit ",")) as Hw.
  { apply Forall_app. split; [repeat constructor|]. apply digits_word. repeat constructor. }
  destruct (split_whitespace_head (lit "-" ++ digits n ++ lit ",") (counts ++ lit " ")) as [ws ->]; [done..|].
  cbn [List.find]. rewrite <- !app_assoc.
  rewrite starts_with_app. unfold trim_start_matches.
  change (lit "-" ++ digits n ++ lit "," ++ take_while (λ c, negb (is_whitespace c)) (counts ++ lit " "))
    with (chr "-" :: digits n ++ lit "," ++ take_while (λ c, negb (is_whitespace c)) (counts ++ lit " ")).
  cbn [drop_while]. change (is_dash (chr "-")) with true. cbn match.
  rewrite drop_while_id.
  2:{ intros c r E. pose proof (digits_forall n (λ c, is_dash c = false)) as Hd.
      destruct (digits n) as [|d ds]; [cbn in E; by injection E as <- _|]. cbn in E. injection E as <- _.
      assert (Forall (λ c, is_dash c = false) (d :: ds)) as Hf; [|by inversion Hf].
      apply Hd. intros c Hc. apply N.eqb_neq. change (chr "-") with 45%N. lia. }
  rewrite split_on_head.
  2:{ apply digits_forall. intros c Hc. apply N.eqb_neq. change (chr ",") with 44%N. lia. }
  change (take_while _ (lit "," ++ _)) with (@nil N). rewrite app_nil_r. cbn [default].
  unfold id. by rewrite parse_uint_digits.
Qed.

Definition clean_hunk (x : str * Hunk) : Prop :=
  clean_counts x.1 ∧ (old_start x.2 ≤ usize_max)%N ∧ Forall clean_op (ops x.2).
Definition clean_header (l : str) : Prop := clean_line l ∧ starts_with l (lit "@@") = false.

Lemma print_header_clean n counts : clean_counts counts → clean_line (print_header n counts).
Proof.
  intros [[Hf Hl] _]. unfold print_header. split.
  - repeat (apply Forall_app; split); [repeat constructor; done|apply digits_forall|repeat constructor; done| |];
      [|by apply Forall_app in Hf as [? _]|by apply Forall_app in Hf as [_ ?]].
    intros c Hc ->. unfold cLF in Hc. lia.
  - rewrite !app_assoc. change (lit " @@") with (lit " @" ++ [64]%N). rewrite app_assoc, last_snoc. done.
Qed.

Lemma print_hunk_clean x : clean_hunk x → Forall clean_line (print_hunk x).
Proof.
  intros (Hc & _ & Ho). constructor; [by apply print_header_clean|].
  apply Forall_fmap. eapply Forall_impl; [exact Ho|]. intros op. apply op_line_clean.
Qed.

Lemma print_header_starts n counts : starts_with (print_header n counts) (lit "@@") = true.
Proof. apply starts_with_true. by eexists. Qed.

Lemma strip_cr_print n counts : clean_counts counts → strip_cr (print_header n counts) = print_header n counts.
Proof. intros Hc. apply strip_cr_id, (print_header_clean n counts Hc). Qed.

Lemma parse_loop_hunks hs done_ cur :
  Forall clean_hunk hs →
  parse_loop (mjoin (print_hunk <$> hs)) done_ cur =
  Ok (match cur with Some h => done_ ++ [h] | None => done_ end ++ (snd <$> hs)).
Proof.
  intros Hc. revert done_ cur. induction Hc as [|x hs (Hcounts & Hn & Hops) _ IH]; intros done_ cur.
  { cbn. by rewrite app_nil_r. }
  change (mjoin (print_hunk <$> x :: hs)) with (print_hunk x ++ mjoin (print_hunk <$> hs)).
  unfold print_hunk at 1. cbn [app parse_loop].
  rewrite strip_cr_print, print_header_starts, parse_print_header by done.
  rewrite parse_loop_ops by done. rewrite IH. cbn [old_start ops app].
  destruct x as [c [o l]]. by rewrite <- app_assoc.
Qed.

(** A printed patch parses to its hunks, whatever headers stand before them. *)
Lemma parse_print_patch headers hs :
  Forall clean_header headers → Forall clean_hunk hs →
  parse_hunks (print_patch headers hs) = Ok (snd <$> hs).
Proof.
  intros Hh Hs. unfold parse_hunks, print_patch. rewrite lines_unlines.
  2:{ apply Forall_app. split; [eapply Forall_impl; [exact Hh|]; by intros l [? _]|].
      induction Hs as [|x hs Hx _ IH]; [constructor|].
      change (mjoin (print_hunk <$> x :: hs)) with (print_hunk x ++ mjoin (print_hunk <$> hs)).
      apply Forall_app. split; [by apply print_hunk_clean|done]. }
  induction Hh as [|l headers [[_ Hl] Hat] _ IH]; cbn [app].
  - rewrite parse_loop_hunks by done. done.
  - cbn [parse_loop]. by rewrite strip_cr_id, Hat.
Qed.

(** Taking a file apart into lines loses nothing. *)
Lemma split_inclusive_join s : mjoin (split_inclusive s) = s.
Proof.
  induction s as [|c s IH]; [done|]. cbn [split_inclusive]. case_match.
  - exact (f_equal (cons c) IH).
  - destruct (split_inclusive s) as [|p ps]; exact (f_equal (cons c) IH).
Qed.

Lemma split_inclusive_pieces s : Forall (λ p, p ≠ []) (split_inclusive s).
Proof.
  induction s as [|c s IH]; [constructor|]. cbn [split_inclusive]. case_match; [by constructor|].
  destruct (split_inclusive s); [by repeat constructor|]. inversion_clear IH. by constructor.
Qed.

Lemma split_end_whole l : (split_end l).1 ++ (split_end l).2 = l.
Proof.
  unfold split_end. destruct (strip_suffix CRLF l) as [t|] eqn:E; [by apply strip_suffix_Some in E|].
  destruct (strip_suffix LF l) as [t|] eqn:E'; [by apply strip_suffix_Some in E'|]. cbn. apply app_nil_r.
Qed.

Lemma render_file_lines s : render (file_lines s) = s.
Proof.
  unfold render, file_lines, pop_empty_split. rewrite bool_decide_eq_false_2.
  - rewrite <- list_fmap_compose. rewrite (list_fmap_ext _ id) by (intros; apply split_end_whole).
    rewrite list_fmap_id. apply split_inclusive_join.
  - intros Hl. apply last_Some in Hl as [l Hl]. pose proof (split_inclusive_pieces s) as HF.
    rewrite Hl in HF. apply Forall_app in HF as [_ HF]. by inversion HF.
Qed.

(** ** The properties *)

Definition eol_of (original : str) : str := if is_crlf original then CRLF else LF.

(** C20: the index arithmetic of [apply_hunk] implements the plain reading of a
    hunk: the lines before the one its header names are kept, context is kept, removals
    are dropped, additions are put where they stand, and the rest of the file follows.
    It fails exactly when that line is behind the end of the file or a context or removed
    line is not the one in the file, and never panics. A hunk that only adds stands
    before the line its header names, one line earlier than the format of patches has
    it. *)
Theorem apply_hunk_refines file h eol :
  match apply_hunk file h eol with
  | None => False
  | Some (Ok file') =>
      ∃ before rest new left_, file = before ++ rest ∧ stands h (length before) ∧
        run_ops eol (ops h) rest = Some (new, left_) ∧ file' = before ++ new ++ left_
  | Some (Err _) => ∀ before rest, file = before ++ rest → stands h (length before) → run_ops eol (ops h) rest = None
  end.
Proof.
  assert (∀ before rest, file = before ++ rest → stands h (length before) →
    (hunk_start h ≤ N.of_nat (length file))%N ∧ drop (N.to_nat (hunk_start h)) file = rest) as Hstart.
  { intros before rest -> ->%stands_start. rewrite Nat2N.id, drop_app_length, length_app. split; [lia|done]. }
  destruct (apply_hunk_run file h eol) as [(Hlt & e & ->)|[Hle H]].
  - intros before rest E Hs. destruct (Hstart before rest E Hs). lia.
  - destruct (run_ops _ _ _) as [[new left_]|] eqn:E.
    + rewrite H. exists (take (N.to_nat (hunk_start h)) file), (drop (N.to_nat (hunk_start h)) file), new, left_.
      split_and!; [by rewrite take_drop| |done..]. apply stands_start. rewrite length_take. lia.
    + destruct H as [e ->]. intros before rest Ef Hs. by destruct (Hstart before rest Ef Hs) as [_ <-].
Qed.

(** Applying a patch never panics: no [remove], [insert] or slice is out of
    range, for any file and any patch text. *)
Theorem apply_unified_diff_total original patch : apply_unified_diff original patch ≠ None.
Proof.
  apply not_eq_None_Some. unfold apply_unified_diff. destruct (parse_hunks patch) as [hs|e]; cbn [try_bind]; [|by eexists].
  destruct (require_hunks hs); cbn [try_bind]; [|by eexists].
  destruct (apply_hunks_total (file_lines original) (order_hunks hs) (if is_crlf original then CRLF else LF))
    as [[f|e] ->]; by eexists.
Qed.

(** C19: a patch printed from a script of hunks in file order does to the file
    what the script says: parsing gives the hunks back, applying them from the
    last to the first leaves every hunk's lines in place until its turn, and all
    lines outside the hunks are kept byte for byte. A hunk stands where the format of
    patches says, and one that only adds lines stands at the top of the file. *)
Theorem printed_patch_applies original headers hs file' :
  hs ≠ [] → Forall clean_header headers → Forall clean_hunk hs → in_file_order (snd <$> hs) →
  applies (eol_of original) 0 (file_lines original) (snd <$> hs) file' →
  render (file_lines original) = original ∧
  apply_unified_diff original (print_patch headers hs) = Some (Ok (render file')).
Proof.
  intros Hne Hh Hs Hord Ha. split; [apply render_file_lines|].
  unfold apply_unified_diff. rewrite parse_print_patch by done. cbn [try_bind].
  assert (require_hunks (snd <$> hs) = Ok tt) as -> by by destruct hs. cbn [try_bind].
  rewrite order_hunks_rev by done. fold (eol_of original).
  pose proof (applies_from_end _ _ _ _ _ Ha [] eq_refl) as H. cbn [app] in H. by rewrite H.
Qed.

Section files.
Context {World : Type} `{!PatchEnv World}.

(** One file of the patch, from its target to its report. *)
Definition patch_one (w : World) (working_dir explicit : str) (file : FilePatch) : option (result str * World) :=
  match resolve_target working_dir explicit (header_path file) with
  | Err msg => Some (Err msg, w)
  | Ok full_path =>
      let '(checked, w) := check_file_write w full_path in
      match checked with
      | Err msg => Some (Err msg, w)
      | Ok _ => apply_to_file w full_path (display_path full_path working_dir) (body file)
      end
  end.

(** The files [pre] are patched one after the other, with these reports. *)
Inductive patched (working_dir explicit : str) : World → list FilePatch → list str → World → Prop :=
| patched_nil w : patched working_dir explicit w [] [] w
| patched_cons w f fs content rs w1 w2 :
    patch_one w working_dir explicit f = Some (Ok content, w1) →
    patched working_dir explicit w1 fs rs w2 →
    patched working_dir explicit w (f :: fs) (content :: rs) w2.

Lemma apply_files_cons w wd ex f fs reports :
  apply_files w wd ex (f :: fs) reports =
  '(res, w1) ← patch_one w wd ex f;
  match res with Err e => Some (Err e, w1) | Ok content => apply_files w1 wd ex fs (reports ++ [content]) end.
Proof.
  cbn [apply_files]. unfold patch_one. destruct (resolve_target _ _ _) as [p|e]; [|done].
  destruct (check_file_write w p) as [[u|e] w1]; done.
Qed.

Lemma patch_one_total w wd ex f : is_Some (patch_one w wd ex f).
Proof.
  unfold patch_one. repeat case_match; try by eexists. unfold apply_to_file.
  destruct (read_to_string _ _) as [original|e]; [|by eexists].
  destruct (apply_unified_diff original (body f)) as [[m|e]|] eqn:E.
  - cbn. destruct (write_atomic _ _ _). by eexists.
  - by eexists.
  - by apply apply_unified_diff_total in E.
Qed.

(** A patch of several files is applied file by file: either all are patched
    and the reports joined, or the first failure is the result, and then the
    files before it are already written and the files after it untouched. The
    tool is not atomic over the files of a patch. *)
Theorem apply_files_sequential (w : World) wd ex files :
  (∃ rs w', patched wd ex w files rs w' ∧
     apply_files w wd ex files [] = Some (Ok (join LF rs), w')) ∨
  (∃ pre f post rs w1 e w', files = pre ++ f :: post ∧ patched wd ex w pre rs w1 ∧
     patch_one w1 wd ex f = Some (Err e, w') ∧ apply_files w wd ex files [] = Some (Err e, w')).
Proof.
  enough (∀ reports, (∃ rs w', patched wd ex w files rs w' ∧
     apply_files w wd ex files reports = Some (Ok (join LF (reports ++ rs)), w')) ∨
    (∃ pre f post rs w1 e w', files = pre ++ f :: post ∧ patched wd ex w pre rs w1 ∧
     patch_one w1 wd ex f = Some (Err e, w') ∧ apply_files w wd ex files reports = Some (Err e, w'))) as H
    by apply (H []).
  revert w; induction files as [|f files IH]; intros w reports.
  { left. exists [], w. split; [constructor|]. by rewrite app_nil_r. }
  rewrite apply_files_cons. destruct (patch_one_total w wd ex f) as [[res w1] E]. rewrite E.
  cbn [mbind option_bind]. destruct res as [content|e].
  - destruct (IH w1 (reports ++ [content])) as [(rs & w' & Hp & Ha)|(pre & g & post & rs & w2 & e & w' & -> & Hp & Hg & Ha)].
    + left. exists (content :: rs), w'. rewrite <- app_assoc in Ha. split; [by econstructor|exact Ha].
    + right. exists (f :: pre), g, post, (content :: rs), w2, e, w'. split_and!; [done|by econstructor|done|done].
  - right. exists [], f, files, [], w, e, w1. split_and!; [done|constructor|done|done].
Qed.
End files.

(** ** Instances *)

Definition text (ls : list string) : str := unlines (lit <$> ls).
Arguments text _%_list_scope.

Definition ctx (t : string) : Op := OpContext (lit t).
Definition rem (t : string) : Op := OpRemove (lit t).
Definition add (t : string) : Op := OpAdd (lit t).
Arguments ctx _%_string.
Arguments rem _%_string.
Arguments add _%_string.

Definition script_ex : list (str * Hunk) :=
  [(lit "2 +1,2", mkHunk 1 [ctx "a"; rem "b"; add "B"]); (lit "1 +4,2", mkHunk 4 [ctx "d"; add "e"])].

Lemma printed_patch_applies_witness :
  let original := text ["a"; "b"; "c"; "d"]%string in
  let file' := file_lines (text ["a"; "B"; "c"; "d"; "e"]%string) in
  render (file_lines original) = original ∧
  apply_unified_diff original (print_patch [lit "--- a/x"; lit "+++ b/x"] script_ex) = Some (Ok (render file')).
Proof.
  apply (printed_patch_applies (text ["a"; "b"; "c"; "d"]%string) [lit "--- a/x"; lit "+++ b/x"] script_ex).
  - discriminate.
  - repeat constructor; vm_compute; congruence.
  - assert (∀ s : str, infix_of (lit "@@") s → contains s (lit "@@") = true) as Hc by (intros; by apply contains_true).
    repeat constructor; try (vm_compute; congruence); intros Hi%Hc; vm_compute in Hi; discriminate.
  - repeat constructor; vm_compute; congruence.
  - assert (file_lines (text ["a"; "b"; "c"; "d"]%string) =
      [] ++ [(lit "a", LF); (lit "b", LF)] ++ [(lit "c", LF)] ++ [(lit "d", LF)] ++ []) as -> by reflexivity.
    assert (file_lines (text ["a"; "B"; "c"; "d"; "e"]%string) =
      [] ++ [(lit "a", LF); (lit "B", LF)] ++ [(lit "c", LF)] ++ [(lit "d", LF); (lit "e", LF)] ++ []) as -> by reflexivity.
    apply applies_cons; [reflexivity|reflexivity|].
    apply applies_cons; [reflexivity|reflexivity|]. apply applies_nil.
Defined.

(** A file system that always writes. *)
#[global] Instance map_env : PatchEnv (gmap str str) := {
  read_to_string w p := match w !! p with Some s => Ok s | None => Err (lit "not found") end;
  write_atomic w p s := (Ok tt, <[p := s]> w);
  check_file_write w _ := (Ok tt, w) }.

Definition diff_of (path : string) (hunk : list string) : str :=
  unlines ((lit "diff --git a/" ++ lit path ++ lit " b/" ++ lit path) :: (lit <$> hunk)).
Arguments diff_of _%_string _%_list_scope.

(** The first file is written although the patch fails on the second. *)
Example partial_write :
  let w : gmap str str := <[lit "/w/x" := text ["a"]%string]> (<[lit "/w/y" := text ["b"]%string]> ∅) in
  match apply_files w (lit "/w") [] (split_patch_files
    (diff_of "x" ["@@ -1 +1 @@"; "-a"; "+A"]%string ++ diff_of "y" ["@@ -1 +1 @@"; "-z"; "+Z"]%string)) [] with
  | Some (Err _, w') => w' !! lit "/w/x" = Some (text ["A"]%string)
  | _ => False
  end.
Proof. vm_compute. reflexivity. Qed.

(** Readings of patches that differ from the usual ones. *)
Example empty_range_one_line_early :
  apply_unified_diff (text ["a"; "b"; "c"]%string) (text ["@@ -2,0 +3 @@"; "+X"]%string) =
  Some (Ok (text ["a"; "X"; "b"; "c"]%string)).
Proof. vm_compute. reflexivity. Qed.
Example no_final_newline_glued :
  apply_unified_diff (lit "c") (text ["@@ -1 +1,2 @@"; " c"; "+X"]%string) = Some (Ok (lit "cX" ++ LF)).
Proof. vm_compute. reflexivity. Qed.
Example directory_b_dropped :
  (header_path <$> split_patch_files (text ["+++ b/b/x.rs"; "@@ -1 +1 @@"; "-a"; "+c"]%string)) = [Some (lit "x.rs")].
Proof. vm_compute. reflexivity. Qed.
Example added_plus_line_renames :
  (header_path <$> split_patch_files (text ["+++ b/x.c"; "@@ -1 +1 @@"; "-a"; "+++ i;"]%string)) = [Some (lit "i;")].
Proof. vm_compute. reflexivity. Qed.
Example two_files_without_git_headers :
  (header_path <$> split_patch_files (text
    ["--- a/x"; "+++ b/x"; "@@ -1 +1 @@"; "-a"; "+c"; "--- a/y"; "+++ b/y"; "@@ -1 +1 @@"; "-a"; "+c"]%string))
  = [Some (lit "y")].
Proof. vm_compute. reflexivity. Qed.
