(* ===== verification/Harmony.v ===== *)
(** [core/src/harmony.rs]: detection of leaked Harmony protocol text, its
    escaping on replay, and the recovery of a patch whose tail is a leak. Byte
    offsets are kept; a slice off a character boundary panics ([None]). *)

From S2P Require Import Prelude RustStr Bytes.

Definition MARKER : str := lit "to=functions.".
Definition CHANNEL_WORDS : list string := ["analysis"; "commentary"; "assistant"; "user"]%string.
Definition GLITCH_SURFACES : list str :=
  [lit "SolidGoldMagikarp"; lit "davidjl"; lit "TheNitromeFan"; lit "Smartling";
   lit "rawdownloadcloneembedreportprint"; [57344%N]].
Definition FAKE_RESULT : list string := ["code_output"; "Cell 0:"; "Cell 1:"; "Cell 2:"]%string.
Definition SPECIAL_TOKENS : list string := ["<|start|>"; "<|channel|>"; "<|message|>"; "<|call|>"]%string.

(** ** Escaping *)

(** One turn of the loop of [escape_replay]. The slice [tok[2..tok.len() - 2]]
    of an ASCII token is its inner characters. *)
Definition token_inner (tok : str) : str := drop 2 (take (length tok - 2) tok).
Definition escape_token (out tok : str) : str :=
  if contains out tok then replace out tok (lit "< " ++ token_inner tok ++ lit " >") else out.
Definition escape_replay (text : str) : str := foldl escape_token text (lit <$> SPECIAL_TOKENS).

(** ** Scanning *)

Inductive CoSignal :=
| ChannelAdjacency | GlitchToken | NonLatinJunk | Cascade | FakeResultFraming | TrustedBoundary.
Record Hit := mkHit { hit_at : nat; co_signal : CoSignal }.

Definition co_signal_str (c : CoSignal) : str :=
  match c with
  | ChannelAdjacency => lit "channel-adjacency"
  | GlitchToken => lit "glitch-token"
  | NonLatinJunk => lit "non-latin-junk"
  | Cascade => lit "cascade"
  | FakeResultFraming => lit "fake-result-framing"
  | TrustedBoundary => lit "trusted-boundary"
  end.
Definition summary (h : Hit) : str :=
  lit "Harmony protocol leak at byte " ++ digits (N.of_nat (hit_at h)) ++ lit " ("
  ++ co_signal_str (co_signal h) ++ lit ")".

Definition channel_adjacent (text : str) (at_ : nat) : option bool :=
  before ← slice_to text at_;
  let prefix := trim_end before in
  Some (existsb (λ w, match strip_suffix (lit w) prefix with
                      | None => false
                      | Some rest =>
                          match last rest with
                          | None => true
                          | Some c => negb (is_ascii_alphanumeric c) && negb (c =? chr "_")%N
                          end
                      end) CHANNEL_WORDS).

Definition glitch_near (text : str) (at_ : nat) : option bool :=
  window ← slice text (at_ - 80) at_;
  Some (existsb (contains window) GLITCH_SURFACES).

Definition fake_result_after (text : str) (at_ : nat) : option bool :=
  window ← slice text at_ (Nat.min (at_ + 240) (byte_len text));
  Some (existsb (λ f, contains window (lit f)) FAKE_RESULT).

Definition is_non_latin_junk (u : rchar) : bool :=
  ((0x0400 <=? u) && (u <=? 0x04FF) || (0x0E00 <=? u) && (u <=? 0x0E7F)
   || (0x10A0 <=? u) && (u <=? 0x10FF) || (0x2E80 <=? u) && (u <=? 0x9FFF)
   || (0xAC00 <=? u) && (u <=? 0xD7AF) || (0xF900 <=? u) && (u <=? 0xFAFF))%N.

Fixpoint junk_loop (chars : str) (run : nat) : bool :=
  match chars with
  | [] => false
  | ch :: r =>
      if is_non_latin_junk ch then if 8 <=? run + 1 then true else junk_loop r (run + 1)
      else if negb (is_ascii_whitespace ch) then junk_loop r 0 else junk_loop r run
  end.
Definition non_latin_after (text : str) (at_ : nat) : option bool :=
  after ← slice_from text at_; Some (junk_loop (take 160 after) 0).

Definition fenced (before : str) : bool := Nat.odd (count_matches before (lit "```")).

Fixpoint count_unescaped (s : str) (quote : rchar) (n : nat) (escaped : bool) : nat :=
  match s with
  | [] => n
  | ch :: r =>
      if escaped then count_unescaped r quote n false
      else if (ch =? cBS)%N then count_unescaped r quote n true
      else count_unescaped r quote (if (ch =? quote)%N then n + 1 else n) false
  end.
Definition odd_unescaped (s : str) (quote : rchar) : bool := Nat.odd (count_unescaped s quote 0 false).
Definition quoted (before : str) : bool := odd_unescaped before cDQ || odd_unescaped before cBT.
Definition in_fence_or_quote (text : str) (at_ : nat) : option bool :=
  before ← slice_to text at_; Some (fenced before || quoted before).

Definition classify_marker (text : str) (at_ marker_count : nat) (trusted_end : option nat)
  : option (option Hit) :=
  if 2 <=? marker_count then Some (Some (mkHit at_ Cascade))
  else
    channel ← channel_adjacent text at_;
    if (channel : bool) then Some (Some (mkHit at_ ChannelAdjacency))
    else
      glitch ← glitch_near text at_;
      if (glitch : bool) then Some (Some (mkHit at_ GlitchToken))
      else
        fake ← fake_result_after text at_;
        if (fake : bool) then Some (Some (mkHit at_ FakeResultFraming))
        else
          junk ← non_latin_after text at_;
          if (junk : bool) then Some (Some (mkHit at_ NonLatinJunk))
          else
            match trusted_end with
            | Some end_ => if end_ <=? at_ then Some (Some (mkHit at_ TrustedBoundary)) else Some None
            | None => Some None
            end.

(** The loop; every turn passes a marker, so [S (byte_len text)] turns are enough. *)
Fixpoint scan_loop (fuel : nat) (text : str) (trusted_end : option nat) (search_from marker_count : nat)
  : option (option Hit) :=
  match fuel with
  | O => None
  | S k =>
      tail ← slice_from text search_from;
      match find tail MARKER with
      | None => Some None
      | Some rel =>
          let at_ := search_from + rel in
          let search_from := at_ + byte_len MARKER in
          inside ← in_fence_or_quote text at_;
          if (inside : bool) then scan_loop k text trusted_end search_from marker_count
          else
            hit ← classify_marker text at_ (marker_count + 1) trusted_end;
            match hit with
            | Some h => Some (Some h)
            | None => scan_loop k text trusted_end search_from (marker_count + 1)
            end
      end
  end.
Definition scan_text_with_boundary (text : str) (trusted_end : option nat) : option (option Hit) :=
  scan_loop (S (byte_len text)) text trusted_end 0 0.
Definition scan_text (text : str) : option (option Hit) := scan_text_with_boundary text None.

(** ** Recovering a patch *)

(** [patch.rmatch_indices(p).next()]: the last occurrence. *)
Fixpoint rfind_str_go (p s : str) (i : nat) (acc : option nat) : option nat :=
  let acc := if starts_with s p then Some i else acc in
  match s with [] => acc | c :: r => rfind_str_go p r (i + len_utf8 c) acc end.
Definition rfind_str (s p : str) : option nat := rfind_str_go p s 0 None.

Definition last_hunk_start (patch : str) : option nat :=
  match rfind_str patch (cLF :: lit "@@") with
  | Some i => Some (i + 1)
  | None => if starts_with patch (lit "@@") then Some 0 else None
  end.

Definition line_start_of (text : str) (at_ : nat) : option nat :=
  before ← slice_to text at_;
  Some (match rfind_char before cLF with Some i => i + 1 | None => 0 end).
Definition truncate_at_line (text : str) (at_ : nat) : option str :=
  line_start ← line_start_of text at_; slice_to text line_start.

Definition leak_is_after_last_hunk (patch : str) (at_ : nat) : option bool :=
  match last_hunk_start patch with
  | None => Some false
  | Some hunk =>
      if at_ <? hunk then Some false
      else
        line_start ← line_start_of patch at_;
        line ← slice patch line_start at_;
        Some (negb match head line with
                   | Some c => (c =? chr "+")%N || (c =? chr "-")%N || (c =? chr " ")%N
                   | None => false
                   end)
  end.

(** ** Escaping leaves no special token *)

Lemma replace_no_infix (from to s : str) :
  from ≠ [] → (∀ a b, infix_of from (a ++ to ++ b) → infix_of from a ∨ infix_of from b) →
  ¬ infix_of from (replace s from to).
Proof.
  intros Hf Hto. unfold replace. induction s as [s IH] using (induction_ltof1 _ (@length N)).
  destruct (contains s from) eqn:E.
  - apply contains_true in E. destruct (infix_first _ _ E) as (a & b & -> & Hm).
    rewrite replace_go_first by done. intros [(u & v & ->)|Hb]%Hto.
    + specialize (Hm u (v ++ from ++ b)). rewrite <- !app_assoc in Hm. specialize (Hm eq_refl).
      rewrite !length_app in Hm. destruct from; [done|]. cbn in Hm. lia.
    + revert Hb. apply IH. unfold ltof. rewrite !length_app. destruct from; [done|cbn; lia].
  - rewrite replace_go_none; rewrite <- contains_true; congruence.
Qed.

Lemma infix_of_app_r {A} (k a b : list A) : infix_of k b → infix_of k (a ++ b).
Proof. intros (u & v & ->). exists (a ++ u), v. by rewrite <- app_assoc. Qed.
Lemma infix_of_app_l {A} (k a b : list A) : infix_of k a → infix_of k (a ++ b).
Proof. intros (u & v & ->). exists u, (v ++ b). by rewrite <- !app_assoc. Qed.

(** Replacing introduces no other text that the new piece does not touch. *)
Lemma replace_infix (from to tok s : str) :
  from ≠ [] → (∀ a b, infix_of tok (a ++ to ++ b) → infix_of tok a ∨ infix_of tok b) →
  infix_of tok (replace s from to) → infix_of tok s.
Proof.
  intros Hf Hto. unfold replace. induction s as [s IH] using (induction_ltof1 _ (@length N)).
  destruct (contains s from) eqn:E.
  - apply contains_true in E. destruct (infix_first _ _ E) as (a & b & -> & Hm).
    rewrite replace_go_first by done. intros [Ha|Hb]%Hto.
    + by apply infix_of_app_l.
    + apply infix_of_app_r, infix_of_app_r, IH; [|done].
      unfold ltof. rewrite !length_app. destruct from; [done|cbn; lia].
  - rewrite replace_go_none; [done|]. rewrite <- contains_true. congruence.
Qed.

(** An infix without [c] lies on one side of [c]. *)
Lemma infix_split (k a b : str) c : c ∉ k → infix_of k (a ++ c :: b) → infix_of k a ∨ infix_of k b.
Proof.
  intros Hc (u & v & E). destruct (decide (length (u ++ k) ≤ length a)) as [Hl|Hl].
  - left. apply (f_equal (take (length a))) in E. rewrite take_app_length, app_assoc, take_app_ge in E by done.
    rewrite E. exists u, (take (length a - length (u ++ k)) v). by rewrite <- app_assoc.
  - right. destruct (decide (length u ≤ length a)) as [Hu|Hu].
    + exfalso. apply Hc. apply list_elem_of_lookup. exists (length a - length u).
      assert ((a ++ c :: b) !! length a = Some c) as Hk by (rewrite lookup_app_r, Nat.sub_diag; done).
      rewrite E in Hk. rewrite lookup_app_r in Hk by done.
      rewrite length_app in Hl. rewrite lookup_app_l in Hk by lia. done.
    + apply (f_equal (drop (S (length a)))) in E.
      assert (drop (S (length a)) (a ++ c :: b) = b) as Hd.
      { rewrite cons_middle, app_assoc. apply drop_app_length'. rewrite length_app. cbn. lia. }
      rewrite Hd in E.
      rewrite drop_app_le in E by lia. rewrite E. by eexists _, v.
Qed.

(** The replacement [< name >] touches no token [<|...|>]. *)
Lemma escaped_apart (tok mid : str) :
  tok ∈ (lit <$> SPECIAL_TOKENS) → length mid < length tok →
  ∀ a b, infix_of tok (a ++ (lit "< " ++ mid ++ lit " >") ++ b) → infix_of tok a ∨ infix_of tok b.
Proof.
  intros Htok Hmid a b.
  assert (∃ t, tok = 60%N :: t ++ [62%N] ∧ 32%N ∉ tok ∧ 60%N ∉ t ++ [62%N]) as (t & Et & Hsp & Hlt).
  { unfold SPECIAL_TOKENS in Htok. repeat (apply elem_of_cons in Htok as [->|Htok]); [| | | |by apply elem_of_nil in Htok];
      [exists (lit "|start|")|exists (lit "|channel|")|exists (lit "|message|")|exists (lit "|call|")];
      (split_and!; [reflexivity|..]; apply (bool_decide_unpack _); vm_compute; exact I). }
  replace (a ++ (lit "< " ++ mid ++ lit " >") ++ b) with ((a ++ [60%N]) ++ 32%N :: (mid ++ 32%N :: [62%N] ++ b))
    by (rewrite <- !app_assoc; done).
  intros [(u & v & E)|[Hm|(u & v & E)]%(infix_split _ _ _ _ Hsp)]%(infix_split _ _ _ _ Hsp).
  - left. destruct v as [|x v] using rev_ind.
    + rewrite app_nil_r, Et in E. change (60%N :: t ++ [62%N]) with ((60%N :: t) ++ [62%N]) in E.
      rewrite app_assoc in E. apply app_inj_tail in E as [_ E]. done.
    + rewrite !app_assoc in E. apply app_inj_tail in E as [-> _]. exists u, v. by rewrite <- app_assoc.
  - apply infix_of_length in Hm. lia.
  - right. destruct u as [|x u]; [rewrite Et in E; done|]. injection E as _ ->. by exists u, v.
Qed.

Lemma token_inner_length tok : length (token_inner tok) ≤ length tok - 4.
Proof. unfold token_inner. rewrite length_drop, length_take. lia. Qed.

Lemma special_nonempty tok : tok ∈ (lit <$> SPECIAL_TOKENS) → 4 < length tok.
Proof.
  unfold SPECIAL_TOKENS. intros Htok.
  repeat (apply elem_of_cons in Htok as [->|Htok]; [vm_compute; lia|]). by apply elem_of_nil in Htok.
Qed.

Lemma escape_token_gone out tok :
  tok ∈ (lit <$> SPECIAL_TOKENS) → ¬ infix_of tok (escape_token out tok).
Proof.
  intros Htok. pose proof (special_nonempty _ Htok). unfold escape_token.
  destruct (contains out tok) eqn:E; [|rewrite <- contains_true; congruence].
  apply replace_no_infix; [intros ->; cbn in *; lia|].
  apply escaped_apart; [done|]. pose proof (token_inner_length tok). lia.
Qed.

(** The replaced middle is a word without [<], so it holds no token either. *)
Lemma escaped_apart_inner tok tok' a b :
  tok ∈ (lit <$> SPECIAL_TOKENS) → tok' ∈ (lit <$> SPECIAL_TOKENS) →
  infix_of tok (a ++ (lit "< " ++ token_inner tok' ++ lit " >") ++ b) → infix_of tok a ∨ infix_of tok b.
Proof.
  intros Htok Htok' Hin. destruct (decide (length (token_inner tok') < length tok)) as [Hl|Hl].
  - by apply (escaped_apart tok (token_inner tok')) in Hin.
  - exfalso. apply Hl. clear Hin Hl.
    unfold SPECIAL_TOKENS in *.
    repeat (apply elem_of_cons in Htok as [->|Htok]); [| | | |by apply elem_of_nil in Htok];
      (repeat (apply elem_of_cons in Htok' as [->|Htok']; [vm_compute; lia|]); by apply elem_of_nil in Htok').
Qed.

Lemma escape_token_keeps out tok tok' :
  tok ∈ (lit <$> SPECIAL_TOKENS) → tok' ∈ (lit <$> SPECIAL_TOKENS) →
  ¬ infix_of tok out → ¬ infix_of tok (escape_token out tok').
Proof.
  intros Htok Htok' Hn. unfold escape_token. destruct (contains out tok'); [|done].
  pose proof (special_nonempty _ Htok'). contradict Hn.
  eapply replace_infix; [| |exact Hn]; [intros ->; cbn in *; lia|]. intros a b. by apply escaped_apart_inner.
Qed.

(** After escaping, no reserved spelling is left in the text, so a tool
    result replayed to the model carries no routing token; and text without
    them is passed on unchanged. *)
Theorem escape_replay_neutralizes text :
  (∀ tok, tok ∈ SPECIAL_TOKENS → ¬ infix_of (lit tok) (escape_replay text)) ∧
  ((∀ tok, tok ∈ SPECIAL_TOKENS → ¬ infix_of (lit tok) text) → escape_replay text = text).
Proof.
  split.
  - intros tok Htok. assert (lit tok ∈ (lit <$> SPECIAL_TOKENS)) as Hin by by apply list_elem_of_fmap_2.
    unfold escape_replay.
    assert (∀ toks out, toks ⊆ (lit <$> SPECIAL_TOKENS) → lit tok ∈ toks ∨ ¬ infix_of (lit tok) out →
      ¬ infix_of (lit tok) (foldl escape_token out toks)) as H.
    { induction toks as [|t toks IH]; intros out Hsub [Ht|Hn]; cbn [foldl].
      - by apply elem_of_nil in Ht.
      - done.
      - apply IH; [set_solver|]. apply elem_of_cons in Ht as [<-|Ht]; [|by left].
        right. by apply escape_token_gone.
      - apply IH; [set_solver|]. right. apply escape_token_keeps; [done| |done]. set_solver. }
    apply H; [done|by left].
  - intros Hn. unfold escape_replay.
    assert (∀ toks, toks ⊆ SPECIAL_TOKENS → foldl escape_token text (lit <$> toks) = text) as H.
    { induction toks as [|t toks IH]; intros Hsub; [done|]. cbn [foldl fmap list_fmap].
      unfold escape_token at 2. destruct (contains text (lit t)) eqn:E.
      - apply contains_true in E. destruct (Hn t); [set_solver|done].
      - apply IH. set_solver. }
    by apply H.
Qed.

(** ** Scanning *)

Lemma slice_None_off s i j : is_char_boundary s i = false → slice s i j = None.
Proof.
  intros Hb. destruct (slice s i j) as [m|] eqn:E; [|done].
  apply slice_Some in E as (p & q & -> & Hp & _).
  assert (is_char_boundary (p ++ m ++ q) i = true) by (apply is_char_boundary_true; eauto). congruence.
Qed.

Lemma marker_length : byte_len MARKER = 13.
Proof. reflexivity. Qed.

(** A hit is a marker that stands outside fences and quotes. *)
Lemma scan_loop_hit fuel te p r n h :
  scan_loop fuel (p ++ r) te (byte_len p) n = Some (Some h) →
  ∃ a b, p ++ r = a ++ MARKER ++ b ∧ hit_at h = byte_len a ∧ fenced a = false ∧ quoted a = false.
Proof.
  revert p r n; induction fuel as [|k IH]; intros p r n; [done|]. cbn [scan_loop].
  rewrite slice_from_app. cbn [mbind option_bind]. destruct (find r MARKER) as [rel|] eqn:E; [|done].
  apply find_Some in E as (a & b & -> & -> & _).
  rewrite <- byte_len_app, app_assoc. unfold in_fence_or_quote. rewrite slice_to_app. cbn [mbind option_bind].
  assert (∀ m, scan_loop k ((p ++ a) ++ MARKER ++ b) te (byte_len (p ++ a) + byte_len MARKER) m = Some (Some h) →
    ∃ a' b', (p ++ a) ++ MARKER ++ b = a' ++ MARKER ++ b' ∧ hit_at h = byte_len a' ∧
      fenced a' = false ∧ quoted a' = false) as Hnext.
  { intros m Hm. destruct (IH ((p ++ a) ++ MARKER) b m) as (a' & b' & Eab & Hrest).
    - rewrite byte_len_app, <- app_assoc. exact Hm.
    - exists a', b'. by rewrite <- app_assoc in Eab. }
  destruct (fenced (p ++ a) || quoted (p ++ a)) eqn:Ef; [apply Hnext|]. apply orb_false_iff in Ef as [Ef Eq].
  destruct (classify_marker _ _ _ _) as [[h'|]|] eqn:Ec; cbn [mbind option_bind]; [|apply Hnext|done].
  intros [= ->]. exists (p ++ a), b. split_and!; [done| |done..].
  unfold classify_marker in Ec.
  repeat match type of Ec with
  | context [match ?x with _ => _ end] =>
      lazymatch x with
      | context [match _ with _ => _ end] => fail
      | _ => destruct x
      end
  | context [mbind _ ?x] => destruct x; cbn [mbind option_bind] in Ec
  end; by simplify_eq.
Qed.

Lemma scan_text_hit text te h :
  scan_text_with_boundary text te = Some (Some h) →
  ∃ a b, text = a ++ MARKER ++ b ∧ hit_at h = byte_len a ∧ fenced a = false ∧ quoted a = false.
Proof. apply (scan_loop_hit _ te [] text 0). Qed.

(** Scanning panics on some texts with multi-byte characters. When the first
    marker of a text is unquoted and has no channel word before it, and the byte
    80 places before the marker is inside a character, the window taken there
    is no slice. *)
Theorem scan_text_panics_off_boundary te a b :
  (∀ a' b', a ++ MARKER ++ b = a' ++ MARKER ++ b' → length a ≤ length a') →
  fenced a || quoted a = false →
  channel_adjacent (a ++ MARKER ++ b) (byte_len a) = Some false →
  is_char_boundary (a ++ MARKER ++ b) (byte_len a - 80) = false →
  scan_text_with_boundary (a ++ MARKER ++ b) te = None.
Proof.
  intros Hfirst Hq Hc Hb. unfold scan_text_with_boundary. cbn [scan_loop].
  pose proof (slice_from_app [] (a ++ MARKER ++ b)) as H0. rewrite byte_len_nil in H0.
  cbn [app] in H0. rewrite H0.
  cbn [mbind option_bind].
  rewrite (proj2 (find_Some (a ++ MARKER ++ b) MARKER (byte_len a))) by (exists a, b; done).
  cbn [Nat.add]. unfold in_fence_or_quote. rewrite slice_to_app. cbn [mbind option_bind]. rewrite Hq.
  unfold classify_marker. change (2 <=? 0 + 1) with false. cbv iota. rewrite Hc. cbn [mbind option_bind].
  unfold glitch_near. by rewrite (slice_None_off _ _ _ Hb).
Qed.

(** Text of ASCII characters only is scanned without a panic. *)
Lemma ascii_boundary s i : Forall (λ c, (c < 128)%N) s → i ≤ length s → is_char_boundary s i = true.
Proof.
  intros Hs Hi. apply is_char_boundary_true. exists (take i s), (drop i s). split; [by rewrite take_drop|].
  assert (∀ t, Forall (λ c, (c < 128)%N) t → byte_len t = length t) as Hlen.
  { induction 1 as [|c t Hc _ IH]; [done|]. rewrite byte_len_cons, len_utf8_ascii by done. by rewrite IH. }
  rewrite Hlen by by apply Forall_take. rewrite length_take. lia.
Qed.

Section ascii.
Context (te : option nat).

Lemma classify_marker_total a b n :
  Forall (λ c, (c < 128)%N) (a ++ MARKER ++ b) → is_Some (classify_marker (a ++ MARKER ++ b) (byte_len a) n te).
Proof.
  intros Ha. pose proof (ascii_byte_len _ Ha) as Hl.
  assert (∀ i, i ≤ byte_len (a ++ MARKER ++ b) → is_char_boundary (a ++ MARKER ++ b) i = true) as Hb
    by (intros; apply ascii_boundary; [done|lia]).
  unfold classify_marker, channel_adjacent, glitch_near, fake_result_after, non_latin_after.
  case_match; [by eexists|]. rewrite slice_to_app. cbn [mbind option_bind]. case_match; [by eexists|].
  destruct (slice_boundaries (a ++ MARKER ++ b) (byte_len a - 80) (byte_len a)) as [w ->];
    [apply Hb; blia|apply Hb; blia|lia|].
  cbn [mbind option_bind]. case_match; [by eexists|].
  destruct (slice_boundaries (a ++ MARKER ++ b) (byte_len a)
    (Nat.min (byte_len a + 240) (byte_len (a ++ MARKER ++ b)))) as [w' ->]; [apply Hb; blia|apply Hb; lia|blia|].
  cbn [mbind option_bind]. case_match; [by eexists|]. rewrite slice_from_app. cbn [mbind option_bind].
  repeat case_match; by eexists.
Qed.

Lemma scan_loop_total fuel p r n :
  Forall (λ c, (c < 128)%N) (p ++ r) → byte_len r < fuel → is_Some (scan_loop fuel (p ++ r) te (byte_len p) n).
Proof.
  revert p r n; induction fuel as [|k IH]; intros p r n Ha Hk; [lia|]. cbn [scan_loop].
  rewrite slice_from_app. cbn [mbind option_bind]. destruct (find r MARKER) as [rel|] eqn:E; [|by eexists].
  apply find_Some in E as (a & b & -> & -> & _). rewrite <- byte_len_app, app_assoc in *.
  unfold in_fence_or_quote. rewrite slice_to_app. cbn [mbind option_bind].
  assert (∀ m, is_Some (scan_loop k ((p ++ a) ++ MARKER ++ b) te (byte_len (p ++ a) + byte_len MARKER) m)) as Hnext.
  { intros m. rewrite <- byte_len_app, (app_assoc (p ++ a)). apply IH; [by rewrite <- app_assoc|].
    pose proof marker_length. blia. }
  case_match; [apply Hnext|]. destruct (classify_marker_total (p ++ a) b (n + 1) Ha) as [hit ->].
  cbn [mbind option_bind]. destruct hit; [by eexists|apply Hnext].
Qed.

Lemma scan_text_ascii_total text :
  Forall (λ c, (c < 128)%N) text → scan_text_with_boundary text te ≠ None.
Proof.
  intros Ha. apply not_eq_None_Some. apply (scan_loop_total _ [] text 0 Ha). lia.
Qed.
End ascii.

(** ** Recovery *)

(** What is kept of a patch ends where the line of the leak starts. *)
Lemma truncate_at_line_spec text a b :
  text = a ++ b →
  ∃ kept line, a = kept ++ line ∧ truncate_at_line text (byte_len a) = Some kept ∧
    cLF ∉ line ∧ (kept = [] ∨ ∃ k, kept = k ++ [cLF]).
Proof.
  intros ->. unfold truncate_at_line, line_start_of. rewrite slice_to_app. cbn [mbind option_bind].
  pose proof (rfind_char_spec a cLF) as Hr. destruct (rfind_char a cLF) as [j|].
  - destruct Hr as (k & line & -> & <- & Hl). exists (k ++ [cLF]), line.
    split_and!; [by rewrite <- app_assoc| |done|right; by exists k].
    replace (byte_len k + 1) with (byte_len (k ++ [cLF])) by (rewrite byte_len_app; done).
    replace ((k ++ cLF :: line) ++ b) with ((k ++ [cLF]) ++ line ++ b) by (rewrite <- !app_assoc; done).
    apply slice_to_app.
  - exists [], a. split_and!; [done| |done|by left].
    destruct (a ++ b); done.
Qed.

(** ** Instances *)

(** 27 characters of three bytes end at byte 81: byte 1 is inside the first. *)
Definition wide : str := replicate 27 8364%N.

Lemma scan_text_panics_off_boundary_witness :
  scan_text_with_boundary (wide ++ MARKER ++ []) None = None.
Proof.
  apply (scan_text_panics_off_boundary None wide []).
  - intros a' b' E. destruct (decide (length wide ≤ length a')) as [|Hl]; [done|]. exfalso.
    apply (f_equal (λ s, s !! length a')) in E. rewrite lookup_app_l in E by lia.
    assert ((a' ++ MARKER ++ b') !! length a' = Some 116%N) as Hm by (rewrite lookup_app_r, Nat.sub_diag; done).
    rewrite Hm in E. unfold wide in E. apply lookup_replicate in E as [[=] _].
  - vm_compute. reflexivity.
  - vm_compute. reflexivity.
  - vm_compute. reflexivity.
Defined.

(** The leak on the line of a hunk header: the header is cut off, and with it
    the last hunk. *)
Example header_leak_drops_hunk :
  let patch := lit "@@ -1 +1 @@" ++ [cLF] ++ lit "-a" ++ [cLF] ++ lit "+b" ++ [cLF]
    ++ lit "@@ -9 +9 @@ analysis to=functions.edit" ++ [cLF] ++ lit "-c" ++ [cLF] ++ lit "+d" ++ [cLF] in
  scan_text patch = Some (Some (mkHit 39 ChannelAdjacency)) ∧
  leak_is_after_last_hunk patch 39 = Some true ∧
  truncate_at_line patch 39 = Some (lit "@@ -1 +1 @@" ++ [cLF] ++ lit "-a" ++ [cLF] ++ lit "+b" ++ [cLF]).
Proof. vm_compute. done. Qed.

Example escape_ex : escape_replay (lit "a<|start|>b") = lit "a< start >b".
Proof. vm_compute. reflexivity. Qed.
Example scan_ex : scan_text (lit "commentary to=functions.edit code") = Some (Some (mkHit 11 ChannelAdjacency))
  ∧ scan_text (lit "the marker to=functions.edit") = Some None.
Proof. vm_compute. done. Qed.
