(* ===== verification/ErrorClass.v ===== *)
(** [llm/src/error_class.rs] (classification) and the error type of
    [core/src/error.rs]: which kind of failure an error is, whether another
    attempt may succeed, and how long to wait. Dates are [chrono]'s, a third
    party's: two functions of the environment. A [Duration] is its nanoseconds.

    [user_message], which words errors for a person and reads JSON bodies, is not
    modelled. *)

From S2P Require Import Prelude RustStr Bytes.

(** ** Durations *)

Abbreviation Duration := N (only parsing).
Definition from_millis (ms : N) : Duration := (ms * 1000000)%N.
Definition from_secs (s : N) : Duration := (s * 1000000000)%N.
Definition as_millis (d : Duration) : N := (d / 1000000)%N.
(** [u64] multiplication in a release build. *)
Definition wrapping_mul (a b : N) : N := ((a * b) mod 2 ^ 64)%N.

(** ** [core/src/error.rs] *)

Inductive ErrorKind :=
| RateLimited | Server | Network | Timeout | Auth | Client | ContextOverflow | Cancelled | Unknown.
#[global] Instance ErrorKind_eq_dec : EqDecision ErrorKind.
Proof. solve_decision. Defined.

Definition retryable (k : ErrorKind) : bool :=
  match k with RateLimited | Server | Network | Timeout => true | _ => false end.

Record TransportError := mkTransport { te_kind : ErrorKind; te_message : str }.

(** An I/O error is the text it displays. *)
Inductive Error :=
| EConfig (m : str) | EIo (m : str) | ESerde (m : str) | ELlm (e : TransportError) | ETool (m : str)
| ESession (m : str) | EAgent (m : str) | EProvider (m : str) | EHttp (e : TransportError) | EOther (m : str).

Definition error_to_string (e : Error) : str :=
  match e with
  | EConfig m => lit "Configuration error: " ++ m
  | EIo m => lit "IO error: " ++ m
  | ESerde m => lit "Serialization error: " ++ m
  | ELlm t => lit "LLM error: " ++ te_message t
  | ETool m => lit "Tool error: " ++ m
  | ESession m => lit "Session error: " ++ m
  | EAgent m => lit "Agent error: " ++ m
  | EProvider m => lit "Provider error: " ++ m
  | EHttp t => lit "HTTP error: " ++ te_message t
  | EOther m => m
  end.

Definition transport_kind (e : Error) : option ErrorKind :=
  match e with ELlm t | EHttp t => Some (te_kind t) | _ => None end.

(** ** Parsing the message *)

Definition u16_max : N := 65535.
Definition leading_digits (s : str) : str := take_while is_ascii_digit s.
Definition status_code (digits : str) : option N :=
  match parse_uint u16_max digits with
  | Some code => if (100 <=? code)%N && (code <? 600)%N then Some code else None
  | None => None
  end.

(** Codes between an opening and a closing character; every turn drops at least
    the opening character. *)
Fixpoint bracketed_status (fuel : nat) (open close : rchar) (rest : str) : option N :=
  match fuel with
  | O => None
  | S k =>
      match split_once rest [open] with
      | None => None
      | Some (_, after) =>
          match split_once after [close] with
          | None => None
          | Some (inner, rest) =>
              match status_code (leading_digits (trim inner)) with
              | Some code => Some code
              | None => bracketed_status k open close rest
              end
          end
      end
  end.

(** [text.find(p)], then the characters of [msg] behind the match; [msg] and
    [text] have the same length in bytes. *)
Definition after_match (text msg p : str) : option (option str) :=
  match find text p with
  | None => Some None
  | Some idx => after ← slice_from msg (idx + byte_len p); Some (Some after)
  end.

Fixpoint prefixed_status (msg : str) (prefixes : list str) : option (option N) :=
  match prefixes with
  | [] => Some None
  | prefix :: r =>
      after ← after_match (to_ascii_lowercase msg) msg prefix;
      match after with
      | None => prefixed_status msg r
      | Some after =>
          match status_code (leading_digits (trim_start after)) with
          | Some code => Some (Some code)
          | None => prefixed_status msg r
          end
      end
  end.
Definition STATUS_PREFIXES : list str := lit <$> ["http "; "status:"; "status "; "status code "]%string.

Definition quoted_key (k : string) : str := [cDQ] ++ lit k ++ [cDQ] ++ lit ":".
Arguments quoted_key _%_string.
Fixpoint keyed_status (msg : str) (keys : list str) : option (option N) :=
  match keys with
  | [] => Some None
  | key :: r =>
      after ← after_match msg msg key;
      match after with
      | None => keyed_status msg r
      | Some after =>
          let after := trim_start after in
          if starts_with after [cDQ] then keyed_status msg r
          else match status_code (leading_digits after) with
               | Some code => Some (Some code)
               | None => keyed_status msg r
               end
      end
  end.

Definition leading_status (msg : str) : option N :=
  let trimmed := trim_start msg in
  if 3 <=? byte_len trimmed then
    match status_code (take 3 trimmed) with
    | Some code =>
        match trimmed !! 3 with
        | None => Some code
        | Some c => if (c =? chr " ")%N || (c =? chr ":")%N || (c =? chr ",")%N then Some code else None
        end
    | None => None
    end
  else None.

(** The outer option is a slice that panics. *)
Definition extract_http_status (msg : str) : option (option N) :=
  match bracketed_status (S (length msg)) (chr "(") (chr ")") msg with
  | Some code => Some (Some code)
  | None =>
      match bracketed_status (S (length msg)) (chr "[") (chr "]") msg with
      | Some code => Some (Some code)
      | None =>
          by_prefix ← prefixed_status msg STATUS_PREFIXES;
          match by_prefix with
          | Some code => Some (Some code)
          | None =>
              by_key ← keyed_status msg [quoted_key "status"; quoted_key "code"];
              match by_key with
              | Some code => Some (Some code)
              | None => Some (leading_status msg)
              end
          end
      end
  end.

(** [0000-00-00 00:00], byte by byte. *)
Definition SHAPE : str := lit "0000-00-00 00:00".
Fixpoint fits (bytes shape : list N) : bool :=
  match shape, bytes with
  | [], _ => true
  | want :: shape, got :: bytes =>
      (if (want =? 48)%N then is_ascii_digit got
       else if (want =? 32)%N then (got =? 32)%N || (got =? 84)%N
       else (want =? got)%N) && fits bytes shape
  | _ :: _, [] => false
  end.
Definition reset_stamp (msg : str) : option (option str) :=
  let bytes := utf8 msg in
  match List.find (λ i, fits (drop i bytes) SHAPE) (seq 0 (length bytes)) with
  | None => Some None
  | Some start =>
      let end_ := start + length SHAPE in
      let end_ := if fits (drop end_ bytes) (lit ":00") then end_ + 3 else end_ in
      stamp ← slice msg start end_; Some (Some stamp)
  end.

Definition MAX_RATE_WAIT : Duration := from_secs 60.

Definition MS_WORDS : list string := ["ms"; "millisecond"; "milliseconds"]%string.
Definition MINUTE_WORDS : list string := ["m"; "min"; "mins"; "minute"; "minutes"]%string.
Definition HOUR_WORDS : list string := ["h"; "hr"; "hrs"; "hour"; "hours"]%string.
Definition DAY_WORDS : list string := ["d"; "day"; "days"]%string.
Definition unit_secs (rest : str) : N :=
  let word := take_while is_ascii_alphabetic (trim_start rest) in
  if is_one_of word MS_WORDS then 0
  else if is_one_of word MINUTE_WORDS then 60
  else if is_one_of word HOUR_WORDS then 3600
  else if is_one_of word DAY_WORDS then 86400
  else 1.

(** [retry in 5 seconds], [wait 10s]. *)
Fixpoint worded_wait (lower : str) (pats : list str) : option (option Duration) :=
  match pats with
  | [] => Some None
  | pat :: r =>
      after ← after_match lower lower pat;
      match after with
      | None => worded_wait lower r
      | Some after =>
          let digits := leading_digits after in
          match parse_uint u64_max digits with
          | None => worded_wait lower r
          | Some n =>
              rest ← slice_from after (byte_len digits);
              Some (Some (if (unit_secs rest =? 0)%N then from_millis n
                          else from_secs (wrapping_mul n (unit_secs rest))))
          end
      end
  end.

Definition looks_authentication_failure (lower : str) : bool :=
  if negb (contains lower (lit "authentication")) then false
  else contains lower (lit "fail") || contains lower (lit "error") || contains lower (lit "invalid").

Definition contains_any (lower : str) (words : list string) : bool :=
  existsb (λ w, contains lower (lit w)) words.
Arguments contains_any _ _%_list_scope.

Definition looks_context_overflow (lower : str) : bool :=
  contains_any lower
    ["context_length_exceeded"; "context length"; "maximum context"; "prompt is too long";
     "prompt too long"; "input is too long"; "request too large"]%string
  || contains lower (lit "too many tokens") && negb (contains lower (lit "rate"))
  || contains lower (lit "token limit") && contains lower (lit "exceed").

Record ClassifiedError := mkClassified {
  c_kind : ErrorKind; c_retryable : bool; c_retry_after : option Duration;
  c_status : option N; c_message : str }.

Section classify.
(** [DateTime::parse_from_rfc2822]: seconds from now until the date, if it is one;
    and whether [NaiveDate::parse_from_str] gives a day after today (UTC). *)
Context (http_date_delay : str → option Z) (is_later_day : str → bool).

(** [rate_limit.rs] *)
Definition parse_retry_after (header_value : str) : Duration :=
  match parse_uint u64_max (trim header_value) with
  | Some seconds => from_secs seconds
  | None =>
      match http_date_delay (trim header_value) with
      | Some delta => from_secs (Z.to_N (Z.max delta 0))
      | None => from_secs 5
      end
  end.

Definition is_value_end (c : rchar) : bool :=
  (c =? cLF)%N || (c =? cCR)%N || (c =? cDQ)%N || (c =? chr "}")%N.
Definition extract_retry_after (msg : str) : option (option Duration) :=
  let lower := to_ascii_lowercase msg in
  after ← after_match lower msg (lit "retry-after");
  let header :=
    match after with
    | None => None
    | Some after =>
        let after := trim_start after in
        let after := trim_start (default after (strip_prefix (lit ":") after)) in
        let value := trim (take_while (λ c, negb (is_value_end c)) after) in
        if value == [] then None else Some (parse_retry_after value)
    end in
  match header with
  | Some d => Some (Some d)
  | None => worded_wait lower [lit "retry in "; lit "wait "]
  end.

(** [&stamp[..10]] *)
Definition after_today (stamp : str) : option bool :=
  day ← slice_to stamp 10; Some (is_later_day day).

Definition is_client_status (status : option N) : bool :=
  match status with Some s => (400 <=? s)%N && (s <? 500)%N | None => false end.
Definition is_server_status (status : option N) : bool :=
  match status with Some s => (500 <=? s)%N && (s <? 600)%N | None => false end.

Definition AUTH_WORDS : list string :=
  ["unauthorized"; "forbidden"; "invalid api key"; "incorrect api key"]%string.
Definition RATE_WORDS : list str :=
  [lit "rate limit"; lit "too many requests"; quoted_key "code" ++ [cDQ] ++ lit "rate_limit";
   lit "rate_limit_exceeded"].
Definition TIMEOUT_WORDS : list string :=
  ["timed out"; "timeout"; "deadline exceeded"; "operation timed out"]%string.
Definition NETWORK_WORDS : list string :=
  ["error sending request"; "connection refused"; "connection reset"; "connection closed";
   "broken pipe"; "error decoding response body"; "unexpected eof"; "network unreachable";
   "name or service not known"; "dns error"; "tls handshake"; "certificate"; "tcp connect"]%string.
Definition SERVER_WORDS : list str :=
  [quoted_key "type" ++ [cDQ] ++ lit "server_error" ++ [cDQ];
   quoted_key "code" ++ [cDQ] ++ lit "internal_server_error" ++ [cDQ];
   lit "internal_server_error"; lit "api_error"; lit "internal server error"; lit "overloaded";
   lit "service unavailable"; lit "bad gateway"; lit "gateway timeout"].

Definition classify_message (raw : str) : option ClassifiedError :=
  let lower := to_ascii_lowercase raw in
  status ← extract_http_status raw;
  retry_after ← extract_retry_after raw;
  if contains_any lower ["cancelled"; "canceled"]%string
  then Some (mkClassified Cancelled false None status raw)
  else if (status == Some 401%N) || (status == Some 403%N) || contains_any lower AUTH_WORDS
          || looks_authentication_failure lower
  then Some (mkClassified Auth false None status raw)
  else if (status == Some 429%N) || existsb (contains lower) RATE_WORDS then
    stamp ← reset_stamp raw;
    later ← match stamp with None => Some false | Some at_ => after_today at_ end;
    let long := later || match retry_after with Some d => (MAX_RATE_WAIT <? d)%N | None => false end in
    Some (mkClassified RateLimited (negb long)
            (match retry_after with Some d => Some d | None => Some (from_secs 5) end)
            (match status with Some s => Some s | None => Some 429%N end) raw)
  else if contains_any lower TIMEOUT_WORDS then Some (mkClassified Timeout true None status raw)
  else if contains_any lower NETWORK_WORDS
          || contains lower (lit "temporarily unavailable") && (status == None)
  then Some (mkClassified Network true None status raw)
  else if is_server_status status || existsb (contains lower) SERVER_WORDS then
    if is_client_status status && (status != Some 429%N)
    then Some (mkClassified Client false None status raw)
    else Some (mkClassified Server true retry_after status raw)
  else if looks_context_overflow lower then Some (mkClassified ContextOverflow false None status raw)
  else if is_client_status status then Some (mkClassified Client false None status raw)
  else Some (mkClassified Unknown false None status raw).

Definition classify (err : Error) : option ClassifiedError :=
  c ← classify_message (error_to_string err);
  match transport_kind err with
  | Some kind =>
      if kind != Unknown then
        let long_limit := (c_kind c == RateLimited) && negb (c_retryable c) in
        Some (mkClassified kind (retryable kind && negb long_limit) (c_retry_after c) (c_status c) (c_message c))
      else Some c
  | None => Some c
  end.
End classify.

(** ** Laws *)

Lemma status_code_range ds code : status_code ds = Some code → (100 ≤ code < 600)%N.
Proof. unfold status_code. repeat case_match; intros [=]; subst. boolp. lia. Qed.

Lemma bracketed_range k o c s code : bracketed_status k o c s = Some code → (100 ≤ code < 600)%N.
Proof.
  revert s; induction k as [|k IH]; intros s; cbn [bracketed_status]; [done|].
  repeat case_match; try done; [intros [=]; subst; by eapply status_code_range|apply IH].
Qed.

Lemma leading_range s code : leading_status s = Some code → (100 ≤ code < 600)%N.
Proof.
  unfold leading_status. repeat case_match; intros [=]; subst; by eapply status_code_range.
Qed.

(** The lower-case text splits where the text does. *)
Lemma lower_split msg a b :
  to_ascii_lowercase msg = a ++ b →
  ∃ a' b', msg = a' ++ b' ∧ a = to_ascii_lowercase a' ∧ b = to_ascii_lowercase b'.
Proof.
  unfold to_ascii_lowercase. intros E. exists (take (length a) msg), (drop (length a) msg).
  rewrite take_drop, fmap_take, fmap_drop, E, take_app_length, drop_app_length. done.
Qed.

Lemma len_utf8_lower c : len_utf8 (ascii_lower c) = len_utf8 c.
Proof.
  unfold ascii_lower. destruct (is_ascii_upper c) eqn:E; [|done].
  unfold is_ascii_upper in E. boolp. rewrite !len_utf8_ascii by lia. done.
Qed.
Lemma byte_len_lower s : byte_len (to_ascii_lowercase s) = byte_len s.
Proof.
  induction s as [|c s IH]; [done|]. unfold to_ascii_lowercase in *. rewrite fmap_cons, !byte_len_cons, IH.
  by rewrite len_utf8_lower.
Qed.

Lemma after_match_lower msg p : is_Some (after_match (to_ascii_lowercase msg) msg p).
Proof.
  unfold after_match. destruct (find (to_ascii_lowercase msg) p) as [i|] eqn:E; [|by eexists].
  apply find_Some in E as (a & b & E & -> & _). apply lower_split in E as (a' & t & -> & -> & Et).
  symmetry in Et. apply lower_split in Et as (p' & b' & -> & -> & ->).
  rewrite !byte_len_lower, <- byte_len_app, app_assoc, slice_from_app. by eexists.
Qed.

Lemma after_match_self msg p : is_Some (after_match msg msg p).
Proof.
  unfold after_match. destruct (find msg p) as [i|] eqn:E; [|by eexists].
  apply find_Some in E as (a & b & -> & -> & _).
  rewrite <- byte_len_app, app_assoc, slice_from_app. by eexists.
Qed.

Lemma prefixed_status_total msg ps :
  ∃ o, prefixed_status msg ps = Some o ∧ ∀ code, o = Some code → (100 ≤ code < 600)%N.
Proof.
  induction ps as [|p ps IH]; cbn [prefixed_status]; [by exists None|].
  destruct (after_match_lower msg p) as [[after|] ->]; cbn [mbind option_bind]; [|exact IH].
  destruct (status_code _) as [code|] eqn:E; [|exact IH]. eexists. split; [done|].
  intros ? [= <-]. by eapply status_code_range.
Qed.

Lemma keyed_status_total msg ks :
  ∃ o, keyed_status msg ks = Some o ∧ ∀ code, o = Some code → (100 ≤ code < 600)%N.
Proof.
  induction ks as [|k ks IH]; cbn [keyed_status]; [by exists None|].
  destruct (after_match_self msg k) as [[after|] ->]; cbn [mbind option_bind]; [|exact IH].
  case_match; [exact IH|].
  destruct (status_code _) as [code|] eqn:E; [|exact IH]. eexists. split; [done|].
  intros ? [= <-]. by eapply status_code_range.
Qed.

Lemma extract_http_status_total msg :
  ∃ o, extract_http_status msg = Some o ∧ ∀ code, o = Some code → (100 ≤ code < 600)%N.
Proof.
  unfold extract_http_status.
  destruct (bracketed_status _ (chr "(") _ msg) as [c|] eqn:E1.
  { eexists. split; [done|]. intros ? [= <-]. by eapply bracketed_range. }
  destruct (bracketed_status _ (chr "[") _ msg) as [c|] eqn:E2.
  { eexists. split; [done|]. intros ? [= <-]. by eapply bracketed_range. }
  destruct (prefixed_status_total msg STATUS_PREFIXES) as ([c|] & -> & Hp); cbn [mbind option_bind]; [eauto|].
  destruct (keyed_status_total msg [quoted_key "status"; quoted_key "code"]) as ([c|] & -> & Hk);
    cbn [mbind option_bind]; [eauto|].
  eexists. split; [done|]. intros code. apply leading_range.
Qed.

Lemma worded_wait_total lower ps : is_Some (worded_wait lower ps).
Proof.
  induction ps as [|p ps IH]; cbn [worded_wait]; [by eexists|].
  destruct (after_match_self lower p) as [[after|] ->]; cbn [mbind option_bind]; [|exact IH].
  destruct (parse_uint _ _); [|exact IH].
  pose proof (take_drop_while is_ascii_digit after) as Ht. unfold leading_digits.
  rewrite <- Ht at 1. rewrite slice_from_app. by eexists.
Qed.

(** A byte below 128 stands alone: both its ends are character boundaries. *)
Lemma ascii_byte_boundary s i b :
  utf8 s !! i = Some b → (b < 128)%N → is_char_boundary s i = true ∧ is_char_boundary s (S i) = true.
Proof.
  intros Hi Hb. enough (∃ p r, s = p ++ b :: r ∧ byte_len p = i) as (p & r & -> & <-).
  { split; apply is_char_boundary_true; [by exists p, (b :: r)|].
    exists (p ++ [b]), r. rewrite <- app_assoc, byte_len_app, byte_len_cons, len_utf8_ascii by done.
    split; [done|]. rewrite byte_len_nil. lia. }
  revert i Hi. induction s as [|c s IH]; intros i Hi; [by destruct i|].
  change (utf8 (c :: s)) with (utf8_char c ++ utf8 s) in Hi. apply lookup_app_Some in Hi as [Hi|[Hl Hi]].
  - apply list_elem_of_lookup_2 in Hi as Hin. unfold utf8_char in Hi, Hin.
    destruct (N.ltb_spec c 128) as [Hc|Hc].
    + destruct i as [|i]; [|done]. injection Hi as ->. by exists [], s.
    + exfalso. clear Hi. revert Hin. repeat case_match; rewrite !elem_of_cons; intros Hin;
        destruct_or! Hin; try (by apply elem_of_nil in Hin); subst b; revert Hb; apply N.le_ngt;
        (etrans; [|apply N.le_add_r]); done.
  - destruct (IH _ Hi) as (p & r & -> & Hp). exists (c :: p), r. split; [done|].
    rewrite byte_len_cons. unfold len_utf8. lia.
Qed.

Lemma fits_lookup bytes shape k :
  Forall (λ b, (b < 128)%N) shape → fits bytes shape = true → k < length shape →
  ∃ b, bytes !! k = Some b ∧ (b < 128)%N.
Proof.
  intros Hs. revert bytes k. induction Hs as [|w shape Hw _ IH]; intros [|b bytes] k; cbn [fits]; try done.
  { cbn. lia. } { cbn. lia. }
  intros [Hb Hf]%andb_true_iff Hk. destruct k as [|k]; [|apply (IH _ _ Hf); cbn in Hk; lia].
  exists b. split; [done|]. revert Hb. unfold is_ascii_digit. repeat case_match; intros Hb.
  - boolp. lia.
  - apply orb_true_iff in Hb as [Hb|Hb]; boolp; lia.
  - boolp. lia.
Qed.

Lemma fits_boundaries msg i shape k :
  Forall (λ b, (b < 128)%N) shape → fits (drop i (utf8 msg)) shape = true → k ≤ length shape → shape ≠ [] →
  is_char_boundary msg (i + k) = true.
Proof.
  intros Hs Hf Hk Hne. destruct k as [|k].
  - destruct (fits_lookup _ _ 0 Hs Hf) as (b & Hb & Hlt); [destruct shape; [done|cbn; lia]|].
    rewrite lookup_drop in Hb. by apply (ascii_byte_boundary _ _ _ Hb).
  - destruct (fits_lookup _ _ k Hs Hf) as (b & Hb & Hlt); [lia|].
    rewrite lookup_drop in Hb. rewrite Nat.add_succ_r. by apply (ascii_byte_boundary _ _ _ Hb).
Qed.

Lemma reset_stamp_total msg :
  ∃ o, reset_stamp msg = Some o ∧ ∀ stamp, o = Some stamp → is_Some (slice_to stamp 10).
Proof.
  unfold reset_stamp. destruct (List.find _ _) as [i|] eqn:E; [|by exists None].
  apply List.find_some in E as [_ Hf].
  assert (Forall (λ b, (b < 128)%N) SHAPE) as HS by (unfold SHAPE; vm_compute; repeat constructor).
  assert (Forall (λ b, (b < 128)%N) (lit ":00")) as HS' by (vm_compute; repeat constructor).
  set (end_ := if fits _ (lit ":00") then _ else _).
  assert (is_char_boundary msg i = true) as Hi.
  { rewrite <- (Nat.add_0_r i). apply (fits_boundaries msg i SHAPE); [done..|lia|done]. }
  assert (is_char_boundary msg (i + 10) = true) as H10.
  { apply (fits_boundaries msg i SHAPE); [done..|vm_compute; lia|done]. }
  assert (is_char_boundary msg end_ = true ∧ i + 16 ≤ end_) as [He Hle].
  { unfold end_. destruct (fits _ (lit ":00")) eqn:Ef; (split; [|change (length SHAPE) with 16; lia]).
    - apply (fits_boundaries msg _ (lit ":00")); [done..|vm_compute; lia|done].
    - apply (fits_boundaries msg i SHAPE); [done..|lia|done]. }
  destruct (slice_boundaries msg i end_ Hi He) as [stamp Hst]; [lia|]. rewrite Hst. cbn [mbind option_bind].
  eexists. split; [done|]. intros ? [= <-].
  apply slice_Some in Hst as (p & q & -> & Hp & Hpe).
  apply is_char_boundary_true in H10 as (u & v & Euv & Hu).
  destruct (byte_split_le p u (stamp ++ q) v Euv) as (m & -> & Em); [lia|].
  destruct (byte_split_le m stamp v q (eq_sym Em)) as (m' & -> & _); [blia|].
  assert (10 = byte_len m) as -> by blia. rewrite slice_to_app. by eexists.
Qed.

Section facts.
Context (http_date_delay : str → option Z) (is_later_day : str → bool).

Lemma extract_retry_after_total msg : is_Some (extract_retry_after http_date_delay msg).
Proof.
  unfold extract_retry_after. destruct (after_match_lower msg (lit "retry-after")) as [after ->].
  cbn [mbind option_bind]. case_match; [by eexists|]. apply worded_wait_total.
Qed.

(** Which branch [classify_message] took does not matter for these: it returns,
    a retryable error is of a retryable kind, a status is a three-digit HTTP
    status, and the message is the one given. *)
Lemma classify_message_facts raw :
  ∃ c, classify_message http_date_delay is_later_day raw = Some c ∧
    (c_retryable c = true → retryable (c_kind c) = true) ∧
    (∀ code, c_status c = Some code → (100 ≤ code < 600)%N) ∧ c_message c = raw.
Proof.
  unfold classify_message. destruct (extract_http_status_total raw) as (status & -> & Hst).
  cbn [mbind option_bind]. destruct (extract_retry_after_total raw) as [ra ->]. cbn [mbind option_bind].
  assert (∀ k r d, (r = true → retryable k = true) →
    ∃ c, Some (mkClassified k r d status raw) = Some c ∧ (c_retryable c = true → retryable (c_kind c) = true) ∧
      (∀ code, c_status c = Some code → (100 ≤ code < 600)%N) ∧ c_message c = raw) as Hmk.
  { intros k r d Hr. eexists. split; [done|]. by split_and!. }
  destruct (contains_any _ _); [by apply Hmk|].
  match goal with |- context [if ?b then Some (mkClassified Auth _ _ _ _) else _] => destruct b end; [by apply Hmk|].
  match goal with |- context [if ?b then (stamp ← _; _) else _] => destruct b end.
  - destruct (reset_stamp_total raw) as (o & -> & Ho). cbn [mbind option_bind].
    assert (∃ later, (match o with None => Some false | Some at_ => after_today is_later_day at_ end) = Some later)
      as [later ->].
    { destruct o as [st|]; [|by eexists]. unfold after_today. destruct (Ho st eq_refl) as [d ->]. by eexists. }
    cbn [mbind option_bind]. eexists. split; [done|]. split_and!; [done| |done].
    intros code. cbn. destruct status; [naive_solver|]. intros [= <-]. lia.
  - repeat match goal with |- context [if ?b then _ else _] => destruct b end; by apply Hmk.
Qed.

(** Classification never panics; it keeps a structured kind, calls an error
    retryable only when its kind is (rate limit, server, network or timeout:
    never authentication, client errors, context overflow or cancellation), and
    reports only statuses from 100 to 599. *)
Theorem classify_sound err :
  ∃ c, classify http_date_delay is_later_day err = Some c ∧
    (c_retryable c = true → retryable (c_kind c) = true) ∧
    (∀ kind, transport_kind err = Some kind → kind ≠ Unknown → c_kind c = kind) ∧
    (∀ code, c_status c = Some code → (100 ≤ code < 600)%N) ∧
    c_message c = error_to_string err.
Proof.
  unfold classify. destruct (classify_message_facts (error_to_string err)) as (c & -> & Hr & Hs & Hm).
  cbn [mbind option_bind]. destruct (transport_kind err) as [kind|]; [|eexists; split_and!; [done..|done|done|done]].
  case_bool_decide as Hk; cbn [negb].
  - eexists. split_and!; [done|done| |done|done]. intros ? [= <-]. done.
  - eexists. split; [done|]. cbn. split_and!; [|naive_solver|done|done]. by intros [? _]%andb_true_iff.
Qed.
End facts.

Definition no_dates (_ : str) : option Z := None.
Definition never_later (_ : str) : bool := false.
Example classify_ex :
  let kind m := (λ c, (c_kind c, c_retryable c, c_status c)) <$> classify_message no_dates never_later (lit m) in
  kind "HTTP 503 Service Unavailable"%string = Some (Server, true, Some 503%N) ∧
  kind "(401 Unauthorized)"%string = Some (Auth, false, Some 401%N) ∧
  kind "rate limit, retry in 3 min"%string = Some (RateLimited, false, Some 429%N) ∧
  kind "prompt is too long"%string = Some (ContextOverflow, false, None) ∧
  kind "status 418"%string = Some (Client, false, Some 418%N).
Proof. vm_compute. done. Qed.
