(* ===== verification/Retry.v ===== *)
(** [llm/src/retry.rs]: the retry policy and the loop that opens a request. The
    operation, the clock and the sleeper are the environment: the [n]-th attempt,
    started at a time, gives a result and the time it ended; a sleep from a time
    for a delay gives the time it woke up. The loop is proved to return after at
    most [max_retries + 1] attempts, which is also the fuel it is given. *)

From S2P Require Import Prelude RustStr Bytes ErrorClass.

Definition DEFAULT_MAX_RETRIES : nat := 3.
Definition DEFAULT_BASE_DELAY_MS : N := 500.
Definition DEFAULT_MAX_DELAY_MS : N := 20000.
Definition DEFAULT_MAX_ELAPSED_MS : N := 60000.

Record RetryPolicy := mkPolicy {
  max_retries : nat; initial_backoff : Duration; max_backoff : Duration;
  max_elapsed : Duration; with_full_jitter : bool }.
Definition default_policy : RetryPolicy :=
  mkPolicy DEFAULT_MAX_RETRIES (from_millis DEFAULT_BASE_DELAY_MS) (from_millis DEFAULT_MAX_DELAY_MS)
    (from_millis DEFAULT_MAX_ELAPSED_MS) true.

(** [u128 as u64], and the saturating operations on [u64]. *)
Definition as_u64 (n : N) : N := (n mod 2 ^ 64)%N.
Definition saturating_mul (a b : N) : N := N.min (a * b) u64_max.
Definition saturating_add (a b : N) : N := N.min (a + b) u64_max.

Definition backoff_for_attempt (p : RetryPolicy) (failed_attempts : nat) : Duration :=
  let exp := Nat.min (failed_attempts - 1) 16 in
  let mult := N.shiftl 1 (N.of_nat exp) in
  let base_ms := as_u64 (as_millis (initial_backoff p)) in
  let raw := saturating_mul base_ms mult in
  let capped := N.min raw (as_u64 (as_millis (max_backoff p))) in
  from_millis (N.max capped 1).

(** [nanos] is [Instant::now().elapsed().as_nanos()], the noise of the clock. *)
Definition full_jitter (max nanos : N) : Duration :=
  let max_ms := N.min (as_millis max) u64_max in
  if (max_ms =? 0)%N then 0%N
  else
    let seed := N.lxor (as_u64 nanos) (wrapping_mul max_ms 0x9E3779B97F4A7C15) in
    let r := N.shiftr (wrapping_mul seed 0xBF58476D1CE4E5B9) 16 in
    from_millis (r mod saturating_add max_ms 1)%N.

Definition sleep_duration (p : RetryPolicy) (failed_attempts : nat) (c : ClassifiedError) (nanos : N)
  : Duration :=
  let d := backoff_for_attempt p failed_attempts in
  let d := if with_full_jitter p then full_jitter d nanos else d in
  match c_retry_after c with
  | Some ra => N.min (N.max d ra) (N.max (max_backoff p) ra)
  | None => d
  end.

Section execute.
Context {T : Type} (http_date_delay : str → option Z) (is_later_day : str → bool).
Context (attempt_op : nat → N → (T + Error) * N) (wake : N → Duration → N) (noise : nat → N).

(** An attempt that was made: its number, when it started and ended, its result. *)
Record Try := mkTry { try_no : nat; try_start : N; try_end : N; try_result : T + Error }.

(** The loop of [execute_with_policy]; [started] is when the first attempt began. *)
Fixpoint execute_loop (fuel : nat) (policy : RetryPolicy) (started : N) (attempt : nat) (now : N)
  : option ((T + Error) * list Try) :=
  match fuel with
  | O => None
  | S k =>
      let attempt := attempt + 1 in
      let '(res, t) := attempt_op attempt now in
      let this := mkTry attempt now t res in
      match res with
      | inl value => Some (inl value, [this])
      | inr e =>
          classified ← classify http_date_delay is_later_day e;
          let allow := c_retryable classified && (attempt - 1 <? max_retries policy)
                       && ((attempt =? 1) || (t - started <? max_elapsed policy)%N) in
          if negb allow then Some (inr e, [this])
          else
            let delay := sleep_duration policy attempt classified (noise attempt) in
            let remaining := (max_elapsed policy - (t - started))%N in
            let delay := N.min delay remaining in
            '(r, tries) ← execute_loop k policy started attempt (wake t delay);
            Some (r, this :: tries)
      end
  end.
Definition execute_with_policy (policy : RetryPolicy) (now : N) : option ((T + Error) * list Try) :=
  execute_loop (max_retries policy + 1) policy now 0 now.
End execute.
Arguments Try : clear implicits.

Definition retry_with_backoff {T} hd ld op wake noise (max_retries : nat) (base_delay_ms : N) (now : N)
  : option ((T + Error) * list (Try T)) :=
  execute_with_policy hd ld op wake noise
    (mkPolicy max_retries (from_millis base_delay_ms) (max_backoff default_policy)
       (max_elapsed default_policy) (with_full_jitter default_policy)) now.

Definition is_retryable hd ld (err : Error) : option bool := c_retryable <$> classify hd ld err.

(** ** Delays *)

Lemma as_from_millis n : as_millis (from_millis n) = n.
Proof. unfold as_millis, from_millis. by rewrite N.div_mul. Qed.

Lemma backoff_bounds p n :
  (from_millis 1 ≤ backoff_for_attempt p n)%N ∧
  (as_millis (backoff_for_attempt p n) ≤ N.max 1 (as_u64 (as_millis (max_backoff p))))%N.
Proof.
  unfold backoff_for_attempt. rewrite as_from_millis. unfold from_millis. split; [|lia].
  apply N.mul_le_mono_r. lia.
Qed.

(** Each failure doubles the wait, up to the cap. *)
Lemma backoff_monotone p n m :
  n ≤ m → (backoff_for_attempt p n ≤ backoff_for_attempt p m)%N.
Proof.
  intros Hnm. unfold backoff_for_attempt, from_millis, saturating_mul. apply N.mul_le_mono_r.
  assert (N.shiftl 1 (N.of_nat (Nat.min (n - 1) 16)) ≤ N.shiftl 1 (N.of_nat (Nat.min (m - 1) 16)))%N as H.
  { rewrite !N.shiftl_1_l. apply N.pow_le_mono_r; lia. }
  apply (N.mul_le_mono_l _ _ (as_u64 (as_millis (initial_backoff p)))) in H. lia.
Qed.

Lemma full_jitter_le max nanos : (full_jitter max nanos ≤ max)%N.
Proof.
  unfold full_jitter. case_match eqn:E; [lia|]. boolp.
  set (m := N.min (as_millis max) u64_max) in *. set (r := N.shiftr _ _).
  assert (saturating_add m 1 ≠ 0)%N as Hne by (unfold saturating_add, u64_max; lia).
  pose proof (N.mod_lt r (saturating_add m 1) Hne) as Hlt.
  assert (r mod saturating_add m 1 ≤ m)%N as Hle by (unfold saturating_add in *; lia).
  unfold from_millis. etrans; [by apply N.mul_le_mono_r|].
  etrans; [apply N.mul_le_mono_r, N.le_min_l|]. unfold as_millis. rewrite N.mul_comm.
  apply N.Div0.mul_div_le.
Qed.

(** The wait before another attempt is at least what the provider asked for
    and at most the larger of that and the exponential backoff, whatever the
    jitter. *)
Theorem sleep_duration_bounds p n c nanos :
  match c_retry_after c with
  | Some ra => (ra ≤ sleep_duration p n c nanos ≤ N.max (backoff_for_attempt p n) ra)%N
  | None => (sleep_duration p n c nanos ≤ backoff_for_attempt p n)%N
  end.
Proof.
  unfold sleep_duration. assert ((if with_full_jitter p then full_jitter (backoff_for_attempt p n) nanos
    else backoff_for_attempt p n) ≤ backoff_for_attempt p n)%N as Hj
    by (destruct (with_full_jitter p); [apply full_jitter_le|lia]).
  revert Hj. generalize (if with_full_jitter p then full_jitter (backoff_for_attempt p n) nanos
    else backoff_for_attempt p n). intros d Hd. case_match; lia.
Qed.

(** ** The loop *)

Section loop.
Context {T : Type} (hd : str → option Z) (ld : str → bool).
Context (attempt_op : nat → N → (T + Error) * N) (wake : N → Duration → N) (noise : nat → N).

Definition retryable_failure (r : T + Error) : Prop :=
  ∃ e c, r = inr e ∧ classify hd ld e = Some c ∧ c_retryable c = true.
Definition final_failure (r : T + Error) : Prop :=
  ∃ e c, r = inr e ∧ classify hd ld e = Some c ∧ c_retryable c = false.

(** From one attempt to the next. *)
Definition follows (policy : RetryPolicy) (started : N) (t t' : Try T) : Prop :=
  try_no t' = S (try_no t) ∧ retryable_failure (try_result t) ∧
  (1 < try_no t → (try_end t - started < max_elapsed policy)%N) ∧
  ∃ d, try_start t' = wake (try_end t) d ∧ (d ≤ max_elapsed policy - (try_end t - started))%N.

(** Why the loop stops at an attempt. *)
Definition stops (policy : RetryPolicy) (started : N) (t : Try T) : Prop :=
  (∃ v, try_result t = inl v) ∨ final_failure (try_result t) ∨
  try_no t = max_retries policy + 1 ∨
  (1 < try_no t ∧ (max_elapsed policy ≤ try_end t - started)%N).

Inductive chain (policy : RetryPolicy) (started : N) : Try T → list (Try T) → Try T → Prop :=
| chain_last t : stops policy started t → chain policy started t [] t
| chain_next t t' ts l :
    follows policy started t t' → chain policy started t' ts l → chain policy started t (t' :: ts) l.

Definition made (t : Try T) : Prop := attempt_op (try_no t) (try_start t) = (try_result t, try_end t).

Lemma execute_loop_spec fuel policy started attempt now :
  attempt + fuel = max_retries policy + 1 → fuel ≠ 0 →
  ∃ t ts l, execute_loop hd ld attempt_op wake noise fuel policy started attempt now
      = Some (try_result l, t :: ts) ∧
    try_no t = attempt + 1 ∧ try_start t = now ∧ chain policy started t ts l ∧
    length (t :: ts) ≤ fuel ∧ Forall made (t :: ts).
Proof.
  revert attempt now; induction fuel as [|k IH]; intros attempt now Hf Hne; [done|]. cbn [execute_loop].
  destruct (attempt_op (attempt + 1) now) as [res t] eqn:Eop.
  set (this := mkTry (attempt + 1) now t res).
  assert (made this) as Hmade by exact Eop.
  assert (stops policy started this →
    ∃ t0 ts l, Some (res, [this]) = Some (try_result l, t0 :: ts) ∧ try_no t0 = attempt + 1 ∧
      try_start t0 = now ∧ chain policy started t0 ts l ∧ length (t0 :: ts) ≤ S k ∧ Forall made (t0 :: ts)) as Hstop.
  { intros Hs. exists this, [], this. split_and!; [done..|by constructor|cbn; lia|by constructor]. }
  destruct res as [v|e]; [apply Hstop; left; by exists v|].
  destruct (classify_sound hd ld e) as (c & Hc & _). rewrite Hc. cbn [mbind option_bind].
  destruct (c_retryable c) eqn:Hr; cbn [andb negb].
  2:{ apply Hstop. right; left. by exists e, c. }
  destruct (Nat.ltb_spec (attempt + 1 - 1) (max_retries policy)) as [Hlt|Hge]; cbn [andb negb].
  2:{ apply Hstop. right; right; left. cbn. lia. }
  destruct ((attempt + 1 =? 1) || (t - started <? max_elapsed policy)%N) eqn:Hb; cbn [negb].
  2:{ apply Hstop. right; right; right. apply orb_false_iff in Hb as [H1 H2]. boolp. cbn. split; [lia|done]. }
  destruct (IH (attempt + 1) (wake t (N.min (sleep_duration policy (attempt + 1) c (noise (attempt + 1)))
    (max_elapsed policy - (t - started)))%N)) as (t' & ts & l & -> & Hno & Hst & Hch & Hlen & Hall); [lia..|].
  cbn [mbind option_bind]. exists this, (t' :: ts), l. split_and!; [done..| | |].
  - apply chain_next; [|done]. split_and!.
    + cbn. lia.
    + by exists e, c.
    + intros H1. cbn in H1. apply orb_true_iff in Hb as [Hb|Hb]; boolp; [lia|done].
    + eexists. split; [exact Hst|]. apply N.le_min_r.
  - cbn [length] in *. lia.
  - by constructor.
Qed.
End loop.

(** A retried operation always returns. Its attempts are numbered from 1, at
    most [max_retries + 1] of them are made, each after a retryable failure of
    the one before while the time budget lasts, and the result is that of the
    last; it stops only at a success, at a failure that is not retryable, or
    when the attempts or (after a retry) the time have run out. *)
Theorem retry_outcome {T} hd ld (attempt_op : nat → N → (T + Error) * N) wake noise policy now :
  ∃ t ts l,
    execute_with_policy hd ld attempt_op wake noise policy now = Some (try_result l, t :: ts) ∧
    length (t :: ts) ≤ max_retries policy + 1 ∧ try_no t = 1 ∧ try_start t = now ∧
    chain hd ld wake policy now t ts l ∧ Forall (made attempt_op) (t :: ts).
Proof.
  destruct (execute_loop_spec hd ld attempt_op wake noise (max_retries policy + 1) policy now 0 now)
    as (t & ts & l & E & Hno & Hst & Hch & Hlen & Hall); [lia..|].
  exists t, ts, l. split_and!; done.
Qed.

(** With a sleeper that wakes on time, no attempt starts later than the time
    budget after the first one began, except for the one retry that an attempt
    longer than the whole budget still gets, which starts when that one ended. *)
Theorem retry_within_budget {T} hd ld (attempt_op : nat → N → (T + Error) * N) noise policy now res t ts :
  execute_with_policy hd ld attempt_op N.add noise policy now = Some (res, t :: ts) →
  Forall (λ t', (try_start t' ≤ N.max (try_end t) (now + max_elapsed policy))%N) ts.
Proof.
  intros E. destruct (execute_loop_spec hd ld attempt_op N.add noise (max_retries policy + 1) policy now 0 now)
    as (t0 & ts0 & l & E' & Hno & _ & Hch & _); [lia..|].
  unfold execute_with_policy in E. rewrite E in E'. injection E' as _ <- <-. clear E.
  assert (∀ (t1 : Try T) ts1 l1 bound, chain hd ld N.add policy now t1 ts1 l1 →
    (1 < try_no t1 ∨ (try_end t1 ≤ bound)%N) → 0 < try_no t1 → (now + max_elapsed policy ≤ bound)%N →
    Forall (λ t' : Try T, (try_start t' ≤ bound)%N) ts1) as H.
  { induction 1 as [|t1 t2 ts1 l1 (Hn & _ & Hb & d & Hs & Hd) _ IH]; intros Hor Hpos Hle; constructor.
    - rewrite Hs. destruct Hor as [H1|H1]; [specialize (Hb H1)|]; lia.
    - apply IH; [left; lia|lia|done]. }
  apply (H t ts l); [done|right; lia|lia|lia].
Qed.

(** ** The fallback chain ([llm/src/fallback.rs]) *)

Section fallback.
Context {T : Type} (registry : str → bool) (api_keys : gmap str str).
Context (complete : str → str → str → T + Error).

(** The loop of [FallbackChain::complete], with the calls it makes. *)
Fixpoint fallback_loop (entries : list (str * str)) (last_error : option Error)
  : (T + Error) * list (str * str * str) :=
  match entries with
  | [] => (inr (default (EProvider (lit "All fallback providers exhausted")) last_error), [])
  | (provider_name, model) :: r =>
      if negb (registry provider_name) then fallback_loop r last_error
      else
        let api_key := default [] (api_keys !! provider_name) in
        let call := (provider_name, api_key, model) in
        match complete provider_name api_key model with
        | inl response => (inl response, [call])
        | inr e => let '(res, calls) := fallback_loop r (Some e) in (res, call :: calls)
        end
  end.
Definition fallback_complete (entries : list (str * str)) := fallback_loop entries None.

Definition call_of (e : str * str) : str * str * str := (e.1, default [] (api_keys !! e.1), e.2).
Definition outcome_of (e : str * str) : T + Error := complete e.1 (default [] (api_keys !! e.1)) e.2.

Lemma fallback_loop_spec entries le :
  let known := filter (λ e, registry e.1 = true) entries in
  (∃ pre e post v, known = pre ++ e :: post ∧ outcome_of e = inl v ∧
     (∀ x, x ∈ pre → ∃ err, outcome_of x = inr err) ∧
     fallback_loop entries le = (inl v, call_of <$> (pre ++ [e]))) ∨
  ((∀ x, x ∈ known → ∃ err, outcome_of x = inr err) ∧
   ∃ err, fallback_loop entries le = (inr err, call_of <$> known) ∧
     match last known with
     | Some e => outcome_of e = inr err
     | None => err = default (EProvider (lit "All fallback providers exhausted")) le
     end).
Proof.
  revert le; induction entries as [|[p m] r IH]; intros le; cbn zeta.
  { right. split; [by intros x []%elem_of_nil|]. eexists. done. }
  cbn [fallback_loop]. destruct (registry p) eqn:Ep; cbn [negb].
  2:{ rewrite filter_cons_False by (cbn; congruence). apply IH. }
  rewrite filter_cons_True by done.
  destruct (complete p (default [] (api_keys !! p)) m) as [v|err] eqn:Ec.
  { left. exists [], (p, m), (filter (λ e, registry e.1 = true) r), v.
    split_and!; [done|done|by intros x []%elem_of_nil|done]. }
  destruct (IH (Some err)) as [(pre & e & post & v & Hk & He & Hpre & ->)|(Hall & err' & -> & Hl)].
  - left. exists ((p, m) :: pre), e, post, v. split_and!; [by rewrite Hk|done| |done].
    intros x [->|Hx]%elem_of_cons; [by exists err|by apply Hpre].
  - right. split; [intros x [->|Hx]%elem_of_cons; [by exists err|by apply Hall]|].
    exists err'. split; [done|]. rewrite last_cons. destruct (last _); [done|]. by rewrite Hl.
Qed.
End fallback.

(** The fallback chain asks the registered providers in order and stops at
    the first answer, which is the result; when none answers, the result is the
    error of the last one asked. *)
Theorem fallback_first_success {T} registry keys (complete : str → str → str → T + Error) entries :
  let known := filter (λ e, registry e.1 = true) entries in
  (∃ pre e post v, known = pre ++ e :: post ∧ outcome_of keys complete e = inl v ∧
     (∀ x, x ∈ pre → ∃ err, outcome_of keys complete x = inr err) ∧
     fallback_complete registry keys complete entries = (inl v, call_of keys <$> (pre ++ [e]))) ∨
  ((∀ x, x ∈ known → ∃ err, outcome_of keys complete x = inr err) ∧
   ∃ err, fallback_complete registry keys complete entries = (inr err, call_of keys <$> known) ∧
     match last known with
     | Some e => outcome_of keys complete e = inr err
     | None => err = EProvider (lit "All fallback providers exhausted")
     end).
Proof. apply (fallback_loop_spec registry keys complete entries None). Qed.

(** ** Instances *)

(** A first attempt of 55 s that is told to come back in 30 s: the wait is cut
    to what is left of the minute, and the provider is asked again after 5 s. *)
Definition slow_then_ok (n : nat) (now : N) : (unit + Error) * N :=
  if n =? 1 then (inr (EOther (lit "HTTP 429 too many requests, retry-after: 30")), (now + from_secs 55)%N)
  else (inl (), (now + from_secs 1)%N).

Example retry_after_cut :
  match execute_with_policy no_dates never_later slow_then_ok N.add (λ _, 7%N) default_policy 0 with
  | Some (inl tt, [first; second]) =>
      as_millis (try_end first) = 55000%N ∧ as_millis (try_start second) = 60000%N
  | _ => False
  end.
Proof. vm_compute. done. Qed.

Lemma retry_within_budget_witness :
  Forall (λ t' : Try unit, (try_start t' ≤ N.max (from_secs 55) (0 + max_elapsed default_policy))%N)
    [mkTry 2 (from_secs 60) (from_secs 61) (inl ())].
Proof.
  apply (retry_within_budget no_dates never_later slow_then_ok (λ _, 7%N) default_policy 0 (inl ())
    (mkTry 1 0%N (from_secs 55) (inr (EOther (lit "HTTP 429 too many requests, retry-after: 30"))))).
  vm_compute. reflexivity.
Defined.
