(* ===== verification/ThinkTags.v ===== *)
(** [llm/src/think_tags.rs]: splitting the [<think>...</think>] at the start of a
    streamed answer into thinking. The text comes in chunks cut anywhere; the
    theorem compares any chunking with the reading of the whole text. *)

From S2P Require Import Prelude RustStr Bytes.

Definition OPEN : str := lit "<think>".
Definition CLOSE : str := lit "</think>".

(** The two events of [StreamEvent] that are emitted here. *)
Inductive StreamEvent := TextDelta (text : str) | ThinkingDelta (text : str).

Inductive State := Start | Inside | After.
Record ThinkTags := mkTags { state : State; held : str; thought : str; answered : bool }.
Definition new_tags : ThinkTags := mkTags Start [] [] false.

(** Each method gives the new state and the events it appends. *)
Definition think (self : ThinkTags) (text : str) : ThinkTags * list StreamEvent :=
  if negb (text == [])
  then (mkTags (state self) (held self) (thought self ++ text) (answered self), [ThinkingDelta text])
  else (self, []).
Definition answer (self : ThinkTags) (text : str) : ThinkTags * list StreamEvent :=
  if negb (text == [])
  then (mkTags (state self) (held self) (thought self) true, [TextDelta text])
  else (self, []).

Definition set_state (s : State) (self : ThinkTags) : ThinkTags :=
  mkTags s (held self) (thought self) (answered self).
Definition set_held (h : str) (self : ThinkTags) : ThinkTags :=
  mkTags (state self) h (thought self) (answered self).

(** [(1..CLOSE.len()).rev().find(..).unwrap_or(0)] *)
Definition keep_len (h : str) : nat :=
  default 0 (List.find (λ n, ends_with h (take n CLOSE)) (rev (seq 1 (length CLOSE - 1)))).

Definition inside (self : ThinkTags) (text : str) : ThinkTags * list StreamEvent :=
  let h := held self ++ text in
  match split_once h CLOSE with
  | Some (before, after) =>
      let rest := trim_start after in
      let '(self, thinking) := think (set_held [] self) before in
      let '(self, answering) := answer (set_state After self) rest in
      (self, thinking ++ answering)
  | None =>
      let keep := keep_len h in
      let tail := drop (length h - keep) h in
      think (set_held tail self) (take (length h - keep) h)
  end.

Definition push (self : ThinkTags) (text : str) : ThinkTags * list StreamEvent :=
  match state self with
  | After => answer self text
  | Inside => inside self text
  | Start =>
      let h := held self ++ text in
      let lead := trim_start h in
      match strip_prefix OPEN lead with
      | Some rest => inside (set_state Inside (set_held [] self)) rest
      | None =>
          if negb (starts_with OPEN lead) then answer (set_state After (set_held [] self)) h
          else (set_held h self, [])
      end
  end.

Definition finish (self : ThinkTags) : ThinkTags * list StreamEvent :=
  let h := held self in
  let self := set_held [] self in
  let '(self, out) :=
    match state self with
    | Start => answer self h
    | Inside =>
        let '(self, thinking) := think self h in
        let t := trim (thought self) in
        (self, thinking ++ (if negb (answered self) && negb (t == []) then [TextDelta t] else []))
    | After => (self, [])
    end in
  (set_state After self, out).

(** A response: its chunks, then its end. *)
Fixpoint feed (self : ThinkTags) (chunks : list str) : ThinkTags * list StreamEvent :=
  match chunks with
  | [] => (self, [])
  | c :: r =>
      let '(self, out) := push self c in
      let '(self, out') := feed self r in
      (self, out ++ out')
  end.
Definition route (chunks : list str) : list StreamEvent :=
  let '(self, out) := feed new_tags chunks in
  out ++ (finish self).2.

(** ** What was emitted *)

Definition thinking_of (e : StreamEvent) : str := match e with ThinkingDelta t => t | _ => [] end.
Definition text_of (e : StreamEvent) : str := match e with TextDelta t => t | _ => [] end.
Definition all_thinking (out : list StreamEvent) : str := mjoin (thinking_of <$> out).
Definition all_text (out : list StreamEvent) : str := mjoin (text_of <$> out).

#[local] Arguments all_thinking : simpl never.
#[local] Arguments all_text : simpl never.

Lemma all_thinking_app a b : all_thinking (a ++ b) = all_thinking a ++ all_thinking b.
Proof. unfold all_thinking. by rewrite fmap_app, join_app. Qed.
Lemma all_text_app a b : all_text (a ++ b) = all_text a ++ all_text b.
Proof. unfold all_text. by rewrite fmap_app, join_app. Qed.

Lemma think_emits self text :
  all_thinking (think self text).2 = text ∧ all_text (think self text).2 = [] ∧
  (think self text).1 = mkTags (state self) (held self) (thought self ++ text) (answered self).
Proof.
  unfold think. destruct text as [|c text]; cbn.
  - rewrite app_nil_r. by destruct self.
  - unfold all_thinking, all_text. cbn. by rewrite app_nil_r.
Qed.
Lemma answer_emits self text :
  all_text (answer self text).2 = text ∧ all_thinking (answer self text).2 = [] ∧
  state (answer self text).1 = state self ∧ held (answer self text).1 = held self ∧
  thought (answer self text).1 = thought self.
Proof.
  unfold answer. destruct text as [|c text]; cbn; [done|].
  unfold all_thinking, all_text. cbn. by rewrite app_nil_r.
Qed.

(** ** Finding the closing tag across chunks *)

(** [t] was emitted as thinking and [h] is held back: no closing tag so far, and
    any start of one at the end is held. *)
Definition inside_ok (t h : str) : Prop :=
  ¬ infix_of CLOSE (t ++ h) ∧
  ∀ n, 1 ≤ n ≤ 7 → ends_with (t ++ h) (take n CLOSE) = true → n ≤ length h.

Lemma close_length : length CLOSE = 8.
Proof. reflexivity. Qed.

(** A closing tag completed by the next chunk starts in the held text. *)
Lemma close_starts_held t h text u v :
  inside_ok t h → t ++ h ++ text = u ++ CLOSE ++ v → length t ≤ length u.
Proof.
  intros [Hn Hp] E. destruct (decide (length t ≤ length u)) as [|Hl]; [done|]. exfalso.
  rewrite app_assoc in E. assert (t ++ h = take (length (t ++ h)) (u ++ CLOSE ++ v)) as Eth
    by by rewrite <- E, take_app_length.
  rewrite take_app_ge in Eth by (rewrite length_app; lia).
  set (n := length (t ++ h) - length u) in *. assert (n = length t + length h - length u) as En
    by (unfold n; by rewrite length_app).
  destruct (decide (8 ≤ n)) as [H8|H8].
  - rewrite take_app_ge in Eth by (rewrite close_length; lia). apply Hn. rewrite Eth. by eexists _, _.
  - rewrite take_app_le in Eth by (rewrite close_length; lia).
    assert (n ≤ length h); [|lia]. apply Hp; [lia|]. apply ends_with_true. by eexists.
Qed.

Lemma keep_len_spec h :
  keep_len h ≤ length h ∧ keep_len h ≤ 7 ∧
  ∀ n, 1 ≤ n ≤ 7 → ends_with h (take n CLOSE) = true → n ≤ keep_len h.
Proof.
  unfold keep_len. rewrite close_length. change (rev (seq 1 (8 - 1))) with [7; 6; 5; 4; 3; 2; 1].
  destruct (List.find _ _) as [k|] eqn:E.
  - apply List.find_some in E as E'. destruct E' as [Hin Hk]. change (default 0 (Some k)) with k.
    assert (1 ≤ k ≤ 7) as Hr by (cbn in Hin; lia). split_and!; [|lia|].
    + apply ends_with_true in Hk as [r Hh]. rewrite Hh, length_app, length_take, close_length. lia.
    + intros n Hn He. destruct (decide (n ≤ k)) as [|Hgt]; [done|]. exfalso. revert E. cbn [List.find].
      assert (n = 7 ∨ n = 6 ∨ n = 5 ∨ n = 4 ∨ n = 3 ∨ n = 2 ∨ n = 1) as Hcases by lia.
      destruct_or! Hcases; subst n; rewrite He; repeat case_match; intros [=]; lia.
  - cbn. split_and!; [lia|lia|]. intros n Hn He. exfalso.
    assert (n ∈ [7; 6; 5; 4; 3; 2; 1]) as Hin.
    { assert (n = 7 ∨ n = 6 ∨ n = 5 ∨ n = 4 ∨ n = 3 ∨ n = 2 ∨ n = 1) as Hcases by lia. set_solver. }
    apply list_elem_of_In in Hin. apply (List.find_none _ _ E) in Hin. congruence.
Qed.

Lemma ends_with_split s p t : ends_with (s ++ t) p = true → length t ≤ length p →
  ∃ q, p = q ++ t ∧ ends_with s q = true.
Proof.
  intros [r E]%ends_with_true Hl.
  assert (t = drop (length p - length t) p) as Et.
  { apply (f_equal (drop (length s))) in E as E2. rewrite drop_app_length in E2.
    assert (length s + length t = length r + length p) as El.
    { apply (f_equal length) in E. rewrite !length_app in E. done. }
    rewrite E2 at 1. rewrite drop_app_ge by lia. f_equal. lia. }
  exists (take (length p - length t) p). split.
  - rewrite Et at 2. by rewrite take_drop.
  - apply ends_with_true. exists r. rewrite <- (take_drop (length p - length t) p) in E.
    rewrite <- Et in E. rewrite app_assoc in E. by apply app_inv_tail in E.
Qed.

Lemma inside_step t h text :
  inside_ok t h →
  match split_once (h ++ text) CLOSE with
  | Some (a, b) => split_once (t ++ h ++ text) CLOSE = Some (t ++ a, b)
  | None =>
      let k := length (h ++ text) - keep_len (h ++ text) in
      inside_ok (t ++ take k (h ++ text)) (drop k (h ++ text))
  end.
Proof.
  intros Hok. destruct (split_once (h ++ text) CLOSE) as [[a b]|] eqn:E.
  - apply split_once_Some in E as [E Hm]. apply split_once_Some. split.
    + by rewrite E, <- app_assoc.
    + intros a' b' Eb. pose proof (close_starts_held _ _ _ _ _ Hok Eb) as Hl.
      assert (∃ u, a' = t ++ u) as [u ->].
      { apply (f_equal (take (length a'))) in Eb as Ea. rewrite take_app_length, take_app_ge in Ea by done.
        eauto. }
      rewrite <- app_assoc in Eb. apply app_inv_head in Eb. specialize (Hm _ _ Eb). rewrite !length_app. lia.
  - cbv zeta. apply split_once_None in E. unfold inside_ok. rewrite <- app_assoc, take_drop. split.
    + intros (u & v & Euv). pose proof (close_starts_held _ _ _ _ _ Hok Euv) as Hl. apply E.
      assert (∃ w, u = t ++ w) as [w ->].
      { apply (f_equal (take (length u))) in Euv as Ea. rewrite take_app_length, take_app_ge in Ea by done.
        eauto. }
      rewrite <- app_assoc in Euv. apply app_inv_head in Euv. by exists w, v.
    + intros n Hn He. destruct (keep_len_spec (h ++ text)) as (Hk & _ & Hmax).
      rewrite length_drop. replace (length (h ++ text) - (length (h ++ text) - keep_len (h ++ text)))
        with (keep_len (h ++ text)) by lia.
      destruct (decide (n ≤ length (h ++ text))) as [Hle|Hgt].
      * apply Hmax; [done|]. apply ends_with_true in He as [r Er]. apply ends_with_true.
        exists (drop (length t) r). apply (f_equal (drop (length t))) in Er as E2.
        rewrite drop_app_length in E2. rewrite E2, drop_app_le; [done|].
        apply (f_equal length) in Er. rewrite !length_app, length_take, close_length in Er.
        rewrite length_app in Hle. lia.
      * exfalso. rewrite app_assoc in He. apply ends_with_split in He as (q & Eq & He).
        2:{ rewrite length_take, close_length. rewrite length_app in Hgt. lia. }
        assert (q = take (n - length text) CLOSE) as ->.
        { apply (f_equal (take (n - length text))) in Eq as E3. rewrite take_take, Nat.min_l in E3 by lia.
          rewrite E3. rewrite take_app_le, take_ge; [done| |].
          - apply (f_equal length) in Eq. rewrite length_take, length_app, close_length in Eq. lia.
          - apply (f_equal length) in Eq. rewrite length_take, length_app, close_length in Eq. lia. }
        destruct Hok as [_ Hp]. rewrite length_app in Hgt.
        assert (n - length text ≤ length h); [apply Hp; [lia|done]|lia].
Qed.

(** ** What the events may say, for the whole text *)

Definition whitespace (ws : str) : Prop := Forall (λ c, is_whitespace c = true) ws.

(** [body], the text after [<think>], as the events show it: everything before
    the closing tag is thinking, and the answer follows it up to leading white
    space; without a closing tag all of it is thinking and, at the end, the answer. *)
Definition reads_body (body : str) (out : list StreamEvent) : Prop :=
  match split_once body CLOSE with
  | Some (th, rest) =>
      all_thinking out = th ∧
      ∃ ws, whitespace ws ∧ rest = ws ++ all_text out
  | None => all_thinking out = body ∧ all_text out = trim body
  end.

Definition reads (s : str) (out : list StreamEvent) : Prop :=
  match strip_prefix OPEN (trim_start s) with
  | Some body => reads_body body out
  | None => all_thinking out = [] ∧ all_text out = s
  end.

(** ** The state between two chunks *)

(** After [<think>], with [body] received. *)
Definition in_body (body : str) (self : ThinkTags) (out : list StreamEvent) : Prop :=
  match state self with
  | Inside =>
      answered self = false ∧ body = thought self ++ held self ∧ inside_ok (thought self) (held self) ∧
      all_thinking out = thought self ∧ all_text out = []
  | After =>
      ∃ ws, whitespace ws ∧ split_once body CLOSE = Some (all_thinking out, ws ++ all_text out)
  | Start => False
  end.

Definition received (s : str) (self : ThinkTags) (out : list StreamEvent) : Prop :=
  match strip_prefix OPEN (trim_start s) with
  | Some body => in_body body self out
  | None =>
      thought self = [] ∧ all_thinking out = [] ∧
      if starts_with OPEN (trim_start s)
      then state self = Start ∧ held self = s ∧ answered self = false ∧ all_text out = []
      else state self = After ∧ all_text out = s
  end.

Lemma trim_start_whitespace s : ∃ ws, whitespace ws ∧ s = ws ++ trim_start s.
Proof.
  exists (take_while is_whitespace s). split; [apply take_while_all|]. symmetry. apply take_drop_while.
Qed.

Lemma trim_start_app s t : trim_start s ≠ [] → trim_start (s ++ t) = trim_start s ++ t.
Proof.
  unfold trim_start, trim_start_matches. induction s as [|c s IH]; cbn; [done|].
  by destruct (is_whitespace c).
Qed.

Lemma split_once_app s p a b t : split_once s p = Some (a, b) → split_once (s ++ t) p = Some (a, b ++ t).
Proof.
  intros [-> Hm]%split_once_Some. apply split_once_Some. split; [by rewrite <- !app_assoc|].
  intros a' b' E. destruct (decide (length a ≤ length a')) as [|Hl]; [done|]. exfalso.
  apply Hl. set (n := length (a' ++ p)).
  assert (a' ++ p = take n (a ++ p ++ b)) as E2.
  { apply (f_equal (take n)) in E. unfold n in E |- *.
    by rewrite (app_assoc a' p b'), take_app_length, take_app_le in E by (rewrite !length_app; lia). }
  apply (Hm a' (drop n (a ++ p ++ b))). by rewrite (app_assoc a' p), E2, take_drop.
Qed.

(** [push] inside the tag, and right after the opening tag was found. *)
Lemma inside_in_body body self text out :
  state self = Inside → in_body body self out →
  in_body (body ++ text) (inside self text).1 (out ++ (inside self text).2).
Proof.
  unfold in_body at 1, inside. intros Es. rewrite Es. intros (Ha & -> & Hok & Ht & Hx).
  pose proof (inside_step _ _ text Hok) as Hstep. rewrite <- app_assoc.
  destruct (split_once (held self ++ text) CLOSE) as [[a b]|].
  - destruct (trim_start_whitespace b) as (ws & Hws & Eb).
    pose proof (think_emits (set_held [] self) a) as (Hth & Htx & _).
    destruct (think (set_held [] self) a) as [self1 out1].
    pose proof (answer_emits (set_state After self1) (trim_start b)) as (Hax & Hath & Hst & _ & _).
    destruct (answer (set_state After self1) (trim_start b)) as [self2 out2]. cbn in *.
    unfold in_body. rewrite Hst. exists ws. split; [done|].
    rewrite !all_thinking_app, !all_text_app, Ht, Hx, Hth, Htx, Hax, Hath, Hstep. cbn.
    by rewrite app_nil_r, <- Eb.
  - cbv zeta in Hstep. set (k := _ - keep_len _) in *.
    pose proof (think_emits (set_held (drop k (held self ++ text)) self) (take k (held self ++ text)))
      as (Hth & Htx & ->).
    cbn [fst]. unfold in_body. cbn. rewrite Es, all_thinking_app, all_text_app, Ht, Hx, Hth, Htx.
    split_and!; [done| |done|done|done]. by rewrite <- app_assoc, take_drop.
Qed.

Lemma after_in_body body self text out :
  state self = After → in_body body self out →
  in_body (body ++ text) (answer self text).1 (out ++ (answer self text).2).
Proof.
  intros Es. pose proof (answer_emits self text) as (Hx & Ht & Hs & _).
  unfold in_body. rewrite Hs, Es. intros (ws & Hws & E). exists ws. split; [done|].
  rewrite (split_once_app _ _ _ _ _ E), all_thinking_app, all_text_app, Hx, Ht.
  by rewrite app_nil_r, <- app_assoc.
Qed.

(** Text that is neither the tag nor the start of it stays so. *)
Lemma no_tag_app s t :
  strip_prefix OPEN s = None → starts_with OPEN s = false →
  strip_prefix OPEN (s ++ t) = None ∧ starts_with OPEN (s ++ t) = false.
Proof.
  intros Hp Hs. split.
  - destruct (strip_prefix OPEN (s ++ t)) as [r|] eqn:Er; [|done]. exfalso.
    apply strip_prefix_Some in Er. destruct (decide (length OPEN ≤ length s)) as [Hl|Hl].
    + apply (f_equal (take (length OPEN))) in Er as E2. rewrite take_app_le, take_app_length in E2 by done.
      assert (s = OPEN ++ drop (length OPEN) s) as E3 by (rewrite <- E2 at 1; by rewrite take_drop).
      apply strip_prefix_Some in E3. congruence.
    + apply (f_equal (take (length s))) in Er as E2. rewrite take_app_length, take_app_le in E2 by lia.
      enough (starts_with OPEN s = true) by congruence.
      apply starts_with_true. exists (drop (length s) OPEN). rewrite E2 at 1. by rewrite take_drop.
  - apply not_true_is_false. intros [r Er]%starts_with_true.
    enough (starts_with OPEN s = true) by congruence. apply starts_with_true.
    exists (t ++ r). by rewrite Er, <- app_assoc.
Qed.

Lemma push_received s self text out :
  received s self out → received (s ++ text) (push self text).1 (out ++ (push self text).2).
Proof.
  unfold received at 1, push. destruct (strip_prefix OPEN (trim_start s)) as [body|] eqn:Eb.
  - intros H. apply strip_prefix_Some in Eb.
    unfold received. rewrite trim_start_app by (rewrite Eb; done). rewrite Eb, <- app_assoc.
    rewrite (proj2 (strip_prefix_Some OPEN _ (body ++ text)) eq_refl).
    destruct (state self) eqn:Es; [by unfold in_body in H; rewrite Es in H| |].
    + by apply inside_in_body.
    + by apply after_in_body.
  - destruct (starts_with OPEN (trim_start s)) eqn:El; intros (Hth & Ht & Hrest).
    + destruct Hrest as (Es & -> & Ha & Hx). rewrite Es. unfold received.
      destruct (strip_prefix OPEN (trim_start (s ++ text))) as [rest|] eqn:Er.
      * apply (inside_in_body [] (set_state Inside (set_held [] self)) rest out); [done|].
        unfold in_body. cbn. rewrite Hth, Ht, Hx, Ha. split_and!; try done.
        split; [intros (a & b & E); by destruct a|]. intros n Hn He. exfalso.
        apply ends_with_true in He as [r E]. destruct r; [|done]. destruct n; [lia|done].
      * destruct (starts_with OPEN (trim_start (s ++ text))); cbn [negb].
        -- cbn. rewrite app_nil_r. split_and!; done.
        -- pose proof (answer_emits (set_state After (set_held [] self)) (s ++ text)) as (Ax & At & As & _ & Ath).
           rewrite As, Ath, all_thinking_app, all_text_app, Ht, Hx, Ax, At. split_and!; done.
    + destruct Hrest as (Es & Hx). rewrite Es. unfold received.
      assert (trim_start s ≠ []) as Hne by (intros E; by rewrite E in El).
      rewrite trim_start_app by done.
      destruct (no_tag_app (trim_start s) text) as [-> ->]; [done..|].
      pose proof (answer_emits self text) as (Ax & At & As & _ & Ath).
      rewrite As, Ath, all_thinking_app, all_text_app, Ht, Hx, Ax, At. split_and!; done.
Qed.

Lemma feed_received chunks s self out :
  received s self out →
  received (s ++ mjoin chunks) (feed self chunks).1 (out ++ (feed self chunks).2).
Proof.
  revert s self out; induction chunks as [|c r IH]; intros s self out H; cbn [feed].
  - cbn. by rewrite !app_nil_r.
  - apply (push_received _ _ c) in H. destruct (push self c) as [self1 out1].
    specialize (IH _ _ _ H). cbn [fst] in IH. destruct (feed self1 r) as [self2 out2].
    change (mjoin (c :: r)) with (c ++ mjoin r). cbn [fst snd] in *.
    by rewrite !app_assoc.
Qed.

Lemma finish_reads s self out : received s self out → reads s (out ++ (finish self).2).
Proof.
  unfold received, reads. destruct (strip_prefix OPEN (trim_start s)) as [body|].
  - unfold in_body, reads_body, finish. destruct (state self) eqn:Es; [done| |].
    + intros (Ha & -> & [Hn _] & Ht & Hx). rewrite (proj2 (split_once_None _ _) Hn). cbn [set_held state].
      rewrite Es. pose proof (think_emits (set_held [] self) (held self)) as (Hth & Htx & E).
      destruct (think (set_held [] self) (held self)) as [self1 out1]. cbn [fst snd] in *. subst self1.
      cbn [answered thought set_held]. rewrite Ha, !all_thinking_app, !all_text_app, Ht, Hx, Hth, Htx. cbn [negb andb].
      destruct (decide (trim (thought self ++ held self) = [])) as [E|E].
      * rewrite E, bool_decide_true by done. cbn. by rewrite app_nil_r.
      * rewrite bool_decide_false by done. unfold all_thinking, all_text. cbn. by rewrite !app_nil_r.
    + cbn. intros (ws & Hws & ->). rewrite Es. cbn. rewrite app_nil_r. eauto.
  - intros (Hth & Ht & H). unfold finish.
    destruct (starts_with OPEN (trim_start s)).
    + destruct H as (Es & Hh & Ha & Hx). cbn [set_held state]. rewrite Es.
      pose proof (answer_emits (set_held [] self) (held self)) as (Ax & At & _).
      destruct (answer (set_held [] self) (held self)) as [self1 out1]. cbn [snd] in *.
      by rewrite all_thinking_app, all_text_app, Ht, Hx, At, Ax, Hh.
    + destruct H as (Es & Hx). cbn [set_held state]. rewrite Es. cbn [snd]. by rewrite app_nil_r.
Qed.

(** The events of a streamed response do not depend on where
    the stream was cut, as far as the program promises: for every cutting of a
    text into chunks, also inside the tags, the concatenated thinking and answer
    are those of the whole text. Without [<think>] at its start (white space
    aside) the text is answered unchanged, later tags included; with it, what is
    before the first [</think>] is thinking, exactly, and the rest is the answer
    up to leading white space; a tag that never closes makes everything
    thinking, repeated trimmed as the answer so nothing is lost. *)
Theorem think_tags_chunking (chunks : list str) : reads (mjoin chunks) (route chunks).
Proof.
  unfold route. pose proof (feed_received chunks [] new_tags [] ltac:(by split_and!)) as H.
  destruct (feed new_tags chunks) as [self out]. by apply finish_reads in H.
Qed.

(** The white space after the closing tag is dropped only when it comes in the
    chunk that completes the tag: the same text gives two answers. *)
Example answer_depends_on_chunks :
  all_text (route [lit "<think>a</think> b"]) = lit "b" ∧
  all_text (route [lit "<think>a</think>"; lit " b"]) = lit " b".
Proof. by vm_compute. Qed.
