(* ===== verification/LineBuffer.v ===== *)
(** [llm/src/line_buffer.rs]: lines out of a byte stream whose chunks are cut
    anywhere, also inside a character. With it the part of [std] it rests on:
    [String::from_utf8_lossy]. *)

From S2P Require Import Prelude RustStr Bytes.

(** ** [String::from_utf8_lossy]

    An ill-formed sequence is replaced by U+FFFD, one for each maximal part that
    starts a well-formed one. [decode_one] reads the first character: its value and
    the number of bytes it takes. *)
Definition REPLACEMENT : rchar := 65533.

Definition between (lo hi b : N) : bool := (lo <=? b)%N && (b <=? hi)%N.
Definition continuation (b : N) : bool := between 128 191 b.

(** The bytes that may follow a three- or four-byte lead. *)
Definition second_of_three (b0 b : N) : bool :=
  if (b0 =? 224)%N then between 160 191 b
  else if (b0 =? 237)%N then between 128 159 b
  else continuation b.
Definition second_of_four (b0 b : N) : bool :=
  if (b0 =? 240)%N then between 144 191 b
  else if (b0 =? 244)%N then between 128 143 b
  else continuation b.

Definition decode_one (b0 : N) (r : list N) : rchar * nat :=
  if (b0 <? 128)%N then (b0, 1)
  else if between 194 223 b0 then
    match r with
    | b1 :: _ => if continuation b1 then (((b0 - 192) * 64 + (b1 - 128))%N, 2) else (REPLACEMENT, 1)
    | [] => (REPLACEMENT, 1)
    end
  else if between 224 239 b0 then
    match r with
    | b1 :: r =>
        if second_of_three b0 b1 then
          match r with
          | b2 :: _ =>
              if continuation b2
              then (((b0 - 224) * 4096 + (b1 - 128) * 64 + (b2 - 128))%N, 3)
              else (REPLACEMENT, 2)
          | [] => (REPLACEMENT, 2)
          end
        else (REPLACEMENT, 1)
    | [] => (REPLACEMENT, 1)
    end
  else if between 240 244 b0 then
    match r with
    | b1 :: r =>
        if second_of_four b0 b1 then
          match r with
          | b2 :: r =>
              if continuation b2 then
                match r with
                | b3 :: _ =>
                    if continuation b3
                    then (((b0 - 240) * 262144 + (b1 - 128) * 4096 + (b2 - 128) * 64 + (b3 - 128))%N, 4)
                    else (REPLACEMENT, 3)
                | [] => (REPLACEMENT, 3)
                end
              else (REPLACEMENT, 2)
          | [] => (REPLACEMENT, 2)
          end
        else (REPLACEMENT, 1)
    | [] => (REPLACEMENT, 1)
    end
  else (REPLACEMENT, 1).

(** [skip] counts the bytes of a character still to be passed. *)
Fixpoint lossy_go (skip : nat) (bytes : list N) : str :=
  match bytes with
  | [] => []
  | b :: r =>
      match skip with
      | S k => lossy_go k r
      | O => let '(c, n) := decode_one b r in c :: lossy_go (pred n) r
      end
  end.
Definition from_utf8_lossy (bytes : list N) : str := lossy_go 0 bytes.

(** ** The buffer *)

Record LineBuffer := mkBuffer { buf : list N; start : nat }.
Definition new_buffer : LineBuffer := mkBuffer [] 0.

(** [drain(..start)] and [&buf[start..]] panic ([None]) past the end. *)
Definition unread (self : LineBuffer) : option (list N) :=
  if start self <=? length (buf self) then Some (drop (start self) (buf self)) else None.

Definition push (self : LineBuffer) (bytes : list N) : option LineBuffer :=
  rest ← unread self;
  Some (mkBuffer (rest ++ bytes) 0).

(** [rest.iter().position(|&b| b == b'\n')]. *)
Definition newline_at (rest : list N) : option nat := find_index (N.eqb cLF) rest.

Definition next_line (self : LineBuffer) : option (option str * LineBuffer) :=
  rest ← unread self;
  match newline_at rest with
  | None => Some (None, self)
  | Some pos => Some (Some (trim (from_utf8_lossy (take pos rest))), mkBuffer (buf self) (start self + (pos + 1)))
  end.

Definition take_rest (self : LineBuffer) : option (str * LineBuffer) :=
  rest ← unread self;
  Some (trim (from_utf8_lossy rest), mkBuffer [] 0).

(** The callers' loop: [while let Some(line) = buffer.next_line()] after each chunk,
    and [take_rest] at the end of the stream. The outer [None] is a panic or fuel
    that ran out. *)
Fixpoint read_lines (fuel : nat) (self : LineBuffer) : option (list str * LineBuffer) :=
  match fuel with
  | O => None
  | S k =>
      '(l, self) ← next_line self;
      match l with
      | None => Some ([], self)
      | Some line => '(lines, self) ← read_lines k self; Some (line :: lines, self)
      end
  end.
Fixpoint read_stream (self : LineBuffer) (chunks : list (list N)) : option (list str * str) :=
  match chunks with
  | [] => '(rest, _) ← take_rest self; Some ([], rest)
  | c :: r =>
      self ← push self c;
      '(lines, self) ← read_lines (S (length (buf self))) self;
      '(lines', rest) ← read_stream self r;
      Some (lines ++ lines', rest)
  end.

(** ** Decoding what was encoded *)

(** A Unicode scalar value: what a [char] can be. *)
Definition is_char (c : rchar) : Prop := (c < 55296 ∨ 57344 ≤ c < 1114112)%N.

#[export] Instance is_char_dec c : Decision (is_char c).
Proof. unfold is_char. apply _. Defined.

Ltac div64 c :=
  let q := fresh "q" in let r := fresh "r" in
  pose proof (N.div_mod c 64 ltac:(done)); pose proof (N.mod_lt c 64 ltac:(done));
  set (q := (c / 64)%N) in *; set (r := (c mod 64)%N) in *; clearbody q r.

Lemma between_true lo hi b : between lo hi b = true ↔ (lo ≤ b ≤ hi)%N.
Proof. unfold between. rewrite andb_true_iff, !N.leb_le. done. Qed.
Lemma between_false lo hi b : between lo hi b = false ↔ (b < lo ∨ hi < b)%N.
Proof. unfold between. rewrite andb_false_iff, !N.leb_gt. done. Qed.
Lemma continuation_of x : (x < 64)%N → continuation (128 + x) = true.
Proof. intros H. apply between_true. lia. Qed.

Lemma decode_one_utf8 c t : is_char c →
  ∃ b r, utf8_char c = b :: r ∧ decode_one b (r ++ t) = (c, S (length r)).
Proof.
  intros Hc. unfold utf8_char.
  destruct (N.ltb_spec c 128) as [H1|H1].
  { eexists _, _; split; [done|]. unfold decode_one. by rewrite (proj2 (N.ltb_lt _ _) H1). }
  destruct (N.ltb_spec c 2048) as [H2|H2].
  { eexists _, _; split; [done|]. div64 c. cbn [app length]. unfold decode_one.
    rewrite (proj2 (N.ltb_ge _ _)) by lia. rewrite (proj2 (between_true 194 223 _)) by lia.
    rewrite continuation_of by done. f_equal. lia. }
  replace (c / 4096)%N with (c / 64 / 64)%N by (rewrite N.Div0.div_div; done).
  destruct (N.ltb_spec c 65536) as [H3|H3].
  { eexists _, _; split; [done|]. div64 c. div64 q. cbn [app length]. unfold decode_one.
    rewrite (proj2 (N.ltb_ge _ _)) by lia. rewrite (proj2 (between_false 194 223 _)) by lia.
    rewrite (proj2 (between_true 224 239 _)) by lia.
    assert (second_of_three (224 + q0) (128 + r0) = true) as ->.
    { unfold second_of_three. repeat case_match; boolp; apply between_true; unfold is_char in Hc; lia. }
    rewrite continuation_of by done. f_equal. lia. }
  replace (c / 262144)%N with (c / 64 / 64 / 64)%N by (rewrite !N.Div0.div_div; done).
  eexists _, _; split; [done|]. div64 c. div64 q. div64 q0. cbn [app length]. unfold decode_one.
  rewrite (proj2 (N.ltb_ge _ _)) by lia. rewrite (proj2 (between_false 194 223 _)) by lia.
  rewrite (proj2 (between_false 224 239 _)) by lia.
  rewrite (proj2 (between_true 240 244 _)) by (unfold is_char in Hc; lia).
  assert (second_of_four (240 + q1) (128 + r1) = true) as ->.
  { unfold second_of_four. repeat case_match; boolp; apply between_true; unfold is_char in Hc; lia. }
  rewrite !continuation_of by done. f_equal. lia.
Qed.

Lemma lossy_go_skip a t : lossy_go (length a) (a ++ t) = lossy_go 0 t.
Proof. induction a as [|b a IH]; cbn; [by destruct t|done]. Qed.

Lemma from_utf8_lossy_utf8 s : Forall is_char s → from_utf8_lossy (utf8 s) = s.
Proof.
  unfold from_utf8_lossy, utf8. induction 1 as [|c s Hc _ IH]; [done|].
  change (mjoin (utf8_char <$> c :: s)) with (utf8_char c ++ mjoin (utf8_char <$> s)).
  destruct (decode_one_utf8 c (mjoin (utf8_char <$> s)) Hc) as (b & r & -> & E).
  cbn [app lossy_go]. rewrite E. cbn [pred]. by rewrite lossy_go_skip, IH.
Qed.

(** ** Lines of a stream *)

Definition shown (line : list N) : str := trim (from_utf8_lossy line).

Lemma find_index_split f (s : str) :
  match find_index f s with
  | None => split_on f s = [s]
  | Some pos => split_on f s = take pos s :: split_on f (drop (pos + 1) s) ∧ pos < length s
  end.
Proof.
  induction s as [|c r IH]; cbn [find_index split_on]; [done|]. destruct (f c) eqn:E.
  - cbn. split; [by rewrite drop_0|lia].
  - destruct (find_index f r) as [pos|]; cbn [fmap option_fmap option_map].
    + destruct IH as [-> Hl]. cbn. split; [done|lia].
    + by rewrite IH.
Qed.

Lemma split_on_append f (a b : str) ls t :
  split_on f a = ls ++ [t] → split_on f (a ++ b) = ls ++ split_on f (t ++ b).
Proof.
  revert ls t; induction a as [|c a IH]; intros ls t; cbn [split_on app].
  - destruct ls as [|x ls]; [by intros [= <-]|]. by destruct ls.
  - destruct (f c) eqn:Ec.
    + destruct ls as [|l ls]; cbn [app]; intros [= <- E].
      * by apply split_on_nonempty in E.
      * by rewrite (IH _ _ E).
    + destruct (split_on f a) as [|p ps] eqn:Ea; [by apply split_on_nonempty in Ea|].
      destruct ls as [|l ls]; cbn [app]; intros [= <- E].
      * subst ps. rewrite (IH [] p eq_refl). cbn [app split_on]. rewrite Ec. done.
      * subst ps. rewrite (IH (p :: ls) t eq_refl). done.
Qed.

Lemma unread_Some self rest :
  unread self = Some rest ↔ start self ≤ length (buf self) ∧ rest = drop (start self) (buf self).
Proof. unfold unread. destruct (Nat.leb_spec (start self) (length (buf self))); naive_solver lia. Qed.

Lemma read_lines_spec fuel self rest :
  unread self = Some rest → length rest < fuel →
  ∃ ls t self', read_lines fuel self = Some (shown <$> ls, self') ∧
    split_on (N.eqb cLF) rest = ls ++ [t] ∧ split_on (N.eqb cLF) t = [t] ∧ unread self' = Some t.
Proof.
  revert self rest; induction fuel as [|k IH]; intros self rest Hu Hf; [lia|]. cbn [read_lines].
  unfold next_line at 1. rewrite Hu. cbn [mbind option_bind]. unfold newline_at.
  pose proof (find_index_split (N.eqb cLF) rest) as Hs.
  destruct (find_index (N.eqb cLF) rest) as [pos|]; cbn.
  - destruct Hs as [Hs Hl]. set (self1 := mkBuffer _ _).
    assert (unread self1 = Some (drop (pos + 1) rest)) as Hu1.
    { apply unread_Some in Hu as [Hle ->]. apply unread_Some. cbn. rewrite drop_drop.
      rewrite length_drop in Hl. split; [lia|done]. }
    destruct (IH self1 _ Hu1 ltac:(rewrite length_drop; lia)) as (ls & t & self' & E & Es & Et & Hu').
    rewrite E. cbn. exists (take pos rest :: ls), t, self'.
    split_and!; [done| |done|done]. by rewrite Hs, Es.
  - exists [], rest, self. split_and!; done.
Qed.

Lemma read_stream_spec chunks self rest :
  unread self = Some rest → split_on (N.eqb cLF) rest = [rest] →
  ∃ ls t, read_stream self chunks = Some (shown <$> ls, shown t) ∧
          split_on (N.eqb cLF) (rest ++ mjoin chunks) = ls ++ [t].
Proof.
  revert self rest; induction chunks as [|c r IH]; intros self rest Hu Hr; cbn [read_stream].
  - unfold take_rest. rewrite Hu. cbn. exists [], rest. by rewrite app_nil_r.
  - unfold push. rewrite Hu. cbn [mbind option_bind]. set (self1 := mkBuffer _ 0).
    assert (unread self1 = Some (rest ++ c)) as Hu1 by (apply unread_Some; cbn; split; [lia|done]).
    destruct (read_lines_spec (S (length (buf self1))) self1 _ Hu1 ltac:(cbn; lia))
      as (ls & t & self' & -> & Es & Et & Hu'). cbn [mbind option_bind].
    destruct (IH self' t Hu' Et) as (ls' & t' & -> & Es'). cbn [mbind option_bind].
    exists (ls ++ ls'), t'. split; [by rewrite fmap_app|].
    change (mjoin (c :: r)) with (c ++ mjoin r).
    rewrite app_assoc, (split_on_append _ _ _ _ _ Es), Es'. by rewrite app_assoc.
Qed.

(** A newline byte is a newline character. *)
Lemma utf8_char_no_newline c : c ≠ cLF → Forall (λ b, (cLF =? b)%N = false) (utf8_char c).
Proof.
  intros Hc. unfold utf8_char, cLF in *.
  repeat case_match; repeat constructor; apply N.eqb_neq; try lia;
    match goal with |- _ ≠ (128 + ?x)%N => generalize x; lia | |- _ ≠ (_ + ?x)%N => generalize x; lia end.
Qed.

Lemma split_on_cons_prefix f (a s : str) p ps :
  Forall (λ b, f b = false) a → split_on f s = p :: ps → split_on f (a ++ s) = (a ++ p) :: ps.
Proof.
  intros Ha Hs. induction Ha as [|b a Hb _ IH]; [done|]. cbn [app split_on]. by rewrite Hb, IH.
Qed.

Lemma split_on_utf8 s : split_on (N.eqb cLF) (utf8 s) = utf8 <$> split_on (N.eqb cLF) s.
Proof.
  induction s as [|c s IH]; [done|]. change (utf8 (c :: s)) with (utf8_char c ++ utf8 s).
  cbn [split_on]. destruct (N.eqb_spec cLF c) as [<-|Hc].
  - change (utf8_char cLF ++ utf8 s) with (cLF :: utf8 s). cbn [split_on]. by rewrite N.eqb_refl, IH.
  - destruct (split_on (N.eqb cLF) s) as [|p ps] eqn:Es; [by apply split_on_nonempty in Es|].
    by rewrite (split_on_cons_prefix _ _ _ _ _ (utf8_char_no_newline c ltac:(done)) IH).
Qed.

Lemma split_on_chars s : Forall is_char s → Forall (Forall is_char) (split_on (N.eqb cLF) s).
Proof.
  induction 1 as [|c s Hc _ IH]; cbn [split_on]; [by repeat constructor|].
  destruct (cLF =? c)%N; [by constructor|].
  destruct (split_on (N.eqb cLF) s) as [|p ps].
  - constructor; [|done]. by constructor.
  - apply Forall_cons in IH as [Hp Hps]. constructor; [|done]. by constructor.
Qed.

(** Whatever way the bytes of a text are cut into chunks, inside
    a character included, the lines a reader gets, and the unterminated rest at the
    end, are the lines of the text, trimmed: no character is replaced, no line is
    lost, split or joined, and no slice is out of range. *)
Theorem line_buffer_lines (s : str) (chunks : list (list N)) :
  Forall is_char s → mjoin chunks = utf8 s →
  ∃ lines rest, read_stream new_buffer chunks = Some (lines, rest) ∧
                lines ++ [rest] = trim <$> split_on (N.eqb cLF) s.
Proof.
  intros Hs Hj. destruct (read_stream_spec chunks new_buffer [] eq_refl eq_refl) as (ls & t & -> & E).
  eexists _, _; split; [done|]. cbn [app] in E. rewrite Hj, split_on_utf8 in E.
  change ((shown <$> ls) ++ [shown t]) with ((shown <$> ls) ++ (shown <$> [t])). rewrite <- fmap_app, <- E.
  rewrite <- list_fmap_compose. apply list_fmap_ext. intros i l Hl. unfold compose, shown.
  pose proof (split_on_chars s Hs) as Hf. rewrite Forall_lookup in Hf.
  by rewrite from_utf8_lossy_utf8 by by eapply Hf.
Qed.

(** A three-byte and a four-byte character, both cut in the middle. *)
Definition sample : str := lit "data: " ++ [8364; 128512; 10]%N ++ lit "end".
Definition sample_chunks : list (list N) :=
  [take 7 (utf8 sample); take 4 (drop 7 (utf8 sample)); drop 11 (utf8 sample)].

Lemma line_buffer_lines_witness :
  Forall is_char sample ∧ mjoin sample_chunks = utf8 sample ∧
  ∃ lines rest, read_stream new_buffer sample_chunks = Some (lines, rest) ∧
                lines ++ [rest] = trim <$> split_on (N.eqb cLF) sample.
Proof.
  assert (Forall is_char sample) as H by by apply (bool_decide_unpack _).
  assert (mjoin sample_chunks = utf8 sample) as Hj by (vm_compute; reflexivity).
  split_and!; [done|done|]. exact (line_buffer_lines sample sample_chunks H Hj).
Defined.

Example read_stream_ex :
  read_stream new_buffer sample_chunks = Some ([lit "data: " ++ [8364; 128512]%N], lit "end") ∧
  from_utf8_lossy [240; 159; 152; 97]%N = [REPLACEMENT; 97]%N.
Proof. split; vm_compute; reflexivity. Qed.
