(* ===== verification/Diff.v ===== *)
(** Diffs and their previews ([format/src/diff.rs]): the longest common subsequence,
    the coloured diff made from it, the numbered rows of an edit preview and reading
    them back. *)

From S2P Require Import Prelude RustStr Bytes.

(** ** Longest common subsequence *)

Section lcs.
Context {A : Type} `{!EqDecision A}.
Implicit Types (a b : list A).

(** A row of [dp] from the one above it: [above] is its rest from the diagonal entry
    on, [left] the entry just computed. *)
Fixpoint fill_row (x : A) (b : list A) (above : list nat) (left : nat) : list nat :=
  match b, above with
  | y :: b, diag :: ((up :: _) as above) =>
      let v := if bool_decide (x = y) then diag + 1 else max up left in
      v :: fill_row x b above v
  | _, _ => []
  end.
Definition next_row (b : list A) (above : list nat) (x : A) : list nat := 0 :: fill_row x b above 0.
Fixpoint fill_rows (b : list A) (above : list nat) (a : list A) : list (list nat) :=
  match a with [] => [] | x :: a => let row := next_row b above x in row :: fill_rows b row a end.
Definition dp_table (a b : list A) : list (list nat) :=
  let row0 := replicate (length b + 1) 0 in row0 :: fill_rows b row0 a.
Definition entry (dp : list (list nat)) (i j : nat) : option nat := row ← dp !! i; row !! j.

(** What is pushed, from the end of both lists. *)
Fixpoint backtrack (fuel : nat) (dp : list (list nat)) (a b : list A) (i j : nat) : option (list (nat * nat)) :=
  match i, j with
  | S i', S j' =>
      match fuel with
      | O => None
      | S k =>
          x ← a !! i'; y ← b !! j';
          if bool_decide (x = y) then r ← backtrack k dp a b i' j'; Some ((i', j') :: r)
          else
            up ← entry dp i' j; left ← entry dp i j';
            if left <? up then backtrack k dp a b i' j else backtrack k dp a b i j'
      end
  | _, _ => Some []
  end.
Definition lcs (a b : list A) : option (list (nat * nat)) :=
  @rev _ <$> backtrack (length a + length b) (dp_table a b) a b (length a) (length b).

(** ** Its meaning

    The length of a longest common subsequence of the first [i] and the first [j]
    elements. *)
Fixpoint longest (a b : list A) (i : nat) : nat → nat :=
  match i with
  | O => λ _, 0
  | S i' => fix go (j : nat) : nat :=
      match j with
      | O => 0
      | S j' => if bool_decide (a !! i' = b !! j') then longest a b i' j' + 1 else max (longest a b i' j) (go j')
      end
  end.
Lemma longest_0 a b i : longest a b i 0 = 0.
Proof. by destruct i. Qed.
Lemma longest_S a b i j :
  longest a b (S i) (S j) = if bool_decide (a !! i = b !! j) then longest a b i j + 1 else max (longest a b i (S j)) (longest a b (S i) j).
Proof. done. Qed.

Lemma fill_row_spec a b i x bs pre :
  a !! i = Some x → b = pre ++ bs →
  fill_row x bs (longest a b i <$> seq (length pre) (length bs + 1)) (longest a b (S i) (length pre)) =
    longest a b (S i) <$> seq (S (length pre)) (length bs).
Proof.
  intros Hx. revert pre. induction bs as [|y bs IH]; intros pre Hb; [done|].
  cbn [length Nat.add seq fmap list_fmap fill_row]. rewrite (Nat.add_1_r (length bs)). cbn [seq fmap list_fmap].
  assert (Hy : b !! length pre = Some y) by (subst b; by rewrite list_lookup_middle).
  assert (E : (if bool_decide (x = y) then longest a b i (length pre) + 1
               else max (longest a b i (S (length pre))) (longest a b (S i) (length pre))) = longest a b (S i) (S (length pre))).
  { rewrite longest_S, Hx, Hy. by repeat case_bool_decide; try congruence. }
  rewrite E. f_equal. specialize (IH (pre ++ [y])). rewrite length_app in IH. cbn [length] in IH.
  rewrite (Nat.add_1_r (length pre)), Nat.add_1_r in IH. cbn [seq fmap list_fmap] in IH. apply IH.
  rewrite <- app_assoc. done.
Qed.
Lemma next_row_spec a b i x : a !! i = Some x →
  next_row b (longest a b i <$> seq 0 (length b + 1)) x = longest a b (S i) <$> seq 0 (length b + 1).
Proof.
  intros Hx. unfold next_row. pose proof (fill_row_spec a b i x b [] Hx eq_refl) as H. cbn [length] in H.
  rewrite longest_0 in H. rewrite H, (Nat.add_1_r (length b)). done.
Qed.
Lemma fill_rows_spec a b as_ pre : a = pre ++ as_ →
  fill_rows b (longest a b (length pre) <$> seq 0 (length b + 1)) as_ =
    (λ i, longest a b i <$> seq 0 (length b + 1)) <$> seq (S (length pre)) (length as_).
Proof.
  revert pre. induction as_ as [|x as_ IH]; intros pre Ha; [done|]. cbn [fill_rows length seq fmap list_fmap].
  assert (Hx : a !! length pre = Some x) by (subst a; by rewrite list_lookup_middle).
  rewrite (next_row_spec a b _ x Hx). f_equal. specialize (IH (pre ++ [x])). rewrite length_app in IH. cbn [length] in IH.
  rewrite Nat.add_1_r in IH. apply IH. rewrite <- app_assoc. done.
Qed.
Lemma dp_table_spec a b : dp_table a b = (λ i, longest a b i <$> seq 0 (length b + 1)) <$> seq 0 (length a + 1).
Proof.
  unfold dp_table. rewrite (Nat.add_1_r (length a)). cbn [seq fmap list_fmap].
  assert (E : replicate (length b + 1) 0 = longest a b 0 <$> seq 0 (length b + 1)).
  { assert (Hg : ∀ n k, replicate n 0 = longest a b 0 <$> seq k n) by (induction n as [|n IH]; intros k; [done|]; cbn; by rewrite (IH (S k))).
    apply Hg. }
  rewrite E. f_equal. apply (fill_rows_spec a b a []). done.
Qed.
Lemma entry_spec a b i j : i ≤ length a → j ≤ length b → entry (dp_table a b) i j = Some (longest a b i j).
Proof.
  intros Hi Hj. unfold entry. rewrite dp_table_spec, list_lookup_fmap, lookup_seq_lt by lia. cbn.
  by rewrite list_lookup_fmap, lookup_seq_lt by lia.
Qed.

(** *** Common subsequences, as places *)

Definition before (p q : nat * nat) : Prop := p.1 < q.1 ∧ p.2 < q.2.
(** Places of equal elements of the first [i] and the first [j], later ones first. *)
Inductive common (a b : list A) : nat → nat → list (nat * nat) → Prop :=
| common_nil i j : common a b i j []
| common_cons i j i' j' x ps : i' < i → j' < j → a !! i' = Some x → b !! j' = Some x → common a b i' j' ps →
    common a b i j ((i', j') :: ps).

Lemma common_mono a b i j i' j' ps : common a b i j ps → i ≤ i' → j ≤ j' → common a b i' j' ps.
Proof. intros Hc Hi Hj. destruct Hc; [constructor|]. econstructor; [lia|lia|done|done|done]. Qed.
Lemma common_bound a b ps : ∀ i j, common a b i j ps → i ≤ length a → length ps ≤ longest a b i j.
Proof.
  assert (Hgen : ∀ n i j ps, i + j ≤ n → common a b i j ps → i ≤ length a → length ps ≤ longest a b i j).
  { clear ps. induction n as [|n IH]; intros i j ps Hn Hc Hi; [destruct Hc; cbn; lia|].
    destruct Hc as [|i j i' j' x ps Hi' Hj' Hx Hy Hc]; [cbn; lia|].
    destruct i as [|i]; [lia|]. destruct j as [|j]; [lia|]. rewrite longest_S. cbn [length]. case_bool_decide as E.
    - assert (length ps ≤ longest a b i j); [|lia]. apply IH; [lia| |lia]. apply (common_mono a b i' j'); [done|lia..].
    - destruct (decide (i' = i)) as [->|].
      + assert (length ((i, j') :: ps) ≤ longest a b (S i) j); [|cbn [length] in *; lia]. apply IH; [lia| |lia].
        apply (common_cons a b _ _ _ _ x); [lia| |done|done|done]. destruct (decide (j' = j)) as [->|]; [congruence|lia].
      + assert (length ((i', j') :: ps) ≤ longest a b i (S j)); [|cbn [length] in *; lia]. apply IH; [lia| |lia].
        by apply (common_cons a b _ _ _ _ x); [lia|lia|..]. }
  intros i j. by apply (Hgen (i + j)).
Qed.
Lemma backtrack_spec a b fuel : ∀ i j, i + j ≤ fuel → i ≤ length a → j ≤ length b →
  ∃ ps, backtrack fuel (dp_table a b) a b i j = Some ps ∧ common a b i j ps ∧ length ps = longest a b i j.
Proof.
  induction fuel as [|k IH]; intros i j Hf Hi Hj.
  { assert (i = 0) as -> by lia. exists []. split_and!; [done|constructor|done]. }
  destruct i as [|i]; [exists []; split_and!; [done|constructor|done]|].
  destruct j as [|j]; [exists []; split_and!; [done|constructor|done]|]. cbn [backtrack].
  destruct (lookup_lt_is_Some_2 a i Hi) as [x Hx]. destruct (lookup_lt_is_Some_2 b j Hj) as [y Hy].
  rewrite Hx, Hy. cbn [mbind option_bind]. rewrite longest_S, Hx, Hy. case_bool_decide as E.
  - subst y. destruct (IH i j ltac:(lia) ltac:(lia) ltac:(lia)) as (ps & -> & Hc & Hl).
    exists ((i, j) :: ps). cbn. split_and!; [done|by apply (common_cons a b _ _ _ _ x); [lia|lia|..]|].
    rewrite bool_decide_eq_true_2 by done. lia.
  - rewrite bool_decide_eq_false_2 by congruence. rewrite !entry_spec by lia. cbn [mbind option_bind].
    destruct (Nat.ltb_spec (longest a b (S i) j) (longest a b i (S j))).
    + destruct (IH i (S j) ltac:(lia) ltac:(lia) ltac:(lia)) as (ps & -> & Hc & Hl). exists ps.
      split_and!; [done|by apply (common_mono a b i (S j)); [|lia..]|lia].
    + destruct (IH (S i) j ltac:(lia) ltac:(lia) ltac:(lia)) as (ps & -> & Hc & Hl). exists ps.
      split_and!; [done|by apply (common_mono a b (S i) j); [|lia..]|lia].
Qed.
Lemma lcs_spec a b : ∃ ps, lcs a b = Some (rev ps) ∧ common a b (length a) (length b) ps ∧
  ∀ qs, common a b (length a) (length b) qs → length qs ≤ length ps.
Proof.
  destruct (backtrack_spec a b (length a + length b) (length a) (length b) ltac:(lia) ltac:(lia) ltac:(lia)) as (ps & E & Hc & Hl).
  exists ps. unfold lcs. rewrite E. split_and!; [done|done|]. intros qs Hq. rewrite Hl. by apply common_bound.
Qed.
End lcs.

(** ** The coloured diff *)

Inductive row := Removed (l : str) | Added (l : str) | Kept (l : str).
Definition ESC : rchar := 27.
Definition row_text (r : row) : str :=
  match r with
  | Removed l => [ESC] ++ lit "[31m- " ++ l ++ [ESC] ++ lit "[0m" ++ [cLF]
  | Added l => [ESC] ++ lit "[32m+ " ++ l ++ [ESC] ++ lit "[0m" ++ [cLF]
  | Kept l => lit "  " ++ l ++ [cLF]
  end.

(** [n] turns of a loop that shows [ls[idx]] and steps [idx]. *)
Fixpoint rows_from (mk : str → row) (ls : list str) (idx n : nat) : option (list row) :=
  match n with
  | O => Some []
  | S n => l ← ls !! idx; r ← rows_from mk ls (S idx) n; Some (mk l :: r)
  end.
(** One pair of the subsequence: the rows shown and where both walks are after it. *)
Definition walk_step (old new : list str) (st p : nat * nat) : option (list row * (nat * nat)) :=
  let '(old_idx, new_idx) := st in
  let '(old_pos, new_pos) := p in
  removed ← rows_from Removed old old_idx (old_pos - old_idx);
  added ← rows_from Added new new_idx (new_pos - new_idx);
  l ← new !! new_pos;
  Some (removed ++ added ++ [Kept l], (max old_idx old_pos + 1, max new_idx new_pos + 1)).
Fixpoint walk (old new : list str) (st : nat * nat) (pairs : list (nat * nat)) : option (list row * (nat * nat)) :=
  match pairs with
  | [] => Some ([], st)
  | p :: pairs =>
      '(rows, st) ← walk_step old new st p;
      '(rest, st) ← walk old new st pairs;
      Some (rows ++ rest, st)
  end.
Definition diff_rows (old new : list str) : option (list row) :=
  pairs ← lcs old new;
  '(rows, (old_idx, new_idx)) ← walk old new (0, 0) pairs;
  removed ← rows_from Removed old old_idx (length old - old_idx);
  added ← rows_from Added new new_idx (length new - new_idx);
  Some (rows ++ removed ++ added).
Definition render_diff (old new : str) : option str :=
  rows ← diff_rows (lines old) (lines new); Some (mjoin (row_text <$> rows)).

(** The two sides of a script of rows, and what it changes. *)
Definition old_of (r : row) : list str := match r with Removed l | Kept l => [l] | Added _ => [] end.
Definition new_of (r : row) : list str := match r with Added l | Kept l => [l] | Removed _ => [] end.
Definition kept (r : row) : list str := match r with Kept l => [l] | _ => [] end.
Definition olds (rows : list row) : list str := mjoin (old_of <$> rows).
Definition news (rows : list row) : list str := mjoin (new_of <$> rows).
Definition is_change (r : row) : bool := match r with Kept _ => false | _ => true end.
Definition changes (rows : list row) : nat := sum_list ((λ r, if is_change r then 1 else 0) <$> rows).
Definition script (old new : list str) (rows : list row) : Prop := olds rows = old ∧ news rows = new.
Notation kept_count rows := (length (mjoin (kept <$> rows))).

Lemma olds_app r s : olds (r ++ s) = olds r ++ olds s.
Proof. unfold olds. by rewrite fmap_app, join_app. Qed.
Lemma news_app r s : news (r ++ s) = news r ++ news s.
Proof. unfold news. by rewrite fmap_app, join_app. Qed.
Lemma changes_cons r rows : changes (r :: rows) = (if is_change r then 1 else 0) + changes rows.
Proof. done. Qed.
Lemma changes_kept rows : changes rows + 2 * kept_count rows = length (olds rows) + length (news rows).
Proof.
  induction rows as [|r rows IH]; [done|]. rewrite changes_cons.
  change (olds (r :: rows)) with (old_of r ++ olds rows). change (news (r :: rows)) with (new_of r ++ news rows).
  change (mjoin (kept <$> (r :: rows))) with (kept r ++ mjoin (kept <$> rows)). rewrite !length_app. destruct r; cbn -[changes]; lia.
Qed.

Lemma rows_from_spec mk ls n : ∀ idx, idx + n ≤ length ls → rows_from mk ls idx n = Some (mk <$> take n (drop idx ls)).
Proof.
  induction n as [|n IH]; intros idx Hn; [done|]. cbn [rows_from].
  destruct (lookup_lt_is_Some_2 ls idx ltac:(lia)) as [l Hl]. rewrite Hl. cbn [mbind option_bind].
  rewrite IH by lia. cbn [mbind option_bind]. by rewrite (drop_S _ _ _ Hl).
Qed.
Lemma olds_removed ls : olds (Removed <$> ls) = ls ∧ news (Removed <$> ls) = [] ∧ kept_count (Removed <$> ls) = 0.
Proof. induction ls as [|l ls (Ho & Hn & Hk)]; [done|]. split_and!; [|exact Hn|exact Hk]. cbn. f_equal. exact Ho. Qed.
Lemma olds_added ls : olds (Added <$> ls) = [] ∧ news (Added <$> ls) = ls ∧ kept_count (Added <$> ls) = 0.
Proof. induction ls as [|l ls (Ho & Hn & Hk)]; [done|]. split_and!; [exact Ho| |exact Hk]. cbn. f_equal. exact Hn. Qed.

Lemma take_drop_to {A} (l : list A) i j : i ≤ j → take i l ++ take (j - i) (drop i l) = take j l.
Proof. intros Hij. rewrite take_take_drop. f_equal. lia. Qed.

Lemma walk_app old new ps qs st :
  walk old new st (ps ++ qs) =
    '(rows, st) ← walk old new st ps; '(rest, st) ← walk old new st qs; Some (rows ++ rest, st).
Proof.
  revert st. induction ps as [|p ps IH]; intros st; cbn [app walk].
  - cbn. by destruct (walk old new st qs) as [[? ?]|].
  - destruct (walk_step old new st p) as [[rows st1]|]; [|done]. cbn [mbind option_bind]. rewrite IH.
    destruct (walk old new st1 ps) as [[rest st2]|]; [|done]. cbn [mbind option_bind].
    destruct (walk old new st2 qs) as [[more st3]|]; [|done]. cbn. by rewrite app_assoc.
Qed.
(** A walk over places of equal lines shows both sides up to the last of them. *)
Lemma walk_spec old new i j ps : common old new i j ps → i ≤ length old → j ≤ length new →
  ∃ rows oi ni, walk old new (0, 0) (rev ps) = Some (rows, (oi, ni)) ∧ oi ≤ i ∧ ni ≤ j ∧
    script (take oi old) (take ni new) rows ∧ kept_count rows = length ps.
Proof.
  intros Hc. induction Hc as [i j|i j i' j' x ps Hi' Hj' Hx Hy Hc IH]; intros Hi Hj.
  { exists [], 0, 0. split_and!; [done|lia|lia| |done]. by rewrite !take_0. }
  destruct IH as (rows & oi & ni & Hw & Hoi & Hni & [Ho Hn] & Hk); [lia|lia|].
  cbn [rev]. rewrite walk_app, Hw. cbn [mbind option_bind walk walk_step].
  rewrite !rows_from_spec by lia. cbn [mbind option_bind]. rewrite Hy. cbn [mbind option_bind].
  eexists _, _, _. split; [reflexivity|]. rewrite !Nat.max_r by lia. split_and!; [lia|lia| |].
  - destruct (olds_removed (take (i' - oi) (drop oi old))) as (Eo & En & _).
    destruct (olds_added (take (j' - ni) (drop ni new))) as (Fo & Fn & _).
    split; rewrite ?olds_app, ?news_app; rewrite ?Ho, ?Hn, ?Eo, ?En, ?Fo, ?Fn; cbn [app]; rewrite Nat.add_1_r, ?app_nil_r, ?app_assoc, take_drop_to by lia.
    + by rewrite (take_S_r _ _ _ Hx).
    + by rewrite (take_S_r _ _ _ Hy).
  - destruct (olds_removed (take (i' - oi) (drop oi old))) as (_ & _ & Ek).
    destruct (olds_added (take (j' - ni) (drop ni new))) as (_ & _ & Fk).
    rewrite !fmap_app, !join_app, !length_app, Hk, Ek, Fk. cbn. lia.
Qed.

Lemma common_app a b c d i j (ps : list (nat * nat)) : common (A := str) a b i j ps → common (a ++ c) (b ++ d) i j ps.
Proof. induction 1; [constructor|]. econstructor; [done|done|by apply lookup_app_l_Some..|done]. Qed.
(** What a script keeps is a common subsequence. *)
Lemma script_common rows : ∃ ps, common (olds rows) (news rows) (length (olds rows)) (length (news rows)) ps ∧ length ps = kept_count rows.
Proof.
  induction rows as [|r rows (ps & Hc & Hl)] using rev_ind; [exists []; split; [constructor|done]|].
  rewrite olds_app, news_app, fmap_app, join_app, !length_app.
  assert (Ho : olds [r] = old_of r) by apply app_nil_r. assert (Hn : news [r] = new_of r) by apply app_nil_r. rewrite Ho, Hn.
  destruct r as [l|l|l]; cbn [old_of new_of].
  - exists ps. split; [|cbn; lia]. apply (common_mono _ _ (length (olds rows)) (length (news rows))); [by apply common_app|lia..].
  - exists ps. split; [|cbn; lia]. apply (common_mono _ _ (length (olds rows)) (length (news rows))); [by apply common_app|lia..].
  - exists ((length (olds rows), length (news rows)) :: ps). split; [|cbn; lia].
    apply (common_cons _ _ _ _ _ _ l); [cbn; lia|cbn; lia|by apply list_lookup_middle..|by apply common_app].
Qed.
Lemma diff_rows_spec old new : ∃ rows, diff_rows old new = Some rows ∧ script old new rows ∧
  ∀ other, script old new other → changes rows ≤ changes other.
Proof.
  destruct (lcs_spec old new) as (ps & E & Hc & Hmax). unfold diff_rows. rewrite E. cbn [mbind option_bind].
  destruct (walk_spec old new _ _ ps Hc ltac:(lia) ltac:(lia)) as (rows & oi & ni & -> & Hoi & Hni & [Ho Hn] & Hk).
  cbn [mbind option_bind]. rewrite !rows_from_spec by lia. cbn [mbind option_bind].
  destruct (olds_removed (take (length old - oi) (drop oi old))) as (Eo & En & Ek).
  destruct (olds_added (take (length new - ni) (drop ni new))) as (Fo & Fn & Fk).
  eexists. split; [reflexivity|].
  assert (Hs : script old new (rows ++ (Removed <$> take (length old - oi) (drop oi old)) ++ (Added <$> take (length new - ni) (drop ni new)))).
  { split; rewrite ?olds_app, ?news_app, ?Ho, ?Hn, ?Eo, ?En, ?Fo, ?Fn; cbn [app]; rewrite ?app_nil_r, take_drop_to by lia; by rewrite take_ge. }
  split; [exact Hs|]. intros other [Oo On]. destruct Hs as [So Sn].
  destruct (script_common other) as (qs & Hq & Hl). rewrite Oo, On in Hq. specialize (Hmax qs Hq).
  assert (Hc1 := changes_kept (rows ++ (Removed <$> take (length old - oi) (drop oi old)) ++ (Added <$> take (length new - ni) (drop ni new)))).
  assert (Hc2 := changes_kept other). rewrite So, Sn in Hc1. rewrite Oo, On in Hc2.
  rewrite !fmap_app, !join_app, !length_app, Hk, Ek, Fk in Hc1. lia.
Qed.

(** C30: the coloured diff of two texts never fails an index, is a script from one to the
    other — its rows without the additions are the old lines, without the removals the
    new ones, in order — and no script between them shows fewer changed rows. *)
Theorem render_diff_minimal (old new : str) :
  ∃ rows, render_diff old new = Some (mjoin (row_text <$> rows)) ∧
    script (lines old) (lines new) rows ∧
    ∀ other, script (lines old) (lines new) other → changes rows ≤ changes other.
Proof.
  destruct (diff_rows_spec (lines old) (lines new)) as (rows & E & Hs & Hmin).
  exists rows. unfold render_diff. rewrite E. done.
Qed.

Example render_diff_ex :
  diff_rows (lit <$> ["a"; "b"; "c"; "d"]%string) (lit <$> ["a"; "c"; "x"; "d"]%string) =
    Some [Kept (lit "a"); Removed (lit "b"); Kept (lit "c"); Added (lit "x"); Kept (lit "d")].
Proof. vm_compute. reflexivity. Qed.

(** ** Numbered previews *)

Definition PREVIEW_BODY_LINES : nat := 40.
Definition LINE_NO_WIDTH : nat := 4.
Definition cPLUS : rchar := 43.
Definition cMINUS : rchar := 45.
Definition cBAR : rchar := 124.
(** [{:>width$}] *)
Definition pad_left (width : nat) (s : str) : str := replicate (width - length s) 32%N ++ s.
Definition numbered_diff_line (line_no : nat) (marker : rchar) (body : str) : str :=
  pad_left LINE_NO_WIDTH (digits (N.of_nat line_no)) ++ [cBAR; marker] ++ body ++ [cLF].
(** The rows of a side, numbered from [base]. *)
Definition numbered_rows (base : nat) (marker : rchar) (ls : list str) : str :=
  mjoin (imap (λ i line, numbered_diff_line (base + i) marker line) (take PREVIEW_BODY_LINES ls)).
Definition number (n : nat) : str := digits (N.of_nat n).
Definition middle_dot : str := lit "  " ++ [183]%N ++ lit "  ".
Definition more_lines (ls : list str) (what : string) : str :=
  if PREVIEW_BODY_LINES <? length ls then [8230]%N ++ lit " " ++ number (length ls - PREVIEW_BODY_LINES) ++ lit what ++ [cLF] else [].
Definition is_empty (s : str) : bool := match s with [] => true | _ => false end.

Definition format_edit_preview_at (path old new : str) (replace_count : nat) (start_line : option nat) : str :=
  let out := if 1 <? replace_count
             then lit "Edited " ++ path ++ middle_dot ++ number replace_count ++ lit " replacements" ++ [cLF; cLF]
             else lit "Edited " ++ path ++ [cLF; cLF] in
  let old_lines := lines old in
  let new_lines := lines new in
  let base := max (default 1 start_line) 1 in
  if (length old_lines <=? 1) && (length new_lines <=? 1) then
    if is_empty old && negb (is_empty new) then out ++ numbered_rows base cPLUS new_lines
    else if is_empty new && negb (is_empty old) then out ++ numbered_rows base cMINUS old_lines
    else out ++ numbered_diff_line base cMINUS (default [] (head old_lines)) ++ numbered_diff_line base cPLUS (default [] (head new_lines))
  else
    out ++ numbered_rows base cMINUS old_lines ++ more_lines old_lines " more removed lines"%string
        ++ numbered_rows base cPLUS new_lines ++ more_lines new_lines " more added lines"%string.
Definition format_edit_preview (path old new : str) (replace_count : nat) : str :=
  format_edit_preview_at path old new replace_count None.

Definition format_write_summary (path content : str) : str :=
  lit "Wrote " ++ path ++ middle_dot ++ number (length (lines content)) ++ lit " lines" ++ [cLF].
Definition format_write_preview (path content : str) : str :=
  let ls := lines content in
  format_write_summary path content ++ [cLF] ++ numbered_rows 1 cPLUS ls ++ more_lines ls " more lines"%string
    ++ if length ls =? 0 then lit "(empty file)" ++ [cLF] else [].

(** ** Reading them back *)

Definition preview_file_path (text : str) : option str :=
  first ← head (lines text);
  let first := trim first in
  rest ← match strip_prefix (lit "Edited ") first with Some r => Some r | None => strip_prefix (lit "Wrote ") first end;
  let path := trim (match split_once rest middle_dot with Some (path, _) => path | None => rest end) in
  if is_empty path then None else Some path.

Record DiffLineParts := mkParts { line_no : option str; line_no_pad : str; marker : option rchar; body : str }.

Definition is_marker (c : rchar) : bool := (c == cPLUS) || (c == cMINUS).
Definition parse_diff_line (line : str) : DiffLineParts :=
  if starts_with line (lit "+++") || starts_with line (lit "---") || starts_with line (lit "@@")
  then mkParts None [] None line
  else
    let pad := take_while (N.eqb 32) line in
    let rest := drop_while (N.eqb 32) line in
    let ds := take_while is_ascii_digit rest in
    let rest := drop_while is_ascii_digit rest in
    let rest := default rest (strip_prefix [cBAR] rest) in
    let bare :=
      match line with
      | c :: body => if is_marker c then mkParts None [] (Some c) body else mkParts None [] None line
      | [] => mkParts None [] None line
      end in
    match ds, rest with
    | _ :: _, m :: body =>
        if is_marker m && negb (starts_with rest (lit "+++")) && negb (starts_with rest (lit "---"))
        then mkParts (Some ds) pad (Some m) body
        else bare
    | _, _ => bare
    end.

(** [plus] and [minus] are how many rows of each kind were seen. *)
Fixpoint looks_like_diff_go (ls : list str) (plus minus : nat) (edit_header : bool) : bool :=
  match ls with
  | [] => (edit_header && ((0 <? plus) || (0 <? minus))) || ((0 <? plus) && (0 <? minus))
  | line :: ls =>
      if starts_with line (lit "diff --git") || starts_with line (lit "@@ ") || starts_with line (lit "+++ ") || starts_with line (lit "--- ")
      then true
      else if starts_with line (lit "Edited ") || starts_with line (lit "Wrote ") then looks_like_diff_go ls plus minus true
      else match marker (parse_diff_line line) with
           | Some 43%N => looks_like_diff_go ls (plus + 1) minus edit_header
           | Some 45%N => looks_like_diff_go ls plus (minus + 1) edit_header
           | _ => looks_like_diff_go ls plus minus edit_header
           end
  end.
Definition looks_like_diff (text : str) : bool := looks_like_diff_go (take 60 (lines text)) 0 0 false.

(** Colours for a diff made elsewhere. *)
Definition painted (code : string) (line : str) : str := [ESC] ++ lit code ++ line ++ [ESC] ++ lit "[0m".
Definition paint_line (line : str) : str :=
  if starts_with line (lit "+++") || starts_with line (lit "---") then painted "[1m"%string line
  else if starts_with line (lit "@@") then painted "[36m"%string line
  else if starts_with line [cPLUS] then painted "[32m"%string line
  else if starts_with line [cMINUS] then painted "[31m"%string line
  else line.
Definition render_diff_unified (diff_output : str) : str := join [cLF] (paint_line <$> lines diff_output).

(** *** What is read back *)

(** A line the rows of marker [m] carry unharmed: it does not end in a carriage return
    and does not start with two more of the marker. *)
Definition readable (m : rchar) (l : str) : Prop := last l ≠ Some cCR ∧ starts_with l [m; m] = false.
Definition shown_path (path : str) : Prop :=
  path ≠ [] ∧ Forall (λ c, c ≠ cLF) path ∧ 183%N ∉ path ∧
  (∀ a, head path = Some a → is_whitespace a = false) ∧ (∀ z, last path = Some z → is_whitespace z = false).
Definition numbered_line (line_no : nat) (m : rchar) (body : str) : str := pad_left LINE_NO_WIDTH (number line_no) ++ [cBAR; m] ++ body.
Definition row_lines (base : nat) (m : rchar) (ls : list str) : list str :=
  imap (λ i line, numbered_line (base + i) m line) (take PREVIEW_BODY_LINES ls).

Lemma numbered_diff_line_eq n m l : numbered_diff_line n m l = numbered_line n m l ++ [cLF].
Proof. unfold numbered_diff_line, numbered_line. by rewrite <- !app_assoc. Qed.
Lemma numbered_rows_unlines base m ls : numbered_rows base m ls = unlines (row_lines base m ls).
Proof.
  unfold numbered_rows, row_lines, unlines. f_equal. rewrite fmap_imap. apply imap_ext. intros i x _. apply numbered_diff_line_eq.
Qed.

Lemma number_head n : ∃ d r, number n = d :: r ∧ is_ascii_digit d = true ∧ Forall (λ c, is_ascii_digit c = true) r.
Proof.
  pose proof (digits_nonnil (N.of_nat n)) as Hn. pose proof (digits_all (N.of_nat n)) as Ha. unfold number.
  destruct (digits (N.of_nat n)) as [|d r]; [done|]. inversion_clear Ha. by exists d, r.
Qed.
Lemma digit_not (c d : rchar) : is_ascii_digit d = true → is_ascii_digit c = false → d ≠ c.
Proof. congruence. Qed.
(** The first character of a numbered line is a space or a digit. *)
Lemma numbered_line_head n m l : ∃ c r, numbered_line n m l = c :: r ∧ (c = 32%N ∨ is_ascii_digit c = true).
Proof.
  destruct (number_head n) as (d & r & E & Hd & _). unfold numbered_line, pad_left. rewrite E.
  destruct (LINE_NO_WIDTH - length (d :: r)); cbn; eauto 6.
Qed.
Lemma starts_with_ne c r d p : c ≠ d → starts_with (c :: r) (d :: p) = false.
Proof. intros Hcd. unfold starts_with. rewrite strip_prefix_ne by congruence. by rewrite bool_decide_eq_false_2 by (intros [? ?]; done). Qed.
Lemma space_or_digit_ne c d : c = 32%N ∨ is_ascii_digit c = true → is_ascii_digit d = false → d ≠ 32%N → c ≠ d.
Proof. intros [->|Hc] Hd Hs; [congruence|by apply digit_not]. Qed.

Lemma numbered_starts n m l k p : is_ascii_digit k = false → k ≠ 32%N → starts_with (numbered_line n m l) (k :: p) = false.
Proof. intros Hk Hs. destruct (numbered_line_head n m l) as (c & r & -> & Hc). apply starts_with_ne. by apply space_or_digit_ne. Qed.

Lemma take_while_replicate f (c : rchar) n r d t : f c = true → r = d :: t → f d = false →
  take_while f (replicate n c ++ r) = replicate n c ∧ drop_while f (replicate n c ++ r) = r.
Proof.
  intros Hc -> Hd. induction n as [|n [IH1 IH2]]; cbn [replicate app take_while drop_while]; [by rewrite Hd|].
  rewrite Hc, IH1, IH2. done.
Qed.
Lemma take_while_digits (ds r : str) d t : Forall (λ c, is_ascii_digit c = true) ds → r = d :: t → is_ascii_digit d = false →
  take_while is_ascii_digit (ds ++ r) = ds ∧ drop_while is_ascii_digit (ds ++ r) = r.
Proof.
  intros Hds -> Hd. induction Hds as [|c ds Hc Hds [IH1 IH2]]; cbn [app take_while drop_while]; [by rewrite Hd|].
  rewrite Hc, IH1, IH2. done.
Qed.

Lemma parse_numbered n m l : is_marker m = true → starts_with l [m; m] = false →
  parse_diff_line (numbered_line n m l) = mkParts (Some (number n)) (replicate (LINE_NO_WIDTH - length (number n)) 32%N) (Some m) l.
Proof.
  intros Hm Hl. unfold parse_diff_line. change (lit "+++") with [cPLUS; cPLUS; cPLUS].
  change (lit "---") with [cMINUS; cMINUS; cMINUS]. change (lit "@@") with [64; 64]%N.
  rewrite !numbered_starts by done. cbn [orb].
  destruct (number_head n) as (d & r & En & Hd & Hr).
  assert (Hd32 : (32 =? d)%N = false) by (apply N.eqb_neq; intros <-; discriminate).
  unfold numbered_line, pad_left. rewrite En, <- app_assoc.
  destruct (take_while_replicate (N.eqb 32) 32%N (LINE_NO_WIDTH - length (d :: r)) ((d :: r) ++ [cBAR; m] ++ l) d (r ++ [cBAR; m] ++ l) eq_refl eq_refl Hd32) as [-> ->].
  destruct (take_while_digits (d :: r) ([cBAR; m] ++ l) cBAR (m :: l) (proj2 (Forall_cons _ _ _) (conj Hd Hr)) eq_refl eq_refl) as [-> ->].
  assert (Hb : strip_prefix [cBAR] ([cBAR; m] ++ l) = Some (m :: l)) by done. rewrite Hb. cbn [default from_option id].
  assert (Hs : ∀ k, k ∈ [cPLUS; cMINUS] → starts_with (m :: l) [k; k; k] = false).
  { intros k _. destruct (decide (m = k)) as [->|]; [|by apply starts_with_ne].
    rewrite <- Hl. unfold starts_with. cbn [strip_prefix]. by rewrite N.eqb_refl. }
  rewrite Hm, !Hs by set_solver. done.
Qed.

(** The numbered rows of one marker, as the terminal reads them. *)
Definition read_row (m : rchar) (line : str) : option (option str * str) :=
  let p := parse_diff_line line in if marker p == Some m then Some (line_no p, body p) else None.
Definition marked (m : rchar) (text : str) : list (option str * str) := omap (read_row m) (lines text).
Definition numbered_from (base : nat) (ls : list str) : list (option str * str) :=
  imap (λ i l, (Some (number (base + i)), l)) (take PREVIEW_BODY_LINES ls).

Lemma read_row_numbered n m m' l : is_marker m = true → starts_with l [m; m] = false →
  read_row m' (numbered_line n m l) = if m == m' then Some (Some (number n), l) else None.
Proof.
  intros Hm Hl. unfold read_row. rewrite parse_numbered by done. cbn [marker line_no body].
  repeat case_bool_decide; congruence.
Qed.
Lemma omap_imap {A B C} (g : B → option C) (f : nat → A → B) (h : nat → A → C) (b : bool) (P : A → Prop) l :
  Forall P l → (∀ i x, P x → g (f i x) = if b then Some (h i x) else None) → omap g (imap f l) = if b then imap h l else [].
Proof.
  intros Hl. revert f h. induction Hl as [|x l Hx Hl IH]; intros f h Hg; [by destruct b|]. cbn [imap omap list_omap].
  rewrite Hg by done. rewrite (IH (f ∘ S) (h ∘ S)) by (intros i y Hy; by apply Hg). by destruct b.
Qed.
Lemma omap_row_lines base m m' ls : is_marker m = true → Forall (readable m) ls →
  omap (read_row m') (row_lines base m ls) = if m == m' then numbered_from base ls else [].
Proof.
  intros Hm Hls. unfold row_lines, numbered_from. apply (omap_imap _ _ _ _ (readable m)); [by apply Forall_take|].
  intros i l [_ Hl]. by apply read_row_numbered.
Qed.
(** A line that starts with none of the characters a row starts with. *)
Lemma read_row_other m c r : is_ascii_digit c = false → c ∉ [32; 43; 45]%N → read_row m (c :: r) = None.
Proof.
  intros Hd Hc. unfold read_row, parse_diff_line. change (lit "+++") with [cPLUS; cPLUS; cPLUS].
  change (lit "---") with [cMINUS; cMINUS; cMINUS]. change (lit "@@") with [64; 64]%N.
  rewrite !(starts_with_ne c r) by (intros ->; apply Hc; unfold cPLUS, cMINUS; set_solver).
  destruct (starts_with _ _); [done|]. cbn [orb take_while drop_while].
  rewrite (proj2 (N.eqb_neq 32 c)) by (intros <-; set_solver). cbn [take_while]. rewrite Hd.
  assert (Hm : is_marker c = false).
  { unfold is_marker. rewrite (bool_decide_eq_false_2 (c = cPLUS)), (bool_decide_eq_false_2 (c = cMINUS));
      [done|intros ->; apply Hc; unfold cMINUS; set_solver|intros ->; apply Hc; unfold cPLUS; set_solver]. }
  by rewrite Hm.
Qed.

(** *** The lines of an edit preview *)

Definition edit_header (path : str) (replace_count : nat) : str :=
  lit "Edited " ++ path ++ if 1 <? replace_count then middle_dot ++ number replace_count ++ lit " replacements" else [].
Definition more_list (ls : list str) (what : string) : list str :=
  if PREVIEW_BODY_LINES <? length ls then [[8230]%N ++ lit " " ++ number (length ls - PREVIEW_BODY_LINES) ++ lit what] else [].
Definition edit_lines (path old new : str) (replace_count : nat) (start_line : option nat) : list str :=
  let base := max (default 1 start_line) 1 in
  edit_header path replace_count :: [] ::
    row_lines base cMINUS (lines old) ++ more_list (lines old) " more removed lines"%string ++
    row_lines base cPLUS (lines new) ++ more_list (lines new) " more added lines"%string.

Lemma unlines_app a b : unlines (a ++ b) = unlines a ++ unlines b.
Proof. unfold unlines. by rewrite fmap_app, join_app. Qed.
Lemma more_lines_unlines ls what : more_lines ls what = unlines (more_list ls what).
Proof. unfold more_lines, more_list. destruct (_ <? _); [|done]. unfold unlines. cbn [fmap list_fmap mjoin list_join]. by rewrite <- !app_assoc, app_nil_r. Qed.
Lemma lines_nil_iff s : lines s = [] ↔ s = [].
Proof.
  split; [|by intros ->]. destruct s as [|c s]; [done|]. unfold lines. cbn [split_on].
  pose proof (split_on_nonempty (N.eqb cLF) s) as Hn. destruct (split_on (N.eqb cLF) s) as [|p ps]; [done|].
  destruct (cLF =? c)%N; [done|]. by destruct ps.
Qed.

Lemma lines_of_subset ps (P : rchar → Prop) : Forall (Forall P) ps → Forall (Forall P) (lines_of ps).
Proof.
  assert (Hs : ∀ l, Forall P l → Forall P (strip_cr l)).
  { intros l Hl. unfold strip_cr. destruct (strip_suffix [cCR] l) as [r|] eqn:E; [|done].
    apply strip_suffix_Some in E as ->. by apply Forall_app in Hl as [? _]. }
  induction 1 as [|p ps Hp Hps IH]; [constructor|]. cbn [lines_of]. destruct ps as [|q ps].
  - case_bool_decide; by repeat constructor.
  - constructor; [by apply Hs|exact IH].
Qed.
Lemma lines_no_newline s : Forall (Forall (λ c, c ≠ cLF)) (lines s).
Proof.
  apply lines_of_subset. eapply Forall_impl; [apply split_on_pieces|]. intros p Hp. eapply Forall_impl; [exact Hp|].
  intros c Hc. by apply N.eqb_neq in Hc.
Qed.

Ltac no_newline := repeat first [apply Forall_app; split|constructor; [discriminate|]|apply digits_forall; unfold cLF; lia|done].
Lemma last_app_digits (a : str) n : last (a ++ number n) ≠ Some cCR.
Proof.
  destruct (exists_last (digits_nonnil (N.of_nat n))) as (ds & d & E). pose proof (digits_all (N.of_nat n)) as Ha.
  unfold number. rewrite E, app_assoc, last_snoc. rewrite E in Ha. apply Forall_app in Ha as [_ Ha]. inversion_clear Ha as [|? ? Hd _].
  intros [= ->]. discriminate.
Qed.
Lemma clean_numbered n m l : is_marker m = true → Forall (λ c, c ≠ cLF) l → last l ≠ Some cCR → clean_line (numbered_line n m l).
Proof.
  intros Hm Hl Hc. assert (m = cPLUS ∨ m = cMINUS) as Hm'.
  { unfold is_marker in Hm. apply orb_true_iff in Hm as [Hm|Hm]; apply bool_decide_eq_true in Hm; auto. }
  split.
  - unfold numbered_line, pad_left. apply Forall_app. split; [apply Forall_app; split|].
    + apply Forall_replicate. discriminate.
    + apply digits_forall. unfold cLF. lia.
    + apply Forall_app. split; [|done]. by destruct Hm' as [->| ->]; repeat constructor.
  - unfold numbered_line. destruct (decide (l = [])) as [->|Hn].
    + rewrite app_nil_r. change [cBAR; m] with ([cBAR] ++ [m]). rewrite app_assoc, last_snoc. by destruct Hm' as [->| ->].
    + destruct (exists_last Hn) as (r & z & ->). rewrite !app_assoc, last_snoc. by rewrite last_snoc in Hc.
Qed.
Lemma clean_row_lines base m s : is_marker m = true → Forall (readable m) (lines s) → Forall clean_line (row_lines base m (lines s)).
Proof.
  intros Hm Hr. assert (Hall : Forall (λ l, Forall (λ c, c ≠ cLF) l ∧ readable m l) (take PREVIEW_BODY_LINES (lines s))).
  { apply Forall_take, Forall_and. split; [apply lines_no_newline|done]. }
  unfold row_lines. rewrite Forall_lookup. intros i l Hl. rewrite list_lookup_imap in Hl.
  destruct (take PREVIEW_BODY_LINES (lines s) !! i) as [x|] eqn:E; [|done]. injection Hl as <-.
  rewrite Forall_lookup in Hall. destruct (Hall _ _ E) as (? & ? & ?). by apply clean_numbered.
Qed.
Lemma clean_more_list ls what : clean_line (lit what) → lit what ≠ [] → Forall clean_line (more_list ls what).
Proof.
  intros [Hw Hl] Hn. unfold more_list. destruct (_ <? _); [|constructor]. constructor; [|constructor]. split.
  - apply Forall_app; split; [by repeat constructor|]. apply Forall_app; split; [by repeat constructor|].
    apply Forall_app; split; [apply digits_forall; unfold cLF; lia|done].
  - destruct (exists_last Hn) as (r & z & E). rewrite E, !app_assoc, last_snoc. by rewrite E, last_snoc in Hl.
Qed.

Lemma clean_edit_header path count : shown_path path → clean_line (edit_header path count).
Proof.
  intros (Hn & Hl & _ & _ & Hz). unfold edit_header. split.
  - apply Forall_app. split; [by repeat constructor|]. apply Forall_app. split; [done|]. destruct (1 <? count); [|constructor].
    apply Forall_app. split; [by repeat constructor|]. apply Forall_app. split; [apply digits_forall; unfold cLF; lia|by repeat constructor].
  - destruct (1 <? count).
    + change (lit " replacements") with (lit " replacement" ++ [115]%N). by rewrite !app_assoc, last_snoc.
    + rewrite app_nil_r. destruct (exists_last Hn) as (r & z & ->). rewrite app_assoc, last_snoc. intros [= ->].
      rewrite last_snoc in Hz. by specialize (Hz _ eq_refl).
Qed.
Lemma lines_le_one s : s ≠ [] → length (lines s) ≤ 1 → ∃ l, lines s = [l].
Proof.
  intros Hn Hl. destruct (lines s) as [|l [|? ?]] eqn:E; [by apply lines_nil_iff in E|by exists l|cbn in Hl; lia].
Qed.
Lemma format_edit_preview_lines path old new count start : old ≠ [] ∨ new ≠ [] →
  format_edit_preview_at path old new count start = unlines (edit_lines path old new count start).
Proof.
  intros Hne. unfold edit_lines. cbv zeta. set (base := max _ _).
  assert (Hh : ∀ rows, unlines (edit_header path count :: [] :: rows) =
    (if 1 <? count then lit "Edited " ++ path ++ middle_dot ++ number count ++ lit " replacements" ++ [cLF; cLF]
     else lit "Edited " ++ path ++ [cLF; cLF]) ++ unlines rows).
  { intros rows. unfold edit_header. change (unlines (?h :: [] :: rows)) with ((h ++ [cLF]) ++ [cLF] ++ unlines rows).
    destruct (1 <? count); rewrite <- !app_assoc; done. }
  rewrite Hh, !unlines_app, <- !more_lines_unlines, <- !numbered_rows_unlines. unfold format_edit_preview_at. fold base.
  assert (Hone : ∀ s what, length (lines s) ≤ 1 → more_lines (lines s) what = []).
  { intros s what Hs. unfold more_lines. destruct (Nat.ltb_spec PREVIEW_BODY_LINES (length (lines s))); [unfold PREVIEW_BODY_LINES in *; lia|done]. }
  assert (Hrow : ∀ m l, numbered_diff_line base m l = numbered_rows base m [l]).
  { intros m l. unfold numbered_rows. cbn. by rewrite app_nil_r, Nat.add_0_r. }
  destruct (Nat.leb_spec (length (lines old)) 1) as [Ho|Ho]; [|done].
  destruct (Nat.leb_spec (length (lines new)) 1) as [Hw|Hw]; [|done]. cbn [andb]. rewrite !Hone by done. cbn [app]. rewrite app_nil_r.
  destruct old as [|o old'], new as [|w new']; cbn [is_empty negb andb]; [by destruct Hne|done|by rewrite app_nil_r|].
  destruct (lines_le_one (o :: old') ltac:(done) Ho) as [lo ->]. destruct (lines_le_one (w :: new') ltac:(done) Hw) as [lw ->]. cbn [head default from_option id].
  by rewrite !Hrow.
Qed.

Lemma read_row_more m ls what : omap (read_row m) (more_list ls what) = [].
Proof. unfold more_list. destruct (_ <? _); [|done]. cbn [omap list_omap app]. rewrite read_row_other by (done || set_solver). done. Qed.

Lemma looks_like_seen ls plus minus : 0 < plus ∨ 0 < minus → looks_like_diff_go ls plus minus true = true.
Proof.
  revert plus minus. induction ls as [|l ls IH]; intros plus minus Hs; cbn [looks_like_diff_go].
  - destruct (Nat.ltb_spec 0 plus); [done|]. destruct (Nat.ltb_spec 0 minus); [done|lia].
  - repeat case_match; try done; apply IH; lia.
Qed.
Lemma looks_like_row n m l ls : is_marker m = true → starts_with l [m; m] = false →
  looks_like_diff_go (numbered_line n m l :: ls) 0 0 true = true.
Proof.
  intros Hm Hl. cbn [looks_like_diff_go]. change (lit "diff --git") with (100 :: lit "iff --git")%N. change (lit "@@ ") with (64 :: lit "@ ")%N.
  change (lit "+++ ") with (43 :: lit "++ ")%N. change (lit "--- ") with (45 :: lit "-- ")%N.
  change (lit "Edited ") with (69 :: lit "dited ")%N. change (lit "Wrote ") with (87 :: lit "rote ")%N.
  rewrite !numbered_starts by done. cbn [orb]. rewrite parse_numbered by done. cbn [marker]. unfold is_marker in Hm.
  apply orb_true_iff in Hm as [->%bool_decide_eq_true| ->%bool_decide_eq_true]; apply looks_like_seen; lia.
Qed.
Lemma edit_lines_look path old new count start : old ≠ [] ∨ new ≠ [] →
  Forall (readable cMINUS) (lines old) → Forall (readable cPLUS) (lines new) →
  looks_like_diff_go (take 60 (edit_lines path old new count start)) 0 0 false = true.
Proof.
  intros Hne Ho Hw. unfold edit_lines. cbv zeta. set (base := max _ _).
  assert (Hh : ∀ rows, looks_like_diff_go (take 60 (edit_header path count :: [] :: rows)) 0 0 false = looks_like_diff_go (take 58 rows) 0 0 true ∨
    looks_like_diff_go (take 60 (edit_header path count :: [] :: rows)) 0 0 false = true).
  { intros rows. unfold edit_header. cbn [take looks_like_diff_go]. rewrite starts_with_app. destruct (_ || _); [by right|by left]. }
  match goal with |- looks_like_diff_go (take 60 (_ :: [] :: ?rows)) _ _ _ = _ => destruct (Hh rows) as [->| ->] end; [|done].
  unfold row_lines. destruct (lines old) as [|l ls] eqn:Eo; [|inversion_clear Ho as [|? ? [_ Hl] _]; by apply looks_like_row].
  destruct (lines new) as [|l ls] eqn:Ew; [|inversion_clear Hw as [|? ? [_ Hl] _]; by apply looks_like_row].
  apply lines_nil_iff in Eo, Ew. by destruct Hne.
Qed.

Lemma not_infix_no_dot path : 183%N ∉ path → ¬ infix_of middle_dot path.
Proof. intros Hn (a & b & ->). apply Hn. rewrite !elem_of_app. right. left. unfold middle_dot. set_solver. Qed.
(** A path without a middle dot is cut off before the one of the header. *)
Lemma split_once_path path rest : 183%N ∉ path → (∀ z, last path = Some z → is_whitespace z = false) →
  split_once (path ++ middle_dot ++ rest) middle_dot = Some (path, rest).
Proof.
  intros Hd Hz. apply split_once_Some. split; [done|]. intros a b E.
  destruct (le_lt_dec (length path) (length a)) as [|Hlt]; [done|]. exfalso.
  (* the dot two places into the match lies in [path] or in its first two places *)
  assert (Ha : (path ++ middle_dot ++ rest) !! (length a + 2) = Some 183%N).
  { rewrite E, lookup_app_r by lia. replace (length a + 2 - length a) with 2 by lia. done. }
  destruct (decide (length a + 2 < length path)) as [Hin|Hout].
  - rewrite lookup_app_l in Ha by done. by apply list_elem_of_lookup_2 in Ha.
  - rewrite lookup_app_r in Ha by lia.
    assert (length a + 2 - length path = 0 ∨ length a + 2 - length path = 1) as [Hk|Hk] by lia; rewrite Hk in Ha; discriminate.
Qed.

Lemma trim_edit_header path count : shown_path path → trim (edit_header path count) = edit_header path count.
Proof.
  intros (Hn & _ & _ & _ & Hz). apply trim_id_head_last; unfold edit_header; [intros a [= <-]; reflexivity|].
  destruct (1 <? count).
  - change (lit " replacements") with (lit " replacement" ++ [115]%N). rewrite !app_assoc, last_snoc. intros z [= <-]. reflexivity.
  - rewrite app_nil_r. destruct (exists_last Hn) as (r & z & ->). rewrite app_assoc. intros c. rewrite last_snoc in *. by apply Hz.
Qed.
Lemma preview_file_path_edit path count text : shown_path path → head (lines text) = Some (edit_header path count) →
  preview_file_path text = Some path.
Proof.
  intros Hp Ht. unfold preview_file_path. rewrite Ht. cbn [mbind option_bind]. cbv zeta. rewrite trim_edit_header by done.
  destruct Hp as (Hn & _ & Hd & Ha & Hz). unfold edit_header. rewrite (proj2 (strip_prefix_Some (lit "Edited ") _ _) eq_refl).
  cbn [mbind option_bind].
  assert (Hs : match split_once (path ++ if 1 <? count then middle_dot ++ number count ++ lit " replacements" else []) middle_dot with
               | Some (p, _) => p | None => path ++ if 1 <? count then middle_dot ++ number count ++ lit " replacements" else [] end = path).
  { destruct (1 <? count); [by rewrite split_once_path|]. rewrite app_nil_r.
    by rewrite (proj2 (split_once_None path middle_dot) (not_infix_no_dot path Hd)). }
  rewrite Hs, trim_id_head_last by done. by destruct path.
Qed.

Lemma omap_cons_none {A B} (f : A → option B) x l : f x = None → omap f (x :: l) = omap f l.
Proof. intros E. cbn. by rewrite E. Qed.
Lemma edit_lines_marked m path old new count start :
  Forall (readable cMINUS) (lines old) → Forall (readable cPLUS) (lines new) →
  let base := max (default 1 start) 1 in
  omap (read_row m) (edit_lines path old new count start) =
    (if cMINUS == m then numbered_from base (lines old) else []) ++ (if cPLUS == m then numbered_from base (lines new) else []).
Proof.
  intros Ho Hw. cbv zeta. unfold edit_lines. cbv zeta.
  rewrite omap_cons_none by (apply read_row_other; [done|set_solver]). rewrite omap_cons_none by done.
  by rewrite !omap_app, !read_row_more, !omap_row_lines, app_nil_r by done.
Qed.

(** The preview of an edit is read back by the terminal as it was written: the path,
    at most forty removed rows and forty added rows with their numbers from the edit's
    first line, and nothing else as a row; it is recognised as a diff.  The lines must not
    start with two more of their row's marker. *)
Theorem edit_preview_read_back (path old new : str) (count : nat) (start : option nat)
  (Hpath : shown_path path) (Hne : old ≠ [] ∨ new ≠ [])
  (Hold : Forall (readable cMINUS) (lines old)) (Hnew : Forall (readable cPLUS) (lines new)) :
  let text := format_edit_preview_at path old new count start in
  let base := max (default 1 start) 1 in
  preview_file_path text = Some path ∧
  marked cMINUS text = numbered_from base (lines old) ∧
  marked cPLUS text = numbered_from base (lines new) ∧
  looks_like_diff text = true.
Proof.
  cbv zeta. rewrite format_edit_preview_lines by done.
  assert (Hclean : Forall clean_line (edit_lines path old new count start)).
  { unfold edit_lines. cbv zeta. constructor; [by apply clean_edit_header|]. constructor; [by repeat constructor|].
    repeat apply Forall_app_2; (by apply clean_row_lines) || (by apply clean_more_list; [repeat constructor|]). }
  unfold marked, looks_like_diff. split_and!.
  - apply (preview_file_path_edit path count); [done|]. by rewrite lines_unlines.
  - by rewrite lines_unlines, edit_lines_marked, app_nil_r.
  - by rewrite lines_unlines, edit_lines_marked.
  - rewrite lines_unlines by done. by apply edit_lines_look.
Qed.
Lemma edit_preview_read_back_witness :
  let text := format_edit_preview_at (lit "src/a b.rs") (lit "let a = 1;") (unlines [lit "let a = 2;"; lit "-x"]) 3 (Some 7) in
  preview_file_path text = Some (lit "src/a b.rs") ∧
  marked cMINUS text = [(Some (lit "7"), lit "let a = 1;")] ∧
  marked cPLUS text = [(Some (lit "7"), lit "let a = 2;"); (Some (lit "8"), lit "-x")] ∧
  looks_like_diff text = true.
Proof.
  apply (edit_preview_read_back (lit "src/a b.rs") (lit "let a = 1;") (unlines [lit "let a = 2;"; lit "-x"]) 3 (Some 7)).
  - unfold shown_path. split_and!; [discriminate|by repeat (constructor; [discriminate|])| | |].
    + by apply (bool_decide_unpack _).
    + intros a [= <-]. reflexivity.
    + intros z [= <-]. reflexivity.
  - by left.
  - repeat constructor; discriminate.
  - repeat constructor; discriminate.
Defined.

(** A line that starts with two more of the marker is not read as a row: the guard meant
    for the [+++] of a unified diff looks at the marker and the body together. *)
Example increment_not_read :
  marked cPLUS (format_edit_preview_at (lit "a.c") [] (lit "++i;") 1 None) = [] ∧
  looks_like_diff (format_edit_preview_at (lit "a.c") [] (lit "++i;") 1 None) = false.
Proof. split; vm_compute; reflexivity. Qed.
Example render_diff_unified_ex :
  render_diff_unified (lit "+a" ++ [cLF] ++ lit " b" ++ [cLF]) = [ESC] ++ lit "[32m+a" ++ [ESC] ++ lit "[0m" ++ [cLF] ++ lit " b".
Proof. vm_compute. reflexivity. Qed.
Example write_preview_ex :
  preview_file_path (format_write_preview (lit "a.c") (lit "x")) = Some (lit "a.c") ∧
  marked cPLUS (format_write_preview (lit "a.c") (lit "x")) = [(Some (lit "1"), lit "x")].
Proof. split; vm_compute; reflexivity. Qed.
