(* ===== verification/Sse.v ===== *)
(** [mcp/src/sse.rs]: server-sent events out of a text stream whose chunks are cut
    anywhere. The chunks are [str]; bytes become text before. *)

From S2P Require Import Prelude RustStr Bytes.

Record SseEvent := mkEvent { ev_event : option str; ev_data : str; ev_id : option str }.
Record SseParser := mkSse {
  sse_buf : str; event_name : option str; data_lines : list str; sse_id : option str; pending : list SseEvent }.
Definition new_parser : SseParser := mkSse [] None [] None [].

Definition set_buf (b : str) (p : SseParser) : SseParser :=
  mkSse b (event_name p) (data_lines p) (sse_id p) (pending p).

Definition dispatch_event (p : SseParser) : SseParser :=
  if (length (data_lines p) =? 0) && (event_name p == None) && (sse_id p == None) then p
  else mkSse (sse_buf p) None [] (sse_id p)
         (pending p ++ [mkEvent (event_name p) (join [cLF] (data_lines p)) (sse_id p)]).

(** The [match] on the field name. *)
Definition apply_field (field value : str) (p : SseParser) : SseParser :=
  if field == lit "event" then mkSse (sse_buf p) (Some value) (data_lines p) (sse_id p) (pending p)
  else if field == lit "data" then mkSse (sse_buf p) (event_name p) (data_lines p ++ [value]) (sse_id p) (pending p)
  else if field == lit "id" then
    mkSse (sse_buf p) (event_name p) (data_lines p) (if value == [] then None else Some value) (pending p)
  else p.
(** One line, its line feed taken off. *)
Definition process_line (p : SseParser) (line : str) : SseParser :=
  let line := strip_cr line in
  if line == [] then dispatch_event p
  else if starts_with line (lit ":") then p
  else
    let '(field, value) := match split_once line (lit ":") with
                           | Some (f, v) => (f, default v (strip_prefix (lit " ") v))
                           | None => (line, [])
                           end in
    apply_field field value p.

(** The loop; the buffer is cut after the line feed. *)
Fixpoint drain_lines (fuel : nat) (p : SseParser) : option SseParser :=
  match find_char (sse_buf p) (N.eqb cLF) with
  | None => Some p
  | Some newline_at =>
      match fuel with
      | O => None
      | S k =>
          line ← slice_to (sse_buf p) (newline_at + 1);
          rest ← slice_from (sse_buf p) (newline_at + 1);
          let line := default line (strip_suffix [cLF] line) in
          drain_lines k (process_line (set_buf rest p) line)
      end
  end.
Definition push (chunk : str) (p : SseParser) : option SseParser :=
  let p := set_buf (sse_buf p ++ chunk) p in drain_lines (length (sse_buf p)) p.
Definition take_events (p : SseParser) : list SseEvent * SseParser :=
  (pending p, mkSse (sse_buf p) (event_name p) (data_lines p) (sse_id p) []).

Definition parse_sse_body (body : str) : option (list SseEvent) :=
  p ← push body new_parser;
  let p := if negb (length (data_lines p) =? 0) || bool_decide (is_Some (event_name p)) then dispatch_event p else p in
  Some (take_events p).1.

(** A transport's loop: push a chunk, take the events. *)
Fixpoint feed (chunks : list str) (p : SseParser) : option (list SseEvent * SseParser) :=
  match chunks with
  | [] => Some ([], p)
  | c :: r => p ← push c p; let '(evs, p) := take_events p in '(evs', p) ← feed r p; Some (evs ++ evs', p)
  end.

(** ** The parser without offsets *)

Definition pieces (s : str) : list str := split_on (N.eqb cLF) s.
Definition last_piece (s : str) : str := default [] (last (pieces s)).
(** All complete lines are processed, the last piece waits. *)
Definition absorb (p : SseParser) : SseParser :=
  set_buf (last_piece (sse_buf p)) (foldl process_line p (removelast (pieces (sse_buf p)))).

Lemma process_line_buf p line b : set_buf b (process_line p line) = process_line (set_buf b p) line.
Proof.
  unfold process_line, dispatch_event, apply_field. destruct p as [b0 en dl id pe]. cbn.
  repeat case_match; done.
Qed.
Lemma process_lines_buf p ls b : set_buf b (foldl process_line p ls) = foldl process_line (set_buf b p) ls.
Proof. revert p; induction ls as [|l r IH]; intros p; cbn; [done|]. by rewrite IH, process_line_buf. Qed.
Lemma set_buf_id p : set_buf (sse_buf p) p = p.
Proof. by destruct p. Qed.
Lemma set_buf_twice a b p : set_buf a (set_buf b p) = set_buf a p.
Proof. done. Qed.

Lemma pieces_app a b : Forall (λ c, (cLF =? c)%N = false) a → pieces (a ++ cLF :: b) = a :: pieces b.
Proof. intros Ha. by apply split_on_app. Qed.
Lemma removelast_cons {A} (x : A) l : l ≠ [] → removelast (x :: l) = x :: removelast l.
Proof. by destruct l. Qed.

Lemma drain_lines_absorb fuel p : length (sse_buf p) ≤ fuel → drain_lines fuel p = Some (absorb p).
Proof.
  revert p; induction fuel as [|k IH]; intros p Hl; cbn [drain_lines];
    pose proof (find_char_spec (sse_buf p) (N.eqb cLF)) as Hs; destruct (find_char _ _) as [i|].
  - destruct Hs as (a & c & b & E & _). rewrite E, length_app in Hl. cbn in Hl. lia.
  - unfold absorb, last_piece, pieces. rewrite split_on_none by done. cbn. by destruct p.
  - destruct Hs as (a & c & b & E & <- & Hc & Ha). apply N.eqb_eq in Hc as <-.
    assert (byte_len a + 1 = byte_len (a ++ [cLF])) as -> by (by rewrite byte_len_app).
    rewrite E. change (a ++ cLF :: b) with (a ++ [cLF] ++ b). rewrite (app_assoc a [cLF] b).
    rewrite slice_to_app, slice_from_app. cbn [mbind option_bind].
    rewrite (proj2 (strip_suffix_Some [cLF] (a ++ [cLF]) a)) by done. cbn [default].
    rewrite IH.
    + unfold absorb. rewrite <- process_line_buf. cbn [sse_buf set_buf]. f_equal.
      rewrite E. unfold last_piece. rewrite pieces_app by done.
      assert (pieces b ≠ []) as Hne by apply split_on_nonempty.
      rewrite removelast_cons by done. rewrite last_cons. cbn [foldl].
      destruct (last (pieces b)) eqn:El; [|by apply last_None in El].
      rewrite !process_lines_buf, !process_line_buf. done.
    + rewrite <- process_line_buf. cbn [sse_buf set_buf]. rewrite E, length_app in Hl. cbn in Hl. lia.
  - unfold absorb, last_piece, pieces. rewrite split_on_none by done. cbn. by destruct p.
Qed.
Lemma push_absorb chunk p : push chunk p = Some (absorb (set_buf (sse_buf p ++ chunk) p)).
Proof. unfold push. by apply drain_lines_absorb. Qed.

(** ** Chunks *)

Lemma pieces_split a b : pieces (a ++ b) = removelast (pieces a) ++ pieces (last_piece a ++ b).
Proof.
  induction a as [|c a IH]; [done|]. unfold last_piece in *.
  assert (pieces a ≠ []) as Hne by apply split_on_nonempty.
  unfold pieces in *. cbn [app split_on]. destruct (cLF =? c)%N eqn:Ec.
  - rewrite removelast_cons, last_cons by done. destruct (last (split_on _ a)) eqn:El; [|by apply last_None in El].
    cbn [app]. by rewrite IH.
  - rewrite IH. destruct (split_on _ a) as [|q [|q' ps]]; [done| |].
    + change (default [] (last [c :: q]) ++ b) with (c :: (q ++ b)). cbn [removelast app split_on]. rewrite Ec. done.
    + rewrite !removelast_cons by done. cbn [app]. done.
Qed.

Lemma absorb_more p c : absorb (set_buf (sse_buf (absorb p) ++ c) (absorb p)) = absorb (set_buf (sse_buf p ++ c) p).
Proof.
  unfold absorb. cbn [sse_buf set_buf]. rewrite !set_buf_twice, <- process_lines_buf.
  assert (pieces (last_piece (sse_buf p) ++ c) ≠ []) as Hne by apply split_on_nonempty.
  rewrite (pieces_split (sse_buf p) c), removelast_app, foldl_app by done.
  rewrite !process_lines_buf, !set_buf_twice. f_equal.
  unfold last_piece at 3. rewrite (pieces_split (sse_buf p)), last_app.
  unfold last_piece at 1. destruct (last (pieces (_ ++ c))) eqn:El; [done|]. by apply last_None in El.
Qed.

(** What waits to be taken only grows. *)
Definition with_pending (evs : list SseEvent) (p : SseParser) : SseParser :=
  mkSse (sse_buf p) (event_name p) (data_lines p) (sse_id p) (evs ++ pending p).
Lemma process_line_pending evs p line : process_line (with_pending evs p) line = with_pending evs (process_line p line).
Proof.
  unfold process_line, dispatch_event, apply_field, with_pending. destruct p as [b en dl id pe]. cbn.
  repeat case_match; try done. cbn. by rewrite app_assoc.
Qed.
Lemma absorb_pending evs p : absorb (with_pending evs p) = with_pending evs (absorb p).
Proof.
  unfold absorb. cbn [sse_buf with_pending]. generalize (removelast (pieces (sse_buf p))) (last_piece (sse_buf p)).
  intros ls b. assert (foldl process_line (with_pending evs p) ls = with_pending evs (foldl process_line p ls)) as ->; [|done].
  revert p; induction ls as [|l r IH]; intros p; [done|]. cbn. by rewrite process_line_pending, IH.
Qed.
Lemma take_events_spec p : p = with_pending (take_events p).1 (take_events p).2.
Proof. destruct p. unfold with_pending. cbn. by rewrite app_nil_r. Qed.

Lemma with_pending_inj evs p q : with_pending evs p = with_pending evs q → p = q.
Proof. destruct p, q. unfold with_pending. cbn. intros [= -> -> -> -> ->%app_inv_head]. done. Qed.

Lemma feed_spec chunks p :
  pending p = [] → absorb p = p →
  ∃ evs p', feed chunks p = Some (evs, p') ∧ pending p' = [] ∧
    absorb (set_buf (sse_buf p ++ mjoin chunks) p) = with_pending evs p'.
Proof.
  revert p; induction chunks as [|c r IH]; intros p Hp Hid; cbn [feed].
  { exists [], p. split_and!; [done..|]. cbn. rewrite app_nil_r. destruct p. cbn in *. by subst. }
  rewrite push_absorb. cbn [mbind option_bind].
  set (q := absorb (set_buf (sse_buf p ++ c) p)). destruct (take_events q) as [evs1 q1] eqn:Et.
  pose proof (take_events_spec q) as Hq. rewrite Et in Hq. cbn [fst snd] in Hq.
  assert (absorb q = q) as Hqid.
  { pose proof (absorb_more (set_buf (sse_buf p ++ c) p) []) as Hm. fold q in Hm. rewrite !app_nil_r, !set_buf_id in Hm. exact Hm. }
  destruct (IH q1) as (evs & p' & E & Hp' & Ha); [by injection Et as _ <-| |].
  { rewrite Hq, absorb_pending in Hqid. by eapply with_pending_inj. }
  rewrite E. cbn [mbind option_bind]. exists (evs1 ++ evs), p'. split_and!; [done..|].
  cbn [mjoin list_join]. rewrite app_assoc.
  pose proof (absorb_more (set_buf (sse_buf p ++ c) p) (mjoin r)) as Hm. cbn [sse_buf set_buf] in Hm.
  etrans; [symmetry; exact Hm|]. fold q. rewrite Hq. cbn [sse_buf with_pending].
  change (set_buf ?b (with_pending evs1 q1)) with (with_pending evs1 (set_buf b q1)).
  rewrite absorb_pending, Ha. unfold with_pending. cbn. by rewrite app_assoc.
Qed.

(** ** Printing events *)

Definition event_lines (e : SseEvent) : list str :=
  match ev_event e with Some n => [lit "event" ++ lit ": " ++ n] | None => [] end ++
  ((λ l, lit "data" ++ lit ": " ++ l) <$> pieces (ev_data e)) ++
  [lit "id" ++ lit ": " ++ default [] (ev_id e); []].
Definition print_event (e : SseEvent) : str := unlines (event_lines e).
Definition plain_event (e : SseEvent) : Prop :=
  (∀ n, ev_event e = Some n → clean_line n) ∧
  Forall (λ l, last l ≠ Some cCR) (pieces (ev_data e)) ∧
  (∀ i, ev_id e = Some i → i ≠ [] ∧ clean_line i).

Lemma join_pieces s : join [cLF] (pieces s) = s.
Proof.
  induction s as [|c s IH]; [done|]. unfold pieces in *. cbn [split_on]. destruct (cLF =? c)%N eqn:Ec.
  - apply N.eqb_eq in Ec as <-. destruct (split_on (N.eqb cLF) s) eqn:Es; [by apply split_on_nonempty in Es|].
    change (join [cLF] ([] :: l :: l0)) with ([cLF] ++ join [cLF] (l :: l0)). by rewrite IH.
  - destruct (split_on (N.eqb cLF) s) as [|q [|q' ps]]; [by cbn in IH; subst s| |].
    + cbn in *. by rewrite IH.
    + cbn in *. by rewrite IH.
Qed.

Lemma process_field field v p :
  chr ":" ∉ field → field ≠ [] → last v ≠ Some cCR →
  process_line p (field ++ lit ": " ++ v) = apply_field field v p.
Proof.
  intros Hf Hne Hv. unfold process_line. rewrite strip_cr_id; cycle 1.
  { rewrite app_assoc, last_app. destruct (last v) eqn:E; [done|]. rewrite last_app. done. }
  destruct field as [|c f]; [done|]. cbn [app].
  assert (starts_with (c :: f ++ lit ": " ++ v) (lit ":") = false) as ->.
  { apply bool_decide_eq_false. intros [r Hr]. apply strip_prefix_Some in Hr. injection Hr as Hc _. subst c. apply Hf. by left. }
  assert (split_once (c :: f ++ lit ": " ++ v) (lit ":") = Some (c :: f, lit " " ++ v)) as Es.
  { apply split_once_Some. split; [done|]. intros a' b' E. destruct (le_lt_dec (length (c :: f)) (length a')) as [|Hlt]; [done|].
    exfalso. apply Hf. assert ((c :: f) !! length a' = Some (chr ":")) as Hl.
    { rewrite <- (lookup_app_l (c :: f) (lit ": " ++ v)) by done. cbn [app]. rewrite E. by apply list_lookup_middle. }
    by eapply list_elem_of_lookup_2. }
  rewrite Es. cbn. done.
Qed.

Lemma apply_event v p : apply_field (lit "event") v p = mkSse (sse_buf p) (Some v) (data_lines p) (sse_id p) (pending p).
Proof. done. Qed.
Lemma apply_data v p : apply_field (lit "data") v p = mkSse (sse_buf p) (event_name p) (data_lines p ++ [v]) (sse_id p) (pending p).
Proof. done. Qed.
Lemma apply_id v p :
  apply_field (lit "id") v p = mkSse (sse_buf p) (event_name p) (data_lines p) (if v == [] then None else Some v) (pending p).
Proof. done. Qed.
Lemma no_colon (f : str) : f ∈ [lit "event"; lit "data"; lit "id"] → chr ":" ∉ f ∧ f ≠ [].
Proof.
  intros H. assert (Forall (λ f, chr ":" ∉ f ∧ f ≠ []) [lit "event"; lit "data"; lit "id"]) as HF
    by (apply (bool_decide_eq_true_1 _); vm_compute; reflexivity).
  rewrite Forall_forall in HF. by apply HF.
Qed.
Ltac field := rewrite process_field; [|apply no_colon; set_solver|apply no_colon; set_solver|].

Lemma process_data ls p :
  Forall (λ l, last l ≠ Some cCR) ls →
  foldl process_line p ((λ l, lit "data" ++ lit ": " ++ l) <$> ls)
  = mkSse (sse_buf p) (event_name p) (data_lines p ++ ls) (sse_id p) (pending p).
Proof.
  intros H. revert p. induction H as [|l ls Hl _ IH]; intros p; cbn [fmap list_fmap foldl].
  - rewrite app_nil_r. by destruct p.
  - field; [|done]. rewrite apply_data, IH. cbn. by rewrite <- app_assoc.
Qed.
Lemma process_event e b i pe :
  plain_event e →
  foldl process_line (mkSse b None [] i pe) (event_lines e) = mkSse b None [] (ev_id e) (pe ++ [e]).
Proof.
  intros (Hn & Hd & Hi). unfold event_lines. rewrite foldl_app.
  assert (foldl process_line (mkSse b None [] i pe) (match ev_event e with Some n => [lit "event" ++ lit ": " ++ n] | None => [] end)
          = mkSse b (ev_event e) [] i pe) as ->.
  { destruct (ev_event e) as [n|]; [|done]. cbn [foldl]. field; [|by apply Hn]. by rewrite apply_event. }
  rewrite foldl_app, process_data by done. cbn [foldl]. field; cycle 1.
  { destruct (ev_id e) as [i'|]; [|done]. by apply Hi. }
  rewrite apply_id. unfold process_line. change (strip_cr [] == []) with true. cbn [event_name data_lines sse_id pending sse_buf].
  unfold dispatch_event. cbn [event_name data_lines sse_id pending sse_buf app].
  assert (length (pieces (ev_data e)) =? 0 = false) as ->.
  { apply Nat.eqb_neq. pose proof (split_on_nonempty (N.eqb cLF) (ev_data e)) as H.
    unfold pieces. destruct (split_on _ _); [done|cbn; lia]. }
  cbn [andb]. rewrite join_pieces.
  assert ((if default [] (ev_id e) == [] then None else Some (default [] (ev_id e))) = ev_id e) as ->.
  { destruct (ev_id e) as [i'|]; [|done]. cbn. rewrite bool_decide_false; [done|]. by apply Hi. }
  by destruct e.
Qed.
Lemma process_events evs b i pe :
  Forall plain_event evs →
  ∃ j, foldl process_line (mkSse b None [] i pe) (mjoin (event_lines <$> evs)) = mkSse b None [] j (pe ++ evs).
Proof.
  intros H. revert i pe. induction H as [|e evs He _ IH]; intros i pe.
  - exists i. cbn. by rewrite app_nil_r.
  - change (mjoin (event_lines <$> e :: evs)) with (event_lines e ++ mjoin (event_lines <$> evs)). rewrite foldl_app, process_event by done. destruct (IH (ev_id e) (pe ++ [e])) as [j ->]. exists j. by rewrite <- app_assoc.
Qed.

Lemma event_lines_clean e : plain_event e → Forall (Forall (λ c, c ≠ cLF)) (event_lines e).
Proof.
  intros (Hn & _ & Hi). unfold event_lines. rewrite !Forall_app.
  assert (∀ f, f ∈ [lit "event"; lit "data"; lit "id"] → Forall (λ c, c ≠ cLF) (f ++ lit ": ")) as Hf.
  { intros f Hf. assert (Forall (λ f, Forall (λ c, c ≠ cLF) (f ++ lit ": ")) [lit "event"; lit "data"; lit "id"]) as HF
      by (apply (bool_decide_eq_true_1 _); vm_compute; reflexivity).
    rewrite Forall_forall in HF. by apply HF. }
  assert (∀ f v, f ∈ [lit "event"; lit "data"; lit "id"] → Forall (λ c, c ≠ cLF) v → Forall (λ c, c ≠ cLF) (f ++ lit ": " ++ v)) as Hv.
  { intros f v H1 H2. rewrite app_assoc. apply Forall_app. auto. }
  split_and!.
  - destruct (ev_event e) as [n|]; [|constructor]. constructor; [|constructor]. apply Hv; [set_solver|]. by apply Hn.
  - apply Forall_fmap, Forall_forall. intros l Hl. apply Hv; [set_solver|].
    pose proof (split_on_pieces (N.eqb cLF) (ev_data e)) as HF. rewrite Forall_forall in HF. apply HF in Hl.
    eapply Forall_impl; [exact Hl|]. intros c Hc. apply N.eqb_neq in Hc. congruence.
  - constructor; [|by repeat constructor]. apply Hv; [set_solver|]. destruct (ev_id e) as [i|]; [|constructor]. by apply Hi.
Qed.
Lemma pieces_unlines ls : Forall (Forall (λ c, c ≠ cLF)) ls → pieces (unlines ls) = ls ++ [[]].
Proof.
  induction 1 as [|l ls Hl _ IH]; [done|]. change (unlines (l :: ls)) with ((l ++ [cLF]) ++ unlines ls).
  rewrite <- app_assoc. cbn [app]. rewrite pieces_app; [by rewrite IH|].
  eapply Forall_impl; [exact Hl|]. intros c Hc. apply N.eqb_neq. congruence.
Qed.

(** Events survive any transport: when the text that arrives, cut
    into chunks anywhere, is what a server prints for a list of events (the name,
    the data line by line, the id, a blank line), the client takes exactly those
    events, in order, each once, whenever it looks; data of several lines and
    empty data included. (Names and ids on one line; no line ends in a carriage
    return, which the parser takes for part of the line end.) *)
Theorem sse_events_arrive (evs : list SseEvent) (chunks : list str) :
  Forall plain_event evs → mjoin chunks = mjoin (print_event <$> evs) →
  ∃ p, feed chunks new_parser = Some (evs, p).
Proof.
  intros Hevs Hj. destruct (feed_spec chunks new_parser eq_refl eq_refl) as (out & p & E & Hp & Ha).
  cbn [sse_buf new_parser app] in Ha. rewrite Hj in Ha.
  assert (mjoin (print_event <$> evs) = unlines (mjoin (event_lines <$> evs))) as El.
  { clear. induction evs as [|e evs IH]; [done|].
    change (mjoin (print_event <$> e :: evs)) with (print_event e ++ mjoin (print_event <$> evs)).
    change (mjoin (event_lines <$> e :: evs)) with (event_lines e ++ mjoin (event_lines <$> evs)).
    rewrite IH. unfold print_event, unlines. by rewrite fmap_app, join_app. }
  rewrite El in Ha. unfold absorb in Ha. cbn [sse_buf set_buf] in Ha.
  rewrite pieces_unlines, removelast_last in Ha.
  - destruct (process_events evs (unlines (mjoin (event_lines <$> evs))) None [] Hevs) as [j Ej].
    unfold set_buf at 2 in Ha. cbn [event_name data_lines sse_id pending new_parser] in Ha. rewrite Ej in Ha.
    exists p. rewrite E. do 2 f_equal. apply (f_equal pending) in Ha. cbn in Ha. by rewrite Hp, app_nil_r in Ha.
  - clear -Hevs. induction Hevs as [|e evs He _ IH]; [constructor|]. cbn. apply Forall_app. split; [by apply event_lines_clean|done].
Qed.

(** Data of two lines, cut inside a line and inside the blank line. *)
Definition two_events : list SseEvent :=
  [mkEvent (Some (lit "message")) (lit "a" ++ [cLF] ++ lit "b: c") (Some (lit "7")); mkEvent None [] None].
Definition two_chunks : list str :=
  let s := mjoin (print_event <$> two_events) in [take 10 s; take 31 (drop 10 s); drop 41 s].
Lemma sse_events_arrive_witness :
  Forall plain_event two_events ∧ mjoin two_chunks = mjoin (print_event <$> two_events) ∧
  ∃ p, feed two_chunks new_parser = Some (two_events, p).
Proof.
  assert (Forall plain_event two_events) as H1.
  { constructor; [|constructor; [|constructor]]; (split_and!; [intros n Hn|apply (bool_decide_eq_true_1 _); vm_compute; reflexivity|intros i Hi]);
      try discriminate; injection Hn as <- || injection Hi as <-; unfold clean_line; try (split; [discriminate|]);
      split; try discriminate; apply (bool_decide_eq_true_1 _); vm_compute; reflexivity. }
  assert (mjoin two_chunks = mjoin (print_event <$> two_events)) as H2 by (vm_compute; reflexivity).
  split; [exact H1|]. split; [exact H2|]. exact (sse_events_arrive two_events two_chunks H1 H2).
Defined.

(** A body whose last line has no line feed loses that line; and once an event had
    an id, every blank line is an event. *)
Example last_line_lost : parse_sse_body (lit "data: {}") = Some [].
Proof. vm_compute. reflexivity. Qed.
Example blank_lines_are_events :
  length <$> parse_sse_body (lit "id: 1" ++ [cLF] ++ lit "data: x" ++ [cLF; cLF; cLF; cLF]) = Some 3.
Proof. vm_compute. reflexivity. Qed.
