(* ===== verification/Network.v ===== *)
(** [core/src/network.rs]: which hosts the HTTP tools may contact. The host is cut
    out of the URL text and compared with the patterns of the allowlist and the
    denylist. Slices that would panic are [None]; the theorems show there are none. *)

From S2P Require Import Prelude RustStr Bytes.

Record NetworkPolicy := mkPolicy { allowlist : list str; denylist : list str }.
Definition unrestricted : NetworkPolicy := mkPolicy [] [].
Definition is_restricted (self : NetworkPolicy) : bool :=
  negb (allowlist self == []) || negb (denylist self == []).

Definition cDOT : rchar := 46.
Definition cAT : rchar := 64.
Definition cCOLON : rchar := 58.
Definition cOPEN : rchar := 91.
Definition cCLOSE : rchar := 93.

Definition normalize_host (host : str) : option str :=
  let h := to_ascii_lowercase (trim_end_matches (N.eqb cDOT) (trim host)) in
  if starts_with h [cOPEN] && ends_with h [cCLOSE] && (2 <=? byte_len h)
  then slice h 1 (byte_len h - 1)
  else Some h.

Definition ends_authority (c : rchar) : bool := existsb (N.eqb c) (lit "/?#").

Definition parse_failure (url : str) : str := lit "could not parse host from URL: " ++ url.

(** [userinfo@host:port]: after the last [@]. *)
Definition after_userinfo (authority : str) : option str :=
  match rfind_char authority cAT with
  | Some i => slice_from authority (i + 1)
  | None => Some authority
  end.

Definition host_from_url (url : str) : outcome str :=
  let url := trim url in
  if url == [] then Some (Err (lit "URL is empty")) else
  rest <-? match strip_prefix (lit "https://") url with
           | Some r => Some (Ok r)
           | None =>
               match strip_prefix (lit "http://") url with
               | Some r => Some (Ok r)
               | None =>
                   match find url (lit "://") with
                   | Some scheme_end =>
                       scheme ← slice_to url scheme_end;
                       Some (Err (lit "unsupported URL scheme `" ++ scheme ++
                                  lit "` (only http and https are allowed for network tools)"))
                   | None => Some (Err (lit "URL must start with http:// or https:// (got: " ++ url ++ lit ")"))
                   end
               end
           end;
  if rest == [] then Some (Err (parse_failure url)) else
  let authority_end := default (byte_len rest) (find_char rest ends_authority) in
  authority ← slice_to rest authority_end;
  if authority == [] then Some (Err (parse_failure url)) else
  hostport ← after_userinfo authority;
  host <-? if starts_with hostport [cOPEN] then
             match find_char hostport (N.eqb cCLOSE) with
             | Some e => Ok <$> slice hostport 1 e
             | None => Some (Err (lit "invalid IPv6 host in URL: " ++ url))
             end
           else Some (Ok (default hostport (head (split_on (N.eqb cCOLON) hostport))));
  host ← normalize_host host;
  if host == [] then Some (Err (parse_failure url)) else Some (Ok host).

(** [host.len() > p.len() && host.ends_with(p) && the byte before it is a dot]. *)
Definition below (host p : str) : bool :=
  (byte_len p <? byte_len host) && ends_with host p &&
  (utf8 host !! (byte_len host - byte_len p - 1) == Some cDOT).

Definition host_matches_pattern (host pattern : str) : option bool :=
  host ← normalize_host host;
  pattern ← normalize_host pattern;
  Some (if (host == []) || (pattern == []) then false
        else if pattern == lit "*" then true
        else match strip_prefix (lit "*.") pattern with
             | Some suffix => negb (suffix == []) && below host suffix
             | None => (host == pattern) || below host pattern
             end).

(** [patterns.iter().any(|p| host_matches_pattern(host, p))]. *)
Fixpoint any_pattern (host : str) (patterns : list str) : option bool :=
  match patterns with
  | [] => Some false
  | p :: r => b ← host_matches_pattern host p; if b : bool then Some true else any_pattern host r
  end.

Definition is_host_allowed (self : NetworkPolicy) (host : str) : option bool :=
  host ← normalize_host host;
  if host == [] then Some false else
  denied ← any_pattern host (denylist self);
  if denied : bool then Some false
  else if allowlist self == [] then Some true
  else any_pattern host (allowlist self).

Definition blocked_message (host url : str) (policy : NetworkPolicy) : str :=
  lit "Network policy blocked host `" ++ host ++ lit "` for URL: " ++ url ++
  (if negb (allowlist policy == []) then [cLF] ++ lit "Allowed patterns: " ++ join (lit ", ") (allowlist policy) else []) ++
  (if negb (denylist policy == []) then [cLF] ++ lit "Denied patterns: " ++ join (lit ", ") (denylist policy) else []) ++
  [cLF] ++ lit "Configure `security.network_allowlist` / `security.network_denylist` in config.toml (or WHYCODES_NETWORK_ALLOWLIST / WHYCODES_NETWORK_DENYLIST).".

Definition check_url (self : NetworkPolicy) (url : str) : outcome unit :=
  host <-? host_from_url url;
  allowed ← is_host_allowed self host;
  Some (if allowed : bool then Ok tt else Err (blocked_message host url self)).

Definition ensure_url_allowed (self : NetworkPolicy) (url : str) : outcome unit :=
  if negb (is_restricted self) then Some (Ok tt) else
  host <-? host_from_url url;
  allowed ← is_host_allowed self host;
  Some (if allowed : bool then Ok tt else Err (blocked_message host url self)).

Definition parse_domain_list (raw : str) : list str :=
  filter (λ s, s ≠ []) (trim <$> split_on (λ c, existsb (N.eqb c) (lit ", " ++ [cLF; cHT])) raw).

(** ** Normal hosts *)

(** [normalize_host] without offsets. *)
Definition norm (host : str) : str :=
  let h := to_ascii_lowercase (trim_end_matches (N.eqb cDOT) (trim host)) in
  match h with
  | c :: r =>
      if (c =? cOPEN)%N then default h (strip_suffix [cCLOSE] r) else h
  | [] => h
  end.

Lemma normalize_host_norm host : normalize_host host = Some (norm host).
Proof.
  unfold normalize_host, norm. cbv zeta. set (h := to_ascii_lowercase _). clearbody h. clear host.
  destruct h as [|c r]; [done|].
  destruct (N.eqb_spec c cOPEN) as [->|Hne].
  - rewrite (starts_with_app [cOPEN] r : starts_with (cOPEN :: r) [cOPEN] = true). cbn [andb].
    destruct (strip_suffix [cCLOSE] r) as [m|] eqn:Em.
    + apply strip_suffix_Some in Em as ->.
      rewrite (proj2 (ends_with_true _ _)) by (by exists (cOPEN :: m)).
      rewrite byte_len_cons, byte_len_app. change (len_utf8 cOPEN) with 1. change (byte_len [cCLOSE]) with 1.
      rewrite (proj2 (Nat.leb_le _ _)) by lia. cbn [andb default].
      replace (1 + (byte_len m + 1) - 1) with (byte_len [cOPEN] + byte_len m) by (change (byte_len [cOPEN]) with 1; lia).
      apply (slice_app [cOPEN] m [cCLOSE]).
    + destruct (ends_with (cOPEN :: r) [cCLOSE]) eqn:Ee; [|done]. exfalso.
      apply ends_with_true in Ee as [q E]. destruct q as [|d q]; [done|]. injection E as _ ->.
      assert (strip_suffix [cCLOSE] (q ++ [cCLOSE]) = Some q) by by apply strip_suffix_Some. congruence.
  - destruct (starts_with (c :: r) [cOPEN]) eqn:E; [|done].
    apply starts_with_true in E as [q E]. by injection E as -> _.
Qed.

(** ** Patterns *)

(** [h] is a subdomain of [p]. *)
Definition subdomain (h p : str) : Prop := ∃ x, h = x ++ [cDOT] ++ p.

(** The pattern syntax of the module's documentation, on normal forms. *)
Definition matches_pattern (h p : str) : Prop :=
  h ≠ [] ∧ p ≠ [] ∧
  (p = lit "*" ∨
   (p ≠ lit "*" ∧ match strip_prefix (lit "*.") p with
      | Some suffix => suffix ≠ [] ∧ subdomain h suffix
      | None => h = p ∨ subdomain h p
      end)).

Lemma below_spec host p : below host p = true ↔ subdomain host p.
Proof.
  unfold below, subdomain. rewrite !andb_true_iff, Nat.ltb_lt, ends_with_true, bool_decide_eq_true. split.
  - intros [[Hl [r ->]] Hb]. rewrite byte_len_app in *. destruct r as [|c r _] using rev_ind; [blia|].
    assert (c = cDOT) as ->; [|exists r; by rewrite <- app_assoc].
    apply (last_byte r c cDOT); [done|]. revert Hb.
    rewrite utf8_app, lookup_app_l by (rewrite byte_len_utf8; pose proof (len_utf8_pos c); blia).
    by replace (byte_len (r ++ [c]) + byte_len p - byte_len p - 1) with (byte_len (r ++ [c]) - 1) by lia.
  - intros [x ->]. rewrite app_assoc. change (len_utf8 cDOT) with 1. split; [split|].
    + rewrite !byte_len_app. change (byte_len [cDOT]) with 1. lia.
    + eauto.
    + rewrite (byte_len_app (x ++ [cDOT]) p), utf8_app.
      rewrite lookup_app_l by (rewrite byte_len_utf8, !byte_len_app; change (byte_len [cDOT]) with 1; lia).
      replace (byte_len (x ++ [cDOT]) + byte_len p - byte_len p - 1) with (byte_len (x ++ [cDOT]) - 1) by lia.
      by apply last_byte.
Qed.

Lemma host_matches_pattern_spec host pattern :
  ∃ b, host_matches_pattern host pattern = Some b ∧ (b = true ↔ matches_pattern (norm host) (norm pattern)).
Proof.
  unfold host_matches_pattern. rewrite !normalize_host_norm. cbn [mbind option_bind].
  eexists; split; [done|]. unfold matches_pattern.
  generalize (norm host) (norm pattern); clear; intros h p.
  destruct (decide (h = [])) as [->|Hh]; [rewrite bool_decide_true by done; naive_solver|].
  destruct (decide (p = [])) as [->|Hp];
    [rewrite (bool_decide_true ([] = [])), orb_true_r by done; naive_solver|].
  rewrite !bool_decide_false by done. cbn [orb].
  destruct (decide (p = lit "*")) as [->|Hs]; [naive_solver|]. rewrite bool_decide_false by done.
  destruct (strip_prefix (lit "*.") p) as [suffix|].
  - rewrite andb_true_iff, negb_true_iff, bool_decide_eq_false, below_spec. naive_solver.
  - rewrite orb_true_iff, bool_decide_eq_true, below_spec. naive_solver.
Qed.

Lemma any_pattern_spec host patterns :
  ∃ b, any_pattern host patterns = Some b ∧
       (b = true ↔ ∃ p, p ∈ patterns ∧ matches_pattern (norm host) (norm p)).
Proof.
  induction patterns as [|p r (b & IH & Hb)]; cbn [any_pattern].
  - exists false. split; [done|]. split; [done|]. intros (p & Hp & _). by apply elem_of_nil in Hp.
  - destruct (host_matches_pattern_spec host p) as (m & -> & Hm). cbn [mbind option_bind].
    destruct m; [exists true|exists b]; (split; [done|]); setoid_rewrite elem_of_cons; naive_solver.
Qed.

(** ** The policy *)

(** What a policy allows; [h] is a normal host. *)
Definition allows (policy : NetworkPolicy) (h : str) : Prop :=
  (∀ p, p ∈ denylist policy → ¬ matches_pattern h (norm p)) ∧
  (allowlist policy = [] ∨ ∃ p, p ∈ allowlist policy ∧ matches_pattern h (norm p)).

Lemma is_host_allowed_spec policy host :
  ∃ b, is_host_allowed policy host = Some b ∧ (b = true ↔ norm host ≠ [] ∧ allows policy (norm (norm host))).
Proof.
  unfold is_host_allowed, allows. rewrite normalize_host_norm. cbn [mbind option_bind].
  generalize (norm host); clear host; intros h.
  destruct (decide (h = [])) as [->|Hh]; [rewrite bool_decide_true by done; exists false; naive_solver|].
  rewrite (bool_decide_false (h = [])) by done.
  destruct (any_pattern_spec h (denylist policy)) as (d & -> & Hd). cbn [mbind option_bind].
  destruct d; [exists false; split; [done|]; destruct (proj1 Hd eq_refl) as (p & ? & ?); naive_solver|].
  assert (∀ p, p ∈ denylist policy → ¬ matches_pattern (norm h) (norm p)) as Hnd.
  { intros p Hp Hm. enough (false = true) by done. apply Hd. eauto. }
  destruct (decide (allowlist policy = [])) as [E|E].
  - rewrite bool_decide_true by done. exists true. naive_solver.
  - rewrite bool_decide_false by done.
    destruct (any_pattern_spec h (allowlist policy)) as (a & -> & Ha). exists a. naive_solver.
Qed.

(** ** The host of a URL *)

(** A URL by its parts: [scheme://userinfo@host:port/path?query#fragment]. *)
Record url_parts := mkUrl {
  scheme : str; userinfo : option str; url_host : str; port : option str; tail : str }.
(** [:port], when there is one. *)
Definition port_text (u : url_parts) : str := match port u with Some p => [cCOLON] ++ p | None => [] end.
Definition print_authority (u : url_parts) : str :=
  match userinfo u with Some i => i ++ [cAT] | None => [] end ++ url_host u ++
  port_text u.
Definition print_url (u : url_parts) : str :=
  scheme u ++ print_authority u ++ tail u.

Definition free_of (cs : str) (s : str) : Prop := Forall (λ c, c ∉ cs ∧ is_whitespace c = false) s.
Definition host_ok (h : str) : Prop :=
  h ≠ [] ∧
  (free_of (lit "/?#@:[]") h ∨ ∃ a, h = [cOPEN] ++ a ++ [cCLOSE] ∧ free_of (lit "/?#@[]") a).
Definition well_formed (u : url_parts) : Prop :=
  scheme u ∈ [lit "https://"; lit "http://"] ∧
  match userinfo u with Some i => free_of (lit "/?#") i | None => True end ∧
  host_ok (url_host u) ∧
  match port u with Some p => Forall (λ c, is_ascii_digit c = true) p | None => True end ∧
  match tail u with [] => True | c :: _ => ends_authority c = true end ∧
  trim (print_url u) = print_url u.

(** The host without the brackets of an IPv6 address. *)
Definition bare_host (h : str) : str :=
  match h with
  | c :: r => if (c =? cOPEN)%N then default [] (strip_suffix [cCLOSE] r) else h
  | [] => []
  end.

Lemma cut_authority a t :
  Forall (λ c, ends_authority c = false) a → match t with [] => True | c :: _ => ends_authority c = true end →
  slice_to (a ++ t) (default (byte_len (a ++ t)) (find_char (a ++ t) ends_authority)) = Some a.
Proof.
  intros Ha Ht. destruct t as [|c t].
  - rewrite app_nil_r, find_char_none by done. cbn [default].
    pose proof (slice_to_app a []) as H. by rewrite app_nil_r in H.
  - rewrite find_char_app by done. cbn [default]. apply slice_to_app.
Qed.

Lemma port_free p c : Forall (λ c, is_ascii_digit c = true) p → c ∈ p → (48 ≤ c ≤ 57)%N.
Proof.
  rewrite Forall_forall. intros H Hc%H. unfold is_ascii_digit in Hc. boolp. lia.
Qed.

Lemma port_text_free u c :
  match port u with Some p => Forall (λ c, is_ascii_digit c = true) p | None => True end →
  c ∈ port_text u → (48 ≤ c ≤ 58)%N.
Proof.
  unfold port_text. destruct (port u) as [p|]; [|set_solver].
  intros Hp [->|Hc]%elem_of_cons; [done|]. apply (port_free p c) in Hc; [lia|done].
Qed.

Lemma host_ok_free h c : host_ok h → c ∈ h → c ∉ lit "/?#@".
Proof.
  intros [_ [H|(a & -> & H)]] Hc; unfold free_of in H; rewrite Forall_forall in H.
  - destruct (H _ Hc) as [Hn _]. intros Hi. apply Hn. revert Hi.
    change (lit "/?#@:[]") with (lit "/?#@" ++ lit ":[]"). set_solver.
  - rewrite !elem_of_app, !list_elem_of_singleton in Hc. destruct Hc as [->|[Hc| ->]]; [by apply (bool_decide_unpack _)| |by apply (bool_decide_unpack _)].
    destruct (H _ Hc) as [Hn _]. intros Hi. apply Hn. revert Hi.
    change (lit "/?#@[]") with (lit "/?#@" ++ lit "[]"). set_solver.
Qed.

(** The port part is read off: the host is what stands before it. *)
Lemma split_host h p :
  host_ok h → (p = [] ∨ ∃ d, p = [cCOLON] ++ d) → cOPEN ∉ p → cCLOSE ∉ p →
  (if starts_with (h ++ p) [cOPEN] then
     match find_char (h ++ p) (N.eqb cCLOSE) with
     | Some e => Ok <$> slice (h ++ p) 1 e
     | None => None
     end
   else Some (Ok (default (h ++ p) (head (split_on (N.eqb cCOLON) (h ++ p)))))) = Some (Ok (bare_host h)).
Proof.
  intros [Hne Hh] Hp Ho Hc. destruct Hh as [Hh|(a & -> & Ha)].
  - assert (∀ c, c ∈ h → c ∉ lit ":[]") as Hf.
    { intros c Hch Hi. unfold free_of in Hh. rewrite Forall_forall in Hh. destruct (Hh _ Hch) as [Hn _].
      apply Hn. change (lit "/?#@:[]") with (lit "/?#@" ++ lit ":[]"). set_solver. }
    destruct h as [|c h]; [done|].
    assert (c ≠ cOPEN) as Hco.
    { intros ->. apply (Hf cOPEN); [set_solver|]. by apply (bool_decide_unpack _). }
    assert (bare_host (c :: h) = c :: h) as ->.
    { cbn [bare_host]. by destruct (N.eqb_spec c cOPEN). }
    destruct (starts_with ((c :: h) ++ p) [cOPEN]) eqn:Es.
    { apply starts_with_true in Es as [r E]. by injection E as -> _. }
    assert (Forall (λ x, (cCOLON =? x)%N = false) (c :: h)) as Hnc.
    { apply Forall_forall. intros x Hx. apply N.eqb_neq. intros <-. apply (Hf cCOLON); [done|].
      by apply (bool_decide_unpack _). }
    destruct Hp as [->|[d ->]].
    + rewrite app_nil_r, (split_on_none (N.eqb cCOLON)) by done. done.
    + cbn [app]. rewrite (app_comm_cons h (cCOLON :: d) c), (split_on_app (N.eqb cCOLON)) by done. done.
  - assert (bare_host ([cOPEN] ++ a ++ [cCLOSE]) = a) as ->.
    { cbn [bare_host app]. rewrite N.eqb_refl.
      by rewrite (proj2 (strip_suffix_Some [cCLOSE] (a ++ [cCLOSE]) a) eq_refl). }
    rewrite <- app_assoc, starts_with_app. 
    replace (([cOPEN] ++ (a ++ [cCLOSE]) ++ p)) with (([cOPEN] ++ a) ++ cCLOSE :: p) by (by rewrite <- !app_assoc).
    rewrite find_char_app.
    + rewrite byte_len_app, <- app_assoc. change 1 with (byte_len [cOPEN]) at 1.
      by rewrite (slice_app [cOPEN] a (cCLOSE :: p)).
    + constructor; [done|]. unfold free_of in Ha. eapply Forall_impl; [exact Ha|].
      intros x [Hn _]. apply N.eqb_neq. intros <-. apply Hn. by apply (bool_decide_unpack _).
    + done.
Qed.

Lemma ends_authority_false c : ends_authority c = false ↔ c ∉ lit "/?#".
Proof.
  unfold ends_authority. rewrite existsb_false_iff. split.
  - intros H Hc. apply H in Hc. by rewrite N.eqb_refl in Hc.
  - intros H x Hx. apply N.eqb_neq. by intros ->.
Qed.

(** The authority of a well-formed URL. *)
Lemma authority_whole u : well_formed u → Forall (λ c, ends_authority c = false) (print_authority u).
Proof.
  intros (_ & Hu & Hh & Hp & _). unfold print_authority. rewrite !Forall_app. split_and!.
  - destruct (userinfo u) as [i|]; [|constructor]. apply Forall_app. split.
    + unfold free_of in Hu. eapply Forall_impl; [exact Hu|]. intros c [Hc _]. by apply ends_authority_false.
    + by repeat constructor.
  - apply Forall_forall. intros c Hc%(host_ok_free _ _ Hh). apply ends_authority_false.
    intros Hi. apply Hc. change (lit "/?#@") with (lit "/?#" ++ lit "@"). set_solver.
  - apply Forall_forall. intros c Hc%(port_text_free _ _ Hp). apply ends_authority_false.
    change (lit "/?#") with [47; 63; 35]%N. rewrite !not_elem_of_cons. split_and!; [lia..|set_solver].
Qed.

Lemma after_userinfo_parts u :
  well_formed u → after_userinfo (print_authority u) = Some (url_host u ++ port_text u).
Proof.
  intros (_ & _ & Hh & Hp & _). unfold after_userinfo, print_authority.
  assert (cAT ∉ url_host u ++ port_text u) as Hn.
  { intros [Hc|Hc]%elem_of_app.
    - apply (host_ok_free _ _ Hh) in Hc. apply Hc. by apply (bool_decide_unpack _).
    - apply (port_text_free _ _ Hp) in Hc. unfold cAT in Hc. lia. }
  destruct (userinfo u) as [i|].
  - rewrite <- app_assoc. cbn [app]. rewrite rfind_char_app by done.
    rewrite (cons_middle cAT i), app_assoc. change 1 with (byte_len [cAT]). rewrite <- byte_len_app.
    apply slice_from_app.
  - cbn [app]. by rewrite rfind_char_none.
Qed.

Lemma host_from_url_parts u :
  well_formed u →
  host_from_url (print_url u) =
  Some (if norm (bare_host (url_host u)) == [] then Err (parse_failure (print_url u))
        else Ok (norm (bare_host (url_host u)))).
Proof.
  intros Hw. pose proof (authority_whole u Hw) as Hfree. pose proof (after_userinfo_parts u Hw) as Hui.
  destruct Hw as (Hs & _ & Hh & Hp & Ht & Htrim). unfold host_from_url. rewrite Htrim.
  assert (print_authority u ≠ []) as Hane.
  { unfold print_authority. intros [_ [E _]%app_eq_nil]%app_eq_nil. by destruct Hh. }
  assert (bool_decide (print_url u = []) = false) as ->.
  { apply bool_decide_false. unfold print_url. by intros [_ [E _]%app_eq_nil]%app_eq_nil. }
  match goal with |- try_bind ?m _ = _ =>
    assert (m = Some (Ok (print_authority u ++ tail u))) as -> end.
  { unfold print_url. set (rest := print_authority u ++ tail u). clearbody rest.
    rewrite elem_of_cons, list_elem_of_singleton in Hs. destruct Hs as [-> | ->].
    - by rewrite (proj2 (strip_prefix_Some (lit "https://") _ rest) eq_refl).
    - change (strip_prefix (lit "https://") (lit "http://" ++ rest)) with (@None str).
      by rewrite (proj2 (strip_prefix_Some (lit "http://") _ rest) eq_refl). }
  cbn [try_bind]. cbv zeta.
  rewrite bool_decide_false by (intros [E _]%app_eq_nil; done).
  rewrite cut_authority by done. cbn [mbind option_bind].
  rewrite bool_decide_false by done. rewrite Hui. cbn [mbind option_bind].
  assert (∀ c, (c < 48 ∨ 58 < c)%N → c ∉ port_text u) as Hno by (intros c ? ?%(port_text_free _ _ Hp); lia).
  assert (port_text u = [] ∨ ∃ d, port_text u = [cCOLON] ++ d) as Hcol
    by (unfold port_text; destruct (port u); eauto).
  pose proof (split_host _ _ Hh Hcol (Hno cOPEN ltac:(by right)) (Hno cCLOSE ltac:(by right))) as Hsplit.
  destruct (starts_with (url_host u ++ port_text u) [cOPEN]);
    [destruct (find_char (url_host u ++ port_text u) (N.eqb cCLOSE)); [|done]|];
    rewrite Hsplit; cbn [try_bind]; rewrite normalize_host_norm; cbn [mbind option_bind]; by case_bool_decide.
Qed.

(** ** Normal forms are stable *)

Lemma ascii_lower_fixes (P : rchar → Prop) c :
  (∀ d, (97 ≤ d ≤ 122)%N → P d) → P c → P (ascii_lower c).
Proof. intros H Hc. unfold ascii_lower, is_ascii_upper. destruct (_ && _) eqn:E; [apply H; boolp; lia|done]. Qed.

(** Plain text: no white space, no brackets. *)
Definition plain (c : rchar) : Prop := is_whitespace c = false ∧ c ≠ cOPEN ∧ c ≠ cCLOSE.

Lemma plain_letter d : (97 ≤ d ≤ 122)%N → plain d.
Proof.
  intros H. split_and!; [|unfold cOPEN; lia|unfold cCLOSE; lia]. 
  apply not_true_is_false. unfold is_whitespace.
  rewrite !orb_true_iff, !andb_true_iff, !N.eqb_eq, !N.leb_le. lia.
Qed.

Lemma norm_plain h :
  Forall plain h → norm h = to_ascii_lowercase (trim_end_matches (N.eqb cDOT) h) ∧ Forall plain (norm h).
Proof.
  intros H. unfold norm. rewrite trim_id by (eapply Forall_impl; [exact H|by intros ? (? & _)]).
  assert (Forall plain (to_ascii_lowercase (trim_end_matches (N.eqb cDOT) h))) as Hl.
  { destruct (trim_end_matches_prefix (N.eqb cDOT) h) as [q E]. rewrite E in H at 1. apply Forall_app in H as [H _].
    unfold to_ascii_lowercase. apply Forall_fmap. eapply Forall_impl; [exact H|].
    intros c Hc. by apply (ascii_lower_fixes plain); [apply plain_letter|]. }
  destruct (to_ascii_lowercase _) as [|c r]; [done|].
  assert (c ≠ cOPEN) as Hc by by inversion Hl as [|? ? (_ & ? & _)].
  by destruct (N.eqb_spec c cOPEN).
Qed.

Lemma norm_idem h : Forall plain h → norm (norm h) = norm h.
Proof.
  intros H. destruct (norm_plain h H) as [E Hn]. destruct (norm_plain _ Hn) as [-> _]. rewrite E.
  set (t := trim_end_matches (N.eqb cDOT) h).
  assert (trim_end_matches (N.eqb cDOT) (to_ascii_lowercase t) = to_ascii_lowercase t) as ->.
  { destruct t as [|c r _] eqn:Et using rev_ind; [done|].
    apply trim_end_matches_last in Et. unfold to_ascii_lowercase. rewrite fmap_app.
    apply (trim_end_matches_id _ (ascii_lower <$> r) (ascii_lower c)). apply N.eqb_neq in Et. apply N.eqb_neq. revert Et.
    unfold ascii_lower, is_ascii_upper, cDOT. case_match; boolp; lia. }
  apply to_ascii_lowercase_idemp.
Qed.

Lemma bare_host_plain u : well_formed u → Forall plain (bare_host (url_host u)).
Proof.
  intros (_ & _ & [Hne [Hh|(a & -> & Ha)]] & _).
  - assert (Forall plain (url_host u)) as Hpl.
    { unfold free_of in Hh. eapply Forall_impl; [exact Hh|]. intros c [Hn Hw].
      split_and!; [done|intros ->|intros ->]; apply Hn; by apply (bool_decide_unpack _). }
    destruct (url_host u) as [|c r]; [done|]. cbn [bare_host].
    assert (c ≠ cOPEN) as Hc by by inversion Hpl as [|? ? (_ & ? & _)].
    by destruct (N.eqb_spec c cOPEN).
  - assert (bare_host ([cOPEN] ++ a ++ [cCLOSE]) = a) as ->.
    { cbn [bare_host app]. rewrite N.eqb_refl.
      by rewrite (proj2 (strip_suffix_Some [cCLOSE] (a ++ [cCLOSE]) a) eq_refl). }
    unfold free_of in Ha. eapply Forall_impl; [exact Ha|]. intros c [Hn Hw].
    split_and!; [done|intros ->|intros ->]; apply Hn; by apply (bool_decide_unpack _).
Qed.

(** ** No slice is out of range *)

Lemma slice_to_find_char s f : is_Some (slice_to s (default (byte_len s) (find_char s f))).
Proof.
  pose proof (find_char_spec s f) as H. destruct (find_char s f) as [i|].
  - destruct H as (a & c & b & -> & <- & _). exists a. apply slice_to_app.
  - pose proof (slice_to_app s []) as E. rewrite app_nil_r in E. by exists s.
Qed.

Lemma after_userinfo_total authority : is_Some (after_userinfo authority).
Proof.
  unfold after_userinfo. pose proof (rfind_char_spec authority cAT) as H.
  destruct (rfind_char authority cAT) as [i|]; [|eauto].
  destruct H as (a & b & -> & <- & _). rewrite (cons_middle cAT a b), app_assoc.
  change 1 with (byte_len [cAT]). rewrite <- byte_len_app, slice_from_app. eauto.
Qed.

Lemma slice_bracketed s e :
  starts_with s [cOPEN] = true → find_char s (N.eqb cCLOSE) = Some e → is_Some (slice s 1 e).
Proof.
  intros [r ->]%starts_with_true He. pose proof (find_char_spec ([cOPEN] ++ r) (N.eqb cCLOSE)) as H.
  rewrite He in H. destruct H as (a & c & b & E & <- & Hc & _). apply N.eqb_eq in Hc as <-.
  destruct a as [|d a]; [by injection E|]. injection E as <- E. rewrite E.
  change (cOPEN :: a) with ([cOPEN] ++ a). rewrite byte_len_app.
  change ([cOPEN] ++ a ++ cCLOSE :: b) with ([cOPEN] ++ a ++ (cCLOSE :: b)).
  change 1 with (byte_len [cOPEN]) at 1. rewrite (slice_app [cOPEN] a (cCLOSE :: b)). eauto.
Qed.

Lemma host_from_url_total url : is_Some (host_from_url url).
Proof.
  unfold host_from_url. cbv zeta. generalize (trim url); clear url; intros url.
  case_bool_decide; [eauto|].
  match goal with |- is_Some (try_bind ?m _) => assert (is_Some m) as [r ->] end.
  { do 2 (destruct (strip_prefix _ url); [eauto|]). destruct (find url (lit "://")) as [e|] eqn:Ef; [|eauto].
    apply find_Some in Ef as (a & b & -> & -> & _). rewrite slice_to_app. cbn. eauto. }
  destruct r as [rest|e]; cbn [try_bind]; [|eauto]. case_bool_decide; [eauto|].
  destruct (slice_to_find_char rest ends_authority) as [authority ->]. cbn [mbind option_bind].
  case_bool_decide; [eauto|]. destruct (after_userinfo_total authority) as [hostport ->]. cbn [mbind option_bind].
  match goal with |- is_Some (try_bind ?m _) => assert (is_Some m) as [r ->] end.
  { destruct (starts_with hostport [cOPEN]) eqn:Es; [|eauto].
    destruct (find_char hostport (N.eqb cCLOSE)) as [e|] eqn:Ee; [|eauto].
    destruct (slice_bracketed _ _ Es Ee) as [h ->]. cbn. eauto. }
  destruct r as [host|e]; cbn [try_bind]; [|eauto].
  rewrite normalize_host_norm. cbn [mbind option_bind]. case_bool_decide; eauto.
Qed.

Lemma check_url_total policy url : is_Some (check_url policy url).
Proof.
  unfold check_url. destruct (host_from_url_total url) as [[host|e] ->]; cbn [try_bind]; [|eauto].
  destruct (is_host_allowed_spec policy host) as (b & -> & _). cbn. eauto.
Qed.

(** C26: What a network tool may fetch. [check_url] never panics on any
    text; for a URL with the parts [scheme://userinfo@host:port/...], whatever the
    user part and the port, it answers [Ok] exactly when the host, normalised, is
    not empty, matches no pattern of the denylist (which wins), and matches one of
    the allowlist unless that is empty; a pattern [p] matches [p] and its
    subdomains, [*.p] the subdomains only, [*] everything. *)
Theorem check_url_decides policy :
  (∀ url, is_Some (check_url policy url)) ∧
  ∀ u, well_formed u →
  ∃ r, check_url policy (print_url u) = Some r ∧
       (r = Ok tt ↔ norm (bare_host (url_host u)) ≠ [] ∧ allows policy (norm (bare_host (url_host u)))).
Proof.
  split; [apply check_url_total|]. intros u Hw. unfold check_url. rewrite host_from_url_parts by done.
  pose proof (norm_idem _ (bare_host_plain u Hw)) as Hidem.
  set (h := norm (bare_host (url_host u))) in *. clearbody h.
  case_bool_decide as Eh; cbn [try_bind]; [eexists; split; [done|]; naive_solver|].
  destruct (is_host_allowed_spec policy h) as (b & -> & Hb). rewrite !Hidem in Hb.
  cbn [mbind option_bind]. eexists; split; [done|]. rewrite <- Hb. by destruct b.
Qed.

Definition api_url : url_parts :=
  mkUrl (lit "https://") (Some (lit "me:pw")) (lit "API.Example.com") (Some (lit "8443")) (lit "/v1?q=@x").
Definition example_only : NetworkPolicy := mkPolicy [lit "example.com"] [lit "*.evil.org"].

Lemma check_url_decides_witness :
  print_url api_url = lit "https://me:pw@API.Example.com:8443/v1?q=@x" ∧
  ∃ r, check_url example_only (print_url api_url) = Some r ∧
       (r = Ok tt ↔ norm (bare_host (url_host api_url)) ≠ [] ∧
                    allows example_only (norm (bare_host (url_host api_url)))).
Proof.
  split; [reflexivity|]. apply (proj2 (check_url_decides example_only) api_url).
  unfold well_formed, host_ok. split_and!; try (vm_compute; reflexivity).
  - left.
  - cbn. unfold free_of. repeat constructor; by apply (bool_decide_unpack _).
  - done.
  - left. unfold free_of. cbn. repeat constructor; by apply (bool_decide_unpack _).
  - cbn. by repeat constructor.
Defined.

Example check_url_ex :
  check_url example_only (print_url api_url) = Some (Ok tt) ∧
  (∃ e, check_url example_only (lit "http://a.evil.org/") = Some (Err e)) ∧
  check_url example_only (lit "ftp://x") =
    Some (Err (lit "unsupported URL scheme `ftp` (only http and https are allowed for network tools)")).
Proof. split_and!; [|eexists|]; vm_compute; reflexivity. Qed.


(** A URL parser of the WHATWG kind ends the authority at a backslash too, drops
    tabs, and decodes escapes in the host; here they are part of the host text. *)
Example backslash_host :
  host_from_url (lit "https://evil.com\@good.com/") = Some (Ok (lit "good.com")) ∧
  check_url (mkPolicy [lit "good.com"] []) (lit "https://evil.com\@good.com/") = Some (Ok tt) ∧
  check_url (mkPolicy [] [lit "evil.com"]) (lit "https://%65vil.com/") = Some (Ok tt).
Proof. split_and!; vm_compute; reflexivity. Qed.
