(* ===== verification/Todo.v ===== *)
(** [core/src/todo.rs]: the session's todo list and the update the model's
    [todowrite] calls apply to it. Items are addressed by id, so the invariant is
    that ids are present and distinct; an item written without an id gets a free
    number, found by a loop that is shown to end. *)

From S2P Require Import Prelude RustStr.
From stdpp Require Import fin_sets gmap.

Inductive TodoStatus := Pending | InProgress | Completed | Cancelled.
#[export] Instance TodoStatus_eq_dec : EqDecision TodoStatus.
Proof. solve_decision. Defined.

Definition as_str (self : TodoStatus) : str :=
  match self with
  | Pending => lit "pending"
  | InProgress => lit "in_progress"
  | Completed => lit "completed"
  | Cancelled => lit "cancelled"
  end.
(** The four marks are U+2610, U+25B6, U+2611 and U+2717. *)
Definition mark (self : TodoStatus) : str :=
  match self with
  | Pending => [9744]%N
  | InProgress => [9654]%N
  | Completed => [9745]%N
  | Cancelled => [10007]%N
  end.
Definition is_terminal (self : TodoStatus) : bool :=
  match self with Completed | Cancelled => true | _ => false end.
Definition parse_status (s : str) : TodoStatus :=
  if s == lit "in_progress" then InProgress
  else if s == lit "completed" then Completed
  else if s == lit "cancelled" then Cancelled
  else Pending.

Record TodoItem := mkItem { id : str; content : str; status : TodoStatus }.
Definition line (self : TodoItem) : str := mark (status self) ++ lit " " ++ content self.

Definition set_id (i : str) (t : TodoItem) : TodoItem := mkItem i (content t) (status t).
Definition has_id (i : str) (t : TodoItem) : bool := id t == i.

(** [while todos.iter().any(|t| t.id == n.to_string()) { n += 1 }]; [None] when
    the fuel runs out. *)
Fixpoint free_id_loop (fuel : nat) (todos : list TodoItem) (n : nat) : option str :=
  match fuel with
  | O => None
  | S k => if existsb (has_id (digits (N.of_nat n))) todos then free_id_loop k todos (n + 1)
           else Some (digits (N.of_nat n))
  end.
Definition free_id (todos : list TodoItem) : option str :=
  free_id_loop (S (length todos)) todos (length todos + 1).

(** [if let Some(old) = existing.iter_mut().find(|t| t.id == new.id) { *old = new }]. *)
Fixpoint overwrite (existing : list TodoItem) (new : TodoItem) : option (list TodoItem) :=
  match existing with
  | [] => None
  | old :: r => if has_id (id new) old then Some (new :: r) else cons old <$> overwrite r new
  end.

Definition update_one (existing : list TodoItem) (new : TodoItem) : option (list TodoItem) :=
  if id new == [] then
    i ← free_id existing;
    Some (existing ++ [set_id i new])
  else
    match overwrite existing new with
    | Some existing => Some existing
    | None => Some (existing ++ [new])
    end.

Fixpoint update_all (existing incoming : list TodoItem) : option (list TodoItem) :=
  match incoming with
  | [] => Some existing
  | new :: r => existing ← update_one existing new; update_all existing r
  end.

Definition apply_todo_update (existing incoming : list TodoItem) (merge : bool) : option (list TodoItem) :=
  update_all (if merge then existing else []) incoming.

Definition terminal_count (todos : list TodoItem) : nat :=
  length (filter (λ t, is_terminal (status t) = true) todos).
Definition all_terminal (todos : list TodoItem) : bool :=
  negb (length todos =? 0) && forallb (λ t, is_terminal (status t)) todos.
Definition has_open (todos : list TodoItem) : bool := existsb (λ t, negb (is_terminal (status t))) todos.

Definition progress_line (todos : list TodoItem) : str :=
  let done := terminal_count todos in
  let next := match List.find (λ t, status t == InProgress) todos with
              | Some t => Some t
              | None => List.find (λ t, status t == Pending) todos
              end in
  match next with
  | Some t => digits (N.of_nat done) ++ lit "/" ++ digits (N.of_nat (length todos)) ++
              lit " done " ++ [183]%N ++ lit " next: " ++ content t
  | None => lit "all " ++ digits (N.of_nat done) ++ lit " done"
  end.

(** ** The free id *)

Definition ids (todos : list TodoItem) : list str := id <$> todos.
(** The type of a todo list: every item can be addressed, and by one id. *)
Definition keyed (todos : list TodoItem) : Prop := [] ∉ ids todos ∧ NoDup (ids todos).
Definition find_id (i : str) (todos : list TodoItem) : option TodoItem := List.find (has_id i) todos.

Lemma digits_inj a b : digits a = digits b → a = b.
Proof.
  intros E. pose proof (parse_uint_digits (N.max a b) a (N.le_max_l a b)) as Ha.
  rewrite E, parse_uint_digits in Ha by apply N.le_max_r. by injection Ha.
Qed.

Lemma has_id_true i t : has_id i t = true ↔ id t = i.
Proof. unfold has_id. by rewrite bool_decide_eq_true. Qed.

Lemma existsb_has_id i todos : existsb (has_id i) todos = true ↔ i ∈ ids todos.
Proof.
  rewrite existsb_true_iff. unfold ids. rewrite list_elem_of_fmap.
  split; intros (t & H1 & H2); [apply has_id_true in H2|]; eauto. exists t. by rewrite has_id_true.
Qed.

Lemma free_id_loop_None k todos n :
  free_id_loop k todos n = None → ∀ m, n ≤ m < n + k → digits (N.of_nat m) ∈ ids todos.
Proof.
  revert n; induction k as [|k IH]; intros n; cbn [free_id_loop]; [lia|].
  destruct (existsb _ todos) eqn:E; [|done]. intros H m Hm. apply existsb_has_id in E.
  destruct (decide (m = n)) as [->|Hne]; [done|]. apply (IH (n + 1)); [done|lia].
Qed.
Lemma free_id_loop_Some k todos n i :
  free_id_loop k todos n = Some i → i ∉ ids todos ∧ i ≠ [].
Proof.
  revert n; induction k as [|k IH]; intros n; cbn [free_id_loop]; [done|].
  destruct (existsb _ todos) eqn:E; [apply IH|]. intros [= <-]. split; [|apply digits_nonnil].
  intros H%existsb_has_id. congruence.
Qed.

(** Among [len + 1] numbers one is not an id. *)
Lemma free_id_fresh todos : ∃ i, free_id todos = Some i ∧ i ∉ ids todos ∧ i ≠ [].
Proof.
  destruct (free_id todos) as [i|] eqn:E; [exists i; split; [done|by eapply free_id_loop_Some]|]. exfalso.
  pose proof (free_id_loop_None _ _ _ E) as H.
  set (l := (λ m, digits (N.of_nat m)) <$> seq (length todos + 1) (S (length todos))).
  assert (NoDup l) as Hnd.
  { apply NoDup_fmap_2; [|apply NoDup_ListNoDup, seq_NoDup]. intros a b Hab%digits_inj. lia. }
  assert (l ⊆+ ids todos) as Hsub.
  { apply NoDup_submseteq; [done|]. intros x (m & -> & Hm)%list_elem_of_fmap.
    apply H. rewrite elem_of_seq in Hm. lia. }
  apply submseteq_length in Hsub. unfold l, ids in Hsub. rewrite !length_fmap, length_seq in Hsub. lia.
Qed.

(** ** One item *)

Lemma find_id_app i a b :
  find_id i (a ++ b) = match find_id i a with Some t => Some t | None => find_id i b end.
Proof. unfold find_id. induction a as [|t a IH]; cbn; [done|]. by destruct (has_id i t). Qed.

Lemma find_id_None i todos : find_id i todos = None ↔ i ∉ ids todos.
Proof.
  unfold find_id, ids. induction todos as [|t r IH]; cbn [List.find fmap list_fmap]; [set_solver|].
  rewrite not_elem_of_cons. destruct (has_id i t) eqn:E.
  - apply has_id_true in E as <-. naive_solver.
  - assert (id t ≠ i) by (intros <-; by rewrite (proj2 (has_id_true _ _) eq_refl) in E). naive_solver.
Qed.

Lemma find_id_single i t : find_id i [t] = if decide (id t = i) then Some t else None.
Proof.
  unfold find_id. cbn. destruct (has_id i t) eqn:E.
  - apply has_id_true in E. by rewrite decide_True.
  - rewrite decide_False; [done|]. intros H%has_id_true. congruence.
Qed.

Lemma overwrite_spec existing new :
  match overwrite existing new with
  | Some out => ids out = ids existing ∧ (id new ∈ ids existing) ∧
                ∀ i, find_id i out = if decide (id new = i) then Some new else find_id i existing
  | None => id new ∉ ids existing
  end.
Proof.
  induction existing as [|t r IH]; cbn [overwrite]; [apply not_elem_of_nil|].
  destruct (has_id (id new) t) eqn:E.
  - apply has_id_true in E. unfold ids. cbn [fmap list_fmap]. rewrite E. split_and!; [done|left|].
    intros i. change (new :: r) with ([new] ++ r). change (t :: r) with ([t] ++ r).
    rewrite !find_id_app, !find_id_single, E. by destruct (decide (id new = i)).
  - destruct (overwrite r new) as [out|]; cbn [fmap option_fmap option_map].
    + destruct IH as (Hids & Hin & Hf). unfold ids in *. cbn [fmap list_fmap]. rewrite Hids.
      split_and!; [done|by right|]. intros i. change (t :: out) with ([t] ++ out). change (t :: r) with ([t] ++ r).
      rewrite !find_id_app, !find_id_single, Hf. destruct (decide (id new = i)) as [<-|]; [|done].
      rewrite decide_False; [done|]. intros H%has_id_true. congruence.
    + unfold ids in *. cbn [fmap list_fmap]. rewrite not_elem_of_cons. split; [|done].
      intros H. symmetry in H. apply has_id_true in H. congruence.
Qed.

(** What one written item does: an item with an id is found under it, all other
    ids keep their item, and the ids already there keep their order. *)
Lemma update_one_spec existing new :
  keyed existing →
  ∃ out, update_one existing new = Some out ∧ keyed out ∧ ids existing `prefix_of` ids out ∧
    (id new ≠ [] → find_id (id new) out = Some new) ∧
    (∀ i t, i ≠ id new → find_id i existing = Some t → find_id i out = Some t).
Proof.
  intros [Hne Hnd]. unfold update_one. case_bool_decide as En.
  - destruct (free_id_fresh existing) as (i & -> & Hi & Hi0). cbn [mbind option_bind].
    eexists; split; [done|]. unfold keyed, ids. rewrite fmap_app. split_and!.
    + set_solver.
    + apply NoDup_app. split_and!; [done| |repeat constructor; set_solver].
      intros x Hx [->|Hx2]%elem_of_cons; [done|set_solver].
    + by apply prefix_app_r.
    + done.
    + intros j t _ Ht. by rewrite find_id_app, Ht.
  - pose proof (overwrite_spec existing new) as H. destruct (overwrite existing new) as [out|].
    + destruct H as (Hids & Hin & Hf). eexists; split; [done|]. rewrite Hids. split_and!; [|done| |].
      * unfold keyed. by rewrite Hids.
      * intros _. by rewrite Hf, decide_True.
      * intros i t Hi Ht. rewrite Hf, decide_False by done. done.
    + eexists; split; [done|]. unfold keyed, ids in *. rewrite fmap_app. split_and!.
      * set_solver.
      * apply NoDup_app. split_and!; [done| |repeat constructor; set_solver].
        intros x Hx [->|Hx2]%elem_of_cons; [done|set_solver].
      * by apply prefix_app_r.
      * intros _. rewrite find_id_app, (proj2 (find_id_None _ _) H), find_id_single. by rewrite decide_True.
      * intros j t _ Ht. by rewrite find_id_app, Ht.
Qed.

(** ** The whole update *)

(** The last item of [incoming] written under [i]. *)
Definition last_named (i : str) (incoming : list TodoItem) : option TodoItem := find_id i (rev incoming).

Lemma last_named_cons i t r :
  last_named i (t :: r) =
  match last_named i r with Some u => Some u | None => if decide (id t = i) then Some t else None end.
Proof. unfold last_named. cbn [rev]. by rewrite find_id_app, find_id_single. Qed.

Lemma update_all_spec incoming existing :
  keyed existing →
  ∃ out, update_all existing incoming = Some out ∧ keyed out ∧ ids existing `prefix_of` ids out ∧
    ∀ i t, i ≠ [] →
      (match last_named i incoming with Some u => Some u | None => find_id i existing end) = Some t →
      find_id i out = Some t.
Proof.
  revert existing; induction incoming as [|new r IH]; intros existing Hk; cbn [update_all].
  - exists existing. split_and!; done.
  - destruct (update_one_spec existing new Hk) as (mid & -> & Hmid & Hpre & Hnew & Hold).
    cbn [mbind option_bind]. destruct (IH mid Hmid) as (out & Eo & Hout & Hpre' & Hf).
    exists out. split_and!; [done|done|by etrans|]. intros i t Hi. rewrite last_named_cons. intros Ht.
    apply Hf; [done|]. destruct (last_named i r) as [u|]; [done|].
    destruct (decide (id new = i)) as [<-|Hne].
    + rewrite Hnew by done. done.
    + by apply Hold.
Qed.

(** C27: A todo list stays addressable under every update the model can
    send, duplicate ids and items without an id included: if all ids of the list
    are present and distinct they are so after it, and the update always returns
    (the search for a free number ends). The ids that were there keep their
    order; an id the call writes holds the last item written under it, and every
    other item is as it was. With [merge] off the list starts empty. *)
Theorem apply_todo_update_keyed existing incoming merge :
  keyed existing →
  ∃ out, apply_todo_update existing incoming merge = Some out ∧ keyed out ∧
    (merge = true → ids existing `prefix_of` ids out) ∧
    ∀ i t, i ≠ [] →
      (match last_named i incoming with
       | Some u => Some u
       | None => if merge then find_id i existing else None
       end) = Some t →
      find_id i out = Some t.
Proof.
  intros Hk. unfold apply_todo_update. destruct merge.
  - destruct (update_all_spec incoming existing Hk) as (out & Eo & Ho & Hp & Hf). exists out. naive_solver.
  - assert (keyed []) as Hnil by (split; [apply not_elem_of_nil|constructor]).
    destruct (update_all_spec incoming [] Hnil) as (out & Eo & Ho & Hp & Hf). exists out.
    split_and!; [done|done|done|]. intros i t Hi Ht. apply Hf; [done|]. by destruct (last_named i incoming).
Qed.

Definition plan : list TodoItem :=
  [mkItem (lit "1") (lit "read") Completed; mkItem (lit "3") (lit "write") InProgress].
Definition todo_call : list TodoItem :=
  [mkItem (lit "3") (lit "write") Completed; mkItem [] (lit "test") Pending; mkItem [] (lit "ship") Pending].

Lemma apply_todo_update_keyed_witness :
  keyed plan ∧
  ∃ out, apply_todo_update plan todo_call true = Some out ∧ keyed out ∧
    (true = true → ids plan `prefix_of` ids out) ∧
    ∀ i t, i ≠ [] →
      (match last_named i todo_call with Some u => Some u | None => find_id i plan end) = Some t →
      find_id i out = Some t.
Proof.
  assert (keyed plan) as H.
  { split; [by apply (bool_decide_unpack _)|]. by apply (bool_decide_unpack _). }
  split; [done|]. exact (apply_todo_update_keyed plan todo_call true H).
Defined.

(** 3 is taken, so the first new item gets 4; the next one 5. *)
Example apply_todo_update_ex :
  ids <$> apply_todo_update plan todo_call true = Some [lit "1"; lit "3"; lit "4"; lit "5"].
Proof. vm_compute. reflexivity. Qed.

(** A number given to an item without an id can be the id a later item of the
    same call is written under: that item replaces it, and the first is lost. *)
Example fresh_id_overwritten :
  apply_todo_update [] [mkItem [] (lit "a") Pending; mkItem (lit "1") (lit "b") Pending] true =
  Some [mkItem (lit "1") (lit "b") Pending].
Proof. vm_compute. reflexivity. Qed.

(** ** Progress *)

Lemma no_open_all_terminal todos :
  has_open todos = false → terminal_count todos = length todos.
Proof.
  unfold has_open, terminal_count. rewrite existsb_false_iff. intros H.
  rewrite list_filter_id; [done|]. intros t Ht. specialize (H t Ht). by apply negb_false_iff in H.
Qed.

(** With nothing open the line counts the whole list. *)
Lemma progress_line_all_done todos :
  has_open todos = false →
  progress_line todos = lit "all " ++ digits (N.of_nat (length todos)) ++ lit " done".
Proof.
  intros H. pose proof (no_open_all_terminal todos H) as Hc. unfold progress_line. rewrite Hc.
  unfold has_open in H. rewrite existsb_false_iff in H.
  assert (∀ s, s = InProgress ∨ s = Pending → List.find (λ t, status t == s) todos = None) as Hf.
  { intros s Hs. destruct (List.find _ todos) as [t|] eqn:E; [|done]. apply List.find_some in E as [Ht Es].
    boolp. apply list_elem_of_In, H in Ht. rewrite Es in Ht. by destruct Hs as [-> | ->]. }
  by rewrite !Hf by auto.
Qed.
