(* ===== verification/History.v ===== *)
(** [session/src/history.rs]: undo and redo of turns. Snapshots do not copy the
    transcript; they are prefixes of shared message logs that later operations cut
    back, extend and drop. The refinement theorem says that the sharing cannot be
    seen: the history behaves as two stacks of full copies.

    A [TreeSnapshot] of the working tree, taking one and putting one back are
    parameters (they run git); a [StashSlot] is the snapshot its thread returns. *)

From S2P Require Import Prelude RustStr.

Section history.
Context {Message : Type} `{EqDecision Message}.
Context {TreeSnapshot World : Type} (snapshot : World → TreeSnapshot)
  (restore_files : TreeSnapshot → TreeSnapshot → World → option str * World).

Definition DEFAULT_UNDO_DEPTH : nat := 50.

Record Restored := mkRestored { restored : list Message; files_note : option str }.

Record HistorySnapshot := mkSnap { snap_store : N; snap_len : nat; stash : TreeSnapshot }.
Record Store := mkStore { store_id : N; log : list Message }.
(** The end of [undo_stack] and of [redo_stack] is the top. *)
Record SessionHistory := mkHistory {
  undo_stack : list HistorySnapshot;
  redo_stack : list HistorySnapshot;
  stores : list Store;
  next_store : N;
  depth : nat;
  dropped : bool }.

Definition with_depth (d : nat) : SessionHistory := mkHistory [] [] [] 0 d false.
Definition new_history : SessionHistory := with_depth DEFAULT_UNDO_DEPTH.
Definition clear (self : SessionHistory) : SessionHistory := with_depth (depth self).
Definition can_undo (self : SessionHistory) : bool := negb (length (undo_stack self) =? 0).
Definition can_redo (self : SessionHistory) : bool := negb (length (redo_stack self) =? 0).
Definition exhausted_depth (self : SessionHistory) : option nat :=
  if dropped self && (length (undo_stack self) =? 0) then Some (depth self) else None.

Definition set_stores (l : list Store) (self : SessionHistory) : SessionHistory :=
  mkHistory (undo_stack self) (redo_stack self) l (next_store self) (depth self) (dropped self).
Definition set_undo (l : list HistorySnapshot) (self : SessionHistory) : SessionHistory :=
  mkHistory l (redo_stack self) (stores self) (next_store self) (depth self) (dropped self).
Definition set_redo (l : list HistorySnapshot) (self : SessionHistory) : SessionHistory :=
  mkHistory (undo_stack self) l (stores self) (next_store self) (depth self) (dropped self).

(** [live.iter().zip(messages).take_while(|(a, b)| a == b).count()]. *)
Fixpoint shared_len (kept now : list Message) : nat :=
  match kept, now with
  | a :: kept, b :: now => if decide (a = b) then S (shared_len kept now) else 0
  | _, _ => 0
  end.

(** The longest prefix of the log [id] that a remaining snapshot reads. *)
Definition needed (self : SessionHistory) (id : N) : nat :=
  foldr Nat.max 0
    (snap_len <$> filter (λ s, snap_store s = id) (undo_stack self ++ redo_stack self)).

(** [next_store] is a [u64]. *)
Definition new_store (self : SessionHistory) (messages : list Message) : SessionHistory * (N * nat) :=
  let id := ((next_store self + 1) mod 2 ^ 64)%N in
  (mkHistory (undo_stack self) (redo_stack self) (stores self ++ [mkStore id messages]) id
     (depth self) (dropped self),
   (id, length messages)).

Definition capture (self : SessionHistory) (messages : list Message) : SessionHistory * (N * nat) :=
  match last (stores self) with
  | Some live =>
      let shared := shared_len (log live) messages in
      if needed self (store_id live) <=? shared then
        let log' := take shared (log live) ++ drop shared messages in
        (set_stores (removelast (stores self) ++ [mkStore (store_id live) log']) self,
         (store_id live, length messages))
      else new_store self messages
  | None => new_store self messages
  end.

Definition find_store (self : SessionHistory) (id : N) : option Store :=
  List.find (λ s, (store_id s =? id)%N) (stores self).
Definition messages_of (self : SessionHistory) (snap : HistorySnapshot) : list Message :=
  match find_store self (snap_store snap) with
  | Some store => if snap_len snap <=? length (log store) then take (snap_len snap) (log store) else []
  | None => []
  end.

(** [while self.depth > 0 && self.undo_stack.len() > self.depth { pop_front(); dropped = true }]. *)
Fixpoint cap_undo (fuel : nat) (self : SessionHistory) : SessionHistory :=
  match fuel with
  | O => self
  | S k =>
      if (0 <? depth self) && (depth self <? length (undo_stack self)) then
        cap_undo k (mkHistory (tail (undo_stack self)) (redo_stack self) (stores self)
                      (next_store self) (depth self) true)
      else self
  end.
Definition push_undo (self : SessionHistory) (snap : HistorySnapshot) : SessionHistory :=
  let self := set_undo (undo_stack self ++ [snap]) self in
  cap_undo (length (undo_stack self)) self.

Definition referenced (self : SessionHistory) (id : N) : bool :=
  existsb (λ s, (snap_store s =? id)%N) (undo_stack self ++ redo_stack self).
Definition gc (self : SessionHistory) : SessionHistory :=
  let live := store_id <$> last (stores self) in
  set_stores
    (filter (λ store, (Some (store_id store) == live) || referenced self (store_id store) = true)
       (stores self)) self.

Definition record_turn (self : SessionHistory) (messages : list Message) (stash : TreeSnapshot) : SessionHistory :=
  let '(self, (store, len)) := capture (set_redo [] self) messages in
  gc (push_undo self (mkSnap store len stash)).
Definition push_before_turn (self : SessionHistory) (messages : list Message) (w : World) : SessionHistory :=
  record_turn self messages (snapshot w).

(** [undo] and [redo] also change the working tree. *)
Definition undo (self : SessionHistory) (current : list Message) (w : World)
  : option (Restored * World) * SessionHistory :=
  match last (undo_stack self) with
  | None => (None, self)
  | Some snap =>
      let self := set_undo (removelast (undo_stack self)) self in
      let messages := messages_of self snap in
      let '(self, (store, len)) := capture self current in
      let now := snapshot w in
      let self := gc (set_redo (redo_stack self ++ [mkSnap store len now]) self) in
      let '(note, w) := restore_files (stash snap) now w in
      (Some (mkRestored messages note, w), self)
  end.
Definition redo (self : SessionHistory) (current : list Message) (w : World)
  : option (Restored * World) * SessionHistory :=
  match last (redo_stack self) with
  | None => (None, self)
  | Some snap =>
      let self := set_redo (removelast (redo_stack self)) self in
      let messages := messages_of self snap in
      let '(self, (store, len)) := capture self current in
      let now := snapshot w in
      let self := gc (push_undo self (mkSnap store len now)) in
      let '(note, w) := restore_files (stash snap) now w in
      (Some (mkRestored messages note, w), self)
  end.

(** ** The specification: two stacks of full copies *)

Definition Entry : Type := list Message * TreeSnapshot.
Record Spec := mkSpec { undos : list Entry; redos : list Entry; s_depth : nat; s_dropped : bool }.

Definition spec_new (d : nat) : Spec := mkSpec [] [] d false.
Definition spec_clear (s : Spec) : Spec := spec_new (s_depth s).
(** The oldest entries go when there are more than [s_depth] (0: never). *)
Definition spec_push (s : Spec) (e : Entry) : Spec :=
  let l := undos s ++ [e] in
  if (0 <? s_depth s) && (s_depth s <? length l)
  then mkSpec (drop (length l - s_depth s) l) (redos s) (s_depth s) true
  else mkSpec l (redos s) (s_depth s) (s_dropped s).
Definition spec_record (s : Spec) (messages : list Message) (t : TreeSnapshot) : Spec :=
  spec_push (mkSpec (undos s) [] (s_depth s) (s_dropped s)) (messages, t).
Definition spec_undo (s : Spec) (current : list Message) (w : World) : option (Restored * World) * Spec :=
  match last (undos s) with
  | None => (None, s)
  | Some (messages, t) =>
      let '(note, w') := restore_files t (snapshot w) w in
      (Some (mkRestored messages note, w'),
       mkSpec (removelast (undos s)) (redos s ++ [(current, snapshot w)]) (s_depth s) (s_dropped s))
  end.
Definition spec_redo (s : Spec) (current : list Message) (w : World) : option (Restored * World) * Spec :=
  match last (redos s) with
  | None => (None, s)
  | Some (messages, t) =>
      let '(note, w') := restore_files t (snapshot w) w in
      (Some (mkRestored messages note, w'),
       spec_push (mkSpec (undos s) (removelast (redos s)) (s_depth s) (s_dropped s)) (current, snapshot w))
  end.

(** ** The invariant *)

Definition find_in (l : list Store) (id : N) : option Store := List.find (λ s, (store_id s =? id)%N) l.
(** [s] reads a prefix of a log that is there. *)
Definition reads (l : list Store) (s : HistorySnapshot) : Prop :=
  ∃ st, find_in l (snap_store s) = Some st ∧ snap_len s ≤ length (log st).
Definition snaps (h : SessionHistory) : list HistorySnapshot := undo_stack h ++ redo_stack h.
Definition wf (h : SessionHistory) : Prop :=
  NoDup (store_id <$> stores h) ∧
  Forall (λ i, (i ≤ next_store h)%N) (store_id <$> stores h) ∧
  Forall (reads (stores h)) (snaps h).

Definition entry (h : SessionHistory) (s : HistorySnapshot) : Entry := (messages_of h s, stash s).
Definition abs (h : SessionHistory) : Spec :=
  mkSpec (entry h <$> undo_stack h) (entry h <$> redo_stack h) (depth h) (dropped h).

Lemma find_in_Some l id st : find_in l id = Some st → st ∈ l ∧ store_id st = id.
Proof.
  intros [H E]%List.find_some. apply N.eqb_eq in E. split; [|done]. by apply list_elem_of_In.
Qed.

Lemma find_in_app l l' id :
  find_in (l ++ l') id = match find_in l id with Some s => Some s | None => find_in l' id end.
Proof. unfold find_in. induction l as [|s l IH]; cbn; [done|]. by destruct (store_id s =? id)%N. Qed.

Lemma find_in_single s id : find_in [s] id = if decide (store_id s = id) then Some s else None.
Proof. unfold find_in. cbn. by destruct (N.eqb_spec (store_id s) id); case_decide. Qed.

Lemma find_in_None l id : find_in l id = None ↔ id ∉ store_id <$> l.
Proof.
  unfold find_in. induction l as [|s l IH]; cbn [List.find fmap list_fmap]; [set_solver|].
  rewrite not_elem_of_cons. destruct (N.eqb_spec (store_id s) id); naive_solver.
Qed.

Lemma find_in_filter (P : Store → Prop) `{!∀ s, Decision (P s)} l id :
  (∀ s, store_id s = id → P s) → find_in (filter P l) id = find_in l id.
Proof.
  intros HP. unfold find_in. induction l as [|s l IH]; [done|]. rewrite filter_cons.
  case_decide as Hs; cbn [List.find]; [by rewrite IH|].
  destruct (N.eqb_spec (store_id s) id) as [E|]; [by apply HP in E|done].
Qed.

(** Two histories that find the same logs show the same entries. *)
Lemma messages_of_find h h' s :
  find_in (stores h') (snap_store s) = find_in (stores h) (snap_store s) → messages_of h' s = messages_of h s.
Proof. unfold messages_of, find_store. unfold find_in. by intros ->. Qed.

Lemma messages_of_Some h s st :
  find_in (stores h) (snap_store s) = Some st → snap_len s ≤ length (log st) →
  messages_of h s = take (snap_len s) (log st).
Proof.
  unfold messages_of, find_store, find_in. intros -> Hl. by rewrite (proj2 (Nat.leb_le _ _) Hl).
Qed.

Lemma entries_eq h h' l :
  Forall (λ s, messages_of h' s = messages_of h s) l → entry h' <$> l = entry h <$> l.
Proof. induction 1 as [|s l Hs _ IH]; [done|]. cbn. rewrite IH. unfold entry at 1 3. by rewrite Hs. Qed.

(** ** [capture] *)

Lemma shared_len_take kept now :
  shared_len kept now ≤ length kept ∧ shared_len kept now ≤ length now ∧
  take (shared_len kept now) kept = take (shared_len kept now) now.
Proof.
  revert now; induction kept as [|a kept IH]; intros [|b now]; cbn [shared_len]; [cbn; split_and!; (lia || done)..|].
  destruct (decide (a = b)) as [<-|]; [|cbn; split_and!; (lia || done)].
  destruct (IH now) as (H1 & H2 & H3). cbn. rewrite H3. split_and!; [lia|lia|done].
Qed.

Lemma needed_max h s : s ∈ snaps h → snap_len s ≤ needed h (snap_store s).
Proof.
  unfold needed. intros Hs.
  assert (snap_len s ∈ snap_len <$> filter (λ t, snap_store t = snap_store s) (snaps h)) as Hin.
  { apply list_elem_of_fmap. exists s. split; [done|]. by apply list_elem_of_filter. }
  revert Hin. unfold snaps. generalize (snap_len <$> filter (λ t, snap_store t = snap_store s) (undo_stack h ++ redo_stack h)).
  induction l as [|n l IH]; [set_solver|]. cbn. intros [->|H%IH]%elem_of_cons; lia.
Qed.

(** What a call of [capture] promises: the stacks are as before, every snapshot
    shows the same messages, and the returned prefix shows the new ones. *)
Definition captures (h h' : SessionHistory) (id : N) (n : nat) (messages : list Message) : Prop :=
  undo_stack h' = undo_stack h ∧ redo_stack h' = redo_stack h ∧ depth h' = depth h ∧ dropped h' = dropped h ∧
  (next_store h' ≤ next_store h + 1)%N ∧ wf h' ∧
  Forall (λ s, messages_of h' s = messages_of h s) (snaps h) ∧
  ∀ t, reads (stores h') (mkSnap id n t) ∧ messages_of h' (mkSnap id n t) = messages.

Lemma new_store_captures h messages : wf h → (next_store h + 1 < 2 ^ 64)%N →
  let '(h', (id, n)) := new_store h messages in captures h h' id n messages.
Proof.
  intros (Hnd & Hle & Hr) Hmax. unfold new_store. rewrite N.mod_small by done.
  set (id := (next_store h + 1)%N). set (h' := mkHistory _ _ _ _ _ _).
  assert (id ∉ store_id <$> stores h) as Hfresh.
  { intros H. rewrite Forall_forall in Hle. apply Hle in H. lia. }
  assert (∀ i, i ≠ id → find_in (stores h') i = find_in (stores h) i) as Hold.
  { intros i Hi. cbn [stores h']. rewrite find_in_app, find_in_single. cbn [store_id].
    rewrite decide_False by done. by destruct (find_in (stores h) i). }
  assert (find_in (stores h') id = Some (mkStore id messages)) as Hnew.
  { cbn [stores h']. rewrite find_in_app, (proj2 (find_in_None _ _) Hfresh), find_in_single. by rewrite decide_True. }
  assert (∀ s, reads (stores h) s → snap_store s ≠ id) as Hne.
  { intros s (st & Hst & _) E. apply find_in_Some in Hst as [Hst Ei]. apply Hfresh.
    rewrite <- E, <- Ei. by apply list_elem_of_fmap_2. }
  split_and!; try done.
  - split_and!.
    + cbn [stores h']. rewrite fmap_app. apply NoDup_app. split_and!; [done| |apply NoDup_singleton].
      intros x Hx Hx'%list_elem_of_singleton. cbn in Hx'. subst x. done.
    + cbn [stores next_store h']. rewrite fmap_app. apply Forall_app. split.
      * eapply Forall_impl; [exact Hle|]. intros i Hi. cbn in Hi |- *. etrans; [exact Hi|]. unfold id. lia.
      * constructor; [cbn; lia|constructor].
    + change (snaps h') with (snaps h). eapply Forall_impl; [exact Hr|]. intros s Hs.
      pose proof (Hne s Hs). destruct Hs as (st & Hst & Hl). exists st. split; [|done]. by rewrite Hold.
  - eapply Forall_impl; [exact Hr|]. intros s Hs. apply messages_of_find, Hold. by apply Hne.
  - intros t. split; [by exists (mkStore id messages)|].
    rewrite (messages_of_Some h' (mkSnap id (length messages) t) _ Hnew); cbn; [by rewrite take_ge|done].
Qed.

Lemma capture_captures h messages : wf h → (next_store h + 1 < 2 ^ 64)%N →
  let '(h', (id, n)) := capture h messages in captures h h' id n messages.
Proof.
  intros Hwf Hmax. unfold capture. destruct (last (stores h)) as [live|] eqn:El; [|by apply new_store_captures].
  apply last_Some in El as [front El]. rewrite El, removelast_last.
  destruct (shared_len_take (log live) messages) as (Hk1 & Hk2 & Htake).
  set (k := shared_len (log live) messages) in *.
  destruct (Nat.leb_spec (needed h (store_id live)) k) as [Hneed|]; [|by apply new_store_captures].
  rewrite Htake, take_drop. destruct Hwf as (Hnd & Hle & Hr).
  set (live' := mkStore (store_id live) messages). set (h' := set_stores (front ++ [live']) h).
  assert (store_id <$> stores h' = store_id <$> stores h) as Hids.
  { cbn [stores h' set_stores]. by rewrite El, !fmap_app. }
  assert (store_id live ∉ store_id <$> front) as Hfront.
  { rewrite El, fmap_app in Hnd. apply NoDup_app in Hnd as (_ & Hd & _). intros H. apply (Hd _ H). cbn. set_solver. }
  assert (∀ i, i ≠ store_id live → find_in (stores h') i = find_in (stores h) i) as Hold.
  { intros i Hi. cbn [stores h' set_stores]. rewrite El, !find_in_app, !find_in_single. cbn [store_id live'].
    by rewrite !decide_False. }
  assert (find_in (stores h') (store_id live) = Some live' ∧ find_in (stores h) (store_id live) = Some live) as [Hnew Hwas].
  { cbn [stores h' set_stores]. rewrite El, !find_in_app, (proj2 (find_in_None _ _) Hfront), !find_in_single. cbn [store_id live'].
    by rewrite !decide_True. }
  assert (∀ s, s ∈ snaps h → snap_store s = store_id live → snap_len s ≤ k) as Hlen.
  { intros s Hs E. apply needed_max in Hs. rewrite E in Hs. lia. }
  rewrite Forall_forall in Hr.
  split_and!; try done.
  - cbn. lia.
  - split_and!.
    + by rewrite Hids.
    + by rewrite Hids.
    + change (snaps h') with (snaps h). apply Forall_forall. intros s Hs.
      destruct (decide (snap_store s = store_id live)) as [E|E].
      * exists live'. rewrite E, Hnew. split; [done|]. specialize (Hlen s Hs E). cbn. lia.
      * destruct (Hr s Hs) as (st & Hst & Hl). exists st. by rewrite Hold.
  - apply Forall_forall. intros s Hs. destruct (decide (snap_store s = store_id live)) as [E|E].
    + specialize (Hlen s Hs E).
      rewrite (messages_of_Some h' s live'), (messages_of_Some h s live); [|by rewrite E|lia|by rewrite E|cbn; lia].
      cbn [log live']. replace (snap_len s) with (snap_len s `min` k) by lia. by rewrite <- !take_take, Htake.
    + by apply messages_of_find, Hold.
  - intros t. split; [by exists live'|].
    rewrite (messages_of_Some h' (mkSnap (store_id live) (length messages) t) _ Hnew); cbn; [by rewrite take_ge|done].
Qed.

(** ** The other operations on the state *)

Lemma wf_weaken h h' :
  wf h → stores h' = stores h → next_store h' = next_store h → (∀ s, s ∈ snaps h' → reads (stores h) s) → wf h'.
Proof.
  intros (Hnd & Hle & Hr) Es En Hs. unfold wf. rewrite Es, En. split_and!; [done|done|].
  apply Forall_forall. intros s H. by apply Hs.
Qed.

Lemma wf_reads h s : wf h → s ∈ snaps h → reads (stores h) s.
Proof. intros (_ & _ & Hr). rewrite Forall_forall in Hr. apply Hr. Qed.

Lemma referenced_true h s : s ∈ snaps h → referenced h (snap_store s) = true.
Proof. intros Hs. apply existsb_true_iff. exists s. split; [done|]. apply N.eqb_refl. Qed.

Lemma fmap_sublist {A B} (f : A → B) l k : l `sublist_of` k → f <$> l `sublist_of` f <$> k.
Proof. induction 1; cbn; [constructor|by apply sublist_skip|by apply sublist_cons]. Qed.

Lemma gc_spec h : wf h → wf (gc h) ∧ abs (gc h) = abs h ∧ next_store (gc h) = next_store h.
Proof.
  intros Hwf. assert (∀ s, s ∈ snaps h →
    find_in (stores (gc h)) (snap_store s) = find_in (stores h) (snap_store s)) as Hf.
  { intros s Hs. unfold gc, set_stores. cbn [stores]. apply find_in_filter. intros st ->.
    rewrite (referenced_true h s Hs). apply orb_true_r. }
  split_and!; [| |done].
  - destruct Hwf as (Hnd & Hle & Hr). split_and!.
    + eapply sublist_NoDup; [exact Hnd|]. apply fmap_sublist, sublist_filter.
    + rewrite Forall_forall in Hle |- *. intros i Hi. apply Hle. revert i Hi.
      apply sublist_subseteq, fmap_sublist, sublist_filter.
    + change (snaps (gc h)) with (snaps h). apply Forall_forall. intros s Hs. rewrite Forall_forall in Hr.
      destruct (Hr s Hs) as (st & Hst & Hl). exists st. by rewrite Hf.
  - assert (∀ l : list HistorySnapshot, (∀ s, s ∈ l → s ∈ snaps h) → entry (gc h) <$> l = entry h <$> l) as He.
    { intros l Hl. apply entries_eq, Forall_forall. intros s Hs. by apply messages_of_find, Hf, Hl. }
    unfold abs. cbn [gc set_stores undo_stack redo_stack depth dropped].
    unfold gc at 1 2. cbn [set_stores undo_stack redo_stack].
    rewrite !He; [done|..]; intros s Hs; apply elem_of_app; auto.
Qed.

Lemma cap_undo_spec fuel h :
  length (undo_stack h) ≤ fuel →
  cap_undo fuel h =
  if (0 <? depth h) && (depth h <? length (undo_stack h))
  then mkHistory (drop (length (undo_stack h) - depth h) (undo_stack h)) (redo_stack h) (stores h)
         (next_store h) (depth h) true
  else h.
Proof.
  revert h; induction fuel as [|k IH]; intros h Hk; cbn [cap_undo].
  - destruct (undo_stack h); [|cbn in Hk; lia]. cbn. by rewrite andb_false_r.
  - destruct ((0 <? depth h) && (depth h <? length (undo_stack h))) eqn:E; [|done]. boolp.
    destruct (undo_stack h) as [|s r] eqn:Eu; [cbn in *; lia|]. cbn [length tail] in *.
    rewrite IH by (cbn; lia). cbn [depth undo_stack redo_stack stores next_store dropped].
    replace (S (length r) - depth h) with (S (length r - depth h)) by lia. cbn [drop].
    destruct (Nat.ltb_spec (depth h) (length r)) as [Hl|Hl].
    + by rewrite (proj2 (Nat.ltb_lt _ _)) by done.
    + rewrite andb_false_r. replace (length r - depth h) with 0 by lia. done.
Qed.

(** [push_undo] of a readable snapshot is [spec_push]. *)
Lemma push_undo_spec h s :
  wf h → reads (stores h) s →
  wf (push_undo h s) ∧ abs (push_undo h s) = spec_push (abs h) (entry h s) ∧
  next_store (push_undo h s) = next_store h.
Proof.
  intros Hwf Hs. unfold push_undo. rewrite cap_undo_spec by done. cbn [set_undo undo_stack depth].
  set (l := undo_stack h ++ [s]).
  assert (∀ x, x ∈ l ++ redo_stack h → reads (stores h) x) as Hr.
  { intros x. unfold l. rewrite !elem_of_app, list_elem_of_singleton.
    intros [[Hx| ->]|Hx]; [|done|]; apply wf_reads; try done; apply elem_of_app; auto. }
  assert (entry h <$> l = undos (abs h) ++ [entry h s]) as El by (unfold l; by rewrite fmap_app).
  unfold spec_push. rewrite <- El. cbn [s_depth abs]. rewrite length_fmap.
  destruct ((0 <? depth h) && (depth h <? length l)); (split_and!; [|..|done]).
  - eapply (wf_weaken h); [done..|]. intros x. unfold snaps. cbn. rewrite elem_of_app. intros Hx. apply Hr.
    rewrite elem_of_app. destruct Hx as [Hx|]; [|by right]. left. by eapply subseteq_drop.
  - unfold abs. cbn. by rewrite fmap_drop.
  - eapply (wf_weaken h); [done..|exact Hr].
  - done.
Qed.

Lemma captures_abs h h' id n messages : captures h h' id n messages → abs h' = abs h.
Proof.
  intros (Hu & Hr & Hd & Hdr & _ & _ & Hm & _). unfold abs. rewrite Hu, Hr, Hd, Hdr.
  unfold snaps in Hm. apply Forall_app in Hm as [H1 H2]. by rewrite (entries_eq h h' _ H1), (entries_eq h h' _ H2).
Qed.

(** ** Each operation refines its specification *)

Definition refines (h h' : SessionHistory) (s' : Spec) : Prop :=
  wf h' ∧ abs h' = s' ∧ (next_store h' ≤ next_store h + 1)%N.

Lemma record_turn_refines h messages t :
  wf h → (next_store h + 1 < 2 ^ 64)%N → refines h (record_turn h messages t) (spec_record (abs h) messages t).
Proof.
  intros Hwf Hmax. unfold record_turn. set (h0 := set_redo [] h).
  assert (wf h0) as Hwf0.
  { apply (wf_weaken h); [done..|]. intros s Hs. apply wf_reads; [done|]. unfold snaps in *. cbn in Hs.
    rewrite app_nil_r in Hs. apply elem_of_app. by left. }
  pose proof (capture_captures h0 messages Hwf0 Hmax) as Hc.
  destruct (capture h0 messages) as [h1 [id n]]. pose proof (captures_abs _ _ _ _ _ Hc) as Habs.
  destruct Hc as (_ & _ & _ & _ & Hn & Hwf1 & _ & Hnew). destruct (Hnew t) as [Hr Hm].
  destruct (push_undo_spec h1 _ Hwf1 Hr) as (Hwf2 & Ha2 & Hn2).
  destruct (gc_spec _ Hwf2) as (Hwf3 & Ha3 & Hn3).
  split_and!; [done| |].
  - rewrite Ha3, Ha2, Habs. unfold entry. by rewrite Hm.
  - rewrite Hn3, Hn2. done.
Qed.

Lemma undo_refines h current w :
  wf h → (next_store h + 1 < 2 ^ 64)%N →
  (undo h current w).1 = (spec_undo (abs h) current w).1 ∧
  refines h (undo h current w).2 (spec_undo (abs h) current w).2.
Proof.
  intros Hwf Hmax. unfold undo, spec_undo. cbn [undos abs]. rewrite fmap_last.
  destruct (last (undo_stack h)) as [snap|] eqn:El; cbn [fmap option_fmap option_map].
  2:{ split; [done|]. split_and!; [done|done|cbn; lia]. }
  apply last_Some in El as [front El]. rewrite El, removelast_last.
  set (h0 := set_undo front h).
  assert (wf h0) as Hwf0.
  { apply (wf_weaken h); [done..|]. intros s Hs. apply wf_reads; [done|]. unfold snaps in *. rewrite El.
    cbn in Hs. set_solver. }
  pose proof (capture_captures h0 current Hwf0 Hmax) as Hc.
  destruct (capture h0 current) as [h1 [id n]]. pose proof (captures_abs _ _ _ _ _ Hc) as Habs.
  destruct Hc as (Hu1 & Hr1 & Hd1 & Hdr1 & Hn & Hwf1 & _ & Hnew).
  destruct (Hnew (snapshot w)) as [Hr Hm]. set (now := mkSnap id n (snapshot w)) in *.
  set (h2 := set_redo (redo_stack h1 ++ [now]) h1).
  assert (wf h2) as Hwf2.
  { apply (wf_weaken h1); [done..|]. intros s Hs. unfold snaps in Hs. cbn in Hs.
    rewrite !elem_of_app, list_elem_of_singleton in Hs.
    destruct Hs as [Hs|[Hs| ->]]; [|..|done]; apply wf_reads; try done; apply elem_of_app; auto. }
  destruct (gc_spec _ Hwf2) as (Hwf3 & Ha3 & Hn3).
  change (entry h snap) with (messages_of h snap, stash snap). change (messages_of h0 snap) with (messages_of h snap).
  cbv beta iota. destruct (restore_files (stash snap) (snapshot w) w) as [note w'].
  split; [done|]. cbn [snd]. split_and!; [done| |].
  - rewrite Ha3. rewrite fmap_app. cbn [fmap list_fmap]. rewrite removelast_last.
    unfold abs in Habs. injection Habs as Ha1 Ha2 Ha4 Ha5.
    unfold abs. cbn [h2 set_redo undo_stack redo_stack depth dropped]. rewrite fmap_app.
    change (entry h2 <$> undo_stack h1) with (entry h1 <$> undo_stack h1).
    change (entry h2 <$> redo_stack h1) with (entry h1 <$> redo_stack h1).
    rewrite Ha1, Ha2, Ha4, Ha5. cbn [fmap list_fmap]. change (entry h2 now) with (messages_of h1 now, snapshot w).
    by rewrite Hm.
  - rewrite Hn3. done.
Qed.

Lemma redo_refines h current w :
  wf h → (next_store h + 1 < 2 ^ 64)%N →
  (redo h current w).1 = (spec_redo (abs h) current w).1 ∧
  refines h (redo h current w).2 (spec_redo (abs h) current w).2.
Proof.
  intros Hwf Hmax. unfold redo, spec_redo. cbn [redos abs]. rewrite fmap_last.
  destruct (last (redo_stack h)) as [snap|] eqn:El; cbn [fmap option_fmap option_map].
  2:{ split; [done|]. split_and!; [done|done|cbn; lia]. }
  apply last_Some in El as [front El]. rewrite El, removelast_last.
  set (h0 := set_redo front h).
  assert (wf h0) as Hwf0.
  { apply (wf_weaken h); [done..|]. intros s Hs. apply wf_reads; [done|]. unfold snaps in *. rewrite El.
    cbn in Hs. set_solver. }
  pose proof (capture_captures h0 current Hwf0 Hmax) as Hc.
  destruct (capture h0 current) as [h1 [id n]]. pose proof (captures_abs _ _ _ _ _ Hc) as Habs.
  destruct Hc as (_ & _ & _ & _ & Hn & Hwf1 & _ & Hnew).
  destruct (Hnew (snapshot w)) as [Hr Hm].
  destruct (push_undo_spec h1 _ Hwf1 Hr) as (Hwf2 & Ha2 & Hn2).
  destruct (gc_spec _ Hwf2) as (Hwf3 & Ha3 & Hn3).
  change (entry h snap) with (messages_of h snap, stash snap). change (messages_of h0 snap) with (messages_of h snap).
  cbv beta iota. destruct (restore_files (stash snap) (snapshot w) w) as [note w'].
  split; [done|]. cbn [snd]. split_and!; [done| |].
  - rewrite Ha3, Ha2, Habs. unfold entry at 1. rewrite Hm, fmap_app. cbn [fmap list_fmap]. by rewrite removelast_last.
  - rewrite Hn3, Hn2. done.
Qed.

(** ** Sessions *)

(** What the session does to its history; the world is the working tree then. *)
Inductive Op :=
| PushBeforeTurn (messages : list Message) (w : World)
| Undo (current : list Message) (w : World)
| Redo (current : list Message) (w : World)
| Clear.

(** What it sees: what was restored, and what can be undone and redone next. *)
Definition Seen : Type := option (Restored * World) * bool * bool * option nat.

Definition step (h : SessionHistory) (op : Op) : option (Restored * World) * SessionHistory :=
  match op with
  | PushBeforeTurn messages w => (None, push_before_turn h messages w)
  | Undo current w => undo h current w
  | Redo current w => redo h current w
  | Clear => (None, clear h)
  end.
Definition spec_step (s : Spec) (op : Op) : option (Restored * World) * Spec :=
  match op with
  | PushBeforeTurn messages w => (None, spec_record s messages (snapshot w))
  | Undo current w => spec_undo s current w
  | Redo current w => spec_redo s current w
  | Clear => (None, spec_clear s)
  end.

Definition seen (r : option (Restored * World)) (h : SessionHistory) : Seen :=
  (r, can_undo h, can_redo h, exhausted_depth h).
Definition spec_seen (r : option (Restored * World)) (s : Spec) : Seen :=
  (r, negb (length (undos s) =? 0), negb (length (redos s) =? 0),
   if s_dropped s && (length (undos s) =? 0) then Some (s_depth s) else None).

Fixpoint run (h : SessionHistory) (ops : list Op) : list Seen :=
  match ops with
  | [] => []
  | op :: r => let '(res, h) := step h op in seen res h :: run h r
  end.
Fixpoint spec_run (s : Spec) (ops : list Op) : list Seen :=
  match ops with
  | [] => []
  | op :: r => let '(res, s) := spec_step s op in spec_seen res s :: spec_run s r
  end.

Lemma step_refines h op :
  wf h → (next_store h + 1 < 2 ^ 64)%N →
  (step h op).1 = (spec_step (abs h) op).1 ∧ refines h (step h op).2 (spec_step (abs h) op).2.
Proof.
  intros Hwf Hmax. destruct op as [messages w|current w|current w|]; cbn [step spec_step].
  - split; [done|]. by apply record_turn_refines.
  - by apply undo_refines.
  - by apply redo_refines.
  - split; [done|]. split_and!; [repeat constructor|done|cbn; lia].
Qed.

Lemma seen_abs r h : seen r h = spec_seen r (abs h).
Proof. unfold seen, spec_seen, can_undo, can_redo, exhausted_depth, abs. cbn. by rewrite !length_fmap. Qed.

Lemma run_refines ops h :
  wf h → (next_store h + N.of_nat (length ops) < 2 ^ 64)%N → run h ops = spec_run (abs h) ops.
Proof.
  revert h; induction ops as [|op ops IH]; intros h Hwf Hmax; [done|]. cbn [length] in Hmax.
  destruct (step_refines h op Hwf ltac:(lia)) as [Hres (Hwf' & Habs & Hn)].
  cbn [run spec_run]. destruct (step h op) as [res h'], (spec_step (abs h) op) as [res' s']. cbn [fst snd] in *.
  subst res' s'. rewrite seen_abs, IH; [done|done|lia].
Qed.

(** C25: Undo and redo behave as if every turn kept a full copy of the
    transcript: for every sequence of turns, undos, redos and clears, with any
    transcripts (appended, compacted or rewritten in between) and any states of
    the working tree, the messages restored, the trees put back, the notes, and
    what can be undone or redone next, are those of two stacks of copies, the
    older one capped at the depth; shared logs are never cut short or dropped
    while a snapshot reads them. (Fewer than 2^64 operations: logs are numbered
    by a u64.) *)
Theorem history_refines (d : nat) (ops : list Op) :
  (N.of_nat (length ops) < 2 ^ 64)%N →
  run (with_depth d) ops = spec_run (spec_new d) ops.
Proof.
  intros Hmax. apply (run_refines ops (with_depth d)); [by repeat constructor|exact Hmax].
Qed.
End history.

(** Turns, an undo, a rewritten transcript, a redo; messages and trees are numbers. *)
Definition sample_ops : list (@Op nat nat) :=
  [PushBeforeTurn [] 0; PushBeforeTurn [1; 2] 10; PushBeforeTurn [1; 2; 3; 4] 20;
   Undo [1; 2; 3; 4; 5] 30; Redo [1; 2; 3; 4] 20; Undo [1; 2; 3; 4; 5] 30;
   PushBeforeTurn [9] 40; Undo [9; 10] 50; Undo [9] 40; Undo [1; 2] 10].

Lemma history_refines_witness :
  (N.of_nat (length sample_ops) < 2 ^ 64)%N ∧
  run (λ w, w) (λ t _ _, (None, t)) (with_depth 3) sample_ops =
  spec_run (λ w, w) (λ t _ _, (None, t)) (spec_new 3) sample_ops.
Proof.
  assert (N.of_nat (length sample_ops) < 2 ^ 64)%N as H by (vm_compute; reflexivity).
  split; [exact H|]. exact (history_refines (λ w, w) (λ t _ _, (None, t)) 3 sample_ops H).
Defined.

Example undo_restores :
  (λ o : Seen (Message := nat) (World := nat), (λ r, (restored r.1, r.2)) <$> o.1.1.1) <$>
    run (λ w, w) (λ t _ _, (None, t)) (with_depth 3) sample_ops =
  [None; None; None; Some ([1; 2; 3; 4], 20); Some ([1; 2; 3; 4; 5], 30); Some ([1; 2; 3; 4], 20);
   None; Some ([9], 40); Some ([1; 2], 10); Some ([], 0)].
Proof. vm_compute. reflexivity. Qed.
