(* ===== verification/Tokenize.v ===== *)
(** The fallback tokenizer ([crates/command-risk/src/tokenize.rs]): splitting a
    command line into segments of words by an index loop over its characters.
    The loop runs on fuel; [None] is "out of fuel" and [tokenize_total] shows
    that one unit per character is always enough. *)

From S2P Require Import Prelude RustStr.

(** ** Words and segments *)

Record Word := mkWord { text : str; dynamic : bool }.
Record Segment := mkSegment { words : list Word }.
Record Tokenized := mkTokenized { segments : list Segment; malformed : bool }.

#[global] Instance Word_eq_dec : EqDecision Word.
Proof. solve_decision. Defined.
#[global] Instance Segment_eq_dec : EqDecision Segment.
Proof. solve_decision. Defined.

Definition SHELL_KEYWORDS : list string :=
  ["if"; "then"; "else"; "elif"; "fi"; "do"; "done"; "while"; "until"; "for"; "case"; "esac";
   "in"; "select"; "time"; "coproc"; "!"; "{"; "}"]%string.

Definition is_shell_keyword (word : str) : bool := is_one_of word SHELL_KEYWORDS.

Definition is_assignment (word : str) : bool :=
  match find_index (N.eqb (chr "=")) word with
  | None | Some 0 => false
  | Some i => forallb (λ c, is_ascii_alphanumeric c || (c =? chr "_")%N) (take i word)
  end.

(** The words [Segment::command] skips on its way to the command name. *)
Definition is_transparent (w : str) : bool :=
  is_assignment w || (w == lit "sudo") || (w == lit "command") || (w == lit "env")
  || is_shell_keyword w.

(** [Segment::command]. *)
Definition command (seg : Segment) : option str :=
  List.find (λ w, negb (is_transparent w)) (text <$> words seg).

(** [Segment::args]: the words after the first one whose text is the command's. *)
Fixpoint args_after (cmd : option str) (ws : list Word) : list Word :=
  match ws with
  | [] => []
  | w :: r => if Some (text w) == cmd then r else args_after cmd r
  end.
Definition args (seg : Segment) : list Word := args_after (command seg) (words seg).

Definition has_dynamic (seg : Segment) : bool := existsb dynamic (words seg).

(** ** Operators *)

Definition SEPARATORS : list str :=
  [lit ";"; lit "&&"; lit "||"; lit "|"; lit "&"; [cLF]; lit "("; lit ")"].
Definition REDIRECTS : list str :=
  lit <$> [">"; ">>"; ">|"; "&>"; "&>>"; "2>"; "2>>"; "1>"; "1>>"]%string.

Definition is_redirect (word : str) : bool := bool_decide (word ∈ REDIRECTS).
Definition is_truncating_redirect (word : str) : bool :=
  is_one_of word [">"; ">|"; "&>"; "2>"; "1>"]%string.

(** ** Scanning *)

Definition starts_with_at (chars : str) (i : nat) (needle : str) : bool :=
  starts_with (drop i chars) needle.

(** [max_by_key(len)]: the last of the longest. *)
Definition longer (a : option str) (b : str) : option str :=
  match a with
  | Some x => if byte_len b <? byte_len x then Some x else Some b
  | None => Some b
  end.
Definition match_operator (chars : str) (i : nat) (candidates : list str) : option str :=
  foldl longer None (List.filter (starts_with_at chars i) candidates).

Definition find_char (chars : str) (from : nat) (target : rchar) : option nat :=
  (λ k, from + k) <$> find_index (N.eqb target) (drop from chars).

Fixpoint double_quote_end (i : nat) (l : str) : option nat :=
  match l with
  | [] => None
  | c :: r =>
      if (c =? cBS)%N then match r with [] => None | _ :: r' => double_quote_end (i + 2) r' end
      else if (c =? cDQ)%N then Some i
      else double_quote_end (i + 1) r
  end.
Definition find_double_quote_end (chars : str) (from : nat) : option nat :=
  double_quote_end from (drop from chars).

Fixpoint closing_paren (depth i : nat) (l : str) : option nat :=
  match l with
  | [] => None
  | c :: r =>
      if (c =? chr "(")%N then closing_paren (S depth) (i + 1) r
      else if (c =? chr ")")%N then
        if pred depth =? 0 then Some i else closing_paren (pred depth) (i + 1) r
      else closing_paren depth (i + 1) r
  end.
Definition find_closing_paren (chars : str) (from : nat) : option nat :=
  closing_paren 1 from (drop from chars).

Definition contains_substitution (s : str) : bool :=
  contains s (lit "$(") || contains_char s cBT || contains s (lit "<(") || contains s (lit ">(")
  || contains s (lit "=(").

Definition is_process_sub_equals_context (chars : str) (i : nat) : bool :=
  match i with
  | O => true
  | S j => match chars !! j with
           | Some prev => is_whitespace prev
               || (prev =? chr ";")%N || (prev =? chr "|")%N || (prev =? chr "&")%N
               || (prev =? chr "(")%N || (prev =? chr ")")%N
           | None => false
           end
  end.

(** [chars[a..b]]. *)
Definition slice (chars : str) (a b : nat) : str := take (b - a) (drop a chars).

(** ** The tokenizer *)

Record TokState := mkTok {
  t_segments : list Segment;
  t_words : list Word;
  t_current : str;
  t_has_current : bool;
  t_dynamic : bool }.

Definition tok_init : TokState := mkTok [] [] [] false false.

Definition flush_word (s : TokState) : TokState :=
  if t_has_current s then
    mkTok (t_segments s) (t_words s ++ [mkWord (t_current s) (t_dynamic s)]) [] false false
  else s.

Definition flush_segment (s : TokState) : TokState :=
  let s := flush_word s in
  match t_words s with
  | [] => s
  | ws => mkTok (t_segments s ++ [mkSegment ws]) [] (t_current s) (t_has_current s) (t_dynamic s)
  end.

(** Append to the current word. *)
Definition push_current (s : TokState) (t : str) (dyn : bool) : TokState :=
  mkTok (t_segments s) (t_words s) (t_current s ++ t) true (t_dynamic s || dyn).

Definition push_op (s : TokState) (op : str) : TokState :=
  let s := flush_word s in
  mkTok (t_segments s) (t_words s ++ [mkWord op false]) (t_current s) (t_has_current s)
    (t_dynamic s).

(** One turn of the loop at index [i], where [chars[i] = c]: the next index and
    state, or [None] for "unbalanced, stop". *)
Definition tok_step (chars : str) (i : nat) (c : rchar) (s : TokState) : option (nat * TokState) :=
  let next := chars !! (i + 1) in
  if (c =? cBS)%N && bool_decide (is_Some next) then
    Some (i + 2, push_current s (option_list next) false)
  else if (c =? cSQ)%N then
    match find_char chars (i + 1) cSQ with
    | None => None
    | Some end_ => Some (end_ + 1, push_current s (slice chars (i + 1) end_) false)
    end
  else if (c =? cDQ)%N then
    match find_double_quote_end chars (i + 1) with
    | None => None
    | Some end_ =>
        let inner := slice chars (i + 1) end_ in
        Some (end_ + 1, push_current s inner (contains_substitution inner))
    end
  else if (c =? cBT)%N then
    match find_char chars (i + 1) cBT with
    | None => None
    | Some end_ => Some (end_ + 1, push_current s [] true)
    end
  else if (c =? chr "$")%N && (next == Some (chr "(")) then
    match find_closing_paren chars (i + 2) with
    | None => None
    | Some end_ => Some (end_ + 1, push_current s [] true)
    end
  else if ((c =? chr "<")%N || (c =? chr ">")%N || (c =? chr "=")%N) && (next == Some (chr "("))
          && (negb (c =? chr "=")%N || is_process_sub_equals_context chars i) then
    match find_closing_paren chars (i + 2) with
    | None => None
    | Some end_ => Some (end_ + 1, push_current s (c :: lit "()") true)
    end
  else if is_whitespace c && negb (c =? cLF)%N then Some (i + 1, flush_word s)
  else
    match match_operator chars i SEPARATORS with
    | Some op => Some (i + length op, flush_segment s)
    | None =>
        match match_operator chars i REDIRECTS with
        | Some op => Some (i + length op, push_op s op)
        | None => Some (i + 1, push_current s [c] false)
        end
    end.

(** The loop; [malformed] is what its [break] sets. *)
Fixpoint tok_loop (fuel : nat) (chars : str) (i : nat) (s : TokState) : option (TokState * bool) :=
  match fuel with
  | O => None
  | S n =>
      match chars !! i with
      | None => Some (s, false)
      | Some c =>
          match tok_step chars i c s with
          | None => Some (s, true)
          | Some (i', s') => tok_loop n chars i' s'
          end
      end
  end.

Definition tok_finish (s : TokState) : list Segment :=
  let ws := if t_has_current s then t_words s ++ [mkWord (t_current s) (t_dynamic s)]
            else t_words s in
  t_segments s ++ match ws with [] => [] | _ => [mkSegment ws] end.

Definition tokenize (input : str) : option Tokenized :=
  match tok_loop (S (length input)) input 0 tok_init with
  | None => None
  | Some (s, malformed) => Some (mkTokenized (tok_finish s) malformed)
  end.

(** ** Substitution bodies *)

Fixpoint bodies_loop (fuel : nat) (chars : str) (i : nat) (bodies : list str) : option (list str) :=
  match fuel with
  | O => None
  | S n =>
      match chars !! i with
      | None => Some bodies
      | Some c =>
          if (c =? chr "$")%N && (chars !! (i + 1) == Some (chr "(")) then
            match find_closing_paren chars (i + 2) with
            | Some close => bodies_loop n chars (close + 1) (bodies ++ [slice chars (i + 2) close])
            | None => Some bodies
            end
          else if (c =? cBT)%N then
            match find_index (N.eqb cBT) (drop (i + 1) chars) with
            | Some len =>
                bodies_loop n chars (i + len + 2) (bodies ++ [slice chars (i + 1) (i + 1 + len)])
            | None => Some bodies
            end
          else bodies_loop n chars (i + 1) bodies
      end
  end.
Definition substitution_bodies (input : str) : option (list str) :=
  bodies_loop (S (length input)) input 0 [].

(** The crate's own unit tests, evaluated on the model. *)
Definition texts (t : option Tokenized) : option (list (list str)) :=
  (λ t, (λ s, text <$> words s) <$> segments t) <$> t.
Example tokenize_tests :
  texts (tokenize (lit "a && b")) = Some [[lit "a"]; [lit "b"]] ∧
  texts (tokenize (lit "rm 'my file'")) = Some [[lit "rm"; lit "my file"]] ∧
  texts (tokenize (lit "echo hi >out.txt")) = Some [[lit "echo"; lit "hi"; lit ">"; lit "out.txt"]] ∧
  texts (tokenize (lit "rm a\ b")) = Some [[lit "rm"; lit "a b"]] ∧
  texts (tokenize (lit "true; =(echo hi)")) = Some [[lit "true"]; [lit "=()"]] ∧
  (malformed <$> tokenize (lit "diff <(unclosed")) = Some true ∧
  substitution_bodies (lit "echo $(rm -rf ~) and `cat list` done")
    = Some [lit "rm -rf ~"; lit "cat list"] ∧
  substitution_bodies (lit "echo $(echo $(cat a))") = Some [lit "echo $(cat a)"].
Proof. by vm_compute. Qed.

(** ** Scanning lemmas *)

Lemma find_index_Some f s k :
  find_index f s = Some k →
  (∃ c, s !! k = Some c ∧ f c = true) ∧ Forall (λ c, f c = false) (take k s) ∧ k < length s.
Proof.
  revert k. induction s as [|c s IH]; intros k; simpl; [done|].
  destruct (f c) eqn:Hc.
  - intros [= <-]. split_and!; [by exists c|done|simpl; lia].
  - intros (k' & E & ->)%fmap_Some. destruct (IH k' E) as (? & ? & ?).
    split_and!; [done|by constructor|simpl; lia].
Qed.

Lemma find_char_Some chars from t e :
  find_char chars from t = Some e → from ≤ e ∧ e < length chars.
Proof.
  unfold find_char. intros (k & (_ & _ & Hk)%find_index_Some & ->)%fmap_Some.
  rewrite length_drop in Hk. lia.
Qed.

Lemma double_quote_end_Some l i e : double_quote_end i l = Some e → i ≤ e ∧ e < i + length l.
Proof.
  revert i e. induction l as [l IH] using (well_founded_ind (well_founded_ltof _ length)).
  intros i e. destruct l as [|c r]; simpl; [done|]. unfold ltof in IH.
  destruct (c =? cBS)%N.
  - destruct r as [|d r]; [done|]. intros H%IH; simpl in *; lia.
  - destruct (c =? cDQ)%N; [intros [= <-]; lia|]. intros H%IH; simpl in *; lia.
Qed.

Lemma find_double_quote_end_Some chars from e :
  find_double_quote_end chars from = Some e → from ≤ e ∧ e < length chars ∨ e < from.
Proof.
  unfold find_double_quote_end. intros H%double_quote_end_Some.
  rewrite length_drop in H. lia.
Qed.

(** Text with matching parentheses. *)
Inductive balanced : str → Prop :=
| balanced_nil : balanced []
| balanced_char c l : c ≠ chr "(" → c ≠ chr ")" → balanced l → balanced (c :: l)
| balanced_paren a b : balanced a → balanced b → balanced (chr "(" :: a ++ chr ")" :: b).

Lemma closing_paren_skip b d i r :
  balanced b → closing_paren (S d) i (b ++ r) = closing_paren (S d) (i + length b) r.
Proof.
  intros Hb. revert d i r. induction Hb as [|c l Hc1 Hc2 _ IH|a b _ IHa _ IHb]; intros d i r.
  - simpl. by rewrite Nat.add_0_r.
  - simpl. rewrite (proj2 (N.eqb_neq c _)), (proj2 (N.eqb_neq c _)) by done.
    rewrite IH. f_equal. lia.
  - cbn [app closing_paren]. rewrite N.eqb_refl, <- app_assoc, IHa.
    cbn [app closing_paren]. change ((chr ")" =? chr "(")%N) with false.
    rewrite N.eqb_refl. cbn [pred Nat.eqb]. rewrite IHb. f_equal.
    cbn [length]. rewrite length_app. cbn [length]. lia.
Qed.

Lemma closing_paren_split l d i j :
  closing_paren (S d) i l = Some j →
  ∃ b r, balanced b ∧ l = b ++ chr ")" :: r
    ∧ match d with
      | O => j = i + length b
      | S d' => closing_paren (S d') (i + length b + 1) r = Some j
      end.
Proof.
  revert d i j. induction l as [l IH] using (well_founded_ind (well_founded_ltof _ length)).
  unfold ltof in IH. intros d i j. destruct l as [|c l]; [done|]. cbn [closing_paren].
  destruct (N.eqb_spec c (chr "(")) as [->|Hc1].
  - intros (b & r & Hb & -> & Hr)%IH; [|simpl; lia].
    apply IH in Hr as (b' & r' & Hb' & -> & Hr'); [|simpl; rewrite length_app; simpl; lia].
    exists (chr "(" :: b ++ chr ")" :: b'), r'. split_and!.
    + by constructor.
    + simpl. by rewrite <- app_assoc.
    + replace (i + length (chr "(" :: b ++ chr ")" :: b')) with (i + 1 + length b + 1 + length b')
        by (cbn [length]; rewrite length_app; cbn [length]; lia). done.
  - destruct (N.eqb_spec c (chr ")")) as [->|Hc2].
    + intros E. exists [], l. split_and!; [constructor|done|].
      destruct d as [|d]; simpl in E; [injection E; simpl; lia|].
      by rewrite Nat.add_0_r.
    + intros (b & r & Hb & -> & Hr)%IH; [|simpl; lia].
      exists (c :: b), r. split_and!; [by constructor|done|].
      replace (i + length (c :: b)) with (i + 1 + length b) by (simpl; lia). done.
Qed.

Lemma slice_drop chars from b r :
  drop from chars = b ++ r → slice chars from (from + length b) = b.
Proof.
  intros E. unfold slice. rewrite E. by rewrite take_app_length' by lia.
Qed.

(** [find_closing_paren] returns [j] exactly when a [)] stands at [j] and the
    text from [from] up to it is balanced, so a substitution body ends where its
    own parenthesis closes. *)
Theorem find_closing_paren_spec chars from j :
  find_closing_paren chars from = Some j ↔
  from ≤ j ∧ chars !! j = Some (chr ")") ∧ balanced (slice chars from j).
Proof.
  unfold find_closing_paren. split.
  - intros (b & r & Hb & E & ->)%closing_paren_split.
    rewrite (slice_drop _ _ _ _ E). split_and!; [lia| |done].
    rewrite <- lookup_drop, E, list_lookup_middle; done.
  - intros (Hle & Hj & Hb).
    assert (drop from chars = slice chars from j ++ chr ")" :: drop (S j) chars) as ->.
    { unfold slice. rewrite <- (take_drop (j - from) (drop from chars)) at 1. f_equal.
      rewrite drop_drop. apply drop_lookup_cons. replace (from + (j - from)) with j by lia.
      done. }
    rewrite closing_paren_skip by done. simpl. f_equal.
    unfold slice. rewrite length_take, length_drop.
    apply lookup_lt_Some in Hj. lia.
Qed.

Lemma find_closing_paren_Some chars from j :
  find_closing_paren chars from = Some j → from ≤ j ∧ j < length chars.
Proof.
  intros (? & Hj & _)%find_closing_paren_spec. apply lookup_lt_Some in Hj. lia.
Qed.

(** ** Termination *)

Lemma match_operator_Some chars i cands op :
  match_operator chars i cands = Some op → op ∈ cands ∧ starts_with_at chars i op = true.
Proof.
  unfold match_operator.
  assert (∀ l acc, (∀ x, acc = Some x → x ∈ cands ∧ starts_with_at chars i x = true) →
    Forall (λ x, x ∈ cands ∧ starts_with_at chars i x = true) l →
    foldl longer acc l = Some op → op ∈ cands ∧ starts_with_at chars i op = true) as H.
  { induction l as [|x l IH]; intros acc Hacc; [intros _; apply Hacc|].
    intros [Hx Hl]%Forall_cons. apply IH; [|done].
    unfold longer. intros y. destruct acc as [a|]; [|naive_solver].
    case_match; [intros [= <-]; by apply Hacc|naive_solver]. }
  apply H; [done|]. apply Forall_forall. intros x. rewrite list_elem_of_In, filter_In.
  by rewrite <- list_elem_of_In.
Qed.

Lemma operator_nonempty op : op ∈ SEPARATORS ∨ op ∈ REDIRECTS → 0 < length op.
Proof.
  intros H. assert (op ∈ SEPARATORS ++ REDIRECTS) as H' by (by apply elem_of_app). clear H.
  revert op H'. apply Forall_forall. apply (bool_decide_unpack _). by vm_compute.
Qed.

Lemma tok_step_progress chars i c s i' s' : tok_step chars i c s = Some (i', s') → i < i'.
Proof.
  unfold tok_step. intros H.
  repeat match type of H with
  | (if ?b then _ else _) = _ => destruct b
  | match ?o with _ => _ end = _ => destruct o eqn:?
  end; simplify_eq; try lia;
  repeat match goal with
  | H : find_char _ _ _ = Some _ |- _ => apply find_char_Some in H
  | H : find_double_quote_end _ _ = Some _ |- _ => apply double_quote_end_Some in H
  | H : find_closing_paren _ _ = Some _ |- _ => apply find_closing_paren_Some in H
  | H : match_operator _ _ _ = Some _ |- _ => apply match_operator_Some in H as [? _]
  end; try lia;
  match goal with H : ?op ∈ _ |- _ => assert (0 < length op); [|lia] end;
  apply operator_nonempty; auto.
Qed.

Lemma tok_loop_total n chars i s : length chars - i < n → is_Some (tok_loop n chars i s).
Proof.
  revert i s. induction n as [|n IH]; intros i s Hn; [lia|]. simpl.
  destruct (chars !! i) as [c|] eqn:Hc; [|eauto]. apply lookup_lt_Some in Hc.
  destruct (tok_step chars i c s) as [[i' s']|] eqn:E; [|eauto].
  apply tok_step_progress in E. apply IH. lia.
Qed.

(** More fuel than needed changes nothing. *)
Lemma tok_loop_fuel n m chars i s :
  length chars - i < n → length chars - i < m → tok_loop n chars i s = tok_loop m chars i s.
Proof.
  revert m i s. induction n as [|n IH]; intros [|m] i s Hn Hm; try lia. simpl.
  destruct (chars !! i) as [c|] eqn:Hc; [|done]. apply lookup_lt_Some in Hc.
  destruct (tok_step chars i c s) as [[i' s']|] eqn:E; [|done].
  apply tok_step_progress in E. apply IH; lia.
Qed.

(** ** No empty segment *)

Definition seg_ok (seg : Segment) : Prop := words seg ≠ [].

Lemma flush_word_segments s : t_segments (flush_word s) = t_segments s.
Proof. unfold flush_word. by destruct (t_has_current s). Qed.

Lemma flush_segment_ok s :
  Forall seg_ok (t_segments s) → Forall seg_ok (t_segments (flush_segment s)).
Proof.
  intros H. unfold flush_segment. rewrite <- flush_word_segments in H.
  destruct (t_words (flush_word s)) as [|w ws]; [done|]. simpl.
  apply Forall_app. split; [done|]. by repeat constructor.
Qed.

Lemma tok_step_ok chars i c s i' s' :
  tok_step chars i c s = Some (i', s') → Forall seg_ok (t_segments s) →
  Forall seg_ok (t_segments s').
Proof.
  unfold tok_step. intros H Hs.
  repeat match type of H with
  | (if ?b then _ else _) = _ => destruct b
  | match ?o with _ => _ end = _ => destruct o
  end; simplify_eq; simpl; rewrite ?flush_word_segments; auto using flush_segment_ok.
Qed.

Lemma tok_loop_ok n chars i s s' b :
  tok_loop n chars i s = Some (s', b) → Forall seg_ok (t_segments s) →
  Forall seg_ok (t_segments s').
Proof.
  revert i s. induction n as [|n IH]; intros i s; simpl; [done|].
  destruct (chars !! i) as [c|]; [|naive_solver].
  destruct (tok_step chars i c s) as [[i1 s1]|] eqn:E; [|naive_solver].
  intros Hl Hs. eapply IH; [done|]. by eapply tok_step_ok.
Qed.

(** The tokenizer always returns, and never returns an empty segment. *)
Theorem tokenize_total input :
  ∃ t, tokenize input = Some t ∧ Forall seg_ok (segments t).
Proof.
  unfold tokenize.
  destruct (tok_loop_total (S (length input)) input 0 tok_init) as [[s b] E]; [lia|].
  rewrite E. eexists; split; [done|]. simpl. unfold tok_finish.
  apply Forall_app. split; [by eapply tok_loop_ok|].
  case_match; [constructor|]. by repeat constructor.
Qed.

(** ** Substitution bodies *)

Lemma slice_length chars a b : length (slice chars a b) ≤ b - a ∧ length (slice chars a b) ≤ length chars - a.
Proof. unfold slice. rewrite length_take, length_drop. lia. Qed.

Lemma bodies_loop_spec n chars i bodies :
  length chars - i < n →
  Forall (λ b, infix_of b chars ∧ length b + 2 ≤ length chars) bodies →
  ∃ bs, bodies_loop n chars i bodies = Some bs
    ∧ Forall (λ b, infix_of b chars ∧ length b + 2 ≤ length chars) bs.
Proof.
  revert i bodies. induction n as [|n IH]; intros i bodies Hn Hb; [lia|]. simpl.
  destruct (chars !! i) as [c|] eqn:Hc; [|eauto]. apply lookup_lt_Some in Hc.
  destruct (_ && _).
  - destruct (find_closing_paren chars (i + 2)) as [j|] eqn:Hj; [|eauto].
    apply find_closing_paren_Some in Hj. apply IH; [lia|].
    apply Forall_app. split; [done|]. constructor; [|constructor].
    split; [apply infix_take_drop|]. pose proof (slice_length chars (i + 2) j). lia.
  - destruct (_ =? _)%N; [|apply IH; [lia|done]].
    destruct (find_index _ _) as [k|] eqn:Hk; [|eauto].
    apply find_index_Some in Hk as (_ & _ & Hk). rewrite length_drop in Hk.
    apply IH; [lia|]. apply Forall_app. split; [done|]. constructor; [|constructor].
    split; [apply infix_take_drop|]. pose proof (slice_length chars (i + 1) (i + 1 + k)). lia.
Qed.

(** The scan for substitutions always returns; each body is a piece of the
    input at least two characters shorter than it. *)
Theorem substitution_bodies_shrink input :
  ∃ bs, substitution_bodies input = Some bs
    ∧ ∀ b, b ∈ bs → infix_of b input ∧ length b + 2 ≤ length input.
Proof.
  destruct (bodies_loop_spec (S (length input)) input 0 []) as (bs & E & H); [lia|done|].
  exists bs. split; [done|]. by apply Forall_forall.
Qed.

(** ** Round trip

    Segments of plain words, printed with spaces and [ ; ], are read back. *)

Definition plain_char (c : rchar) : bool :=
  negb (is_whitespace c) && negb (bool_decide (c ∈ [cBS; cSQ; cDQ; cBT] ++ lit "<>&;|()")).
Definition plain_word (w : str) : Prop := w ≠ [] ∧ Forall (λ c, plain_char c = true) w.

Definition print_segment (seg : list str) : str := join (lit " ") seg.
Definition print_line (segs : list (list str)) : str := join (lit " ; ") (print_segment <$> segs).

Definition static_word (w : str) : Word := mkWord w false.
Definition static_segment (seg : list str) : Segment := mkSegment (static_word <$> seg).

(** What may follow a plain character for it to stay literal. *)
Definition plain_next (r : str) : Prop := head r ≠ Some (chr "(") ∧ head r ≠ Some (chr ">").

Lemma plain_char_spec c :
  plain_char c = true →
  is_whitespace c = false ∧ c ≠ cBS ∧ c ≠ cSQ ∧ c ≠ cDQ ∧ c ≠ cBT ∧ c ≠ chr "<" ∧ c ≠ chr ">"
  ∧ c ≠ chr "&" ∧ c ≠ chr ";" ∧ c ≠ chr "|" ∧ c ≠ chr "(" ∧ c ≠ chr ")".
Proof.
  unfold plain_char. intros H. boolp. split; [done|].
  assert (∀ x, x ∈ [cBS; cSQ; cDQ; cBT] ++ lit "<>&;|()" → c ≠ x) as Hx by (by intros x ? ->).
  split_and!; apply Hx; by apply (bool_decide_unpack _).
Qed.

Lemma starts_with_at_cons chars i c r d p :
  drop i chars = c :: r → starts_with_at chars i (d :: p) = true → c = d ∧ ∃ t, r = p ++ t.
Proof.
  unfold starts_with_at. intros -> [t [= -> ->]]%starts_with_true. eauto.
Qed.

Lemma match_operator_None chars i cands :
  (∀ op, op ∈ cands → starts_with_at chars i op = true → False) →
  match_operator chars i cands = None.
Proof.
  intros H. destruct (match_operator chars i cands) as [op|] eqn:E; [|done].
  apply match_operator_Some in E as [? ?]. exfalso. eauto.
Qed.

Lemma plain_no_operator chars i c r :
  drop i chars = c :: r → plain_char c = true → plain_next r →
  match_operator chars i SEPARATORS = None ∧ match_operator chars i REDIRECTS = None.
Proof.
  intros E (Hw & H1 & H2 & H3 & H4 & H5 & H6 & H7 & H8 & H9 & H10 & H11)%plain_char_spec [Hr1 Hr2].
  assert (c ≠ cLF) as Hlf by (by intros ->).
  split; apply match_operator_None; intros op Hop Hs;
  repeat match type of Hop with
  | op ∈ SEPARATORS => unfold SEPARATORS in Hop
  | op ∈ REDIRECTS => unfold REDIRECTS in Hop; csimpl in Hop
  | op ∈ _ :: _ => apply elem_of_cons in Hop as [->|Hop]
  | op ∈ [] => by apply elem_of_nil in Hop
  end;
  (eapply starts_with_at_cons in Hs as [Hc [t Ht]]; [|exact E]);
  first [ congruence | by apply Hr2; rewrite Ht ].
Qed.

Lemma tok_step_plain chars i c r s :
  drop i chars = c :: r → plain_char c = true → plain_next r →
  tok_step chars i c s = Some (i + 1, push_current s [c] false).
Proof.
  intros E Hc Hr. destruct (plain_no_operator _ _ _ _ E Hc Hr) as [Es Er].
  apply plain_char_spec in Hc as (Hw & H1 & H2 & H3 & H4 & H5 & H6 & H7 & H8 & H9 & H10 & H11).
  assert (bool_decide (chars !! (i + 1) = Some (chr "(")) = false) as Hn.
  { apply bool_decide_eq_false_2. destruct Hr as [Hr _].
    rewrite <- lookup_drop, E. by destruct r. }
  unfold tok_step. rewrite Hn, Hw, Es, Er.
  rewrite (proj2 (N.eqb_neq c cBS)), (proj2 (N.eqb_neq c cSQ)), (proj2 (N.eqb_neq c cDQ)),
    (proj2 (N.eqb_neq c cBT)) by done.
  by rewrite !andb_false_r.
Qed.

Definition tok_run (chars : str) (i : nat) (s : TokState) : option (TokState * bool) :=
  tok_loop (S (length chars)) chars i s.

Lemma tok_run_step chars i c r s i' s' :
  drop i chars = c :: r → tok_step chars i c s = Some (i', s') →
  tok_run chars i s = tok_run chars i' s'.
Proof.
  intros [Hc _]%drop_lookup_cons E. unfold tok_run at 1. cbn [tok_loop]. rewrite Hc, E.
  apply lookup_lt_Some in Hc. apply tok_step_progress in E. apply tok_loop_fuel; lia.
Qed.

Lemma drop_app_next {A} (l : list A) i a r : drop i l = a ++ r → drop (i + length a) l = r.
Proof. intros E. by rewrite <- drop_drop, E, drop_app_length. Qed.

Lemma push_current_app s a b :
  push_current (push_current s a false) b false = push_current s (a ++ b) false.
Proof. unfold push_current. simpl. by rewrite <- app_assoc, !orb_false_r. Qed.

Lemma tok_run_word chars w i r s :
  drop i chars = w ++ r → plain_word w → plain_next r →
  tok_run chars i s = tok_run chars (i + length w) (push_current s w false).
Proof.
  intros E [Hne Hw] Hr. revert i s E. induction Hw as [|c w Hc Hw IH]; intros i s E; [done|].
  assert (plain_next (w ++ r)) as Hnext.
  { destruct w as [|d w]; [done|]. apply Forall_cons in Hw as [Hd _].
    apply plain_char_spec in Hd. unfold plain_next. simpl. naive_solver. }
  rewrite (tok_run_step _ _ _ _ _ _ _ E (tok_step_plain _ _ _ _ _ E Hc Hnext)).
  destruct w as [|d w]; [done|].
  rewrite IH; [|done|by apply (drop_app_next chars i [c])].
  rewrite push_current_app. simpl. f_equal. lia.
Qed.

(** One character of white space ends the word. *)
Lemma tok_run_space chars i r s :
  drop i chars = chr " " :: r → tok_run chars i s = tok_run chars (i + 1) (flush_word s).
Proof. intros E. by apply (tok_run_step _ _ _ _ _ _ _ E). Qed.

Definition between (segs : list Segment) (ws : list Word) : TokState := mkTok segs ws [] false false.

Lemma flush_between segs ws w :
  flush_word (push_current (between segs ws) w false) = between segs (ws ++ [static_word w]).
Proof. reflexivity. Qed.

Lemma print_segment_snoc pre w :
  pre ≠ [] → print_segment (pre ++ [w]) = print_segment pre ++ chr " " :: w.
Proof.
  unfold print_segment. intros Hne. induction pre as [|x pre IH]; [done|].
  destruct pre as [|y pre]; [done|].
  change (join (lit " ") ((x :: y :: pre) ++ [w]))
    with (x ++ lit " " ++ join (lit " ") ((y :: pre) ++ [w])).
  rewrite IH by done.
  change (join (lit " ") (x :: y :: pre)) with (x ++ lit " " ++ join (lit " ") (y :: pre)).
  by rewrite <- !app_assoc.
Qed.

Lemma tok_run_segment chars pre w i r segs :
  drop i chars = print_segment (pre ++ [w]) ++ r → Forall plain_word (pre ++ [w]) → plain_next r →
  tok_run chars i (between segs [])
  = tok_run chars (i + length (print_segment (pre ++ [w])))
      (push_current (between segs (static_word <$> pre)) w false).
Proof.
  revert w r. induction pre as [|x pre IH] using rev_ind; intros w r E Hpl Hr.
  - simpl in *. apply Forall_cons in Hpl as [Hw _]. by rewrite (tok_run_word _ w _ r).
  - apply Forall_app in Hpl as [Hpre [Hw _]%Forall_cons].
    rewrite print_segment_snoc in * by (by destruct pre).
    rewrite <- app_assoc in E. rewrite (IH x (chr " " :: w ++ r)) by done.
    apply drop_app_next in E.
    rewrite (tok_run_space _ _ (w ++ r)) by done. rewrite flush_between, <- fmap_snoc.
    apply (drop_app_next _ _ [chr " "]) in E. simpl in E.
    rewrite (tok_run_word _ w _ r) by done. rewrite length_app. simpl length.
    f_equal. lia.
Qed.

(** A [;] closes the segment. *)
Lemma tok_run_semicolon chars i r done_ ws :
  drop i chars = chr ";" :: chr " " :: r → ws ≠ [] →
  tok_run chars i (between done_ ws) = tok_run chars (i + 1) (between (done_ ++ [mkSegment ws]) []).
Proof.
  intros E Hws. apply (tok_run_step _ _ _ _ _ _ _ E).
  unfold tok_step, match_operator, starts_with_at. rewrite E. by destruct ws.
Qed.

(** From the start of a segment, [print_line] is read segment by segment. *)
Lemma tok_run_line segs chars i done_ :
  segs ≠ [] → Forall (λ seg, seg ≠ [] ∧ Forall plain_word seg) segs →
  drop i chars = print_line segs →
  (λ p, (tok_finish p.1, p.2)) <$> tok_run chars i (between done_ [])
  = Some (done_ ++ (static_segment <$> segs), false).
Proof.
  intros Hne Hall. revert i done_. induction Hall as [|seg segs [Hs Hp] Hall IH]; [done|].
  clear Hne. intros i done_ E.
  destruct seg as [|w pre _] using rev_ind; [done|].
  destruct segs as [|seg' segs].
  - change (print_line [pre ++ [w]]) with (print_segment (pre ++ [w])) in E.
    rewrite <- (app_nil_r (print_segment _)) in E.
    rewrite (tok_run_segment _ pre w i []) by done. apply drop_app_next in E.
    apply drop_nil_iff in E. unfold tok_run. simpl tok_loop.
    rewrite lookup_ge_None_2 by done. simpl. unfold static_segment.
    rewrite fmap_app. unfold tok_finish. simpl. by destruct (static_word <$> pre).
  - change (print_line ((pre ++ [w]) :: seg' :: segs))
      with (print_segment (pre ++ [w]) ++ chr " " :: chr ";" :: chr " " :: print_line (seg' :: segs)) in E.
    rewrite (tok_run_segment _ pre w i _) by done. apply drop_app_next in E.
    rewrite (tok_run_space _ _ _ _ E), flush_between, <- fmap_snoc.
    apply (drop_app_next _ _ [chr " "]) in E.
    rewrite (tok_run_semicolon _ _ _ _ _ E) by (by destruct pre).
    apply (drop_app_next _ _ [chr ";"]) in E. simpl length in E.
    rewrite (tok_run_space _ _ _ _ E). apply (drop_app_next _ _ [chr " "]) in E.
    change (flush_word (between ?a ?b)) with (between a b). simpl length in E.
    rewrite (IH) by done. by rewrite <- app_assoc.
Qed.

(** Printing plain segments and tokenizing the line gives the segments back. *)
Theorem tokenize_print segs :
  Forall (λ seg, seg ≠ [] ∧ Forall plain_word seg) segs →
  tokenize (print_line segs) = Some (mkTokenized (static_segment <$> segs) false).
Proof.
  intros Hall. destruct (decide (segs = [])) as [->|Hne]; [done|].
  pose proof (tok_run_line segs (print_line segs) 0 [] Hne Hall eq_refl) as H.
  unfold tok_run in H. unfold tokenize.
  change tok_init with (between [] []). destruct (tok_loop _ _ _ _) as [[s b]|]; [|done].
  injection H as -> ->. done.
Qed.

Example tokenize_print_witness :
  tokenize (lit "make -j4 all ; FOO=1 ls src/*.rs $HOME")
  = Some (mkTokenized (static_segment <$>
      [[lit "make"; lit "-j4"; lit "all"]; [lit "FOO=1"; lit "ls"; lit "src/*.rs"; lit "$HOME"]]) false).
Proof.
  apply (tokenize_print [[lit "make"; lit "-j4"; lit "all"];
    [lit "FOO=1"; lit "ls"; lit "src/*.rs"; lit "$HOME"]]).
  unfold plain_word. by apply (bool_decide_unpack _).
Defined.
