(* ===== verification/Parse.v ===== *)
(** The recursive-descent shell parser ([crates/command-risk/src/parse.rs], the
    syntax half): the AST, the parser state, and one definition per method.

    Methods of [Parser] are computations in a state monad whose outcomes are
    success, the code's [ParseError], a Rust panic (a slice or index out of
    range, an underflow), and running out of fuel. Recursion through [list],
    [command] and [word] goes through a record of the three at a smaller depth
    ([rec]), which [recs] ties. *)

From S2P Require Import Prelude RustStr Tokenize.

Definition MAX_DEPTH : nat := 64.
Definition MAX_VARIANTS : nat := 16.
Definition BINDERS : list string :=
  ["export"; "local"; "declare"; "typeset"; "readonly"; "env"]%string.
Definition SHELLS : list string := ["sh"; "bash"; "zsh"; "fish"; "dash"; "ksh"]%string.

(** ** Syntax *)

Inductive Part :=
| Lit (s : str)
| Var (name raw : str) (quoted : bool)
| Dynamic (placeholder : str).

Record WordAst := mkWordAst {
  parts : list Part;
  assign : option (str * list (list Part)) }.

Inductive Redirect :=
| Write (op : str) (target : WordAst)
| HereDoc (slot : nat)
| HereString (w : WordAst)
| Other.

#[warnings="-register-all"]
Inductive Command :=
| Simple (cwords : list WordAst) (redirects : list Redirect)
| Compound (body : list (list Command)) (redirects : list Redirect)
| For (var : str) (items : list WordAst) (body : list (list Command)) (redirects : list Redirect).
Abbreviation Pipeline := (list Command).

Record PendingHeredoc := mkPending { delim : str; strip_tabs : bool; slot : nat }.

Record Parser := mkParser {
  p_s : str;
  p_pos : nat;
  p_depth : nat;
  p_subst_depth : nat;
  p_bodies : list str;
  p_heredocs : list str;
  p_pending : list PendingHeredoc;
  p_comments : list str }.

Definition init_parser (input : str) : Parser := mkParser input 0 0 0 [] [] [] [].

Definition set_pos (p : Parser) (n : nat) : Parser :=
  mkParser (p_s p) n (p_depth p) (p_subst_depth p) (p_bodies p) (p_heredocs p) (p_pending p)
    (p_comments p).
Definition set_depth (p : Parser) (n : nat) : Parser :=
  mkParser (p_s p) (p_pos p) n (p_subst_depth p) (p_bodies p) (p_heredocs p) (p_pending p)
    (p_comments p).
Definition set_subst_depth (p : Parser) (n : nat) : Parser :=
  mkParser (p_s p) (p_pos p) (p_depth p) n (p_bodies p) (p_heredocs p) (p_pending p)
    (p_comments p).
Definition push_body (p : Parser) (b : str) : Parser :=
  mkParser (p_s p) (p_pos p) (p_depth p) (p_subst_depth p) (p_bodies p ++ [b]) (p_heredocs p)
    (p_pending p) (p_comments p).
Definition set_heredocs (p : Parser) (h : list str) : Parser :=
  mkParser (p_s p) (p_pos p) (p_depth p) (p_subst_depth p) (p_bodies p) h (p_pending p)
    (p_comments p).
Definition set_pending (p : Parser) (l : list PendingHeredoc) : Parser :=
  mkParser (p_s p) (p_pos p) (p_depth p) (p_subst_depth p) (p_bodies p) (p_heredocs p) l
    (p_comments p).
Definition push_comment (p : Parser) (c : str) : Parser :=
  mkParser (p_s p) (p_pos p) (p_depth p) (p_subst_depth p) (p_bodies p) (p_heredocs p)
    (p_pending p) (p_comments p ++ [c]).

(** What is left to read. *)
Definition rest (p : Parser) : str := drop (p_pos p) (p_s p).
Definition remaining (p : Parser) : nat := length (p_s p) - p_pos p.

(** ** The parser monad *)

Inductive res (A : Type) := Ok (a : A) | ParseError | Panic | OutOfFuel.
Arguments Ok {A}. Arguments ParseError {A}. Arguments Panic {A}. Arguments OutOfFuel {A}.

Definition M (A : Type) : Type := Parser → res (A * Parser).

#[global] Instance M_ret : MRet M := λ A a p, Ok (a, p).
#[global] Instance M_bind : MBind M := λ A B f m p,
  match m p with
  | Ok (a, p') => f a p'
  | ParseError => ParseError
  | Panic => Panic
  | OutOfFuel => OutOfFuel
  end.

#[global] Instance M_fmap : FMap M := λ A B f m, a ← m; mret (f a).

Definition err {A} : M A := λ _, ParseError.
Definition panic {A} : M A := λ _, Panic.
Definition out_of_fuel {A} : M A := λ _, OutOfFuel.
Definition gets {A} (f : Parser → A) : M A := λ p, Ok (f p, p).
Definition modify (f : Parser → Parser) : M unit := λ p, Ok (tt, f p).
(** [x.ok_or(ParseError)?]. *)
Definition ok_or {A} (m : M (option A)) : M A :=
  o ← m; match o with Some a => mret a | None => err end.
(** Short-circuit [||] on effectful tests. *)
Definition or_else (m1 m2 : M bool) : M bool := b ← m1; if (b : bool) then mret true else m2.

(** [loop { .. }]: [inl] goes round again, [inr] leaves. Each turn that goes round
    again consumes input, so one unit of fuel per remaining character suffices. *)
Fixpoint loop_go {S R} (fuel : nat) (body : S → M (S + R)) (s : S) : M R :=
  match fuel with
  | O => out_of_fuel
  | Datatypes.S n =>
      x ← body s;
      match x with inl s' => loop_go n body s' | inr r => mret r end
  end.
Definition loop {S R} (body : S → M (S + R)) (s : S) : M R :=
  λ p, loop_go (Datatypes.S (remaining p)) body s p.

(** ** Character classes *)

Definition is_blank (c : rchar) : bool := (c =? chr " ")%N || (c =? cHT)%N || (c =? cCR)%N.
Definition is_meta (c : rchar) : bool :=
  is_blank c || (c =? cLF)%N || bool_decide (c ∈ lit ";&|<>()").
Definition is_name_start (c : rchar) : bool := is_ascii_alphabetic c || (c =? chr "_")%N.
Definition is_name_char (c : rchar) : bool := is_ascii_alphanumeric c || (c =? chr "_")%N.
Definition is_name (s : str) : bool :=
  match s with [] => false | c :: r => is_name_start c && forallb is_name_char r end.

(** ** Words without the parser *)

Definition lit_word (t : str) : WordAst := mkWordAst [Lit t] None.

Definition push_lit (ps : list Part) (c : rchar) : list Part :=
  match last ps with
  | Some (Lit s) => removelast ps ++ [Lit (s ++ [c])]
  | _ => ps ++ [Lit [c]]
  end.

Definition lit_of (p : Part) : option str := match p with Lit s => Some s | _ => None end.
Definition plain_text (ps : list Part) : str := mjoin (omap lit_of ps).

Definition is_fd_target (target : WordAst) : bool :=
  let literal := forallb (λ p, bool_decide (is_Some (lit_of p))) (parts target) in
  let t := plain_text (parts target) in
  let digits := default t (strip_suffix (lit "-") t) in
  literal && forallb is_ascii_digit digits.

(** ** Primitive moves *)

Definition at_ (i : nat) : M (option rchar) := gets (λ p, p_s p !! i).
Definition pos : M nat := gets p_pos.
Definition goto (n : nat) : M unit := modify (λ p, set_pos p n).
Definition advance (n : nat) : M unit := modify (λ p, set_pos p (p_pos p + n)).
Definition peek : M (option rchar) := gets (λ p, p_s p !! p_pos p).

Definition next : M rchar :=
  o ← peek;
  match o with None => err | Some c => advance 1 ;; mret c end.

Definition looking_at (t : str) : M bool := gets (λ p, starts_with (rest p) t).

Definition eat (t : str) : M bool :=
  found ← looking_at t;
  if (found : bool) then advance (length t) ;; mret true else mret false.

Definition enter : M unit :=
  modify (λ p, set_depth p (S (p_depth p))) ;;
  d ← gets p_depth;
  if MAX_DEPTH <? d then err else mret tt.

(** [self.depth -= 1]: a [usize]. *)
Definition leave : M unit :=
  d ← gets p_depth;
  match d with O => panic | S d' => modify (λ p, set_depth p d') end.

Definition slice_ (from to : nat) : M str :=
  s ← gets p_s;
  if (from <=? to) && (to <=? length s) then mret (slice s from to) else panic.

(** [while self.peek().is_some_and(f) { self.pos += 1 }]. *)
Definition skip_while (f : rchar → bool) : M unit :=
  modify (λ p, set_pos p (p_pos p + length (take_while f (rest p)))).

Definition blanks : M unit :=
  loop (λ _ : unit,
    c ← peek;
    if match c with Some c => is_blank c | None => false end then advance 1 ;; mret (inl tt)
    else
      b ← eat [cBS; cLF];
      mret (if (b : bool) then inl tt else inr tt)) tt.

Definition blanks_and_comment : M unit :=
  blanks ;;
  c ← peek;
  if c == Some (chr "#") then
    start ← pos;
    skip_while (λ c, negb (c =? cLF)%N) ;;
    end_ ← pos;
    t ← slice_ start end_;
    modify (λ p, push_comment p t)
  else mret tt.

(** ** Here-documents and line breaks *)

(** The lines of one here-document, up to its terminator. *)
Definition heredoc_body (doc : PendingHeredoc) : M str :=
  loop (λ body : str,
    p ← gets id;
    if length (p_s p) <=? p_pos p then err
    else
      start ← pos;
      skip_while (λ c, negb (c =? cLF)%N) ;;
      end_ ← pos;
      line ← slice_ start end_;
      _ ← eat [cLF];
      let line := if strip_tabs doc then trim_start_matches (N.eqb cHT) line else line in
      if default line (strip_suffix [cCR] line) == delim doc then mret (inr body)
      else mret (inl (body ++ line ++ [cLF]))) [].

(** [self.heredocs[i] = body]. *)
Definition set_heredoc (i : nat) (body : str) : M unit :=
  h ← gets p_heredocs;
  if i <? length h then modify (λ p, set_heredocs p (<[i := body]> (p_heredocs p))) else panic.

Fixpoint heredoc_bodies_go (docs : list PendingHeredoc) : M unit :=
  match docs with
  | [] => mret tt
  | doc :: docs' =>
      body ← heredoc_body doc;
      set_heredoc (slot doc) body ;;
      heredoc_bodies_go docs'
  end.

Definition heredoc_bodies : M unit :=
  docs ← gets p_pending;
  modify (λ p, set_pending p []) ;;
  heredoc_bodies_go docs.

Definition linebreaks : M unit :=
  loop (λ _ : unit,
    blanks_and_comment ;;
    b ← eat [cLF];
    if (b : bool) then heredoc_bodies ;; mret (inl tt) else mret (inr tt)) tt.

(** ** Reserved words *)

Definition RESERVED : list str :=
  lit <$> ["if"; "then"; "elif"; "else"; "fi"; "do"; "done"; "while"; "until"; "for"; "select";
           "case"; "esac"; "in"; "function"; "{"; "}"; "!"; "[["]%string.

Definition reserved_at (p : Parser) : option str :=
  List.find (λ r, starts_with (rest p) r
    && match p_s p !! (p_pos p + length r) with None => true | Some c => is_meta c end) RESERVED.
Definition reserved : M (option str) := gets reserved_at.

Definition expect_word (w : str) : M unit :=
  linebreaks ;;
  r ← reserved;
  if r == Some w then advance (length w) else err.

(** [matches!(self.reserved(), Some(..))]. *)
Definition opt_is_one_of (r : option str) (table : list string) : bool :=
  match r with Some w => is_one_of w table | None => false end.
Arguments opt_is_one_of _ _%_list_scope.

Definition at_list_end : M bool :=
  gets (λ p,
    match p_s p !! p_pos p with None => true | Some c => (c =? chr ")")%N end
    || starts_with (rest p) (lit ";;") || starts_with (rest p) (lit ";&")
    || opt_is_one_of (reserved_at p)
         ["then"; "elif"; "else"; "fi"; "do"; "done"; "esac"; "}"]%string).

(** ** Quoted and expanded text that does not recurse *)

(** [(( .. ))] after the opening. *)
Definition arithmetic : M unit :=
  loop (λ depth : nat,
    c ← next;
    if (c =? chr "(")%N then mret (inl (S depth))
    else if (c =? chr ")")%N && (0 <? depth) then mret (inl (pred depth))
    else if (c =? chr ")")%N then
      b ← eat (lit ")");
      if (b : bool) then mret (inr tt) else err
    else mret (inl depth)) 0.

Definition code_point (radix : N) (max : nat) (letter : rchar) : M rchar :=
  start ← pos;
  modify (λ p, set_pos p (p_pos p + length (take_while (is_digit radix) (take max (rest p))))) ;;
  end_ ← pos;
  digits ← slice_ start end_;
  mret (match from_str_radix radix digits with
        | Some n => default 65533%N (char_from_u32 n)
        | None => letter
        end).

(** The character after a backslash inside [$'..']; the flag asks for the
    backslash to be kept in front of it. *)
Definition ansi_escape (c : rchar) : M (bool * rchar) :=
  if (c =? chr "n")%N then mret (false, cLF)
  else if (c =? chr "t")%N then mret (false, cHT)
  else if (c =? chr "r")%N then mret (false, cCR)
  else if (c =? chr "a")%N then mret (false, 7%N)
  else if (c =? chr "b")%N then mret (false, 8%N)
  else if (c =? chr "e")%N || (c =? chr "E")%N then mret (false, 27%N)
  else if (c =? chr "f")%N then mret (false, 12%N)
  else if (c =? chr "v")%N then mret (false, 11%N)
  else if (c =? chr "x")%N then pair false <$> code_point 16 2 (chr "x")
  else if (c =? chr "u")%N then pair false <$> code_point 16 4 (chr "u")
  else if (c =? chr "U")%N then pair false <$> code_point 16 8 (chr "U")
  else if (chr "0" <=? c)%N && (c <=? chr "7")%N then
    n ← pos;
    match n with
    | O => panic
    | S n' => goto n' ;; pair false <$> code_point 8 3 c
    end
  else if (c =? cBS)%N || (c =? cSQ)%N || (c =? cDQ)%N || (c =? chr "?")%N then mret (false, c)
  else mret (true, c).

Definition ansi_c (ps : list Part) : M (list Part) :=
  loop (λ ps : list Part,
    c ← next;
    if (c =? cSQ)%N then mret (inr ps)
    else if (c =? cBS)%N then
      e ← next;
      r ← ansi_escape e;
      mret (inl (push_lit (if (r.1 : bool) then push_lit ps cBS else ps) r.2))
    else mret (inl (push_lit ps c))) (ps ++ [Lit []]).

Definition braced (ps : list Part) (quoted : bool) : M (list Part) :=
  start ← pos;
  loop (λ depth : nat,
    c ← next;
    if (c =? cBS)%N then next ;; mret (inl depth)
    else if (c =? chr "{")%N then mret (inl (S depth))
    else if (c =? chr "}")%N && (depth =? 0) then mret (inr tt)
    else if (c =? chr "}")%N then mret (inl (pred depth))
    else mret (inl depth)) 0 ;;
  end_ ← pos;
  inner ← slice_ start (pred end_);
  let raw := lit "${" ++ inner ++ lit "}" in
  if is_name inner then mret (ps ++ [Var inner raw quoted])
  else
    let dynamic := contains inner (lit "$(") || contains_char inner cBT in
    mret (ps ++ [Lit raw] ++ (if dynamic then [Dynamic []] else [])).

Definition backtick (ps : list Part) : M (list Part) :=
  body ← loop (λ body : str,
    c ← next;
    if (c =? cBT)%N then mret (inr body)
    else if (c =? cBS)%N then
      e ← next;
      mret (inl (body ++ (if (e =? cBT)%N || (e =? cBS)%N || (e =? chr "$")%N then [e]
                          else [cBS; e])))
    else mret (inl (body ++ [c]))) [];
  d ← gets p_subst_depth;
  (if d =? 0 then modify (λ p, push_body p body) else mret tt) ;;
  mret (ps ++ [Dynamic []]).

Definition single_quoted (ps : list Part) : M (list Part) :=
  loop (λ ps : list Part,
    c ← next;
    mret (if (c =? cSQ)%N then inr ps else inl (push_lit ps c))) (ps ++ [Lit []]).

(** ** The recursive part *)

Record rec := mkRec {
  r_list : list Pipeline → M (list Pipeline);
  r_command : M Command;
  r_word : M (option WordAst) }.

Section methods.
Context (R : rec).

(** The body of [$( .. )] or [<( .. )] after the [(], through the [)]. *)
Definition substitution : M unit :=
start ← pos;
modify (λ p, set_subst_depth p (S (p_subst_depth p))) ;;
_ ← r_list R [];
b ← eat (lit ")");
if negb b then err
else
d ← gets p_subst_depth;
match d with
| O => panic
| S d' =>
    modify (λ p, set_subst_depth p d') ;;
    if d' =? 0 then
      end_ ← pos;
      body ← slice_ start (pred end_);
      modify (λ p, push_body p body)
    else mret tt
end.

(** After a [$], once [$'..'] and [$"..."] are excluded. *)
Definition dollar_common (ps : list Part) (quoted : bool) : M (list Part) :=
b ← eat (lit "((");
if (b : bool) then arithmetic ;; mret (ps ++ [Dynamic []])
else
b ← eat (lit "(");
if (b : bool) then substitution ;; mret (ps ++ [Dynamic []])
else
b ← eat (lit "{");
if (b : bool) then braced ps quoted
else
start ← pos;
skip_while is_name_char ;;
end_ ← pos;
name ← slice_ start end_;
if is_name name then mret (ps ++ [Var name (chr "$" :: name) quoted])
else
  goto start ;;
  o ← peek;
  match o with
  | Some c =>
      if is_ascii_digit c || bool_decide (c ∈ lit "@*#?$!-") then
        advance 1 ;; mret (ps ++ [Lit [chr "$"; c]])
      else mret (push_lit ps (chr "$"))
  | None => mret (push_lit ps (chr "$"))
  end.

Definition double_quoted (ps : list Part) : M (list Part) :=
loop (λ ps : list Part,
c ← next;
if (c =? cDQ)%N then mret (inr ps)
else if (c =? cBS)%N then
  e ← next;
  mret (inl (if (e =? cLF)%N then ps
             else if (e =? chr "$")%N || (e =? cBT)%N || (e =? cDQ)%N || (e =? cBS)%N
             then push_lit ps e
             else push_lit (push_lit ps cBS) e))
else if (c =? chr "$")%N then inl <$> dollar_common ps true
else if (c =? cBT)%N then inl <$> backtick ps
else mret (inl (push_lit ps c))) (ps ++ [Lit []]).

(** After a [$]. *)
Definition dollar (ps : list Part) (quoted : bool) : M (list Part) :=
b ← (if quoted then mret false else eat [cSQ]);
if (b : bool) then ansi_c ps
else
b ← (if quoted then mret false else eat [cDQ]);
if (b : bool) then double_quoted ps
else dollar_common ps quoted.

(** Elements of [NAME=( .. )], after the [(]. *)
Definition array (ps : list Part) : M (list Part * list (list Part)) :=
loop (λ st : list Part * list (list Part),
let '(ps, elements) := st in
linebreaks ;;
b ← eat (lit ")");
if (b : bool) then mret (inr (ps ++ [Lit (lit ")")], elements))
else
  element ← ok_or (r_word R);
  let ps := match elements with [] => ps | _ => ps ++ [Lit (lit " ")] end in
  mret (inl (ps ++ parts element, elements ++ [parts element])))
(ps ++ [Lit (lit "(")], []).

(** Process substitution at word start: the three openings in order. *)
Fixpoint word_openings (ops : list str) (ps : list Part) : M (list Part) :=
match ops with
| [] => mret ps
| op :: ops' =>
  b ← (match ps with [] => eat op | _ => mret false end);
  if (b : bool) then substitution ;; word_openings ops' (ps ++ [Dynamic (op ++ lit ")")])
  else word_openings ops' ps
end.

(** The characters of a word, up to a metacharacter. *)
Definition word_parts (ps : list Part) : M (list Part) :=
loop (λ ps : list Part,
o ← peek;
match o with
| None => mret (inr ps)
| Some c =>
    if is_meta c then mret (inr ps)
    else
      advance 1 ;;
      if (c =? cBS)%N then
        b ← eat [cLF];
        if (b : bool) then mret (inl ps)
        else
          o ← peek;
          match o with
          | Some next => advance 1 ;; mret (inl (push_lit ps next))
          | None => mret (inl (push_lit ps cBS))
          end
      else if (c =? cSQ)%N then inl <$> single_quoted ps
      else if (c =? cDQ)%N then inl <$> double_quoted ps
      else if (c =? chr "$")%N then inl <$> dollar ps false
      else if (c =? cBT)%N then inl <$> backtick ps
      else mret (inl (push_lit ps c))
end) ps.

Definition word_tail (ps : list Part) (assigned : option str) : M (option WordAst) :=
let value_from := length ps - 1 in
ps ← word_openings [lit "<("; lit ">("; lit "=("] ps;
ps ← word_parts ps;
mret (match ps with
    | [] => None
    | _ => Some (mkWordAst ps ((λ name, (name, [drop value_from ps])) <$> assigned))
    end).

(** One word at the current position, or [None] at a delimiter. *)
Definition word : M (option WordAst) :=
start ← pos;
skip_while is_name_char ;;
end_ ← pos;
name ← slice_ start end_;
plus ← looking_at (lit "+=");
let eq := if (plus : bool) then lit "+=" else lit "=" in
b ← (if is_name name then eat eq else mret false);
if (b : bool) then
let ps := [Lit (name ++ eq)] in
a ← eat (lit "(");
if (a : bool) then
  r ← array ps;
  mret (Some (mkWordAst r.1 (Some (name, r.2))))
else word_tail (ps ++ [Lit []]) (Some name)
else
goto start ;;
word_tail [] None.

Definition REDIRECT_OPS : list str :=
lit <$> ["<<<"; "<<-"; "<<"; "<>"; "<&"; "<"; ">>"; ">|"; ">&"; ">"; "&>>"; "&>"]%string.

(** A redirection at the current position, or [None] (position unchanged). *)
Definition redirect : M (option Redirect) :=
start ← pos;
skip_while is_ascii_digit ;;
ps ← or_else (looking_at (lit "<(")) (looking_at (lit ">("));
if (ps : bool) then goto start ;; mret None
else
op ← gets (λ p, List.find (starts_with (rest p)) REDIRECT_OPS);
match op with
| None => goto start ;; mret None
| Some op =>
    here ← pos;
    if starts_with op (lit "&") && negb (here =? start) then goto start ;; mret None
    else
      advance (length op) ;;
      blanks ;;
      target ← ok_or word;
      if is_one_of op ["<<"; "<<-"]%string then
        slot ← gets (λ p, length (p_heredocs p));
        modify (λ p, set_heredocs p (p_heredocs p ++ [[]])) ;;
        modify (λ p, set_pending p (p_pending p ++
          [mkPending (plain_text (parts target)) (op == lit "<<-") slot])) ;;
        mret (Some (HereDoc slot))
      else if op == lit "<<<" then mret (Some (HereString target))
      else if (op == lit ">&") && negb (is_fd_target target) then
        mret (Some (Write (lit "&>") target))
      else if is_one_of op [">"; ">>"; ">|"; "&>"; "&>>"]%string then
        mret (Some (Write op target))
      else mret (Some Other)
end.

Definition redirects_ : M (list Redirect) :=
loop (λ out : list Redirect,
blanks ;;
r ← redirect;
mret (match r with Some r => inl (out ++ [r]) | None => inr out end)) [].

(** A function body is assessed where it is defined. *)
Definition function_body : M Command := linebreaks ;; r_command R.

Definition simple : M Command :=
loop (λ st : list WordAst * list Redirect,
let '(ws, rs) := st in
let done_ : M ((list WordAst * list Redirect) + Command) :=
  match ws, rs with [], [] => err | _, _ => mret (inr (Simple ws rs)) end in
blanks_and_comment ;;
r ← redirect;
match r with
| Some r => mret (inl (ws, rs ++ [r]))
| None =>
    w ← word;
    match w with
    | None => done_
    | Some w =>
        let ws := ws ++ [w] in
        if (length ws =? 1) && (length rs =? 0) then
          save ← pos;
          blanks ;;
          b ← eat (lit "(");
          if (b : bool) then
            blanks ;;
            c ← eat (lit ")");
            if (c : bool) then inr <$> function_body else err
          else goto save ;; mret (inl (ws, rs))
        else mret (inl (ws, rs))
    end
end) ([], []).

(** [if .. then .. [elif .. then ..] [else ..] fi], the [if] still ahead. *)
Definition if_clause : M (list Pipeline) :=
advance (length (lit "if")) ;;
body ← r_list R [];
expect_word (lit "then") ;;
body ← r_list R body;
body ← loop (λ body : list Pipeline,
linebreaks ;;
r ← reserved;
if r == Some (lit "elif") then
  advance (length (lit "elif")) ;;
  body ← r_list R body;
  expect_word (lit "then") ;;
  body ← r_list R body;
  mret (inl body)
else if r == Some (lit "else") then
  advance (length (lit "else")) ;;
  body ← r_list R body;
  mret (inl body)
else mret (inr body)) body;
expect_word (lit "fi") ;;
mret body.

(** [for], the keyword already consumed. *)
Definition for_clause : M Command :=
blanks ;;
b ← eat (lit "((");
if (b : bool) then
arithmetic ;;
blanks ;;
_ ← eat (lit ";");
expect_word (lit "do") ;;
body ← r_list R [];
expect_word (lit "done") ;;
rs ← redirects_;
mret (Compound body rs)
else
start ← pos;
skip_while is_name_char ;;
end_ ← pos;
var ← slice_ start end_;
if negb (is_name var) then err
else
  linebreaks ;;
  r ← reserved;
  items ← (if r == Some (lit "in") then
    advance (length (lit "in")) ;;
    loop (λ items : list WordAst,
      blanks_and_comment ;;
      w ← word;
      mret (match w with Some w => inl (items ++ [w]) | None => inr items end)) []
  else mret []);
  blanks_and_comment ;;
  _ ← eat (lit ";");
  expect_word (lit "do") ;;
  body ← r_list R [];
  expect_word (lit "done") ;;
  rs ← redirects_;
  mret (For var items body rs).

(** The patterns of one [case] arm: at least one word, separated by [|]. *)
Definition case_patterns : M unit :=
loop (λ _ : unit,
blanks ;;
_ ← ok_or word;
blanks ;;
b ← eat (lit "|");
mret (if (b : bool) then inl tt else inr tt)) tt.

Definition case_clause : M (list Pipeline) :=
advance (length (lit "case")) ;;
blanks ;;
_ ← ok_or word;
expect_word (lit "in") ;;
loop (λ body : list Pipeline,
linebreaks ;;
r ← reserved;
if r == Some (lit "esac") then
  advance (length (lit "esac")) ;; mret (inr body)
else
  _ ← eat (lit "(");
  case_patterns ;;
  b ← eat (lit ")");
  if negb b then err
  else
    body ← r_list R body;
    _ ← or_else (eat (lit ";;&")) (or_else (eat (lit ";;")) (eat (lit ";&")));
    mret (inl body)) [].

Definition TEST_OPS : list str := lit <$> ["&&"; "||"; "("; ")"; "<"; ">"; "!"]%string.

(** [[[ .. ]]]: operators inside are words. *)
Definition test_clause : M Command :=
advance (length (lit "[[")) ;;
ws ← loop (λ ws : list WordAst,
blanks ;;
b ← eat (lit "]]");
if (b : bool) then mret (inr (ws ++ [lit_word (lit "]]")]))
else
  op ← gets (λ p, List.find (starts_with (rest p)) TEST_OPS);
  match op with
  | Some op => advance (length op) ;; mret (inl (ws ++ [lit_word op]))
  | None => w ← ok_or word; mret (inl (ws ++ [w]))
  end) [lit_word (lit "[[")];
rs ← redirects_;
mret (Simple ws rs).

Definition compound_of (body : M (list Pipeline)) : M Command :=
body ← body;
rs ← redirects_;
mret (Compound body rs).

(** The arms of [command] that are not a reserved word. *)
Definition command_default : M Command :=
b ← eat (lit "((");
if (b : bool) then compound_of (arithmetic ;; mret [])
else
b ← eat (lit "(");
if (b : bool) then
compound_of (
  body ← r_list R [];
  c ← eat (lit ")");
  if negb c then err else mret body)
else simple.

(** The arms of [command] that a reserved word selects. *)
Definition command_keyword (kw : str) : M Command :=
if kw == lit "if" then compound_of if_clause
else if is_one_of kw ["while"; "until"]%string then
compound_of (
  advance (length kw) ;;
  body ← r_list R [];
  expect_word (lit "do") ;;
  body ← r_list R body;
  expect_word (lit "done") ;;
  mret body)
else if is_one_of kw ["for"; "select"]%string then advance (length kw) ;; for_clause
else if kw == lit "case" then compound_of case_clause
else if kw == lit "{" then
compound_of (
  advance 1 ;;
  body ← r_list R [];
  expect_word (lit "}") ;;
  mret body)
else if kw == lit "function" then
advance (length (lit "function")) ;;
blanks ;;
_ ← ok_or word;
blanks ;;
_ ← eat (lit "()");
function_body
else if kw == lit "[[" then test_clause
else if is_one_of kw ["then"; "elif"; "else"; "fi"; "do"; "done"; "esac"; "}"; "!"]%string
then err
else command_default.

Definition command_ : M Command :=
blanks ;;
kw ← reserved;
match kw with
| None => command_default
| Some kw => command_keyword kw
end.

Definition pipeline : M Pipeline :=
blanks ;;
r ← reserved;
(if r == Some (lit "!") then advance 1 else mret tt) ;;
c ← command_;
loop (λ commands : Pipeline,
blanks ;;
o ← looking_at (lit "||");
b ← (if (o : bool) then mret false else or_else (eat (lit "|&")) (eat (lit "|")));
if negb b then mret (inr commands)
else
  linebreaks ;;
  c ← command_;
  mret (inl (commands ++ [c]))) [c].

Definition and_or (out : list Pipeline) : M (list Pipeline) :=
loop (λ out : list Pipeline,
pl ← pipeline;
let out := out ++ [pl] in
blanks ;;
b ← or_else (eat (lit "&&")) (eat (lit "||"));
if negb b then mret (inr out)
else linebreaks ;; mret (inl out)) out.

Definition list_ (out : list Pipeline) : M (list Pipeline) :=
enter ;;
out ← loop (λ out : list Pipeline,
linebreaks ;;
e ← at_list_end;
if (e : bool) then mret (inr out)
else
  out ← and_or out;
  blanks_and_comment ;;
  t ← or_else (looking_at (lit ";;")) (looking_at (lit ";&"));
  if (t : bool) then mret (inr out)
  else
    sep ← or_else (eat (lit ";")) (or_else (eat (lit "&")) ((λ c, c == Some cLF) <$> peek));
    mret (if (sep : bool) then inl out else inr out)) out;
leave ;;
mret out.
End methods.

(** The methods at recursion depth [n]. *)
Fixpoint recs (n : nat) : rec :=
  match n with
  | O => mkRec (λ _, out_of_fuel) out_of_fuel out_of_fuel
  | S n => let r := recs n in mkRec (list_ r) (command_ r) (word r)
  end.

(** The whole program, from a fresh parser; leftovers are an error. *)
Definition parse_program (fuel : nat) : M (list Pipeline) :=
  program ← list_ (recs fuel) [];
  p ← gets id;
  if (p_pos p <? length (p_s p)) || negb (length (p_pending p) =? 0) then err else mret program.

Definition run_parser (fuel : nat) (input : str) : res (list Pipeline * Parser) :=
  parse_program fuel (init_parser input).

(** Enough fuel for any input: every nested call of [list], [command] or [word]
    has consumed a character since the enclosing one ([run_parser_total]). *)
Definition parse_fuel (input : str) : nat := S (length input).
Definition parse_ast (input : str) : res (list Pipeline * Parser) :=
  run_parser (parse_fuel input) input.

Definition sw (t : string) : WordAst := lit_word (lit t).
Arguments sw _%_string.
Example parse_ex1 :
  (λ r, match r with Ok (a, _) => Some a | _ => None end) (parse_ast (lit "if a; then b & fi > x"))
  = Some [[Compound [[Simple [sw "a"] []]; [Simple [sw "b"] []]] [Write (lit ">") (sw "x")]]].
Proof. by vm_compute. Qed.
Example parse_ex2 :
  (λ r, match r with Ok (a, p) => Some (a, p_heredocs p, p_bodies p) | _ => None end)
    (parse_ast (lit "cat <<E | sh" ++ [cLF] ++ lit "rm $(x)" ++ [cLF] ++ lit "E" ++ [cLF]
                ++ lit "f() { echo $(ls); }"))
  = Some ([[Simple [sw "cat"] [HereDoc 0]; Simple [sw "sh"] []];
           [Compound [[Simple [sw "echo"; mkWordAst [Dynamic []] None] []]] []]],
          [lit "rm $(x)" ++ [cLF]], [lit "ls"]).
Proof. by vm_compute. Qed.
