(* ===== verification/ParseFacts.v ===== *)
(** The parser is total and never panics: a weakest-precondition calculus for
    the monad of Parse, the invariant its methods keep, one specification per
    method, and the theorems about [parse_ast]. *)

From S2P Require Import Prelude RustStr Tokenize Parse.

(** ** Weakest preconditions

    [wp m Q p]: run from [p], [m] neither panics nor runs out of fuel, and a
    success satisfies [Q]. A [ParseError] is an allowed outcome. *)

Definition wp {A} (m : M A) (Q : A → Parser → Prop) (p : Parser) : Prop :=
  match m p with
  | Ok (a, p') => Q a p'
  | ParseError => True
  | Panic | OutOfFuel => False
  end.

Lemma wp_ret {A} (a : A) (Q : A → Parser → Prop) p : Q a p → wp (mret a) Q p.
Proof. done. Qed.
Lemma wp_bind {A B} (m : M A) (f : A → M B) (Q : B → Parser → Prop) p :
  wp m (λ a p', wp (f a) Q p') p → wp (m ≫= f) Q p.
Proof. unfold wp, mbind, M_bind. by destruct (m p) as [[a p']| | |]. Qed.
Lemma wp_fmap {A B} (f : A → B) (m : M A) (Q : B → Parser → Prop) p :
  wp m (λ a p', Q (f a) p') p → wp (f <$> m) Q p.
Proof. unfold wp, fmap, M_fmap, mbind, M_bind. by destruct (m p) as [[a p']| | |]. Qed.
Lemma wp_mono {A} (m : M A) (Q Q' : A → Parser → Prop) p :
  wp m Q p → (∀ a p', Q a p' → Q' a p') → wp m Q' p.
Proof. unfold wp. destruct (m p) as [[a p']| | |]; auto. Qed.
Lemma wp_err {A} (Q : A → Parser → Prop) p : wp err Q p.
Proof. done. Qed.
Lemma wp_gets {A} (f : Parser → A) (Q : A → Parser → Prop) p : Q (f p) p → wp (gets f) Q p.
Proof. done. Qed.
Lemma wp_modify f (Q : unit → Parser → Prop) p : Q tt (f p) → wp (modify f) Q p.
Proof. done. Qed.

Lemma wp_ok_or {A} (m : M (option A)) (Q : A → Parser → Prop) p :
  wp m (λ o p', match o with Some a => Q a p' | None => True end) p → wp (ok_or m) Q p.
Proof.
  intros H. apply wp_bind. eapply wp_mono; [exact H|]. intros [a|] p' HQ; [by apply wp_ret|done].
Qed.

Lemma wp_or_else (m1 m2 : M bool) (Q : bool → Parser → Prop) p :
  wp m1 (λ b p', if b then Q true p' else wp m2 Q p') p → wp (or_else m1 m2) Q p.
Proof.
  intros H. apply wp_bind. eapply wp_mono; [exact H|]. by intros [] p' HQ.
Qed.

(** A loop whose turns keep an invariant and, when they go round, consume input. *)
Lemma wp_loop {S R} (Inv : S → Parser → Prop) (body : S → M (S + R)) (Q : R → Parser → Prop) s p :
  Inv s p →
  (∀ s p, Inv s p → wp (body s) (λ x p',
    match x with inl s' => Inv s' p' ∧ remaining p' < remaining p | inr r => Q r p' end) p) →
  wp (loop body s) Q p.
Proof.
  intros Hi Hbody. unfold loop.
  assert (∀ n s p, Inv s p → remaining p < n → wp (loop_go n body s) Q p) as H; [|apply H; auto; lia].
  clear s p Hi. induction n as [|n IH]; intros s p Hi Hn; [lia|]. simpl.
  apply wp_bind. eapply wp_mono; [by apply Hbody|].
  intros [s'|r] p'; [|auto]. intros [Hi' Hlt]. apply IH; [done|lia].
Qed.

(** ** The invariant and what a method may change *)

(** Every pending here-document has its slot. *)
Definition pend_ok (p : Parser) : Prop :=
  Forall (λ d, slot d < length (p_heredocs p)) (p_pending p).

(** A state the methods are called in. *)
Definition wf (p : Parser) : Prop := p_pos p ≤ length (p_s p) ∧ pend_ok p.

(** [p'] comes after [p]: the text is the same, the position moved forward inside
    it, both depths are restored, and here-document slots are only added. *)
Record ext (p p' : Parser) : Prop := mkExt {
  e_s : p_s p' = p_s p;
  e_len : length (p_s p') = length (p_s p);
  e_pos : p_pos p ≤ p_pos p';
  e_end : p_pos p' ≤ length (p_s p');
  e_depth : p_depth p' = p_depth p;
  e_sub : p_subst_depth p' = p_subst_depth p;
  e_here : length (p_heredocs p) ≤ length (p_heredocs p');
  e_pend : pend_ok p' }.

Lemma ext_refl p : wf p → ext p p.
Proof. by intros [? ?]. Qed.
Lemma ext_trans p q r : ext p q → ext q r → ext p r.
Proof. intros [] []. split; congruence || lia || done. Qed.
Lemma ext_wf p q : ext p q → wf q.
Proof. by intros []. Qed.
Lemma ext_set_pos p n : wf p → p_pos p ≤ n → n ≤ length (p_s p) → ext p (set_pos p n).
Proof. by intros [? ?] ? ?. Qed.

#[export] Hint Resolve ext_refl ext_wf : rust.

(** Facts for [lia] from every [ext] in the context. *)
Ltac ext_facts :=
  repeat match goal with
  | H : ext ?p ?q |- _ =>
      lazymatch goal with
      | _ : p_pos p ≤ p_pos q |- _ => fail
      | _ => pose proof (e_pos _ _ H); pose proof (e_len _ _ H); pose proof (e_end _ _ H);
             pose proof (e_here _ _ H)
      end
  | H : wf ?p |- _ =>
      lazymatch goal with
      | _ : p_pos p ≤ length (p_s p) |- _ => fail
      | _ => pose proof (proj1 H)
      end
  end; unfold remaining in *; simpl in *; try lia.

(** [ext] goals by transitivity through the context. *)
Ltac ext_chain :=
  match goal with
  | H : ext ?p ?q |- ext ?p ?q => exact H
  | H : wf ?p |- ext ?p ?p => apply ext_refl; exact H
  | H : ext _ ?p |- ext ?p ?p => apply ext_refl; exact (ext_wf _ _ H)
  | H : ext ?p ?q |- ext ?p ?r => apply (ext_trans p q r H); ext_chain
  end.
Ltac wf_tac :=
  match goal with
  | H : wf ?p |- wf ?p => exact H
  | H : ext _ ?p |- wf ?p => exact (ext_wf _ _ H)
  end.

(** One step of symbolic execution. *)
Ltac wp_step :=
  lazymatch goal with
  | |- wp (mret _) _ _ => apply wp_ret
  | |- wp (_ ≫= _) _ _ => apply wp_bind
  | |- wp (_ <$> _) _ _ => apply wp_fmap
  | |- wp err _ _ => exact I
  | |- wp (gets _) _ _ => apply wp_gets
  | |- wp (modify _) _ _ => apply wp_modify
  | |- wp pos _ _ => apply wp_gets
  | |- wp peek _ _ => apply wp_gets
  | |- wp reserved _ _ => apply wp_gets
  | |- wp (looking_at _) _ _ => apply wp_gets
  | |- wp (ok_or _) _ _ => apply wp_ok_or
  | |- wp (or_else _ _) _ _ => apply wp_or_else
  | |- wp (if true then ?m else _) ?Q ?p => change (wp m Q p)
  | |- wp (if false then _ else ?m) ?Q ?p => change (wp m Q p)
  | |- wp (if ?b then _ else _) _ _ => destruct b eqn:?
  | |- if ?b then _ else _ => destruct b eqn:?
  | |- wp (match ?x with _ => _ end) _ _ => destruct x eqn:?
  end.
Ltac wp_steps := repeat wp_step.

(** Steps up to the next call or branch. *)
Ltac wp_run :=
  repeat lazymatch goal with
  | |- wp (if true then _ else _) _ _ => wp_step
  | |- wp (if false then _ else _) _ _ => wp_step
  | |- wp (if _ then _ else _) _ _ => fail
  | |- if _ then _ else _ => fail
  | |- wp (match _ with _ => _ end) _ _ => fail
  | _ => wp_step
  end.

(** Use the specification [L] of the call in front. *)
Ltac wp_use L := eapply wp_mono; [apply L; try wf_tac|cbv beta].

Tactic Notation "wp_call" tactic3(t) := eapply wp_mono; [t|cbv beta].

(** ** Primitive moves *)

Lemma lookup_remaining p c : p_s p !! p_pos p = Some c → p_pos p < length (p_s p).
Proof. apply lookup_lt_Some. Qed.

Lemma starts_with_length p t :
  wf p → starts_with (rest p) t = true → p_pos p + length t ≤ length (p_s p).
Proof.
  intros [Hp _] [r Hr]%starts_with_true. unfold rest in Hr.
  apply (f_equal length) in Hr. rewrite length_drop, length_app in Hr. lia.
Qed.

Lemma eat_spec t p :
  wf p →
  wp (eat t) (λ b p',
    if b then ext p p' ∧ p_pos p' = p_pos p + length t
    else p' = p ∧ starts_with (rest p) t = false) p.
Proof.
  intros Hp. unfold eat. wp_steps; [|done]. unfold advance. wp_steps.
  apply starts_with_length in Heqb; [|done]. split; [|done]. apply ext_set_pos; [done|lia|lia].
Qed.

Lemma next_spec p : wf p → wp next (λ c p', ext p p' ∧ p_pos p' = S (p_pos p)) p.
Proof.
  intros Hp. unfold next. wp_steps.
  apply lookup_remaining in Heqo. unfold advance. wp_steps.
  split; [|simpl; lia]. apply ext_set_pos; [done|lia|lia].
Qed.

Lemma take_while_length {A} f (s : list A) : length (take_while f s) ≤ length s.
Proof. rewrite <- (take_drop_while f s) at 2. rewrite length_app. lia. Qed.

Lemma skip_while_spec f p :
  wf p →
  wp (skip_while f) (λ _ p', ext p p' ∧ p_pos p' = p_pos p + length (take_while f (rest p))) p.
Proof.
  intros Hp. unfold skip_while. wp_step. split; [|done].
  pose proof (take_while_length f (rest p)) as H. unfold rest in *. rewrite length_drop in H.
  destruct Hp. apply ext_set_pos; [done|lia|lia].
Qed.

Lemma slice_spec from to p :
  from ≤ to → to ≤ length (p_s p) →
  wp (slice_ from to) (λ t p', p' = p ∧ t = slice (p_s p) from to) p.
Proof.
  intros H1 H2. unfold slice_. wp_steps; [done|].
  apply andb_false_iff in Heqb as [H|H]; boolp; lia.
Qed.

Lemma blanks_spec p : wf p → wp blanks (λ _ p', ext p p') p.
Proof.
  intros Hp. unfold blanks. apply (wp_loop (λ _ q, ext p q)); [auto with rust|].
  clear Hp. intros _ q Hq. wp_steps.
  - destruct (p_s q !! p_pos q) eqn:E; [|done]. apply lookup_remaining in E.
    unfold advance. wp_steps.
    assert (ext q (set_pos q (p_pos q + 1))) by (apply ext_set_pos; [wf_tac|lia|lia]).
    split; [ext_chain|ext_facts].
  - wp_use eat_spec. intros [] q'; [|by intros [-> _]]. intros [H E]. wp_steps.
    split; [ext_chain|ext_facts].
Qed.

Lemma blanks_and_comment_spec p : wf p → wp blanks_and_comment (λ _ p', ext p p') p.
Proof.
  intros Hp. unfold blanks_and_comment. wp_step. wp_use blanks_spec. intros _ p1 H1.
  wp_steps; [|done]. wp_use skip_while_spec. intros _ p2 [H2 _]. wp_steps.
  wp_call (apply slice_spec; ext_facts). intros t q [-> _]. wp_steps.
  apply (ext_trans p p2); [ext_chain|]. destruct (ext_wf _ _ H2). by split.
Qed.

(** A changed field that [ext] does not restrict. *)
Lemma ext_same_pos p q :
  wf p → p_s q = p_s p → p_pos q = p_pos p → p_depth q = p_depth p →
  p_subst_depth q = p_subst_depth p → length (p_heredocs p) ≤ length (p_heredocs q) → pend_ok q →
  ext p q.
Proof. intros [? ?] Hs Hpos ? ? ? ?. split; rewrite ?Hs, ?Hpos; done || lia. Qed.

(** ** Here-documents *)

Lemma line_progress q q1 :
  p_pos q < length (p_s q) → ext q q1 →
  p_pos q1 = p_pos q + length (take_while (λ c, negb (c =? cLF)%N) (rest q)) →
  starts_with (rest q1) [cLF] = false → p_pos q < p_pos q1.
Proof.
  intros Hlt He E Hs. unfold rest in *.
  destruct (drop (p_pos q) (p_s q)) as [|c r] eqn:Hr; [apply drop_nil_iff in Hr; lia|].
  simpl in E. destruct (N.eqb_spec c cLF) as [->|]; simpl in E; [|lia].
  rewrite (e_s _ _ He), E, Nat.add_0_r, Hr in Hs. done.
Qed.

Lemma heredoc_body_spec doc p :
  wf p → wp (heredoc_body doc) (λ _ p', ext p p') p.
Proof.
  intros Hp. unfold heredoc_body. apply (wp_loop (λ _ q, ext p q)); [by apply ext_refl|].
  clear Hp. intros body q Hq. wp_step. wp_step. unfold id. wp_step; [done|]. boolp. wp_step. wp_step.
  wp_step. wp_use skip_while_spec. intros _ q1 [H1 E1]. wp_step. wp_step. wp_step.
  wp_call (apply slice_spec; ext_facts). intros line q2 [-> _].
  wp_step. wp_use eat_spec. intros b q3 Hb.
  assert (ext q q3 ∧ p_pos q < p_pos q3) as [H3 Hlt].
  { destruct b; [destruct Hb as [? E]; simpl in E; split; [ext_chain|ext_facts]|].
    destruct Hb as [-> Hb]. split; [done|]. by apply (line_progress q q1). }
  wp_steps; [ext_chain|split; [ext_chain|ext_facts]].
Qed.

Lemma set_heredoc_spec i body p :
  wf p → i < length (p_heredocs p) → wp (set_heredoc i body) (λ _ p', ext p p') p.
Proof.
  intros Hp Hi. unfold set_heredoc. wp_steps; [|boolp; lia].
  apply ext_same_pos; simpl; rewrite ?length_insert; try done.
  destruct Hp as [_ Hp]. unfold pend_ok in *. simpl. by rewrite length_insert.
Qed.

Lemma heredoc_bodies_go_spec docs p :
  wf p → Forall (λ d, slot d < length (p_heredocs p)) docs →
  wp (heredoc_bodies_go docs) (λ _ p', ext p p') p.
Proof.
  intros Hp Hd. revert p Hp Hd. induction docs as [|d docs IH]; intros p Hp Hd; simpl.
  { wp_step. by apply ext_refl. }
  apply Forall_cons in Hd as [Hd Hds]. wp_step. wp_use heredoc_body_spec. intros body p1 H1.
  wp_step. wp_call (apply set_heredoc_spec; [wf_tac|ext_facts]). intros _ p2 H2.
  wp_call (apply IH; [wf_tac|]).
  - eapply Forall_impl; [exact Hds|]. intros x Hx. cbv beta in *. ext_facts.
  - intros _ p3 H3. cbv beta in *. ext_chain.
Qed.

Lemma heredoc_bodies_spec p : wf p → wp heredoc_bodies (λ _ p', ext p p') p.
Proof.
  intros Hp. unfold heredoc_bodies. wp_steps.
  assert (ext p (set_pending p [])) as H.
  { apply ext_same_pos; try done. constructor. }
  wp_call (apply heredoc_bodies_go_spec; [wf_tac|apply Hp]). intros _ p1 H1.
  cbv beta in *. ext_chain.
Qed.

Lemma linebreaks_spec p : wf p → wp linebreaks (λ _ p', ext p p') p.
Proof.
  intros Hp. unfold linebreaks. apply (wp_loop (λ _ q, ext p q)); [by apply ext_refl|].
  clear Hp. intros _ q Hq. wp_step. wp_use blanks_and_comment_spec. intros _ q1 H1.
  wp_step. wp_use eat_spec. intros [] q2; [|intros [-> _]; wp_step; ext_chain].
  intros [H2 E]. simpl in E. wp_step. wp_use heredoc_bodies_spec. intros _ q3 H3. wp_step.
  split; [ext_chain|ext_facts].
Qed.

(** ** Reserved words *)

Lemma reserved_at_spec p w :
  reserved_at p = Some w → wf p →
  w ∈ RESERVED ∧ 0 < length w ∧ p_pos p + length w ≤ length (p_s p).
Proof.
  unfold reserved_at. intros [Hw [Hs _]%andb_true_iff]%find_some Hp.
  apply list_elem_of_In in Hw. split; [done|]. split; [|by apply starts_with_length].
  clear -Hw. revert w Hw. apply Forall_forall. apply (bool_decide_unpack _). by vm_compute.
Qed.

Lemma advance_spec n p :
  wf p → p_pos p + n ≤ length (p_s p) →
  wp (advance n) (λ _ p', ext p p' ∧ p_pos p' = p_pos p + n) p.
Proof. intros. unfold advance. wp_step. split; [|done]. apply ext_set_pos; [done|lia|lia]. Qed.

Lemma expect_word_spec w p :
  wf p → wp (expect_word w) (λ _ p', ext p p') p.
Proof.
  intros Hp. unfold expect_word. wp_step. wp_use linebreaks_spec. intros _ p1 H1.
  wp_steps. boolp. apply reserved_at_spec in Heqb as (_ & _ & ?); [|wf_tac].
  wp_call (apply advance_spec; [wf_tac|done]). intros _ p2 [H2 _]. ext_chain.
Qed.

(** ** Text that does not recurse *)

(** Every loop that eats a character per turn: the common shape. *)
Lemma arithmetic_spec p : wf p → wp arithmetic (λ _ p', ext p p') p.
Proof.
  intros Hp. unfold arithmetic. apply (wp_loop (λ _ q, ext p q)); [by apply ext_refl|].
  clear Hp. intros d q Hq. wp_step. wp_use next_spec. intros c q1 [H1 E1].
  wp_steps; try (split; [ext_chain|ext_facts]).
  wp_use eat_spec. intros [] q2; intros [H2 _]; wp_steps. ext_chain.
Qed.

Lemma code_point_spec r n l p :
  wf p → wp (code_point r n l) (λ _ p', ext p p') p.
Proof.
  intros Hp. unfold code_point. wp_steps.
  set (k := length (take_while _ _)).
  assert (k ≤ length (p_s p) - p_pos p) as Hk.
  { unfold k. etransitivity; [apply take_while_length|]. unfold rest.
    rewrite length_take, length_drop. lia. }
  clearbody k. pose proof (proj1 Hp).
  assert (ext p (set_pos p (p_pos p + k))) as Hext by (by apply ext_set_pos; [|lia..]).
  wp_call (apply slice_spec; simpl; lia). intros t q [-> _]. wp_step. done.
Qed.

Lemma ansi_escape_spec c q p :
  ext q p → p_pos p = S (p_pos q) → wp (ansi_escape c) (λ _ p', ext q p') p.
Proof.
  intros Hp Hpos. unfold ansi_escape. wp_steps; try done;
    try (wp_call (apply code_point_spec; wf_tac); intros x p1 H1; ext_chain).
  unfold goto. wp_steps.
  assert (ext q (set_pos p n)) as Hq by (destruct Hp; split; simpl; try done; lia).
  wp_call (apply code_point_spec; wf_tac). intros x p1 H1. ext_chain.
Qed.

Lemma ansi_c_spec ps p : wf p → wp (ansi_c ps) (λ _ p', ext p p') p.
Proof.
  intros Hp. unfold ansi_c. apply (wp_loop (λ _ q, ext p q)); [by apply ext_refl|].
  clear Hp. intros ps' q Hq. wp_step. wp_use next_spec. intros c q1 [H1 E1]. wp_steps.
  - ext_chain.
  - wp_use next_spec. intros e q2 [H2 E2]. wp_step.
    wp_call (apply (ansi_escape_spec e q1); [ext_chain|lia]). intros r q3 H3. wp_step.
    split; [ext_chain|ext_facts].
  - split; [ext_chain|ext_facts].
Qed.

Lemma braced_spec ps b p : wf p → wp (braced ps b) (λ _ p', ext p p') p.
Proof.
  intros Hp. unfold braced. wp_step. wp_step. wp_step.
  apply (wp_mono _ (λ _ q, ext p q ∧ p_pos p < p_pos q)).
  - apply (wp_loop (λ _ q, ext p q)); [by apply ext_refl|].
    clear Hp. intros d q Hq. wp_step. wp_use next_spec. intros c q1 [H1 E1].
    wp_steps; try (split; [ext_chain|ext_facts]).
    wp_use next_spec. intros e q2 [H2 E2]. wp_step. split; [ext_chain|ext_facts].
  - intros _ q [Hq Hlt]. wp_steps. wp_call (apply slice_spec; ext_facts). intros t q' [-> _].
    by wp_steps.
Qed.

Lemma ext_push_body p b : wf p → ext p (push_body p b).
Proof. intros Hp. apply ext_same_pos; try done. apply Hp. Qed.

Lemma backtick_spec ps p : wf p → wp (backtick ps) (λ _ p', ext p p') p.
Proof.
  intros Hp. unfold backtick. wp_step.
  apply (wp_loop (λ _ q, ext p q)); [by apply ext_refl|].
  clear Hp. intros body q Hq. wp_step. wp_use next_spec. intros c q1 [H1 E1]. wp_step; [|wp_step].
  - wp_steps; [|ext_chain]. apply (ext_trans p q1); [ext_chain|]. apply ext_push_body. wf_tac.
  - wp_step. wp_use next_spec. intros e q2 [H2 E2]. wp_step. split; [ext_chain|ext_facts].
  - wp_step. split; [ext_chain|ext_facts].
Qed.

Lemma single_quoted_spec ps p : wf p → wp (single_quoted ps) (λ _ p', ext p p') p.
Proof.
  intros Hp. unfold single_quoted. apply (wp_loop (λ _ q, ext p q)); [by apply ext_refl|].
  clear Hp. intros ps' q Hq. wp_step. wp_use next_spec. intros c q1 [H1 E1]. wp_step.
  destruct (c =? cSQ)%N; [ext_chain|split; [ext_chain|ext_facts]].
Qed.
