(* ===== verification/ParseTotal.v ===== *)
(** The recursive methods of the parser, one specification each, under the
    assumption that the nested calls meet theirs ([good]); [recs_good] discharges
    it by induction on the depth of recursion, and [run_parser_total] follows: a
    parse ends in success or in [ParseError], and every here-document slot of
    the tree exists. *)

From S2P Require Import Prelude RustStr Tokenize Parse ParseFacts.

(** ** Here-document slots of a tree *)

Definition red_okb (h : nat) (r : Redirect) : bool :=
  match r with HereDoc i => i <? h | _ => true end.

Fixpoint cmd_okb (h : nat) (c : Command) : bool :=
  match c with
  | Simple _ rs => forallb (red_okb h) rs
  | Compound b rs => forallb (forallb (cmd_okb h)) b && forallb (red_okb h) rs
  | For _ _ b rs => forallb (forallb (cmd_okb h)) b && forallb (red_okb h) rs
  end.

Definition reds_ok (p : Parser) (rs : list Redirect) : Prop :=
  forallb (red_okb (length (p_heredocs p))) rs = true.
Definition cmd_ok (p : Parser) (c : Command) : Prop :=
  cmd_okb (length (p_heredocs p)) c = true.
Definition pipe_ok (p : Parser) (cs : Pipeline) : Prop :=
  forallb (cmd_okb (length (p_heredocs p))) cs = true.
Definition body_ok (p : Parser) (b : list Pipeline) : Prop :=
  forallb (forallb (cmd_okb (length (p_heredocs p)))) b = true.

(** Induction over commands, through the two lists a body nests them in. *)
Lemma Command_ind' (P : Command → Prop)
  (HS : ∀ ws rs, P (Simple ws rs))
  (HC : ∀ b rs, Forall (Forall P) b → P (Compound b rs))
  (HF : ∀ v its b rs, Forall (Forall P) b → P (For v its b rs)) : ∀ c, P c.
Proof.
  fix IH 1. intros [ws rs|b rs|v its b rs]; [apply HS|apply HC|apply HF].
  - induction b as [|pl b IHb]; constructor; [|exact IHb].
    induction pl; constructor; [apply IH|assumption].
  - induction b as [|pl b IHb]; constructor; [|exact IHb].
    induction pl; constructor; [apply IH|assumption].
Qed.

Lemma forallb_mono {A} (f g : A → bool) l :
  Forall (λ x, f x = true → g x = true) l → forallb f l = true → forallb g l = true.
Proof.
  induction 1 as [|x l Hx Hl IH]; simpl; [done|]. rewrite !andb_true_iff. intros [??]; auto.
Qed.

Lemma red_okb_mono h h' r : h ≤ h' → red_okb h r = true → red_okb h' r = true.
Proof. destruct r; simpl; try done. rewrite !Nat.ltb_lt. lia. Qed.
Lemma reds_okb_mono h h' rs :
  h ≤ h' → forallb (red_okb h) rs = true → forallb (red_okb h') rs = true.
Proof. intros ?. apply forallb_mono, Forall_true. intros r. by apply red_okb_mono. Qed.

Lemma cmd_okb_mono h h' c : h ≤ h' → cmd_okb h c = true → cmd_okb h' c = true.
Proof.
  intros Hh. induction c as [ws rs|b rs IH|v its b rs IH] using Command_ind'; simpl;
    [by apply reds_okb_mono| |]; rewrite !andb_true_iff; (intros [Hb Hr]; split; [|by eapply reds_okb_mono]);
    (eapply forallb_mono; [|exact Hb]; eapply Forall_impl; [exact IH|]; intros pl; apply forallb_mono).
Qed.

Section mono.
Context (p q : Parser) (H : ext p q).

Lemma reds_ok_mono rs : reds_ok p rs → reds_ok q rs.
Proof. apply reds_okb_mono, H. Qed.
Lemma cmd_ok_mono c : cmd_ok p c → cmd_ok q c.
Proof. apply cmd_okb_mono, H. Qed.
Lemma pipe_ok_mono cs : pipe_ok p cs → pipe_ok q cs.
Proof. apply forallb_mono, Forall_true. apply cmd_ok_mono. Qed.
Lemma body_ok_mono b : body_ok p b → body_ok q b.
Proof. apply forallb_mono, Forall_true. apply pipe_ok_mono. Qed.
End mono.

Lemma reds_ok_snoc p rs r : reds_ok p rs → red_okb (length (p_heredocs p)) r = true → reds_ok p (rs ++ [r]).
Proof. unfold reds_ok. intros H1 H2. by rewrite forallb_app, H1; simpl; rewrite H2. Qed.
Lemma pipe_ok_snoc p cs c : pipe_ok p cs → cmd_ok p c → pipe_ok p (cs ++ [c]).
Proof. unfold pipe_ok, cmd_ok. intros H1 H2. by rewrite forallb_app, H1; simpl; rewrite H2. Qed.
Lemma body_ok_snoc p b cs : body_ok p b → pipe_ok p cs → body_ok p (b ++ [cs]).
Proof. unfold body_ok, pipe_ok. intros H1 H2. by rewrite forallb_app, H1; simpl; rewrite H2. Qed.

Lemma reds_ok_nil p : reds_ok p [].
Proof. done. Qed.
Lemma pipe_ok_nil p : pipe_ok p [].
Proof. done. Qed.
Lemma body_ok_nil p : body_ok p [].
Proof. done. Qed.
Lemma cmd_ok_simple p ws rs : reds_ok p rs → cmd_ok p (Simple ws rs).
Proof. done. Qed.
Lemma cmd_ok_compound p b rs : body_ok p b → reds_ok p rs → cmd_ok p (Compound b rs).
Proof. intros H1 H2. by apply andb_true_iff. Qed.
Lemma cmd_ok_for p v its b rs : body_ok p b → reds_ok p rs → cmd_ok p (For v its b rs).
Proof. intros H1 H2. by apply andb_true_iff. Qed.

#[export] Hint Resolve reds_ok_nil pipe_ok_nil body_ok_nil cmd_ok_simple cmd_ok_compound
  cmd_ok_for reds_ok_snoc pipe_ok_snoc body_ok_snoc : rust.

(** Trees of an earlier state are trees of a later one. *)
Ltac ok_tac :=
  lazymatch goal with
  | |- reds_ok _ _ => first [assumption|eapply reds_ok_mono; [|eassumption]; ext_chain]
  | |- cmd_ok _ _ => first [assumption|eapply cmd_ok_mono; [|eassumption]; ext_chain]
  | |- pipe_ok _ _ => first [assumption|eapply pipe_ok_mono; [|eassumption]; ext_chain]
  | |- body_ok _ _ => first [assumption|eapply body_ok_mono; [|eassumption]; ext_chain]
  end.
#[export] Hint Extern 1 (reds_ok _ _) => ok_tac : rust.
#[export] Hint Extern 1 (cmd_ok _ _) => ok_tac : rust.
#[export] Hint Extern 1 (pipe_ok _ _) => ok_tac : rust.
#[export] Hint Extern 1 (body_ok _ _) => ok_tac : rust.
#[export] Hint Extern 1 (ext _ _) => ext_chain : rust.
#[export] Hint Extern 1 (wf _) => wf_tac : rust.

(** ** Depth counters *)

Lemma ext_subst_enter p : wf p → wf (set_subst_depth p (S (p_subst_depth p))).
Proof. done. Qed.
Lemma ext_subst_leave p q :
  ext (set_subst_depth p (S (p_subst_depth p))) q → ext p (set_subst_depth q (p_subst_depth p)).
Proof. intros []. by split. Qed.
Lemma ext_depth_leave p q :
  ext (set_depth p (S (p_depth p))) q → ext p (set_depth q (p_depth p)).
Proof. intros []. by split. Qed.

(** ** The contract of the nested calls *)

Definition list_post (p : Parser) (out : list Pipeline) (p' : Parser) : Prop :=
  ext p p' ∧ body_ok p' out.
(** A command consumes input. *)
Definition command_post (p : Parser) (c : Command) (p' : Parser) : Prop :=
  ext p p' ∧ p_pos p < p_pos p' ∧ cmd_ok p' c.
(** So does a word that is there. *)
Definition word_post (p : Parser) (o : option WordAst) (p' : Parser) : Prop :=
  ext p p' ∧ (is_Some o → p_pos p < p_pos p').

Record good (n : nat) (R : rec) : Prop := mkGood {
  g_list : ∀ out p, wf p → remaining p < n → body_ok p out → wp (r_list R out) (list_post p) p;
  g_command : ∀ p, wf p → remaining p < n → wp (r_command R) (command_post p) p;
  g_word : ∀ p, wf p → remaining p < n → wp (r_word R) (word_post p) p }.

Section specs.
Context (n : nat) (R : rec) (G : good n R).

(** What a method may assume of its start: the nested calls it makes after
consuming a character are within [n]. *)
Definition fits (p : Parser) : Prop := wf p ∧ remaining p ≤ n.

Lemma substitution_spec p :
wf p → remaining p < n → wp (substitution R) (λ _ p', ext p p') p.
Proof.
intros Hp Hn. unfold substitution. wp_run.
wp_call (apply (g_list n R G); [by apply ext_subst_enter|done|auto with rust]).
intros out q [Hq _]. wp_run. wp_use eat_spec. intros b q1 Hb.
wp_step; [wp_steps|]. destruct b; [|done]. destruct Hb as [H1 E1].
simpl in E1. wp_run.
assert (ext (set_subst_depth p (S (p_subst_depth p))) q1) as Hq1 by ext_chain.
pose proof (ext_subst_leave _ _ Hq1) as Hl. pose proof (e_sub _ _ Hq1) as Hs. simpl in Hs.
rewrite Hs. wp_run. wp_step; [|wp_steps; done]. wp_run.
wp_call (apply slice_spec; simpl; ext_facts). intros t q2 [-> _]. wp_step.
eapply ext_trans; [exact Hl|]. apply ext_push_body. wf_tac.
Qed.

Lemma dollar_common_spec ps b p :
wf p → remaining p ≤ n → wp (dollar_common R ps b) (λ _ p', ext p p') p.
Proof.
intros Hp Hn. unfold dollar_common.
wp_run. wp_use eat_spec. intros [] q1; [intros [H1 E1]|intros [-> _]].
{ wp_run. wp_use arithmetic_spec. intros _ q2 H2. wp_step. ext_chain. }
wp_run. wp_use eat_spec. intros [] q1; [intros [H1 E1]|intros [-> _]].
{ simpl in E1. wp_run. wp_call (apply substitution_spec; [wf_tac|ext_facts]).
intros _ q2 H2. wp_step. ext_chain. }
wp_run. wp_use eat_spec. intros [] q1; [intros [H1 E1]|intros [-> _]].
{ wp_use braced_spec. intros ps' q2 H2. ext_chain. }
wp_run. wp_use skip_while_spec. intros _ q1 [H1 E1].
wp_run. wp_call (apply slice_spec; ext_facts). intros t q2 [-> _].
wp_step; [wp_steps; ext_chain|]. unfold goto. wp_run.
assert (ext p (set_pos q1 (p_pos p))) as H2.
{ destruct H1; split; simpl; done || lia. }
wp_run. simpl. wp_step; [|wp_step; ext_chain]. wp_step; [|wp_step; ext_chain].
apply lookup_lt_Some in Heqo. wp_step.
wp_call (apply advance_spec; [wf_tac|simpl; lia]). intros _ q2 [H3 _]. wp_step. ext_chain.
Qed.

Lemma double_quoted_spec ps p :
wf p → remaining p ≤ n → wp (double_quoted R ps) (λ _ p', ext p p') p.
Proof.
intros Hp Hn. unfold double_quoted. apply (wp_loop (λ _ q, ext p q)); [by apply ext_refl|].
intros ps' q Hq. wp_run. wp_use next_spec. intros c q1 [H1 E1].
wp_step; [wp_step; ext_chain|]. wp_step.
{ wp_run. wp_use next_spec. intros e q2 [H2 E2]. wp_step. split; [ext_chain|ext_facts]. }
wp_step.
{ wp_run. wp_call (apply dollar_common_spec; [wf_tac|ext_facts]). intros x q2 H2.
split; [ext_chain|ext_facts]. }
wp_step; [|wp_step; split; [ext_chain|ext_facts]].
wp_run. wp_use backtick_spec. intros x q2 H2. split; [ext_chain|ext_facts].
Qed.

Lemma dollar_spec ps b p :
wf p → remaining p ≤ n → wp (dollar R ps b) (λ _ p', ext p p') p.
Proof.
intros Hp Hn. unfold dollar.
assert (∀ t, wp (if b then mret false else eat t) (λ _ p', ext p p') p) as Heat.
{ intros t. destruct b; [wp_step; ext_chain|]. wp_use eat_spec. intros [] q; [by intros []|].
intros [-> _]. ext_chain. }
wp_step. eapply wp_mono; [apply Heat|]. intros [] q H1; cbv beta in H1.
{ wp_use ansi_c_spec. intros. ext_chain. }
wp_step. assert (remaining q ≤ n) by ext_facts.
assert (wp (if b then mret false else eat [cDQ]) (λ _ p', ext p p') q) as Heat'.
{ destruct b; [wp_step; ext_chain|]. wp_use eat_spec. intros [] q'; [intros []; ext_chain|].
intros [-> _]. ext_chain. }
eapply wp_mono; [apply Heat'|]. intros [] q2 H2; cbv beta in H2.
{ wp_call (apply double_quoted_spec; [wf_tac|ext_facts]). intros. ext_chain. }
wp_call (apply dollar_common_spec; [wf_tac|ext_facts]). intros. ext_chain.
Qed.

Lemma array_spec ps p :
wf p → remaining p < n → wp (array R ps) (λ _ p', ext p p') p.
Proof.
intros Hp Hn. unfold array. apply (wp_loop (λ _ q, ext p q)); [by apply ext_refl|].
intros [ps' es] q Hq. wp_run. wp_use linebreaks_spec. intros _ q1 H1.
wp_run. wp_use eat_spec. intros [] q2; [intros [H2 _]; wp_step; ext_chain|intros [-> _]].
wp_run. wp_call (apply (g_word n R G); [wf_tac|ext_facts]).
intros [w|] q2 [H2 Hw]; [|done]. cbv beta. wp_step. specialize (Hw ltac:(done)).
split; [ext_chain|ext_facts].
Qed.

Lemma word_openings_spec ops ps p :
wf p → remaining p ≤ n → Forall (λ op, 0 < length op) ops →
wp (word_openings R ops ps) (λ ps' p', ext p p' ∧ (ps = [] → ps' ≠ [] → p_pos p < p_pos p')) p.
Proof.
intros Hp Hn Hops. revert ps p Hp Hn.
induction Hops as [|op ops Hop Hops IH]; intros ps p Hp Hn; simpl.
{ wp_step. split; [ext_chain|done]. }
wp_step. destruct ps as [|x ps].
- wp_use eat_spec. intros [] q; [intros [H1 E1]|intros [-> _]].
+ wp_run. wp_call (apply substitution_spec; [wf_tac|ext_facts]). intros _ q2 H2.
  wp_call (apply IH; [wf_tac|ext_facts]). intros ps' q3 [H3 _]. cbv beta in *.
  split; [ext_chain|ext_facts].
+ apply IH; done.
- wp_run. wp_call (apply IH; done). intros ps' q3 [H3 _]. done.
Qed.

Lemma word_parts_spec ps p :
wf p → remaining p ≤ n →
wp (word_parts R ps) (λ ps' p', ext p p' ∧ (ps = [] → ps' ≠ [] → p_pos p < p_pos p')) p.
Proof.
intros Hp Hn. unfold word_parts.
apply (wp_loop (λ ps' q, ext p q ∧ (ps = [] → ps' ≠ [] → p_pos p < p_pos q)));
[split; [auto with rust|by intros ->]|].
intros ps' q [Hq Hs]. wp_run. wp_step; [|wp_step; done]. wp_step; [wp_step; done|].
apply lookup_remaining in Heqo. wp_step.
wp_call (apply advance_spec; [wf_tac|lia]). intros _ q1 [H1 E1].
assert (∀ x q2, ext q1 q2 → (ext p q2 ∧ (ps = [] → x ≠ @nil Part → p_pos p < p_pos q2)) ∧
              remaining q2 < remaining q) as Hend.
{ intros x q2 H2. split; [split; [ext_chain|ext_facts]|ext_facts]. }
assert (∀ m : M (list Part), wp m (λ _ q2, ext q1 q2) q1 →
wp (inl <$> m) (λ (x : list Part + list Part) p', match x with
  | inl s' => (ext p p' ∧ (ps = [] → s' ≠ [] → p_pos p < p_pos p')) ∧ remaining p' < remaining q
  | inr r => ext p p' ∧ (ps = [] → r ≠ [] → p_pos p < p_pos p') end) q1) as Hsub.
{ intros m Hm. wp_step. eapply wp_mono; [exact Hm|]. intros x q2 H2. by apply Hend. }
assert (remaining q1 ≤ n) by ext_facts.
wp_step; [|wp_step; [|wp_step; [|wp_step; [|wp_step]]]].
- wp_run. wp_use eat_spec. intros [] q2; [intros [H2 _]; wp_step; apply Hend; ext_chain|].
intros [-> _]. wp_run. wp_step; [|wp_step; apply Hend; ext_chain].
apply lookup_remaining in Heqo0. wp_step.
wp_call (apply advance_spec; [wf_tac|lia]). intros _ q2 [H2 _]. wp_step. apply Hend. ext_chain.
- apply Hsub, single_quoted_spec. wf_tac.
- apply Hsub, double_quoted_spec; [wf_tac|done].
- apply Hsub, dollar_spec; [wf_tac|done].
- apply Hsub, backtick_spec. wf_tac.
- wp_step. apply Hend. ext_chain.
Qed.

Lemma word_tail_spec ps name p :
wf p → remaining p ≤ n →
wp (word_tail R ps name) (λ o p', ext p p' ∧ (ps = [] → is_Some o → p_pos p < p_pos p')) p.
Proof.
intros Hp Hn. unfold word_tail. wp_run.
wp_call (apply word_openings_spec; [done..|repeat constructor; simpl; lia]).
intros ps1 q1 [H1 S1]. wp_run. wp_call (apply word_parts_spec; [wf_tac|ext_facts]).
intros ps2 q2 [H2 S2]. wp_run. split; [ext_chain|]. intros -> Hs.
assert (ps2 ≠ []) as Hne by (intros ->; by destruct Hs).
pose proof (e_pos _ _ H1). pose proof (e_pos _ _ H2).
destruct ps1 as [|x ps1]; [specialize (S2 eq_refl Hne); lia|].
specialize (S1 eq_refl ltac:(done)); lia.
Qed.

Lemma word_spec p : wf p → remaining p ≤ n → wp (word R) (word_post p) p.
Proof.
intros Hp Hn. unfold word. wp_run. wp_use skip_while_spec. intros _ q [Hq Eq].
wp_run. wp_call (apply slice_spec; ext_facts). intros name q' [-> _]. wp_run.
set (eq := if starts_with (rest q) (lit "+=") then lit "+=" else lit "=").
assert (wp (if is_name name then eat eq else mret false)
(λ b q1, if b : bool then ext q q1 ∧ p_pos q1 = p_pos q + length eq else q1 = q) q) as Heq.
{ wp_step; [|by wp_run]. wp_use eat_spec. by intros [] q1 []. }
eapply wp_mono; [exact Heq|]. cbv beta. intros [] q1.
- intros [H1 E1]. assert (0 < length eq) by (unfold eq; destruct (starts_with _ _); vm_compute; lia).
wp_run. wp_use eat_spec. intros b q2 Hb.
assert (ext q1 q2) as H2 by (destruct b; [apply Hb|destruct Hb as [-> _]; ext_chain]).
destruct b; wp_run.
+ wp_call (apply array_spec; [wf_tac|ext_facts]). intros x q3 H3. wp_run.
  split; [ext_chain|intros; ext_facts].
+ wp_call (apply word_tail_spec; [wf_tac|ext_facts]). intros o q3 [H3 _].
  split; [ext_chain|intros; ext_facts].
- intros ->. unfold goto. wp_run.
assert (ext p (set_pos q (p_pos p))) as H2 by (destruct Hq; split; simpl; done || lia).
wp_call (apply word_tail_spec; [wf_tac|ext_facts]). intros o q1 [H1 Hs].
split; [ext_chain|]. intros Ho. by apply Hs.
Qed.

Definition redirect_post (p : Parser) (o : option Redirect) (p' : Parser) : Prop :=
ext p p' ∧ ∀ r, o = Some r →
p_pos p < p_pos p' ∧ red_okb (length (p_heredocs p')) r = true.

Lemma redirect_none p q : ext p q → redirect_post p None (set_pos q (p_pos p)).
Proof. intros Hq. split; [|done]. destruct Hq; split; simpl; done || lia. Qed.

Lemma redirect_ops_pos p op :
List.find (starts_with (rest p)) REDIRECT_OPS = Some op → wf p →
0 < length op ∧ p_pos p + length op ≤ length (p_s p).
Proof.
intros [Hop Hs]%find_some Hp. split; [|by apply starts_with_length].
apply list_elem_of_In in Hop. clear -Hop. revert op Hop. apply Forall_forall.
apply (bool_decide_unpack _). by vm_compute.
Qed.

(** Opening a here-document: a new slot and its pending entry. *)
Lemma ext_open_heredoc p d b :
wf p → ext p (set_pending (set_heredocs p (p_heredocs p ++ [[]]))
              (p_pending p ++ [mkPending d b (length (p_heredocs p))])).
Proof.
intros Hp. apply ext_same_pos; simpl; rewrite ?length_app; simpl; try done; [lia|].
apply Forall_app. split; simpl; rewrite length_app; simpl.
- eapply Forall_impl; [apply Hp|]. intros x Hx. cbv beta in *. lia.
- constructor; [simpl; lia|constructor].
Qed.

Lemma redirect_spec p : wf p → remaining p ≤ n → wp (redirect R) (redirect_post p) p.
Proof.
intros Hp Hn. unfold redirect. wp_run. wp_use skip_while_spec. intros _ q [Hq Eq].
wp_run. wp_step; wp_run; [unfold goto; wp_run; by apply redirect_none|].
wp_step; wp_run; [unfold goto; wp_run; by apply redirect_none|].
wp_step; [|unfold goto; wp_run; by apply redirect_none]. wp_run.
wp_step; [unfold goto; wp_run; by apply redirect_none|]. wp_run.
apply redirect_ops_pos in Heqo as [Hl Ho]; [|wf_tac].
wp_call (apply advance_spec; [wf_tac|done]). intros _ q1 [H1 E1]. wp_run.
wp_use blanks_spec. intros _ q2 H2. wp_run. wp_call (apply word_spec; [wf_tac|ext_facts]).
intros [w|] q3 [H3 _]; [|done]. cbv beta.
assert (∀ r, red_okb (length (p_heredocs q3)) r = true → redirect_post p (Some r) q3) as Hend.
{ intros r Hr. split; [ext_chain|]. intros ? [= <-]. split; [ext_facts|done]. }
wp_step; wp_run.
- pose proof (ext_open_heredoc q3 (plain_text (parts w)) (l == lit "<<-") (ext_wf _ _ H3)) as H4.
split; [ext_chain|]. intros r [= <-]. split; [ext_facts|].
simpl. rewrite length_app. simpl. apply Nat.ltb_lt. lia.
- wp_step; wp_run; [by apply Hend|]. wp_step; wp_run; [by apply Hend|].
wp_step; wp_run; by apply Hend.
Qed.

Lemma redirects_spec p :
wf p → remaining p ≤ n → wp (redirects_ R) (λ rs p', ext p p' ∧ reds_ok p' rs) p.
Proof.
intros Hp Hn. unfold redirects_.
apply (wp_loop (λ rs q, ext p q ∧ reds_ok q rs)); [auto with rust|].
intros rs q [Hq Hrs]. wp_run. wp_use blanks_spec. intros _ q1 H1. wp_run.
wp_call (apply redirect_spec; [wf_tac|ext_facts]). intros [r|] q2 [H2 Hr]; wp_run.
- destruct (Hr r eq_refl). split; [|ext_facts]. auto 6 with rust.
- auto 6 with rust.
Qed.

Lemma function_body_spec p :
wf p → remaining p < n → wp (function_body R) (command_post p) p.
Proof.
intros Hp Hn. unfold function_body. wp_run. wp_use linebreaks_spec. intros _ q Hq.
wp_call (apply (g_command n R G); [wf_tac|ext_facts]). intros c q1 (H1 & Hs & Hc).
split; [ext_chain|]. split; [ext_facts|done].
Qed.

Lemma simple_spec p : wf p → remaining p ≤ n → wp (simple R) (command_post p) p.
Proof.
intros Hp Hn. unfold simple.
apply (wp_loop (λ st q, ext p q ∧ reds_ok q st.2 ∧ (st ≠ ([], []) → p_pos p < p_pos q)));
[split_and!; [ext_chain|done|done]|].
intros [ws rs] q (Hq & Hrs & Hs). wp_run. wp_use blanks_and_comment_spec. intros _ q1 H1.
wp_run. wp_call (apply redirect_spec; [wf_tac|ext_facts]). intros [r|] q2 [H2 Hr]; wp_run.
{ destruct (Hr r eq_refl). simpl in *. split; [|ext_facts].
split; [auto with rust|]. split; [auto with rust|]. intros _. ext_facts. }
wp_call (apply word_spec; [wf_tac|ext_facts]). intros [w|] q3 [H3 Hw]; cbv beta.
2: { assert ((ws, rs) ≠ ([], []) → command_post p (Simple ws rs) q3) as Hend.
   { intros Hne. split; [auto with rust|]. specialize (Hs Hne). split; [ext_facts|].
     apply cmd_ok_simple. simpl in Hrs. auto with rust. }
   wp_step; [wp_step; [wp_run; done|]|]; wp_run; by apply Hend. }
specialize (Hw ltac:(done)).
assert (∀ q4, ext q3 q4 → (ext p q4 ∧ reds_ok q4 (ws ++ [w], rs).2 ∧
((ws ++ [w], rs) ≠ ([], []) → p_pos p < p_pos q4)) ∧ remaining q4 < remaining q) as Hend.
{ intros q4 H4. simpl in *. split; [|ext_facts].
split; [auto with rust|]. split; [auto with rust|]. intros _. ext_facts. }
wp_step; wp_run; [|apply Hend; auto with rust].
wp_use blanks_spec. intros _ q4 H4. wp_run. wp_use eat_spec.
intros [] q5; [intros [H5 _]|intros [-> _]; unfold goto; wp_run; apply Hend].
2: { destruct H4; split; simpl; done || lia. }
wp_run. wp_use blanks_spec. intros _ q6 H6. wp_run. wp_use eat_spec.
intros [] q7; [intros [H7 _]|by intros [-> _]; wp_run]. wp_run.
wp_call (apply function_body_spec; [wf_tac|ext_facts]). intros c q8 (H8 & E8 & Hc).
split; [ext_chain|]. split; [ext_facts|done].
Qed.

(** A list of commands, entered within reach of the nested calls. *)
Lemma r_list_spec p q out :
ext p q → remaining q < n → body_ok q out → wp (r_list R out) (list_post p) q.
Proof.
intros Hq Hn Hb. wp_call (apply (g_list n R G); [wf_tac|done|done]).
intros out' q' [H1 H2]. split; [ext_chain|done].
Qed.

(** [expect_word], then a nested list or the end. *)
Ltac expect := wp_run; wp_use expect_word_spec; intros _ ? ?; wp_run.
Ltac sublist :=
wp_run; wp_call (eapply r_list_spec; [apply ext_refl; wf_tac|ext_facts|auto 8 with rust]);
intros ? ? [? ?]; wp_run.
Ltac eats := wp_run; wp_use eat_spec; intros [] ?; [intros [? ?]|intros [-> _]]; cbn [negb]; wp_run.
Ltac adv := wp_run; wp_call (apply advance_spec; [wf_tac|simpl; ext_facts]);
intros _ ? [? ?]; wp_run.
Ltac word_ok := wp_run; wp_call (apply word_spec; [wf_tac|ext_facts]);
intros [?|] ? [? Hword]; [specialize (Hword ltac:(done))|try done]; wp_run.
Ltac spaces := wp_run; first [wp_use blanks_and_comment_spec | wp_use blanks_spec | wp_use linebreaks_spec];
intros _ ? ?; wp_run.

(** What the clauses of [compound_of] promise. *)
Definition body_post (p : Parser) (b : list Pipeline) (p' : Parser) : Prop :=
ext p p' ∧ p_pos p < p_pos p' ∧ body_ok p' b.

Lemma compound_of_spec m p :
wp m (body_post p) p → remaining p ≤ n → wp (compound_of R m) (command_post p) p.
Proof.
intros Hm Hn. unfold compound_of. wp_run. eapply wp_mono; [exact Hm|].
intros b q (Hq & Hs & Hb). wp_run. wp_call (apply redirects_spec; [wf_tac|ext_facts]).
intros rs q1 [H1 Hrs]. wp_run. split; [ext_chain|]. split; [ext_facts|auto with rust].
Qed.

Lemma reserved_bound p w :
reserved_at p = Some w → wf p → 0 < length w ∧ p_pos p + length w ≤ length (p_s p).
Proof. intros H Hp. apply reserved_at_spec in H as (_ & ? & ?); done. Qed.

Lemma if_clause_spec p :
wf p → remaining p ≤ n → reserved_at p = Some (lit "if") → wp (if_clause R) (body_post p) p.
Proof.
intros Hp Hn Hr. apply reserved_bound in Hr as [Hl Hlen]; [|done].
unfold if_clause. adv. sublist. expect. sublist.
eapply (wp_mono _ (λ b q, ext p q ∧ p_pos p < p_pos q ∧ body_ok q b)).
- apply (wp_loop (λ b q, ext p q ∧ p_pos p < p_pos q ∧ body_ok q b)).
{ split; [ext_chain|split; [ext_facts|done]]. }
intros b q (Hq & Hs & Hb). spaces. wp_step.
+ boolp. apply reserved_bound in Heqb0 as [??]; [|wf_tac].
  adv. sublist. expect. sublist. split; [|ext_facts].
  split; [ext_chain|split; [ext_facts|done]].
+ wp_step; wp_run.
  * boolp. apply reserved_bound in Heqb1 as [??]; [|wf_tac].
    adv. sublist. split; [|ext_facts]. split; [ext_chain|split; [ext_facts|done]].
  * split; [ext_chain|split; [ext_facts|auto with rust]].
- intros b q (Hq & Hs & Hb). expect. split; [ext_chain|split; [ext_facts|auto with rust]].
Qed.

(** The items of a [for], or the words of a [case] arm. *)
Lemma for_items_spec p (its : list WordAst) :
wf p → remaining p ≤ n →
wp (loop (λ items : list WordAst,
    blanks_and_comment ;;
    w ← word R;
    mret (match w with Some w => inl (items ++ [w]) | None => inr items end)) its)
(λ _ p', ext p p') p.
Proof.
intros Hp Hn. apply (wp_loop (λ _ q, ext p q)); [ext_chain|].
intros its' q Hq. spaces. wp_call (apply word_spec; [wf_tac|ext_facts]).
intros [w|] q1 [H1 Hw]; wp_run; [|ext_chain].
specialize (Hw ltac:(done)). split; [ext_chain|ext_facts].
Qed.

Lemma opt_eat_spec t p : wf p → wp (eat t) (λ _ p', ext p p') p.
Proof.
intros Hp. wp_use eat_spec. intros [] q; [by intros []|intros [-> _]; ext_chain].
Qed.
Ltac opt_eat := wp_run; wp_use opt_eat_spec; intros _ ? ?.

(** The [do .. done] tail the two kinds of [for] share. *)
Lemma do_done_spec (k : list Pipeline → list Redirect → Command) p :
wf p → remaining p < n →
(∀ q b rs, body_ok q b → reds_ok q rs → cmd_ok q (k b rs)) →
wp (expect_word (lit "do") ;;
  body ← r_list R [];
  expect_word (lit "done") ;;
  rs ← redirects_ R;
  mret (k body rs)) (λ c p', ext p p' ∧ cmd_ok p' c) p.
Proof.
intros Hp Hn Hk. expect. sublist. expect.
wp_call (apply redirects_spec; [wf_tac|ext_facts]). intros rs q [Hq Hrs]. wp_run.
split; [ext_chain|]. apply Hk; auto with rust.
Qed.

Lemma for_clause_spec p :
wf p → remaining p < n → wp (for_clause R) (λ c p', ext p p' ∧ cmd_ok p' c) p.
Proof.
intros Hp Hn. unfold for_clause. spaces. eats.
- wp_use arithmetic_spec. intros _ ? ?. spaces. opt_eat.
wp_call (apply (do_done_spec Compound); [wf_tac|ext_facts|auto with rust]).
intros c q [Hq Hc]. split; [ext_chain|done].
- wp_use skip_while_spec. intros _ q1 [H1 E1]. wp_run.
wp_call (apply slice_spec; ext_facts). intros t ? [-> _]. wp_step; [done|]. spaces.
match goal with |- wp _ _ ?q0 => set (q2 := q0) in * end.
assert (wp (if reserved_at q2 == Some (lit "in") then
    advance (length (lit "in")) ;;
    loop (λ items : list WordAst,
      blanks_and_comment ;;
      w ← word R;
      mret (match w with Some w => inl (items ++ [w]) | None => inr items end)) []
  else mret []) (λ _ p', ext q2 p') q2) as Hitems.
{ wp_step; [|wp_run; ext_chain]. boolp. apply reserved_bound in Heqb0 as [??]; [|wf_tac].
  adv. wp_call (apply for_items_spec; [wf_tac|ext_facts]). intros. ext_chain. }
eapply wp_mono; [exact Hitems|]. cbv beta. intros its q3 H3. spaces. opt_eat.
wp_call (apply (do_done_spec (For t its)); [wf_tac|ext_facts|auto with rust]).
intros c q [Hq Hc]. split; [ext_chain|done].
Qed.

Lemma case_patterns_spec p :
wf p → remaining p ≤ n →
wp (case_patterns R) (λ _ p', ext p p' ∧ p_pos p < p_pos p') p.
Proof.
intros Hp Hn. unfold case_patterns. apply (wp_loop (λ _ q, ext p q)); [ext_chain|].
intros _ q Hq. spaces. word_ok. spaces. eats; (split; [ext_chain|ext_facts]).
Qed.

Lemma case_clause_spec p :
wf p → remaining p ≤ n → reserved_at p = Some (lit "case") →
wp (case_clause R) (body_post p) p.
Proof.
intros Hp Hn Hr. apply reserved_bound in Hr as [Hl Hlen]; [|done].
unfold case_clause. adv. spaces. word_ok. expect.
apply (wp_loop (λ b q, ext p q ∧ p_pos p < p_pos q ∧ body_ok q b)).
{ split; [ext_chain|split; [ext_facts|done]]. }
intros b q (Hq & Hs & Hb). spaces. wp_step.
- boolp. apply reserved_bound in Heqb0 as [??]; [|wf_tac].
adv. split; [ext_chain|split; [ext_facts|auto with rust]].
- opt_eat. wp_run. wp_call (apply case_patterns_spec; [wf_tac|ext_facts]). intros _ ? [? ?]. wp_run.
eats. sublist.
wp_use eat_spec. intros [] ?; [intros [? ?]|intros [-> _]]; wp_run;
  [|wp_use eat_spec; intros [] ?; [intros [? ?]|intros [-> _]]; wp_run;
    [|opt_eat; wp_run]];
  (split; [split; [ext_chain|split; [ext_facts|auto with rust]]|ext_facts]).
Qed.

Lemma test_ops_pos p op :
List.find (starts_with (rest p)) TEST_OPS = Some op → wf p →
0 < length op ∧ p_pos p + length op ≤ length (p_s p).
Proof.
intros [Hop Hs]%find_some Hp. split; [|by apply starts_with_length].
apply list_elem_of_In in Hop. clear -Hop. revert op Hop. apply Forall_forall.
apply (bool_decide_unpack _). by vm_compute.
Qed.

Lemma test_clause_spec p :
wf p → remaining p ≤ n → reserved_at p = Some (lit "[[") → wp (test_clause R) (command_post p) p.
Proof.
intros Hp Hn Hr. apply reserved_bound in Hr as [Hl Hlen]; [|done].
unfold test_clause. adv.
match goal with |- wp _ _ ?q0 => eapply (wp_mono _ (λ _ q', ext q0 q')) end.
- apply (wp_loop (λ _ q', ext p' q')); [ext_chain|].
intros ws q Hq. spaces. eats; [ext_chain|].
wp_step; wp_run.
+ apply test_ops_pos in Heqo as [??]; [|wf_tac]. adv. split; [ext_chain|ext_facts].
+ word_ok. split; [ext_chain|ext_facts].
- intros ws q Hq. wp_run. wp_call (apply redirects_spec; [wf_tac|ext_facts]).
intros rs q1 [H1 Hrs]. wp_run. split; [ext_chain|split; [ext_facts|auto with rust]].
Qed.

(** A command met after some input of its own. *)
Lemma command_post_later p q c p' :
ext p q → command_post q c p' → command_post p c p'.
Proof. intros Hq (H & Hs & Hc). split; [ext_chain|]. split; [ext_facts|done]. Qed.

Lemma compound_later m p q :
ext p q → p_pos p < p_pos q → wp m (list_post q) q → remaining q ≤ n →
wp (compound_of R m) (command_post p) q.
Proof.
intros Hq Hs Hm Hn. unfold compound_of. wp_run. eapply wp_mono; [exact Hm|].
intros b q1 [H1 Hb]. wp_run. wp_call (apply redirects_spec; [wf_tac|ext_facts]).
intros rs q2 [H2 Hrs]. wp_run. split; [ext_chain|]. split; [ext_facts|auto with rust].
Qed.

Lemma command_default_spec p :
wf p → remaining p ≤ n → wp (command_default R) (command_post p) p.
Proof.
intros Hp Hn. unfold command_default. eats; [|eats].
- apply compound_later; [ext_chain|ext_facts| |ext_facts].
wp_run. wp_use arithmetic_spec. intros _ q Hq. wp_run. split; [ext_chain|done].
- apply compound_later; [ext_chain|ext_facts| |ext_facts].
sublist. eats. split; [ext_chain|auto with rust].
- by apply simple_spec.
Qed.

(** [command] once the blanks are skipped and the next word is looked up. *)
Lemma command_spec_at p :
wf p → remaining p ≤ n → ∀ kw, reserved_at p = kw →
wp match kw with
 | None => command_default R
 | Some kw => command_keyword R kw
 end (command_post p) p.
Proof.
intros Hp Hn kw Heqo. destruct kw as [kw|]; [|by apply command_default_spec].
unfold command_keyword.
apply reserved_bound in Heqo as Hb; [|done]. destruct Hb as [??].
wp_step; [boolp; subst; by apply (compound_of_spec _ _ (if_clause_spec _ Hp Hn Heqo))|].
wp_step.
{ apply compound_of_spec; [|done]. adv. sublist. expect. sublist. expect.
split; [ext_chain|split; [ext_facts|auto with rust]]. }
wp_step.
{ adv. wp_call (apply for_clause_spec; [wf_tac|ext_facts]). intros c q [Hq Hc].
split; [ext_chain|split; [ext_facts|done]]. }
wp_step; [boolp; subst; by apply (compound_of_spec _ _ (case_clause_spec _ Hp Hn Heqo))|].
wp_step.
{ apply compound_of_spec; [|done]. boolp. subst. adv. sublist. expect.
split; [ext_chain|split; [ext_facts|auto with rust]]. }
wp_step.
{ boolp. subst. adv. spaces. word_ok. spaces. opt_eat. wp_run.
wp_call (apply function_body_spec; [wf_tac|ext_facts]). intros c q Hc.
eapply command_post_later; [|exact Hc]. ext_chain. }
wp_step; [boolp; subst; by apply test_clause_spec|].
wp_step; [done|]. by apply command_default_spec.
Qed.

Lemma command_spec p : wf p → remaining p ≤ n → wp (command_ R) (command_post p) p.
Proof.
intros Hp Hn. unfold command_. spaces.
wp_call (apply command_spec_at; [wf_tac|ext_facts|done]).
intros c q Hc. by eapply command_post_later.
Qed.

Definition pipe_post (p : Parser) (cs : Pipeline) (p' : Parser) : Prop :=
ext p p' ∧ p_pos p < p_pos p' ∧ pipe_ok p' cs.

Lemma pipeline_spec p : wf p → remaining p ≤ n → wp (pipeline R) (pipe_post p) p.
Proof.
intros Hp Hn. unfold pipeline. spaces.
match goal with |- wp _ _ ?q0 => set (p1 := q0) in * end.
assert (wp (if reserved_at p1 == Some (lit "!") then advance 1 else mret tt)
        (λ _ q, ext p1 q) p1) as Hbang.
{ wp_step; [|wp_run; ext_chain]. boolp. apply reserved_bound in Heqb as [??]; [|wf_tac].
wp_call (apply advance_spec; [wf_tac|done]). by intros _ q [Hq _]. }
eapply wp_mono; [exact Hbang|]. cbv beta. intros _ p2 H2. wp_run.
wp_call (apply command_spec; [wf_tac|ext_facts]). intros c p3 (H3 & Hs & Hc).
apply (wp_loop (λ cs q, pipe_post p cs q)).
{ split; [ext_chain|split; [ext_facts|]]. by apply (pipe_ok_snoc _ []). }
intros cs q (Hq & Hs' & Hcs). spaces.
match goal with |- wp _ _ ?q0 => set (q1 := q0) in * end.
assert (wp (if starts_with (rest q1) (lit "||") then mret false
          else or_else (eat (lit "|&")) (eat (lit "|")))
        (λ b q', ext q1 q' ∧ (b = true → p_pos q1 < p_pos q')) q1) as Hbar.
{ wp_step; wp_run; [split; [ext_chain|done]|].
wp_use eat_spec. intros [] ?; [intros [? ?]|intros [-> _]]; [split; [ext_chain|ext_facts]|].
wp_use eat_spec. intros [] ?; [intros [? ?]|intros [-> _]]; (split; [ext_chain|done || ext_facts]). }
eapply wp_mono; [exact Hbar|]. intros b q2 [H4 Hb]. cbv beta.
destruct b; cbn [negb]; wp_run.
- spaces. wp_call (apply command_spec; [wf_tac|ext_facts]). intros c' q3 (H5 & Hs5 & Hc5). wp_run.
split; [|ext_facts]. split; [ext_chain|split; [ext_facts|auto with rust]].
- split; [ext_chain|split; [ext_facts|auto with rust]].
Qed.

Lemma and_or_spec out p :
wf p → remaining p ≤ n → body_ok p out → wp (and_or R out) (body_post p) p.
Proof.
intros Hp Hn Hb. unfold and_or.
apply (wp_loop (λ b q, ext p q ∧ body_ok q b)); [split; [ext_chain|done]|].
intros b q [Hq Hbq]. wp_run. wp_call (apply pipeline_spec; [wf_tac|ext_facts]).
intros cs q1 (H1 & Hs & Hcs). spaces.
assert (body_ok q1 (b ++ [cs])) by auto with rust.
wp_use eat_spec. intros [] ?; [intros [? ?]|intros [-> _]]; wp_run; cbn [negb]; wp_run.
2: wp_use eat_spec; intros [] ?; [intros [? ?]|intros [-> _]]; wp_run; cbn [negb]; wp_run.
1-2: spaces; split; [split; [ext_chain|auto with rust]|ext_facts].
split; [ext_chain|split; [ext_facts|auto with rust]].
Qed.

(** The loop of [list], past [enter]. *)
Lemma list_spec out p :
wf p → remaining p ≤ n → body_ok p out → wp (list_ R out) (list_post p) p.
Proof.
intros Hp Hn Hb. unfold list_, enter. wp_run. wp_step; [done|]. wp_run.
set (p1 := set_depth p (S (p_depth p))).
assert (wf p1) as Hp1 by done. assert (body_ok p1 out) as Hb1 by done.
eapply (wp_mono _ (list_post p1)).
- apply (wp_loop (λ b q, ext p1 q ∧ body_ok q b)); [split; [ext_chain|done]|].
intros b q [Hq Hbq]. assert (remaining q ≤ n) by (subst p1; ext_facts). spaces.
unfold at_list_end. wp_run. wp_step; [wp_run; split; [ext_chain|auto with rust]|].
wp_run. wp_call (apply and_or_spec; [wf_tac|ext_facts|auto with rust]).
intros b' q1 (H1 & Hs & Hb'). spaces.
assert (∀ b q', ext q1 q' → (if b : bool then ext p1 q' ∧ body_ok q' b' else list_post p1 b' q')
  ∧ remaining q' < remaining q) as Hend.
{ intros b0 q' H'. split; [destruct b0; (split; [ext_chain|auto with rust])|ext_facts]. }
wp_step; [|wp_run; wp_step]; wp_run; try (apply (Hend false); ext_chain).
wp_use eat_spec. intros [] ?; [intros [? ?]|intros [-> _]]; wp_run.
{ apply (Hend true). ext_chain. }
wp_use eat_spec. intros [] ?; [intros [? ?]|intros [-> _]]; wp_run.
{ apply (Hend true). ext_chain. }
wp_run. destruct (_ == Some cLF); [|by apply (Hend false); ext_chain].
apply (Hend true). ext_chain.
- intros b q [Hq Hbq]. unfold leave. wp_run.
pose proof (ext_depth_leave _ _ Hq) as Hl. rewrite (e_depth _ _ Hq). simpl. wp_run.
split; [exact Hl|done].
Qed.
End specs.

(** The nested calls meet their contract at every depth. *)
Lemma recs_good n : good n (recs n).
Proof.
  induction n as [|n IH]; (split; [intros out p Hp Hn Hb|intros p Hp Hn|intros p Hp Hn]); try lia; simpl.
  - apply (list_spec n _ IH); [done|lia|done].
  - apply (command_spec n _ IH); [done|lia].
  - apply (word_spec n _ IH); [done|lia].
Qed.

Lemma init_wf s : wf (init_parser s).
Proof. split; simpl; [lia|constructor]. Qed.

Lemma parse_program_spec n s :
  length s < n →
  wp (parse_program n) (λ prog p, ext (init_parser s) p ∧ body_ok p prog
                                   ∧ p_pos p = length s ∧ p_pending p = []) (init_parser s).
Proof.
  intros Hn. unfold parse_program. wp_step.
  wp_call (apply (list_spec n _ (recs_good n)); [apply init_wf|unfold remaining; simpl; lia|done]).
  intros prog p [He Hb]. wp_run. unfold id. wp_step; [done|]. boolp. wp_run.
  split; [done|]. split; [done|]. pose proof (e_end _ _ He). pose proof (e_s _ _ He) as Hs.
  simpl in Hs. split; [rewrite Hs in *; lia|]. by apply nil_length_inv.
Qed.

Lemma parse_ast_ok (s : str) :
  match parse_ast s with
  | Ok (prog, p) =>
      p_s p = s ∧ p_pos p = length s ∧ p_pending p = [] ∧ p_depth p = 0 ∧ p_subst_depth p = 0
      ∧ forallb (forallb (cmd_okb (length (p_heredocs p)))) prog = true
  | ParseError => True
  | Panic | OutOfFuel => False
  end.
Proof.
  assert (length s < parse_fuel s) as Hf by (unfold parse_fuel; lia).
  pose proof (parse_program_spec (parse_fuel s) s Hf) as H. unfold wp in H.
  unfold parse_ast, run_parser. destruct (parse_program _ _) as [[prog p]| | |]; try done.
  destruct H as (He & Hb & Hpos & Hpend). destruct He. by split_and!.
Qed.

(** C16: for every input, the parser terminates with a tree or with [ParseError]:
    it never panics (no slice, index or counter goes out of range) and never
    exceeds recursion fuel of one more than the input's length; in a tree it
    returns, the whole input was consumed, no here-document is left open, both
    depth counters are back at zero, and every here-document slot exists. *)
Theorem parse_ast_total (s : str) :
  match parse_ast s with
  | Ok (prog, p) =>
      p_s p = s ∧ p_pos p = length s ∧ p_pending p = [] ∧ p_depth p = 0 ∧ p_subst_depth p = 0
      ∧ forallb (forallb (cmd_okb (length (p_heredocs p)))) prog = true
  | ParseError => True
  | Panic | OutOfFuel => False
  end.
Proof. apply parse_ast_ok. Qed.

(** ** What [MAX_DEPTH] bounds

    [enter] counts entries of [list] only. A function body goes from [command]
    straight back to [command], so nesting there is not counted. *)

Definition nested_functions (k : nat) : str := mjoin (replicate k (lit "f()")) ++ lit "ls".

(** The depth limit does not bound the parser's recursion: two hundred nested
    function definitions, more than three times [MAX_DEPTH], recurse past depth
    one hundred and are accepted with the depth counter back at zero, although
    the limit is there so that nested input cannot exhaust the stack. *)
Theorem max_depth_not_a_recursion_bound :
  MAX_DEPTH < 100 ∧ run_parser 100 (nested_functions 200) = OutOfFuel
  ∧ match parse_ast (nested_functions 200) with Ok _ => True | _ => False end.
Proof. split; [apply Nat.ltb_lt; by vm_compute|]. split; by vm_compute. Qed.
