(* ===== verification/Lower.v ===== *)
(** Lowering: from the parser's tree to tokenizer segments, once per reading of
    the variables assigned in the line (the semantic half of
    [crates/command-risk/src/parse.rs], and its entry point [parse]). *)

From S2P Require Import Prelude RustStr Tokenize Parse ParseFacts ParseTotal.

(** [struct Lower]; the borrowed here-documents are an argument of the operations
    that read them. *)
Record Lower := mkLower {
  env : gmap str (list Word);
  pick : option nat;
  max_values : nat;
  lsegments : list Segment;
  lscripts : list str }.

Definition lower_new (pick : option nat) : Lower := mkLower ∅ pick 0 [] [].

Definition set_env (l : Lower) (e : gmap str (list Word)) : Lower :=
  mkLower e (pick l) (max_values l) (lsegments l) (lscripts l).
Definition set_max (l : Lower) (n : nat) : Lower :=
  mkLower (env l) (pick l) n (lsegments l) (lscripts l).
Definition set_segments (l : Lower) (s : list Segment) : Lower :=
  mkLower (env l) (pick l) (max_values l) s (lscripts l).
Definition set_scripts (l : Lower) (s : list str) : Lower :=
  mkLower (env l) (pick l) (max_values l) (lsegments l) s.

(** ** The state monad of the lowering; [None] is a panic (an index out of range) *)

Definition LM (A : Type) : Type := Lower → option (A * Lower).
#[global] Instance LM_ret : MRet LM := λ A a l, Some (a, l).
#[global] Instance LM_bind : MBind LM := λ A B f m l,
  match m l with Some (a, l') => f a l' | None => None end.
Definition lget {A} (f : Lower → A) : LM A := λ l, Some (f l, l).
Definition lmod (f : Lower → Lower) : LM unit := λ l, Some (tt, f l).

(** [xs.iter().flat_map(|x| f(x)).collect()], with an effectful [f]. *)
Fixpoint flat_map_l {A B} (f : A → LM (list B)) (xs : list A) : LM (list B) :=
  match xs with
  | [] => mret []
  | x :: xs' => ys ← f x; zs ← flat_map_l f xs'; mret (ys ++ zs)
  end.
Fixpoint for_each {A} (f : A → LM unit) (xs : list A) : LM unit :=
  match xs with
  | [] => mret tt
  | x :: xs' => f x ;; for_each f xs'
  end.

(** ** Values of variables *)

(** [env.entry(name).or_default().extend(values)]. *)
Definition extend_env (name : str) (values : list Word) : LM unit :=
  lmod (λ l, set_env l (<[name := default [] (env l !! name) ++ values]> (env l))).

Definition lower_value (name : str) : LM (option Word) :=
  e ← lget env;
  match e !! name with
  | None => mret None
  | Some values =>
      lmod (λ l, set_max l (Nat.max (max_values l) (length values))) ;;
      p ← lget pick;
      mret (match p with
            | None => None
            | Some pick => values !! Nat.min pick (length values - 1)
            end)
  end.

Fixpoint lower_text_go (ps : list Part) (text : str) (dynamic : bool) : LM Word :=
  match ps with
  | [] => mret (mkWord text dynamic)
  | Lit s :: ps' => lower_text_go ps' (text ++ s) dynamic
  | Var name raw _ :: ps' =>
      v ← lower_value name;
      match v with
      | Some v => lower_text_go ps' (text ++ Tokenize.text v) (dynamic || Tokenize.dynamic v)
      | None => lower_text_go ps' (text ++ raw) dynamic
      end
  | Dynamic placeholder :: ps' => lower_text_go ps' (text ++ placeholder) true
  end.
Definition lower_text (ps : list Part) : LM Word := lower_text_go ps [] false.

(** The fields an unquoted variable splits into. *)
Definition fields_of (value : Word) : list Word :=
  let fields := (λ f, mkWord f (dynamic value)) <$> split_whitespace (text value) in
  match fields with
  | [] => if dynamic value then [mkWord [] true] else []
  | _ => fields
  end.

Definition lower_word (w : WordAst) : LM (list Word) :=
  match parts w with
  | [Var name raw false] =>
      v ← lower_value name;
      match v with
      | Some value => mret (fields_of value)
      | None => t ← lower_text (parts w); mret [t]
      end
  | _ => t ← lower_text (parts w); mret [t]
  end.

(** ** Assignments *)

Definition lower_bind (w : WordAst) : LM unit :=
  match assign w with
  | None => mret tt
  | Some (name, values) =>
      vs ← flat_map_l (λ v, t ← lower_text v; mret [t]) values;
      extend_env name vs
  end.

(** The words a simple command assigns through, in the order they are bound:
    the prefix assignments, then every word of a command that binds. *)
Definition is_assign (w : WordAst) : bool := bool_decide (is_Some (assign w)).
Definition prefix_of_words (ws : list WordAst) : list WordAst := take_while is_assign ws.

Definition simple_words (ws : list WordAst) : LM (list Word) :=
  let pre := prefix_of_words ws in
  for_each lower_bind pre ;;
  (match ws !! length pre with
   | Some w =>
       if is_one_of (plain_text (parts w)) BINDERS
       then for_each lower_bind (drop (length pre) ws) else mret tt
   | None => mret tt
   end) ;;
  flat_map_l lower_word ws.

(** ** Commands *)

Section lower.
Context (heredocs : list str).

(** The text redirections feed to the pipeline ([data]) and the words they add
to the command ([out]). *)
Fixpoint redirect_words (rs : list Redirect) (data : list str) (out : list Word)
: LM (list str * list Word) :=
match rs with
| [] => mret (data, out)
| Write op target :: rs' =>
  ws ← lower_word target;
  redirect_words rs' data (out ++ [mkWord op false] ++ ws)
| HereDoc slot :: rs' =>
  match heredocs !! slot with
  | Some d => redirect_words rs' (data ++ [d]) out
  | None => λ _, None
  end
| HereString w :: rs' =>
  t ← lower_text (parts w);
  redirect_words rs' (data ++ [text t]) out
| Other :: rs' => redirect_words rs' data out
end.

Definition lower_push (ws : list Word) : LM unit :=
match ws with
| [] => mret tt
| _ => lmod (λ l, set_segments l (lsegments l ++ [mkSegment ws]))
end.

Definition feeds_shell (segs : list Segment) : bool :=
existsb (λ s, match command s with Some c => is_one_of c SHELLS | None => false end) segs.

Section pipelines.
Context (lower_command : Command → list str → LM (list str)).

Fixpoint lower_commands (cs : Pipeline) (data : list str) : LM (list str) :=
match cs with
| [] => mret data
| c :: cs' => data ← lower_command c data; lower_commands cs' data
end.

Fixpoint lower_pipelines_with (pls : list Pipeline) : LM unit :=
match pls with
| [] => mret tt
| pl :: pls' =>
start ← lget (λ l, length (lsegments l));
data ← lower_commands pl [];
lmod (λ l, if feeds_shell (drop start (lsegments l))
         then set_scripts l (lscripts l ++ data) else l) ;;
lower_pipelines_with pls'
end.
End pipelines.

Fixpoint lower_command (c : Command) (data : list str) : LM (list str) :=
match c with
| Simple ws rs =>
  out ← simple_words ws;
  r ← redirect_words rs data out;
  lower_push r.2 ;;
  mret r.1
| Compound body rs =>
  lower_pipelines_with lower_command body ;;
  r ← redirect_words rs data [];
  lower_push r.2 ;;
  mret r.1
| For var items body rs =>
  values ← flat_map_l lower_word items;
  extend_env var values ;;
  lower_pipelines_with lower_command body ;;
  r ← redirect_words rs data [];
  lower_push r.2 ;;
  mret r.1
end.

Definition lower_pipelines : list Pipeline → LM unit := lower_pipelines_with lower_command.
End lower.

(** ** [parse] *)

Record Lowered := mkLowered {
  variants : list (list Segment);
  lbodies : list str;
  scripts : list str;
  lmalformed : bool }.

Definition lower_run (heredocs : list str) (prog : list Pipeline) (pick : option nat) : option Lower :=
  snd <$> lower_pipelines heredocs prog (lower_new pick).

(** The readings after the first: picks [0 .. n-1]. *)
Definition lower_picks (heredocs : list str) (prog : list Pipeline) (n : nat)
    : option (list (list Segment)) :=
  mapM (λ k, lsegments <$> lower_run heredocs prog (Some k)) (seq 0 n).

(** The comments, tokenized and added to every variant. *)
Fixpoint add_comments (comments : list str) (variants : list (list Segment)) (malformed_ : bool)
    : option (list (list Segment) * bool) :=
  match comments with
  | [] => Some (variants, malformed_)
  | c :: cs =>
      tokens ← tokenize c;
      add_comments cs ((λ v, v ++ segments tokens) <$> variants) (malformed_ || malformed tokens)
  end.

(** [parse(input)]. *)
Definition parse (input : str) : res Lowered :=
  match parse_ast input with
  | Ok (prog, p) =>
      match
        raw ← lower_run (p_heredocs p) prog None;
        vs ← lower_picks (p_heredocs p) prog (Nat.min (max_values raw) MAX_VARIANTS);
        '(vs, m) ← add_comments (p_comments p) (lsegments raw :: vs) false;
        Some (mkLowered vs (p_bodies p) (lscripts raw) m)
      with
      | Some l => Ok l
      | None => Panic
      end
  | ParseError => ParseError
  | Panic => Panic
  | OutOfFuel => OutOfFuel
  end.
