(* ===== verification/LowerFacts.v ===== *)
(** The lowering never panics, only adds to its state, and its readings are
    complete once the number of readings covers the values it met. *)

From S2P Require Import Prelude RustStr Tokenize Parse ParseFacts ParseTotal Lower.

(** ** What an operation may change *)

Record lext (l l' : Lower) : Prop := mkLext {
  le_pick : pick l' = pick l;
  le_max : max_values l ≤ max_values l';
  le_env : ∀ x vs, env l !! x = Some vs → ∃ ws, env l' !! x = Some (vs ++ ws);
  le_segs : ∃ segs, lsegments l' = lsegments l ++ segs ∧ Forall (λ s, words s ≠ []) segs;
  le_scripts : ∃ ss, lscripts l' = lscripts l ++ ss }.

#[global] Instance lext_preorder : PreOrder lext.
Proof.
  split.
  - intros l. split; [done|done| | |].
    + intros x vs H. exists []. by rewrite app_nil_r.
    + exists []. by rewrite app_nil_r.
    + exists []. by rewrite app_nil_r.
  - intros l1 l2 l3 [p1 m1 e1 (s1 & Hs1 & F1) (c1 & Hc1)] [p2 m2 e2 (s2 & Hs2 & F2) (c2 & Hc2)].
    split; [congruence|lia| | |].
    + intros x vs (ws & H)%e1. apply e2 in H as (ws' & H). exists (ws ++ ws'). by rewrite app_assoc.
    + exists (s1 ++ s2). rewrite Hs2, Hs1, app_assoc. split; [done|]. by apply Forall_app.
    + exists (c1 ++ c2). by rewrite Hc2, Hc1, app_assoc.
Qed.

(** [m] returns, and only adds to the state. *)
Definition lsafe {A} (m : LM A) : Prop := ∀ l, ∃ a l', m l = Some (a, l') ∧ lext l l'.

Lemma lsafe_ret {A} (a : A) : lsafe (mret a).
Proof. intros l. by exists a, l. Qed.
Lemma lsafe_get {A} (f : Lower → A) : lsafe (lget f).
Proof. intros l. by exists (f l), l. Qed.
Lemma lsafe_mod f : (∀ l, lext l (f l)) → lsafe (lmod f).
Proof. intros H l. by exists tt, (f l). Qed.
Lemma lsafe_bind {A B} (m : LM A) (f : A → LM B) : lsafe m → (∀ a, lsafe (f a)) → lsafe (m ≫= f).
Proof.
  intros Hm Hf l. destruct (Hm l) as (a & l1 & E & H1). destruct (Hf a l1) as (b & l2 & E2 & H2).
  exists b, l2. unfold mbind, LM_bind. rewrite E. split; [done|by etrans].
Qed.

(** Operations that agree under two picks [k] and [k'], as long as no variable
    they read has more values than either reaches. *)
Definition set_pick (l : Lower) (k : nat) : Lower :=
  mkLower (env l) (Some k) (max_values l) (lsegments l) (lscripts l).

Definition agree {A} (m : LM A) : Prop := ∀ k k' l a l',
  pick l = Some k → m l = Some (a, l') → max_values l' ≤ S k → max_values l' ≤ S k' →
  m (set_pick l k') = Some (a, set_pick l' k').

Lemma agree_ret {A} (a : A) : agree (mret a).
Proof. by intros k k' l ? l' _ [= <- <-] _ _. Qed.
Lemma agree_bind {A B} (m : LM A) (f : A → LM B) :
  lsafe m → agree m → (∀ a, lsafe (f a)) → (∀ a, agree (f a)) → agree (m ≫= f).
Proof.
  intros Sm Hm Sf Hf k k' l b l2 Hk E H1 H2. unfold mbind, LM_bind in *.
  destruct (Sm l) as (a & l1 & E1 & X1). rewrite E1 in E.
  destruct (Sf a l1) as (b' & l2' & E2 & X2). rewrite E2 in E. injection E as -> ->.
  pose proof (le_max _ _ X2).
  rewrite (Hm k k' l a l1); [|done|done|lia|lia].
  apply (Hf a k); [|done..]. by rewrite (le_pick _ _ X1).
Qed.

(** Both at once: what every operation of the lowering satisfies. *)
Definition lgood {A} (m : LM A) : Prop := lsafe m ∧ agree m.

Lemma lgood_ret {A} (a : A) : lgood (mret a).
Proof. split; [apply lsafe_ret|apply agree_ret]. Qed.
Lemma lgood_bind {A B} (m : LM A) (f : A → LM B) : lgood m → (∀ a, lgood (f a)) → lgood (m ≫= f).
Proof.
  intros [? ?] Hf. split; [apply lsafe_bind|apply agree_bind]; try done; intros a; by destruct (Hf a).
Qed.
Lemma lgood_get {A} (f : Lower → A) : (∀ l k, f (set_pick l k) = f l) → lgood (lget f).
Proof.
  intros Hf. split; [apply lsafe_get|]. intros k k' l a l' _ [= <- <-] _ _. unfold lget. by rewrite Hf.
Qed.
Lemma lgood_mod f :
  (∀ l, lext l (f l)) → (∀ l k, f (set_pick l k) = set_pick (f l) k) → lgood (lmod f).
Proof.
  intros Hx Hf. split; [by apply lsafe_mod|]. intros k k' l a l' _ [= <- <-] _ _.
  unfold lmod. by rewrite Hf.
Qed.
Lemma lgood_flat_map {A B} (f : A → LM (list B)) xs : (∀ x, lgood (f x)) → lgood (flat_map_l f xs).
Proof.
  intros Hf. induction xs; simpl; [apply lgood_ret|].
  apply lgood_bind; [done|]. intros ys. apply lgood_bind; [done|]. intros zs. apply lgood_ret.
Qed.
Lemma lgood_for_each {A} (f : A → LM unit) xs : (∀ x, lgood (f x)) → lgood (for_each f xs).
Proof.
  intros Hf. induction xs; simpl; [apply lgood_ret|]. apply lgood_bind; [done|]. by intros _.
Qed.

#[export] Hint Resolve lgood_ret lgood_flat_map lgood_for_each : rust.

(** Structural steps. *)
Ltac lgood_step :=
  lazymatch goal with
  | |- lgood (_ ≫= _) => apply lgood_bind; [|intros ?]
  | |- lgood (mret _) => apply lgood_ret
  | |- lgood (flat_map_l _ _) => apply lgood_flat_map; intros ?
  | |- lgood (for_each _ _) => apply lgood_for_each; intros ?
  | |- lgood (match ?x with _ => _ end) => destruct x eqn:?
  | |- lgood (if ?x then _ else _) => destruct x eqn:?
  end.

(** ** The operations *)

Lemma extend_env_good x vs : lgood (extend_env x vs).
Proof.
  apply lgood_mod; [|done]. intros l. split; simpl; [done|done| | |].
  - intros y ws Hy. destruct (decide (x = y)) as [->|Hne].
    + rewrite lookup_insert_eq, Hy. by exists vs.
    + rewrite lookup_insert_ne by done. exists []. by rewrite app_nil_r.
  - exists []. by rewrite app_nil_r.
  - exists []. by rewrite app_nil_r.
Qed.

(** The two picks see the same value of every list no longer than either reaches. *)
Lemma lower_value_good x : lgood (lower_value x).
Proof.
  split.
  - unfold lower_value. apply lsafe_bind; [apply lsafe_get|]. intros e.
    destruct (e !! x); [|apply lsafe_ret].
    apply lsafe_bind; [|intros _; apply lsafe_bind; [apply lsafe_get|intros ?; apply lsafe_ret]].
    apply lsafe_mod. intros l1. destruct (reflexivity (R := lext) l1). split; simpl; try done. lia.
  - intros k k' l a l' Hk E H1 H2. unfold lower_value, lget, lmod, mret, LM_ret, mbind, LM_bind in *.
    simpl in *. destruct (env l !! x) as [vs|]; [|by injection E as <- <-].
    simpl in *. rewrite Hk in E. injection E as <- <-. simpl in *.
    do 2 f_equal. destruct vs as [|v vs]; [by destruct (Nat.min k 0) eqn:?, (Nat.min k' 0) eqn:?|].
    simpl in *. assert (∀ j, S (length vs) ≤ S j → Nat.min j (length vs - 0) = length vs) as Hm by lia.
    rewrite !Hm by lia. done.
Qed.

Lemma lower_text_go_good ps t d : lgood (lower_text_go ps t d).
Proof.
  revert t d. induction ps as [|[s|x raw q|s] ps IH]; intros t d; simpl; [apply lgood_ret|done| |done].
  apply lgood_bind; [apply lower_value_good|]. by intros [v|].
Qed.
Lemma lower_text_good ps : lgood (lower_text ps).
Proof. apply lower_text_go_good. Qed.

Lemma lower_word_good w : lgood (lower_word w).
Proof.
  assert (lgood (t ← lower_text (parts w); mret [t])) as H.
  { apply lgood_bind; [apply lower_text_good|]. intros. apply lgood_ret. }
  unfold lower_word. repeat case_match; try done.
  apply lgood_bind; [apply lower_value_good|]. intros [v|]; [apply lgood_ret|done].
Qed.

Lemma lower_bind_good w : lgood (lower_bind w).
Proof.
  unfold lower_bind. repeat lgood_step. all: eauto using lower_text_good, extend_env_good.
Qed.

Lemma simple_words_good ws : lgood (simple_words ws).
Proof.
  unfold simple_words. repeat lgood_step; eauto using lower_bind_good, lower_word_good.
Qed.

Section lower_good.
Context (heredocs : list str).

Lemma redirect_words_good rs data out :
forallb (red_okb (length heredocs)) rs = true → lgood (redirect_words heredocs rs data out).
Proof.
revert data out. induction rs as [|r rs IH]; intros data out; simpl; [intros _; apply lgood_ret|].
rewrite andb_true_iff. intros [Hr Hrs]. destruct r as [op t|i|w|].
- apply lgood_bind; [apply lower_word_good|auto].
- simpl in Hr. apply Nat.ltb_lt, lookup_lt_is_Some in Hr as [d ->]. auto.
- apply lgood_bind; [apply lower_text_good|auto].
- auto.
Qed.

Lemma lower_push_good ws : lgood (lower_push ws).
Proof.
unfold lower_push. destruct ws as [|w ws]; [apply lgood_ret|]. apply lgood_mod; [|done].
intros l. destruct (reflexivity (R := lext) l). split; simpl; try done.
eexists; split; [done|]. by repeat constructor.
Qed.

(** The tail every kind of command ends with. *)
Lemma push_tail_good rs data out :
forallb (red_okb (length heredocs)) rs = true →
lgood (r ← redirect_words heredocs rs data out; lower_push r.2 ;; mret r.1).
Proof.
intros H. repeat lgood_step; [by apply redirect_words_good|apply lower_push_good].
Qed.

Lemma lower_pipelines_with_good (f : Command → list str → LM (list str)) (ok : Command → bool) pls :
Forall (Forall (λ c, ∀ data, ok c = true → lgood (f c data))) pls →
forallb (forallb ok) pls = true → lgood (lower_pipelines_with f pls).
Proof.
induction 1 as [|pl pls Hpl Hpls IH]; simpl; [intros; apply lgood_ret|].
rewrite andb_true_iff. intros [H1 H2]. repeat lgood_step; [by apply lgood_get| | |auto].
- generalize (@nil str). induction Hpl as [|c pl Hc Hpl IHpl]; intros data; simpl; [apply lgood_ret|].
simpl in H1. apply andb_true_iff in H1 as [Hc1 Hpl1]. repeat lgood_step; auto.
- apply lgood_mod; [|intros l ?; simpl; by destruct (feeds_shell _)].
intros l. destruct (feeds_shell _); [|done]. destruct (reflexivity (R := lext) l).
split; simpl; try done. by eexists.
Qed.

Lemma lower_command_good c data :
cmd_okb (length heredocs) c = true → lgood (lower_command heredocs c data).
Proof.
revert data. induction c as [ws rs|b rs IH|v its b rs IH] using Command_ind'; intros data; simpl.
- intros Hr. apply lgood_bind; [apply simple_words_good|]. intros out. by apply push_tail_good.
- rewrite andb_true_iff. intros [Hb Hr]. apply lgood_bind; [|intros _; by apply push_tail_good].
by eapply lower_pipelines_with_good.
- rewrite andb_true_iff. intros [Hb Hr]. repeat lgood_step; try done.
+ apply lower_word_good.
+ apply extend_env_good.
+ by eapply lower_pipelines_with_good.
+ by apply redirect_words_good.
+ apply lower_push_good.
Qed.

Lemma lower_pipelines_good prog :
forallb (forallb (cmd_okb (length heredocs))) prog = true → lgood (lower_pipelines heredocs prog).
Proof.
apply lower_pipelines_with_good. apply Forall_true. intros pl. apply Forall_true.
intros c data. apply lower_command_good.
Qed.
End lower_good.

(** ** [parse] *)

Lemma lower_run_total heredocs prog k :
  forallb (forallb (cmd_okb (length heredocs))) prog = true →
  ∃ l, lower_run heredocs prog k = Some l ∧ Forall seg_ok (lsegments l).
Proof.
  intros H. destruct (lower_pipelines_good heredocs prog H) as [Hs _].
  destruct (Hs (lower_new k)) as (a & l & E & X). exists l. unfold lower_run. rewrite E.
  split; [done|]. destruct (le_segs _ _ X) as (segs & -> & F). done.
Qed.

Lemma lower_picks_total heredocs prog n :
  forallb (forallb (cmd_okb (length heredocs))) prog = true →
  ∃ vs, lower_picks heredocs prog n = Some vs ∧ length vs = n
        ∧ (∀ k, k < n → lsegments <$> lower_run heredocs prog (Some k) = vs !! k)
        ∧ Forall (Forall seg_ok) vs.
Proof.
  intros H. unfold lower_picks.
  assert (∀ ks, ∃ vs, mapM (λ k, lsegments <$> lower_run heredocs prog (Some k)) ks = Some vs
    ∧ Forall2 (λ k v, lsegments <$> lower_run heredocs prog (Some k) = Some v) ks vs
    ∧ Forall (Forall seg_ok) vs) as Hks.
  { induction ks as [|k ks (vs & E & F2 & F)]; simpl; [by exists []|].
    destruct (lower_run_total heredocs prog (Some k) H) as (l & El & Fl). rewrite El. simpl.
    rewrite E. simpl. exists (lsegments l :: vs). split; [done|]. split; [|by constructor].
    constructor; [by rewrite El|done]. }
  destruct (Hks (seq 0 n)) as (vs & E & F2 & F). exists vs. split; [done|].
  pose proof (Forall2_length _ _ _ F2) as Hl. rewrite length_seq in Hl. split; [done|].
  split; [|done]. intros k Hk. destruct (lookup_lt_is_Some_2 vs k) as [v Hv]; [lia|].
  rewrite Hv. eapply (Forall2_lookup_lr _ _ _ k k v F2); [|done].
  apply lookup_seq. lia.
Qed.

Lemma add_comments_total cs vs m :
  Forall (Forall seg_ok) vs →
  ∃ vs' m', add_comments cs vs m = Some (vs', m') ∧ length vs' = length vs
            ∧ Forall (Forall seg_ok) vs'
            ∧ Forall2 (λ v v', ∃ extra, v' = v ++ extra) vs vs'.
Proof.
  revert vs m. induction cs as [|c cs IH]; intros vs m Hvs; simpl.
  - exists vs, m. split; [done|]. split; [done|]. split; [done|].
    apply Forall_Forall2_diag, Forall_true. intros v. exists []. by rewrite app_nil_r.
  - destruct (tokenize_total c) as (t & -> & Ht). simpl.
    destruct (IH ((λ v, v ++ segments t) <$> vs) (m || malformed t)) as (vs' & m' & -> & Hl & F & F2).
    { apply Forall_fmap. eapply Forall_impl; [exact Hvs|]. intros v Hv. by apply Forall_app. }
    exists vs', m'. rewrite length_fmap in Hl. split_and!; try done.
    rewrite Forall2_fmap_l in F2. eapply Forall2_impl; [exact F2|].
    intros v v' [e ->]. simpl. exists (segments t ++ e). by rewrite app_assoc.
Qed.

(** [parse] returns a result or [ParseError] for every input (it never
    panics, in particular no here-document index is out of range); a result has
    the as-written reading and at most [MAX_VARIANTS] others, and no segment of
    any reading is empty. *)
Theorem parse_total (s : str) :
  match parse s with
  | Ok low => 1 ≤ length (variants low) ≤ S MAX_VARIANTS
              ∧ Forall (Forall seg_ok) (variants low)
  | ParseError => True
  | Panic | OutOfFuel => False
  end.
Proof.
  unfold parse. pose proof (parse_ast_ok s) as H.
  destruct (parse_ast s) as [[prog p]| | |]; try done. destruct H as (_ & _ & _ & _ & _ & H).
  destruct (lower_run_total _ _ None H) as (raw & -> & Fraw). simpl.
  destruct (lower_picks_total _ _ (Nat.min (max_values raw) MAX_VARIANTS) H) as (vs & -> & Hl & _ & F).
  simpl. destruct (add_comments_total (p_comments p) (lsegments raw :: vs) false)
    as (vs' & m & -> & Hl' & F' & _); [by constructor|].
  simpl in *. split; [lia|done].
Qed.

(** Two picks that reach the end of every list of values read alike. *)
Lemma lower_run_agree heredocs prog k k' l :
  forallb (forallb (cmd_okb (length heredocs))) prog = true →
  lower_run heredocs prog (Some k) = Some l →
  max_values l ≤ S k → max_values l ≤ S k' →
  lower_run heredocs prog (Some k') = Some (set_pick l k').
Proof.
  intros H E H1 H2. destruct (lower_pipelines_good heredocs prog H) as [_ Ha].
  unfold lower_run in *. apply fmap_Some in E as ([a l0] & E & ->). simpl in *.
  specialize (Ha k k' (lower_new (Some k)) a l0 eq_refl E H1 H2).
  change (set_pick (lower_new (Some k)) k') with (lower_new (Some k')) in Ha. by rewrite Ha.
Qed.

(** The readings are complete: when no variable read has more values than the
    as-written reading counted, and at most [MAX_VARIANTS], the segments of the
    reading for any index [k] whatsoever appear, in front of the text of the
    comments, among the variants [parse] returns. *)
Theorem readings_complete (s : str) (k : nat) prog p raw l low :
  parse_ast s = Ok (prog, p) →
  lower_run (p_heredocs p) prog None = Some raw →
  lower_run (p_heredocs p) prog (Some k) = Some l →
  0 < max_values raw ≤ MAX_VARIANTS → max_values l ≤ max_values raw →
  parse s = Ok low →
  ∃ v extra, v ∈ variants low ∧ v = lsegments l ++ extra.
Proof.
  intros Ep Eraw El [Hpos Hmax] Hl. unfold parse. pose proof (parse_ast_ok s) as H.
  rewrite Ep in *. destruct H as (_ & _ & _ & _ & _ & H). rewrite Eraw. simpl.
  destruct (lower_picks_total _ _ (Nat.min (max_values raw) MAX_VARIANTS) H)
    as (vs & -> & Hlen & Hvs & F). simpl.
  destruct (lower_run_total _ _ None H) as (raw' & E' & Fraw). rewrite Eraw in E'. injection E' as <-.
  destruct (add_comments_total (p_comments p) (lsegments raw :: vs) false)
    as (vs' & m & -> & Hl' & F' & F2); [by constructor|]. simpl. intros [= <-]. simpl.
  assert (∃ j, vs !! j = Some (lsegments l)) as [j Hj].
  { destruct (decide (k < max_values raw)) as [Hk|Hk].
    - exists k. rewrite <- Hvs by lia. by rewrite El.
    - exists (max_values raw - 1). rewrite <- Hvs by lia.
      rewrite (lower_run_agree _ _ k (max_values raw - 1) l); [done|done|done|lia|lia]. }
  destruct (Forall2_lookup_l _ _ _ (S j) (lsegments l) F2) as (v & Hv & extra & ->); [done|].
  exists (lsegments l ++ extra), extra. split; [|done]. by eapply list_elem_of_lookup_2.
Qed.

Definition seg_of (ws : list string) : Segment := mkSegment ((λ w, mkWord (lit w) false) <$> ws).

(** A concrete line whose variable has two values, read at index 7. *)
Definition rc_input : str := lit "A=x A=y; rm $A".
Definition rc_ast : list Pipeline * Parser :=
  match parse_ast rc_input with Ok r => r | _ => ([], init_parser []) end.
Definition rc_run (pick : option nat) : Lower :=
  default (lower_new None) (lower_run (p_heredocs rc_ast.2) rc_ast.1 pick).
Definition rc_low : Lowered :=
  match parse rc_input with Ok l => l | _ => mkLowered [] [] [] false end.

Lemma readings_complete_witness :
  ∃ v extra, v ∈ variants rc_low
    ∧ v = [seg_of ["A=x"; "A=y"]; seg_of ["rm"; "y"]]%string ++ extra.
Proof.
  destruct (readings_complete rc_input 7 rc_ast.1 rc_ast.2 (rc_run None) (rc_run (Some 7)) rc_low
    ltac:(vm_compute; reflexivity) ltac:(vm_compute; reflexivity) ltac:(vm_compute; reflexivity)
    ltac:(split; [apply Nat.ltb_lt; vm_compute; reflexivity|apply Nat.leb_le; vm_compute; reflexivity])
    ltac:(apply Nat.leb_le; vm_compute; reflexivity) ltac:(vm_compute; reflexivity))
    as (v & extra & Hv & E).
  exists v, extra. split; [exact Hv|]. rewrite E. f_equal.
Defined.

(** The number of readings is counted in the as-written reading only, and a
    [for] over an unquoted variable has more values once that variable is known:
    in [A='x /'; for i in $A; do rm -rf $i; done] no reading shows [rm -rf /],
    although reading every variable at index 1 would. *)
Theorem split_loop_value_missed :
  let s := lit "A='x /'; for i in $A; do rm -rf $i; done" in
  let bad := seg_of ["rm"; "-rf"; "/"]%string in
  match parse s, parse_ast s with
  | Ok low, Ok (prog, p) =>
      bool_decide (bad ∈ mjoin (variants low)) = false
      ∧ match lower_run (p_heredocs p) prog (Some 1) with
        | Some l => bool_decide (bad ∈ lsegments l) = true
        | None => False
        end
  | _, _ => False
  end.
Proof. vm_compute. by split. Qed.

(** Some of the crate's own unit tests, evaluated on the model. *)
Definition segs (input : str) : option (list (list str)) :=
  match parse input with
  | Ok low => option_map (map (λ s, map text (words s))) (head (variants low))
  | _ => None
  end.
Definition words_of (t : list (list string)) : option (list (list str)) :=
  Some (map (map lit) t).
Example parse_tests :
  segs (lit "! a | b") = words_of [["a"]; ["b"]]%string
  ∧ segs (lit "ls # rm -rf ~ & b" ++ [cLF] ++ lit "# c" ++ [cLF] ++ lit "pwd")
    = words_of [["ls"]; ["pwd"]; ["#"; "rm"; "-rf"; "~"]; ["b"]; ["#"; "c"]]%string
  ∧ segs (lit "if a; then b; elif c; then d; else e; fi")
    = words_of [["a"]; ["b"]; ["c"]; ["d"]; ["e"]]%string
  ∧ segs (lit "case $x in (a|b) c;; *) d;& e) f;;& esac") = words_of [["c"]; ["d"]; ["f"]]%string
  ∧ segs (lit "[[ -f a && ( ! -d b || c < d ) ]] > out")
    = words_of [["[["; "-f"; "a"; "&&"; "("; "!"; "-d"; "b"; "||"; "c"; "<"; "d"; ")"; "]]"; ">"; "out"]]%string
  ∧ segs (lit "ls 2>err 1>>log >|clob") = words_of [["ls"; ">"; "err"; ">>"; "log"; ">|"; "clob"]]%string
  ∧ segs (lit "ls 2>&1 >&- 3>&2- <&0 <in <>rw") = words_of [["ls"]]%string
  ∧ segs (lit "ls 2&>x") = words_of [["ls"; "2"; "&>"; "x"]]%string
  ∧ segs (lit "echo if then } { !x") = words_of [["echo"; "if"; "then"; "}"; "{"; "!x"]]%string
  ∧ forallb (λ t, bool_decide (segs (lit t) = None))
      [";"; "a; ;"; "| a"; "a )"; "then ls"; "fi"; "! ! ls"; "(ls"; "echo >"; "echo ("; "f (x";
       "[[ -f x"; "if a; then b"; "case x in a) ls"; "case x in a ls"; "case";
       "for 1 in a; do b; done"; "function"; "((a)b))"; "((a"; "cat <<EOF"]%string = true.
Proof. split_and!; vm_compute; reflexivity. Qed.
