(* ===== verification/Assess.v ===== *)
(** Blast-radius classification of a command line
    ([crates/command-risk/src/assess.rs]) and the decision taken on it
    ([crates/command-risk/src/lib.rs]).

    [assess_with_home] calls itself on the scripts, substitution bodies and
    [-c]/[eval] strings it finds. The definitions are written against the
    recursive call ([self]); [assess_fuel] ties the knot, and [None] stands for a
    call that has not returned within the fuel. *)

From S2P Require Import Prelude RustStr Paths Tokenize Parse Lower.

(** ** Levels and assessments *)

Inductive RiskLevel := Safe | Caution | Destructive | Catastrophic.
#[global] Instance RiskLevel_eq_dec : EqDecision RiskLevel.
Proof. solve_decision. Defined.

(** The derived order. *)
Definition rank (l : RiskLevel) : nat :=
  match l with Safe => 0 | Caution => 1 | Destructive => 2 | Catastrophic => 3 end.
Definition level_lt (a b : RiskLevel) : bool := rank a <? rank b.
Definition level_le (a b : RiskLevel) : bool := rank a <=? rank b.
Definition level_max (a b : RiskLevel) : RiskLevel := if level_lt b a then a else b.
Definition level_min (a b : RiskLevel) : RiskLevel := if level_lt b a then b else a.

Definition escalate (l : RiskLevel) : RiskLevel :=
  match l with Safe => Caution | Caution => Destructive | Destructive | Catastrophic => Catastrophic end.

Definition as_str (l : RiskLevel) : str :=
  match l with
  | Safe => lit "safe"
  | Caution => lit "caution"
  | Destructive => lit "destructive"
  | Catastrophic => lit "catastrophic"
  end.

Record Assessment := mkAssessment { level : RiskLevel; reason : option str }.
#[global] Instance Assessment_eq_dec : EqDecision Assessment.
Proof. solve_decision. Defined.

Definition safe : Assessment := mkAssessment Safe None.
Definition at_level (l : RiskLevel) (reason : str) : Assessment := mkAssessment l (Some reason).
Definition worse_of (self other : Assessment) : Assessment :=
  if level_lt (level self) (level other) then other else self.

Definition DESTRUCTIVE_COMMANDS : list string :=
  ["rm"; "rmdir"; "shred"; "dd"; "mkfs"; "fdisk"; "truncate"; "find"; "chmod"; "chown"; "mv"]%string.

(** ** Textual checks on the whole line *)

(** A zsh [=(] at a word boundary; [prev] is the byte before it. *)
Definition equals_boundary (prev : option N) : bool :=
  match prev with
  | None => true
  | Some p => is_ascii_whitespace p || bool_decide (p ∈ lit ";|&()")
  end.

Fixpoint process_substitution_go (prev : option N) (bytes : list N) : bool :=
  match bytes with
  | a :: (b :: _) as bytes' =>
      if ((a =? chr "<")%N || (a =? chr ">")%N) && (b =? chr "(")%N then true
      else if (a =? chr "=")%N && (b =? chr "(")%N && equals_boundary prev then true
      else process_substitution_go (Some a) bytes'
  | _ => false
  end.
Definition has_process_substitution (command : str) : bool :=
  process_substitution_go None (utf8 command).

Definition INTERP : list string :=
  ["python"; "python3"; "python2"; "node"; "deno"; "ruby"; "perl"; "php"; "lua"; "osascript"]%string.

Definition interp_word_char (c : rchar) : bool :=
  is_ascii_alphanumeric c || (c =? chr "_")%N || (c =? chr ".")%N || (c =? chr "/")%N.

Definition has_interpreter_code_injection (command : str) : bool :=
  if negb (contains command (lit "$(")) && negb (contains_char command cBT) then false
  else
    let lower := to_ascii_lowercase command in
    existsb (λ name,
      existsb (λ w, (w == lit name) || ends_with w (chr "/" :: lit name))
        (split_on (λ c, negb (interp_word_char c)) lower)
      && (contains lower (lit " -c") || contains lower (lit " -e") || contains lower (lit " --eval")))
      INTERP.

Definition mentions_destructive_command (command : str) : bool :=
  existsb (λ w, is_one_of w DESTRUCTIVE_COMMANDS)
    (split_on (λ c, negb (is_ascii_alphanumeric c)) command).

(** ** One segment *)

Section segment.
Context (project : str) (home : option str).

Definition scope_key (s : PathScope) : nat :=
match s with InProject => 0 | Outside => 1 | ScopeCatastrophic => 2 end.

(** [Iterator::max_by_key]: the last of the maximal elements. *)
Definition max_step (best : option (PathScope * str)) (x : PathScope * str) : option (PathScope * str) :=
match best with
| None => Some x
| Some b => if scope_key b.1 <=? scope_key x.1 then Some x else Some b
end.

Definition worst_target (args : list Word) : option (PathScope * str) :=
foldl max_step None
((λ w, (classify (text w) project home, text w))
 <$> List.filter (λ w, looks_like_path (text w)) args).

Definition has_flag (args : list Word) (short : list rchar) (long : list string) : bool :=
existsb (λ w,
match strip_prefix (lit "--") (text w) with
| Some rest => is_one_of rest long
| None =>
    match strip_prefix (lit "-") (text w) with
    | Some rest => existsb (λ c, bool_decide (c ∈ short)) rest
    | None => false
    end
end) args.

Definition assess_delete (command : str) (args : list Word) : Assessment :=
let recursive := has_flag args (lit "rR") ["recursive"]%string in
let forced := has_flag args (lit "f") ["force"]%string in
match worst_target args with
| Some (ScopeCatastrophic, target) =>
  at_level Catastrophic
    (quoted command ++ lit " targets " ++ target ++ lit ", which is a home or system location")
| Some (Outside, target) =>
  at_level Destructive
    (quoted command ++ lit " deletes " ++ target ++ lit ", which is outside the project")
| Some (InProject, target) =>
  if recursive || (command == lit "shred")
  then at_level Caution (quoted command ++ lit " recursively deletes " ++ target)
  else safe
| None =>
  if recursive && forced
  then at_level Destructive
         (quoted command ++ lit " is recursive and forced but has no resolvable target")
  else safe
end.

Definition assess_find (args : list Word) : Assessment :=
let deletes := existsb (λ w, is_one_of (text w) ["-delete"; "-exec"; "-execdir"]%string) args in
if negb deletes then safe
else
let roots := take_while (λ w, negb (starts_with (text w) (lit "-"))) args in
match worst_target roots with
| Some (ScopeCatastrophic, target) =>
    at_level Catastrophic
      (quoted (lit "find") ++ lit " deletes under " ++ target
       ++ lit ", which is a home or system location")
| Some (Outside, target) =>
    at_level Destructive
      (quoted (lit "find") ++ lit " deletes under " ++ target ++ lit ", which is outside the project")
| _ => at_level Caution (quoted (lit "find") ++ lit " deletes matching files")
end.

(** [iter().find_map(..)]. *)
Definition dd_target (args : list Word) : option str :=
head (omap (λ w, strip_prefix (lit "of=") (text w)) args).

Definition assess_dd (args : list Word) : Assessment :=
match dd_target args with
| None => safe
| Some target =>
  if starts_with target (lit "/dev/")
  then at_level Catastrophic (quoted (lit "dd") ++ lit " writes directly to the device " ++ target)
  else
    match classify target project home with
    | ScopeCatastrophic =>
        at_level Catastrophic
          (quoted (lit "dd") ++ lit " overwrites " ++ target
           ++ lit ", which is a home or system location")
    | Outside =>
        at_level Destructive
          (quoted (lit "dd") ++ lit " overwrites " ++ target ++ lit ", which is outside the project")
    | InProject => at_level Caution (quoted (lit "dd") ++ lit " overwrites " ++ target)
    end
end.

Definition assess_truncate (args : list Word) : Assessment :=
match worst_target args with
| Some (ScopeCatastrophic, target) =>
  at_level Catastrophic
    (quoted (lit "truncate") ++ lit " empties " ++ target
     ++ lit ", which is a home or system location")
| Some (Outside, target) =>
  at_level Destructive
    (quoted (lit "truncate") ++ lit " empties " ++ target ++ lit ", which is outside the project")
| Some (InProject, target) =>
  at_level Caution (quoted (lit "truncate") ++ lit " empties " ++ target)
| None => safe
end.

Definition assess_permission_change (command : str) (args : list Word) : Assessment :=
if negb (has_flag args (lit "R") ["recursive"]%string) then safe
else
let quoted_R := [cBT] ++ command ++ lit " -R" ++ [cBT] in
match worst_target args with
| Some (ScopeCatastrophic, target) =>
    at_level Catastrophic (quoted_R ++ lit " rewrites permissions under " ++ target)
| Some (Outside, target) =>
    at_level Destructive
      (quoted_R ++ lit " rewrites permissions under " ++ target ++ lit ", outside the project")
| Some (InProject, target) =>
    at_level Caution (quoted_R ++ lit " rewrites permissions under " ++ target)
| None => safe
end.

Definition assess_move (args : list Word) : Assessment :=
match worst_target args with
| Some (ScopeCatastrophic, target) =>
  at_level Catastrophic
    (quoted (lit "mv") ++ lit " operates on " ++ target
     ++ lit ", which is a home or system location")
| Some (Outside, target) =>
  at_level Caution
    (quoted (lit "mv") ++ lit " operates on " ++ target ++ lit ", which is outside the project")
| _ => safe
end.

Definition assess_git (args : list Word) : Assessment :=
let words := text <$> args in
let sub := default [] (head words) in
let has (flag : string) := existsb (λ w, w == lit flag) words in
if (sub == lit "reset") && has "--hard"%string then
at_level Caution (quoted (lit "git reset --hard") ++ lit " discards uncommitted changes")
else if (sub == lit "clean")
      && existsb (λ w, starts_with (text w) (lit "-") && contains_char (text w) (chr "f")) args
then at_level Caution (quoted (lit "git clean -f") ++ lit " deletes untracked files")
else if is_one_of sub ["checkout"; "restore"]%string && has "."%string then
at_level Caution
  (quoted (lit "git " ++ sub ++ lit " .") ++ lit " discards uncommitted changes")
else if (sub == lit "push")
      && (has "--force"%string || has "-f"%string || has "--mirror"%string) then
at_level Destructive (quoted (lit "git push --force") ++ lit " rewrites history on the remote")
else if sub == lit "filter-branch" then
at_level Destructive (quoted (lit "git filter-branch") ++ lit " rewrites every commit")
else safe.

(** The words of a segment in pairs with what follows each. *)
Fixpoint assess_redirects_go (ws : list Word) (worst : Assessment) : Assessment :=
match ws with
| [] => worst
| word :: ws' =>
  if negb (is_redirect (text word)) || negb (is_truncating_redirect (text word)) then
    assess_redirects_go ws' worst
  else
    match ws' with
    | [] => assess_redirects_go ws' worst
    | target :: _ =>
        if is_null_device (text target) then assess_redirects_go ws' worst
        else
          let found :=
            match classify (text target) project home with
            | ScopeCatastrophic =>
                at_level Catastrophic
                  (quoted (lit ">") ++ lit " truncates " ++ text target
                   ++ lit ", a home or system location")
            | Outside =>
                at_level Destructive
                  (quoted (lit ">") ++ lit " truncates " ++ text target ++ lit ", outside the project")
            | InProject =>
                at_level Caution (quoted (lit ">") ++ lit " truncates " ++ text target)
            end in
          assess_redirects_go ws' (worse_of worst found)
    end
end.
Definition assess_redirects (segment : Segment) : Assessment :=
assess_redirects_go (words segment) safe.

(** ** The arms that recurse *)

Context (self : str → option Assessment).

Definition assess_piped_shell (previous : option Segment) : Assessment :=
match previous with
| None => safe
| Some previous =>
  match command previous with
  | Some c =>
      if is_one_of c ["curl"; "wget"; "fetch"]%string
      then at_level Destructive
             (lit "output of " ++ quoted c ++ lit " is piped straight into a shell")
      else safe
  | None => safe
  end
end.

Definition is_c_flag (word : str) : bool :=
starts_with word (lit "-") && negb (starts_with word (lit "--")) && contains_char word (chr "c").

(** The argument after the first [-c] flag. *)
Fixpoint c_script (args : list Word) : option Word :=
match args with
| [] => None
| w :: args' => if is_c_flag (text w) then head args' else c_script args'
end.

Definition assess_shell_invocation (args : list Word) (previous : option Segment) : option Assessment :=
let piped := assess_piped_shell previous in
match c_script args with
| None => Some piped
| Some script =>
  if dynamic script then
    Some (worse_of piped (at_level Destructive
      (lit "shell runs a command string built by substitution, which cannot be checked")))
  else worse_of piped <$> self (text script)
end.

Definition assess_eval (args : list Word) : option Assessment :=
match args with
| [] => Some safe
| _ =>
  let joined := join (lit " ") (text <$> args) in
  if existsb dynamic args || has_unresolved_variable joined then
    Some (at_level Destructive
      (quoted (lit "eval") ++ lit " runs a string built by substitution, which cannot be checked"))
  else self joined
end.

(** The [match command] of [assess_segment]. *)
Definition assess_command (command : str) (args : list Word) (previous : option Segment)
: option Assessment :=
if is_one_of command ["rm"; "rmdir"; "shred"]%string then Some (assess_delete command args)
else if command == lit "find" then Some (assess_find args)
else if command == lit "dd" then Some (assess_dd args)
else if starts_with command (lit "mkfs") then
Some (at_level Catastrophic
  (quoted command ++ lit " creates a filesystem, erasing the target"))
else if is_one_of command ["fdisk"; "parted"; "diskutil"; "format"]%string then
Some (at_level Catastrophic
  (quoted command ++ lit " writes a partition table or filesystem"))
else if command == lit "truncate" then Some (assess_truncate args)
else if is_one_of command ["chmod"; "chown"]%string then
Some (assess_permission_change command args)
else if command == lit "mv" then Some (assess_move args)
else if command == lit "git" then Some (assess_git args)
else if is_one_of command ["sh"; "bash"; "zsh"; "fish"]%string then
assess_shell_invocation args previous
else if command == lit "eval" then assess_eval args
else Some safe.

(** Targets that come from a substitution. *)
Definition escalate_dynamic (segment : Segment) (base : Assessment) : Assessment :=
if has_dynamic segment && level_le Caution (level base) then
at_level (level_min (escalate (level base)) Destructive)
  (default (lit "destructive command") (reason base)
   ++ lit " (targets come from command substitution and cannot be checked)")
else base.

Definition escalate_sudo (command : str) (has_sudo : bool) (base : Assessment) : Assessment :=
if has_sudo && level_lt (level base) Catastrophic then
at_level (level_max (escalate (level base)) Caution)
  (match reason base with
   | Some r => r ++ lit ", run with sudo"
   | None => quoted (lit "sudo " ++ command) ++ lit " runs with elevated privileges"
   end)
else base.

Definition assess_segment (segment : Segment) (previous : option Segment) : option Assessment :=
match command segment with
| None => Some safe
| Some command =>
  let args := args segment in
  let has_sudo := existsb (λ w, text w == lit "sudo") (words segment) in
  base ← assess_command command args previous;
  let base := worse_of base (assess_redirects segment) in
  let base := escalate_dynamic segment base in
  Some (escalate_sudo command has_sudo base)
end.

(** ** The whole line *)

Fixpoint assess_segments (previous : option Segment) (segs : list Segment) (worst : Assessment)
: option Assessment :=
match segs with
| [] => Some worst
| segment :: segs' =>
  a ← assess_segment segment previous;
  assess_segments (Some segment) segs' (worse_of worst a)
end.

Fixpoint assess_variants (variants : list (list Segment)) (worst : Assessment) : option Assessment :=
match variants with
| [] => Some worst
| segs :: vs => worst ← assess_segments None segs worst; assess_variants vs worst
end.

(** The scripts (or bodies) found in the line, [why] giving the reason's text. *)
Fixpoint assess_nested (why : str → str → str) (scripts : list str) (worst : Assessment)
: option Assessment :=
match scripts with
| [] => Some worst
| script :: ss =>
  inner ← self script;
  assess_nested why ss
    (if level_lt (level worst) (level inner)
     then at_level (level inner) (why script (default [] (reason inner))) else worst)
end.

(** [if !bodies.contains(&body) { bodies.push(body) }]. *)
Definition push_new (bodies : list str) (body : str) : list str :=
if bool_decide (body ∈ bodies) then bodies else bodies ++ [body].

(** The front-end: the parser, or the tokenizer where it fails. The result is
[(variants, malformed, parsed_bodies, scripts)]. *)
Definition front_end (command : str) : option (list (list Segment) * bool * list str * list str) :=
match parse command with
| Ok l => Some (variants l, lmalformed l, lbodies l, scripts l)
| ParseError =>
  tokens ← tokenize command;
  Some ([segments tokens], malformed tokens, [], [])
| Panic | OutOfFuel => None
end.

Definition script_reason (_ why : str) : str := lit "a shell reads a script from stdin: " ++ why.
Definition body_reason (body why : str) : str :=
lit "command substitution runs " ++ quoted (trim body) ++ lit ": " ++ why.

Definition worse_if (cond : bool) (worst : Assessment) (l : RiskLevel) (reason : str) : Assessment :=
if cond then worse_of worst (at_level l reason) else worst.

Definition assess_body (command : str) : option Assessment :=
'(variants, malformed, parsed_bodies, scripts) ← front_end command;
worst ← assess_variants variants safe;
worst ← assess_nested script_reason scripts worst;
let worst := worse_if (malformed && mentions_destructive_command command) worst Destructive
(lit "command could not be parsed reliably and contains a destructive command") in
bodies ← substitution_bodies command;
worst ← assess_nested body_reason (foldl push_new bodies parsed_bodies) worst;
let worst := worse_if (has_process_substitution command) worst Destructive
(lit "process substitution runs a nested command whose effects cannot be checked") in
Some (worse_if (has_interpreter_code_injection command) worst Destructive
(lit "interpreter runs a script built from substitution or stdin pipe")).
End segment.

(** [assess_with_home], [n] nested calls deep. *)
Fixpoint assess_fuel (n : nat) (project : str) (home : option str) (command : str) : option Assessment :=
  match n with
  | O => None
  | S n => assess_body project home (assess_fuel n project home) command
  end.

(** ** The decision *)

Inductive RiskThreshold := ThCaution | ThDestructive | ThOff.
Inductive Decision :=
| Allow
| Confirm (reason : str)
| Refuse (reason : str).

Definition decide (assessment : Assessment) (threshold : RiskThreshold) : Decision :=
  let reason := default (lit "destructive command") (reason assessment) in
  if level assessment == Catastrophic then Refuse reason
  else
    let at_ (confirm_at : RiskLevel) :=
      if level_le confirm_at (level assessment) then Confirm reason else Allow in
    match threshold with
    | ThCaution => at_ Caution
    | ThDestructive => at_ Destructive
    | ThOff => Allow
    end.
