(* ===== verification/AssessFacts.v ===== *)
(** What an assessment promises: it is the worst of its findings, it carries a
    reason exactly when it is above [Safe], what it cannot resolve it does not
    call safe, and a catastrophic finding cannot be approved away. *)

From S2P Require Import Prelude RustStr Paths Tokenize Parse ParseFacts ParseTotal Lower LowerFacts Assess.

(** ** Levels as an order *)

Definition below (a b : RiskLevel) : Prop := rank a ≤ rank b.
Infix "⊑l" := below (at level 70).

#[global] Instance below_preorder : PreOrder below.
Proof. unfold below. split; [intros a; lia|intros a b c; lia]. Qed.

Lemma rank_inj a b : rank a = rank b → a = b.
Proof. by destruct a, b. Qed.
Lemma safe_below l : Safe ⊑l l.
Proof. unfold below. simpl. lia. Qed.
Lemma below_catastrophic l : l ⊑l Catastrophic.
Proof. unfold below. destruct l; simpl; lia. Qed.
Lemma catastrophic_below l : Catastrophic ⊑l l → l = Catastrophic.
Proof. unfold below. destruct l; simpl; try done; lia. Qed.

Lemma worse_of_level a b : level (worse_of a b) = level_max (level a) (level b).
Proof.
  unfold worse_of, level_max, level_lt.
  destruct (Nat.ltb_spec (rank (level a)) (rank (level b))), (Nat.ltb_spec (rank (level b)) (rank (level a)));
    try done; [lia|apply rank_inj; lia].
Qed.
Lemma worse_of_l a b : level a ⊑l level (worse_of a b).
Proof.
  rewrite worse_of_level. unfold level_max, level_lt, below.
  destruct (Nat.ltb_spec (rank (level b)) (rank (level a))); lia.
Qed.
Lemma worse_of_r a b : level b ⊑l level (worse_of a b).
Proof.
  rewrite worse_of_level. unfold level_max, level_lt, below.
  destruct (Nat.ltb_spec (rank (level b)) (rank (level a))); lia.
Qed.
Lemma worse_of_or a b : worse_of a b = a ∨ worse_of a b = b.
Proof. unfold worse_of. destruct (level_lt _ _); auto. Qed.

#[export] Hint Resolve safe_below below_catastrophic worse_of_l worse_of_r : rust.
#[export] Hint Extern 2 (_ ⊑l _) => reflexivity : rust.

(** ** A reason exactly above [Safe] *)

Definition reasoned (a : Assessment) : Prop := reason a = None ↔ level a = Safe.

Lemma reasoned_safe : reasoned safe.
Proof. done. Qed.
Lemma reasoned_at l r : l ≠ Safe → reasoned (at_level l r).
Proof. by split. Qed.
Lemma reasoned_worse_of a b : reasoned a → reasoned b → reasoned (worse_of a b).
Proof. by destruct (worse_of_or a b) as [-> | ->]. Qed.
Lemma reasoned_worse_if c a l r : l ≠ Safe → reasoned a → reasoned (worse_if c a l r).
Proof. intros ??. destruct c; [|done]. by apply reasoned_worse_of, reasoned_at. Qed.
#[export] Hint Resolve reasoned_safe reasoned_worse_of reasoned_worse_if : rust.
#[export] Hint Extern 1 (reasoned (at_level _ _)) => apply reasoned_at; discriminate : rust.
#[export] Hint Extern 1 (_ ≠ Safe) => discriminate : rust.

Section segment.
Context (project : str) (home : option str).

Lemma assess_delete_reasoned c args : reasoned (assess_delete project home c args).
Proof. unfold assess_delete. repeat case_match; auto with rust. Qed.
Lemma assess_find_reasoned args : reasoned (assess_find project home args).
Proof. unfold assess_find. repeat case_match; auto with rust. Qed.
Lemma assess_dd_reasoned args : reasoned (assess_dd project home args).
Proof. unfold assess_dd. repeat case_match; auto with rust. Qed.
Lemma assess_truncate_reasoned args : reasoned (assess_truncate project home args).
Proof. unfold assess_truncate. repeat case_match; auto with rust. Qed.
Lemma assess_permission_change_reasoned c args :
reasoned (assess_permission_change project home c args).
Proof. unfold assess_permission_change. repeat case_match; auto with rust. Qed.
Lemma assess_move_reasoned args : reasoned (assess_move project home args).
Proof. unfold assess_move. repeat case_match; auto with rust. Qed.
Lemma assess_git_reasoned args : reasoned (assess_git args).
Proof. unfold assess_git. repeat case_match; auto with rust. Qed.
Lemma assess_redirects_reasoned seg : reasoned (assess_redirects project home seg).
Proof.
unfold assess_redirects. assert (reasoned safe) as H by done. revert H. generalize safe.
induction (words seg) as [|w ws IH]; intros a Ha; simpl; [done|].
repeat case_match; auto with rust.
Qed.
Lemma assess_piped_shell_reasoned prev : reasoned (assess_piped_shell prev).
Proof. unfold assess_piped_shell. repeat case_match; auto with rust. Qed.

Context (self : str → option Assessment).
Context (Hself : ∀ s a, self s = Some a → reasoned a).

Lemma assess_command_reasoned c args prev a :
assess_command project home self c args prev = Some a → reasoned a.
Proof.
unfold assess_command, assess_shell_invocation, assess_eval.
intros H. repeat case_match; simplify_eq;
auto using assess_delete_reasoned, assess_find_reasoned, assess_dd_reasoned,
  assess_truncate_reasoned, assess_permission_change_reasoned, assess_move_reasoned,
  assess_git_reasoned, assess_piped_shell_reasoned with rust; try (by eapply Hself).
apply fmap_Some in H as (b & Hb & ->).
apply reasoned_worse_of; [apply assess_piped_shell_reasoned|by eapply Hself].
Qed.

Lemma escalate_not_safe l : escalate l ≠ Safe.
Proof. by destruct l. Qed.

Lemma escalate_dynamic_reasoned seg a : reasoned a → reasoned (escalate_dynamic seg a).
Proof.
intros Ha. unfold escalate_dynamic. case_match; [|done]. apply reasoned_at.
by destruct (level a).
Qed.
Lemma escalate_sudo_reasoned c b a : reasoned a → reasoned (escalate_sudo c b a).
Proof.
intros Ha. unfold escalate_sudo. case_match; [|done]. apply reasoned_at. by destruct (level a).
Qed.

Lemma assess_segment_reasoned seg prev a :
assess_segment project home self seg prev = Some a → reasoned a.
Proof.
unfold assess_segment. case_match; [|by intros [= <-]].
intros (b & Hb & [= <-])%bind_Some. apply escalate_sudo_reasoned, escalate_dynamic_reasoned.
apply reasoned_worse_of; [by eapply assess_command_reasoned|apply assess_redirects_reasoned].
Qed.
End segment.

(** ** The worst of the findings

    [stage P w w']: going from [w] to [w'] took in exactly the findings [P]. *)

Definition stage (P : RiskLevel → Prop) (w w' : Assessment) : Prop :=
  level w ⊑l level w' ∧ (∀ l, P l → l ⊑l level w') ∧ (level w' = level w ∨ P (level w')).

Lemma stage_none w : stage (λ _, False) w w.
Proof. split_and!; auto with rust. done. Qed.
Lemma stage_trans (P Q : RiskLevel → Prop) w1 w2 w3 :
  stage P w1 w2 → stage Q w2 w3 → stage (λ l, P l ∨ Q l) w1 w3.
Proof.
  intros (A1 & B1 & C1) (A2 & B2 & C2). split_and!; [by etrans| |].
  - intros l [H|H]; [etrans; [by apply B1|done]|by apply B2].
  - destruct C2 as [->|?]; [|auto]. destruct C1; auto.
Qed.
Lemma stage_equiv (P Q : RiskLevel → Prop) w w' : (∀ l, P l ↔ Q l) → stage P w w' → stage Q w w'.
Proof. intros H (A & B & C). split_and!; [done| |]; setoid_rewrite <- H; done. Qed.

Lemma stage_worse_of w a : stage (λ l, l = level a) w (worse_of w a).
Proof.
  split_and!; [apply worse_of_l| |].
  - intros l ->. apply worse_of_r.
  - destruct (worse_of_or w a) as [-> | ->]; auto.
Qed.
Lemma stage_worse_if c w l r : stage (λ l', c = true ∧ l' = l) w (worse_if c w l r).
Proof.
  destruct c; simpl.
  - eapply stage_equiv; [|apply stage_worse_of]. naive_solver.
  - eapply stage_equiv; [|apply stage_none]. naive_solver.
Qed.

Section whole.
Context (project : str) (home : option str) (self : str → option Assessment).

(** The segment before the [i]-th one. *)
Definition previous_of (segs : list Segment) (i : nat) : option Segment :=
match i with O => None | S j => segs !! j end.

Lemma assess_segments_stage prev segs w w' :
assess_segments project home self prev segs w = Some w' →
stage (λ l, ∃ i seg b, segs !! i = Some seg
∧ assess_segment project home self seg (match i with O => prev | S j => segs !! j end) = Some b
∧ l = level b) w w'.
Proof.
revert prev w. induction segs as [|s segs IH]; intros prev w; simpl.
{ intros [= <-]. eapply stage_equiv; [|apply stage_none]. naive_solver. }
intros (a & Ha & H)%bind_Some. apply IH in H.
eapply stage_equiv; [|exact (stage_trans _ _ _ _ _ (stage_worse_of w a) H)].
intros l. split.
- intros [->|(i & seg & b & ? & Hb & ->)]; [by exists 0, s, a|].
exists (S i), seg, b. by split_and!.
- intros ([|i] & seg & b & Hi & Hb & ->).
+ simpl in *. simplify_eq. by left.
+ right. exists i, seg, b. by split_and!.
Qed.

Lemma assess_variants_stage vs w w' :
assess_variants project home self vs w = Some w' →
stage (λ l, ∃ segs i seg b, segs ∈ vs ∧ segs !! i = Some seg
∧ assess_segment project home self seg (previous_of segs i) = Some b ∧ l = level b) w w'.
Proof.
revert w. induction vs as [|segs vs IH]; intros w; simpl.
{ intros [= <-]. eapply stage_equiv; [|apply stage_none].
intros l. split; [done|]. intros (? & ? & ? & ? & H & _). by apply elem_of_nil in H. }
intros (w1 & H1%assess_segments_stage & H2%IH)%bind_Some.
eapply stage_equiv; [|exact (stage_trans _ _ _ _ _ H1 H2)].
intros l. setoid_rewrite elem_of_cons. unfold previous_of. naive_solver.
Qed.

Lemma assess_nested_stage why ss w w' :
assess_nested self why ss w = Some w' →
stage (λ l, ∃ s b, s ∈ ss ∧ self s = Some b ∧ l = level b) w w'.
Proof.
revert w. induction ss as [|s ss IH]; intros w; simpl.
{ intros [= <-]. eapply stage_equiv; [|apply stage_none].
intros l. split; [done|]. intros (? & ? & H & _). by apply elem_of_nil in H. }
intros (b & Hb & H%IH)%bind_Some.
assert (stage (λ l, l = level b) w
(if level_lt (level w) (level b)
 then at_level (level b) (why s (default [] (reason b))) else w)) as Hs.
{ unfold level_lt, stage, below. destruct (Nat.ltb_spec (rank (level w)) (rank (level b))); simpl.
- split_and!; [lia|intros l ->; lia|auto].
- split_and!; [lia|intros l ->; lia|auto]. }
eapply stage_equiv; [|exact (stage_trans _ _ _ _ _ Hs H)].
intros l. setoid_rewrite elem_of_cons. naive_solver.
Qed.

Lemma push_new_elem bodies bs x : x ∈ foldl push_new bodies bs ↔ x ∈ bodies ∨ x ∈ bs.
Proof.
revert bodies. induction bs as [|b bs IH]; intros bodies; simpl.
- rewrite elem_of_nil. naive_solver.
- rewrite IH, elem_of_cons. unfold push_new. case_bool_decide; [naive_solver|].
rewrite elem_of_app, list_elem_of_singleton. naive_solver.
Qed.

(** What there is to find in a command line. *)
Inductive finding (command : str) : RiskLevel → Prop :=
| find_segment vs m bs ss segs i seg b :
front_end command = Some (vs, m, bs, ss) → segs ∈ vs → segs !! i = Some seg →
assess_segment project home self seg (previous_of segs i) = Some b →
finding command (level b)
| find_script vs m bs ss s b :
front_end command = Some (vs, m, bs, ss) → s ∈ ss → self s = Some b →
finding command (level b)
| find_malformed vs m bs ss :
front_end command = Some (vs, m, bs, ss) → m = true →
mentions_destructive_command command = true → finding command Destructive
| find_body vs m bs ss scanned s b :
front_end command = Some (vs, m, bs, ss) → substitution_bodies command = Some scanned →
s ∈ scanned ∨ s ∈ bs → self s = Some b → finding command (level b)
| find_process_substitution :
has_process_substitution command = true → finding command Destructive
| find_interpreter :
has_interpreter_code_injection command = true → finding command Destructive.

Lemma assess_body_stage command a :
assess_body project home self command = Some a → stage (finding command) safe a.
Proof.
unfold assess_body. intros ([[[vs m] bs] ss] & Hf & H)%bind_Some.
apply bind_Some in H as (w1 & H1%assess_variants_stage & H).
apply bind_Some in H as (w2 & H2%assess_nested_stage & H).
apply bind_Some in H as (sc & Hsc & H).
apply bind_Some in H as (w3 & H3%assess_nested_stage & [= <-]).
eapply stage_equiv; [|eapply stage_trans; [exact H1|]; eapply stage_trans; [exact H2|];
eapply stage_trans; [apply stage_worse_if|]; eapply stage_trans; [exact H3|];
eapply stage_trans; [apply stage_worse_if|apply stage_worse_if]].
setoid_rewrite push_new_elem. intros l. split.
- intros [(segs & i & seg & b & ? & ? & ? & ->)|[(s & b & ? & ? & ->)|[[[??]%andb_true_iff ->]|
  [(s & b & ? & ? & ->)|[[? ->]|[? ->]]]]]]; by econstructor.
- intros []; simplify_eq; try naive_solver.
Qed.
End whole.

(** A segment that does not return keeps the whole line from returning. *)
Section diverge.
Context (project : str) (home : option str) (self : str → option Assessment).

Lemma assess_segments_None prev segs w i seg :
segs !! i = Some seg →
assess_segment project home self seg (match i with O => prev | S j => segs !! j end) = None →
assess_segments project home self prev segs w = None.
Proof.
revert prev w i. induction segs as [|s segs IH]; intros prev w i; [done|].
destruct i as [|i]; cbn [lookup list_lookup assess_segments].
- intros [= ->] ->. done.
- intros Hi Hn. destruct (assess_segment project home self s prev); [|done]. simpl.
by apply (IH _ _ i).
Qed.
Lemma assess_variants_None vs w segs i seg :
segs ∈ vs → segs !! i = Some seg →
assess_segment project home self seg (previous_of segs i) = None →
assess_variants project home self vs w = None.
Proof.
intros Hvs Hi Hn. revert w. induction vs as [|v vs IH]; intros w; simpl;
[by apply elem_of_nil in Hvs|].
apply elem_of_cons in Hvs as [<-|Hvs].
- by erewrite assess_segments_None.
- destruct (assess_segments _ _ _ _ _ _); [|done]. simpl. by apply IH.
Qed.
End diverge.

(** ** Reasons *)

Section reasons.
Context (project : str) (home : option str) (self : str → option Assessment).
Context (Hself : ∀ s a, self s = Some a → reasoned a).

Lemma assess_segments_reasoned prev segs w a :
reasoned w → assess_segments project home self prev segs w = Some a → reasoned a.
Proof.
revert prev w. induction segs as [|s segs IH]; intros prev w Hw; simpl; [by intros [= <-]|].
intros (b & Hb & H)%bind_Some. eapply IH; [|exact H]. apply reasoned_worse_of; [done|].
by eapply assess_segment_reasoned.
Qed.
Lemma assess_variants_reasoned vs w a :
reasoned w → assess_variants project home self vs w = Some a → reasoned a.
Proof.
revert w. induction vs as [|segs vs IH]; intros w Hw; simpl; [by intros [= <-]|].
intros (b & Hb & H)%bind_Some. eapply IH; [|exact H]. by eapply assess_segments_reasoned.
Qed.
Lemma assess_nested_reasoned why ss w a :
reasoned w → assess_nested self why ss w = Some a → reasoned a.
Proof.
revert w. induction ss as [|s ss IH]; intros w Hw; simpl; [by intros [= <-]|].
intros (b & Hb & H)%bind_Some. eapply IH; [|exact H]. case_match eqn:E; [|done].
apply reasoned_at. intros Hs. rewrite Hs in E. unfold level_lt in E. simpl in E. boolp. lia.
Qed.
Lemma assess_body_reasoned command a :
assess_body project home self command = Some a → reasoned a.
Proof.
unfold assess_body. intros ([[[vs m] bs] ss] & _ & H)%bind_Some.
apply bind_Some in H as (w1 & H1 & H). apply bind_Some in H as (w2 & H2 & H).
apply bind_Some in H as (sc & _ & H). apply bind_Some in H as (w3 & H3 & [= <-]).
apply assess_variants_reasoned in H1; [|done]. apply assess_nested_reasoned in H2; [|done].
apply assess_nested_reasoned in H3; auto with rust.
Qed.
End reasons.

(** An assessment carries a reason exactly when its level is above [Safe], so
    the prompt for anything else always says why. *)
Theorem assess_reasoned n project home command a :
  assess_fuel n project home command = Some a → (reason a = None ↔ level a = Safe).
Proof.
  revert command a. induction n as [|n IH]; intros command a H; [done|].
  by eapply assess_body_reasoned.
Qed.

(** ** More fuel changes nothing *)

Section fuel.
Context (project : str) (home : option str) (self self' : str → option Assessment).
Context (Hle : ∀ s a, self s = Some a → self' s = Some a).

Lemma assess_segment_mono seg prev a :
assess_segment project home self seg prev = Some a →
assess_segment project home self' seg prev = Some a.
Proof.
unfold assess_segment. case_match; [|done]. intros (b & Hb & [= <-])%bind_Some.
enough (assess_command project home self' l (args seg) prev = Some b) as -> by done.
revert Hb. unfold assess_command, assess_shell_invocation, assess_eval.
repeat case_match; auto.
intros (x & Hx & ->)%fmap_Some. by rewrite (Hle _ _ Hx).
Qed.
Lemma assess_segments_mono prev segs w a :
assess_segments project home self prev segs w = Some a →
assess_segments project home self' prev segs w = Some a.
Proof.
revert prev w. induction segs as [|s segs IH]; intros prev w; simpl; [done|].
intros (b & Hb & H)%bind_Some. rewrite (assess_segment_mono _ _ _ Hb). simpl. auto.
Qed.
Lemma assess_variants_mono vs w a :
assess_variants project home self vs w = Some a →
assess_variants project home self' vs w = Some a.
Proof.
revert w. induction vs as [|segs vs IH]; intros w; simpl; [done|].
intros (b & Hb & H)%bind_Some. rewrite (assess_segments_mono _ _ _ _ Hb). simpl. auto.
Qed.
Lemma assess_nested_mono why ss w a :
assess_nested self why ss w = Some a → assess_nested self' why ss w = Some a.
Proof.
revert w. induction ss as [|s ss IH]; intros w; simpl; [done|].
intros (b & Hb & H)%bind_Some. rewrite (Hle _ _ Hb). simpl. auto.
Qed.
Lemma assess_body_mono command a :
assess_body project home self command = Some a → assess_body project home self' command = Some a.
Proof.
unfold assess_body. intros ([[[vs m] bs] ss] & -> & H)%bind_Some. simpl.
apply bind_Some in H as (w1 & H1 & H). rewrite (assess_variants_mono _ _ _ H1). simpl.
apply bind_Some in H as (w2 & H2 & H). rewrite (assess_nested_mono _ _ _ _ H2). simpl.
apply bind_Some in H as (sc & -> & H). simpl.
apply bind_Some in H as (w3 & H3 & H). by rewrite (assess_nested_mono _ _ _ _ H3).
Qed.
End fuel.

Lemma assess_fuel_mono n m project home command a :
  n ≤ m → assess_fuel n project home command = Some a → assess_fuel m project home command = Some a.
Proof.
  revert m command a. induction n as [|n IH]; intros [|m] command a Hm H; try done; [lia|].
  simpl in *. eapply assess_body_mono; [|exact H]. intros s b Hb. apply IH; [lia|done].
Qed.

Lemma is_one_of_true s tbl : is_one_of s tbl = true ↔ ∃ t, t ∈ tbl ∧ s = lit t.
Proof. unfold is_one_of. rewrite existsb_true_iff. setoid_rewrite bool_decide_eq_true. done. Qed.

(** ** When the classification returns

    [assess_with_home] calls itself on the lines that a line hands to another shell.
    Nothing bounds this nesting: it ends on a line exactly when there is no infinite
    chain of nested lines. *)

(** The line a segment hands to a shell of its own. *)
Definition segment_script (seg : Segment) : option str :=
  cmd ← command seg;
  if is_one_of cmd ["sh"; "bash"; "zsh"; "fish"]%string then
    script ← c_script (args seg); if dynamic script then None else Some (text script)
  else if cmd == lit "eval" then
    let joined := join (lit " ") (text <$> args seg) in
    if (args seg == []) || existsb dynamic (args seg) || has_unresolved_variable joined then None else Some joined
  else None.
Definition nested_lines (line : str) : list str :=
  match front_end line with
  | Some (vs, _, bs, ss) =>
      omap segment_script (concat vs) ++ ss ++ foldl push_new (default [] (substitution_bodies line)) bs
  | None => []
  end.
Definition nesting_ends (line : str) : Prop := Acc (λ inner outer, inner ∈ nested_lines outer) line.
(** [n] levels are enough. *)
Fixpoint nesting_within (n : nat) (line : str) : bool :=
  match n with O => false | S n => forallb (nesting_within n) (nested_lines line) end.

Lemma nesting_within_ends n line : nesting_within n line = true → nesting_ends line.
Proof.
  revert line. induction n as [|n IH]; intros line; simpl; [done|]. rewrite forallb_forall. intros H.
  constructor. intros s Hs. apply IH, H. by apply list_elem_of_In.
Qed.

Section returns.
Context (project : str) (home : option str) (self : str → option Assessment).

(** The commands that recurse are two arms of [assess_command]. *)
Lemma assess_command_self cmd args prev :
  assess_command project home self cmd args prev =
  if is_one_of cmd ["sh"; "bash"; "zsh"; "fish"]%string then assess_shell_invocation self args prev
  else if cmd == lit "eval" then assess_eval self args
  else assess_command project home (λ _, None) cmd args prev.
Proof.
  destruct (is_one_of cmd ["sh"; "bash"; "zsh"; "fish"]%string) eqn:Hs.
  { apply is_one_of_true in Hs as (t & Ht & ->). repeat (apply elem_of_cons in Ht as [->|Ht]; [reflexivity|]). by apply elem_of_nil in Ht. }
  destruct (cmd == lit "eval") eqn:He; [by apply bool_decide_eq_true in He as ->|].
  unfold assess_command. by rewrite Hs, He.
Qed.

Lemma assess_segment_returns seg prev :
  is_Some (assess_segment project home self seg prev) ↔ ∀ s, segment_script seg = Some s → is_Some (self s).
Proof.
  unfold assess_segment, segment_script. destruct (command seg) as [cmd|]; cbn [mbind option_bind]; [|naive_solver].
  rewrite assess_command_self. destruct (is_one_of cmd _) eqn:Hs.
  - unfold assess_shell_invocation. destruct (c_script (args seg)) as [w|]; cbn [mbind option_bind]; [|naive_solver].
    destruct (dynamic w); [naive_solver|]. destruct (self (text w)) eqn:E; cbn; [naive_solver|].
    split; [by intros [? ?]|]. intros H. specialize (H _ eq_refl). rewrite E in H. by destruct H.
  - destruct (cmd == lit "eval") eqn:He.
    + unfold assess_eval. destruct (args seg) as [|w l] eqn:Ea; [naive_solver|]. cbn zeta.
      change ((w :: l == []) || ?b || ?c) with (b || c). destruct (existsb _ _ || _); [naive_solver|].
      generalize (join (lit " ") (text <$> w :: l)). intros j. destruct (self j) eqn:E; cbn; [naive_solver|]. split; [by intros [? ?]|]. intros H. specialize (H _ eq_refl). rewrite E in H. by destruct H.
    + assert (is_Some (assess_command project home (λ _, None) cmd (args seg) prev)) as [b ->].
      { unfold assess_command. rewrite Hs, He. repeat (match goal with |- context [if ?c then _ else _] => destruct c end; [by eexists|]). by eexists. }
      cbn. split; [done|]. intros _. by eexists.
Qed.

Lemma assess_segments_returns prev segs w :
  is_Some (assess_segments project home self prev segs w) ↔
  ∀ seg s, seg ∈ segs → segment_script seg = Some s → is_Some (self s).
Proof.
  revert prev w. induction segs as [|seg segs IH]; intros prev w; cbn [assess_segments].
  { split; [|by eexists]. intros _ seg s H. by apply elem_of_nil in H. }
  setoid_rewrite elem_of_cons. pose proof (assess_segment_returns seg prev) as Hs.
  destruct (assess_segment project home self seg prev) as [a|]; cbn [mbind option_bind].
  - rewrite IH. apply proj1 in Hs. specialize (Hs ltac:(by eexists)). naive_solver.
  - split; [by intros [? ?]|]. intros H. apply Hs. eauto.
Qed.

Lemma assess_variants_returns vs w :
  is_Some (assess_variants project home self vs w) ↔
  ∀ seg s, seg ∈ concat vs → segment_script seg = Some s → is_Some (self s).
Proof.
  revert w. induction vs as [|segs vs IH]; intros w; cbn [assess_variants concat].
  { split; [|by eexists]. intros _ seg s H. by apply elem_of_nil in H. }
  setoid_rewrite elem_of_app. pose proof (assess_segments_returns None segs w) as Hs.
  destruct (assess_segments project home self None segs w) as [a|]; cbn [mbind option_bind].
  - rewrite IH. apply proj1 in Hs. specialize (Hs ltac:(by eexists)). naive_solver.
  - split; [by intros [? ?]|]. intros H. apply Hs. eauto.
Qed.

Lemma assess_nested_returns why ss w :
  is_Some (assess_nested self why ss w) ↔ ∀ s, s ∈ ss → is_Some (self s).
Proof.
  revert w. induction ss as [|s ss IH]; intros w; cbn [assess_nested].
  { split; [|by eexists]. intros _ s H. by apply elem_of_nil in H. }
  setoid_rewrite elem_of_cons. destruct (self s) as [a|] eqn:E; cbn [mbind option_bind].
  - rewrite IH. naive_solver.
  - split; [by intros [? ?]|]. intros H. specialize (H s (or_introl eq_refl)). congruence.
Qed.

Lemma front_end_total line : is_Some (front_end line).
Proof.
  unfold front_end. pose proof (parse_total line). destruct (parse line); try done.
  destruct (tokenize_total line) as (t & -> & _). by eexists.
Qed.

Lemma assess_body_returns line :
  is_Some (assess_body project home self line) ↔ ∀ s, s ∈ nested_lines line → is_Some (self s).
Proof.
  unfold assess_body, nested_lines. destruct (front_end_total line) as [[[[vs m] bs] ss] ->].
  destruct (substitution_bodies_shrink line) as (bodies & Eb & _). rewrite Eb. cbn [mbind option_bind default].
  setoid_rewrite elem_of_app. setoid_rewrite elem_of_app. setoid_rewrite list_elem_of_omap.
  pose proof (assess_variants_returns vs safe) as Hv.
  destruct (assess_variants project home self vs safe) as [w|]; cbn [mbind option_bind].
  2: { split; [by intros [? ?]|]. intros H. apply Hv. intros seg s ??. apply H. eauto. }
  apply proj1 in Hv. specialize (Hv ltac:(by eexists)). pose proof (assess_nested_returns script_reason ss w) as Hn.
  destruct (assess_nested self script_reason ss w) as [w2|]; cbn [mbind option_bind].
  2: { split; [by intros [? ?]|]. intros H. apply Hn. eauto. }
  apply proj1 in Hn. specialize (Hn ltac:(by eexists)).
  match goal with |- context [assess_nested self body_reason ?b ?w'] => pose proof (assess_nested_returns body_reason b w') as Hb; destruct (assess_nested self body_reason b w') end;
    cbn [mbind option_bind].
  - apply proj1 in Hb. specialize (Hb ltac:(by eexists)). split; [|by eexists]. intros _ s [(seg & ? & ?)|[?|?]]; eauto.
  - split; [by intros [? ?]|]. intros H. apply Hb. eauto.
Qed.
End returns.

(** The classification returns on a line exactly when its nesting ends. *)
Lemma assess_returns project home line : nesting_ends line ↔ ∃ n, is_Some (assess_fuel n project home line).
Proof.
  split.
  - induction 1 as [line _ IH].
    assert (∃ n, ∀ s, s ∈ nested_lines line → is_Some (assess_fuel n project home s)) as [n Hn].
    { induction (nested_lines line) as [|s l IHl]; [exists 0; intros s H; by apply elem_of_nil in H|].
      destruct IHl as [n Hn]; [intros; apply IH; by right|]. destruct (IH s) as [m [a Ha]]; [by left|].
      exists (n `max` m). intros s' [->|Hs]%elem_of_cons; [exists a; eapply assess_fuel_mono; [|done]; lia|].
      destruct (Hn s' Hs) as [b Hb]. exists b. eapply assess_fuel_mono; [|done]. lia. }
    exists (S n). by apply assess_body_returns.
  - intros [n Hn]. revert line Hn. induction n as [|n IH]; intros line Hn; [by destruct Hn|].
    constructor. intros s Hs. apply IH. by apply (proj1 (assess_body_returns project home (assess_fuel n project home) line)).
Qed.

Lemma assess_never_returns project home line n : ¬ nesting_ends line → assess_fuel n project home line = None.
Proof. intros H. destruct (assess_fuel n project home line) eqn:E; [|done]. destruct H. apply (assess_returns project home). eauto. Qed.

(** C2: the classification returns on a line exactly when the nesting of shells in it
    ends, and then, at whatever depth it is let go, with the worst of the line's findings
    and nothing more: every segment of every reading (judged next to its predecessor),
    every script fed to a shell, every substitution body, an unreliable parse that
    mentions a destructive command, process substitution and interpreter injection are
    all at or below its level, and above [Safe] the level is that of one of them. *)
Theorem assess_worst_finding project home line :
  (nesting_ends line → ∃ n a, ∀ k, n ≤ k →
    assess_fuel (S k) project home line = Some a
    ∧ (let found := finding project home (assess_fuel k project home) line in
       (∀ l, found l → l ⊑l level a) ∧ (level a = Safe ∨ found (level a))))
  ∧ (¬ nesting_ends line → ∀ n, assess_fuel n project home line = None).
Proof.
  split; [|intros H n; by apply assess_never_returns].
  intros (n & a & H)%(assess_returns project home). exists n, a. intros k Hk.
  assert (assess_fuel (S k) project home line = Some a) as Ha by (eapply assess_fuel_mono; [|done]; lia).
  split; [done|]. destruct (assess_body_stage _ _ _ _ _ Ha) as (_ & H1 & H2). by split.
Qed.

(** ** Catastrophic uses *)

Section catastrophic.
Context (project : str) (home : option str).

Definition catastrophic_path (t : str) : Prop := classify t project home = ScopeCatastrophic.

Lemma max_step_key best x y :
max_step best x = Some y → scope_key x.1 ≤ scope_key y.1
∧ (∀ b, best = Some b → scope_key b.1 ≤ scope_key y.1).
Proof.
destruct best as [b|]; simpl; [|naive_solver].
destruct (Nat.leb_spec (scope_key b.1) (scope_key x.1)); intros [= <-]; split; try lia;
intros ? [= <-]; lia.
Qed.
Lemma max_step_Some best x : is_Some (max_step best x).
Proof. destruct best; simpl; [case_match|]; eauto. Qed.
Lemma foldl_max_step xs best :
(is_Some best ∨ xs ≠ []) →
∃ y, foldl max_step best xs = Some y ∧ (∀ x, x ∈ xs ∨ best = Some x → scope_key x.1 ≤ scope_key y.1).
Proof.
revert best. induction xs as [|x xs IH]; intros best Hb; simpl.
- destruct Hb as [[b ->]|]; [|done]. exists b. split; [done|].
intros x [Hx|[= ->]]; [by apply elem_of_nil in Hx|lia].
- destruct (IH (max_step best x)) as (y & E & Hy); [left; apply max_step_Some|].
exists y. split; [done|]. destruct (max_step_Some best x) as [z Hz].
pose proof (max_step_key _ _ _ Hz) as [K1 K2]. pose proof (Hy z (or_intror Hz)).
intros x' [[->|Hx]%elem_of_cons|Hx]; [lia|by apply Hy; left|]. specialize (K2 _ Hx). lia.
Qed.

Lemma worst_target_catastrophic args w :
w ∈ args → looks_like_path (text w) = true → catastrophic_path (text w) →
∃ t, worst_target project home args = Some (ScopeCatastrophic, t).
Proof.
intros Hw Hp Hc. unfold worst_target.
set (f := λ w, (classify (text w) project home, text w)).
assert (f w ∈ f <$> List.filter (λ w, looks_like_path (text w)) args) as Hin.
{ apply list_elem_of_fmap_2. apply list_elem_of_In, filter_In. by rewrite <- list_elem_of_In. }
destruct (foldl_max_step (f <$> List.filter (λ w, looks_like_path (text w)) args) None)
as ([s t] & -> & Hy).
{ right. intros E. rewrite E in Hin. by apply elem_of_nil in Hin. }
specialize (Hy (f w) (or_introl Hin)). simpl in Hy. rewrite Hc in Hy. simpl in Hy.
exists t. by destruct s; simpl in *; try lia.
Qed.

(** The uses the tables of [assess_segment] call catastrophic. *)
Inductive catastrophic_use (seg : Segment) : Prop :=
| use_target cmd w :
command seg = Some cmd → is_one_of cmd ["rm"; "rmdir"; "shred"; "truncate"; "mv"]%string = true →
w ∈ args seg → looks_like_path (text w) = true → catastrophic_path (text w) →
catastrophic_use seg
| use_recursive cmd w :
command seg = Some cmd → is_one_of cmd ["chmod"; "chown"]%string = true →
has_flag (args seg) (lit "R") ["recursive"]%string = true →
w ∈ args seg → looks_like_path (text w) = true → catastrophic_path (text w) →
catastrophic_use seg
| use_find w d :
command seg = Some (lit "find") → d ∈ args seg →
is_one_of (text d) ["-delete"; "-exec"; "-execdir"]%string = true →
w ∈ take_while (λ w, negb (starts_with (text w) (lit "-"))) (args seg) →
looks_like_path (text w) = true → catastrophic_path (text w) → catastrophic_use seg
| use_device t :
command seg = Some (lit "dd") → dd_target (args seg) = Some t →
starts_with t (lit "/dev/") = true ∨ catastrophic_path t → catastrophic_use seg
| use_mkfs cmd :
command seg = Some cmd → starts_with cmd (lit "mkfs") = true → catastrophic_use seg
| use_disk cmd :
command seg = Some cmd → is_one_of cmd ["fdisk"; "parted"; "diskutil"; "format"]%string = true →
catastrophic_use seg
| use_redirect cmd pre op t post :
command seg = Some cmd → words seg = pre ++ op :: t :: post →
is_redirect (text op) = true → is_truncating_redirect (text op) = true →
is_null_device (text t) = false → catastrophic_path (text t) → catastrophic_use seg.

(** Split [is_one_of] over a literal table. *)
Ltac one_of H :=
apply is_one_of_true in H as (? & H & ->);
repeat (apply elem_of_cons in H as [->|H]); [..|by apply elem_of_nil in H].

Context (self : str → option Assessment).

Lemma assess_redirects_go_above ws w : level w ⊑l level (assess_redirects_go project home ws w).
Proof.
revert w. induction ws as [|x ws IH]; intros w; simpl; [done|].
repeat case_match; try apply IH; (etrans; [apply worse_of_l|apply IH]).
Qed.

Lemma assess_redirects_catastrophic pre op t post w :
is_redirect (text op) = true → is_truncating_redirect (text op) = true →
is_null_device (text t) = false → catastrophic_path (text t) →
level (assess_redirects_go project home (pre ++ op :: t :: post) w) = Catastrophic.
Proof.
intros H1 H2 H3 H4. revert w. induction pre as [|x pre IH]; intros w.
- cbn [app assess_redirects_go]. rewrite H1, H2, H3, H4. cbn [negb orb].
apply catastrophic_below. etrans; [|apply (assess_redirects_go_above (t :: post))].
apply (worse_of_r w (at_level Catastrophic _)).
- cbn [app assess_redirects_go]. repeat case_match; apply IH.
Qed.

Lemma assess_command_mkfs cmd args prev :
starts_with cmd (lit "mkfs") = true →
assess_command project home self cmd args prev
= Some (at_level Catastrophic (quoted cmd ++ lit " creates a filesystem, erasing the target")).
Proof.
intros H. unfold assess_command.
assert (∀ t, starts_with (lit t) (lit "mkfs") = false → (cmd == lit t) = false) as Hne.
{ intros t Ht. apply bool_decide_eq_false. intros ->. congruence. }
assert (is_one_of cmd ["rm"; "rmdir"; "shred"]%string = false) as ->.
{ apply not_true_iff_false. intros H'. one_of H'; by vm_compute in H. }
rewrite !Hne by done. by rewrite H.
Qed.

(** A catastrophic use in a segment without dynamic words is a catastrophic
segment, whoever runs it. *)
Lemma catastrophic_segment seg prev b :
catastrophic_use seg → has_dynamic seg = false →
assess_segment project home self seg prev = Some b → level b = Catastrophic.
Proof.
intros Hu Hd. unfold assess_segment.
assert (∃ cmd, command seg = Some cmd) as [cmd Hcmd] by (destruct Hu; eauto).
rewrite Hcmd. intros (base & Hbase & [= <-])%bind_Some.
assert (level (worse_of base (assess_redirects project home seg)) = Catastrophic) as H.
{ destruct Hu; simplify_eq.
7: { apply catastrophic_below. etrans; [|apply worse_of_r]. unfold assess_redirects.
     match goal with H : words seg = _ |- _ => rewrite H end.
     by rewrite assess_redirects_catastrophic. }
all: apply catastrophic_below; etrans; [|apply worse_of_l].
- destruct (worst_target_catastrophic (args seg) w) as [t Ht]; [done..|].
  match goal with H : is_one_of _ _ = true |- _ => one_of H end;
    injection Hbase as <-; unfold assess_delete, assess_truncate, assess_move; by rewrite Ht.
- destruct (worst_target_catastrophic (args seg) w) as [t Ht]; [done..|].
  match goal with H : is_one_of _ _ = true |- _ => one_of H end;
    injection Hbase as <-; unfold assess_permission_change;
    match goal with H : has_flag _ _ _ = true |- _ => rewrite H end; simpl; by rewrite Ht.
- destruct (worst_target_catastrophic (take_while (λ w, negb (starts_with (text w) (lit "-"))) (args seg)) w) as [t Ht]; [done..|].
  injection Hbase as <-. unfold assess_find. rewrite Ht.
  assert (existsb (λ w, is_one_of (text w) ["-delete"; "-exec"; "-execdir"]%string) (args seg) = true) as ->.
  { apply existsb_true_iff. eauto. }
  done.
- injection Hbase as <-. unfold assess_dd.
  match goal with H : dd_target _ = _ |- _ => rewrite H end.
  match goal with H : _ ∨ _ |- _ => destruct H as [H|H]; rewrite H; [done|] end.
  by case_match.
- rewrite assess_command_mkfs in Hbase by done. by injection Hbase as <-.
- match goal with H : is_one_of _ _ = true |- _ => one_of H end; by injection Hbase as <-. }
unfold escalate_dynamic. rewrite Hd. simpl. unfold escalate_sudo. rewrite H.
by rewrite andb_false_r.
Qed.
End catastrophic.

(** ** What the agent does with it *)

Lemma decide_catastrophic a th :
  level a = Catastrophic → decide a th = Refuse (default (lit "destructive command") (reason a)).
Proof. intros H. unfold decide. by rewrite H. Qed.

(** C1: when some reading of the line contains a segment that destroys a home or
    system location, writes to a device or makes a filesystem, and no word of that
    segment comes from a substitution, then every verdict on the line is [Catastrophic]
    and refused whatever threshold the user chose, and there is a verdict exactly when
    the nesting of shells in the line ends. *)
Theorem catastrophic_use_refused project home line vs m bs ss segs seg :
  front_end line = Some (vs, m, bs, ss) → segs ∈ vs → seg ∈ segs →
  catastrophic_use project home seg → has_dynamic seg = false →
  (∀ n a, assess_fuel n project home line = Some a →
    level a = Catastrophic ∧ ∀ th, ∃ why, decide a th = Refuse why)
  ∧ ((∃ n a, assess_fuel n project home line = Some a) ↔ nesting_ends line).
Proof.
  intros Hf Hvs Hseg Hu Hd. split; [|symmetry; apply assess_returns]. intros [|n] a H; [done|].
  assert (level a = Catastrophic) as Hl.
  { apply list_elem_of_lookup in Hseg as [i Hi].
    destruct (assess_body_stage _ _ _ _ _ H) as (_ & Hall & _).
    destruct (assess_segment project home (assess_fuel n project home) seg (previous_of segs i))
      as [b|] eqn:Hb.
    - apply catastrophic_below. rewrite <- (catastrophic_segment _ _ _ _ _ _ Hu Hd Hb).
      apply Hall. by econstructor.
    - exfalso. revert H. simpl. unfold assess_body. rewrite Hf. simpl.
      rewrite (assess_variants_None _ _ _ vs safe segs i seg); done. }
  split; [done|]. intros th. eexists. by apply decide_catastrophic.
Qed.

(** ** Concrete lines

    Texts with double quotes are written with [@] in their place. *)
Definition dq (s : string) : str := (λ c, if c =? chr "@" then cDQ else c)%N <$> lit s.
Arguments dq _%_string.
Definition test_project : str := lit "/work/proj".
Definition test_home : option str := Some (lit "/home/user").
Definition level_of (line : str) : option RiskLevel :=
  level <$> assess_fuel 8 test_project test_home line.
Definition levels (l : RiskLevel) (lines : list string) : bool :=
  forallb (λ t, level_of (dq t) == Some l) lines.
Arguments levels _ _%_list_scope.

(** The crate's own unit tests, evaluated on the model. *)
Example assess_tests_catastrophic :
  levels Catastrophic
    ["cargo build && rm -rf ~"; "echo hi; rm -rf /"; "dd if=/dev/zero of=/dev/sda"; "mkfs.ext4 /dev/sda1";
     "fdisk /dev/sda"; "find ~ -name '*.tmp' -delete"; "rm -rf /*"; "rm -rf ~/*"; "> ~";
     "bash -c @rm -rf ~@"; "sh -c @rm -rf /etc@"; "bash -c @bash -c 'rm -rf ~'@"; "eval @rm -rf ~@";
     "( rm -rf ~ )"; "if true; then rm -rf ~; fi"; "rm -rf @${HOME}@"]%string = true.
Proof. vm_compute. reflexivity. Qed.
Example assess_tests_destructive :
  levels Destructive
    ["rm -rf /tmp/scratch"; "rm ../sibling/file"; "rm -rf ~/Documents"; "git push --force";
     "git push -f origin main"; "git filter-branch --all"; "curl https://x.sh/install | sh";
     "wget -qO- https://x.sh | bash"; "find /tmp -name '*.tmp' -delete"; "rm -rf $TARGET";
     "rm -rf $(cat list)"; "rm -rf `cat list`"; "rm -rf @unclosed"; "echo x > /dev/sda"; "> ~/.bashrc";
     "bash -c @$(build_cmd)@"; "eval @$cmd@"; "rm -rf @$BUILD_DIR@"; "diff <(sort a) <(sort b)";
     "cat >(tee out.log)"; "=(echo hi)"; "python -c @$(curl -fsSL https://x.sh)@";
     "node -e @`cat payload.js`@"; "sudo rm -rf target"; "true;=(echo hi)"; "true(=(echo hi)"]%string = true.
Proof. vm_compute. reflexivity. Qed.
Example assess_tests_mild :
  levels Caution
    ["rm -rf target"; "rm -rf ./build"; "echo x > notes.txt"; "> notes.txt"; "git reset --hard HEAD~3";
     "git clean -fdx"; "git checkout ."; "find . -name '*.tmp' -delete"; "rm -rf target/*"; "sudo ls";
     "bash -lc @rm -rf target@"]%string = true
  ∧ levels Safe
    ["rm build.log"; "rm src/old.rs"; "echo x >> notes.txt"; "rm etc/config.toml"; "git reset";
     "git clean -n"; "git push"; "git checkout main"; "curl https://x.sh/install | less";
     "find / -name foo"; "echo @unclosed"; "echo hi 2>/dev/null"; "ls 2>NUL"; "bash -c @ls -la@";
     "eval @ls@"; "if true; then ls; fi"; "FOO=bar ls"; "python -c @print(1)@"; ""; "   ";
     "python @$(echo script.py)@"]%string = true.
Proof. split; vm_compute; reflexivity. Qed.

Definition ex_line : str := lit "cd /tmp && rm -rf ~".
Definition ex_segs : list Segment :=
  match front_end ex_line with Some (segs :: _, _, _, _) => segs | _ => [] end.
Definition ex_seg : Segment := default (mkSegment []) (ex_segs !! 1).
Definition ex_assessment : Assessment :=
  default safe (assess_fuel 2 test_project test_home ex_line).

Lemma catastrophic_use_refused_witness :
  (∀ n a, assess_fuel n test_project test_home ex_line = Some a →
    level a = Catastrophic ∧ ∀ th, ∃ why, decide a th = Refuse why)
  ∧ ((∃ n a, assess_fuel n test_project test_home ex_line = Some a) ↔ nesting_ends ex_line).
Proof.
  apply (catastrophic_use_refused test_project test_home ex_line [ex_segs] false [] [] ex_segs ex_seg).
  - vm_compute. reflexivity.
  - apply list_elem_of_singleton. reflexivity.
  - vm_compute. right. left.
  - apply (use_target test_project test_home ex_seg (lit "rm") (mkWord (lit "~") false)).
    + vm_compute. reflexivity.
    + vm_compute. reflexivity.
    + vm_compute. right. left.
    + vm_compute. reflexivity.
    + vm_compute. reflexivity.
  - vm_compute. reflexivity.
Defined.

Lemma assess_worst_finding_witness :
  ∃ n a, ∀ k, n ≤ k →
    assess_fuel (S k) test_project test_home ex_line = Some a
    ∧ (let found := finding test_project test_home (assess_fuel k test_project test_home) ex_line in
       (∀ l, found l → l ⊑l level a) ∧ (level a = Safe ∨ found (level a))).
Proof.
  apply (proj1 (assess_worst_finding test_project test_home ex_line)). apply (nesting_within_ends 1). vm_compute. reflexivity.
Defined.

(** Three shells deep. *)
Example nested_line_ends : nesting_within 4 (dq "bash -c @bash -c 'eval ls'@") = true ∧ nesting_within 3 (dq "bash -c @bash -c 'eval ls'@") = false.
Proof. split; vm_compute; reflexivity. Qed.

Lemma assess_reasoned_witness :
  reason ex_assessment = None ↔ level ex_assessment = Safe.
Proof. apply (assess_reasoned 2 test_project test_home ex_line). vm_compute. reflexivity. Defined.

(** ** Where the code departs from what it says *)

(** A dynamic word anywhere in the segment downgrades a target positively
    identified as catastrophic: [rm -rf /] is refused, [rm -rf / $(true)] is
    [Destructive], can be confirmed, and is allowed outright with the threshold
    off. The comment above the code says the opposite. *)
Theorem dynamic_word_unrefuses :
  let a := assess_fuel 3 test_project test_home (lit "rm -rf /") in
  let b := assess_fuel 3 test_project test_home (lit "rm -rf / $(true)") in
  (level <$> a = Some Catastrophic) ∧ (level <$> b = Some Destructive)
  ∧ (flip decide ThOff <$> b = Some Allow).
Proof. split_and!; vm_compute; reflexivity. Qed.

(** The line [Q=\';A='T';T] with [T] its own tail quoted twice over. *)
Definition quine : str := dq "Q=\';A='bash -c @Q=\\$Q;A=$Q$A$Q;$A@';bash -c @Q=\\$Q;A=$Q$A$Q;$A@".
Definition quine_as_written : list Segment :=
  match front_end quine with Some ([segs; _], _, _, _) => segs | _ => [] end.
Definition quine_reading : list Segment :=
  match front_end quine with Some ([_; segs], _, _, _) => segs | _ => [] end.

(** The classification does not terminate on every line: in one reading of
    [quine] the [bash -c] script is [quine] itself, so no amount of recursion
    answers, at any working directory and home. *)
Theorem assess_quine_diverges n project home : assess_fuel n project home quine = None.
Proof.
  induction n as [|n IH]; [done|]. simpl. unfold assess_body.
  assert (front_end quine = Some ([quine_as_written; quine_reading], false, [], [])) as ->
    by (vm_compute; reflexivity).
  cbn [mbind option_bind].
  rewrite (assess_variants_None _ _ _ _ safe quine_reading 2
             (default (mkSegment []) (quine_reading !! 2))); [done| | |].
  - right. left.
  - vm_compute. reflexivity.
  - unfold assess_segment.
    assert (command (default (mkSegment []) (quine_reading !! 2)) = Some (lit "bash")) as ->
      by (vm_compute; reflexivity).
    assert (∀ args prev, assess_command project home (assess_fuel n project home) (lit "bash") args prev
      = assess_shell_invocation (assess_fuel n project home) args prev) as E by done.
    rewrite E. clear E.
    unfold assess_shell_invocation.
    assert (c_script (args (default (mkSegment []) (quine_reading !! 2))) = Some (mkWord quine false)) as ->
      by (vm_compute; reflexivity).
    cbn [dynamic text]. by rewrite IH.
Qed.

Lemma quine_never_ends : ¬ nesting_ends quine.
Proof. intros (n & a & H)%(assess_returns test_project test_home). by rewrite assess_quine_diverges in H. Qed.

(** ** Decisions are monotone *)

(** How much a decision stands in the way. *)
Definition strictness (d : Decision) : nat :=
  match d with Allow => 0 | Confirm _ => 1 | Refuse _ => 2 end.
(** The level from which a threshold asks. *)
Definition threshold_rank (t : RiskThreshold) : nat :=
  match t with ThCaution => 1 | ThDestructive => 2 | ThOff => 3 end.

(** The decision is monotone: a worse assessment under a threshold that asks
    no later is never decided more leniently; and it is a refusal exactly when the
    level is [Catastrophic]. *)
Theorem decide_monotone a b th th' :
  (level a ⊑l level b → threshold_rank th' ≤ threshold_rank th →
   strictness (decide a th) ≤ strictness (decide b th'))
  ∧ ((∃ why, decide a th = Refuse why) ↔ level a = Catastrophic).
Proof.
  split.
  - unfold decide, below. destruct (level a), (level b), th, th'; simpl; lia.
  - split; [|intros H; eexists; by apply decide_catastrophic].
    unfold decide. case_bool_decide; [done|]. intros [why Hw]. by destruct th; repeat case_match.
Qed.

(** ** Process substitution is always asked about *)

Lemma process_substitution_go_cons prev a b r :
  process_substitution_go prev (a :: b :: r)
  = if ((a =? chr "<")%N || (a =? chr ">")%N) && (b =? chr "(")%N then true
    else if (a =? chr "=")%N && (b =? chr "(")%N && equals_boundary prev then true
    else process_substitution_go (Some a) (b :: r).
Proof. done. Qed.
Lemma process_substitution_go_found prev pre a post :
  a = chr "<" ∨ a = chr ">" → process_substitution_go prev (pre ++ a :: chr "(" :: post) = true.
Proof.
  intros Ha. revert prev. induction pre as [|x pre IH]; intros prev.
  - by destruct Ha as [-> | ->].
  - specialize (IH (Some x)).
    destruct pre as [|y pre]; cbn [app] in *; rewrite process_substitution_go_cons, IH;
      by repeat case_match.
Qed.

(** A line that contains [<(] or [>(], quoted or not, parsed or not, is at
    least [Destructive]: with the default threshold it is never run unasked. *)
Theorem process_substitution_asked n project home line a :
  contains line (lit "<(") = true ∨ contains line (lit ">(") = true →
  assess_fuel n project home line = Some a →
  Destructive ⊑l level a ∧ decide a ThDestructive ≠ Allow.
Proof.
  intros Hc H. destruct n as [|n]; [done|].
  assert (has_process_substitution line = true) as Hp.
  { unfold has_process_substitution.
    destruct Hc as [(x & y & ->)%contains_true|(x & y & ->)%contains_true];
      rewrite !utf8_app; by apply process_substitution_go_found; auto. }
  destruct (assess_body_stage _ _ _ _ _ H) as (_ & Hall & _).
  assert (Destructive ⊑l level a) as Hl by (apply Hall; by constructor).
  split; [done|]. unfold decide, below in *. destruct (level a); simpl in *; try lia; done.
Qed.

Lemma process_substitution_asked_witness :
  let a := default safe (assess_fuel 2 test_project test_home (lit "diff <(sort a) b")) in
  Destructive ⊑l level a ∧ decide a ThDestructive ≠ Allow.
Proof.
  apply (process_substitution_asked 2 test_project test_home (lit "diff <(sort a) b")).
  - left. vm_compute. reflexivity.
  - vm_compute. reflexivity.
Defined.
