(* ===== verification/Permission.v ===== *)
(** The permission rules of an agent ([crates/core/src/types.rs]): the approval
    mode, permission actions, and how a [PermissionSet] resolves a tool name, a
    path or a shell command to an action.

    [rules] is a [HashMap]: here the list of its entries in iteration order, which
    Rust leaves unspecified. Theorems that depend on the order say so. *)

From S2P Require Import Prelude RustStr Paths Tokenize.

(** ** Modes and actions *)

Inductive ApprovalMode := Auto | Important | Manual.
#[global] Instance ApprovalMode_eq_dec : EqDecision ApprovalMode.
Proof. solve_decision. Defined.

Definition approval_parse (s : str) : option ApprovalMode :=
  let t := to_ascii_lowercase (trim s) in
  if is_one_of t ["auto"; "dontask"; "don't-ask"; "dont-ask"]%string then Some Auto
  else if is_one_of t ["important"; "ask"; "default"]%string then Some Important
  else if is_one_of t ["manual"; "always"]%string then Some Manual
  else None.

Definition approval_as_str (m : ApprovalMode) : str :=
  match m with Auto => lit "auto" | Important => lit "important" | Manual => lit "manual" end.
Definition approval_label (m : ApprovalMode) : str :=
  match m with Auto => lit "auto" | Important => lit "important" | Manual => lit "manual" end.
Definition approval_description (m : ApprovalMode) : str :=
  match m with
  | Auto => lit "Keep going until todos/tasks finish; auto-allow asks; retry failures"
  | Important => lit "Prompt on questions and high-risk tools only"
  | Manual => lit "Prompt on every question and permission ask"
  end.

Inductive PermissionAction := PAllow | PAsk | PDeny.
#[global] Instance PermissionAction_eq_dec : EqDecision PermissionAction.
Proof. solve_decision. Defined.

Definition action_parse (s : str) : option PermissionAction :=
  let t := to_ascii_lowercase (trim s) in
  if is_one_of t ["allow"; "true"; "yes"]%string then Some PAllow
  else if is_one_of t ["ask"; "prompt"]%string then Some PAsk
  else if is_one_of t ["deny"; "false"; "no"; "block"]%string then Some PDeny
  else None.

Record PermissionSet := mkPermissionSet {
  allowed_tools : option (list str);
  denied_tools : option (list str);
  allow_file_writes : bool;
  allow_network : bool;
  allow_shell : bool;
  allowed_paths : option (list str);
  rules : list (str * PermissionAction) }.

(** [self.rules.get(name)]. *)
Definition rules_get (rs : list (str * PermissionAction)) (name : str) : option PermissionAction :=
  snd <$> List.find (λ r, r.1 == name) rs.

(** ** Tool names *)

Definition name_is_denied (denied : option (list str)) (tool_name : str) : bool :=
  match denied with None => false | Some names => existsb (λ n, n == tool_name) names end.
Definition name_missing_from_allow (allowed : option (list str)) (tool_name : str) : bool :=
  match allowed with None => false | Some names => negb (existsb (λ n, n == tool_name) names) end.

(** One turn of the loop over the glob rules: the last match is kept. *)
Definition glob_step (tool_name : str) (matched : option PermissionAction) (r : str * PermissionAction)
    : option PermissionAction :=
  if r.1 == lit "*" then Some r.2
  else match strip_suffix (lit "*") r.1 with
       | None => matched
       | Some prefix => if starts_with tool_name prefix then Some r.2 else matched
       end.

Definition action_for (ps : PermissionSet) (tool_name : str) : PermissionAction :=
  match rules_get (rules ps) tool_name with
  | Some a => a
  | None =>
      match foldl (glob_step tool_name) None (rules ps) with
      | Some a => a
      | None =>
          if name_is_denied (denied_tools ps) tool_name then PDeny
          else if name_missing_from_allow (allowed_tools ps) tool_name then PDeny
          else if is_one_of tool_name
                    ["write"; "edit"; "apply_patch"; "ast_edit"; "todo_write"; "todowrite"; "todo"]%string
                  && negb (allow_file_writes ps) then PDeny
          else if is_one_of tool_name ["shell"; "bash"]%string && negb (allow_shell ps) then PDeny
          else if is_one_of tool_name ["webfetch"; "websearch"; "mcp_websearch"]%string
                  && negb (allow_network ps) then PDeny
          else if tool_name == lit "browser" then PAsk
          else PAllow
      end
  end.

Definition is_tool_allowed (ps : PermissionSet) (tool_name : str) : bool :=
  action_for ps tool_name != PDeny.

(** ** Glob matching *)

Definition cStar : N := 42.

(** The matching loop, by index: [inl] is an early [return], [inr pi] the end of
    the text; [None] is an index out of range, or no fuel left. *)
Fixpoint star_loop (fuel : nat) (pb sb : list N) (pi si : nat) (star_p : option nat) (star_s : nat)
    : option (bool + nat) :=
  match fuel with
  | O => None
  | S n =>
      match sb !! si with
      | None => Some (inr pi)
      | Some c =>
          if pb !! pi == Some cStar then star_loop n pb sb (S pi) si (Some pi) si
          else if pb !! pi == Some c then star_loop n pb sb (S pi) (S si) star_p star_s
          else
            match star_p with
            | Some sp =>
                match sb !! star_s with
                | None => None
                | Some d =>
                    if (d =? cSlash)%N then Some (inl false)
                    else star_loop n pb sb (S sp) (S star_s) star_p (S star_s)
                end
            | None => Some (inl false)
            end
      end
  end.

(** Turns the loop can take ([match_simple_star_total]). *)
Definition star_fuel (pb sb : list N) : nat :=
  S (S (length pb) * S (length sb) * S (length sb) + S (length sb) * S (length sb) + S (length sb)).

Definition match_simple_star_run (pat s : str) : option bool :=
  let pb := utf8 pat in
  let sb := utf8 s in
  match star_loop (star_fuel pb sb) pb sb 0 0 None 0 with
  | None => None
  | Some (inl b) => Some b
  | Some (inr pi) => Some (drop_while (λ b, b =? cStar)%N (drop pi pb) == [])
  end.
Definition match_simple_star (pat s : str) : bool := default false (match_simple_star_run pat s).

Definition path_glob_matches (glob path : str) : bool :=
  let glob := trim_start_str (lit "./") glob in
  let path := trim_start_str (lit "./") path in
  if (glob == lit "*") || (glob == lit "**") then true
  else if negb (contains_char glob cStar) then
    (path == glob) || starts_with path (glob ++ lit "/")
  else
    match strip_suffix (lit "/**") glob with
    | Some prefix =>
        let prefix := trim_end_matches is_slash prefix in
        (path == prefix) || starts_with path (prefix ++ lit "/")
    | None =>
        match strip_prefix (lit "**/") glob with
        | Some suffix =>
            (path == suffix) || ends_with path (cSlash :: suffix)
            || match_simple_star suffix (rsplit_next is_slash path)
        | None => match_simple_star glob path
        end
    end.

(** ** Rules with an argument *)

(** The text before the first [(] and between it and the last [)]. *)
Definition split_rule (pattern : str) : option (str * str) :=
  let pattern := trim pattern in
  match find_index (λ c, c =? chr "(")%N pattern, rfind_index (λ c, c =? chr ")")%N pattern with
  | Some open, Some close =>
      if close <=? open then None
      else Some (to_ascii_lowercase (trim (take open pattern)), trim (slice pattern (S open) close))
  | _, _ => None
  end.

Definition parse_shell_rule (pattern : str) : option (str * str) :=
  '(tool, inner) ← split_rule pattern;
  if negb (is_one_of tool ["bash"; "shell"]%string) then None
  else if inner == [] then None
  else Some (tool, inner).

Definition PATH_TOOLS : list string :=
  ["read"; "write"; "edit"; "apply_patch"; "glob"; "list"; "grep"]%string.

Definition parse_path_rule (pattern : str) : option (str * str) :=
  '(tool, inner) ← split_rule pattern;
  if negb (is_one_of tool PATH_TOOLS) then None
  else
    let inner := replace_char inner cBS (lit "/") in
    if inner == [] then None else Some (tool, inner).

Definition score_wins (best : option (nat * PermissionAction)) (score : nat) : bool :=
  match best with None => true | Some (prev, _) => prev <=? score end.

(** The loop over the rules: [candidate] is the score and action of a rule that
    applies. *)
Definition best_step (candidate : str * PermissionAction → option (nat * PermissionAction))
    (best : option (nat * PermissionAction)) (r : str * PermissionAction)
    : option (nat * PermissionAction) :=
  match candidate r with
  | None => best
  | Some (score, act) => if score_wins best score then Some (score, act) else best
  end.

(** ** Paths *)

Definition path_tool_ok (rule_tool tool : str) : bool :=
  (rule_tool == tool)
  || ((rule_tool == lit "edit") && (tool == lit "apply_patch"))
  || ((rule_tool == lit "write") && is_one_of tool ["edit"; "apply_patch"]%string).

Definition is_broad_glob (glob : str) : bool :=
  (glob == lit "**") || (glob == lit "*") || ends_with glob (lit "/**").

Definition path_escapes (path : str) : bool :=
  starts_with path (lit "/") || contains path (lit "..").

Definition path_candidate (tool path : str) (r : str * PermissionAction)
    : option (nat * PermissionAction) :=
  '(rule_tool, glob) ← parse_path_rule r.1;
  if negb (path_tool_ok rule_tool tool) then None
  else if negb (path_glob_matches glob path) then None
  else
    let act := if (r.2 == PAllow) && path_escapes path && is_broad_glob glob then PAsk else r.2 in
    Some (byte_len glob, act).

Definition action_for_path (ps : PermissionSet) (tool_name path : str) : option PermissionAction :=
  let tool := to_ascii_lowercase (trim tool_name) in
  let path_norm := replace_char path cBS (lit "/") in
  snd <$> foldl (best_step (path_candidate tool path_norm)) None (rules ps).

(** ** Shell commands *)

Definition shell_arg_matches (pat command : str) : bool :=
  let pat := replace_char (trim pat) (chr ":") (lit " ") in
  let cmd := trim command in
  match strip_suffix (lit "*") pat with
  | Some prefix =>
      let prefix := trim_end prefix in
      if prefix == [] then true
      else (cmd == prefix) || starts_with cmd (prefix ++ lit " ") || starts_with cmd prefix
  | None => (cmd == pat) || starts_with cmd (pat ++ lit " ")
  end.

Definition DANGEROUS_SHELL_ALLOW_BASES : list string :=
  ["python"; "python3"; "python2"; "node"; "deno"; "tsx"; "ruby"; "perl"; "php"; "lua"; "bash";
   "sh"; "zsh"; "fish"; "eval"; "exec"; "env"; "xargs"; "sudo"; "npx"; "bunx"; "ssh"]%string.

Definition dangerous_base (p : str) (base : string) : bool :=
  let b := lit base in
  (p == b) || (p == b ++ lit " *") || (p == b ++ lit "*")
  || (starts_with p b && contains_char p cStar
      && ((utf8 p !! byte_len b == Some (chr " ")) || (utf8 p !! byte_len b == Some cStar))).

Definition dangerous_runner (p : str) (run : string) : bool :=
  let r := lit run in
  (p == r) || (p == r ++ lit " *") || starts_with p (r ++ lit " *").

Definition is_dangerous_shell_allow_pattern (arg_pat : str) : bool :=
  let p := trim (replace_char (to_ascii_lowercase (trim arg_pat)) (chr ":") (lit " ")) in
  (p == lit "*")
  || existsb (dangerous_base p) DANGEROUS_SHELL_ALLOW_BASES
  || existsb (dangerous_runner p) ["npm run"; "yarn run"; "pnpm run"; "bun run"]%string.

Definition shell_candidate (cmd : str) (r : str * PermissionAction) : option (nat * PermissionAction) :=
  '(tool, arg_pat) ← parse_shell_rule r.1;
  if negb (shell_arg_matches arg_pat cmd) then None
  else
    let act := if (r.2 == PAllow) && is_dangerous_shell_allow_pattern arg_pat then PAsk else r.2 in
    Some (byte_len arg_pat, act).

Definition action_for_shell (ps : PermissionSet) (command : str) : option PermissionAction :=
  let cmd := trim command in
  if cmd == [] then None
  else snd <$> foldl (best_step (shell_candidate cmd)) None (rules ps).
