(* ===== verification/Glob.v ===== *)
(** [match_simple_star] decides its declarative specification: the index loop with
    a single backtracking point is equivalent to trying every way a [*] can stand
    for text without a [/]. *)

From S2P Require Import Prelude RustStr Paths Permission.

Definition no_slash (w : list N) : Prop := cSlash ∉ w.

(** What a pattern matches: [*] any text without [/], any other byte itself. *)
Inductive star_match : list N → list N → Prop :=
| sm_nil : star_match [] []
| sm_byte c p s : c ≠ cStar → star_match p s → star_match (c :: p) (c :: s)
| sm_star w p s : no_slash w → star_match p s → star_match (cStar :: p) (w ++ s).

Lemma no_slash_nil : no_slash [].
Proof. intros H. by apply elem_of_nil in H. Qed.
Lemma no_slash_cons c w : no_slash (c :: w) ↔ c ≠ cSlash ∧ no_slash w.
Proof. unfold no_slash. rewrite elem_of_cons. naive_solver. Qed.
Lemma no_slash_app v w : no_slash (v ++ w) ↔ no_slash v ∧ no_slash w.
Proof. unfold no_slash. rewrite elem_of_app. naive_solver. Qed.

Lemma star_match_star_nil p : star_match (cStar :: p) [] ↔ star_match p [].
Proof.
  split.
  - inversion 1 as [| |w p' s' Hw Hm Hp E]; subst. apply app_nil in E as [-> ->]. done.
  - intros H. apply (sm_star [] p []); [apply no_slash_nil|done].
Qed.
Lemma star_match_star_cons p c s :
  star_match (cStar :: p) (c :: s) ↔ star_match p (c :: s) ∨ c ≠ cSlash ∧ star_match (cStar :: p) s.
Proof.
  split.
  - intros H. inversion H as [|? ? ? Hne Hm|w p' s' Hw Hm Hp E]; subst; [congruence|].
    destruct w as [|d w]; simpl in E; [subst; by left|]. injection E as -> <-.
    apply no_slash_cons in Hw as [? ?]. right. split; [done|]. by constructor.
  - intros [H|[Hc H]]; [by apply (sm_star [] p); [apply no_slash_nil|]|].
    inversion H as [|? ? ? Hne Hm|w p' s' Hw Hm Hp E]; subst; [congruence|].
    apply (sm_star (c :: w)); [apply no_slash_cons; by split|done].
Qed.
Lemma star_match_byte c d p s : c ≠ cStar → star_match (c :: p) (d :: s) ↔ c = d ∧ star_match p s.
Proof.
  intros Hc. split.
  - inversion 1; subst; [done|]. congruence.
  - intros [-> H]. by constructor.
Qed.
Lemma star_match_nil_l s : star_match [] s ↔ s = [].
Proof. split; [by inversion 1|]. intros ->. constructor. Qed.
Lemma star_match_nil_r p : star_match p [] ↔ drop_while (λ b, b =? cStar)%N p = [].
Proof.
  induction p as [|c p IH]; simpl; [split; [done|constructor]|].
  destruct (N.eqb_spec c cStar) as [->|Hc].
  - by rewrite star_match_star_nil.
  - split; [|done]. inversion 1; subst. congruence.
Qed.

(** Matching a literal prefix first. *)
Lemma star_match_app q p s :
  cStar ∉ q → star_match (q ++ p) s ↔ ∃ r, s = q ++ r ∧ star_match p r.
Proof.
  revert s. induction q as [|c q IH]; intros s Hq; simpl; [naive_solver|].
  rewrite elem_of_cons in Hq. destruct s as [|d s].
  - split; [|naive_solver]. inversion 1; subst. naive_solver.
  - rewrite star_match_byte by naive_solver. rewrite IH by naive_solver. naive_solver.
Qed.

(** Removing [/]-free text around a word shifts no [/] into the rest. *)
Lemma no_slash_shift (q v w u : list N) :
  q ++ v = w ++ q ++ u → no_slash w → no_slash u → no_slash v.
Proof.
  intros E Hw Hu Hv.
  pose proof (f_equal (λ l, length (List.filter (N.eqb cSlash) l)) E) as L. simpl in L.
  assert (∀ a b, List.filter (N.eqb cSlash) (a ++ b)
    = List.filter (N.eqb cSlash) a ++ List.filter (N.eqb cSlash) b) as Hf.
  { intros a b. induction a as [|x a IH]; simpl; [done|]. case_match; simpl; by rewrite IH. }
  assert (∀ l, no_slash l → List.filter (N.eqb cSlash) l = []) as Hn.
  { intros l. induction l as [|x l IH]; [done|]. intros [Hx Hl]%no_slash_cons. cbn [List.filter].
    rewrite (proj2 (N.eqb_neq cSlash x)) by done. auto. }
  rewrite !Hf, (Hn w), (Hn u), app_nil_r in L by done. simpl in L. rewrite length_app in L.
  assert (List.filter (N.eqb cSlash) v = []) as Hv' by (apply nil_length_inv; lia).
  assert (cSlash ∈ List.filter (N.eqb cSlash) v) as Hin.
  { apply list_elem_of_In, filter_In. rewrite <- list_elem_of_In. split; [done|]. by apply N.eqb_eq. }
  rewrite Hv' in Hin. by apply elem_of_nil in Hin.
Qed.

(** A later star makes an earlier backtracking point useless. *)
Lemma star_forget q p s w r :
  cStar ∉ q → q ++ s = w ++ r → no_slash w → star_match (q ++ cStar :: p) r →
  star_match (cStar :: p) s.
Proof.
  intros Hq E Hw Hm. apply star_match_app in Hm as (r' & -> & Hm); [|done].
  inversion Hm as [|? ? ? Hne Ht|u p' t Hu Ht Hp Et]; subst; [congruence|].
  assert (∃ v, s = v ++ t ∧ q ++ v = w ++ q ++ u) as (v & -> & Hv).
  { pose proof (f_equal length E) as L. rewrite !length_app in L.
    rewrite !app_assoc in E. rewrite <- (app_assoc w) in E.
    destruct (app_eq_app q s (w ++ q ++ u) t) as [v [[H1 H2]|[H1 H2]]]; [done| |].
    - exists []. assert (v = []) as ->; [|by rewrite app_nil_r in *].
      apply nil_length_inv. apply (f_equal length) in H1, H2. rewrite !length_app in *. lia.
    - by exists v. }
  apply sm_star; [|done]. by apply (no_slash_shift q v w u).
Qed.

(** The backtracking point still to try: the star takes at least one more byte. *)
Definition later (bp bs : list N) : Prop :=
  ∃ c bs', bs = c :: bs' ∧ c ≠ cSlash ∧ star_match (cStar :: bp) bs'.

Lemma star_or_later p s : star_match (cStar :: p) s ↔ star_match p s ∨ later p s.
Proof.
  destruct s as [|c s].
  - rewrite star_match_star_nil. unfold later. naive_solver.
  - rewrite star_match_star_cons. unfold later. naive_solver.
Qed.

Lemma later_split p s :
  later p s ↔ ∃ w r, s = w ++ r ∧ w ≠ [] ∧ no_slash w ∧ star_match p r.
Proof.
  split.
  - intros (c & s' & -> & Hc & H). inversion H as [|? ? ? Hne Hm|w p' r Hw Hm Hp E]; subst; [congruence|].
    exists (c :: w), r. split_and!; [done|done|by apply no_slash_cons|done].
  - intros ([|c w] & r & -> & Hne & Hw & Hm); [done|]. apply no_slash_cons in Hw as [Hc Hw]. exists c, (w ++ r). split_and!; [done|done|].
    by constructor.
Qed.

(** A literal text cannot be followed by its own pattern, one byte later. *)
Lemma later_literal q p : cStar ∉ q → ¬ later (q ++ p) q.
Proof.
  intros Hq (w & r & E & Hne & _ & Hm)%later_split.
  apply star_match_app in Hm as (r' & -> & _); [|done].
  apply (f_equal length) in E. rewrite !length_app in E. destruct w; [done|]. simpl in E. lia.
Qed.

Definition star_finish (pb : list N) (x : bool + nat) : bool :=
  match x with inl b => b | inr pi => drop_while (λ b, b =? cStar)%N (drop pi pb) == [] end.

Section star_loop.
Context (pb sb : list N).

(** The text since the last star was matched literally. *)
Definition backup_ok (pi si : nat) (sp : option nat) (ss : nat) : Prop :=
match sp with
| None => True
| Some k => k < pi ∧ ss ≤ si ∧ ∃ q, cStar ∉ q
  ∧ drop (S k) pb = q ++ drop pi pb ∧ drop ss sb = q ++ drop si sb
end.
Definition backup_match (sp : option nat) (ss : nat) : Prop :=
match sp with None => False | Some k => later (drop (S k) pb) (drop ss sb) end.

Definition stars_left (sp : option nat) : nat :=
match sp with None => S (length pb) | Some k => length pb - S k end.
Definition bytes_left (sp : option nat) (ss : nat) : nat :=
match sp with None => length sb | Some _ => length sb - ss end.
Definition star_measure (si : nat) (sp : option nat) (ss : nat) : nat :=
stars_left sp * S (length sb) * S (length sb) + bytes_left sp ss * S (length sb)
+ (length sb - si).

Lemma star_measure_star pi si sp ss c :
pb !! pi = Some c → backup_ok pi si sp ss →
star_measure si (Some pi) si < star_measure si sp ss.
Proof.
intros Hpi%lookup_lt_Some Hb. unfold star_measure.
assert (stars_left (Some pi) < stars_left sp) as H.
{ destruct sp as [k|]; simpl in *; [destruct Hb|]; lia. }
assert (bytes_left (Some pi) si ≤ length sb) by (simpl; lia). nia.
Qed.
Lemma star_measure_byte si sp ss c :
sb !! si = Some c → star_measure (S si) sp ss < star_measure si sp ss.
Proof. intros H%lookup_lt_Some. unfold star_measure. lia. Qed.
Lemma star_measure_back si k ss d :
sb !! ss = Some d → star_measure (S ss) (Some k) (S ss) < star_measure si (Some k) ss.
Proof.
intros H%lookup_lt_Some. unfold star_measure.
assert (bytes_left (Some k) ss = S (bytes_left (Some k) (S ss))) as -> by (simpl; lia). nia.
Qed.

Lemma star_loop_spec n pi si sp ss :
backup_ok pi si sp ss → star_measure si sp ss < n →
∃ x, star_loop n pb sb pi si sp ss = Some x
∧ (star_finish pb x = true ↔ star_match (drop pi pb) (drop si sb) ∨ backup_match sp ss).
Proof.
revert pi si sp ss. induction n as [|n IH]; intros pi si sp ss Hb Hn; [lia|]. simpl.
destruct (sb !! si) as [c|] eqn:Hs.
2: { exists (inr pi). split; [done|]. simpl. rewrite bool_decide_eq_true.
   apply lookup_ge_None in Hs. rewrite (drop_ge sb si) by done.
   rewrite star_match_nil_r. destruct sp as [k|]; simpl; [|naive_solver].
   destruct Hb as (_ & _ & q & Hq & -> & E). rewrite (drop_ge sb si), app_nil_r in E by done.
   rewrite E. pose proof (later_literal q (drop pi pb) Hq). naive_solver. }
assert (drop si sb = c :: drop (S si) sb) as Es by (by apply drop_S).
case_bool_decide as Hstar.
{ assert (drop pi pb = cStar :: drop (S pi) pb) as Ep by (by apply drop_S).
destruct (IH (S pi) si (Some pi) si) as (x & -> & Hx).
- split; [lia|]. split; [lia|]. exists []. split_and!; try done. by intros ?%elem_of_nil.
- pose proof (star_measure_star _ _ _ _ _ Hstar Hb). lia.
- exists x. split; [done|]. rewrite Hx. simpl. rewrite Ep, star_or_later.
  split; [naive_solver|]. intros [H|H]; [done|]. apply star_or_later.
  destruct sp as [k|]; [|done]. destruct Hb as (_ & _ & q & Hq & Ek & Ess). simpl in H.
  apply later_split in H as (w & r & Ew & _ & Hw & Hm). rewrite Ek, Ep in Hm.
  rewrite Ess in Ew. by eapply star_forget. }
case_bool_decide as Hbyte.
{ assert (drop pi pb = c :: drop (S pi) pb) as Ep by (by apply drop_S).
assert (c ≠ cStar) as Hc by congruence.
destruct (IH (S pi) (S si) sp ss) as (x & -> & Hx).
- destruct sp as [k|]; [|done]. destruct Hb as (? & ? & q & Hq & Ek & Ess).
  split; [lia|]. split; [lia|]. exists (q ++ [c]). rewrite <- !app_assoc. simpl.
  rewrite <- Ep, <- Es. split_and!; try done. rewrite elem_of_app, list_elem_of_singleton.
  naive_solver.
- pose proof (star_measure_byte si sp ss c Hs). lia.
- exists x. split; [done|]. rewrite Hx, Ep, Es, star_match_byte by done. naive_solver. }
assert (¬ star_match (drop pi pb) (drop si sb)) as Hno.
{ rewrite Es. destruct (drop pi pb) as [|x p] eqn:Ep; [by rewrite star_match_nil_l|].
apply drop_lookup_cons in Ep as [Ep _]. rewrite star_match_byte by congruence. naive_solver. }
destruct sp as [k|]; simpl; [|exists (inl false); split; [done|]; naive_solver].
destruct Hb as (Hk & Hss & q & Hq & Ek & Ess).
destruct (lookup_lt_is_Some_2 sb ss) as [d Hd]; [apply lookup_lt_Some in Hs; lia|]. rewrite Hd.
assert (drop ss sb = d :: drop (S ss) sb) as Ed by (by apply drop_S).
destruct (N.eqb_spec d cSlash) as [->|Hne].
{ exists (inl false). split; [done|]. simpl. rewrite Ed. unfold later. naive_solver. }
destruct (IH (S k) (S ss) (Some k) (S ss)) as (x & -> & Hx).
- split; [lia|]. split; [lia|]. exists []. split_and!; try done. by intros ?%elem_of_nil.
- pose proof (star_measure_back si k ss d Hd). lia.
- exists x. split; [done|]. rewrite Hx. simpl. rewrite <- star_or_later. rewrite Ed.
unfold later. naive_solver.
Qed.
End star_loop.

Lemma match_simple_star_total pat s : is_Some (match_simple_star_run pat s).
Proof.
  unfold match_simple_star_run.
  destruct (star_loop_spec (utf8 pat) (utf8 s) (star_fuel (utf8 pat) (utf8 s)) 0 0 None 0)
    as (x & -> & _); [done| |by destruct x].
  unfold star_fuel, star_measure, stars_left, bytes_left. nia.
Qed.

(** The glob matcher is exact: its loop ends within its fuel without reading
    out of range, and it answers [true] exactly when the pattern matches under
    some choice of [/]-free text for each [*], although it remembers only the
    last star. *)
Theorem match_simple_star_exact pat s :
  is_Some (match_simple_star_run pat s)
  ∧ (match_simple_star pat s = true ↔ star_match (utf8 pat) (utf8 s)).
Proof.
  split; [apply match_simple_star_total|]. unfold match_simple_star, match_simple_star_run.
  destruct (star_loop_spec (utf8 pat) (utf8 s) (star_fuel (utf8 pat) (utf8 s)) 0 0 None 0)
    as (x & -> & Hx); [done| |].
  { unfold star_fuel, star_measure, stars_left, bytes_left. nia. }
  rewrite !drop_0 in Hx. simpl in Hx.
  destruct x as [b|pi]; simpl in *; rewrite Hx; naive_solver.
Qed.
