(* ===== verification/PermissionFacts.v ===== *)
(** What permission rules promise: the rule that decides is a most specific one,
    with what a broad rule may not silently allow; and what iteration order, a
    missing word boundary and a third spelling of "everything" do to it. *)

From S2P Require Import Prelude RustStr Paths Tokenize Permission Glob.

(** ** The best candidate *)

Section best.
Context (candidate : str * PermissionAction → option (nat * PermissionAction)).

(** [r] applies with this score and action. *)
Definition applies (rs : list (str * PermissionAction)) (score : nat) (act : PermissionAction) : Prop :=
∃ r, r ∈ rs ∧ candidate r = Some (score, act).

Lemma best_step_fold rs best :
let final := foldl (best_step candidate) best rs in
(∀ score act, best = Some (score, act) ∨ applies rs score act →
 ∃ s a, final = Some (s, a) ∧ score ≤ s)
∧ (∀ s a, final = Some (s, a) → best = Some (s, a) ∨ applies rs s a).
Proof.
revert best. induction rs as [|r rs IH]; intros best; simpl.
- split; [|naive_solver]. intros score act [->|(r & Hr & _)]; [by exists score, act|].
by apply elem_of_nil in Hr.
- destruct (IH (best_step candidate best r)) as [I1 I2].
assert (∀ s a, best_step candidate best r = Some (s, a) →
  best = Some (s, a) ∨ candidate r = Some (s, a)) as Hstep.
{ unfold best_step. intros s a. repeat case_match; naive_solver. }
split.
+ intros score act H.
  assert (∃ s a, best_step candidate best r = Some (s, a) ∧ score ≤ s
          ∨ applies rs score act) as (s & a & [[Hs Hle]|Ha]).
  { unfold best_step, score_wins. destruct H as [->|(x & [->|Hx]%elem_of_cons & Hc)].
    - destruct (candidate r) as [[s' a']|]; [|by exists score, act; left].
      destruct (Nat.leb_spec score s'); [exists s', a'|exists score, act]; left; (split; [done|lia]).
    - rewrite Hc. destruct best as [[s' a']|]; [|by exists score, act; left].
      destruct (Nat.leb_spec s' score); [exists score, act|exists s', a']; left; (split; [done|lia]).
    - exists 0, act. right. by exists x. }
  * destruct (I1 s a (or_introl Hs)) as (s' & a' & ? & ?). exists s', a'. split; [done|lia].
  * by apply (I1 score act); right.
+ intros s a [H|(x & Hx & Hc)]%I2.
  * destruct (Hstep s a H) as [?|Hc]; [by left|]. right. exists r. split; [left|done].
  * right. exists x. split; [by right|done].
Qed.

(** The outcome of the loop: nothing applies, or something of maximal score. *)
Lemma best_spec rs :
match foldl (best_step candidate) None rs with
| None => ∀ score act, ¬ applies rs score act
| Some (s, a) => applies rs s a ∧ ∀ score act, applies rs score act → score ≤ s
end.
Proof.
destruct (best_step_fold rs None) as [H1 H2].
destruct (foldl (best_step candidate) None rs) as [[s a]|].
- split; [destruct (H2 s a eq_refl); done|]. intros score act Ha.
destruct (H1 score act (or_intror Ha)) as (? & ? & [= <- <-] & ?). done.
- intros score act Ha. destruct (H1 score act (or_intror Ha)) as (? & ? & ? & _). done.
Qed.

(** Without a tie between different actions, the order of the rules is
irrelevant. *)
Lemma best_permutation rs rs' :
rs ≡ₚ rs' →
(∀ s a a', applies rs s a → applies rs s a' → a = a') →
foldl (best_step candidate) None rs = foldl (best_step candidate) None rs'.
Proof.
intros Hp Htie. pose proof (best_spec rs) as H. pose proof (best_spec rs') as H'.
assert (∀ s a, applies rs s a ↔ applies rs' s a) as Heq.
{ intros s a. unfold applies. by setoid_rewrite Hp. }
destruct (foldl _ None rs) as [[s a]|], (foldl _ None rs') as [[s' a']|]; try done.
- destruct H as [Ha Hm], H' as [Ha' Hm']. rewrite <- Heq in Ha'.
pose proof (Hm _ _ Ha'). apply Heq in Ha as Ha2. pose proof (Hm' _ _ Ha2).
assert (s = s') as -> by lia. by rewrite (Htie _ _ _ Ha Ha').
- destruct H as [Ha _]. exfalso. by eapply H', Heq.
- destruct H' as [Ha _]. exfalso. by eapply H, Heq.
Qed.
End best.

(** ** Rules for paths and commands *)

(** A path verdict is that of a most specific rule: [Some a] is the action of
    a rule for the tool whose glob matches and none that matches is longer, an
    [Allow] of a broad glob being turned into [Ask] for a path that leaves the
    project; [None] means that no rule applies. *)
Theorem action_for_path_spec ps tool_name path :
  let cand := path_candidate (to_ascii_lowercase (trim tool_name)) (replace_char path cBS (lit "/")) in
  match action_for_path ps tool_name path with
  | None => ∀ score act, ¬ applies cand (rules ps) score act
  | Some a => ∃ s, applies cand (rules ps) s a
                   ∧ ∀ score act, applies cand (rules ps) score act → score ≤ s
  end.
Proof.
  intros cand. unfold action_for_path. fold cand. pose proof (best_spec cand (rules ps)) as H.
  destruct (foldl _ None (rules ps)) as [[s a]|]; simpl; [|done]. by exists s.
Qed.

(** The verdicts for a path and for a command do not depend on the order a
    [HashMap] happens to iterate in, provided no two rules that apply with equal
    score disagree. *)
Theorem action_order_irrelevant ps ps' tool_name path command :
  rules ps ≡ₚ rules ps' →
  let pc := path_candidate (to_ascii_lowercase (trim tool_name)) (replace_char path cBS (lit "/")) in
  let sc := shell_candidate (trim command) in
  (∀ s a a', applies pc (rules ps) s a → applies pc (rules ps) s a' → a = a') →
  (∀ s a a', applies sc (rules ps) s a → applies sc (rules ps) s a' → a = a') →
  action_for_path ps tool_name path = action_for_path ps' tool_name path
  ∧ action_for_shell ps command = action_for_shell ps' command.
Proof.
  intros Hp pc sc H1 H2. unfold action_for_path, action_for_shell. fold pc sc. split.
  - by rewrite (best_permutation pc (rules ps) (rules ps')).
  - case_bool_decide; [done|]. by rewrite (best_permutation sc (rules ps) (rules ps')).
Qed.

(** No shell rule silently allows arbitrary code: when a command is allowed by
    the rules, a rule [bash(p)] or [shell(p)] allows it whose pattern matches and is
    neither [*] nor a broad pattern of an interpreter, shell or script runner. *)
Theorem shell_allow_not_dangerous ps command :
  action_for_shell ps command = Some PAllow →
  ∃ pattern tool arg, (pattern, PAllow) ∈ rules ps ∧ parse_shell_rule pattern = Some (tool, arg)
    ∧ shell_arg_matches arg (trim command) = true ∧ is_dangerous_shell_allow_pattern arg = false.
Proof.
  unfold action_for_shell. case_bool_decide; [done|]. intros Ha.
  pose proof (best_spec (shell_candidate (trim command)) (rules ps)) as Hb.
  destruct (foldl _ None (rules ps)) as [[s a]|]; [|done]. simpl in Ha. injection Ha as ->.
  destruct Hb as [([pattern act] & Hin & Hc) _]. unfold shell_candidate in Hc. simpl in Hc.
  destruct (parse_shell_rule pattern) as [[tool arg]|] eqn:Hp; [|done]. simpl in Hc.
  destruct (shell_arg_matches arg (trim command)) eqn:Hm; [|done]. simpl in Hc.
  injection Hc as _ Hc. destruct (is_dangerous_shell_allow_pattern arg) eqn:Hd.
  - rewrite andb_true_r in Hc. case_bool_decide; [done|]. by subst.
  - rewrite andb_false_r in Hc. subst act. by exists pattern, tool, arg.
Qed.

(** A path that is absolute or contains [..] is never silently allowed by a
    rule whose glob is [*], [**] or ends in [/**]: some other rule, which names
    more than that, has to allow it. *)
Theorem path_allow_not_broad ps tool_name path :
  action_for_path ps tool_name path = Some PAllow →
  path_escapes (replace_char path cBS (lit "/")) = true →
  ∃ pattern tool glob, (pattern, PAllow) ∈ rules ps ∧ parse_path_rule pattern = Some (tool, glob)
    ∧ path_glob_matches glob (replace_char path cBS (lit "/")) = true ∧ is_broad_glob glob = false.
Proof.
  unfold action_for_path. set (tool := to_ascii_lowercase (trim tool_name)).
  set (pn := replace_char path cBS (lit "/")). intros Ha He.
  pose proof (best_spec (path_candidate tool pn) (rules ps)) as Hb.
  destruct (foldl _ None (rules ps)) as [[s a]|]; [|done]. simpl in Ha. injection Ha as ->.
  destruct Hb as [([pattern act] & Hin & Hc) _]. unfold path_candidate in Hc. simpl in Hc.
  destruct (parse_path_rule pattern) as [[rtool glob]|] eqn:Hp; [|done]. simpl in Hc.
  destruct (path_tool_ok rtool tool); [|done]. simpl in Hc.
  destruct (path_glob_matches glob pn) eqn:Hm; [|done]. simpl in Hc. injection Hc as _ Hc.
  rewrite He, andb_true_r in Hc. destruct (is_broad_glob glob) eqn:Hg.
  - rewrite andb_true_r in Hc. case_bool_decide; [done|]. by subst.
  - rewrite andb_false_r in Hc. subst act. by exists pattern, rtool, glob.
Qed.

(** ** Tool names *)

Lemma glob_step_fold tool rs m :
  foldl (glob_step tool) m rs = None → m = None ∧ ∀ r, r ∈ rs → glob_step tool None r = None.
Proof.
  revert m. induction rs as [|r rs IH]; intros m; simpl.
  - intros ->. split; [done|]. by intros r ?%elem_of_nil.
  - intros [H1 H2]%IH.
    assert (m = None ∧ glob_step tool None r = None) as [-> Hr].
    { revert H1. unfold glob_step. repeat case_match; naive_solver. }
    split; [done|]. intros x [->|Hx]%elem_of_cons; auto.
Qed.

(** Without a rule that applies, a tool runs exactly when it is not on the deny
    list, is on the allow list if there is one, and its category is enabled; the
    browser always asks. *)
Theorem action_for_without_rules ps tool :
  rules_get (rules ps) tool = None →
  (∀ r, r ∈ rules ps → glob_step tool None r = None) →
  let denied := match denied_tools ps with Some l => tool ∈ l | None => False end in
  let missing := match allowed_tools ps with Some l => tool ∉ l | None => False end in
  let writes := tool ∈ lit <$> ["write"; "edit"; "apply_patch"; "ast_edit"; "todo_write"; "todowrite"; "todo"]%string in
  let shell := tool ∈ lit <$> ["shell"; "bash"]%string in
  let network := tool ∈ lit <$> ["webfetch"; "websearch"; "mcp_websearch"]%string in
  (action_for ps tool = PDeny ↔
     denied ∨ missing ∨ (writes ∧ allow_file_writes ps = false) ∨ (shell ∧ allow_shell ps = false)
     ∨ (network ∧ allow_network ps = false))
  ∧ (action_for ps tool = PAsk → tool = lit "browser").
Proof.
  intros Hget Hr denied missing writes shell network. unfold action_for. rewrite Hget.
  assert (foldl (glob_step tool) None (rules ps) = None) as ->.
  { clear -Hr. induction (rules ps) as [|r rs IH]; simpl; [done|].
    rewrite Hr by left. apply IH. intros x Hx. apply Hr. by right. }
  assert (∀ l, existsb (λ n, n == tool) l = true ↔ tool ∈ l) as Hex.
  { intros l. rewrite existsb_true_iff. setoid_rewrite bool_decide_eq_true. naive_solver. }
  assert (∀ tbl, is_one_of tool tbl = true ↔ tool ∈ lit <$> tbl) as Hone.
  { intros tbl. unfold is_one_of. rewrite existsb_true_iff, list_elem_of_fmap.
    setoid_rewrite bool_decide_eq_true. naive_solver. }
  assert (name_is_denied (denied_tools ps) tool = true ↔ denied) as Hd.
  { unfold denied, name_is_denied. destruct (denied_tools ps); [apply Hex|done]. }
  assert (name_missing_from_allow (allowed_tools ps) tool = true ↔ missing) as Hm.
  { unfold missing, name_missing_from_allow. destruct (allowed_tools ps) as [l|]; [|done].
    rewrite negb_true_iff, <- not_true_iff_false. by rewrite Hex. }
  unfold writes, shell, network. rewrite <- !Hone, <- Hd, <- Hm. clear.
  destruct (name_is_denied _ _), (name_missing_from_allow _ _), (is_one_of tool _), (is_one_of tool _),
    (is_one_of tool _), (allow_file_writes ps), (allow_shell ps), (allow_network ps); simpl;
    repeat case_bool_decide; naive_solver.
Qed.

(** ** Where the rules say less than they seem to *)

Definition ps_of (rs : list (string * PermissionAction)) : PermissionSet :=
  mkPermissionSet None None true true true None (map (λ r, (lit r.1, r.2)) rs).

(** [HashMap] order decides between rules of equal length: the same two rules
    allow or deny the same edit, and the same command, depending on which comes
    first, and two globs that match a tool name do so whatever their lengths. *)
Theorem rule_order_decides :
  let r1 := [("write(src/*.rs)", PDeny); ("edit(src/*.rs)", PAllow)]%string in
  let r2 := [("bash(git push)", PDeny); ("shell(git push)", PAllow)]%string in
  let r3 := [("mcp_*", PDeny); ("*", PAllow)]%string in
  action_for_path (ps_of r1) (lit "edit") (lit "src/a.rs") = Some PAllow
  ∧ action_for_path (ps_of (rev r1)) (lit "edit") (lit "src/a.rs") = Some PDeny
  ∧ action_for_shell (ps_of r2) (lit "git push") = Some PAllow
  ∧ action_for_shell (ps_of (rev r2)) (lit "git push") = Some PDeny
  ∧ action_for (ps_of r3) (lit "mcp_x") = PAllow
  ∧ action_for (ps_of (rev r3)) (lit "mcp_x") = PDeny.
Proof. split_and!; vm_compute; reflexivity. Qed.

(** [**/*] is one more spelling of "every file" that the check on absolute
    paths does not know: [write(**/*)] silently allows writing [/etc/passwd],
    which [write(**)] asks about. *)
Theorem star_star_star_allows_absolute :
  action_for_path (ps_of [("write(**/*)"%string, PAllow)]) (lit "write") (lit "/etc/passwd") = Some PAllow
  ∧ action_for_path (ps_of [("write(**)"%string, PAllow)]) (lit "write") (lit "/etc/passwd") = Some PAsk.
Proof. split; vm_compute; reflexivity. Qed.

(** ** Command prefixes *)

Lemma trim_end_app (a b : str) c :
  is_whitespace c = false → ∃ r, trim_end ((a ++ [c]) ++ b) = (a ++ [c]) ++ r.
Proof.
  intros Hc. destruct (trim_end_matches_prefix is_whitespace ((a ++ [c]) ++ b)) as [p Hp].
  fold (trim_end ((a ++ [c]) ++ b)) in Hp.
  unfold trim_end, trim_end_matches in *. rewrite !rev_app_distr. simpl rev.
  assert (∃ b', drop_while is_whitespace (rev b ++ c :: rev a) = b' ++ c :: rev a) as [b' ->].
  { clear Hp. induction (rev b) as [|x l IH]; simpl; [exists []; by rewrite Hc|].
    destruct (is_whitespace x); [done|]. by exists (x :: l). }
  exists (rev b'). rewrite rev_app_distr. simpl rev. by rewrite rev_involutive.
Qed.

(** A command name without blanks, [:] or [*]. *)
Definition plain_name (w : str) : Prop :=
  w ≠ [] ∧ Forall (λ c, is_whitespace c = false) w ∧ chr ":" ∉ w.

(** A rule [w *] ignores the word boundary it spells: it matches every command
    that begins with the letters of [w], so allowing [git *] allows [gitk], and
    allowing [go *] allows [google-chrome]. *)
Theorem shell_rule_ignores_boundary (w rest : str) :
  plain_name w → shell_arg_matches (w ++ lit " *") (w ++ rest) = true.
Proof.
  intros (Hne & Hws & Hcol). unfold shell_arg_matches.
  assert (∃ c0 w0, w = c0 :: w0 ∧ is_whitespace c0 = false) as (c0 & w0 & E0 & Hc0).
  { destruct w as [|c0 w0]; [done|]. apply Forall_cons in Hws as [? _]. eauto. }
  assert (∃ w1 c1, w = w1 ++ [c1] ∧ is_whitespace c1 = false) as (w1 & c1 & E1 & Hc1).
  { destruct (exists_last Hne) as (w1 & c1 & ->). apply Forall_app in Hws as [_ Hws].
    apply Forall_cons in Hws as [? _]. eauto. }
  assert (∀ t, trim_start (w ++ t) = w ++ t) as Hstart.
  { intros t. apply drop_while_id. intros c r E. rewrite E0 in E. injection E as <- _. done. }
  assert (trim (w ++ lit " *") = w ++ lit " *") as ->.
  { unfold trim. rewrite Hstart. change (lit " *") with ([chr " "] ++ [chr "*"]).
    rewrite app_assoc. by apply trim_end_matches_id. }
  assert (replace_char (w ++ lit " *") (chr ":") (lit " ") = w ++ lit " *") as ->.
  { apply replace_char_id. rewrite elem_of_app. intros [H|H]; [done|].
    revert H. apply (bool_decide_unpack _). by vm_compute. }
  assert (strip_suffix (lit "*") (w ++ lit " *") = Some (w ++ [chr " "])) as ->.
  { apply strip_suffix_Some. by rewrite <- app_assoc. }
  assert (trim_end (w ++ [chr " "]) = w) as ->.
  { unfold trim_end, trim_end_matches. rewrite rev_app_distr. simpl.
    rewrite drop_while_id; [apply rev_involutive|]. intros c r E.
    rewrite E1, rev_app_distr in E. simpl in E. by injection E as <- _. }
  rewrite bool_decide_eq_false_2 by done. unfold trim. rewrite Hstart.
  destruct (trim_end_app w1 rest c1 Hc1) as [r Hr]. rewrite <- E1 in Hr. rewrite Hr.
  rewrite starts_with_app. by rewrite orb_true_r.
Qed.

(** ** Concrete instances *)

Lemma shell_rule_ignores_boundary_witness :
  shell_arg_matches (lit "git *") (lit "gitleaks --report x") = true.
Proof.
  apply (shell_rule_ignores_boundary (lit "git") (lit "leaks --report x")).
  split; [intros H; vm_compute in H; discriminate|]. split.
  - vm_compute. repeat constructor.
  - apply (bool_decide_unpack _). vm_compute. exact I.
Defined.

Definition ex_rules : PermissionSet :=
  ps_of [("bash(git *)", PAllow); ("bash(*)", PAsk); ("write(/tmp/out.txt)", PAllow); ("write(**)", PDeny)]%string.

Lemma shell_allow_not_dangerous_witness :
  ∃ pattern tool arg, (pattern, PAllow) ∈ rules ex_rules ∧ parse_shell_rule pattern = Some (tool, arg)
    ∧ shell_arg_matches arg (trim (lit "git status")) = true ∧ is_dangerous_shell_allow_pattern arg = false.
Proof. apply (shell_allow_not_dangerous ex_rules (lit "git status")). vm_compute. reflexivity. Defined.

Lemma path_allow_not_broad_witness :
  ∃ pattern tool glob, (pattern, PAllow) ∈ rules ex_rules ∧ parse_path_rule pattern = Some (tool, glob)
    ∧ path_glob_matches glob (replace_char (lit "/tmp/out.txt") cBS (lit "/")) = true
    ∧ is_broad_glob glob = false.
Proof.
  apply (path_allow_not_broad ex_rules (lit "write") (lit "/tmp/out.txt")); vm_compute; reflexivity.
Defined.

Lemma action_for_without_rules_witness :
  action_for (ps_of []) (lit "bash") = PDeny ↔
    False ∨ False
    ∨ (lit "bash" ∈ lit <$> ["write"; "edit"; "apply_patch"; "ast_edit"; "todo_write"; "todowrite"; "todo"]%string
       ∧ true = false)
    ∨ (lit "bash" ∈ lit <$> ["shell"; "bash"]%string ∧ true = false)
    ∨ (lit "bash" ∈ lit <$> ["webfetch"; "websearch"; "mcp_websearch"]%string ∧ true = false).
Proof.
  apply (action_for_without_rules (ps_of []) (lit "bash")).
  - reflexivity.
  - intros r H. inversion H.
Defined.

(** Every rule of [ex_rules] that applies to [git status] or to [/tmp/out.txt] has
    a score of its own. *)
Lemma action_order_irrelevant_witness :
  action_for_path ex_rules (lit "write") (lit "/tmp/out.txt")
  = action_for_path (ps_of [("write(**)", PDeny); ("write(/tmp/out.txt)", PAllow); ("bash(*)", PAsk);
                            ("bash(git *)", PAllow)]%string) (lit "write") (lit "/tmp/out.txt")
  ∧ action_for_shell ex_rules (lit "git status")
    = action_for_shell (ps_of [("write(**)", PDeny); ("write(/tmp/out.txt)", PAllow); ("bash(*)", PAsk);
                               ("bash(git *)", PAllow)]%string) (lit "git status").
Proof.
  apply (action_order_irrelevant ex_rules
    (ps_of [("write(**)", PDeny); ("write(/tmp/out.txt)", PAllow); ("bash(*)", PAsk);
            ("bash(git *)", PAllow)]%string)).
  - apply (Permutation_rev (rules ex_rules)).
  - intros s a a' (r & Hr & E) (r' & Hr' & E'). cbv [ex_rules ps_of rules map] in Hr, Hr'.
    rewrite !elem_of_cons, elem_of_nil in Hr, Hr'.
    repeat match goal with H : _ ∨ _ |- _ => destruct H as [->|H] end; try done;
      vm_compute in E, E'; congruence.
  - intros s a a' (r & Hr & E) (r' & Hr' & E'). cbv [ex_rules ps_of rules map] in Hr, Hr'.
    rewrite !elem_of_cons, elem_of_nil in Hr, Hr'.
    repeat match goal with H : _ ∨ _ |- _ => destruct H as [->|H] end; try done;
      vm_compute in E, E'; congruence.
Defined.
