(* ===== verification/F32.v ===== *)
(** Rust's [f32]: IEEE binary32 from the Standard Library's [SpecFloat] (precision
    24, exponent bound 128, round to nearest even), with the literals, the
    operations and the fixed-point formatting the source uses; and string literals
    with characters outside ASCII. *)

From Stdlib Require Import SpecFloat.
From S2P Require Import Prelude RustStr.

(** ** Numbers *)

Definition f32 : Type := spec_float.
Definition f32_of_Z (n : Z) : f32 := binary_normalize 24 128 n 0 false.
Definition f32_of_nat (n : nat) : f32 := f32_of_Z (Z.of_nat n).
(** A decimal literal [n / d]: both are exact, so the quotient is the literal
    correctly rounded. *)
Definition f32_lit (n d : Z) : f32 := SFdiv 24 128 (f32_of_Z n) (f32_of_Z d).
Definition f32_add : f32 → f32 → f32 := SFadd 24 128.
Definition f32_mul : f32 → f32 → f32 := SFmul 24 128.
Definition f32_div : f32 → f32 → f32 := SFdiv 24 128.
(** [a >= b], [a > b], [a < b]. *)
Definition f32_ge (a b : f32) : bool := SFleb b a.
Definition f32_gt (a b : f32) : bool := SFltb b a.
Definition f32_lt (a b : f32) : bool := SFltb a b.
(** [x.clamp(lo, hi)]. *)
Definition f32_clamp (x lo hi : f32) : f32 :=
  let x := if f32_lt x lo then lo else x in
  if f32_gt x hi then hi else x.

Example f32_examples :
  f32_lit 1 2 = S754_finite false 8388608 (-24)
  ∧ f32_lit 1 10 = S754_finite false 13421773 (-27)
  ∧ f32_add (f32_lit 6 5) (f32_lit 1 1) = f32_lit 11 5.
Proof. split_and!; vm_compute; reflexivity. Qed.

(** ** Formatting: [{:.d}] rounds the exact value to [d] decimals, ties to even *)

Definition round_half_even (num den : Z) : Z :=
  let q := (num / den)%Z in
  let r := (num mod den)%Z in
  match (2 * r ?= den)%Z with
  | Lt => q
  | Gt => (q + 1)%Z
  | Eq => if Z.even q then q else (q + 1)%Z
  end.

(** [|x| * 10^d], rounded. *)
Definition scaled (d : nat) (m : positive) (e : Z) : N :=
  let n := (Z.pos m * 10 ^ Z.of_nat d)%Z in
  Z.to_N (if (0 <=? e)%Z then (n * 2 ^ e)%Z else round_half_even n (2 ^ (- e))).

Definition fixed (d : nat) (n : N) : str :=
  let p := (10 ^ N.of_nat d)%N in
  let frac := digits (n mod p)%N in
  digits (n / p)%N ++
  (if d =? 0 then [] else lit "." ++ replicate (d - length frac) (chr "0") ++ frac).

Definition fmt_f32 (d : nat) (x : f32) : str :=
  match x with
  | S754_zero s => (if s then lit "-" else []) ++ fixed d 0
  | S754_infinity s => (if s then lit "-" else []) ++ lit "inf"
  | S754_nan => lit "NaN"
  | S754_finite s m e => (if s then lit "-" else []) ++ fixed d (scaled d m e)
  end.

Example fmt_examples :
  fmt_f32 2 (f32_lit 19 20) = lit "0.95"
  ∧ fmt_f32 0 (f32_mul (f32_lit 29 40) (f32_of_Z 100)) = lit "72"
  ∧ fmt_f32 2 (f32_lit 1 8) = lit "0.12"
  ∧ fmt_f32 0 (f32_of_Z 100) = lit "100"
  ∧ fmt_f32 2 (f32_lit 203 2) = lit "101.50".
Proof. split_and!; vm_compute; reflexivity. Qed.

(** ** String literals outside ASCII: the bytes of the literal, decoded *)

Fixpoint utf8_decode (bytes : list N) : str :=
  match bytes with
  | [] => []
  | b :: r =>
      if (b <? 128)%N then b :: utf8_decode r
      else
        match r with
        | b1 :: r1 =>
            if (b <? 224)%N then ((b - 192) * 64 + (b1 - 128))%N :: utf8_decode r1
            else
              match r1 with
              | b2 :: r2 =>
                  if (b <? 240)%N
                  then ((b - 224) * 4096 + (b1 - 128) * 64 + (b2 - 128))%N :: utf8_decode r2
                  else
                    match r2 with
                    | b3 :: r3 =>
                        ((b - 240) * 262144 + (b1 - 128) * 4096 + (b2 - 128) * 64 + (b3 - 128))%N
                        :: utf8_decode r3
                    | [] => []
                    end
              | [] => []
              end
        | [] => []
        end
  end.
Definition ulit (s : string) : str := utf8_decode (lit s).
Arguments ulit _%_string : simpl never.

Example ulit_ex : ulit "ışçğ" = [305; 351; 231; 287]%N ∧ utf8 (ulit "nasıl ？") = lit "nasıl ？".
Proof. by vm_compute. Qed.
