(* ===== verification/ToolText.v ===== *)
(** The text functions of [session/src/session.rs] that keep tool output small:
    caps with a footer that counts what was cut, the head-and-tail cap of a fresh
    result, spilled bodies, and image payloads. A slice that would panic is [None]. *)

From S2P Require Import Prelude RustStr Bytes.

Definition TOOL_RESULT_MAX_CHARS : nat := N.to_nat 32768.
Definition TOOL_RESULT_PRUNE_CHARS : nat := N.to_nat 2048.
Definition TOOL_RESULT_SHAKE_CHARS : nat := 512.
Definition SPILL_HEAD_CHARS : nat := 400.
Definition SPILL_MARK : str := lit "full output saved: ".
Definition TOOL_RESULT_HEAD_CHARS : nat := N.to_nat 8192.
Definition OMITTED_MARK_RESERVE : nat := 32.

(** [core/src/tokens.rs]: characters over four, rounded up. *)
Definition estimate_tokens (text : str) : nat := (length text + 3) / 4.

Definition truncation_notice (omitted : N) : str :=
  [cLF] ++ lit "[" ++ digits omitted ++ lit " chars truncated]".
Definition CURRENT : str := lit " chars truncated]".
Definition LEGACY : str := lit " characters truncated for context management]".
Definition CURRENT_MARK : str := [cLF] ++ lit "[".
Definition LEGACY_MARK : str := [cLF; cLF] ++ lit "[... ".

(** One of the two footers: the body before the last [mark], and the number
    between [mark] and the end of the text. *)
Definition notice_at (text footer mark : str) : option (option (str * N)) :=
  match strip_suffix footer text with
  | None => Some None
  | Some rest =>
      match rfind_str rest mark with
      | None => Some None
      | Some idx =>
          num ← slice_from rest (idx + byte_len mark);
          match parse_uint usize_max num with
          | Some n => body ← slice_to text idx; Some (Some (body, n))
          | None => Some None
          end
      end
  end.
Definition split_truncation_notice (text : str) : option (str * option N) :=
  current ← notice_at text CURRENT CURRENT_MARK;
  match current with
  | Some (body, n) => Some (body, Some n)
  | None =>
      legacy ← notice_at text LEGACY LEGACY_MARK;
      match legacy with
      | Some (body, n) => Some (body, Some n)
      | None => Some (text, None)
      end
  end.

Definition with_truncation_notice (text : str) (body_len : nat) (omitted : N) : option str :=
  if (omitted =? 0)%N then Some text
  else
    let notice := truncation_notice omitted in
    if (byte_len text =? body_len + byte_len notice) && ends_with text notice then Some text
    else body ← slice_to text body_len; Some (body ++ notice).

(** [body_chars - max_chars + omitted_tail] in a [usize], which wraps in release. *)
Definition add_omitted (cut : nat) (tail : N) : N := ((N.of_nat cut + tail) mod 2 ^ 64)%N.

(** The test on the byte length only saves counting characters. *)
Definition cap_tool_text_to (text : str) (max_chars : nat) : option str :=
  '(body, prior_omitted) ← split_truncation_notice text;
  let omitted_tail := default 0%N prior_omitted in
  if (omitted_tail =? 0)%N && (byte_len body <=? max_chars) then Some text
  else if length body <=? max_chars then with_truncation_notice text (byte_len body) omitted_tail
  else Some (take max_chars body ++ truncation_notice (add_omitted (length body - max_chars) omitted_tail)).

Definition cap_tool_text (text : str) : option str := cap_tool_text_to text TOOL_RESULT_MAX_CHARS.

Definition cap_tool_text_head_tail (text : str) : str :=
  if byte_len text <=? TOOL_RESULT_MAX_CHARS then text
  else
    let total := length text in
    if total <=? TOOL_RESULT_MAX_CHARS then text
    else
      let tail_chars := TOOL_RESULT_MAX_CHARS - TOOL_RESULT_HEAD_CHARS - OMITTED_MARK_RESERVE in
      let omitted := total - TOOL_RESULT_HEAD_CHARS - tail_chars in
      take TOOL_RESULT_HEAD_CHARS text ++
      [cLF] ++ lit "[" ++ digits (N.of_nat omitted) ++ lit " chars omitted]" ++ [cLF] ++
      drop (total - tail_chars) text.

Definition spill_line (omitted : N) (pointer : str) : str :=
  [cLF] ++ lit "[" ++ digits omitted ++ lit " more chars; " ++ SPILL_MARK ++ pointer ++ lit "]".

(** [store] writes the body and names it, or declines; [σ] is what it writes to. *)
Definition spill_body {S} (store : S → str → str → option str * S) (text id : str) (σ : S) : option str * S :=
  if (length text <=? TOOL_RESULT_PRUNE_CHARS) || contains text SPILL_MARK then (None, σ)
  else
    let '(stored, σ) := store σ id text in
    match stored with
    | None => (None, σ)
    | Some pointer =>
        let head := take SPILL_HEAD_CHARS text in
        let omitted := length text - length head in
        (Some (head ++ spill_line (N.of_nat omitted) pointer), σ)
    end.

Definition IMAGE_MARK : str := lit "WHYCODES_IMAGE_B64:".
(** The outer option is a panic. *)
Definition split_whycodes_image_payload (content : str) : option (option (str * str * str)) :=
  match find content IMAGE_MARK with
  | None => Some None
  | Some idx =>
      after ← slice_from content (idx + byte_len IMAGE_MARK);
      match split_once after [cLF] with
      | None => Some None
      | Some (media, rest) =>
          let media := trim media in
          let b64 := trim rest in
          if (media == []) || (b64 == []) then Some None
          else
            before ← slice_to content idx;
            let preface := trim before in
            let preface := if preface == [] then lit "[image " ++ media ++ lit "]" else preface in
            Some (Some (media, b64, preface))
      end
  end.

(** ** Footers *)

Lemma digits_no_mark n : CURRENT_MARK `suffix_of` digits n → False.
Proof.
  intros [k E]. pose proof (digits_all n) as H. rewrite E in H. apply Forall_app in H as [_ H].
  by inversion H.
Qed.

(** The last mark of [x ++ mark ++ digits] is that one. *)
Lemma rfind_notice x n : rfind_str (x ++ CURRENT_MARK ++ digits n) CURRENT_MARK = Some (byte_len x).
Proof.
  pose proof (rfind_str_spec (x ++ CURRENT_MARK ++ digits n) CURRENT_MARK ltac:(done)) as H.
  destruct (rfind_str _ _) as [j|].
  - destruct H as (a & b & E & <- & Hm). f_equal. specialize (Hm x (digits n) eq_refl).
    destruct (decide (length a = length x)) as [Hl|Hl].
    + apply app_inj_1 in E as [-> _]; done.
    + exfalso. apply (f_equal (drop (length x))) in E as E2. rewrite drop_app_length, drop_app_le in E2 by lia.
      destruct (drop (length x) a) as [|c r] eqn:Ed.
      { apply (f_equal length) in Ed. rewrite length_drop in Ed. cbn in Ed. lia. }

      assert (cLF ∈ lit "[" ++ digits n) as Hin.
      { unfold CURRENT_MARK in E2 at 1. cbn [app] in E2. injection E2 as -> E2.
        change (lit "[" ++ digits n) with (chr "[" :: digits n).
        rewrite E2. apply elem_of_app. right. left. }
      apply elem_of_app in Hin as [Hin|Hin].
      * by apply list_elem_of_singleton in Hin.
      * pose proof (digits_all n) as Hd. rewrite Forall_forall in Hd. by apply Hd in Hin.
  - destruct H. by exists x, (digits n).
Qed.

(** A text that ends in a footer is split at it. *)
Lemma split_notice body n :
  (n ≤ usize_max)%N → split_truncation_notice (body ++ truncation_notice n) = Some (body, Some n).
Proof.
  intros Hn. unfold split_truncation_notice, notice_at.
  assert (body ++ truncation_notice n = (body ++ CURRENT_MARK ++ digits n) ++ CURRENT) as E.
  { unfold truncation_notice, CURRENT_MARK, CURRENT. by rewrite <- !app_assoc. }
  rewrite (proj2 (strip_suffix_Some _ _ _) E), rfind_notice.
  rewrite (app_assoc body CURRENT_MARK), <- byte_len_app, slice_from_app. cbn [mbind option_bind].
  rewrite parse_uint_digits by done. rewrite slice_to_app. done.
Qed.

Lemma notice_at_total text footer mark :
  mark ≠ [] → ∃ r, notice_at text footer mark = Some r ∧ ∀ body n, r = Some (body, n) → ∃ w, text = body ++ w.
Proof.
  intros Hm. unfold notice_at. destruct (strip_suffix footer text) as [rest|] eqn:Er; [|eexists; by split].
  apply strip_suffix_Some in Er as ->.
  pose proof (rfind_str_spec rest mark Hm) as Hr. destruct (rfind_str rest mark) as [idx|]; [|eexists; by split].
  destruct Hr as (a & b & -> & <- & _).
  rewrite (app_assoc a mark b), <- byte_len_app, slice_from_app. cbn [mbind option_bind].
  destruct (parse_uint usize_max b) as [n|] eqn:Ep; [|eexists; by split].
  rewrite <- !app_assoc, slice_to_app. cbn. eexists; split; [done|]. intros body m [= <- <-]. eauto.
Qed.

Lemma split_truncation_notice_total text :
  ∃ body n, split_truncation_notice text = Some (body, n) ∧ ∃ w, text = body ++ w.
Proof.
  unfold split_truncation_notice.
  destruct (notice_at_total text CURRENT CURRENT_MARK ltac:(done)) as (r & -> & Hr). cbn [mbind option_bind].
  destruct r as [[body n]|]; [eexists _, _; split; [done|]; by eapply Hr|].
  destruct (notice_at_total text LEGACY LEGACY_MARK ltac:(done)) as (r & -> & Hr'). cbn [mbind option_bind].
  destruct r as [[body n]|]; [eexists _, _; split; [done|]; by eapply Hr'|].
  eexists _, _. split; [done|]. exists []. by rewrite app_nil_r.
Qed.

(** The cap never panics. *)
Lemma cap_tool_text_to_total text n : is_Some (cap_tool_text_to text n).
Proof.
  unfold cap_tool_text_to. destruct (split_truncation_notice_total text) as (body & p & -> & w & Ew).
  cbn [mbind option_bind]. case_match; [eauto|]. case_match; [|eauto].
  unfold with_truncation_notice. repeat (case_match; [eauto|]). rewrite Ew, slice_to_app. cbn. eauto.
Qed.

(** ** What a cap does to a text without a footer *)

Definition capped (text : str) (n : nat) : str :=
  if length text <=? n then text else take n text ++ truncation_notice (N.of_nat (length text - n)).

Lemma cap_plain text n :
  split_truncation_notice text = Some (text, None) → (N.of_nat (length text) ≤ usize_max)%N →
  cap_tool_text_to text n = Some (capped text n).
Proof.
  intros Hs Hl. unfold cap_tool_text_to, capped. rewrite Hs. cbn [mbind option_bind].
  change (default 0%N None =? 0)%N with true. change (default 0%N None) with 0%N. cbn [andb].
  pose proof (byte_len_length text) as Hb. destruct (Nat.leb_spec (byte_len text) n) as [H|H].
  - by rewrite (proj2 (Nat.leb_le _ _)) by lia.
  - destruct (Nat.leb_spec (length text) n) as [H'|H']; [done|].
    unfold add_omitted. rewrite N.add_0_r, N.mod_small; [done|].
    unfold usize_max in Hl. apply (N.le_lt_trans _ 18446744073709551615); [lia|done].
Qed.

Lemma cap_capped text n m :
  (N.of_nat (length text) ≤ usize_max)%N → n < length text → m ≤ n →
  cap_tool_text_to (capped text n) m = Some (capped text m).
Proof.
  intros Hl Hn Hm. unfold capped. rewrite (proj2 (Nat.leb_gt _ _)), (proj2 (Nat.leb_gt (length text) m)) by lia.
  set (body := take n text). set (k := N.of_nat (length text - n)).
  assert ((k =? 0)%N = false) as Hk by (apply N.eqb_neq; lia).
  assert (length body = n) as Hbl by (unfold body; rewrite length_take; lia).
  unfold cap_tool_text_to. rewrite split_notice by lia. cbn [mbind option_bind].
  change (default 0%N (Some k)) with k. rewrite Hk. cbn [andb]. rewrite Hbl.
  destruct (Nat.leb_spec n m) as [H|H].
  - assert (m = n) as -> by lia. unfold with_truncation_notice. rewrite Hk.
    rewrite byte_len_app, Nat.eqb_refl, (proj2 (ends_with_true _ _)) by eauto. done.
  - unfold body. rewrite take_take, Nat.min_l by lia. do 3 f_equal. unfold add_omitted, k.
    rewrite N.mod_small; [lia|]. unfold usize_max in Hl. apply (N.le_lt_trans _ 18446744073709551615); [lia|done].
Qed.

(** A capped tool result is the text itself when it fits, and else
    its first [n] characters with a footer that counts exactly the characters cut;
    and caps compose: a tighter cap of a capped text is the tighter cap of the
    original, so the footer counts what is missing from the tool's output and the
    earlier footer is neither counted nor left in the middle. Nothing in either
    pass can panic. (For a text that does not itself end in such a footer, and
    lengths that fit a usize.) *)
Theorem caps_compose (text : str) (n m : nat) :
  split_truncation_notice text = Some (text, None) → (N.of_nat (length text) ≤ usize_max)%N → m ≤ n →
  cap_tool_text_to text n = Some (capped text n) ∧
  cap_tool_text_to (capped text n) m = cap_tool_text_to text m ∧
  cap_tool_text_to text m = Some (capped text m).
Proof.
  intros Hs Hl Hm. rewrite (cap_plain text n), (cap_plain text m) by done.
  split; [done|]. split; [|done].
  destruct (decide (n < length text)) as [Hn|Hn]; [by apply cap_capped|].
  unfold capped at 1. rewrite (proj2 (Nat.leb_le (length text) n)) by lia. by apply cap_plain.
Qed.

Definition long_output : str := replicate 30 (chr "x") ++ lit " [3 chars] done".

Lemma caps_compose_witness :
  split_truncation_notice long_output = Some (long_output, None) ∧
  (N.of_nat (length long_output) ≤ usize_max)%N ∧ 10 ≤ 20 ∧
  cap_tool_text_to long_output 20 = Some (capped long_output 20) ∧
  cap_tool_text_to (capped long_output 20) 10 = cap_tool_text_to long_output 10 ∧
  cap_tool_text_to long_output 10 = Some (capped long_output 10).
Proof.
  assert (split_truncation_notice long_output = Some (long_output, None)) as H1 by (vm_compute; reflexivity).
  assert (N.of_nat (length long_output) ≤ usize_max)%N as H2 by (vm_compute; discriminate).
  assert (10 ≤ 20) as H3 by lia. split_and!; [done..| | |]; apply (caps_compose long_output 20 10 H1 H2 H3).
Defined.

Example cap_ex :
  cap_tool_text_to (lit "0123456789abc") 10 = Some (lit "0123456789" ++ [cLF] ++ lit "[3 chars truncated]") ∧
  cap_tool_text_to (lit "0123456789" ++ [cLF] ++ lit "[3 chars truncated]") 4 =
    Some (lit "0123" ++ [cLF] ++ lit "[9 chars truncated]").
Proof. split; vm_compute; reflexivity. Qed.

(** A footer in the tool's own output is taken for the cap's: zeros in it count as
    a footer of any length, so such a text is not cut; and a huge number wraps. *)
Example footer_in_output :
  let zeros := lit "ok" ++ CURRENT_MARK ++ replicate 100 (chr "0") ++ CURRENT in
  cap_tool_text_to zeros 10 = Some zeros ∧
  cap_tool_text_to (lit "0123456789" ++ CURRENT_MARK ++ lit "18446744073709551615" ++ CURRENT) 4 =
    Some (lit "0123" ++ [cLF] ++ lit "[5 chars truncated]").
Proof. split; vm_compute; reflexivity. Qed.

(** ** The head-and-tail cap *)

Lemma digits_go_length k n j :
  (n < 10 ^ N.of_nat (S j))%N → length (digits_go k n []) ≤ S j.
Proof.
  revert n j; induction k as [|k IH]; intros n j Hn; cbn [digits_go]; [cbn; lia|].
  destruct (N.eqb_spec (n / 10) 0) as [|H]; [cbn; lia|]. rewrite digits_go_app, length_app. cbn [length].
  destruct j as [|j].
  - exfalso. apply H. apply N.div_small. exact Hn.
  - assert (n / 10 < 10 ^ N.of_nat (S j))%N as Hd.
    { apply N.Div0.div_lt_upper_bound. rewrite <- N.pow_succ_r'. by replace (N.succ (N.of_nat (S j))) with (N.of_nat (S (S j))) by lia. }
    specialize (IH _ _ Hd). lia.
Qed.
Lemma digits_length n j : (n < 10 ^ N.of_nat (S j))%N → length (digits n) ≤ S j.
Proof. apply digits_go_length. Qed.

Lemma max_chars_N : N.of_nat TOOL_RESULT_MAX_CHARS = 32768%N ∧ N.of_nat TOOL_RESULT_HEAD_CHARS = 8192%N.
Proof. unfold TOOL_RESULT_MAX_CHARS, TOOL_RESULT_HEAD_CHARS. by rewrite !N2Nat.id. Qed.
#[global] Opaque TOOL_RESULT_MAX_CHARS TOOL_RESULT_HEAD_CHARS.

(** A fresh tool result is kept whole when it has at most
    [TOOL_RESULT_MAX_CHARS] characters, and otherwise shortened to at most that
    many, with its first 8192 and its last 24544 characters and, between them, the
    exact number left out; so the later caps at the same bound leave it alone.
    (Up to 10^14 characters, beyond which the number outgrows its reserve.) *)
Theorem head_tail_bounded (text : str) :
  (N.of_nat (length text) < 10 ^ 14)%N →
  let out := cap_tool_text_head_tail text in
  length out ≤ TOOL_RESULT_MAX_CHARS ∧
  if length text <=? TOOL_RESULT_MAX_CHARS then out = text
  else ∃ middle omitted last_part,
    text = take TOOL_RESULT_HEAD_CHARS text ++ middle ++ last_part ∧
    N.of_nat (length middle) = omitted ∧ N.of_nat (length last_part) = 24544%N ∧
    out = take TOOL_RESULT_HEAD_CHARS text ++
          [cLF] ++ lit "[" ++ digits omitted ++ lit " chars omitted]" ++ [cLF] ++ last_part.
Proof.
  intros Hl. cbv zeta. destruct max_chars_N as [Hmax Hhead]. unfold cap_tool_text_head_tail.
  pose proof (byte_len_length text) as Hb.
  destruct (Nat.leb_spec (length text) TOOL_RESULT_MAX_CHARS) as [H|H].
  { destruct (byte_len text <=? TOOL_RESULT_MAX_CHARS); by split. }
  rewrite (proj2 (Nat.leb_gt _ _)) by lia. cbv zeta.
  set (tl := TOOL_RESULT_MAX_CHARS - TOOL_RESULT_HEAD_CHARS - OMITTED_MARK_RESERVE).
  assert (N.of_nat tl = 24544%N) as Htl by (unfold tl, OMITTED_MARK_RESERVE; lia).
  set (om := length text - TOOL_RESULT_HEAD_CHARS - tl).
  assert (length (digits (N.of_nat om)) ≤ 14) as Hd by (apply (digits_length _ 13); unfold om; lia).
  split.
  - rewrite !length_app, length_take, length_drop. change (length (lit " chars omitted]")) with 15.
    change (length (lit "[")) with 1. cbn [length]. unfold om, tl, OMITTED_MARK_RESERVE in *. lia.
  - exists (take om (drop TOOL_RESULT_HEAD_CHARS text)), (N.of_nat om), (drop (length text - tl) text).
    split_and!; [| | |done].
    + rewrite <- (take_drop TOOL_RESULT_HEAD_CHARS text) at 1. f_equal.
      rewrite <- (take_drop om (drop TOOL_RESULT_HEAD_CHARS text)) at 1. f_equal.
      rewrite drop_drop. f_equal. unfold om. lia.
    + rewrite length_take, length_drop. f_equal. unfold om. lia.
    + rewrite length_drop. rewrite <- Htl. f_equal. lia.
Qed.

Lemma head_tail_bounded_witness :
  (N.of_nat (length (replicate 40 cDQ)) < 10 ^ 14)%N ∧
  length (cap_tool_text_head_tail (replicate 40 cDQ)) ≤ TOOL_RESULT_MAX_CHARS.
Proof.
  assert (N.of_nat (length (replicate 40 cDQ)) < 10 ^ 14)%N as H by (vm_compute; reflexivity).
  split; [exact H|]. exact (proj1 (head_tail_bounded (replicate 40 cDQ) H)).
Defined.

(** ** Spilled bodies *)

(** A spilled body keeps its head and names the stored copy; it is not spilled
    again, whatever the store says. *)
Lemma spill_body_once {S S'} (store : S → str → str → option str * S) text id σ out σ' :
  spill_body store text id σ = (Some out, σ') →
  take SPILL_HEAD_CHARS out = take SPILL_HEAD_CHARS text
  ∧ (∀ (store' : S' → str → str → option str * S') id' σ2, spill_body store' out id' σ2 = (None, σ2))
  ∧ ∃ pointer, store σ id text = (Some pointer, σ') ∧ infix_of (SPILL_MARK ++ pointer) out.
Proof.
  unfold spill_body at 1. destruct (_ || _) eqn:E; [done|]. apply orb_false_iff in E as [E _]. apply Nat.leb_gt in E.
  destruct (store σ id text) as [[pointer|] σ1]; [|done]. intros [= <- <-].
  assert (SPILL_HEAD_CHARS ≤ length text) as Hl.
  { unfold TOOL_RESULT_PRUNE_CHARS in E. unfold SPILL_HEAD_CHARS. lia. }
  set (head := take SPILL_HEAD_CHARS text). set (n := N.of_nat _).
  assert (head ++ spill_line n pointer =
    (head ++ [cLF] ++ lit "[" ++ digits n ++ lit " more chars; ") ++ (SPILL_MARK ++ pointer) ++ lit "]") as Eo
    by (unfold spill_line; by rewrite <- !app_assoc).
  split_and!.
  - rewrite take_app_le by (unfold head; rewrite length_take; lia). unfold head. by rewrite take_take, Nat.min_id.
  - intros store' id' σ2. unfold spill_body.
    rewrite (proj2 (contains_true _ SPILL_MARK)), orb_true_r; [done|]. rewrite Eo.
    eexists _, _. by rewrite <- (app_assoc SPILL_MARK).
  - exists pointer. split; [done|]. rewrite Eo. by eexists _, _.
Qed.

(** The stand-in of a spilled body can be over the shake cap: with a tool call id
    of 60 characters in the pointer, shaking cuts the pointer off. *)
Definition artifact_of (id : str) : str := lit ".whycodes/scratch/artifacts/" ++ id ++ lit ".txt".
Example shake_cuts_pointer :
  let id := replicate 60 (chr "c") in
  let spilled := default [] (spill_body (λ _ i _, (Some (artifact_of i), ())) (replicate (N.to_nat 3000) (chr "x")) id ()).1 in
  contains spilled (artifact_of id) = true ∧
  (λ t, contains t (artifact_of id)) <$> cap_tool_text_to spilled TOOL_RESULT_SHAKE_CHARS = Some false.
Proof. split; vm_compute; reflexivity. Qed.

(** ** The store of spilled bodies ([agent/src/agent/spill.rs]), with its files *)

Definition stem_char (c : rchar) : rchar :=
  if is_ascii_alphanumeric c || (c =? chr "-")%N || (c =? chr "_")%N then c else chr "_".
Definition safe_file_stem (id : str) : str :=
  let stem := take 80 (stem_char <$> id) in
  if stem == [] then lit "tool" else stem.
(** [writable]: creating the directory and writing a file succeed. *)
Definition store_artifact (writable : bool) (files : gmap str str) (id body : str) : option str * gmap str str :=
  let path := artifact_of (safe_file_stem id) in
  if negb writable then (None, files)
  else (Some path, if bool_decide (is_Some (files !! path)) then files else <[path := body]> files).

(** The pointer reads back the body when the file was not there before. *)
Lemma store_artifact_reads_back files id body path files' :
  store_artifact true files id body = (Some path, files') → files !! path = None → files' !! path = Some body.
Proof.
  unfold store_artifact. cbn [negb]. intros [= <- <-] H. rewrite H, bool_decide_false by by intros [? ?].
  apply lookup_insert_eq.
Qed.

(** An id that comes again, as the fallback ids [call_<n>] do after a compaction
    and in the next session, or two ids with the same stem, name the old body. *)
Example second_body_lost :
  let '(p1, f1) := store_artifact true ∅ (lit "call_7") (lit "first") in
  let '(p2, f2) := store_artifact true f1 (lit "call_7") (lit "second") in
  p1 = p2 ∧ p2 ≫= (f2 !!.) = Some (lit "first").
Proof. vm_compute. by split. Qed.
