(* ===== verification/Messages.v ===== *)
(** Messages ([crates/core/src/types.rs]): what a transcript and a request are made
    of. JSON values and timestamps are opaque parameters, and most clients keep images
    opaque too. *)

From S2P Require Import Prelude.

Inductive Role := System | User | Assistant | Tool.
#[global] Instance Role_eq_dec : EqDecision Role.
Proof. solve_decision. Defined.

Inductive ImageSource := Base64 (media_type data : str) | Url (url : str).

Section message.
Context {Value ImageSource Time : Type}.

Inductive ContentBlock :=
| BText (text : str)
| BImage (source : ImageSource)
| BToolUse (id name : str) (input : Value)
| BToolResult (tool_use_id content : str) (is_error : option bool)
| BThinking (text : str) (signature : option str)
| BRedactedThinking (data : str)
| BCompaction (content : str) (raw : Value).

Inductive MessageContent := MText (t : str) | MBlocks (blocks : list ContentBlock).

Record Message := mkMessage {
role : Role;
content : MessageContent;
tool_call_id : option str;
name : option str;
created_at : option Time }.

Definition set_content (m : Message) (c : MessageContent) : Message :=
mkMessage (role m) c (tool_call_id m) (name m) (created_at m).
End message.
Arguments ContentBlock : clear implicits.
Arguments MessageContent : clear implicits.
Arguments Message : clear implicits.
