(* ===== verification/Tree.v ===== *)
(** [session/src/tree.rs]: branches of a conversation and the tree of its turns.
    Paths are full transcripts; the tree is a trie over the turns of all of them,
    kept in an arena of nodes. [DefaultHasher] is a parameter: a function of what is
    fed to it. Indexing out of range is [None]. *)

From S2P Require Import Prelude RustStr Messages.
From stdpp Require Import sorting.

Section tree.
Context {Value ImageSource Time : Type}.
Notation Message := (Message Value ImageSource Time).
Notation ContentBlock := (ContentBlock Value ImageSource).

(** ** Fingerprints *)

(** What is fed to the hasher, in order. *)
Inductive fed :=
| FRole (r : Role) | FOption (o : option str) | FBlock (discriminant : nat)
| FStr (s : str) | FPair (a b : str).
Context (hash : list fed → N).

Definition discriminant (b : ContentBlock) : nat :=
  match b with
  | BText _ => 0 | BImage _ => 1 | BToolUse _ _ _ => 2 | BToolResult _ _ _ => 3
  | BThinking _ _ => 4 | BRedactedThinking _ => 5 | BCompaction _ _ => 6
  end.
Definition hash_block (b : ContentBlock) : list fed :=
  FBlock (discriminant b) ::
  match b with
  | BText text | BThinking text _ => [FStr text]
  | BToolUse id name _ => [FPair id name]
  | BToolResult tool_use_id _ _ => [FStr tool_use_id]
  | BRedactedThinking data => [FStr data]
  | BImage _ => []
  | BCompaction content _ => [FStr content]
  end.
Definition fingerprint (m : Message) : N :=
  hash ([FRole (role m); FOption (tool_call_id m); FOption (name m)] ++
        if role m == Tool then []
        else match content m with
             | MText t => [FStr t]
             | MBlocks blocks => mjoin (hash_block <$> blocks)
             end).

(** [a.iter().zip(b).all(|(x, y)| fingerprint(x) == fingerprint(y))]. *)
Fixpoint zip_equal (a b : list Message) : bool :=
  match a, b with
  | x :: a, y :: b => (fingerprint x =? fingerprint y)%N && zip_equal a b
  | _, _ => true
  end.
Definition is_prefix (a b : list Message) : bool := (length a <=? length b) && zip_equal a b.
Definition same_path (a b : list Message) : bool := (length a =? length b) && is_prefix a b.

(** ** Turns *)

Definition is_user (m : Message) : bool := role m == User.
Fixpoint user_positions (i : nat) (messages : list Message) : list nat :=
  match messages with
  | [] => []
  | m :: r => if is_user m then i :: user_positions (i + 1) r else user_positions (i + 1) r
  end.
Definition turns (messages : list Message) : list (nat * nat) :=
  let starts := user_positions 0 messages in
  let starts := match starts with
                | _ :: r => 0 :: r
                | [] => if negb (length messages =? 0) then [0] else []
                end in
  zip starts (tail starts ++ [length messages]).

Definition LABEL_MAX_CHARS : nat := 72.

Fixpoint first_text_block (blocks : list ContentBlock) : option str :=
  match blocks with
  | [] => None
  | BText t :: _ | BCompaction t _ :: _ => Some t
  | _ :: r => first_text_block r
  end.
Definition as_text (c : MessageContent Value ImageSource) : option str :=
  match c with MText s => Some s | MBlocks blocks => first_text_block blocks end.

(** The ellipsis is U+2026. *)
Definition turn_label (turn : list Message) : str :=
  let text := m ← List.find is_user turn;
              t ← as_text (content m);
              List.find (λ l, negb (l == [])) (trim <$> lines t) in
  match text with
  | Some line => if LABEL_MAX_CHARS <? length line then take (LABEL_MAX_CHARS - 1) line ++ [8230]%N else line
  | None => lit "(no text)"
  end.

(** ** The trie *)

Record TreeTarget := mkTarget { path : nat; end_ : nat }.
Record TreeRow := mkRow {
  row_depth : nat; fork_start : bool; label : str; names : list str;
  on_active_path : bool; active_leaf : bool; target : TreeTarget }.
Record Node := mkNode { key : list N; row : TreeRow; children : list nat }.
Record Trie := mkTrie { nodes : list Node; roots : list nat }.
Definition empty_trie : Trie := mkTrie [] [].
Definition empty_row : TreeRow := mkRow 0 false [] [] false false (mkTarget 0 0).

Definition set_row (r : TreeRow) (n : Node) : Node := mkNode (key n) r (children n).
Definition add_child (c : nat) (n : Node) : Node := mkNode (key n) (row n) (children n ++ [c]).

Definition siblings (t : Trie) (parent : option nat) : option (list nat) :=
  match parent with Some p => children <$> nodes t !! p | None => Some (roots t) end.

(** [siblings.iter().find(|&n| self.nodes[n].key == key)]. *)
Fixpoint find_key (ns : list Node) (key_ : list N) (l : list nat) : option (option nat) :=
  match l with
  | [] => Some None
  | n :: r => node ← ns !! n; if key node == key_ then Some (Some n) else find_key ns key_ r
  end.

Definition push (t : Trie) (parent : option nat) (key_ : list N) (turn : list Message) (path_ end' : nat)
  : option (Trie * nat) :=
  let id := length (nodes t) in
  let node := mkNode key_ (mkRow 0 false (turn_label turn) [] false false (mkTarget path_ end')) [] in
  let ns := nodes t ++ [node] in
  match parent with
  | Some p => n ← ns !! p; Some (mkTrie (<[p := add_child id n]> ns) (roots t), id)
  | None => Some (mkTrie ns (roots t ++ [id]), id)
  end.

Definition mark_active (path_ : nat) (r : TreeRow) : TreeRow :=
  mkRow (row_depth r) (fork_start r) (label r) (names r) (on_active_path r || (path_ =? 0)) (active_leaf r) (target r).
Definition mark_leaf (path_ : nat) (name_ : option str) (r : TreeRow) : TreeRow :=
  mkRow (row_depth r) (fork_start r) (label r) (names r ++ match name_ with Some n => [n] | None => [] end)
    (on_active_path r) (active_leaf r || (path_ =? 0)) (target r).
Definition update_row (t : Trie) (id : nat) (f : TreeRow → TreeRow) : option Trie :=
  n ← nodes t !! id; Some (mkTrie (<[id := set_row (f (row n)) n]> (nodes t)) (roots t)).

(** One turn of [insert]'s loop: the trie and the node of the turn. *)
Definition insert_turn (t : Trie) (parent : option nat) (path_ : nat) (messages : list Message)
  (start end' : nat) : option (Trie * nat) :=
  let turn := take (end' - start) (drop start messages) in
  let key_ := fingerprint <$> turn in
  sibs ← siblings t parent;
  found ← find_key (nodes t) key_ sibs;
  '(t, id) ← match found with
             | Some id => Some (t, id)
             | None => push t parent key_ turn path_ end'
             end;
  t ← update_row t id (mark_active path_);
  Some (t, id).

Fixpoint insert_turns (t : Trie) (parent : option nat) (path_ : nat) (messages : list Message)
  (ts : list (nat * nat)) : option (Trie * option nat) :=
  match ts with
  | [] => Some (t, parent)
  | (start, end') :: r =>
      '(t, id) ← insert_turn t parent path_ messages start end';
      insert_turns t (Some id) path_ messages r
  end.
Definition insert (t : Trie) (path_ : nat) (messages : list Message) (name_ : option str) : option Trie :=
  '(t, parent) ← insert_turns t None path_ messages (turns messages);
  match parent with
  | Some leaf => update_row t leaf (mark_leaf path_ name_)
  | None => Some t
  end.

(** [rows]: the stack's top is the head of the list. *)
Definition place (depth : nat) (fork : bool) (r : TreeRow) : TreeRow :=
  mkRow depth fork (label r) (names r) (on_active_path r) (active_leaf r) (target r).
Definition children_frames (depth : nat) (n : Node) : list (nat * nat * bool) :=
  let fork := 1 <? length (children n) in
  (λ c, (c, depth + Nat.b2n fork, fork)) <$> children n.
Fixpoint rows_loop (fuel : nat) (ns : list Node) (stack : list (nat * nat * bool)) (out : list TreeRow)
  : option (list TreeRow) :=
  match stack with
  | [] => Some out
  | (id, depth, fork_start) :: stack =>
      match fuel with
      | O => None
      | S k =>
          n ← ns !! id;
          rows_loop k (<[id := set_row empty_row n]> ns) (children_frames depth n ++ stack)
            (out ++ [place depth fork_start (row n)])
      end
  end.
Definition rows (t : Trie) : option (list TreeRow) :=
  let fork := 1 <? length (roots t) in
  rows_loop (length (nodes t)) (nodes t) ((λ r, (r, Nat.b2n fork, fork)) <$> roots t) [].

(** [TreeRow::line]: the marks are U+25CF, U+2022, U+25CB and U+21B3. *)
Definition row_line (r : TreeRow) : str :=
  let marker := if active_leaf r then 9679%N else if on_active_path r then 8226%N else 9675%N in
  let indent := if fork_start r then mjoin (replicate (row_depth r - 1) (lit "  ")) ++ [8627%N] ++ lit " "
                else mjoin (replicate (row_depth r) (lit "  ")) in
  indent ++ [marker] ++ lit " " ++ label r ++
  if negb (length (names r) =? 0) then lit "  [" ++ RustStr.join (lit ", ") (names r) ++ lit "]" else [].

(** ** The session's branches *)

Record Branch := mkBranch { branch_name : option str; branch_messages : list Message }.
Record CheckpointState := mkCheckpoint { keep_until : nat; goal : str; started_at : Time }.
(** The fields of [Session] that branches touch. *)
Record Session := mkSession {
  messages : list Message; branches : list Branch; checkpoint : option CheckpointState }.

Inductive BranchError := Empty | Stale.
Definition branch_error_text (e : BranchError) : str :=
  match e with
  | Empty => lit "nothing to branch from yet"
  | Stale => lit "the conversation changed; open /tree again"
  end.

(** [name.trim()], or [branch N]. *)
Definition mark_branch (self : Session) (name_ : str) : (str + BranchError) * Session :=
  if length (messages self) =? 0 then (inr Empty, self)
  else
    let given := trim name_ in
    let name_ := if given == [] then lit "branch " ++ digits (N.of_nat (length (branches self) + 1)) else given in
    (inl name_, mkSession (messages self) (branches self ++ [mkBranch (Some name_) (messages self)]) (checkpoint self)).

Fixpoint insert_paths (t : Trie) (path_ : nat) (paths : list (list Message * option str)) : option Trie :=
  match paths with
  | [] => Some t
  | (ms, name_) :: r => t ← insert t path_ ms name_; insert_paths t (path_ + 1) r
  end.
Definition paths_of (self : Session) : list (list Message * option str) :=
  (messages self, None) :: ((λ b, (branch_messages b, branch_name b)) <$> branches self).
Definition tree_rows (self : Session) : option (list TreeRow) :=
  t ← insert_paths empty_trie 0 (paths_of self); rows t.

(** The path a target names, and its first [end] messages. *)
Definition source_of (self : Session) (t : TreeTarget) : option (list Message) :=
  match path t with
  | O => Some (messages self)
  | S n => branch_messages <$> branches self !! n
  end.
Definition leading (l : list Message) (n : nat) : option (list Message) :=
  if n <=? length l then Some (take n l) else None.

(** [target.path.checked_sub(1).filter(..)]: the unnamed branch reached at its leaf. *)
Definition moves (self : Session) (t : TreeTarget) : option nat :=
  match path t with
  | O => None
  | S i =>
      b ← branches self !! i;
      if (negb (bool_decide (is_Some (branch_name b)))) && (length (branch_messages b) =? end_ t)
      then Some i else None
  end.
(** [Vec::remove]. *)
Definition remove_at (i : nat) (l : list Branch) : list Branch := delete i l.

Definition switch_branch (self : Session) (t : TreeTarget) : (bool + BranchError) * Session :=
  match source_of self t with
  | None => (inr Stale, self)
  | Some source =>
      match leading source (end_ t) with
      | None => (inr Stale, self)
      | Some next =>
          if same_path next (messages self) then (inl false, self)
          else
            let bs := match moves self t with Some i => remove_at i (branches self) | None => branches self end in
            let old := messages self in
            let kept := is_prefix old next || existsb (λ b, is_prefix old (branch_messages b)) bs in
            let bs := if negb kept then bs ++ [mkBranch None old] else bs in
            (inl true, mkSession next bs None)
      end
  end.

(** ** Paths *)

Definition fps (l : list Message) : list N := fingerprint <$> l.
#[local] Arguments fps : simpl never.
#[local] Arguments fingerprint : simpl never.

Lemma zip_equal_take a b : zip_equal a b = true ↔ take (length b) (fps a) = take (length a) (fps b).
Proof.
  revert b; induction a as [|x a IH]; intros [|y b]; [done..|].
  change (fps (x :: a)) with (fingerprint x :: fps a). change (fps (y :: b)) with (fingerprint y :: fps b).
  cbn [zip_equal length take]. rewrite andb_true_iff, N.eqb_eq, IH. split; [by intros [-> ->]|by intros [= -> ->]].
Qed.
Lemma is_prefix_true a b : is_prefix a b = true ↔ fps a `prefix_of` fps b.
Proof.
  unfold is_prefix. rewrite andb_true_iff, Nat.leb_le, zip_equal_take. split.
  - intros [Hl E]. rewrite (take_ge (fps a)) in E by (unfold fps; by rewrite length_fmap). rewrite E.
    apply prefix_take.
  - intros [k E]. assert (length a ≤ length b) as Hl.
    { apply (f_equal length) in E. unfold fps in E. rewrite length_app, !length_fmap in E. lia. }
    split; [done|]. rewrite E. rewrite take_ge by (unfold fps; by rewrite length_fmap).
    rewrite take_app_le by (unfold fps; by rewrite length_fmap).
    rewrite take_ge; [done|]. unfold fps. by rewrite length_fmap.
Qed.
Lemma same_path_true a b : same_path a b = true ↔ fps a = fps b.
Proof.
  unfold same_path. rewrite andb_true_iff, Nat.eqb_eq, is_prefix_true. split.
  - intros [Hl [k E]]. destruct k; [by rewrite app_nil_r in E|].
    apply (f_equal length) in E. unfold fps in E. rewrite length_app, !length_fmap in E. cbn in E. lia.
  - intros E. split; [|by rewrite E]. apply (f_equal length) in E. unfold fps in E. by rewrite !length_fmap in E.
Qed.

Definition all_paths (s : Session) : list (list Message) := messages s :: (branch_messages <$> branches s).

Lemma leading_Some l n x : leading l n = Some x ↔ n ≤ length l ∧ x = take n l.
Proof. unfold leading. destruct (Nat.leb_spec n (length l)); naive_solver lia. Qed.

Lemma moves_Some s t i : moves s t = Some i →
  ∃ b, branches s !! i = Some b ∧ branch_name b = None ∧ source_of s t = Some (branch_messages b) ∧
       length (branch_messages b) = end_ t.
Proof.
  unfold moves, source_of. destruct (path t) as [|j]; [done|].
  destruct (branches s !! j) as [b|] eqn:Eb; cbn [mbind option_bind]; [|done].
  destruct (_ && _) eqn:E; [|done]. intros [= <-]. boolp. exists b. cbn. split_and!; try done.
  destruct (branch_name b); [|done]. by exfalso; eauto.
Qed.

Lemma remove_at_lookup i (l : list Branch) b : b ∈ l → b ∈ remove_at i l ∨ l !! i = Some b.
Proof.
  unfold remove_at. intros [j Hj]%list_elem_of_lookup. destruct (decide (j < i)) as [Hl|Hl].
  - left. apply list_elem_of_lookup. exists j. by rewrite list_lookup_delete_lt.
  - destruct (decide (j = i)) as [->|Hne]; [by right|]. left. apply list_elem_of_lookup. exists (j - 1).
    rewrite list_lookup_delete_ge by lia. by replace (S (j - 1)) with j by lia.
Qed.

(** Moving about in the tree loses no path: after a switch the active
    path is the named part of the target's path, every path there was, the old
    active one and all branches, is a leading part of the new active path or of a
    branch (by the turns' identities), branches with a name are still there, and a
    checkpoint into the old path is gone; a switch that is refused or already there
    changes nothing. *)
Theorem switch_branch_keeps_paths (s : Session) (t : TreeTarget) :
  let '(res, s') := switch_branch s t in
  match res with
  | inl true =>
      (∃ source, source_of s t = Some source ∧ leading source (end_ t) = Some (messages s')) ∧
      (∀ p, p ∈ all_paths s → ∃ p', p' ∈ all_paths s' ∧ is_prefix p p' = true) ∧
      (∀ b, b ∈ branches s → branch_name b ≠ None → b ∈ branches s') ∧
      checkpoint s' = None
  | _ => s' = s
  end.
Proof.
  unfold switch_branch. destruct (source_of s t) as [source|] eqn:Esrc; [|done].
  destruct (leading source (end_ t)) as [next|] eqn:Enext; [|done].
  destruct (same_path next (messages s)); [done|]. set (bs := match moves s t with Some _ => _ | None => _ end).
  assert (∀ p, is_prefix p p = true) as Hrefl by (intros p; by apply is_prefix_true).
  set (kept := _ || existsb _ bs). set (bs' := if negb kept then _ else bs).
  assert (∀ b, b ∈ bs → b ∈ bs') as Hsub.
  { intros b Hb. unfold bs'. destruct (negb kept); [|done]. apply elem_of_app. by left. }
  assert (∀ b, b ∈ branches s → b ∈ bs ∨ (branch_name b = None ∧ branch_messages b = next)) as Hbs.
  { intros b Hb. unfold bs. destruct (moves s t) as [i|] eqn:Em; [|by left].
    apply moves_Some in Em as (b0 & Hi & Hn & Hs & Hlen). destruct (remove_at_lookup i _ b Hb) as [|E]; [by left|].
    right. rewrite Hi in E. injection E as <-. split; [done|]. rewrite Hs in Esrc. injection Esrc as <-.
    apply leading_Some in Enext as [_ ->]. by rewrite take_ge by lia. }
  split_and!; [by exists source| | |done].
  - unfold all_paths. cbn [messages branches]. intros p [->|(b & -> & Hb)%list_elem_of_fmap]%elem_of_cons.
    + destruct kept eqn:Ek; cbn [negb] in bs'.
      * unfold kept in Ek. apply orb_true_iff in Ek as [E|(b & Hb & E)%existsb_true_iff].
        -- exists next. split; [left|done].
        -- exists (branch_messages b). split; [|done]. right. by apply list_elem_of_fmap_2, Hsub.
      * exists (messages s). split; [|done]. right. apply list_elem_of_fmap. exists (mkBranch None (messages s)).
        split; [done|]. unfold bs'. apply elem_of_app. right. left.
    + destruct (Hbs b Hb) as [Hb'|[_ ->]].
      * exists (branch_messages b). split; [|done]. right. by apply list_elem_of_fmap_2, Hsub.
      * exists next. split; [left|done].
  - intros b Hb Hn. destruct (Hbs b Hb) as [Hb'|[Hnone _]]; [by apply Hsub|done].
Qed.

(** ** Turns cover the path *)

Inductive contiguous : nat → list (nat * nat) → nat → Prop :=
| contiguous_nil a : contiguous a [] a
| contiguous_cons a e ts b : a ≤ e → contiguous e ts b → contiguous a ((a, e) :: ts) b.

Lemma user_positions_between i l : Forall (λ p, i ≤ p ≤ i + length l) (user_positions i l) ∧
  StronglySorted le (user_positions i l).
Proof.
  revert i; induction l as [|m l IH]; intros i; cbn [user_positions length]; [by repeat constructor|].
  destruct (IH (i + 1)) as [Hf Hs].
  assert (Forall (λ p, i ≤ p ≤ i + S (length l)) (user_positions (i + 1) l)) as Hf'.
  { eapply Forall_impl; [exact Hf|]. cbn. lia. }
  destruct (is_user m); [|done]. split; [constructor; [lia|done]|]. constructor; [done|].
  eapply Forall_impl; [exact Hf|]. cbn. lia.
Qed.

Lemma zip_contiguous a starts n :
  StronglySorted le starts → Forall (λ p, a ≤ p ≤ n) starts → a ≤ n →
  contiguous a (zip (a :: starts) (starts ++ [n])) n.
Proof.
  revert a; induction starts as [|s r IH]; intros a Hs Hf Ha; cbn.
  - constructor; [done|constructor].
  - apply Forall_cons in Hf as [Hs1 Hf]. inversion Hs as [|? ? Hs' Hle]; subst. constructor; [lia|].
    apply IH; [done| |lia]. apply Forall_forall. intros p Hp. rewrite Forall_forall in Hf, Hle.
    specialize (Hf _ Hp). specialize (Hle _ Hp). lia.
Qed.

Lemma turns_contiguous l : contiguous 0 (turns l) (length l).
Proof.
  unfold turns. destruct (user_positions_between 0 l) as [Hf Hs].
  destruct (user_positions 0 l) as [|p r] eqn:E.
  - destruct l as [|m l]; cbn; [constructor|]. constructor; [lia|constructor].
  - cbn [tail]. inversion Hs as [|? ? Hs' Hle]; subst. apply Forall_cons in Hf as [_ Hf].
    apply zip_contiguous; [done| |lia]. eapply Forall_impl; [exact Hf|]. cbn. lia.
Qed.

(** The identity of each turn of a path, and where the [n]-th one ends. *)
Definition turn_key (l : list Message) (t : nat * nat) : list N := fps (take (t.2 - t.1) (drop t.1 l)).
Definition path_keys (l : list Message) : list (list N) := turn_key l <$> turns l.
Definition turn_end (l : list Message) (n : nat) : nat := default 0 (snd <$> turns l !! (n - 1)).

Lemma fps_take n l : fps (take n l) = take n (fps l).
Proof. apply fmap_take. Qed.
Lemma fps_drop n l : fps (drop n l) = drop n (fps l).
Proof. apply fmap_drop. Qed.

Lemma contiguous_take a ts b n t :
  contiguous a ts b → ts !! n = Some t → contiguous a (take (S n) ts) t.2 ∧ t.2 ≤ b.
Proof.
  intros Hc. revert n; induction Hc as [a|a e ts b Hle Hc IH]; intros n Ht; [done|]. cbn [take].
  destruct n as [|n].
  - injection Ht as <-. split; [by repeat constructor|]. cbn. clear -Hc. induction Hc; lia.
  - destruct (IH n Ht) as [H1 H2]. split; [by constructor|done].
Qed.

Lemma contiguous_keys l ts a b :
  contiguous a ts b → b ≤ length l → a ≤ b ∧ drop a (take b (fps l)) = mjoin (turn_key l <$> ts).
Proof.
  intros Hc. induction Hc as [a|a e ts b Hle Hc IH]; intros Hb.
  - split; [done|]. apply drop_ge. rewrite length_take. lia.
  - destruct (IH Hb) as [Heb E]. split; [lia|]. cbn [fmap list_fmap].
    change (mjoin (?x :: ?r)) with (x ++ mjoin r). rewrite <- E.
    assert (turn_key l (a, e) = take (e - a) (drop a (take b (fps l)))) as ->.
    { unfold turn_key. cbn. rewrite fps_take, fps_drop, !take_drop_commute, take_take. do 2 f_equal. lia. }
    rewrite <- (take_drop (e - a) (drop a (take b (fps l)))) at 1. f_equal. rewrite drop_drop. f_equal. lia.
Qed.

Lemma fps_path_keys l : fps l = mjoin (path_keys l).
Proof.
  destruct (contiguous_keys l (turns l) 0 (length l) (turns_contiguous l) ltac:(done)) as [_ E].
  rewrite drop_0, take_ge in E; [done|]. unfold fps. by rewrite length_fmap.
Qed.

(** The first [n] turns: where they end and what they are. *)
Lemma turn_end_spec l n :
  0 < n ≤ length (turns l) →
  turn_end l n ≤ length l ∧ fps (take (turn_end l n) l) = mjoin (take n (path_keys l)).
Proof.
  intros Hn. destruct (lookup_lt_is_Some_2 (turns l) (n - 1) ltac:(lia)) as [t Ht].
  destruct (contiguous_take _ _ _ _ _ (turns_contiguous l) Ht) as [Hc Hle].
  destruct (contiguous_keys l _ _ _ Hc Hle) as [_ E]. unfold turn_end. rewrite Ht. split; [exact Hle|].
  rewrite drop_0 in E. replace (S (n - 1)) with n in E by lia. unfold path_keys.
  change (default 0 (snd <$> Some t)) with t.2. by rewrite fps_take, E, fmap_take.
Qed.

(** ** What the trie holds

    [kps] gives for each node of the arena the identities of the turns from the
    root to it; [f] gives the row of such a path. *)

Notation kpath := (list (list N)).
Definition rows_of : Type := kpath → option TreeRow.

Record models (t : Trie) (kps : list kpath) (f : rows_of) : Prop := {
  m_len : length kps = length (nodes t);
  m_nodup : NoDup kps;
  m_rows i kp n : kps !! i = Some kp → nodes t !! i = Some n → f kp = Some (row n);
  m_dom kp : f kp ≠ None → kp ∈ kps;
  m_key i kp n : kps !! i = Some kp → nodes t !! i = Some n → ∃ up, kp = up ++ [key n];
  m_closed up k : up ++ [k] ∈ kps → up = [] ∨ up ∈ kps;
  m_roots : NoDup (roots t) ∧ ∀ c, c ∈ roots t ↔ ∃ k, kps !! c = Some [k];
  m_children i kp n : kps !! i = Some kp → nodes t !! i = Some n →
    NoDup (children n) ∧ ∀ c, c ∈ children n ↔ ∃ k, kps !! c = Some (kp ++ [k]) }.

Definition upd (f : rows_of) (kp : kpath) (v : option TreeRow) : rows_of :=
  λ x, if decide (x = kp) then v else f x.

Lemma models_ext t kps f f' : (∀ x, f x = f' x) → models t kps f → models t kps f'.
Proof.
  intros E []. split; try done.
  - intros i kp n H1 H2. rewrite <- E. eauto.
  - intros kp. rewrite <- E. eauto.
Qed.

Lemma models_node t kps f i kp : models t kps f → kps !! i = Some kp → ∃ n, nodes t !! i = Some n.
Proof.
  intros M H. apply lookup_lt_Some in H. rewrite (m_len _ _ _ M) in H. by apply lookup_lt_is_Some_2.
Qed.
Lemma models_inj t kps f i j kp : models t kps f → kps !! i = Some kp → kps !! j = Some kp → i = j.
Proof. intros M. apply NoDup_lookup, (m_nodup _ _ _ M). Qed.

Lemma update_row_models t kps f i kp g :
  models t kps f → kps !! i = Some kp →
  ∃ t', update_row t i g = Some t' ∧ models t' kps (upd f kp (g <$> f kp)).
Proof.
  intros M Hi. destruct (models_node _ _ _ _ _ M Hi) as [n Hn]. unfold update_row. rewrite Hn. cbn [mbind option_bind].
  eexists; split; [done|].
  assert (∀ j m, <[i := set_row (g (row n)) n]> (nodes t) !! j = Some m →
    ∃ m0, nodes t !! j = Some m0 ∧ key m = key m0 ∧ children m = children m0 ∧
          row m = if decide (j = i) then g (row m0) else row m0) as Hlook.
  { intros j m Hj. destruct (decide (j = i)) as [->|Hne].
    - rewrite list_lookup_insert_eq in Hj by (by apply lookup_lt_Some in Hn). injection Hj as <-. by exists n.
    - rewrite list_lookup_insert_ne in Hj by done. by exists m. }
  split; cbn [nodes roots].
  - rewrite length_insert. apply M.
  - apply M.
  - intros j kp' m Hj Hm. apply Hlook in Hm as (m0 & Hm0 & _ & _ & ->). unfold upd.
    destruct (decide (kp' = kp)) as [->|Hne].
    + rewrite (models_inj _ _ _ _ _ _ M Hj Hi) in *. rewrite decide_True by done.
      by rewrite (m_rows _ _ _ M i kp m0).
    + rewrite decide_False by (intros ->; congruence). eapply M; eauto.
  - intros x. unfold upd. destruct (decide (x = kp)) as [->|]; [intros _; by eapply list_elem_of_lookup_2|apply M].
  - intros j kp' m Hj Hm. apply Hlook in Hm as (m0 & Hm0 & -> & _). eapply M; eauto.
  - apply M.
  - apply M.
  - intros j kp' m Hj Hm. apply Hlook in Hm as (m0 & Hm0 & _ & -> & _). eapply M; eauto.
Qed.

Definition parent_path (kps : list kpath) (parent : option nat) (up : kpath) : Prop :=
  match parent with None => up = [] | Some p => kps !! p = Some up end.

Lemma siblings_models t kps f parent up :
  models t kps f → parent_path kps parent up →
  ∃ l, siblings t parent = Some l ∧ ∀ c, c ∈ l ↔ ∃ k, kps !! c = Some (up ++ [k]).
Proof.
  intros M. destruct parent as [p|]; cbn.
  - intros Hp. destruct (models_node _ _ _ _ _ M Hp) as [n Hn]. rewrite Hn. cbn.
    eexists; split; [done|]. by apply (m_children _ _ _ M p up n).
  - intros ->. eexists; split; [done|]. apply M.
Qed.

Lemma find_key_spec ns k l :
  (∀ c, c ∈ l → ∃ n, ns !! c = Some n) →
  ∃ r, find_key ns k l = Some r ∧
    match r with
    | Some c => c ∈ l ∧ ∃ n, ns !! c = Some n ∧ key n = k
    | None => ∀ c n, c ∈ l → ns !! c = Some n → key n ≠ k
    end.
Proof.
  induction l as [|c l IH]; intros H; cbn [find_key].
  - exists None. split; [done|]. set_solver.
  - destruct (H c ltac:(left)) as [n Hn]. rewrite Hn. cbn [mbind option_bind].
    case_bool_decide as E.
    + exists (Some c). split; [done|]. split; [left|eauto].
    + destruct IH as (r & -> & Hr); [intros; apply H; by right|]. exists r. split; [done|].
      destruct r as [c'|]; [destruct Hr; split; [by right|done]|].
      intros c' n' [->|Hc]%elem_of_cons Hn'; [congruence|eauto].
Qed.

Definition fresh_row (turn : list Message) (p e : nat) : TreeRow :=
  mkRow 0 false (turn_label turn) [] false false (mkTarget p e).

Lemma lookup_snoc_Some {A} (l : list A) (x : A) i y :
  (l ++ [x]) !! i = Some y ↔ l !! i = Some y ∨ (i = length l ∧ y = x).
Proof.
  rewrite lookup_app_Some, list_lookup_singleton_Some. split.
  - intros [|(? & ? & ->)]; [by left|]. right. split; [lia|done].
  - intros [|[-> ->]]; [by left|]. right. split_and!; [lia|lia|done].
Qed.

Lemma push_nodes t parent k turn p e up kps :
  length kps = length (nodes t) → parent_path kps parent up →
  ∃ t', push t parent k turn p e = Some (t', length kps) ∧ length (nodes t') = S (length kps) ∧
    roots t' = (match parent with None => roots t ++ [length kps] | Some _ => roots t end) ∧
    nodes t' !! length kps = Some (mkNode k (fresh_row turn p e) []) ∧
    ∀ j m, j < length kps → nodes t' !! j = Some m →
      ∃ m0, nodes t !! j = Some m0 ∧ key m = key m0 ∧ row m = row m0 ∧
            children m = if decide (parent = Some j) then children m0 ++ [length kps] else children m0.
Proof.
  intros Hlen Hp. unfold push. rewrite <- Hlen. set (node := mkNode _ _ _).
  assert (∀ j, j < length kps → (nodes t ++ [node]) !! j = nodes t !! j) as Hold.
  { intros j Hj. apply lookup_app_l. lia. }
  assert ((nodes t ++ [node]) !! length kps = Some node) as Hnew by (apply lookup_snoc_Some; right; by rewrite Hlen).
  destruct parent as [q|].
  - cbn in Hp. assert (q < length kps) as Hq by by eapply lookup_lt_Some.
    destruct (lookup_lt_is_Some_2 (nodes t) q ltac:(lia)) as [n Hn].
    rewrite Hold, Hn by done. cbn [mbind option_bind]. eexists; split; [done|].
    cbn [nodes roots]. rewrite length_insert, length_app, <- Hlen. cbn. split_and!; [lia|done| |].
    + by rewrite list_lookup_insert_ne by lia.
    + intros j m Hj. destruct (decide (j = q)) as [->|Hne].
      * rewrite list_lookup_insert_eq by (rewrite length_app; lia). intros [= <-]. exists n.
        rewrite decide_True by done. done.
      * rewrite list_lookup_insert_ne, Hold by done. intros Hm. exists m. rewrite decide_False by congruence. done.
  - eexists; split; [done|]. cbn [nodes roots]. rewrite length_app, <- Hlen. cbn. split_and!; [lia|done|done|].
    intros j m Hj. rewrite Hold by done. intros Hm. by exists m.
Qed.

Lemma push_models t kps f parent up k turn p e :
  models t kps f → parent_path kps parent up → up ++ [k] ∉ kps →
  ∃ t', push t parent k turn p e = Some (t', length kps) ∧
        models t' (kps ++ [up ++ [k]]) (upd f (up ++ [k]) (Some (fresh_row turn p e))).
Proof.
  intros M Hp Hnew.
  destruct (push_nodes t parent k turn p e up kps (m_len _ _ _ M) Hp) as (t' & -> & Hlen & Hroots & Hid & Hold).
  eexists; split; [done|].
  assert (up = [] ∨ up ∈ kps) as Hup.
  { destruct parent as [q|]; cbn in Hp; [right; by eapply list_elem_of_lookup_2|by left]. }
  assert (∀ c, kps !! c ≠ None → c < length kps) as Hlt.
  { intros c Hc. by apply lookup_lt_is_Some, not_eq_None_Some. }
  assert (∀ c kp, (∃ k', (kps ++ [up ++ [k]]) !! c = Some (kp ++ [k'])) ↔
                  (∃ k', kps !! c = Some (kp ++ [k'])) ∨ (c = length kps ∧ kp = up)) as Hext.
  { intros c kp. setoid_rewrite lookup_snoc_Some. split.
    - intros (k' & [|[-> E]]); [left; eauto|]. apply app_inj_2 in E as [-> _]; [by right|done].
    - intros [[k' ?]|[-> ->]]; [eauto|]. exists k. by right. }
  assert (∀ l, NoDup l → (∀ c, c ∈ l → kps !! c ≠ None) → NoDup (l ++ [length kps])) as Hnd.
  { intros l Hl Hc. apply NoDup_app. split_and!; [done| |apply NoDup_singleton].
    intros x Hx%Hc%Hlt. rewrite list_elem_of_singleton. lia. }
  split.
  - rewrite length_app, Hlen. cbn. lia.
  - apply NoDup_app. split_and!; [apply M| |apply NoDup_singleton]. intros x Hx. by intros ->%list_elem_of_singleton.
  - intros i kp n. rewrite lookup_snoc_Some. unfold upd. intros [Hi|[-> ->]] Hn.
    + rewrite decide_False by (intros ->; apply Hnew; by eapply list_elem_of_lookup_2).
      destruct (Hold i n) as (m0 & Hm0 & _ & -> & _); [by eapply lookup_lt_Some|done|]. by eapply M.
    + rewrite decide_True by done. pose proof (eq_trans (eq_sym Hid) Hn) as E. by injection E as <-.
  - intros x. unfold upd. rewrite elem_of_app, list_elem_of_singleton.
    destruct (decide (x = up ++ [k])); [by right|]. intros H. left. by apply M.
  - intros i kp n. rewrite lookup_snoc_Some. intros [Hi|[-> ->]] Hn.
    + destruct (Hold i n) as (m0 & Hm0 & -> & _); [by eapply lookup_lt_Some|done|]. by eapply M.
    + pose proof (eq_trans (eq_sym Hid) Hn) as E. injection E as <-. by exists up.
  - intros u k'. rewrite !elem_of_app, !list_elem_of_singleton. intros [H|E].
    + apply (m_closed _ _ _ M) in H. tauto.
    + apply app_inj_2 in E as [-> _]; [|done]. tauto.
  - destruct (m_roots _ _ _ M) as [Hr1 Hr2]. rewrite Hroots. split.
    + destruct parent as [q|]; [done|]. apply Hnd; [done|]. intros c [k' E]%Hr2 E0. by pose proof (eq_trans (eq_sym E) E0).
    + intros c. rewrite (Hext c []). destruct parent as [q|]; cbn in Hp.
      * rewrite Hr2. split; [by left|]. intros [|[-> <-]]; [done|].
        destruct (models_node _ _ _ _ _ M Hp) as [n Hn]. destruct (m_key _ _ _ M _ _ _ Hp Hn) as [u E].
        by destruct u.
      * subst up. rewrite elem_of_app, list_elem_of_singleton, Hr2. tauto.
  - intros i kp n. rewrite lookup_snoc_Some. intros [Hi|[-> ->]] Hn.
    + destruct (Hold i n) as (m0 & Hm0 & _ & _ & ->); [by eapply lookup_lt_Some|done|].
      destruct (m_children _ _ _ M _ _ _ Hi Hm0) as [Hc1 Hc2].
      case_decide as Ep.
      * subst parent. cbn in Hp. pose proof (eq_trans (eq_sym Hi) Hp) as E. injection E as ->. split.
        -- apply Hnd; [done|]. intros c [k' E]%Hc2 E0. by pose proof (eq_trans (eq_sym E) E0).
        -- intros c. rewrite Hext, elem_of_app, list_elem_of_singleton, Hc2. tauto.
      * split; [done|]. intros c. rewrite Hext, Hc2. split; [by left|]. intros [|[_ ->]]; [done|]. exfalso.
        destruct parent as [q|]; cbn in Hp.
        -- apply Ep. f_equal. by eapply models_inj.
        -- subst up. destruct (m_key _ _ _ M _ _ _ Hi Hm0) as [u E]. by destruct u.
    + pose proof (eq_trans (eq_sym Hid) Hn) as E. injection E as <-. cbn. split; [constructor|]. intros c. rewrite Hext. split; [by intros ?%elem_of_nil|].
      intros [[k' H]|[_ E]].
      * exfalso. apply list_elem_of_lookup_2 in H. apply (m_closed _ _ _ M) in H as [E|H]; [by destruct up|done].
      * exfalso. apply (f_equal length) in E. rewrite length_app in E. cbn in E. lia.
Qed.

(** ** Inserting a path *)

Definition turn_slice (l : list Message) (t : nat * nat) : list Message := take (t.2 - t.1) (drop t.1 l).
(** Visiting the turn [t] at the path [kp]. *)
Definition visit (p : nat) (l : list Message) (f : rows_of) (kp : kpath) (t : nat * nat) : rows_of :=
  upd f kp (Some (mark_active p (default (fresh_row (turn_slice l t) p t.2) (f kp)))).
Fixpoint visits (p : nat) (l : list Message) (f : rows_of) (up : kpath) (ts : list (nat * nat)) : rows_of :=
  match ts with
  | [] => f
  | t :: r => visits p l (visit p l f (up ++ [turn_key l t]) t) (up ++ [turn_key l t]) r
  end.

Lemma upd_twice f kp a b x : upd (upd f kp a) kp b x = upd f kp b x.
Proof. unfold upd. by case_decide. Qed.

Lemma insert_turn_models t kps f parent up p l s e :
  models t kps f → parent_path kps parent up →
  ∃ t' id kps', insert_turn t parent p l s e = Some (t', id) ∧
    kps' !! id = Some (up ++ [turn_key l (s, e)]) ∧
    models t' kps' (visit p l f (up ++ [turn_key l (s, e)]) (s, e)).
Proof.
  intros M Hp. unfold insert_turn. change (fingerprint <$> take (e - s) (drop s l)) with (turn_key l (s, e)).
  set (k := turn_key l (s, e)). set (kp := up ++ [k]).
  destruct (siblings_models _ _ _ _ _ M Hp) as (sibs & -> & Hsibs). cbn [mbind option_bind].
  assert (∀ c, c ∈ sibs → ∃ n, nodes t !! c = Some n) as Hnodes.
  { intros c [k' Hc]%Hsibs. by eapply models_node. }
  destruct (find_key_spec (nodes t) k sibs Hnodes) as (r & -> & Hr). cbn [mbind option_bind].
  destruct r as [c|].
  - destruct Hr as (Hc & n & Hn & Hk). apply Hsibs in Hc as [k' Hc].
    assert (k' = k) as ->.
    { destruct (m_key _ _ _ M _ _ _ Hc Hn) as [u E]. apply app_inj_2 in E as [_ E]; [|done]. injection E as ->. done. }
    destruct (update_row_models t kps f c kp (mark_active p) M Hc) as (t' & Eu & M').
    cbn [mbind option_bind]. rewrite Eu. cbn. exists t', c, kps. split_and!; [done|done|].
    assert (f kp = Some (row n)) as Ef by by apply (m_rows _ _ _ M c).
    unfold visit. rewrite Ef in M' |- *. exact M'.
  - assert (kp ∉ kps) as Hnew.
    { intros [c Hc]%list_elem_of_lookup. destruct (models_node _ _ _ _ _ M Hc) as [n Hn].
      apply (Hr c n); [apply Hsibs; eauto|done|].
      destruct (m_key _ _ _ M _ _ _ Hc Hn) as [u E]. apply app_inj_2 in E as [_ E]; [|done]. by injection E. }
    destruct (push_models t kps f parent up k (turn_slice l (s, e)) p e M Hp Hnew) as (t1 & E1 & M1).
    unfold turn_slice in E1. cbn [fst snd] in E1. rewrite E1. cbn [mbind option_bind].
    assert ((kps ++ [kp]) !! length kps = Some kp) as Hid by (apply lookup_snoc_Some; by right).
    destruct (update_row_models t1 _ _ _ kp (mark_active p) M1 Hid) as (t' & Eu & M').
    rewrite Eu. cbn. exists t', (length kps), (kps ++ [kp]). split_and!; [done|exact Hid|].
    eapply models_ext; [|exact M']. intros x. rewrite upd_twice. unfold visit, upd at 2. rewrite decide_True by done.
    assert (f kp = None) as ->; [|done]. destruct (f kp) eqn:Ef; [|done]. exfalso. apply Hnew, (m_dom _ _ _ M). by rewrite Ef.
Qed.

Lemma insert_turns_models ts t kps f parent up p l :
  models t kps f → parent_path kps parent up →
  ∃ t' parent' kps', insert_turns t parent p l ts = Some (t', parent') ∧
    parent_path kps' parent' (up ++ (turn_key l <$> ts)) ∧ models t' kps' (visits p l f up ts).
Proof.
  revert t kps f parent up; induction ts as [|[s e] ts IH]; intros t kps f parent up M Hp; cbn [insert_turns visits].
  - exists t, parent, kps. by rewrite app_nil_r.
  - destruct (insert_turn_models t kps f parent up p l s e M Hp) as (t1 & id & kps1 & -> & Hid & M1).
    cbn [mbind option_bind]. destruct (IH t1 kps1 _ (Some id) (up ++ [turn_key l (s, e)]) M1 Hid) as (t' & q & kps' & -> & Hq & M').
    exists t', q, kps'. split_and!; [done| |done]. cbn [fmap list_fmap]. by rewrite <- app_assoc in Hq.
Qed.

Definition insert_rows (f : rows_of) (p : nat) (l : list Message) (name_ : option str) : rows_of :=
  let g := visits p l f [] (turns l) in
  match path_keys l with
  | [] => g
  | _ => upd g (path_keys l) (mark_leaf p name_ <$> g (path_keys l))
  end.

Lemma insert_models t kps f p l name_ :
  models t kps f → ∃ t' kps', insert t p l name_ = Some t' ∧ models t' kps' (insert_rows f p l name_).
Proof.
  intros M. destruct (insert_turns_models (turns l) t kps f None [] p l M eq_refl) as (t1 & q & kps1 & E & Hq & M1).
  unfold insert, insert_rows. rewrite E. cbn [mbind option_bind]. change ([] ++ (turn_key l <$> turns l)) with (path_keys l) in Hq.
  destruct q as [leaf|]; cbn in Hq.
  - destruct (update_row_models t1 kps1 _ leaf (path_keys l) (mark_leaf p name_) M1 Hq) as (t' & -> & M').
    exists t', kps1. split; [done|]. destruct (path_keys l) eqn:Ek; [|done]. exfalso.
    destruct (models_node _ _ _ _ _ M1 Hq) as [n Hn]. destruct (m_key _ _ _ M1 _ _ _ Hq Hn) as [u Eu]. by destruct u.
  - exists t1, kps1. split; [done|]. by rewrite Hq.
Qed.

Lemma empty_models : models empty_trie [] (λ _, None).
Proof.
  split; [done|apply NoDup_nil_2|done|done|done| | |done].
  - intros up k H. by apply elem_of_nil in H.
  - split; [apply NoDup_nil_2|]. intros c. cbn. split; [by intros ?%elem_of_nil|by intros [? ?]].
Qed.

(** ** What each row should say *)

Notation paths := (list (list Message * option str)).
(** The first path that goes through [kp], with its number. *)
Fixpoint first_through (kp : kpath) (i : nat) (ps : paths) : option (nat * list Message) :=
  match ps with
  | [] => None
  | (l, _) :: r => if decide (kp `prefix_of` path_keys l) then Some (i, l) else first_through kp (i + 1) r
  end.
Definition names_at (kp : kpath) (ps : paths) : list str :=
  omap (λ q, if decide (path_keys q.1 = kp) then q.2 else None) ps.
Definition on_active (kp : kpath) (ps : paths) : bool :=
  match ps with (l, _) :: _ => bool_decide (kp `prefix_of` path_keys l) | [] => false end.
Definition is_active_leaf (kp : kpath) (ps : paths) : bool :=
  match ps with (l, _) :: _ => bool_decide (kp = path_keys l) | [] => false end.
Definition turn_of (l : list Message) (n : nat) : list Message :=
  match turns l !! (n - 1) with Some t => turn_slice l t | None => [] end.
(** The row of the turn that ends [kp]: the label and the target are those of the
    first path through it. *)
Definition row_at (ps : paths) (kp : kpath) (il : nat * list Message) : TreeRow :=
  mkRow 0 false (turn_label (turn_of il.2 (length kp))) (names_at kp ps) (on_active kp ps) (is_active_leaf kp ps)
    (mkTarget il.1 (turn_end il.2 (length kp))).
Definition expected (ps : paths) : rows_of :=
  λ kp, if decide (kp = []) then None else row_at ps kp <$> first_through kp 0 ps.

Lemma expected_ne ps kp : kp ≠ [] → expected ps kp = row_at ps kp <$> first_through kp 0 ps.
Proof. intros H. unfold expected. by rewrite decide_False. Qed.

Lemma first_through_snoc kp i ps l n :
  first_through kp i (ps ++ [(l, n)]) =
  match first_through kp i ps with
  | Some r => Some r
  | None => if decide (kp `prefix_of` path_keys l) then Some (i + length ps, l) else None
  end.
Proof.
  revert i; induction ps as [|[l0 n0] ps IH]; intros i; cbn [app first_through length].
  - by rewrite Nat.add_0_r.
  - destruct (decide (kp `prefix_of` path_keys l0)); [done|]. rewrite IH. by replace (i + 1 + length ps) with (i + S (length ps)) by lia.
Qed.
Lemma names_at_cons kp l n ps :
  names_at kp ((l, n) :: ps) =
  (if decide (path_keys l = kp) then match n with Some x => [x] | None => [] end else []) ++ names_at kp ps.
Proof.
  unfold names_at. cbn -[path_keys]. destruct (decide (path_keys l = kp)); [by destruct n|done].
Qed.
Lemma first_through_None kp i ps :
  first_through kp i ps = None →
  names_at kp ps = [] ∧ on_active kp ps = false ∧ is_active_leaf kp ps = false.
Proof.
  revert i; induction ps as [|[l n] ps IH]; intros i; cbn [first_through]; [by intros _|].
  case_decide as Hp; [done|]. intros H. destruct (IH _ H) as (E & _).
  assert (path_keys l ≠ kp) as Hne by (intros E'; apply Hp; by rewrite E'). rewrite names_at_cons, decide_False, E by done.
  unfold on_active, is_active_leaf. rewrite !bool_decide_false by congruence. done.
Qed.
Lemma first_through_Some kp i ps j l :
  first_through kp i ps = Some (j, l) →
  kp `prefix_of` path_keys l ∧ i ≤ j ∧ ∃ n, ps !! (j - i) = Some (l, n).
Proof.
  revert i; induction ps as [|[l0 n0] ps IH]; intros i; cbn [first_through]; [done|].
  case_decide as Hp.
  - intros [= <- <-]. split_and!; [done|lia|]. rewrite Nat.sub_diag. by exists n0.
  - intros (H1 & H2 & n & H3)%IH. split_and!; [done|lia|]. exists n.
    by replace (j - i) with (S (j - (i + 1))) by lia.
Qed.
Lemma names_at_snoc kp ps l n :
  names_at kp (ps ++ [(l, n)]) =
  names_at kp ps ++ (if decide (path_keys l = kp) then match n with Some x => [x] | None => [] end else []).
Proof.
  unfold names_at. rewrite omap_app. f_equal. cbn -[path_keys].
  destruct (decide (path_keys l = kp)); [by destruct n|done].
Qed.

(** ** Visiting all turns of a path *)

Lemma visits_other p l ts f up x :
  (∀ j, j < length ts → x ≠ up ++ take (S j) (turn_key l <$> ts)) → visits p l f up ts x = f x.
Proof.
  revert f up; induction ts as [|t ts IH]; intros f up H; cbn [visits]; [done|].
  rewrite IH.
  - unfold visit, upd. rewrite decide_False; [done|]. apply (H 0). cbn. lia.
  - intros j Hj. rewrite <- app_assoc. apply (H (S j)). cbn. lia.
Qed.
Lemma visits_turn p l ts f up j t :
  ts !! j = Some t →
  let x := up ++ take (S j) (turn_key l <$> ts) in
  visits p l f up ts x = Some (mark_active p (default (fresh_row (turn_slice l t) p t.2) (f x))).
Proof.
  cbv zeta. revert f up j; induction ts as [|t0 ts IH]; intros f up j Hj; [done|]. cbn [visits].
  destruct j as [|j].
  - injection Hj as ->. cbn [fmap list_fmap take]. rewrite visits_other.
    + unfold visit, upd. by rewrite decide_True.
    + intros i Hi E. apply (f_equal length) in E. rewrite !length_app in E.
      cbn [length] in E. rewrite ?length_take, ?length_fmap in E. lia.
  - cbn [fmap list_fmap take]. rewrite (app_assoc up [turn_key l t0] (take (S j) (turn_key l <$> ts)) : up ++ turn_key l t0 :: _ = _).
    rewrite IH by done. unfold visit, upd. rewrite decide_False; [done|]. intros E.
    apply (f_equal length) in E. rewrite !length_app in E. cbn [length] in E.
    rewrite ?length_take, ?length_fmap in E. apply lookup_lt_Some in Hj. cbn in Hj. lia.
Qed.

(** The paths of a message list are the non-empty leading parts of its keys. *)
Lemma prefix_take kp l :
  kp `prefix_of` path_keys l → kp ≠ [] →
  ∃ t, turns l !! (length kp - 1) = Some t ∧ kp = take (S (length kp - 1)) (turn_key l <$> turns l).
Proof.
  intros [r E] Hne. unfold path_keys in E. assert (length kp ≠ 0) as Hl by by destruct kp.
  destruct (lookup_lt_is_Some_2 (turns l) (length kp - 1)) as [t Ht].
  { apply (f_equal length) in E. rewrite length_fmap, length_app in E. lia. }
  exists t. split; [done|]. rewrite E. replace (S (length kp - 1)) with (length kp) by lia. by rewrite take_app_length.
Qed.

Lemma visits_path f p l kp :
  kp ≠ [] →
  visits p l f [] (turns l) kp =
  if decide (kp `prefix_of` path_keys l)
  then Some (mark_active p (default (fresh_row (turn_of l (length kp)) p (turn_end l (length kp))) (f kp)))
  else f kp.
Proof.
  intros Hne. case_decide as Hp.
  - destruct (prefix_take kp l Hp Hne) as (t & Ht & E). pose proof (visits_turn p l (turns l) f [] _ t Ht) as Hv.
    cbv zeta in Hv. cbn [app] in Hv. rewrite <- E in Hv. rewrite Hv. unfold turn_of, turn_end. by rewrite Ht.
  - apply visits_other. intros j Hj E. apply Hp. cbn [app] in E. rewrite E. unfold path_keys.
    exists (drop (S j) (turn_key l <$> turns l)). by rewrite take_drop.
Qed.

Lemma insert_rows_path f p l n kp :
  f [] = None →
  insert_rows f p l n kp =
  if decide (kp = []) then None
  else if decide (kp `prefix_of` path_keys l)
  then let r := mark_active p (default (fresh_row (turn_of l (length kp)) p (turn_end l (length kp))) (f kp)) in
       Some (if decide (path_keys l = kp) then mark_leaf p n r else r)
  else f kp.
Proof.
  intros Hnil. unfold insert_rows. cbv zeta. destruct (decide (kp = [])) as [->|Hne].
  - assert (visits p l f [] (turns l) [] = None) as Hv.
    { rewrite visits_other; [done|]. intros j Hj E. apply (f_equal length) in E. cbn [app] in E.
      rewrite length_take, length_fmap in E. cbn [length] in E. lia. }
    destruct (path_keys l) eqn:Ek; [done|]. unfold upd. by rewrite decide_False.
  - destruct (path_keys l) as [|k ks] eqn:Ek.
    + rewrite visits_path, Ek by done. destruct (decide (kp `prefix_of` [])); [|done].
      exfalso. by apply Hne, prefix_nil_inv.
    + rewrite <- Ek in *. unfold upd. destruct (decide (kp = path_keys l)) as [->|Hk].
      * rewrite visits_path by congruence. rewrite !decide_True by done. done.
      * rewrite visits_path by done. case_decide; [|done]. by rewrite decide_False by congruence.
Qed.

(** The row that [expected] has, or the one a first visit makes. *)
Lemma default_expected ps kp l n p e :
  kp ≠ [] → p = length ps → e = turn_end l (length kp) → kp `prefix_of` path_keys l →
  ∃ il, first_through kp 0 (ps ++ [(l, n)]) = Some il ∧
    default (fresh_row (turn_of l (length kp)) p e) (expected ps kp) =
    mkRow 0 false (turn_label (turn_of il.2 (length kp))) (names_at kp ps) (on_active kp ps) (is_active_leaf kp ps)
      (mkTarget il.1 (turn_end il.2 (length kp))).
Proof.
  intros Hne -> -> Hp. rewrite expected_ne, first_through_snoc by done.
  destruct (first_through kp 0 ps) as [il|] eqn:Ef; [by exists il|].
  rewrite decide_True by done. eexists; split; [done|].
  destruct (first_through_None _ _ _ Ef) as (-> & -> & ->). done.
Qed.

Lemma insert_expected ps l n kp :
  insert_rows (expected ps) (length ps) l n kp = expected (ps ++ [(l, n)]) kp.
Proof.
  rewrite insert_rows_path by (unfold expected; by rewrite decide_True).
  destruct (decide (kp = [])) as [->|Hne]; [unfold expected; by rewrite decide_True|].
  destruct (decide (kp `prefix_of` path_keys l)) as [Hp|Hp].
  - destruct (default_expected ps kp l n (length ps) _ Hne eq_refl eq_refl Hp) as (il & Ef & ->). cbv zeta.
    rewrite expected_ne, Ef by done. cbn [fmap option_fmap option_map]. f_equal.
    unfold row_at. rewrite names_at_snoc.
    destruct ps as [|[l0 n0] ps]; cbn [app on_active is_active_leaf length];
      unfold mark_leaf, mark_active; destruct (decide (path_keys l = kp)) as [E|E];
      cbn; rewrite ?orb_false_r, ?app_nil_r; try done.
    + rewrite E, !bool_decide_true by done. done.
    + rewrite bool_decide_true, bool_decide_false by congruence. done.
  - rewrite !expected_ne by done. rewrite first_through_snoc, decide_False by done.
    destruct (first_through kp 0 ps) as [il|] eqn:Ef; [|done]. cbn [fmap option_fmap option_map]. f_equal.
    assert (path_keys l ≠ kp) as Hk by (intros E; apply Hp; by rewrite E).
    unfold row_at. rewrite names_at_snoc, decide_False, app_nil_r by done.
    destruct ps as [|[l0 n0] ps]; [done|]. done.
Qed.

Lemma insert_paths_models ps t kps done_ :
  models t kps (expected done_) →
  ∃ t' kps', insert_paths t (length done_) ps = Some t' ∧ models t' kps' (expected (done_ ++ ps)).
Proof.
  revert t kps done_; induction ps as [|[l n] ps IH]; intros t kps done_ M; cbn [insert_paths].
  - exists t, kps. by rewrite app_nil_r.
  - destruct (insert_models t kps _ (length done_) l n M) as (t1 & kps1 & -> & M1). cbn [mbind option_bind].
    apply (models_ext _ _ _ _ (insert_expected done_ l n)) in M1.
    destruct (IH t1 kps1 (done_ ++ [(l, n)]) M1) as (t' & kps' & E & M'). rewrite length_app in E. cbn in E.
    exists t', kps'. split; [done|]. by rewrite <- app_assoc in M'.
Qed.

(** ** The depth-first walk lists every node once *)

Definition kp_of (kps : list kpath) (i : nat) : kpath := default [] (kps !! i).
Definition above (kps : list kpath) (s i : nat) : Prop := kp_of kps s `prefix_of` kp_of kps i.
(** The nodes at or below those on the stack. *)
Definition below_stack (kps : list kpath) (S : list nat) (i : nat) : bool := existsb (λ s, bool_decide (kp_of kps s `prefix_of` kp_of kps i)) S.
Definition todo (kps : list kpath) (S : list nat) : list nat :=
  filter (λ i, below_stack kps S i = true) (seq 0 (length kps)).

Lemma below_stack_true kps S i : below_stack kps S i = true ↔ ∃ s, s ∈ S ∧ above kps s i.
Proof. unfold below_stack. rewrite existsb_true_iff. by setoid_rewrite bool_decide_eq_true. Qed.
Lemma elem_of_todo kps S i : i ∈ todo kps S ↔ i < length kps ∧ ∃ s, s ∈ S ∧ above kps s i.
Proof. unfold todo. rewrite list_elem_of_filter, below_stack_true, elem_of_seq. naive_solver lia. Qed.
Lemma todo_NoDup kps S : NoDup (todo kps S).
Proof. apply NoDup_filter, NoDup_ListNoDup, seq_NoDup. Qed.

Lemma todo_nil kps : todo kps [] = [].
Proof. apply elem_of_nil_inv. intros i (_ & s & Hs & _)%elem_of_todo. by apply elem_of_nil in Hs. Qed.

Lemma kp_of_Some kps i kp : kps !! i = Some kp → kp_of kps i = kp.
Proof. unfold kp_of. by intros ->. Qed.
Lemma kp_of_lt kps i : i < length kps → kps !! i = Some (kp_of kps i).
Proof. intros [kp E]%lookup_lt_is_Some. unfold kp_of. by rewrite E. Qed.

(** All non-empty leading parts of a path are paths. *)
Lemma models_prefix t kps f up k r : models t kps f → up ++ k :: r ∈ kps → up ++ [k] ∈ kps.
Proof.
  intros M. induction r as [|x r IH] using rev_ind; [done|].
  rewrite app_comm_cons, app_assoc. intros H. apply (m_closed _ _ _ M) in H as [H|H]; [by destruct up|auto].
Qed.

(** No two nodes of the stack are above the same node. *)
Definition antichain (kps : list kpath) (S : list nat) : Prop :=
  NoDup S ∧ (∀ s, s ∈ S → s < length kps) ∧
  ∀ s s' i, s ∈ S → s' ∈ S → above kps s i → above kps s' i → s = s'.

Lemma child_above t kps f id n c :
  models t kps f → id < length kps → nodes t !! id = Some n → c ∈ children n →
  c < length kps ∧ ∃ k, kp_of kps c = kp_of kps id ++ [k].
Proof.
  intros M Hid Hn Hc. destruct (m_children _ _ _ M _ _ _ (kp_of_lt _ _ Hid) Hn) as [_ Hch].
  apply Hch in Hc as [k Hk]. split; [by eapply lookup_lt_Some|]. exists k. by apply kp_of_Some.
Qed.

Lemma antichain_children t kps f id n S :
  models t kps f → nodes t !! id = Some n → antichain kps (id :: S) → antichain kps (children n ++ S).
Proof.
  intros M Hn (Hnd & Hlt & Hac). apply NoDup_cons in Hnd as [Hni Hnd].
  assert (id < length kps) as Hid by (apply Hlt; left).
  pose proof (λ c, child_above t kps f id n c M Hid Hn) as Hchild.
  assert (∀ c, c ∈ children n → above kps id c) as Hup.
  { intros c Hc. destruct (Hchild c Hc) as (_ & k & E). unfold above. rewrite E. by exists [k]. }
  assert (∀ c s i, c ∈ children n → s ∈ S → above kps c i → above kps s i → False) as Hsep.
  { intros c s i Hc Hs Hci Hsi. assert (id = s) as ->; [|done]. apply (Hac id s i); [left|by right| |done].
    unfold above. etrans; [by apply Hup|done]. }
  split_and!.
  - apply NoDup_app. split_and!; [|intros c Hc Hs|done].
    + by apply (m_children _ _ _ M _ _ _ (kp_of_lt _ _ Hid) Hn).
    + apply (Hsep c c c Hc Hs); unfold above; reflexivity.
  - intros s [Hs|Hs]%elem_of_app; [by apply Hchild|apply Hlt; by right].
  - intros s s' i [Hs|Hs]%elem_of_app [Hs'|Hs']%elem_of_app Ha Ha'.
    + destruct (Hchild s Hs) as (Hsl & k & E), (Hchild s' Hs') as (Hsl' & k' & E').
      unfold above in Ha, Ha'. rewrite E in Ha. rewrite E' in Ha'. destruct Ha as [r Hr], Ha' as [r' Hr'].
      rewrite Hr, <- !app_assoc in Hr'. apply app_inv_head in Hr'. injection Hr' as <- _.
      eapply models_inj; [exact M|by apply kp_of_lt|]. rewrite E, <- E'. by apply kp_of_lt.
    + by exfalso; eapply Hsep.
    + by exfalso; eapply Hsep.
    + apply (Hac s s' i); [by right..|done|done].
Qed.

Lemma todo_children t kps f id n S :
  models t kps f → nodes t !! id = Some n → antichain kps (id :: S) →
  todo kps (id :: S) ≡ₚ id :: todo kps (children n ++ S).
Proof.
  intros M Hn (Hnd & Hlt & Hac). apply NoDup_cons in Hnd as [Hni Hnd].
  assert (id < length kps) as Hid by (apply Hlt; left).
  pose proof (λ c, child_above t kps f id n c M Hid Hn) as Hchild.
  apply NoDup_Permutation; [apply todo_NoDup| |].
  - apply NoDup_cons. split; [|apply todo_NoDup]. intros (_ & s & [Hs|Hs]%elem_of_app & Ha)%elem_of_todo.
    + destruct (Hchild s Hs) as (_ & k & E). unfold above in Ha. rewrite E in Ha. apply prefix_length in Ha.
      rewrite length_app in Ha. cbn in Ha. lia.
    + apply Hni. enough (id = s) as -> by done. apply (Hac id s id); [left|by right|unfold above; reflexivity|done].
  - intros i. rewrite elem_of_cons, !elem_of_todo. split.
    + intros (Hi & s & [->|Hs]%elem_of_cons & Ha).
      * destruct Ha as [[|k r] E].
        -- left. rewrite app_nil_r in E. eapply models_inj; [exact M|by apply kp_of_lt|]. rewrite E. by apply kp_of_lt.
        -- right. split; [done|]. pose proof (kp_of_lt kps i Hi) as Hki. rewrite E in Hki.
           apply list_elem_of_lookup_2 in Hki. apply (models_prefix _ _ _ _ _ _ M) in Hki.
           apply list_elem_of_lookup in Hki as [c Hc]. exists c. split.
           ++ apply elem_of_app. left. apply (m_children _ _ _ M _ _ _ (kp_of_lt _ _ Hid) Hn). eauto.
           ++ unfold above. rewrite (kp_of_Some _ _ _ Hc), E. exists r. by rewrite <- app_assoc.
      * right. split; [done|]. exists s. split; [apply elem_of_app; by right|done].
    + intros [->|(Hi & s & [Hs|Hs]%elem_of_app & Ha)].
      * split; [done|]. exists id. split; [left|unfold above; reflexivity].
      * split; [done|]. exists id. split; [left|]. destruct (Hchild s Hs) as (_ & k & E). unfold above in *.
        etrans; [|exact Ha]. rewrite E. by exists [k].
      * split; [done|]. exists s. split; [by right|done].
Qed.

(** A row as the trie holds it: [rows] sets the indentation. *)
Definition plain_row (r : TreeRow) : TreeRow := place 0 false r.

Lemma rows_loop_spec t kps f fuel ns stack out :
  models t kps f → antichain kps (stack.*1.*1) →
  (∀ i, i ∈ todo kps (stack.*1.*1) → ns !! i = nodes t !! i) →
  length (todo kps (stack.*1.*1)) ≤ fuel →
  ∃ ids rs, rows_loop fuel ns stack out = Some (out ++ rs) ∧ ids ≡ₚ todo kps (stack.*1.*1) ∧
    Forall2 (λ i r, plain_row <$> f (kp_of kps i) = Some (plain_row r)) ids rs.
Proof.
  intros M. revert ns stack out; induction fuel as [|fuel IH]; intros ns stack out Hac Hns Hf.
  - destruct stack as [|[[id d] fk] stack].
    + exists [], []. cbn. rewrite app_nil_r, todo_nil. split_and!; [done|done|constructor].
    + exfalso. apply Nat.le_0_r, length_zero_iff_nil in Hf. destruct Hac as (_ & Hlt & _).
      assert (id ∈ todo kps (((id, d, fk) :: stack).*1.*1)) as Hin; [|rewrite Hf in Hin; by apply elem_of_nil in Hin].
      apply elem_of_todo. split; [apply Hlt; left|]. exists id. split; [left|unfold above; reflexivity].
  - destruct stack as [|[[id d] fk] stack].
    + exists [], []. cbn. rewrite app_nil_r, todo_nil. split_and!; [done|done|constructor].
    + cbn [fmap list_fmap fst] in Hac, Hns, Hf |- *. cbn [rows_loop].
      assert (id < length kps) as Hid by (apply Hac; left).
      assert (id ∈ todo kps (id :: stack.*1.*1)) as Hin.
      { apply elem_of_todo. split; [done|]. exists id. split; [left|unfold above; reflexivity]. }
      destruct (models_node _ _ _ _ _ M (kp_of_lt _ _ Hid)) as [n Hn]. rewrite (Hns id Hin), Hn. cbn [mbind option_bind].
      pose proof (todo_children _ _ _ _ _ _ M Hn Hac) as Hperm.
      pose proof (antichain_children _ _ _ _ _ _ M Hn Hac) as Hac'.
      set (stack' := children_frames d n ++ stack).
      assert (stack'.*1.*1 = children n ++ stack.*1.*1) as Es.
      { unfold stack', children_frames. rewrite !fmap_app. f_equal. rewrite <- !list_fmap_compose.
        apply list_fmap_id. }
      rewrite <- Es in Hperm, Hac'.
      destruct (IH (<[id := set_row empty_row n]> ns) stack' (out ++ [place d fk (row n)]) Hac') as (ids & rs & -> & Hids & Hrs).
      * intros i Hi. rewrite list_lookup_insert_ne.
        -- apply Hns. rewrite Hperm. by right.
        -- intros <-. pose proof (todo_NoDup kps (id :: stack.*1.*1)) as Hnd. rewrite Hperm in Hnd.
           by apply NoDup_cons in Hnd as [? _].
      * apply Permutation_length in Hperm. cbn [length] in Hperm. lia.
      * exists (id :: ids), (place d fk (row n) :: rs). split_and!.
        -- by rewrite <- app_assoc.
        -- by rewrite Hperm, Hids.
        -- constructor; [|done]. rewrite (m_rows _ _ _ M _ _ _ (kp_of_lt _ _ Hid) Hn). done.
Qed.

Lemma kps_seq kps : kp_of kps <$> seq 0 (length kps) = kps.
Proof.
  apply list_eq. intros i. rewrite list_lookup_fmap.
  destruct (decide (i < length kps)) as [Hi|Hi].
  - rewrite lookup_seq_lt by done. cbn. by rewrite kp_of_lt.
  - rewrite lookup_seq_ge, (lookup_ge_None_2 kps) by lia. done.
Qed.

Lemma models_walk t kps f :
  models t kps f →
  ∃ order rs, rows t = Some rs ∧ order ≡ₚ kps ∧
    Forall2 (λ kp r, plain_row <$> f kp = Some (plain_row r)) order rs.
Proof.
  intros M. unfold rows. set (fork := 1 <? length (roots t)).
  set (stack := (λ r : nat, (r, Nat.b2n fork, fork)) <$> roots t).
  assert (stack.*1.*1 = roots t) as Es.
  { unfold stack. rewrite <- !list_fmap_compose. apply list_fmap_id. }
  destruct (m_roots _ _ _ M) as [Hnd Hr].
  assert (∀ r, r ∈ roots t → r < length kps ∧ ∃ k, kp_of kps r = [k]) as Hroot.
  { intros r [k Hk]%Hr. split; [by eapply lookup_lt_Some|]. exists k. by apply kp_of_Some. }
  assert (antichain kps (stack.*1.*1)) as Hac.
  { rewrite Es. split_and!; [done|by intros s [? _]%Hroot|].
    intros s s' i Hs Hs' Ha Ha'. destruct (Hroot s Hs) as (Hl & k & E), (Hroot s' Hs') as (Hl' & k' & E').
    unfold above in Ha, Ha'. rewrite E in Ha. rewrite E' in Ha'. destruct Ha as [x Hx], Ha' as [y Hy].
    rewrite Hx in Hy. injection Hy as <- _.
    eapply models_inj; [exact M|by apply kp_of_lt|]. rewrite E, <- E'. by apply kp_of_lt. }
  assert (todo kps (stack.*1.*1) = seq 0 (length kps)) as Htodo.
  { rewrite Es. unfold todo. apply list_filter_id. intros i Hi. apply elem_of_seq in Hi. apply below_stack_true.
    assert (i < length kps) as Hi' by lia. pose proof (kp_of_lt kps i Hi') as Hk.
    destruct (models_node _ _ _ _ _ M Hk) as [n Hn]. destruct (m_key _ _ _ M _ _ _ Hk Hn) as [u E].
    destruct (u ++ [key n]) as [|k r] eqn:Eu; [by destruct u|]. pose proof (list_elem_of_lookup_2 _ _ _ Hk) as Hin.
    rewrite E in Hin. apply (models_prefix _ _ _ [] _ _ M) in Hin. apply list_elem_of_lookup in Hin as [c Hc].
    exists c. split; [apply Hr; eauto|]. unfold above. rewrite (kp_of_Some _ _ _ Hc), E. by exists r. }
  destruct (rows_loop_spec t kps f (length (nodes t)) (nodes t) stack [] M Hac ltac:(done)) as (ids & rs & -> & Hids & Hrs).
  { rewrite Htodo, length_seq. by rewrite (m_len _ _ _ M). }
  exists (kp_of kps <$> ids), rs. split_and!; [done| |].
  - rewrite <- (kps_seq kps) at 2. by rewrite Hids, Htodo.
  - apply Forall2_fmap_l. exact Hrs.
Qed.

Lemma first_through_is_Some kp i ps :
  is_Some (first_through kp i ps) ↔ ∃ l n, (l, n) ∈ ps ∧ kp `prefix_of` path_keys l.
Proof.
  revert i; induction ps as [|[l n] ps IH]; intros i; cbn [first_through].
  - split; [by intros [? ?]|]. intros (? & ? & H & _). by apply elem_of_nil in H.
  - setoid_rewrite elem_of_cons. case_decide as Hp.
    + split; [|done]. intros _. exists l, n. auto.
    + rewrite IH. split; [naive_solver|]. intros (l' & n' & [[= -> ->]|H] & Hp'); [done|eauto].
Qed.

Lemma expected_is_Some ps kp :
  expected ps kp ≠ None ↔ kp ≠ [] ∧ ∃ l n, (l, n) ∈ ps ∧ kp `prefix_of` path_keys l.
Proof.
  unfold expected. case_decide as E; [naive_solver|]. rewrite <- (first_through_is_Some kp 0).
  destruct (first_through kp 0 ps); cbn; split; [eauto|done|done|by intros [_ [? ?]]].
Qed.

Lemma paths_of_elem s l : (∃ n, (l, n) ∈ paths_of s) ↔ l ∈ all_paths s.
Proof.
  unfold paths_of, all_paths. setoid_rewrite elem_of_cons. split.
  - intros (n & [[= -> ->]|(b & [= -> ->] & Hb)%list_elem_of_fmap]); [by left|]. right. by apply list_elem_of_fmap_2.
  - intros [->|(b & -> & Hb)%list_elem_of_fmap]; [exists None; by left|].
    exists (branch_name b). right. apply list_elem_of_fmap. eauto.
Qed.

Lemma paths_of_lookup s i l n e : paths_of s !! i = Some (l, n) → source_of s (mkTarget i e) = Some l.
Proof.
  unfold paths_of, source_of. cbn [path]. destruct i as [|i]; [by intros [= ->]|].
  change ((?x :: ?r) !! S i) with (r !! i). rewrite list_lookup_fmap.
  destruct (branches s !! i); cbn; [|done]. by intros [= -> _].
Qed.

(** The rows, with the path of turns each stands for. *)
Definition shows (s : Session) (kp : kpath) (r : TreeRow) : Prop :=
  ∃ il, first_through kp 0 (paths_of s) = Some il ∧ plain_row r = row_at (paths_of s) kp il.

Lemma tree_rows_walk s :
  ∃ order rs, tree_rows s = Some rs ∧ NoDup order ∧
    (∀ kp, kp ∈ order ↔ kp ≠ [] ∧ ∃ p, p ∈ all_paths s ∧ kp `prefix_of` path_keys p) ∧
    Forall2 (shows s) order rs.
Proof.
  assert (models empty_trie [] (expected [])) as M0.
  { eapply models_ext; [|exact empty_models]. intros x. unfold expected. by case_decide. }
  destruct (insert_paths_models (paths_of s) empty_trie [] [] M0) as (t & kps & E & M). cbn [app length] in E, M.
  unfold tree_rows. rewrite E. cbn [mbind option_bind].
  destruct (models_walk t kps _ M) as (order & rs & Er & Hperm & Hrs).
  assert (∀ kp, kp ∈ kps ↔ expected (paths_of s) kp ≠ None) as Hdom.
  { intros kp. split; [|apply (m_dom _ _ _ M)]. intros [i Hi]%list_elem_of_lookup.
    destruct (models_node _ _ _ _ _ M Hi) as [n Hn]. by rewrite (m_rows _ _ _ M _ _ _ Hi Hn). }
  exists order, rs. split_and!; [done| | |].
  - rewrite Hperm. apply M.
  - intros kp. rewrite Hperm, Hdom, expected_is_Some. setoid_rewrite <- paths_of_elem. naive_solver.
  - eapply Forall2_impl; [exact Hrs|]. cbn. intros kp r. unfold shows, expected. case_decide; [done|].
    destruct (first_through kp 0 (paths_of s)) as [il|]; [|done]. cbn. intros H'%(inj Some).
    exists il. split; [done|]. exact (eq_sym H').
Qed.

(** The tree shows the conversation's paths exactly: one row for
    each distinct leading part, in whole turns, of the active path and the
    branches, and no other; a row is on the active path, or its end, exactly when
    its turns lead the active path, or are all of it, it carries the names of the
    branches that end there, in order, and its label and target are those of the
    first path through it. The trie is built and walked without an index out of
    range, and the walk ends. *)
Theorem tree_rows_exact (s : Session) :
  ∃ order rs, tree_rows s = Some rs ∧ NoDup order ∧
    (∀ kp, kp ∈ order ↔ kp ≠ [] ∧ ∃ p, p ∈ all_paths s ∧ kp `prefix_of` path_keys p) ∧
    Forall2 (λ kp r,
      (on_active_path r = true ↔ kp `prefix_of` path_keys (messages s)) ∧
      (active_leaf r = true ↔ kp = path_keys (messages s)) ∧
      names r = names_at kp (paths_of s) ∧
      ∃ p, source_of s (target r) = Some p ∧ kp `prefix_of` path_keys p ∧
        label r = turn_label (turn_of p (length kp)) ∧ end_ (target r) = turn_end p (length kp)) order rs.
Proof.
  destruct (tree_rows_walk s) as (order & rs & E & Hnd & Hdom & Hrs). exists order, rs.
  split_and!; [done..|]. eapply Forall2_impl; [exact Hrs|]. cbn. intros kp r ([i p] & Ef & Er).
  apply first_through_Some in Ef as (Hp & _ & n & Hlook). rewrite Nat.sub_0_r in Hlook.
  unfold plain_row, place, row_at in Er. destruct r as [d fk lb nm oa al tg]. cbn in Er |- *.
  injection Er as -> -> -> -> ->. cbn. rewrite !bool_decide_eq_true. split_and!; [done..|].
  exists p. split_and!; [|done..]. by eapply paths_of_lookup.
Qed.

(** Picking a row of a tree that is up to date always works: the
    switch is never refused as stale, the active path then consists of exactly the
    turns the row stands for, and for the active leaf nothing changes. *)
Theorem switch_to_row (s : Session) (rs : list TreeRow) (r : TreeRow) :
  tree_rows s = Some rs → r ∈ rs →
  ∃ kp b s', switch_branch s (target r) = (inl b, s') ∧ shows s kp r ∧
    fps (messages s') = mjoin kp ∧ (active_leaf r = true → b = false ∧ s' = s).
Proof.
  intros E Hr. destruct (tree_rows_walk s) as (order & rs' & E' & _ & Hdom & Hrs).
  rewrite E in E'. injection E' as <-. apply list_elem_of_lookup in Hr as [i Hi].
  destruct (Forall2_lookup_r _ _ _ _ _ Hrs Hi) as (kp & Hkp & Hs). exists kp.
  assert (kp ≠ []) as Hne by (apply (Hdom kp); by eapply list_elem_of_lookup_2).
  pose proof Hs as ([j p] & Ef & Er). apply first_through_Some in Ef as (Hp & _ & n & Hlook).
  rewrite Nat.sub_0_r in Hlook. destruct r as [d fk lb nm oa al tg]. unfold plain_row, place, row_at in Er.
  cbn in Er. injection Er as -> -> -> -> ->. cbn [target active_leaf].
  assert (source_of s (mkTarget j (turn_end p (length kp))) = Some p) as Hsrc.
  { by eapply paths_of_lookup. }
  destruct (prefix_take kp p Hp Hne) as (t & Ht & Ek).
  assert (0 < length kp ≤ length (turns p)) as Hlen.
  { apply lookup_lt_Some in Ht. destruct kp; [done|]. cbn in *. lia. }
  destruct (turn_end_spec p (length kp) Hlen) as [Hle Hfp].
  replace (S (length kp - 1)) with (length kp) in Ek by lia. change (turn_key p <$> turns p) with (path_keys p) in Ek.
  rewrite <- Ek in Hfp. unfold switch_branch. rewrite Hsrc. cbn [end_].
  rewrite (proj2 (leading_Some _ _ _) (conj Hle eq_refl)).
  destruct (same_path (take (turn_end p (length kp)) p) (messages s)) eqn:Esame.
  - exists false, s. split_and!; [done|done| |done]. apply same_path_true in Esame. by rewrite <- Esame.
  - eexists true, _. split_and!; [done|done|exact Hfp|]. cbn. rewrite bool_decide_eq_true. intros Hleaf.
    enough (same_path (take (turn_end p (length kp)) p) (messages s) = true) by congruence.
    apply same_path_true. by rewrite Hfp, Hleaf, <- fps_path_keys.
Qed.
End tree.
#[global] Arguments mkSession {_ _ _} _ _ _.
#[global] Arguments mkBranch {_ _ _} _ _.

(** A conversation that forked after its first turn; the hash reads the texts. *)
Definition text_hash (l : list fed) : N :=
  foldr (λ x acc, match x with
                  | FStr s => foldr (λ c a, (c + 257 * a)%N) acc s
                  | FRole User => (1 + 7 * acc)%N
                  | _ => (2 + 7 * acc)%N
                  end) 0%N l.
Definition said (r : Role) (t : string) : Message unit unit unit := mkMessage r (MText (lit t)) None None None.
Arguments said _ _%_string.
Definition forked : Session (Value := unit) (ImageSource := unit) (Time := unit) :=
  mkSession [said User "one"; said Assistant "1"; said User "two"; said Assistant "2"]
    [mkBranch (Some (lit "old")) [said User "one"; said Assistant "1"; said User "deux"; said Assistant "3"];
     mkBranch None [said User "one"; said Assistant "1"; said User "two"; said Assistant "2"; said User "three"]] None.
Definition forked_rows : list TreeRow := default [] (tree_rows text_hash forked).
Definition deux : TreeRow := default empty_row (forked_rows !! 3).

Example tree_rows_ex :
  (λ r, (label r, names r, row_depth r, on_active_path r, active_leaf r)) <$> forked_rows =
  [(lit "one", [], 0, true, false); (lit "two", [], 1, true, true); (lit "three", [], 1, false, false);
   (lit "deux", [lit "old"], 1, false, false)].
Proof. vm_compute. reflexivity. Qed.

Lemma switch_to_row_witness :
  tree_rows text_hash forked = Some forked_rows ∧ deux ∈ forked_rows ∧
  ∃ kp b s', switch_branch text_hash forked (target deux) = (inl b, s') ∧ shows text_hash forked kp deux ∧
    fps text_hash (messages s') = mjoin kp ∧ (active_leaf deux = true → b = false ∧ s' = forked).
Proof.
  assert (tree_rows text_hash forked = Some forked_rows) as H by (vm_compute; reflexivity).
  assert (deux ∈ forked_rows) as Hd by (apply (list_elem_of_lookup_2 _ 3); vm_compute; reflexivity).
  split_and!; [exact H|exact Hd|]. exact (switch_to_row text_hash forked forked_rows deux H Hd).
Defined.
