(* ===== verification/Intent.v ===== *)
(** What the user wants and what it authorises ([crates/agent/src/intent.rs]): the
    heuristic classification of a message, the posture added to a request, and the
    authorization of a tool call against it. *)

From Stdlib Require Import SpecFloat.
From S2P Require Import Prelude RustStr Paths F32 Messages.

(** ** Modes, intents, assessments *)

Inductive IntentGuidanceMode := GAuto | GOff | GAlways.
#[global] Instance IntentGuidanceMode_eq_dec : EqDecision IntentGuidanceMode.
Proof. solve_decision. Defined.

Definition guidance_parse (s : str) : IntentGuidanceMode :=
  let t := to_ascii_lowercase (trim s) in
  if is_one_of t ["off"; "none"; "false"; "0"]%string then GOff
  else if is_one_of t ["always"; "force"; "on"]%string then GAlways
  else GAuto.

Inductive UserIntent := IQuestion | IChange | IPlan | ITrivial | IAmbiguous.
#[global] Instance UserIntent_eq_dec : EqDecision UserIntent.
Proof. solve_decision. Defined.

Definition intent_as_str (i : UserIntent) : str :=
  match i with
  | IQuestion => lit "question"
  | IChange => lit "change"
  | IPlan => lit "plan"
  | ITrivial => lit "trivial"
  | IAmbiguous => lit "ambiguous"
  end.

Record IntentAssessment := mkIntent { intent : UserIntent; confidence : f32; reasons : list str }.

Definition is_high (a : IntentAssessment) : bool := f32_ge (confidence a) (f32_lit 72 100).

(** ** Markers *)

Definition QUESTION_MARKERS : list string :=
  ["how does"; "how do "; "how is "; "what is "; "what are "; "what does"; "why does"; "why is ";
   "why do "; "where is "; "where are "; "when does"; "explain"; "describe"; "walk me through";
   "help me understand"; "can you explain"; "could you explain"; "nasıl çalış"; "nedir";
   "ne işe yarar"; "neden "; "niçin"; "anlat"; "açıkla"; "acikla"; "ne fark"]%string.

Definition QUESTION_STARTERS : list string :=
  ["how "; "what "; "why "; "where "; "when "; "which "; "who "; "is "; "are "; "does "; "do ";
   "can "; "could "; "would "; "should "; "nasıl"; "nedir"; "neden"; "niçin"; "hangi"; "nerede";
   "ne "; "mi "; "mı "; "mu "; "mü "]%string.

Definition CHANGE_MARKERS : list string :=
  ["fix "; "fix the"; "add "; "implement"; "refactor"; "rename "; "delete "; "remove "; "update ";
   "change "; "create "; "write "; "edit "; "patch "; "migrate"; "install "; "upgrade "; "wire ";
   "hook up"; "make it"; "make sure"; "please fix"; "please add"; "please implement"; "düzelt";
   "duzelt"; "ekle"; "uygula"; "yaz "; "sil "; "kaldır"; "kaldir"; "değiştir"; "degistir";
   "güncelle"; "guncelle"; "oluştur"; "olustur"; "refactor et"; "bug fix"]%string.

Definition CHANGE_STARTERS : list string :=
  ["fix "; "add "; "implement "; "refactor "; "rename "; "delete "; "remove "; "update ";
   "change "; "create "; "write "; "edit "; "patch "; "make "; "set "; "enable "; "disable ";
   "düzelt"; "duzelt"; "ekle "; "uygula "; "yaz "; "sil "; "kaldır"; "kaldir"; "değiştir";
   "degistir"; "güncelle"; "guncelle"; "oluştur"; "olustur"]%string.

Definition PLAN_MARKERS : list string :=
  ["plan "; "plan the"; "make a plan"; "write a plan"; "design "; "architecture"; "how should we";
   "how would we"; "what's the best approach"; "what is the best approach"; "trade-off";
   "tradeoff"; "roadmap"; "break down"; "step by step plan"; "before we implement";
   "propose an approach"; "migration plan"; "planla"; "plan çıkar"; "plan cikar"; "yol haritası";
   "yol haritasi"; "mimari"; "nasıl ilerleyelim"; "nasil ilerleyelim"; "yaklaşım"; "yaklasim";
   "strateji"; "adım adım"; "adim adim"]%string.

Definition CONTROL_WORDS : list string :=
  ["ok"; "okay"; "yes"; "no"; "go"; "run"; "do"; "commit"; "push"; "pull"; "merge"; "deploy";
   "build"; "test"; "retry"; "ship"; "continue"; "proceed"; "stop"; "cancel"; "undo"; "revert";
   "evet"; "hayır"; "hayir"; "tamam"; "olur"; "devam"; "yap"; "yapma"; "dur"; "durdur"; "iptal";
   "yaz"; "sil"; "kur"; "başlat"; "baslat"; "çalıştır"; "calistir"; "dene"; "gönder"; "gonder";
   "onayla"; "onaylıyorum"; "onayliyorum"]%string.

Definition contains_any (s : str) (markers : list string) : bool :=
  existsb (λ m, contains s (ulit m)) markers.

(** The number of markers present, and [reason] noted once if there is one. *)
Definition score_markers (lower : str) (markers : list string) (reasons : list str) (reason : str)
    : nat * list str :=
  let n := length (List.filter (λ m, contains lower (ulit m)) markers) in
  (n, if n =? 0 then reasons else reasons ++ [reason]).

Definition starts_with_any (lower : str) (heads : list string) : bool :=
  let t := trim_start lower in
  existsb (λ h, starts_with t (ulit h)) heads.

Definition count_path_hints (text : str) : nat :=
  length (List.filter (λ w,
    contains_char w cSlash
    || existsb (λ e, ends_with w (lit e)) [".rs"; ".ts"; ".tsx"; ".py"; ".go"; ".js"]%string)
    (split_whitespace text)).

(** [w.trim_matches(['.', '!', '?', ','])]. *)
Definition trim_punct (w : str) : str :=
  let f c := bool_decide (c ∈ lit ".!?,") in
  trim_end_matches f (trim_start_matches f w).

Definition looks_actionish (lower : str) : bool :=
  starts_with_any lower CHANGE_STARTERS || contains_any lower CHANGE_MARKERS
  || contains_any lower PLAN_MARKERS
  || existsb (λ w, existsb (λ c, w == ulit c) CONTROL_WORDS) (trim_punct <$> split_whitespace lower).

(** [crates/agent/src/title.rs]: short chit-chat, by shape. A trimmed text has more
    than one line exactly when it has a line feed. *)
Definition is_trivial_title_seed (text : str) : bool :=
  let t := trim text in
  if t == [] then true
  else if 20 <? length t then false
  else if contains_char t cLF then false
  else if 3 <? length (split_whitespace t) then false
  else if existsb (contains_char t) (lit "/\`=_(){}<>@#$") then false
  else if existsb is_ascii_digit t then false
  else if contains_char (trim_end_matches (λ c, bool_decide (c ∈ lit ".!?")) t) (chr ".") then false
  else negb (looks_actionish (to_ascii_lowercase t)).

(** ** Classification *)

Definition note (cond : bool) (reason : string) (reasons : list str) : list str :=
  if cond then reasons ++ [lit reason] else reasons.
Arguments note _ _%_string _.
(** [x += d] under a condition. *)
Definition bump (cond : bool) (x d : f32) : f32 := if cond then f32_add x d else x.

Definition qmark_wide : rchar := 65311.

(** The verdict from the three scores. *)
Definition verdict (q c p : f32) : UserIntent * f32 :=
  if f32_ge p q && f32_ge p c && f32_ge p (f32_lit 3 2) then (IPlan, p)
  else if f32_ge q c && f32_ge q p && f32_ge q (f32_lit 6 5) then (IQuestion, q)
  else if f32_ge c q && f32_ge c p && f32_ge c (f32_lit 1 1) then (IChange, c)
  else (IAmbiguous, f32_lit 2 5).

Definition confidence_of (i : UserIntent) (raw : f32) : f32 :=
  match i with
  | IAmbiguous => f32_lit 35 100
  | _ => f32_clamp (f32_div raw (f32_lit 4 1)) (f32_lit 2 5) (f32_lit 95 100)
  end.

Definition classify_user_intent (text : str) : IntentAssessment :=
  let t := trim text in
  if (t == []) || is_trivial_title_seed t then
    mkIntent ITrivial (f32_lit 95 100) [lit "trivial_or_empty"]
  else
    let lower := to_ascii_lowercase t in
    let '(q_score, reasons) := score_markers lower QUESTION_MARKERS [] (lit "question_marker") in
    let '(c_score, reasons) := score_markers lower CHANGE_MARKERS reasons (lit "change_marker") in
    let '(p_score, reasons) := score_markers lower PLAN_MARKERS reasons (lit "plan_marker") in
    let has_qmark := contains_char t (chr "?") || contains_char t qmark_wide in
    let reasons := note has_qmark "question_mark" reasons in
    let starts_question := starts_with_any lower QUESTION_STARTERS in
    let reasons := note starts_question "question_starter" reasons in
    let imperative := negb has_qmark && (length t <? 200) && starts_with_any lower CHANGE_STARTERS in
    let reasons := note imperative "change_starter" reasons in
    let sprawl := (3 <=? count_path_hints t) || (2 <=? p_score) in
    let reasons := note (sprawl && (0 <? p_score)) "scope_sprawl" reasons in
    let q := f32_add (f32_add (f32_of_nat q_score) (if has_qmark then f32_lit 6 5 else f32_lit 0 1))
               (if starts_question then f32_lit 1 1 else f32_lit 0 1) in
    let c := f32_add (f32_of_nat c_score) (if imperative then f32_lit 7 5 else f32_lit 0 1) in
    let p := f32_add (f32_of_nat p_score)
               (if sprawl && (0 <? p_score) then f32_lit 4 5 else f32_lit 0 1) in
    let about := has_qmark && (0 <? c_score) && (q_score =? 0) in
    let q := bump about q (f32_lit 4 5) in
    let reasons := note about "question_about_change" reasons in
    let artifact := (0 <? p_score) && (0 <? c_score) in
    let p := bump artifact p (f32_lit 8 5) in
    let reasons := note artifact "plan_artifact" reasons in
    let planning := (0 <? p_score) && (has_qmark || starts_question) in
    let p := bump planning p (f32_lit 7 5) in
    let reasons := note planning "planning_question" reasons in
    let q := bump (f32_gt q c && f32_gt q p && (c_score =? 0)) q (f32_lit 3 10) in
    let '(i, raw) := verdict q c p in
    mkIntent i (confidence_of i raw) reasons.

(** ** Posture *)

Definition posture_body (i : UserIntent) : option str :=
  match i with
  | IQuestion => Some (lit "This turn looks like a **question / explanation** request. Prefer a clear answer; use read-only tools (`read`, `grep`, `glob`, `list`, web) if needed. Do **not** edit files, run mutating shell, or open PRs unless the user clearly asked for a change. A question is not a directive to implement.")
  | IPlan => Some (lit "This turn looks like a **planning / design** request. Research with read-only tools, outline a structured plan (files, steps, risks), and use `question` if requirements are ambiguous. Do **not** start large edits until the approach is clear or the user asks to implement.")
  | IChange => Some (lit "This turn looks like an **implementation** request. Make the change carefully: read before edit, keep diffs focused, run relevant checks. If the request is vague or high-risk, ask with `question` first rather than guessing.")
  | IAmbiguous => Some (lit "Intent is **ambiguous**. If the next step would touch many files or is irreversible, ask a short clarifying `question` or propose a brief plan before editing. Small, obvious fixes may proceed.")
  | ITrivial => None
  end.

Definition posture_suffix (a : IntentAssessment) (agent_name : str) : option str :=
  if is_one_of agent_name ["plan"; "ask"; "explore"; "scout"]%string then None
  else
    body ← posture_body (intent a);
    Some ([cLF; cLF] ++ lit "<whycodes_intent confidence=" ++ [cDQ] ++ fmt_f32 2 (confidence a) ++ [cDQ]
          ++ lit " kind=" ++ [cDQ] ++ intent_as_str (intent a) ++ [cDQ] ++ lit ">" ++ [cLF] ++ body
          ++ [cLF] ++ lit "</whycodes_intent>").

Definition should_inject (mode : IntentGuidanceMode) (a : IntentAssessment) : bool :=
  match mode with
  | GOff => false
  | GAlways => negb (intent a == ITrivial)
  | GAuto =>
      match intent a with
      | ITrivial => false
      | IAmbiguous => f32_ge (confidence a) (f32_lit 1 2)
      | IQuestion | IPlan => is_high a
      | IChange => f32_ge (confidence a) (f32_lit 85 100)
      end
  end.

(** ** Requests *)

Section request.
Context {Value ImageSource Time : Type}.
Notation Message := (Message Value ImageSource Time).
Notation MessageContent := (MessageContent Value ImageSource).

Definition append_text (c : MessageContent) (suffix : str) : MessageContent :=
match c with
| MText t => MText (t ++ suffix)
| MBlocks blocks => MBlocks (blocks ++ [BText suffix])
end.

(** The first user message of the reversed transcript gets the suffix. *)
Fixpoint append_last_user (suffix : str) (rev_msgs : list Message) : option (list Message) :=
match rev_msgs with
| [] => None
| m :: ms =>
  match role m with
  | User => Some (set_content m (append_text (content m) suffix) :: ms)
  | _ => cons m <$> append_last_user suffix ms
  end
end.

(** The messages of the request afterwards, and the assessment if it was applied. *)
Definition apply_intent_to_request (messages : list Message) (user_text agent_name : str)
(mode : IntentGuidanceMode) : option IntentAssessment * list Message :=
match mode with
| GOff => (None, messages)
| _ =>
  let a := classify_user_intent user_text in
  if negb (should_inject mode a) then (None, messages)
  else
    match posture_suffix a agent_name with
    | None => (None, messages)
    | Some suffix =>
        match append_last_user suffix (rev messages) with
        | Some ms => (Some a, rev ms)
        | None => (None, messages)
        end
    end
end.
End request.

(** ** Notices *)

Definition badge_label (a : IntentAssessment) : option str :=
  if negb (is_high a) then None
  else match intent a with
       | IQuestion => Some (lit "Q")
       | IChange => Some (lit "chg")
       | IPlan => Some (lit "plan")
       | ITrivial | IAmbiguous => None
       end.

Inductive IntentNoticeKind := Info | Warning.
Record IntentNotice := mkNotice { kind : IntentNoticeKind; message : str }.

(** The dash and the arrow of the notices. *)
Definition em_dash : rchar := 8212.
Definition arrow : rchar := 8594.

Definition intent_notice (a : IntentAssessment) (agent_name : str) : option IntentNotice :=
  if negb (is_high a) then None
  else
    match intent a with
    | IChange =>
        if is_one_of agent_name ["ask"; "plan"]%string then
          Some (mkNotice Warning
            (lit "Implementation request while in " ++ agent_name ++ lit " (read-only). Ctrl+T "
             ++ [arrow] ++ lit " build to apply edits."))
        else None
    | IQuestion =>
        if agent_name == lit "build" then
          Some (mkNotice Info
            (lit "Intent: question " ++ [em_dash] ++ lit " no edits (Ctrl+T " ++ [arrow]
             ++ lit " ask for hard read-only)"))
        else None
    | IPlan =>
        if agent_name == lit "build" then
          Some (mkNotice Info
            (lit "Intent: plan " ++ [em_dash] ++ lit " outline first (Ctrl+T " ++ [arrow]
             ++ lit " plan mode)"))
        else if agent_name == lit "ask" then
          Some (mkNotice Info
            (lit "Design-shaped ask " ++ [em_dash] ++ lit " Ctrl+T " ++ [arrow]
             ++ lit " plan for a full plan"))
        else None
    | _ => None
    end.

Definition status_hint (a : IntentAssessment) (agent_name : str) : option str :=
  message <$> intent_notice a agent_name.

(** ** Tool authorization *)

Inductive ToolAuthDecision :=
| AuthAllow
| AuthConfirm (reason : str)
| AuthRefuse (reason : str).

Definition MUTATING_TOOLS : list string :=
  ["write"; "edit"; "apply_patch"; "ast_edit"; "git_commit"; "bash"; "shell"; "code_mode";
   "external_directory"]%string.
Definition is_mutating_tool (name : str) : bool := is_one_of name MUTATING_TOOLS.

Definition READ_ONLY_SHELL_HEADS : list string :=
  ["ls"; "ll"; "dir"; "pwd"; "echo"; "printf"; "cat"; "head"; "tail"; "less"; "more"; "wc"; "file";
   "stat"; "which"; "type"; "command"; "true"; "false"; "test"; "["; "rg"; "grep"; "fgrep";
   "egrep"; "find"; "fd"; "locate"; "tree"; "git"; "diff"; "cmp"; "md5sum"; "sha256sum"; "cargo";
   "rustc"; "python"; "python3"; "node"; "ruby"; "perl"; "jq"; "yq"; "awk"; "sed"; "env";
   "printenv"; "uname"; "whoami"; "id"; "date"; "cal"; "df"; "du"; "free"; "ps"; "top"; "htop";
   "curl"; "wget"; "http"]%string.
(** [iter.find(p).unwrap_or("")]. *)
Definition find_or_empty (f : str → bool) (ws : list str) : str := default [] (List.find f ws).

Definition segment_looks_read_only (seg : str) : bool :=
  let lower := to_ascii_lowercase seg in
  let token := find_or_empty (λ t, negb (contains_char t (chr "=")) || starts_with t (lit "-"))
                 (split_whitespace lower) in
  is_one_of (rsplit_next is_slash token) READ_ONLY_SHELL_HEADS.

(** Texts whose presence makes a command mutating. *)
Definition MUTATION_MARKERS : list string :=
  ["sudo "; "rm "; "mv "; "cp "; "chmod "; "chown "; "kill "; "dd "; "mkfs"; "git push"; "git commit";
   "git reset"; "git checkout"; "git clean"; "npm install"; "cargo install"; "pip install"]%string.

Definition is_read_only_shell (command : str) : bool :=
  let cmd := trim command in
  if cmd == [] then true
  else if contains_char cmd (chr ">") || contains cmd (lit ">>") || contains cmd (lit "<<")
          || (contains_char cmd (chr "|") && (contains cmd (lit "xargs") || contains cmd (lit "tee ")))
          || existsb (λ m, contains cmd (lit m)) MUTATION_MARKERS
  then false
  else
    forallb (λ segment,
      let seg := trim (trim_start_str (lit "||") (trim_start_str (lit "&&") (trim segment))) in
      (seg == []) || segment_looks_read_only seg)
      (split_on (λ c, (c =? chr "&")%N || (c =? chr ";")%N || (c =? cLF)%N) cmd).

Definition shell_head_readonly_ok (command : str) : bool :=
  let lower := to_ascii_lowercase command in
  let ws := split_whitespace lower in
  if existsb (λ t, t == lit "sed") ws && contains lower (lit "-i") then false
  else
    match strip_prefix (lit "cargo ") lower with
    | Some rest =>
        is_one_of (default [] (head (split_whitespace rest)))
          ["metadata"; "tree"; "search"; "info"; "version"; "--version"; "-V"; "help"]%string
    | None =>
        if starts_with lower (lit "git ") then
          let sub := default [] (ws !! 1) in
          if is_one_of sub ["status"; "log"; "diff"; "show"; "branch"; "tag"; "remote"; "rev-parse";
                            "describe"; "ls-files"; "blame"]%string then true
          else if sub == lit "stash" then
            is_one_of (default (lit "list") (ws !! 2)) ["list"; "show"]%string
          else if sub == lit "config" then
            contains lower (lit "--get") || contains lower (lit "-l") || contains lower (lit "--list")
          else false
        else true
    end.

Definition is_restricted_agent (agent_name : str) : bool :=
  is_one_of agent_name ["ask"; "plan"; "explore"; "scout"]%string.

Definition is_always (g : IntentGuidanceMode) : bool := match g with GAlways => true | _ => false end.

(** Why a mutation needs confirmation, if it does. *)
Definition escalation (a : IntentAssessment) (guidance : IntentGuidanceMode) : option str :=
  match intent a with
  | IQuestion => if is_high a || is_always guidance then Some (lit "question") else None
  | IPlan => Some (lit "plan")
  | IAmbiguous => if is_always guidance then Some (lit "ambiguous") else None
  | _ => None
  end.

Definition confirm_reason (a : IntentAssessment) (kind tool_name : str) : str :=
  let pct := fmt_f32 0 (f32_mul (confidence a) (f32_of_Z 100)) in
  if kind == lit "question" then
    lit "User message looks like a **question**, not an edit request (intent=" ++ kind
    ++ lit ", confidence=" ++ pct ++ lit "%)." ++ [cLF] ++ lit "Tool " ++ quoted tool_name
    ++ lit " would change the workspace." ++ [cLF] ++ lit "Approve only if you want this mutation now."
  else if kind == lit "plan" then
    lit "User message looks like a **planning** request (intent=" ++ kind
    ++ lit ", confidence=" ++ pct ++ lit "%)." ++ [cLF] ++ lit "Tool " ++ quoted tool_name
    ++ lit " would start implementation." ++ [cLF]
    ++ lit "Approve only if you want to implement now without a separate build step."
  else
    lit "User intent is unclear; tool " ++ quoted tool_name
    ++ lit " would mutate the workspace. Confirm?".

Definition is_shell_name (tool_name : str) : bool := is_one_of tool_name ["bash"; "shell"]%string.

Definition authorize_tool (a : IntentAssessment) (agent_name tool_name : str) (command : option str)
    (guidance : IntentGuidanceMode) : ToolAuthDecision :=
  match guidance with
  | GOff => AuthAllow
  | _ =>
      if negb (is_mutating_tool tool_name) then AuthAllow
      else if is_shell_name tool_name
              && match command with
                 | Some cmd => is_read_only_shell cmd && shell_head_readonly_ok cmd
                 | None => false
                 end
      then AuthAllow
      else if is_restricted_agent agent_name then
        AuthRefuse
          (lit "Agent " ++ quoted agent_name ++ lit " is read-only; tool " ++ quoted tool_name
           ++ lit " is not allowed. Switch to build (Ctrl+T) to mutate the workspace.")
      else
        match escalation a guidance with
        | None => AuthAllow
        | Some kind => AuthConfirm (confirm_reason a kind tool_name)
        end
  end.
