(* ===== verification/ToolPolicy.v ===== *)
(** Permission prompts and the parallel-tool policy
    ([crates/agent/src/tool_policy.rs]), with the tool call and result of
    [crates/core/src/types.rs] they are about.

    JSON values are those of the [serde_json] crate: the operations used of them
    are the methods of the class [Json]. *)

From S2P Require Import Prelude RustStr Paths Permission.

(** ** JSON *)

(** The constructors of [serde_json::Value]; a number is its printed text and an
    object its entries in iteration order. *)
Inductive JsonView (Value : Type) :=
| JNull
| JBool (b : bool)
| JNumber (n : str)
| JString (s : str)
| JArray (vs : list Value)
| JObject (map : list (str * Value)).
Arguments JNull {_}.
Arguments JBool {_} _.
Arguments JNumber {_} _.
Arguments JString {_} _.
Arguments JArray {_} _.
Arguments JObject {_} _.

(** What the gate uses of [serde_json]: the match on a value, [get], [to_string],
    and [to_string_pretty] ([None]: an error). *)
Class Json (Value : Type) := {
  json_view : Value → JsonView Value;
  json_get : Value → str → option Value;
  json_to_string : Value → str;
  json_to_string_pretty : Value → option str }.

Definition val_as_str {Value} `{!Json Value} (v : Value) : option str :=
  match json_view v with JString s => Some s | _ => None end.
Definition val_as_bool {Value} `{!Json Value} (v : Value) : option bool :=
  match json_view v with JBool b => Some b | _ => None end.

(** ** Calls and results *)

Record ToolCall (Value : Type) := mkCall { call_id : str; call_name : str; arguments : Value }.
Arguments mkCall {_} _ _ _.
Arguments call_id {_} _.
Arguments call_name {_} _.
Arguments arguments {_} _.

Record ToolResult := mkResult { tool_call_id : str; res_content : str; is_error : bool }.

(** [tc.arguments.get(key).and_then(|v| v.as_str())]. *)
Definition str_arg {Value} `{!Json Value} (tc : ToolCall Value) (key : string) : option str :=
  json_get (arguments tc) (lit key) ≫= val_as_str.
Arguments str_arg {_ _} _ _%_string.

(** ** Prompt details *)

Definition PERMISSION_DETAIL_MAX : N := 4000.
Definition ellipsis : rchar := 8230.

Definition truncate_permission_detail (s : str) : str :=
  if (N.of_nat (length s) <=? PERMISSION_DETAIL_MAX)%N then s
  else take (N.to_nat PERMISSION_DETAIL_MAX) s ++ [ellipsis].

Definition format_shell_risk_detail (command reason : str) : str :=
  truncate_permission_detail
    (lit "Command:" ++ [cLF] ++ command ++ [cLF; cLF] ++ lit "Risk: " ++ reason).

Section detail.
Context {Value : Type} `{!Json Value}.

Definition pretty_json_or (result : option str) (value : Value) : str :=
default (json_to_string value) result.
Definition pretty_or_display (value : Value) : str :=
pretty_json_or (json_to_string_pretty value) value.

(** A key with a text of several lines, or with one. *)
Definition key_block (key text : str) : list str :=
(key ++ lit ":") :: ((λ line, lit "  " ++ line) <$> lines text).
Definition key_line (key text : str) : str := key ++ lit ": " ++ text.

Definition detail_lines (entry : str * Value) : list str :=
let '(key, value) := entry in
match json_view value with
| JString s =>
  if contains_char s cLF || (72 <? length s) then key_block key s else [key_line key s]
| JNull => [key_line key (lit "null")]
| JBool b => [key_line key (if b then lit "true" else lit "false")]
| JNumber n => [key_line key n]
| _ =>
  let pretty := pretty_or_display value in
  if contains_char pretty cLF then key_block key pretty else [key_line key pretty]
end.

(** The text before truncation; the early return is the [Some] of the pair. *)
Definition detail_text (args : Value) : str :=
match json_view args with
| JObject [] => lit "(no arguments)"
| JObject map =>
  match (if length map =? 1 then json_get args (lit "command") ≫= val_as_str else None) with
  | Some cmd => cmd
  | None => join [cLF] (mjoin (detail_lines <$> map))
  end
| _ => pretty_or_display args
end.
Definition format_permission_detail (args : Value) : str := truncate_permission_detail (detail_text args).

(** The previews read the files the call would change: they are arguments. *)
Definition permission_detail_for (preview_edit preview_write : Value → str → option str)
(tc : ToolCall Value) (working_dir : str) : str :=
let preview :=
if call_name tc == lit "edit" then preview_edit (arguments tc) working_dir
else if call_name tc == lit "write" then preview_write (arguments tc) working_dir
else None in
match preview with
| Some diff => truncate_permission_detail diff
| None => format_permission_detail (arguments tc)
end.
End detail.

(** ** Names and paths *)

Definition worktree_name_char (c : rchar) : bool :=
  is_ascii_alphanumeric c || (c =? chr "-")%N || (c =? chr "_")%N.

Definition is_safe_worktree_name (name : str) : bool :=
  let name := trim name in
  if (name == []) || (64 <? byte_len name) then false else forallb worktree_name_char name.

(** [abs.starts_with(&root)] of [Path]: by components. *)
Definition path_starts_with (p base : str) : bool :=
  bool_decide (components base `prefix_of` components p).

(** [std::fs::canonicalize] is an argument: the path with links resolved, or none. *)
Definition path_outside_workspace (canonicalize : str → option str) (path working_dir : str) : bool :=
  if path_is_absolute path then
    default true (
      abs ← canonicalize path;
      root ← canonicalize working_dir;
      Some (negb (path_starts_with abs root)))
  else
    match List.find (λ s, s != []) (split_on is_sep path) with
    | Some first => is_one_of first [".."; "~"]%string
    | None => false
    end.

Definition PATH_ARG_TOOLS : list string :=
  ["read"; "write"; "edit"; "glob"; "list"; "repomap"; "apply_patch"; "grep"; "ast_grep"; "ast_edit"]%string.

Definition file_tool_path {Value} `{!Json Value} (tc : ToolCall Value) : option str :=
  if negb (is_one_of (call_name tc) PATH_ARG_TOOLS) then None
  else
    path ← str_arg tc "path";
    let path := replace_char (trim path) cBS (lit "/") in
    if path == [] then None else Some path.

(** ** Scheduling *)

Definition SHELL_TOOLS : list string := ["bash"; "shell"]%string.

Definition SERIAL_TOOLS : list string :=
  ["bash"; "shell"; "write"; "edit"; "apply_patch"; "ast_edit"; "git_commit"; "todowrite"; "todo";
   "task"; "swarm"; "bg"; "schedule"; "wait"; "tool_search"; "worktree"; "plan"; "browser";
   "question"; "code_mode"; "skill"; "external_directory"; "memory"]%string.

Definition is_parallel_safe_tool (name : str) (_permission : PermissionSet) : bool :=
  negb (is_one_of name SERIAL_TOOLS).
