(* ===== verification/Questions.v ===== *)
(** Questionnaires ([tools/src/agent_tools/question.rs], [agent/src/question.rs]):
    what a call of the [question] tool asks, the answers a prompter gives, when they fit
    the questions, and what the model is told. *)

From S2P Require Import Prelude RustStr ToolPolicy.

Definition MAX_QUESTIONS : nat := 8.

Record QuestionOption := mkOption { label : str; description : str; preview : option str }.
Record QuestionSpec := mkQuestion { prompt : str; options : list QuestionOption; multi_select : bool; important : bool }.
Record QuestionAnswer := mkAnswer { selected : list str; free_text : option str; auto_picked : bool }.

#[global] Instance QuestionAnswer_eq_dec : EqDecision QuestionAnswer.
Proof. solve_decision. Defined.

Definition blank (s : str) : bool := trim s == [].
(** [free_text.as_ref().is_none_or(|t| t.trim().is_empty())]. *)
Definition no_text (a : QuestionAnswer) : bool := match free_text a with Some t => blank t | None => true end.
Definition nat_str (n : nat) : str := digits (N.of_nat n).

(** ** Answers *)

Definition push_other_summary (parts : list str) (text : str) : list str :=
  let t := trim text in if t == [] then parts else parts ++ [lit "Other: " ++ t].
Definition summary (self : QuestionAnswer) : str :=
  let parts := match free_text self with Some t => push_other_summary (selected self) t | None => selected self end in
  if parts is [] then lit "(no selection)" else join (lit "; ") parts.

Definition too_many_single_select (selected : list str) : bool := 1 <? length selected.
Definition answer_error (i : nat) (what : string) : str := lit "answers[" ++ nat_str i ++ lit "]: " ++ lit what.
Arguments answer_error _ _%_string.
Definition unknown_label (q : QuestionSpec) (a : QuestionAnswer) : option str :=
  List.find (λ sel, negb (existsb (λ l, l == sel) (label <$> options q))) (selected a).
(** One turn of the loop of [validate_answers]. *)
Definition validate_one (i : nat) (q : QuestionSpec) (a : QuestionAnswer) : result unit :=
  match unknown_label q a with
  | Some sel => Err (lit "answers[" ++ nat_str i ++ lit "]: unknown option " ++ quoted sel ++ lit " (not in this question)")
  | None =>
      if multi_select q && (bool_decide (selected a = []) && no_text a)
      then Err (answer_error i "select at least one option or Other text")
      else if negb (multi_select q) && too_many_single_select (selected a)
      then Err (answer_error i "single-select question got multiple labels")
      else if bool_decide (length (options q) = 0) && no_text a
      then Err (answer_error i "free-form question requires text")
      else if bool_decide (selected a = []) && no_text a
      then Err (answer_error i "empty selection (pick an option or provide Other text)")
      else Ok tt
  end.
Fixpoint validate_from (i : nat) (questions : list QuestionSpec) (answers : list QuestionAnswer) : result unit :=
  match questions, answers with
  | q :: questions, a :: answers =>
      match validate_one i q a with Ok _ => validate_from (S i) questions answers | Err e => Err e end
  | _, _ => Ok tt
  end.
Definition validate_answers (questions : list QuestionSpec) (answers : list QuestionAnswer) : result unit :=
  if length answers =? length questions then validate_from 0 questions answers
  else Err (lit "expected " ++ nat_str (length questions) ++ lit " answers, got " ++ nat_str (length answers)).

Definition format_one (count i : nat) (q : QuestionSpec) (a : QuestionAnswer) : str :=
  (if 1 <? count then lit "### Question " ++ nat_str (i + 1) ++ [cLF] else []) ++
  lit "Question: " ++ prompt q ++ [cLF] ++
  lit "Answer: " ++ summary a ++
  (if auto_picked a then lit "  (auto-picked; approval_mode=auto " ++ [8212]%N ++ lit " not a user choice)" else []) ++
  [cLF] ++ (if i + 1 <? count then [cLF] else []).
Definition format_question_result (questions : list QuestionSpec) (answers : list QuestionAnswer) : str :=
  let out := mjoin (imap (λ i qa, format_one (length questions) i qa.1 qa.2) (zip questions answers)) in
  if out is [] then lit "No answers." else out.

(** ** Arguments of the call *)

Section parse.
Context {Value : Type} `{!Json Value}.

Definition val_as_array (v : Value) : option (list Value) := match json_view v with JArray vs => Some vs | _ => None end.
Definition get_str (v : Value) (key : string) : option str := json_get v (lit key) ≫= val_as_str.
Arguments get_str _ _%_string.
Definition get_bool (v : Value) (key : string) : bool := default false (json_get v (lit key) ≫= val_as_bool).
Arguments get_bool _ _%_string.
Definition get_array (v : Value) (key : string) : option (list Value) := json_get v (lit key) ≫= val_as_array.
Arguments get_array _ _%_string.
(** [.map(str::trim).filter(|s| !s.is_empty())]. *)
Definition trimmed (s : option str) : option str := s ← s; if trim s == [] then None else Some (trim s).

Definition push_string_option (out : list QuestionOption) (raw : str) : list QuestionOption :=
  let s := trim raw in if s == [] then out else out ++ [mkOption s [] None].
Definition parse_option_object (o : Value) (i : nat) : result QuestionOption :=
  match trimmed (get_str o "label") with
  | None => Err (lit "options[" ++ nat_str i ++ lit "]: missing label")
  | Some label => Ok (mkOption label (trim (default [] (get_str o "description"))) (get_str o "preview"))
  end.
Fixpoint parse_option_values_from (i : nat) (opts : list Value) (out : list QuestionOption) : result (list QuestionOption) :=
  match opts with
  | [] => Ok out
  | o :: opts =>
      match val_as_str o with
      | Some s => parse_option_values_from (S i) opts (push_string_option out s)
      | None => match parse_option_object o i with
                | Ok x => parse_option_values_from (S i) opts (out ++ [x])
                | Err e => Err e
                end
      end
  end.
Definition parse_option_values (opts : list Value) : result (list QuestionOption) := parse_option_values_from 0 opts [].
Definition parse_choice_values (choices : list Value) : result (list QuestionOption) :=
  let out := foldl (λ out c, match val_as_str c with Some s => push_string_option out s | None => out end) [] choices in
  if out is [] then Err (lit "choices must contain at least one non-empty string") else Ok out.
Definition parse_choices_or_options (item : Value) : result (list QuestionOption) :=
  match get_array item "options" with
  | Some opts => parse_option_values opts
  | None => match get_array item "choices" with Some choices => parse_choice_values choices | None => Ok [] end
  end.

(** The prompt of a question and what to say when there is none. *)
Definition parse_question_of (prompt : option str) (missing : str) (item : Value) : result QuestionSpec :=
  match trimmed prompt with
  | None => Err missing
  | Some prompt =>
      match parse_choices_or_options item with
      | Err e => Err e
      | Ok options => Ok (mkQuestion prompt options (get_bool item "multi_select") (get_bool item "important"))
      end
  end.
Definition parse_one_question (item : Value) : result QuestionSpec :=
  let named := match json_get item (lit "question") with Some v => Some v | None => json_get item (lit "prompt") end in
  parse_question_of (named ≫= val_as_str) (lit "missing question text") item.
Fixpoint parse_questions_from (i : nat) (arr : list Value) : result (list QuestionSpec) :=
  match arr with
  | [] => Ok []
  | item :: arr =>
      match parse_one_question item with
      | Err e => Err (lit "questions[" ++ nat_str i ++ lit "]: " ++ e)
      | Ok q => match parse_questions_from (S i) arr with Ok qs => Ok (q :: qs) | Err e => Err e end
      end
  end.
Definition parse_questions_array (arr : list Value) : result (list QuestionSpec) :=
  if length arr =? 0 then Err (lit "questions array must not be empty")
  else if MAX_QUESTIONS <? length arr
  then Err (lit "at most " ++ nat_str MAX_QUESTIONS ++ lit " questions (got " ++ nat_str (length arr) ++ lit ")")
  else parse_questions_from 0 arr.
Definition parse_questions (args : Value) : result (list QuestionSpec) :=
  match get_array args "questions" with
  | Some arr => parse_questions_array arr
  | None =>
      match parse_question_of (get_str args "question") (lit "provide " ++ quoted (lit "questions") ++ lit " or a non-empty " ++ quoted (lit "question") ++ lit " string") args with
      | Ok q => Ok [q]
      | Err e => Err e
      end
  end.
End parse.

(** ** Prompters *)

Inductive QuestionError := Cancelled | Timeout | Invalid (s : str) | Disconnected.
#[global] Instance QuestionError_eq_dec : EqDecision QuestionError.
Proof. solve_decision. Defined.
Definition message (self : QuestionError) : str :=
  match self with
  | Cancelled => lit "User cancelled the questionnaire."
  | Timeout => lit "Timed out waiting for user answers."
  | Invalid s => lit "Invalid questionnaire: " ++ s
  | Disconnected => lit "Questionnaire UI disconnected."
  end.
Abbreviation reply := (list QuestionAnswer + QuestionError)%type.

(** [AutoAnswerPrompter]. *)
Definition auto_answer (q : QuestionSpec) : QuestionAnswer :=
  match options q with
  | opt :: _ => mkAnswer [label opt] None true
  | [] => mkAnswer [] (Some (lit "auto")) true
  end.
Definition auto_answers (questions : list QuestionSpec) : list QuestionAnswer := auto_answer <$> questions.

(** *** Standard input

    The lines still to come; each read may fail, and reads an empty line at the end. *)
Abbreviation input := (list (result str)).
Definition read_line (inp : input) : result str * input :=
  match inp with
  | [] => (Ok [], [])
  | Ok line :: inp => (Ok (trim line), inp)
  | Err e :: inp => (Err e, inp)
  end.

Inductive StdinQuestionParse := SCancelled | SSelected (s : str) | SOther | SFreeText (s : str).
(** [line.parse::<usize>()] as an index into [options] plus one. *)
Definition parse_usize (line : str) : option nat := N.to_nat <$> parse_uint usize_max line.
Definition nth_label (q : QuestionSpec) (n : nat) : option str := label <$> (if n =? 0 then None else options q !! (n - 1)).
Definition parse_stdin_question_line (q : QuestionSpec) (line : str) : StdinQuestionParse :=
  if line is [] then SCancelled
  else if length (options q) =? 0 then SFreeText line
  else match parse_usize line with
       | Some n =>
           match nth_label q n with
           | Some l => SSelected l
           | None => if n =? length (options q) + 1 then SOther else SFreeText line
           end
       | None => SFreeText line
       end.
Definition typed (text : str) : QuestionAnswer := mkAnswer [] (Some text) false.
Definition apply_free_stdin_parse (parsed : StdinQuestionParse) (line : str) : QuestionAnswer + QuestionError :=
  match parsed with
  | SCancelled => inr Cancelled
  | SFreeText text | SSelected text => inl (typed text)
  | SOther => inl (typed line)
  end.
Definition apply_choice_stdin_parse (parsed : StdinQuestionParse) (other_text : option str) : QuestionAnswer + QuestionError :=
  match parsed with
  | SCancelled => inr Cancelled
  | SSelected label => inl (mkAnswer [label] None false)
  | SOther => let t := trim (default [] other_text) in inl (mkAnswer [] (if t is [] then None else Some t) false)
  | SFreeText text => inl (typed text)
  end.
Definition ask_one (q : QuestionSpec) (inp : input) : (QuestionAnswer + QuestionError) * input :=
  let '(line, inp) := read_line inp in
  match line with
  | Err e => (inr (Invalid e), inp)
  | Ok line =>
      let parsed := parse_stdin_question_line q line in
      if length (options q) =? 0 then (apply_free_stdin_parse parsed line, inp)
      else if parsed is SOther then
        let '(other, inp) := read_line inp in
        (apply_choice_stdin_parse parsed (Some (match other with Ok t => t | Err _ => [] end)), inp)
      else (apply_choice_stdin_parse parsed None, inp)
  end.
Fixpoint ask_stdin_questions (questions : list QuestionSpec) (inp : input) : reply * input :=
  match questions with
  | [] => (inl [], inp)
  | q :: questions =>
      let '(a, inp) := ask_one q inp in
      match a with
      | inr e => (inr e, inp)
      | inl a => let '(r, inp) := ask_stdin_questions questions inp in
                 (match r with inl answers => inl (a :: answers) | inr e => inr e end, inp)
      end
  end.

(** *** The tool's own reading of standard input *)

Definition other_stdin_answer (inp : input) : QuestionAnswer * input :=
  let '(t, inp) := read_line inp in
  (mkAnswer [] (match t with Ok ((_ :: _) as t) => Some t | _ => None end) false, inp).
Definition numbered_stdin_answer (q : QuestionSpec) (line : str) (other_n : nat) (inp : input) : option QuestionAnswer * input :=
  match parse_usize line with
  | Some n =>
      match nth_label q n with
      | Some l => (Some (mkAnswer [l] None false), inp)
      | None => if n =? other_n then let '(a, inp) := other_stdin_answer inp in (Some a, inp) else (None, inp)
      end
  | None => (None, inp)
  end.
Definition apply_multi_number (st : list str * option str) (q : QuestionSpec) (other_n n : nat) : list str * option str :=
  match nth_label q n with
  | Some l => (st.1 ++ [l], st.2)
  | None => if n =? other_n then (st.1, Some []) else st
  end.
Definition multi_part (q : QuestionSpec) (other_n : nat) (st : list str * option str) (part : str) : list str * option str :=
  let part := trim part in
  if part is [] then st
  else match parse_usize part with
       | Some n => apply_multi_number st q other_n n
       | None => (st.1, Some part)
       end.
Definition is_separator (c : rchar) : bool := (c == 44%N) || (c == 32%N).
Definition resolve_stdin_answer (q : QuestionSpec) (line : str) (other_n : nat) (inp : input) : QuestionAnswer * input :=
  if multi_select q then
    let '(sel, free) := foldl (multi_part q other_n) ([], None) (split_on is_separator line) in
    let other_requested := match free with Some [] => true | _ => false end in
    let '(free, inp) :=
      if other_requested then
        let '(t, inp) := read_line inp in (match t with Ok ((_ :: _) as t) => Some t | _ => None end, inp)
      else (free, inp) in
    let free := if bool_decide (sel = []) && bool_decide (free = None) && negb other_requested then Some line else free in
    (mkAnswer sel free false, inp)
  else
    let '(a, inp) := numbered_stdin_answer q line other_n inp in
    match a with
    | Some a => (a, inp)
    | None =>
        match List.find (λ l, eq_ignore_ascii_case l line) (label <$> options q) with
        | Some l => (mkAnswer [l] None false, inp)
        | None => (typed line, inp)
        end
    end.
Definition EMPTY_INPUT : str := lit "No answer received (empty input).".
Fixpoint stdin_questionnaire (questions : list QuestionSpec) (inp : input) : result (list QuestionAnswer) * input :=
  match questions with
  | [] => (Ok [], inp)
  | q :: questions =>
      let '(line, inp) := read_line inp in
      match line with
      | Err e => (Err e, inp)
      | Ok [] => (Err EMPTY_INPUT, inp)
      | Ok line =>
          let '(a, inp) := if length (options q) =? 0 then (typed line, inp)
                           else resolve_stdin_answer q line (length (options q) + 1) inp in
          let '(r, inp) := stdin_questionnaire questions inp in
          (match r with Ok answers => Ok (a :: answers) | Err e => Err e end, inp)
      end
  end.

(** ** The tool *)

Section tool.
Context {Value : Type} `{!Json Value}.

(** [run_question_tool], with the prompter's answer to the questions. *)
Definition run_question_tool (ask : list QuestionSpec → reply) (arguments : Value) (tool_call_id : str) : ToolResult :=
  match parse_questions arguments with
  | Err e => mkResult tool_call_id (message (Invalid e)) true
  | Ok questions =>
      match ask questions with
      | inl answers =>
          match validate_answers questions answers with
          | Ok _ => mkResult tool_call_id (format_question_result questions answers) false
          | Err e => mkResult tool_call_id (message (Invalid e)) true
          end
      | inr e => mkResult tool_call_id (message e) true
      end
  end.
(** [QuestionTool::execute], when the agent does not intercept the call. *)
Definition execute_question (args : Value) (inp : input) : ToolResult * input :=
  match parse_questions args with
  | Err e => (mkResult [] (lit "Invalid question arguments: " ++ e) true, inp)
  | Ok questions =>
      let '(r, inp) := stdin_questionnaire questions inp in
      (match r with
       | Ok answers => mkResult [] (format_question_result questions answers) false
       | Err e => mkResult [] e true
       end, inp)
  end.
End tool.

(** [permission_line_allows], the same prompt for a permission. *)
Definition permission_line_allows (line : str) : bool :=
  is_one_of (to_ascii_lowercase (trim line)) ["y"; "yes"; "a"; "allow"]%string.
Definition permission_from_read (read : result str) : bool :=
  match read with Ok line => permission_line_allows line | Err _ => false end.

(** A line that names no number is an answer in words, but of several words only the
    last is kept in a question that takes several answers. *)
Example multi_words_lost :
  let q := mkQuestion (lit "Which?") [mkOption (lit "tests") [] None; mkOption (lit "docs") [] None] true false in
  resolve_stdin_answer q (lit "only the parser tests") 3 [] = (typed (lit "tests"), []) ∧
  resolve_stdin_answer q (lit "2, and tests") 3 [] = (mkAnswer [lit "docs"] (Some (lit "tests")) false, []).
Proof. split; vm_compute; reflexivity. Qed.

(** ** What fits a question *)

(** The answer has a text that is not blank. *)
Definition has_words (a : QuestionAnswer) : Prop := ∃ t, free_text a = Some t ∧ trim t ≠ [].
Definition fits (q : QuestionSpec) (a : QuestionAnswer) : Prop :=
  Forall (λ sel, sel ∈ label <$> options q) (selected a) ∧
  (multi_select q = false → length (selected a) ≤ 1) ∧
  (options q = [] → has_words a) ∧
  (selected a = [] → has_words a).
(** What is wrong with an answer that does not fit, and how it is said. *)
Inductive misfit (q : QuestionSpec) (a : QuestionAnswer) : str → Prop :=
| misfit_unknown before sel after : selected a = before ++ sel :: after → Forall (λ s, s ∈ label <$> options q) before →
    sel ∉ label <$> options q → misfit q a (lit "unknown option `" ++ sel ++ lit "` (not in this question)")
| misfit_none_of_many : multi_select q = true → selected a = [] → ¬ has_words a →
    misfit q a (lit "select at least one option or Other text")
| misfit_many_of_one : multi_select q = false → 1 < length (selected a) →
    misfit q a (lit "single-select question got multiple labels")
| misfit_no_text : multi_select q = false → options q = [] → ¬ has_words a → misfit q a (lit "free-form question requires text")
| misfit_nothing : multi_select q = false → options q ≠ [] → selected a = [] → ¬ has_words a →
    misfit q a (lit "empty selection (pick an option or provide Other text)").
(** Too few or too many answers, or the first that does not fit. *)
Inductive unfit (qs : list QuestionSpec) (ans : list QuestionAnswer) : str → Prop :=
| unfit_number : length ans ≠ length qs →
    unfit qs ans (lit "expected " ++ nat_str (length qs) ++ lit " answers, got " ++ nat_str (length ans))
| unfit_answer i q a e : length ans = length qs → Forall2 fits (take i qs) (take i ans) → qs !! i = Some q → ans !! i = Some a →
    misfit q a e → unfit qs ans (lit "answers[" ++ nat_str i ++ lit "]: " ++ e).

Lemma no_text_words a : no_text a = false ↔ has_words a.
Proof.
  unfold no_text, has_words, blank. destruct (free_text a) as [t|]; [|split; [done|by intros (? & ? & _)]].
  rewrite bool_decide_eq_false. split; [by exists t|by intros (? & [= <-] & ?)].
Qed.
Lemma no_text_wordless a : no_text a = true ↔ ¬ has_words a.
Proof. rewrite <- no_text_words. by destruct (no_text a). Qed.
Lemma unknown_label_None q a : unknown_label q a = None ↔ Forall (λ sel, sel ∈ label <$> options q) (selected a).
Proof.
  unfold unknown_label. induction (selected a) as [|s ss IH]; cbn [List.find]; [split; [constructor|done]|].
  destruct (existsb (λ l, l == s) (label <$> options q)) eqn:E; cbn [negb].
  - apply existsb_true_iff in E as (l & Hl & E). apply bool_decide_eq_true in E as ->. rewrite IH, Forall_cons. tauto.
  - split; [done|]. intros Hf. inversion_clear Hf as [|? ? Hs _]. rewrite existsb_false_iff in E.
    specialize (E s Hs). by rewrite bool_decide_eq_true_2 in E.
Qed.
Lemma unknown_label_Some q a sel : unknown_label q a = Some sel →
  ∃ before after, selected a = before ++ sel :: after ∧ Forall (λ s, s ∈ label <$> options q) before ∧ sel ∉ label <$> options q.
Proof.
  unfold unknown_label. induction (selected a) as [|s ss IH]; cbn [List.find]; [done|].
  destruct (existsb (λ l, l == s) (label <$> options q)) eqn:E; cbn [negb].
  - apply existsb_true_iff in E as (l & Hl & E). apply bool_decide_eq_true in E as ->.
    intros (before & after & -> & Hb & Hs)%IH. exists (s :: before), after. split_and!; [done|by constructor|done].
  - intros [= ->]. exists [], ss. split_and!; [done|constructor|]. intros Hin. rewrite existsb_false_iff in E.
    specialize (E sel Hin). by rewrite bool_decide_eq_true_2 in E.
Qed.
Lemma validate_one_judges i q a :
  match validate_one i q a with
  | Ok _ => fits q a
  | Err e => ¬ fits q a ∧ ∃ e', misfit q a e' ∧ e = lit "answers[" ++ nat_str i ++ lit "]: " ++ e'
  end.
Proof.
  unfold validate_one, fits. destruct (unknown_label q a) as [sel|] eqn:Eu.
  { apply unknown_label_Some in Eu as (before & after & E & Hb & Hs). split.
    - rewrite E. by intros ([_ [? _]%Forall_cons]%Forall_app & _).
    - eexists. split; [by eapply misfit_unknown|]. unfold quoted. by rewrite <- !app_assoc. }
  apply unknown_label_None in Eu as Hk.
  assert (options q = [] → selected a = []) as Hnil.
  { intros E. rewrite E in Hk. destruct (selected a) as [|x l]; [done|]. apply Forall_cons in Hk as [[]%elem_of_nil _]. }
  assert (Hlen : length (options q) = 0 ↔ options q = []) by (destruct (options q); naive_solver).
  unfold too_many_single_select, answer_error. pose proof (no_text_wordless a) as Hnw. pose proof (no_text_words a) as Hw.
  destruct (multi_select q) eqn:Em, (no_text a) eqn:En; cbn [negb andb];
    destruct (Nat.ltb_spec 1 (length (selected a))); cbn [negb andb];
    repeat (case_bool_decide; cbn [negb andb]);
    first [split_and!; [done|lia|naive_solver|naive_solver]
          |split; [naive_solver lia|eexists; split; [|done]];
           first [by apply misfit_none_of_many; naive_solver|by apply misfit_many_of_one|by apply misfit_no_text; naive_solver|by apply misfit_nothing; naive_solver]].
Qed.
Lemma validate_one_spec i q a : validate_one i q a = Ok tt ↔ fits q a.
Proof. pose proof (validate_one_judges i q a) as H. destruct (validate_one i q a) as [[]|e]; [done|]. split; [done|]. by intros Hf; destruct H. Qed.
Lemma validate_from_judges i qs ans : length ans = length qs →
  match validate_from i qs ans with
  | Ok _ => Forall2 fits qs ans
  | Err e => ¬ Forall2 fits qs ans ∧ ∃ j q a e', Forall2 fits (take j qs) (take j ans) ∧ qs !! j = Some q ∧ ans !! j = Some a ∧
               misfit q a e' ∧ e = lit "answers[" ++ nat_str (i + j) ++ lit "]: " ++ e'
  end.
Proof.
  revert i ans. induction qs as [|q qs IH]; intros i [|a ans] Hl; try done; cbn [validate_from]; [constructor|].
  injection Hl as Hl. pose proof (validate_one_judges i q a) as H1. destruct (validate_one i q a) as [u|e].
  - specialize (IH (S i) ans Hl). destruct (validate_from (S i) qs ans) as [|e]; [by constructor|].
    destruct IH as (Hn & j & q' & a' & e' & Hf & Hq & Ha & Hm & ->). split; [by intros [_ ?]%Forall2_cons|].
    exists (S j), q', a', e'. split_and!; [by constructor|done..|]. by rewrite Nat.add_succ_r.
  - destruct H1 as (Hn & e' & Hm & ->). split; [by intros [? _]%Forall2_cons|]. exists 0, q, a, e'. rewrite Nat.add_0_r. by split_and!.
Qed.
Lemma validate_answers_judges qs ans :
  match validate_answers qs ans with Ok _ => Forall2 fits qs ans | Err e => ¬ Forall2 fits qs ans ∧ unfit qs ans e end.
Proof.
  unfold validate_answers. destruct (Nat.eqb_spec (length ans) (length qs)) as [E|E].
  - pose proof (validate_from_judges 0 qs ans E) as H. destruct (validate_from 0 qs ans) as [|e]; [done|].
    destruct H as (Hn & j & q & a & e' & Hf & Hq & Ha & Hm & ->). split; [done|]. by eapply unfit_answer.
  - split; [|by constructor]. intros Hf%Forall2_length. lia.
Qed.
Lemma validate_answers_spec qs ans : validate_answers qs ans = Ok tt ↔ Forall2 fits qs ans.
Proof.
  pose proof (validate_answers_judges qs ans) as H. destruct (validate_answers qs ans) as [[]|e]; [done|]. split; [done|]. by intros Hf; destruct H.
Qed.
Lemma auto_answer_fits q : fits q (auto_answer q).
Proof.
  unfold fits, auto_answer. rewrite <- no_text_words. destruct (options q) as [|o os]; cbn.
  - split_and!; [constructor|lia|by intros _|by intros _].
  - split_and!; [repeat constructor|lia|done|done].
Qed.
(** The prompter that answers by itself always gives answers that fit. *)
Lemma auto_answers_valid qs : validate_answers qs (auto_answers qs) = Ok tt.
Proof. apply validate_answers_spec, Forall2_fmap_r, Forall_Forall2_diag, Forall_true. intros q. apply auto_answer_fits. Qed.

(** ** What the arguments ask *)

Section parse_facts.
Context {Value : Type} `{!Json Value}.
Implicit Types (item v : Value).

(** A text without the blanks around it, and not blank. *)
Definition worded (s : option str) (t : str) : Prop := ∃ raw, s = Some raw ∧ t = trim raw ∧ t ≠ [].
(** An entry of [options]: a text, a blank one being left out, or an object with a
    label. *)
Inductive option_read v : option QuestionOption → Prop :=
| read_blank s : val_as_str v = Some s → trim s = [] → option_read v None
| read_label s : val_as_str v = Some s → trim s ≠ [] → option_read v (Some (mkOption (trim s) [] None))
| read_object l : val_as_str v = None → worded (get_str v "label"%string) l →
    option_read v (Some (mkOption l (trim (default [] (get_str v "description"%string))) (get_str v "preview"%string))).
(** The texts among the [choices] that are not blank. *)
Definition words (cs : list Value) : list str := List.filter (λ t : str, negb (t == [])) (trim <$> omap val_as_str cs).
Definition choice (t : str) : QuestionOption := mkOption t [] None.
Inductive options_read item : list QuestionOption → Prop :=
| from_options os xs : get_array item "options"%string = Some os → Forall2 option_read os xs → options_read item (omap id xs)
| from_choices cs : get_array item "options"%string = None → get_array item "choices"%string = Some cs → words cs ≠ [] →
    options_read item (choice <$> words cs)
| free_form : get_array item "options"%string = None → get_array item "choices"%string = None → options_read item [].
Inductive options_bad item : str → Prop :=
| no_label before o after : get_array item "options"%string = Some (before ++ o :: after) → Forall (λ v, ∃ x, option_read v x) before →
    val_as_str o = None → (∀ l, ¬ worded (get_str o "label"%string) l) →
    options_bad item (lit "options[" ++ nat_str (length before) ++ lit "]: missing label")
| no_choice cs : get_array item "options"%string = None → get_array item "choices"%string = Some cs → words cs = [] →
    options_bad item (lit "choices must contain at least one non-empty string").
(** A question with its text from [prompt]; [missing] is said when it has none. *)
Inductive question_read (prompt : option str) item : QuestionSpec → Prop :=
| question_of t os : worded prompt t → options_read item os →
    question_read prompt item (mkQuestion t os (get_bool item "multi_select"%string) (get_bool item "important"%string)).
Inductive question_bad (prompt : option str) (missing : str) item : str → Prop :=
| no_words : (∀ t, ¬ worded prompt t) → question_bad prompt missing item missing
| bad_options t e : worded prompt t → options_bad item e → question_bad prompt missing item e.
Definition item_prompt item : option str :=
  match json_get item (lit "question") with Some v => val_as_str v | None => get_str item "prompt"%string end.
(** One to eight questions, or one by itself. *)
Inductive asks (args : Value) : list QuestionSpec → Prop :=
| asks_array arr qs : get_array args "questions"%string = Some arr → 1 ≤ length arr ≤ 8 →
    Forall2 (λ x q, question_read (item_prompt x) x q) arr qs → asks args qs
| asks_one q : get_array args "questions"%string = None → question_read (get_str args "question"%string) args q → asks args [q].
Inductive refused (args : Value) : str → Prop :=
| refused_empty : get_array args "questions"%string = Some [] → refused args (lit "questions array must not be empty")
| refused_many arr : get_array args "questions"%string = Some arr → 8 < length arr →
    refused args (lit "at most 8 questions (got " ++ nat_str (length arr) ++ lit ")")
| refused_item before x after e : get_array args "questions"%string = Some (before ++ x :: after) → length (before ++ x :: after) ≤ 8 →
    Forall (λ x, ∃ q, question_read (item_prompt x) x q) before → question_bad (item_prompt x) (lit "missing question text") x e →
    refused args (lit "questions[" ++ nat_str (length before) ++ lit "]: " ++ e)
| refused_one e : get_array args "questions"%string = None →
    question_bad (get_str args "question"%string) (lit "provide `questions` or a non-empty `question` string") args e → refused args e.

Lemma trimmed_worded s : match trimmed s with Some t => worded s t | None => ∀ t, ¬ worded s t end.
Proof.
  unfold trimmed, worded. destruct s as [s|]; cbn [mbind option_bind]; [|by intros t (? & ? & _)].
  case_bool_decide as E; [|by exists s]. intros t (raw & [= <-] & -> & ?). done.
Qed.
Lemma worded_trimmed s t : worded s t → trimmed s = Some t.
Proof. intros (raw & -> & -> & Hn). unfold trimmed. cbn [mbind option_bind]. by rewrite bool_decide_eq_false_2. Qed.

(** *** Options *)

Lemma option_values_judge i opts out :
  match parse_option_values_from i opts out with
  | Ok r => ∃ xs, Forall2 option_read opts xs ∧ r = out ++ omap id xs
  | Err e => ∃ before o after, opts = before ++ o :: after ∧ Forall (λ v, ∃ x, option_read v x) before ∧ val_as_str o = None ∧
      (∀ l, ¬ worded (get_str o "label"%string) l) ∧ e = lit "options[" ++ nat_str (i + length before) ++ lit "]: missing label"
  end.
Proof.
  revert i out. induction opts as [|o opts IH]; intros i out; cbn [parse_option_values_from].
  { exists []. split; [constructor|]. cbn. by rewrite app_nil_r. }
  assert (∀ y out', option_read o y → out' = out ++ omap id [y] →
    match parse_option_values_from (S i) opts out' with
    | Ok r => ∃ xs, Forall2 option_read (o :: opts) xs ∧ r = out ++ omap id xs
    | Err e => ∃ before o' after, o :: opts = before ++ o' :: after ∧ Forall (λ v, ∃ x, option_read v x) before ∧ val_as_str o' = None ∧
        (∀ l, ¬ worded (get_str o' "label"%string) l) ∧ e = lit "options[" ++ nat_str (i + length before) ++ lit "]: missing label"
    end) as Hgo.
  { intros y out' Hy ->. specialize (IH (S i) (out ++ omap id [y])). destruct (parse_option_values_from _ _ _) as [r|e].
    - destruct IH as (xs & Hf & ->). exists (y :: xs). split; [by constructor|]. rewrite <- app_assoc. f_equal. by destruct y.
    - destruct IH as (before & o' & after & -> & Hb & Ho & Hl & ->). exists (o :: before), o', after.
      split_and!; [done|constructor; [by exists y|done]|done..|]. cbn [length]. by rewrite Nat.add_succ_r. }
  destruct (val_as_str o) as [s|] eqn:Es.
  - unfold push_string_option. case_bool_decide as E.
    + apply (Hgo None); [by eapply read_blank|]. by rewrite app_nil_r.
    + by apply (Hgo (Some (mkOption (trim s) [] None))); [apply read_label|].
  - unfold parse_option_object. pose proof (trimmed_worded (get_str o "label"%string)) as Hl. destruct (trimmed _) as [l|].
    + by apply (Hgo (Some (mkOption l (trim (default [] (get_str o "description"%string))) (get_str o "preview"%string)))); [apply read_object|].
    + exists [], o, opts. rewrite Nat.add_0_r. split_and!; [done|constructor|done..].
Qed.
Lemma choice_values_judge cs : parse_choice_values cs =
  if words cs is [] then Err (lit "choices must contain at least one non-empty string") else Ok (choice <$> words cs).
Proof.
  unfold parse_choice_values.
  assert (∀ out, foldl (λ out c, match val_as_str c with Some s => push_string_option out s | None => out end) out cs
    = out ++ (choice <$> words cs)) as Hf.
  { unfold words. induction cs as [|c cs IH]; intros out; [by rewrite app_nil_r|]. cbn [foldl]. rewrite IH. cbn.
    destruct (val_as_str c) as [s|]; [|done]. unfold push_string_option. cbn. case_bool_decide as E; cbn; [done|by rewrite <- app_assoc]. }
  rewrite Hf. cbn [app]. by destruct (words cs).
Qed.
Lemma options_judge item :
  match parse_choices_or_options item with Ok os => options_read item os | Err e => options_bad item e end.
Proof.
  unfold parse_choices_or_options. destruct (get_array item "options"%string) as [os|] eqn:Eo.
  - unfold parse_option_values. pose proof (option_values_judge 0 os []) as H. destruct (parse_option_values_from 0 os []) as [r|e].
    + destruct H as (xs & Hf & ->). by eapply from_options.
    + destruct H as (before & o & after & -> & Hb & Ho & Hl & ->). by eapply no_label.
  - destruct (get_array item "choices"%string) as [cs|] eqn:Ec; [|by apply free_form]. rewrite choice_values_judge.
    destruct (words cs) eqn:Ew; [by eapply no_choice|]. rewrite <- Ew. apply from_choices; [done..|congruence].
Qed.
Lemma option_read_value i o x opts out : option_read o x →
  parse_option_values_from i (o :: opts) out = parse_option_values_from (S i) opts (out ++ omap id [x]).
Proof.
  cbn [parse_option_values_from]. intros [s Es Et|s Es Et|l Es Hl]; rewrite Es; unfold push_string_option, parse_option_object.
  - rewrite bool_decide_eq_true_2 by done. by rewrite app_nil_r.
  - by rewrite bool_decide_eq_false_2.
  - by rewrite (worded_trimmed _ _ Hl).
Qed.
Lemma options_read_value item os : options_read item os → parse_choices_or_options item = Ok os.
Proof.
  unfold parse_choices_or_options. intros [os' xs E1 Hf|cs E1 E2 Hw|E1 E2]; rewrite E1; [|rewrite E2, choice_values_judge; by destruct (words cs)|by rewrite E2].
  unfold parse_option_values. enough (∀ i out, parse_option_values_from i os' out = Ok (out ++ omap id xs)) as H by apply H.
  clear E1. induction Hf as [|o x os' xs Ho _ IH]; intros i out; [cbn; by rewrite app_nil_r|].
  rewrite (option_read_value i o x) by done. rewrite IH, <- app_assoc. do 2 f_equal. by destruct x.
Qed.

(** *** Questions *)

Lemma question_judge prompt missing item :
  match parse_question_of prompt missing item with Ok q => question_read prompt item q | Err e => question_bad prompt missing item e end.
Proof.
  unfold parse_question_of. pose proof (trimmed_worded prompt) as Hp. destruct (trimmed prompt) as [t|]; [|by apply no_words].
  pose proof (options_judge item) as Ho. destruct (parse_choices_or_options item); [by constructor|by eapply bad_options].
Qed.
Lemma question_read_value prompt missing item q : question_read prompt item q → parse_question_of prompt missing item = Ok q.
Proof.
  intros [t os Ht Ho]. unfold parse_question_of. by rewrite (worded_trimmed _ _ Ht), (options_read_value _ _ Ho).
Qed.
Lemma parse_one_question_prompt item : parse_one_question item = parse_question_of (item_prompt item) (lit "missing question text") item.
Proof. unfold parse_one_question, item_prompt. by destruct (json_get item (lit "question")). Qed.
Lemma questions_judge i arr :
  match parse_questions_from i arr with
  | Ok qs => Forall2 (λ x q, question_read (item_prompt x) x q) arr qs
  | Err e => ∃ before x after e', arr = before ++ x :: after ∧ Forall (λ x, ∃ q, question_read (item_prompt x) x q) before ∧
      question_bad (item_prompt x) (lit "missing question text") x e' ∧ e = lit "questions[" ++ nat_str (i + length before) ++ lit "]: " ++ e'
  end.
Proof.
  revert i. induction arr as [|x arr IH]; intros i; cbn [parse_questions_from]; [constructor|]. rewrite parse_one_question_prompt.
  pose proof (question_judge (item_prompt x) (lit "missing question text") x) as Hx. destruct (parse_question_of _ _ x) as [q|e].
  - specialize (IH (S i)). destruct (parse_questions_from (S i) arr) as [qs|e]; [by constructor|].
    destruct IH as (before & y & after & e' & -> & Hb & Hy & ->). exists (x :: before), y, after, e'.
    split_and!; [done|constructor; [by exists q|done]|done|]. cbn [length]. by rewrite Nat.add_succ_r.
  - exists [], x, arr, e. rewrite Nat.add_0_r. by split_and!.
Qed.
Lemma questions_read_value i arr qs : Forall2 (λ x q, question_read (item_prompt x) x q) arr qs → parse_questions_from i arr = Ok qs.
Proof.
  intros H. revert i. induction H as [|x q arr qs Hx _ IH]; intros i; [done|]. cbn [parse_questions_from].
  by rewrite parse_one_question_prompt, (question_read_value _ _ _ q Hx), IH.
Qed.
Lemma parse_questions_judge args : match parse_questions args with Ok qs => asks args qs | Err e => refused args e end.
Proof.
  unfold parse_questions. destruct (get_array args "questions"%string) as [arr|] eqn:Ea.
  - unfold parse_questions_array. destruct (Nat.eqb_spec (length arr) 0) as [E|E].
    { apply nil_length_inv in E as ->. by apply refused_empty. }
    destruct (Nat.ltb_spec MAX_QUESTIONS (length arr)) as [Hm|Hm]; [by apply refused_many|].
    pose proof (questions_judge 0 arr) as H. destruct (parse_questions_from 0 arr) as [qs|e].
    + eapply asks_array; [done| |done]. unfold MAX_QUESTIONS in Hm. lia.
    + destruct H as (before & x & after & e' & -> & Hb & Hx & ->). by eapply refused_item.
  - pose proof (question_judge (get_str args "question"%string)
      (lit "provide " ++ quoted (lit "questions") ++ lit " or a non-empty " ++ quoted (lit "question") ++ lit " string") args) as H.
    destruct (parse_question_of _ _ args) as [q|e]; [by apply asks_one|by apply refused_one].
Qed.
Lemma asks_value args qs : asks args qs → parse_questions args = Ok qs.
Proof.
  unfold parse_questions. intros [arr qs' Ea Hl Hf|q Ea Hq]; rewrite Ea; [|by rewrite (question_read_value _ _ _ q Hq)].
  unfold parse_questions_array, MAX_QUESTIONS. rewrite (proj2 (Nat.eqb_neq _ _)), (proj2 (Nat.ltb_ge _ _)) by lia.
  by apply questions_read_value.
Qed.

(** C31: a call of the [question] tool succeeds exactly when its arguments ask one to
    eight questions, each with a text that is not blank and options that can be read, the
    prompter answered, and each answer fits its question (options that were offered, one
    of them unless several may be chosen, never nothing). Every other way ends in an
    error that says what is wrong: the first question or option that cannot be read and
    its place, what ended the prompter, or the first answer that does not fit, its place
    and why. *)
Theorem question_tool_succeeds (ask : list QuestionSpec → reply) (args : Value) (id : str) :
  let r := run_question_tool ask args id in
  let invalid e := mkResult id (lit "Invalid questionnaire: " ++ e) true in
  (is_error r = false ↔ ∃ qs ans, asks args qs ∧ ask qs = inl ans ∧ Forall2 fits qs ans) ∧
  ((∃ e, refused args e ∧ r = invalid e) ∨
   ∃ qs, asks args qs ∧
     match ask qs with
     | inl ans => (Forall2 fits qs ans ∧ r = mkResult id (format_question_result qs ans) false) ∨ ∃ e, unfit qs ans e ∧ r = invalid e
     | inr Cancelled => r = mkResult id (lit "User cancelled the questionnaire.") true
     | inr Timeout => r = mkResult id (lit "Timed out waiting for user answers.") true
     | inr Disconnected => r = mkResult id (lit "Questionnaire UI disconnected.") true
     | inr (Invalid e) => r = invalid e
     end).
Proof.
  cbv zeta. unfold run_question_tool. pose proof (parse_questions_judge args) as Hp. pose proof (asks_value args) as Hv.
  destruct (parse_questions args) as [qs|e].
  2: { split; [split; [done|]; by intros (qs & ? & H%Hv & _)|]. left. by exists e. }
  assert (∀ qs', asks args qs' → qs' = qs) as Hu by (intros qs' H%Hv; by injection H).
  destruct (ask qs) as [ans|e] eqn:Ea.
  - pose proof (validate_answers_judges qs ans) as Hj. destruct (validate_answers qs ans) as [|e].
    + split; [split; [by exists qs, ans|done]|]. right. exists qs. rewrite Ea. split; [done|by left].
    + destruct Hj as [Hn Hj]. split.
      * split; [done|]. intros (qs' & ans' & ->%Hu & Ea' & Hf). rewrite Ea in Ea'. by injection Ea' as <-.
      * right. exists qs. rewrite Ea. split; [done|]. right. by exists e.
  - split; [split; [done|]; intros (qs' & ans & ->%Hu & Ea' & _); congruence|]. right. exists qs. rewrite Ea. split; [done|]. by destruct e.
Qed.
End parse_facts.
