(* ===== verification/Board.v ===== *)
(** Boards of waiting requests, what the two halves of the hub of
    [server/src/perm.rs] have in common: a map from requests to what waits there, with
    the [oneshot] channels on which asking tasks await their answers, and the invariant
    of a board and its history under any interleaving. *)

From S2P Require Import Prelude RustStr.

(** ** Boards

    Each entry holds the sending half of a [oneshot] channel whose receiving half an
    asking task holds. Tasks and their channels are numbered. *)

(** A [oneshot] channel: nothing sent, a value waiting, or one half dropped. *)
Inductive chan (V : Type) := Empty | Full (v : V) | SenderGone | ReceiverGone.
Arguments Empty {_}.
Arguments Full {_} _.
Arguments SenderGone {_}.
Arguments ReceiverGone {_}.

(** An asking task: awaiting the channel; its time found up, the receiver not dropped
    yet; timed out and about to remove its request; cancelled by its caller; or
    returned. *)
Inductive phase (V : Type) := Waiting | Expiring | Expired | Abandoned | Returned (v : V).
Arguments Waiting {_}.
Arguments Expiring {_}.
Arguments Expired {_}.
Arguments Abandoned {_}.
Arguments Returned {_} _.

Abbreviation request := (str * str)%type.

Record Board (P V : Type) := mkBoard {
  pending : gmap request (P * nat);
  channels : gmap nat (chan V);
  tasks : gmap nat (request * phase V);
  (** senders taken out of [pending], with what will be sent *)
  sending : gmap nat V }.
Arguments mkBoard {_ _} _ _ _ _.
Arguments pending {_ _} _.
Arguments channels {_ _} _.
Arguments tasks {_ _} _.
Arguments sending {_ _} _.

Section board.
Context {P V : Type}.
Implicit Types (b : Board P V) (k : request) (a : nat).

Definition new_board : Board P V := mkBoard ∅ ∅ ∅ ∅.

(** [reply.send(v)]: the channel afterwards and whether the value was taken. *)
Definition send_on (c : chan V) (v : V) : chan V * bool :=
  match c with Empty => (Full v, true) | c => (c, false) end.
(** Dropping a sender, or a receiver. *)
Definition drop_sender (c : chan V) : chan V := match c with Empty => SenderGone | c => c end.

(** [let (tx, rx) = channel(); map.insert(k, ...)]: an entry already there is dropped,
    its sender with it. *)
Definition open_request (b : Board P V) (a : nat) (k : request) (p : P) : Board P V :=
  let channels := match pending b !! k with
                  | Some (_, old) => alter drop_sender old (channels b)
                  | None => channels b
                  end in
  mkBoard (<[k := (p, a)]> (pending b)) (<[a := Empty]> channels) (<[a := (k, Waiting)]> (tasks b)) (sending b).
(** [map.remove(k)], keeping the sender for a value to come. *)
Definition take_request (b : Board P V) (k : request) (v : V) : Board P V :=
  match pending b !! k with
  | Some (_, a) => mkBoard (delete k (pending b)) (channels b) (tasks b) (<[a := v]> (sending b))
  | None => b
  end.
Definition send_reply (b : Board P V) (a : nat) : Board P V * bool :=
  match sending b !! a, channels b !! a with
  | Some v, Some c => let '(c, ok) := send_on c v in
      (mkBoard (pending b) (<[a := c]> (channels b)) (tasks b) (delete a (sending b)), ok)
  | _, _ => (b, false)
  end.
Definition set_phase (b : Board P V) (a : nat) (k : request) (ph : phase V) : Board P V :=
  mkBoard (pending b) (channels b) (<[a := (k, ph)]> (tasks b)) (sending b).
Definition drop_receiver (b : Board P V) (a : nat) : Board P V :=
  mkBoard (pending b) (<[a := ReceiverGone]> (channels b)) (tasks b) (sending b).
(** [map.remove(k)] of a request that timed out: the sender is dropped with the entry. *)
Definition forget_request (b : Board P V) (k : request) : Board P V :=
  mkBoard (delete k (pending b))
    (match pending b !! k with Some (_, a) => alter drop_sender a (channels b) | None => channels b end) (tasks b) (sending b).
End board.

(** ** Steps of a board *)

Inductive blabel (P V : Type) :=
| BOpen (a : nat) (k : request) (p : P)
| BTake (a : nat) (k : request) (p : P) (v : V)
| BSend (a : nat) (v : V) (ok : bool)
| BReturn (a : nat) (v : V)
| BTimeout (a : nat)
| BQuiet (a : nat).
Arguments BOpen {_ _} _ _ _.
Arguments BTake {_ _} _ _ _ _.
Arguments BSend {_ _} _ _ _.
Arguments BReturn {_ _} _ _.
Arguments BTimeout {_ _} _.
Arguments BQuiet {_ _} _.

Section steps.
Context {P V : Type} (dropped timed_out : V) (timeout : bool).
Implicit Types (b : Board P V) (t : list (blabel P V)).

(** What an asking task does after it opened its request. [timeout(d, rx)] polls the
    receiver, then the delay, and drops the receiver only when it returns: what is sent
    in between is taken by the channel and lost with it. *)
Inductive task_step b : blabel P V → Board P V → Prop :=
| task_wake a k v : tasks b !! a = Some (k, Waiting) → channels b !! a = Some (Full v) →
    task_step b (BReturn a v) (set_phase b a k (Returned v))
| task_lost a k : tasks b !! a = Some (k, Waiting) → channels b !! a = Some SenderGone →
    task_step b (BReturn a dropped) (set_phase b a k (Returned dropped))
| task_expire a k : timeout = true → tasks b !! a = Some (k, Waiting) → channels b !! a = Some Empty →
    task_step b (BTimeout a) (set_phase b a k Expiring)
| task_drop a k : tasks b !! a = Some (k, Expiring) →
    task_step b (BQuiet a) (set_phase (drop_receiver b a) a k Expired)
| task_abandon a k : tasks b !! a = Some (k, Waiting) →
    task_step b (BQuiet a) (set_phase (drop_receiver b a) a k Abandoned)
| task_remove a k : tasks b !! a = Some (k, Expired) →
    task_step b (BReturn a timed_out) (set_phase (forget_request b k) a k (Returned timed_out)).
Inductive bstep b : blabel P V → Board P V → Prop :=
| step_open a k p : tasks b !! a = None → bstep b (BOpen a k p) (open_request b a k p)
| step_take a k p v : pending b !! k = Some (p, a) → bstep b (BTake a k p v) (take_request b k v)
| step_send a v : sending b !! a = Some v → bstep b (BSend a v (send_reply b a).2) (send_reply b a).1
| step_task l b' : task_step b l b' → bstep b l b'.
Inductive bsteps : Board P V → list (blabel P V) → Board P V → Prop :=
| bsteps_nil b : bsteps b [] b
| bsteps_cons b l b1 ls b2 : bstep b l b1 → bsteps b1 ls b2 → bsteps b (l :: ls) b2.

(** *** The invariant of a board and its history *)

(** The sender of [a] is still to be used. *)
Definition unused (b : Board P V) (a : nat) : Prop := ∃ k ph, tasks b !! a = Some (k, ph) ∧
  (((ph = Waiting ∨ ph = Expiring) ∧ channels b !! a = Some Empty) ∨ ((ph = Abandoned ∨ ph = Expired ∨ ph = Returned timed_out) ∧ channels b !! a = Some ReceiverGone)).
(** Where a task stands, from its history [t]. *)
Definition listening (t : list (blabel P V)) (b : Board P V) (a : nat) (k : request) : Prop :=
  channels b !! a = Some Empty ∨ channels b !! a = Some SenderGone ∨
    ∃ v p, channels b !! a = Some (Full v) ∧ BTake a k p v ∈ t.
Definition task_ok (t : list (blabel P V)) (b : Board P V) (a : nat) (k : request) (ph : phase V) : Prop :=
  match ph with
  | Waiting => listening t b a k
  | Expiring => listening t b a k ∧ BTimeout a ∈ t
  | Expired => channels b !! a = Some ReceiverGone ∧ BTimeout a ∈ t
  | Abandoned => channels b !! a = Some ReceiverGone
  | Returned v => v = dropped ∨ v = timed_out ∨ ∃ p, BTake a k p v ∈ t
  end.
(** What became of a value [v] that the channel of [a] took: it waits there, or is
    returned; or the asking task was cancelled, or found its time up meanwhile. *)
Definition kept (t : list (blabel P V)) (b : Board P V) (a : nat) (v : V) (ph : phase V) : Prop :=
  match ph with
  | Waiting => channels b !! a = Some (Full v)
  | Expiring => channels b !! a = Some (Full v) ∧ BTimeout a ∈ t
  | Expired => BTimeout a ∈ t
  | Abandoned => True
  | Returned v' => v' = v ∨ (v' = timed_out ∧ BTimeout a ∈ t)
  end.
Record board_ok (t : list (blabel P V)) (b : Board P V) : Prop := {
  ok_task : ∀ a k ph, tasks b !! a = Some (k, ph) → (∃ p, BOpen a k p ∈ t) ∧ task_ok t b a k ph;
  ok_open : ∀ a k p, BOpen a k p ∈ t → (∃ ph, tasks b !! a = Some (k, ph)) ∧ ∀ k' p', BOpen a k' p' ∈ t → k' = k ∧ p' = p;
  ok_pending : ∀ k p a, pending b !! k = Some (p, a) → BOpen a k p ∈ t ∧ unused b a ∧ sending b !! a = None;
  ok_sending : ∀ a v, sending b !! a = Some v → unused b a ∧ ∃ k p, BTake a k p v ∈ t;
  ok_take : ∀ a k p v, BTake a k p v ∈ t → BOpen a k p ∈ t ∧ (∀ k' p', pending b !! k' ≠ Some (p', a)) ∧ ∀ k' p' v', BTake a k' p' v' ∈ t → v' = v;
  ok_return : ∀ a v, BReturn a v ∈ t → ∃ k, tasks b !! a = Some (k, Returned v);
  ok_sent : ∀ a v, BSend a v true ∈ t → sending b !! a = None ∧ (∀ k p, pending b !! k ≠ Some (p, a)) ∧
    ∃ k ph, tasks b !! a = Some (k, ph) ∧ kept t b a v ph }.

Lemma new_board_ok : board_ok [] new_board.
Proof. split; cbn; intros *; rewrite ?lookup_empty; try done; by intros ?%elem_of_nil. Qed.
End steps.

Section board_facts.
Context {P V : Type} (dropped timed_out : V) (timeout : bool).
Implicit Types (b : Board P V) (t : list (blabel P V)).
Notation board_ok := (board_ok dropped timed_out).
Notation task_ok := (task_ok dropped timed_out).
Notation unused := (unused timed_out).
Notation kept := (kept timed_out).

Lemma elem_of_snoc {A} (x y : A) l : x ∈ l ++ [y] ↔ x ∈ l ∨ x = y.
Proof. by rewrite elem_of_app, list_elem_of_singleton. Qed.
Lemma in_snoc {A} (x y : A) l : x ∈ l → x ∈ l ++ [y].
Proof. intros H. rewrite elem_of_snoc. by left. Qed.
Lemma task_ok_mono t t' b a k ph : task_ok t b a k ph → (∀ l, l ∈ t → l ∈ t') → task_ok t' b a k ph.
Proof. destruct ph; cbn; unfold listening; naive_solver. Qed.
Lemma kept_ext t t' b b' a v ph : channels b' !! a = channels b !! a → (∀ l, l ∈ t → l ∈ t') → kept t b a v ph → kept t' b' a v ph.
Proof. intros E. destruct ph; cbn; rewrite ?E; naive_solver. Qed.
(** What [task_ok] and [unused] read of a board. *)
Lemma task_ok_ext t b b' a k ph : channels b' !! a = channels b !! a → task_ok t b a k ph → task_ok t b' a k ph.
Proof. intros E. destruct ph; cbn; unfold listening; by rewrite ?E. Qed.
Lemma unused_ext b b' a : channels b' !! a = channels b !! a → tasks b' !! a = tasks b !! a → unused b a → unused b' a.
Proof. intros Ec Et (k & ph & H1 & H2). exists k, ph. by rewrite Ec, Et. Qed.

Lemma pending_inj t b k k' p p' a : board_ok t b → pending b !! k = Some (p, a) → pending b !! k' = Some (p', a) → k' = k ∧ p' = p.
Proof.
  intros Hb H1 H2. apply (ok_pending _ _ _ _ Hb) in H1 as [H1 _]. apply (ok_pending _ _ _ _ Hb) in H2 as [H2 _].
  by apply (ok_open _ _ _ _ Hb a k p H1).
Qed.

(** Dropping the sender of the request at [k], if there is one. *)
Definition drop_at b k : gmap nat (chan V) :=
  match pending b !! k with Some (_, a) => alter drop_sender a (channels b) | None => channels b end.
Lemma drop_at_other b k a : (∀ p, pending b !! k ≠ Some (p, a)) → drop_at b k !! a = channels b !! a.
Proof.
  intros Hn. unfold drop_at. destruct (pending b !! k) as [[p a']|] eqn:E; [|done].
  rewrite lookup_alter_ne; [done|]. intros ->. by apply (Hn p).
Qed.
Lemma drop_at_task t b k a k' ph : board_ok t b → tasks b !! a = Some (k', ph) → task_ok t b a k' ph →
  task_ok t (mkBoard (pending b) (drop_at b k) (tasks b) (sending b)) a k' ph.
Proof.
  intros Hb Ht Hok. destruct (pending b !! k) as [[p a']|] eqn:E.
  - destruct (decide (a' = a)) as [->|Hne].
    + apply (ok_pending _ _ _ _ Hb) in E as E'. destruct E' as (_ & (k2 & ph2 & Ht2 & Hu) & _).
      rewrite Ht in Ht2. injection Ht2 as <- <-.
      assert (Hc : drop_at b k !! a = drop_sender <$> (channels b !! a)) by (unfold drop_at; rewrite E; apply lookup_alter_eq).
      destruct Hu as [[Hph Hc']|[Hph Hc']].
      * destruct Hph as [-> | ->]; cbn in *; unfold listening in *; cbn; rewrite Hc, Hc'; cbn; naive_solver.
      * destruct ph; cbn in *; rewrite ?Hc, ?Hc'; cbn; naive_solver.
    + eapply task_ok_ext; [|exact Hok]. cbn. apply drop_at_other. intros p'. rewrite E. congruence.
  - eapply task_ok_ext; [|exact Hok]. cbn. unfold drop_at. by rewrite E.
Qed.

Lemma fresh_task t b a : board_ok t b → tasks b !! a = None →
  (∀ k p, pending b !! k ≠ Some (p, a)) ∧ sending b !! a = None ∧
  (∀ k p, BOpen a k p ∉ t) ∧ (∀ k p v, BTake a k p v ∉ t) ∧ (∀ v, BReturn a v ∉ t) ∧ (∀ v, BSend a v true ∉ t).
Proof.
  intros Hb Hn. assert (Hu : ¬ unused b a) by (intros (? & ? & ? & _); congruence).
  assert (Ho : ∀ k p, BOpen a k p ∉ t) by (intros k p [[? ?] _]%(ok_open _ _ _ _ Hb); congruence).
  split_and!; try done.
  - intros k p [_ [? _]]%(ok_pending _ _ _ _ Hb). done.
  - destruct (sending b !! a) as [v|] eqn:E; [|done]. by apply (ok_sending _ _ _ _ Hb) in E as [? _].
  - intros k p v [? _]%(ok_take _ _ _ _ Hb). by eapply Ho.
  - intros v [? ?]%(ok_return _ _ _ _ Hb). congruence.
  - intros v (_ & _ & k & ph & ? & _)%(ok_sent _ _ _ _ Hb); congruence.
Qed.

Lemma open_ok t b a k p : board_ok t b → tasks b !! a = None → board_ok (t ++ [BOpen a k p]) (open_request b a k p).
Proof.
  intros Hb Hn. destruct (fresh_task t b a Hb Hn) as (Fp & Fs & Fo & Ft & Fr & Fd).
  assert (Hne : ∀ a' x, tasks b !! a' = Some x → a' ≠ a) by (intros a' x Hx ->; congruence).
  unfold open_request. fold (drop_at b k). split; cbn.
  - intros a' k' ph Ht. destruct (decide (a' = a)) as [->|Hd].
    + rewrite lookup_insert_eq in Ht. injection Ht as <- <-. split; [exists p; rewrite elem_of_snoc; auto|].
      left. by apply lookup_insert_eq.
    + rewrite lookup_insert_ne in Ht by done. destruct (ok_task _ _ _ _ Hb _ _ _ Ht) as [[p' Hp] Hok].
      split; [exists p'; rewrite elem_of_snoc; auto|]. eapply task_ok_mono; [|intros l Hl; rewrite elem_of_snoc; by left].
      eapply task_ok_ext; [|by apply (drop_at_task t b k a')]. cbn. by rewrite lookup_insert_ne.
  - intros a' k' p' [Hin|[= -> -> ->]]%elem_of_snoc.
    + destruct (ok_open _ _ _ _ Hb _ _ _ Hin) as [[ph Ht] Hu]. rewrite lookup_insert_ne by (symmetry; by eapply Hne).
      split; [by exists ph|]. intros k2 p2 [H2|[= -> -> ->]]%elem_of_snoc; [by apply Hu|]. congruence.
    + rewrite lookup_insert_eq. split; [by eexists|]. intros k2 p2 [H2|[= <- <-]]%elem_of_snoc; [by apply Fo in H2|done].
  - intros k' p' a' Hp. destruct (decide (k' = k)) as [->|Hk].
    + rewrite lookup_insert_eq in Hp. injection Hp as <- <-. split_and!; [rewrite elem_of_snoc; auto| |done].
      exists k, Waiting. cbn. rewrite !lookup_insert_eq. naive_solver.
    + rewrite lookup_insert_ne in Hp by done. destruct (ok_pending _ _ _ _ Hb _ _ _ Hp) as (Ho & Hu & Hs).
      split_and!; [rewrite elem_of_snoc; auto| |done].
      assert (a' ≠ a) by (intros ->; by apply (Fp k' p')).
      eapply unused_ext; [..|exact Hu]; cbn; rewrite lookup_insert_ne by done; [|done].
      apply drop_at_other. intros p2 E2. apply Hk. by apply (pending_inj t b k k' p2 p' a').
  - intros a' v Hs. destruct (ok_sending _ _ _ _ Hb _ _ Hs) as [Hu (k2 & p2 & Hin)].
    assert (a' ≠ a) by (intros ->; congruence). split; [|exists k2, p2; rewrite elem_of_snoc; auto].
    eapply unused_ext; [..|exact Hu]; cbn; rewrite lookup_insert_ne by done; [|done].
    apply drop_at_other. intros p3 (_ & _ & E3)%(ok_pending _ _ _ _ Hb). congruence.
  - intros a' k' p' v [Hin|?]%elem_of_snoc; [|done]. destruct (ok_take _ _ _ _ Hb _ _ _ _ Hin) as (Ho & Hp & Hu).
    assert (a' ≠ a) by (intros ->; by eapply Ft). split_and!; [rewrite elem_of_snoc; auto| |].
    + intros k2 p2. destruct (decide (k2 = k)) as [->|]; [rewrite lookup_insert_eq; congruence|by rewrite lookup_insert_ne].
    + intros k2 p2 v2 [H2|?]%elem_of_snoc; [by eapply Hu|done].
  - intros a' v [Hin|?]%elem_of_snoc; [|done]. destruct (ok_return _ _ _ _ Hb _ _ Hin) as [k2 Ht]. exists k2.
    rewrite lookup_insert_ne; [done|]. symmetry. by eapply Hne.
  - intros a' v [Hin|?]%elem_of_snoc; [|done]. destruct (ok_sent _ _ _ _ Hb _ _ Hin) as (Hs & Hp & k2 & ph2 & Ht2 & Hk).
    assert (a' ≠ a) by (intros ->; by eapply Fd). split_and!; [done| |].
    + intros k3 p3. destruct (decide (k3 = k)) as [->|]; [rewrite lookup_insert_eq; congruence|by rewrite lookup_insert_ne].
    + exists k2, ph2. rewrite lookup_insert_ne by done. split; [done|]. eapply kept_ext; [|intros ?; apply in_snoc|exact Hk].
      cbn. rewrite lookup_insert_ne by done. apply drop_at_other. intros p3. apply Hp.
Qed.

(** A history that only says more about what already holds. *)
Lemma ok_task_mono t t' b a k ph : (∀ l, l ∈ t → l ∈ t') → (∃ p, BOpen a k p ∈ t) ∧ task_ok t b a k ph → (∃ p, BOpen a k p ∈ t') ∧ task_ok t' b a k ph.
Proof. intros Hs [[p Hp] Hok]. split; [exists p; by apply Hs|by eapply task_ok_mono]. Qed.

Lemma take_ok t b k p a v : board_ok t b → pending b !! k = Some (p, a) → board_ok (t ++ [BTake a k p v]) (take_request b k v).
Proof.
  intros Hb Hk. destruct (ok_pending _ _ _ _ Hb _ _ _ Hk) as (Ho & Hu & Hs).
  assert (Ft : ∀ k p v, BTake a k p v ∉ t) by (intros k2 p2 v2 (_ & Hp & _)%(ok_take _ _ _ _ Hb); by eapply Hp).
  assert (Fd : ∀ v, BSend a v true ∉ t) by (intros v2 (_ & Hp & _)%(ok_sent _ _ _ _ Hb); by eapply Hp).
  assert (Hpend : ∀ k' p' a', delete k (pending b) !! k' = Some (p', a') → pending b !! k' = Some (p', a') ∧ a' ≠ a).
  { intros k' p' a' [Hne Hp]%lookup_delete_Some. split; [done|]. intros ->.
    destruct (pending_inj t b k k' p p' a Hb Hk Hp) as [-> _]. done. }
  unfold take_request. rewrite Hk. split; cbn.
  - intros a' k' ph Ht. eapply ok_task_mono; [intros l; apply in_snoc|]. by apply (ok_task _ _ _ _ Hb).
  - intros a' k' p' [Hin|?]%elem_of_snoc; [|done]. destruct (ok_open _ _ _ _ Hb _ _ _ Hin) as [Ht Hq]. split; [done|].
    intros k2 p2 [H2|?]%elem_of_snoc; [by apply Hq|done].
  - intros k' p' a' [Hp Hne]%Hpend. destruct (ok_pending _ _ _ _ Hb _ _ _ Hp) as (Ho' & Hu' & Hs').
    split_and!; [by apply in_snoc|done|by rewrite lookup_insert_ne].
  - intros a' v' Hs'. destruct (decide (a' = a)) as [->|Hne].
    + rewrite lookup_insert_eq in Hs'. injection Hs' as <-. split; [done|]. exists k, p. rewrite elem_of_snoc. by right.
    + rewrite lookup_insert_ne in Hs' by done. destruct (ok_sending _ _ _ _ Hb _ _ Hs') as [Hu' (k2 & p2 & ?)].
      split; [done|]. exists k2, p2. by apply in_snoc.
  - intros a' k' p' v' [Hin|[= -> -> -> ->]]%elem_of_snoc.
    + destruct (ok_take _ _ _ _ Hb _ _ _ _ Hin) as (Ho' & Hp & Hq). split_and!; [by apply in_snoc| |].
      * intros k2 p2 [E _]%Hpend. by eapply Hp.
      * intros k2 p2 v2 [H2|[= -> -> -> ->]]%elem_of_snoc; [by eapply Hq|]. by apply Ft in Hin.
    + split_and!; [by apply in_snoc|by intros k2 p2 [_ ?]%Hpend|].
      intros k2 p2 v2 [H2|[= -> -> ->]]%elem_of_snoc; [by apply Ft in H2|done].
  - intros a' v' [Hin|?]%elem_of_snoc; [|done]. by apply (ok_return _ _ _ _ Hb).
  - intros a' v' [Hin|?]%elem_of_snoc; [|done]. destruct (ok_sent _ _ _ _ Hb _ _ Hin) as (Hs' & Hp & k3 & ph3 & Ht3 & Hr).
    assert (a' ≠ a) by (intros ->; by eapply Fd). split_and!; [by rewrite lookup_insert_ne| |].
    + intros k2 p2 [E _]%Hpend. by eapply Hp.
    + exists k3, ph3. split; [done|]. by eapply kept_ext; [|intros ?; apply in_snoc|exact Hr].
Qed.

Lemma send_ok t b a v : board_ok t b → sending b !! a = Some v →
  board_ok (t ++ [BSend a v (send_reply b a).2]) (send_reply b a).1.
Proof.
  intros Hb Hs. destruct (ok_sending _ _ _ _ Hb _ _ Hs) as [(k & ph & Ht & Hc) (k2 & p & Htk)].
  destruct (ok_take _ _ _ _ Hb _ _ _ _ Htk) as (Ho & Hnp & Hq).
  assert (k2 = k) as ->. { destruct (ok_open _ _ _ _ Hb _ _ _ Ho) as [[ph2 Ht2] _]. congruence. }
  assert (Hch : ∃ c, channels b !! a = Some c ∧ (send_reply b a) =
    (mkBoard (pending b) (<[a := (send_on c v).1]> (channels b)) (tasks b) (delete a (sending b)), (send_on c v).2) ∧
    (((ph = Waiting ∨ ph = Expiring) ∧ c = Empty) ∨ (ph ≠ Waiting ∧ ph ≠ Expiring ∧ c = ReceiverGone))).
  { unfold send_reply. rewrite Hs. destruct Hc as [[Hph Hc]|[Hph Hc]]; rewrite Hc; eexists; split; try done; cbn.
    - split; [done|by left].
    - split; [done|]. right. naive_solver. }
  destruct Hch as (c & Ec & -> & Hcc). clear Hc. cbn.
  assert (Hother : ∀ a', a' ≠ a → <[a := (send_on c v).1]> (channels b) !! a' = channels b !! a') by (intros; by rewrite lookup_insert_ne).
  split; cbn.
  - intros a' k' ph' Ht'. eapply ok_task_mono; [intros l; apply in_snoc|]. destruct (ok_task _ _ _ _ Hb _ _ _ Ht') as [Hop Hok].
    split; [done|]. destruct (decide (a' = a)) as [->|Hne]; [|eapply task_ok_ext; [|exact Hok]; by apply Hother].
    rewrite Ht in Ht'. injection Ht' as <- <-.
    assert (Hfull : c = Empty → listening t (mkBoard (pending b) (<[a := (send_on c v).1]> (channels b)) (tasks b) (delete a (sending b))) a k).
    { intros ->. right; right. exists v, p. split; [by apply lookup_insert_eq|done]. }
    destruct Hcc as [[[-> | ->] ->]|(Hph & Hph' & ->)]; cbn; [by apply Hfull|split; [by apply Hfull|apply Hok]|].
    destruct ph; cbn in *; try done; rewrite lookup_insert_eq; naive_solver.
  - intros a' k' p' [Hin|?]%elem_of_snoc; [|done]. destruct (ok_open _ _ _ _ Hb _ _ _ Hin) as [Ht' Hq']. split; [done|].
    intros k3 p3 [H3|?]%elem_of_snoc; [by apply Hq'|done].
  - intros k' p' a' Hp. assert (a' ≠ a) by (intros ->; by eapply Hnp).
    destruct (ok_pending _ _ _ _ Hb _ _ _ Hp) as (Ho' & Hu' & Hs'). split_and!; [by apply in_snoc| |by rewrite lookup_delete_ne].
    eapply unused_ext; [..|exact Hu']; [by apply Hother|done].
  - intros a' v' [Hne Hs']%lookup_delete_Some. destruct (ok_sending _ _ _ _ Hb _ _ Hs') as [Hu' (k3 & p3 & ?)].
    split; [|exists k3, p3; by apply in_snoc]. eapply unused_ext; [..|exact Hu']; [by apply Hother|done].
  - intros a' k' p' v' [Hin|?]%elem_of_snoc; [|done]. destruct (ok_take _ _ _ _ Hb _ _ _ _ Hin) as (Ho' & Hp & Hq').
    split_and!; [by apply in_snoc|done|]. intros k3 p3 v3 [H3|?]%elem_of_snoc; [by eapply Hq'|done].
  - intros a' v' [Hin|?]%elem_of_snoc; [|done]. by apply (ok_return _ _ _ _ Hb).
  - intros a' v' [Hin|Heq]%elem_of_snoc.
    + destruct (ok_sent _ _ _ _ Hb _ _ Hin) as (Hs' & Hp & k3 & ph3 & Ht3 & Hr). assert (a' ≠ a) by congruence.
      split_and!; [by rewrite lookup_delete_ne|done|]. exists k3, ph3. split; [done|]. eapply kept_ext; [|intros ?; apply in_snoc|exact Hr]. by apply Hother.
    + injection Heq as -> -> Eok. split_and!; [by rewrite lookup_delete_eq|done|]. exists k, ph. split; [done|].
      destruct (ok_task _ _ _ _ Hb _ _ _ Ht) as [_ Hok].
      destruct Hcc as [[[-> | ->] ->]|(_ & _ & ->)]; [..|done]; cbn; rewrite lookup_insert_eq; [done|]. split; [done|]. apply in_snoc, Hok.
Qed.

Lemma forget_ok t b k : board_ok t b → board_ok t (forget_request b k).
Proof.
  intros Hb. unfold forget_request. fold (drop_at b k).
  assert (Hs : ∀ a v, sending b !! a = Some v → drop_at b k !! a = channels b !! a).
  { intros a v E. apply drop_at_other. intros p (_ & _ & E')%(ok_pending _ _ _ _ Hb). congruence. }
  split; cbn.
  - intros a k' ph Ht. destruct (ok_task _ _ _ _ Hb _ _ _ Ht) as [Ho Hok]. split; [done|].
    eapply task_ok_ext; [|by apply (drop_at_task t b k a)]. done.
  - apply (ok_open _ _ _ _ Hb).
  - intros k' p' a [Hne Hp]%lookup_delete_Some. destruct (ok_pending _ _ _ _ Hb _ _ _ Hp) as (Ho & Hu & Hs').
    split_and!; [done| |done]. eapply unused_ext; [..|exact Hu]; [|done]. cbn. apply drop_at_other. intros p2 E2.
    apply Hne. symmetry. by apply (pending_inj t b k k' p2 p' a).
  - intros a v E. destruct (ok_sending _ _ _ _ Hb _ _ E) as [Hu Hx]. split; [|done]. eapply unused_ext; [..|exact Hu]; [|done]. by apply (Hs a v).
  - intros a k' p' v Hin. destruct (ok_take _ _ _ _ Hb _ _ _ _ Hin) as (Ho & Hp & Hq). split_and!; [done| |done].
    intros k2 p2 [_ E]%lookup_delete_Some. by eapply Hp.
  - apply (ok_return _ _ _ _ Hb).
  - intros a v Hin. destruct (ok_sent _ _ _ _ Hb _ _ Hin) as (Hs' & Hp & k2 & ph2 & Ht2 & Hr). split_and!; [done| |].
    + intros k3 p3 [_ E]%lookup_delete_Some. by eapply Hp.
    + exists k2, ph2. split; [done|]. eapply kept_ext; [|done|exact Hr]. apply drop_at_other. intros p3. apply Hp.
Qed.

(** A step of a task [a]: only its phase and its own half of the channel change. *)
Lemma phase_ok t b a k ph ph' ch l :
  board_ok t b → tasks b !! a = Some (k, ph) → (∀ v, ph ≠ Returned v) →
  (∀ a', a' ≠ a → ch !! a' = channels b !! a') →
  (l = BQuiet a ∨ l = BTimeout a ∨ ∃ v, l = BReturn a v ∧ ph' = Returned v) →
  let b' := mkBoard (pending b) ch (<[a := (k, ph')]> (tasks b)) (sending b) in
  task_ok (t ++ [l]) b' a k ph' → (unused b a → unused b' a) → (∀ v, kept t b a v ph → kept (t ++ [l]) b' a v ph') →
  board_ok (t ++ [l]) b'.
Proof.
  intros Hb Ht Hnr Hch Hl b' Hok' Hu' Hsent.
  assert (Hx : ∀ l', l' ∈ t ++ [l] → l' ∈ t ∨ (l' = BQuiet a ∨ l' = BTimeout a) ∨ ∃ v, l' = BReturn a v ∧ ph' = Returned v).
  { intros l' [?| ->]%elem_of_snoc; [by left|right]. naive_solver. }
  assert (Huo : ∀ a', unused b a' → unused b' a').
  { intros a' Hu. destruct (decide (a' = a)) as [->|Hne]; [by apply Hu'|]. eapply unused_ext; [..|exact Hu]; cbn; [by apply Hch|by rewrite lookup_insert_ne]. }
  split; cbn.
  - intros a' k' ph2 Ht'. destruct (decide (a' = a)) as [->|Hne].
    + rewrite lookup_insert_eq in Ht'. injection Ht' as <- <-. split; [|done].
      destruct (ok_task _ _ _ _ Hb _ _ _ Ht) as [[p Hp] _]. exists p. by apply in_snoc.
    + rewrite lookup_insert_ne in Ht' by done. eapply ok_task_mono; [intros l'; apply in_snoc|]. destruct (ok_task _ _ _ _ Hb _ _ _ Ht') as [Ho Hok]. split; [done|].
      eapply task_ok_ext; [|exact Hok]. by apply Hch.
  - intros a' k' p' [Hin|[[?|?]|(? & ? & _)]]%Hx; [|done..]. destruct (ok_open _ _ _ _ Hb _ _ _ Hin) as [[ph2 Ht2] Hq]. split.
    + destruct (decide (a' = a)) as [->|Hne]; [|rewrite lookup_insert_ne by done; by exists ph2].
      rewrite lookup_insert_eq. rewrite Ht in Ht2. injection Ht2 as -> _. by eexists.
    + intros k2 p2 [H2|[[?|?]|(? & ? & _)]]%Hx; [by apply Hq|done..].
  - intros k' p' a' Hp. destruct (ok_pending _ _ _ _ Hb _ _ _ Hp) as (Ho & Hu & Hs). split_and!; [by apply in_snoc|by apply Huo|done].
  - intros a' v Hs. destruct (ok_sending _ _ _ _ Hb _ _ Hs) as [Hu (k2 & p2 & ?)]. split; [by apply Huo|]. exists k2, p2. by apply in_snoc.
  - intros a' k' p' v [Hin|[[?|?]|(? & ? & _)]]%Hx; [|done..]. destruct (ok_take _ _ _ _ Hb _ _ _ _ Hin) as (Ho & Hp & Hq).
    split_and!; [by apply in_snoc|done|]. intros k2 p2 v2 [H2|[[?|?]|(? & ? & _)]]%Hx; [by eapply Hq|done..].
  - intros a' v [Hin|[[?|?]|(v' & E & ->)]]%Hx; [|done..|].
    + destruct (ok_return _ _ _ _ Hb _ _ Hin) as [k2 Ht2]. assert (a' ≠ a) by (intros ->; rewrite Ht in Ht2; injection Ht2 as _ E; by apply (Hnr v)).
      exists k2. by rewrite lookup_insert_ne.
    + injection E as -> ->. exists k. by rewrite lookup_insert_eq.
  - intros a' v [Hin|[[?|?]|(? & ? & _)]]%Hx; [|done..]. destruct (ok_sent _ _ _ _ Hb _ _ Hin) as (Hs & Hp & k2 & ph2 & Ht2 & Hr).
    split_and!; [done|done|]. exists k2. destruct (decide (a' = a)) as [->|Hne].
    + rewrite lookup_insert_eq. rewrite Ht in Ht2. injection Ht2 as <- <-. eauto.
    + exists ph2. rewrite lookup_insert_ne by done. split; [done|]. eapply kept_ext; [|intros ?; apply in_snoc|exact Hr]. by apply Hch.
Qed.

Lemma task_step_ok t b l b' : board_ok t b → task_step dropped timed_out timeout b l b' → board_ok (t ++ [l]) b'.
Proof.
  intros Hb Hst.
  destruct Hst as [a k v Ht Hc|a k Ht Hc|a k _ Ht Hc|a k Ht|a k Ht|a k Ht]; destruct (ok_task _ _ _ _ Hb _ _ _ Ht) as [_ Hok]; cbn in Hok.
  - apply (phase_ok t b a k Waiting (Returned v) (channels b) _ Hb Ht); [done|done|right; right; by exists v| | |cbn; naive_solver].
    + unfold listening in Hok. rewrite Hc in Hok. cbn. destruct Hok as [?|[?|(? & p & [= <-] & ?)]]; [done..|]. right; right. exists p. by apply in_snoc.
    + intros (k2 & ph2 & Ht2 & Hu). exfalso. rewrite Ht in Ht2. injection Ht2 as <- <-. naive_solver.
  - apply (phase_ok t b a k Waiting (Returned dropped) (channels b) _ Hb Ht); [done|done|right; right; by exists dropped|by left| |cbn; naive_solver].
    intros (k2 & ph2 & Ht2 & Hu). exfalso. rewrite Ht in Ht2. injection Ht2 as <- <-. naive_solver.
  - apply (phase_ok t b a k Waiting Expiring (channels b) _ Hb Ht); [done|done|auto| | |cbn; rewrite Hc; naive_solver].
    + split; [by left|]. rewrite elem_of_snoc. by right.
    + intros _. exists k, Expiring. cbn. rewrite lookup_insert_eq. naive_solver.
  - destruct Hok as [_ Hto].
    apply (phase_ok t b a k Expiring Expired (<[a := ReceiverGone]> (channels b)) _ Hb Ht); [done|by intros a' ?; rewrite lookup_insert_ne|by left| | |].
    + cbn. rewrite lookup_insert_eq. split; [done|by apply in_snoc].
    + intros _. exists k, Expired. cbn. rewrite !lookup_insert_eq. naive_solver.
    + cbn. intros v _. by apply in_snoc.
  - apply (phase_ok t b a k Waiting Abandoned (<[a := ReceiverGone]> (channels b)) _ Hb Ht); [done|by intros a' ?; rewrite lookup_insert_ne|by left|cbn; by rewrite lookup_insert_eq| |done].
    intros _. exists k, Abandoned. cbn. rewrite !lookup_insert_eq. naive_solver.
  - apply (forget_ok t b k) in Hb as Hf. destruct Hok as [_ Hto].
    apply (phase_ok t (forget_request b k) a k Expired (Returned timed_out) (channels (forget_request b k)) _ Hf Ht); [done|done|right; right; by exists timed_out|right; by left| |].
    + intros (k2 & ph2 & Ht2 & Hu). exists k, (Returned timed_out). cbn. rewrite lookup_insert_eq. split; [done|]. right.
      cbn in Ht2. rewrite Ht in Ht2. injection Ht2 as <- <-. naive_solver.
    + cbn. intros v _. right. split; [done|]. by apply in_snoc.
Qed.
Lemma bstep_ok t b l b' : board_ok t b → bstep dropped timed_out timeout b l b' → board_ok (t ++ [l]) b'.
Proof. intros Hb Hst. destruct Hst; [by apply open_ok|by apply take_ok|by apply send_ok|by eapply task_step_ok]. Qed.
Lemma bsteps_ok t b ls b' : board_ok t b → bsteps dropped timed_out timeout b ls b' → board_ok (t ++ ls) b'.
Proof.
  intros Hb Hst. revert t Hb. induction Hst as [b|b l b1 ls b2 Hl _ IH]; intros t Hb; [by rewrite app_nil_r|].
  change (l :: ls) with ([l] ++ ls). rewrite app_assoc. apply IH. by eapply bstep_ok.
Qed.

(** A task that waits, or whose time is up, can return by steps of its own. *)
Lemma task_returns t b a k ph : timeout = true → board_ok t b → tasks b !! a = Some (k, ph) →
  ph = Waiting ∨ ph = Expiring ∨ ph = Expired →
  ∃ v ls b', bsteps dropped timed_out timeout b ls b' ∧ BReturn a v ∈ ls ∧ length ls ≤ 3.
Proof.
  intros Hto Hb Ht Hph.
  assert (Hrem : ∀ b, tasks b !! a = Some (k, Expired) → bsteps dropped timed_out timeout b [BReturn a timed_out] (set_phase (forget_request b k) a k (Returned timed_out))).
  { intros b1 Ht1. econstructor; [apply step_task; by apply task_remove|constructor]. }
  assert (Hdrop : ∀ b, tasks b !! a = Some (k, Expiring) → ∃ b', bsteps dropped timed_out timeout b [BQuiet a; BReturn a timed_out] b').
  { intros b1 Ht1. eexists. econstructor; [apply step_task; by apply (task_drop _ _ _ _ a k)|]. apply Hrem. cbn. by rewrite lookup_insert_eq. }
  destruct Hph as [->|[->| ->]];
    [|destruct (Hdrop b Ht) as [b' ?]; exists timed_out, [BQuiet a; BReturn a timed_out], b'; split; [done|split; [right; by left|cbn; lia]]
     |exists timed_out, [BReturn a timed_out]; eexists; split; [by apply Hrem|split; [by left|cbn; lia]]].
  destruct (ok_task _ _ _ _ Hb _ _ _ Ht) as [_ [Hc|[Hc|(v & p & Hc & _)]]].
  - destruct (Hdrop (set_phase b a k Expiring)) as [b' Hb']; [cbn; by rewrite lookup_insert_eq|].
    exists timed_out, [BTimeout a; BQuiet a; BReturn a timed_out], b'. split; [|split; [right; right; by left|cbn; lia]].
    econstructor; [apply step_task; by apply (task_expire _ _ _ _ a k)|done].
  - exists dropped, [BReturn a dropped]. eexists. split; [econstructor; [apply step_task; by apply (task_lost _ _ _ _ a k)|constructor]|].
    split; [by left|cbn; lia].
  - exists v, [BReturn a v]. eexists. split; [econstructor; [apply step_task; by apply (task_wake _ _ _ _ a k v)|constructor]|].
    split; [by left|cbn; lia].
Qed.
End board_facts.
