(* ===== verification/PermHub.v ===== *)
(** Asks of a serving agent ([server/src/perm.rs]): permissions and questions that wait
    in the hub for a client's decision, under timeouts and the end of their run.

    A call of the hub is a sequence of steps, one per lock it takes or channel it
    uses; the steps of all calls interleave in any order. *)

From S2P Require Import Prelude RustStr ToolPolicy Questions Board.

(** ** The hub *)

Inductive PermissionDecision := Deny | Allow | AllowAlways.
#[global] Instance PermissionDecision_eq_dec : EqDecision PermissionDecision.
Proof. solve_decision. Defined.
Record RunScope := mkScope { session_id : str; auto_approve : bool }.

Inductive TurnEvent :=
| PermissionAsk (request_id tool_name detail : str)
| QuestionAsk (request_id : str) (questions : list QuestionSpec).

(** An answer as the wire carries it. *)
Record QuestionAnswerWire := mkWire { wire_selected : list str; wire_free_text : option str }.

Definition u64_modulus : N := 18446744073709551616.
Record PermHub := mkHub {
  seq : N;
  perms : Board str bool;
  questions : Board (list QuestionSpec) reply;
  allow_always : gmap str (gset str);
  events : gset str;
  (** ghost: tasks so far, permissions a call has granted but not yet remembered
      (session, tool, task), and what the sinks received *)
  next_task : nat;
  remembering : list (str * str * nat);
  emitted : list (str * TurnEvent) }.
Definition new_hub : PermHub := mkHub 1 new_board new_board ∅ ∅ 0 [] [].

Definition set_perms (h : PermHub) b : PermHub :=
  mkHub (seq h) b (questions h) (allow_always h) (events h) (next_task h) (remembering h) (emitted h).
Definition set_questions (h : PermHub) b : PermHub :=
  mkHub (seq h) (perms h) b (allow_always h) (events h) (next_task h) (remembering h) (emitted h).
Definition set_always (h : PermHub) m : PermHub :=
  mkHub (seq h) (perms h) (questions h) m (events h) (next_task h) (remembering h) (emitted h).
Definition set_events (h : PermHub) m : PermHub :=
  mkHub (seq h) (perms h) (questions h) (allow_always h) m (next_task h) (remembering h) (emitted h).
Definition set_remembering (h : PermHub) l : PermHub :=
  mkHub (seq h) (perms h) (questions h) (allow_always h) (events h) (next_task h) l (emitted h).

Definition register_run (h : PermHub) (sid : str) : PermHub := set_events h ({[sid]} ∪ events h).
Definition emit (h : PermHub) (sid : str) (ev : TurnEvent) : PermHub :=
  if bool_decide (sid ∈ events h)
  then mkHub (seq h) (perms h) (questions h) (allow_always h) (events h) (next_task h) (remembering h) (emitted h ++ [(sid, ev)])
  else h.
Definition is_always_allowed (h : PermHub) (sid tool : str) : bool :=
  match allow_always h !! sid with Some s => bool_decide (tool ∈ s) | None => false end.
(** [fetch_add]: the number taken, and the hub with the next. *)
Definition next_seq (h : PermHub) : N * PermHub :=
  (seq h, mkHub ((seq h + 1) mod u64_modulus) (perms h) (questions h) (allow_always h) (events h) (S (next_task h)) (remembering h) (emitted h)).

(** *** [ServePrompter::ask]

    Up to its await: the answer if there is one at once. [scope] is [None] outside a run. *)
Definition ask_start (h : PermHub) (scope : option RunScope) (tool_name detail : str) : option bool * PermHub :=
  match scope with
  | None => (Some false, h)
  | Some scope =>
      if auto_approve scope || is_always_allowed h (session_id scope) tool_name then (Some true, h)
      else
        let a := next_task h in
        let '(n, h) := next_seq h in
        let request_id := lit "perm-" ++ digits n in
        let h := set_perms h (open_request (perms h) a (session_id scope, request_id) tool_name) in
        (None, emit h (session_id scope) (PermissionAsk request_id tool_name detail))
  end.
(** [ServeQuestionPrompter::ask], likewise. *)
Definition ask_questions_start (h : PermHub) (scope : option RunScope) (qs : list QuestionSpec) : option reply * PermHub :=
  match scope with
  | None => (Some (inr Disconnected), h)
  | Some scope =>
      if auto_approve scope then (Some (inl (auto_answers qs)), h)
      else
        let a := next_task h in
        let '(n, h) := next_seq h in
        let request_id := lit "q-" ++ digits n in
        let h := set_questions h (open_request (questions h) a (session_id scope, request_id) qs) in
        (None, emit h (session_id scope) (QuestionAsk request_id qs))
  end.

(** *** [decide]: taking the request, remembering the tool, sending *)

Definition unknown_request (what : string) (request_id : str) : str := lit "unknown " ++ lit what ++ lit " request " ++ request_id.
Arguments unknown_request _%_string _.
Definition allows (d : PermissionDecision) : bool := match d with Deny => false | Allow | AllowAlways => true end.
Definition decide_take (h : PermHub) (sid rid : str) (d : PermissionDecision) : result nat * PermHub :=
  match pending (perms h) !! (sid, rid) with
  | None => (Err (unknown_request "permission" rid), h)
  | Some (tool_name, a) =>
      let h := set_perms h (take_request (perms h) (sid, rid) (allows d)) in
      (Ok a, if d is AllowAlways then set_remembering h ((sid, tool_name, a) :: remembering h) else h)
  end.
(** [always.entry(sid).or_default().insert(tool)]. *)
Definition remember (m : gmap str (gset str)) (sid tool : str) : gmap str (gset str) :=
  <[sid := {[tool]} ∪ default ∅ (m !! sid)]> m.
Definition decide_remember (h : PermHub) (e : str * str * nat) : PermHub :=
  set_remembering (set_always h (remember (allow_always h) e.1.1 e.1.2)) (List.filter (λ x, x != e) (remembering h)).
(** The reply of [decide] and of [answer_question] to their client. *)
Definition sent (ok : bool) (late : string) : result unit := if ok then Ok tt else Err (lit late).
Arguments sent _ _%_string.
Definition decide_send (h : PermHub) (a : nat) : result unit * PermHub :=
  let '(b, ok) := send_reply (perms h) a in (sent ok "ask already timed out", set_perms h b).
(** The whole call, when nothing comes between its steps. *)
Definition decide (h : PermHub) (sid rid : str) (d : PermissionDecision) : result unit * PermHub :=
  let '(r, h) := decide_take h sid rid d in
  match r with
  | Err e => (Err e, h)
  | Ok a => decide_send (foldl decide_remember h (List.filter (λ e, e.2 =? a) (remembering h))) a
  end.

(** *** [answer_question] *)

Definition from_wire (w : QuestionAnswerWire) : QuestionAnswer := mkAnswer (wire_selected w) (wire_free_text w) false.
Definition answer_take (h : PermHub) (sid rid : str) (answers : option (list QuestionAnswerWire)) (cancelled : bool) : result nat * PermHub :=
  match pending (questions h) !! (sid, rid) with
  | None => (Err (unknown_request "question" rid), h)
  | Some (qs, a) =>
      if cancelled then (Ok a, set_questions h (take_request (questions h) (sid, rid) (inr Cancelled)))
      else
        let answers := from_wire <$> default [] answers in
        match validate_answers qs answers with
        | Err e => (Err e, h)
        | Ok _ => (Ok a, set_questions h (take_request (questions h) (sid, rid) (inl answers)))
        end
  end.
Definition answer_send (h : PermHub) (a : nat) : result unit * PermHub :=
  let '(b, ok) := send_reply (questions h) a in (sent ok "question already timed out", set_questions h b).
Definition answer_question (h : PermHub) (sid rid : str) (answers : option (list QuestionAnswerWire)) (cancelled : bool) : result unit * PermHub :=
  let '(r, h) := answer_take h sid rid answers cancelled in
  match r with Err e => (Err e, h) | Ok a => answer_send h a end.

(** *** [finish_run]: the requests of a session are taken at once, each to be refused *)

Definition requests_of {P V} (b : Board P V) (sid : str) : list request :=
  List.filter (λ k, k.1 == sid) (map_to_list (pending b)).*1.
Definition take_all {P V} (b : Board P V) (sid : str) (v : V) : Board P V :=
  foldl (λ b k, take_request b k v) b (requests_of b sid).
Definition finish_run_events (h : PermHub) (sid : str) : PermHub := set_events h (events h ∖ {[sid]}).
Definition finish_run_perms (h : PermHub) (sid : str) : PermHub := set_perms h (take_all (perms h) sid false).
Definition finish_run_questions (h : PermHub) (sid : str) : PermHub := set_questions h (take_all (questions h) sid (inr Disconnected)).


(** ** Steps of the hub *)

Inductive event :=
| EAsked (scope : option RunScope) (tool : str) (answer : bool)
| EPerm (l : blabel str bool)
| EDecided (sid rid : str) (d : PermissionDecision) (a : nat)
| EAnswered (scope : option RunScope) (qs : list QuestionSpec) (r : reply)
| EQuestion (l : blabel (list QuestionSpec) reply).

Definition take_labels {P V} (b : Board P V) (sid : str) (v : V) : list (blabel P V) :=
  omap (λ k, '(p, a) ← pending b !! k; Some (BTake a k p v)) (requests_of b sid).
Definition perm_request (h : PermHub) (scope : RunScope) : request := (session_id scope, lit "perm-" ++ digits (seq h)).
Definition question_request (h : PermHub) (scope : RunScope) : request := (session_id scope, lit "q-" ++ digits (seq h)).

Inductive hstep (timeout : bool) (h : PermHub) : list event → PermHub → Prop :=
| h_register sid : hstep timeout h [] (register_run h sid)
| h_finish_events sid : hstep timeout h [] (finish_run_events h sid)
| h_finish_perms sid : hstep timeout h (EPerm <$> take_labels (perms h) sid false) (finish_run_perms h sid)
| h_finish_questions sid :
    hstep timeout h (EQuestion <$> take_labels (questions h) sid (inr Disconnected)) (finish_run_questions h sid)
| h_asked scope tool detail b h' : ask_start h scope tool detail = (Some b, h') → hstep timeout h [EAsked scope tool b] h'
| h_ask scope tool detail h' : ask_start h (Some scope) tool detail = (None, h') →
    hstep timeout h [EPerm (BOpen (next_task h) (perm_request h scope) tool)] h'
| h_answered scope qs r h' : ask_questions_start h scope qs = (Some r, h') → hstep timeout h [EAnswered scope qs r] h'
| h_ask_questions scope qs h' : ask_questions_start h (Some scope) qs = (None, h') →
    hstep timeout h [EQuestion (BOpen (next_task h) (question_request h scope) qs)] h'
| h_unknown sid rid d e h' : decide_take h sid rid d = (Err e, h') → hstep timeout h [] h'
| h_take sid rid d tool a h' : decide_take h sid rid d = (Ok a, h') → pending (perms h) !! (sid, rid) = Some (tool, a) →
    hstep timeout h [EPerm (BTake a (sid, rid) tool (allows d)); EDecided sid rid d a] h'
| h_remember e : e ∈ remembering h → hstep timeout h [] (decide_remember h e)
| h_send a v : sending (perms h) !! a = Some v → a ∉ (remembering h).*2 →
    hstep timeout h [EPerm (BSend a v (send_reply (perms h) a).2)] (decide_send h a).2
| h_refused sid rid answers cancelled e h' : answer_take h sid rid answers cancelled = (Err e, h') → hstep timeout h [] h'
| h_answer sid rid answers cancelled qs a r h' :
    answer_take h sid rid answers cancelled = (Ok a, h') → pending (questions h) !! (sid, rid) = Some (qs, a) →
    sending (questions h') !! a = Some r → hstep timeout h [EQuestion (BTake a (sid, rid) qs r)] h'
| h_send_answer a r : sending (questions h) !! a = Some r →
    hstep timeout h [EQuestion (BSend a r (send_reply (questions h) a).2)] (answer_send h a).2
| h_task l b : task_step false false true (perms h) l b → hstep timeout h [EPerm l] (set_perms h b)
| h_question_task l b : task_step (inr Disconnected) (inr Timeout) timeout (questions h) l b →
    hstep timeout h [EQuestion l] (set_questions h b).

Inductive reach (timeout : bool) : list event → PermHub → Prop :=
| reach_new : reach timeout [] new_hub
| reach_step t h es h' : reach timeout t h → hstep timeout h es h' → reach timeout (t ++ es) h'.

Definition perm_log (t : list event) : list (blabel str bool) := omap (λ e, match e with EPerm l => Some l | _ => None end) t.
Definition question_log (t : list event) : list (blabel (list QuestionSpec) reply) :=
  omap (λ e, match e with EQuestion l => Some l | _ => None end) t.

Lemma perm_log_app t t' : perm_log (t ++ t') = perm_log t ++ perm_log t'.
Proof. apply omap_app. Qed.
Lemma question_log_app t t' : question_log (t ++ t') = question_log t ++ question_log t'.
Proof. apply omap_app. Qed.
Lemma in_perm_log t l : l ∈ perm_log t ↔ EPerm l ∈ t.
Proof. unfold perm_log. rewrite list_elem_of_omap. split; [intros (e & He & E); destruct e; naive_solver|naive_solver]. Qed.
Lemma in_question_log t l : l ∈ question_log t ↔ EQuestion l ∈ t.
Proof. unfold question_log. rewrite list_elem_of_omap. split; [intros (e & He & E); destruct e; naive_solver|naive_solver]. Qed.
Lemma perm_log_perms ls : perm_log (EPerm <$> ls) = ls ∧ question_log (EPerm <$> ls) = [].
Proof. induction ls as [|l ls [H1 H2]]; [done|]. split; [|exact H2]. cbn. f_equal. exact H1. Qed.
Lemma question_log_questions ls : question_log (EQuestion <$> ls) = ls ∧ perm_log (EQuestion <$> ls) = [].
Proof. induction ls as [|l ls [H1 H2]]; [done|]. split; [|exact H2]. cbn. f_equal. exact H1. Qed.

(** *** Taking all requests of a session *)

Section take_all.
Context {P V : Type} (dropped timed_out : V) (timeout : bool).
Implicit Types (b : Board P V).

Lemma take_request_other b k k' v : k' ≠ k → pending (take_request b k v) !! k' = pending b !! k'.
Proof. intros Hk. unfold take_request. destruct (pending b !! k) as [[p a]|]; [|done]. cbn. by rewrite lookup_delete_ne. Qed.
Lemma take_list_steps ks v : NoDup ks → ∀ b, Forall (λ k, is_Some (pending b !! k)) ks →
  bsteps dropped timed_out timeout b (omap (λ k, '(p, a) ← pending b !! k; Some (BTake a k p v)) ks) (foldl (λ b k, take_request b k v) b ks).
Proof.
  induction 1 as [|k ks Hk Hnd IH]; intros b Hf; [constructor|]. inversion_clear Hf as [|? ? [[p a] Hp] Hf'].
  cbn [omap list_omap foldl]. rewrite Hp. cbn [mbind option_bind]. econstructor; [by apply step_take|].
  assert (Hsame : ∀ k', k' ∈ ks → pending (take_request b k v) !! k' = pending b !! k').
  { intros k' Hin. apply take_request_other. intros ->. done. }
  assert (E : omap (λ k, '(p, a) ← pending b !! k; Some (BTake a k p v)) ks =
              omap (λ k', '(p, a) ← pending (take_request b k v) !! k'; Some (BTake a k' p v)) ks).
  { apply list_omap_ext, Forall2_same_length_lookup_2; [done|]. intros i k1 k2 Hx Hy. rewrite Hx in Hy. injection Hy as <-.
    by rewrite Hsame by by eapply list_elem_of_lookup_2. }
  rewrite E. apply IH. apply Forall_forall. intros k' Hin. rewrite Hsame by done. rewrite Forall_forall in Hf'. by apply Hf'.
Qed.
Lemma elem_of_requests b sid k : k ∈ requests_of b sid ↔ k.1 = sid ∧ is_Some (pending b !! k).
Proof.
  unfold requests_of. rewrite list_elem_of_In, List.filter_In, bool_decide_eq_true, <- list_elem_of_In, list_elem_of_fmap.
  split.
  - intros [([k' [p a]] & -> & Hin%elem_of_map_to_list) Hs]. cbn in *. eauto.
  - intros [Hs [[p a] Hp]]. split; [|done]. exists (k, (p, a)). split; [done|]. by apply elem_of_map_to_list.
Qed.
Lemma take_all_steps b sid v : bsteps dropped timed_out timeout b (take_labels b sid v) (take_all b sid v).
Proof.
  apply take_list_steps.
  - apply NoDup_ListNoDup, List.NoDup_filter, NoDup_ListNoDup, NoDup_fst_map_to_list.
  - apply Forall_forall. intros k Hk. by apply elem_of_requests in Hk as [_ ?].
Qed.
Lemma take_list_pending ks v b k : k ∈ ks → pending (foldl (λ b k, take_request b k v) b ks) !! k = None.
Proof.
  assert (Hn : ∀ ks b, pending b !! k = None → pending (foldl (λ b k, take_request b k v) b ks) !! k = None).
  { intros ks'. induction ks' as [|k' ks' IH]; intros b' Hb'; [done|]. cbn [foldl]. apply IH.
    unfold take_request. destruct (pending b' !! k') as [[p a]|] eqn:E; [|done]. cbn. apply lookup_delete_None. by right. }
  revert b. induction ks as [|k' ks IH]; intros b; [by intros ?%elem_of_nil|]. intros [->|Hk]%elem_of_cons; cbn [foldl]; [|by apply IH].
  apply Hn. unfold take_request. destruct (pending b !! k') as [[p a]|] eqn:E; [|done]. cbn. by rewrite lookup_delete_eq.
Qed.
(** After the end of a run none of its requests is open. *)
Lemma take_all_pending b sid v k : k.1 = sid → is_Some (pending b !! k) → pending (take_all b sid v) !! k = None.
Proof. intros Hs Hk. apply take_list_pending. by apply elem_of_requests. Qed.
Lemma take_labels_value b sid v l : l ∈ take_labels b sid v → ∃ a k p, l = BTake a k p v ∧ pending b !! k = Some (p, a).
Proof.
  unfold take_labels. intros (k & _ & E)%list_elem_of_omap. destruct (pending b !! k) as [[p a]|] eqn:Ep; [|done].
  injection E as <-. eauto.
Qed.
End take_all.

(** ** The boards of a reachable hub *)

Definition fresh (h : PermHub) : Prop := ∀ a, next_task h ≤ a → tasks (perms h) !! a = None ∧ tasks (questions h) !! a = None.
Abbreviation perm_steps := (bsteps false false true).
Abbreviation question_steps timeout := (bsteps (inr Disconnected) (inr Timeout) timeout).

Lemma bsteps_one {P V} (dropped timed_out : V) timeout (b b' : Board P V) l :
  bstep dropped timed_out timeout b l b' → bsteps dropped timed_out timeout b [l] b'.
Proof. intros Hl. econstructor; [done|constructor]. Qed.

(** One step of the hub moves each board as the events it logs say. *)
Lemma hstep_boards timeout h es h' : fresh h → hstep timeout h es h' →
  perm_steps (perms h) (perm_log es) (perms h') ∧ question_steps timeout (questions h) (question_log es) (questions h').
Proof.
  intros Hf Hst. destruct Hst as [sid|sid|sid|sid|scope tool detail b h' E|scope tool detail h' E|scope qs r h' E|scope qs h' E|sid rid d e h' E
    |sid rid d tool a h' E Ep|e He|a v Hs Hr|sid rid answers cancelled e h' E|sid rid answers cancelled qs a r h' E Ep Es|a r Hs|l b Hl|l b Hl].
  - split; constructor.
  - split; constructor.
  - destruct (perm_log_perms (take_labels (perms h) sid false)) as [-> ->]. split; [apply take_all_steps|constructor].
  - destruct (question_log_questions (take_labels (questions h) sid (inr Disconnected))) as [-> ->]. split; [constructor|apply take_all_steps].
  - unfold ask_start in E. destruct scope as [scope|]; [|injection E as <- <-; split; constructor].
    destruct (_ || _); [injection E as <- <-; split; constructor|done].
  - unfold ask_start in E. destruct (_ || _); [done|]. cbn in E. injection E as <-. unfold emit.
    assert (bstep false false true (perms h) (BOpen (next_task h) (perm_request h scope) tool) (open_request (perms h) (next_task h) (perm_request h scope) tool))
      by (apply step_open; by apply Hf).
    case_bool_decide; (split; [by apply bsteps_one|constructor]).
  - unfold ask_questions_start in E. destruct scope as [scope|]; [|injection E as <- <-; split; constructor].
    destruct (auto_approve scope); [injection E as <- <-; split; constructor|done].
  - unfold ask_questions_start in E. destruct (auto_approve scope); [done|]. cbn in E. injection E as <-. unfold emit.
    assert (bstep (inr Disconnected) (inr Timeout) timeout (questions h) (BOpen (next_task h) (question_request h scope) qs)
      (open_request (questions h) (next_task h) (question_request h scope) qs)) by (apply step_open; by apply Hf).
    case_bool_decide; (split; [constructor|by apply bsteps_one]).
  - unfold decide_take in E. destruct (pending (perms h) !! (sid, rid)) as [[? ?]|]; [done|]. injection E as <- <-. split; constructor.
  - unfold decide_take in E. rewrite Ep in E. injection E as <-. split; [|destruct d; constructor].
    assert (bstep false false true (perms h) (BTake a (sid, rid) tool (allows d)) (take_request (perms h) (sid, rid) (allows d))) by by apply step_take.
    destruct d; by apply bsteps_one.
  - split; constructor.
  - split; [|unfold decide_send; destruct (send_reply (perms h) a); constructor].
    pose proof (step_send false false true (perms h) a v Hs) as Hl. unfold decide_send. destruct (send_reply (perms h) a). by apply bsteps_one.
  - unfold answer_take in E. destruct (pending (questions h) !! (sid, rid)) as [[? ?]|]; [|injection E as <- <-; split; constructor].
    destruct cancelled; [done|]. destruct (validate_answers _ _); [done|]. injection E as <- <-. split; constructor.
  - unfold answer_take in E. rewrite Ep in E.
    assert (Hq : perms h' = perms h ∧ questions h' = take_request (questions h) (sid, rid) r).
    { destruct cancelled; [|destruct (validate_answers _ _); [|done]]; injection E as <-; (split; [done|]); cbn in *;
        unfold take_request in *; rewrite Ep in *; cbn in Es; rewrite lookup_insert_eq in Es; by injection Es as <-. }
    destruct Hq as [-> ->]. split; [constructor|]. by apply bsteps_one, step_take.
  - split; [unfold answer_send; destruct (send_reply (questions h) a); constructor|].
    pose proof (step_send (inr Disconnected) (inr Timeout) timeout (questions h) a r Hs) as Hl. unfold answer_send.
    destruct (send_reply (questions h) a). by apply bsteps_one.
  - split; [by apply bsteps_one, step_task|constructor].
  - split; [constructor|by apply bsteps_one, step_task].
Qed.

Lemma bsteps_fresh {P V} (dropped timed_out : V) timeout (b b' : Board P V) ls a :
  bsteps dropped timed_out timeout b ls b' → tasks b !! a = None → (∀ k p, BOpen a k p ∉ ls) → tasks b' !! a = None.
Proof.
  induction 1 as [b|b l b1 ls b2 Hl Hls IH]; intros Hn Ho; [done|]. apply IH; [|intros k p Hin; by apply (Ho k p); right].
  assert (Hset : ∀ a' x y, tasks b !! a' = Some x → <[a' := y]> (tasks b) !! a = None).
  { intros a' x y Hx. rewrite lookup_insert_ne by congruence. done. }
  destruct Hl as [a' k p _|a' k p v Hp|a' v Hs|l b' Ht].
  - destruct (base.decide (a' = a)) as [->|Hne]; [by destruct (Ho k p); left|]. cbn. by rewrite lookup_insert_ne.
  - unfold take_request. by rewrite Hp.
  - unfold send_reply. destruct (sending b !! a'), (channels b !! a') as [[]|]; done.
  - destruct Ht as [a' k v Ht _|a' k Ht _|a' k _ Ht _|a' k Ht|a' k Ht|a' k Ht]; cbn; by eapply Hset.
Qed.
Lemma take_labels_no_open {P V} (b : Board P V) sid v a k p : BOpen a k p ∉ take_labels b sid v.
Proof. intros (? & ? & ? & ? & _)%take_labels_value. done. Qed.

Lemma hstep_next timeout h es h' : hstep timeout h es h' → next_task h ≤ next_task h' ∧
  ∀ a, next_task h' ≤ a → (∀ k p, BOpen a k p ∉ perm_log es) ∧ (∀ k p, BOpen a k p ∉ question_log es).
Proof.
  intros Hst.
  assert (Hnil : ∀ (P V : Type) (a : nat) k (p : P), BOpen (V := V) a k p ∉ []) by (intros; apply not_elem_of_nil).
  destruct Hst as [sid|sid|sid|sid|scope tool detail b h' E|scope tool detail h' E|scope qs r h' E|scope qs h' E|sid rid d e h' E
    |sid rid d tool a h' E Ep|e He|a v Hs Hr|sid rid answers cancelled e h' E|sid rid answers cancelled qs a r h' E Ep Es|a r Hs|l b Hl|l b Hl].
  - split; [done|]. by intros.
  - split; [done|]. by intros.
  - destruct (perm_log_perms (take_labels (perms h) sid false)) as [-> ->]. split; [done|]. intros a _. split; [intros; apply take_labels_no_open|done].
  - destruct (question_log_questions (take_labels (questions h) sid (inr Disconnected))) as [-> ->]. split; [done|]. intros a _.
    split; [done|intros; apply take_labels_no_open].
  - unfold ask_start in E. destruct scope as [scope|]; [|by injection E as <- <-]. destruct (_ || _); [by injection E as <- <-|done].
  - unfold ask_start in E. destruct (_ || _); [done|]. cbn in E. injection E as <-. unfold emit.
    case_bool_decide; cbn; (split; [lia|]); intros a Ha; (split; [|done]); intros k p [= -> _ _]%list_elem_of_singleton; lia.
  - unfold ask_questions_start in E. destruct scope as [scope|]; [|by injection E as <- <-]. destruct (auto_approve scope); [by injection E as <- <-|done].
  - unfold ask_questions_start in E. destruct (auto_approve scope); [done|]. cbn in E. injection E as <-. unfold emit.
    case_bool_decide; cbn; (split; [lia|]); intros a Ha; (split; [done|]); intros k p [= -> _ _]%list_elem_of_singleton; lia.
  - unfold decide_take in E. destruct (pending (perms h) !! (sid, rid)) as [[? ?]|]; [done|]. by injection E as <- <-.
  - unfold decide_take in E. rewrite Ep in E. injection E as <-. split; [by destruct d|].
    intros a' _. split; [|done]. by intros k p ?%list_elem_of_singleton.
  - done.
  - unfold decide_send. destruct (send_reply (perms h) a). split; [done|]. intros a' _. split; [|done]. by intros k p ?%list_elem_of_singleton.
  - unfold answer_take in E. destruct (pending (questions h) !! (sid, rid)) as [[? ?]|]; [|by injection E as <- <-].
    destruct cancelled; [done|]. destruct (validate_answers _ _); [done|]. by injection E as <- <-.
  - assert (next_task h' = next_task h) as ->.
    { unfold answer_take in E. rewrite Ep in E. destruct cancelled; [by injection E as <-|]. destruct (validate_answers _ _); [by injection E as <-|done]. }
    split; [done|]. intros a' _. split; [done|]. by intros k p ?%list_elem_of_singleton.
  - unfold answer_send. destruct (send_reply (questions h) a). split; [done|]. intros a' _. split; [done|]. by intros k p ?%list_elem_of_singleton.
  - split; [done|]. intros a' _. split; [|done]. intros k p <-%list_elem_of_singleton. inversion Hl.
  - split; [done|]. intros a' _. split; [done|]. intros k p <-%list_elem_of_singleton. inversion Hl.
Qed.

Record boards_ok (t : list event) (h : PermHub) : Prop := {
  perms_ok : board_ok false false (perm_log t) (perms h);
  questions_ok : board_ok (inr Disconnected) (inr Timeout) (question_log t) (questions h);
  fresh_ok : fresh h }.
Lemma reach_boards timeout t h : reach timeout t h → boards_ok t h.
Proof.
  induction 1 as [|t h es h' _ [Hp Hq Hf] Hst]; [split; [apply new_board_ok|apply new_board_ok|done]|].
  destruct (hstep_boards _ _ _ _ Hf Hst) as [Sp Sq]. destruct (hstep_next _ _ _ _ Hst) as [Hn Ho].
  split; [rewrite perm_log_app; by eapply bsteps_ok|rewrite question_log_app; by eapply bsteps_ok|].
  intros a Ha. destruct (Ho a Ha) as [Hop Hoq]. destruct (Hf a ltac:(lia)) as [Np Nq].
  split; by eapply bsteps_fresh.
Qed.

(** ** What the decisions of the history allow *)

(** A client allowed [tool] for the rest of the session. *)
Definition always_granted (t : list event) (sid tool : str) : Prop :=
  ∃ rid a, EDecided sid rid AllowAlways a ∈ t ∧ EPerm (BOpen a (sid, rid) tool) ∈ t.
Record decisions_ok (t : list event) (h : PermHub) : Prop := {
  ok_remembering : ∀ sid tool a, (sid, tool, a) ∈ remembering h → always_granted t sid tool;
  ok_always : ∀ sid tool, is_always_allowed h sid tool = true → always_granted t sid tool;
  ok_granted : ∀ a k p, EPerm (BTake a k p true) ∈ t → ∃ d, EDecided k.1 k.2 d a ∈ t ∧ d ≠ Deny;
  ok_decided : ∀ a sid rid d, EDecided sid rid d a ∈ t → ∃ p, EPerm (BTake a (sid, rid) p (allows d)) ∈ t;
  ok_asked : ∀ scope tool, EAsked scope tool true ∈ t →
    ∃ s, scope = Some s ∧ (auto_approve s = true ∨ always_granted t (session_id s) tool);
  ok_answer : ∀ a k qs ans, EQuestion (BTake a k qs (inl ans)) ∈ t → Forall2 fits qs ans;
  ok_answered : ∀ scope qs ans, EAnswered scope qs (inl ans) ∈ t → ans = auto_answers qs }.

Lemma always_granted_mono t t' sid tool : always_granted t sid tool → always_granted (t ++ t') sid tool.
Proof. intros (rid & a & H1 & H2). exists rid, a. rewrite !elem_of_app. auto. Qed.

(** A step that says nothing of these and leaves what is remembered. *)
Definition silent (e : event) : Prop :=
  match e with
  | EPerm (BTake _ _ _ true) | EDecided _ _ _ _ | EAsked _ _ true | EQuestion (BTake _ _ _ (inl _)) | EAnswered _ _ (inl _) => False
  | _ => True
  end.
Record news (t es : list event) : Prop := {
  new_granted : ∀ a k p, EPerm (BTake a k p true) ∈ es → ∃ d, EDecided k.1 k.2 d a ∈ es ∧ d ≠ Deny;
  new_decided : ∀ a sid rid d, EDecided sid rid d a ∈ es → ∃ p, EPerm (BTake a (sid, rid) p (allows d)) ∈ es;
  new_asked : ∀ scope tool, EAsked scope tool true ∈ es →
    ∃ s, scope = Some s ∧ (auto_approve s = true ∨ always_granted t (session_id s) tool);
  new_answer : ∀ a k qs ans, EQuestion (BTake a k qs (inl ans)) ∈ es → Forall2 fits qs ans;
  new_answered : ∀ scope qs ans, EAnswered scope qs (inl ans) ∈ es → ans = auto_answers qs }.
Lemma news_silent t es : Forall silent es → news t es.
Proof. rewrite Forall_forall. intros Hs. by split; intros * Hin; apply Hs in Hin. Qed.
Lemma decisions_extend t es h h' : decisions_ok t h → news t es →
  (∀ sid tool a, (sid, tool, a) ∈ remembering h' → always_granted (t ++ es) sid tool) →
  (∀ sid tool, is_always_allowed h' sid tool = true → always_granted (t ++ es) sid tool) →
  decisions_ok (t ++ es) h'.
Proof.
  intros Hd Hs Hr Ha. split; [done|done|..].
  - intros a k p [Hin|Hin]%elem_of_app.
    + destruct (ok_granted _ _ Hd a k p Hin) as (d & ? & ?). exists d. by rewrite elem_of_app; auto.
    + destruct (new_granted _ _ Hs a k p Hin) as (d & ? & ?). exists d. by rewrite elem_of_app; auto.
  - intros a sid rid d [Hin|Hin]%elem_of_app.
    + destruct (ok_decided _ _ Hd _ _ _ _ Hin) as (p & ?). exists p. rewrite elem_of_app. by left.
    + destruct (new_decided _ _ Hs _ _ _ _ Hin) as (p & ?). exists p. rewrite elem_of_app. by right.
  - intros scope tool [Hin|Hin]%elem_of_app; [destruct (ok_asked _ _ Hd _ _ Hin) as (s & -> & [?|?])|destruct (new_asked _ _ Hs _ _ Hin) as (s & -> & [?|?])];
      exists s; auto using always_granted_mono.
  - intros a k qs ans [Hin|Hin]%elem_of_app; [by eapply ok_answer|by eapply new_answer].
  - intros scope qs ans [Hin|Hin]%elem_of_app; [by eapply ok_answered|by eapply new_answered].
Qed.
Lemma decisions_same t es h h' : decisions_ok t h → remembering h' = remembering h → allow_always h' = allow_always h →
  news t es → decisions_ok (t ++ es) h'.
Proof.
  intros Hd Hr Ha Hs. apply (decisions_extend t es h h' Hd Hs).
  - rewrite Hr. intros sid tool a Hin. apply always_granted_mono. by apply (ok_remembering _ _ Hd sid tool a).
  - intros sid tool. unfold is_always_allowed. rewrite Ha. intros H. apply always_granted_mono. by apply (ok_always _ _ Hd).
Qed.

Lemma remember_allowed m sid tool sid' tool' :
  match remember m sid tool !! sid' with Some s => bool_decide (tool' ∈ s) | None => false end = true →
  (sid' = sid ∧ tool' = tool) ∨ match m !! sid' with Some s => bool_decide (tool' ∈ s) | None => false end = true.
Proof.
  unfold remember. destruct (base.decide (sid' = sid)) as [->|Hne]; [|rewrite lookup_insert_ne by done; by right].
  rewrite lookup_insert_eq. rewrite bool_decide_eq_true. intros [->%elem_of_singleton|Hin]%elem_of_union; [by left|].
  right. destruct (m !! sid) as [s|]; [by apply bool_decide_eq_true|]. cbn in Hin. set_solver.
Qed.

Lemma task_step_silent P V (dropped timed_out : V) timeout (b b' : Board P V) l :
  task_step dropped timed_out timeout b l b' → (∀ a k p v, l ≠ BTake a k p v) ∧ ∀ a k p, l ≠ BOpen a k p.
Proof. by destruct 1. Qed.

Lemma silent_labels (sid : str) (h : PermHub) :
  Forall silent (EPerm <$> take_labels (perms h) sid false) ∧ Forall silent (EQuestion <$> take_labels (questions h) sid (inr Disconnected)).
Proof.
  split; apply Forall_fmap, Forall_forall; intros l (a & k & p & -> & _)%take_labels_value; exact I.
Qed.
Lemma hstep_decisions timeout t h es h' : boards_ok t h → decisions_ok t h → hstep timeout h es h' → decisions_ok (t ++ es) h'.
Proof.
  intros Hb Hd Hst. pose proof (λ es H, news_silent t es H) as Hn.
  destruct Hst as [sid|sid|sid|sid|scope tool detail b h' E|scope tool detail h' E|scope qs r h' E|scope qs h' E|sid rid d e h' E
    |sid rid d tool a h' E Ep|e He|a v Hs Hr|sid rid answers cancelled e h' E|sid rid answers cancelled qs a r h' E Ep Es|a r Hs|l b Hl|l b Hl].
  - apply (decisions_same t [] h); [done..|]. apply Hn. constructor.
  - apply (decisions_same t [] h); [done..|]. apply Hn. constructor.
  - apply (decisions_same t _ h); [done..|]. apply Hn, silent_labels.
  - apply (decisions_same t _ h); [done..|]. apply Hn, silent_labels.
  - unfold ask_start in E. destruct scope as [scope|]; [|injection E as <- <-; apply (decisions_same t _ h); [done..|]; apply Hn; by repeat constructor].
    destruct (auto_approve scope || _) eqn:Ea; [|done]. injection E as <- <-. apply (decisions_same t _ h); [done..|].
    split; intros *; intros Hin%list_elem_of_singleton; try done. injection Hin as -> ->. exists scope. split; [done|].
    apply orb_true_iff in Ea as [?|?]; [by left|right; by apply (ok_always _ _ Hd)].
  - unfold ask_start in E. destruct (_ || _); [done|]. cbn in E. injection E as <-. unfold emit.
    case_bool_decide; (apply (decisions_same t _ h); [done..|]; apply Hn; by repeat constructor).
  - unfold ask_questions_start in E. destruct scope as [scope|]; [|injection E as <- <-; apply (decisions_same t _ h); [done..|]; apply Hn; by repeat constructor].
    destruct (auto_approve scope) eqn:Ea; [|done]. injection E as <- <-. apply (decisions_same t _ h); [done..|].
    split; intros *; intros Hin%list_elem_of_singleton; try done. by injection Hin as _ -> ->.
  - unfold ask_questions_start in E. destruct (auto_approve scope); [done|]. cbn in E. injection E as <-. unfold emit.
    case_bool_decide; (apply (decisions_same t _ h); [done..|]; apply Hn; by repeat constructor).
  - unfold decide_take in E. destruct (pending (perms h) !! (sid, rid)) as [[? ?]|]; [done|]. injection E as <- <-.
    apply (decisions_same t [] h); [done..|]. apply Hn. constructor.
  - assert (Hnews : news t [EPerm (BTake a (sid, rid) tool (allows d)); EDecided sid rid d a]).
    { split; intros *; intros [Hin|[Hin|[]%elem_of_nil]%elem_of_cons]%elem_of_cons; try done.
      - injection Hin as -> -> -> Hd'. exists d. split; [right; by left|]. by destruct d.
      - injection Hin as -> -> -> ->. exists tool. by left. }
    unfold decide_take in E. rewrite Ep in E. injection E as <-.
    assert (Hg : d = AllowAlways → always_granted (t ++ [EPerm (BTake a (sid, rid) tool (allows d)); EDecided sid rid d a]) sid tool).
    { intros ->. exists rid, a. destruct (ok_pending _ _ _ _ (perms_ok _ _ Hb) _ _ _ Ep) as [Ho _]. apply in_perm_log in Ho.
      rewrite !elem_of_app. split; [right; right; by left|by left]. }
    destruct d; [by apply (decisions_same t _ h)..|]. apply (decisions_extend t _ h); [done|done| |].
    + intros sid' tool' a' [[= -> -> ->]|Hin]%elem_of_cons; [by apply Hg|]. apply always_granted_mono. by eapply (ok_remembering _ _ Hd).
    + intros sid' tool' H. apply always_granted_mono. by apply (ok_always _ _ Hd).
  - rewrite app_nil_r. destruct e as [[sid tool] a].
    pose proof (ok_remembering _ _ Hd _ _ _ He) as Hg. rewrite <- (app_nil_r t).
    apply (decisions_extend t [] h); [done|apply Hn; constructor| |]; cbn.
    + intros sid' tool' a' Hin. rewrite app_nil_r. apply (ok_remembering _ _ Hd sid' tool' a').
      by apply list_elem_of_In, List.filter_In, proj1, list_elem_of_In in Hin.
    + intros sid' tool' H. rewrite app_nil_r. unfold is_always_allowed in H. cbn in H.
      apply remember_allowed in H as [[-> ->]|H]; [done|by apply (ok_always _ _ Hd)].
  - unfold decide_send. destruct (send_reply (perms h) a) as [b ok]. apply (decisions_same t _ h); [done..|]. apply Hn. by repeat constructor.
  - unfold answer_take in E. destruct (pending (questions h) !! (sid, rid)) as [[? ?]|]; [|injection E as <- <-; apply (decisions_same t [] h); [done..|]; apply Hn; constructor].
    destruct cancelled; [done|]. destruct (validate_answers _ _); [done|]. injection E as <- <-. apply (decisions_same t [] h); [done..|]; apply Hn; constructor.
  - assert (Hh : remembering h' = remembering h ∧ allow_always h' = allow_always h ∧ ∀ ans, r = inl ans → Forall2 fits qs ans).
    { unfold answer_take in E. rewrite Ep in E. destruct cancelled; [|destruct (validate_answers _ _) as [[]|] eqn:Ev; [|done]]; injection E as <-;
        (split; [done|split; [done|]]); intros ans ->; cbn in Es; unfold take_request in Es; rewrite Ep in Es; cbn in Es;
        rewrite lookup_insert_eq in Es; [done|]. injection Es as <-. by apply validate_answers_spec. }
    destruct Hh as (H1 & H2 & H3). apply (decisions_same t _ h); [done..|].
    split; intros *; intros Hin%list_elem_of_singleton; try done. injection Hin as -> -> -> <-. by apply H3.
  - unfold answer_send. destruct (send_reply (questions h) a) as [b ok]. apply (decisions_same t _ h); [done..|]. apply Hn. by repeat constructor.
  - apply (decisions_same t _ h); [done..|]. apply Hn. constructor; [|constructor]. destruct Hl; exact I.
  - apply (decisions_same t _ h); [done..|]. apply Hn. constructor; [|constructor]. destruct Hl; exact I.
Qed.

Lemma reach_decisions timeout t h : reach timeout t h → decisions_ok t h.
Proof.
  induction 1 as [|t h es h' Hr Hd Hst]; [|by eapply hstep_decisions; [eapply reach_boards|..]].
  split; try (intros *; by intros ?%elem_of_nil). intros sid tool. unfold is_always_allowed. cbn. by rewrite lookup_empty.
Qed.

(** ** What clients and agents may rely on *)


(** The answers an agent gets to its questions fit them, whatever clients send and
    however their calls interleave: they are those of a client that the hub checked, or
    those the run gives by itself; and an ask that waits or whose time is up can always
    return by itself, in at most three steps. *)
Theorem questions_answered_validly (t : list event) (h : PermHub) (Hreach : reach true t h) :
  (∀ a ans, EQuestion (BReturn a (inl ans)) ∈ t → ∃ k qs, EQuestion (BOpen a k qs) ∈ t ∧ validate_answers qs ans = Ok tt) ∧
  (∀ scope qs ans, EAnswered scope qs (inl ans) ∈ t → validate_answers qs ans = Ok tt) ∧
  (∀ a k ph, tasks (questions h) !! a = Some (k, ph) → ph = Waiting ∨ ph = Expiring ∨ ph = Expired →
    ∃ r ls b, question_steps true (questions h) ls b ∧ BReturn a r ∈ ls ∧ length ls ≤ 3) ∧
  (∀ a k ph, tasks (perms h) !! a = Some (k, ph) → ph = Waiting ∨ ph = Expiring ∨ ph = Expired →
    ∃ r ls b, perm_steps (perms h) ls b ∧ BReturn a r ∈ ls ∧ length ls ≤ 3).
Proof.
  pose proof (reach_boards _ _ _ Hreach) as [Hp Hq _]. pose proof (reach_decisions _ _ _ Hreach) as Hd. split_and!.
  - intros a ans [k Ht]%in_question_log%(ok_return _ _ _ _ Hq). destruct (ok_task _ _ _ _ Hq _ _ _ Ht) as [_ [?|[?|[qs Hin]]]]; [done..|].
    destruct (ok_take _ _ _ _ Hq _ _ _ _ Hin) as (Ho & _ & _). exists k, qs. apply in_question_log in Ho, Hin.
    split; [done|]. apply validate_answers_spec. by eapply (ok_answer _ _ Hd).
  - intros scope qs ans ->%(ok_answered _ _ Hd). apply auto_answers_valid.
  - intros a k ph Ht Hph. by eapply task_returns.
  - intros a k ph Ht Hph. by eapply task_returns.
Qed.

(** *** A run of the hub *)

Definition sample_scope : RunScope := mkScope (lit "s1") false.
Definition sample_asked : PermHub := (ask_start (register_run new_hub (lit "s1")) (Some sample_scope) (lit "bash") (lit "ls")).2.
Definition sample_taken : PermHub := (decide_take sample_asked (lit "s1") (lit "perm-1") Allow).2.
Definition sample_sent : PermHub := (decide_send sample_taken 0).2.
Definition sample_returned : PermHub := set_perms sample_sent (set_phase (perms sample_sent) 0 (lit "s1", lit "perm-1") (Returned true)).
Definition sample_trace : list event :=
  [EPerm (BOpen 0 (lit "s1", lit "perm-1") (lit "bash")); EPerm (BTake 0 (lit "s1", lit "perm-1") (lit "bash") true);
   EDecided (lit "s1") (lit "perm-1") Allow 0; EPerm (BSend 0 true true); EPerm (BReturn 0 true)].
Lemma sample_reached timeout : reach timeout sample_trace sample_returned.
Proof.
  change sample_trace with ((((([] ++ []) ++ [EPerm (BOpen 0 (lit "s1", lit "perm-1") (lit "bash"))]) ++
    [EPerm (BTake 0 (lit "s1", lit "perm-1") (lit "bash") (allows Allow)); EDecided (lit "s1") (lit "perm-1") Allow 0]) ++
    [EPerm (BSend 0 true (send_reply (perms sample_taken) 0).2)]) ++ [EPerm (BReturn 0 true)]).
  unfold sample_returned. apply (reach_step _ _ sample_sent); [|apply h_task, task_wake; vm_compute; reflexivity].
  unfold sample_sent. apply (reach_step _ _ sample_taken); [|apply h_send; [vm_compute; reflexivity|vm_compute; apply not_elem_of_nil]].
  apply (reach_step _ _ sample_asked); [|apply h_take; vm_compute; reflexivity].
  apply (reach_step _ _ (register_run new_hub (lit "s1"))); [|exact (h_ask timeout (register_run new_hub (lit "s1")) sample_scope (lit "bash") (lit "ls") _ eq_refl)].
  apply (reach_step _ _ new_hub); [apply reach_new|apply h_register].
Qed.
Lemma questions_answered_validly_witness :
  reach true sample_trace sample_returned ∧ ∀ a ans, EQuestion (BReturn a (inl ans)) ∈ sample_trace →
    ∃ k qs, EQuestion (BOpen a k qs) ∈ sample_trace ∧ validate_answers qs ans = Ok tt.
Proof.
  split; [apply sample_reached|].
  exact (proj1 (questions_answered_validly sample_trace sample_returned (sample_reached true))).
Defined.

(** The whole call of a client, and a late one: the ask was cancelled with its turn, the
    client is told that its decision came too late, and the tool is allowed for the
    session all the same. *)
Example decide_ex : decide sample_asked (lit "s1") (lit "perm-1") Allow = (Ok tt, sample_sent).
Proof. vm_compute. reflexivity. Qed.
Definition abandoned_hub : PermHub :=
  set_perms sample_asked (set_phase (drop_receiver (perms sample_asked) 0) 0 (lit "s1", lit "perm-1") Abandoned).
Example late_always_remembered :
  let r := decide abandoned_hub (lit "s1") (lit "perm-1") AllowAlways in
  r.1 = Err (lit "ask already timed out") ∧ is_always_allowed r.2 (lit "s1") (lit "bash") = true.
Proof. vm_compute. split; reflexivity. Qed.

(** The race of an answer with the ask's time: the ask finds its time up, the client's
    approval is then taken by the channel and reported to have arrived, and the ask
    drops the channel and returns a refusal. *)
Definition late_key : request := (lit "s1", lit "perm-1").
Definition late_asked : PermHub := set_perms sample_asked (set_phase (perms sample_asked) 0 late_key Expiring).
Definition late_decided : result unit * PermHub := decide late_asked (lit "s1") (lit "perm-1") Allow.
Definition late_dropped : Board str bool :=
  let b := perms late_decided.2 in set_phase (drop_receiver b 0) 0 late_key Expired.
Example approval_lost_in_race :
  task_step false false true (perms sample_asked) (BTimeout 0) (perms late_asked) ∧
  late_decided.1 = Ok tt ∧
  task_step false false true (perms late_decided.2) (BQuiet 0) late_dropped ∧
  task_step false false true late_dropped (BReturn 0 false) (set_phase (forget_request late_dropped late_key) 0 late_key (Returned false)).
Proof.
  split_and!; [apply task_expire; vm_compute; reflexivity|vm_compute; reflexivity|apply task_drop; vm_compute; reflexivity|].
  apply task_remove. vm_compute. reflexivity.
Qed.
