(* ===== verification/Gate.v ===== *)
(** The gate every tool call passes ([crates/agent/src/agent/gate.rs]): risk,
    shell rules, intent, path rules, permission, hooks, dispatch and retries, with
    every prompt, audit line and dispatch as an event of the trace.

    What the gate reaches outside itself - hooks, the prompter, the tools, the
    questionnaire, files - is the class [GateEnv], whose operations act on a state
    [World] of the environment. *)

From S2P Require Import Prelude RustStr Paths Permission Assess Intent ToolPolicy.

(** ** Replies, targets, events *)

Inductive PermissionReply := RAllow | RDeny | RReplied.
#[global] Instance PermissionReply_eq_dec : EqDecision PermissionReply.
Proof. solve_decision. Defined.

Definition allowed (r : PermissionReply) : bool := r == RAllow.

Definition reply_outcome (reply : PermissionReply) : str :=
  match reply with
  | RAllow => lit "approved"
  | RDeny => lit "denied"
  | RReplied => lit "replied"
  end.

Inductive PreHookDecision := HookAllow | HookBlock (reason : str).

(** Who runs a call. *)
Inductive DispatchTarget :=
| ToTask | ToSwarm | ToBg | ToMcpRead (rest : str) | ToSchedule | ToWait | ToToolSearch | ToWorktree
| ToBackgroundShell | ToShellAutoBackground | ToExecutor.

Inductive Event (Value : Type) :=
| EvAsk (gate detail : str) (reply : PermissionReply)
| EvSafety (gate outcome : str)
| EvQuestion (interactive : bool)
| EvDispatch (target : DispatchTarget) (tc : ToolCall Value) (result : ToolResult)
| EvRetry (attempt : nat).
Arguments EvAsk {_} _ _ _.
Arguments EvSafety {_} _ _.
Arguments EvQuestion {_} _.
Arguments EvDispatch {_} _ _ _.
Arguments EvRetry {_} _.

(** ** The environment *)

Class GateEnv (Value World QuestionSpec : Type) := {
  (** [run_transform_hooks]: rewritten arguments, if a hook gave some. *)
  run_transform_hooks : ToolCall Value → World → option Value * World;
  run_pre_hooks : ToolCall Value → World → PreHookDecision * World;
  run_post_hooks : ToolCall Value → ToolResult → World → option str * World;
  (** [restore_json]: the arguments with placeholders replaced, if there were any. *)
  restore_json : Value → option Value;
  session_has_open_todos : World → bool;
  running_count : World → nat;
  parse_questions : Value → list QuestionSpec + str;
  important : QuestionSpec → bool;
  (** [run_question_tool] with the UI's prompter, or the one that answers itself. *)
  run_question_tool : bool → Value → str → World → ToolResult * World;
  (** [permission_prompter.ask_reply]. *)
  ask_reply : str → str → World → PermissionReply * World;
  preview_edit : World → Value → str → option str;
  preview_write : World → Value → str → option str;
  canonicalize : World → str → option str;
  run_target : DispatchTarget → ToolCall Value → World → ToolResult * World }.

(** The fields of [Agent] the gate reads. *)
Record Agent := mkAgent {
  agent_name : str;
  permission : PermissionSet;
  approval_mode : ApprovalMode;
  fail_closed_ask : bool;
  risk_threshold : RiskThreshold;
  intent_guidance : IntentGuidanceMode;
  bash_auto_background : bool;
  no_hooks : bool;
  has_secrets : bool }.

Definition AUTO_TOOL_RETRY_LIMIT : nat := 2.

(** ** Small pieces *)

Definition refuse_question_open_work (tool_call_id detail : str) : ToolResult :=
  mkResult tool_call_id
    (lit "Auto mode: do not ask the user while " ++ detail ++ lit " remain open. Keep working: retry the failed step, mark todos completed, or cancel items that no longer apply. Ask only after the list is done.")
    true.

Definition NO_RETRY_TOOLS : list string :=
  ["bash"; "shell"; "question"; "task"; "swarm"; "bg"; "schedule"; "wait"; "worktree"; "todowrite";
   "todo"; "todoread"; "checkpoint"; "rewind"]%string.
Definition FINAL_ERRORS : list string :=
  ["permission denied"; "user denied"; "denied:headless"; "denied: user replied"; "refused";
   "doom loop"; "cannot be approved"; "catastrophic"; "missing required parameter";
   "unknown tool"]%string.

Definition tool_error_is_retryable (name : str) (result : ToolResult) : bool :=
  if negb (is_error result) then false
  else if is_one_of name NO_RETRY_TOOLS then false
  else
    let c := to_ascii_lowercase (res_content result) in
    negb (existsb (λ m, contains c (lit m)) FINAL_ERRORS).

Definition is_shell_tool (name : str) : bool := is_one_of name SHELL_TOOLS.

Definition append_feedback (content : str) (feedback : option str) : str :=
  match feedback with
  | Some text => content ++ [cLF; cLF] ++ lit "[post_tool hook]" ++ [cLF] ++ text
  | None => content
  end.

Inductive IntentGate := ISkip | IRefuse (reason : str) | IConfirm (body : str).
Inductive PathRuleGate := GSkip | GDeny (path : str) | GAllow | GAsk (path : str).

Definition path_rule_gate (permission : PermissionSet) (tool_name path : str) (risk_confirmed : bool)
    : PathRuleGate :=
  match action_for_path permission tool_name path with
  | Some PDeny => GDeny path
  | Some PAllow => GAllow
  | Some PAsk => if risk_confirmed then GSkip else GAsk path
  | None => GSkip
  end.

(** ** The monad: the environment's state, the trace, and early returns. [None]:
    the classification of a command did not return. *)

Section gate.
Context {Value World QuestionSpec : Type} `{!Json Value} `{!GateEnv Value World QuestionSpec}.
Context (home : option str) (fuel : nat) (self : Agent) (working_dir : str).

Definition M (A : Type) : Type := World → option (A * World * list (Event Value)).

Definition mret_ {A} (a : A) : M A := λ w, Some (a, w, []).
Definition mbind_ {A B} (m : M A) (f : A → M B) : M B := λ w,
match m w with
| None => None
| Some (a, w', tr) =>
  match f a w' with
  | None => None
  | Some (b, w'', tr') => Some (b, w'', tr ++ tr')
  end
end.
#[global] Instance M_ret : MRet M := @mret_.
#[global] Instance M_bind : MBind M := λ A B f m, mbind_ m f.

Definition emit (e : Event Value) : M unit := λ w, Some (tt, w, [e]).
Definition act {A} (f : World → A * World) : M A := λ w, let '(a, w') := f w in Some (a, w', []).
Definition look {A} (f : World → A) : M A := λ w, Some (f w, w, []).
Definition lift {A} (o : option A) : M A := λ w, (λ a, (a, w, [])) <$> o.

(** A block that may [return] a result: [inl] is the early return. *)
Notation G A := (M (ToolResult + A)).
Definition ok {A} (a : A) : G A := mret (inr a).
Definition stop {A} (r : ToolResult) : G A := mret (inl r).
Definition seq_ {A B} (m : G A) (f : A → G B) : G B :=
x ← m; match x with inl r => mret (inl r) | inr a => f a end.

Definition safety_event (gate outcome : str) : M unit := emit (EvSafety gate outcome).

Definition assess (command : str) : option Assessment := assess_fuel fuel working_dir home command.

Definition nonempty_arg (tc : ToolCall Value) (key : string) : option str :=
value ← str_arg tc key;
let value := trim value in
if value == [] then None else Some value.

Arguments nonempty_arg _ _%_string.

(** ** Asking *)

Definition is_allow (d : Decision) : bool := match d with Allow => true | _ => false end.

Definition command_is_high_risk (command : str) : M bool :=
a ← lift (assess command); mret (negb (is_allow (decide a (risk_threshold self)))).

Definition schedule_command_is_high_risk (tc : ToolCall Value) : M bool :=
match nonempty_arg tc "command" with
| Some command => command_is_high_risk command
| None => mret false
end.

Definition file_path_outside (tc : ToolCall Value) : M bool :=
match file_tool_path tc with
| Some path => look (λ w, path_outside_workspace (canonicalize w) path working_dir)
| None => mret false
end.

Definition approval_ask_is_high_risk (tc : ToolCall Value) : M bool :=
if call_name tc == lit "browser" then mret true
else if is_one_of (call_name tc) ["bash"; "shell"]%string then
command_is_high_risk (default [] (str_arg tc "command"))
else if call_name tc == lit "schedule" then schedule_command_is_high_risk tc
else file_path_outside tc.

Definition approval_skips_ask (tc : ToolCall Value) : M bool :=
if fail_closed_ask self then mret false
else
match approval_mode self with
| Auto => mret true
| Manual => mret false
| Important => b ← approval_ask_is_high_risk tc; mret (negb b)
end.

Definition ask_permission (tc : ToolCall Value) (gate detail : str) : M PermissionReply :=
skip ← approval_skips_ask tc;
if (skip : bool) then mret RAllow
else
reply ← act (ask_reply (call_name tc) detail);
emit (EvAsk gate detail reply);;
safety_event gate (reply_outcome reply);;
mret reply.

Definition denied_permission_result (tc : ToolCall Value) (reply : PermissionReply) (extra : str)
: ToolResult :=
let stamp :=
if fail_closed_ask self then lit "denied:headless"
else if reply == RReplied then lit "denied: user replied"
else lit "User denied permission" in
mkResult (call_id tc)
(if extra == [] then stamp ++ lit " for tool '" ++ call_name tc ++ lit "'."
 else stamp ++ lit " for tool '" ++ call_name tc ++ lit "' " ++ extra)
true.

(** Ask, and go on with [risk_confirmed] set or return the denial. *)
Definition confirm (tc : ToolCall Value) (gate detail extra : str) : G bool :=
reply ← ask_permission tc gate detail;
if allowed reply then ok true else stop (denied_permission_result tc reply extra).

Definition refuse {A} (tc : ToolCall Value) (gate content : str) : G A :=
safety_event gate (lit "refused");; stop (mkResult (call_id tc) content true).

(** ** Shell commands: blast radius, then shell rules *)

Definition scheduled_shell (tc : ToolCall Value) : option str :=
if call_name tc == lit "schedule" then nonempty_arg tc "command" else None.

(** The command of a call that is gated on one. *)
Definition shell_command (tc : ToolCall Value) : option str :=
match scheduled_shell tc with
| Some command => Some command
| None => if is_shell_tool (call_name tc) then Some (default [] (str_arg tc "command")) else None
end.

Definition risk_gate (tc : ToolCall Value) (command : str) (assessment : Assessment) : G bool :=
match decide assessment (risk_threshold self) with
| Allow => ok false
| Refuse reason =>
  refuse tc (lit "risk")
    (lit "Refused: " ++ reason ++ lit "." ++ [cLF]
     ++ lit "This command is classified catastrophic and cannot be approved. Run it yourself if you are certain.")
| Confirm reason => confirm tc (lit "risk") (format_shell_risk_detail command reason) []
end.

Definition apply_shell_ask (risk_confirmed : bool) : bool := negb risk_confirmed.

Definition shell_rule_gate (tc : ToolCall Value) (command : str) (assessment : Assessment)
(risk_confirmed : bool) : G bool :=
match action_for_shell (permission self) command with
| Some PDeny =>
  refuse tc (lit "shell_rule")
    (lit "Permission denied for shell command by rule matching " ++ quoted command ++ lit ".")
| Some PAllow =>
  ok (is_allow (decide assessment (risk_threshold self)) || risk_confirmed)
| Some PAsk =>
  if apply_shell_ask risk_confirmed then
    confirm tc (lit "shell_rule")
      (lit "Shell rule requires confirmation" ++ [cLF; cLF] ++ lit "Command:" ++ [cLF] ++ command) []
  else ok risk_confirmed
| None => ok risk_confirmed
end.

Definition shell_gate (tc : ToolCall Value) : G bool :=
match shell_command tc with
| None => ok false
| Some command =>
  assessment ← lift (assess command);
  seq_ (risk_gate tc command assessment) (shell_rule_gate tc command assessment)
end.

(** ** Intent *)

Definition intent_confirm_body (i : IntentAssessment) (tc : ToolCall Value) : IntentGate :=
match authorize_tool i (agent_name self) (call_name tc) (str_arg tc "command")
      (intent_guidance self) with
| AuthAllow => ISkip
| AuthRefuse reason => IRefuse reason
| AuthConfirm reason =>
  IConfirm (format_permission_detail (arguments tc) ++ [cLF; cLF] ++ lit "Intent check:" ++ [cLF]
            ++ reason)
end.

Definition intent_gate (tc : ToolCall Value) (turn_intent : option IntentAssessment)
(risk_confirmed : bool) : G bool :=
match turn_intent with
| None => ok risk_confirmed
| Some i =>
  match intent_confirm_body i tc with
  | IRefuse reason => refuse tc (lit "intent") (lit "Refused (intent): " ++ reason)
  | IConfirm body =>
      if fail_closed_ask self && (intent i == IPlan) then
        safety_event (lit "intent") (lit "skipped:headless-plan");; ok risk_confirmed
      else if risk_confirmed then ok risk_confirmed
      else confirm tc (lit "intent") body (lit "(intent gate).")
  | ISkip => ok risk_confirmed
  end
end.

(** ** Path rules *)

Definition path_gate (tc : ToolCall Value) (risk_confirmed : bool) : G bool :=
match match file_tool_path tc with
    | Some path => path_rule_gate (permission self) (call_name tc) path risk_confirmed
    | None => GSkip
    end with
| GDeny path =>
  refuse tc (lit "path_rule")
    (lit "Permission denied for " ++ quoted (call_name tc) ++ lit " on path " ++ quoted path
     ++ lit " by path rule.")
| GAllow => ok true
| GAsk path =>
  confirm tc (lit "path_rule")
    (lit "Path rule requires confirmation" ++ [cLF; cLF] ++ lit "Tool: " ++ call_name tc ++ [cLF]
     ++ lit "Path: " ++ path) []
| GSkip => ok risk_confirmed
end.

(** ** Permission and pre-tool hooks *)

Definition permission_gate (tc : ToolCall Value) (risk_confirmed : bool) : G bool :=
match action_for (permission self) (call_name tc) with
| PDeny =>
  refuse tc (lit "permission")
    (lit "Permission denied for tool '" ++ call_name tc
     ++ lit "'. Adjust agent permissions or config.permission.")
| PAsk =>
  if risk_confirmed then ok risk_confirmed
  else
    detail ← look (λ w, permission_detail_for (preview_edit w) (preview_write w) tc working_dir);
    confirm tc (lit "permission") detail []
| PAllow => ok risk_confirmed
end.

Definition hook_gate (tc : ToolCall Value) : G unit :=
d ← act (run_pre_hooks tc);
match d with
| HookAllow => ok tt
| HookBlock reason => refuse tc (lit "hook") reason
end.

(** Every gate of a call other than [question], in the order of the code. *)
Definition gates (tc : ToolCall Value) (turn_intent : option IntentAssessment) : G unit :=
seq_ (shell_gate tc) (λ confirmed,
seq_ (intent_gate tc turn_intent confirmed) (λ confirmed,
seq_ (path_gate tc confirmed) (λ confirmed,
seq_ (permission_gate tc confirmed) (λ _,
hook_gate tc)))).

(** ** Dispatch *)

Definition mcp_read_target (tc : ToolCall Value) : option str :=
if call_name tc != lit "read" then None
else path ← str_arg tc "path"; strip_prefix (lit "mcp://") (trim path).

Definition dispatch_target (tc : ToolCall Value) : DispatchTarget :=
let name := call_name tc in
if name == lit "task" then ToTask
else if name == lit "swarm" then ToSwarm
else if name == lit "bg" then ToBg
else
match mcp_read_target tc with
| Some rest => ToMcpRead rest
| None =>
    if name == lit "schedule" then ToSchedule
    else if name == lit "wait" then ToWait
    else if name == lit "tool_search" then ToToolSearch
    else if name == lit "worktree" then ToWorktree
    else if is_one_of name ["bash"; "shell"]%string
            && default false (json_get (arguments tc) (lit "background") ≫= val_as_bool)
    then ToBackgroundShell
    else if is_one_of name ["bash"; "shell"]%string && bash_auto_background self
    then ToShellAutoBackground
    else ToExecutor
end.

Definition dispatch_tool (tc : ToolCall Value) : M ToolResult :=
let target := dispatch_target tc in
result ← act (run_target target tc);
emit (EvDispatch target tc result);;
mret result.

(** The [while] of auto mode: [n] attempts remain. *)
Fixpoint retry (n : nat) (attempt : nat) (tc : ToolCall Value) (result : ToolResult) : M ToolResult :=
match n with
| O => mret result
| S n =>
  if tool_error_is_retryable (call_name tc) result then
    emit (EvRetry (S attempt));;
    result ← dispatch_tool tc;
    retry n (S attempt) tc result
  else mret result
end.

Definition is_auto (m : ApprovalMode) : bool := match m with Auto => true | _ => false end.

Definition run_tool (tc : ToolCall Value) : M ToolResult :=
result ← dispatch_tool tc;
result ← (if is_auto (approval_mode self) then retry AUTO_TOOL_RETRY_LIMIT 0 tc result
        else mret result);
feedback ← act (run_post_hooks tc result);
mret (mkResult (tool_call_id result) (append_feedback (res_content result) feedback)
      (is_error result)).

(** ** The questionnaire *)

Definition auto_has_open_work (w : World) : option str :=
if session_has_open_todos w then Some (lit "todos")
else if 0 <? running_count w then Some (lit "background tasks")
else None.

Definition should_prompt_questions (mode : ApprovalMode) (questions : list QuestionSpec) : bool :=
match mode with Auto => existsb important questions | Important | Manual => true end.

Definition question_gate (tc : ToolCall Value) : M ToolResult :=
open_work ← look (λ w, if is_auto (approval_mode self) then auto_has_open_work w else None);
match open_work with
| Some kind => mret (refuse_question_open_work (call_id tc) kind)
| None =>
  match parse_questions (arguments tc) with
  | inr e => mret (mkResult (call_id tc) (lit "Invalid questionnaire: " ++ e) true)
  | inl questions =>
      let must_prompt := should_prompt_questions (approval_mode self) questions in
      emit (EvQuestion must_prompt);;
      act (run_question_tool must_prompt (arguments tc) (call_id tc))
  end
end.

(** ** The whole method *)

Definition with_arguments (tc : ToolCall Value) (args : Value) : ToolCall Value :=
mkCall (call_id tc) (call_name tc) args.

Definition transform_tool_call (tc : ToolCall Value) : M (ToolCall Value) :=
if no_hooks self then mret tc
else
args ← act (run_transform_hooks tc);
mret (default tc (with_arguments tc <$> args)).

Definition restore_tool_call (tc : ToolCall Value) : ToolCall Value :=
if has_secrets self then default tc (with_arguments tc <$> restore_json (arguments tc)) else tc.

Definition execute_with_permission (tc : ToolCall Value) (turn_intent : option IntentAssessment)
: M ToolResult :=
tc ← transform_tool_call tc;
let tc := restore_tool_call tc in
if call_name tc == lit "question" then question_gate tc
else
x ← gates tc turn_intent;
match x with
| inl refused => mret refused
| inr _ => run_tool tc
end.
End gate.
Arguments nonempty_arg {_ _} _ _%_string.
