(* ===== verification/GateFacts.v ===== *)
(** What the gate guarantees: no tool runs unless every gate let it; a catastrophic
    command never runs; one prompt at most, and each audited; bounded retries. *)

From S2P Require Import Prelude RustStr Paths Permission Assess Intent ToolPolicy Gate.

(** ** Traces *)

Section traces.
Context {Value : Type}.
Notation Event := (Event Value).

Definition is_dispatch (e : Event) : bool := match e with EvDispatch _ _ _ => true | _ => false end.
Definition is_ask (e : Event) : bool := match e with EvAsk _ _ _ => true | _ => false end.
Definition is_question (e : Event) : bool := match e with EvQuestion _ => true | _ => false end.
Definition asks (tr : list Event) : nat := length (List.filter is_ask tr).
Definition dispatches (tr : list Event) : nat := length (List.filter is_dispatch tr).
Definition ask_approved (e : Event) : Prop := match e with EvAsk _ _ r => r = RAllow | _ => True end.

(** Every ask is followed at once by the audit line of its gate and reply. *)
Fixpoint audited (tr : list Event) : Prop :=
match tr with
| EvAsk g _ r :: (EvSafety g' o :: _) as rest => g' = g ∧ o = reply_outcome r ∧ audited rest
| EvAsk _ _ _ :: _ => False
| _ :: rest => audited rest
| [] => True
end.

Lemma audited_app t1 t2 : audited t1 → audited t2 → audited (t1 ++ t2).
Proof.
intros H1 H2. induction t1 as [|e t1 IH]; [done|].
destruct e; simpl in *; try (by apply IH).
destruct t1 as [|[] t1]; simpl in *; try done. naive_solver.
Qed.

Lemma asks_app t1 t2 : asks (t1 ++ t2) = asks t1 + asks t2.
Proof. unfold asks. by rewrite List.filter_app, length_app. Qed.
Lemma dispatches_app t1 t2 : dispatches (t1 ++ t2) = dispatches t1 + dispatches t2.
Proof. unfold dispatches. by rewrite List.filter_app, length_app. Qed.
Lemma dispatches_0 tr : dispatches tr = 0 ↔ ∀ t c r, EvDispatch t c r ∉ tr.
Proof.
unfold dispatches. induction tr as [|e tr IH]; [split; [intros _ t c r []%elem_of_nil|done]|].
destruct e; simpl; rewrite ?IH; setoid_rewrite elem_of_cons; try naive_solver.
Qed.
Lemma asks_0 tr : asks tr = 0 ↔ ∀ g d r, EvAsk g d r ∉ tr.
Proof.
unfold asks. induction tr as [|e tr IH]; [split; [intros _ g d r []%elem_of_nil|done]|].
destruct e; simpl; rewrite ?IH; setoid_rewrite elem_of_cons; try naive_solver.
Qed.
End traces.

(** ** Runs *)

Section facts.
Context {Value World QuestionSpec : Type} `{!Json Value} `{!GateEnv Value World QuestionSpec}.
Context (home : option str) (fuel : nat) (self : Agent) (working_dir : str).
Notation M := (M (Value := Value) (World := World)).
Notation Event := (Event Value).
Notation assess := (assess home fuel working_dir).
Notation ask_permission := (ask_permission home fuel self working_dir).
Notation confirm := (confirm home fuel self working_dir).
Notation approval_skips_ask := (approval_skips_ask home fuel self working_dir).
Notation gates := (gates home fuel self working_dir).
Notation execute := (execute_with_permission home fuel self working_dir).

(** [runs m w Q]: if [m] returns from [w], its value and trace satisfy [Q]. *)
Definition runs {A} (m : M A) (w : World) (Q : A → World → list Event → Prop) : Prop :=
match m w with Some (a, w', tr) => Q a w' tr | None => True end.

Lemma runs_mono {A} (m : M A) w (Q Q' : A → World → list Event → Prop) :
runs m w Q → (∀ a w' tr, Q a w' tr → Q' a w' tr) → runs m w Q'.
Proof. unfold runs. destruct (m w) as [[[a w'] tr]|]; auto. Qed.
Lemma runs_bind {A B} (m : M A) (f : A → M B) w (Q : B → World → list Event → Prop) :
runs m w (λ a w' tr, runs (f a) w' (λ b w'' tr', Q b w'' (tr ++ tr'))) → runs (m ≫= f) w Q.
Proof.
unfold runs, mbind, M_bind, mbind_. destruct (m w) as [[[a w'] tr]|]; [|done].
by destruct (f a w') as [[[b w''] tr']|].
Qed.
Lemma runs_ret {A} (a : A) w (Q : A → World → list Event → Prop) : Q a w [] → runs (mret a) w Q.
Proof. done. Qed.
Lemma runs_emit e w (Q : unit → World → list Event → Prop) : Q tt w [e] → runs (emit e) w Q.
Proof. done. Qed.
Lemma runs_act {A} (f : World → A * World) w (Q : A → World → list Event → Prop) :
Q (f w).1 (f w).2 [] → runs (act f) w Q.
Proof. unfold runs, act. by destruct (f w). Qed.
Lemma runs_look {A} (f : World → A) w (Q : A → World → list Event → Prop) :
Q (f w) w [] → runs (look f) w Q.
Proof. done. Qed.
Lemma runs_lift {A} (o : option A) w (Q : A → World → list Event → Prop) :
(∀ a, o = Some a → Q a w []) → runs (lift o) w Q.
Proof. unfold runs, lift. destruct o; simpl; auto. Qed.

(** ** Prompts *)

(** Whether a prompt is skipped does not touch the trace. *)
Lemma skips_runs tc w :
runs (approval_skips_ask tc) w (λ b w' tr, w' = w ∧ tr = []
∧ (b = true → fail_closed_ask self = false ∧ approval_mode self ≠ Manual)
∧ (fail_closed_ask self = false → approval_mode self = Auto → b = true)).
Proof.
unfold approval_skips_ask, Gate.approval_skips_ask, approval_ask_is_high_risk,
command_is_high_risk, schedule_command_is_high_risk, file_path_outside, command_is_high_risk.
destruct (fail_closed_ask self); [apply runs_ret; naive_solver|].
destruct (approval_mode self); [apply runs_ret; naive_solver| |apply runs_ret; naive_solver].
apply runs_bind.
assert (∀ w (m : M bool), runs m w (λ _ w' tr, w' = w ∧ tr = []) →
runs m w (λ a w' tr, runs (mret (negb a)) w' (λ b w'' tr', w'' = w ∧ tr ++ tr' = []
  ∧ (b = true → false = false ∧ Important ≠ Manual)
  ∧ (false = false → Important = Auto → b = true)))) as Hk.
{ intros w0 m Hm. eapply runs_mono; [exact Hm|]. intros a w' tr [-> ->]. apply runs_ret. naive_solver. }
apply Hk.
assert (∀ c, runs (a ← lift (assess c); mret (negb (is_allow (decide a (risk_threshold self))))) w
 (λ _ w' tr, w' = w ∧ tr = [])) as Ha.
{ intros c. apply runs_bind, runs_lift. intros a _. by apply runs_ret. }
repeat case_match; first [by apply runs_ret|by apply runs_look|apply Ha].
Qed.

Lemma ask_permission_runs tc gate detail w :
runs (ask_permission tc gate detail) w (λ reply w' tr,
(tr = [] ∧ reply = RAllow ∧ fail_closed_ask self = false ∧ approval_mode self ≠ Manual)
∨ (tr = [EvAsk gate detail reply; EvSafety gate (reply_outcome reply)]
   ∧ ¬ (fail_closed_ask self = false ∧ approval_mode self = Auto))).
Proof.
unfold ask_permission. apply runs_bind. eapply runs_mono; [apply skips_runs|].
intros [] w' tr (-> & -> & Hs & Ha); [apply runs_ret; left; naive_solver|].
apply runs_bind, runs_act. apply runs_bind, runs_emit. apply runs_bind, runs_emit. apply runs_ret.
right. split; [done|]. intros [H1 H2]. by specialize (Ha H1 H2).
Qed.

(** ** Gates *)

(** What a gate leaves behind: [c] is whether the call was confirmed before it,
[conf] whether it is after. *)
Record gate_post {A} (conf : A → bool) (tc : ToolCall Value) (c : bool) (x : ToolResult + A)
(tr : list Event) : Prop := {
gp_quiet : dispatches tr = 0;
gp_asks : asks tr + Nat.b2n c ≤ match x with inr a => Nat.b2n (conf a) | inl _ => 1 end;
gp_audit : audited tr;
gp_auto : fail_closed_ask self = false → approval_mode self = Auto → asks tr = 0;
gp_out : match x with
| inr _ => Forall ask_approved tr
| inl r => is_error r = true ∧ tool_call_id r = call_id tc
           ∧ ∃ pre g o, tr = pre ++ [EvSafety g o] ∧ o ≠ lit "approved"
end }.

Lemma seq_runs {A B} (m : M (ToolResult + A)) (f : A → M (ToolResult + B)) w Q :
runs m w (λ x w' tr, match x with
| inl r => Q (inl r) w' tr
| inr a => runs (f a) w' (λ y w'' tr', Q y w'' (tr ++ tr')) end) →
runs (seq_ m f) w Q.
Proof.
intros H. apply runs_bind. eapply runs_mono; [exact H|]. intros [r|a] w' tr HQ; [|exact HQ].
apply runs_ret. by rewrite app_nil_r.
Qed.

Lemma seq_post {A B} (conf1 : A → bool) (conf2 : B → bool) tc c m f w :
runs m w (λ x _ tr, gate_post conf1 tc c x tr) →
(∀ a w', runs (f a) w' (λ y _ tr, gate_post conf2 tc (conf1 a) y tr)) →
runs (seq_ m f) w (λ y _ tr, gate_post conf2 tc c y tr).
Proof.
intros Hm Hf. apply seq_runs. eapply runs_mono; [exact Hm|]. intros [r|a] w' tr [Q1 A1 U1 T1 O1].
- by constructor.
- eapply runs_mono; [apply Hf|]. intros y w'' tr' [Q2 A2 U2 T2 O2].
constructor.
+ rewrite dispatches_app. lia.
+ rewrite asks_app. destruct y; lia.
+ by apply audited_app.
+ intros H1 H2. rewrite asks_app, T1, T2 by done. done.
+ destruct y as [r|b].
  * destruct O2 as (? & ? & pre & g & o & -> & ?). split_and!; [done|done|].
    exists (tr ++ pre), g, o. by rewrite <- app_assoc.
  * by apply Forall_app.
Qed.

Lemma ok_post {A} (conf : A → bool) tc c a w :
(c = true → conf a = true) → runs (ok a) w (λ x _ tr, gate_post conf tc c x tr).
Proof.
intros H. apply runs_ret. constructor; simpl; try done. destruct c; simpl; [|lia]. by rewrite H.
Qed.
Lemma refuse_post {A} (conf : A → bool) tc c gate content w :
runs (refuse tc gate content) w (λ x _ tr, gate_post conf tc c x tr).
Proof.
apply runs_bind, runs_emit. apply runs_ret. constructor; simpl; try done.
- destruct c; simpl; lia.
- split_and!; [done|done|]. by exists [], gate, (lit "refused").
Qed.
Lemma confirm_post tc gate detail extra w :
runs (confirm tc gate detail extra) w (λ x _ tr, gate_post id tc false x tr).
Proof.
apply runs_bind. eapply runs_mono; [apply ask_permission_runs|].
intros reply w' tr [(-> & -> & Hf & Hm)|[-> Hn]]; simpl.
- apply runs_ret. constructor; simpl; try done. lia.
- unfold allowed. case_bool_decide as Hr.
+ subst. apply runs_ret. constructor; simpl; try done; [naive_solver|]. by repeat constructor.
+ apply runs_ret. constructor; simpl; try done; [naive_solver|]. split_and!; [done|done|].
  exists [EvAsk gate detail reply], gate, (reply_outcome reply). split; [done|]. by destruct reply.
Qed.

Lemma risk_post tc command a w :
runs (risk_gate home fuel self working_dir tc command a) w (λ x _ tr, gate_post id tc false x tr).
Proof. unfold risk_gate. case_match; [by apply ok_post|apply confirm_post|apply refuse_post]. Qed.
Lemma shell_rule_post tc command a c w :
runs (shell_rule_gate home fuel self working_dir tc command a c) w (λ x _ tr, gate_post id tc c x tr).
Proof.
unfold shell_rule_gate, apply_shell_ask. repeat case_match; try by apply ok_post.
- apply ok_post. intros ->. simpl. by rewrite orb_true_r.
- destruct c; [done|]. apply confirm_post.
- apply refuse_post.
Qed.
Lemma shell_post tc w :
runs (shell_gate home fuel self working_dir tc) w (λ x _ tr, gate_post id tc false x tr).
Proof.
unfold shell_gate. case_match; [|by apply ok_post].
apply runs_bind, runs_lift. intros a _.
eapply seq_post; [apply risk_post|]. intros c w'. apply shell_rule_post.
Qed.
Lemma intent_post tc ti c w :
runs (intent_gate home fuel self working_dir tc ti c) w (λ x _ tr, gate_post id tc c x tr).
Proof.
unfold intent_gate. repeat case_match; try by apply ok_post.
- apply refuse_post.
- apply runs_bind, runs_emit. apply runs_ret. constructor; simpl; try done; by repeat constructor.
- apply confirm_post.
Qed.
Lemma path_post tc c w :
runs (path_gate home fuel self working_dir tc c) w (λ x _ tr, gate_post id tc c x tr).
Proof.
unfold path_gate, path_rule_gate. repeat case_match; simplify_eq;
first [by apply ok_post|apply refuse_post|apply confirm_post].
Qed.
Lemma permission_post tc c w :
runs (permission_gate home fuel self working_dir tc c) w (λ x _ tr, gate_post id tc c x tr).
Proof.
unfold permission_gate. repeat case_match;
first [by apply ok_post|apply refuse_post|apply runs_bind, runs_look, confirm_post].
Qed.
Lemma hook_post tc c w : runs (hook_gate tc) w (λ x _ tr, gate_post (λ _, true) tc c x tr).
Proof. apply runs_bind, runs_act. case_match; [by apply ok_post|apply refuse_post]. Qed.

Lemma gates_post tc ti w :
runs (gates tc ti) w (λ x _ tr, gate_post (λ _, true) tc false x tr).
Proof.
unfold Gate.gates.
eapply seq_post; [apply shell_post|]. intros c w1.
eapply seq_post; [apply intent_post|]. intros c2 w2.
eapply seq_post; [apply path_post|]. intros c3 w3.
eapply seq_post; [apply permission_post|]. intros c4 w4. apply hook_post.
Qed.

(** ** What a call that passes has cleared *)

(** Nobody skips prompts. *)
Definition strict : Prop := fail_closed_ask self = true ∨ approval_mode self = Manual.
(** Auto mode with somebody there: every prompt is skipped. *)
Definition unattended : Prop := fail_closed_ask self = false ∧ approval_mode self = Auto.

(** An approval of the call: a prompt answered yes, or an allowing rule. *)
Definition consent (tc : ToolCall Value) (tr : list Event) : Prop :=
(∃ g d, EvAsk g d RAllow ∈ tr)
∨ (∃ path, file_tool_path tc = Some path
   ∧ action_for_path (permission self) (call_name tc) path = Some PAllow)
∨ (∃ command a, shell_command tc = Some command ∧ assess command = Some a
   ∧ action_for_shell (permission self) command = Some PAllow
   ∧ decide a (risk_threshold self) = Allow).

Definition shell_clear (tc : ToolCall Value) (tr : list Event) : Prop :=
∀ command, shell_command tc = Some command → ∃ a, assess command = Some a
∧ level a ≠ Catastrophic ∧ action_for_shell (permission self) command ≠ Some PDeny
∧ (decide a (risk_threshold self) ≠ Allow → ¬ unattended → ∃ d, EvAsk (lit "risk") d RAllow ∈ tr).
Definition intent_clear (tc : ToolCall Value) (ti : option IntentAssessment) : Prop :=
∀ i why, ti = Some i →
authorize_tool i (agent_name self) (call_name tc) (str_arg tc "command") (intent_guidance self)
≠ AuthRefuse why.
Definition path_clear (tc : ToolCall Value) : Prop :=
∀ path, file_tool_path tc = Some path →
action_for_path (permission self) (call_name tc) path ≠ Some PDeny.

(** A gate that passes keeps the confirmation, and confirms only with consent. *)
Definition pass_post (tc : ToolCall Value) (c : bool) (P : bool → list Event → Prop)
(x : ToolResult + bool) (tr : list Event) : Prop :=
match x with
| inl _ => True
| inr c' => P c' tr ∧ (strict → c' = true → c = true ∨ consent tc tr)
end.

Lemma consent_mono tc tr tr' : consent tc tr → tr ⊆ tr' → consent tc tr'.
Proof. intros [(g & d & H)|[H|H]] Hs; [left; exists g, d; by apply Hs|by right; left|by right; right]. Qed.

Lemma confirm_pass tc gate detail extra c w (P : bool → list Event → Prop) :
runs (approval_skips_ask tc) w (λ b _ _, b = true → P true []) →
(∀ d, P true [EvAsk gate d RAllow; EvSafety gate (lit "approved")]) →
runs (confirm tc gate detail extra) w (λ x _ tr, pass_post tc c P x tr).
Proof.
intros Hs Hp. apply runs_bind, runs_bind.
pose proof (skips_runs tc w) as Hk. unfold runs in *.
destruct (approval_skips_ask tc w) as [[[b w'] tr]|]; [|done].
destruct Hk as (-> & -> & Hm & _). destruct b; simpl.
- split; [by apply Hs|]. intros [H|H] _; destruct (Hm eq_refl) as [Hf Hn]; [congruence|done].
- unfold act, mbind, M_bind, mbind_. destruct (ask_reply _ _ _) as [reply w2]. simpl.
unfold allowed. case_bool_decide as Hr; simpl; [|done]. subst. split; [apply Hp|].
intros _ _. right. left. exists gate, detail. by left.
Qed.
Lemma ok_pass tc c c' w (P : bool → list Event → Prop) :
P c' [] → (strict → c' = true → c = true ∨ consent tc []) →
runs (ok c') w (λ x _ tr, pass_post tc c P x tr).
Proof. intros H1 H2. apply runs_ret. done. Qed.
Lemma refuse_pass tc c gate content w (P : bool → list Event → Prop) :
runs (refuse tc gate content) w (λ x _ tr, pass_post tc c P x tr).
Proof. apply runs_bind, runs_emit. by apply runs_ret. Qed.

Lemma seq_pass tc c m f w (P1 P2 P : bool → list Event → Prop) :
runs m w (λ x _ tr, pass_post tc c P1 x tr) →
(∀ c' w', runs (f c') w' (λ x _ tr, pass_post tc c' P2 x tr)) →
(∀ c1 c2 tr tr', P1 c1 tr → P2 c2 tr' → P c2 (tr ++ tr')) →
runs (seq_ m f) w (λ x _ tr, pass_post tc c P x tr).
Proof.
intros Hm Hf HP. apply seq_runs. eapply runs_mono; [exact Hm|].
intros [r|c'] w' tr; [done|]. intros [H1 C1]. eapply runs_mono; [apply Hf|].
intros [r|c''] w'' tr'; [done|]. intros [H2 C2]. split; [by eapply HP|].
intros Hs Hc. destruct (C2 Hs Hc) as [->|Hn].
- destruct (C1 Hs eq_refl) as [?|Hn]; [by left|right; eapply consent_mono; [exact Hn|set_solver]].
- right. eapply consent_mono; [exact Hn|set_solver].
Qed.

(** A prompt about the blast radius of a command is not skipped, except unattended. *)
Lemma skips_shell tc command a w :
shell_command tc = Some command → assess command = Some a → decide a (risk_threshold self) ≠ Allow →
runs (approval_skips_ask tc) w (λ b _ _, b = true → unattended).
Proof.
intros Hc Ha Hd. unfold approval_skips_ask, Gate.approval_skips_ask, unattended.
destruct (fail_closed_ask self); [by apply runs_ret|].
destruct (approval_mode self); [by apply runs_ret| |by apply runs_ret].
assert (runs (command_is_high_risk home fuel self working_dir command ≫= λ b, mret (negb b)) w
        (λ b _ _, b = true → false = false ∧ Important = Auto)) as H.
{ apply runs_bind, runs_bind, runs_lift. intros a' Ha'. unfold Gate.assess in *.
rewrite Ha in Ha'. injection Ha' as <-. apply runs_ret, runs_ret. by destruct (decide a _). }
unfold shell_command, scheduled_shell, is_shell_tool, SHELL_TOOLS in Hc.
unfold approval_ask_is_high_risk, schedule_command_is_high_risk.
destruct (call_name tc == lit "schedule") eqn:Hsch.
- boolp. rewrite Hsch in *.
change (lit "schedule" == lit "browser") with false.
change (is_one_of (lit "schedule") ["bash"; "shell"]%string) with false in *. simpl.
destruct (nonempty_arg tc "command"); [simplify_eq; exact H|done].
- destruct (is_one_of (call_name tc) ["bash"; "shell"]%string) eqn:Hsh; [|done]. simplify_eq.
destruct (call_name tc == lit "browser") eqn:Hb; [|exact H].
boolp. rewrite Hb in Hsh. vm_compute in Hsh. done.
Qed.

Lemma decide_not_refuse a th : (∀ why, decide a th ≠ Refuse why) → level a ≠ Catastrophic.
Proof. intros H Hc. unfold decide in H. rewrite Hc in H. simpl in H. by eapply H. Qed.

(** What the risk prompt establishes. *)
Definition risk_clear (a : Assessment) (tr : list Event) : Prop :=
level a ≠ Catastrophic
∧ (decide a (risk_threshold self) ≠ Allow → ¬ unattended → ∃ d, EvAsk (lit "risk") d RAllow ∈ tr).

Lemma risk_pass tc command a w :
shell_command tc = Some command → assess command = Some a →
runs (risk_gate home fuel self working_dir tc command a) w
(λ x _ tr, pass_post tc false (λ _, risk_clear a) x tr).
Proof.
intros Hc Ha. unfold risk_gate, risk_clear.
destruct (decide a (risk_threshold self)) as [|why|why] eqn:Hd.
- apply ok_pass; [|done]. split; [|done]. eapply decide_not_refuse. intros why. by rewrite Hd.
- assert (level a ≠ Catastrophic) as Hl by (eapply decide_not_refuse; intros w0; by rewrite Hd).
apply confirm_pass.
+ eapply runs_mono; [eapply skips_shell; [exact Hc|exact Ha|congruence]|].
  intros b w' tr Hb Hb'. split; [done|]. intros _ Hn. by destruct (Hn (Hb Hb')).
+ intros d. split; [done|]. intros _ _. exists d. by left.
- apply refuse_pass.
Qed.

Lemma shell_rule_pass tc command a c w :
shell_command tc = Some command → assess command = Some a →
runs (shell_rule_gate home fuel self working_dir tc command a c) w
(λ x _ tr, pass_post tc c (λ _ _, action_for_shell (permission self) command ≠ Some PDeny) x tr).
Proof.
intros Hc Ha. unfold shell_rule_gate, apply_shell_ask.
destruct (action_for_shell (permission self) command) as [[]|] eqn:Hs; [| |apply refuse_pass|].
- apply ok_pass; [done|]. intros _ [Hal|?]%orb_true_iff; [|by left]. right. right. right.
exists command, a. split_and!; try done. by destruct (decide a _).
- destruct c; [by apply ok_pass; [|left]|]. apply confirm_pass; [|done].
eapply runs_mono; [apply skips_runs|]. done.
- apply ok_pass; [done|by left].
Qed.

Lemma shell_pass tc w :
runs (shell_gate home fuel self working_dir tc) w
(λ x _ tr, pass_post tc false (λ _, shell_clear tc) x tr).
Proof.
unfold shell_gate, shell_clear. destruct (shell_command tc) as [command|] eqn:Hc.
- apply runs_bind, runs_lift. intros a Ha.
eapply seq_pass; [by eapply risk_pass|intros c' w'; by eapply shell_rule_pass|].
intros c1 c2 tr tr' [Hl Hr] Hd command' [= <-]. exists a. split_and!; try done.
intros Ho Hu. destruct (Hr Ho Hu) as [d Hin]. exists d. apply elem_of_app. by left.
- by apply ok_pass.
Qed.

(** A fact that does not depend on the run holds of a prompt's two outcomes. *)
Lemma confirm_pass_const tc gate detail extra c w (P : Prop) :
P → runs (confirm tc gate detail extra) w (λ x _ tr, pass_post tc c (λ _ _, P) x tr).
Proof. intros HP. apply confirm_pass; [|done]. eapply runs_mono; [apply skips_runs|]. done. Qed.

Lemma intent_pass tc ti c w :
runs (intent_gate home fuel self working_dir tc ti c) w
(λ x _ tr, pass_post tc c (λ _ _, intent_clear tc ti) x tr).
Proof.
unfold intent_gate, intent_confirm_body.
destruct ti as [i|]; [|apply ok_pass; [done|by left]].
destruct (authorize_tool _ _ _ _ _) as [|body|why] eqn:Ha; [| |apply refuse_pass];
assert (intent_clear tc (Some i)) as Hc by (intros i' why [= <-]; by rewrite Ha).
- apply ok_pass; [done|by left].
- destruct (fail_closed_ask self && _).
+ apply runs_bind, runs_emit, runs_ret. split; [done|by left].
+ destruct c; [apply ok_pass; [done|by left]|]. by apply confirm_pass_const.
Qed.

Lemma path_pass tc c w :
runs (path_gate home fuel self working_dir tc c) w
(λ x _ tr, pass_post tc c (λ _ _, path_clear tc) x tr).
Proof.
unfold path_gate, path_rule_gate.
destruct (file_tool_path tc) as [path|] eqn:Hp;
[|apply ok_pass; [intros path E; congruence|by left]].
destruct (action_for_path _ _ path) as [[]|] eqn:Ha; [| |apply refuse_pass|];
assert (path_clear tc) as Hc by (intros path' E; rewrite Hp in E; injection E as <-; by rewrite Ha).
- apply ok_pass; [done|]. intros _ _. right. right. left. by exists path.
- destruct c; [apply ok_pass; [done|by left]|]. by apply confirm_pass_const.
- apply ok_pass; [done|by left].
Qed.

Lemma permission_pass tc c w :
runs (permission_gate home fuel self working_dir tc c) w
(λ x _ tr, pass_post tc c (λ c' _, action_for (permission self) (call_name tc) ≠ PDeny
   ∧ (action_for (permission self) (call_name tc) = PAsk → c' = true)) x tr).
Proof.
unfold permission_gate. destruct (action_for _ _) eqn:Ha; [| |apply refuse_pass].
- apply ok_pass; [done|by left].
- destruct c; [apply ok_pass; [done|by left]|]. apply runs_bind, runs_look.
apply confirm_pass; [|by intros d].
eapply runs_mono; [apply skips_runs|]. by intros b w' tr _ _.
Qed.

(** A call that passes every gate. *)
Definition cleared (tc : ToolCall Value) (ti : option IntentAssessment) (tr : list Event) : Prop :=
shell_clear tc tr ∧ intent_clear tc ti ∧ path_clear tc
∧ action_for (permission self) (call_name tc) ≠ PDeny
∧ (action_for (permission self) (call_name tc) = PAsk → strict → consent tc tr).

Lemma shell_clear_mono tc tr tr' : shell_clear tc tr → tr ⊆ tr' → shell_clear tc tr'.
Proof.
intros H Hs command Hc. destruct (H command Hc) as (a & Ha & Hl & Hd & Hr). exists a.
split_and!; try done. intros Ho Hu. destruct (Hr Ho Hu) as [d Hin]. exists d. by apply Hs.
Qed.

Lemma runs_any {A} (m : M A) w : runs m w (λ _ _ _, True).
Proof. unfold runs. by destruct (m w) as [[[? ?] ?]|]. Qed.

(** One more gate of the chain: what it passes with. *)
Ltac next_gate lem x w tr H C :=
apply seq_runs; eapply runs_mono; [apply lem|]; intros [?|x] w tr; [done|]; intros [H C].

Lemma gates_cleared tc ti w :
runs (gates tc ti) w (λ x _ tr, match x with inl _ => True | inr _ => cleared tc ti tr end).
Proof.
unfold Gate.gates.
next_gate shell_pass c1 w1 tr1 H1 C1. next_gate intent_pass c2 w2 tr2 H2 C2.
next_gate path_pass c3 w3 tr3 H3 C3. next_gate permission_pass c4 w4 tr4 H4 C4.
eapply runs_mono; [apply runs_any|]. intros [?|u] w5 tr5 _; [done|]. unfold cleared.
split_and!; [|exact H2|exact H3|exact (proj1 H4)|].
- eapply shell_clear_mono; [exact H1|set_solver].
- intros Ha Hs. destruct (C4 Hs (proj2 H4 Ha)) as [E|Hn];
  [|eapply consent_mono; [exact Hn|set_solver]].
destruct (C3 Hs E) as [E'|Hn]; [|eapply consent_mono; [exact Hn|set_solver]].
destruct (C2 Hs E') as [E2|Hn]; [|eapply consent_mono; [exact Hn|set_solver]].
destruct (C1 Hs E2) as [|Hn]; [done|eapply consent_mono; [exact Hn|set_solver]].
Qed.

Lemma cleared_mono tc ti tr tr' : cleared tc ti tr → tr ⊆ tr' → cleared tc ti tr'.
Proof.
intros (H1 & H2 & H3 & H4 & H5) Hs. split_and!; try done; [by eapply shell_clear_mono|].
intros Ha Hst. by eapply consent_mono; [apply H5|].
Qed.

(** ** Dispatch *)

Definition outcome (e : Event) : option ToolResult :=
match e with EvDispatch _ _ r => Some r | _ => None end.
(** The results of the dispatches, in order. *)
Definition outcomes (tr : list Event) : list ToolResult := omap outcome tr.

Lemma outcomes_app t1 t2 : outcomes (t1 ++ t2) = outcomes t1 ++ outcomes t2.
Proof. apply omap_app. Qed.
Lemma outcomes_dispatches tr : length (outcomes tr) = dispatches tr.
Proof. unfold dispatches. induction tr as [|[] tr IH]; simpl; congruence. Qed.
Lemma outcomes_nil tr : dispatches tr = 0 → outcomes tr = [].
Proof. rewrite <- outcomes_dispatches. apply nil_length_inv. Qed.

(** The events of running [tc]: its own dispatches, and retries. *)
Definition runs_only (tc : ToolCall Value) (e : Event) : Prop :=
match e with
| EvDispatch t c _ => t = dispatch_target self c ∧ c = tc
| EvRetry _ => True
| _ => False
end.

Lemma dispatch_runs tc w :
runs (dispatch_tool self tc) w (λ r _ tr, tr = [EvDispatch (dispatch_target self tc) tc r]).
Proof. apply runs_bind, runs_act, runs_bind, runs_emit, runs_ret. done. Qed.

Lemma retry_runs n k tc r w :
runs (retry self n k tc r) w (λ r' _ tr, Forall (runs_only tc) tr
∧ ∃ failed, r :: outcomes tr = failed ++ [r'] ∧ length failed ≤ n
  ∧ Forall (λ x, tool_error_is_retryable (call_name tc) x = true) failed
  ∧ (length failed < n → tool_error_is_retryable (call_name tc) r' = false)).
Proof.
revert k r w. induction n as [|n IH]; intros k r w; simpl.
- apply runs_ret. split; [constructor|]. exists []. split_and!; try done. simpl. lia.
- destruct (tool_error_is_retryable (call_name tc) r) eqn:Hr.
+ apply runs_bind, runs_emit, runs_bind. eapply runs_mono; [apply dispatch_runs|].
  intros r1 w1 tr1 ->. eapply runs_mono; [apply IH|].
  intros r2 w2 tr2 (Hf & failed & E & Hl & Hret & Hlast). split.
  * simpl. repeat constructor; done.
  * exists (r :: failed). simpl. rewrite E. split_and!; [done|lia|by constructor|].
    intros ?. apply Hlast. lia.
+ apply runs_ret. split; [constructor|]. exists []. split_and!; try done. simpl. lia.
Qed.

(** One call run: its attempts, and the result with the feedback of the hooks. *)
Definition attempts (tc : ToolCall Value) (result : ToolResult) (results : list ToolResult) : Prop :=
∃ failed final feedback, results = failed ++ [final]
∧ result = mkResult (tool_call_id final) (append_feedback (res_content final) feedback)
             (is_error final)
∧ length failed ≤ AUTO_TOOL_RETRY_LIMIT
∧ Forall (λ x, tool_error_is_retryable (call_name tc) x = true) failed
∧ (approval_mode self ≠ Auto → failed = [])
∧ (approval_mode self = Auto → length failed < AUTO_TOOL_RETRY_LIMIT →
     tool_error_is_retryable (call_name tc) final = false).

Lemma run_tool_runs tc w :
runs (run_tool self tc) w (λ r _ tr, Forall (runs_only tc) tr ∧ attempts tc r (outcomes tr)).
Proof.
unfold run_tool. apply runs_bind. eapply runs_mono; [apply dispatch_runs|]. intros r1 w1 tr1 ->.
apply runs_bind.
apply (runs_mono _ _ (λ r' _ tr, Forall (runs_only tc) tr
∧ ∃ failed, r1 :: outcomes tr = failed ++ [r'] ∧ length failed ≤ AUTO_TOOL_RETRY_LIMIT
  ∧ Forall (λ x, tool_error_is_retryable (call_name tc) x = true) failed
  ∧ (approval_mode self ≠ Auto → failed = [])
  ∧ (approval_mode self = Auto → length failed < AUTO_TOOL_RETRY_LIMIT →
       tool_error_is_retryable (call_name tc) r' = false))).
- destruct (approval_mode self) eqn:Hm; cbn [is_auto].
+ eapply runs_mono; [apply retry_runs|]. intros r' w' tr (Hf & failed & E & Hl & Hret & Hlast).
  split; [done|]. exists failed. naive_solver.
+ apply runs_ret. split; [constructor|]. exists []. split_and!; try done. simpl. lia.
+ apply runs_ret. split; [constructor|]. exists []. split_and!; try done. simpl. lia.
- intros r2 w2 tr2 (Hf & failed & E & H1 & H2 & H3 & H4). apply runs_bind, runs_act, runs_ret.
rewrite !app_nil_r. split; [by constructor|]. simpl.
exists failed, r2, (run_post_hooks tc r2 w2).1. by split_and!.
Qed.

Lemma runs_only_quiet tc tr : Forall (runs_only tc) tr → asks tr = 0 ∧ audited tr ∧ Forall ask_approved tr.
Proof.
induction 1 as [|e tr He Htr (H1 & H2 & H3)]; [split_and!; [done|done|constructor]|].
destruct e; try done; split_and!; try done; by constructor.
Qed.

(** ** The whole method *)

(** The call that is judged and run: transformed by hooks, secrets restored. *)
Definition effective (tc : ToolCall Value) (w : World) : ToolCall Value :=
restore_tool_call self
(if no_hooks self then tc
 else default tc (with_arguments tc <$> (run_transform_hooks tc w).1)).

Lemma execute_runs tc ti w Q :
(∀ w1, let c := effective tc w in
 if call_name c == lit "question" then runs (question_gate self c) w1 Q
 else runs (x ← gates c ti; match x with inl r => mret r | inr _ => run_tool self c end) w1 Q) →
runs (execute tc ti) w Q.
Proof.
intros H. unfold execute_with_permission, effective in *. apply runs_bind. unfold transform_tool_call.
destruct (no_hooks self); simpl.
- apply runs_ret. specialize (H w). simpl in *.
destruct (call_name (restore_tool_call self tc) == _); (eapply runs_mono; [apply H|done]).
- apply runs_bind, runs_act, runs_ret. specialize (H (run_transform_hooks tc w).2). simpl in *.
destruct (call_name (restore_tool_call self _) == _); (eapply runs_mono; [apply H|done]).
Qed.

Lemma question_runs tc w :
runs (question_gate self tc) w (λ _ _ tr, asks tr = 0 ∧ audited tr ∧ dispatches tr = 0).
Proof.
unfold question_gate. apply runs_bind, runs_look.
destruct (if is_auto _ then _ else _); [by apply runs_ret|].
destruct (parse_questions _); [|by apply runs_ret].
apply runs_bind, runs_emit, runs_act. done.
Qed.

(** Everything a run of a call other than [question] can be. *)
Lemma gated_runs c ti w :
runs (x ← gates c ti; match x with inl r => mret r | inr _ => run_tool self c end) w (λ r _ tr,
gate_post (λ _ : unit, true) c false (inl r) tr
∨ ∃ t1 t2, tr = t1 ++ t2 ∧ gate_post (λ _, true) c false (inr ()) t1 ∧ cleared c ti t1
    ∧ Forall (runs_only c) t2 ∧ attempts c r (outcomes t2)).
Proof.
apply runs_bind. pose proof (gates_post c ti w) as Hp. pose proof (gates_cleared c ti w) as Hc.
unfold runs at 1. unfold runs in Hp, Hc. destruct (gates c ti w) as [[[x w1] t1]|]; [|done].
destruct x as [r|[]].
- apply runs_ret. rewrite app_nil_r. by left.
- eapply runs_mono; [apply run_tool_runs|]. intros r w2 t2 [H1 H2]. right. by exists t1, t2.
Qed.

Lemma execute_inv tc ti w r w' tr :
execute tc ti w = Some (r, w', tr) →
let c := effective tc w in
(call_name c = lit "question" ∧ asks tr = 0 ∧ audited tr ∧ dispatches tr = 0)
∨ (call_name c ≠ lit "question"
 ∧ (gate_post (λ _ : unit, true) c false (inl r) tr
    ∨ ∃ t1 t2, tr = t1 ++ t2 ∧ gate_post (λ _, true) c false (inr ()) t1 ∧ cleared c ti t1
        ∧ Forall (runs_only c) t2 ∧ attempts c r (outcomes t2))).
Proof.
intros E c.
assert (runs (execute tc ti) w (λ r _ tr,
(call_name c = lit "question" ∧ asks tr = 0 ∧ audited tr ∧ dispatches tr = 0)
∨ (call_name c ≠ lit "question"
 ∧ (gate_post (λ _ : unit, true) c false (inl r) tr
    ∨ ∃ t1 t2, tr = t1 ++ t2 ∧ gate_post (λ _, true) c false (inr ()) t1 ∧ cleared c ti t1
        ∧ Forall (runs_only c) t2 ∧ attempts c r (outcomes t2))))) as H;
[|unfold runs in H; rewrite E in H; exact H].
apply execute_runs. intros w1. change (effective tc w) with c. cbv zeta.
destruct (call_name c == lit "question") eqn:Hq; boolp.
- eapply runs_mono; [apply question_runs|]. intros a wa ta Ha. by left.
- eapply runs_mono; [apply gated_runs|]. intros a wa ta Ha. by right.
Qed.

(** C3: no tool runs unless every gate let it: what is dispatched is the call as the
hooks rewrote it with its secrets restored, and before it is dispatched its
command was classified, is not catastrophic, is not denied by a shell rule and,
if it needs confirmation, was approved in a prompt of the risk gate (unless auto
mode runs unattended); the turn's intent does not refuse it; no path rule and no
permission denies it; an [ask] permission was met by an approval or an allowing
rule when prompts are not skipped; and no prompt was answered other than yes. *)
Theorem dispatch_cleared tc ti w r w' pre t c res post :
execute tc ti w = Some (r, w', pre ++ EvDispatch t c res :: post) →
c = effective tc w ∧ t = dispatch_target self c ∧ call_name c ≠ lit "question"
∧ Forall ask_approved pre
∧ (∀ command, shell_command c = Some command → ∃ a, assess command = Some a
   ∧ level a ≠ Catastrophic ∧ action_for_shell (permission self) command ≠ Some PDeny
   ∧ (decide a (risk_threshold self) ≠ Allow → ¬ unattended →
      ∃ d, EvAsk (lit "risk") d RAllow ∈ pre))
∧ (∀ i why, ti = Some i →
   authorize_tool i (agent_name self) (call_name c) (str_arg c "command") (intent_guidance self)
   ≠ AuthRefuse why)
∧ (∀ path, file_tool_path c = Some path →
   action_for_path (permission self) (call_name c) path ≠ Some PDeny)
∧ action_for (permission self) (call_name c) ≠ PDeny
∧ (action_for (permission self) (call_name c) = PAsk → strict → consent c pre).
Proof.
intros E.
assert (dispatches (pre ++ EvDispatch t c res :: post) ≠ 0) as Hnz
by (rewrite dispatches_app; simpl; unfold dispatches; simpl; lia).
destruct (execute_inv _ _ _ _ _ _ E) as [(_ & _ & _ & Hd)|(Hq & [Hp|(t1 & t2 & Et & Hp & Hc & Hr & _)])];
[done|by destruct (Hnz (gp_quiet _ _ _ _ _ Hp))|].
assert (∃ k, pre = t1 ++ k ∧ t2 = k ++ EvDispatch t c res :: post) as (k & -> & ->).
{ apply app_eq_app in Et as (k & [[-> E2]|[-> E2]]); [by exists k|].
destruct k as [|e k]; simpl in E2; [exists []; by rewrite !app_nil_r|].
injection E2 as <- ->. destruct Hp as [Hz _ _ _ _]. rewrite dispatches_app in Hz.
unfold dispatches in Hz. simpl in Hz. lia. }
apply Forall_app in Hr as [Hk Hd]. apply Forall_cons in Hd as [[Ht Hc'] _]. rewrite Hc' in *.
split_and!; try done.
- apply Forall_app. split; [exact (gp_out _ _ _ _ _ Hp)|]. by eapply runs_only_quiet.
- eapply shell_clear_mono; [apply Hc|set_solver].
- apply Hc.
- apply Hc.
- apply Hc.
- intros Ha Hs. eapply consent_mono; [by apply Hc|set_solver].
Qed.

(** C5: permission prompts, in every run of the gate that returns: at most one per call,
each followed at once by the audit line that names its gate and the reply; none when
auto mode runs unattended. The questionnaire is never prompted for nor dispatched; any
other call that is not dispatched is answered by an error with its own id, the refusal
or denial being the last line of the audit. *)
Theorem prompts_audited tc ti w r w' tr :
execute tc ti w = Some (r, w', tr) →
asks tr ≤ 1 ∧ audited tr ∧ (unattended → asks tr = 0)
∧ (call_name (effective tc w) = lit "question" → asks tr = 0 ∧ dispatches tr = 0)
∧ (dispatches tr = 0 → call_name (effective tc w) ≠ lit "question" →
 is_error r = true ∧ tool_call_id r = call_id (effective tc w)
 ∧ ∃ pre g o, tr = pre ++ [EvSafety g o] ∧ o ≠ lit "approved").
Proof.
intros E. unfold unattended.
destruct (execute_inv _ _ _ _ _ _ E) as [(Hq & Ha & Hu & Hd)|(Hq & [Hp|(t1 & t2 & -> & Hp & Hc & Hr & Ht)])].
- rewrite Ha. split_and!; done || lia.
- destruct Hp as [_ Ha Hu Hau Ho]. simpl in Ha. split_and!; [lia|done|by intros [? ?]; apply Hau|done|by intros _ _].
- destruct (runs_only_quiet _ _ Hr) as (H1 & H2 & _). destruct Hp as [_ Ha Hu Hau Ho].
simpl in Ha. rewrite asks_app, H1, dispatches_app. split_and!.
+ lia.
+ by apply audited_app.
+ intros [Hf Hm]. by rewrite Hau.
+ done.
+ destruct Ht as (failed & final & fb & Eo & _). rewrite <- (outcomes_dispatches t2), Eo, length_app.
  simpl. lia.
Qed.

(** A call is dispatched at most three times, and once outside auto mode: every
attempt but the last failed in a way worth repeating, auto mode stops only at a
result that is not or at the limit, and the answer is the last attempt's result
with the feedback of the post-tool hooks. *)
Theorem dispatch_attempts tc ti w r w' tr :
execute tc ti w = Some (r, w', tr) → dispatches tr ≠ 0 →
attempts (effective tc w) r (outcomes tr) ∧ dispatches tr ≤ 1 + AUTO_TOOL_RETRY_LIMIT.
Proof.
intros E Hnz.
destruct (execute_inv _ _ _ _ _ _ E) as [(_ & _ & _ & Hd)|(Hq & [Hp|(t1 & t2 & -> & Hp & Hc & Hr & Ht)])];
[done|by destruct (Hnz (gp_quiet _ _ _ _ _ Hp))|].
pose proof (gp_quiet _ _ _ _ _ Hp) as Hz.
rewrite outcomes_app, (outcomes_nil t1) by done. split; [exact Ht|].
destruct Ht as (failed & final & fb & Eo & _ & Hl & _).
rewrite <- outcomes_dispatches, outcomes_app, (outcomes_nil t1), Eo by done.
simpl. rewrite length_app. simpl. lia.
Qed.

(** ** Refusal of catastrophic commands *)

Lemma gates_refuse_catastrophic c ti w command a :
shell_command c = Some command → assess command = Some a → level a = Catastrophic →
∃ r, gates c ti w = Some (inl r, w, [EvSafety (lit "risk") (lit "refused")])
∧ is_error r = true ∧ tool_call_id r = call_id c.
Proof.
intros Hc Ha Hl. assert (∃ why, decide a (risk_threshold self) = Refuse why) as [why Hd].
{ unfold decide. rewrite Hl. simpl. by eexists. }
unfold Gate.gates, shell_gate. rewrite Hc. unfold seq_, mbind, M_bind, mbind_, lift. rewrite Ha.
simpl. unfold risk_gate. rewrite Hd. simpl. by eexists.
Qed.

(** C4: a command classified catastrophic never runs: whatever the permission set,
approval mode, threshold, intent and environment, the call is answered with an
error, no tool is dispatched and nobody is asked. *)
Theorem catastrophic_never_runs tc ti w command a :
let c := effective tc w in
shell_command c = Some command → assess command = Some a → level a = Catastrophic →
∃ r w', execute tc ti w = Some (r, w', [EvSafety (lit "risk") (lit "refused")])
∧ is_error r = true ∧ tool_call_id r = call_id tc.
Proof.
intros c Hc Ha Hl.
assert (call_id c = call_id tc) as Hid.
{ subst c. unfold effective, restore_tool_call, with_arguments.
destruct (has_secrets self), (no_hooks self), (run_transform_hooks tc w).1; simpl; try done;
  by destruct (restore_json _). }
assert (call_name c ≠ lit "question") as Hq.
{ intros Hq. unfold shell_command, scheduled_shell in Hc. rewrite Hq in Hc. vm_compute in Hc. done. }
assert (∃ w1, transform_tool_call self tc w = Some
        (if no_hooks self then tc
         else default tc (with_arguments tc <$> (run_transform_hooks tc w).1), w1, [])) as [w1 Ht].
{ unfold transform_tool_call. destruct (no_hooks self); [by exists w|].
unfold mbind, M_bind, mbind_, act. destruct (run_transform_hooks tc w) as [o w1]. by exists w1. }
destruct (gates_refuse_catastrophic c ti w1 command a Hc Ha Hl) as (r & Hg & He & Hr).
exists r, w1. split; [|split; [done|congruence]].
unfold execute_with_permission, mbind at 1, M_bind at 1, mbind_ at 1. rewrite Ht.
fold (effective tc w). change (effective tc w) with c. cbv zeta.
rewrite bool_decide_eq_false_2 by done.
unfold mbind, M_bind, mbind_. rewrite Hg. done.
Qed.

(** ** The gate returns *)

Definition returns {A} (m : M A) : Prop := ∀ w, is_Some (m w).

Lemma returns_bind {A B} (m : M A) (f : A → M B) :
returns m → (∀ a, returns (f a)) → returns (m ≫= f).
Proof.
intros Hm Hf w. unfold mbind, M_bind, mbind_. destruct (Hm w) as [[[a w'] tr] ->].
destruct (Hf a w') as [[[b w''] tr'] ->]. done.
Qed.
Lemma returns_ret {A} (a : A) : returns (mret a).
Proof. intros w. by eexists. Qed.
Lemma returns_emit e : returns (emit e).
Proof. intros w. by eexists. Qed.
Lemma returns_act {A} (f : World → A * World) : returns (act f).
Proof. intros w. unfold act. by destruct (f w). Qed.
Lemma returns_look {A} (f : World → A) : returns (look f).
Proof. intros w. by eexists. Qed.
Lemma returns_lift {A} (o : option A) : is_Some o → returns (lift o).
Proof. intros [a ->] w. by eexists. Qed.
Lemma returns_seq {A B} (m : M (ToolResult + A)) (f : A → M (ToolResult + B)) :
returns m → (∀ a, returns (f a)) → returns (seq_ m f).
Proof. intros Hm Hf. apply returns_bind; [done|]. intros [r|a]; [apply returns_ret|apply Hf]. Qed.

(** The command of the call, if it is gated on one, is classified. *)
Definition classified (tc : ToolCall Value) : Prop :=
∀ command, shell_command tc = Some command → is_Some (assess command).

Lemma skips_returns tc : classified tc → returns (approval_skips_ask tc).
Proof.
intros Hc. unfold approval_skips_ask, Gate.approval_skips_ask.
destruct (fail_closed_ask self); [apply returns_ret|].
destruct (approval_mode self); [apply returns_ret| |apply returns_ret].
apply returns_bind; [|intros b; apply returns_ret].
unfold classified, shell_command, scheduled_shell, is_shell_tool, SHELL_TOOLS in Hc.
unfold approval_ask_is_high_risk, schedule_command_is_high_risk, command_is_high_risk,
file_path_outside.
destruct (call_name tc == lit "browser"); [apply returns_ret|].
destruct (call_name tc == lit "schedule") eqn:Hs.
- boolp. rewrite Hs in *. change (is_one_of (lit "schedule") ["bash"; "shell"]%string) with false in *.
simpl in *. destruct (nonempty_arg tc "command"); [|apply returns_ret].
apply returns_bind; [apply returns_lift; by apply Hc|intros a; apply returns_ret].
- destruct (is_one_of (call_name tc) ["bash"; "shell"]%string).
+ apply returns_bind; [apply returns_lift; by apply Hc|intros a; apply returns_ret].
+ destruct (file_tool_path tc); [apply returns_look|apply returns_ret].
Qed.

Lemma confirm_returns tc gate detail extra : classified tc → returns (confirm tc gate detail extra).
Proof.
intros Hc. apply returns_bind.
- apply returns_bind; [by apply skips_returns|]. intros []; [apply returns_ret|].
apply returns_bind; [apply returns_act|]. intros reply.
apply returns_bind; [apply returns_emit|]. intros _.
apply returns_bind; [apply returns_emit|]. intros _. apply returns_ret.
- intros reply. destruct (allowed reply); apply returns_ret.
Qed.
Lemma refuse_returns {A} tc gate content : returns (@refuse Value World A tc gate content).
Proof. intros w. by eexists. Qed.

(** Each gate is a choice between passing, refusing and asking. *)
Ltac gate_returns :=
repeat first
[ apply refuse_returns | apply confirm_returns; assumption | apply returns_ret
| apply returns_seq; [|intros ?] | apply returns_bind; [|intros ?]
| apply returns_emit | apply returns_look | apply returns_act | progress case_match ].

Lemma gates_return tc ti : classified tc → returns (gates tc ti).
Proof.
intros Hc. unfold Gate.gates. apply returns_seq; [|intros c1].
{ unfold shell_gate. destruct (shell_command tc) as [command|] eqn:Hs; [|apply returns_ret].
apply returns_bind; [apply returns_lift; by apply Hc|intros a].
apply returns_seq; [unfold risk_gate; gate_returns|intros c; unfold shell_rule_gate; gate_returns]. }
apply returns_seq; [unfold intent_gate; gate_returns|intros c2].
apply returns_seq; [unfold path_gate; gate_returns|intros c3].
apply returns_seq; [unfold permission_gate; gate_returns|intros c4].
unfold hook_gate; gate_returns.
Qed.

Lemma retry_returns n k tc r : returns (retry self n k tc r).
Proof.
revert k r. induction n as [|n IH]; intros k r; [apply returns_ret|].
cbn [retry]. destruct (tool_error_is_retryable _ _); [|apply returns_ret].
apply returns_bind; [apply returns_emit|]. intros _.
apply returns_bind; [unfold dispatch_tool; gate_returns|]. intros r'. apply IH.
Qed.

(** C6: the gate always returns: whatever the environment answers, a call whose
command, if it is gated on one, can be classified gets a result. *)
Theorem execute_returns tc ti w :
classified (effective tc w) → ∃ r w' tr, execute tc ti w = Some (r, w', tr).
Proof.
intros Hc. assert (∀ w1, is_Some ((if call_name (effective tc w) == lit "question"
  then question_gate self (effective tc w)
  else x ← gates (effective tc w) ti;
       match x with inl r => mret r | inr _ => run_tool self (effective tc w) end) w1)) as H.
{ intros w1. destruct (call_name (effective tc w) == _).
- unfold question_gate. revert w1. fold (returns (A := ToolResult)). gate_returns.
- revert w1. apply returns_bind; [by apply gates_return|]. intros [r|u]; [apply returns_ret|].
  unfold run_tool. apply returns_bind; [unfold dispatch_tool; gate_returns|]. intros r.
  apply returns_bind; [case_match; [apply retry_returns|apply returns_ret]|]. intros r'. gate_returns. }
unfold execute_with_permission, mbind at 1, M_bind at 1, mbind_ at 1, transform_tool_call.
unfold effective in H. destruct (no_hooks self); simpl in *.
- destruct (H w) as [[[r w'] tr] E]. cbv zeta. rewrite E. by eexists _, _, _.
- unfold mbind at 1, M_bind at 1, mbind_ at 1, act. destruct (run_transform_hooks tc w) as [o w1].
simpl in *. destruct (H w1) as [[[r w'] tr] E]. rewrite E. by eexists _, _, _.
Qed.

(** ** Questions and paths *)

(** The questionnaire reaches the user exactly when the mode is not auto or a
question is marked important; in auto mode with open todos or background jobs it
is refused before anything is asked; and a questionnaire that does not parse is
answered with an error. *)
Theorem question_spec tc w :
let auto := bool_decide (approval_mode self = Auto) in
match (if auto then auto_has_open_work w else None), parse_questions (arguments tc) with
| Some kind, _ =>
  question_gate self tc w = Some (refuse_question_open_work (call_id tc) kind, w, [])
| None, inr e => ∃ r, question_gate self tc w = Some (r, w, [])
  ∧ is_error r = true ∧ tool_call_id r = call_id tc
| None, inl questions => ∃ r w' b, question_gate self tc w = Some (r, w', [EvQuestion b])
  ∧ (b = true ↔ auto = false ∨ ∃ q, q ∈ questions ∧ important q = true)
  ∧ (r, w') = run_question_tool b (arguments tc) (call_id tc) w
end.
Proof.
cbv zeta. unfold question_gate, mbind, M_bind, mbind_, look.
assert (∀ A (x y : A), (if is_auto (approval_mode self) then x else y)
                    = if bool_decide (approval_mode self = Auto) then x else y) as Hm
by (intros; by destruct (approval_mode self)).
rewrite Hm. destruct (if bool_decide _ then _ else _) as [kind|]; [done|].
destruct (parse_questions (arguments tc)) as [qs|e]; [|by eexists].
unfold emit, act. destruct (run_question_tool _ _ _ w) as [r w'] eqn:Hr.
eexists r, w', _. split; [done|]. split; [|done].
unfold should_prompt_questions. destruct (approval_mode self); simpl; [|naive_solver..].
rewrite existsb_true_iff. naive_solver.
Qed.

(** In important mode the check for paths outside the workspace looks at the
first component only: a relative path that starts with an ordinary name counts
as inside, wherever its [..] lead, so the prompt for the call is skipped. *)
Theorem important_skips_dotdot tc w first rest :
fail_closed_ask self = false → approval_mode self = Important →
is_one_of (call_name tc) ["browser"; "bash"; "shell"; "schedule"]%string = false →
file_tool_path tc = Some (first ++ lit "/" ++ rest) →
first ≠ [] → forallb (λ c, negb (is_sep c)) first = true → first ≠ lit ".." → first ≠ lit "~" →
approval_skips_ask tc w = Some (true, w, []).
Proof.
intros Hf Hm Hn Hp H1 H2 H3 H4.
assert (∀ l, forallb (λ c, negb (is_sep c)) l = true →
∃ ps, split_on is_sep (l ++ lit "/" ++ rest) = l :: ps) as Hsp.
{ induction l as [|d l IH]; intros Hl; simpl in *; [by eexists|]. boolp.
destruct IH as [ps Hps]; [done|]. rewrite H. simpl in Hps. rewrite Hps. by eexists. }
assert (∀ w', path_outside_workspace (canonicalize w') (first ++ lit "/" ++ rest) working_dir = false)
as Hout.
{ intros w'. unfold path_outside_workspace. destruct (Hsp first H2) as [ps ->].
assert (path_is_absolute (first ++ lit "/" ++ rest) = false) as ->.
{ destruct first as [|c first]; [done|]. simpl in H2. boolp. unfold is_sep in *. boolp.
  unfold path_is_absolute, starts_with. case_bool_decide as Hs; [|done].
  destruct Hs as [r Hs%strip_prefix_Some]. injection Hs as ? _. done. }
simpl. rewrite bool_decide_eq_false_2 by done. simpl. unfold is_one_of. simpl.
by rewrite !bool_decide_eq_false_2. }
unfold is_one_of in Hn. simpl in Hn. boolp.
unfold approval_skips_ask, Gate.approval_skips_ask, approval_ask_is_high_risk, file_path_outside.
rewrite Hf, Hm, Hp. unfold is_one_of, mbind, M_bind, mbind_, look, existsb.
rewrite !bool_decide_eq_false_2 by done. simpl. by rewrite Hout.
Qed.
End facts.

(** ** A small environment, on which the theorems are instantiated *)

Module Toy.
Inductive TVal := TStr (s : str) | TBool (b : bool) | TObj (map : list (str * str)).

#[global] Instance tval_json : Json TVal := {
  json_view v :=
    match v with TStr s => JString s | TBool b => JBool b | TObj m => JObject ((λ e, (e.1, TStr e.2)) <$> m) end;
  json_get v key :=
    match v with TObj m => (λ e, TStr e.2) <$> List.find (λ e, e.1 == key) m | _ => None end;
  json_to_string _ := lit "{}";
  json_to_string_pretty _ := None }.

(** The reply every prompt gets, and how many dispatches are still to fail. *)
Definition TWorld : Type := PermissionReply * nat.

#[global] Instance toy_env : GateEnv TVal TWorld bool := {
  run_transform_hooks _ w := (None, w);
  run_pre_hooks _ w := (HookAllow, w);
  run_post_hooks _ _ w := (None, w);
  restore_json _ := None;
  session_has_open_todos _ := false;
  running_count _ := 0;
  parse_questions _ := inl [];
  important b := b;
  run_question_tool _ _ id w := (mkResult id [] false, w);
  ask_reply _ _ w := (w.1, w);
  preview_edit _ _ _ := None;
  preview_write _ _ _ := None;
  canonicalize _ p := Some p;
  run_target _ tc w :=
    match w.2 with
    | O => (mkResult [] (lit "done") false, w)
    | S n => (mkResult [] (lit "transient") true, (w.1, n))
    end }.

Definition open_set : PermissionSet := mkPermissionSet None None true true true None [].
Definition agent (mode : ApprovalMode) : Agent :=
  mkAgent (lit "build") open_set mode false ThDestructive GAuto false true false.
Definition call (tool key value : string) : ToolCall TVal :=
  mkCall (lit "1") (lit tool) (TObj [(lit key, lit value)]).
Arguments call (_ _ _)%_string.

(** The gate of [/work/proj], five nested scripts deep. *)
Definition run (mode : ApprovalMode) (w : TWorld) (tc : ToolCall TVal) :=
  execute_with_permission (Some (lit "/home/u")) 5 (agent mode) (lit "/work/proj") tc None w.
End Toy.
Import Toy.

Lemma dispatch_cleared_witness :
  ∃ r w' pre t c res post,
    run Manual (RAllow, 0) (call "bash" "command" "rm -rf /work/other")
      = Some (r, w', pre ++ EvDispatch t c res :: post)
    ∧ c = call "bash" "command" "rm -rf /work/other" ∧ ∃ d, EvAsk (lit "risk") d RAllow ∈ pre.
Proof.
  eassert (run Manual (RAllow, 0) (call "bash" "command" "rm -rf /work/other")
             = Some (_, _, [_; _] ++ EvDispatch _ _ _ :: [])) as E by (vm_compute; reflexivity).
  eexists _, _, _, _, _, _, _. split; [exact E|].
  destruct (dispatch_cleared _ _ _ _ _ _ _ _ _ _ _ _ _ _ E) as (Hc & _ & _ & _ & Hs & _).
  split; [reflexivity|].
  destruct (Hs (lit "rm -rf /work/other") eq_refl) as (a & Ha & _ & _ & Hk). apply Hk.
  - vm_compute in Ha. injection Ha as <-. vm_compute. discriminate.
  - intros [_ Hm]. discriminate Hm.
Defined.

Lemma prompts_audited_witness :
  ∃ r w' tr, run Manual (RDeny, 0) (call "bash" "command" "rm -rf /work/other") = Some (r, w', tr)
    ∧ asks tr = 1 ∧ dispatches tr = 0 ∧ is_error r = true ∧ audited tr.
Proof.
  eassert (run Manual (RDeny, 0) (call "bash" "command" "rm -rf /work/other") = Some (_, _, [_; _]))
    as E by (vm_compute; reflexivity).
  eexists _, _, _. split; [exact E|].
  destruct (prompts_audited _ _ _ _ _ _ _ _ _ _ E) as (_ & Hu & _ & _ & Hd).
  split; [reflexivity|]. split; [reflexivity|]. split; [|exact Hu].
  apply Hd; [reflexivity|discriminate].
Defined.

Lemma dispatch_attempts_witness :
  ∃ r w' tr, run Auto (RDeny, 7) (call "read" "path" "a.rs") = Some (r, w', tr)
    ∧ dispatches tr = 3 ∧ length (outcomes tr) ≤ 3.
Proof.
  eassert (run Auto (RDeny, 7) (call "read" "path" "a.rs") = Some (_, _, [_; _; _; _; _]))
    as E by (vm_compute; reflexivity).
  eexists _, _, _. split; [exact E|]. split; [reflexivity|]. rewrite outcomes_dispatches.
  refine (proj2 (dispatch_attempts _ _ _ _ _ _ _ _ _ _ E _)). vm_compute. discriminate.
Defined.

Lemma catastrophic_never_runs_witness :
  ∃ r w', run Auto (RAllow, 0) (call "bash" "command" "rm -rf /")
      = Some (r, w', [EvSafety (lit "risk") (lit "refused")]) ∧ is_error r = true.
Proof.
  destruct (catastrophic_never_runs (Some (lit "/home/u")) 5 (agent Auto) (lit "/work/proj")
    (call "bash" "command" "rm -rf /") None (RAllow, 0) (lit "rm -rf /")
    (mkAssessment Catastrophic (reason (default safe
       (assess_fuel 5 (lit "/work/proj") (Some (lit "/home/u")) (lit "rm -rf /"))))))
    as (r & w' & E & He & _); [reflexivity|vm_compute; reflexivity|reflexivity|].
  by exists r, w'.
Defined.

Lemma execute_returns_witness :
  ∃ r w' tr, run Important (RDeny, 0) (call "schedule" "command" " rm -rf /work/other ") = Some (r, w', tr).
Proof.
  apply execute_returns. intros command E. vm_compute in E. injection E as <-.
  vm_compute. eexists. reflexivity.
Defined.

Lemma important_skips_dotdot_witness :
  approval_skips_ask (Some (lit "/home/u")) 5 (agent Important) (lit "/work/proj")
    (call "write" "path" "src/../../../etc/cron.d/job") (RDeny, 0)
    = Some (true, (RDeny, 0), [])
  ∧ normalize (lit "src/../../../etc/cron.d/job") (lit "/work/proj")
    = components (lit "/etc/cron.d/job").
Proof.
  split; [|vm_compute; reflexivity].
  apply (important_skips_dotdot (Value := TVal) (QuestionSpec := bool) _ _ _ _ _ _
    (lit "src") (lit "../../../etc/cron.d/job")); try reflexivity; discriminate.
Defined.

(** The crate's own unit tests, evaluated on the model. *)
Definition err (c : string) : ToolResult := mkResult (lit "t") (lit c) true.
Arguments err _%_string.
Example retryable_tests :
  tool_error_is_retryable (lit "read") (mkResult (lit "t") (lit "ok") false) = false
  ∧ tool_error_is_retryable (lit "read") (err "transient fail 1") = true
  ∧ tool_error_is_retryable (lit "read") (err "Missing required parameter") = false
  ∧ tool_error_is_retryable (lit "nope") (err "Unknown tool: 'nope'.") = false
  ∧ tool_error_is_retryable (lit "bash") (err "exit 101") = false
  ∧ tool_error_is_retryable (lit "read") (err "Permission denied for tool 'read'.") = false
  ∧ tool_error_is_retryable (lit "todoread") (err "x") = false.
Proof. split_and!; vm_compute; reflexivity. Qed.

Example policy_tests :
  let detail m := format_permission_detail (TObj m) in
  detail [] = lit "(no arguments)" ∧ detail [(lit "command", lit "ls")] = lit "ls"
  ∧ detail [(lit "path", lit "a.rs"); (lit "note", lit "x" ++ [cLF] ++ lit "y")]
    = lit "path: a.rs" ++ [cLF] ++ lit "note:" ++ [cLF] ++ lit "  x" ++ [cLF] ++ lit "  y"
  ∧ is_safe_worktree_name (lit "ab-c_1") = true ∧ is_safe_worktree_name (lit "../x") = false
  ∧ path_outside_workspace Some (lit "../secret") (lit "/w") = true
  ∧ path_outside_workspace Some (lit "~/.ssh") (lit "/w") = true
  ∧ path_outside_workspace Some (lit "src/lib.rs") (lit "/w") = false
  ∧ path_outside_workspace Some (lit "/tmp/outside") (lit "/w") = true
  ∧ path_outside_workspace Some (lit "/w/Cargo.toml") (lit "/w") = false
  ∧ file_tool_path (call "read" "path" "a.rs") = Some (lit "a.rs")
  ∧ file_tool_path (call "bash" "command" "ls") = None
  ∧ file_tool_path (call "write" "path" "") = None.
Proof. cbv zeta. split_and!; vm_compute; reflexivity. Qed.
