(* ===== verification/Schedule.v ===== *)
(** A batch of tool calls ([run_tool_calls] in [crates/agent/src/agent/gate.rs]):
    one call, a parallel batch, or a sequential one that an Esc or an urgent message
    cuts short; and that every call it ends with is answered, in order.

    What happens while the batch runs is an argument: at each index, whether the
    user cancelled or sent an urgent message, the early read that may be ready, and
    the result of executing the call - [None] when the cancellation won the race. *)

From S2P Require Import Prelude RustStr F32 Permission Intent ToolPolicy.

Definition NOT_RUN_URGENT : str := lit "Tool not run: the user sent a message first".

Inductive TurnEvent :=
| TEStatus (text : str)
| TEToolEnd (id content : str) (is_error : bool)
| TECancelled.

Section schedule.
Context {Value : Type} `{!Json Value}.
Context (perm : PermissionSet) (read_has_hooks speculative_is_empty : bool).
Context (cancelled urgent : nat → bool) (take_matching : nat → ToolCall Value → option ToolResult).
Context (exec : nat → ToolCall Value → option ToolResult).

(** The state of a run: the results so far and the events sent. *)
Definition State : Type := list ToolResult * list TurnEvent.
(** [Ok(())], or [Err(Cancelled)]. *)
Inductive Outcome := Finished | Cancelled.

Definition answering (tc : ToolCall Value) (result : ToolResult) : ToolResult :=
mkResult (call_id tc) (res_content result) (is_error result).

Definition tool_end (r : ToolResult) : TurnEvent :=
TEToolEnd (tool_call_id r) (res_content r) (is_error r).

Definition not_run (tc : ToolCall Value) : ToolResult := mkResult (call_id tc) NOT_RUN_URGENT false.
Definition skipped_for_urgent (calls : list (ToolCall Value)) : list ToolResult * list TurnEvent :=
(not_run <$> calls, (λ tc, tool_end (not_run tc)) <$> calls).

Definition take_speculative_read (i : nat) (tc : ToolCall Value) : option ToolResult :=
if (call_name tc != lit "read") || speculative_is_empty || read_has_hooks
 || bool_decide (is_Some (json_get (arguments tc) (lit "outline")))
then None
else _ ← str_arg tc "path"; take_matching i tc.

Definition status_running (tc : ToolCall Value) : TurnEvent :=
TEStatus (lit "Running tool " ++ quoted (call_name tc) ++ [8230]%N).
Definition status_parallel (calls : list (ToolCall Value)) : TurnEvent :=
TEStatus (lit "Running " ++ digits (N.of_nat (length calls)) ++ lit " tools in parallel: "
        ++ join (lit ", ") (call_name <$> calls) ++ [8230]%N).

(** One call of a batch: its result, or [None] when it was cancelled. *)
Definition run_one (i : nat) (tc : ToolCall Value) : option ToolResult :=
answering tc <$>
match take_speculative_read i tc with Some early => Some early | None => exec i tc end.

(** The loop over a sequential batch, from call [i] on. *)
Fixpoint sequential (i : nat) (calls : list (ToolCall Value)) (st : State) : Outcome * State :=
let '(done, evs) := st in
match calls with
| [] => (Finished, (done, evs))
| tc :: rest =>
  if cancelled i then (Cancelled, (done, evs ++ [TECancelled]))
  else if urgent i then
    let '(rs, es) := skipped_for_urgent calls in (Finished, (done ++ rs, evs ++ es))
  else
    let evs := evs ++ [status_running tc] in
    match run_one i tc with
    | None => (Cancelled, (done, evs ++ [TECancelled]))
    | Some r => sequential (S i) rest (done ++ [r], evs ++ [tool_end r])
    end
end.

(** [join_all] in a race with the cancellation: all results, or none of them. *)
Definition parallel (calls : list (ToolCall Value)) (st : State) : Outcome * State :=
let '(done, evs) := st in
let evs := evs ++ [status_parallel calls] in
match mapM (λ p, run_one p.1 p.2) (zip (seq 0 (length calls)) calls) with
| None => (Cancelled, (done, evs ++ [TECancelled]))
| Some rs => (Finished, (done ++ rs, evs ++ (tool_end <$> rs)))
end.

Definition run_tool_calls (calls : list (ToolCall Value)) (done : list ToolResult)
: Outcome * State :=
match calls with
| [] => (Finished, (done, []))
| [tc] =>
  if cancelled 0 then (Cancelled, (done, [TECancelled]))
  else
    match run_one 0 tc with
    | None => (Cancelled, (done, [status_running tc; TECancelled]))
    | Some r => (Finished, (done ++ [r], [status_running tc; tool_end r]))
    end
| _ =>
  if forallb (λ tc, is_parallel_safe_tool (call_name tc) perm) calls
  then parallel calls (done, [])
  else sequential 0 calls (done, [])
end.

(** ** Every call is answered *)

Definition ended (e : TurnEvent) : option (str * str * bool) :=
match e with TEToolEnd id c b => Some (id, c, b) | _ => None end.
Definition as_end (r : ToolResult) : str * str * bool := (tool_call_id r, res_content r, is_error r).

Lemma run_one_id i tc r : run_one i tc = Some r → tool_call_id r = call_id tc.
Proof. unfold run_one. intros (x & _ & ->)%fmap_Some. done. Qed.

(** [rs] are the results of the batch and [evs] its events: each result was sent. *)
Definition sent (rs : list ToolResult) (evs : list TurnEvent) : Prop := omap ended evs = as_end <$> rs.

Lemma sent_app r1 r2 e1 e2 : sent r1 e1 → sent r2 e2 → sent (r1 ++ r2) (e1 ++ e2).
Proof. unfold sent. intros H1 H2. by rewrite omap_app, fmap_app, H1, H2. Qed.
Lemma sent_skip e1 e2 rs : omap ended e1 = [] → sent rs e2 → sent rs (e1 ++ e2).
Proof. unfold sent. intros H1 H2. by rewrite omap_app, H1, H2. Qed.
Lemma sent_ends rs : sent rs (tool_end <$> rs).
Proof. induction rs as [|r rs IH]; [done|]. unfold sent in *. simpl. by f_equal. Qed.

(** What a run adds: results that answer a prefix of the calls, all of them when it
finished. *)
Definition adds (calls : list (ToolCall Value)) (st st' : State) (o : Outcome) : Prop :=
∃ rs evs, st' = (st.1 ++ rs, st.2 ++ evs) ∧ sent rs evs
∧ tool_call_id <$> rs = take (length rs) (call_id <$> calls)
∧ match o with Finished => length rs = length calls | Cancelled => last evs = Some TECancelled end.

Lemma adds_none calls st evs :
omap ended evs = [] → adds calls st (st.1, st.2 ++ evs ++ [TECancelled]) Cancelled.
Proof.
intros H. exists [], (evs ++ [TECancelled]). rewrite app_nil_r. split_and!; try done.
- unfold sent. by rewrite omap_app, H.
- by rewrite last_snoc.
Qed.

Lemma sequential_adds calls i st :
let r := sequential i calls st in adds calls st r.2 r.1.
Proof.
revert i st. induction calls as [|tc calls IH]; intros i [done evs]; cbv zeta.
- exists [], []. by rewrite !app_nil_r.
- cbn [sequential]. destruct (cancelled i); [by apply (adds_none _ (done, evs) [])|].
destruct (urgent i).
{ exists (not_run <$> tc :: calls), ((λ x, tool_end (not_run x)) <$> tc :: calls).
  split; [done|]. split; [rewrite (list_fmap_compose not_run tool_end); apply sent_ends|].
  rewrite length_fmap. split; [|done]. rewrite firstn_all2 by (by rewrite length_fmap).
  rewrite <- list_fmap_compose. done. }
destruct (run_one i tc) as [r|] eqn:Hr; [|rewrite <- app_assoc; by apply (adds_none _ (done, evs) [_])].
specialize (IH (S i) (done ++ [r], (evs ++ [status_running tc]) ++ [tool_end r])).
destruct (sequential (S i) calls _) as [o st']. destruct IH as (rs & es & Est & Hs & Hi & Ho).
simpl in Est, Ho |- *. subst st'.
exists (r :: rs), (status_running tc :: tool_end r :: es). simpl.
rewrite <- !app_assoc. simpl. split; [done|]. split; [|split].
+ unfold sent in *. simpl. f_equal. exact Hs.
+ simpl. f_equal; [exact (run_one_id _ _ _ Hr)|exact Hi].
+ destruct o; [lia|]. by destruct es as [|? []].
Qed.

Lemma mapM_run_one_ids calls k rs :
mapM (λ p, run_one p.1 p.2) (zip (seq k (length calls)) calls) = Some rs →
tool_call_id <$> rs = call_id <$> calls.
Proof.
revert k rs. induction calls as [|tc calls IH]; intros k rs; simpl; [by intros [= <-]|].
intros (r & Hr & (rs' & Hm & [= <-])%bind_Some)%bind_Some. simpl.
f_equal; [exact (run_one_id _ _ _ Hr)|exact (IH _ _ Hm)].
Qed.

Lemma parallel_adds calls st : let r := parallel calls st in adds calls st r.2 r.1.
Proof.
destruct st as [done evs]. unfold parallel. destruct (mapM _ _) as [rs|] eqn:Hm; simpl.
- apply mapM_run_one_ids in Hm. pose proof (f_equal length Hm) as Hl. rewrite !length_fmap in Hl.
exists rs, (status_parallel calls :: (tool_end <$> rs)). rewrite <- app_assoc.
split_and!; [done|by apply (sent_skip [_]), sent_ends| |done].
rewrite Hm, firstn_all2; [done|]. rewrite length_fmap. lia.
- rewrite <- app_assoc. by apply (adds_none _ (done, evs) [_]).
Qed.

Lemma run_tool_calls_adds calls done : let r := run_tool_calls calls done in adds calls (done, []) r.2 r.1.
Proof.
destruct calls as [|tc [|tc2 calls]].
- exists [], []. by rewrite !app_nil_r.
- simpl. destruct (cancelled 0); [by apply (adds_none _ (done, []) [])|].
  destruct (run_one 0 tc) as [r|] eqn:Hr; [|by apply (adds_none _ (done, []) [_])].
  exists [r], [status_running tc; tool_end r]. simpl. by rewrite (run_one_id _ _ _ Hr).
- unfold run_tool_calls. case_match; [apply parallel_adds|apply sequential_adds].
Qed.

(** C9: a batch that finishes has answered every call, in the order of the calls:
one result per call, carrying its id; one cut short by an Esc keeps the results
of the calls that finished, which answer a prefix of the batch, and ends with the
cancelled event; results already there are untouched, and the events report
exactly the results, in the same order. *)
Theorem run_tool_calls_answers calls done :
let '(o, (done', evs)) := run_tool_calls calls done in
∃ rs, done' = done ++ rs ∧ omap ended evs = as_end <$> rs
∧ tool_call_id <$> rs = take (length rs) (call_id <$> calls)
∧ match o with Finished => length rs = length calls | Cancelled => last evs = Some TECancelled end.
Proof.
pose proof (run_tool_calls_adds calls done) as H. cbv zeta in H.
destruct (run_tool_calls calls done) as [o [done' evs]].
destruct H as (rs & es & [= -> ->] & Hs & Hi & Ho). by exists rs.
Qed.

(** Calls only run beside each other when none of them mutates: in a parallel
batch no call is a mutating tool, a shell or a tool that asks the user. *)
Theorem parallel_batch_is_read_only calls done tc :
forallb (λ tc, is_parallel_safe_tool (call_name tc) perm) calls = true → tc ∈ calls →
(1 < length calls → run_tool_calls calls done = parallel calls (done, []))
∧ is_mutating_tool (call_name tc) = false ∧ is_one_of (call_name tc) SHELL_TOOLS = false
∧ call_name tc ≠ lit "question".
Proof.
intros Hp Hin. split.
- intros Hl. destruct calls as [|? [|? ?]]; simpl in Hl; [lia|lia|]. unfold run_tool_calls.
by rewrite Hp.
- rewrite forallb_true_iff in Hp. specialize (Hp tc Hin). unfold is_parallel_safe_tool in Hp.
apply negb_true_iff in Hp. unfold is_one_of in Hp. rewrite existsb_false_iff in Hp.
assert (∀ t, t ∈ SERIAL_TOOLS → call_name tc ≠ lit t) as Hs.
{ intros t Ht. specialize (Hp t Ht). by boolp. }
assert (∀ l, forallb (λ t, bool_decide (t ∈ SERIAL_TOOLS)) l = true →
          is_one_of (call_name tc) l = false) as Hk.
{ intros l Hl. unfold is_one_of. apply existsb_false_iff. intros t Ht.
  rewrite forallb_true_iff in Hl. specialize (Hl t Ht). apply bool_decide_eq_true_1 in Hl.
  apply bool_decide_eq_false_2. auto. }
split_and!; [apply Hk; vm_compute; reflexivity|apply Hk; vm_compute; reflexivity|].
apply Hs. apply (bool_decide_unpack _). vm_compute. done.
Qed.

(** An urgent message stops a sequential batch: the calls before it keep their
results, and every call from there on is answered as not run, without being
executed. *)
Theorem urgent_skips_rest calls done evs i k :
k < length calls → (∀ j, i ≤ j ≤ i + k → cancelled j = false) →
(∀ j, i ≤ j < i + k → urgent j = false) → urgent (i + k) = true →
(∀ j tc, exec j tc ≠ None) →
∃ rs evs', sequential i calls (done, evs) = (Finished, (done ++ rs ++ (not_run <$> drop k calls), evs'))
∧ length rs = k.
Proof.
intros Hk Hc Hu Hui He. revert i done evs k Hk Hc Hu Hui.
induction calls as [|tc calls IH]; intros i done evs k Hk Hc Hu Hui; simpl in Hk; [lia|].
cbn [sequential]. rewrite Hc by lia. destruct k as [|k].
- rewrite Nat.add_0_r in Hui. rewrite Hui. by eexists [], _.
- rewrite Hu by lia.
assert (∃ r, run_one i tc = Some r) as [r Hr].
{ unfold run_one. destruct (take_speculative_read i tc); [by eexists|].
  destruct (exec i tc) eqn:E; [by eexists|by apply He in E]. }
rewrite Hr. destruct (IH (S i) (done ++ [r]) ((evs ++ [status_running tc]) ++ [tool_end r]) k)
  as (rs & evs' & -> & Hl); [lia|intros j Hj; apply Hc; lia|intros j Hj; apply Hu; lia| |].
{ by rewrite <- Nat.add_succ_comm in Hui. }
exists (r :: rs), evs'. rewrite <- !app_assoc. simpl. by rewrite Hl.
Qed.
End schedule.

(** ** Instances *)

(** Calls without arguments. *)
#[local] Instance unit_json : Json unit := {
  json_view _ := JNull; json_get _ _ := None; json_to_string _ := lit "null";
  json_to_string_pretty _ := None }.
Definition bare (id tool : string) : ToolCall unit := mkCall (lit id) (lit tool) tt.
Arguments bare (_ _)%_string.
Definition no_rules : PermissionSet := mkPermissionSet None None true true true None [].
Definition runs_ok (_ : nat) (tc : ToolCall unit) : option ToolResult :=
  Some (mkResult [] (call_name tc) false).

Lemma parallel_batch_is_read_only_witness :
  is_mutating_tool (lit "grep") = false
  ∧ (run_tool_calls no_rules false true (λ _, false) (λ _, false) (λ _ _, None) runs_ok
       [bare "1" "read"; bare "2" "grep"] []).1 = Finished.
Proof.
  destruct (parallel_batch_is_read_only no_rules false true (λ _, false) (λ _, false) (λ _ _, None)
    runs_ok [bare "1" "read"; bare "2" "grep"] [] (bare "2" "grep") eq_refl) as (Hr & Hm & _).
  - right. left.
  - split; [exact Hm|]. rewrite Hr by (simpl; lia). reflexivity.
Defined.

Lemma urgent_skips_rest_witness :
  ∃ rs evs', sequential false true (λ _, false) (λ i, 1 <=? i) (λ _ _, None) runs_ok 0
      [bare "1" "edit"; bare "2" "bash"; bare "3" "read"] ([], [])
    = (Finished, (rs ++ [not_run (bare "2" "bash"); not_run (bare "3" "read")], evs'))
    ∧ length rs = 1.
Proof.
  apply (urgent_skips_rest false true (λ _, false) (λ i, 1 <=? i) (λ _ _, None) runs_ok
    [bare "1" "edit"; bare "2" "bash"; bare "3" "read"] [] [] 0 1).
  - simpl. lia.
  - intros j _. reflexivity.
  - intros j Hj. apply Nat.leb_gt. lia.
  - reflexivity.
  - intros j tc. discriminate.
Defined.
