(* ===== verification/Pairing.v ===== *)
(** Pairing of tool calls and results in an outgoing request
    ([crates/session/src/pairing.rs]): the repair, a declarative account of the
    transcripts strict APIs accept, and that the repair produces exactly those. *)

From S2P Require Import Prelude RustStr Messages.

Section pairing.
Context {Value ImageSource Time : Type}.
Notation Message := (Message Value ImageSource Time).

(** ** The code *)

Definition MISSING_RESULT : str :=
lit "Tool result missing: this call was interrupted and never ran.".

(** [open.retain(|o| o != id)], and whether it removed something. *)
Definition take_open (open : list str) (id : str) : bool * list str :=
let kept := filter (λ o, o ≠ id) open in
(negb (length kept =? length open), kept).

Definition push_if (out : list Message) (msg : Message) (keep : bool) : list Message :=
if keep then out ++ [msg] else out.

(** The loop over the blocks of [record_calls]. *)
Fixpoint record_blocks (blocks : list (ContentBlock Value ImageSource)) (unnamed : bool)
  (open : list str) : bool * list str :=
match blocks with
| [] => (unnamed, open)
| BToolUse id _ _ :: bs => record_blocks bs (unnamed || (id == [])) (open ++ [id])
| _ :: bs => record_blocks bs unnamed open
end.
Definition record_calls (msg : Message) (open : list str) : bool * list str :=
match content msg with
| MText _ => (false, open)
| MBlocks blocks =>
    let '(unnamed, open) := record_blocks blocks false open in
    (unnamed, filter (λ id, id ≠ []) open)
end.

Definition missing (id : str) : Message :=
mkMessage Tool (MText MISSING_RESULT) (Some id) None None.
Definition close_open (out : list Message) (open : list str) : bool * list Message :=
(negb (length open =? 0), out ++ (missing <$> open)).

(** The variables of the loop. *)
Record State := mkState {
out : list Message;
open : list str;
lenient : bool;
changed : bool }.

Definition result_id (m : Message) : str := default [] (tool_call_id m).

Definition step (st : State) (msg : Message) : State :=
match role msg with
| Tool =>
    let '(taken, open') := take_open (open st) (result_id msg) in
    let owned := taken || lenient st in
    mkState (push_if (out st) msg owned) open' (lenient st) (changed st || negb owned)
| Assistant =>
    let '(any, out') := close_open (out st) (open st) in
    let '(unnamed, open') := record_calls msg [] in
    mkState (out' ++ [msg]) open' unnamed (changed st || any)
| User | System =>
    let '(any, out') := close_open (out st) (open st) in
    mkState (out' ++ [msg]) [] false (changed st || any)
end.

Definition paired_messages (messages : list Message) : option (list Message) :=
let st := foldl step (mkState [] [] false false) messages in
let '(any, out') := close_open (out st) (open st) in
if changed st || any then Some out' else None.

(** ** The transcripts strict APIs accept *)

(** The ids of the calls of a message, and of the named ones. *)
Definition block_call (b : ContentBlock Value ImageSource) : option str :=
match b with BToolUse id _ _ => Some id | _ => None end.
Definition call_ids (m : Message) : list str :=
match content m with MText _ => [] | MBlocks bs => omap block_call bs end.

(** [results] answer the calls of [a]: every named call has a result and, unless a
  call has no id, every result answers a call; and no call twice. *)
Definition answers (a : Message) (results : list Message) : Prop :=
(∀ id, id ∈ call_ids a → id ≠ [] → id ∈ (result_id <$> results))
∧ ([] ∈ call_ids a ∨ ∀ id, id ∈ (result_id <$> results) → id ∈ call_ids a).
Definition answers_once (a : Message) (results : list Message) : Prop :=
answers a results ∧ ([] ∈ call_ids a ∨ NoDup (result_id <$> results)).

(** A transcript: turns of a user or of the system, and assistant turns directly
  followed by the results of their calls. [A] says when results are right. *)
Inductive transcript (A : Message → list Message → Prop) : list Message → Prop :=
| transcript_nil : transcript A []
| transcript_plain m ms :
  role m = User ∨ role m = System → transcript A ms → transcript A (m :: ms)
| transcript_turn a results ms :
  role a = Assistant → Forall (λ r, role r = Tool) results → A a results →
  transcript A ms → transcript A (a :: results ++ ms).

Lemma transcript_app A l1 l2 : transcript A l1 → transcript A l2 → transcript A (l1 ++ l2).
Proof.
intros H1 H2. induction H1 as [|m ms Hm _ IH|a rs ms Ha Hr HA _ IH]; simpl; [done|by apply transcript_plain|].
rewrite <- app_assoc. by apply transcript_turn.
Qed.
Lemma transcript_mono (A B : Message → list Message → Prop) ms :
(∀ a rs, A a rs → B a rs) → transcript A ms → transcript B ms.
Proof.
intros HAB. induction 1; [constructor|by apply transcript_plain|].
apply transcript_turn; auto.
Qed.
Lemma transcript_turn_only (A : Message → list Message → Prop) a rs :
role a = Assistant → Forall (λ r, role r = Tool) rs → A a rs → transcript A (a :: rs).
Proof. intros. rewrite <- (app_nil_r rs). apply transcript_turn; [done..|constructor]. Qed.

(** ** The bookkeeping *)

Lemma record_blocks_spec blocks unnamed op :
record_blocks blocks unnamed op
= (unnamed || bool_decide ([] ∈ omap block_call blocks), op ++ omap block_call blocks).
Proof.
revert unnamed op. induction blocks as [|b bs IH]; intros unnamed op; simpl.
- rewrite app_nil_r. by destruct unnamed.
- destruct b; simpl; rewrite IH; try done. rewrite <- app_assoc. simpl. f_equal.
  rewrite <- orb_assoc. f_equal. rewrite (bool_decide_ext _ _ (elem_of_cons _ [] id)).
  rewrite bool_decide_or. f_equal. by apply bool_decide_ext.
Qed.
Lemma record_calls_spec m :
record_calls m [] = (bool_decide ([] ∈ call_ids m), filter (λ id, id ≠ []) (call_ids m)).
Proof.
unfold record_calls, call_ids. destruct (content m) as [t|bs]; [done|].
by rewrite record_blocks_spec.
Qed.
Lemma take_open_spec op id :
(take_open op id).1 = bool_decide (id ∈ op) ∧ (take_open op id).2 = filter (λ o, o ≠ id) op.
Proof.
split; [|done]. unfold take_open. simpl. case_bool_decide as Hin.
- apply negb_true_iff, Nat.eqb_neq.
  assert (length (filter (λ o, o ≠ id) op) < length op); [|lia].
  apply (length_filter_lt _ _ id); [done|naive_solver].
- apply negb_false_iff, Nat.eqb_eq. f_equal. apply list_filter_id. intros x Hx ->. done.
Qed.

Lemma result_ids_missing (op : list str) : result_id <$> (missing <$> op) = op.
Proof. induction op as [|id op IH]; [done|]. simpl. f_equal. exact IH. Qed.
Lemma missing_tools (op : list str) : Forall (λ r : Message, role r = Tool) (missing <$> op).
Proof. apply Forall_fmap, Forall_true. done. Qed.

(** ** The repair pairs up *)

(** What the results of a turn satisfy; once something was changed, results are
  only unrepeated for calls that are. *)
Definition repaired (changed : bool) (a : Message) (results : list Message) : Prop :=
answers a results ∧ (changed = false ∨ NoDup (call_ids a) → answers_once a results).

(** The turn the loop is in: [a] with the results [rs] so far. *)
Record in_turn (op : list str) (len : bool) (a : Message) (rs : list Message) : Prop := {
it_role : role a = Assistant;
it_tools : Forall (λ r, role r = Tool) rs;
it_lenient : len = bool_decide ([] ∈ call_ids a);
it_open : ∀ id, id ∈ op ↔ id ∈ call_ids a ∧ id ≠ [] ∧ id ∉ (result_id <$> rs);
it_nodup : NoDup (call_ids a) → NoDup op;
it_owned : len = false → (∀ id, id ∈ (result_id <$> rs) → id ∈ call_ids a)
                         ∧ NoDup (result_id <$> rs) }.

Definition Inv (st : State) : Prop :=
(transcript (repaired (changed st)) (out st) ∧ open st = [] ∧ lenient st = false)
∨ ∃ done a rs, out st = done ++ a :: rs ∧ transcript (repaired (changed st)) done
    ∧ in_turn (open st) (lenient st) a rs.

Lemma repaired_mono b b' a rs : (b' = false → b = false) → repaired b a rs → repaired b' a rs.
Proof. intros Hb [H1 H2]. split; [done|]. intros [H|H]; apply H2; [left; auto|by right]. Qed.

(** Closing the turn: the open calls get their missing results. *)
Lemma close_turn op len a rs b :
in_turn op len a rs → (b = false → op = []) → repaired b a (rs ++ (missing <$> op)).
Proof.
intros [Hr Ht Hl Ho Hn Hw] Hb. unfold repaired, answers_once, answers.
rewrite fmap_app, result_ids_missing. setoid_rewrite elem_of_app.
assert (∀ id, id ∈ call_ids a → id ≠ [] → id ∈ (result_id <$> rs) ∨ id ∈ op) as H1.
{ intros id Hid Hne. destruct (decide (id ∈ (result_id <$> rs))); [by left|right]. apply Ho. done. }
assert ([] ∈ call_ids a ∨ ∀ id, id ∈ (result_id <$> rs) ∨ id ∈ op → id ∈ call_ids a) as H2.
{ destruct (decide ([] ∈ call_ids a)) as [|Hne]; [by left|right].
  intros id [Hid|Hid]; [|by apply Ho]. apply Hw; [|done]. rewrite Hl. by apply bool_decide_eq_false_2. }
split; [done|]. intros Hc. split; [done|].
destruct (decide ([] ∈ call_ids a)) as [|Hne]; [by left|right].
apply NoDup_app. split_and!.
- apply Hw. rewrite Hl. by apply bool_decide_eq_false_2.
- intros id Hid Hop. by apply Ho in Hop as (_ & _ & ?).
- destruct Hc as [Hc|Hc]; [rewrite Hb by done; constructor|by apply Hn].
Qed.

Lemma close_inv st :
Inv st →
let r := close_open (out st) (open st) in transcript (repaired (changed st || r.1)) r.2.
Proof.
intros HI. cbv zeta. simpl.
assert (∀ a rs, repaired (changed st) a rs →
  repaired (changed st || negb (length (open st) =? 0)) a rs) as Hm.
{ intros a rs. apply repaired_mono. by intros [? _]%orb_false_iff. }
destruct HI as [(Ht & Ho & _)|(done & a & rs & -> & Ht & Hit)].
- rewrite Ho. simpl. rewrite app_nil_r, orb_false_r. done.
- rewrite <- app_assoc. apply transcript_app; [by eapply transcript_mono; [|exact Ht]|].
  apply transcript_turn_only.
  + apply Hit.
  + apply Forall_app. split; [apply Hit|apply missing_tools].
  + eapply close_turn; [exact Hit|]. intros [_ H]%orb_false_iff. boolp. by apply nil_length_inv.
Qed.

Lemma step_inv st msg : Inv st → Inv (step st msg).
Proof.
intros HI. unfold step. destruct (role msg) eqn:Hr.
1-2: left; simpl; split; [|done]; apply transcript_app; [exact (close_inv st HI)|];
  apply transcript_plain; [auto|constructor].
- rewrite record_calls_spec. simpl. right.
  exists (out st ++ (missing <$> open st)), msg, []. simpl. split; [by rewrite <- app_assoc|].
  split; [exact (close_inv st HI)|]. constructor; simpl; try done.
  + intros id. rewrite list_elem_of_filter. set_solver.
  + intros Hn. by apply NoDup_filter.
  + intros _. split; [set_solver|constructor].
- destruct (take_open (open st) (result_id msg)) as [taken op'] eqn:Et.
  destruct (take_open_spec (open st) (result_id msg)) as [E1 E2]. rewrite Et in E1, E2.
  simpl in E1, E2. subst taken op'. simpl.
  destruct HI as [(Ht & Ho & Hl)|(done & a & rs & Eo & Ht & Hit)].
  + left. rewrite Ho, Hl. simpl. split; [|done]. eapply transcript_mono; [|exact Ht].
    intros a rs. apply repaired_mono. by rewrite orb_true_r.
  + right. destruct (bool_decide (result_id msg ∈ open st) || lenient st) eqn:Hown; simpl.
    * exists done, a, (rs ++ [msg]). rewrite Eo, <- app_assoc. split; [done|].
      rewrite orb_false_r. split; [done|].
      destruct Hit as [H1 H2 H3 H4 H5 H6]. constructor; try done.
      -- apply Forall_app. auto.
      -- intros id. rewrite list_elem_of_filter, H4, fmap_app. set_solver.
      -- intros Hn. apply NoDup_filter. auto.
      -- intros Hlen. rewrite Hlen, orb_false_r in Hown. boolp.
         apply H4 in Hown as (Hin & _ & Hnew). destruct (H6 Hlen) as [Hs Hnd].
         rewrite fmap_app. split; [set_solver|]. apply NoDup_app. split_and!; [done| |by apply NoDup_singleton].
         intros id Hid Hid'. set_solver.
    * exists done, a, rs. split; [done|]. split.
      -- eapply transcript_mono; [|exact Ht]. intros ? ?. apply repaired_mono. by rewrite orb_true_r.
      -- boolp. destruct Hit as [H1 H2 H3 H4 H5 H6]. constructor; try done.
         ++ intros id. rewrite list_elem_of_filter, H4.
            assert (id = result_id msg → ¬ (id ∈ call_ids a ∧ id ≠ [] ∧ id ∉ (result_id <$> rs))); [|naive_solver].
            intros -> Hx%H4. by apply H.
         ++ intros Hn. apply NoDup_filter. auto.
Qed.

Lemma foldl_inv msgs st : Inv st → Inv (foldl step st msgs).
Proof. revert st. induction msgs as [|m ms IH]; intros st HI; simpl; [done|]. by apply IH, step_inv. Qed.

Definition init : State := mkState [] [] false false.
Lemma init_inv : Inv init.
Proof. left. split_and!; [constructor|done|done]. Qed.

(** ** What is already paired is left alone *)

Lemma step_unchanged st m :
changed (step st m) = false → changed st = false ∧ out (step st m) = out st ++ [m].
Proof.
unfold step. destruct (role m).
1-3: try destruct (record_calls m []) as [u o]; simpl; intros H; boolp; split; [done|];
  rewrite (nil_length_inv (open st)) by done; simpl; by rewrite app_nil_r.
destruct (take_open (open st) (result_id m)) as [t o]. simpl. intros H. boolp.
split; [done|]. destruct (t || lenient st); [done|]. by boolp.
Qed.
Lemma foldl_unchanged ms st :
changed (foldl step st ms) = false → changed st = false ∧ out (foldl step st ms) = out st ++ ms.
Proof.
revert st. induction ms as [|m ms IH]; intros st; simpl; [by rewrite app_nil_r|].
intros (H & ->)%IH. destruct (step_unchanged _ _ H) as [? ->]. by rewrite <- app_assoc.
Qed.

(** The results of one turn, when they answer its open calls once. *)
Lemma results_clean rs st :
Forall (λ r, role r = Tool) rs →
(∀ id, id ∈ open st → id ∈ (result_id <$> rs)) →
(lenient st = true ∨ (∀ id, id ∈ (result_id <$> rs) → id ∈ open st) ∧ NoDup (result_id <$> rs)) →
let st' := foldl step st rs in changed st' = changed st ∧ open st' = [].
Proof.
revert st. induction rs as [|r rs IH]; intros st Ht Ho Hw; cbv zeta; simpl.
- split; [done|]. destruct (open st) as [|id op]; [done|]. exfalso. eapply not_elem_of_nil, (Ho id). by left.
- apply Forall_cons in Ht as [Hr Ht]. unfold step at 2 4. rewrite Hr.
  destruct (take_open (open st) (result_id r)) as [t op'] eqn:E.
  destruct (take_open_spec (open st) (result_id r)) as [E1 E2]. rewrite E in E1, E2. simpl in E1, E2.
  subst t op'.
  assert (bool_decide (result_id r ∈ open st) || lenient st = true) as Hown.
  { destruct Hw as [->|[Hw _]]; [by rewrite orb_true_r|]. rewrite bool_decide_eq_true_2; [done|].
    apply Hw. by left. }
  rewrite Hown. simpl. rewrite orb_false_r.
  destruct (IH (mkState (out st ++ [r]) (filter (λ o, o ≠ result_id r) (open st)) (lenient st)
                  (changed st))) as [H1 H2]; simpl; try done.
  + intros id [Hne Hid]%list_elem_of_filter. apply Ho in Hid. simpl in Hid.
    by apply elem_of_cons in Hid as [?|?].
  + destruct Hw as [?|[Hs Hn]]; [by left|right]. simpl in Hn. apply NoDup_cons in Hn as [Hx Hn].
    split; [|done]. intros id Hid. apply list_elem_of_filter. split; [by intros ->|].
    apply Hs. by right.
Qed.

Lemma transcript_clean ms :
transcript answers_once ms → ∀ st, open st = [] →
changed (foldl step st ms) = changed st ∧ open (foldl step st ms) = [].
Proof.
induction 1 as [|m ms Hm _ IH|a rs ms Ha Hr [[Hn Hw] Hd] _ IH]; intros st Ho; [done| |].
- simpl. assert (open (step st m) = [] ∧ changed (step st m) = changed st) as [H1 H2].
  { unfold step. rewrite Ho. simpl. destruct Hm as [-> | ->]; simpl; by rewrite orb_false_r. }
  rewrite <- H2. by apply IH.
- simpl. rewrite foldl_app.
  destruct (results_clean rs (step st a)) as [H1 H2].
  + done.
  + unfold step. rewrite Ha, Ho, record_calls_spec. simpl. intros id [Hne Hid]%list_elem_of_filter. auto.
  + unfold step. rewrite Ha, record_calls_spec. simpl.
    destruct (decide ([] ∈ call_ids a)) as [Hin|Hne]; [left; by apply bool_decide_eq_true_2|right].
    destruct Hw as [?|Hw]; [done|]. destruct Hd as [?|Hd]; [done|]. split; [|done].
    intros id Hid. apply list_elem_of_filter. split; [intros ->; auto|auto].
  + destruct (IH (foldl step (step st a) rs) H2) as [-> ->]. split; [|done]. rewrite H1.
    unfold step. rewrite Ha, Ho, record_calls_spec. simpl. by rewrite orb_false_r.
Qed.

(** The repair leaves a transcript alone exactly when it pairs up - every tool
  result directly follows the assistant turn whose call it answers, every named
  call is answered, none twice - and otherwise makes it pair up: the repaired
  transcript has every call answered and every result owned by a call, and no call
  answered twice unless the turn itself repeats an id. *)
Theorem paired_messages_repairs (messages : list Message) :
match paired_messages messages with
| None => transcript answers_once messages
| Some repaired => ¬ transcript answers_once messages
    ∧ transcript (λ a rs, answers a rs ∧ (NoDup (call_ids a) → answers_once a rs)) repaired
end.
Proof.
unfold paired_messages. fold init. set (st := foldl step init messages).
pose proof (close_inv st (foldl_inv messages init init_inv)) as Hp. cbv zeta in Hp.
destruct (close_open (out st) (open st)) as [any out'] eqn:Ec. simpl in Hp.
destruct (changed st || any) eqn:Hc.
- split.
  + intros Ht. destruct (transcript_clean _ Ht init eq_refl) as [H1 H2]. fold st in H1, H2.
    rewrite H1 in Hc. unfold close_open in Ec. rewrite H2 in Ec. by injection Ec as <- _.
  + eapply transcript_mono; [|exact Hp]. intros a rs [H1 H2]. auto.
- apply orb_false_iff in Hc as [H1 H2]. destruct (foldl_unchanged messages init H1) as [_ Ho].
  fold st in Ho. unfold close_open in Ec. injection Ec as E1 E2. rewrite H2 in E1. boolp.
  rewrite (nil_length_inv (open st)), app_nil_r, Ho in E2 by done. simpl in E2. subst out'.
  eapply transcript_mono; [|exact Hp]. intros a rs [_ H]. apply H. by left.
Qed.

(** ** Nothing real is lost *)

Definition not_tool (m : Message) : Prop := role m ≠ Tool.
#[local] Instance not_tool_dec m : Decision (not_tool m).
Proof. unfold not_tool. apply _. Defined.

(** [out] is what was kept of [ms], with missing results added. *)
Definition kept_from (ms out : list Message) : Prop :=
filter not_tool out = filter not_tool ms
∧ ∃ kept, kept `sublist_of` ms ∧ kept `sublist_of` out
    ∧ ∀ m, m ∈ out → m ∈ kept ∨ ∃ id, m = missing id.

Lemma kept_from_app ms1 out1 ms2 out2 :
kept_from ms1 out1 → kept_from ms2 out2 → kept_from (ms1 ++ ms2) (out1 ++ out2).
Proof.
intros [F1 (k1 & A1 & B1 & C1)] [F2 (k2 & A2 & B2 & C2)]. split.
- rewrite !filter_app. congruence.
- exists (k1 ++ k2). split_and!; [by apply sublist_app..|].
  intros m. rewrite !elem_of_app. intros [Hm|Hm]; [apply C1 in Hm|apply C2 in Hm]; naive_solver.
Qed.
Lemma kept_from_missing op : kept_from [] (missing <$> op).
Proof.
split.
- induction op as [|id op IH]; [done|]. simpl. by rewrite filter_cons_False by (intros H; by apply H).
- exists []. split_and!; [done|apply sublist_nil_l|]. intros m (id & -> & _)%list_elem_of_fmap. eauto.
Qed.
Lemma kept_from_one m : kept_from [m] [m].
Proof. split; [done|]. exists [m]. split_and!; [done..|]. auto. Qed.
Lemma kept_from_dropped m : role m = Tool → kept_from [m] [].
Proof.
intros Hm. split; [by rewrite filter_cons_False by (unfold not_tool; auto)|].
exists []. split_and!; [apply sublist_nil_l|done|]. by intros m' ?%elem_of_nil.
Qed.

Lemma step_kept st m ms : kept_from ms (out st) → kept_from (ms ++ [m]) (out (step st m)).
Proof.
intros HK. unfold step. destruct (role m) eqn:Hr.
1-3: try destruct (record_calls m []) as [u o]; simpl; rewrite <- app_assoc;
  rewrite <- (app_nil_l [m]) at 1; apply kept_from_app; [done|];
  apply (kept_from_app [] _ [m] [m]); [apply kept_from_missing|apply kept_from_one].
destruct (take_open _ _) as [t o]. simpl. unfold push_if. destruct (t || lenient st).
- apply kept_from_app; [done|apply kept_from_one].
- rewrite <- (app_nil_r (out st)). apply kept_from_app; [done|by apply kept_from_dropped].
Qed.
Lemma foldl_kept ms st ms0 : kept_from ms0 (out st) → kept_from (ms0 ++ ms) (out (foldl step st ms)).
Proof.
revert st ms0. induction ms as [|m ms IH]; intros st ms0 H; simpl; [by rewrite app_nil_r|].
replace (ms0 ++ m :: ms) with ((ms0 ++ [m]) ++ ms) by (by rewrite <- app_assoc).
by apply IH, step_kept.
Qed.

Lemma step_grows st m x : x ∈ out st → x ∈ out (step st m).
Proof.
intros Hx. unfold step. destruct (role m).
1-3: try destruct (record_calls m []); simpl; rewrite !elem_of_app; auto.
destruct (take_open _ _) as [t o]. simpl. unfold push_if. destruct (_ || _); [|done].
apply elem_of_app. by left.
Qed.
Lemma foldl_grows ms st x : x ∈ out st → x ∈ out (foldl step st ms).
Proof. revert st. induction ms as [|m ms IH]; intros st Hx; [done|]. by apply IH, step_grows. Qed.

(** Results leave alone the calls they do not answer. *)
Lemma results_open rs st :
Forall (λ r, role r = Tool) rs →
let st' := foldl step st rs in
lenient st' = lenient st ∧ ∀ id, id ∈ open st → id ∉ (result_id <$> rs) → id ∈ open st'.
Proof.
revert st. induction rs as [|r rs IH]; intros st Ht; cbv zeta; simpl; [done|].
apply Forall_cons in Ht as [Hr Ht]. destruct (IH (step st r) Ht) as [-> Ho]. unfold step in *.
rewrite Hr in *. destruct (take_open (open st) (result_id r)) as [t op'] eqn:E.
destruct (take_open_spec (open st) (result_id r)) as [_ E2]. rewrite E in E2. simpl in E2. subst op'.
split; [done|]. intros id Hid Hn. simpl in Hn. apply not_elem_of_cons in Hn as [Hne Hn].
apply Ho; [|done]. simpl. by apply list_elem_of_filter.
Qed.

Lemma answer_kept pre a rs r post st :
st = foldl step init (pre ++ a :: rs ++ r :: post) →
role a = Assistant → Forall (λ x, role x = Tool) rs → role r = Tool →
result_id r ∈ call_ids a → result_id r ∉ (result_id <$> rs) → r ∈ out st.
Proof.
intros -> Ha Hrs Hr Hin Hnew. rewrite foldl_app. simpl. rewrite foldl_app. simpl. apply foldl_grows.
set (st := step (foldl step init pre) a).
destruct (results_open rs st Hrs) as [Hl Ho]. unfold step at 1. rewrite Hr.
destruct (take_open _ _) as [t op'] eqn:E.
destruct (take_open_spec (open (foldl step st rs)) (result_id r)) as [E1 _]. rewrite E in E1.
simpl in E1. simpl. rewrite Hl.
assert (t || lenient st = true) as ->; [|apply elem_of_app; right; by left].
subst st t. unfold step in Ho |- * at 2. unfold step. rewrite Ha, record_calls_spec in *. simpl in *.
destruct (decide (result_id r = [])) as [E0|Hne].
- rewrite E0 in Hin. rewrite (bool_decide_eq_true_2 ([] ∈ call_ids a)) by done. apply orb_true_r.
- rewrite bool_decide_eq_true_2; [done|]. apply Ho; [|done]. by apply list_elem_of_filter.
Qed.

(** The repair loses nothing real: every message that is not a tool result is
  kept, in order; what is kept of the results is in order too; everything else is
  the standard text for a call that was never answered; and a result that directly
  follows its call's turn and is the first to answer it is kept. *)
Theorem paired_messages_preserves (messages repaired : list Message) :
paired_messages messages = Some repaired →
filter not_tool repaired = filter not_tool messages
∧ (∃ kept, kept `sublist_of` messages ∧ kept `sublist_of` repaired
     ∧ ∀ m, m ∈ repaired → m ∈ kept ∨ ∃ id, m = missing id)
∧ ∀ pre a rs r post, messages = pre ++ a :: rs ++ r :: post →
    role a = Assistant → Forall (λ x, role x = Tool) rs → role r = Tool →
    result_id r ∈ call_ids a → result_id r ∉ (result_id <$> rs) → r ∈ repaired.
Proof.
unfold paired_messages. fold init. set (st := foldl step init messages).
unfold close_open. destruct (changed st || _); [|done]. intros [= <-].
assert (kept_from messages (out st ++ (missing <$> open st))) as [HF HK].
{ rewrite <- (app_nil_r messages). apply kept_from_app; [|apply kept_from_missing].
  apply (foldl_kept messages init []). split; [done|]. exists []. split_and!; [done..|].
  by intros m ?%elem_of_nil. }
split_and!; [done|done|]. intros pre a rs r post Em Ha Hrs Hr Hin Hnew. apply elem_of_app. left.
eapply answer_kept; try done. subst st. by rewrite Em.
Qed.
End pairing.

(** ** The crate's own unit tests, evaluated on the model *)

Notation Msg := (Message unit unit unit).
Definition user (text : string) : Msg := mkMessage User (MText (lit text)) None None None.
Arguments user _%_string.
Definition calls (ids : list string) : Msg :=
  mkMessage Assistant
    (MBlocks (BText (lit "working") :: ((λ id, BToolUse (lit id) (lit "read") tt) <$> ids)))
    None None None.
Arguments calls _%_list_scope.
Definition result (id : string) : Msg :=
  mkMessage Tool (MText (lit "out " ++ lit id)) (Some (lit id)) None None.
Arguments result _%_string.

Example pairing_tests :
  paired_messages [user "hi"; calls ["a"%string]; result "a"; user "next"] = None
  ∧ paired_messages [user "hi"; calls ["a"; "b"]%string; result "b"; user "next"]
    = Some [user "hi"; calls ["a"; "b"]%string; result "b"; missing (lit "a"); user "next"]
  ∧ paired_messages [user "hi"; result "stray"; calls ["a"%string]]
    = Some [user "hi"; calls ["a"%string]; missing (lit "a")]
  ∧ paired_messages [calls [""%string]; result "x"; result "y"; user "next"] = None
  ∧ paired_messages [calls ["a"%string]; result "a"; result "a"]
    = Some [calls ["a"%string]; result "a"].
Proof. split_and!; vm_compute; reflexivity. Qed.

Lemma paired_messages_preserves_witness :
  ∃ repaired, paired_messages [user "hi"; calls ["a"; "b"]%string; result "b"; user "next"] = Some repaired
    ∧ result "b" ∈ repaired ∧ length repaired = 5.
Proof.
  eassert (paired_messages [user "hi"; calls ["a"; "b"]%string; result "b"; user "next"] = Some _) as E
    by (vm_compute; reflexivity).
  eexists. split; [exact E|].
  destruct (paired_messages_preserves _ _ E) as (_ & _ & Hk). split; [|reflexivity].
  apply (Hk [user "hi"] (calls ["a"; "b"]%string) [] (result "b") [user "next"]).
  - reflexivity.
  - reflexivity.
  - constructor.
  - reflexivity.
  - right. left.
  - intros H. inversion H.
Defined.
