(* ===== verification/Summary.v ===== *)
(** The summaries of [session/src/session.rs]: cleaning the reply of a compaction
    model, the carrier message, the local stub that needs no model, and capped
    transcripts. *)

From S2P Require Import Prelude RustStr Bytes Messages ToolPolicy Tree.

Definition COMPACT_CONTINUATION_PREAMBLE : str :=
  lit "This session is being continued from a previous conversation that ran out of context. The summary below covers the earlier portion of the conversation.".

Definition is_compact_summary_text (text : str) : bool :=
  let t := trim_start text in
  starts_with t (lit "[Compacted") || starts_with t (lit "This session is being continued").

Definition A_OPEN : str := lit "<analysis>".
Definition A_CLOSE : str := lit "</analysis>".
Definition S_OPEN : str := lit "<summary>".
Definition S_CLOSE : str := lit "</summary>".

(** [s.replacen(from, to, 1)]. *)
Definition replace_first (s from to : str) : str :=
  match split_once s from with Some (a, b) => a ++ to ++ b | None => s end.

(** A leading analysis block is dropped: up to its end, or up to the summary. *)
Definition drop_analysis (result : str) : option str :=
  match find result A_OPEN with
  | None => Some result
  | Some start =>
      before ← slice_to result start;
      if negb (trim before == []) then Some result
      else
        rest ← slice_from result start;
        match find rest A_CLOSE with
        | Some rel => after ← slice_from result (start + rel + byte_len A_CLOSE); Some (trim after)
        | None =>
            let drop_to := match find rest S_OPEN with Some rel => start + rel | None => byte_len result end in
            after ← slice_from result drop_to; Some (trim after)
        end
  end.

Definition unwrap_summary (result : str) : option str :=
  match find result S_OPEN with
  | None => Some result
  | Some start =>
      match rfind_str result S_CLOSE with
      | Some end' =>
          if start <? end' then
            inner ← slice result (start + byte_len S_OPEN) end';
            Some (lit "Summary:" ++ [cLF] ++ trim inner)
          else Some (replace_first result S_OPEN (lit "Summary:" ++ [cLF]))
      | None => Some (replace_first result S_OPEN (lit "Summary:" ++ [cLF]))
      end
  end.

(** [while result.contains("\n\n\n") { result = result.replace("\n\n\n", "\n\n") }]. *)
Fixpoint collapse_blank_lines (fuel : nat) (result : str) : option str :=
  if contains result [cLF; cLF; cLF] then
    match fuel with
    | O => None
    | S k => collapse_blank_lines k (replace result [cLF; cLF; cLF] [cLF; cLF])
    end
  else Some result.

Definition format_compact_summary (raw : str) : option str :=
  result ← drop_analysis (trim raw);
  result ← unwrap_summary result;
  result ← collapse_blank_lines (length result) result;
  Some (trim result).

Definition format_compact_summary_content (raw : str) : option str :=
  cleaned ← format_compact_summary raw;
  Some (if cleaned == [] then []
        else if starts_with cleaned (lit "This session is being continued") then cleaned
        else COMPACT_CONTINUATION_PREAMBLE ++ [cLF; cLF] ++ cleaned).

Definition compact_summary_display_text (text : str) : str :=
  let t := trim text in
  let rest := match strip_prefix COMPACT_CONTINUATION_PREAMBLE t with
              | Some stripped => trim stripped
              | None => match strip_prefix (lit "[Compacted earlier conversation]") t with
                        | Some stripped => trim stripped
                        | None => t
                        end
              end in
  if rest == [] then lit "Conversation compacted"
  else if starts_with rest (lit "Conversation compacted") then rest
  else lit "Conversation compacted" ++ [cLF] ++ rest.

Definition first_line_snippet (text : str) (max_chars : nat) : str :=
  let line := default [] (List.find (λ l, negb (l == [])) (trim <$> lines text)) in
  if length line <=? max_chars then line else take (max_chars - 1) line ++ [8230]%N.

(** ** Paths worth naming *)

Definition looks_like_path (s : str) : bool :=
  if (byte_len s <? 3) || (200 <? byte_len s) then false
  else if starts_with s (lit "http://") || starts_with s (lit "https://") then false
  else (contains_char s (chr "/") || contains_char s (chr "\")) && contains_char s (chr ".") &&
       negb (contains s (lit "://")).

Definition push_path (path : str) (paths : list str) (max : nat) : list str :=
  if (max <=? length paths) || (path == []) then paths
  else if existsb (λ p, p == path) paths then paths
  else paths ++ [path].

Fixpoint push_header_paths (ls : list str) (paths : list str) (max : nat) : list str :=
  match ls with
  | [] => paths
  | line :: r =>
      if max <=? length paths then paths
      else
        let paths := match strip_prefix (lit "# ") (trim line) with
                     | Some rest =>
                         let candidate := default [] (head (split_whitespace rest)) in
                         if looks_like_path candidate then push_path candidate paths max else paths
                     | None => paths
                     end in
        push_header_paths r paths max
  end.
Definition is_token_edge (c : rchar) : bool := existsb (N.eqb c) (lit ",;)(" ++ [cDQ; cSQ; cBT] ++ lit "[]").
Fixpoint push_token_paths (tokens : list str) (paths : list str) (max : nat) : list str :=
  match tokens with
  | [] => paths
  | token :: r =>
      if max <=? length paths then paths
      else
        let tok := trim_end_matches is_token_edge (trim_start_matches is_token_edge token) in
        push_token_paths r (if looks_like_path tok then push_path tok paths max else paths) max
  end.
Definition push_paths_from_text (text : str) (paths : list str) (max : nat) : list str :=
  push_token_paths (take 200 (split_whitespace text)) (push_header_paths (take 40 (lines text)) paths max) max.

Section summary.
Context {Value ImageSource Time : Type} `{!Json Value}.
Notation Message := (Message Value ImageSource Time).
Notation ContentBlock := (ContentBlock Value ImageSource).

(** A block is skipped once enough paths are found, which the early [return]
    amounts to, since every step below it is then the identity. *)
Fixpoint collect_block_paths (blocks : list ContentBlock) (paths : list str) (max : nat) : list str :=
  match blocks with
  | [] => paths
  | b :: r =>
      let paths :=
        match b with
        | BText text | BToolResult _ text _ => push_paths_from_text text paths max
        | BToolUse _ _ input =>
            match json_get input (lit "path") ≫= val_as_str with
            | Some p => push_path p paths max
            | None => paths
            end
        | _ => paths
        end in
      if max <=? length paths then paths else collect_block_paths r paths max
  end.
Definition collect_paths_from_message (m : Message) (paths : list str) (max : nat) : list str :=
  if max <=? length paths then paths
  else match content m with
       | MText t => push_paths_from_text t paths max
       | MBlocks blocks => collect_block_paths blocks paths max
       end.

(** The counters and lists of the loop of [summarize_trimmed]. *)
Record Trimmed := mkTrimmed {
  users : nat; assistants : nat; tools : nat; other : nat;
  goals : list str; paths : list str; tool_names : list str }.

Definition push_goal (goals : list str) (m : Message) : list str :=
  if length goals <? 3 then
    match as_text (content m) with
    | Some t =>
        let snippet := first_line_snippet t 120 in
        if negb (snippet == []) && negb (starts_with snippet (lit "[")) && negb (existsb (λ g, g == snippet) goals)
        then goals ++ [snippet] else goals
    | None => goals
    end
  else goals.
Definition push_tool_name (names : list str) (m : Message) : list str :=
  match name m with
  | Some n => if (length names <? 8) && negb (existsb (λ x, x == n) names) then names ++ [n] else names
  | None => names
  end.

Definition trimmed_step (s : Trimmed) (m : Message) : Trimmed :=
  match role m with
  | User => mkTrimmed (users s + 1) (assistants s) (tools s) (other s) (push_goal (goals s) m) (paths s) (tool_names s)
  | Assistant =>
      mkTrimmed (users s) (assistants s + 1) (tools s) (other s) (goals s)
        (collect_paths_from_message m (paths s) 8) (tool_names s)
  | Tool =>
      mkTrimmed (users s) (assistants s) (tools s + 1) (other s) (goals s)
        (collect_paths_from_message m (paths s) 8) (push_tool_name (tool_names s) m)
  | System => mkTrimmed (users s) (assistants s) (tools s) (other s + 1) (goals s) (paths s) (tool_names s)
  end.

Definition nat_text (n : nat) : str := digits (N.of_nat n).
(** A list that is only printed when it holds something. *)
Definition listed (title sep : str) (items : list str) : str :=
  if length items =? 0 then [] else [cLF] ++ title ++ join sep items.

Definition summarize_trimmed (trimmed : list Message) : str :=
  let s := foldl trimmed_step (mkTrimmed 0 0 0 0 [] [] []) trimmed in
  lit "[" ++ nat_text (length trimmed) ++ lit " earlier messages trimmed for context management (user=" ++
  nat_text (users s) ++ lit ", assistant=" ++ nat_text (assistants s) ++ lit ", tool=" ++ nat_text (tools s) ++
  (if 0 <? other s then lit ", other=" ++ nat_text (other s) else []) ++ lit ")]" ++
  listed (lit "Goals: ") (lit " | ") (goals s) ++
  listed (lit "Files: ") (lit ", ") (paths s) ++
  listed (lit "Tools used: ") (lit ", ") (tool_names s).

(** ** Transcripts for a summarizing model *)

Definition role_name (r : Role) : str :=
  match r with User => lit "User" | Assistant => lit "Assistant" | Tool => lit "Tool" | System => lit "System" end.
Definition transcript_text (b : ContentBlock) : option str :=
  match b with
  | BText text => Some text
  | BToolResult _ content _ => Some content
  | BToolUse _ name _ => Some name
  | BCompaction content _ => Some content
  | _ => None
  end.
Definition transcript_body (m : Message) : str :=
  match content m with MText t => t | MBlocks blocks => join [cLF] (omap transcript_text blocks) end.
Definition transcript_piece (m : Message) : str :=
  role_name (role m) ++ lit ": " ++ transcript_body m ++ [cLF; cLF].

Fixpoint transcript_loop (messages : list Message) (max_chars : nat) (out : str) : str :=
  match messages with
  | [] => out
  | m :: r =>
      let piece := transcript_piece m in
      if max_chars <? byte_len out + byte_len piece then
        let remain := max_chars - byte_len out in
        if 32 <? remain then out ++ take remain piece ++ [cLF; ellipsis] else out
      else transcript_loop r max_chars (out ++ piece)
  end.
Definition messages_transcript (messages : list Message) (max_chars : nat) : str :=
  transcript_loop messages max_chars [].

(** A transcript is a prefix of the whole conversation's, by at most
    [max_chars] characters and the mark of what was cut. *)
Lemma transcript_loop_bounded messages max_chars out :
  byte_len out ≤ max_chars →
  (∃ k, transcript_loop messages max_chars out = take k (out ++ mjoin (transcript_piece <$> messages))
        ∨ transcript_loop messages max_chars out = take k (out ++ mjoin (transcript_piece <$> messages)) ++ [cLF; ellipsis])
  ∧ length (transcript_loop messages max_chars out) ≤ max_chars + 2.
Proof.
  revert out; induction messages as [|m r IH]; intros out Ho; cbn [transcript_loop fmap list_fmap mjoin list_join].
  - pose proof (byte_len_length out). split; [|lia]. exists (length out). left. by rewrite app_nil_r, take_ge.
  - set (piece := transcript_piece m). destruct (Nat.ltb_spec max_chars (byte_len out + byte_len piece)) as [H|H].
    + pose proof (byte_len_length out). destruct (32 <? max_chars - byte_len out).
      * split; [|rewrite !length_app, length_take; cbn; lia].
        exists (length out + (max_chars - byte_len out) `min` length piece). right.
        rewrite take_app_add, (take_app_le piece) by lia. rewrite <- app_assoc. do 2 f_equal.
        destruct (decide (max_chars - byte_len out ≤ length piece)); [f_equal; lia|].
        rewrite !take_ge by lia. done.
      * split; [|lia]. exists (length out). left. by rewrite take_app_length.
    + specialize (IH (out ++ piece)). rewrite byte_len_app in IH. rewrite <- app_assoc in IH. by apply IH.
Qed.
End summary.

(** ** The cleaned summary *)

Lemma replace_shorter from to s :
  length to < length from → length (replace s from to) ≤ length s ∧ (infix_of from s → length (replace s from to) < length s).
Proof.
  intros Hl. assert (from ≠ []) as Hne by (intros ->; cbn in Hl; lia). unfold replace.
  induction s as [s IH] using (induction_ltof1 _ (@length N)).
  destruct (contains s from) eqn:Ec.
  - apply contains_true in Ec. destruct (infix_first _ _ Ec) as (a & b & -> & Hm).
    rewrite replace_go_first by done. rewrite !length_app.
    destruct (IH b) as [Hb _]; [unfold ltof; rewrite !length_app; destruct from; [done|cbn; lia]|]. lia.
  - assert (¬ infix_of from s) as Hn by (rewrite <- contains_true; congruence).
    rewrite replace_go_none by done. split; [done|]. by intros.
Qed.

Definition BLANKS : str := [cLF; cLF; cLF].
Lemma collapse_blank_lines_ends fuel s :
  length s ≤ fuel → ∃ r, collapse_blank_lines fuel s = Some r ∧ ¬ infix_of BLANKS r.
Proof.
  revert s; induction fuel as [|k IH]; intros s Hl; cbn [collapse_blank_lines].
  - destruct s; [|cbn in Hl; lia]. exists []. split; [done|]. intros H. by apply infix_of_nil in H.
  - destruct (contains s [cLF; cLF; cLF]) eqn:Ec.
    + apply contains_true in Ec. apply IH.
      destruct (replace_shorter [cLF; cLF; cLF] [cLF; cLF] s ltac:(cbn; lia)) as [_ H]. specialize (H Ec). lia.
    + exists s. split; [done|]. intros H. apply contains_true in H. unfold BLANKS in H. congruence.
Qed.

Lemma slice_from_at (p r : str) i : i = byte_len p → slice_from (p ++ r) i = Some r.
Proof. intros ->. apply slice_from_app. Qed.
Lemma slice_to_at (p r : str) i : i = byte_len p → slice_to (p ++ r) i = Some p.
Proof. intros ->. apply slice_to_app. Qed.

Lemma drop_analysis_total s : is_Some (drop_analysis s).
Proof.
  unfold drop_analysis. destruct (find s A_OPEN) as [start|] eqn:Ef; [|eauto].
  apply find_Some in Ef as (a & b & -> & -> & _). rewrite slice_to_app. cbn [mbind option_bind].
  case_match; [eauto|]. rewrite slice_from_app. cbn [mbind option_bind].
  destruct (find (A_OPEN ++ b) A_CLOSE) as [rel|] eqn:Ec.
  - apply find_Some in Ec as (c & d & -> & -> & _).
    rewrite !app_assoc, slice_from_at by (by rewrite !byte_len_app). cbn. eauto.
  - destruct (find (A_OPEN ++ b) S_OPEN) as [rel|] eqn:Es.
    + apply find_Some in Es as (c & d & -> & -> & _).
      rewrite app_assoc, slice_from_at by (by rewrite !byte_len_app). cbn. eauto.
    + rewrite <- (app_nil_r (a ++ A_OPEN ++ b)) at 1. rewrite slice_from_app. cbn. eauto.
Qed.

(** A closing mark that starts after an opening one does not overlap it. *)
Lemma marks_apart (a b a' b' : str) :
  a ++ S_OPEN ++ b = a' ++ S_CLOSE ++ b' → byte_len a < byte_len a' → ∃ m, a' = a ++ S_OPEN ++ m ∧ b = m ++ S_CLOSE ++ b'.
Proof.
  intros E Hl. destruct (byte_split_le a a' (S_OPEN ++ b) (S_CLOSE ++ b') E ltac:(lia)) as (k & -> & E').
  destruct k as [|c k]; [rewrite app_nil_r in Hl; lia|]. clear E Hl.
  change S_OPEN with (lit "<summary>") in *. change S_CLOSE with (lit "</summary>") in *.
  unfold lit in *. cbn in E'. injection E' as <- E'.
  do 8 (destruct k as [|? k]; [discriminate E'|]; injection E' as <- E'). subst b. by exists k.
Qed.

Lemma unwrap_summary_total s : is_Some (unwrap_summary s).
Proof.
  unfold unwrap_summary. destruct (find s S_OPEN) as [start|] eqn:Ef; [|eauto].
  apply find_Some in Ef as (a & b & -> & -> & _).
  pose proof (rfind_str_spec (a ++ S_OPEN ++ b) S_CLOSE ltac:(done)) as Hr.
  destruct (rfind_str _ _) as [e|]; [|eauto]. destruct Hr as (a' & b' & E & <- & _).
  destruct (Nat.ltb_spec (byte_len a) (byte_len a')) as [H|H]; [|eauto].
  destruct (marks_apart _ _ _ _ E H) as (m & -> & ->).
  rewrite (app_assoc a S_OPEN). rewrite <- (byte_len_app a S_OPEN).
  rewrite (app_assoc a S_OPEN m), (byte_len_app (a ++ S_OPEN) m), slice_app. cbn. eauto.
Qed.

Lemma trim_infix s : infix_of (trim s) s.
Proof.
  unfold trim, trim_end, trim_start, trim_start_matches.
  destruct (drop_while_infix is_whitespace s) as [p Ep].
  destruct (trim_end_matches_prefix is_whitespace (drop_while is_whitespace s)) as [q Eq].
  exists p, q. by rewrite <- Eq.
Qed.

Lemma format_compact_summary_total raw :
  ∃ out, format_compact_summary raw = Some out ∧ ¬ infix_of BLANKS out ∧ ∃ t, out = trim t.
Proof.
  unfold format_compact_summary. destruct (drop_analysis_total (trim raw)) as [r1 ->]. cbn [mbind option_bind].
  destruct (unwrap_summary_total r1) as [r2 ->]. cbn [mbind option_bind].
  destruct (collapse_blank_lines_ends (length r2) r2 ltac:(done)) as (r3 & -> & Hb). cbn [mbind option_bind].
  eexists; split; [done|]. split; [|eauto]. intros (a & b & E). apply Hb.
  destruct (trim_infix r3) as (p & q & Er). rewrite Er, E. exists (p ++ a), (b ++ q). by rewrite <- !app_assoc.
Qed.

Lemma trim_start_id s : (∀ c r, s = c :: r → is_whitespace c = false) → trim_start s = s.
Proof. apply drop_while_id. Qed.

(** What [format_compact_summary_content] returns is empty or a carrier: text that
    [is_compact_summary_text] recognizes. *)
Lemma format_compact_summary_content_carrier raw :
  ∃ out, format_compact_summary_content raw = Some out ∧ (out = [] ∨ is_compact_summary_text out = true).
Proof.
  unfold format_compact_summary_content.
  destruct (format_compact_summary_total raw) as (out & -> & _ & t & ->). cbn [mbind option_bind].
  case_bool_decide as He; [eauto|]. destruct (starts_with (trim t) _) eqn:Es.
  - eexists; split; [done|]. right. unfold is_compact_summary_text.
    rewrite trim_start_id, Es, orb_true_r; [done|]. intros c r. apply trim_head.
  - eexists; split; [done|]. right. unfold is_compact_summary_text. rewrite trim_start_id.
    + apply orb_true_iff. right. apply starts_with_true. 
      eexists. unfold COMPACT_CONTINUATION_PREAMBLE.
      change (lit "This session is being continued from a previous conversation that ran out of context. The summary below covers the earlier portion of the conversation.")
        with (lit "This session is being continued" ++ lit " from a previous conversation that ran out of context. The summary below covers the earlier portion of the conversation.").
      by rewrite <- app_assoc.
    + intros c r [= <- _]. vm_compute. done.
Qed.
