(* ===== verification/Session.v ===== *)
(** The transcript of a session ([session/src/session.rs]): appending messages, the
    running token estimate, shrinking and spilling old tool results, compaction,
    checkpoints, undo, and the request built from it.

    Titles, usage, cost, edit statistics, [updated_at] and the database are left out.
    The clock is an argument; readings within one operation are one value. Token
    counts are unbounded numbers. An operation that panics is [None]. *)

From S2P Require Import Prelude RustStr Bytes Messages ToolPolicy ToolText Tree Summary Pairing.

Definition PRUNE_KEEP_RECENT_TOOLS : nat := 4.
Definition MIN_KEEP_MESSAGES : nat := 4.
Definition SUMMARY_TOKEN_SLACK : nat := 256.
Definition DROPPED_TRANSCRIPT_MAX_CHARS : nat := N.to_nat 12000.
Definition FULL_TRANSCRIPT_MAX_CHARS : nat := N.to_nat 48000.
Definition AGENT_NOTE_NAME : str := lit "whycodes_note".
Definition fallback_tool_call_id (index : nat) : str := lit "call_" ++ nat_text index.

(** [f] on every element, with the sum of what it counts; [None] when one panics. *)
Fixpoint count_map {A} (f : A → option (A * nat)) (l : list A) : option (list A * nat) :=
  match l with
  | [] => Some ([], 0)
  | x :: r => '(x, n) ← f x; '(r, k) ← count_map f r; Some (x :: r, n + k)
  end.
(** The same where [f] is also given the position, as in [iter_mut().enumerate()]. *)
Fixpoint count_imap {A} (f : nat → A → option (A * nat)) (i : nat) (l : list A) : option (list A * nat) :=
  match l with
  | [] => Some ([], 0)
  | x :: r => '(x, n) ← f i x; '(r, k) ← count_imap f (S i) r; Some (x :: r, n + k)
  end.

Section session.
Context {Value Time : Type} `{!Json Value} `{!EqDecision Time}.
Notation Message := (Message Value ImageSource Time).
Notation ContentBlock := (ContentBlock Value ImageSource).
Notation MessageContent := (MessageContent Value ImageSource).
Notation CheckpointState := (@CheckpointState Time).

Definition is_agent_note (m : Message) : bool := (role m == User) && (name m == Some AGENT_NOTE_NAME).

(** [Message { role, content, tool_call_id, name, created_at: None }.stamp()]. *)
Definition stamped (r : Role) (c : MessageContent) (id note : option str) (now : Time) : Message :=
  mkMessage r c id note (Some now).
Definition user_text (now : Time) (text : str) : Message := stamped User (MText text) None None now.

Definition block_tokens (b : ContentBlock) : nat :=
  match b with
  | BText text => estimate_tokens text
  | BToolResult _ content _ => estimate_tokens content
  | BToolUse _ name input => estimate_tokens name + estimate_tokens (json_to_string input)
  | BImage _ => 100
  | BThinking text signature => estimate_tokens text + default 0 (estimate_tokens <$> signature)
  | BRedactedThinking data => estimate_tokens data
  | BCompaction content _ => estimate_tokens content
  end.
Definition message_tokens (m : Message) : nat :=
  match content m with MText t => estimate_tokens t | MBlocks b => sum_list (block_tokens <$> b) end.

(** ** State *)

Record SessionTokenCache := mkTokens { tok_system : nat; per_msg : list nat; total : nat; valid : bool }.
Record PinnedSuffix := mkPin { anchor : Time; pin_text : str }.
Record Session := mkSess {
  messages : list Message;
  system_prompt : str;
  token_cache : SessionTokenCache;
  checkpoint : option CheckpointState;
  last_rewind_report : option str;
  pinned_suffixes : list PinnedSuffix }.

Definition set_cache (self : Session) (c : SessionTokenCache) : Session :=
  mkSess (messages self) (system_prompt self) c (checkpoint self) (last_rewind_report self) (pinned_suffixes self).
Definition set_msgs (self : Session) (ms : list Message) : Session :=
  mkSess ms (system_prompt self) (token_cache self) (checkpoint self) (last_rewind_report self) (pinned_suffixes self).
Definition set_checkpoint (self : Session) (c : option CheckpointState) (r : option str) : Session :=
  mkSess (messages self) (system_prompt self) (token_cache self) c r (pinned_suffixes self).
Definition set_pins (self : Session) (p : list PinnedSuffix) : Session :=
  mkSess (messages self) (system_prompt self) (token_cache self) (checkpoint self) (last_rewind_report self) p.

(** ** The token cache *)

Definition from_parts (system : str) (ms : list Message) : SessionTokenCache :=
  let per := message_tokens <$> ms in
  mkTokens (estimate_tokens system) per (estimate_tokens system + sum_list per) true.
Definition ensure (self : SessionTokenCache) (system : str) (ms : list Message) : SessionTokenCache :=
  if valid self && (length (per_msg self) =? length ms) then self else from_parts system ms.
Definition push_msg (self : SessionTokenCache) (m : Message) : SessionTokenCache :=
  if negb (valid self) then self
  else let t := message_tokens m in mkTokens (tok_system self) (per_msg self ++ [t]) (total self + t) (valid self).
Definition set_system (self : SessionTokenCache) (system : str) : SessionTokenCache :=
  if negb (valid self) then self
  else let sys := estimate_tokens system in
       mkTokens sys (per_msg self) (total self - tok_system self + sys) (valid self).
Definition rebuild_token_cache (self : Session) : Session :=
  set_cache self (from_parts (system_prompt self) (messages self)).

Definition pinned_suffix_tokens (self : Session) : nat :=
  sum_list ((λ p, estimate_tokens (pin_text p)) <$> pinned_suffixes self).
Definition token_count (self : Session) : nat :=
  let c := token_cache self in
  if valid c && (length (per_msg c) =? length (messages self)) then total c + pinned_suffix_tokens self
  else estimate_tokens (system_prompt self) + sum_list (message_tokens <$> messages self) + pinned_suffix_tokens self.
Definition token_count_cached (self : Session) : nat * Session :=
  let c := ensure (token_cache self) (system_prompt self) (messages self) in
  let self := set_cache self c in
  (total c + pinned_suffix_tokens self, self).

(** ** Appending *)

Definition new_session (prompt : str) : Session := mkSess [] prompt (from_parts prompt []) None None [].
Definition push_message (self : Session) (m : Message) : Session :=
  set_msgs (set_cache self (push_msg (token_cache self) m)) (messages self ++ [m]).
Definition push_user_text (now : Time) (text : str) (note : option str) (self : Session) : Session :=
  push_message self (stamped User (MText text) None note now).
Definition add_user_message (now : Time) (text : str) (self : Session) : Session := push_user_text now text None self.
Definition add_agent_note (now : Time) (text : str) (self : Session) : Session :=
  push_user_text now text (Some AGENT_NOTE_NAME) self.
Definition add_user_message_blocks (now : Time) (blocks : list ContentBlock) (self : Session) : Session :=
  push_message self (stamped User (MBlocks blocks) None None now).
Definition add_assistant_message (now : Time) (blocks : list ContentBlock) (self : Session) : Session :=
  push_message self (stamped Assistant (MBlocks blocks) None None now).

Definition result_content (text : str) : option MessageContent :=
  payload ← split_whycodes_image_payload text;
  match payload with
  | Some (media, b64, preface) =>
      preface ← cap_tool_text preface; Some (MBlocks [BText preface; BImage (Base64 media b64)])
  | None => Some (MText (cap_tool_text_head_tail text))
  end.
Definition add_tool_result (now : Time) (self : Session) (r : ToolResult) : option Session :=
  c ← result_content (res_content r);
  let id := if ToolPolicy.tool_call_id r == [] then fallback_tool_call_id (length (messages self))
            else ToolPolicy.tool_call_id r in
  Some (push_message self (stamped Tool c (Some id) None now)).
Fixpoint add_tool_results (now : Time) (results : list ToolResult) (self : Session) : option Session :=
  match results with
  | [] => Some self
  | r :: rs => self ← add_tool_result now self r; add_tool_results now rs self
  end.

Definition set_system_prompt (prompt : str) (self : Session) : Session :=
  mkSess (messages self) prompt (set_system (token_cache self) prompt) (checkpoint self)
    (last_rewind_report self) (pinned_suffixes self).

(** ** Shrinking tool results *)

(** A text after its cap, and whether its byte length changed. *)
Definition cap_counted (cap : str → option str) (text : str) : option (str * nat) :=
  t ← cap text; Some (t, if byte_len t =? byte_len text then 0 else 1).
Definition cap_result (cap : str → option str) (b : ContentBlock) : option (ContentBlock * nat) :=
  match b with
  | BToolResult id text e => '(t, n) ← cap_counted cap text; Some (BToolResult id t e, n)
  | _ => Some (b, 0)
  end.
Definition cap_block (cap : str → option str) (b : ContentBlock) : option (ContentBlock * nat) :=
  match b with
  | BText text => '(t, n) ← cap_counted cap text; Some (BText t, n)
  | _ => cap_result cap b
  end.
Definition cap_content (cap : str → option str) (m : Message) : option (Message * nat) :=
  match content m with
  | MText t => '(t, n) ← cap_counted cap t; Some (set_content m (MText t), n)
  | MBlocks blocks => '(bs, n) ← count_map (cap_block cap) blocks; Some (set_content m (MBlocks bs), n)
  end.

Definition truncate_message (m : Message) : option (Message * nat) :=
  if negb (role m == Tool) then
    match content m with
    | MText _ => Some (m, 0)
    | MBlocks blocks => '(bs, n) ← count_map (cap_result cap_tool_text) blocks; Some (set_content m (MBlocks bs), n)
    end
  else cap_content cap_tool_text m.
Definition shrunk (self : Session) (res : list Message * nat) : nat * Session :=
  let '(ms, n) := res in
  let self := set_msgs self ms in
  (n, if 0 <? n then rebuild_token_cache self else self).
Definition truncate_large_tool_results (self : Session) : option (nat * Session) :=
  res ← count_map truncate_message (messages self); Some (shrunk self res).

(** Positions of a list, from [i]. *)
Fixpoint positions (f : Message → bool) (i : nat) (ms : list Message) : list nat :=
  match ms with [] => [] | m :: r => if f m then i :: positions f (S i) r else positions f (S i) r end.
Definition rposition (f : Message → bool) (ms : list Message) : option nat := last (positions f 0 ms).

Definition shrinkable_tool_indices (self : Session) : list nat :=
  let seen_before := default 0 (rposition (λ m, role m == Assistant) (messages self)) in
  let tool := positions (λ m, role m == Tool) 0 (messages self) in
  let keep_from := length tool - PRUNE_KEEP_RECENT_TOOLS in
  filter (λ i, i < seen_before) (take keep_from tool).

Definition shrink_old (n : nat) (self : Session) : option (nat * Session) :=
  let old := shrinkable_tool_indices self in
  if length old =? 0 then Some (0, self)
  else
    res ← count_imap (λ i m, if existsb (Nat.eqb i) old then cap_content (λ t, cap_tool_text_to t n) m else Some (m, 0))
            0 (messages self);
    Some (shrunk self res).
Definition prune_old_tool_results (self : Session) : option (nat * Session) := shrink_old TOOL_RESULT_PRUNE_CHARS self.
Definition shake_old_tool_results (self : Session) : option (nat * Session) := shrink_old TOOL_RESULT_SHAKE_CHARS self.

(** *** Spilling, with the state of the store threaded *)

Section spill.
Context {St : Type} (store : St → str → str → option str * St).

Definition spill_text (id text : str) (σ : St) : str * nat * St :=
  let '(spilled, σ) := spill_body store text id σ in
  match spilled with Some t => (t, 1, σ) | None => (text, 0, σ) end.
Fixpoint spill_blocks (fallback_id : str) (blocks : list ContentBlock) (σ : St) : list ContentBlock * nat * St :=
  match blocks with
  | [] => ([], 0, σ)
  | b :: r =>
      let '(b, n, σ) :=
        match b with
        | BToolResult id text e => let '(t, n, σ) := spill_text id text σ in (BToolResult id t e, n, σ)
        | BText text => let '(t, n, σ) := spill_text fallback_id text σ in (BText t, n, σ)
        | _ => (b, 0, σ)
        end in
      let '(r, k, σ) := spill_blocks fallback_id r σ in (b :: r, n + k, σ)
  end.
Definition spill_message (i : nat) (m : Message) (σ : St) : Message * nat * St :=
  let fallback_id := default (lit "msg-" ++ nat_text i) (Messages.tool_call_id m) in
  match content m with
  | MText t => let '(t, n, σ) := spill_text fallback_id t σ in (set_content m (MText t), n, σ)
  | MBlocks blocks => let '(bs, n, σ) := spill_blocks fallback_id blocks σ in (set_content m (MBlocks bs), n, σ)
  end.
Fixpoint spill_loop (old : list nat) (ms : list Message) (n : nat) (σ : St) : option (list Message * nat * St) :=
  match old with
  | [] => Some (ms, n, σ)
  | i :: r =>
      m ← ms !! i;
      let '(m, k, σ) := spill_message i m σ in
      spill_loop r (<[i := m]> ms) (n + k) σ
  end.
Definition spill_old_tool_results (self : Session) (σ : St) : option (nat * Session * St) :=
  let old := shrinkable_tool_indices self in
  if length old =? 0 then Some (0, self, σ)
  else
    '(ms, n, σ) ← spill_loop old (messages self) 0 σ;
    Some (shrunk self (ms, n), σ).
End spill.

(** ** Summaries and compaction *)

Record CompactOutcome := mkOutcome {
  tokens_before : nat; tokens_after : nat; messages_before : nat; messages_after : nat; dropped_transcript : str }.
Definition reduced (o : CompactOutcome) : bool :=
  (tokens_after o <? tokens_before o) || (messages_after o <? messages_before o).
Definition still_over (o : CompactOutcome) (threshold : nat) : bool := (0 <? threshold) && (threshold <? tokens_after o).
Definition failed (o : CompactOutcome) (threshold : nat) : bool := still_over o threshold && negb (reduced o).
Definition dropped_messages (o : CompactOutcome) : bool := negb (dropped_transcript o == []).

Definition is_carrier (m : Message) : bool :=
  (role m == User) && match as_text (content m) with Some t => is_compact_summary_text t | None => false end.

Definition prepend_compact_summary (now : Time) (summary : str) (self : Session) : Session :=
  let text := trim summary in
  if text == [] then self
  else
    let body := if starts_with text (lit "[") then text
                else lit "[Compacted earlier conversation]" ++ [cLF] ++ text in
    let insert := rebuild_token_cache (set_msgs self (user_text now body :: messages self)) in
    match messages self with
    | first :: rest =>
        match content first with
        | MText t =>
            if (role first == User) && is_compact_summary_text t
            then rebuild_token_cache (set_msgs self (set_content first (MText body) :: rest))
            else insert
        | MBlocks _ => insert
        end
    | [] => insert
    end.

Definition transcript_for_compact_summary (max_chars : nat) (self : Session) : str :=
  let keep_tail := MIN_KEEP_MESSAGES `min` length (messages self) in
  messages_transcript (take (length (messages self) - keep_tail) (messages self)) max_chars.
Definition transcript_for_full_summary (max_chars : nat) (self : Session) : str :=
  messages_transcript (messages self) (if max_chars =? 0 then FULL_TRANSCRIPT_MAX_CHARS else max_chars).

Definition real_user (m : Message) : bool :=
  if negb (role m == User) || is_agent_note m then false
  else match content m with MText t => negb (is_compact_summary_text t) | MBlocks _ => true end.
Definition last_real_user_index (self : Session) : option nat := rposition real_user (messages self).
Definition compaction_prefix_end (self : Session) : option nat := last_real_user_index self.
Definition prefix_transcript_for_summary (self : Session) : option (nat * str) :=
  match last_real_user_index self with
  | Some e => if 0 <? e then Some (e, messages_transcript (take e (messages self)) FULL_TRANSCRIPT_MAX_CHARS) else None
  | None => None
  end.

Definition local_full_replace_summary (self : Session) : str :=
  let e := default (length (messages self)) (last_real_user_index self) in
  summarize_trimmed (if e =? 0 then messages self else take e (messages self)).

Definition apply_full_replace (now : Time) (summary : str) (self : Session) : option (CompactOutcome * Session) :=
  let '(before, self) := token_count_cached self in
  let n_before := length (messages self) in
  if n_before =? 0 then Some (mkOutcome before before n_before 0 [], self)
  else
    let last_idx := last_real_user_index self in
    let prefix_end := default n_before last_idx in
    let dropped := messages_transcript (take prefix_end (messages self)) DROPPED_TRANSCRIPT_MAX_CHARS in
    let last_user_query := i ← last_idx; m ← messages self !! i; as_text (content m) in
    let recent := match last_idx with
                  | Some i => List.filter (λ m, negb (is_carrier m)) (drop (i + 1) (messages self))
                  | None => []
                  end in
    body ← format_compact_summary_content summary;
    body ← (if body == [] then format_compact_summary_content (local_full_replace_summary self) else Some body);
    let query := match last_user_query with Some q => [user_text now q] | None => [] end in
    let carrier := if body == [] then [] else [user_text now body] in
    let self := rebuild_token_cache (set_msgs self (query ++ recent ++ carrier)) in
    let '(after, self) := token_count_cached self in
    Some (mkOutcome before after n_before (length (messages self)) dropped, self).

Definition is_tool_use (b : ContentBlock) : bool := match b with BToolUse _ _ _ => true | _ => false end.
Definition native_compaction_prefix (self : Session) : option (nat * list Message) :=
  match last_real_user_index self with
  | Some (S e) =>
      last ← messages self !! e;
      let open_call := match content last with MBlocks blocks => existsb is_tool_use blocks | MText _ => false end in
      if negb (role last == Assistant) || open_call then None
      else let prefix := take (S e) (messages self) in
           Some (S e, default prefix (paired_messages prefix))
  | _ => None
  end.
(** [&self.messages[..cut]] panics beyond the end. *)
Definition apply_native_compaction (now : Time) (cut : nat) (block : ContentBlock) (self : Session) :
    option (CompactOutcome * Session) :=
  let '(before, self) := token_count_cached self in
  let n_before := length (messages self) in
  if n_before <? cut then None
  else
    let dropped := messages_transcript (take cut (messages self)) DROPPED_TRANSCRIPT_MAX_CHARS in
    let self := rebuild_token_cache
      (set_msgs self (stamped Assistant (MBlocks [block]) None None now :: drop cut (messages self))) in
    let '(after, self) := token_count_cached self in
    Some (mkOutcome before after n_before (length (messages self)) dropped, self).

Definition compact_full_replace_local (now : Time) (self : Session) : option (CompactOutcome * Session) :=
  '(_, self) ← truncate_large_tool_results self;
  '(_, self) ← prune_old_tool_results self;
  if length (messages self) =? 0 then
    let '(n, self) := token_count_cached self in Some (mkOutcome n n 0 0 [], self)
  else apply_full_replace now (local_full_replace_summary self) self.

(** The loop of [compact]: from [start], while more than [min_keep] are left. *)
Fixpoint find_start (fuel : nat) (system : str) (ms : list Message) (min_keep target start : nat) : nat :=
  match fuel with
  | O => start
  | S k =>
      if min_keep <? length ms - start then
        let total := estimate_tokens system + sum_list (message_tokens <$> drop start ms) + SUMMARY_TOKEN_SLACK in
        if total <=? target then start else find_start k system ms min_keep target (start + 1)
      else start
  end.
(** [max_tokens.saturating_mul(3) / 4], at least one. *)
Definition compact_target (max_tokens : nat) : nat :=
  N.to_nat (N.min (N.of_nat max_tokens * 3) usize_max / 4) `max` 1.

Definition compact (now : Time) (max_tokens : nat) (self : Session) : option (CompactOutcome * Session) :=
  let '(before, self) := token_count_cached self in
  let n_before := length (messages self) in
  '(_, self) ← truncate_large_tool_results self;
  '(_, self) ← prune_old_tool_results self;
  let target := compact_target max_tokens in
  let '(now_tokens, self) := token_count_cached self in
  let as_is := Some (mkOutcome before now_tokens n_before (length (messages self)) [], self) in
  if now_tokens <=? target then as_is
  else
    let min_keep := MIN_KEEP_MESSAGES `min` length (messages self) in
    let start := find_start (length (messages self)) (system_prompt self) (messages self) min_keep target 0 in
    if start =? 0 then as_is
    else
      let trimmed := take start (messages self) in
      let dropped := messages_transcript trimmed DROPPED_TRANSCRIPT_MAX_CHARS in
      let summary := summarize_trimmed trimmed in
      let self := rebuild_token_cache (set_msgs self (user_text now summary :: drop start (messages self))) in
      let '(after, self) := token_count_cached self in
      Some (mkOutcome before after n_before (length (messages self)) dropped, self).

(** ** Checkpoints and undo *)

Definition revert_to (message_index : nat) (self : Session) : nat * Session :=
  if length (messages self) <=? message_index then (0, self)
  else (length (messages self) - message_index - 1,
        rebuild_token_cache (set_msgs self (take (message_index + 1) (messages self)))).
Definition set_messages (ms : list Message) (self : Session) : Session := rebuild_token_cache (set_msgs self ms).
Definition undo_last_turn (self : Session) : nat * Session :=
  match rposition (λ m, role m == User) (messages self) with
  | Some idx => (length (messages self) - idx, rebuild_token_cache (set_msgs self (take idx (messages self))))
  | None => (0, self)
  end.

Definition mark_checkpoint (now : Time) (goal_ : str) (self : Session) : Session :=
  set_checkpoint self (Some (mkCheckpoint (length (messages self) - 1) goal_ now)) None.
Definition rewind_report (goal_ report : str) : str :=
  lit "Checkpoint completed. Exploratory context was collapsed." ++ [cLF] ++ lit "Goal: " ++ goal_ ++ [cLF; cLF] ++
  lit "Report:" ++ [cLF] ++ report ++ [cLF; cLF] ++
  lit "Continue from this report. Do not call rewind again until you create a new checkpoint.".
Definition apply_rewind (now : Time) (report : str) (self : Session) : bool * Session :=
  match checkpoint self with
  | None => (false, self)
  | Some cp =>
      let self := set_checkpoint self None (last_rewind_report self) in
      let '(_, self) := revert_to (keep_until cp) self in
      let report := trim report in
      let self := add_user_message now (rewind_report (goal cp) report) self in
      (true, set_checkpoint self (checkpoint self) (Some report))
  end.

(** ** Requests *)

Definition stamped_at (at_ : Time) (m : Message) : bool := (role m == User) && (created_at m == Some at_).
Definition has_user_message_at (at_ : Time) (self : Session) : bool := existsb (stamped_at at_) (messages self).
(** [?] leaves early with the pins retained so far. *)
Definition pin_prompt_suffix (text : str) (self : Session) : option Time * Session :=
  let pins := List.filter (λ p, has_user_message_at (anchor p) self) (pinned_suffixes self) in
  let prompt := List.find (λ m, (role m == User) && negb (name m == Some AGENT_NOTE_NAME)) (rev (messages self)) in
  match prompt ≫= created_at with
  | None => (None, set_pins self pins)
  | Some at_ =>
      let pins := List.filter (λ p, negb (anchor p == at_)) pins in
      (Some at_, set_pins self (pins ++ [mkPin at_ text]))
  end.
Definition append_model_suffix (m : Message) (suffix : str) : Message :=
  match content m with
  | MText t => set_content m (MText (t ++ suffix))
  | MBlocks blocks => set_content m (MBlocks (blocks ++ [BText suffix]))
  end.
(** The first message an anchor names gets the suffix. *)
Fixpoint append_at (pin : PinnedSuffix) (ms : list Message) : list Message :=
  match ms with
  | [] => []
  | m :: r => if stamped_at (anchor pin) m then append_model_suffix m (pin_text pin) :: r else m :: append_at pin r
  end.
(** The messages of [build_request]; its other fields copy the arguments. *)
Definition request_messages (self : Session) : list Message :=
  let repaired := paired_messages (messages self) in
  if length (pinned_suffixes self) =? 0 then default (messages self) repaired
  else foldl (λ copy pin, append_at pin copy) (default (messages self) repaired) (pinned_suffixes self).
End session.
