(* ===== verification/SessionFacts.v ===== *)
(** What the session keeps: the running token estimate is the recount of the
    transcript, shrinking touches only old tool results, compaction keeps the user's
    last ask, rewinds collapse exactly the exploration, requests pair up. *)

From S2P Require Import Prelude RustStr Bytes Messages ToolPolicy ToolText Tree Summary Pairing Session.

(** ** Counting maps *)

Lemma count_map_total {A} (f : A → option (A * nat)) l : (∀ x, is_Some (f x)) → is_Some (count_map f l).
Proof.
  intros H. induction l as [|x r [[r' k] IH]]; cbn [count_map]; [eauto|].
  destruct (H x) as [[y n] ->]. rewrite IH. cbn. eauto.
Qed.
Lemma count_map_Some {A} (f : A → option (A * nat)) l l' n :
  count_map f l = Some (l', n) → Forall2 (λ x y, ∃ k, f x = Some (y, k) ∧ k ≤ n) l l'.
Proof.
  revert l' n; induction l as [|x r IH]; intros l' n; cbn [count_map].
  - intros [= <- <-]. constructor.
  - destruct (f x) as [[y k]|] eqn:Ef; cbn [mbind option_bind]; [|done].
    destruct (count_map f r) as [[r' k']|] eqn:Er; cbn [mbind option_bind]; [|done].
    intros [= <- <-]. constructor; [exists k; split; [done|lia]|].
    eapply Forall2_impl; [by apply IH|]. intros a b (j & Hj & Hl). exists j. split; [done|lia].
Qed.
Lemma count_imap_total {A} (f : nat → A → option (A * nat)) i l :
  (∀ i x, is_Some (f i x)) → is_Some (count_imap f i l).
Proof.
  intros H. revert i; induction l as [|x r IH]; intros i; cbn [count_imap]; [eauto|].
  destruct (H i x) as [[y n] ->], (IH (S i)) as [[r' k] Er]. cbn. rewrite Er. cbn. eauto.
Qed.
Lemma count_imap_Some {A} (f : nat → A → option (A * nat)) i l l' n :
  count_imap f i l = Some (l', n) →
  length l' = length l ∧
  ∀ j x, l !! j = Some x → ∃ y k, l' !! j = Some y ∧ f (i + j) x = Some (y, k) ∧ k ≤ n.
Proof.
  revert i l' n; induction l as [|x r IH]; intros i l' n; cbn [count_imap].
  - intros [= <- <-]. done.
  - destruct (f i x) as [[y k]|] eqn:Ef; cbn [mbind option_bind]; [|done].
    destruct (count_imap f (S i) r) as [[r' k']|] eqn:Er; cbn [mbind option_bind]; [|done].
    intros [= <- <-]. apply IH in Er as [Hl Hr]. split; [cbn; congruence|].
    intros [|j] z; cbn [lookup list_lookup].
    + intros [= <-]. exists y, k. rewrite Nat.add_0_r. split_and!; [done..|lia].
    + intros Hz. destruct (Hr j z Hz) as (z' & m & H1 & H2 & H3). exists z', m.
      replace (i + S j) with (S i + j) by lia. split_and!; [done..|lia].
Qed.

(** ** ASCII text: bytes and characters agree *)

Lemma ascii_digits n : ascii (digits n).
Proof. apply digits_forall. lia. Qed.
Lemma ascii_notice n : ascii (truncation_notice n).
Proof.
  unfold truncation_notice, ascii. rewrite !Forall_app.
  split_and!; [| |apply ascii_digits|]; apply (bool_decide_eq_true_1 _); vm_compute; reflexivity.
Qed.
Lemma ascii_take n t : ascii t → ascii (take n t).
Proof. apply Forall_take. Qed.
Lemma ascii_cap t n t' : cap_tool_text_to t n = Some t' → ascii t → ascii t'.
Proof.
  intros Hc Ht. unfold cap_tool_text_to in Hc.
  destruct (split_truncation_notice_total t) as (body & p & E & w & Ew). rewrite E in Hc. cbn [mbind option_bind] in Hc.
  assert (ascii body) as Hb by (rewrite Ew in Ht; apply Forall_app in Ht; tauto).
  repeat case_match; simplify_eq; [done| |].
  - unfold with_truncation_notice in Hc. repeat case_match; simplify_eq; [done..|].
    rewrite slice_to_app in Hc. cbn [mbind option_bind] in Hc. injection Hc as <-. apply Forall_app. split; [done|apply ascii_notice].
  - apply Forall_app. split; [by apply ascii_take|apply ascii_notice].
Qed.

Section facts.
Context {Value Time : Type} `{!Json Value} `{!EqDecision Time}.
Notation Message := (Message Value ImageSource Time).
Notation ContentBlock := (ContentBlock Value ImageSource).
Notation Session := (@Session Value Time).

(** ** What a shrink does to a message *)

(** Only the text of a block may change. *)
Inductive block_like : ContentBlock → ContentBlock → Prop :=
| like_same b : block_like b b
| like_text t t' : block_like (BText t) (BText t')
| like_result id t t' e : block_like (BToolResult id t e) (BToolResult id t' e).
Inductive content_like : MessageContent Value ImageSource → MessageContent Value ImageSource → Prop :=
| like_plain t t' : content_like (MText t) (MText t')
| like_blocks bs bs' : Forall2 block_like bs bs' → content_like (MBlocks bs) (MBlocks bs').
(** The same message but for such texts. *)
Definition message_like (m m' : Message) : Prop :=
  m' = set_content m (content m') ∧ content_like (content m) (content m').

#[global] Instance block_like_refl : Reflexive block_like.
Proof. intros b. constructor. Qed.
#[global] Instance block_like_trans : Transitive block_like.
Proof. intros a b c H1 H2. destruct H1; inversion H2; subst; constructor. Qed.
#[global] Instance content_like_refl : Reflexive content_like.
Proof. intros [t|bs]; constructor. reflexivity. Qed.
#[global] Instance content_like_trans : Transitive content_like.
Proof. intros a b c H1 H2. destruct H1; inversion H2; subst; constructor. by etrans. Qed.
#[global] Instance message_like_refl : Reflexive message_like.
Proof. intros [r c i n t]. by split. Qed.
#[global] Instance message_like_trans : Transitive message_like.
Proof.
  intros [r c i n t] m2 m3 [E2 C2] [E3 C3]. rewrite E2 in E3. rewrite E2 in C3. cbn in *. split; [done|].
  etrans; [|exact C3]. done.
Qed.

(** The texts of a message that a shrink may cut. *)
Definition block_text (b : ContentBlock) : option str :=
  match b with BText t | BToolResult _ t _ => Some t | _ => None end.
Definition texts (m : Message) : list str :=
  match content m with MText t => [t] | MBlocks bs => omap block_text bs end.

(** The texts a shrink may cut are ASCII. *)
Definition block_ascii (tool : bool) (b : ContentBlock) : Prop :=
  match b with BToolResult _ t _ => ascii t | BText t => tool = true → ascii t | _ => True end.
Definition message_ascii (m : Message) : Prop :=
  let tool := role m == Tool in
  match content m with MText t => tool = true → ascii t | MBlocks bs => Forall (block_ascii tool) bs end.

(** A shrink that reports [k]: when nothing is reported, ASCII text keeps its size. *)
Definition block_step (tool : bool) (k : nat) (b b' : ContentBlock) : Prop :=
  block_like b b' ∧ (block_ascii tool b → block_ascii tool b' ∧ (k = 0 → block_tokens b' = block_tokens b)).
Definition message_step (k : nat) (m m' : Message) : Prop :=
  message_like m m' ∧ (message_ascii m → message_ascii m' ∧ (k = 0 → message_tokens m' = message_tokens m)).

Lemma block_step_refl tool k b : block_step tool k b b.
Proof. split; [reflexivity|done]. Qed.
Lemma message_step_refl k m : message_step k m m.
Proof. split; [reflexivity|done]. Qed.
Lemma message_step_le k n m m' : k ≤ n → message_step k m m' → message_step n m m'.
Proof. intros Hk [H1 H2]. split; [done|]. intros Ha. destruct (H2 Ha) as [? H]. split; [done|]. intros ->. apply H. lia. Qed.

(** A cap: it always returns, and keeps ASCII text ASCII. *)
Record is_cap (cap : str → option str) : Prop := {
  cap_total : ∀ t, is_Some (cap t);
  cap_ascii : ∀ t t', cap t = Some t' → ascii t → ascii t' }.
Lemma is_cap_to n : is_cap (λ t, cap_tool_text_to t n).
Proof. split; [intros t; apply cap_tool_text_to_total|intros t t'; apply ascii_cap]. Qed.
Lemma is_cap_tool_text : is_cap cap_tool_text.
Proof. apply is_cap_to. Qed.

Section cap.
Context (cap : str → option str) (Hcap : is_cap cap).

Lemma cap_counted_total t : is_Some (cap_counted cap t).
Proof. unfold cap_counted. destruct (cap_total cap Hcap t) as [t' ->]. cbn. eauto. Qed.
Lemma cap_counted_step t t' k :
  cap_counted cap t = Some (t', k) → ascii t → ascii t' ∧ (k = 0 → estimate_tokens t' = estimate_tokens t).
Proof.
  unfold cap_counted. destruct (cap t) as [u|] eqn:Ec; cbn [mbind option_bind]; [|done]. intros [= -> <-] Ht.
  assert (ascii t') as Ht' by by eapply cap_ascii. split; [done|].
  rewrite !ascii_byte_len by done. destruct (Nat.eqb_spec (length t') (length t)) as [E|]; [|done].
  intros _. unfold estimate_tokens. by rewrite E.
Qed.

Lemma cap_result_total (b : ContentBlock) : is_Some (cap_result cap b).
Proof. destruct b; cbn; eauto. destruct (cap_counted_total content) as [[t n] ->]. cbn. eauto. Qed.
Lemma cap_result_step tool (b b' : ContentBlock) k : cap_result cap b = Some (b', k) → block_step tool k b b'.
Proof.
  destruct b; cbn [cap_result]; try (intros [= <- <-]; apply block_step_refl).
  destruct (cap_counted cap content) as [[t n]|] eqn:Ec; cbn [mbind option_bind]; [|done]. intros [= <- <-].
  split; [constructor|]. cbn. by apply cap_counted_step.
Qed.
Lemma cap_block_total (b : ContentBlock) : is_Some (cap_block cap b).
Proof.
  destruct b; try apply cap_result_total. cbn. destruct (cap_counted_total text) as [[t n] ->]. cbn. eauto.
Qed.
Lemma cap_block_step (b b' : ContentBlock) k : cap_block cap b = Some (b', k) → block_step true k b b'.
Proof.
  destruct b; try apply cap_result_step. cbn [cap_block].
  destruct (cap_counted cap text) as [[t n]|] eqn:Ec; cbn [mbind option_bind]; [|done]. intros [= <- <-].
  split; [constructor|]. cbn. intros Ht. destruct (cap_counted_step _ _ _ Ec) as [H1 H2]; auto.
Qed.

Lemma cap_counted_cap t t' k : cap_counted cap t = Some (t', k) → cap t = Some t'.
Proof. unfold cap_counted. by destruct (cap t) as [u|]; intros [= -> _]. Qed.
Lemma cap_block_text (b b' : ContentBlock) k : cap_block cap b = Some (b', k) →
  match block_text b, block_text b' with Some t, Some t' => cap t = Some t' | None, None => True | _, _ => False end.
Proof.
  destruct b; cbn [cap_block cap_result block_text]; try (intros [= <- _]; done);
    (destruct (cap_counted cap _) as [[t n]|] eqn:Ec; cbn [mbind option_bind]; [|done]); intros [= <- _]; by eapply cap_counted_cap.
Qed.
Lemma cap_content_texts m m' k : cap_content cap m = Some (m', k) → Forall2 (λ t t', cap t = Some t') (texts m) (texts m').
Proof.
  unfold cap_content, texts. destruct (content m) as [t|bs].
  - destruct (cap_counted cap t) as [[t' n]|] eqn:Ec; cbn [mbind option_bind]; [|done]. intros [= <- _]. cbn.
    constructor; [by eapply cap_counted_cap|constructor].
  - destruct (count_map (cap_block cap) bs) as [[bs' n]|] eqn:Ec; cbn [mbind option_bind]; [|done]. intros [= <- _]. cbn.
    apply count_map_Some in Ec. induction Ec as [|b b' bs bs' (j & Hj & _) _ IH]; [constructor|].
    apply cap_block_text in Hj. cbn. destruct (block_text b), (block_text b'); [|done..|]; [by constructor|done].
Qed.

Lemma block_steps tool k bs bs' :
  Forall2 (λ b b', ∃ j, block_step tool j b b' ∧ j ≤ k) bs bs' →
  Forall2 block_like bs bs' ∧
  (Forall (block_ascii tool) bs →
    Forall (block_ascii tool) bs' ∧ (k = 0 → sum_list (block_tokens <$> bs') = sum_list (block_tokens <$> bs))).
Proof.
  induction 1 as [|b b' bs bs' (j & [H1 H2] & Hj) _ [IH1 IH2]]; [done|]. split; [by constructor|].
  rewrite !Forall_cons. intros [Hb Hbs]. destruct (H2 Hb) as [? Ht], (IH2 Hbs) as [? Hts]. split; [done|].
  intros ->. cbn. rewrite Ht, Hts by lia. done.
Qed.

Lemma cap_blocks_step tool (f : ContentBlock → option (ContentBlock * nat)) m bs bs' k :
  (∀ b b' j, f b = Some (b', j) → block_step tool j b b') →
  content m = MBlocks bs → tool = (role m == Tool) → count_map f bs = Some (bs', k) →
  message_step k m (set_content m (MBlocks bs')).
Proof.
  intros Hf Em Et Hc. apply count_map_Some in Hc.
  destruct (block_steps tool k bs bs') as [H1 H2].
  { eapply Forall2_impl; [exact Hc|]. intros b b' (j & Hj & Hl). eauto. }
  split.
  - split; [done|]. rewrite Em. by constructor.
  - unfold message_ascii, message_tokens. cbn [content set_content role]. rewrite Em, <- Et. done.
Qed.

Lemma cap_content_total (m : Message) : is_Some (cap_content cap m).
Proof.
  unfold cap_content. destruct (content m) as [t|bs].
  - destruct (cap_counted_total t) as [[t' n] ->]. cbn. eauto.
  - destruct (count_map_total (cap_block cap) bs cap_block_total) as [[bs' n] ->]. cbn. eauto.
Qed.
Lemma cap_content_step (m m' : Message) k : role m = Tool → cap_content cap m = Some (m', k) → message_step k m m'.
Proof.
  intros Hr. unfold cap_content. destruct (content m) as [t|bs] eqn:Em.
  - destruct (cap_counted cap t) as [[t' n]|] eqn:Ec; cbn [mbind option_bind]; [|done]. intros [= <- <-]. split.
    + split; [done|]. rewrite Em. constructor.
    + unfold message_ascii, message_tokens. cbn [content set_content role]. rewrite Em, Hr. cbn.
      intros Ht. destruct (cap_counted_step _ _ _ Ec) as [H1 H2]; auto.
  - destruct (count_map (cap_block cap) bs) as [[bs' n]|] eqn:Ec; cbn [mbind option_bind]; [|done]. intros [= <- <-].
    eapply (cap_blocks_step true); [apply cap_block_step|done| |exact Ec]. by rewrite Hr.
Qed.
End cap.

Lemma truncate_message_total (m : Message) : is_Some (truncate_message m).
Proof.
  unfold truncate_message. destruct (negb _); [|apply cap_content_total, is_cap_tool_text].
  destruct (content m) as [t|bs]; [eauto|].
  destruct (count_map_total (cap_result cap_tool_text) bs) as [[bs' n] ->]; [|cbn; eauto].
  apply cap_result_total, is_cap_tool_text.
Qed.
Lemma truncate_message_step (m m' : Message) k : truncate_message m = Some (m', k) → message_step k m m'.
Proof.
  unfold truncate_message. destruct (negb (role m == Tool)) eqn:Er; boolp; [|by apply (cap_content_step _ is_cap_tool_text)].
  destruct (content m) as [t|bs] eqn:Em; [intros [= <- <-]; apply message_step_refl|].
  destruct (count_map _ bs) as [[bs' n]|] eqn:Ec; cbn [mbind option_bind]; [|done]. intros [= <- <-].
  eapply (cap_blocks_step false); [|done| |exact Ec]; [|by rewrite bool_decide_false].
  intros b b' j. apply cap_result_step, is_cap_tool_text.
Qed.

(** ** Which results may shrink *)

Lemma positions_app f i (a b : list Message) : positions f i (a ++ b) = positions f i a ++ positions f (i + length a) b.
Proof.
  revert i; induction a as [|m r IH]; intros i; cbn [positions app length]; [by rewrite Nat.add_0_r|].
  rewrite IH. replace (S i + length r) with (i + S (length r)) by lia. by destruct (f m).
Qed.
Lemma rposition_snoc f (ms : list Message) m : rposition f (ms ++ [m]) = if f m then Some (length ms) else rposition f ms.
Proof.
  unfold rposition. rewrite positions_app. cbn. destruct (f m).
  - by rewrite last_snoc.
  - by rewrite app_nil_r.
Qed.
Lemma rposition_nil (f : Message → bool) : rposition f [] = None.
Proof. done. Qed.
Lemma rposition_spec f (ms : list Message) :
  match rposition f ms with
  | Some i => (∃ m, ms !! i = Some m ∧ f m = true) ∧ ∀ j m, i < j → ms !! j = Some m → f m = false
  | None => ∀ j m, ms !! j = Some m → f m = false
  end.
Proof.
  induction ms as [|m ms IH] using rev_ind; [done|]. rewrite rposition_snoc. destruct (f m) eqn:Ef.
  - split; [exists m; split; [by apply list_lookup_middle|done]|]. intros j x Hj Hx%lookup_lt_Some.
    rewrite length_app in Hx. cbn in Hx. lia.
  - assert (∀ j x, (ms ++ [m]) !! j = Some x → ms !! j = Some x ∨ x = m) as Hl.
    { intros j x [H|[_ H]]%lookup_app_Some; [by left|]. apply list_lookup_singleton_Some in H. naive_solver. }
    destruct (rposition f ms) as [i|].
    + destruct IH as [(x & Hx & Hf) H]. split; [exists x; split; [by apply lookup_app_l_Some|done]|].
      intros j y Hj Hy. apply Hl in Hy as [Hy| ->]; [by apply (H j y)|done].
    + intros j y Hy. apply Hl in Hy as [Hy| ->]; [by apply (IH j y)|done].
Qed.
Lemma rposition_unique f (ms : list Message) i m :
  ms !! i = Some m → f m = true → (∀ j x, i < j → ms !! j = Some x → f x = false) → rposition f ms = Some i.
Proof.
  intros Hm Hf Hl. pose proof (rposition_spec f ms) as H. destruct (rposition f ms) as [j|].
  - destruct H as [(x & Hx & Hfx) H]. f_equal. destruct (lt_eq_lt_dec i j) as [[Hlt|He]|Hgt]; [|done|].
    + rewrite (Hl j x) in Hfx by done. done.
    + rewrite (H i m) in Hf by done. done.
  - rewrite (H i m) in Hf by done. done.
Qed.

Lemma positions_length f i (ms : list Message) : length (positions f i ms) = length (List.filter f ms).
Proof. revert i; induction ms as [|m r IH]; intros i; cbn; [done|]. destruct (f m); cbn; by rewrite IH. Qed.
Lemma positions_ge f i (ms : list Message) j : j ∈ positions f i ms → i ≤ j.
Proof.
  revert i; induction ms as [|m r IH]; intros i; cbn [positions]; [by intros ?%elem_of_nil|].
  destruct (f m); [intros [->|H]%elem_of_cons|intros H]; [lia|apply IH in H; lia..].
Qed.
Lemma list_take_subset {A} n (l : list A) x : x ∈ take n l → x ∈ l.
Proof. rewrite <- (take_drop n l) at 2. rewrite elem_of_app. by left. Qed.

(** All but the last [n] of the chosen ones: those with [n] chosen ones behind them. *)
Lemma all_but_last f k (ms : list Message) n i :
  i ∈ take (length (positions f k ms) - n) (positions f k ms) ↔
  k ≤ i ∧ (∃ m, ms !! (i - k) = Some m ∧ f m = true) ∧ n ≤ length (List.filter f (drop (S (i - k)) ms)).
Proof.
  revert k; induction ms as [|m r IH]; intros k.
  - cbn. split; [by intros ?%elem_of_nil|]. intros (_ & (m & ? & _) & _). done.
  - assert (k < i → (m :: r) !! (i - k) = r !! (i - S k)) as Hnext
      by (intros; replace (i - k) with (S (i - S k)) by lia; done).
    assert (k < i → drop (S (i - k)) (m :: r) = drop (S (i - S k)) r) as Hdrop
      by (intros; replace (i - k) with (S (i - S k)) by lia; done).
    cbn [positions]. destruct (f m) eqn:Ef.
    + cbn [length]. destruct (le_lt_dec n (length (positions f (S k) r))) as [Hn|Hn].
      * replace (S (length (positions f (S k) r)) - n) with (S (length (positions f (S k) r) - n)) by lia.
        cbn [take]. rewrite elem_of_cons, IH. destruct (decide (i = k)) as [->|Hik].
        -- rewrite Nat.sub_diag. cbn [drop lookup list_lookup]. rewrite drop_0.
           pose proof (positions_length f (S k) r). split; [|by left]. intros _. split_and!; [lia|by exists m|lia].
        -- split.
           ++ intros [?|(H1 & H2 & H3)]; [done|]. rewrite Hnext, Hdrop by lia. split_and!; [lia|done..].
           ++ intros (H1 & H2 & H3). right. rewrite Hnext in H2 by lia. rewrite Hdrop in H3 by lia. split_and!; [lia|done..].
      * replace (S (length (positions f (S k) r)) - n) with 0 by lia. cbn [take].
        split; [by intros ?%elem_of_nil|]. intros (_ & _ & H3). exfalso.
        rewrite (positions_length f (S k)) in Hn. cbn [drop] in H3.
        assert (length (List.filter f (drop (i - k) r)) ≤ length (List.filter f r)); [|lia].
        rewrite <- (take_drop (i - k) r) at 2. rewrite List.filter_app, length_app. lia.
    + rewrite IH. split.
      * intros (H1 & H2 & H3). rewrite Hnext, Hdrop by lia. split_and!; [lia|done..].
      * intros (H1 & (x & H2 & Hx) & H3). destruct (decide (i = k)) as [->|Hik].
        -- rewrite Nat.sub_diag in H2. injection H2 as ->. congruence.
        -- rewrite Hnext in H2 by lia. rewrite Hdrop in H3 by lia. split_and!; [lia|eauto|done].
Qed.

Definition is_tool (m : Message) : bool := role m == Tool.
Definition is_assistant (m : Message) : bool := role m == Assistant.

(** A result may shrink when the model has answered after it and four more
    results came after it. *)
Lemma shrinkable_spec (self : Session) i :
  i ∈ shrinkable_tool_indices self ↔
  (∃ m, messages self !! i = Some m ∧ role m = Tool)
  ∧ PRUNE_KEEP_RECENT_TOOLS ≤ length (List.filter is_tool (drop (S i) (messages self)))
  ∧ ∃ j m, i < j ∧ messages self !! j = Some m ∧ role m = Assistant.
Proof.
  unfold shrinkable_tool_indices. rewrite list_elem_of_filter. change (λ m : Message, role m == Tool) with is_tool.
  change (λ m : Message, role m == Assistant) with is_assistant.
  rewrite all_but_last, Nat.sub_0_r.
  assert (i < default 0 (rposition is_assistant (messages self)) ↔
          ∃ j m, i < j ∧ messages self !! j = Some m ∧ role m = Assistant) as ->.
  { pose proof (rposition_spec is_assistant (messages self)) as H. destruct (rposition _ _) as [k|]; cbn.
    - destruct H as [(x & Hx & Hf) H]. unfold is_assistant in *. boolp. split; [intros; exists k, x; done|].
      intros (j & m & Hij & Hj & Hm). destruct (le_lt_dec j k) as [|Hlt]; [lia|].
      specialize (H j m Hlt Hj). boolp. done.
    - split; [cbn; lia|]. intros (j & m & _ & Hj & Hm). specialize (H j m Hj). unfold is_assistant in H. boolp. done. }
  unfold is_tool at 1. setoid_rewrite bool_decide_eq_true. split; [|split]; try tauto. split; [|tauto]. lia.
Qed.

(** ** Shrinking a session *)

(** The cache holds the transcript's counts. *)
Definition coherent (self : Session) : Prop := token_cache self = from_parts (system_prompt self) (messages self).
(** The count from scratch. *)
Definition recount (self : Session) : nat :=
  estimate_tokens (system_prompt self) + sum_list (message_tokens <$> messages self) + pinned_suffix_tokens self.

Lemma coherent_rebuild (self : Session) : coherent (rebuild_token_cache self).
Proof. done. Qed.
Lemma coherent_count self : coherent self → token_count self = recount self.
Proof.
  intros H. unfold token_count, recount. rewrite H. cbn. rewrite length_fmap, Nat.eqb_refl. lia.
Qed.
Lemma coherent_cached self : coherent self → token_count_cached self = (recount self, self).
Proof.
  intros H. unfold token_count_cached, ensure, recount. rewrite H. cbn. rewrite length_fmap, Nat.eqb_refl.
  destruct self. cbn in *. unfold set_cache. cbn. rewrite H. done.
Qed.

(** [self'] is [self] with some texts cut, and [n] of the cuts reported. *)
Record shrinks (n : nat) (self self' : Session) : Prop := {
  shrinks_messages : Forall2 (message_step n) (messages self) (messages self');
  shrinks_rest : self' = (if 0 <? n then rebuild_token_cache else id) (set_msgs self (messages self')) }.

Lemma shrunk_shrinks self ms n :
  Forall2 (message_step n) (messages self) ms → ∃ self', shrunk self (ms, n) = (n, self') ∧ shrinks n self self' ∧ messages self' = ms.
Proof.
  intros H. unfold shrunk. eexists. split; [done|]. destruct (0 <? n) eqn:E; (split; [|done]); split; rewrite ?E; done.
Qed.

Lemma shrinks_coherent n self self' :
  shrinks n self self' → coherent self → Forall message_ascii (messages self) →
  coherent self' ∧ Forall message_ascii (messages self').
Proof.
  intros [Hm Hr] Hc Ha. assert (Forall message_ascii (messages self') ∧
    (n = 0 → message_tokens <$> messages self' = message_tokens <$> messages self)) as [Ha' Ht].
  { clear Hr Hc. induction Hm as [|m m' ms ms' [_ H] _ IH]; [done|]. apply Forall_cons in Ha as [H1 H2].
    destruct (H H1) as [? Ht], (IH H2) as [? Hts]. split; [by constructor|]. intros Hn. cbn. by rewrite Ht, Hts. }
  split; [|done]. rewrite Hr. destruct (Nat.ltb_spec 0 n) as [|Hn]; [done|].
  unfold coherent, from_parts. cbn. rewrite Ht by lia. exact Hc.
Qed.

Lemma truncate_shrinks (self : Session) :
  ∃ n self', truncate_large_tool_results self = Some (n, self') ∧ shrinks n self self'.
Proof.
  unfold truncate_large_tool_results.
  destruct (count_map_total truncate_message (messages self) truncate_message_total) as [[ms n] E]. rewrite E.
  cbn [mbind option_bind]. apply count_map_Some in E.
  destruct (shrunk_shrinks self ms n) as (self' & -> & H & _); [|eauto].
  eapply Forall2_impl; [exact E|]. intros m m' (k & Hk & Hl). eapply message_step_le; [exact Hl|]. by apply truncate_message_step.
Qed.

Lemma shrink_old_shrinks c (self : Session) :
  ∃ n self', shrink_old c self = Some (n, self') ∧ shrinks n self self' ∧
    (∀ i, i ∉ shrinkable_tool_indices self → messages self' !! i = messages self !! i) ∧
    ∀ i m m', i ∈ shrinkable_tool_indices self → messages self !! i = Some m → messages self' !! i = Some m' →
      Forall2 (λ t t', cap_tool_text_to t c = Some t') (texts m) (texts m').
Proof.
  unfold shrink_old. destruct (Nat.eqb_spec (length (shrinkable_tool_indices self)) 0) as [E|E].
  { exists 0, self. split_and!; [done| |done|intros i ? ? Hi; apply nil_length_inv in E; rewrite E in Hi; by apply elem_of_nil in Hi].
    split; [|by destruct self].
    apply Forall2_same_length_lookup_2; [done|]. intros i x y H1 H2. rewrite H1 in H2. injection H2 as <-. apply message_step_refl. }
  set (f := λ i m, _). destruct (count_imap_total f 0 (messages self)) as [[ms n] Ec].
  { intros i m. unfold f. destruct (existsb _ _); [apply cap_content_total, is_cap_to|eauto]. }
  rewrite Ec. cbn [mbind option_bind]. apply count_imap_Some in Ec as [Hlen Hms].
  assert (∀ i m, messages self !! i = Some m → ∃ m', ms !! i = Some m' ∧ message_step n m m' ∧
            (i ∉ shrinkable_tool_indices self → m' = m) ∧
            (i ∈ shrinkable_tool_indices self → Forall2 (λ t t', cap_tool_text_to t c = Some t') (texts m) (texts m'))) as Hstep.
  { intros i m Hm. destruct (Hms i m Hm) as (m' & k & H1 & H2 & H3). exists m'. split; [done|]. unfold f in H2. cbn in H2.
    destruct (existsb (Nat.eqb i) (shrinkable_tool_indices self)) eqn:Ei.
    - apply existsb_true_iff in Ei as (j & Hj & E'). boolp. subst j. split_and!; [|done|intros _; by eapply (cap_content_texts (λ t, cap_tool_text_to t c))].
      apply shrinkable_spec in Hj as Hs. destruct Hs as [(x & Hx & Hr) _]. rewrite Hm in Hx. injection Hx as <-.
      eapply message_step_le; [exact H3|]. by eapply cap_content_step; [apply is_cap_to|..].
    - injection H2 as <- <-. split_and!; [apply message_step_refl|done|]. intros Hi. exfalso.
      apply not_true_iff_false in Ei. apply Ei, existsb_true_iff. exists i. split; [done|]. by apply Nat.eqb_eq. }
  destruct (shrunk_shrinks self ms n) as (self' & -> & H & Em).
  { apply Forall2_same_length_lookup_2; [done|]. intros i m m' H1 H2. destruct (Hstep i m H1) as (y & H3 & H4 & _).
    rewrite H2 in H3. injection H3 as <-. done. }
  exists n, self'. split_and!; [done..| |].
  - intros i Hi. rewrite Em. destruct (messages self !! i) as [m|] eqn:Hm.
    + destruct (Hstep i m Hm) as (m' & -> & _ & Hs & _). by rewrite Hs.
    + apply lookup_ge_None. rewrite Hlen. by apply lookup_ge_None.
  - intros i m m' Hi Hm Hm'. rewrite Em in Hm'. destruct (Hstep i m Hm) as (x & Hx & _ & _ & Ht). rewrite Hx in Hm'. injection Hm' as <-. by apply Ht.
Qed.

Lemma positions_NoDup f i (ms : list Message) : NoDup (positions f i ms).
Proof.
  revert i; induction ms as [|m ms IH]; intros i; cbn; [constructor|]. destruct (f m); [|apply IH].
  constructor; [|apply IH]. intros Hi%positions_ge. lia.
Qed.
Lemma shrinkable_NoDup (self : Session) : NoDup (shrinkable_tool_indices self).
Proof.
  unfold shrinkable_tool_indices. apply NoDup_filter. eapply sublist_NoDup; [apply positions_NoDup|apply sublist_take].
Qed.

(** What spilling leaves of a text: the store has declined it, or has been given all of
    it, and its beginning stays with a note that counts the rest and says where it is. *)
Definition spilled_text {St} (store : St → str → str → option str * St) (t t' : str) : Prop :=
  ∃ id σ, (t' = t ∧ (length t ≤ TOOL_RESULT_PRUNE_CHARS ∨ contains t (lit "full output saved: ") = true ∨ (store σ id t).1 = None)) ∨
    TOOL_RESULT_PRUNE_CHARS < length t ∧ ∃ pointer, (store σ id t).1 = Some pointer ∧
      t' = take SPILL_HEAD_CHARS t ++ cLF :: lit "[" ++ digits (N.of_nat (length t - SPILL_HEAD_CHARS)) ++
           lit " more chars; full output saved: " ++ pointer ++ lit "]".
Lemma spill_text_spilled {St} (store : St → str → str → option str * St) id t σ :
  spilled_text store t (spill_text store id t σ).1.1.
Proof.
  exists id, σ. unfold spill_text, spill_body. destruct (Nat.leb_spec (length t) TOOL_RESULT_PRUNE_CHARS) as [Hl|Hl]; [left; cbn [orb]; auto|].
  cbn [orb]. change SPILL_MARK with (lit "full output saved: "). destruct (contains t _); [left; auto|].
  destruct (store σ id t) as [[p|] σ1]; cbn [fst]; [right|left; auto]. split; [done|]. exists p. split; [done|].
  assert (SPILL_HEAD_CHARS < TOOL_RESULT_PRUNE_CHARS) as Hlt by (apply Nat.ltb_lt; vm_compute; reflexivity).
  rewrite length_take_le by lia. unfold spill_line, SPILL_MARK. reflexivity.
Qed.
Lemma spill_blocks_texts {St} (store : St → str → str → option str * St) id bs : ∀ σ,
  Forall2 (spilled_text store) (omap block_text bs) (omap block_text (spill_blocks store id bs σ).1.1).
Proof.
  induction bs as [|b r IH]; intros σ; cbn [spill_blocks]; [constructor|].
  destruct b; cbn [block_text omap list_omap];
    try (specialize (IH σ); destruct (spill_blocks store id r σ) as [[r' k] σ']; exact IH).
  - pose proof (spill_text_spilled store id text σ) as Ht. destruct (spill_text store id text σ) as [[t n] σ1].
    specialize (IH σ1). destruct (spill_blocks store id r σ1) as [[r' k] σ']. by constructor.
  - pose proof (spill_text_spilled store tool_use_id content σ) as Ht. destruct (spill_text store tool_use_id content σ) as [[t n] σ1].
    specialize (IH σ1). destruct (spill_blocks store id r σ1) as [[r' k] σ']. by constructor.
Qed.
Lemma spill_message_texts {St} (store : St → str → str → option str * St) i m σ :
  Forall2 (spilled_text store) (texts m) (texts (spill_message store i m σ).1.1).
Proof.
  unfold spill_message, texts at 1. destruct (content m) as [t|bs].
  - match goal with |- context [spill_text store ?a t σ] => pose proof (spill_text_spilled store a t σ) as H; destruct (spill_text store a t σ) as [[t' n] σ'] end.
    cbn. by constructor.
  - match goal with |- context [spill_blocks store ?a bs σ] => pose proof (spill_blocks_texts store a bs σ) as H; destruct (spill_blocks store a bs σ) as [[bs' n] σ'] end.
    exact H.
Qed.

(** Spilling rewrites messages at shrinkable places and always rebuilds when it did. *)
Lemma spill_blocks_like {St} (store : St → str → str → option str * St) id bs σ :
  ∃ bs' n σ', spill_blocks store id bs σ = (bs', n, σ') ∧ Forall2 block_like bs bs' ∧ (n = 0 → bs' = bs).
Proof.
  revert σ; induction bs as [|b r IH]; intros σ; cbn [spill_blocks].
  { eexists _, _, _. split_and!; [done|constructor|done]. }
  destruct (match b with BToolResult _ _ _ => _ | BText _ => _ | _ => _ end) as [[b' k] σ1] eqn:E.
  destruct (IH σ1) as (r' & n & σ' & -> & Hr & Hn). eexists _, _, _. split; [done|].
  assert (block_like b b' ∧ (k = 0 → b' = b)) as [Hb Hk].
  { destruct b; unfold spill_text in E; try (injection E as <- <- <-; split; [constructor|done]).
    - destruct (spill_body store text id σ) as [[t|] σ2]; injection E as <- <- <-; (split; [constructor|done]).
    - destruct (spill_body store content tool_use_id σ) as [[t|] σ2]; injection E as <- <- <-; (split; [constructor|done]). }
  split; [by constructor|]. intros Hz. by rewrite Hk, Hn by lia.
Qed.
Lemma spill_message_like {St} (store : St → str → str → option str * St) i m σ :
  ∃ m' n σ', spill_message store i m σ = (m', n, σ') ∧ message_like m m' ∧ (n = 0 → m' = m).
Proof.
  unfold spill_message. destruct (content m) as [t|bs] eqn:Em.
  - unfold spill_text. destruct (spill_body _ _ _ σ) as [[t'|] σ'].
    + eexists _, _, _. split_and!; [done| |done]. split; [done|]. rewrite Em. constructor.
    + eexists _, _, _. split_and!; [done| |]; [split; [done|rewrite Em; constructor]|].
      intros _. destruct m. cbn in *. by rewrite Em.
  - destruct (spill_blocks_like store (default (lit "msg-" ++ nat_text i) (Messages.tool_call_id m)) bs σ)
      as (bs' & n & σ' & -> & Hl & Hn).
    eexists _, _, _. split_and!; [done| |].
    + split; [done|]. rewrite Em. by constructor.
    + intros Hz. rewrite Hn by done. destruct m. cbn in *. by rewrite Em.
Qed.
Lemma spill_loop_like {St} (store : St → str → str → option str * St) old ms n σ :
  (∀ i, i ∈ old → i < length ms) →
  ∃ ms' k σ', spill_loop store old ms n σ = Some (ms', k, σ') ∧ Forall2 message_like ms ms' ∧ n ≤ k ∧
    (k = n → ms' = ms) ∧ (∀ i, i ∉ old → ms' !! i = ms !! i) ∧
    (NoDup old → ∀ i m m', i ∈ old → ms !! i = Some m → ms' !! i = Some m' → Forall2 (spilled_text store) (texts m) (texts m')).
Proof.
  revert ms n σ; induction old as [|i r IH]; intros ms n σ Hold; cbn [spill_loop].
  { exists ms, n, σ. split_and!; [done| |lia|done|done|by intros _ i ? ? ?%elem_of_nil]. induction ms; constructor; [reflexivity|done]. }
  destruct (lookup_lt_is_Some_2 ms i) as [m Hm]; [apply Hold; by left|]. rewrite Hm. cbn [mbind option_bind].
  pose proof (spill_message_texts store i m σ) as Ht.
  destruct (spill_message_like store i m σ) as (m' & k & σ1 & Em & Hl & Hk). rewrite Em in Ht |- *. cbn in Ht.
  destruct (IH (<[i := m']> ms) (n + k) σ1) as (ms' & k' & σ' & E & H1 & H2 & H3 & H4 & H5).
  { intros j Hj. rewrite length_insert. apply Hold. by right. }
  exists ms', k', σ'. split_and!; [done| |lia| | |].
  - etrans; [|exact H1]. apply Forall2_same_length_lookup_2; [by rewrite length_insert|]. intros j x y Hx.
    rewrite list_lookup_insert_Some. intros [(-> & -> & _)|(_ & Hy)].
    + rewrite Hm in Hx. injection Hx as <-. done.
    + rewrite Hx in Hy. injection Hy as <-. reflexivity.
  - intros Hz. rewrite H3, Hk by lia. by apply list_insert_id.
  - intros j Hj. rewrite H4 by set_solver. apply list_lookup_insert_ne. set_solver.
  - intros [Hi Hnd]%NoDup_cons j x y [->|Hj]%elem_of_cons Hx Hy.
    + rewrite H4, list_lookup_insert_eq in Hy by (done || by eapply lookup_lt_Some). rewrite Hm in Hx. by simplify_eq.
    + apply (H5 Hnd j); [done| |done]. rewrite list_lookup_insert_ne; [done|]. by intros ->.
Qed.

Lemma Forall2_message_like_refl (ms : list Message) : Forall2 message_like ms ms.
Proof. by induction ms; constructor. Qed.
Lemma shrinks_like n self self' : shrinks n self self' → Forall2 message_like (messages self) (messages self').
Proof. intros [H _]. eapply Forall2_impl; [exact H|]. by intros m m' [? _]. Qed.

Lemma spill_like {St} (store : St → str → str → option str * St) self σ :
  ∃ n self' σ', spill_old_tool_results store self σ = Some (n, self', σ') ∧
    Forall2 message_like (messages self) (messages self') ∧ (coherent self → coherent self') ∧
    (∀ i, i ∉ shrinkable_tool_indices self → messages self' !! i = messages self !! i) ∧
    ∀ i m m', i ∈ shrinkable_tool_indices self → messages self !! i = Some m → messages self' !! i = Some m' →
      Forall2 (spilled_text store) (texts m) (texts m').
Proof.
  unfold spill_old_tool_results. destruct (Nat.eqb_spec (length (shrinkable_tool_indices self)) 0) as [E|E].
  { eexists _, _, _. split_and!; [done|apply Forall2_message_like_refl|done|done|].
    intros i ? ? Hi. apply nil_length_inv in E. rewrite E in Hi. by apply elem_of_nil in Hi. }
  destruct (spill_loop_like store (shrinkable_tool_indices self) (messages self) 0 σ) as (ms & k & σ' & -> & H1 & _ & H3 & H4 & H5).
  { intros i Hi. apply shrinkable_spec in Hi as [(m & Hm & _) _]. by eapply lookup_lt_Some. }
  cbn [mbind option_bind]. unfold shrunk. eexists _, _, _. split; [done|].
  specialize (H5 (shrinkable_NoDup self)). destruct (Nat.ltb_spec 0 k) as [Hk|Hk]; split_and!; try done.
  intros Hc. unfold coherent. cbn. rewrite (H3 ltac:(lia)). exact Hc.
Qed.

(** *** Pairing does not see a shrink *)

(** The store's state only moves by writes. *)
Lemma spill_moves {St} (store : St → str → str → option str * St) (R : relation St) `{!PreOrder R} :
  (∀ σ a b, R σ (store σ a b).2) → ∀ (self : Session) σ n self' σ', spill_old_tool_results store self σ = Some (n, self', σ') → R σ σ'.
Proof.
  intros HR.
  assert (∀ id text σ, R σ (spill_text store id text σ).2) as Ht.
  { intros id text σ. unfold spill_text, spill_body. destruct (_ || _); [done|]. specialize (HR σ id text).
    by destruct (store σ id text) as [[|] ?]. }
  assert (∀ id (bs : list ContentBlock) σ, R σ (spill_blocks store id bs σ).2) as Hb.
  { intros id bs. induction bs as [|b r IH]; intros σ; cbn [spill_blocks]; [done|].
    destruct b; try (pose proof (IH σ); destruct (spill_blocks store id r σ) as [[? ?] ?]; done).
    - pose proof (Ht id text σ). destruct (spill_text store id text σ) as [[? ?] σ1]. pose proof (IH σ1).
      destruct (spill_blocks store id r σ1) as [[? ?] ?]. cbn in *. by etrans.
    - pose proof (Ht tool_use_id content σ). destruct (spill_text store tool_use_id content σ) as [[? ?] σ1].
      pose proof (IH σ1). destruct (spill_blocks store id r σ1) as [[? ?] ?]. cbn in *. by etrans. }
  assert (∀ i (m : Message) σ, R σ (spill_message store i m σ).2) as Hm.
  { intros i m σ. unfold spill_message. destruct (content m) as [t|bs].
    - match goal with |- context [spill_text store ?a t σ] => pose proof (Ht a t σ); by destruct (spill_text store a t σ) as [[? ?] ?] end.
    - match goal with |- context [spill_blocks store ?a bs σ] => pose proof (Hb a bs σ); by destruct (spill_blocks store a bs σ) as [[? ?] ?] end. }
  assert (∀ old (ms : list Message) n σ ms' k σ', spill_loop store old ms n σ = Some (ms', k, σ') → R σ σ') as Hl.
  { intros old. induction old as [|i r IH]; intros ms n σ ms' k σ'; cbn [spill_loop]; [by intros [= _ _ <-]|].
    destruct (ms !! i) as [m|]; cbn [mbind option_bind]; [|done]. pose proof (Hm i m σ).
    destruct (spill_message store i m σ) as [[m' j] σ1]. intros E. apply IH in E. cbn in *. by etrans. }
  intros self σ n self' σ'. unfold spill_old_tool_results. destruct (_ =? 0); [by intros [= _ _ <-]|].
  destruct (spill_loop _ _ _ _ _) as [[[ms k] σ1]|] eqn:E; cbn [mbind option_bind]; [|done].
  apply Hl in E. destruct (shrunk self (ms, k)). by intros [= _ _ <-].
Qed.

Lemma record_blocks_like bs bs' u op : Forall2 block_like bs bs' → record_blocks bs u op = record_blocks bs' u op.
Proof. intros H. revert u op. induction H as [|b b' bs bs' Hb _ IH]; intros u op; [done|]. by destruct Hb as [[]| |]; cbn. Qed.
Definition state_like (st st' : State) : Prop :=
  Forall2 message_like (out st) (out st') ∧ open st = open st' ∧ lenient st = lenient st' ∧ changed st = changed st'.
Lemma step_like st st' m m' : state_like st st' → message_like m m' → state_like (step st m) (step st' m').
Proof.
  intros (Ho & Eo & El & Ec) [Em Hc].
  assert (role m' = role m) as Er by by rewrite Em.
  assert (result_id m' = result_id m) as Ei by by rewrite Em.
  assert (∀ op, record_calls m' op = record_calls m op) as Erc.
  { intros op. unfold record_calls. destruct Hc as [|bs bs' Hb]; [done|]. by rewrite (record_blocks_like bs bs'). }
  assert (Forall2 message_like (out st ++ (missing <$> open st)) (out st' ++ (missing <$> open st))) as Hout
    by (apply Forall2_app; [done|apply Forall2_message_like_refl]).
  assert (message_like m m') as Hm by done.
  unfold step, close_open. rewrite Er, Ei, Erc, <- Eo, <- El, <- Ec. destruct (role m).
  1-2: split_and!; cbn; [apply Forall2_app; [done|by repeat constructor]|done..].
  - destruct (record_calls m []). split_and!; cbn; [apply Forall2_app; [done|by repeat constructor]|done..].
  - destruct (take_open (open st) (result_id m)) as [t o]. split_and!; cbn; [|done..]. unfold push_if.
    destruct (t || lenient st); [|done]. apply Forall2_app; [done|by repeat constructor].
Qed.
Lemma paired_like ms ms' : Forall2 message_like ms ms' → (paired_messages ms = None ↔ paired_messages ms' = None).
Proof.
  intros H. unfold paired_messages.
  assert (state_like (foldl step (mkState [] [] false false) ms) (foldl step (mkState [] [] false false) ms')) as Hs.
  { assert (∀ st st', state_like st st' → state_like (foldl step st ms) (foldl step st' ms')) as Hf; [|apply Hf; by split_and!].
    induction H as [|m m' ms ms' Hm _ IH]; intros st st' Hst; [done|]. cbn. by apply IH, step_like. }
  destruct Hs as (_ & Eo & _ & Ec). unfold close_open. rewrite Eo, Ec. by destruct (_ || _).
Qed.

Inductive shrink := Prune | Shake | Spill.
Definition run_shrink {St} (store : St → str → str → option str * St) (op : shrink) (self : Session) (σ : St)
  : option (nat * Session * St) :=
  match op with
  | Prune => '(n, self) ← prune_old_tool_results self; Some (n, self, σ)
  | Shake => '(n, self) ← shake_old_tool_results self; Some (n, self, σ)
  | Spill => spill_old_tool_results store self σ
  end.

(** What a cap to [n] characters leaves of a text: its beginning with a footer that
    counts what was cut. A text that already ends in a footer keeps at most as much. *)
Definition cut_footer (k : N) : str := cLF :: lit "[" ++ digits k ++ lit " chars truncated]".
Definition footless (t : str) : Prop :=
  ends_with t (lit " chars truncated]") = false ∧ ends_with t (lit " characters truncated for context management]") = false.
Definition cut_text (n : nat) (t t' : str) : Prop :=
  (footless t → (N.of_nat (length t) ≤ usize_max)%N →
     t' = if length t <=? n then t else take n t ++ cut_footer (N.of_nat (length t - n))) ∧
  (t' = t ∨ ∃ kept rest k, t = kept ++ rest ∧ length kept ≤ n ∧ t' = kept ++ cut_footer k).
Lemma no_suffix t p : ends_with t p = false → strip_suffix p t = None.
Proof.
  intros H. destruct (strip_suffix p t) as [r|] eqn:E; [|done]. apply strip_suffix_Some in E.
  assert (ends_with t p = true) as H' by (apply ends_with_true; by exists r). congruence.
Qed.
Lemma footless_split t : footless t → split_truncation_notice t = Some (t, None).
Proof.
  intros [H1%no_suffix H2%no_suffix]. unfold split_truncation_notice, notice_at, CURRENT, LEGACY. by rewrite H1, H2.
Qed.
Lemma cap_cuts n t t' : cap_tool_text_to t n = Some t' → cut_text n t t'.
Proof.
  intros Hc. split.
  - intros Hf Hl. rewrite (cap_plain t n (footless_split t Hf) Hl) in Hc. by injection Hc as <-.
  - unfold cap_tool_text_to in Hc. destruct (split_truncation_notice_total t) as (body & p & E & w & Ew). rewrite E in Hc.
    cbn [mbind option_bind] in Hc. case_match; [left; congruence|]. case_match eqn:Hlen.
    + unfold with_truncation_notice in Hc. repeat (case_match; [left; congruence|]). rewrite Ew, slice_to_app in Hc. cbn in Hc.
      injection Hc as <-. right. apply Nat.leb_le in Hlen. by eexists body, w, _.
    + injection Hc as <-. right. exists (take n body), (drop n body ++ w), (add_omitted (length body - n) (default 0%N p)).
      split_and!; [by rewrite app_assoc, take_drop|rewrite length_take; lia|done].
Qed.
Definition made_room {St} (store : St → str → str → option str * St) (op : shrink) : str → str → Prop :=
  match op with
  | Prune => cut_text TOOL_RESULT_PRUNE_CHARS
  | Shake => cut_text TOOL_RESULT_SHAKE_CHARS
  | Spill => spilled_text store
  end.

(** The model has answered the result at [i], and four more results came after it. *)
Definition old_result (ms : list Message) (i : nat) : Prop :=
  (∃ m, ms !! i = Some m ∧ role m = Tool) ∧ 4 ≤ length (List.filter is_tool (drop (S i) ms)) ∧
  ∃ j m, i < j ∧ ms !! j = Some m ∧ role m = Assistant.


(** ** Compaction *)

Definition kept_tokens (system : str) (ms : list Message) (start : nat) : nat :=
  estimate_tokens system + sum_list (message_tokens <$> drop start ms) + SUMMARY_TOKEN_SLACK.
Lemma find_start_spec fuel system (ms : list Message) min_keep target start :
  min_keep ≤ length ms - start → length ms - start ≤ fuel →
  let r := find_start fuel system ms min_keep target start in
  start ≤ r ≤ start + fuel ∧ min_keep ≤ length ms - r ∧
  (∀ j, start ≤ j < r → target < kept_tokens system ms j) ∧
  (length ms - r = min_keep ∨ kept_tokens system ms r ≤ target).
Proof.
  revert start; induction fuel as [|k IH]; intros start Hm Hf; cbv zeta; cbn [find_start].
  - split_and!; [lia|lia|done|lia|left; lia].
  - destruct (Nat.ltb_spec min_keep (length ms - start)) as [H|H]; [|split_and!; [lia|lia|done|lia|left; lia]].
    fold (kept_tokens system ms start). destruct (Nat.leb_spec (kept_tokens system ms start) target) as [Hk|Hk].
    + split_and!; [lia|lia|done|lia|by right].
    + destruct (IH (start + 1)) as (H1 & H2 & H3 & H4); [lia..|]. split_and!; [lia|lia|done| |done].
      intros j Hj. destruct (decide (j = start)) as [->|]; [done|]. apply H3. lia.
Qed.

(** The two passes that come first. *)
Lemma capped_first (self : Session) :
  ∃ k self1 n self2, truncate_large_tool_results self = Some (k, self1) ∧ prune_old_tool_results self1 = Some (n, self2) ∧
    shrinks k self self1 ∧ shrinks n self1 self2.
Proof.
  destruct (truncate_shrinks self) as (k & self1 & E1 & H1).
  destruct (shrink_old_shrinks TOOL_RESULT_PRUNE_CHARS self1) as (n & self2 & E2 & H2 & _). eauto 10.
Qed.

Lemma shrinks_same n self self' :
  shrinks n self self' →
  system_prompt self' = system_prompt self ∧ pinned_suffixes self' = pinned_suffixes self ∧
  checkpoint self' = checkpoint self ∧ length (messages self') = length (messages self).
Proof.
  intros [Hm Hr]. apply Forall2_length in Hm. rewrite Hr. destruct (0 <? n); done.
Qed.
Lemma cached_coherent self :
  coherent (token_count_cached self).2 ∨ valid (token_cache self) = true ∧ length (per_msg (token_cache self)) = length (messages self).
Proof.
  unfold token_count_cached, ensure. cbn. destruct (valid (token_cache self) && _) eqn:E; [|by left].
  right. by boolp.
Qed.

(** The state a session can reach by the operations of [session.rs]. Shrinking
    counts bytes to see whether it did anything, so those steps ask for ASCII. *)
Inductive sess_step : Session → Session → Prop :=
| step_user now t self : sess_step self (add_user_message now t self)
| step_note now t self : sess_step self (add_agent_note now t self)
| step_blocks now bs self : sess_step self (add_user_message_blocks now bs self)
| step_assistant now bs self : sess_step self (add_assistant_message now bs self)
| step_results now rs self self' : add_tool_results now rs self = Some self' → sess_step self self'
| step_system p self : sess_step self (set_system_prompt p self)
| step_count self : sess_step self (token_count_cached self).2
| step_truncate self n self' :
    Forall message_ascii (messages self) → truncate_large_tool_results self = Some (n, self') → sess_step self self'
| step_prune self n self' :
    Forall message_ascii (messages self) → prune_old_tool_results self = Some (n, self') → sess_step self self'
| step_shake self n self' :
    Forall message_ascii (messages self) → shake_old_tool_results self = Some (n, self') → sess_step self self'
| step_spill {St} (store : St → str → str → option str * St) σ self n self' σ' :
    spill_old_tool_results store self σ = Some (n, self', σ') → sess_step self self'
| step_prepend now t self : sess_step self (prepend_compact_summary now t self)
| step_full_replace now t self o self' : apply_full_replace now t self = Some (o, self') → sess_step self self'
| step_native now cut b self o self' : apply_native_compaction now cut b self = Some (o, self') → sess_step self self'
| step_local now self o self' :
    Forall message_ascii (messages self) → compact_full_replace_local now self = Some (o, self') → sess_step self self'
| step_compact now n self o self' :
    Forall message_ascii (messages self) → compact now n self = Some (o, self') → sess_step self self'
| step_revert i self : sess_step self (revert_to i self).2
| step_set ms self : sess_step self (set_messages ms self)
| step_undo self : sess_step self (undo_last_turn self).2
| step_mark now g self : sess_step self (mark_checkpoint now g self)
| step_rewind now r self : sess_step self (apply_rewind now r self).2
| step_pin t self : sess_step self (pin_prompt_suffix t self).2.

Lemma sum_list_app (l k : list nat) : sum_list (l ++ k) = sum_list l + sum_list k.
Proof. induction l as [|x l IH]; cbn; [done|]. rewrite IH. lia. Qed.
Lemma coherent_push self m : coherent self → coherent (push_message self m).
Proof.
  unfold coherent, push_message, push_msg. intros E. cbn. rewrite E. unfold from_parts. cbn.
  rewrite fmap_app, sum_list_app. cbn. f_equal. lia.
Qed.
Lemma coherent_system self p : coherent self → coherent (set_system_prompt p self).
Proof.
  unfold coherent, set_system_prompt, set_system. intros E. cbn. rewrite E. unfold from_parts. cbn. f_equal. lia.
Qed.
Lemma coherent_results now rs self self' : add_tool_results now rs self = Some self' → coherent self → coherent self'.
Proof.
  revert self; induction rs as [|r rs IH]; intros self; cbn [add_tool_results]; [by intros [= <-]|].
  unfold add_tool_result. destruct (result_content (res_content r)); cbn [mbind option_bind]; [|done].
  intros E Hc. eapply IH; [exact E|]. by apply coherent_push.
Qed.
Lemma coherent_full_replace now t self o self' :
  apply_full_replace now t self = Some (o, self') → coherent self → coherent self'.
Proof.
  unfold apply_full_replace. intros E Hc. rewrite coherent_cached in E by done.
  destruct (length (messages self) =? 0); [by injection E as _ <-|].
  destruct (format_compact_summary_content t); cbn [mbind option_bind] in E; [|done].
  match type of E with mbind _ ?b = _ => destruct b end; cbn [mbind option_bind] in E; [|done].
  rewrite coherent_cached in E by done. by injection E as _ <-.
Qed.
Lemma coherent_native now cut b self o self' :
  apply_native_compaction now cut b self = Some (o, self') → coherent self → coherent self'.
Proof.
  unfold apply_native_compaction. intros E Hc. rewrite coherent_cached in E by done.
  destruct (length (messages self) <? cut); [done|]. rewrite coherent_cached in E by done. by injection E as _ <-.
Qed.
Lemma coherent_capped self k self1 n self2 :
  truncate_large_tool_results self = Some (k, self1) → prune_old_tool_results self1 = Some (n, self2) →
  coherent self → Forall message_ascii (messages self) → coherent self2.
Proof.
  intros E1 E2 Hc Ha. destruct (capped_first self) as (k' & s1 & n' & s2 & F1 & F2 & H1 & H2).
  rewrite E1 in F1. injection F1 as <- <-. rewrite E2 in F2. injection F2 as <- <-.
  destruct (shrinks_coherent _ _ _ H1 Hc Ha) as [Hc1 Ha1]. by destruct (shrinks_coherent _ _ _ H2 Hc1 Ha1).
Qed.
Lemma coherent_local now self o self' :
  compact_full_replace_local now self = Some (o, self') → coherent self → Forall message_ascii (messages self) → coherent self'.
Proof.
  unfold compact_full_replace_local. intros E Hc Ha.
  destruct (truncate_large_tool_results self) as [[k s1]|] eqn:E1; cbn [mbind option_bind] in E; [|done].
  destruct (prune_old_tool_results s1) as [[n s2]|] eqn:E2; cbn [mbind option_bind] in E; [|done].
  pose proof (coherent_capped _ _ _ _ _ E1 E2 Hc Ha) as H2. destruct (length (messages s2) =? 0).
  - rewrite coherent_cached in E by done. by injection E as _ <-.
  - by eapply coherent_full_replace.
Qed.
Lemma coherent_compact now max self o self' :
  compact now max self = Some (o, self') → coherent self → Forall message_ascii (messages self) → coherent self'.
Proof.
  unfold compact. intros E Hc Ha. rewrite coherent_cached in E by done.
  destruct (truncate_large_tool_results self) as [[k s1]|] eqn:E1; cbn [mbind option_bind] in E; [|done].
  destruct (prune_old_tool_results s1) as [[n s2]|] eqn:E2; cbn [mbind option_bind] in E; [|done].
  pose proof (coherent_capped _ _ _ _ _ E1 E2 Hc Ha) as H2. rewrite coherent_cached in E by done.
  destruct (recount s2 <=? _); [by injection E as _ <-|].
  destruct (find_start _ _ _ _ _ _ =? 0); [by injection E as _ <-|].
  rewrite coherent_cached in E by done. by injection E as _ <-.
Qed.
Lemma coherent_revert i self : coherent self → coherent (revert_to i self).2.
Proof. unfold revert_to. by destruct (length (messages self) <=? i). Qed.
Lemma coherent_prepend now t self : coherent self → coherent (prepend_compact_summary now t self).
Proof.
  unfold prepend_compact_summary. destruct (trim t == []); [done|]. intros _.
  destruct (messages self) as [|m r]; [done|]. destruct (content m); [|done]. by destruct (_ && _).
Qed.
Lemma coherent_rewind now r self : coherent self → coherent (apply_rewind now r self).2.
Proof.
  intros Hc. unfold apply_rewind. destruct (checkpoint self) as [cp|]; [|done].
  set (s1 := set_checkpoint _ _ _). assert (coherent (revert_to (keep_until cp) s1).2) as H by by apply coherent_revert.
  destruct (revert_to (keep_until cp) s1) as [x s2]. cbn in H. by apply (coherent_push s2).
Qed.
Lemma coherent_pin t self : coherent self → coherent (pin_prompt_suffix t self).2.
Proof. intros H. unfold pin_prompt_suffix. by destruct (_ ≫= _). Qed.

Lemma coherent_step self self' : sess_step self self' → coherent self → coherent self'.
Proof.
  intros [] Hc; try (by apply coherent_push); try by eauto using coherent_results, coherent_system, coherent_full_replace,
    coherent_native, coherent_local, coherent_compact, coherent_revert, coherent_prepend, coherent_rewind, coherent_pin.
  - by rewrite coherent_cached.
  - destruct (truncate_shrinks self0) as (k & s1 & E & Hs). rewrite H0 in E. injection E as <- <-. by eapply shrinks_coherent.
  - destruct (shrink_old_shrinks TOOL_RESULT_PRUNE_CHARS self0) as (k & s1 & E & Hs & _).
    unfold prune_old_tool_results in H0. rewrite H0 in E. injection E as <- <-. by eapply shrinks_coherent.
  - destruct (shrink_old_shrinks TOOL_RESULT_SHAKE_CHARS self0) as (k & s1 & E & Hs & _).
    unfold shake_old_tool_results in H0. rewrite H0 in E. injection E as <- <-. by eapply shrinks_coherent.
  - destruct (spill_like store self0 σ) as (k & s1 & σ1 & E & _ & Hs & _). rewrite H in E. injection E as <- <- <-. auto.
  - unfold undo_last_turn. by destruct (rposition _ _).
Qed.



(** *** Full replacement *)

Lemma filter_rejected {A} (f : A → bool) l : List.filter f (List.filter (λ x, negb (f x)) l) = [].
Proof. induction l as [|x r IH]; cbn; [done|]. destruct (f x) eqn:E; cbn; [done|by rewrite E]. Qed.

(** Replacing the history by a summary keeps the user's last ask,
    word for word, as the first message, then everything since that is not an
    older carrier, then the new carrier, if any; whatever the summarizing model
    wrote, the result is never taken for the ask, and there is no other carrier: so
    the ask is still the last real user turn, and the next compaction keeps it
    again. (For an ask with text that does not itself read like a carrier.) *)
Theorem full_replace_keeps_ask now summary (self : Session) i m q :
  last_real_user_index self = Some i → messages self !! i = Some m →
  as_text (content m) = Some q → is_compact_summary_text q = false →
  ∃ o self' carrier, apply_full_replace now summary self = Some (o, self') ∧
    messages self' = user_text now q :: List.filter (λ m, negb (is_carrier m)) (drop (i + 1) (messages self)) ++ carrier ∧
    List.filter is_carrier (messages self') = carrier ∧
    (carrier = [] ∨ ∃ body, carrier = [user_text now body]) ∧
    last_real_user_index self' = Some 0.
Proof.
  intros Hi Hm Hq Hs. unfold apply_full_replace.
  destruct (token_count_cached self) as [before s1] eqn:Et.
  assert (messages s1 = messages self) as Em by (by injection Et as _ <-).
  assert (last_real_user_index s1 = Some i) as Ei by (unfold last_real_user_index; by rewrite Em).
  assert (length (messages s1) =? 0 = false) as ->.
  { apply Nat.eqb_neq. rewrite Em. intros E. apply lookup_lt_Some in Hm. lia. }
  rewrite Ei, Em. cbn [mbind option_bind]. rewrite Hm. cbn [mbind option_bind]. rewrite Hq.
  destruct (format_compact_summary_content_carrier summary) as (b1 & -> & Hb1). cbn [mbind option_bind].
  assert (∃ body, (if b1 == [] then format_compact_summary_content (local_full_replace_summary s1) else Some b1) = Some body
            ∧ (body = [] ∨ is_compact_summary_text body = true)) as (body & -> & Hb).
  { case_bool_decide; [apply format_compact_summary_content_carrier|eauto]. }
  cbn [mbind option_bind]. set (recent := List.filter _ _).
  destruct (token_count_cached (rebuild_token_cache _)) as [after s2] eqn:Et2.
  set (carrier := if body == [] then [] else [user_text now body]) in *.
  assert (messages s2 = user_text now q :: recent ++ carrier) as Em2 by (by injection Et2 as _ <-).
  exists (mkOutcome before after (length (messages self)) (length (messages s2))
    (messages_transcript (take i (messages self)) DROPPED_TRANSCRIPT_MAX_CHARS)), s2, carrier.
  assert (carrier = [] ∨ ∃ body, carrier = [user_text now body] ∧ is_compact_summary_text body = true) as Hcar.
  { unfold carrier. case_bool_decide as Hz; [by left|right]. exists body. destruct Hb; done. }
  assert (is_carrier (user_text now q : Message) = false) as Hnq by (unfold is_carrier; cbn; by rewrite Hs).
  split_and!; [done|done| | |].
  - rewrite Em2. cbn [List.filter]. rewrite Hnq, List.filter_app.
    assert (List.filter is_carrier recent = []) as ->.
    { apply filter_rejected. }
    destruct Hcar as [->|(b & -> & Hbc)]; [done|]. unfold is_carrier. cbn. by rewrite Hbc.
  - destruct Hcar as [->|(b & -> & _)]; [by left|right; eauto].
  - unfold last_real_user_index. rewrite Em2. eapply (rposition_unique _ _ 0); [done| |].
    + unfold real_user. cbn. by rewrite Hs.
    + intros [|j] x Hj; [lia|]. cbn [lookup list_lookup]. intros [Hx|[_ Hx]]%lookup_app_Some.
      * apply list_elem_of_lookup_2, list_elem_of_In, List.filter_In in Hx as [Hx _]. apply list_elem_of_In in Hx.
        apply list_elem_of_lookup in Hx as [p Hp]. rewrite lookup_drop in Hp.
        pose proof (rposition_spec real_user (messages self)) as Hsp. unfold last_real_user_index in Hi. rewrite Hi in Hsp.
        destruct Hsp as [_ Hsp]. eapply Hsp; [|exact Hp]. lia.
      * destruct Hcar as [->|(b & -> & Hbc)]; [done|]. apply list_lookup_singleton_Some in Hx as [_ <-].
        unfold real_user. cbn. by rewrite Hbc.
Qed.

(** ** Checkpoints *)

(** A rewind after nothing but additions collapses exactly what was added. *)
Lemma rewind_collapses now now' goal_ report (self self' : Session) extra :
  messages self ≠ [] → messages self' = messages self ++ extra →
  checkpoint self' = checkpoint (mark_checkpoint now goal_ self) →
  let r := apply_rewind now' report self' in
  r.1 = true ∧ checkpoint r.2 = None ∧
  messages r.2 = messages self ++ [user_text now' (rewind_report goal_ (trim report))].
Proof.
  intros Hne Hm Hcp. cbv zeta. unfold apply_rewind. rewrite Hcp. cbn [checkpoint mark_checkpoint set_checkpoint].
  cbn [keep_until goal]. unfold revert_to. cbn [messages set_checkpoint]. rewrite Hm, length_app.
  assert (0 < length (messages self)) by (destruct (messages self); [done|cbn; lia]).
  destruct (Nat.leb_spec (length (messages self) + length extra) (length (messages self) - 1)) as [|Hl]; [lia|].
  cbn. replace (length (messages self) - 1 + 1) with (length (messages self)) by lia.
  by rewrite take_app_length.
Qed.

(** ** Requests *)

(** The parts of a message that pairing reads. *)
Definition pairs_like (m m' : Message) : Prop := role m' = role m ∧ result_id m' = result_id m ∧ call_ids m' = call_ids m.
Lemma Forall2_pairs_refl (ms : list Message) : Forall2 pairs_like ms ms.
Proof. by induction ms; constructor. Qed.
Lemma pairs_suffix m suffix : pairs_like m (append_model_suffix m suffix).
Proof.
  unfold append_model_suffix, pairs_like. destruct (content m) as [t|bs] eqn:E; split_and!; try done; unfold call_ids; cbn; rewrite E; [done|].
  by rewrite omap_app, app_nil_r.
Qed.
Lemma append_at_like pin ms : Forall2 pairs_like ms (append_at pin ms).
Proof.
  induction ms as [|m r IH]; cbn; [done|]. destruct (stamped_at _ m); constructor; [apply pairs_suffix|apply Forall2_pairs_refl|by split_and!|done].
Qed.
#[global] Instance pairs_like_trans : Transitive pairs_like.
Proof. intros a b c (H1 & H2 & H3) (H4 & H5 & H6). unfold pairs_like. split_and!; congruence. Qed.
Lemma append_all_like pins ms : Forall2 pairs_like ms (foldl (λ copy pin, append_at pin copy) ms pins).
Proof.
  revert ms; induction pins as [|p ps IH]; intros ms; cbn; [apply Forall2_pairs_refl|]. etrans; [apply append_at_like|apply IH].
Qed.
Lemma transcript_pairs (A : Message → list Message → Prop) ms ms' :
  (∀ a a' rs rs', call_ids a' = call_ids a → result_id <$> rs' = result_id <$> rs → A a rs → A a' rs') →
  Forall2 pairs_like ms ms' → transcript A ms → transcript A ms'.
Proof.
  intros HA Hl Ht. revert ms' Hl. induction Ht as [|m ms Hm _ IH|a rs ms Ha Hrs Has _ IH]; intros ms' Hl.
  - apply Forall2_nil_inv_l in Hl as ->. constructor.
  - apply Forall2_cons_inv_l in Hl as (m' & ms'' & (Hr & _) & Hl & ->). apply transcript_plain; [by rewrite Hr|auto].
  - apply Forall2_cons_inv_l in Hl as (a' & l & (Hr & _ & Hc) & Hl & ->).
    apply Forall2_app_inv_l in Hl as (rs' & ms'' & Hrs' & Hl & ->). apply transcript_turn; [by rewrite Hr| | |auto].
    + clear -Hrs Hrs'. induction Hrs' as [|x y xs ys (Hx & _) _ IH]; [constructor|].
      apply Forall_cons in Hrs as [? ?]. constructor; [congruence|auto].
    + eapply HA; [exact Hc| |exact Has]. clear -Hrs'.
      induction Hrs' as [|x y xs ys (_ & Hx & _) _ IH]; [done|]. cbn. by rewrite Hx, IH.
Qed.
Lemma repaired_transcript (ms : list Message) :
  transcript (λ a rs, answers a rs ∧ (NoDup (call_ids a) → answers_once a rs)) (default ms (paired_messages ms)).
Proof.
  unfold paired_messages. fold (init (Value:=Value) (ImageSource:=ImageSource) (Time:=Time)). set (st := foldl step init ms).
  pose proof (close_inv st (foldl_inv ms init init_inv)) as Hp. cbv zeta in Hp.
  destruct (close_open (out st) (open st)) as [any out'] eqn:Ec. cbn in Hp.
  eapply (transcript_mono _ _ _ (λ a rs H, conj (proj1 H) (λ Hn, proj2 H (or_intror Hn)))) in Hp.
  destruct (changed st || any) eqn:Hch; [exact Hp|]. cbn.
  apply orb_false_iff in Hch as [H1 H2]. destruct (foldl_unchanged ms init H1) as [_ Ho].
  fold st in Ho. unfold close_open in Ec. injection Ec as E1 E2. rewrite H2 in E1. boolp.
  rewrite (nil_length_inv (open st)), app_nil_r, Ho in E2 by done. cbn in E2. by subst out'.
Qed.

(** C24: Whatever happened to the transcript (interruptions, spills,
    compactions, rewinds, pinned suffixes), the messages of a request are ones a
    strict provider accepts: every assistant turn is followed by exactly the
    results of its calls, each call answered, and once unless the turn itself
    repeats an id; and pins change no message's role, id or calls. *)
Theorem request_pairs_up (self : Session) :
  transcript (λ a rs, answers a rs ∧ (NoDup (call_ids a) → answers_once a rs)) (request_messages self) ∧
  Forall2 pairs_like (default (messages self) (paired_messages (messages self))) (request_messages self).
Proof.
  assert (Forall2 pairs_like (default (messages self) (paired_messages (messages self))) (request_messages self)) as Hl.
  { unfold request_messages. destruct (_ =? 0)%nat; [apply Forall2_pairs_refl|apply append_all_like]. }
  split; [|done]. eapply transcript_pairs; [|exact Hl|apply repaired_transcript].
  intros a a' rs rs' Hc Hr. unfold answers_once, answers. by rewrite Hc, Hr.
Qed.
End facts.

(** ** Counter-examples *)

#[local] Instance unit_json : Json unit := {
  json_view _ := JNull; json_get _ _ := None; json_to_string _ := lit "null"; json_to_string_pretty _ := Some (lit "null") }.
Abbreviation demo := (@Session.Session unit nat).

(** Twelve characters of 21 bytes over the prune cap: the footer that replaces them
    also has 21 bytes, so the cut is not noticed and the cache is not rebuilt. *)
Definition long_result : str :=
  replicate (N.to_nat 2048) (chr "x") ++ replicate 9 233%N ++ lit "xxx".
Definition results (n : nat) : list ToolResult := replicate n (mkResult (lit "c") (lit "ok") false).
Definition before_prune : option demo :=
  s ← add_tool_results 0 (mkResult (lit "c0") long_result false :: results 4) (new_session (lit "prompt"));
  Some (add_assistant_message 1 [BText (lit "done")] s).
Example stale_after_prune :
  (λ s, (λ '(n, s'), (n, token_count s', recount s')) <$> prune_old_tool_results s) <$> before_prune
  = Some (Some (0, 522, 525)).
Proof. vm_compute. reflexivity. Qed.

Definition chat (n : nat) : demo :=
  foldl (λ s i, add_assistant_message i [BText (lit "answer ....... ")] (add_user_message i (lit "question ......") s))
    (new_session (lit "prompt")) (seq 0 n).

(** A long pinned text: the estimate is far over the target, the search sees only
    the messages, and nothing is dropped. *)
Definition pinned_chat : demo := (pin_prompt_suffix (replicate (N.to_nat 4000) (chr "x")) (chat 5)).2.
Example compact_ignores_pins :
  (λ '(o, s), (compact_target 1000, recount s, length (messages s), reduced o)) <$> compact 9 1000 pinned_chat
  = Some (750, 1042, 10, false).
Proof. vm_compute. reflexivity. Qed.

(** A checkpoint is an index: after a compaction it names another message, or none,
    and the rewind keeps what it says it collapsed. *)
Definition explored : option demo :=
  let s := mark_checkpoint 1 (lit "find the leak") (chat 5) in
  let s := add_user_message 7 (lit "explore") s in
  snd <$> apply_full_replace 8 (lit "all about it") (add_assistant_message 8 [BText (lit "lots of files")] s).
Example rewind_after_compaction :
  (λ s, (length (messages s), length (messages (apply_rewind 9 (lit "done") s).2))) <$> explored = Some (3, 4).
Proof. vm_compute. reflexivity. Qed.

(** On an empty transcript a checkpoint keeps the first message that comes after it. *)
Example rewind_on_empty :
  let s := add_user_message 2 (lit "explore") (mark_checkpoint 1 (lit "g") (new_session [] : demo)) in
  length (messages (apply_rewind 3 (lit "r") s).2) = 2.
Proof. vm_compute. reflexivity. Qed.

(** The images of the last ask do not survive a full replacement. *)
Example full_replace_drops_images :
  let s := add_user_message_blocks 1 [BText (lit "what is this?"); BImage (Base64 (lit "image/png") (lit "AAAA"))]
             (new_session [] : demo) in
  (λ '(_, s), content <$> head (messages s)) <$> apply_full_replace 2 (lit "nothing yet") s
  = Some (Some (MText (lit "what is this?"))).
Proof. vm_compute. reflexivity. Qed.

(** ** Witnesses *)


Lemma chat_ascii n : Forall message_ascii (messages (chat n)).
Proof.
  unfold chat. induction (seq 0 n) as [|i l IH] using rev_ind; [constructor|].
  rewrite foldl_app. cbn. rewrite !Forall_app. split_and!; [exact IH|..].
  - constructor; [|constructor]. unfold message_ascii. cbn. discriminate.
  - constructor; [|constructor]. unfold message_ascii. cbn. by repeat constructor.
Qed.

Lemma full_replace_keeps_ask_witness :
  let ask := user_text 4 (lit "question ......") : Messages.Message unit ImageSource nat in
  last_real_user_index (chat 5) = Some 8 ∧ messages (chat 5) !! 8 = Some ask ∧
  ∃ o self', apply_full_replace 9 (lit "s") (chat 5) = Some (o, self') ∧ last_real_user_index self' = Some 0.
Proof.
  cbv zeta.
  assert (last_real_user_index (chat 5) = Some 8) as H1 by (vm_compute; reflexivity).
  assert (messages (chat 5) !! 8 = Some (user_text 4 (lit "question ......"))) as H2 by (vm_compute; reflexivity).
  split; [exact H1|]. split; [exact H2|].
  destruct (full_replace_keeps_ask 9 (lit "s") (chat 5) 8 _ (lit "question ......") H1 H2 eq_refl ltac:(vm_compute; reflexivity))
    as (o & s & c & E & _ & _ & _ & El). exists o, s. split; [exact E|exact El].
Defined.
