(* ===== verification/ToolStream.v ===== *)
(** Tool calls out of a stream ([agent/src/tool_stream.rs], with the argument
    coercion and the chunk mapping of [llm/src/openai_compat.rs]).

    Indexing out of range is [None]. Building JSON values is [serde_json]'s: the
    class [JsonMake] has the operations used and their documented laws. *)

From S2P Require Import Prelude RustStr Bytes Messages ToolPolicy ToolText Summary Session.

Class JsonMake (Value : Type) `{!Json Value} := {
  json_null : Value;
  json_empty : Value;
  json_from_str : str → option Value;
  (** [Map::remove] and [Map::insert] on an object. *)
  json_remove : Value → str → option (Value * Value);
  json_insert : Value → str → Value → Value;
  json_null_view : json_view json_null = JNull;
  json_empty_view : json_view json_empty = JObject [];
  json_remove_object v k x v' : json_remove v k = Some (x, v') → ∃ m, json_view v' = JObject m;
  json_insert_object v k x : (∃ m, json_view v = JObject m) → ∃ m, json_view (json_insert v k x) = JObject m }.

Section stream.
Context {Value : Type} `{!Json Value} `{!JsonMake Value}.
Notation ToolCall := (ToolCall Value).

(** ** Argument coercion *)

Definition ensure_object_arguments (input : Value) : Value :=
  match json_view input with
  | JObject _ => input
  | JNull => json_empty
  | JString s =>
      let s := trim s in
      if (s == []) || (s == lit "null") then json_empty
      else match json_from_str s with
           | Some v => match json_view v with JObject _ => v | _ => json_empty end
           | None => json_empty
           end
  | _ => json_empty
  end.
(** [parse_tool_arguments(&Value::String(buf))]. *)
Definition parse_arguments (buf : str) : Value :=
  let s := trim buf in
  if (s == []) || (s == lit "null") then json_empty
  else match json_from_str s with
       | Some v => match json_view v with JObject _ => v | _ => json_empty end
       | None => json_empty
       end.

(** ** The assembler *)

Record Assembler := mkAsm { calls : list ToolCall; arg_bufs : list str; keys : gmap str nat; active : option nat }.
Definition new_assembler : Assembler := mkAsm [] [] ∅ None.

(** How the start of a call seeds its buffer: what is pushed, and a complete object. *)
Definition seed (input : Value) : str * option Value :=
  match json_view input with
  | JString s => (s, None)
  | JObject (_ :: _) => ([], Some input)
  | JNull | JObject [] => ([], None)
  | _ => (json_to_string input, None)
  end.

Definition continue_tool_use (self : Assembler) (i : nat) (name : str) (input : Value) : option Assembler :=
  c ← calls self !! i;
  buf ← arg_bufs self !! i;
  let c := if call_name c == [] then mkCall (call_id c) name (arguments c) else c in
  let '(fragment, complete) := seed input in
  let c := match complete with Some v => mkCall (call_id c) (call_name c) v | None => c end in
  let buf := match complete with Some _ => [] | None => buf end in
  let buf := if negb (buf == []) && starts_with fragment buf then fragment else buf ++ fragment in
  Some (mkAsm (<[i := c]> (calls self)) (<[i := buf]> (arg_bufs self)) (keys self) (Some i)).

Definition on_tool_use (self : Assembler) (id name : str) (input : Value) : option Assembler :=
  match (if id == [] then None else keys self !! id) with
  | Some i => continue_tool_use self i name input
  | None =>
      let idx := length (calls self) in
      let '(buf, pre_parsed) := seed input in
      let ks := if id == [] then keys self else <[id := idx]> (keys self) in
      Some (mkAsm (calls self ++ [mkCall id name (default json_null pre_parsed)]) (arg_bufs self ++ [buf])
              (<[nat_text idx := idx]> ks) (Some idx))
  end.

Definition on_tool_use_delta (self : Assembler) (id fragment : str) : option Assembler :=
  if fragment == [] then Some self
  else
    let keyed := if id == [] then None
                 else match keys self !! id with
                      | Some i => Some i
                      | None => match parse_uint usize_max id with
                                | Some n => if (n <? N.of_nat (length (calls self)))%N then Some (N.to_nat n) else None
                                | None => None
                                end
                      end in
    match (match keyed with Some i => Some i | None => active self end) with
    | None => Some self
    | Some i =>
        buf ← arg_bufs self !! i;
        let ks := if id == [] then keys self
                  else match keys self !! id with Some _ => keys self | None => <[id := i]> (keys self) end in
        Some (mkAsm (calls self) (<[i := buf ++ fragment]> (arg_bufs self)) ks (Some i))
    end.

Definition PATH_TOOLS : list string := ["read"; "write"; "edit"; "list"; "code_mode"; "external_directory"]%string.
Definition PATH_ALIASES : list string := ["file_path"; "filepath"; "file"]%string.
(** [PATH_ALIASES.iter().find_map(|k| args.remove(k))]. *)
Fixpoint remove_first (ks : list string) (args : Value) : option (Value * Value) :=
  match ks with
  | [] => None
  | k :: r => match json_remove args (lit k) with Some res => Some res | None => remove_first r args end
  end.
Definition canonical_path_argument (tc : ToolCall) : ToolCall :=
  if negb (is_one_of (call_name tc) PATH_TOOLS) then tc
  else
    match json_view (arguments tc) with
    | JObject _ =>
        match json_get (arguments tc) (lit "path") with
        | Some _ => tc
        | None => match remove_first PATH_ALIASES (arguments tc) with
                  | Some (value, args) => mkCall (call_id tc) (call_name tc) (json_insert args (lit "path") value)
                  | None => tc
                  end
        end
    | _ => tc
    end.

Definition is_null (v : Value) : bool := match json_view v with JNull => true | _ => false end.
Definition finish_call (i : nat) (tc : ToolCall) (buf : str) : ToolCall :=
  let args := if negb (buf == []) then parse_arguments buf
              else if is_null (arguments tc) then json_empty else arguments tc in
  let id := if call_id tc == [] then fallback_tool_call_id i else call_id tc in
  canonical_path_argument (mkCall id (call_name tc) args).
Fixpoint finish_from (i : nat) (cs : list ToolCall) (bufs : list str) : option (list ToolCall) :=
  match cs with
  | [] => Some []
  | c :: cs => buf ← head bufs; r ← finish_from (S i) cs (tail bufs); Some (finish_call i c buf :: r)
  end.
Definition finish (self : Assembler) : option (list ToolCall) := finish_from 0 (calls self) (arg_bufs self).

(** The buffer of a call as the speculative readers see it. *)
Definition raw_arguments (tc : ToolCall) (buf : str) : str :=
  if negb (buf == []) then buf else if negb (is_null (arguments tc)) then json_to_string (arguments tc) else [].
Definition pending_snapshots (self : Assembler) : list (str * str * str) :=
  zip_with (λ tc buf, (call_id tc, call_name tc, raw_arguments tc buf)) (calls self) (arg_bufs self).
Definition last_updated (self : Assembler) : option (str * str * str) :=
  i ← active self; tc ← calls self !! i; buf ← arg_bufs self !! i; Some (call_id tc, call_name tc, raw_arguments tc buf).

(** The events the turn hands over, in the order they arrive. *)
Inductive Part := PUse (id name : str) (input : Value) | PDelta (id fragment : str).
Definition on_part (self : Assembler) (p : Part) : option Assembler :=
  match p with PUse id name input => on_tool_use self id name input | PDelta id f => on_tool_use_delta self id f end.
Fixpoint on_parts (self : Assembler) (ps : list Part) : option Assembler :=
  match ps with [] => Some self | p :: r => self ← on_part self p; on_parts self r end.
Definition assemble (ps : list Part) : option (list ToolCall) := self ← on_parts new_assembler ps; finish self.

(** ** From the wire *)

Definition arguments_stream_fragment (raw : Value) : option str :=
  match json_view raw with
  | JString ((_ :: _) as s) => Some s
  | JObject (_ :: _) => Some (json_to_string raw)
  | _ => None
  end.
(** One entry of [delta.tool_calls], its fields looked up: [index] as text, [id],
    [function.name] and [function.arguments]. *)
Definition stream_events_for_tool_call_delta (index_key : str) (id : option str) (name : str) (args : Value) : list Part :=
  match (id ≫= λ i, if i == [] then None else Some i) with
  | Some i => [PUse i name args]
  | None => match arguments_stream_fragment args with Some frag => [PDelta index_key frag] | None => [] end
  end.

(** ** Every stream assembles *)

Definition is_object (v : Value) : Prop := ∃ m, json_view v = JObject m.
Definition inv (self : Assembler) : Prop :=
  length (arg_bufs self) = length (calls self) ∧
  (∀ k i, keys self !! k = Some i → i < length (calls self)) ∧
  (∀ i, active self = Some i → i < length (calls self)) ∧
  Forall (λ c : ToolCall, is_null (arguments c) = true ∨ is_object (arguments c)) (calls self).

Lemma seed_complete input buf v : seed input = (buf, Some v) → is_object v.
Proof. unfold seed. destruct (json_view input) as [| | | | |[|e m]] eqn:E; try discriminate. intros [= <- <-]. eexists. exact E. Qed.

Lemma continue_inv self i name input : inv self → i < length (calls self) → ∃ self', continue_tool_use self i name input = Some self' ∧ inv self'.
Proof.
  intros (Hl & Hk & Ha & Hf) Hi. unfold continue_tool_use.
  destruct (lookup_lt_is_Some_2 (calls self) i Hi) as [c Hc]. destruct (lookup_lt_is_Some_2 (arg_bufs self) i) as [buf Hb]; [by rewrite Hl|].
  rewrite Hc, Hb. cbn [mbind option_bind]. destruct (seed input) as [fragment complete] eqn:Es.
  eexists; split; [done|]. unfold inv. cbn [calls arg_bufs keys active]. rewrite !length_insert. split_and!; [done|done|by intros j [= <-]|].
  apply Forall_insert; [done|]. apply (Forall_lookup_1 _ _ _ _ Hf) in Hc. destruct complete as [v|].
  - right. by eapply seed_complete.
  - by destruct (call_name c == []).
Qed.
Lemma on_tool_use_inv self id name input : inv self → ∃ self', on_tool_use self id name input = Some self' ∧ inv self'.
Proof.
  intros HI. pose proof HI as (Hl & Hk & Ha & Hf). unfold on_tool_use.
  destruct (if id == [] then None else keys self !! id) as [i|] eqn:Ei.
  { apply continue_inv; [done|]. case_bool_decide; [done|]. by eapply Hk. }
  destruct (seed input) as [buf pre] eqn:Es. eexists; split; [done|]. unfold inv. cbn [calls arg_bufs keys active].
  rewrite !length_app. cbn [length]. split_and!.
  - lia.
  - intros k i. rewrite lookup_insert_Some. intros [(_ & <-)|(_ & H)]; [lia|]. case_bool_decide; [by apply Hk in H; lia|].
    apply lookup_insert_Some in H as [(_ & <-)|(_ & H)]; [lia|apply Hk in H; lia].
  - intros i [= <-]. lia.
  - apply Forall_app. split; [done|]. constructor; [|constructor]. cbn [arguments]. destruct pre as [v|].
    + right. by eapply seed_complete.
    + left. unfold is_null. cbn. by rewrite json_null_view.
Qed.
Lemma on_tool_use_delta_inv self id frag : inv self → ∃ self', on_tool_use_delta self id frag = Some self' ∧ inv self'.
Proof.
  intros HI. pose proof HI as (Hl & Hk & Ha & Hf). unfold on_tool_use_delta. destruct (frag == []); [eauto|].
  set (keyed := if id == [] then None else _).
  assert (∀ i, keyed = Some i → i < length (calls self)) as Hkd.
  { unfold keyed. intros i. destruct (id == []); [done|]. destruct (keys self !! id) eqn:E; [intros [= <-]; by eapply Hk|].
    destruct (parse_uint usize_max id) as [n|]; [|done]. destruct (N.ltb_spec n (N.of_nat (length (calls self)))); [|done].
    intros [= <-]. lia. }
  destruct (match keyed with Some i => Some i | None => active self end) as [i|] eqn:Ei; [|eauto].
  assert (i < length (calls self)) as Hi by (destruct keyed; [injection Ei as <-; by apply Hkd|by apply Ha]).
  destruct (lookup_lt_is_Some_2 (arg_bufs self) i) as [buf Hb]; [by rewrite Hl|]. rewrite Hb. cbn [mbind option_bind].
  eexists; split; [done|]. unfold inv. cbn [calls arg_bufs keys active]. rewrite length_insert.
  split_and!; [done| |by intros j [= <-]|done]. intros k j. destruct (id == []); [by apply Hk|].
  destruct (keys self !! id); [by apply Hk|]. rewrite lookup_insert_Some. intros [(_ & <-)|(_ & H)]; [done|by eapply Hk].
Qed.
Lemma on_parts_inv ps self : inv self → ∃ self', on_parts self ps = Some self' ∧ inv self'.
Proof.
  revert self; induction ps as [|p ps IH]; intros self HI; cbn [on_parts]; [eauto|].
  assert (∃ s1, on_part self p = Some s1 ∧ inv s1) as (s1 & -> & H1)
    by (destruct p; [by apply on_tool_use_inv|by apply on_tool_use_delta_inv]).
  cbn [mbind option_bind]. by apply IH.
Qed.
Lemma new_inv : inv new_assembler.
Proof. split_and!; [done|done|done|constructor]. Qed.

Lemma parse_arguments_object buf : is_object (parse_arguments buf).
Proof.
  unfold parse_arguments. assert (is_object json_empty) as He by (eexists; apply json_empty_view).
  destruct (_ || _); [done|]. destruct (json_from_str _) as [v|]; [|done]. destruct (json_view v) eqn:E; try done. by eexists.
Qed.
Lemma remove_first_object ks args x args' : remove_first ks args = Some (x, args') → is_object args'.
Proof.
  induction ks as [|k r IH]; cbn [remove_first]; [done|]. destruct (json_remove args (lit k)) as [[y w]|] eqn:E; [|done].
  intros [= <- <-]. by eapply json_remove_object.
Qed.
Lemma canonical_object tc : is_object (arguments tc) → is_object (arguments (canonical_path_argument tc)) ∧
  call_id (canonical_path_argument tc) = call_id tc ∧ call_name (canonical_path_argument tc) = call_name tc.
Proof.
  intros Ho. unfold canonical_path_argument. destruct (negb _); [done|]. destruct (json_view (arguments tc)); try done.
  destruct (json_get _ _); [done|]. destruct (remove_first _ _) as [[x args]|] eqn:E; [|done].
  cbn. split_and!; [|done..]. apply json_insert_object. by eapply remove_first_object.
Qed.
Lemma finish_call_ok i tc buf :
  is_null (arguments tc) = true ∨ is_object (arguments tc) →
  is_object (arguments (finish_call i tc buf)) ∧ call_id (finish_call i tc buf) ≠ [].
Proof.
  intros H. unfold finish_call. set (args := if negb (buf == []) then parse_arguments buf else _).
  set (id := if call_id tc == [] then _ else call_id tc).
  assert (is_object args) as Ho.
  { unfold args. destruct (negb (buf == [])); [apply parse_arguments_object|]. destruct (is_null (arguments tc)) eqn:E; [|by destruct H].
    eexists. apply json_empty_view. }
  destruct (canonical_object (mkCall id (call_name tc) args) Ho) as (H1 & -> & _). split; [done|]. unfold id. cbn.
  case_bool_decide; [|done]. done.
Qed.
Lemma finish_from_ok i cs bufs :
  length bufs = length cs → Forall (λ c, is_null (arguments c) = true ∨ is_object (arguments c)) cs →
  ∃ out, finish_from i cs bufs = Some out ∧ length out = length cs ∧
    Forall (λ c, is_object (arguments c) ∧ call_id c ≠ []) out.
Proof.
  revert i bufs; induction cs as [|c cs IH]; intros i [|b bufs] Hl Hf; try done; cbn [finish_from].
  { exists []. done. }
  apply Forall_cons in Hf as [Hc Hf]. destruct (IH (S i) bufs) as (out & E & Hlo & Ho); [by injection Hl|done|].
  cbn. rewrite E. cbn. eexists; split; [done|]. split; [cbn; congruence|]. constructor; [by apply finish_call_ok|done].
Qed.

(** Whatever a provider streams, assembling the calls does not panic, and every
    call has an id to answer to and a JSON object for arguments. *)
Lemma assembled_calls_ok (ps : list Part) :
  ∃ cs, assemble ps = Some cs ∧ Forall (λ c, is_object (arguments c) ∧ call_id c ≠ []) cs.
Proof.
  unfold assemble. destruct (on_parts_inv ps new_assembler new_inv) as (self & -> & (Hl & _ & _ & Hf)).
  cbn [mbind option_bind]. destruct (finish_from_ok 0 (calls self) (arg_bufs self) Hl Hf) as (out & E & _ & Ho).
  exists out. split; [exact E|done].
Qed.

(** ** Interleaved fragments *)

(** What a provider sends: the start of a call with the first piece of its argument
    text, a further piece for the [k]-th call (by its index), or one for the call
    last touched (by an empty id). *)
Inductive Chunk := COpen (id name piece : str) | CMore (k : nat) (piece : str) | CLast (piece : str).
(** The text in an [arguments] field: a string, or nothing. *)
Definition carries (v : Value) (piece : str) : Prop :=
  json_view v = JString piece ∨ (json_view v = JNull ∨ json_view v = JObject []) ∧ piece = [].
Inductive wire : Chunk → list Part → Prop :=
| wire_open key id name piece v : id ≠ [] → carries v piece →
    wire (COpen id name piece) (stream_events_for_tool_call_delta key (Some id) name v)
| wire_more k id name piece v : id = None ∨ id = Some [] → carries v piece →
    wire (CMore k piece) (stream_events_for_tool_call_delta (nat_text k) id name v)
| wire_last piece : wire (CLast piece) [PDelta [] piece].

(** The calls with the text received for each, and the one last touched. *)
Definition Received : Type := list (str * str * str) * option nat.
Definition add_piece (piece : str) (e : str * str * str) : str * str * str := (e.1, e.2 ++ piece).
Definition receive (st : Received) (c : Chunk) : option Received :=
  let '(l, last) := st in
  let append k piece :=
    if piece == [] then Some (l, last)
    else if k <? length l then Some (alter (add_piece piece) k l, Some k) else None in
  match c with
  | COpen id name piece =>
      if (id == []) || existsb (λ e, e.1.1 == id) l then None
      else Some (l ++ [(id, name, piece)], Some (length l))
  | CMore k piece => append k piece
  | CLast piece => match last with Some k => append k piece | None => None end
  end.
Fixpoint receive_all (st : Received) (cs : list Chunk) : option Received :=
  match cs with [] => Some st | c :: r => st ← receive st c; receive_all st r end.
(** No id is the decimal text of a number. *)
Definition named (c : Chunk) : Prop := match c with COpen id _ _ => ∀ k, id ≠ nat_text k | _ => True end.

Lemma nat_text_inj i j : nat_text i = nat_text j → i = j.
Proof.
  unfold nat_text. intros E. apply Nat2N.inj.
  pose proof (parse_uint_digits (N.max (N.of_nat i) (N.of_nat j)) (N.of_nat i) ltac:(lia)) as H1.
  pose proof (parse_uint_digits (N.max (N.of_nat i) (N.of_nat j)) (N.of_nat j) ltac:(lia)) as H2. congruence.
Qed.
Lemma nat_text_nonnil i : nat_text i ≠ [].
Proof. apply digits_nonnil. Qed.

Definition call_entry (e : str * str * str) : ToolCall := mkCall e.1.1 e.1.2 json_null.
Record tracks (self : Assembler) (st : Received) : Prop := {
  tr_calls : calls self = call_entry <$> st.1;
  tr_bufs : arg_bufs self = snd <$> st.1;
  tr_active : active self = st.2;
  tr_last : ∀ k, st.2 = Some k → k < length st.1;
  tr_ids : Forall (λ e : str * str * str, e.1.1 ≠ [] ∧ ∀ k, e.1.1 ≠ nat_text k) st.1;
  tr_keys : ∀ s i, keys self !! s = Some i ↔ i < length st.1 ∧ (s = nat_text i ∨ ∃ e, st.1 !! i = Some e ∧ e.1.1 = s) }.

Lemma add_piece_calls piece (l : list (str * str * str)) k : call_entry <$> alter (add_piece piece) k l = call_entry <$> l.
Proof. revert k; induction l as [|e l IH]; intros [|k]; cbn; [done..|]. by f_equal. Qed.
Lemma add_piece_bufs piece (l : list (str * str * str)) k b :
  (snd <$> l) !! k = Some b → snd <$> alter (add_piece piece) k l = <[k := b ++ piece]> (snd <$> l).
Proof.
  revert k; induction l as [|e l IH]; intros [|k]; cbn; [done..| |].
  - by intros [= <-].
  - intros H. f_equal. by apply IH.
Qed.

Lemma tracks_append self l a k piece :
  tracks self (l, a) → k < length l →
  tracks (mkAsm (calls self) (<[k := default [] ((snd <$> l) !! k) ++ piece]> (arg_bufs self)) (keys self) (Some k))
    (alter (add_piece piece) k l, Some k).
Proof.
  intros [H1 H2 H3 H4 H5 H6] Hk. cbn in *.
  destruct (lookup_lt_is_Some_2 (snd <$> l) k) as [b Hb]; [by rewrite length_fmap|]. rewrite Hb.
  split; cbn; rewrite ?length_alter; try done.
  - by rewrite add_piece_calls.
  - by rewrite H2, (add_piece_bufs _ _ _ b).
  - by intros j [= <-].
  - apply Forall_alter; [done|]. by intros e _ ?.
  - intros s i. rewrite H6, list_lookup_alter. case_decide as Hik; [subst i|done].
    split; intros [Hi [Hs|(e & He & Hs)]]; (split; [done|]); auto; right.
    + rewrite He. cbn. eauto.
    + destruct (l !! k) as [e'|]; [|done]. injection He as <-. cbn in Hs. eauto.
Qed.

(** What a chunk is on the wire, as one event or none. *)
Inductive event : Chunk → Part → Prop :=
| event_open id name piece v : seed v = (piece, None) → event (COpen id name piece) (PUse id name v)
| event_more k piece : event (CMore k piece) (PDelta (nat_text k) piece)
| event_last piece : event (CLast piece) (PDelta [] piece).
Lemma carries_seed v piece : carries v piece → seed v = (piece, None).
Proof. unfold carries, seed. intros [->|[[-> | ->] ->]]; done. Qed.
Lemma wire_event c ps : wire c ps → (∃ p, ps = [p] ∧ event c p) ∨ ps = [] ∧ ∃ k, c = CMore k [].
Proof.
  intros [key id name piece v Hid Hc|k id name piece v Hid Hc|piece].
  - left. eexists. split; [|by apply event_open, carries_seed]. unfold stream_events_for_tool_call_delta. cbn. by rewrite bool_decide_false.
  - unfold stream_events_for_tool_call_delta.
    assert ((id ≫= λ i, if i == [] then None else Some i) = None) as -> by by destruct Hid as [-> | ->].
    unfold arguments_stream_fragment. destruct Hc as [->|[[-> | ->] ->]]; [|right; eauto..].
    destruct piece as [|x piece]; [right; eauto|]. left. eexists. split; [done|constructor].
  - left. eexists. split; [done|constructor].
Qed.

Lemma event_tracked self st c p st' :
  tracks self st → named c → event c p → receive st c = Some st' → ∃ self', on_part self p = Some self' ∧ tracks self' st'.
Proof.
  intros Ht Hn Hw Hr. destruct st as [l a]. pose proof Ht as [H1 H2 H3 H4 H5 H6]. cbn [fst snd] in *.
  assert (length (calls self) = length l) as Hlen by (by rewrite H1, length_fmap).
  destruct Hw as [id name piece v Hs|k piece|piece]; cbn [receive named on_part] in *.
  - destruct (_ || _) eqn:E; [done|]. boolp. injection Hr as <-. unfold on_tool_use. rewrite bool_decide_false by done.
    assert (keys self !! id = None) as ->.
    { destruct (keys self !! id) as [i|] eqn:Ek; [|done]. apply H6 in Ek as [Hi [->|(e & He & <-)]]; [by destruct (Hn i)|].
      assert (existsb (λ e', e'.1.1 == e.1.1) l = true); [|congruence].
      apply existsb_true_iff. exists e. split; [by eapply list_elem_of_lookup_2|]. by apply bool_decide_eq_true. }
    rewrite Hs, Hlen. eexists; split; [done|]. split; cbn [calls arg_bufs keys active fst snd].
    + by rewrite H1, fmap_app.
    + by rewrite H2, fmap_app.
    + done.
    + intros k [= <-]. rewrite length_app. cbn. lia.
    + apply Forall_app. split; [done|]. by constructor.
    + intros s i. rewrite length_app. cbn [length]. rewrite !lookup_insert_Some, H6. split.
      * intros [[<- <-]|[Hs1 [[<- <-]|[Hs2 [Hi [->|(e & He & <-)]]]]]].
        -- split; [lia|by left].
        -- split; [lia|]. right. exists (id, name, piece). split; [by apply list_lookup_middle|done].
        -- split; [lia|by left].
        -- split; [lia|]. right. exists e. split; [by apply lookup_app_l_Some|done].
      * intros [Hi [->|(e & He & <-)]].
        -- destruct (decide (i = length l)) as [->|Hne]; [by left|]. right.
           split; [intros E; by apply nat_text_inj in E|]. right. split; [by apply Hn|]. split; [lia|by left].
        -- apply lookup_app_Some in He as [He|[Hle He]].
           ++ right. split; [|right; split].
              ** intros E'. apply (Forall_lookup_1 _ _ _ _ H5) in He as [_ He]. by destruct (He (length l)).
              ** intros ->. assert (existsb (λ e', e'.1.1 == e.1.1) l = true); [|congruence].
                 apply existsb_true_iff. exists e. split; [by eapply list_elem_of_lookup_2|]. by apply bool_decide_eq_true.
              ** split; [by eapply lookup_lt_Some|]. right; eauto.
           ++ apply list_lookup_singleton_Some in He as [He <-]. cbn. right. split; [by intros E; destruct (Hn (length l))|].
              left. split; [done|lia].
  - unfold on_tool_use_delta. destruct (piece == []) eqn:Ep; [injection Hr as <-; eauto|].
    destruct (Nat.ltb_spec k (length l)) as [Hk|]; [|done]. injection Hr as <-.
    rewrite bool_decide_false by apply nat_text_nonnil.
    assert (keys self !! nat_text k = Some k) as -> by (apply H6; split; [done|by left]).
    destruct (lookup_lt_is_Some_2 (snd <$> l) k) as [b Hb]; [by rewrite length_fmap|].
    rewrite H2, Hb. cbn [mbind option_bind]. eexists; split; [done|].
    pose proof (tracks_append self l a k piece Ht Hk) as Hta. by rewrite Hb, H2 in Hta.
  - destruct a as [k|]; [|done]. unfold on_tool_use_delta. destruct (piece == []) eqn:Ep; [injection Hr as <-; eauto|].
    destruct (Nat.ltb_spec k (length l)) as [Hk|]; [|done]. injection Hr as <-. cbn [orb]. rewrite bool_decide_true by done.
    rewrite H3. destruct (lookup_lt_is_Some_2 (snd <$> l) k) as [b Hb]; [by rewrite length_fmap|].
    rewrite H2, Hb. cbn [mbind option_bind]. eexists; split; [done|].
    pose proof (tracks_append self l (Some k) k piece Ht Hk) as Hta. by rewrite Hb, H2 in Hta.
Qed.

Lemma finish_tracked i (l : list (str * str * str)) :
  finish_from i (call_entry <$> l) (snd <$> l) = Some (imap (λ j e, finish_call (i + j) (call_entry e) e.2) l).
Proof.
  revert i; induction l as [|e l IH]; intros i; [done|]. cbn [fmap list_fmap finish_from head tail mbind option_bind].
  rewrite IH. cbn [mbind option_bind imap]. rewrite Nat.add_0_r. do 2 f_equal. apply imap_ext. intros j x _. cbn.
  by rewrite Nat.add_succ_r.
Qed.

Lemma tracks_step self st c ps st' :
  tracks self st → named c → wire c ps → receive st c = Some st' → ∃ self', on_parts self ps = Some self' ∧ tracks self' st'.
Proof.
  intros Ht Hn Hw Hr. destruct (wire_event c ps Hw) as [(p & -> & He)|(-> & k & ->)].
  - destruct (event_tracked self st c p st' Ht Hn He Hr) as (self' & E & Ht'). exists self'. cbn. by rewrite E.
  - exists self. split; [done|]. destruct st as [l a]. cbn in Hr. by injection Hr as <-.
Qed.
Lemma on_parts_app self ps qs : on_parts self (ps ++ qs) = self ← on_parts self ps; on_parts self qs.
Proof. revert self; induction ps as [|p ps IH]; intros self; [done|]. cbn [app on_parts]. destruct (on_part self p); cbn [mbind option_bind]; [apply IH|done]. Qed.

(** *** What a finished call has to be *)

(** The object that the text of its arguments is; the empty one when it is none. *)
Inductive means (t : str) : Value → Prop :=
| means_object v m : trim t ≠ [] → trim t ≠ lit "null" → json_from_str (trim t) = Some v → json_view v = JObject m → means t v
| means_none : trim t = [] ∨ trim t = lit "null" ∨ (∀ v m, json_from_str (trim t) = Some v → json_view v ≠ JObject m) →
    means t json_empty.
(** Tools that take a path get it under that name: without [path], the first of its
    other names that is there is renamed. *)
Definition takes_path (name : str) : Prop :=
  name ∈ lit <$> ["read"; "write"; "edit"; "list"; "code_mode"; "external_directory"]%string.
Inductive path_named (name : str) (v : Value) : Value → Prop :=
| path_kept : ¬ takes_path name ∨ json_get v (lit "path") ≠ None ∨
    (∀ k, k ∈ ["file_path"; "filepath"; "file"]%string → json_remove v (lit k) = None) → path_named name v v
| path_renamed before k after x rest : takes_path name → json_get v (lit "path") = None →
    ["file_path"; "filepath"; "file"]%string = before ++ k :: after → (∀ k', k' ∈ before → json_remove v (lit k') = None) →
    json_remove v (lit k) = Some (x, rest) → path_named name v (json_insert rest (lit "path") x).
Definition finished (e : str * str * str) (c : ToolCall) : Prop :=
  call_id c = e.1.1 ∧ call_name c = e.1.2 ∧ ∃ v, means e.2 v ∧ path_named e.1.2 v (arguments c).

Lemma parse_arguments_means t : means t (parse_arguments t).
Proof.
  unfold parse_arguments. destruct ((trim t == []) || (trim t == lit "null")) eqn:E.
  - apply means_none. apply orb_true_iff in E as [E|E]; apply bool_decide_eq_true in E; auto.
  - apply orb_false_iff in E as [E1 E2]. apply bool_decide_eq_false in E1, E2. destruct (json_from_str (trim t)) as [v|] eqn:Ev; [|apply means_none; right; right; congruence].
    destruct (json_view v) eqn:Em; try (apply means_none; right; right; intros; congruence). by eapply means_object.
Qed.
Lemma remove_first_named ks v : match remove_first ks v with
  | Some (x, rest) => ∃ before k after, ks = before ++ k :: after ∧ (∀ k', k' ∈ before → json_remove v (lit k') = None) ∧ json_remove v (lit k) = Some (x, rest)
  | None => ∀ k, k ∈ ks → json_remove v (lit k) = None
  end.
Proof.
  induction ks as [|k ks IH]; cbn [remove_first]; [by intros k ?%elem_of_nil|]. destruct (json_remove v (lit k)) as [[x rest]|] eqn:E.
  - exists [], k, ks. split_and!; [done|by intros k' ?%elem_of_nil|done].
  - destruct (remove_first ks v) as [[x rest]|].
    + destruct IH as (before & k1 & after & -> & Hb & Hk). exists (k :: before), k1, after.
      split_and!; [done| |done]. intros k' [->|H]%elem_of_cons; [done|by apply Hb].
    + intros k' [->|H]%elem_of_cons; [done|by apply IH].
Qed.
Lemma takes_path_dec name : is_one_of name PATH_TOOLS = true ↔ takes_path name.
Proof.
  unfold is_one_of, takes_path. change (["read"; "write"; "edit"; "list"; "code_mode"; "external_directory"]%string) with PATH_TOOLS.
  rewrite existsb_true_iff, list_elem_of_fmap. split.
  - intros (k & H1 & H2). boolp. by exists k.
  - intros (k & H1 & H2). exists k. split; [done|]. by apply bool_decide_eq_true.
Qed.
Lemma canonical_named tc : is_object (arguments tc) → path_named (call_name tc) (arguments tc) (arguments (canonical_path_argument tc)).
Proof.
  intros [m Em]. unfold canonical_path_argument. destruct (is_one_of (call_name tc) PATH_TOOLS) eqn:Ep; cbn [negb].
  - apply takes_path_dec in Ep. rewrite Em. destruct (json_get (arguments tc) (lit "path")) eqn:Eg; [apply path_kept; right; left; congruence|].
    pose proof (remove_first_named PATH_ALIASES (arguments tc)) as H. destruct (remove_first PATH_ALIASES (arguments tc)) as [[x rest]|].
    + destruct H as (before & k & after & E & Hb & Hk). cbn [arguments]. by eapply (path_renamed _ _ before k after).
    + apply path_kept. auto.
  - apply path_kept. left. rewrite <- takes_path_dec. congruence.
Qed.
Lemma finish_call_finished i e : e.1.1 ≠ [] → finished e (finish_call i (call_entry e) e.2).
Proof.
  intros Hid. unfold finish_call, call_entry. cbn [arguments call_id call_name]. rewrite (bool_decide_false (e.1.1 = [])) by done.
  set (args := if negb (e.2 == []) then parse_arguments e.2 else _).
  assert (means e.2 args) as Hm.
  { unfold args. destruct (e.2 == []) eqn:E; cbn [negb]; [|apply parse_arguments_means]. boolp. rewrite E.
    unfold is_null. rewrite json_null_view. apply means_none. by left. }
  assert (is_object args) as Ho by (destruct Hm as [v m _ _ _ Em|_]; [by exists m|exists []; apply json_empty_view]).
  destruct (canonical_object (mkCall e.1.1 e.1.2 args) Ho) as (_ & Hi & Hn).
  split_and!; [exact Hi|exact Hn|]. exists args. split; [done|]. apply (canonical_named (mkCall e.1.1 e.1.2 args) Ho).
Qed.

(** C28: Argument text survives streaming: when a provider opens calls with new,
    non-empty ids that are no decimal numbers, each with the first piece of its argument
    text or none (no complete object), and sends the rest of it in pieces, interleaved in
    any way and addressed by the call's index or to the call last touched, the assembled
    calls are the opened ones, in order, each with its id, its name and the object that
    exactly its own text is - the empty one if it is none -, with a path under the name
    the tool takes; no piece is lost, repeated or given to another call. *)
Theorem assembled_calls_round_trip (cs : list Chunk) (ps : list (list Part)) l last :
  Forall named cs → Forall2 wire cs ps → receive_all ([], None) cs = Some (l, last) →
  ∃ out, assemble (concat ps) = Some out ∧ Forall2 finished l out.
Proof.
  intros Hn Hw Hr. assert (∃ self, on_parts new_assembler (concat ps) = Some self ∧ tracks self (l, last)) as (self & E & Ht).
  { assert (tracks new_assembler ([], None)) as H0.
    { split; [done..|constructor|]. intros s i. cbn. rewrite lookup_empty. split; [done|]. intros [? _]. lia. }
    revert Hr H0. generalize new_assembler as self. generalize (([], None) : Received) as st. clear -Hn Hw.
    induction Hw as [|c p cs ps Hc _ IH]; intros st self; cbn [receive_all concat].
    - intros [= ->]. eexists. done.
    - apply Forall_cons in Hn as [Hn1 Hn]. destruct (receive st c) as [st1|] eqn:E1; cbn [mbind option_bind]; [|done].
      intros Hr Ht. destruct (tracks_step _ _ _ _ _ Ht Hn1 Hc E1) as (s1 & E & H1). rewrite on_parts_app, E. cbn [mbind option_bind]. by eapply IH. }
  unfold assemble. rewrite E. cbn [mbind option_bind]. unfold finish. destruct Ht as [-> -> _ _ Hids _]. cbn [fst] in *.
  eexists. split; [apply finish_tracked|]. apply Forall2_same_length_lookup_2; [by rewrite length_imap|].
  intros i e c He. rewrite list_lookup_imap, He. intros [= <-]. apply finish_call_finished.
  by apply (Forall_lookup_1 _ _ _ _ Hids) in He as [? _].
Qed.
End stream.

(** ** An instance *)

(** JSON of null, texts and objects of texts, whose parser wraps the text it reads. *)
Inductive JVal := VNull | VStr (s : str) | VObj (m : list (str * str)).
#[export] Instance jval_json : Json JVal := {
  json_view v := match v with VNull => JNull | VStr s => JString s | VObj m => JObject ((λ e, (e.1, VStr e.2)) <$> m) end;
  json_get v k := match v with VObj m => (λ e, VStr e.2) <$> List.find (λ e, e.1 == k) m | _ => None end;
  json_to_string _ := lit "{}";
  json_to_string_pretty _ := None }.
Definition jval_remove (v : JVal) (k : str) : option (JVal * JVal) :=
  match v with
  | VObj m => (λ e, (VStr e.2, VObj (List.filter (λ e, negb (e.1 == k)) m))) <$> List.find (λ e, e.1 == k) m
  | _ => None
  end.
Definition jval_insert (v : JVal) (k : str) (x : JVal) : JVal :=
  VObj (match v with VObj m => m | _ => [] end ++ match x with VStr s => [(k, s)] | _ => [] end).
#[export] Program Instance jval_make : JsonMake JVal := {
  json_null := VNull; json_empty := VObj [];
  json_from_str s := Some (VObj [(lit "file_path", s)]);
  json_remove := jval_remove; json_insert := jval_insert }.
Next Obligation. done. Qed.
Next Obligation. done. Qed.
Next Obligation.
  intros v k x v'. destruct v as [| |m]; cbn; try done. destruct (List.find _ m); cbn; [|done]. intros [= _ <-]. eexists. done.
Qed.
Next Obligation. intros. eexists. done. Qed.

Definition two_calls : list Chunk :=
  [COpen (lit "call_a") (lit "read") []; CLast (lit "ab"); COpen (lit "call_b") (lit "grep") (lit "x"); CMore 0 (lit "c");
   CMore 1 (lit "y"); CLast (lit "z")].
Definition two_parts : list (list (@Part JVal)) :=
  [stream_events_for_tool_call_delta (lit "0") (Some (lit "call_a")) (lit "read") VNull; [PDelta [] (lit "ab")];
   stream_events_for_tool_call_delta (lit "1") (Some (lit "call_b")) (lit "grep") (VStr (lit "x"));
   stream_events_for_tool_call_delta (lit "0") None [] (VStr (lit "c"));
   stream_events_for_tool_call_delta (lit "1") (Some []) [] (VStr (lit "y")); [PDelta [] (lit "z")]].
Lemma call_not_number (s : str) k : lit "call_" ++ s ≠ nat_text k.
Proof.
  intros E. pose proof (digits_all (N.of_nat k)) as H. unfold nat_text in E. rewrite <- E in H.
  apply Forall_cons in H as [H _]. discriminate H.
Qed.
Lemma assembled_calls_round_trip_witness :
  Forall named two_calls ∧ Forall2 wire two_calls two_parts ∧
  ∃ out, assemble (concat two_parts) = Some out ∧
    Forall2 finished [(lit "call_a", lit "read", lit "abc"); (lit "call_b", lit "grep", lit "xyz")] out.
Proof.
  assert (Forall named two_calls) as H1.
  { repeat (constructor; [first [exact I|intros k; first [apply (call_not_number (lit "a"))|apply (call_not_number (lit "b"))]]|]). constructor. }
  assert (Forall2 wire two_calls two_parts) as H2.
  { constructor; [apply wire_open; [done|by right; split; [left|]]|]. constructor; [apply wire_last|].
    constructor; [apply wire_open; [done|by left]|]. constructor; [apply (wire_more 0); [by left|by left]|].
    constructor; [apply (wire_more 1); [by right|by left]|]. constructor; [apply wire_last|constructor]. }
  assert (receive_all ([], None) two_calls
    = Some ([(lit "call_a", lit "read", lit "abc"); (lit "call_b", lit "grep", lit "xyz")], Some 1)) as H3 by (vm_compute; reflexivity).
  split; [exact H1|]. split; [exact H2|].
  exact (assembled_calls_round_trip two_calls two_parts _ _ H1 H2 H3).
Defined.
Example two_calls_assembled :
  assemble (concat two_parts) = Some [mkCall (lit "call_a") (lit "read") (VObj [(lit "path", lit "abc")]);
                                      mkCall (lit "call_b") (lit "grep") (VObj [(lit "file_path", lit "xyz")])].
Proof. vm_compute. reflexivity. Qed.

(** A call whose id is the decimal text of another call's index gets that call's
    place taken: its later pieces go to the other call. *)
Example numeric_id_misroutes :
  assemble [PUse (lit "1") (lit "grep") (VStr (lit "x")); PUse (lit "b") (lit "grep") (VStr (lit "y")); PDelta (lit "1") (lit "z")]
  = Some [mkCall (lit "1") (lit "grep") (VObj [(lit "file_path", lit "x")]);
          mkCall (lit "b") (lit "grep") (VObj [(lit "file_path", lit "yz")])].
Proof. vm_compute. reflexivity. Qed.
