(* ===== verification/Hooks.v ===== *)
(** Hooks around tool calls and at points of a session ([plugin/src/hooks.rs]): which
    hooks run for an event, in which order, what their command is told, when a failure
    blocks, what reaches the model, and how transforms chain. *)

From S2P Require Import Prelude RustStr LineBuffer ToolPolicy Gate ToolStream.

Inductive HookEvent := PreTool | PreToolTransform | PostTool | SessionStart | UserPromptSubmit | Stop | PreCompact | SubagentStop.
#[global] Instance HookEvent_eq_dec : EqDecision HookEvent.
Proof. solve_decision. Defined.
Definition event_env (e : HookEvent) : str :=
  match e with
  | PreTool => lit "pre_tool" | PreToolTransform => lit "pre_tool_transform" | PostTool => lit "post_tool"
  | SessionStart => lit "session_start" | UserPromptSubmit => lit "user_prompt_submit" | Stop => lit "stop"
  | PreCompact => lit "pre_compact" | SubagentStop => lit "subagent_stop"
  end.
Definition can_block (e : HookEvent) : bool := match e with PreTool | UserPromptSubmit => true | _ => false end.
Record HookConfig := mkHook {
  hook_event : HookEvent; tool_match : str; command : str;
  block_on_failure : bool; feedback : bool; timeout_secs : N }.

(** [disabled_by]: the value of [WHYCODES_HOOKS_DISABLED], if set. *)
Definition disabled_by (value : option str) : bool :=
  match value with Some v => (v != []) && (v != lit "0") | None => false end.

Record HookContext := mkCtx {
  ctx_event : HookEvent; tool_name : str; tool_id : str; tool_input : str; ctx_session : option str; working_dir : str;
  tool_is_error : option bool; tool_output : option str; extra_env : list (str * str) }.

Definition OUTPUT_ENV_MAX : nat := Z.to_nat 8192.
Definition truncate_output (s : str) : str :=
  if length s <=? OUTPUT_ENV_MAX then s else take OUTPUT_ENV_MAX s ++ [cLF; 8230]%N ++ lit "[truncated]".
Definition pre (tool_name tool_id tool_input : str) (session : option str) (dir : str) : HookContext :=
  mkCtx PreTool tool_name tool_id tool_input session dir None None [].
Definition post (tool_name tool_id tool_input : str) (session : option str) (dir : str) (is_error : bool) (output : str) : HookContext :=
  mkCtx PostTool tool_name tool_id tool_input session dir (Some is_error) (Some (truncate_output output)) [].
Definition lifecycle (e : HookEvent) (subject : str) (session : option str) (dir : str) : HookContext :=
  mkCtx e subject [] [] session dir None None [].
Definition with_env (c : HookContext) (key value : str) : HookContext :=
  mkCtx (ctx_event c) (tool_name c) (tool_id c) (tool_input c) (ctx_session c) (working_dir c) (tool_is_error c) (tool_output c)
    (extra_env c ++ [(key, truncate_output value)]).
(** [current.event = ...; current.tool_input = ...]. *)
Definition with_input (c : HookContext) (e : HookEvent) (input : str) : HookContext :=
  mkCtx e (tool_name c) (tool_id c) input (ctx_session c) (working_dir c) (tool_is_error c) (tool_output c) (extra_env c).

(** ** Matching *)

Definition star : rchar := 42.
Definition tool_matches (pattern name : str) : bool :=
  let pattern := trim pattern in
  if (pattern == []) || (pattern == [star]) then true
  else
    let exact := pattern == name in
    let by_suffix := match strip_prefix [star] pattern with
                     | Some suffix => if (suffix != []) && negb (contains_char suffix star) then ends_with name suffix else exact
                     | None => exact
                     end in
    match strip_suffix [star] pattern with
    | Some prefix => if (prefix != []) && negb (contains_char prefix star) then starts_with name prefix else by_suffix
    | None => by_suffix
    end.
Definition uses_match (e : HookEvent) : bool := match e with PreTool | PreToolTransform | PostTool | SubagentStop => true | _ => false end.
Definition matching_hooks (hooks : list HookConfig) (e : HookEvent) (name : str) : list HookConfig :=
  List.filter (λ h, (hook_event h == e) && (negb (uses_match e) || tool_matches (tool_match h) name)) hooks.

(** ** What a command is told *)

Section hooks.
Context {Value : Type} `{!Json Value} `{!JsonMake Value}.

Definition get_text (v : Value) (key : string) : list str := match json_get v (lit key) ≫= val_as_str with Some s => [s] | None => [] end.
Definition get_texts (v : Value) (key : string) : list str :=
  match json_get v (lit key) with
  | Some items => match json_view items with JArray vs => omap val_as_str vs | _ => [] end
  | None => []
  end.
Definition push_path (out : list str) (s : str) : list str :=
  let s := trim s in if (s != []) && negb (existsb (λ seen, seen == s) out) then out ++ [s] else out.
Definition path_texts (v : Value) : list str :=
  mjoin (get_text v <$> ["path"; "file_path"; "old_path"; "new_path"]%string) ++ mjoin (get_texts v <$> ["paths"; "files"]%string).
Definition touched_paths (input : str) : list str :=
  match json_from_str input with
  | Some value => foldl push_path [] (path_texts value)
  | None => []
  end.

Definition flag (b : bool) : str := if b then lit "1" else lit "0".
Definition is_tool_event (e : HookEvent) : bool := match e with PreTool | PreToolTransform | PostTool => true | _ => false end.
(** The variables of the command, in the order they are set (a later one wins). *)
Definition hook_env (ctx : HookContext) : list (str * str) :=
  [(lit "WHYCODES_HOOK_EVENT", event_env (ctx_event ctx)); (lit "WHYCODES_WORKING_DIR", working_dir ctx); (lit "WHYCODES_HOOKS_DISABLED", lit "1")]
  ++ extra_env ctx
  ++ (if is_tool_event (ctx_event ctx) then
        [(lit "WHYCODES_TOOL_NAME", tool_name ctx); (lit "WHYCODES_TOOL_ID", tool_id ctx); (lit "WHYCODES_TOOL_INPUT", tool_input ctx)]
        ++ (let touched := touched_paths (tool_input ctx) in
            if touched is [] then [] else [(lit "WHYCODES_HOOK_TOUCHED_PATHS", join [cLF] touched)])
      else [])
  ++ match ctx_session ctx with Some sid => [(lit "WHYCODES_SESSION_ID", sid)] | None => [] end
  ++ match tool_is_error ctx with Some e => [(lit "WHYCODES_TOOL_IS_ERROR", flag e)] | None => [] end
  ++ match tool_output ctx with Some out => [(lit "WHYCODES_TOOL_OUTPUT", out)] | None => [] end.

(** ** Running *)

Record HookRunResult := mkRun { exit_code : Z; stdout : str; stderr : str; timed_out : bool }.
(** How the process of a hook ends, and the class of worlds that run them: the shell is
    given the command, the directory, the variables and the limit in seconds. *)
Inductive process_end :=
| SpawnFailed (e : str)
| WaitFailed (e : str)
| Elapsed
| Exited (code : option Z) (out err : list N).
Context {World : Type} (run_command : str → str → list (str * str) → N → World → process_end * World).

Definition success (r : HookRunResult) : bool := negb (timed_out r) && (exit_code r =? 0)%Z.
Definition hook_timeout_result (secs : N) : HookRunResult :=
  mkRun (-1) [] (lit "hook timed out after " ++ digits (N.max secs 1) ++ lit "s") true.
Definition run_hook (hook : HookConfig) (ctx : HookContext) (w : World) : HookRunResult * World :=
  let '(e, w) := run_command (command hook) (working_dir ctx) (hook_env ctx) (N.max (timeout_secs hook) 1) w in
  (match e with
   | SpawnFailed e => mkRun (-1) [] (lit "failed to spawn hook: " ++ e) false
   | WaitFailed e => mkRun (-1) [] (lit "hook wait failed: " ++ e) false
   | Elapsed => hook_timeout_result (timeout_secs hook)
   | Exited code out err => mkRun (default (-1)%Z code) (from_utf8_lossy out) (from_utf8_lossy err) false
   end, w).

Definition print_z (z : Z) : str := (if (z <? 0)%Z then lit "-" else []) ++ digits (Z.abs_N z).
Definition format_failure (hook : HookConfig) (r : HookRunResult) : str :=
  if timed_out r then lit "timed out after " ++ digits (N.max (timeout_secs hook) 1) ++ lit "s"
  else
    let err := trim (stderr r) in
    let out := trim (stdout r) in
    join (lit ": ")
      ([lit "exit " ++ print_z (exit_code r)] ++ (if err != [] then [take 200 err] else [])
       ++ (if (out != []) && (err == []) then [take 200 out] else [])).

Record HookOutcome := mkOutcome { block : option str; said : list str }.
Definition feedback_text (o : HookOutcome) : option str := if said o is [] then None else Some (join [cLF; cLF] (said o)).
Definition speaks (e : HookEvent) : bool := match e with PostTool | SessionStart | UserPromptSubmit => true | _ => false end.
Definition blank_command (h : HookConfig) : bool := trim (command h) == [].

(** The loop of [run_hooks_unless] over the matching hooks. *)
Fixpoint run_matching (hooks : list HookConfig) (ctx : HookContext) (out : list str) (w : World) : HookOutcome * World :=
  match hooks with
  | [] => (mkOutcome None out, w)
  | hook :: hooks =>
      if blank_command hook then run_matching hooks ctx out w
      else
        let '(result, w) := run_hook hook ctx w in
        if success result then
          let text := trim (stdout result) in
          run_matching hooks ctx (if feedback hook && speaks (ctx_event ctx) && (text != []) then out ++ [truncate_output text] else out) w
        else if block_on_failure hook && can_block (ctx_event ctx)
        then (mkOutcome (Some (format_failure hook result)) out, w)
        else run_matching hooks ctx out w
  end.
Definition run_hooks_unless (disabled : bool) (hooks : list HookConfig) (ctx : HookContext) (w : World) : HookOutcome * World :=
  if disabled then (mkOutcome None [], w)
  else run_matching (matching_hooks hooks (ctx_event ctx) (tool_name ctx)) ctx [] w.

(** [None]: no hook gave an input. *)
Fixpoint transform_matching (hooks : list HookConfig) (current : HookContext) (transformed : option Value) (w : World) : option Value * World :=
  match hooks with
  | [] => (transformed, w)
  | hook :: hooks =>
      if blank_command hook then transform_matching hooks current transformed w
      else
        let '(result, w) := run_hook hook current w in
        let out := trim (stdout result) in
        if negb (success result) || (out == []) then transform_matching hooks current transformed w
        else
          match json_from_str out with
          | Some value =>
              match json_view value with
              | JObject _ => transform_matching hooks (with_input current PreToolTransform (json_to_string value)) (Some value) w
              | _ => transform_matching hooks current transformed w
              end
          | None => transform_matching hooks current transformed w
          end
  end.
Definition run_transform_hooks_unless (disabled : bool) (hooks : list HookConfig) (ctx : HookContext) (w : World) : option Value * World :=
  if disabled then (None, w)
  else transform_matching (matching_hooks hooks PreToolTransform (tool_name ctx)) (with_input ctx PreToolTransform (tool_input ctx)) None w.

Definition run_pre_hooks (disabled : bool) (hooks : list HookConfig) (ctx : HookContext) (w : World) : PreHookDecision * World :=
  let '(o, w) := run_hooks_unless disabled hooks ctx w in
  (match block o with
   | None => HookAllow
   | Some detail => HookBlock (lit "pre_tool hook blocked " ++ quoted (tool_name ctx) ++ lit ": " ++ detail)
   end, w).
Definition run_post_hooks (disabled : bool) (hooks : list HookConfig) (ctx : HookContext) (w : World) : option str * World :=
  let '(o, w) := run_hooks_unless disabled hooks ctx w in (feedback_text o, w).
End hooks.

(** ** Matching, characterised *)

Lemma tool_matches_spec (pattern name : str) :
  tool_matches pattern name = true ↔
    let q := trim pattern in
    q = [] ∨ q = [star] ∨ name = q ∨
    (∃ a r, a ≠ [] ∧ star ∉ a ∧ q = a ++ [star] ∧ name = a ++ r) ∨
    (∃ a r, a ≠ [] ∧ star ∉ a ∧ q = star :: a ∧ name = r ++ a).
Proof.
  unfold tool_matches. cbv zeta. set (q := trim pattern). clearbody q.
  destruct (base.decide (q = [])) as [->|Hn]; [split; auto|]. destruct (base.decide (q = [star])) as [->|Hs]; [split; auto|].
  rewrite !bool_decide_eq_false_2 by done. cbn [orb].
  assert (Hsuf : (match strip_prefix [star] q with
                  | Some suffix => if (suffix != []) && negb (contains_char suffix star) then ends_with name suffix else q == name
                  | None => q == name end) = true ↔
                 name = q ∨ ∃ a r, a ≠ [] ∧ star ∉ a ∧ q = star :: a ∧ name = r ++ a).
  { destruct (strip_prefix [star] q) as [a|] eqn:E.
    - apply strip_prefix_Some in E. cbn in E. destruct ((a != []) && negb (contains_char a star)) eqn:Ec.
      + apply andb_true_iff in Ec as [H1 H2]. apply negb_true_iff, bool_decide_eq_false in H1. apply negb_true_iff, contains_char_false in H2.
        rewrite ends_with_true. split; [intros [r ->]; right; by exists a, r|]. intros [->|(a' & r & _ & _ & E' & ->)]; [by exists [star]|].
        rewrite E in E'. injection E' as <-. by exists r.
      + rewrite bool_decide_eq_true. split; [intros ->; by left|]. intros [->|(a' & r & H1 & H2 & E' & _)]; [done|]. exfalso.
        rewrite E in E'. injection E' as <-. apply contains_char_false in H2. rewrite H2, bool_decide_eq_false_2 in Ec by done. done.
    - rewrite bool_decide_eq_true. split; [intros ->; by left|]. intros [->|(a & r & _ & _ & E' & _)]; [done|].
      rewrite E' in E. cbn in E. done. }
  destruct (strip_suffix [star] q) as [a|] eqn:E.
  - apply strip_suffix_Some in E. destruct ((a != []) && negb (contains_char a star)) eqn:Ec.
    + apply andb_true_iff in Ec as [H1 H2]. apply negb_true_iff, bool_decide_eq_false in H1. apply negb_true_iff, contains_char_false in H2.
      rewrite starts_with_true. split; [intros [r ->]; do 3 right; left; by exists a, r|].
      intros [?|[?|[->|[(a' & r & _ & _ & E' & ->)|(a' & r & Ha' & Hn' & E' & ->)]]]]; [done|done|by exists [star]| |].
      * rewrite E in E'. apply app_inj_tail in E' as [<- _]. by exists r.
      * exfalso. apply H2. rewrite E in E'. destruct a as [|c a]; [done|]. injection E' as -> _. by left.
    + rewrite Hsuf. split; [intros [?|?]; auto|]. intros [?|[?|[?|[(a' & r & H1 & H2 & E' & _)|?]]]]; auto; [done|done|]. exfalso.
      rewrite E in E'. apply app_inj_tail in E' as [<- _]. apply contains_char_false in H2. rewrite H2, bool_decide_eq_false_2 in Ec by done. done.
  - rewrite Hsuf. split; [intros [?|?]; auto|]. intros [?|[?|[?|[(a' & r & _ & _ & E' & _)|?]]]]; auto; [done|done|]. exfalso.
    assert (strip_suffix [star] q = Some a') by by apply strip_suffix_Some. congruence.
Qed.

Section facts.
Context {Value : Type} `{!Json Value} `{!JsonMake Value}.
Context {World : Type} (run_command : str → str → list (str * str) → N → World → process_end * World).
Notation run_hook := (run_hook run_command).

(** *** Paths *)

Lemma push_paths_spec texts out : NoDup out → NoDup (foldl push_path out texts) ∧
  ∀ p, p ∈ foldl push_path out texts ↔ p ∈ out ∨ (p ≠ [] ∧ ∃ s, s ∈ texts ∧ p = trim s).
Proof.
  revert out. induction texts as [|s texts IH]; intros out Hnd; cbn [foldl].
  - split; [done|]. intros p. split; [by left|]. intros [?|(_ & s & Hs & _)]; [done|]. by apply elem_of_nil in Hs.
  - assert (Hp : NoDup (push_path out s) ∧ ∀ p, p ∈ push_path out s ↔ p ∈ out ∨ (p ≠ [] ∧ p = trim s)).
    { unfold push_path. destruct ((trim s != []) && negb (existsb (λ seen, seen == trim s) out)) eqn:Ec.
      - apply andb_true_iff in Ec as [H1 H2]. apply negb_true_iff, bool_decide_eq_false in H1. apply negb_true_iff in H2. rewrite existsb_false_iff in H2.
        assert (Hni : trim s ∉ out). { intros Hin. apply H2 in Hin. by rewrite bool_decide_eq_true_2 in Hin. }
        split; [apply NoDup_app; split_and!; [done|by intros x Hx ->%list_elem_of_singleton|apply NoDup_singleton]|].
        intros p. rewrite elem_of_app, list_elem_of_singleton. split; [intros [?| ->]; [by left|by right]|intros [?|[_ ->]]; [by left|by right]].
      - split; [done|]. intros p. split; [by left|]. intros [?|[Hne ->]]; [done|].
        rewrite bool_decide_eq_false_2 in Ec by done. cbn in Ec. apply negb_false_iff in Ec. rewrite existsb_true_iff in Ec. destruct Ec as (x & Hx & Ex).
        apply bool_decide_eq_true in Ex as ->. done. }
    destruct Hp as [Hnd' Hp]. destruct (IH _ Hnd') as [Hn Hi]. split; [done|]. intros p. rewrite Hi, Hp. 
    split.
    + intros [[?|[? ->]]|(? & x & ? & ->)]; [by left|right|right].
      * split; [done|]. exists s. split; [by left|done].
      * split; [done|]. exists x. split; [by right|done].
    + intros [?|(? & x & [->|?]%elem_of_cons & ->)]; [by left; left|by left; right|]. right. split; [done|]. by exists x.
Qed.

(** *** What ran *)

Inductive ran (ctx : HookContext) : World → list (HookConfig * HookRunResult) → World → Prop :=
| ran_nil w : ran ctx w [] w
| ran_cons h r w w1 log w2 : run_hook h ctx w = (r, w1) → ran ctx w1 log w2 → ran ctx w ((h, r) :: log) w2.
Definition blocks (ctx : HookContext) (h : HookConfig) (r : HookRunResult) : bool :=
  negb (success r) && block_on_failure h && can_block (ctx_event ctx).
Definition says (ctx : HookContext) (hr : HookConfig * HookRunResult) : option str :=
  if success hr.2 && feedback hr.1 && speaks (ctx_event ctx) && (trim (stdout hr.2) != []) then Some (truncate_output (trim (stdout hr.2))) else None.
Definition runnable (hooks : list HookConfig) (ctx : HookContext) : list HookConfig :=
  List.filter (λ h, negb (blank_command h)) (matching_hooks hooks (ctx_event ctx) (tool_name ctx)).

Lemma run_matching_spec ctx hooks : ∀ out w o w', run_matching run_command hooks ctx out w = (o, w') →
  ∃ log, ran ctx w log w' ∧ said o = out ++ omap (says ctx) log ∧
    match block o with
    | None => log.*1 = List.filter (λ h, negb (blank_command h)) hooks ∧ Forall (λ hr, blocks ctx hr.1 hr.2 = false) log
    | Some d => ∃ before h r after, log = before ++ [(h, r)] ∧ Forall (λ hr, blocks ctx hr.1 hr.2 = false) before ∧
        blocks ctx h r = true ∧ d = format_failure h r ∧ List.filter (λ h, negb (blank_command h)) hooks = before.*1 ++ h :: after
    end.
Proof.
  induction hooks as [|h hooks IH]; intros out w o w'; cbn [run_matching List.filter].
  { intros [= <- <-]. exists []. split_and!; [apply ran_nil|by rewrite app_nil_r|by split; [|constructor]]. }
  destruct (blank_command h) eqn:Eb; cbn [negb]; [apply IH|].
  destruct (run_hook h ctx w) as [r w1] eqn:Er.
  assert (Hgo : ∀ out', blocks ctx h r = false → out' = out ++ omap (says ctx) [(h, r)] →
    run_matching run_command hooks ctx out' w1 = (o, w') → ∃ log, ran ctx w log w' ∧ said o = out ++ omap (says ctx) log ∧
    match block o with
    | None => log.*1 = h :: List.filter (λ h, negb (blank_command h)) hooks ∧ Forall (λ hr, blocks ctx hr.1 hr.2 = false) log
    | Some d => ∃ before h0 r0 after, log = before ++ [(h0, r0)] ∧ Forall (λ hr, blocks ctx hr.1 hr.2 = false) before ∧
        blocks ctx h0 r0 = true ∧ d = format_failure h0 r0 ∧ h :: List.filter (λ h, negb (blank_command h)) hooks = before.*1 ++ h0 :: after
    end).
  { intros out' Hb -> Hrun. destruct (IH _ _ _ _ Hrun) as (log & Hran & Hsaid & Hblk). exists ((h, r) :: log).
    split; [by econstructor|]. split; [rewrite Hsaid, <- app_assoc; f_equal; cbn; by destruct (says ctx (h, r))|].
    destruct (block o).
    - destruct Hblk as (before & h0 & r0 & after & -> & Hf & Hb0 & -> & E). exists ((h, r) :: before), h0, r0, after.
      split_and!; [done|by constructor|done|done|by rewrite E].
    - destruct Hblk as [<- Hf]. split; [done|by constructor]. }
  destruct (success r) eqn:Es.
  - apply Hgo; [unfold blocks; by rewrite Es|]. cbn. unfold says. cbn [fst snd]. rewrite Es. cbn [andb]. destruct (feedback h && _ && _); [done|by rewrite app_nil_r].
  - destruct (block_on_failure h && can_block (ctx_event ctx)) eqn:Ebl.
    + intros [= <- <-]. exists [(h, r)]. split; [by econstructor; [|constructor]|]. split.
      * cbn. unfold says. cbn [fst snd]. rewrite Es. by rewrite app_nil_r.
      * exists [], h, r, (List.filter (λ h, negb (blank_command h)) hooks). split_and!; [done|constructor| |done|done].
        unfold blocks. rewrite Es. exact Ebl.
    + apply Hgo; [unfold blocks; rewrite Es; exact Ebl|]. cbn. unfold says. cbn [fst snd]. rewrite Es. by rewrite app_nil_r.
Qed.

(** C32: before a tool call the hooks whose event and pattern match run in the order of
    the configuration, each knowing the call and none with an empty command; the call is
    blocked exactly when one of them fails (or times out) that is set to block, the ones
    behind it do not run, and the reason names that failure; a failing hook that is not
    set to block, and any hook when hooks are disabled, cannot block. *)
Theorem pre_hooks_block (disabled : bool) (hooks : list HookConfig) (name id inp : str) (session : option str) (dir : str) (w : World) :
  let ctx := pre name id inp session dir in
  let '(d, w') := run_pre_hooks run_command disabled hooks ctx w in
  ∃ log, ran ctx w log w' ∧
    (∀ h, h ∈ log.*1 → hook_event h = PreTool ∧ tool_matches (tool_match h) name = true ∧ blank_command h = false) ∧
    match d with
    | HookAllow => log.*1 = (if disabled then [] else runnable hooks ctx) ∧
        Forall (λ hr, success hr.2 = true ∨ block_on_failure hr.1 = false) log
    | HookBlock reason => disabled = false ∧ ∃ before h r after, log = before ++ [(h, r)] ∧
        runnable hooks ctx = before.*1 ++ h :: after ∧
        Forall (λ hr, success hr.2 = true ∨ block_on_failure hr.1 = false) before ∧
        success r = false ∧ block_on_failure h = true ∧
        reason = lit "pre_tool hook blocked " ++ quoted name ++ lit ": " ++ format_failure h r
    end.
Proof.
  cbv zeta. unfold run_pre_hooks. destruct (run_hooks_unless run_command disabled hooks (pre name id inp session dir) w) as [o w'] eqn:E.
  unfold run_hooks_unless in E. destruct disabled.
  { injection E as <- <-. exists []. split_and!; [apply ran_nil|by intros h ?%elem_of_nil|by split; [|constructor]]. }
  destruct (run_matching_spec _ _ _ _ _ _ E) as (log & Hran & _ & Hb). exists log. split; [done|].
  assert (Hnb : ∀ l, Forall (λ hr, blocks (pre name id inp session dir) hr.1 hr.2 = false) l → Forall (λ hr, success hr.2 = true ∨ block_on_failure hr.1 = false) l).
  { intros l Hl. eapply Forall_impl; [exact Hl|]. intros [h r]. unfold blocks. cbn. destruct (success r), (block_on_failure h); auto. }
  assert (Hin : ∀ h, h ∈ runnable hooks (pre name id inp session dir) →
    hook_event h = PreTool ∧ tool_matches (tool_match h) name = true ∧ blank_command h = false).
  { intros h. unfold runnable, matching_hooks. rewrite list_elem_of_In, !List.filter_In. cbn. rewrite andb_true_iff, bool_decide_eq_true, negb_true_iff. tauto. }
  destruct (block o) as [d|].
  - destruct Hb as (before & h & r & after & -> & Hf & Hbl & -> & Er). fold (runnable hooks (pre name id inp session dir)) in Er. split.
    + intros h' Hh'. apply Hin. rewrite Er. rewrite fmap_app in Hh'. cbn in Hh'. set_solver.
    + split; [done|]. exists before, h, r, after. unfold blocks in Hbl. rewrite !andb_true_iff, negb_true_iff in Hbl.
      split_and!; [done|done|by apply Hnb|tauto|tauto|done].
  - destruct Hb as [Hl Hf]. split; [intros h'; rewrite Hl; apply Hin|]. split; [exact Hl|by apply Hnb].
Qed.
End facts.
