(* ===== verification/Thinking.v ===== *)
(** Thinking blocks out of a stream ([agent/src/thinking_acc.rs]). *)

From S2P Require Import Prelude RustStr Bytes Messages Harmony.

Section thinking.
Context {Value ImageSource : Type}.
Notation ContentBlock := (ContentBlock Value ImageSource).

(** ** The accumulator *)

Record OpenThinking := mkOpen { open_text : str; open_signature : option str }.
Record ThinkingAccumulator := mkAcc { open : option OpenThinking; closed : list ContentBlock }.
Definition new_accumulator : ThinkingAccumulator := mkAcc None [].

Definition push_text (text : str) (self : ThinkingAccumulator) : ThinkingAccumulator :=
  if text == [] then self
  else match open self with
       | Some o =>
           let grown := if negb (open_text o == []) && starts_with text (open_text o)
                        then open_text o ++ drop (length (open_text o)) text
                        else open_text o ++ text in
           mkAcc (Some (mkOpen grown (open_signature o))) (closed self)
       | None => mkAcc (Some (mkOpen text None)) (closed self)
       end.
Definition push_signature (signature : str) (self : ThinkingAccumulator) : ThinkingAccumulator :=
  if signature == [] then self
  else mkAcc (Some (mkOpen (default [] (open_text <$> open self)) (Some signature))) (closed self).
Definition flush (self : ThinkingAccumulator) : ThinkingAccumulator :=
  match open self with
  | Some o =>
      mkAcc None (if negb (open_text o == []) || bool_decide (is_Some (open_signature o))
                  then closed self ++ [BThinking (open_text o) (open_signature o)] else closed self)
  | None => self
  end.
Definition push_redacted (data : str) (self : ThinkingAccumulator) : ThinkingAccumulator :=
  let self := flush self in
  if data == [] then self else mkAcc (open self) (closed self ++ [BRedactedThinking data]).
Definition into_blocks (self : ThinkingAccumulator) : list ContentBlock := closed (flush self).

(** Scanning can panic, see [Harmony]. *)
Fixpoint leak_in (blocks : list ContentBlock) : option (option Hit) :=
  match blocks with
  | [] => Some None
  | BThinking text _ :: rest =>
      hit ← scan_text text;
      match hit with Some h => Some (Some h) | None => leak_in rest end
  | _ :: rest => leak_in rest
  end.
Definition harmony_leak (self : ThinkingAccumulator) : option (option Hit) :=
  hit ← leak_in (closed self);
  match hit, open self with
  | Some h, _ => Some (Some h)
  | None, Some o => scan_text (open_text o)
  | None, None => Some None
  end.

(** ** What a provider sends *)

(** The events the turn loop hands the accumulator. [TFlush] is the start of a
    text or a tool call. *)
Inductive ThinkingEvent := TText (text : str) | TSignature (signature : str) | TRedacted (data : str) | TFlush.
Definition on_event (self : ThinkingAccumulator) (e : ThinkingEvent) : ThinkingAccumulator :=
  match e with
  | TText text => push_text text self
  | TSignature s => push_signature s self
  | TRedacted data => push_redacted data self
  | TFlush => flush self
  end.

(** A thought arrives as increments or as ever longer snapshots of its text. *)
Inductive Delivery := Increments (pieces : list str) | Snapshots (texts : list str).
Definition delivered (d : Delivery) : str :=
  match d with Increments ps => concat ps | Snapshots ts => default [] (last ts) end.
Definition pieces (d : Delivery) : list str := match d with Increments ps => ps | Snapshots ts => ts end.

(** No increment repeats all that came before it; a snapshot extends the last. *)
Fixpoint fresh_after (sofar : str) (ps : list str) : Prop :=
  match ps with
  | [] => True
  | p :: r => (sofar ≠ [] → starts_with p sofar = false) ∧ fresh_after (sofar ++ p) r
  end.
Fixpoint growing (sofar : str) (ts : list str) : Prop :=
  match ts with [] => True | t :: r => t ≠ [] ∧ starts_with t sofar = true ∧ growing t r end.
Definition deliverable (d : Delivery) : Prop :=
  match d with Increments ps => fresh_after [] ps | Snapshots ts => growing [] ts end.

Inductive Thought := Shown (d : Delivery) (signature : str) | Hidden (data : str).
(** An empty signature is none. *)
Definition block_of (t : Thought) : ContentBlock :=
  match t with
  | Shown d s => BThinking (delivered d) (if s == [] then None else Some s)
  | Hidden data => BRedactedThinking data
  end.
Definition events_of (t : Thought) : list ThinkingEvent :=
  match t with
  | Shown d s => (TText <$> pieces d) ++ [TSignature s; TFlush]
  | Hidden data => [TRedacted data]
  end.
Definition sendable (t : Thought) : Prop :=
  match t with Shown d s => deliverable d ∧ (delivered d ≠ [] ∨ s ≠ []) | Hidden data => data ≠ [] end.

(** ** What is kept *)

(** The accumulator in the middle of a thought of which [t] has arrived. *)
Definition holding (t : str) (blocks : list ContentBlock) : ThinkingAccumulator :=
  mkAcc (if t == [] then None else Some (mkOpen t None)) blocks.

Lemma push_increment t p blocks :
  (t ≠ [] → starts_with p t = false) → push_text p (holding t blocks) = holding (t ++ p) blocks.
Proof.
  intros Hp. unfold push_text, holding. destruct p as [|c p]; [by rewrite app_nil_r|].
  destruct t as [|b t]; [done|]. specialize (Hp ltac:(done)). cbn. by rewrite Hp.
Qed.
Lemma push_snapshot t p blocks : p ≠ [] → starts_with p t = true → push_text p (holding t blocks) = holding p blocks.
Proof.
  intros Hp (r & ->)%starts_with_true. unfold push_text, holding.
  destruct t as [|b t]; cbn [open open_text open_signature closed app].
  - destruct r; done.
  - pose proof (starts_with_app (b :: t) r) as E. cbn in *. by rewrite E, drop_app_length.
Qed.
Lemma run_increments ps : ∀ t blocks, fresh_after t ps →
  foldl on_event (holding t blocks) (TText <$> ps) = holding (t ++ concat ps) blocks.
Proof.
  induction ps as [|p ps IH]; intros t blocks; cbn; [by rewrite app_nil_r|]. intros [Hp Hr].
  rewrite push_increment, IH by done. by rewrite <- app_assoc.
Qed.
Lemma run_snapshots ts : ∀ t blocks, growing t ts →
  foldl on_event (holding t blocks) (TText <$> ts) = holding (default t (last ts)) blocks.
Proof.
  induction ts as [|p ts IH]; intros t blocks; cbn [fmap list_fmap foldl growing on_event]; [done|]. intros (Hn & Hp & Hr).
  rewrite push_snapshot, IH by done. rewrite last_cons. by destruct (last ts).
Qed.
Lemma run_delivery d blocks : deliverable d →
  foldl on_event (mkAcc None blocks) (TText <$> pieces d) = holding (delivered d) blocks.
Proof.
  destruct d as [ps|ts]; intros Hd; cbn [pieces delivered].
  - apply (run_increments ps []). done.
  - apply (run_snapshots ts []). done.
Qed.
Lemma run_thought t blocks : sendable t →
  foldl on_event (mkAcc None blocks) (events_of t) = mkAcc None (blocks ++ [block_of t]).
Proof.
  destruct t as [d s|data]; cbn [sendable events_of block_of].
  - intros [Hd Hn]. rewrite foldl_app, run_delivery by done. cbn [foldl on_event].
    unfold push_signature, holding, flush.
    destruct s as [|c s], (delivered d) as [|b t]; cbn; try done. by destruct Hn.
  - destruct data; done.
Qed.
Lemma run_thoughts ts : ∀ blocks, Forall sendable ts →
  foldl on_event (mkAcc None blocks) (ts ≫= events_of) = mkAcc None (blocks ++ (block_of <$> ts)).
Proof.
  induction ts as [|t ts IH]; intros blocks; [by rewrite app_nil_r|]. intros [Ht Hts]%Forall_cons.
  rewrite bind_cons, foldl_app, run_thought, IH by done. by rewrite <- app_assoc.
Qed.

(** Thoughts survive streaming, so that a signed thought is sent back
    exactly as the provider signed it: whatever the thoughts of a response, each in
    increments or as growing snapshots, signed or not, or redacted, the blocks kept
    for the transcript are those thoughts, in order, each once, with their
    signatures. (An increment must not repeat all the text so far: see
    [repeated_increment_lost].) *)
Theorem thoughts_arrive (ts : list Thought) :
  Forall sendable ts → into_blocks (foldl on_event new_accumulator (ts ≫= events_of)) = block_of <$> ts.
Proof. intros Hts. unfold new_accumulator. by rewrite run_thoughts. Qed.
End thinking.

Definition three_thoughts : list Thought :=
  [Shown (Increments [lit "let "; lit "me"]) (lit "sig"); Hidden (lit "xyz"); Shown (Snapshots [lit "a"; lit "ab"]) []].
Lemma thoughts_arrive_witness :
  Forall sendable three_thoughts ∧
  into_blocks (Value := unit) (ImageSource := unit) (foldl on_event new_accumulator (three_thoughts ≫= events_of))
    = [BThinking (lit "let me") (Some (lit "sig")); BRedactedThinking (lit "xyz"); BThinking (lit "ab") None].
Proof.
  assert (Forall sendable three_thoughts) as H1.
  { repeat constructor; try discriminate; try (left; discriminate); intros; by vm_compute. }
  split; [exact H1|]. rewrite (thoughts_arrive three_thoughts H1). reflexivity.
Defined.

(** The increments "ha" and "haha" are taken for snapshots: the thought kept is
    "haha", not the "hahaha" that was signed. *)
Example repeated_increment_lost :
  into_blocks (Value := unit) (ImageSource := unit)
    (foldl on_event new_accumulator [TText (lit "ha"); TText (lit "haha"); TSignature (lit "sig"); TFlush])
  = [BThinking (lit "haha") (Some (lit "sig"))].
Proof. vm_compute. reflexivity. Qed.
