(* ===== verification/StreamRules.v ===== *)
(** Stream rules: their settings and rule files ([config/src/types.rs],
    [config/src/stream_rules.rs]), compiling and matching them
    ([agent/src/stream_rules.rs]), and the ledger of what fired
    ([session/src/stream_rules.rs]). The [regex] crate is a parameter. *)

From S2P Require Import Prelude RustStr Bytes.

(** ** Settings *)

Inductive StreamRuleScope := ScopeText | ScopeThinking | ScopeToolArgs.
#[global] Instance StreamRuleScope_eq_dec : EqDecision StreamRuleScope.
Proof. solve_decision. Defined.
Inductive StreamRuleRepeat := Once | Always | AfterTurns (n : N).
#[global] Instance StreamRuleRepeat_eq_dec : EqDecision StreamRuleRepeat.
Proof. solve_decision. Defined.

Definition scope_parse (s : str) : option StreamRuleScope :=
  let s := replace_char (to_ascii_lowercase (trim s)) 45 (lit "_") in
  if s == lit "text" then Some ScopeText
  else if s == lit "thinking" then Some ScopeThinking
  else if s == lit "tool_args" then Some ScopeToolArgs
  else None.
Definition scope_str (s : StreamRuleScope) : str :=
  match s with ScopeText => lit "text" | ScopeThinking => lit "thinking" | ScopeToolArgs => lit "tool_args" end.

Definition u32_max : N := 4294967295.
(** [s.split_once([':', '='])]. *)
Definition split_key (s : str) : option (str * str) :=
  let stop c := (c =? 58)%N || (c =? 61)%N in
  match drop_while (λ c, negb (stop c)) s with
  | [] => None
  | _ :: v => Some (take_while (λ c, negb (stop c)) s, v)
  end.
Definition repeat_parse (s : str) : option StreamRuleRepeat :=
  let s := trim (trim_end_matches (N.eqb 125) (trim_start_matches (N.eqb 123) (trim s))) in
  let l := to_ascii_lowercase s in
  if l == lit "once" then Some Once
  else if l == lit "always" then Some Always
  else
    n ← match split_key s with
        | Some (k, v) => if trim k == lit "after_turns" then Some v else None
        | None => Some s
        end;
    AfterTurns <$> parse_uint u32_max (trim n).
(** Whether a rule last fired on [last] may fire on user turn [turn]. *)
Definition allows (r : StreamRuleRepeat) (last : option N) (turn : N) : bool :=
  match r, last with
  | _, None | Always, _ => true
  | Once, Some _ => false
  | AfterTurns n, Some t => (n <=? turn - t)%N
  end.
Definition label (r : StreamRuleRepeat) : str :=
  match r with Once => lit "once" | Always => lit "always" | AfterTurns n => lit "after_turns=" ++ digits n end.

Record StreamRuleConfig := mkRuleConfig {
  cfg_name : str; cfg_pattern : str; cfg_hint : str;
  cfg_scope : list StreamRuleScope; cfg_tools : list str; cfg_repeat : StreamRuleRepeat }.
Definition default_config : StreamRuleConfig := mkRuleConfig [] [] [] [] [] Always.
Definition cfg_scopes (r : StreamRuleConfig) : list StreamRuleScope :=
  match cfg_scope r with [] => [ScopeText] | s => s end.

(** ** Rule files *)

Fixpoint unescape (s : str) : str :=
  match s with
  | [] => []
  | c :: r =>
      if negb (c =? cBS)%N then c :: unescape r
      else match r with
           | [] => [cBS]
           | n :: r' => if (n =? cBS)%N || (n =? cDQ)%N then n :: unescape r' else cBS :: n :: unescape r'
           end
  end.
(** [s.strip_prefix(q).and_then(|s| s.strip_suffix(q))]. *)
Definition inside_quotes (q : rchar) (v : str) : option str := strip_prefix [q] v ≫= strip_suffix [q].
Definition unquote (value : str) : str :=
  let v := trim value in
  match inside_quotes cSQ v with
  | Some inner => replace inner [cSQ; cSQ] [cSQ]
  | None => match inside_quotes cDQ v with Some inner => unescape inner | None => v end
  end.
(** [[a, "b"]] or a bare [a]. *)
Definition list_items (value : str) : list str :=
  let inner := trim_end_matches (N.eqb 93) (trim_start_matches (N.eqb 91) (trim value)) in
  filter (λ s, s ≠ []) (unquote <$> split_on (N.eqb 44) inner).

Definition set_scope (r : StreamRuleConfig) (s : list StreamRuleScope) : StreamRuleConfig :=
  mkRuleConfig (cfg_name r) (cfg_pattern r) (cfg_hint r) s (cfg_tools r) (cfg_repeat r).
Definition set_tools (r : StreamRuleConfig) (t : list str) : StreamRuleConfig :=
  mkRuleConfig (cfg_name r) (cfg_pattern r) (cfg_hint r) (cfg_scope r) t (cfg_repeat r).
Definition apply_key (rule : StreamRuleConfig) (key value : str) (append : bool) : StreamRuleConfig :=
  if value == [] then rule
  else if key == lit "pattern" then
    mkRuleConfig (cfg_name rule) (unquote value) (cfg_hint rule) (cfg_scope rule) (cfg_tools rule) (cfg_repeat rule)
  else if key == lit "name" then
    mkRuleConfig (unquote value) (cfg_pattern rule) (cfg_hint rule) (cfg_scope rule) (cfg_tools rule) (cfg_repeat rule)
  else if key == lit "scope" then
    set_scope rule ((if append then cfg_scope rule else []) ++ omap scope_parse (list_items value))
  else if key == lit "tools" then
    set_tools rule ((if append then cfg_tools rule else []) ++ list_items value)
  else if key == lit "repeat" then
    match repeat_parse value with
    | Some r => mkRuleConfig (cfg_name rule) (cfg_pattern rule) (cfg_hint rule) (cfg_scope rule) (cfg_tools rule) r
    | None => rule
    end
  else rule.
(** One line of the front matter; [list_key] is the key whose block list is read. *)
Definition front_line (st : StreamRuleConfig * str) (line : str) : StreamRuleConfig * str :=
  let '(rule, list_key) := st in
  let trimmed := trim line in
  match strip_prefix (lit "- ") trimmed with
  | Some item => (apply_key rule list_key item true, list_key)
  | None =>
      match split_once trimmed (lit ":") with
      | None => st
      | Some (k, v) => (apply_key rule (trim k) (trim v) false, trim k)
      end
  end.
Definition parse_rule_markdown (stem content : str) : option StreamRuleConfig :=
  rest ← strip_prefix (lit "---") (trim_start (trim_start_matches (N.eqb 65279) content));
  '(front, body) ← split_once rest (cLF :: lit "---");
  let body := match split_once body [cLF] with Some (_, b) => b | None => [] end in
  let rule := mkRuleConfig stem [] (trim body) [] [] Always in
  let rule := (foldl front_line (rule, []) (lines front)).1 in
  if cfg_pattern rule == [] then None else Some rule.

(** [Config::load_stream_rule_files]: a file rule takes the place of the first
    configured rule of its name. *)
Fixpoint replace_rule (rules : list StreamRuleConfig) (rule : StreamRuleConfig) : list StreamRuleConfig :=
  match rules with
  | [] => [rule]
  | r :: rest => if trim (cfg_name r) == cfg_name rule then rule :: rest else r :: replace_rule rest rule
  end.
Definition load_stream_rule_files (rules files : list StreamRuleConfig) : list StreamRuleConfig :=
  foldl replace_rule rules files.

(** ** The ledger *)

Record StreamRuleLedger := mkLedger { turn : N; fired : gmap str N }.
Definition empty_ledger : StreamRuleLedger := mkLedger 0 ∅.
Definition ledger_is_empty (self : StreamRuleLedger) : bool := bool_decide (fired self = ∅).
(** [saturating_add] on [u64]. *)
Definition begin_turn (self : StreamRuleLedger) : StreamRuleLedger := mkLedger (N.min (turn self + 1) u64_max) (fired self).
Definition last_fired (self : StreamRuleLedger) (name : str) : option N := fired self !! name.
Definition record (self : StreamRuleLedger) (name : str) : StreamRuleLedger :=
  mkLedger (turn self) (<[name := turn self]> (fired self)).

(** ** Matching *)

Inductive StreamChannel := ChText | ChThinking | ChToolArgs (tool : str).

Section rules.
Context {Re : Type} (regex_new : str → option Re) (is_match : Re → str → bool).

Record StreamRule := mkRule {
  rule_name : str; re : Re; hint : str; scopes : list StreamRuleScope; tools : list str; repeat : StreamRuleRepeat }.

Definition has_scope (r : StreamRule) (s : StreamRuleScope) : bool := bool_decide (s ∈ scopes r).
Definition watches (r : StreamRule) (channel : StreamChannel) : bool :=
  match channel with
  | ChText => has_scope r ScopeText
  | ChThinking => has_scope r ScopeThinking
  | ChToolArgs tool => has_scope r ScopeToolArgs && ((length (tools r) =? 0) || bool_decide (tool ∈ tools r))
  end.
Definition compile_one (rule : StreamRuleConfig) : option StreamRule :=
  let name := trim (cfg_name rule) in
  let pattern := trim (cfg_pattern rule) in
  let h := trim (cfg_hint rule) in
  if (name == []) || (pattern == []) || (h == []) then None
  else r ← regex_new pattern; Some (mkRule name r h (cfg_scopes rule) (cfg_tools rule) (cfg_repeat rule)).
Definition compile (rules : list StreamRuleConfig) : list StreamRule := omap compile_one rules.
Definition matching (rules : list StreamRule) (channel : StreamChannel) (text : str) : list StreamRule :=
  List.filter (λ r, watches r channel && is_match (re r) text) rules.
Definition may_fire (channel : StreamChannel) (text : str) (ledger : StreamRuleLedger) (r : StreamRule) : bool :=
  watches r channel && allows (repeat r) (last_fired ledger (rule_name r)) (turn ledger) && is_match (re r) text.
Definition first_hit (rules : list StreamRule) (channel : StreamChannel) (text : str) (ledger : StreamRuleLedger) :
    option StreamRule :=
  List.find (may_fire channel text ledger) rules.

(** ** Firing over a session

    A session is a sequence of user turns and drafts; a draft that is hit is
    recorded, as [check_stream_rules] in [turn.rs] does. *)
Inductive Event := EvTurn | EvDraft (channel : StreamChannel) (text : str).
(** The ledger, and what fired so far: the rule, and the turns begun before. *)
Definition step (rules : list StreamRule) (st : StreamRuleLedger * list (nat * StreamRule)) (begun : nat) (e : Event) :
    StreamRuleLedger * list (nat * StreamRule) :=
  match e with
  | EvTurn => (begin_turn st.1, st.2)
  | EvDraft channel text =>
      match first_hit rules channel text st.1 with
      | Some r => (record st.1 (rule_name r), st.2 ++ [(begun, r)])
      | None => st
      end
  end.
Definition begins (e : Event) : nat := match e with EvTurn => 1 | _ => 0 end.
Fixpoint run (rules : list StreamRule) (st : StreamRuleLedger * list (nat * StreamRule)) (begun : nat) (es : list Event) :
    StreamRuleLedger * list (nat * StreamRule) :=
  match es with
  | [] => st
  | e :: es => run rules (step rules st (begun + begins e) e) (begun + begins e) es
  end.

(** What a rule allows between two of its hits, in turns begun in between. *)
Definition respects (r : StreamRuleRepeat) (i j : nat) : Prop :=
  match r with Once => False | Always => True | AfterTurns n => (n ≤ N.of_nat (j - i))%N end.

Record ledger_inv (st : StreamRuleLedger * list (nat * StreamRule)) (begun : nat) : Prop := {
  li_turn : turn st.1 = N.min (N.of_nat begun) u64_max;
  li_log : Forall (λ e, ∃ t, last_fired st.1 (rule_name e.2) = Some t ∧
                        (N.min (N.of_nat e.1) u64_max ≤ t ≤ turn st.1)%N ∧ e.1 ≤ begun) st.2 }.

Lemma record_inv st begun r :
  ledger_inv st begun → ledger_inv (record st.1 (rule_name r), st.2 ++ [(begun, r)]) begun.
Proof.
  intros [Ht Hl]. split; [done|]. cbn [fst snd]. apply Forall_app. split.
  - eapply Forall_impl; [exact Hl|]. intros [a q] (t & Hf & Hb & Ha). cbn [fst snd] in *.
    unfold last_fired, record in *. cbn [fired turn].
    destruct (decide (rule_name r = rule_name q)) as [E|Hne].
    + rewrite E, lookup_insert_eq. exists (turn st.1). split; [done|]. split; [lia|done].
    + rewrite lookup_insert_ne by done. by exists t.
  - constructor; [|constructor]. unfold last_fired, record. cbn [fst snd fired turn]. rewrite lookup_insert_eq.
    exists (turn st.1). split; [done|]. split; lia.
Qed.
Lemma begin_inv st begun : ledger_inv st begun → ledger_inv (begin_turn st.1, st.2) (begun + 1).
Proof.
  intros [Ht Hl]. split; [cbn [fst turn begin_turn]; rewrite Ht; unfold u64_max; lia|].
  eapply Forall_impl; [exact Hl|]. intros [a q] (t & Hf & Hb & Ha). exists t. cbn in *.
  split; [done|]. rewrite Ht in *. unfold u64_max in *. lia.
Qed.
Lemma step_ledger_inv rules st begun e :
  ledger_inv st begun → ledger_inv (step rules st (begun + begins e) e) (begun + begins e).
Proof.
  intros H. destruct e as [|channel text]; cbn [begins step].
  - by apply begin_inv.
  - rewrite Nat.add_0_r. destruct (first_hit rules channel text st.1); [by apply record_inv|done].
Qed.
Lemma hit_allowed rules channel text st r begun a q :
  ledger_inv st begun → first_hit rules channel text st.1 = Some r →
  (a, q) ∈ st.2 → rule_name q = rule_name r → respects (repeat r) a begun.
Proof.
  intros [Ht Hl] Hh Hin Hn. rewrite Forall_forall in Hl. destruct (Hl _ Hin) as (t & Hf & Hb & Ha). cbn [fst snd] in *.
  apply find_some in Hh as [_ Hm]. unfold may_fire in Hm. apply andb_true_iff in Hm as [Hm _].
  apply andb_true_iff in Hm as [_ Hm]. rewrite <- Hn, Hf in Hm. destruct (repeat r) as [| |n]; cbn in *; [done|done|].
  apply N.leb_le in Hm. rewrite Ht in *. unfold u64_max in *. lia.
Qed.

Definition respected (log : list (nat * StreamRule)) : Prop :=
  ∀ i j a b q r, i < j → log !! i = Some (a, q) → log !! j = Some (b, r) → rule_name q = rule_name r →
  respects (repeat r) a b.
Lemma respected_snoc log b r :
  respected log → (∀ a q, (a, q) ∈ log → rule_name q = rule_name r → respects (repeat r) a b) →
  respected (log ++ [(b, r)]).
Proof.
  intros Hr Hn i j a b' q r' Hij Hi Hj Hqr. apply lookup_app_Some in Hj as [Hj|[Hge Hj]].
  - apply (Hr i j a b' q r' Hij); try done. apply lookup_app_Some in Hi as [Hi|[Hge Hi]]; [done|].
    apply lookup_lt_Some in Hj. lia.
  - apply list_lookup_singleton_Some in Hj as [Hj0 [= <- <-]]. apply (Hn a q); [|done].
    apply lookup_app_Some in Hi as [Hi|[Hge' Hi]]; [by apply (list_elem_of_lookup_2 _ i)|].
    apply list_lookup_singleton_Some in Hi as [? _]. lia.
Qed.
Lemma run_respected rules es : ∀ st begun,
  ledger_inv st begun → respected st.2 → respected (run rules st begun es).2.
Proof.
  induction es as [|e es IH]; intros st begun Hi Hr; [done|]. cbn [run]. apply IH; [by apply step_ledger_inv|].
  destruct e as [|channel text]; cbn [step begins]; [done|].
  destruct (first_hit rules channel text st.1) as [r|] eqn:Hh; [|done]. cbn [snd]. rewrite Nat.add_0_r.
  apply respected_snoc; [done|]. intros a q Hin Hn. by apply (hit_allowed rules channel text st r begun a q).
Qed.

(** A rule fires no more often than its [repeat] setting: in a session
    of any turns and drafts, between two hits under one name, if the later one is
    [once] it cannot be, and if it is [after_turns = n] at least [n] user turns have
    begun, also when the turn counter saturates. *)
Theorem hits_respect_repeat (rules : list StreamRule) (es : list Event) :
  respected (run rules (empty_ledger, []) 0 es).2.
Proof.
  apply run_respected.
  - split; [done|constructor].
  - intros i j a b q r _ Hi. done.
Qed.
End rules.

(** ** Rule files round trip *)

Definition squote (s : str) : str := [cSQ] ++ replace_char s cSQ [cSQ; cSQ] ++ [cSQ].
Definition front (r : StreamRuleConfig) : list str :=
  [lit "name: " ++ squote (cfg_name r);
   lit "pattern: " ++ squote (cfg_pattern r);
   lit "scope: [" ++ join (lit ", ") (scope_str <$> cfg_scope r) ++ lit "]";
   lit "tools: [" ++ join (lit ", ") (squote <$> cfg_tools r) ++ lit "]";
   lit "repeat: " ++ label (cfg_repeat r)].
Definition print_rule (r : StreamRuleConfig) : str :=
  lit "---" ++ [cLF] ++ unlines (front r) ++ lit "---" ++ [cLF] ++ cfg_hint r.

(** A setting a file can carry: texts on one line, a trimmed hint, no comma in the
    name of a tool, a repeat count that fits. *)
Definition one_line (s : str) : Prop := Forall (λ c, c ≠ cLF) s.
Definition writable (r : StreamRuleConfig) : Prop :=
  one_line (cfg_name r) ∧ one_line (cfg_pattern r) ∧ cfg_pattern r ≠ [] ∧ trim (cfg_hint r) = cfg_hint r ∧
  Forall (λ t, t ≠ [] ∧ one_line t ∧ Forall (λ c, c ≠ 44%N) t) (cfg_tools r) ∧
  (match cfg_repeat r with AfterTurns n => n ≤ u32_max | _ => True end)%N.

Lemma undouble s : replace (replace_char s cSQ [cSQ; cSQ]) [cSQ; cSQ] [cSQ] = s.
Proof.
  unfold replace, replace_char. induction s as [|c s IH]; [done|].
  rewrite fmap_cons. change (mjoin (?x :: ?l)) with (x ++ mjoin l).
  destruct (N.eqb_spec c cSQ) as [->|Hc].
  - cbn [app replace_go]. change (starts_with (cSQ :: cSQ :: ?r) [cSQ; cSQ]) with (starts_with ([cSQ; cSQ] ++ r) [cSQ; cSQ]).
    rewrite starts_with_app. cbn [length pred app replace_go]. f_equal. exact IH.
  - cbn [app replace_go]. destruct (starts_with _ _) eqn:E; [|f_equal; exact IH].
    apply starts_with_true in E as [r E]. cbn in E. congruence.
Qed.
Lemma strip_suffix_snoc s z : strip_suffix z (s ++ z) = Some s.
Proof. by apply strip_suffix_Some. Qed.
Lemma unquote_squote s : unquote (squote s) = s.
Proof.
  unfold unquote, squote. cbn [app]. rewrite trim_id_ends by done.
  assert (inside_quotes cSQ (cSQ :: replace_char s cSQ [cSQ; cSQ] ++ [cSQ]) = Some (replace_char s cSQ [cSQ; cSQ])) as ->.
  { unfold inside_quotes. set (d := replace_char s cSQ [cSQ; cSQ]).
    assert (strip_prefix [cSQ] (cSQ :: d ++ [cSQ]) = Some (d ++ [cSQ])) as -> by (by apply strip_prefix_Some).
    apply strip_suffix_snoc. }
  apply undouble.
Qed.

(** Items between brackets. *)
Lemma split_join (f : rchar → bool) c (ls : list str) :
  f c = true → f 32%N = false → Forall (Forall (λ x, f x = false)) ls → ls ≠ [] →
  split_on f (join [c; 32%N] ls) = match ls with [] => [] | l :: r => l :: ((cons 32%N) <$> r) end.
Proof.
  intros Hc Hs H Hn. destruct H as [|l ls Hl H]; [done|]. clear Hn. revert l Hl.
  induction H as [|l' ls Hl' _ IH]; intros l Hl; [by apply split_on_none|].
  change (join [c; 32%N] (l :: l' :: ls)) with (l ++ c :: 32%N :: join [c; 32%N] (l' :: ls)).
  rewrite split_on_app by done. cbn [split_on]. rewrite Hs, IH by done. done.
Qed.
Lemma unquote_blank s : unquote (32%N :: s) = unquote s.
Proof. done. Qed.
Lemma brackets m : (∀ a r, m = a :: r → a ≠ 91%N) → (∀ r z, m = r ++ [z] → z ≠ 93%N) →
  trim_end_matches (N.eqb 93) (trim_start_matches (N.eqb 91) (trim (91%N :: m ++ [93%N]))) = m.
Proof.
  intros Ha Hz. rewrite (trim_id_ends 91%N m 93%N) by done.
  unfold trim_start_matches. cbn [drop_while]. replace (N.eqb 91 91) with true by done.
  assert (drop_while (N.eqb 91) (m ++ [93%N]) = m ++ [93%N]) as ->.
  { apply drop_while_id. intros c r E. destruct m as [|a m]; [by injection E as <- _|].
    injection E as <- _. apply N.eqb_neq. specialize (Ha _ _ eq_refl). congruence. }
  unfold trim_end_matches. rewrite rev_app_distr. cbn [rev app drop_while]. replace (N.eqb 93 93) with true by done.
  rewrite drop_while_id; [apply rev_involutive|].
  intros c r E. apply N.eqb_neq. intros <-. apply (f_equal (@rev _)) in E. rewrite rev_involutive in E. cbn in E.
  by apply (Hz _ _ E).
Qed.

(** An item of a list: no comma, and its ends are no brackets. *)
Definition item (l : str) : Prop := Forall (λ c, c ≠ 44%N) l ∧ head l ≠ Some 91%N ∧ last l ≠ Some 93%N ∧ l ≠ [].

Lemma join_head sep (l : str) ls : l ≠ [] → head (join sep (l :: ls)) = head l.
Proof. intros Hl. destruct l as [|c l]; [done|]. by destruct ls. Qed.
Lemma join_end sep ls (l : str) : l ≠ [] → last (join sep (ls ++ [l])) = last l.
Proof.
  intros Hl. induction ls as [|x ls IH]; [done|]. change ((x :: ls) ++ [l]) with (x :: (ls ++ [l])).
  assert (join sep (x :: (ls ++ [l])) = x ++ sep ++ join sep (ls ++ [l])) as ->.
  { cbn [join]. destruct (ls ++ [l]) eqn:E; [by apply app_eq_nil in E as [_ ?]|done]. }
  rewrite !last_app, IH. by destruct (last l) eqn:E; [|apply last_None in E].
Qed.
Lemma list_items_join (ls : list str) :
  Forall item ls → list_items (lit "[" ++ join (lit ", ") ls ++ lit "]") = filter (λ s, s ≠ []) (unquote <$> ls).
Proof.
  intros H. unfold list_items. change (lit "[") with [91%N]. change (lit "]") with [93%N]. cbn [app].
  change (lit ", ") with [44%N; 32%N].
  destruct ls as [|l ls]; [done|]. rewrite brackets.
  - rewrite split_join; [|done|done| |done].
    + by rewrite !fmap_cons, <- list_fmap_compose.
    + eapply Forall_impl; [exact H|]. intros x [Hx _]. eapply Forall_impl; [exact Hx|].
      intros c Hc. apply N.eqb_neq. congruence.
  - intros a r E. apply (f_equal head) in E. apply Forall_cons in H as [(_ & Hh & _ & Hn) _].
    rewrite join_head in E by done. cbn in E. congruence.
  - intros r z E. destruct (exists_last (l := l :: ls) ltac:(done)) as (ls' & l' & E').
    rewrite E' in E, H. apply (f_equal last) in E. apply Forall_app in H as [_ [(_ & _ & Hz & Hn) _]%Forall_cons].
    rewrite join_end, last_snoc in E by done. congruence.
Qed.
Lemma squote_item t : Forall (λ c, c ≠ 44%N) t → item (squote t).
Proof.
  intros Ht. unfold squote, item. split_and!; [|done| |done].
  - apply Forall_app. split; [by constructor|]. apply Forall_app. split; [|by constructor].
    unfold replace_char. induction Ht as [|c t Hc _ IH]; [constructor|]. rewrite fmap_cons.
    apply Forall_app. split; [|exact IH]. destruct (c =? cSQ)%N; repeat constructor; done.
  - by rewrite app_assoc, last_snoc.
Qed.
Lemma tools_back ts : Forall (λ t, t ≠ [] ∧ one_line t ∧ Forall (λ c, c ≠ 44%N) t) ts →
  list_items (lit "[" ++ join (lit ", ") (squote <$> ts) ++ lit "]") = ts.
Proof.
  intros H. rewrite list_items_join.
  - rewrite <- list_fmap_compose. rewrite (list_fmap_ext _ id) by (intros; apply unquote_squote).
    rewrite list_fmap_id. apply list_filter_id. rewrite Forall_forall in H. intros t Ht. by apply H.
  - apply Forall_fmap. eapply Forall_impl; [exact H|]. intros t (_ & _ & Ht). by apply squote_item.
Qed.
Lemma scopes_back ss :
  omap scope_parse (list_items (lit "[" ++ join (lit ", ") (scope_str <$> ss) ++ lit "]")) = ss.
Proof.
  rewrite list_items_join.
  - induction ss as [|s ss IH]; [done|]. rewrite fmap_cons, fmap_cons.
    assert (unquote (scope_str s) = scope_str s) as -> by by destruct s.
    rewrite filter_cons_True by by destruct s. cbn [omap list_omap].
    assert (scope_parse (scope_str s) = Some s) as -> by by destruct s. by rewrite IH.
  - apply Forall_fmap, Forall_forall. intros s _. destruct s; (split_and!; [|done..]);
      apply (bool_decide_eq_true_1 _); vm_compute; reflexivity.
Qed.
Lemma digits_snoc n : ∃ d c, digits n = d ++ [c] ∧ (48 ≤ c ≤ 57)%N.
Proof.
  destruct (exists_last (digits_nonnil n)) as (d & c & E). exists d, c. split; [done|].
  assert (Forall (λ c, (48 ≤ c ≤ 57)%N) (digits n)) as H by by apply digits_forall.
  rewrite E in H. apply Forall_app in H as [_ H]. by apply Forall_cons in H as [H _].
Qed.
Lemma label_trimmed r : ∃ a m z, label r = a :: m ++ [z] ∧ is_whitespace a = false ∧ is_whitespace z = false ∧
  (a ≠ 123 ∧ z ≠ 125 ∧ z ≠ cCR)%N.
Proof.
  destruct r as [| |n].
  - by exists 111%N, (lit "nc"), 101%N.
  - by exists 97%N, (lit "lway"), 115%N.
  - destruct (digits_snoc n) as (d & c & E & Hc). exists 97%N, (lit "fter_turns=" ++ d), c. unfold label. rewrite E.
    split; [done|]. split; [done|]. split; [apply visible_not_whitespace; lia|unfold cCR; lia].
Qed.
Lemma repeat_back r : (match r with AfterTurns n => n ≤ u32_max | _ => True end)%N → repeat_parse (label r) = Some r.
Proof.
  intros Hr. destruct (label_trimmed r) as (a & m & z & E & Ha & Hz & Hb & Hc & _).
  assert (trim (trim_end_matches (N.eqb 125) (trim_start_matches (N.eqb 123) (trim (label r)))) = label r) as Et.
  { rewrite E, trim_id_ends by done. unfold trim_start_matches. cbn [drop_while].
    rewrite (proj2 (N.eqb_neq 123 a)) by done.
    rewrite (trim_end_matches_id _ (a :: m) z) by (by apply N.eqb_neq). by apply trim_id_ends. }
  unfold repeat_parse. rewrite Et. destruct r as [| |n]; [done|done|].
  assert (split_key (label (AfterTurns n)) = Some (lit "after_turns", digits n)) as -> by done.
  assert (to_ascii_lowercase (label (AfterTurns n)) = label (AfterTurns n)) as ->.
  { unfold label, to_ascii_lowercase. rewrite fmap_app. f_equal.
    assert (Forall (λ c, (48 ≤ c ≤ 57)%N) (digits n)) as Hd by by apply digits_forall.
    induction Hd as [|c l Hd _ IH]; [done|]. rewrite fmap_cons, IH. f_equal.
    unfold ascii_lower, is_ascii_upper. by destruct (65 <=? c)%N eqn:El; [apply N.leb_le in El; lia|]. }
  cbn [label]. rewrite bool_decide_eq_false_2 by done. rewrite bool_decide_eq_false_2 by done.
  cbn [mbind option_bind]. rewrite bool_decide_eq_true_2 by done. cbn [mbind option_bind].
  destruct (digits_snoc n) as (d & c & Ed & Hd).
  assert (trim (digits n) = digits n) as ->.
  { apply trim_id, digits_forall. intros x Hx. apply visible_not_whitespace. lia. }
  rewrite parse_uint_digits by done. done.
Qed.

Lemma front_line_step rule lk key v a m z :
  v = a :: m ++ [z] → is_whitespace a = false → is_whitespace z = false →
  is_word key → Forall (λ c, c ≠ 58%N) key → head key ≠ Some 45%N →
  front_line (rule, lk) (key ++ lit ": " ++ v) = (apply_key rule key v false, key).
Proof.
  intros Ev Ha Hz [Hkn Hk] Hc Hd. destruct key as [|k0 key]; [done|]. apply Forall_cons in Hk as Hk'. destruct Hk' as [Hk0 _].
  assert (trim ((k0 :: key) ++ lit ": " ++ v) = (k0 :: key) ++ lit ": " ++ v) as Et.
  { rewrite Ev. change ((k0 :: key) ++ lit ": " ++ a :: m ++ [z]) with (k0 :: key ++ (lit ": " ++ a :: m) ++ [z]).
    rewrite (app_assoc key). by apply trim_id_ends. }
  unfold front_line. rewrite Et. cbn [app]. change (lit "- ") with [45%N; 32%N].
  rewrite strip_prefix_ne by (cbn in Hd; congruence).
  change (k0 :: key ++ lit ": " ++ v) with ((k0 :: key) ++ lit ":" ++ 32%N :: v).
  rewrite (proj2 (split_once_Some _ _ (k0 :: key) (32%N :: v))).
  - rewrite (trim_id (k0 :: key)) by done.
    assert (trim (32%N :: v) = v) as ->; [|done]. change (trim (32%N :: v)) with (trim v). rewrite Ev. by apply trim_id_ends.
  - split; [done|]. intros a' b' E. destruct (le_lt_dec (length (k0 :: key)) (length a')) as [|Hlt]; [done|].
    apply (f_equal (λ l : str, l !! length a')) in E.
    rewrite lookup_app_l, lookup_app_r, Nat.sub_diag in E by done. cbn in E.
    rewrite Forall_forall in Hc. destruct (Hc 58%N); [|done]. by eapply list_elem_of_lookup_2.
Qed.
Lemma front_clean r : writable r → Forall clean_line (front r).
Proof.
  intros (Hn & Hp & _ & _ & Ht & _).
  assert (∀ s, one_line s → one_line (replace_char s cSQ [cSQ; cSQ])) as Hd.
  { intros s Hs. unfold replace_char. induction Hs as [|c s Hc _ IH]; [constructor|]. rewrite fmap_cons.
    apply Forall_app. split; [|exact IH]. destruct (c =? cSQ)%N; repeat constructor; done. }
  assert (∀ ls, Forall one_line ls → one_line (join (lit ", ") ls)) as Hj.
  { induction 1 as [|l ls Hl Hls IH]; [constructor|]. destruct ls as [|l' ls]; [done|].
    change (join (lit ", ") (l :: l' :: ls)) with (l ++ lit ", " ++ join (lit ", ") (l' :: ls)).
    apply Forall_app. split; [done|]. apply Forall_app. split; [|done]. by repeat constructor. }
  assert (∀ l, (∀ c, c ∈ l → c ≠ cLF) → one_line l) as Hl by (intros l; by rewrite <- Forall_forall).
  unfold front. repeat apply Forall_cons_2; [..|constructor]; (split; [repeat apply Forall_app_2|]).
  all: try (apply Hj, Forall_fmap); try (by apply Hd); try (apply (bool_decide_eq_true_1 _); vm_compute; reflexivity).
  all: try (unfold squote; change (lit "]") with [93%N]; rewrite ?app_assoc, last_snoc; done).
  - apply Forall_forall. intros []; intros _; apply (bool_decide_eq_true_1 _); vm_compute; reflexivity.
  - eapply Forall_impl; [exact Ht|]. intros t (_ & H & _). repeat apply Forall_app_2; [by constructor|by apply Hd|by constructor].
  - destruct (cfg_repeat r) as [| |n]; [by repeat constructor..|].
    apply (Forall_app_2 _ (lit "after_turns=") (digits n)); [apply (bool_decide_eq_true_1 _); vm_compute; reflexivity|]. apply digits_forall. unfold cLF. lia.
  - destruct (label_trimmed (cfg_repeat r)) as (a & m & z & -> & _ & _ & _ & _ & Hz).
    rewrite app_comm_cons, app_assoc, last_snoc. congruence.
Qed.

Lemma apply_name rule s : apply_key rule (lit "name") (squote s) false =
  mkRuleConfig s (cfg_pattern rule) (cfg_hint rule) (cfg_scope rule) (cfg_tools rule) (cfg_repeat rule).
Proof. by rewrite <- (unquote_squote s) at 2. Qed.
Lemma apply_pattern rule s : apply_key rule (lit "pattern") (squote s) false =
  mkRuleConfig (cfg_name rule) s (cfg_hint rule) (cfg_scope rule) (cfg_tools rule) (cfg_repeat rule).
Proof. by rewrite <- (unquote_squote s) at 2. Qed.
Lemma apply_scope rule ss :
  apply_key rule (lit "scope") (lit "[" ++ join (lit ", ") (scope_str <$> ss) ++ lit "]") false = set_scope rule ss.
Proof. rewrite <- (scopes_back ss) at 2. done. Qed.
Lemma apply_tools rule ts : Forall (λ t, t ≠ [] ∧ one_line t ∧ Forall (λ c, c ≠ 44%N) t) ts →
  apply_key rule (lit "tools") (lit "[" ++ join (lit ", ") (squote <$> ts) ++ lit "]") false = set_tools rule ts.
Proof. intros H. rewrite <- (tools_back ts H) at 2. done. Qed.
Lemma apply_repeat rule r : (match r with AfterTurns n => n ≤ u32_max | _ => True end)%N →
  apply_key rule (lit "repeat") (label r) false =
  mkRuleConfig (cfg_name rule) (cfg_pattern rule) (cfg_hint rule) (cfg_scope rule) (cfg_tools rule) r.
Proof.
  intros H. destruct (label_trimmed r) as (a & m & z & E & _). pose proof (repeat_back r H) as Hb.
  unfold apply_key. rewrite Hb, bool_decide_eq_false_2 by (rewrite E; done). done.
Qed.

(** Lines, each after a line feed. *)
Definition after_feeds (ls : list str) : str := mjoin (cons cLF <$> ls).
Lemma unlines_after_feeds ls : [cLF] ++ unlines ls = after_feeds ls ++ [cLF].
Proof.
  unfold unlines, after_feeds. induction ls as [|l ls IH]; [done|].
  rewrite !fmap_cons. change (mjoin (?x :: ?y)) with (x ++ mjoin y). cbn in *. rewrite <- !app_assoc. cbn. by rewrite IH.
Qed.
Lemma split_after_feeds ls : Forall one_line ls → split_on (N.eqb cLF) (after_feeds ls) = [] :: ls.
Proof.
  intros H. destruct H as [|l ls Hl H]; [done|]. unfold after_feeds. rewrite fmap_cons.
  change (mjoin (?x :: ?y)) with (x ++ mjoin y). cbn [app split_on]. replace (N.eqb cLF cLF) with true by done. f_equal.
  assert (∀ x, one_line x → Forall (λ c, (cLF =? c)%N = false) x) as Hn.
  { intros x Hx. eapply Forall_impl; [exact Hx|]. intros c Hc. apply N.eqb_neq. congruence. }
  revert l Hl; induction H as [|l' ls Hl' _ IH]; intros l Hl; cbn.
  - rewrite app_nil_r. by apply split_on_none, Hn.
  - rewrite split_on_app; [|by apply Hn|done]. f_equal. by apply IH.
Qed.
Lemma lines_after_feeds ls : Forall clean_line ls → Forall (λ l, l ≠ []) ls → ls ≠ [] →
  lines (after_feeds ls) = [] :: ls.
Proof.
  intros Hc Hn Hls. unfold lines. rewrite split_after_feeds by (eapply Forall_impl; [exact Hc|]; by intros l []).
  cbn [lines_of]. destruct ls as [|l ls]; [done|]. f_equal. clear Hls. revert l Hc Hn.
  induction ls as [|l' ls IH]; intros l Hc Hn; apply Forall_cons in Hc as [[_ Hl] Hc]; apply Forall_cons in Hn as [Hn0 Hn].
  - cbn. by rewrite bool_decide_eq_false_2.
  - change (lines_of (l :: l' :: ls)) with (strip_cr l :: lines_of (l' :: ls)). by rewrite strip_cr_id, IH.
Qed.
Lemma no_marker ls : Forall (λ l, one_line l ∧ head l ≠ Some 45%N ∧ l ≠ []) ls → ∀ t a b,
  after_feeds ls ++ t = a ++ cLF :: 45%N :: b → length (after_feeds ls) ≤ length a.
Proof.
  unfold after_feeds. induction 1 as [|l ls (Hl & Hh & Hn) _ IH]; intros t a b; [cbn; lia|].
  rewrite fmap_cons. change (mjoin (?x :: ?y)) with (x ++ mjoin y). cbn [app]. intros E. destruct a as [|a0 a].
  - injection E as E. destruct l as [|c l]; [done|]. injection E as -> _. done.
  - injection E as _ E. rewrite <- app_assoc in E. apply app_eq_inv in E as [(k & -> & E)|(k & -> & E)]; swap 1 2.
    + apply IH in E. cbn. rewrite !length_app. lia.
    + destruct k as [|c k].
      * symmetry in E. apply (IH t [] b) in E. cbn. rewrite !length_app. cbn in *. lia.
      * injection E as <- _. apply Forall_app in Hl as [_ Hl]. by apply Forall_cons in Hl as [Hl _].
Qed.

(** A rule file is read as it was written: printing a rule as front
    matter and body and parsing the file gives the rule back, whatever its name and
    pattern (quotes included), scopes, tools and repeat setting. *)
Theorem rule_file_round_trip (stem : str) (r : StreamRuleConfig) :
  writable r → parse_rule_markdown stem (print_rule r) = Some r.
Proof.
  intros Hw. pose proof (front_clean r Hw) as Hc. destruct Hw as (Hn & Hp & Hpn & Hh & Ht & Hr).
  assert (Forall (λ l, one_line l ∧ head l ≠ Some 45%N ∧ l ≠ []) (front r)) as Hm.
  { unfold front in *. repeat (apply Forall_cons in Hc as [[? _] Hc]; apply Forall_cons_2; [done|]). constructor. }
  assert (strip_prefix (lit "---") (trim_start (trim_start_matches (N.eqb 65279) (print_rule r)))
    = Some (after_feeds (front r) ++ (cLF :: lit "---") ++ [cLF] ++ cfg_hint r)) as Es.
  { apply strip_prefix_Some. unfold print_rule. rewrite (app_assoc [cLF]), unlines_after_feeds, <- !app_assoc. done. }
  unfold parse_rule_markdown. rewrite Es. cbn [mbind option_bind].
  rewrite (proj2 (split_once_Some _ _ (after_feeds (front r)) ([cLF] ++ cfg_hint r))).
  2: { split; [done|]. intros a b E. by apply (no_marker _ Hm) in E. }
  cbn [mbind option_bind].
  assert (split_once ([cLF] ++ cfg_hint r) [cLF] = Some ([], cfg_hint r)) as ->.
  { apply split_once_Some. split; [done|]. cbn. lia. }
  rewrite Hh, lines_after_feeds by (done || by eapply Forall_impl; [exact Hm|]; intros l (_ & _ & ?)).
  destruct (label_trimmed (cfg_repeat r)) as (a & m & z & El & Ha & Hz & _).
  assert (∀ rule lk key v m' a' z', v = a' :: m' ++ [z'] → is_whitespace a' = false → is_whitespace z' = false →
            key ∈ [lit "name"; lit "pattern"; lit "scope"; lit "tools"; lit "repeat"] →
            front_line (rule, lk) (key ++ lit ": " ++ v) = (apply_key rule key v false, key)) as Hstep.
  { intros rule lk key v m' a' z' E H1 H2 Hk. apply (front_line_step rule lk key v a' m' z'); try done.
    all: repeat (apply elem_of_cons in Hk as [->|Hk]); [..|by apply elem_of_nil in Hk]; try discriminate; try (by repeat constructor).
    all: split; [done|]; by repeat constructor. }
  assert (∀ s rule lk key, key ∈ [lit "name"; lit "pattern"; lit "scope"; lit "tools"; lit "repeat"] →
            front_line (rule, lk) (key ++ lit ": " ++ squote s) = (apply_key rule key (squote s) false, key)) as Hq.
  { intros. by eapply Hstep. }
  assert (∀ s rule lk key, key ∈ [lit "name"; lit "pattern"; lit "scope"; lit "tools"; lit "repeat"] →
            front_line (rule, lk) (key ++ lit ": " ++ lit "[" ++ s ++ lit "]") = (apply_key rule key (lit "[" ++ s ++ lit "]") false, key)) as Hb.
  { intros. by eapply Hstep. }
  assert ((foldl front_line (mkRuleConfig stem [] (cfg_hint r) [] [] Always, []) ([] :: front r)).1 = r) as ->;
    [|by rewrite bool_decide_eq_false_2].
  unfold front. cbn [foldl]. change (front_line ?st []) with st.
  change (lit "name: " ++ ?v) with (lit "name" ++ lit ": " ++ v). rewrite Hq by set_solver.
  change (lit "pattern: " ++ ?v) with (lit "pattern" ++ lit ": " ++ v). rewrite Hq by set_solver.
  change (lit "scope: [" ++ ?v) with (lit "scope" ++ lit ": " ++ lit "[" ++ v). rewrite Hb by set_solver.
  change (lit "tools: [" ++ ?v) with (lit "tools" ++ lit ": " ++ lit "[" ++ v). rewrite Hb by set_solver.
  change (lit "repeat: " ++ ?v) with (lit "repeat" ++ lit ": " ++ v). rewrite (Hstep _ _ _ _ _ _ _ El Ha Hz) by set_solver.
  cbn [fst]. rewrite apply_name, apply_pattern, apply_scope, apply_tools, apply_repeat by done.
  cbn. by destruct r.
Qed.

Definition no_shouting : StreamRuleConfig :=
  mkRuleConfig (lit "calm") (lit "don't|''") (lit "Do not shout.") [ScopeText; ScopeToolArgs] [lit "edit"; lit "it's"] (AfterTurns 3).
Lemma rule_file_round_trip_witness :
  writable no_shouting ∧ parse_rule_markdown (lit "stem") (print_rule no_shouting) = Some no_shouting.
Proof.
  assert (writable no_shouting) as H.
  { split_and!; try discriminate; try (vm_compute; reflexivity); try (apply (bool_decide_eq_true_1 _); vm_compute; reflexivity). }
  split; [exact H|]. exact (rule_file_round_trip (lit "stem") no_shouting H).
Defined.
