(* ===== verification/SwarmHub.v ===== *)
(** Messages between swarm workers in one process ([core/src/swarm_hub.rs]). A
    [HashMap] is a [gmap]: its iteration order, which the code leaves open too, is
    that of [map_to_list]. Every operation runs under the lock of the map, so a
    history is a sequence of operations. *)

From stdpp Require Import sorting.
From S2P Require Import Prelude RustStr Bytes Messages.

(** Order of [String]s: by code point, which is that of their bytes. *)
Fixpoint str_leb (a b : str) : bool :=
  match a, b with
  | [], _ => true
  | _ :: _, [] => false
  | x :: a, y :: b => (x <? y)%N || ((x =? y)%N && str_leb a b)
  end.
#[global] Instance str_leb_dec : RelDecision (λ a b, str_leb a b = true) := λ a b, decide (str_leb a b = true).

Record SwarmMessage := mkMsg { from : str; to : str; text : str }.
#[global] Instance SwarmMessage_eq_dec : EqDecision SwarmMessage.
Proof. solve_decision. Defined.
(** The inboxes. The listener is told every message that is delivered. *)
Notation SwarmHub := (gmap str (list SwarmMessage)).

Definition ensure (id : str) (boxes : SwarmHub) : SwarmHub :=
  match boxes !! id with Some _ => boxes | None => <[id := []]> boxes end.
Definition keys (boxes : SwarmHub) : list str := (map_to_list boxes).*1.
Definition deliver (boxes : SwarmHub) (msg : SwarmMessage) : SwarmHub :=
  <[to msg := default [] (boxes !! to msg) ++ [msg]]> boxes.
Definition unknown_recipient (to : str) (boxes : SwarmHub) : str :=
  lit "unknown recipient " ++ quoted to ++ lit "; known: all, " ++
  join (lit ", ") (merge_sort (λ a b, str_leb a b = true) (keys boxes)).
(** The answer, the inboxes and the messages the listener is told. *)
Definition send (from to text : str) (boxes : SwarmHub) : (str + unit) * SwarmHub * list SwarmMessage :=
  let text := trim text in
  if text == [] then (inr tt, boxes, [])
  else
    let deliver_to targets :=
      let msgs := (λ dest, mkMsg from dest text) <$> targets in
      (inr tt, foldl deliver boxes msgs, msgs) in
    if eq_ignore_ascii_case to (lit "all") then
      let ids := keys boxes in
      let ids := if bool_decide (lit "parent" ∈ ids) then ids else ids ++ [lit "parent"] in
      deliver_to (List.filter (λ id, id != from) ids)
    else if bool_decide (is_Some (boxes !! to)) then deliver_to [to]
    else (inl (unknown_recipient to boxes), boxes, []).
Definition drain (id : str) (boxes : SwarmHub) : list SwarmMessage * SwarmHub :=
  match boxes !! id with Some q => (q, <[id := []]> boxes) | None => ([], boxes) end.

(** A history, and what each participant has taken. *)
Inductive Op := Ensure (id : str) | Send (from to text : str) | Drain (id : str).
Definition State : Type := SwarmHub * gmap str (list SwarmMessage).
Definition step (st : State) (op : Op) : State :=
  let '(boxes, taken) := st in
  match op with
  | Ensure id => (ensure id boxes, taken)
  | Send f t x => ((send f t x boxes).1.2, taken)
  | Drain id => let '(q, boxes) := drain id boxes in (boxes, <[id := default [] (taken !! id) ++ q]> taken)
  end.
Definition run (ops : list Op) : State := foldl step (∅, ∅) ops.

(** What a participant should get: the known participants, and the messages of an
    operation that are for [id]. *)
Definition known_after (known : gset str) (op : Op) : gset str :=
  match op with
  | Ensure id => {[id]} ∪ known
  | Send f t x =>
      if negb (trim x == []) && eq_ignore_ascii_case t (lit "all") && negb (lit "parent" == f)
      then {[lit "parent"]} ∪ known else known
  | Drain _ => known
  end.
Definition reaches (known : gset str) (id f t : str) : bool :=
  if eq_ignore_ascii_case t (lit "all")
  then negb (id == f) && (bool_decide (id ∈ known) || (id == lit "parent"))
  else (id == t) && bool_decide (id ∈ known).
Definition sent_to (known : gset str) (id : str) (op : Op) : list SwarmMessage :=
  match op with
  | Send f t x => if negb (trim x == []) && reaches known id f t then [mkMsg f id (trim x)] else []
  | _ => []
  end.
Fixpoint sent (known : gset str) (id : str) (ops : list Op) : list SwarmMessage :=
  match ops with [] => [] | op :: r => sent_to known id op ++ sent (known_after known op) id r end.

Definition queued (id : str) (boxes : SwarmHub) : list SwarmMessage := default [] (boxes !! id).
Definition got (id : str) (taken : gmap str (list SwarmMessage)) : list SwarmMessage := default [] (taken !! id).

Lemma deliver_queued boxes m id :
  queued id (deliver boxes m) = queued id boxes ++ (if id == to m then [m] else []).
Proof.
  unfold queued, deliver. destruct (decide (id = to m)) as [->|Hne].
  - by rewrite lookup_insert_eq, bool_decide_eq_true_2.
  - by rewrite lookup_insert_ne, bool_decide_eq_false_2, app_nil_r.
Qed.
Lemma deliver_dom boxes m : dom (deliver boxes m) = {[to m]} ∪ dom boxes.
Proof. unfold deliver. by rewrite dom_insert_L. Qed.
Lemma deliver_all f x targets : ∀ boxes id, NoDup targets →
  let boxes' := foldl deliver boxes ((λ dest, mkMsg f dest x) <$> targets) in
  queued id boxes' = queued id boxes ++ (if bool_decide (id ∈ targets) then [mkMsg f id x] else []) ∧
  dom boxes' = list_to_set targets ∪ dom boxes.
Proof.
  induction targets as [|t ts IH]; intros boxes id Hnd; cbn zeta.
  - cbn. split; [by rewrite app_nil_r|set_solver].
  - apply NoDup_cons in Hnd as [Ht Hnd]. cbn [fmap list_fmap foldl].
    destruct (IH (deliver boxes (mkMsg f t x)) id Hnd) as [E1 E2]. cbn zeta in *. rewrite E1, E2.
    rewrite deliver_queued, deliver_dom. cbn [to]. split.
    + rewrite <- app_assoc. f_equal. destruct (decide (id = t)) as [->|Hne].
      * rewrite bool_decide_eq_true_2 by done. rewrite (bool_decide_eq_false_2 (t ∈ ts)) by done.
        by rewrite (bool_decide_eq_true_2 (t ∈ t :: ts)) by by left.
      * rewrite bool_decide_eq_false_2 by done. cbn. by rewrite (bool_decide_ext (id ∈ ts) (id ∈ t :: ts)) by set_solver.
    + cbn [list_to_set]. set_solver.
Qed.
Lemma keys_spec boxes : NoDup (keys boxes) ∧ ∀ id, id ∈ keys boxes ↔ id ∈ dom boxes.
Proof.
  unfold keys. split; [apply NoDup_fst_map_to_list|]. intros id. rewrite elem_of_dom, list_elem_of_fmap. split.
  - intros ([k v] & -> & H). apply elem_of_map_to_list in H. by exists v.
  - intros [v H]. exists (id, v). split; [done|]. by apply elem_of_map_to_list.
Qed.
Lemma send_spec f t x boxes id :
  let boxes' := (send f t x boxes).1.2 in
  queued id boxes' = queued id boxes ++ sent_to (dom boxes) id (Send f t x) ∧
  dom boxes' = known_after (dom boxes) (Send f t x).
Proof.
  unfold send, sent_to, known_after. destruct (keys_spec boxes) as [Hnd Hk].
  destruct (decide (trim x = [])) as [E|Hx].
  { rewrite (bool_decide_eq_true_2 _ E). cbn. by rewrite app_nil_r. }
  rewrite (bool_decide_eq_false_2 _ Hx). cbn [negb andb]. unfold reaches.
  destruct (eq_ignore_ascii_case t (lit "all")).
  - cbn [fst snd]. set (ids := if bool_decide (lit "parent" ∈ keys boxes) then keys boxes else keys boxes ++ [lit "parent"]).
    assert (NoDup ids ∧ ∀ i, i ∈ ids ↔ i ∈ dom boxes ∨ i = lit "parent") as [Hn Hi].
    { subst ids. case_bool_decide as Hp.
      - split; [done|]. intros i. rewrite Hk. split; [by left|]. intros [H| ->]; [done|by apply Hk].
      - split; [apply NoDup_app; split; [done|]; split; [|by apply NoDup_singleton]; intros i H1 H2; set_solver|].
        intros i. rewrite elem_of_app, Hk, list_elem_of_singleton. done. }
    assert (NoDup (List.filter (λ id, id != f) ids) ∧ ∀ i, i ∈ List.filter (λ id, id != f) ids ↔ (i ∈ dom boxes ∨ i = lit "parent") ∧ i ≠ f) as [Hn' Hi'].
    { split.
      - apply NoDup_ListNoDup, List.NoDup_filter, NoDup_ListNoDup. done.
      - intros i. rewrite list_elem_of_In, filter_In, <- list_elem_of_In, Hi, negb_true_iff, bool_decide_eq_false. done. }
    destruct (deliver_all f (trim x) _ boxes id Hn') as [E1 E2]. cbn zeta in *. rewrite E1, E2. split.
    + f_equal. rewrite (bool_decide_ext _ _ (Hi' id)). repeat case_bool_decide; cbn; try done; tauto.
    + apply set_eq. intros i. rewrite elem_of_union, elem_of_list_to_set, Hi'.
      destruct (decide (lit "parent" = f)) as [<-|Hpf].
      * rewrite bool_decide_eq_true_2 by done. cbn [negb andb]. tauto.
      * rewrite bool_decide_eq_false_2 by done. cbn [negb andb]. rewrite elem_of_union, elem_of_singleton.
        split; [tauto|]. intros [->|H]; [tauto|tauto].
  - destruct (decide (t ∈ dom boxes)) as [Ht|Ht].
    + rewrite bool_decide_eq_true_2 by by apply elem_of_dom. cbn [fst snd].
      destruct (deliver_all f (trim x) [t] boxes id (NoDup_singleton t)) as [E1 E2]. cbn zeta in *. rewrite E1, E2. split.
      * f_equal. destruct (decide (id = t)) as [->|Hne].
        -- rewrite !bool_decide_eq_true_2 by (done || by left). done.
        -- rewrite (bool_decide_eq_false_2 (id = t)) by done. rewrite bool_decide_eq_false_2 by set_solver. done.
      * cbn [list_to_set]. set_solver.
    + rewrite bool_decide_eq_false_2 by by rewrite <- elem_of_dom.
      cbn [fst snd]. split; [|done]. destruct (decide (id = t)) as [->|Hne].
      * rewrite (bool_decide_eq_false_2 (t ∈ dom boxes)) by done. by rewrite andb_false_r, app_nil_r.
      * rewrite (bool_decide_eq_false_2 (id = t)) by done. by rewrite app_nil_r.
Qed.

Lemma drain_spec id i boxes :
  queued i (drain id boxes).2 = (if i == id then [] else queued i boxes) ∧ (drain id boxes).1 = queued id boxes ∧
  dom (drain id boxes).2 = dom boxes.
Proof.
  unfold drain, queued. destruct (boxes !! id) as [q|] eqn:E; cbn [fst snd].
  - split_and!; [|done|].
    + destruct (decide (i = id)) as [->|Hne]; [by rewrite lookup_insert_eq, bool_decide_eq_true_2|].
      by rewrite lookup_insert_ne, bool_decide_eq_false_2.
    + rewrite dom_insert_L. apply elem_of_dom_2 in E. set_solver.
  - split_and!; [|done..]. case_bool_decide as H; [by rewrite H, E|done].
Qed.
Lemma ensure_spec id i boxes :
  queued i (ensure id boxes) = queued i boxes ∧ dom (ensure id boxes) = {[id]} ∪ dom boxes.
Proof.
  unfold ensure, queued. destruct (boxes !! id) as [q|] eqn:E.
  - split; [done|]. apply elem_of_dom_2 in E. set_solver.
  - split; [|by rewrite dom_insert_L]. destruct (decide (i = id)) as [->|Hne]; [by rewrite lookup_insert_eq, E|].
    by rewrite lookup_insert_ne.
Qed.
Lemma step_spec boxes taken op id :
  let st := step (boxes, taken) op in
  got id st.2 ++ queued id st.1 = (got id taken ++ queued id boxes) ++ sent_to (dom boxes) id op ∧
  dom st.1 = known_after (dom boxes) op.
Proof.
  destruct op as [i|f t x|i]; cbn [step fst snd].
  - destruct (ensure_spec i id boxes) as [-> ->]. by rewrite app_nil_r.
  - destruct (send_spec f t x boxes id) as [-> ->]. by rewrite app_assoc.
  - destruct (drain_spec i id boxes) as (E1 & E2 & E3). destruct (drain i boxes) as [q boxes']. cbn [fst snd] in *.
    rewrite E1, E3. split; [|done]. cbn [sent_to]. rewrite app_nil_r. unfold got. subst q.
    destruct (decide (id = i)) as [->|Hne].
    + rewrite lookup_insert_eq, bool_decide_eq_true_2 by done. cbn. by rewrite app_nil_r.
    + by rewrite lookup_insert_ne, bool_decide_eq_false_2 by done.
Qed.
Lemma run_spec ops id : ∀ boxes taken,
  let st := foldl step (boxes, taken) ops in
  got id st.2 ++ queued id st.1 = (got id taken ++ queued id boxes) ++ sent (dom boxes) id ops.
Proof.
  induction ops as [|op ops IH]; intros boxes taken; cbn [foldl sent]; [by rewrite app_nil_r|].
  destruct (step_spec boxes taken op id) as [E1 E2]. destruct (step (boxes, taken) op) as [boxes' taken'].
  cbn [fst snd] in *. rewrite IH, E1, E2. by rewrite <- !app_assoc.
Qed.

(** No message between workers is lost, duplicated or reordered: in any
    history of registrations, sends and drains, what a participant has taken followed
    by what waits in its inbox is exactly the messages sent to it, in order: those
    addressed to it once it was known, and every broadcast of someone else made
    since (from the start, for the parent). *)
Theorem hub_delivers_once (ops : list Op) (id : str) :
  got id (run ops).2 ++ queued id (run ops).1 = sent ∅ id ops.
Proof. unfold run. pose proof (run_spec ops id ∅ ∅) as H. cbn zeta in H. rewrite H. by rewrite dom_empty_L. Qed.

Example direct_and_broadcast :
  let st := run [Ensure (lit "w0"); Send (lit "w0") (lit "w1") (lit "lost"); Ensure (lit "w1");
                 Send (lit "w0") (lit "w1") (lit " a "); Drain (lit "w1"); Send (lit "w1") (lit "ALL") (lit "b")] in
  got (lit "w1") st.2 = [mkMsg (lit "w0") (lit "w1") (lit "a")] ∧
  queued (lit "w0") st.1 = [mkMsg (lit "w1") (lit "w0") (lit "b")] ∧
  queued (lit "parent") st.1 = [mkMsg (lit "w1") (lit "parent") (lit "b")] ∧
  (send (lit "w0") (lit "w2") (lit "x") st.1).1.1 = inl (lit "unknown recipient `w2`; known: all, parent, w0, w1").
Proof. vm_compute. done. Qed.
