(* ===== verification/Steer.v ===== *)
(** Messages of the user to a running turn ([agent/src/steer.rs]): a queue per
    session under one lock, so a history is a sequence of operations. *)

From S2P Require Import Prelude RustStr Bytes Messages.

Section steer.
Context {Value : Type}.
Notation MessageContent := (MessageContent Value ImageSource).

Inductive SteerMode := NextStep | Queue | Urgent.
Definition mode_queue (m : SteerMode) : bool := match m with Queue => true | _ => false end.
Definition mode_urgent (m : SteerMode) : bool := match m with Urgent => true | _ => false end.
Notation Entry := (SteerMode * MessageContent)%type.
Notation SteerInbox := (gmap str (list Entry)).

Definition push_mode (session_id : str) (mode : SteerMode) (content : MessageContent) (self : SteerInbox) : SteerInbox :=
  <[session_id := default [] (self !! session_id) ++ [(mode, content)]]> self.
Definition push (session_id : str) (content : MessageContent) (self : SteerInbox) : SteerInbox :=
  push_mode session_id NextStep content self.
Definition has_pending (session_id : str) (self : SteerInbox) : bool :=
  match self !! session_id with Some (_ :: _) => true | _ => false end.
Definition drain (session_id : str) (self : SteerInbox) : list MessageContent * SteerInbox :=
  (snd <$> default [] (self !! session_id), delete session_id self).
Definition take_for_turn (session_id : str) (self : SteerInbox) : list MessageContent * SteerInbox :=
  match self !! session_id with
  | None => ([], self)
  | Some queue =>
      (snd <$> List.filter (λ e, negb (mode_queue e.1)) queue,
       <[session_id := List.filter (λ e, mode_queue e.1) queue]> self)
  end.
Definition has_urgent (session_id : str) (self : SteerInbox) : bool :=
  match self !! session_id with Some q => existsb (λ e, mode_urgent e.1) q | None => false end.
Definition content_text (content : MessageContent) : str :=
  match content with
  | MText text => text
  | MBlocks blocks => join [cLF] (omap (λ b, match b with BText text => Some text | _ => None end) blocks)
  end.

(** A history over all sessions, and for each what its turns read and what the user
    interface took back. *)
Inductive Op := Push (id : str) (m : SteerMode) (c : MessageContent) | Take (id : str) | Drain (id : str).
Record State := mkState { inbox : SteerInbox; read : gmap str (list MessageContent); back : gmap str (list MessageContent) }.
Definition add (id : str) (l : list MessageContent) (m : gmap str (list MessageContent)) := <[id := default [] (m !! id) ++ l]> m.
Definition step (st : State) (op : Op) : State :=
  match op with
  | Push id m c => mkState (push_mode id m c (inbox st)) (read st) (back st)
  | Take id => let '(l, q) := take_for_turn id (inbox st) in mkState q (add id l (read st)) (back st)
  | Drain id => let '(l, q) := drain id (inbox st) in mkState q (read st) (add id l (back st))
  end.
Definition run (ops : list Op) : State := foldl step (mkState ∅ ∅ ∅) ops.

(** The messages pushed for [id] that a turn may read, and those it must not. *)
Definition pushed (id : str) (queue : bool) (ops : list Op) : list MessageContent :=
  omap (λ op, match op with Push i m c => if (i == id) && eqb (mode_queue m) queue then Some c else None | _ => None end) ops.
Definition at_ (id : str) (m : gmap str (list MessageContent)) : list MessageContent := default [] (m !! id).
Definition waiting (id : str) (queue : bool) (self : SteerInbox) : list MessageContent :=
  snd <$> List.filter (λ e, eqb (mode_queue e.1) queue) (default [] (self !! id)).

Definition pushes (id : str) (ops : list Op) : list MessageContent :=
  omap (λ op, match op with Push i _ c => if i == id then Some c else None | _ => None end) ops.
Definition never_drained (id : str) (ops : list Op) : Prop := Forall (λ op, op ≠ Drain id) ops.
(** One session's view of a state: what waits, was read and was taken back. *)
Definition view (id : str) (st : State) : list Entry * list MessageContent * list MessageContent :=
  (default [] (inbox st !! id), at_ id (read st), at_ id (back st)).
Definition not_queued (q : list Entry) : list MessageContent := snd <$> List.filter (λ e, negb (mode_queue e.1)) q.
Definition view_step (id : str) (v : list Entry * list MessageContent * list MessageContent) (op : Op) :=
  let '(q, r, b) := v in
  match op with
  | Push i m c => if i == id then (q ++ [(m, c)], r, b) else v
  | Take i => if i == id then (List.filter (λ e, mode_queue e.1) q, r ++ not_queued q, b) else v
  | Drain i => if i == id then ([], r, b ++ (snd <$> q)) else v
  end.
Lemma at_add i id l m : at_ id (add i l m) = if i == id then at_ id m ++ l else at_ id m.
Proof.
  unfold at_, add. case_bool_decide as E; [by rewrite E, lookup_insert_eq|by rewrite lookup_insert_ne].
Qed.
Lemma step_view id st op : view id (step st op) = view_step id (view id st) op.
Proof.
  unfold view, view_step. destruct op as [i m c|i|i]; cbn [step].
  - unfold push_mode. cbn [inbox read back]. case_bool_decide as E; [by rewrite E, lookup_insert_eq|by rewrite lookup_insert_ne].
  - unfold take_for_turn. destruct (inbox st !! i) as [q|] eqn:Eq; cbn [inbox read back]; rewrite at_add; case_bool_decide as E.
    + subst i. by rewrite lookup_insert_eq, Eq.
    + by rewrite lookup_insert_ne.
    + subst i. rewrite Eq. done.
    + done.
  - unfold drain. cbn [inbox read back]. rewrite at_add. case_bool_decide as E; [by rewrite E, lookup_delete_eq|by rewrite lookup_delete_ne].
Qed.
Lemma filter_split (q : list Entry) :
  snd <$> q ≡ₚ not_queued q ++ (snd <$> List.filter (λ e, mode_queue e.1) q).
Proof.
  unfold not_queued. induction q as [|[m c] q IH]; [done|]. cbn. destruct (mode_queue m); cbn.
  - rewrite IH. by rewrite Permutation_middle.
  - by rewrite IH.
Qed.
Lemma not_queued_queued (q : list Entry) : not_queued (List.filter (λ e, mode_queue e.1) q) = [].
Proof. unfold not_queued. induction q as [|[m c] q IH]; [done|]. cbn. destruct (mode_queue m) eqn:E; cbn; [by rewrite E|done]. Qed.
Lemma not_queued_snoc q m c : not_queued (q ++ [(m, c)]) = not_queued q ++ (if mode_queue m then [] else [c]).
Proof. unfold not_queued. rewrite List.filter_app, fmap_app. cbn. by destruct (mode_queue m). Qed.
Lemma queued_idemp (q : list Entry) :
  List.filter (λ e, mode_queue e.1) (List.filter (λ e, mode_queue e.1) q) = List.filter (λ e, mode_queue e.1) q.
Proof. induction q as [|[m c] q IH]; [done|]. cbn. destruct (mode_queue m) eqn:E; cbn; [by rewrite E, IH|done]. Qed.

Record ledger (id : str) (ops : list Op) (v : list Entry * list MessageContent * list MessageContent) : Prop := {
  lg_all : v.1.2 ++ v.2 ++ (snd <$> v.1.1) ≡ₚ pushes id ops;
  lg_read : sublist (v.1.2 ++ not_queued v.1.1) (pushed id false ops);
  lg_running : never_drained id ops →
    v.1.2 ++ not_queued v.1.1 = pushed id false ops ∧
    snd <$> List.filter (λ e, mode_queue e.1) v.1.1 = pushed id true ops }.
Lemma view_ledger id ops v op : ledger id ops v → ledger id (ops ++ [op]) (view_step id v op).
Proof.
  destruct v as [[q r] b]. intros [H1 H2 H3]. unfold pushes, pushed, never_drained in *. cbn [fst snd] in *.
  assert (Forall (λ o, o ≠ Drain id) (ops ++ [op]) → Forall (λ o, o ≠ Drain id) ops) as Hnd by (intros [H _]%Forall_app; done).
  destruct op as [i m c|i|i]; cbn [view_step]; case_bool_decide as E.
  - subst i. split; unfold pushes, pushed; cbn [fst snd]; rewrite !omap_app; cbn; rewrite ?bool_decide_eq_true_2 by done; cbn [andb].
    + rewrite fmap_app, <- H1, <- !app_assoc. done.
    + rewrite not_queued_snoc, app_assoc. apply sublist_app; [done|]. by destruct (mode_queue m).
    + intros Hn. destruct (H3 (Hnd Hn)) as [E1 E2]. rewrite not_queued_snoc, List.filter_app, fmap_app, app_assoc, E1, E2.
      cbn. by destruct (mode_queue m).
  - split; unfold pushes, pushed; cbn [fst snd]; rewrite !omap_app; cbn; rewrite ?bool_decide_eq_false_2 by done; cbn; rewrite ?app_nil_r; auto.
  - subst i. split; unfold pushes, pushed; cbn [fst snd]; rewrite !omap_app; cbn; rewrite !app_nil_r.
    + rewrite <- H1, (filter_split q), <- !app_assoc. solve_Permutation.
    + by rewrite not_queued_queued, app_nil_r.
    + intros Hn. rewrite not_queued_queued, app_nil_r, queued_idemp. by apply H3, Hnd.
  - split; unfold pushes, pushed; cbn [fst snd]; rewrite !omap_app; cbn; rewrite ?app_nil_r; auto.
  - subst i. split; unfold pushes, pushed; cbn [fst snd]; rewrite !omap_app; cbn; rewrite ?app_nil_r.
    + by rewrite <- H1.
    + etrans; [|exact H2]. apply sublist_inserts_r. done.
    + intros [_ Hn]%Forall_app. by apply Forall_cons in Hn as [Hn _].
  - split; unfold pushes, pushed; cbn [fst snd]; rewrite !omap_app; cbn; rewrite ?app_nil_r; auto.
Qed.

(** *** What waits, read off the history alone *)

(** Whether [op] hands over a message of this mode that waits for [id]. *)
Definition takes (id : str) (m : SteerMode) (op : Op) : bool :=
  match op with
  | Push _ _ _ => false
  | Take i => (i == id) && (if m is Queue then false else true)
  | Drain i => i == id
  end.
(** The messages sent to [id] that no later operation handed over, oldest first. *)
Fixpoint due (id : str) (ops : list Op) : list Entry :=
  match ops with
  | [] => []
  | Push i m c :: r => (if (i == id) && negb (existsb (takes id m) r) then [(m, c)] else []) ++ due id r
  | _ :: r => due id r
  end.
Lemma due_snoc id ops op :
  due id (ops ++ [op]) = List.filter (λ e, negb (takes id e.1 op)) (due id ops) ++
    match op with Push i m c => if i == id then [(m, c)] else [] | _ => [] end.
Proof.
  induction ops as [|o ops IH]; cbn [app due].
  - destruct op as [i m c|i|i]; [cbn; by rewrite andb_true_r, app_nil_r|done..].
  - destruct o as [i m c|i|i]; [|exact IH..]. rewrite IH, app_assoc, List.filter_app. f_equal. f_equal.
    rewrite existsb_app. cbn [existsb]. rewrite orb_false_r. destruct (i == id); [|done]. cbn [andb].
    destruct (existsb (takes id m) ops); [done|]. cbn. by destruct (takes id m op).
Qed.
Lemma filter_all {A} (f : A → bool) (l : list A) : (∀ x, f x = true) → List.filter f l = l.
Proof. intros H. induction l as [|x l IH]; [done|]. cbn. by rewrite H, IH. Qed.
Lemma filter_none {A} (f : A → bool) (l : list A) : (∀ x, f x = false) → List.filter f l = [].
Proof. intros H. induction l as [|x l IH]; [done|]. cbn. by rewrite H. Qed.
Lemma waits_due ops id : default [] (inbox (run ops) !! id) = due id ops.
Proof.
  unfold run. induction ops as [|op ops IH] using rev_ind; [done|]. rewrite foldl_app. cbn [foldl].
  pose proof (step_view id (foldl step (mkState ∅ ∅ ∅) ops) op) as H. unfold view in H. apply (f_equal (λ v, v.1.1)) in H.
  cbn [fst] in H. rewrite H, due_snoc, IH. clear H. destruct op as [i m c|i|i]; cbn [view_step takes].
  - rewrite filter_all by done. by case_bool_decide; cbn; rewrite ?app_nil_r.
  - rewrite app_nil_r. case_bool_decide; cbn [fst snd andb].
    + apply List.filter_ext. intros [m c]. by destruct m.
    + by rewrite filter_all.
  - rewrite app_nil_r. case_bool_decide; cbn [fst snd].
    + by rewrite filter_none.
    + by rewrite filter_all.
Qed.

(** C29: A message to a running turn is neither lost nor delivered twice nor out of
    order: at any point of any history, for each session, a turn that reads gets
    exactly the messages sent and not handed over yet, but for the queued ones, oldest
    first, and the user interface that takes back gets all of them, oldest first. The
    messages turns have read, those taken back and those still waiting are exactly the
    messages sent; turns have read in the order of sending and never a queued message;
    until the inbox is drained everything not queued is read or waiting, in order, and
    all queued messages wait. *)
Theorem steering_conserved (ops : list Op) (id : str) :
  let st := run ops in
  (take_for_turn id (inbox st)).1 = omap (λ e : Entry, if e.1 is Queue then None else Some e.2) (due id ops) ∧
  (drain id (inbox st)).1 = snd <$> due id ops ∧
  (has_pending id (inbox st) = true ↔ due id ops ≠ []) ∧
  (has_urgent id (inbox st) = true ↔ ∃ c, (Urgent, c) ∈ due id ops) ∧
  at_ id (read st) ++ at_ id (back st) ++ (snd <$> due id ops) ≡ₚ pushes id ops ∧
  sublist (at_ id (read st)) (pushed id false ops) ∧
  (never_drained id ops →
    at_ id (read st) ++ waiting id false (inbox st) = pushed id false ops ∧
    waiting id true (inbox st) = pushed id true ops).
Proof.
  assert (ledger id ops (view id (run ops))) as [H1 H2 H3].
  { unfold run. induction ops as [|op ops IH] using rev_ind.
    - split; unfold view, at_; cbn; rewrite ?lookup_empty; done.
    - rewrite foldl_app. cbn [foldl]. rewrite step_view. by apply view_ledger. }
  pose proof (waits_due ops id) as Hw. unfold view in *. cbn [fst snd] in *. cbn zeta. rewrite <- Hw. split_and!.
  - unfold take_for_turn. destruct (inbox (run ops) !! id) as [q|]; [|done]. cbn [fst default].
    change (Datatypes.id q) with q. clear. induction q as [|[m c] q IH]; [done|]. cbn. destruct m; cbn; by rewrite IH.
  - done.
  - unfold has_pending. destruct (inbox (run ops) !! id) as [[|e q]|]; done.
  - unfold has_urgent. destruct (inbox (run ops) !! id) as [q|]; cbn [default].
    + change (Datatypes.id q) with q. rewrite existsb_true_iff. split; [intros ([m c] & Hin & Hm); destruct m; try done; by exists c|].
      intros [c Hin]. by exists (Urgent, c).
    + split; [done|]. by intros [c ?%elem_of_nil].
  - done.
  - etrans; [|exact H2]. by apply sublist_inserts_r.
  - intros Hn. destruct (H3 Hn) as [E1 E2]. rewrite <- E1, <- E2. unfold waiting, not_queued. split.
    + by rewrite (List.filter_ext (λ e : Entry, eqb (mode_queue e.1) false) (λ e, negb (mode_queue e.1))) by (intros [m c]; by destruct m).
    + by rewrite (List.filter_ext (λ e : Entry, eqb (mode_queue e.1) true) (λ e, mode_queue e.1)) by (intros [m c]; by destruct m).
Qed.
End steer.
