(* ===== verification/WorkerCancel.v ===== *)
(** Requests to stop a worker ([agent/src/worker_cancel.rs]), a flag per worker under
    one lock. *)

From S2P Require Import Prelude RustStr Bytes Messages.

Notation WorkerCancels := (gmap str bool).
Definition register (id : str) (self : WorkerCancels) : WorkerCancels := <[id := false]> self.
Definition cancel (id : str) (self : WorkerCancels) : bool * WorkerCancels :=
  match self !! id with Some _ => (true, <[id := true]> self) | None => (false, self) end.
Definition is_cancelled (id : str) (self : WorkerCancels) : bool := default false (self !! id).
Definition finish (id : str) (self : WorkerCancels) : WorkerCancels := delete id self.

Inductive Op := Register (id : str) | Cancel (id : str) | Finish (id : str).
Definition step (st : WorkerCancels) (op : Op) : WorkerCancels :=
  match op with Register id => register id st | Cancel id => (cancel id st).2 | Finish id => finish id st end.
(** The life of [id]: not running, or running and perhaps asked to stop. *)
Definition life (id : str) (s : option bool) (op : Op) : option bool :=
  match op with
  | Register i => if i == id then Some false else s
  | Cancel i => if i == id then (λ _, true) <$> s else s
  | Finish i => if i == id then None else s
  end.
(** A worker sees a request to stop exactly when one was made while this run of it
    was registered: requests before its start, or after its end, are refused and
    never reach a later worker of the same id. *)
Lemma cancels_spec (ops : list Op) (id : str) : foldl step ∅ ops !! id = foldl (life id) None ops.
Proof.
  induction ops as [|op ops IH] using rev_ind; [done|]. rewrite !foldl_app. cbn [foldl]. rewrite <- IH.
  set (st := foldl step ∅ ops). destruct op as [i|i|i]; cbn [step life]; unfold register, cancel, finish.
  - case_bool_decide as E; [by rewrite E, lookup_insert_eq|by rewrite lookup_insert_ne].
  - destruct (st !! i) as [b|] eqn:Ei; cbn [snd]; case_bool_decide as E; subst; rewrite ?lookup_insert_eq, ?lookup_insert_ne, ?Ei by done; done.
  - case_bool_decide as E; [by rewrite E, lookup_delete_eq|by rewrite lookup_delete_ne].
Qed.
