(* ===== verification/Models.v ===== *)
(** What is known of a model from its name: capabilities and context window
    ([llm/src/capabilities.rs]), reasoning effort ([llm/src/thinking.rs]), the
    Harmony dialect ([llm/src/harmony.rs]), and which model serves which request
    ([agent/src/title.rs], [agent/src/routing.rs]). *)

From S2P Require Import Prelude RustStr Bytes F32 Intent.

(** [s.contains(w)] or [s.starts_with(w)] for one of the words. *)
Definition has (s : str) (ws : list string) : bool := existsb (λ w, contains s (lit w)) ws.
Definition begins (s : str) (ws : list string) : bool := existsb (λ w, starts_with s (lit w)) ws.
Definition u32_parse (s : str) : option N := parse_uint 4294967295 s.

(** ** Capabilities *)

Record ModelCapabilities := mkCaps {
  cap_tools : bool; cap_vision : bool; cap_thinking : bool; context_window : N; caching : bool; compaction : bool }.
Definition with_compaction (b : bool) (c : ModelCapabilities) : ModelCapabilities :=
  mkCaps (cap_tools c) (cap_vision c) (cap_thinking c) (context_window c) (caching c) b.

Definition ANTHROPIC_COMPACTION_MODELS : list string :=
  ["claude-fable-5-1"; "claude-mythos-5-1"; "claude-fable-5"; "claude-mythos-5"; "claude-mythos-preview";
   "claude-opus-5-5"; "claude-opus-5"; "claude-opus-4-8"; "claude-opus-4-7"; "claude-opus-4-6"; "claude-sonnet-5-5";
   "claude-sonnet-5"; "claude-sonnet-4-6"; "claude-haiku-5-5"]%string.
(** Bare, or with a snapshot date. *)
Definition snapshot_suffix (rest : str) : bool :=
  (rest == []) ||
  match strip_prefix (lit "-") rest with
  | Some d => (byte_len d =? 8) && forallb is_ascii_digit d
  | None => false
  end.
Definition native_compaction (provider_lower model_lower : str) : bool :=
  (provider_lower == lit "anthropic") &&
  existsb (λ id, match strip_prefix (lit id) model_lower with Some rest => snapshot_suffix rest | None => false end)
    ANTHROPIC_COMPACTION_MODELS.

Definition heuristic_context_window (m p : str) : N :=
  if has m ["gpt-4-32k"%string] then 32000
  else if has m ["gemini-2.5"; "gemini-2.0"; "gemini-1.5-pro"]%string then 1000000
  else if has m ["gemini"%string] then 128000
  else if has m ["claude"%string] then 200000
  else if has m ["grok-4"; "grok-3"]%string then 256000
  else if has m ["grok"%string] then 131072
  else if has m ["deepseek-r1"; "deepseek-v3"]%string then 128000
  else if has m ["deepseek"%string] then 64000
  else if has m ["gpt-4o"%string] || begins m ["o1"; "o3"]%string then 128000
  else if has m ["gpt-4"%string] then 8192
  else if has m ["mistral"; "mixtral"]%string then 32000
  else if p == lit "xai" then 131072
  else 128000.

(** The text after the first [marker]. *)
Definition after_marker (marker : string) (m : str) : option str := snd <$> split_once m (lit marker).
Definition glm_version (model_lower : str) : option (N * N) :=
  rest ← after_marker "glm-"%string model_lower;
  let version := default [] (head (split_on (N.eqb 45) rest)) in
  let '(major, minor) := default (version, lit "0") (split_once version (lit ".")) in
  a ← u32_parse major; b ← u32_parse minor; Some (a, b).
Definition glm_context_window (model_lower : str) : option N :=
  '(major, minor) ← glm_version model_lower;
  if (major =? 4)%N && (minor =? 5)%N then Some 128000%N
  else if ((major =? 4) && (6 <=? minor))%N || (5 <=? major)%N then Some 200000%N
  else None.

(** The table, first hit first. *)
Definition known_capabilities (m : str) : option ModelCapabilities :=
  let caps t v th w c := Some (mkCaps t v th w c false) in
  if begins m ["gpt-4o"%string] then caps true true false 128000%N false
  else if (m == lit "gpt-4.5") || begins m ["gpt-4.5-"%string] then caps true true true 128000%N false
  else if begins m ["gpt-5"%string] then caps true true true 200000%N false
  else if begins m ["gpt-4-turbo"; "gpt-4-"]%string then
    caps true (has m ["vision"%string]) false (if has m ["32k"%string] then 32000%N else 128000%N) false
  else if begins m ["gpt-3.5"%string] then caps true false false 16384%N false
  else if begins m ["o1"%string] then caps true (has m ["gpt-4o"%string]) true 200000%N false
  else if begins m ["o3"; "o4"]%string then caps true true true 200000%N false
  else if has m ["claude-sonnet-4"; "claude-opus-4"; "claude-haiku-4"]%string then
    caps true true (negb (has m ["haiku"%string])) 200000%N true
  else if has m ["claude-3-7"; "claude-3.7"]%string then caps true true true 200000%N true
  else if has m ["claude-3-5"; "claude-3.5"]%string then caps true true false 200000%N true
  else if has m ["claude-3-opus"; "claude-3-haiku"; "claude-3-sonnet"]%string then caps true true false 200000%N false
  else if has m ["grok-4"%string] then caps true true true 256000%N false
  else if has m ["grok-3"%string] then caps true false (has m ["mini"; "reason"]%string) 131072%N false
  else if has m ["grok-2"%string] then caps true (has m ["vision"%string]) false 131072%N false
  else if has m ["grok"%string] then caps true false false 131072%N false
  else if has m ["deepseek-r1"%string] then caps false false true 128000%N false
  else if has m ["deepseek-v3"; "deepseek-chat"]%string then caps true (has m ["chat"%string]) false 128000%N false
  else if has m ["gemini-2.5-pro"; "gemini-2.5-flash"; "gemini-2.0-flash"]%string then
    caps true true (has m ["2.5"%string]) 1000000%N false
  else if has m ["gemini-1.5-pro"%string] then caps true true false 2000000%N false
  else if has m ["gemini-1.5-flash"%string] then caps true true false 1000000%N false
  else match glm_context_window m with
  | Some w => caps true false true w false
  | None =>
      if has m ["mistral-large"; "pixtral"]%string then caps true (has m ["pixtral"%string]) false 128000%N false
      else if has m ["codestral"; "mistral-small"]%string then caps true false false 32000%N false
      else None
  end.

Definition TOOL_PROVIDERS : list string :=
  ["openai"; "anthropic"; "google"; "google-antigravity"; "gemini"; "deepseek"; "openrouter"; "xai"; "groq"; "mistral";
   "together"; "ollama"]%string.
Definition guessed_capabilities (p m : str) (compaction : bool) : ModelCapabilities :=
  mkCaps (is_one_of p TOOL_PROVIDERS)
    (has m ["vision"; "gpt-4o"; "claude-3"; "claude-sonnet"; "claude-opus"; "gemini-2"; "gemini-1.5"; "grok-2-vision"]%string)
    (has m ["claude-sonnet-4"; "claude-opus-4"; "claude-4"; "claude-3-7"; "claude-3.7"; "gpt-4.5"; "gpt-5"]%string
     || begins m ["o1"; "o3"; "o4"]%string || has m ["grok-4"; "grok-3-mini"; "reasoner"; "thinking"]%string)
    (heuristic_context_window m p)
    ((p == lit "anthropic") &&
     has m ["claude-3-5"; "claude-3-7"; "claude-3.7"; "claude-3.5"; "claude-sonnet-4"; "claude-opus-4"; "claude-haiku-4"]%string)
    compaction.

Section names.
(** [char::to_lowercase] outside ASCII, from the Unicode tables. *)
Context (lower_other : rchar → str).
Definition to_lowercase (s : str) : str := mjoin ((λ c, if (c <? 128)%N then [ascii_lower c] else lower_other c) <$> s).

Definition detect_capabilities (provider model : str) : ModelCapabilities :=
  let m := to_lowercase model in
  let p := to_lowercase provider in
  let compaction := native_compaction p m in
  match known_capabilities m with
  | Some caps => with_compaction compaction caps
  | None => guessed_capabilities p m compaction
  end.
Definition known_context_window (model : str) : option N := context_window <$> known_capabilities (to_lowercase model).
(** [u32] settings, a [u64] answer. *)
Definition resolve_context_window (provider model : str) (configured api_context : option N) (fallback : N) : N :=
  let positive (o : option N) := match o with Some n => if (0 <? n)%N then Some n else None | None => None end in
  match positive configured, positive api_context, known_context_window model with
  | Some n, _, _ => n
  | None, Some n, _ => n
  | None, None, Some n => n
  | None, None, None =>
      let w := context_window (detect_capabilities provider model) in
      if (0 <? w)%N then w else N.max fallback 1
  end.
End names.

(** ** Reasoning effort *)

Inductive ReasoningEffort := Low | Medium | High | XHigh.
#[global] Instance ReasoningEffort_eq_dec : EqDecision ReasoningEffort.
Proof. solve_decision. Defined.
Definition ALL : list ReasoningEffort := [Low; Medium; High; XHigh].
Definition STANDARD : list ReasoningEffort := [Low; Medium; High].
Definition GLM : list ReasoningEffort := [Low; High; XHigh].

Definition effort_parse (s : str) : option ReasoningEffort :=
  let s := to_ascii_lowercase (trim s) in
  if is_one_of s ["low"; "minimal"]%string then Some Low
  else if is_one_of s ["medium"; "med"]%string then Some Medium
  else if s == lit "high" then Some High
  else if is_one_of s ["xhigh"; "max"; "ultra"]%string then Some XHigh
  else None.
Definition effort_str (e : ReasoningEffort) : str :=
  match e with Low => lit "low" | Medium => lit "medium" | High => lit "high" | XHigh => lit "xhigh" end.

Definition glm_effort_model (model_lower : str) : bool :=
  match glm_version model_lower with Some (major, _) => (5 <=? major)%N | None => false end.
Definition grok_version_at_least (model : str) (min_major min_minor : N) : bool :=
  match after_marker "grok-"%string model with
  | None => false
  | Some rest =>
      let ver := default rest (head (split_on (λ c, (c =? 45)%N || (c =? 95)%N) rest)) in
      match split_once ver (lit ".") with
      | Some (maj, min) =>
          let major := default 0%N (u32_parse maj) in
          let minor := default 0%N (u32_parse (take_while is_ascii_digit min)) in
          (min_major <? major)%N || ((major =? min_major) && (min_minor <=? minor))%N
      | None =>
          match u32_parse ver with
          | Some major => (min_major <? major)%N || ((major =? min_major) && (min_minor =? 0))%N
          | None => false
          end
      end
  end.
Definition model_allows_xhigh (provider model : str) : bool :=
  let p := to_ascii_lowercase provider in
  let m := to_ascii_lowercase model in
  if glm_effort_model m then true
  else if (p != lit "xai") && negb (has m ["grok"%string]) then false
  else grok_version_at_least m 4 6.
Definition default_effort (provider model : str) : option str :=
  let p := to_ascii_lowercase provider in
  let m := to_ascii_lowercase model in
  if is_one_of p ["openai"; "xai"; "openrouter"; "deepseek"]%string || begins m ["o1"; "o3"; "o4"]%string
     || has m ["gpt-5"; "grok-4"; "grok-3-mini"; "reasoner"]%string
  then Some (lit "medium")
  else if glm_effort_model m then Some (lit "high")
  else None.
Definition supported_efforts (provider model : str) : list ReasoningEffort :=
  match default_effort provider model with
  | None => []
  | Some _ =>
      if glm_effort_model (to_ascii_lowercase model) then GLM
      else if model_allows_xhigh provider model then ALL else STANDARD
  end.
Definition resolve_effort (provider model : str) (override_effort : option str) : option ReasoningEffort :=
  let levels := supported_efforts provider model in
  match levels with
  | [] => None
  | _ =>
      let want :=
        match override_effort ≫= effort_parse with
        | Some e => e
        | None => default Medium (default_effort provider model ≫= effort_parse)
        end in
      if bool_decide (want ∈ levels) then Some want else Some High
  end.
Definition ultrathink_effort (model : str) : ReasoningEffort :=
  if glm_effort_model (to_ascii_lowercase model) then XHigh else High.

(** ** Dialects and routing *)

Definition uses_harmony_dialect (provider model : str) : bool :=
  let p := to_ascii_lowercase provider in
  let m := to_ascii_lowercase model in
  if (p == lit "openai-codex") || has p ["codex"%string] then true
  else if is_one_of p ["openai"; "openrouter"; "azure"; "custom"]%string then has m ["gpt-5"; "codex"]%string
  else has m ["gpt-5"; "-codex"; "codex-"]%string.

Definition SMALL_MARKERS : list string :=
  ["haiku"; "mini"; "nano"; "flash"; "small"; "lite"; "8b"; "7b"; "3b"; "instant"]%string.
Definition is_already_small (model : str) : bool := has model SMALL_MARKERS.
Definition small_model_for (provider model : str) : option str :=
  if is_already_small model then None
  else if provider == lit "anthropic" then Some (lit "claude-haiku-4-5-20251001")
  else if provider == lit "openai" then Some (lit "gpt-4o-mini")
  else if provider == lit "google" then Some (lit "gemini-2.0-flash")
  else if provider == lit "google-antigravity" then Some (lit "gemini-3.5-flash-low")
  else if provider == lit "xai" then Some (lit "grok-3-mini")
  else if provider == lit "groq" then Some (lit "llama-3.1-8b-instant")
  else if provider == lit "mistral" then Some (lit "mistral-small-latest")
  else if provider == lit "deepseek" then Some (lit "deepseek-chat")
  else if provider == lit "together" then Some (lit "meta-llama/Meta-Llama-3.1-8B-Instruct-Turbo")
  else if provider == lit "openrouter" then
    if has model ["claude"%string] then Some (lit "anthropic/claude-haiku-4.5") else Some (lit "openai/gpt-4o-mini")
  else None.
(** An override, [provider/model] or a bare id. *)
Definition parse_override (provider raw : str) : str * str := default (provider, raw) (split_once raw (lit "/")).
Definition resolve_title_model (provider model : str) (override_model : option str) : str * str :=
  let raw := match override_model with Some raw => trim raw | None => [] end in
  if raw != [] then parse_override provider raw
  else (provider, default model (small_model_for (to_ascii_lowercase provider) (to_ascii_lowercase model))).
Definition resolve_turn_model (provider model user_text : str) (fast_override : option str) : str * str :=
  if negb (is_trivial_title_seed user_text) then (provider, model)
  else
    let raw := match fast_override with Some raw => trim raw | None => [] end in
    if raw != [] then parse_override provider raw else resolve_title_model provider model None.
Definition resolve_worker_model (provider model : str) (smol_override : option str) : str * str :=
  resolve_title_model provider model smol_override.
Definition resolve_agent_model (provider model agent_name : str) (plan_override : option str) : str * str :=
  let raw := match plan_override with Some raw => trim raw | None => [] end in
  if eq_ignore_ascii_case agent_name (lit "plan") && (raw != []) then resolve_title_model provider model (Some raw)
  else (provider, model).

(** ** What holds of them *)

Lemma glm_window_range m w : glm_context_window m = Some w → (128000 ≤ w)%N.
Proof.
  unfold glm_context_window. intros ([a b] & _ & H)%bind_Some. repeat case_match; try done; injection H as <-; lia.
Qed.
Lemma known_window_floor m c : known_capabilities m = Some c → (8192 ≤ context_window c)%N.
Proof.
  unfold known_capabilities. cbv zeta. intros H.
  repeat (match type of H with (if ?b then _ else _) = _ => destruct b end; [injection H as <-; cbn; try case_match; lia|]).
  destruct (glm_context_window m) as [w|] eqn:Ew; [injection H as <-; apply glm_window_range in Ew; cbn; lia|].
  repeat (match type of H with (if ?b then _ else _) = _ => destruct b end; [injection H as <-; cbn; lia|]). done.
Qed.
Lemma heuristic_positive m p : (8192 ≤ heuristic_context_window m p)%N.
Proof. unfold heuristic_context_window. repeat case_match; lia. Qed.

(** Every model has a usable context window: a configured one is taken
    first, then what the provider reports, then the table; in the end it is at least
    one token, and at least 8192 unless configured or reported smaller. *)
Theorem context_window_resolved lower provider model configured api fallback :
  let w := resolve_context_window lower provider model configured api fallback in
  (0 < w)%N ∧
  (∀ n, configured = Some n → 0 < n → w = n)%N ∧
  (configured = None ∨ configured = Some 0 → ∀ n, api = Some n → 0 < n → w = n)%N ∧
  (configured = None → api = None → 8192 ≤ w)%N.
Proof.
  cbv zeta. unfold resolve_context_window.
  assert (8192 ≤ context_window (detect_capabilities lower provider model))%N as Hd.
  { unfold detect_capabilities. destruct (known_capabilities _) as [c|] eqn:E.
    - apply known_window_floor in E. by destruct c.
    - apply heuristic_positive. }
  rewrite (proj2 (N.ltb_lt 0 (context_window (detect_capabilities lower provider model)))) by lia.
  unfold known_context_window.
  destruct configured as [n|]; [destruct (N.ltb_spec 0 n)|]; (destruct api as [k|]; [destruct (N.ltb_spec 0 k)|]);
    (destruct (known_capabilities (to_lowercase lower model)) as [c|] eqn:E; cbn; [pose proof (known_window_floor _ c E)|]);
    split_and!; intros; simplify_eq; try lia; destruct_or?; simplify_eq; lia.
Qed.

(** The effort that is sent is one the model accepts, whatever the
    user asks for, and none is sent exactly when the model takes none. *)
Theorem effort_accepted provider model override :
  match resolve_effort provider model override with
  | Some e => e ∈ supported_efforts provider model
  | None => supported_efforts provider model = []
  end.
Proof.
  unfold resolve_effort.
  assert (supported_efforts provider model = [] ∨ High ∈ supported_efforts provider model) as Hh.
  { unfold supported_efforts. destruct (default_effort provider model); [right|by left].
    unfold GLM, ALL, STANDARD. repeat case_match; set_solver. }
  destruct (supported_efforts provider model) as [|e l]; [done|]. case_bool_decide; [done|]. by destruct Hh.
Qed.

(** Routing to the cheap sibling is settled in one step: the model a
    worker is given has no cheaper sibling of its own. *)
Theorem worker_model_settled provider model :
  let '(p, m) := resolve_worker_model provider model None in resolve_worker_model p m None = (p, m).
Proof.
  unfold resolve_worker_model, resolve_title_model. cbn [negb]. rewrite bool_decide_eq_true_2 by done. cbn [negb].
  f_equal. destruct (small_model_for _ _) as [s|] eqn:E; cbn [default]; [|by rewrite E].
  unfold small_model_for in E. destruct (is_already_small (to_ascii_lowercase model)); [done|].
  repeat match type of E with context [bool_decide ?P] =>
    destruct (decide P) as [Hp|Hp]; [rewrite (bool_decide_eq_true_2 P Hp) in E|rewrite (bool_decide_eq_false_2 P Hp) in E; clear Hp];
    [rewrite Hp; clear -E; first [injection E as <-|destruct (has _ _); injection E as <-]; vm_compute; reflexivity|]
  end.
  discriminate E.
Qed.
