(* ===== verification/Control.v ===== *)
(** Control flow of the stateful components: computations over a state that may stop
    early, with the reason as a value, and the rules their proofs use. *)

From S2P Require Import Prelude.

(** Runs on a state [S]; gives an [A], or stops with an [X]. The state is kept when
    it stops. *)
Definition M (S X A : Type) : Type := S → (X + A) * S.

Section control.
Context {S X : Type}.

#[global] Instance control_ret : MRet (M S X) := λ A a s, (inr a, s).
#[global] Instance control_bind : MBind (M S X) := λ A B k m s,
  match m s with (inr a, s) => k a s | (inl x, s) => (inl x, s) end.
Definition stop {A} (x : X) : M S X A := λ s, (inl x, s).
Definition gets {A} (f : S → A) : M S X A := λ s, (inr (f s), s).
Definition modify (f : S → S) : M S X unit := λ s, (inr tt, f s).
(** [if b { ... }]. *)
Definition when (b : bool) (m : M S X unit) : M S X unit := if b then m else mret tt.
Fixpoint for_each {A} (l : list A) (f : A → M S X unit) : M S X unit :=
  match l with [] => mret tt | a :: r => f a ;; for_each r f end.

(** ** Reasoning *)

(** From [s], [m] ends in [Q], or stops in [E]. *)
Definition wp {A} (m : M S X A) (Q : A → S → Prop) (E : X → S → Prop) (s : S) : Prop :=
  match m s with (inr a, s') => Q a s' | (inl x, s') => E x s' end.

Lemma ctl_ret {A} (a : A) Q E s : Q a s → wp (mret a) Q E s.
Proof. done. Qed.
Lemma ctl_bind {A B} (m : M S X A) (k : A → M S X B) Q E s :
  wp m (λ a, wp (k a) Q E) E s → wp (m ≫= k) Q E s.
Proof. unfold wp, mbind, control_bind. by destruct (m s) as [[x|a] s']. Qed.
Lemma ctl_stop {A} x (Q : A → S → Prop) E s : E x s → wp (stop x) Q E s.
Proof. done. Qed.
Lemma ctl_gets {A} (f : S → A) Q E s : Q (f s) s → wp (gets f) Q E s.
Proof. done. Qed.
Lemma ctl_modify f Q E s : Q tt (f s) → wp (modify f) Q E s.
Proof. done. Qed.
Lemma ctl_mono {A} (m : M S X A) (Q Q' : A → S → Prop) (E E' : X → S → Prop) s :
  wp m Q E s → (∀ a s, Q a s → Q' a s) → (∀ x s, E x s → E' x s) → wp m Q' E' s.
Proof. unfold wp. destruct (m s) as [[x|a] s']; auto. Qed.
Lemma ctl_and {A} (m : M S X A) Q Q' E E' s :
  wp m Q E s → wp m Q' E' s → wp m (λ a s, Q a s ∧ Q' a s) (λ x s, E x s ∧ E' x s) s.
Proof. unfold wp. destruct (m s) as [[x|a] s']; auto. Qed.
Lemma ctl_when b m Q E s : (b = true → wp m Q E s) → (b = false → Q tt s) → wp (when b m) Q E s.
Proof. destruct b; intros H1 H2; [exact (H1 eq_refl)|exact (H2 eq_refl)]. Qed.
(** A loop keeps what its body keeps. *)
Lemma ctl_for_each {A} (l : list A) f (I : S → Prop) E s :
  I s → (∀ a s, a ∈ l → I s → wp (f a) (λ _, I) E s) → wp (for_each l f) (λ _, I) E s.
Proof.
  revert s; induction l as [|a l IH]; intros s HI Hf; [done|]. cbn [for_each]. apply ctl_bind.
  eapply ctl_mono; [apply Hf; [by left|done]|cbn; intros _ s' Hs'|done].
  apply IH; [done|]. intros b s'' Hb. apply Hf. by right.
Qed.
(** Leaving the state alone. *)
Lemma ctl_run {A} (m : M S X A) Q E s : wp m Q E s ↔ match m s with (inr a, s') => Q a s' | (inl x, s') => E x s' end.
Proof. done. Qed.

(** *** Computations that keep a property

    [m] keeps [P]; when it stops, [E] holds. *)
Definition keeps {A} (P : S → Prop) (E : X → S → Prop) (m : M S X A) : Prop := ∀ s, P s → wp m (λ _, P) E s.
Lemma keeps_bind {A B} P E (m : M S X A) (k : A → M S X B) : keeps P E m → (∀ a, keeps P E (k a)) → keeps P E (m ≫= k).
Proof. intros Hm Hk s Hs. apply ctl_bind. eapply ctl_mono; [by apply Hm| |done]. intros a s' Hs'. by apply Hk. Qed.
Lemma keeps_ret {A} P E (a : A) : keeps P E (mret a).
Proof. intros s Hs. by apply ctl_ret. Qed.
Lemma keeps_stop {A} (P : S → Prop) (E : X → S → Prop) x : (∀ s, P s → E x s) → keeps P E (stop (A := A) x).
Proof. intros HE s Hs. by apply ctl_stop, HE. Qed.
Lemma keeps_gets {A} P E (f : S → A) : keeps P E (gets f).
Proof. intros s Hs. by apply ctl_gets. Qed.
Lemma keeps_modify (P : S → Prop) E f : (∀ s, P s → P (f s)) → keeps P E (modify f).
Proof. intros Hf s Hs. by apply ctl_modify, Hf. Qed.
Lemma keeps_when P E b m : keeps P E m → keeps P E (when b m).
Proof. intros. destruct b; [done|apply keeps_ret]. Qed.
Lemma keeps_for_each {A} P E (l : list A) f : (∀ a, keeps P E (f a)) → keeps P E (for_each l f).
Proof. intros Hf. induction l as [|a l IH]; cbn [for_each]; [apply keeps_ret|]. by apply keeps_bind. Qed.

(** *** What a computation gives *)

Definition yields {A} (R : A → Prop) (m : M S X A) : Prop := ∀ s, wp m (λ a _, R a) (λ _ _, True) s.
Lemma yields_ret {A} (R : A → Prop) a : R a → yields R (mret a).
Proof. intros HR s. by apply ctl_ret. Qed.
Lemma yields_stop {A} (R : A → Prop) x : yields R (stop x).
Proof. intros s. by apply ctl_stop. Qed.
Lemma yields_bind {A B} (R : B → Prop) (m : M S X A) (k : A → M S X B) : (∀ a, yields R (k a)) → yields R (m ≫= k).
Proof. intros Hk s. apply ctl_bind. unfold wp at 1. destruct (m s) as [[x|a] s']; [done|apply Hk]. Qed.
Lemma yields_then {A B} (R' : A → Prop) (R : B → Prop) (m : M S X A) (k : A → M S X B) :
  yields R' m → (∀ a, R' a → yields R (k a)) → yields R (m ≫= k).
Proof. intros Hm Hk s. apply ctl_bind. eapply ctl_mono; [apply Hm|intros a s' Ha; by apply Hk|done]. Qed.
Lemma keeps_then {A B} P E (R : A → Prop) (m : M S X A) (k : A → M S X B) :
  keeps P E m → yields R m → (∀ a, R a → keeps P E (k a)) → keeps P E (m ≫= k).
Proof.
  intros Hm Hy Hk s Hs. apply ctl_bind. eapply ctl_mono; [exact (ctl_and _ _ _ _ _ _ (Hm s Hs) (Hy s))| |by intros ?? []].
  intros a s' [Hs' Ha]. by apply Hk.
Qed.
End control.

(** One step of a proof that a computation keeps a property; the hypotheses of
    [stop] and [modify] are left. *)
Ltac keeps_step :=
  match goal with
  | |- keeps _ _ (mret _) => apply keeps_ret
  | |- keeps _ _ (stop _) => apply keeps_stop
  | |- keeps _ _ (gets _) => apply keeps_gets
  | |- keeps _ _ (modify _) => apply keeps_modify
  | |- keeps _ _ (when _ _) => apply keeps_when
  | |- keeps _ _ (for_each _ _) => apply keeps_for_each; intros
  | |- keeps _ _ (_ ≫= _) => apply keeps_bind; [|intros]
  | |- keeps _ _ (match ?x with _ => _ end) => destruct x
  | |- keeps _ _ (let '(_, _) := ?x in _) => destruct x
  end.

(** A computation on a part of the state. *)
Definition zoom {S T X A} (get : S → T) (set : T → S → S) (m : M T X A) : M S X A := λ s,
  let '(r, t) := m (get s) in (r, set t s).
Lemma ctl_zoom {S T X A} (get : S → T) (set : T → S → S) (m : M T X A) Q E s :
  wp m (λ a t, Q a (set t s)) (λ x t, E x (set t s)) (get s) → wp (zoom get set m) Q E s.
Proof. unfold wp, zoom. by destruct (m (get s)) as [[x|a] t]. Qed.
(** Other reasons to stop. *)
Definition map_stop {S X Y A} (f : X → S → Y * S) (m : M S X A) : M S Y A := λ s,
  match m s with (inr a, s) => (inr a, s) | (inl x, s) => let '(y, s) := f x s in (inl y, s) end.
Lemma ctl_map_stop {S X Y A} (f : X → S → Y * S) (m : M S X A) Q E s :
  wp m Q (λ x s, E (f x s).1 (f x s).2) s → wp (map_stop f m) Q E s.
Proof. unfold wp, map_stop. destruct (m s) as [[x|a] s']; [by destruct (f x s')|done]. Qed.
