(* ===== verification/Compaction.v ===== *)
(** Compaction as the agent runs it ([agent/src/agent/compact.rs]): the cheap passes
    and hooks, the provider's own compaction, a summary by the model or the local
    one, and the summary prepared in the background. The replies of the provider,
    the clock, the artifact files and the user's cancel are the environment's. *)

From S2P Require Import Prelude RustStr Bytes Messages ToolPolicy ToolText Summary Session ErrorClass Models Control.

(** ** Prompts *)

Definition INSTRUCTIONS_HEAD : str :=
  lit "Your task is to produce a faithful, concise summary of the conversation so far so that a successor " ++
  lit "assistant can continue the work seamlessly after the earlier turns are discarded. The successor " ++
  lit "will see the user's original query plus this summary. Capture what is needed to continue " ++ [8212%N] ++
  lit " the user's explicit requests, your most recent actions, key technical details, file paths, " ++
  lit "commands, configuration, and architectural decisions " ++ [8212%N] ++
  lit " but be economical: prefer tight prose and short references over long verbatim dumps, and do not " ++
  lit "pad." ++ [cLF].
Definition INSTRUCTIONS_TAIL : str :=
  [cLF] ++ lit "CRITICAL: If earlier turns include a prior compaction summary (marked with a " ++ [cDQ] ++
  lit "This session is being continued" ++ [cDQ] ++ lit " preamble or " ++ [cDQ] ++ lit "[Compacted" ++ [cDQ] ++
  lit " stub), treat it as authoritative for the early history and carry its still-relevant information " ++
  lit "forward." ++ [cLF] ++ [cLF] ++
  lit "Think through the conversation in your private reasoning before writing; do NOT emit a separate " ++
  lit "analysis block. Output the final summary inside a single <summary>...</summary> block, organized " ++
  lit "into the following numbered sections. Include every section heading even if a section is empty " ++
  lit "(write " ++ [cDQ] ++ lit "None" ++ [cDQ] ++ lit " in that case):" ++ [cLF] ++ [cLF] ++
  lit "1. Primary Request and Intent: All of the user's explicit requests and their underlying intent, in " ++
  lit "detail. Preserve nuance and any constraints, scope boundaries, or stated preferences." ++ [cLF] ++
  lit "2. Key Technical Concepts: All important technologies, languages, frameworks, libraries, tools, and " ++
  lit "patterns discussed or relied upon." ++ [cLF] ++
  lit "3. Files and Code Sections: Every file examined, created, or modified. For each, give the full " ++
  lit "path, why it matters, and the relevant code " ++ [8212%N] ++
  lit " include full snippets of any code you wrote or changed (with the most recent edits in full), not " ++
  lit "just descriptions." ++ [cLF] ++
  lit "4. Errors and Fixes: Every error, failed command, or test/build failure encountered, the root " ++
  lit "cause, and exactly how it was fixed. Note any fix that came from user feedback verbatim." ++ [cLF] ++
  lit "5. Problem Solving: Problems already solved and any in-progress diagnosis or troubleshooting." ++ [cLF] ++
  lit "6. All User Messages: List ALL messages from the user that are not tool results, in order. Do NOT " ++
  lit "include this summarization instruction itself." ++ [cLF] ++
  lit "7. Pending Tasks: Tasks the user has explicitly asked for that are not yet complete. Do not invent " ++
  lit "tasks the user never requested." ++ [cLF] ++
  lit "8. Current Work: Precisely what you were doing immediately before this summary request." ++ [cLF] ++
  lit "9. Optional Next Step: The single next step that directly continues the most recent work." ++ [cLF] ++
  [cLF] ++
  lit "IMPORTANT: Do NOT call or use any tools. Respond with ONLY the <summary>...</summary> block as your " ++
  lit "text output.".

Definition compact_instructions (user_context : option str) : str :=
  let section :=
    match user_context with
    | Some c =>
        let context := trim c in
        if context == [] then []
        else [cLF; cLF] ++ lit "**User-provided context for this compaction:**" ++ [cLF] ++ context ++ [cLF; cLF] ++
             lit "Please incorporate this context into your summary, ensuring it is prominently addressed in the relevant sections." ++
             [cLF]
    | None => []
    end in
  INSTRUCTIONS_HEAD ++ section ++ INSTRUCTIONS_TAIL.
Definition build_compact_summary_prompt (transcript : str) (user_context : option str) : str :=
  compact_instructions user_context ++ [cLF; cLF] ++ lit "Conversation:" ++ [cLF] ++ transcript.
Definition NATIVE_NOTE_MAX_CHARS : nat := N.to_nat 8000.
Definition native_compact_instructions (user_context : option str) : str :=
  compact_instructions (take NATIVE_NOTE_MAX_CHARS <$> user_context).

Lemma length_trim s : length (trim s) ≤ length s.
Proof. destruct (trim_infix s) as (a & b & E). rewrite E at 2. rewrite !length_app. lia. Qed.

(** The instructions of a native compaction fit the 16384 characters the
    provider takes, however long the user's note. *)
Theorem native_instructions_fit (user_context : option str) :
  length (native_compact_instructions user_context) ≤ N.to_nat 16384.
Proof.
  unfold native_compact_instructions, compact_instructions.
  assert (N.of_nat (length INSTRUCTIONS_HEAD + length INSTRUCTIONS_TAIL) ≤ 7000)%N as Hfix by (vm_compute; discriminate).
  assert (N.of_nat (length (lit "**User-provided context for this compaction:**") +
    length (lit "Please incorporate this context into your summary, ensuring it is prominently addressed in the relevant sections.")) ≤ 200)%N
    as Hs by (vm_compute; discriminate).
  generalize dependent INSTRUCTIONS_HEAD. generalize dependent INSTRUCTIONS_TAIL.
  generalize dependent (lit "**User-provided context for this compaction:**").
  generalize dependent (lit "Please incorporate this context into your summary, ensuring it is prominently addressed in the relevant sections.").
  intros outro intro Hs tail head Hfix.
  destruct user_context as [c|]; cbn; [|rewrite length_app; lia].
  pose proof (length_trim (take NATIVE_NOTE_MAX_CHARS c)) as Ht. rewrite length_take in Ht. unfold NATIVE_NOTE_MAX_CHARS in *.
  case_bool_decide; cbn; repeat (rewrite length_app; cbn); lia.
Qed.

(** [threshold], lowered so that [percent] of the window stays free; a [usize], a
    [u8] and a [u64]. *)
Definition buffered_threshold (threshold percent window : N) : N :=
  N.min threshold (N.min (window * (100 - percent)) u64_max / 100).

Lemma buffer_leaves_room threshold percent window :
  (percent ≤ 100 → window ≤ u64_max / 100 →
   buffered_threshold threshold percent window * 100 + percent * window ≤ 100 * window)%N.
Proof.
  intros Hp Hw. unfold buffered_threshold.
  assert (window * (100 - percent) ≤ u64_max)%N as Hm.
  { transitivity (u64_max / 100 * 100)%N; [apply N.mul_le_mono; lia|unfold u64_max; vm_compute; discriminate]. }
  rewrite (N.min_l _ u64_max) by done.
  pose proof (N.mul_div_le (window * (100 - percent)) 100). nia.
Qed.

Section agent.
Context {Value Time W : Type} `{!Json Value} `{!EqDecision Time}.
Notation Message := (Message Value ImageSource Time).
Notation ContentBlock := (ContentBlock Value ImageSource).
Notation Session := (@Session Value Time).

(** What compaction meets: message timestamps and the monotonic clock (nanoseconds),
    whether a cancel of the user wins at a wait, artifact files, hooks, and the
    replies. [native_reply] is a response's stop reason and content. *)
Class CompactEnv := {
  now : W → Time;
  instant : W → N;
  interrupted : W → bool * W;
  artifact : W → str → str → option str * W;
  pre_compact_hooks : W → W;
  native_reply : str → str → str → list Message → str → W → option (option str * list ContentBlock) * W;
  summary_reply : str → str → str → str → W → option (list ContentBlock) * W;
  job_reply : W → option str * W;
  (** When a summary last failed, also one of a background job. *)
  summary_failed_at : W → option N;
  note_failure : W → W;
  (** A background summary of a transcript starts, or is aborted. *)
  spawn_summary : str → W → W;
  abort_summary : W → W }.
Context `{!CompactEnv}.

Record CompactSettings := mkSettings {
  compaction_threshold : N;
  compaction_buffer_percent : option N;
  configured_windows : gmap str N;
  fallback_context_tokens : N;
  compaction_llm : bool;
  compaction_native : bool;
  (** The registered providers. *)
  registry : list str }.
Context (self : CompactSettings) (session_id : str) (lower_other : rchar → str).

Definition has_provider (name : str) : bool := bool_decide (name ∈ registry self).
Definition compaction_threshold_for (provider model : str) : N :=
  match compaction_buffer_percent self with
  | None => compaction_threshold self
  | Some percent =>
      let configured :=
        match configured_windows self !! (provider ++ lit "/" ++ model) with
        | Some n => Some n
        | None => configured_windows self !! (lit "/" ++ model)
        end in
      let window := resolve_context_window lower_other provider model configured None (fallback_context_tokens self) in
      buffered_threshold (compaction_threshold self) percent window
  end.

(** ** State *)

Record Core := mkCore { core_session : Session; core_world : W; speculative : option (str * nat) }.
Inductive Halt := Panicked | Interrupted.
Notation C := (M Core Halt).

Definition set_session (s : Session) (c : Core) : Core := mkCore s (core_world c) (speculative c).
Definition set_world (w : W) (c : Core) : Core := mkCore (core_session c) w (speculative c).
Definition set_job (j : option (str * nat)) (c : Core) : Core := mkCore (core_session c) (core_world c) j.

Definition lift {A} (o : option A) : C A := match o with Some a => mret a | None => stop Panicked end.
Definition act {A} (f : W → A * W) : C A := λ c, let '(a, w) := f (core_world c) in (inr a, set_world w c).
Definition look {A} (f : W → A) : C A := gets (f ∘ core_world).
(** A wait; in a race with the user's cancel when [raced]. *)
Definition await {A} (raced : bool) (f : W → A * W) : C A :=
  b ← (if raced then act interrupted else mret false);
  if (b : bool) then stop Interrupted else act f.
Definition on_session {A} (f : Session → option (A * Session)) : C A :=
  s ← gets core_session;
  '(a, s) ← lift (f s);
  modify (set_session s) ;; mret a.
Definition session : C Session := gets core_session.

(** ** The passes *)

Definition spill_pass : C nat :=
  s ← session; w ← gets core_world;
  '(n, s, w) ← lift (spill_old_tool_results artifact s w);
  modify (set_world w ∘ set_session s) ;; mret n.
Definition cheap_passes : C unit :=
  on_session truncate_large_tool_results ;; spill_pass ;; on_session prune_old_tool_results ;; mret tt.
Definition run_pre_compact_hooks (raced : bool) : C unit := await raced (λ w, (tt, pre_compact_hooks w)).

(** [CompactOutcome::default()]. *)
Definition default_outcome : CompactOutcome := mkOutcome 0 0 0 0 [].

Definition SUMMARY_COOLDOWN : Duration := from_secs 600.
Definition cooling_down : C bool :=
  look (λ w, match summary_failed_at w with Some t => (instant w - t <? SUMMARY_COOLDOWN)%N | None => false end).

Definition summarize_with_model (raced : bool) (transcript provider_name model api_key : str) (user_context : option str) :
    C (option str) :=
  if trim transcript == [] then mret None
  else if negb (has_provider provider_name) then mret None
  else
    reply ← await raced (summary_reply provider_name model api_key (build_compact_summary_prompt transcript user_context));
    match reply with
    | Some content =>
        let text := trim (join [cLF] (omap (λ b, match b with BText t => Some t | _ => None end) content)) in
        mret (if text == [] then None else Some text)
    | None => act (λ w, (tt, note_failure w)) ;; mret None
    end.

Definition native_compaction_block (stop_reason : option str) (content : list ContentBlock) : option ContentBlock :=
  match content with
  | [BCompaction _ _ as block] => if stop_reason == Some (lit "compaction") then Some block else None
  | _ => None
  end.
Definition native_compaction_enabled (provider_name model api_key : str) : bool :=
  compaction_native self && compaction_llm self && negb (api_key == []) &&
  compaction (detect_capabilities lower_other provider_name model).
Definition native_compact (raced : bool) (provider_name model api_key : str) (user_context : option str) :
    C (option CompactOutcome) :=
  if negb (native_compaction_enabled provider_name model api_key) then mret None
  else
    s ← session;
    match native_compaction_prefix s with
    | None => mret None
    | Some (cut, prefix) =>
        if negb (has_provider provider_name) then mret None
        else
          reply ← await raced (native_reply provider_name model api_key prefix (native_compact_instructions user_context));
          match '(stop_reason, content) ← reply; native_compaction_block stop_reason content with
          | None => mret None
          | Some block =>
              at_ ← look now;
              o ← on_session (apply_native_compaction at_ cut block);
              mret (Some o)
          end
    end.

Definition full_replace (summary : str) : C CompactOutcome := at_ ← look now; on_session (apply_full_replace at_ summary).
Definition compact_with_summary (raced : bool) (summary : str) : C CompactOutcome :=
  cheap_passes ;;
  s ← session;
  if length (messages s) =? 0 then mret default_outcome
  else run_pre_compact_hooks raced ;; full_replace summary.

Definition compact_session (raced : bool) (provider_name model api_key : str) (user_context : option str) : C CompactOutcome :=
  cheap_passes ;;
  s ← session;
  if length (messages s) =? 0 then mret default_outcome
  else
    run_pre_compact_hooks raced ;;
    native ← native_compact raced provider_name model api_key user_context;
    match native with
    | Some outcome => mret outcome
    | None =>
        s ← session;
        let transcript := transcript_for_full_summary 0 s in
        let local := local_full_replace_summary s in
        cooling ← cooling_down;
        let want_llm := compaction_llm self && negb (api_key == []) && negb (trim transcript == []) &&
          bool_decide (is_Some (prefix_transcript_for_summary s)) && negb cooling in
        summary ← (if want_llm
                   then reply ← summarize_with_model raced transcript provider_name model api_key user_context;
                        mret (match reply with Some r => if trim r == [] then local else r | None => local end)
                   else mret local);
        full_replace summary
    end.

(** ** The summary prepared ahead *)

Definition SPECULATIVE_LEAD_PERCENT : N := 85.
Definition maybe_spawn_speculative_summary (provider_name model api_key : str) : C bool :=
  cooling ← cooling_down;
  if negb (compaction_llm self) || (api_key == []) || cooling || native_compaction_enabled provider_name model api_key
  then mret false
  else
    s ← session;
    match prefix_transcript_for_summary s with
    | None => mret false
    | Some (prefix_end, transcript) =>
        slot ← gets speculative;
        if slot == Some (session_id, prefix_end) then mret false
        else
          when (bool_decide (is_Some slot)) (act (λ w, (tt, abort_summary w))) ;;
          act (λ w, (tt, spawn_summary transcript w)) ;;
          modify (set_job (Some (session_id, prefix_end))) ;;
          mret true
    end.
Definition abort_speculative_summary : C unit :=
  slot ← gets speculative;
  when (bool_decide (is_Some slot)) (modify (set_job None) ;; act (λ w, (tt, abort_summary w))).
Definition take_speculative_summary (raced : bool) : C (option str) :=
  slot ← gets speculative;
  match slot with
  | None => mret None
  | Some (id, prefix_end) =>
      modify (set_job None) ;;
      s ← session;
      if (id == session_id) && (compaction_prefix_end s == Some prefix_end) then
        reply ← await raced job_reply;
        mret (match reply with Some summary => if trim summary == [] then None else Some summary | None => None end)
      else act (λ w, (tt, abort_summary w)) ;; mret None
  end.
(** The pass of a step over its threshold. *)
Definition compact_for_step (raced : bool) (provider_name model api_key : str) : C CompactOutcome :=
  prepared ← take_speculative_summary raced;
  match prepared with
  | Some summary => compact_with_summary raced summary
  | None => compact_session raced provider_name model api_key None
  end.
End agent.
