(* ===== verification/Turn.v ===== *)
(** The turn loop of the agent ([agent/src/agent/turn.rs], with what it uses of
    [agent/src/agent/mod.rs] and [agent/src/agent/prewalk.rs]): request, stream, tool
    batch, and again, until the model answers, the turn is stopped or it fails.

    The provider, the user and the clock are the environment: a stream is the list of
    what each wait for it yields. Status lines, usage and cost accounting, statistics,
    the response cache, early reads and the work after the turn (notification,
    memory) do not steer the loop and are left out. *)

From S2P Require Import Prelude RustStr Bytes Messages ToolPolicy Permission Paths Tokenize Parse Lower Assess ToolText Summary Session ErrorClass Retry Harmony Todo Schedule ToolStream Thinking StreamRules Models Control Compaction.

(** ** Text of a turn *)

(** The steps' texts, a blank line apart. *)
Definition append_step_text (final_text step : str) : str :=
  if trim step == [] then final_text
  else if trim final_text == [] then step
  else trim_end final_text ++ [cLF; cLF] ++ trim_start step.

Definition next_compact_failures (failures : nat) (still_over : bool) : nat := if still_over then S failures else 0.
Definition MAX_CONSECUTIVE_COMPACT_FAILURES : nat := 3.
Definition DOOM_LOOP_THRESHOLD : nat := 3.
Definition MAX_DOOM_REFUSALS : nat := 3.
Definition MAX_CUT_OFFS : nat := 3.
Definition NOT_RUN : str := lit "Tool not run: the turn was stopped before this call finished.".
Definition CUT_OFF_NOTE : str :=
  lit "Your last response was cut off at the output token limit, so none of its tool calls ran. Continue from " ++
  lit "where you stopped. Keep each response shorter: split a large file write into several smaller edits.".
Definition EDIT_TOOLS : list string := ["edit"; "write"; "apply_patch"; "ast_edit"]%string.

Inductive TurnEvent :=
| TTextDelta (text : str) | TThinkingDelta (text : str) | TDraftDiscarded (text thinking : str)
| TToolStart (id name : str) | TBatch (e : Schedule.TurnEvent) | TToolEnd (id content : str) (is_error : bool)
| TCancelled.

Section turn.
Context {Value Time W Re : Type} `{!Json Value} `{!JsonMake Value} `{!EqDecision Time}.
Notation Message := (Message Value ImageSource Time).
Notation MessageContent := (MessageContent Value ImageSource).
Notation ContentBlock := (ContentBlock Value ImageSource).
Notation Session := (@Session Value Time).
Notation ToolCall := (ToolCall Value).
Notation Core := (@Core Value Time W).
Notation ThinkingAccumulator := (@ThinkingAccumulator Value ImageSource).
Notation Assembler := (@Assembler Value).

(** ** Calls *)

Definition tool_call_signature (tc : ToolCall) : str := call_name tc ++ lit "|" ++ json_to_string (arguments tc).
(** How many of the last signatures are [first], counting on from [n], up to the
    threshold. *)
Fixpoint repeated (n : nat) (first : str) (recent_back : list str) : bool :=
  match recent_back with
  | sig :: r => if sig == first then (DOOM_LOOP_THRESHOLD <=? S n) || repeated (S n) first r else DOOM_LOOP_THRESHOLD <=? n
  | [] => DOOM_LOOP_THRESHOLD <=? n
  end.
Definition would_doom_loop (recent : list str) (calls : list ToolCall) : bool :=
  match calls with
  | [] => false
  | c :: _ =>
      let first := tool_call_signature c in
      if negb (forallb (λ c, tool_call_signature c == first) calls) then false
      else repeated (length calls) first (rev recent)
  end.
(** Push at the back, at most 16 kept. *)
Definition remember (recent : list str) (sig : str) : list str :=
  let l := recent ++ [sig] in drop (length l - 16) l.
Definition doom_refusal (tc : ToolCall) : ToolResult :=
  mkResult (call_id tc)
    (lit "Doom loop: tool " ++ RustStr.quoted (call_name tc) ++ lit " with the same arguments was repeated " ++
     digits (N.of_nat DOOM_LOOP_THRESHOLD) ++ lit "+ times. Stop retrying; change approach or ask the user.") true.

Definition CHECKPOINT_ACTIVE : str := lit "Checkpoint already active.".
Definition REWIND_DONE : str :=
  lit "Checkpoint already completed; continue from the retained rewind report instead of calling rewind again.".
Definition REWIND_NONE : str := lit "No active checkpoint. Create a checkpoint before calling rewind.".
Definition as_error (r : ToolResult) (text : str) : ToolResult := mkResult (tool_call_id r) text true.
(** A trimmed argument, unless it is blank. *)
Definition named_arg (tc : ToolCall) (key : string) (old : option str) : option str :=
  let v := trim (default [] (str_arg tc key)) in if v == [] then old else Some v.
Definition settle_one (session : Session) (tc : ToolCall) (r : ToolResult) (pending : option str * option str) :
    ToolResult * (option str * option str) :=
  let '(goal, report) := pending in
  if is_error r then (r, pending)
  else if call_name tc == lit "checkpoint" then
    match checkpoint session with
    | Some _ => (as_error r CHECKPOINT_ACTIVE, pending)
    | None => (r, (named_arg tc "goal"%string goal, report))
    end
  else if call_name tc == lit "rewind" then
    match checkpoint session with
    | None => (as_error r (match last_rewind_report session with Some _ => REWIND_DONE | None => REWIND_NONE end), pending)
    | Some _ => (r, (goal, named_arg tc "report"%string report))
    end
  else (r, pending).
Fixpoint settle_checkpoint_rewind (session : Session) (calls : list ToolCall) (results : list ToolResult)
    (pending : option str * option str) : list ToolResult * (option str * option str) :=
  match calls, results with
  | tc :: cs, r :: rs =>
      let '(r, pending) := settle_one session tc r pending in
      let '(rs, pending) := settle_checkpoint_rewind session cs rs pending in
      (r :: rs, pending)
  | _, _ => (results, pending)
  end.

(** ** Leaks of the Harmony dialect *)

(** [scan_json]; nested values are read [fuel] deep, and [serde_json] parses at most
    128 levels. *)
Fixpoint first_hit_in {A} (scan : A → option (option Hit)) (l : list A) : option (option Hit) :=
  match l with
  | [] => Some None
  | a :: r => h ← scan a; match h with Some h => Some (Some h) | None => first_hit_in scan r end
  end.
Fixpoint scan_json (fuel : nat) (v : Value) : option (option Hit) :=
  match fuel with
  | O => None
  | S k =>
      match json_view v with
      | JString s => scan_text s
      | JArray items => first_hit_in (scan_json k) items
      | JObject map => first_hit_in (scan_json k) (snd <$> map)
      | _ => Some None
      end
  end.
Definition JSON_DEPTH : nat := 129.
Definition harmony_leak_tools (calls : list ToolCall) : option (option Hit) :=
  first_hit_in (λ tc, scan_json JSON_DEPTH (arguments tc)) calls.
Definition harmony_leak_thinking (thinking : ThinkingAccumulator) (calls : list ToolCall) : option (option Hit) :=
  hit ← Thinking.harmony_leak thinking;
  match hit with Some h => Some (Some h) | None => harmony_leak_tools calls end.
Definition harmony_leak (visible : str) (thinking : ThinkingAccumulator) (calls : list ToolCall) : option (option Hit) :=
  hit ← scan_text visible;
  match hit with Some h => Some (Some h) | None => harmony_leak_thinking thinking calls end.

(** ** Requests *)

Fixpoint append_last_user (suffix : str) (back : list Message) : list Message :=
  match back with
  | [] => []
  | m :: r => if role m == User then append_model_suffix m suffix :: r else m :: append_last_user suffix r
  end.
(** [append_request_user_suffix]. *)
Definition append_request_user_suffix (ms : list Message) (suffix : str) : list Message :=
  rev (append_last_user suffix (rev ms)).

Definition open_todos_note (todos : list TodoItem) : option str :=
  match List.filter (λ t, negb (is_terminal (status t))) todos with
  | [] => None
  | open =>
      Some (lit "You stopped while your todo list still has open items:" ++ [cLF] ++
            join [cLF] ((λ t, lit "- " ++ line t) <$> open) ++ [cLF] ++
            lit "Continue with the next one. If an item is already done, no longer needed, or needs the user, " ++
            lit "update it with todowrite (completed or cancelled) and say why.")
  end.

Inductive StreamEvent :=
| SMessageStart | STextDelta (text : str) | SToolUse (id name : str) (input : Value)
| SToolUseDelta (id input_json_delta : str) | SThinking (text : str) | SThinkingDelta (text : str)
| SThinkingSignature (signature : str) | SRedactedThinking (data : str)
| SUsage | SCacheUsage | SMessageDelta (delta : Value) | SMessageStop | SError (message : str).
(** What a wait for the stream yields, and the answer to a request. *)
Inductive Poll := PEvent (e : StreamEvent) | PError (e : Error) | PStalled | PInterrupted.
Inductive Opened := OInterrupted | OFailed (e : Error) | OStream (polls : list Poll).

Definition stop_reason_is_limit (delta : Value) (key : string) : bool :=
  match json_get delta (lit key) ≫= val_as_str with
  | Some r => eq_ignore_ascii_case r (lit "length") || eq_ignore_ascii_case r (lit "max_tokens")
  | None => false
  end.
Definition is_output_limit_stop (delta : Value) : bool :=
  existsb (stop_reason_is_limit delta) ["stop_reason"; "finishReason"]%string.

(** ** The environment *)

(** What happens while a batch runs, as in [Schedule]. *)
Record BatchRun := mkBatch {
  b_cancelled : nat → bool; b_urgent : nat → bool;
  b_take : nat → ToolCall → option ToolResult; b_exec : nat → ToolCall → option ToolResult }.
Class TurnEnv := {
  turn_compact :: @CompactEnv Value Time W;
  (** Notices of background jobs that ended, and messages of the user. *)
  completions : W → list str * W;
  steered : W → list MessageContent * W;
  open_turn : str → str → str → list Message → W → Opened * W;
  stream_wait : W → W;
  (** Sleep before a retry: whether the user's cancel came first. *)
  sleep : Duration → W → bool * W;
  run_batch : list ToolCall → W → BatchRun * W;
  (** Instruction files first reached by a [read] of a path. *)
  nested_instructions : str → W → str * W;
  todo_list : W → list TodoItem }.
Context `{!TurnEnv}.

Record FallbackTarget := mkTarget { target_provider : str; target_model : str; target_api_key : str }.
Record AgentSettings := mkAgent {
  agent_name : str;
  compact_settings : CompactSettings;
  permission : PermissionSet;
  read_has_hooks : bool;
  stream_rules : list (@StreamRule Re);
  max_turns : option nat;
  stream_retry : Duration;
  stream_idle : Duration;
  (** The configured secrets of a provider, in order; [None]: no such section. *)
  credentials : str → option (list (str * str));
  fallback_models : list str;
  fallback_config_keys : gmap str str;
  prewalk : bool;
  model_smol : option str;
  home : option str;
  working_dir : str }.
(** What a turn runs with: the agent, the session, the process environment and the
    parameters of other components (Unicode case outside ASCII, regular
    expressions, dates, how deep a command is classified), the configured model
    and its provider, and the model-only text of the turn. *)
Class TurnSetting := {
  agent : AgentSettings;
  session_id : str;
  env_var : str → option str;
  lower_other : rchar → str;
  upper_other : rchar → str;
  is_match : Re → str → bool;
  http_date_delay : str → option Z;
  is_later_day : str → bool;
  assess_depth : nat;
  strong_provider : str;
  strong_model : str;
  turn_suffix : str }.
Context `{!TurnSetting}.

(** ** The state of a turn *)

Record Turn := mkTurn {
  core : Core;
  ledger : StreamRuleLedger;
  turn_count : nat;
  final_text : str;
  doom_refusals : nat;
  recent_tool_sigs : list str;
  compact_failures : nat;
  compact_paused : bool;
  overflow_retries : nat;
  harmony_retries : nat;
  cut_offs : nat;
  todos_written : bool;
  todos_reminded : bool;
  stream_drop_t0 : option N;
  stream_drops : nat;
  api_key : str;
  fallback : option (nat * FallbackTarget);
  turn_anchor : option Time;
  sticky_credential : option str;
  prewalk_handoff : option (str * str * FallbackTarget);
  sent : list TurnEvent;
  (** Not kept by the code: the finished steps, their texts and calls. *)
  finished_steps : list (str * list ToolCall) }.

Definition set_core (x : Core) (t : Turn) : Turn :=
  mkTurn x (ledger t) (turn_count t) (final_text t) (doom_refusals t) (recent_tool_sigs t) (compact_failures
    t) (compact_paused t) (overflow_retries t) (harmony_retries t) (cut_offs t) (todos_written t)
    (todos_reminded t) (stream_drop_t0 t) (stream_drops t) (api_key t) (fallback t) (turn_anchor t)
    (sticky_credential t) (prewalk_handoff t) (sent t) (finished_steps t).
Definition set_ledger (x : StreamRuleLedger) (t : Turn) : Turn :=
  mkTurn (core t) x (turn_count t) (final_text t) (doom_refusals t) (recent_tool_sigs t) (compact_failures t)
    (compact_paused t) (overflow_retries t) (harmony_retries t) (cut_offs t) (todos_written t) (todos_reminded
    t) (stream_drop_t0 t) (stream_drops t) (api_key t) (fallback t) (turn_anchor t) (sticky_credential t)
    (prewalk_handoff t) (sent t) (finished_steps t).
Definition set_turn_count (x : nat) (t : Turn) : Turn :=
  mkTurn (core t) (ledger t) x (final_text t) (doom_refusals t) (recent_tool_sigs t) (compact_failures t)
    (compact_paused t) (overflow_retries t) (harmony_retries t) (cut_offs t) (todos_written t) (todos_reminded
    t) (stream_drop_t0 t) (stream_drops t) (api_key t) (fallback t) (turn_anchor t) (sticky_credential t)
    (prewalk_handoff t) (sent t) (finished_steps t).
Definition set_final_text (x : str) (t : Turn) : Turn :=
  mkTurn (core t) (ledger t) (turn_count t) x (doom_refusals t) (recent_tool_sigs t) (compact_failures t)
    (compact_paused t) (overflow_retries t) (harmony_retries t) (cut_offs t) (todos_written t) (todos_reminded
    t) (stream_drop_t0 t) (stream_drops t) (api_key t) (fallback t) (turn_anchor t) (sticky_credential t)
    (prewalk_handoff t) (sent t) (finished_steps t).
Definition set_doom_refusals (x : nat) (t : Turn) : Turn :=
  mkTurn (core t) (ledger t) (turn_count t) (final_text t) x (recent_tool_sigs t) (compact_failures t)
    (compact_paused t) (overflow_retries t) (harmony_retries t) (cut_offs t) (todos_written t) (todos_reminded
    t) (stream_drop_t0 t) (stream_drops t) (api_key t) (fallback t) (turn_anchor t) (sticky_credential t)
    (prewalk_handoff t) (sent t) (finished_steps t).
Definition set_recent_tool_sigs (x : list str) (t : Turn) : Turn :=
  mkTurn (core t) (ledger t) (turn_count t) (final_text t) (doom_refusals t) x (compact_failures t)
    (compact_paused t) (overflow_retries t) (harmony_retries t) (cut_offs t) (todos_written t) (todos_reminded
    t) (stream_drop_t0 t) (stream_drops t) (api_key t) (fallback t) (turn_anchor t) (sticky_credential t)
    (prewalk_handoff t) (sent t) (finished_steps t).
Definition set_compact_failures (x : nat) (t : Turn) : Turn :=
  mkTurn (core t) (ledger t) (turn_count t) (final_text t) (doom_refusals t) (recent_tool_sigs t) x
    (compact_paused t) (overflow_retries t) (harmony_retries t) (cut_offs t) (todos_written t) (todos_reminded
    t) (stream_drop_t0 t) (stream_drops t) (api_key t) (fallback t) (turn_anchor t) (sticky_credential t)
    (prewalk_handoff t) (sent t) (finished_steps t).
Definition set_compact_paused (x : bool) (t : Turn) : Turn :=
  mkTurn (core t) (ledger t) (turn_count t) (final_text t) (doom_refusals t) (recent_tool_sigs t)
    (compact_failures t) x (overflow_retries t) (harmony_retries t) (cut_offs t) (todos_written t)
    (todos_reminded t) (stream_drop_t0 t) (stream_drops t) (api_key t) (fallback t) (turn_anchor t)
    (sticky_credential t) (prewalk_handoff t) (sent t) (finished_steps t).
Definition set_overflow_retries (x : nat) (t : Turn) : Turn :=
  mkTurn (core t) (ledger t) (turn_count t) (final_text t) (doom_refusals t) (recent_tool_sigs t)
    (compact_failures t) (compact_paused t) x (harmony_retries t) (cut_offs t) (todos_written t) (todos_reminded
    t) (stream_drop_t0 t) (stream_drops t) (api_key t) (fallback t) (turn_anchor t) (sticky_credential t)
    (prewalk_handoff t) (sent t) (finished_steps t).
Definition set_harmony_retries (x : nat) (t : Turn) : Turn :=
  mkTurn (core t) (ledger t) (turn_count t) (final_text t) (doom_refusals t) (recent_tool_sigs t)
    (compact_failures t) (compact_paused t) (overflow_retries t) x (cut_offs t) (todos_written t)
    (todos_reminded t) (stream_drop_t0 t) (stream_drops t) (api_key t) (fallback t) (turn_anchor t)
    (sticky_credential t) (prewalk_handoff t) (sent t) (finished_steps t).
Definition set_cut_offs (x : nat) (t : Turn) : Turn :=
  mkTurn (core t) (ledger t) (turn_count t) (final_text t) (doom_refusals t) (recent_tool_sigs t)
    (compact_failures t) (compact_paused t) (overflow_retries t) (harmony_retries t) x (todos_written t)
    (todos_reminded t) (stream_drop_t0 t) (stream_drops t) (api_key t) (fallback t) (turn_anchor t)
    (sticky_credential t) (prewalk_handoff t) (sent t) (finished_steps t).
Definition set_todos_written (x : bool) (t : Turn) : Turn :=
  mkTurn (core t) (ledger t) (turn_count t) (final_text t) (doom_refusals t) (recent_tool_sigs t)
    (compact_failures t) (compact_paused t) (overflow_retries t) (harmony_retries t) (cut_offs t) x
    (todos_reminded t) (stream_drop_t0 t) (stream_drops t) (api_key t) (fallback t) (turn_anchor t)
    (sticky_credential t) (prewalk_handoff t) (sent t) (finished_steps t).
Definition set_todos_reminded (x : bool) (t : Turn) : Turn :=
  mkTurn (core t) (ledger t) (turn_count t) (final_text t) (doom_refusals t) (recent_tool_sigs t)
    (compact_failures t) (compact_paused t) (overflow_retries t) (harmony_retries t) (cut_offs t) (todos_written
    t) x (stream_drop_t0 t) (stream_drops t) (api_key t) (fallback t) (turn_anchor t) (sticky_credential t)
    (prewalk_handoff t) (sent t) (finished_steps t).
Definition set_stream_drop_t0 (x : option N) (t : Turn) : Turn :=
  mkTurn (core t) (ledger t) (turn_count t) (final_text t) (doom_refusals t) (recent_tool_sigs t)
    (compact_failures t) (compact_paused t) (overflow_retries t) (harmony_retries t) (cut_offs t) (todos_written
    t) (todos_reminded t) x (stream_drops t) (api_key t) (fallback t) (turn_anchor t) (sticky_credential t)
    (prewalk_handoff t) (sent t) (finished_steps t).
Definition set_stream_drops (x : nat) (t : Turn) : Turn :=
  mkTurn (core t) (ledger t) (turn_count t) (final_text t) (doom_refusals t) (recent_tool_sigs t)
    (compact_failures t) (compact_paused t) (overflow_retries t) (harmony_retries t) (cut_offs t) (todos_written
    t) (todos_reminded t) (stream_drop_t0 t) x (api_key t) (fallback t) (turn_anchor t) (sticky_credential t)
    (prewalk_handoff t) (sent t) (finished_steps t).
Definition set_api_key (x : str) (t : Turn) : Turn :=
  mkTurn (core t) (ledger t) (turn_count t) (final_text t) (doom_refusals t) (recent_tool_sigs t)
    (compact_failures t) (compact_paused t) (overflow_retries t) (harmony_retries t) (cut_offs t) (todos_written
    t) (todos_reminded t) (stream_drop_t0 t) (stream_drops t) x (fallback t) (turn_anchor t) (sticky_credential
    t) (prewalk_handoff t) (sent t) (finished_steps t).
Definition set_fallback (x : option (nat * FallbackTarget)) (t : Turn) : Turn :=
  mkTurn (core t) (ledger t) (turn_count t) (final_text t) (doom_refusals t) (recent_tool_sigs t)
    (compact_failures t) (compact_paused t) (overflow_retries t) (harmony_retries t) (cut_offs t) (todos_written
    t) (todos_reminded t) (stream_drop_t0 t) (stream_drops t) (api_key t) x (turn_anchor t) (sticky_credential
    t) (prewalk_handoff t) (sent t) (finished_steps t).
Definition set_turn_anchor (x : option Time) (t : Turn) : Turn :=
  mkTurn (core t) (ledger t) (turn_count t) (final_text t) (doom_refusals t) (recent_tool_sigs t)
    (compact_failures t) (compact_paused t) (overflow_retries t) (harmony_retries t) (cut_offs t) (todos_written
    t) (todos_reminded t) (stream_drop_t0 t) (stream_drops t) (api_key t) (fallback t) x (sticky_credential t)
    (prewalk_handoff t) (sent t) (finished_steps t).
Definition set_sticky_credential (x : option str) (t : Turn) : Turn :=
  mkTurn (core t) (ledger t) (turn_count t) (final_text t) (doom_refusals t) (recent_tool_sigs t)
    (compact_failures t) (compact_paused t) (overflow_retries t) (harmony_retries t) (cut_offs t) (todos_written
    t) (todos_reminded t) (stream_drop_t0 t) (stream_drops t) (api_key t) (fallback t) (turn_anchor t) x
    (prewalk_handoff t) (sent t) (finished_steps t).
Definition set_prewalk_handoff (x : option (str * str * FallbackTarget)) (t : Turn) : Turn :=
  mkTurn (core t) (ledger t) (turn_count t) (final_text t) (doom_refusals t) (recent_tool_sigs t)
    (compact_failures t) (compact_paused t) (overflow_retries t) (harmony_retries t) (cut_offs t) (todos_written
    t) (todos_reminded t) (stream_drop_t0 t) (stream_drops t) (api_key t) (fallback t) (turn_anchor t)
    (sticky_credential t) x (sent t) (finished_steps t).
Definition set_sent (x : list TurnEvent) (t : Turn) : Turn :=
  mkTurn (core t) (ledger t) (turn_count t) (final_text t) (doom_refusals t) (recent_tool_sigs t)
    (compact_failures t) (compact_paused t) (overflow_retries t) (harmony_retries t) (cut_offs t) (todos_written
    t) (todos_reminded t) (stream_drop_t0 t) (stream_drops t) (api_key t) (fallback t) (turn_anchor t)
    (sticky_credential t) (prewalk_handoff t) x (finished_steps t).
Definition set_finished_steps (x : list (str * list ToolCall)) (t : Turn) : Turn :=
  mkTurn (core t) (ledger t) (turn_count t) (final_text t) (doom_refusals t) (recent_tool_sigs t)
    (compact_failures t) (compact_paused t) (overflow_retries t) (harmony_retries t) (cut_offs t) (todos_written
    t) (todos_reminded t) (stream_drop_t0 t) (stream_drops t) (api_key t) (fallback t) (turn_anchor t)
    (sticky_credential t) (prewalk_handoff t) (sent t) x.

(** How an iteration ends early: on to the next, out of the loop, or with an error. *)
Inductive Exit := XContinue | XBreak | XFail (e : Error) | XPanic.
Notation T := (M Turn Exit).

Definition cancelled_error : Error := EAgent (lit "Cancelled").
Definition emit (e : TurnEvent) : T unit := modify (λ t, set_sent (sent t ++ [e]) t).
Definition cancel {A} : T A := emit TCancelled ;; stop (XFail cancelled_error).
Definition lift_turn {A} (o : option A) : T A := match o with Some a => mret a | None => stop XPanic end.
(** Compaction within a turn: an interruption cancels the turn. *)
Definition on_core {A} (m : M Core Halt A) : T A :=
  map_stop (λ h t, match h with
                   | Panicked => (XPanic, t)
                   | Interrupted => (XFail cancelled_error, set_sent (sent t ++ [TCancelled]) t)
                   end) (zoom core set_core m).
Definition world {A} (f : W → A * W) : T A := on_core (act f).
Definition update_session (f : Session → Session) : T unit := on_core (modify (λ c, set_session (f (core_session c)) c)).
Definition get_session : T Session := on_core session.
Definition agent_note (text : str) : T unit := at_ ← on_core (look now); update_session (add_agent_note at_ text).

Definition active_model (t : Turn) : str * str :=
  match fallback t with Some (_, target) => (target_provider target, target_model target) | None => (strong_provider, strong_model) end.

(** ** Keys and fallbacks *)

Definition failover_api_key (provider current : str) : option (str * str) :=
  secrets ← credentials agent provider;
  let secrets := List.filter (λ e, negb (e.2 == [])) secrets in
  '(idx, _) ← list_find (λ e, e.2 = current) secrets;
  secrets !! (idx + 1).
Definition to_uppercase (s : str) : str :=
  mjoin ((λ c, if (c <? 128)%N then [if is_ascii_lower c then (c - 32)%N else c] else upper_other c) <$> s).
Definition target_key (provider active_provider active_key : str) : option str :=
  if provider == active_provider then Some active_key
  else match fallback_config_keys agent !! provider with
       | Some key => Some key
       | None => key ← env_var (to_uppercase provider ++ lit "_API_KEY"); if key == [] then None else Some key
       end.
Definition registered (provider : str) : bool := has_provider (compact_settings agent) provider.
Fixpoint next_fallback_from (idx : nat) (models : list str) (active_provider active_model active_key : str) :
    option (nat * FallbackTarget) :=
  match models with
  | [] => None
  | raw :: rest =>
      match
        '(provider, model) ← split_once (trim raw) (lit "/");
        if ((provider == active_provider) && (model == active_model)) || negb (registered provider) then None
        else key ← target_key provider active_provider active_key; Some (mkTarget provider model key)
      with
      | Some target => Some (idx, target)
      | None => next_fallback_from (S idx) rest active_provider active_model active_key
      end
  end.
Definition next_fallback (from : nat) (active_provider active_model active_key : str) : option (nat * FallbackTarget) :=
  next_fallback_from from (drop from (fallback_models agent)) active_provider active_model active_key.

(** A command too deep to classify is a stack overflow. *)
Definition is_mutating_call (call : ToolCall) : option bool :=
  if is_one_of (call_name call) EDIT_TOOLS then Some true
  else if call_name call != lit "bash" then Some false
  else
    a ← assess_fuel assess_depth (working_dir agent) (home agent) (default [] (str_arg call "command"));
    Some (level a != Safe).
Fixpoint any_mutating (calls : list ToolCall) : option bool :=
  match calls with
  | [] => Some false
  | c :: r => b ← is_mutating_call c; if (b : bool) then Some true else any_mutating r
  end.
Definition prewalk_resume (handoff : option (str * str * FallbackTarget)) : option FallbackTarget :=
  if negb (prewalk agent) then None
  else
    '(provider, model, target) ← handoff;
    if (provider != strong_provider) || (model != strong_model) || negb (registered (target_provider target)) then None
    else Some target.
Definition prewalk_target (calls : list ToolCall) (active_key : str) : option (option FallbackTarget) :=
  if negb (prewalk agent) then Some None
  else
    mutating ← any_mutating calls;
    if negb mutating then Some None
    else
      let '(provider, model) := resolve_worker_model strong_provider strong_model (model_smol agent) in
      if ((provider == strong_provider) && (model == strong_model)) || negb (registered provider) then Some None
      else Some (key ← target_key provider strong_provider active_key; Some (mkTarget provider model key)).

(** ** Before the request *)

Definition add_steered (content : MessageContent) : T unit :=
  at_ ← on_core (look now);
  update_session (match content with MText text => add_user_message at_ text | MBlocks bs => add_user_message_blocks at_ bs end).
Definition inject_background_completions : T unit := notices ← world completions; for_each notices agent_note.
Definition inject_steering : T unit := ms ← world steered; for_each ms add_steered.

(** Step limit: the turn keeps what it has. *)
Definition limit_note (max : nat) : str :=
  lit "Stopped at the step limit (" ++ digits (N.of_nat max) ++
  lit ") before a final answer; raise --max-turns to let it finish.".
Definition check_limit : T unit :=
  done ← gets turn_count;
  match max_turns agent with
  | Some max =>
      when (max <=? done)
        (modify (λ t, set_final_text (append_step_text (final_text t) ([91%N] ++ limit_note max ++ [93%N])) t) ;; stop XBreak)
  | None => mret tt
  end.

Definition token_count_now : T N := n ← on_core (on_session (λ s, Some (token_count_cached s))); mret (N.of_nat n).
(** [usize] arithmetic. *)
Definition sat (n : N) : N := N.min n usize_max.
Definition auto_compact (threshold : N) (provider model key : str) : T unit :=
  before ← token_count_now;
  if (threshold <? before)%N then
    interrupted_first ← world interrupted;
    if (interrupted_first : bool) then cancel
    else
      outcome ← on_core (compact_for_step (compact_settings agent) session_id lower_other true provider model key);
      modify (λ t, set_compact_failures
                (next_compact_failures (compact_failures t) (still_over outcome (N.to_nat threshold))) t) ;;
      modify (λ t, if MAX_CONSECUTIVE_COMPACT_FAILURES <=? compact_failures t then set_compact_paused true t else t)
  else
    when (sat (threshold * SPECULATIVE_LEAD_PERCENT) <=? sat (before * 100))%N
      (on_core (maybe_spawn_speculative_summary (compact_settings agent) session_id lower_other provider model key) ;; mret tt).
Definition prepare_context (provider model : str) : T unit :=
  on_core cheap_passes ;;
  let threshold := compaction_threshold_for (compact_settings agent) lower_other provider model in
  when (0 <? threshold)%N (n ← token_count_now;
    when (sat (threshold * 3) / 4 <? n)%N (on_core (on_session shake_old_tool_results) ;; mret tt)) ;;
  paused ← gets compact_paused;
  key ← gets api_key;
  when ((0 <? threshold)%N && negb paused) (auto_compact threshold provider model key).

(** The messages of the request, with the model-only text. *)
Definition build_request : T (list Message) :=
  s ← get_session;
  anchor ← gets turn_anchor;
  let pinned := match anchor with Some at_ => has_user_message_at at_ s | None => false end in
  when (negb (turn_suffix == []) && negb pinned)
    (let '(a, s) := pin_prompt_suffix turn_suffix s in
     update_session (λ _, s) ;; modify (set_turn_anchor a)) ;;
  s ← get_session;
  anchor ← gets turn_anchor;
  mret (match anchor with
        | None => if turn_suffix == [] then request_messages s else append_request_user_suffix (request_messages s) turn_suffix
        | Some _ => request_messages s
        end).

(** ** When the request does not open *)

Definition compact_after_overflow (provider model : str) : T unit :=
  modify (λ t, set_overflow_retries (S (overflow_retries t)) t) ;;
  key ← gets api_key;
  on_core (compact_session (compact_settings agent) lower_other false provider model key None) ;; mret tt.
Definition on_open_error {A} (provider model : str) (e : Error) : T A :=
  c ← lift_turn (classify http_date_delay is_later_day e);
  let kind := c_kind c in
  overflows ← gets overflow_retries;
  if (kind == ContextOverflow) && (overflows <? 1) then compact_after_overflow provider model ;; stop XContinue
  else
    key ← gets api_key;
    let next := '(name, secret) ← (if kind == RateLimited then failover_api_key provider key else None);
                if (secret == []) || (secret == key) then None else Some (name, secret) in
    match next with
    | Some (name, secret) => modify (set_api_key secret) ;; modify (set_sticky_credential (Some name)) ;; stop XContinue
    | None =>
        from ← gets (λ t, default 0 (fst <$> fallback t));
        match (if retryable kind then next_fallback from provider model key else None) with
        | Some (idx, target) =>
            modify (set_api_key (target_api_key target)) ;; modify (set_fallback (Some (S idx, target))) ;; stop XContinue
        | None => stop (XFail e)
        end
    end.

(** ** The stream *)

(** What has arrived of a step. *)
Record Draft := mkDraft {
  accumulated_text : str; accumulated_thinking : str; thinking_acc : ThinkingAccumulator; assembler : Assembler;
  hit_output_limit : bool }.
Definition new_draft : Draft := mkDraft [] [] new_accumulator new_assembler false.
Definition set_thinking_acc (a : ThinkingAccumulator) (d : Draft) : Draft :=
  mkDraft (accumulated_text d) (accumulated_thinking d) a (assembler d) (hit_output_limit d).
Definition set_assembler (a : Assembler) (d : Draft) : Draft :=
  mkDraft (accumulated_text d) (accumulated_thinking d) (thinking_acc d) a (hit_output_limit d).
(** The step goes on, is over, or is to be sent again. *)
Inductive Progress := Streaming (d : Draft) | Complete (d : Draft) | Retry (d : Draft).

(** [wait_stream_retry]: the wait before the step is sent again, or the end of the turn. *)
Definition stream_retry_delay (now_ first_drop : N) (drops : nat) (retryable : bool) : option Duration :=
  let elapsed := (now_ - first_drop)%N in
  if (stream_retry agent <? elapsed)%N then None
  else
    let remaining := (stream_retry agent - elapsed)%N in
    if (remaining =? 0)%N || negb retryable then None
    else Some (N.min (backoff_for_attempt default_policy (drops + 1)) remaining).
Definition wait_stream_retry (e : Error) : T unit :=
  now_ ← on_core (look instant);
  modify (λ t, set_stream_drop_t0 (Some (default now_ (stream_drop_t0 t))) t) ;;
  first_drop ← gets (λ t, default now_ (stream_drop_t0 t));
  drops ← gets stream_drops;
  c ← lift_turn (classify http_date_delay is_later_day e);
  match stream_retry_delay now_ first_drop drops (c_retryable c) with
  | None => stop (XFail e)
  | Some delay =>
      modify (set_stream_drops (S drops)) ;;
      c ← world (sleep delay);
      if (c : bool) then cancel else mret tt
  end.
Definition on_stream_error (provider model : str) (kind : ErrorKind) (e : Error) (d : Draft) : T Progress :=
  overflows ← gets overflow_retries;
  (if (kind == ContextOverflow) && (overflows <? 1) then compact_after_overflow provider model else wait_stream_retry e) ;;
  mret (Retry d).

Definition rule_note (r : @StreamRule Re) : str :=
  lit "<whycodes_rule name=" ++ [cDQ] ++ rule_name r ++ [cDQ] ++ lit ">" ++ [cLF] ++ hint r ++ [cLF] ++
  lit "The previous draft was discarded. Continue without violating this rule." ++ [cLF] ++ lit "</whycodes_rule>".
Definition check_stream_rules (channel : StreamChannel) (text : str) : T bool :=
  l ← gets ledger;
  match first_hit is_match (stream_rules agent) channel text l with
  | None => mret false
  | Some rule => modify (set_ledger (record l (rule_name rule))) ;; agent_note (rule_note rule) ;; mret true
  end.
Definition watch_tool_args : bool := existsb (λ r, has_scope r ScopeToolArgs) (stream_rules agent).
Definition check_tool_args_rules (a : Assembler) : T bool :=
  if negb watch_tool_args then mret false
  else match last_updated a with
       | None => mret false
       | Some (_, tool, args) => check_stream_rules (ChToolArgs tool) args
       end.
Definition checked (hit : bool) (d : Draft) : Progress := if hit then Retry d else Streaming d.
Definition on_thinking (text : str) (d : Draft) : T Progress :=
  if text == [] then mret (Streaming d)
  else
    emit (TThinkingDelta text) ;;
    let d := mkDraft (accumulated_text d) (accumulated_thinking d ++ text) (push_text text (thinking_acc d)) (assembler d)
               (hit_output_limit d) in
    hit ← check_stream_rules ChThinking (accumulated_thinking d);
    mret (checked hit d).
Definition on_event (provider model : str) (d : Draft) (e : StreamEvent) : T Progress :=
  match e with
  | STextDelta text =>
      emit (TTextDelta text) ;;
      let d := mkDraft (accumulated_text d ++ text) (accumulated_thinking d) (Thinking.flush (thinking_acc d)) (assembler d)
                 (hit_output_limit d) in
      hit ← check_stream_rules ChText (accumulated_text d);
      mret (checked hit d)
  | SToolUse id name input =>
      a ← lift_turn (on_tool_use (assembler d) id name input);
      let d := set_assembler a (set_thinking_acc (Thinking.flush (thinking_acc d)) d) in
      hit ← check_tool_args_rules a;
      mret (checked hit d)
  | SToolUseDelta id delta =>
      a ← lift_turn (on_tool_use_delta (assembler d) id delta);
      hit ← check_tool_args_rules a;
      mret (checked hit (set_assembler a d))
  | SThinking text | SThinkingDelta text => on_thinking text d
  | SThinkingSignature s => mret (Streaming (set_thinking_acc (push_signature s (thinking_acc d)) d))
  | SRedactedThinking data => mret (Streaming (set_thinking_acc (push_redacted data (thinking_acc d)) d))
  | SMessageStop => mret (Complete d)
  | SUsage | SCacheUsage | SMessageStart => mret (Streaming d)
  | SMessageDelta delta =>
      mret (Streaming (mkDraft (accumulated_text d) (accumulated_thinking d) (thinking_acc d) (assembler d)
                         (hit_output_limit d || is_output_limit_stop delta)))
  | SError message =>
      c ← lift_turn (classify_message http_date_delay is_later_day message);
      on_stream_error provider model (c_kind c) (ELlm (mkTransport Unknown message)) d
  end.

(** The text and thinking that arrived before a cancel are kept. *)
Definition keep_draft (d : Draft) : T unit :=
  let blocks := into_blocks (thinking_acc d) ++ (if accumulated_text d == [] then [] else [BText (accumulated_text d)]) in
  when (negb (accumulated_text d == [])) (modify (λ t, set_final_text (append_step_text (final_text t) (accumulated_text d)) t)) ;;
  when (negb (length blocks =? 0)) (at_ ← on_core (look now); update_session (add_assistant_message at_ blocks)).
Definition stalled_error : Error :=
  ELlm (mkTransport Timeout (lit "stream stalled: no data for " ++ digits (stream_idle agent / from_secs 1)%N ++ lit " s")).
Definition failed_poll (provider model : str) (e : Error) (d : Draft) : T Progress :=
  c ← lift_turn (classify http_date_delay is_later_day e);
  on_stream_error provider model (c_kind c) e d.
Definition on_poll (provider model : str) (d : Draft) (p : Poll) : T Progress :=
  world (λ w, (tt, stream_wait w)) ;;
  match p with
  | PInterrupted => keep_draft d ;; cancel
  | PStalled => failed_poll provider model stalled_error d
  | PError e => failed_poll provider model e d
  | PEvent e => on_event provider model d e
  end.
(** The end of the list is the end of the stream. *)
Fixpoint drain (provider model : str) (polls : list Poll) (d : Draft) : T Progress :=
  match polls with
  | [] => mret (Complete d)
  | p :: rest =>
      progress ← on_poll provider model d p;
      match progress with Streaming d => drain provider model rest d | _ => mret progress end
  end.

(** ** When the stream is over *)

Definition cut_calls (d : Draft) (calls : list ToolCall) : T (bool * list ToolCall) :=
  n ← gets cut_offs;
  if hit_output_limit d then
    let cut_off := n <? MAX_CUT_OFFS in
    modify (set_cut_offs (if cut_off then S n else n)) ;; mret (cut_off, [])
  else modify (set_cut_offs 0) ;; mret (false, calls).
Definition check_leak (harmony : bool) (d : Draft) (calls : list ToolCall) : T unit :=
  when harmony
    (hit ← lift_turn (harmony_leak (accumulated_text d) (thinking_acc d) calls);
     match hit with
     | None => mret tt
     | Some h =>
         n ← gets harmony_retries;
         if 2 <=? n
         then stop (XFail (EAgent (Harmony.summary h ++ lit "; stopped after " ++ digits (N.of_nat n) ++ lit " retries")))
         else modify (set_harmony_retries (S n)) ;; stop XContinue
     end).
Definition use_of (tc : ToolCall) : ContentBlock := BToolUse (call_id tc) (call_name tc) (arguments tc).
Definition step_blocks (d : Draft) (calls : list ToolCall) : list ContentBlock :=
  into_blocks (thinking_acc d) ++ (if accumulated_text d == [] then [] else [BText (accumulated_text d)]) ++ (use_of <$> calls).
(** The step counts: its message joins the transcript. *)
Definition record_step (d : Draft) (calls : list ToolCall) : T unit :=
  for_each calls (λ tc, emit (TToolStart (call_id tc) (call_name tc))) ;;
  modify (λ t, set_turn_count (S (turn_count t)) t) ;;
  modify (λ t, set_finished_steps (finished_steps t ++ [(accumulated_text d, calls)]) t) ;;
  when (negb (accumulated_text d == [])) (modify (λ t, set_final_text (append_step_text (final_text t) (accumulated_text d)) t)) ;;
  let blocks := step_blocks d calls in
  when (negb (length blocks =? 0)) (at_ ← on_core (look now); update_session (add_assistant_message at_ blocks)).
(** A model that stops with open items on the list it wrote is reminded once. *)
Definition remind_todos (calls : list ToolCall) : T unit :=
  written ← gets todos_written;
  reminded ← gets todos_reminded;
  note ← (if agent_name agent == lit "plan" then mret None else on_core (look (open_todos_note ∘ todo_list)));
  match note with
  | Some note =>
      when ((length calls =? 0) && written && negb reminded)
        (modify (set_todos_reminded true) ;; agent_note note ;; stop XContinue)
  | None => mret tt
  end.

(** ** Tools *)

Definition remember_calls (calls : list ToolCall) : T unit :=
  modify (λ t, set_recent_tool_sigs (foldl remember (recent_tool_sigs t) (tool_call_signature <$> calls)) t).
Definition refuse_doom_loop (calls : list ToolCall) : T (list ToolResult) :=
  modify (λ t, set_doom_refusals (S (doom_refusals t)) t) ;;
  for_each calls (λ tc, emit (TToolEnd (call_id tc) (res_content (doom_refusal tc)) true)) ;;
  remember_calls calls ;;
  mret (doom_refusal <$> calls).

Definition not_run_result (tc : ToolCall) : ToolResult := mkResult (call_id tc) NOT_RUN true.
Definition close_unanswered_calls (calls : list ToolCall) (done : list ToolResult) : list ToolResult :=
  done ++ (not_run_result <$> drop (length done) calls).
Definition add_results (results : list ToolResult) : T unit :=
  at_ ← on_core (look now);
  on_core (on_session (λ s, s ← add_tool_results at_ results s; Some (tt, s))).
Definition hand_off (calls : list ToolCall) : T unit :=
  current ← gets fallback;
  match current with
  | Some _ => mret tt
  | None =>
      key ← gets api_key;
      target ← lift_turn (prewalk_target calls key);
      match target with
      | None => mret tt
      | Some target =>
          modify (set_prewalk_handoff (Some (strong_provider, strong_model, target))) ;;
          modify (set_api_key (target_api_key target)) ;;
          modify (set_fallback (Some (0, target)))
      end
  end.
Definition execute_batch (calls : list ToolCall) : T (list ToolResult) :=
  b ← world (run_batch calls);
  let '(outcome, (results, events)) :=
    run_tool_calls (permission agent) (read_has_hooks agent) false (b_cancelled b) (b_urgent b) (b_take b) (b_exec b) calls [] in
  for_each events (λ e, emit (TBatch e)) ;;
  match outcome with
  | Schedule.Cancelled => add_results (close_unanswered_calls calls results) ;; stop (XFail cancelled_error)
  | Finished => hand_off calls ;; remember_calls calls ;; mret results
  end.

(** ** After the batch *)

Definition read_path_for (calls : list ToolCall) (r : ToolResult) : str :=
  foldl (λ path tc, if (call_id tc == tool_call_id r) && (call_name tc == lit "read") && negb (is_error r)
                    then default [] (str_arg tc "path") else path) [] calls.
Fixpoint attach_nested_instructions (calls : list ToolCall) (results : list ToolResult) : T (list ToolResult) :=
  match results with
  | [] => mret []
  | r :: rest =>
      let path := read_path_for calls r in
      extra ← (if path == [] then mret [] else world (nested_instructions path));
      rest ← attach_nested_instructions calls rest;
      mret (mkResult (tool_call_id r) (res_content r ++ extra) (is_error r) :: rest)
  end.
Definition failure_note (calls : list ToolCall) (r : ToolResult) : str :=
  let name := match List.find (λ c, call_id c == tool_call_id r) calls with Some c => call_name c | None => lit "tool" end in
  RustStr.quoted name ++ lit " failed; its output is in the tool result above. Correct your approach.".
Definition failure_notes (doom_loop : bool) (calls : list ToolCall) (results : list ToolResult) : list str :=
  if doom_loop then [] else failure_note calls <$> List.filter is_error results.
Definition after_batch (doom_loop : bool) (calls : list ToolCall) (results : list ToolResult) : T unit :=
  results ← attach_nested_instructions calls results;
  s ← get_session;
  let '(results, (goal, report)) := settle_checkpoint_rewind s calls results (None, None) in
  let notes := failure_notes doom_loop calls results in
  add_results results ;;
  at_ ← on_core (look now);
  match goal with Some goal => update_session (mark_checkpoint at_ goal) | None => mret tt end ;;
  match report with Some report => update_session (λ s, (apply_rewind at_ report s).2) | None => mret tt end ;;
  when (negb (length notes =? 0)) (agent_note (join [cLF] notes)) ;;
  refusals ← gets doom_refusals;
  when (MAX_DOOM_REFUSALS <=? refusals) (stop XBreak).
Definition run_calls (calls : list ToolCall) : T unit :=
  modify (λ t, set_todos_written (todos_written t || existsb (λ tc, is_one_of (call_name tc) ["todowrite"; "todo"]%string) calls) t) ;;
  recent ← gets recent_tool_sigs;
  let doom_loop := would_doom_loop recent calls in
  results ← (if doom_loop then refuse_doom_loop calls else execute_batch calls);
  after_batch doom_loop calls results.

Definition finish_step (harmony : bool) (d : Draft) : T unit :=
  modify (set_stream_drop_t0 None) ;; modify (set_stream_drops 0) ;;
  calls ← lift_turn (ToolStream.finish (assembler d));
  '(cut_off, calls) ← cut_calls d calls;
  check_leak harmony d calls ;;
  record_step d calls ;;
  when cut_off (agent_note CUT_OFF_NOTE ;; stop XContinue) ;;
  remind_todos calls ;;
  if length calls =? 0 then stop XBreak else run_calls calls.

(** ** The loop *)

Definition discard (d : Draft) : T unit :=
  when (negb (accumulated_text d == []) || negb (accumulated_thinking d == []))
    (emit (TDraftDiscarded (accumulated_text d) (accumulated_thinking d))).
Definition iteration : T unit :=
  '(provider, model) ← gets active_model;
  inject_background_completions ;;
  inject_steering ;;
  stopped ← world interrupted;
  when stopped cancel ;;
  check_limit ;;
  prepare_context provider model ;;
  request ← build_request;
  key ← gets api_key;
  opened ← world (open_turn provider model key request);
  match opened with
  | OInterrupted => cancel
  | OFailed e => on_open_error provider model e
  | OStream polls =>
      modify (λ t, set_sticky_credential (Some (default (lit "default") (sticky_credential t))) t) ;;
      progress ← drain provider model polls new_draft;
      match progress with
      | Retry d => discard d
      | Complete d | Streaming d => finish_step (uses_harmony_dialect provider model) d
      end
  end.

Inductive TurnResult := Reply (text : str) | Failed (e : Error) | Panic.
(** [None]: not over after [fuel] iterations. *)
Fixpoint turn_loop (fuel : nat) (t : Turn) : option (TurnResult * Turn) :=
  match fuel with
  | O => None
  | S k =>
      match iteration t with
      | (inl XContinue, t) | (inr _, t) => turn_loop k t
      | (inl XBreak, t) => Some (Reply (final_text t), t)
      | (inl (XFail e), t) => Some (Failed e, t)
      | (inl XPanic, t) => Some (Panic, t)
      end
  end.
(** The state a turn starts in; a hand-off of an earlier turn is resumed. *)
Definition start_turn (c : Core) (l : StreamRuleLedger) (key : str) (sticky : option str)
    (handoff : option (str * str * FallbackTarget)) : Turn :=
  let resumed := prewalk_resume handoff in
  mkTurn c (begin_turn l) 0 [] 0 [] 0 false 0 0 0 false false None 0
    (match resumed with Some target => target_api_key target | None => key end)
    (match resumed with Some target => Some (0, target) | None => None end) None sticky handoff [] [].
End turn.
