(* ===== verification/TurnFacts.v ===== *)
(** The turn loop ends: with a step limit, rules that do not fire without end and
    distinct keys, whatever the model and the provider do. *)

From S2P Require Import Prelude RustStr Bytes Messages ToolPolicy Permission Paths Tokenize Parse Lower Assess ToolText Summary Session SessionFacts ErrorClass Retry Harmony Todo Schedule ToolStream Thinking StreamRules Models Control Compaction Turn.

(** ** Lexicographic measures as numbers *)

Fixpoint radix (bounds : list nat) : nat := match bounds with [] => 1 | b :: r => S b * radix r end.
Fixpoint encode (bounds xs : list nat) : nat :=
  match bounds, xs with b :: bs, x :: r => x * radix bs + encode bs r | _, _ => 0 end.
(** Smaller at some place, equal before it. *)
Fixpoint lex_lt (xs ys : list nat) : Prop :=
  match xs, ys with x :: xr, y :: yr => x < y ∨ (x = y ∧ lex_lt xr yr) | _, _ => False end.

Lemma encode_bound bounds xs : Forall2 (λ x b, x ≤ b) xs bounds → encode bounds xs < radix bounds.
Proof. induction 1 as [|x b xs bs H _ IH]; cbn; [lia|nia]. Qed.
Lemma encode_lt bounds xs ys :
  Forall2 (λ x b, x ≤ b) xs bounds → Forall2 (λ x b, x ≤ b) ys bounds → lex_lt xs ys → encode bounds xs < encode bounds ys.
Proof.
  intros Hx. revert ys. induction Hx as [|x b xs bs Hx Hxs IH]; intros ys Hy; [by inversion Hy|].
  inversion Hy as [|y b' yr bs' Hyb Hys]; subst. cbn. intros [Hlt|[-> Hl]].
  - pose proof (encode_bound _ _ Hxs). nia.
  - specialize (IH _ Hys Hl). lia.
Qed.

Section termination.
Context {Value Time W Re : Type} `{!Json Value} `{!JsonMake Value} `{!EqDecision Time} `{!@TurnEnv Value Time W}.
Notation Core := (@Core Value Time W).
Notation Turn := (@Turn Value Time W).
Notation Session := (@Session Value Time).

(** Time passes in the environment: never back, and a request takes some. *)
Record clock_runs : Prop := {
  cr_interrupted (w : W) : (instant w ≤ instant (interrupted w).2)%N;
  cr_artifact w a b : (instant w ≤ instant (artifact w a b).2)%N;
  cr_hooks w : (instant w ≤ instant (pre_compact_hooks w))%N;
  cr_native a b c d e w : (instant w ≤ instant (native_reply a b c d e w).2)%N;
  cr_summary a b c d w : (instant w ≤ instant (summary_reply a b c d w).2)%N;
  cr_job w : (instant w ≤ instant (job_reply w).2)%N;
  cr_failure w : (instant w ≤ instant (note_failure w))%N;
  cr_spawn a w : (instant w ≤ instant (spawn_summary a w))%N;
  cr_abort w : (instant w ≤ instant (abort_summary w))%N;
  cr_completions w : (instant w ≤ instant (completions w).2)%N;
  cr_steered w : (instant w ≤ instant (steered w).2)%N;
  cr_wait w : (instant w ≤ instant (stream_wait w))%N;
  cr_sleep d w : (instant w ≤ instant (sleep d w).2)%N;
  cr_batch calls w : (instant w ≤ instant (run_batch calls w).2)%N;
  cr_nested p w : (instant w ≤ instant (nested_instructions p w).2)%N;
  cr_open p m k ms w : (instant w < instant (open_turn p m k ms w).2)%N }.
Context (Hclock : clock_runs).

(** ** Compaction takes its time *)

Definition core_clock (c : Core) : N := instant (core_world c).
Definition timed {A} (m : M Core Halt A) : Prop :=
  ∀ c, wp m (λ _ c', (core_clock c ≤ core_clock c')%N) (λ _ c', (core_clock c ≤ core_clock c')%N) c.

Lemma timed_ret {A} (a : A) : timed (mret a).
Proof. intros c. apply ctl_ret. lia. Qed.
Lemma timed_stop {A} h : timed (stop (A := A) h).
Proof. intros c. apply ctl_stop. lia. Qed.
Lemma timed_gets {A} (f : Core → A) : timed (gets f).
Proof. intros c. apply ctl_gets. lia. Qed.
Lemma timed_bind {A B} (m : M Core Halt A) (k : A → M Core Halt B) : timed m → (∀ a, timed (k a)) → timed (m ≫= k).
Proof.
  intros Hm Hk c. apply ctl_bind. eapply ctl_mono; [apply Hm|cbn; intros a c' Hc|done].
  eapply ctl_mono; [apply Hk|cbn; intros; lia..].
Qed.
Lemma timed_modify f : (∀ c, core_clock (f c) = core_clock c) → timed (modify f).
Proof. intros Hf c. apply ctl_modify. rewrite Hf. lia. Qed.
Lemma timed_act {A} (f : W → A * W) : (∀ w, (instant w ≤ instant (f w).2)%N) → timed (act f).
Proof. intros Hf c. unfold wp, act. specialize (Hf (core_world c)). by destruct (f (core_world c)). Qed.
Lemma timed_lift {A} (o : option A) : timed (lift o).
Proof. destruct o; [apply timed_ret|apply timed_stop]. Qed.
Lemma timed_when b m : timed m → timed (when b m).
Proof. intros. destruct b; [done|apply timed_ret]. Qed.
Lemma timed_await {A} raced (f : W → A * W) : (∀ w, (instant w ≤ instant (f w).2)%N) → timed (await raced f).
Proof.
  intros Hf. unfold await. apply timed_bind.
  - destruct raced; [apply timed_act, cr_interrupted, Hclock|apply timed_ret].
  - intros []; [apply timed_stop|by apply timed_act].
Qed.
Lemma timed_on_session {A} (f : Session → option (A * Session)) : timed (on_session f).
Proof.
  unfold on_session. apply timed_bind; [apply timed_gets|]. intros s. apply timed_bind; [apply timed_lift|].
  intros [a s']. apply timed_bind; [by apply timed_modify|]. intros. apply timed_ret.
Qed.

Definition not_before (w w' : W) : Prop := (instant w ≤ instant w')%N.
#[local] Instance not_before_preorder : PreOrder not_before.
Proof. unfold not_before. split; [intros w|intros w1 w2 w3 ??]; lia. Qed.
Lemma timed_spill : timed spill_pass.
Proof.
  unfold spill_pass. apply timed_bind; [apply timed_gets|]. intros s. intros c. apply ctl_bind, ctl_gets.
  destruct (spill_old_tool_results artifact s (core_world c)) as [[[n s'] w']|] eqn:E.
  - assert (instant (core_world c) ≤ instant w')%N.
    { apply (spill_moves artifact not_before) in E; [done|]. intros. apply cr_artifact, Hclock. }
    by apply ctl_bind, ctl_ret, ctl_bind, ctl_modify, ctl_ret.
  - apply ctl_bind, ctl_stop. lia.
Qed.

(** One step of a proof that a computation takes its time. *)
Ltac timed_step :=
  match goal with
  | |- timed (mret _) => apply timed_ret
  | |- timed (stop _) => apply timed_stop
  | |- timed (gets _) => apply timed_gets
  | |- timed (look _) => apply timed_gets
  | |- timed session => apply timed_gets
  | |- timed (lift _) => apply timed_lift
  | |- timed (on_session _) => apply timed_on_session
  | |- timed spill_pass => apply timed_spill
  | |- timed (when _ _) => apply timed_when
  | |- timed (modify _) => apply timed_modify; done
  | |- timed (act _) => apply timed_act; intros; cbn; apply Hclock
  | |- timed (await _ _) => apply timed_await; intros; cbn; apply Hclock
  | |- timed (_ ≫= _) => apply timed_bind; [|intros]
  | |- timed (match ?x with _ => _ end) => destruct x
  | |- timed (let '(_, _) := ?x in _) => destruct x
  | |- timed _ => progress unfold cheap_passes, cooling_down, run_pre_compact_hooks, full_replace
  end.
Section compaction.
Context (settings : CompactSettings) (sid : str) (low : rchar → str).
Lemma timed_summarize raced a b c d u : timed (summarize_with_model settings raced a b c d u).
Proof. unfold summarize_with_model. repeat timed_step. Qed.
Lemma timed_native raced a b c u : timed (native_compact settings low raced a b c u).
Proof. unfold native_compact. repeat timed_step. Qed.
Lemma timed_with_summary raced u : timed (compact_with_summary raced u).
Proof. unfold compact_with_summary. repeat timed_step. Qed.
Lemma timed_compact_session raced a b c u : timed (compact_session settings low raced a b c u).
Proof.
  unfold compact_session. repeat first [apply timed_native|apply timed_summarize|timed_step].
Qed.
Lemma timed_compact_for_step raced a b c : timed (compact_for_step settings sid low raced a b c).
Proof.
  unfold compact_for_step, take_speculative_summary. repeat first [apply timed_with_summary|apply timed_compact_session|timed_step].
Qed.
Lemma timed_spawn a b c : timed (maybe_spawn_speculative_summary settings sid low a b c).
Proof. unfold maybe_spawn_speculative_summary. repeat timed_step. Qed.
End compaction.

(** ** What a part of an iteration leaves alone *)

Context `{!@TurnSetting Re}.
Notation T := (M Turn Exit).
Notation Draft := (@Draft Value).
Notation Progress := (@Progress Value).

(** What the measure looks at. *)
Definition clock (t : Turn) : N := core_clock (core t).
Definition control (t : Turn) :=
  (turn_count t, harmony_retries t, overflow_retries t, fallback t, api_key t, ledger t, stream_drop_t0 t).
Definition frame (t t' : Turn) : Prop := control t' = control t ∧ (clock t ≤ clock t')%N.
(** Goes on without touching it, and never asks for another iteration. *)
Definition framed {A} (m : T A) : Prop := ∀ t, wp m (λ _, frame t) (λ x _, x ≠ XContinue) t.

#[local] Instance frame_preorder : PreOrder frame.
Proof. unfold frame. split; [intros t|intros t1 t2 t3 [] []]; split; congruence || lia. Qed.
Lemma framed_ret {A} (a : A) : framed (mret a).
Proof. intros t. by apply ctl_ret. Qed.
Lemma framed_stop {A} x : x ≠ XContinue → framed (stop (A := A) x).
Proof. intros Hx t. by apply ctl_stop. Qed.
Lemma framed_gets {A} (f : Turn → A) : framed (gets f).
Proof. intros t. by apply ctl_gets. Qed.
Lemma framed_bind {A B} (m : T A) (k : A → T B) : framed m → (∀ a, framed (k a)) → framed (m ≫= k).
Proof.
  intros Hm Hk t. apply ctl_bind. eapply ctl_mono; [apply Hm|cbn; intros a t' Ht|done].
  eapply ctl_mono; [apply Hk|cbn; intros b t'' Ht'; by etrans|done].
Qed.
Lemma framed_modify f : (∀ t, control (f t) = control t ∧ clock (f t) = clock t) → framed (modify f).
Proof. intros Hf t. apply ctl_modify. destruct (Hf t) as [H1 H2]. split; [done|lia]. Qed.
Lemma framed_lift {A} (o : option A) : framed (lift_turn o).
Proof. destruct o; [apply framed_ret|by apply framed_stop]. Qed.
Lemma framed_when b m : framed m → framed (when b m).
Proof. intros. destruct b; [done|apply framed_ret]. Qed.
Lemma framed_on_core {A} (m : M Core Halt A) : timed m → framed (on_core m).
Proof.
  intros Hm t. unfold on_core. apply ctl_map_stop, ctl_zoom. eapply ctl_mono; [apply Hm|done|].
  intros [] c Hc; done.
Qed.
Lemma framed_world {A} (f : W → A * W) : (∀ w, (instant w ≤ instant (f w).2)%N) → framed (world f).
Proof. intros. by apply framed_on_core, timed_act. Qed.
Lemma framed_for_each {A} (l : list A) (f : A → T unit) : (∀ a, framed (f a)) → framed (for_each l f).
Proof. intros Hf. induction l as [|a l IH]; cbn [for_each]; [apply framed_ret|]. by apply framed_bind. Qed.
Lemma framed_emit e : framed (emit e).
Proof. by apply framed_modify. Qed.
Lemma framed_cancel {A} : framed (cancel (A := A)).
Proof. apply framed_bind; [apply framed_emit|]. intros _. by apply framed_stop. Qed.
Lemma framed_update_session f : framed (update_session f).
Proof. by apply framed_on_core, timed_modify. Qed.
Lemma framed_agent_note text : framed (agent_note text).
Proof. apply framed_bind; [apply framed_on_core, timed_gets|]. intros. apply framed_update_session. Qed.

Ltac framed_step :=
  match goal with
  | |- framed (mret _) => apply framed_ret
  | |- framed (stop _) => apply framed_stop; done
  | |- framed (gets _) => apply framed_gets
  | |- framed (lift_turn _) => apply framed_lift
  | |- framed cancel => apply framed_cancel
  | |- framed (emit _) => apply framed_emit
  | |- framed (update_session _) => apply framed_update_session
  | |- framed (agent_note _) => apply framed_agent_note
  | |- framed get_session => apply framed_on_core, timed_gets
  | |- framed (when _ _) => apply framed_when
  | |- framed (for_each _ _) => apply framed_for_each; intros
  | |- framed (modify _) => apply framed_modify; by (intros ?; repeat case_match)
  | |- framed (world _) => apply framed_world; intros; cbn; apply Hclock
  | |- framed (on_core _) => apply framed_on_core; repeat first [apply timed_compact_for_step|apply timed_spawn|timed_step]
  | |- framed (_ ≫= _) => apply framed_bind; [|intros]
  | |- framed (match ?x with _ => _ end) => destruct x
  | |- framed (let '(_, _) := ?x in _) => destruct x
  end.

Lemma framed_background : framed inject_background_completions.
Proof. unfold inject_background_completions. repeat framed_step. Qed.
Lemma framed_steering : framed inject_steering.
Proof. unfold inject_steering, add_steered. repeat framed_step. Qed.
Lemma framed_limit : framed check_limit.
Proof. unfold check_limit. repeat framed_step. Qed.
Lemma framed_prepare p m : framed (prepare_context p m).
Proof. unfold prepare_context, auto_compact, token_count_now. repeat framed_step. Qed.
Lemma framed_request : framed build_request.
Proof. unfold build_request. repeat framed_step. Qed.
Lemma framed_discard d : framed (discard d).
Proof. unfold discard. repeat framed_step. Qed.
Lemma framed_keep_draft d : framed (keep_draft d).
Proof. unfold keep_draft. repeat framed_step. Qed.

(** ** Keys, fallbacks and rules run out *)

(** Keys of a provider after the one in use. *)
Definition secrets_of (provider : str) : list (str * str) :=
  List.filter (λ e, negb (e.2 == [])) (default [] (credentials agent provider)).
Definition keys_left (provider key : str) : nat :=
  match list_find (λ e, e.2 = key) (secrets_of provider) with
  | Some (i, _) => length (secrets_of provider) - S i
  | None => 0
  end.
Lemma key_rotates provider key name secret :
  NoDup (snd <$> secrets_of provider) → failover_api_key provider key = Some (name, secret) →
  keys_left provider secret < keys_left provider key.
Proof.
  unfold keys_left, failover_api_key, secrets_of. destruct (credentials agent provider) as [l|]; [|done].
  cbn [default mbind option_bind from_option]. unfold Datatypes.id. set (s := List.filter _ l). intros Hd.
  destruct (list_find (λ e, e.2 = key) s) as [[i e]|] eqn:Hf; [|done]. cbn. intros Hn.
  pose proof (lookup_lt_Some _ _ _ Hn) as Hlt.
  assert (list_find (λ e, e.2 = secret) s = Some (i + 1, (name, secret))) as ->; [|lia].
  apply list_find_Some. split_and!; [done|done|]. intros j y Hy Hj Hys.
  assert (j = i + 1); [|lia]. eapply NoDup_lookup; [exact Hd| |].
  - by rewrite list_lookup_fmap, Hy; cbn; rewrite Hys.
  - by rewrite list_lookup_fmap, Hn.
Qed.

Lemma next_fallback_bounds from p m k idx target :
  next_fallback from p m k = Some (idx, target) → from ≤ idx < length (fallback_models agent).
Proof.
  unfold next_fallback. intros Hn.
  assert (Hgen : ∀ ms i, next_fallback_from i ms p m k = Some (idx, target) → i ≤ idx < i + length ms).
  { clear Hn. intros ms. induction ms as [|raw ms IH]; intros i Hi; [done|]. cbn [next_fallback_from] in Hi.
    cbn [length]. case_match; [injection Hi as <- _; lia|]. apply IH in Hi. lia. }
  apply Hgen in Hn. rewrite length_drop in Hn. lia.
Qed.

(** Rules that may still fire. *)
Definition can_fire (l : StreamRuleLedger) (r : @StreamRule Re) : bool := allows (repeat r) (last_fired l (rule_name r)) (StreamRules.turn l).
Definition rules_left (l : StreamRuleLedger) : nat := length (List.filter (can_fire l) (stream_rules agent)).
(** A rule that has fired does not fire again in the same turn. *)
Definition rests (r : StreamRuleRepeat) : Prop := match r with Once => True | Always => False | AfterTurns n => (0 < n)%N end.

Lemma can_fire_record l name r :
  rests (repeat r) → can_fire (record l name) r = if rule_name r == name then false else can_fire l r.
Proof.
  intros Hr. unfold can_fire, record, last_fired. cbn [fired StreamRules.turn]. case_bool_decide as E.
  - rewrite E, lookup_insert_eq. destruct (repeat r); [done|done|]. cbn in *. apply N.leb_gt. lia.
  - by rewrite lookup_insert_ne by congruence.
Qed.
Lemma filter_fewer {A} (f g : A → bool) l a :
  (∀ x, x ∈ l → g x = true → f x = true) → a ∈ l → f a = true → g a = false →
  length (List.filter g l) < length (List.filter f l).
Proof.
  intros Hi Ha Hf Hg. induction l as [|b l IH]; [by apply elem_of_nil in Ha|].
  assert (Hle : length (List.filter g l) ≤ length (List.filter f l)).
  { clear IH Ha. assert (Hi' : ∀ x, x ∈ l → g x = true → f x = true) by (intros x Hx; apply Hi; by right).
    clear Hi. induction l as [|c l IHl]; [done|]. cbn. specialize (IHl ltac:(intros x Hx; apply Hi'; by right)).
    destruct (g c) eqn:E; [rewrite (Hi' c) by (by left || done); cbn; lia|]. destruct (f c); cbn; lia. }
  cbn. apply elem_of_cons in Ha as [<-|Ha].
  - rewrite Hf, Hg. cbn. lia.
  - specialize (IH ltac:(intros x Hx; apply Hi; by right) Ha).
    destruct (g b) eqn:E; [rewrite (Hi b) by (by left || done); cbn; lia|]. destruct (f b); cbn; lia.
Qed.
Lemma rule_fires_once channel text l r :
  Forall (λ r, rests (repeat r)) (stream_rules agent) →
  first_hit is_match (stream_rules agent) channel text l = Some r →
  rules_left (record l (rule_name r)) < rules_left l.
Proof.
  intros Hr Hh. apply find_some in Hh as [Hin Hm]. unfold may_fire in Hm.
  apply andb_true_iff in Hm as [[_ Hm]%andb_true_iff _]. apply list_elem_of_In in Hin. rewrite Forall_forall in Hr.
  apply (filter_fewer _ _ _ r); [|done|done|].
  - intros x Hx. rewrite can_fire_record by (by apply Hr). by destruct (rule_name x == rule_name r).
  - rewrite can_fire_record by (by apply Hr). by rewrite bool_decide_eq_true_2.
Qed.

(** ** The measure *)

Context (max keys : nat).
Record limits : Prop := {
  lim_turns : max_turns agent = Some max;
  lim_keys p : NoDup (snd <$> secrets_of p) ∧ length (secrets_of p) ≤ keys;
  lim_rules : Forall (λ r, rests (repeat r)) (stream_rules agent) }.
Context (Hlim : limits).

(** Time left to send a dropped stream again. *)
Definition time_left (t : Turn) : N :=
  match stream_drop_t0 t with None => stream_retry agent + 1 | Some t0 => stream_retry agent - (clock t - t0) end.
Definition ranks (t : Turn) : list nat :=
  [max - turn_count t; 2 - harmony_retries t; 1 - overflow_retries t;
   length (fallback_models agent) - default 0 (fst <$> fallback t);
   keys_left (active_model t).1 (api_key t); rules_left (ledger t); N.to_nat (time_left t)].
Definition rank_bounds : list nat :=
  [max; 2; 1; length (fallback_models agent); keys; length (stream_rules agent); N.to_nat (stream_retry agent + 1)].
Lemma ranks_bounded t : Forall2 (λ x b, x ≤ b) (ranks t) rank_bounds.
Proof.
  unfold ranks, rank_bounds. repeat (constructor; [try lia|]); [| | |constructor].
  - unfold keys_left. generalize (active_model t).1; intros p. destruct (lim_keys Hlim p) as [_ Hk].
    repeat case_match; lia.
  - unfold rules_left. apply List.filter_length_le.
  - unfold time_left. case_match; lia.
Qed.

(** A first drop is in the past. *)
Definition anchored (t : Turn) : Prop := match stream_drop_t0 t with Some t0 => (t0 ≤ clock t)%N | None => True end.

(** Why another iteration is begun. *)
Inductive progressed (t t' : Turn) : Prop :=
| Stepped : turn_count t < max → turn_count t' = S (turn_count t) → progressed t t'
| Leaked : turn_count t' = turn_count t → harmony_retries t < 2 → harmony_retries t' = S (harmony_retries t) → progressed t t'
| Overflowed : turn_count t' = turn_count t → harmony_retries t' = harmony_retries t →
    overflow_retries t < 1 → overflow_retries t' = S (overflow_retries t) → progressed t t'
| Fell_back i target : turn_count t' = turn_count t → harmony_retries t' = harmony_retries t →
    overflow_retries t' = overflow_retries t → fallback t' = Some (S i, target) →
    default 0 (fst <$> fallback t) ≤ i < length (fallback_models agent) → progressed t t'
| Rotated : turn_count t' = turn_count t → harmony_retries t' = harmony_retries t →
    overflow_retries t' = overflow_retries t → fallback t' = fallback t →
    keys_left (active_model t).1 (api_key t') < keys_left (active_model t).1 (api_key t) → progressed t t'
| Ruled r channel text : turn_count t' = turn_count t → harmony_retries t' = harmony_retries t →
    overflow_retries t' = overflow_retries t → fallback t' = fallback t → api_key t' = api_key t →
    first_hit is_match (stream_rules agent) channel text (ledger t) = Some r →
    ledger t' = record (ledger t) (rule_name r) → progressed t t'
| Dropped now_ : turn_count t' = turn_count t → harmony_retries t' = harmony_retries t →
    overflow_retries t' = overflow_retries t → fallback t' = fallback t → api_key t' = api_key t → ledger t' = ledger t →
    stream_drop_t0 t' = Some (default now_ (stream_drop_t0 t)) → (clock t < now_)%N → (now_ ≤ clock t')%N →
    (now_ - default now_ (stream_drop_t0 t) < stream_retry agent)%N → progressed t t'.

Lemma same_active (t t' : Turn) : fallback t' = fallback t → active_model t' = active_model t.
Proof. unfold active_model. by intros ->. Qed.
Lemma progressed_lex t t' : anchored t → progressed t t' → lex_lt (ranks t') (ranks t).
Proof.
  intros Ha Hp. unfold ranks.
  destruct Hp as [?|? ? ?|? ? ? ?|i tg E1 E2 E3 E4 Hi|E1 E2 E3 E4 Hk|r ch tx E1 E2 E3 E4 E5 Hh Hl|nw E1 E2 E3 E4 E5 E6 Ht Hc Hn Hw]; cbn.
  - left; lia.
  - right; split; [lia|]. left; lia.
  - do 2 (right; split; [lia|]). left; lia.
  - do 3 (right; split; [lia|]). left. rewrite E4. cbn. lia.
  - do 3 (right; split; [lia|]). rewrite (same_active _ _ E4), E4. right; split; [done|]. by left.
  - do 3 (right; split; [lia|]). rewrite (same_active _ _ E4), E4, E5. do 2 (right; split; [done|]). left. rewrite Hl.
    apply (rule_fires_once ch tx); [apply Hlim|done].
  - do 3 (right; split; [lia|]). rewrite (same_active _ _ E4), E4, E5, E6. do 3 (right; split; [done|]). left.
    unfold time_left. rewrite Ht. unfold anchored in Ha. destruct (stream_drop_t0 t) as [t0|]; cbn in *; lia.
Qed.

(** ** An iteration makes progress or ends the turn *)

(** What follows is stated of a turn [b], where the iteration began, and a later
    moment [t] of it that has the control of [b]. *)
Definition during (b t : Turn) : Prop := control t = control b ∧ (clock b < clock t)%N.
Definition advanced (b t : Turn) : Prop := progressed b t ∧ anchored t.
(** Goes on, or asks for another iteration having made progress. *)
Definition loops {A} (b : Turn) (m : T A) (Q : A → Turn → Prop) (t : Turn) : Prop :=
  wp m Q (λ x t', x = XContinue → advanced b t') t.

Lemma during_frame b t t' : during b t → frame t t' → during b t'.
Proof. unfold during, frame. intros [H1 H2] [H3 H4]. split; [congruence|lia]. Qed.
Lemma during_anchored b t : anchored b → during b t → anchored t.
Proof. unfold anchored, during, control. intros Ha [[=] Hlt]. destruct (stream_drop_t0 b), (stream_drop_t0 t); simplify_eq; done || lia. Qed.
Lemma loops_framed {A B} b (m : T A) (k : A → T B) Q t :
  framed m → during b t → (∀ a t', during b t' → loops b (k a) Q t') → loops b (m ≫= k) Q t.
Proof.
  intros Hm Ht Hk. apply ctl_bind. eapply ctl_mono; [apply Hm| |by intros].
  intros a t' Hf. apply Hk. by eapply during_frame.
Qed.
(** [framed_step], also for the pieces of the stream. *)
Ltac piece := repeat framed_step.

Lemma overflow_advances b provider model t : anchored b → during b t → overflow_retries t < 1 →
  loops b (compact_after_overflow provider model) (λ _, advanced b) t.
Proof.
  intros Ha Ht Ho. unfold compact_after_overflow. apply ctl_bind, ctl_modify. set (t1 := set_overflow_retries _ t).
  assert (Hm : framed (key ← gets api_key; on_core (compact_session (compact_settings agent) lower_other false provider model key None);; mret tt)).
  { apply framed_bind; [apply framed_gets|]. intros key. apply framed_bind; [|intros; apply framed_ret].
    by apply framed_on_core, timed_compact_session. }
  eapply ctl_mono; [apply Hm| |by intros]. cbn. intros _ t' [Hc Hl].
  destruct Ht as [Htc Htl]. change (clock t1) with (clock t) in Hl. unfold control in *. simplify_eq.
  cbn [turn_count harmony_retries overflow_retries fallback api_key ledger stream_drop_t0 set_overflow_retries t1] in *. split.
  - apply Overflowed; lia || congruence.
  - pose proof (during_anchored b t Ha ltac:(by split; [unfold control; congruence|])) as Han. unfold anchored in *.
    replace (stream_drop_t0 t') with (stream_drop_t0 t) by congruence. case_match; [lia|done].
Qed.

Lemma open_error_advances {A} b provider model e t : anchored b → during b t → provider = (active_model b).1 →
  loops b (on_open_error (A := A) provider model e) (λ _ _, False) t.
Proof.
  intros Ha Ht Hp. unfold on_open_error. apply loops_framed; [piece|done|]. intros c t1 H1.
  apply ctl_bind, ctl_gets. case_match eqn:Hcase.
  - apply andb_true_iff in Hcase as [_ Ho]. apply Nat.ltb_lt in Ho. apply ctl_bind.
    eapply ctl_mono; [exact (overflow_advances b provider model t1 Ha H1 Ho)|intros ? t2 Hadv|done]. apply ctl_stop. by intros _.
  - apply ctl_bind, ctl_gets. pose proof (during_anchored _ _ Ha H1) as Han. destruct H1 as [H1 H1l]. unfold control in H1. simplify_eq.
    case_match eqn:Hnext.
    + destruct p as [name secret]. apply ctl_bind, ctl_modify, ctl_bind, ctl_modify, ctl_stop. intros _. split; [|exact Han].
      apply bind_Some in Hnext as ([name' secret'] & Hf & Hn). case_match; [done|]. injection Hn as -> ->.
      case_match; [|done]. apply Rotated; cbn; [congruence..|]. apply (key_rotates _ _ name); [apply Hlim|]. congruence.
    + apply ctl_bind, ctl_gets.
      destruct (if retryable _ then _ else None) as [[i target]|] eqn:Hfb; [|by apply ctl_stop].
      apply ctl_bind, ctl_modify, ctl_bind, ctl_modify, ctl_stop. intros _. split; [|exact Han].
      case_match; [|done]. apply next_fallback_bounds in Hfb. apply (Fell_back _ _ i target); cbn; congruence || lia.
Qed.

Lemma ctl_look {A} (f : W → A) (Q : A → Turn → Prop) E t : Q (f (core_world (core t))) t → wp (on_core (look f)) Q E t.
Proof. intros HQ. apply ctl_map_stop, ctl_zoom, ctl_gets. by destruct t. Qed.
Lemma advanced_frame b t t' : advanced b t → frame t t' → advanced b t'.
Proof.
  intros [Hp Ha] [Hc Hl]. unfold control in Hc. simplify_eq. split.
  - destruct Hp as [| | |i target ?????| |r ch tx ???????|n ??????????];
      [apply Stepped|apply Leaked|apply Overflowed|apply (Fell_back _ _ i target)|apply Rotated|apply (Ruled _ _ r ch tx)
      |apply (Dropped _ _ n)]; first [congruence|done|lia].
  - unfold anchored in *. replace (stream_drop_t0 t') with (stream_drop_t0 t) by congruence. case_match; [lia|done].
Qed.
Lemma drop_advances b e t : anchored b → during b t → loops b (wait_stream_retry e) (λ _, advanced b) t.
Proof.
  intros Ha [Hc Hl]. unfold wait_stream_retry. apply ctl_bind, ctl_look.
  change (instant (core_world (core t))) with (clock t). apply ctl_bind, ctl_modify, ctl_bind, ctl_gets, ctl_bind, ctl_gets.
  cbn [stream_drop_t0 set_stream_drop_t0].
  change (default (clock t) (Some ?x)) with x. set (t1 := set_stream_drop_t0 _ _).
  apply ctl_bind. destruct (classify _ _ e) as [c|]; [apply ctl_ret|by apply ctl_stop].
  destruct (stream_retry_delay _ _ _ _) as [delay|] eqn:Hd; [|by apply ctl_stop].
  unfold stream_retry_delay in Hd. case_match eqn:Hw; [done|]. apply N.ltb_ge in Hw. case_match eqn:Hz; [done|]. clear Hd.
  apply orb_false_iff in Hz as [Hz _]. apply N.eqb_neq in Hz. apply ctl_bind, ctl_modify. set (t2 := set_stream_drops _ _).
  assert (Hm : framed (c ← world (sleep delay); if (c : bool) then cancel else mret tt)) by (repeat framed_step).
  eapply ctl_mono; [apply Hm| |by intros]. cbn [t1 t2]. intros _ t' [Hc' Hl']. change (clock t2) with (clock t) in Hl'.
  unfold control in *. cbn [t1 t2 turn_count harmony_retries overflow_retries fallback api_key ledger stream_drop_t0 set_stream_drops set_stream_drop_t0] in Hc'.
  assert (Hd : stream_drop_t0 t = stream_drop_t0 b) by congruence. rewrite Hd in *. simplify_eq. split.
  - apply (Dropped _ _ (clock t)); first [congruence|lia].
  - unfold anchored in *. replace (stream_drop_t0 t') with (Some (default (clock t) (stream_drop_t0 b))) by congruence.
    destruct (stream_drop_t0 b); cbn; lia.
Qed.

Definition streams (b : Turn) (p : Progress) (t : Turn) : Prop :=
  match p with Retry _ => advanced b t | Streaming _ | Complete _ => during b t end.
Lemma stream_error_advances b provider model kind e d t : anchored b → during b t →
  loops b (on_stream_error provider model kind e d) (streams b) t.
Proof.
  intros Ha Ht. unfold on_stream_error. apply ctl_bind, ctl_gets, ctl_bind.
  assert (Hall : loops b (if (kind == ContextOverflow) && (overflow_retries t <? 1) then compact_after_overflow provider model
                         else wait_stream_retry e) (λ _, advanced b) t).
  { case_match eqn:Hc; [|by apply drop_advances]. apply andb_true_iff in Hc as [_ Ho]. apply Nat.ltb_lt in Ho.
    by apply overflow_advances. }
  eapply ctl_mono; [exact Hall| |done]. intros ? t' H'. by apply ctl_ret.
Qed.
Lemma rules_advance {A} b channel text (k : bool → T A) Q t : anchored b → during b t →
  (∀ t', during b t' → loops b (k false) Q t') → (∀ t', advanced b t' → loops b (k true) Q t') →
  loops b (check_stream_rules channel text ≫= k) Q t.
Proof.
  intros Ha Ht Hno Hyes. apply ctl_bind. unfold check_stream_rules. apply ctl_bind, ctl_gets.
  destruct (first_hit _ _ _ _ _) as [r|] eqn:Hh; [|by apply ctl_ret, Hno].
  apply ctl_bind, ctl_modify. set (t1 := set_ledger _ t).
  assert (Hm : framed (agent_note (rule_note r) ;; mret true)) by (repeat framed_step).
  assert (Hv : wp (agent_note (rule_note r) ;; mret true) (λ a _, a = true) (λ _ _, True) t1).
  { apply ctl_bind. eapply ctl_mono; [apply framed_agent_note| |done]. intros. by apply ctl_ret. }
  eapply ctl_mono; [apply (ctl_and _ _ _ _ _ _ (Hm t1) Hv)| |by intros ?? []]. cbn [t1]. intros a t' [[Hc' Hl'] ->]. apply Hyes.
  change (clock t1) with (clock t) in Hl'. destruct Ht as [Hc Hl]. unfold control in *.
  cbn [t1 turn_count harmony_retries overflow_retries fallback api_key ledger stream_drop_t0 set_ledger] in Hc'. simplify_eq. split.
  - apply (Ruled _ _ r channel text); congruence.
  - unfold anchored in *. replace (stream_drop_t0 t') with (stream_drop_t0 b) by congruence. case_match; [lia|done].
Qed.
Lemma rules_stream b channel text (d : Draft) t : anchored b → during b t →
  loops b (hit ← check_stream_rules channel text; mret (checked hit d)) (streams b) t.
Proof. intros Ha Ht. apply rules_advance; [done|done|..]; intros t' Ht'; by apply ctl_ret. Qed.
Lemma args_stream b a (d : Draft) t : anchored b → during b t →
  loops b (hit ← check_tool_args_rules a; mret (checked hit d)) (streams b) t.
Proof.
  intros Ha Ht. unfold check_tool_args_rules. case_match; [by apply ctl_ret|].
  destruct (last_updated a) as [[[? tool] args]|]; [by apply rules_stream|by apply ctl_ret].
Qed.
Lemma thinking_stream b text (d : Draft) t : anchored b → during b t → loops b (on_thinking text d) (streams b) t.
Proof.
  intros Ha Ht. unfold on_thinking. case_match; [by apply ctl_ret|]. apply loops_framed; [piece|done|].
  intros. by apply rules_stream.
Qed.
Lemma event_stream b provider model (d : Draft) e t : anchored b → during b t →
  loops b (on_event provider model d e) (streams b) t.
Proof.
  intros Ha Ht. destruct e; cbn [on_event]; try (by apply ctl_ret).
  - apply loops_framed; [piece|done|]. intros. by apply rules_stream.
  - apply loops_framed; [piece|done|]. intros. by apply args_stream.
  - apply loops_framed; [piece|done|]. intros. by apply args_stream.
  - by apply thinking_stream.
  - by apply thinking_stream.
  - apply loops_framed; [piece|done|]. intros. by apply stream_error_advances.
Qed.
Lemma poll_stream b provider model (d : Draft) p t : anchored b → during b t →
  loops b (on_poll provider model d p) (streams b) t.
Proof.
  intros Ha Ht. unfold on_poll, failed_poll. apply loops_framed; [piece|done|]. intros _ t1 H1. destruct p.
  - by apply event_stream.
  - apply loops_framed; [piece|done|]. intros. by apply stream_error_advances.
  - apply loops_framed; [piece|done|]. intros. by apply stream_error_advances.
  - apply loops_framed; [apply framed_keep_draft|done|]. intros _ t2 H2. by apply ctl_bind, ctl_modify, ctl_stop.
Qed.
Lemma drain_stream b provider model polls (d : Draft) t : anchored b → during b t →
  loops b (drain provider model polls d) (streams b) t.
Proof.
  intros Ha. revert d t. induction polls as [|p polls IH]; intros d t Ht; [by apply ctl_ret|]. cbn [drain].
  apply ctl_bind. eapply ctl_mono; [by apply poll_stream| |done]. intros [d'|d'|d'] t' H'; [by apply IH|by apply ctl_ret..].
Qed.

(** ** A finished step counts *)

Definition on_counts (k : nat) (t : Turn) : Prop := turn_count t = k ∧ stream_drop_t0 t = None.
(** Also when another iteration is asked for. *)
Definition again (P : Turn → Prop) (x : Exit) (t : Turn) : Prop := x = XContinue → P t.
Notation counts k := (keeps (on_counts k) (again (on_counts k))).
Lemma keeps_lift_turn {A} (P : Turn → Prop) E (o : option A) : (∀ t, P t → E XPanic t) → keeps P E (lift_turn o).
Proof. intros. destruct o; [apply keeps_ret|by apply keeps_stop]. Qed.
Lemma counts_on_core {A} k (m : M Core Halt A) : counts k (on_core m).
Proof.
  intros t Ht. unfold on_core. apply ctl_map_stop, ctl_zoom. unfold wp. destruct (m (core t)) as [[[]|a] c]; done.
Qed.
Ltac counts_step :=
  match goal with
  | |- keeps _ _ (lift_turn _) => by apply keeps_lift_turn
  | |- keeps _ _ (on_core _) => apply counts_on_core
  | |- keeps _ _ _ => keeps_step
  | |- keeps _ _ _ => progress unfold emit, agent_note, update_session, get_session, world, add_results, hand_off, remember_calls, cancel
  | |- ∀ _, on_counts _ _ → again _ _ _ => intros ? ? ?; done
  | |- ∀ _, on_counts _ _ → _ => done
  end.
Lemma counts_attach k calls results : counts k (attach_nested_instructions calls results).
Proof. induction results as [|r rs IH]; cbn [attach_nested_instructions]; repeat first [apply IH|counts_step]. Qed.
Lemma counts_run_calls k calls : counts k (run_calls calls).
Proof.
  unfold run_calls, after_batch, refuse_doom_loop, execute_batch. repeat first [apply counts_attach|counts_step].
Qed.
Lemma counts_remind k calls : counts k (remind_todos calls).
Proof. unfold remind_todos. repeat counts_step. Qed.

(** Before it counts. *)
Definition finishing (b t : Turn) : Prop :=
  turn_count t = turn_count b ∧ harmony_retries t = harmony_retries b ∧ stream_drop_t0 t = None.
Lemma finishing_modify b f :
  (∀ t, turn_count (f t) = turn_count t ∧ harmony_retries (f t) = harmony_retries t ∧ stream_drop_t0 (f t) = stream_drop_t0 t) →
  keeps (finishing b) (λ (_ : Exit) _, False) (modify f).
Proof. intros Hf t (H1 & H2 & H3). apply ctl_modify. destruct (Hf t) as (?&?&?). split_and!; congruence. Qed.
Lemma cut_calls_finishing b (d : Draft) calls : keeps (finishing b) (λ _ _, False) (cut_calls d calls).
Proof.
  unfold cut_calls. apply keeps_bind; [apply keeps_gets|]. intros n.
  destruct (hit_output_limit d); (apply keeps_bind; [by apply finishing_modify|intros; apply keeps_ret]).
Qed.
Lemma counted_advances b t : turn_count b < max → on_counts (S (turn_count b)) t → advanced b t.
Proof. intros Hm [H1 H2]. split; [by apply Stepped|]. unfold anchored. by rewrite H2. Qed.
Lemma leak_loops b harmony (d : Draft) calls t : finishing b t →
  loops b (check_leak harmony d calls) (λ _, finishing b) t.
Proof.
  intros Ht. unfold check_leak. apply ctl_when; [intros _|done]. apply ctl_bind.
  destruct (harmony_leak _ _ _) as [[h|]|]; [apply ctl_ret|by apply ctl_ret|by apply ctl_stop].
  apply ctl_bind, ctl_gets. destruct (2 <=? harmony_retries t) eqn:Hn; [by apply ctl_stop|]. apply Nat.leb_gt in Hn.
  apply ctl_bind, ctl_modify, ctl_stop. intros _. destruct Ht as (H1 & H2 & H3). split.
  - apply Leaked; cbn; lia.
  - unfold anchored. cbn. by rewrite H3.
Qed.
Lemma record_counts b (d : Draft) calls t : finishing b t →
  wp (record_step d calls) (λ _, on_counts (S (turn_count b))) (again (on_counts (S (turn_count b)))) t.
Proof.
  intros Ht. unfold record_step. apply ctl_bind.
  assert (He : keeps (finishing b) (λ _ _, False) (for_each calls (λ tc, emit (TToolStart (call_id tc) (call_name tc))))).
  { apply keeps_for_each. intros tc. by apply finishing_modify. }
  eapply ctl_mono; [by apply He| |done]. cbn. intros _ t1 (H1 & H2 & H3). apply ctl_bind, ctl_modify.
  set (t2 := set_turn_count _ _). assert (Hn : on_counts (S (turn_count b)) t2) by (split; cbn; [by rewrite H1|done]).
  revert Hn. generalize t2. change (counts (S (turn_count b))
    (modify (λ t, set_finished_steps (finished_steps t ++ [(accumulated_text d, calls)]) t) ;;
     when (negb (accumulated_text d == [])) (modify (λ t, set_final_text (append_step_text (final_text t) (accumulated_text d)) t)) ;;
     when (negb (length (step_blocks d calls) =? 0)) (at_ ← on_core (look now); update_session (add_assistant_message at_ (step_blocks d calls))))).
  repeat counts_step.
Qed.
Lemma finish_loops b harmony (d : Draft) t : turn_count b < max → during b t →
  loops b (finish_step harmony d) (λ _, advanced b) t.
Proof.
  intros Hmax [Hc Hl]. unfold finish_step. apply ctl_bind, ctl_modify, ctl_bind, ctl_modify, ctl_bind.
  assert (Ht : finishing b (set_stream_drops 0 (set_stream_drop_t0 None t))).
  { unfold control in Hc. by simplify_eq. }
  destruct (ToolStream.finish _) as [calls|]; [apply ctl_ret|by apply ctl_stop].
  apply ctl_bind. eapply ctl_mono; [by apply cut_calls_finishing| |done]. intros [cut_off calls'] t1 H1. apply ctl_bind. eapply ctl_mono; [by apply leak_loops| |done]. intros ? t2 H2.
  apply ctl_bind. eapply ctl_mono; [exact (record_counts b d calls' t2 H2)| |intros x t' HE Hx; apply counted_advances; [done|by apply HE]]. intros ? t3 H3.
  assert (Hk : counts (S (turn_count b)) (when cut_off (agent_note CUT_OFF_NOTE ;; stop XContinue) ;;
    remind_todos calls' ;; if length calls' =? 0 then stop XBreak else run_calls calls')).
  { repeat first [apply counts_remind|apply counts_run_calls|counts_step]. }
  eapply ctl_mono; [by apply Hk| |]; cbn; intros; apply counted_advances; auto.
Qed.

(** ** The loop ends *)

Lemma limit_counts (t : Turn) : wp check_limit (λ _ t', t' = t ∧ turn_count t < max) (λ x _, x ≠ XContinue) t.
Proof.
  unfold check_limit. apply ctl_bind, ctl_gets. rewrite (lim_turns Hlim). apply ctl_when; intros Hm.
  - apply ctl_bind, ctl_modify. by apply ctl_stop.
  - apply Nat.leb_gt in Hm. done.
Qed.
Lemma iteration_advances t : anchored t → loops t iteration (λ _, advanced t) t.
Proof.
  intros Ha. unfold iteration. apply ctl_bind, ctl_gets. destruct (active_model t) as [provider model] eqn:Hp.
  assert (Hstep : ∀ {A B} (m : T A) (k : A → T B) Q t1, framed m → frame t t1 →
            (∀ a t2, frame t t2 → loops t (k a) Q t2) → loops t (m ≫= k) Q t1).
  { intros A B m k Q t1 Hm H1 Hk. apply ctl_bind. eapply ctl_mono; [apply Hm| |by intros]. intros a t2 H2. apply Hk. by etrans. }
  apply Hstep; [apply framed_background|done|]. intros _ t1 H1.
  apply Hstep; [apply framed_steering|done|]. intros _ t2 H2.
  apply Hstep; [piece|done|]. intros stopped t3 H3.
  apply Hstep; [piece|done|]. intros _ t4 H4.
  apply ctl_bind. eapply ctl_mono; [apply limit_counts| |by intros]. intros ? t4' [-> Hmax].
  assert (Hmax' : turn_count t < max) by (destruct H4 as [H4 _]; unfold control in H4; simplify_eq; congruence).
  apply Hstep; [apply framed_prepare|done|]. intros _ t5 H5.
  apply Hstep; [apply framed_request|done|]. intros request t6 H6.
  apply ctl_bind, ctl_gets, ctl_bind.
  assert (Hopen : wp (world (open_turn provider model (api_key t6) request)) (λ _, during t) (λ x _, x ≠ XContinue) t6).
  { unfold world. apply ctl_map_stop, ctl_zoom. pose proof (cr_open Hclock provider model (api_key t6) request (core_world (core t6))) as Ho.
    unfold wp, act. destruct (open_turn _ _ _ _ _) as [o w]. cbn in Ho. destruct H6 as [H6 Hl]. split; [done|].
    unfold clock, core_clock in *. cbn. lia. }
  eapply ctl_mono; [exact Hopen| |by intros]. intros opened t7 H7. destruct opened as [|e|polls].
  - by apply ctl_bind, ctl_modify, ctl_stop.
  - eapply ctl_mono; [apply open_error_advances; [done|done|by rewrite Hp]|by intros|done].
  - apply loops_framed; [piece|done|]. intros _ t8 H8. apply ctl_bind.
    eapply ctl_mono; [by apply drain_stream| |done]. intros [d|d|d] t9 H9; [by apply finish_loops..|].
    eapply ctl_mono; [apply framed_discard| |done]. intros ? t10 H10. by apply (advanced_frame t t9).
Qed.
Lemma loop_ends fuel t : anchored t → encode rank_bounds (ranks t) < fuel → turn_loop fuel t ≠ None.
Proof.
  revert t. induction fuel as [|fuel IH]; intros t Ha Hf; [lia|]. cbn [turn_loop].
  pose proof (iteration_advances t Ha) as Hi. unfold loops, wp in Hi.
  assert (Hnext : ∀ t', advanced t t' → turn_loop fuel t' ≠ None).
  { intros t' [Hp Ha']. apply IH; [done|]. apply (progressed_lex _ _ Ha) in Hp.
    apply (encode_lt rank_bounds) in Hp; [lia|apply ranks_bounded..]. }
  destruct (iteration t) as [[[| | |]|] t']; try done; by apply Hnext, Hi || by apply Hnext.
Qed.

Definition turn_bound : nat := radix rank_bounds.

(** C7: A turn ends. With a step limit, rules that rest once fired and
    distinct keys, and time that passes while a request is open, [turn_bound]
    iterations are enough, whatever the model streams, the provider refuses, the
    user steers and the tools return: every retry of a step (leaked dialect,
    overflowed context, refused key, fallback model, stream rule, dropped stream)
    uses up one of finitely many chances. *)
Theorem turn_ends c l key sticky handoff fuel :
  turn_bound ≤ fuel → turn_loop fuel (start_turn c l key sticky handoff) ≠ None.
Proof.
  intros Hf. set (t := start_turn _ _ _ _ _). apply loop_ends; [done|].
  apply Nat.lt_le_trans with turn_bound; [|done]. apply encode_bound, ranks_bounded.
Qed.
End termination.

(** ** A turn in a small world *)

Module Demo.
(** The world is its clock. *)
#[export] Instance compact : @CompactEnv JVal N N := {
  now w := w; instant w := w; interrupted w := (false, w); artifact w _ _ := (None, w); pre_compact_hooks w := w;
  native_reply _ _ _ _ _ w := (None, w); summary_reply _ _ _ _ w := (None, w); job_reply w := (None, w);
  summary_failed_at _ := None; note_failure w := w; spawn_summary _ w := w; abort_summary w := w }.
(** After its replies the model repeats its last words. *)
Definition last_words : @Opened JVal := OStream [PEvent (STextDelta (lit "as an AI"))].
Definition reply (replies : list Opened) (w : N) : Opened := default last_words (replies !! N.to_nat w).
Definition env (replies : list Opened) : @TurnEnv JVal N N := {|
  turn_compact := compact; completions w := ([], w); steered w := ([], w);
  open_turn _ _ _ _ w := (reply replies w, (w + 1)%N);
  stream_wait w := w; sleep _ w := (false, w);
  run_batch _ w := (mkBatch (λ _, false) (λ i, 1 <=? i) (λ _ _, None) (λ _ tc, Some (mkResult (call_id tc) (lit "out") false)), w);
  nested_instructions _ w := ([], w); todo_list _ := [] |}.
Definition agent_with (rules : list (@StreamRule str)) (keys : list (str * str)) (steps : nat) : @AgentSettings str :=
  mkAgent (lit "build") (mkSettings 0 None ∅ 0 false false [lit "openai"]) (mkPermissionSet None None true true true None [])
    false rules (Some steps) 0 0 (λ _, Some keys) [] ∅ false None None (lit "/p").
(** A pattern is a text to be found. *)
Definition setting_with (a : @AgentSettings str) : @TurnSetting str := {|
  agent := a; session_id := lit "s"; env_var := λ _, None; lower_other := λ c, [c]; upper_other := λ c, [c];
  is_match := λ re text, contains text re; http_date_delay := λ _, None; is_later_day := λ _, false;
  assess_depth := 10; strong_provider := lit "openai"; strong_model := lit "gpt-4o"; turn_suffix := [] |}.
Definition hi : @Session JVal N := add_user_message 0%N (lit "hi") (new_session []).
Definition run_on (s : Session) (a : AgentSettings) (fuel : nat) (replies : list Opened) : option (TurnResult * Turn) :=
  let _ := setting_with a in let _ := env replies in
  turn_loop fuel (start_turn (mkCore s 0%N None) empty_ledger (lit "a") None None).
Definition run_with : AgentSettings → nat → list Opened → option (TurnResult * Turn) := run_on hi.

Lemma clock_runs_here replies : @clock_runs JVal N N (env replies).
Proof. split; intros; cbn; lia. Qed.
Definition call (id name : string) (args : list (str * str)) : @Poll JVal := PEvent (SToolUse (lit id) (lit name) (VObj args)).
Definition text (t : string) : @Poll JVal := PEvent (STextDelta (lit t)).
End Demo.

Lemma turn_ends_witness :
  let a := Demo.agent_with [mkRule (lit "r") (lit "as an AI") (lit "No.") [ScopeText] [] Once] [(lit "1", lit "a"); (lit "2", lit "b")] 3 in
  Demo.run_with a (N.to_nat 400) [] ≠ None.
Proof.
  intros a. unfold Demo.run_with, Demo.run_on.
  apply (@turn_ends JVal N N str _ _ _ (Demo.env []) (Demo.clock_runs_here []) (Demo.setting_with a) 3 2).
  - split; [done| |by repeat constructor]. intros p. split; [|by cbn].
    apply (bool_decide_eq_true_1 (NoDup _)). vm_compute. reflexivity.
  - apply (bool_decide_eq_true_1 (_ ≤ _)). vm_compute. reflexivity.
Defined.

(** A rule that may always fire is not held by the step limit: a draft it discards is
    no step. *)
Example always_rule_never_ends :
  Demo.run_with (Demo.agent_with [mkRule (lit "r") (lit "as an AI") (lit "No.") [ScopeText] [] Always] [] 1) 100 [] = None.
Proof. vm_compute. reflexivity. Qed.
(** Nor are keys of which one is configured twice: the same two are tried in turn. *)
Example shared_key_never_ends :
  Demo.run_with (Demo.agent_with [] [(lit "1", lit "a"); (lit "2", lit "b"); (lit "3", lit "a")] 1) 100
    (replicate 200 (OFailed (ELlm (mkTransport Unknown (lit "429 rate limit exceeded"))))) = None.
Proof. vm_compute. reflexivity. Qed.
Example call_then_answer :
  fst <$> Demo.run_with (Demo.agent_with [] [] 5) 20
    [OStream [Demo.text "Look. "%string; Demo.call "c1"%string "read"%string [(lit "path", lit "a")]]; OStream [Demo.text "Done"%string; PEvent SMessageStop]]
  = Some (Reply (lit "Look." ++ [cLF; cLF] ++ lit "Done")).
Proof. vm_compute. reflexivity. Qed.
(** A rewind the user's message pushed aside is not run, and is applied all the same:
    the report takes the place of what was explored. *)
Definition rewind_skipped : option (TurnResult * Turn) :=
  Demo.run_on (mark_checkpoint 0%N (lit "look") Demo.hi) (Demo.agent_with [] [] 5) 20
    [OStream [Demo.text "Look. "%string; Demo.call "c1"%string "question"%string []; Demo.call "c2"%string "rewind"%string [(lit "report", lit "found")]];
     OStream [Demo.text "Done"%string]].
Example skipped_rewind_applies :
  option_map (λ r, (last_rewind_report (core_session (core r.2)), checkpoint (core_session (core r.2)), length (messages (core_session (core r.2)))))
    rewind_skipped = Some (Some (lit "found"), None, 3).
Proof. vm_compute. reflexivity. Qed.
Example skipped_rewind_not_run :
  option_map (λ r, omap (λ e, match e with TBatch (TEToolEnd id c e) => Some (id, c, e) | _ => None end) (sent r.2)) rewind_skipped =
    Some [(lit "c1", lit "out", false); (lit "c2", NOT_RUN_URGENT, false)].
Proof. vm_compute. reflexivity. Qed.
