(* ===== verification/TurnPairs.v ===== *)
(** A turn leaves the transcript with every call answered in place, through
    compactions, cut streams, refusals and cancels. *)

From S2P Require Import Prelude RustStr Bytes Messages ToolPolicy Permission Paths Tokenize Parse Lower Assess ToolText Summary Pairing Session SessionFacts ErrorClass Retry Harmony Todo Schedule ToolStream Thinking StreamRules Models Control Compaction Turn TurnFacts.

Section pairs.
Context {Value Time W Re : Type} `{!Json Value} `{!JsonMake Value} `{!EqDecision Time} `{!@TurnEnv Value Time W}.
Notation Message := (Message Value ImageSource Time).
Notation ContentBlock := (ContentBlock Value ImageSource).
Notation Core := (@Core Value Time W).
Notation Turn := (@Turn Value Time W).
Notation Session := (@Session Value Time).
Notation ToolCall := (ToolCall Value).

(** ** Transcripts *)

Definition paired (ms : list Message) : Prop := transcript answers ms.

Lemma like_pairs (m m' : Message) : message_like m m' → pairs_like m m'.
Proof.
  destruct m, m'. intros [E Hc]. unfold set_content in E. cbn in *. simplify_eq. unfold pairs_like, call_ids. cbn. do 2 (split; [done|]).
  destruct Hc as [t t'|bs bs' Hb]; [done|]. induction Hb as [|b b' bs bs' Hb _ IH]; [done|]. cbn. rewrite IH. by destruct Hb.
Qed.
Lemma paired_alike ms ms' : Forall2 message_like ms ms' → paired ms → paired ms'.
Proof.
  intros Hl. apply transcript_pairs; [|eapply Forall2_impl; [exact Hl|apply like_pairs]].
  intros a a' rs rs' Hc Hr. unfold answers. by rewrite Hc, Hr.
Qed.
Lemma paired_snoc ms m : role m = User ∨ role m = System → paired ms → paired (ms ++ [m]).
Proof. intros Hm Hp. apply transcript_app; [done|]. apply transcript_plain; [done|constructor]. Qed.
(** An assistant that calls nothing, and its place. *)
Lemma paired_idle ms m : role m = Assistant → call_ids m = [] → paired ms → paired (m :: ms).
Proof. intros Hr Hc Hp. apply (transcript_turn answers m []); [done|constructor| |done]. unfold answers. rewrite Hc. set_solver. Qed.
(** After a user's message a transcript begins anew. *)
Lemma paired_drop ms : paired ms → ∀ i m, ms !! i = Some m → role m = User → paired (drop i ms).
Proof.
  induction 1 as [|m ms Hm Hms IH|a rs ms Ha Hrs Has Hms IH]; intros i x Hi Hx; [done| |].
  - destruct i as [|i]; [by apply transcript_plain|]. by apply (IH i x).
  - destruct i as [|i]; [cbn in Hi; congruence|]. cbn in Hi |- *.
    apply lookup_app_Some in Hi as [Hi|[Hl Hi]].
    + apply (Forall_lookup_1 _ _ _ _ Hrs) in Hi. congruence.
    + rewrite drop_app_ge by done. by apply (IH _ x).
Qed.
Lemma paired_filter (f : Message → bool) ms : (∀ m, f m = false → role m = User) → paired ms → paired (List.filter f ms).
Proof.
  intros Hf. induction 1 as [|m ms Hm Hms IH|a rs ms Ha Hrs Has Hms IH]; cbn; [constructor| |].
  - case_match; [by apply transcript_plain|done].
  - destruct (f a) eqn:E; [|apply Hf in E; congruence]. rewrite List.filter_app.
    assert (List.filter f rs = rs) as ->; [|by apply transcript_turn].
    clear -Hf Hrs. induction Hrs as [|r rs Hr _ IH]; [done|]. cbn. destruct (f r) eqn:E; [by rewrite IH|].
    apply Hf in E. congruence.
Qed.

(** ** Compaction keeps it *)

Definition kept (c : Core) : Prop := paired (messages (core_session c)).
(** An interruption does not break it. *)
Definition unless_panic (h : Halt) (c : Core) : Prop := h = Interrupted → kept c.
Notation keeps_core := (keeps kept unless_panic).

Lemma kept_lift {A} (o : option A) : keeps_core (lift o).
Proof. destruct o; [apply keeps_ret|apply keeps_stop]. by intros c Hc ?. Qed.
Lemma kept_act {A} (f : W → A * W) : keeps_core (act f).
Proof. intros c Hc. unfold wp, act. by destruct (f (core_world c)). Qed.
Lemma kept_await {A} raced (f : W → A * W) : keeps_core (await raced f).
Proof.
  unfold await. apply keeps_bind; [destruct raced; [apply kept_act|apply keeps_ret]|].
  intros []; [apply keeps_stop; by intros c Hc _|apply kept_act].
Qed.
Lemma kept_on_session {A} (f : Session → option (A * Session)) :
  (∀ s a s', f s = Some (a, s') → paired (messages s) → paired (messages s')) → keeps_core (on_session f).
Proof.
  intros Hf c Hc. unfold on_session. apply ctl_bind, ctl_gets, ctl_bind.
  destruct (f (core_session c)) as [[a s']|] eqn:E; [|by apply ctl_stop]. apply ctl_ret, ctl_bind, ctl_modify, ctl_ret.
  unfold kept. cbn. by eapply Hf.
Qed.
Lemma kept_spill : keeps_core spill_pass.
Proof.
  intros c Hc. unfold spill_pass. apply ctl_bind, ctl_gets, ctl_bind, ctl_gets.
  destruct (spill_like artifact (core_session c) (core_world c)) as (n & s' & w' & E & Hl & _). rewrite E.
  apply ctl_bind, ctl_ret, ctl_bind, ctl_modify, ctl_ret. unfold kept. cbn. by apply (paired_alike (messages (core_session c))).
Qed.
Lemma shrinking_keeps (f : Session → option (nat * Session)) :
  (∀ s, ∃ n s', f s = Some (n, s') ∧ shrinks n s s') → keeps_core (on_session f).
Proof.
  intros Hf. apply kept_on_session. intros s n s' E. destruct (Hf s) as (n' & s'' & E' & Hs). simplify_eq.
  apply paired_alike. by eapply shrinks_like.
Qed.
Lemma kept_cheap : keeps_core cheap_passes.
Proof.
  unfold cheap_passes. apply keeps_bind; [apply shrinking_keeps, truncate_shrinks|]. intros _.
  apply keeps_bind; [apply kept_spill|]. intros _. apply keeps_bind; [|intros; apply keeps_ret].
  apply shrinking_keeps. intros s. destruct (shrink_old_shrinks TOOL_RESULT_PRUNE_CHARS s) as (n & s' & E & Hs & _). eauto.
Qed.

Lemma paired_user now_ text ms : paired ms → paired (user_text now_ text :: ms).
Proof. intros. apply transcript_plain; [by left|done]. Qed.
Lemma paired_query now_ (q : option str) : paired match q with Some q => [user_text now_ q] | None => [] end.
Proof. destruct q; [apply paired_user|]; constructor. Qed.
Lemma last_real_user (s : Session) i : last_real_user_index s = Some i → ∃ m, messages s !! i = Some m ∧ role m = User.
Proof.
  intros Hi. pose proof (rposition_spec real_user (messages s)) as H'. unfold last_real_user_index in Hi. rewrite Hi in H'.
  destruct H' as [(m & Hm & Hr) _]. exists m. split; [done|]. unfold real_user in Hr.
  destruct (role m == User) eqn:E; [by apply bool_decide_eq_true in E|done].
Qed.
Lemma full_replace_paired now_ summary (s s' : Session) o :
  apply_full_replace now_ summary s = Some (o, s') → paired (messages s) → paired (messages s').
Proof.
  unfold apply_full_replace. destruct (token_count_cached s) as [before s1] eqn:Et.
  assert (messages s1 = messages s) as Em by (by injection Et as _ <-). intros H1 Hp.
  destruct (length (messages s1) =? 0); [simplify_eq; by rewrite Em|].
  apply bind_Some in H1 as (b1 & _ & H1). apply bind_Some in H1 as (body & _ & H1).
  destruct (token_count_cached (rebuild_token_cache _)) as [after s2] eqn:Et2. injection H1 as _ <-.
  match type of Et2 with token_count_cached (rebuild_token_cache (set_msgs _ ?l)) = _ =>
    assert (messages s2 = l) as -> by (by injection Et2 as _ <-) end.
  assert (Hc : paired (if body == [] then [] else [user_text now_ body])).
  { destruct (body == []); [constructor|]. apply paired_user. constructor. }
  rewrite Em. destruct (last_real_user_index s1) as [i|] eqn:Hi; cbn [mbind option_bind].
  - apply last_real_user in Hi as (m & Hm & Hr). rewrite Em in Hm. rewrite Hm. cbn [mbind option_bind].
    assert (Hrest : paired (List.filter (λ m, negb (is_carrier m)) (drop (i + 1) (messages s)))).
    { apply paired_filter.
      - intros x Hx. apply negb_false_iff in Hx. unfold is_carrier in Hx. apply andb_true_iff in Hx as [Hx _].
        by apply bool_decide_eq_true in Hx.
      - pose proof (paired_drop _ Hp i m Hm Hr) as Hd. erewrite drop_S in Hd by exact Hm. rewrite Nat.add_1_r.
        inversion Hd; subst; [done|congruence]. }
    apply transcript_app; [apply paired_query|by apply transcript_app].
  - done.
Qed.
Lemma native_paired now_ cut block (s s' : Session) o prefix :
  call_ids (mkMessage Assistant (MBlocks [block]) None None (Some now_)) = [] →
  native_compaction_prefix s = Some (cut, prefix) →
  apply_native_compaction now_ cut block s = Some (o, s') → paired (messages s) → paired (messages s').
Proof.
  intros Hb Hcut Ha Hp. unfold native_compaction_prefix in Hcut.
  destruct (last_real_user_index s) as [[|e]|] eqn:Hi; [done| |done].
  apply bind_Some in Hcut as (l & _ & Hcut). case_match; [done|]. injection Hcut as <- _.
  unfold apply_native_compaction in Ha. destruct (token_count_cached s) as [before s1] eqn:Et.
  assert (messages s1 = messages s) as Em by (by injection Et as _ <-). case_match; [done|].
  destruct (token_count_cached (rebuild_token_cache _)) as [after s2] eqn:Et2. injection Ha as _ <-.
  match type of Et2 with token_count_cached (rebuild_token_cache (set_msgs _ ?l)) = _ =>
    assert (messages s2 = l) as -> by (by injection Et2 as _ <-) end.
  rewrite Em. apply paired_idle; [done|done|]. apply last_real_user in Hi as (m & Hm & Hr). by eapply paired_drop.
Qed.

Ltac core_step :=
  match goal with
  | |- keeps_core (lift _) => apply kept_lift
  | |- keeps_core (act _) => apply kept_act
  | |- keeps_core (await _ _) => apply kept_await
  | |- keeps_core (look _) => apply keeps_gets
  | |- keeps_core session => apply keeps_gets
  | |- keeps_core cheap_passes => apply kept_cheap
  | |- keeps _ _ _ => keeps_step
  | |- keeps_core _ => progress unfold cooling_down, run_pre_compact_hooks
  | |- ∀ _, kept _ → _ => intros ? ?; done
  end.
Lemma kept_full_replace summary : keeps_core (full_replace summary).
Proof.
  unfold full_replace. apply keeps_bind; [apply keeps_gets|]. intros at_. apply kept_on_session. intros s a s'.
  apply full_replace_paired.
Qed.
Lemma kept_with_summary raced summary : keeps_core (compact_with_summary raced summary).
Proof. unfold compact_with_summary. repeat first [apply kept_full_replace|core_step]. Qed.

Section compaction.
Context (settings : CompactSettings) (sid : str) (low : rchar → str).
Lemma kept_summarize raced a b c d u : keeps_core (summarize_with_model settings raced a b c d u).
Proof. unfold summarize_with_model. repeat core_step. Qed.
(** A wait of the environment leaves the session alone. *)
Lemma await_session {A} raced (f : W → A * W) s c : core_session c = s →
  wp (await raced f) (λ _ c', core_session c' = s) (λ _ c', core_session c' = s) c.
Proof.
  intros Hs. unfold await. apply ctl_bind. destruct raced.
  - unfold wp at 1, act. destruct (interrupted (core_world c)) as [[] w]; [by apply ctl_stop|].
    unfold wp. cbn. by destruct (f w).
  - apply ctl_ret. unfold wp, act. by destruct (f (core_world c)).
Qed.
Lemma kept_native raced a b c u : keeps_core (native_compact settings low raced a b c u).
Proof.
  unfold native_compact. case_match; [apply keeps_ret|]. intros co Hc. apply ctl_bind, ctl_gets.
  destruct (native_compaction_prefix (core_session co)) as [[cut prefix]|] eqn:Hcut; [|by apply ctl_ret].
  case_match; [by apply ctl_ret|]. apply ctl_bind.
  eapply ctl_mono; [by apply (await_session _ _ (core_session co))| |intros h c' Hc' _; unfold kept; by rewrite Hc'].
  cbn. intros reply c1 E1. destruct (reply ≫= _) as [block|] eqn:Hb; [|by apply ctl_ret; unfold kept; rewrite E1].
  apply ctl_bind, ctl_gets, ctl_bind. unfold on_session. apply ctl_bind, ctl_gets, ctl_bind.
  destruct (apply_native_compaction _ _ _ _) as [[o s']|] eqn:Ha; [|by apply ctl_stop].
  apply ctl_ret, ctl_bind, ctl_modify, ctl_ret, ctl_ret. unfold kept. cbn. rewrite E1 in Ha.
  eapply native_paired; [|exact Hcut|exact Ha|exact Hc].
  apply bind_Some in Hb as ([stop_reason content_] & _ & Hb). unfold native_compaction_block in Hb.
  destruct content_ as [|[] []]; try done. case_match; [|done]. by injection Hb as <-.
Qed.
Lemma kept_compact_session raced a b c u : keeps_core (compact_session settings low raced a b c u).
Proof. unfold compact_session. repeat first [apply kept_native|apply kept_summarize|apply kept_full_replace|core_step]. Qed.
Lemma kept_for_step raced a b c : keeps_core (compact_for_step settings sid low raced a b c).
Proof.
  unfold compact_for_step, take_speculative_summary. repeat first [apply kept_with_summary|apply kept_compact_session|core_step].
Qed.
Lemma kept_spawn a b c : keeps_core (maybe_spawn_speculative_summary settings sid low a b c).
Proof. unfold maybe_spawn_speculative_summary. repeat core_step. Qed.
End compaction.

(** ** The iteration, up to the calls *)

Context `{!@TurnSetting Re}.
Notation T := (M Turn Exit).
Notation Draft := (@Draft Value).
Notation Progress := (@Progress Value).

Definition fine (t : Turn) : Prop := kept (core t).
(** However it ends, short of a crash. *)
Definition ends_fine (x : Exit) (t : Turn) : Prop := x ≠ XPanic → fine t.
Notation keeps_fine := (keeps fine ends_fine).

Lemma fine_on_core {A} (m : M Core Halt A) : keeps_core m → keeps_fine (on_core m).
Proof.
  intros Hm t Ht. unfold on_core. apply ctl_map_stop, ctl_zoom.
  eapply ctl_mono; [by apply Hm|done|]. intros [] c Hc; [by intros ?|]. intros _. by apply Hc.
Qed.
Lemma fine_update f : (∀ s, paired (messages s) → paired (messages (f s))) → keeps_fine (update_session f).
Proof. intros Hf. apply fine_on_core, keeps_modify. intros c Hc. by apply Hf. Qed.
Lemma push_user now_ content name_ (s : Session) : paired (messages s) →
  paired (messages (push_message s (stamped User content None name_ now_))).
Proof. intros Hp. apply paired_snoc; [by left|done]. Qed.
Lemma fine_note text : keeps_fine (agent_note text).
Proof.
  unfold agent_note. apply keeps_bind; [apply fine_on_core, keeps_gets|]. intros. apply fine_update. intros s. apply push_user.
Qed.
Ltac fine_step :=
  match goal with
  | |- keeps_fine (lift_turn ?o) => destruct o; [apply keeps_ret|apply keeps_stop]
  | |- keeps_fine (agent_note _) => apply fine_note
  | |- keeps_fine (world _) => apply fine_on_core, kept_act
  | |- keeps_fine (on_core cheap_passes) => apply fine_on_core, kept_cheap
  | |- keeps_fine (on_core (look _)) => apply fine_on_core, keeps_gets
  | |- keeps_fine (on_core (compact_for_step _ _ _ _ _ _ _)) => apply fine_on_core, kept_for_step
  | |- keeps_fine (on_core (compact_session _ _ _ _ _ _ _)) => apply fine_on_core, kept_compact_session
  | |- keeps_fine (on_core (maybe_spawn_speculative_summary _ _ _ _ _ _)) => apply fine_on_core, kept_spawn
  | |- keeps_fine get_session => apply fine_on_core, keeps_gets
  | |- keeps_fine (emit _) => apply keeps_modify
  | |- keeps_fine cancel => apply keeps_bind; [|intros]
  | |- keeps_fine _ => keeps_step
  | |- ∀ _, fine _ → ends_fine _ _ => intros ? ? ?; done
  | |- ∀ _, fine _ → fine _ => intros ? ?; done
  end.
Lemma fine_background : keeps_fine inject_background_completions.
Proof. unfold inject_background_completions. repeat fine_step. Qed.
Lemma fine_steering : keeps_fine inject_steering.
Proof.
  unfold inject_steering, add_steered. repeat fine_step. apply fine_update. intros s. case_match; apply push_user.
Qed.
Lemma fine_limit : keeps_fine check_limit.
Proof. unfold check_limit. repeat fine_step. Qed.
Lemma fine_tokens : keeps_fine token_count_now.
Proof.
  unfold token_count_now. apply keeps_bind; [|intros; apply keeps_ret]. apply fine_on_core, kept_on_session.
  intros s n s' [= _ <-]. done.
Qed.
Lemma fine_prepare p m : keeps_fine (prepare_context p m).
Proof.
  unfold prepare_context, auto_compact. repeat first [apply fine_tokens|fine_step].
  - apply fine_on_core, shrinking_keeps. intros s.
    destruct (shrink_old_shrinks TOOL_RESULT_SHAKE_CHARS s) as (n & s' & E & Hs & _). eauto.
  - intros t Ht. by destruct (MAX_CONSECUTIVE_COMPACT_FAILURES <=? compact_failures t).
Qed.
Lemma fine_request : keeps_fine build_request.
Proof.
  intros t Ht. unfold build_request. apply ctl_bind.
  assert (Hs : ∀ t : Turn, wp get_session (λ s t', t' = t ∧ s = core_session (core t)) (λ _ _, False) t) by (by intros []).
  eapply ctl_mono; [apply Hs| |done]. intros s ? [-> ->]. apply ctl_bind, ctl_gets, ctl_bind.
  assert (Hpin : messages (pin_prompt_suffix turn_suffix (core_session (core t))).2 = messages (core_session (core t))).
  { unfold pin_prompt_suffix. by case_match. }
  destruct (pin_prompt_suffix _ _) as [a s]. cbn [snd] in Hpin.
  assert (Hlast : keeps_fine (s ← get_session; anchor ← gets turn_anchor;
     mret (match anchor with
           | None => if turn_suffix == [] then request_messages s else append_request_user_suffix (request_messages s) turn_suffix
           | Some _ => request_messages s
           end))) by (repeat fine_step).
  apply ctl_when; intros _; [|by apply Hlast].
  apply ctl_bind. eapply ctl_mono; [apply (fine_update (λ _, s)); [|exact Ht]| |done].
  - intros s0 _. unfold paired in *. by rewrite Hpin.
  - intros ? t' Ht'. by apply ctl_modify, Hlast.
Qed.

Lemma fine_overflow p m : keeps_fine (compact_after_overflow p m).
Proof. unfold compact_after_overflow. repeat fine_step. Qed.
Lemma fine_open_error {A} p m e : keeps_fine (on_open_error (A := A) p m e).
Proof. unfold on_open_error. repeat first [apply fine_overflow|fine_step]. Qed.
Lemma fine_rules channel text : keeps_fine (check_stream_rules channel text).
Proof. unfold check_stream_rules. repeat fine_step. Qed.
Lemma fine_args a : keeps_fine (check_tool_args_rules a).
Proof. unfold check_tool_args_rules. repeat first [apply fine_rules|fine_step]. Qed.
Lemma fine_stream_error p m kind e d : keeps_fine (on_stream_error p m kind e d).
Proof. unfold on_stream_error, wait_stream_retry. repeat first [apply fine_overflow|fine_step]. Qed.
Lemma fine_event p m d e : keeps_fine (on_event p m d e).
Proof.
  unfold on_event, on_thinking. repeat first [apply fine_rules|apply fine_args|apply fine_stream_error|fine_step].
Qed.

(** *** Drafts *)

(** Thinking calls nothing. *)
Definition no_call (b : ContentBlock) : Prop := block_call b = None.
(** The draft has no call of [rewind] and no calls outside the assembler. *)
Definition REWIND : str := lit "rewind".
Definition tame (d : Draft) : Prop :=
  Forall (λ c, call_name c ≠ REWIND) (ToolStream.calls (assembler d)) ∧ Forall no_call (Thinking.closed (thinking_acc d)).
Definition tame_poll (p : @Poll Value) : Prop :=
  match p with PEvent (SToolUse _ name _) => name ≠ REWIND | _ => True end.
Definition tame_progress (p : Progress) : Prop := match p with Streaming d | Complete d | Retry d => tame d end.

Lemma tame_flush acc : Forall no_call (Thinking.closed acc) → Forall no_call (Thinking.closed (Thinking.flush (ImageSource := ImageSource) acc)).
Proof.
  intros Hf. unfold flush. destruct (open acc) as [o|]; [|done]. cbn. case_match; [|done]. apply Forall_app. split; [done|].
  by repeat constructor.
Qed.
Lemma tame_use (a a' : @Assembler Value) id name_ input :
  Forall (λ c, call_name c ≠ REWIND) (ToolStream.calls a) → name_ ≠ REWIND → on_tool_use a id name_ input = Some a' →
  Forall (λ c, call_name c ≠ REWIND) (ToolStream.calls a').
Proof.
  intros Ha Hn. unfold on_tool_use, continue_tool_use. case_match.
  - intros (c & Hc & (buf & _ & Hs)%bind_Some)%bind_Some. destruct (seed input) as [fragment complete]. injection Hs as <-.
    cbn. apply Forall_insert; [done|]. apply (Forall_lookup_1 _ _ _ _ Ha) in Hc. destruct complete; cbn; by destruct (call_name c == []).
  - destruct (seed input). intros [= <-]. cbn. apply Forall_app. split; [done|]. by repeat constructor.
Qed.
Lemma tame_delta (a a' : @Assembler Value) id f :
  on_tool_use_delta a id f = Some a' → ToolStream.calls a' = ToolStream.calls a.
Proof.
  unfold on_tool_use_delta. case_match; [by intros [= <-]|]. case_match; [|by intros [= <-]].
  intros (buf & _ & [= <-])%bind_Some. done.
Qed.

Lemma tame_stream_error p m kind e d : tame d → yields tame_progress (on_stream_error p m kind e d).
Proof. intros Hd. unfold on_stream_error. do 2 (apply yields_bind; intros). by apply yields_ret. Qed.
Lemma yields_lift {A} (o : option A) : yields (S := Turn) (λ a, o = Some a) (lift_turn o).
Proof. destruct o; [by apply yields_ret|apply yields_stop]. Qed.
Lemma tame_checked hit d : tame d → yields (S := Turn) (X := Exit) tame_progress (mret (checked hit d)).
Proof. intros Hd. apply yields_ret. by destruct hit. Qed.
Lemma tame_event p m d e : tame d → tame_poll (PEvent e) → yields tame_progress (on_event p m d e).
Proof.
  intros [Hc Ht] He. destruct e; cbn [on_event]; unfold on_thinking; try (by apply yields_ret).
  - do 2 (apply yields_bind; intros). apply tame_checked. split; [done|by apply tame_flush].
  - eapply yields_then; [apply yields_lift|]. cbn. intros a Ea. apply yields_bind; intros. apply tame_checked.
    split; [by eapply tame_use|by apply tame_flush].
  - eapply yields_then; [apply yields_lift|]. cbn. intros a Ea. apply yields_bind; intros. apply tame_checked.
    split; [cbn; by rewrite (tame_delta _ _ _ _ Ea)|done].
  - case_match; [by apply yields_ret|]. do 2 (apply yields_bind; intros). apply tame_checked. split; [done|].
    cbn. unfold push_text. by repeat case_match.
  - case_match; [by apply yields_ret|]. do 2 (apply yields_bind; intros). apply tame_checked. split; [done|].
    cbn. unfold push_text. by repeat case_match.
  - apply yields_ret. split; [done|]. cbn. unfold push_signature. by case_match.
  - apply yields_ret. split; [done|]. cbn. unfold push_redacted. case_match; [by apply tame_flush|]. cbn.
    apply Forall_app. split; [by apply tame_flush|by repeat constructor].
  - apply yields_bind; intros. by apply tame_stream_error.
Qed.
Lemma tame_poll_event p m d q : tame d → tame_poll q → yields tame_progress (on_poll p m d q).
Proof.
  intros Hd Hq. unfold on_poll, failed_poll. apply yields_bind. intros _. destruct q.
  - by apply tame_event.
  - apply yields_bind; intros. by apply tame_stream_error.
  - apply yields_bind; intros. by apply tame_stream_error.
  - apply yields_bind; intros. apply yields_bind; intros. apply yields_stop.
Qed.
Lemma tame_drain p m polls d : tame d → Forall tame_poll polls → yields tame_progress (drain p m polls d).
Proof.
  intros Hd Hp. revert d Hd. induction Hp as [|q polls Hq _ IH]; intros d Hd; cbn [drain]; [by apply yields_ret|].
  eapply yields_then; [by apply tame_poll_event|]. intros [d'|d'|d'] Hd'; [by apply IH|by apply yields_ret..].
Qed.
Lemma call_ids_thoughts blocks : Forall no_call blocks → omap block_call blocks = [].
Proof. induction 1 as [|b bs Hb _ IH]; [done|]. cbn. by rewrite Hb. Qed.
Lemma fine_keep_draft d : tame d → keeps_fine (keep_draft d).
Proof.
  intros [_ Ht]. unfold keep_draft. repeat fine_step. apply fine_update. intros s Hs.
  apply transcript_app; [done|]. apply paired_idle; [done| |constructor]. unfold call_ids. cbn.
  rewrite omap_app, call_ids_thoughts by (by apply tame_flush). by case_match.
Qed.
Lemma fine_poll p m d q : tame d → keeps_fine (on_poll p m d q).
Proof.
  intros Hd. unfold on_poll, failed_poll. repeat first [apply fine_event|apply fine_stream_error|by apply fine_keep_draft|fine_step].
Qed.
Lemma fine_drain p m polls d : tame d → Forall tame_poll polls → keeps_fine (drain p m polls d).
Proof.
  intros Hd Hp. revert d Hd. induction Hp as [|q polls Hq _ IH]; intros d Hd; cbn [drain]; [apply keeps_ret|].
  intros t Ht. apply ctl_bind. eapply ctl_mono; [exact (ctl_and _ _ _ _ _ _ (fine_poll p m d q Hd t Ht) (tame_poll_event p m d q Hd Hq t))| |by intros ?? []].
  cbn. intros [d'|d'|d'] t' [Ht' Hd']; [by apply IH|by apply ctl_ret..].
Qed.

(** ** Calls and their results *)

(** The last message asks for [calls], and nothing answers yet. *)
Definition asked (calls : list ToolCall) (t : Turn) : Prop := ∃ pre a,
  messages (core_session (core t)) = pre ++ [a] ∧ role a = Assistant ∧ call_ids a = call_id <$> calls ∧ paired pre.
Notation keeps_asked calls := (keeps (asked calls) ends_fine).

Lemma asked_modify calls f : (∀ t, core (f t) = core t) → keeps_asked calls (modify f).
Proof. intros Hf. apply keeps_modify. intros t Ht. unfold asked. by rewrite Hf. Qed.
Lemma asked_world {A} calls (f : W → A * W) : keeps_asked calls (world f).
Proof.
  intros t Ht. unfold world, on_core. apply ctl_map_stop, ctl_zoom. unfold wp, act.
  by destruct (f (core_world (core t))).
Qed.
Lemma asked_look {A} calls (f : W → A) : keeps_asked calls (on_core (look f)).
Proof. intros t Ht. by apply ctl_map_stop, ctl_zoom, ctl_gets. Qed.
Ltac asked_step :=
  match goal with
  | |- keeps (asked _) _ (world _) => apply asked_world
  | |- keeps (asked _) _ (on_core (look _)) => apply asked_look
  | |- keeps (asked _) _ (emit _) => by apply asked_modify
  | |- keeps (asked _) _ (modify _) => by apply asked_modify
  | |- keeps (asked _) _ (lift_turn ?o) => destruct o; [apply keeps_ret|apply keeps_stop; by intros ?? []]
  | |- keeps (asked _) _ _ => keeps_step
  end.

(** Results carry the ids of the calls, in order. *)
Definition for_calls (calls : list ToolCall) (rs : list ToolResult) : Prop := tool_call_id <$> rs = call_id <$> calls.

Lemma add_results_spec now_ rs (s s' : Session) : add_tool_results now_ rs s = Some s' →
  ∃ ms, messages s' = messages s ++ ms ∧ Forall (λ m, role m = Tool) ms ∧
    Forall2 (λ m r, result_id m = tool_call_id r ∨ tool_call_id r = []) ms rs.
Proof.
  revert s; induction rs as [|r rs IH]; intros s; cbn [add_tool_results].
  { intros [= <-]. exists []. by rewrite app_nil_r. }
  intros (s1 & H1 & H2)%bind_Some. unfold add_tool_result in H1. apply bind_Some in H1 as (c & _ & H1). injection H1 as <-.
  destruct (IH _ H2) as (ms & E & Hr & Hf). cbn [messages push_message set_msgs set_cache] in E. eexists (_ :: ms). split_and!.
  - rewrite E, <- app_assoc. done.
  - by constructor.
  - constructor; [|done]. unfold result_id. cbn. case_bool_decide; auto.
Qed.
Lemma results_answer (a : Message) (calls : list ToolCall) (ms : list Message) (rs : list ToolResult) : call_ids a = call_id <$> calls → for_calls calls rs →
  Forall2 (λ m r, result_id m = tool_call_id r ∨ tool_call_id r = []) ms rs → answers a ms.
Proof.
  unfold for_calls. intros Ha Hr Hf. unfold answers. rewrite Ha, <- !Hr. clear Ha Hr. split.
  - intros id. induction Hf as [|m r ms rs Hm _ IH]; [done|]. rewrite !fmap_cons, !elem_of_cons. intros [->|Hin] Hne; [|auto].
    left. by destruct Hm.
  - destruct (base.decide ([] ∈ tool_call_id <$> rs)) as [|Hn]; [by left|right]. intros id.
    induction Hf as [|m r ms rs Hm _ IH]; [done|]. rewrite !fmap_cons, !elem_of_cons in *. intros [->|Hin].
    + left. destruct Hm as [|E]; [done|]. rewrite E in Hn. set_solver.
    + right. apply IH; [set_solver|done].
Qed.
(** Adding them closes the calls. *)
Lemma results_close calls rs t : asked calls t → for_calls calls rs → wp (add_results rs) (λ _, fine) ends_fine t.
Proof.
  intros (pre & a & Hm & Hr & Hc & Hp) Hrs. unfold add_results. apply ctl_bind, ctl_map_stop, ctl_zoom, ctl_gets.
  apply ctl_map_stop, ctl_zoom. unfold on_session. apply ctl_bind, ctl_gets, ctl_bind. cbn [core_session core set_core].
  destruct (add_tool_results _ rs _) as [s'|] eqn:E; cbn [mbind option_bind]; [|apply ctl_stop; by intros []].
  apply ctl_ret, ctl_bind, ctl_modify, ctl_ret. unfold fine, kept. cbn.
  apply add_results_spec in E as (ms & E & Ht & Hf). rewrite E, Hm, <- app_assoc. apply transcript_app; [done|].
  apply transcript_turn_only; [done|done|]. by eapply results_answer.
Qed.

Lemma attach_ids calls results : yields (S := Turn) (λ rs, tool_call_id <$> rs = tool_call_id <$> results)
  (attach_nested_instructions calls results).
Proof.
  induction results as [|r rs IH]; cbn [attach_nested_instructions]; [by apply yields_ret|].
  apply yields_bind; intros extra. eapply yields_then; [exact IH|]. cbn. intros rs' E. apply yields_ret. cbn. by rewrite E.
Qed.
Lemma attach_asked cs calls results : keeps_asked cs (attach_nested_instructions calls results).
Proof. induction results as [|r rs IH]; cbn [attach_nested_instructions]; repeat first [apply IH|asked_step]. Qed.
Lemma settle_ids (s : Session) calls results pending :
  tool_call_id <$> (settle_checkpoint_rewind s calls results pending).1 = tool_call_id <$> results.
Proof.
  revert results pending; induction calls as [|tc cs IH]; intros [|r rs] pending; cbn [settle_checkpoint_rewind]; try done.
  assert (tool_call_id (settle_one s tc r pending).1 = tool_call_id r) as Hid.
  { unfold settle_one. destruct pending. by repeat case_match. }
  destruct (settle_one s tc r pending) as [r' pending']. cbn in Hid. specialize (IH rs pending').
  destruct (settle_checkpoint_rewind s cs rs pending') as [rs' p']. cbn in *. by rewrite Hid, IH.
Qed.
Lemma settle_no_rewind (s : Session) calls results goal :
  Forall (λ c, call_name c ≠ REWIND) calls → (settle_checkpoint_rewind s calls results (goal, None)).2.2 = None.
Proof.
  intros Hc. revert results goal; induction Hc as [|tc cs Hn _ IH]; intros [|r rs] goal; cbn [settle_checkpoint_rewind]; try done.
  assert (∃ g, (settle_one s tc r (goal, None)).2 = (g, None)) as [g Hg].
  { unfold settle_one. repeat case_match; eauto. boolp. done. }
  destruct (settle_one s tc r (goal, None)) as [r' pending']. cbn in Hg. subst pending'. specialize (IH rs g).
  by destruct (settle_checkpoint_rewind s cs rs (g, None)).
Qed.
Lemma after_batch_closes doom calls results t : asked calls t → for_calls calls results →
  Forall (λ c, call_name c ≠ REWIND) calls → wp (after_batch doom calls results) (λ _, fine) ends_fine t.
Proof.
  intros Ht Hr Hn. unfold after_batch. apply ctl_bind.
  eapply ctl_mono; [exact (ctl_and _ _ _ _ _ _ (attach_asked calls calls results t Ht) (attach_ids calls results t))| |by intros ?? []].
  cbn. intros rs t1 [H1 Hids]. apply ctl_bind, ctl_map_stop, ctl_zoom, ctl_gets.
  assert (H1' : asked calls (set_core (core t1) t1)) by done. revert H1'. generalize (set_core (core t1) t1). intros t2 H2.
  pose proof (settle_ids (core_session (core t1)) calls rs (None, None)) as Hs.
  pose proof (settle_no_rewind (core_session (core t1)) calls rs None Hn) as Hw.
  destruct (settle_checkpoint_rewind _ calls rs _) as [rs' [goal report]]. cbn in Hs, Hw. subst report.
  apply ctl_bind. eapply ctl_mono; [apply (results_close calls); [done|unfold for_calls; congruence]| |done]. cbn. intros _ t3 H3.
  apply ctl_bind. eapply ctl_mono; [apply (fine_on_core (look now)); [apply keeps_gets|done]| |done]. cbn. intros at_ t4 H4.
  assert (Hk : keeps_fine (match goal with Some goal => update_session (mark_checkpoint at_ goal) | None => mret tt end ;;
    mret tt ;; when (negb (length (failure_notes doom calls rs') =? 0)) (agent_note (join [cLF] (failure_notes doom calls rs'))) ;;
    refusals ← gets doom_refusals; when (MAX_DOOM_REFUSALS <=? refusals) (stop XBreak))).
  { repeat fine_step. by apply fine_update. }
  by apply Hk.
Qed.

Lemma closed_ids calls (done : list ToolResult) :
  tool_call_id <$> done = take (length done) (call_id <$> calls) → for_calls calls (close_unanswered_calls calls done).
Proof.
  intros E. unfold for_calls, close_unanswered_calls. rewrite fmap_app, E, <- list_fmap_compose.
  change (tool_call_id ∘ not_run_result) with (call_id (Value := Value)). by rewrite fmap_drop, take_drop.
Qed.
Lemma batch_answers calls t : asked calls t →
  wp (execute_batch calls) (λ rs t', asked calls t' ∧ for_calls calls rs) ends_fine t.
Proof.
  intros Ht. unfold execute_batch. apply ctl_bind. eapply ctl_mono; [by apply asked_world| |done]. cbn. intros b t1 H1.
  pose proof (run_tool_calls_adds (permission agent) (read_has_hooks agent) false (b_cancelled b) (b_urgent b) (b_take b) (b_exec b) calls []) as Hr.
  cbv zeta in Hr. destruct (run_tool_calls _ _ _ _ _ _ _ _ _) as [outcome [results events]].
  destruct Hr as (rs & evs & E & _ & Hids & Ho). cbn in E, Hids, Ho. injection E as -> _.
  apply ctl_bind. eapply ctl_mono; [apply (keeps_for_each (asked calls) ends_fine); [intros; by apply asked_modify|done]| |done].
  intros ? t2 H2. destruct outcome.
  - apply ctl_bind.
    assert (Hk1 : keeps_asked calls (hand_off calls)) by (unfold hand_off; repeat asked_step).
    assert (Hk2 : keeps_asked calls (remember_calls calls)) by (unfold remember_calls; repeat asked_step).
    eapply ctl_mono; [by apply Hk1| |done]. intros ? t3 H3. apply ctl_bind.
    eapply ctl_mono; [by apply Hk2| |done]. intros ? t4 H4. apply ctl_ret. split; [done|].
    unfold for_calls. rewrite Hids, Ho. apply firstn_all2. by rewrite length_fmap.
  - apply ctl_bind. eapply ctl_mono; [apply (results_close calls); [done|by apply closed_ids]| |done].
    intros ? t3 H3. apply ctl_stop. by intros _.
Qed.
Lemma refusals_answer calls t : asked calls t →
  wp (refuse_doom_loop calls) (λ rs t', asked calls t' ∧ for_calls calls rs) ends_fine t.
Proof.
  intros Ht. unfold refuse_doom_loop.
  assert (Hk : keeps_asked calls (refuse_doom_loop calls)) by (unfold refuse_doom_loop, remember_calls; repeat asked_step).
  assert (Hy : yields (S := Turn) (X := Exit) (for_calls calls) (refuse_doom_loop calls)).
  { unfold refuse_doom_loop. do 3 (apply yields_bind; intros). apply yields_ret. unfold for_calls.
    by rewrite <- list_fmap_compose. }
  eapply ctl_mono; [exact (ctl_and _ _ _ _ _ _ (Hk t Ht) (Hy t))|by intros ?? []|by intros ?? []].
Qed.
Lemma run_calls_closes calls t : asked calls t → Forall (λ c, call_name c ≠ REWIND) calls →
  wp (run_calls calls) (λ _, fine) ends_fine t.
Proof.
  intros Ht Hn. unfold run_calls. apply ctl_bind, ctl_modify, ctl_bind, ctl_gets, ctl_bind.
  apply (ctl_mono _ (λ rs t', asked calls t' ∧ for_calls calls rs) _ ends_fine).
  - destruct (would_doom_loop _ _); [by apply refusals_answer|by apply batch_answers].
  - intros rs t1 [H1 H2]. by apply after_batch_closes.
  - done.
Qed.

(** ** Steps *)

Lemma finish_names (a : @Assembler Value) calls : ToolStream.finish a = Some calls →
  Forall (λ c, call_name c ≠ REWIND) (ToolStream.calls a) → Forall (λ c, call_name c ≠ REWIND) calls.
Proof.
  unfold finish. generalize 0 (arg_bufs a). intros i bufs H1 H2. revert i bufs calls H1.
  induction H2 as [|c cs Hc _ IH]; intros i bufs calls; cbn [finish_from]; [by intros [= <-]|].
  intros (buf & _ & (r & Hr & [= <-])%bind_Some)%bind_Some. constructor; [|by eapply IH].
  unfold finish_call, canonical_path_argument. repeat case_match; done.
Qed.
Lemma fine_leak harmony d calls : keeps_fine (check_leak harmony d calls).
Proof. unfold check_leak. repeat fine_step. Qed.
Lemma fine_remind calls : keeps_fine (remind_todos calls).
Proof. unfold remind_todos. repeat fine_step. Qed.
(** The message of a step asks for its calls. *)
Lemma step_calls d calls : tame d → omap block_call (step_blocks d calls) = call_id <$> calls.
Proof.
  intros [_ Ht]. unfold step_blocks. rewrite !omap_app, call_ids_thoughts by (by apply tame_flush).
  assert (omap block_call (if accumulated_text d == [] then [] else [BText (accumulated_text d)]) = []) as -> by (by case_match).
  cbn [app]. induction calls as [|c cs IH]; [done|]. cbn. by f_equal.
Qed.
Definition after_step (calls : list ToolCall) (t : Turn) : Prop := match calls with [] => fine t | _ => asked calls t end.
Lemma record_asks d calls t : tame d → fine t → wp (record_step d calls) (λ _, after_step calls) ends_fine t.
Proof.
  intros Hd Ht. unfold record_step.
  assert (Hs : ∀ f, (∀ t, core (f t) = core t) → keeps_fine (modify f)).
  { intros f Hf. apply keeps_modify. intros t1 H1. unfold fine. by rewrite Hf. }
  apply ctl_bind. eapply ctl_mono; [apply (keeps_for_each fine ends_fine); [intros; by apply Hs|done]| |done]. intros ? t1 H1.
  do 2 apply ctl_bind, ctl_modify. apply ctl_bind.
  eapply ctl_mono; [apply (keeps_when fine ends_fine); [by apply Hs|done]| |done]. intros ? t2 H2.
  apply ctl_when; intros Hb.
  - apply ctl_bind, ctl_map_stop, ctl_zoom, ctl_gets, ctl_map_stop, ctl_zoom, ctl_modify.
    set (m := stamped Assistant (MBlocks (step_blocks d calls)) None None (now (core_world (core t2)))).
    assert (Hc : call_ids m = call_id <$> calls) by (by apply step_calls).
    unfold after_step. destruct calls as [|c cs].
    + apply transcript_app; [exact H2|]. apply paired_idle; [done|done|constructor].
    + exists (messages (core_session (core t2))), m. done.
  - destruct calls; [done|]. exfalso. apply negb_false_iff, Nat.eqb_eq in Hb. unfold step_blocks in Hb.
    rewrite !length_app in Hb. cbn in Hb. lia.
Qed.
Lemma fine_finish harmony d : tame d → keeps_fine (finish_step harmony d).
Proof.
  intros Hd t Ht. unfold finish_step. apply ctl_bind, ctl_modify, ctl_bind, ctl_modify.
  change (fine (set_stream_drops 0 (set_stream_drop_t0 None t))) in Ht. revert Ht. generalize (set_stream_drops 0 (set_stream_drop_t0 None t)).
  clear t. intros t Ht. apply ctl_bind.
  destruct (ToolStream.finish (assembler d)) as [calls|] eqn:Hf; [apply ctl_ret|apply ctl_stop; by intros []].
  apply finish_names in Hf; [|apply Hd]. apply ctl_bind.
  assert (Hcut : wp (cut_calls d calls) (λ p t', fine t' ∧ (p.1 = true → p.2 = []) ∧ Forall (λ c, call_name c ≠ REWIND) p.2) ends_fine t).
  { unfold cut_calls. apply ctl_bind, ctl_gets. destruct (hit_output_limit d); by apply ctl_bind, ctl_modify, ctl_ret. }
  eapply ctl_mono; [exact Hcut| |done]. intros [cut_off calls'] t1 (H1 & Hcf & Hn). cbn in Hcf, Hn.
  apply ctl_bind. eapply ctl_mono; [by apply fine_leak| |done]. intros ? t2 H2.
  apply ctl_bind. eapply ctl_mono; [by apply record_asks| |done]. intros ? t3 H3.
  destruct calls' as [|c cs].
  - assert (Hk : keeps_fine (when cut_off (agent_note CUT_OFF_NOTE ;; stop XContinue) ;; remind_todos [] ;; stop (A := unit) XBreak)).
    { repeat first [apply fine_remind|fine_step]. }
    by apply Hk.
  - destruct cut_off; [by specialize (Hcf eq_refl)|]. apply ctl_bind, ctl_ret, ctl_bind.
    assert (Hk : keeps_asked (c :: cs) (remind_todos (c :: cs))).
    { unfold remind_todos. cbn [length Nat.eqb andb when]. repeat asked_step. }
    eapply ctl_mono; [by apply Hk| |done]. cbn [length Nat.eqb]. intros ? t4 H4. by apply run_calls_closes.
Qed.

(** ** The turn *)

(** The model does not rewind. A compaction moves the messages a checkpoint counts,
    and a rewind to it may then cut between a call and its results. *)
Definition no_rewind : Prop := ∀ p m k ms w polls,
  (open_turn p m k ms w).1 = OStream polls → Forall tame_poll polls.
Context (Hopen : no_rewind).

Lemma tame_new : tame new_draft.
Proof. by repeat constructor. Qed.
Lemma open_tame p m k ms :
  yields (S := Turn) (X := Exit) (λ o, ∀ polls, o = OStream polls → Forall tame_poll polls) (world (open_turn p m k ms)).
Proof.
  intros t. unfold world, on_core. apply ctl_map_stop, ctl_zoom. unfold wp, act.
  pose proof (Hopen p m k ms (core_world (core t))) as Ho. destruct (open_turn p m k ms (core_world (core t))) as [o w].
  intros polls E. by apply (Ho polls).
Qed.
Lemma fine_stream p m polls : Forall tame_poll polls →
  keeps_fine (progress ← drain p m polls new_draft;
    match progress with
    | Retry d => discard d
    | Complete d | Streaming d => finish_step (uses_harmony_dialect p m) d
    end).
Proof.
  intros Hp. eapply keeps_then; [by apply fine_drain, Hp; apply tame_new|by apply tame_drain, Hp; apply tame_new|].
  intros [d|d|d] Hd; [by apply fine_finish..|]. unfold discard. repeat fine_step.
Qed.
Lemma fine_iteration : keeps_fine iteration.
Proof.
  unfold iteration.
  repeat first [apply fine_background|apply fine_steering|apply fine_limit|apply fine_prepare|apply fine_request
    |apply fine_open_error|apply fine_stream|
    match goal with |- keeps _ _ (world (open_turn _ _ _ _) ≫= _) => eapply keeps_then; [|apply open_tame|intros [] ?] end
    |progress fine_step]; auto.
Qed.
Lemma loop_pairs fuel t r t' : fine t → turn_loop fuel t = Some (r, t') → r ≠ Panic → fine t'.
Proof.
  revert t. induction fuel as [|fuel IH]; intros t Ht; [done|]. cbn [turn_loop].
  pose proof (fine_iteration t Ht) as Hi. unfold wp in Hi.
  destruct (iteration t) as [[[| |e|]|] t1]; try (intros [= <- <-] Hr; done || by apply Hi).
  - apply IH, Hi. done.
  - by apply IH.
Qed.

(** C8: A turn in which the model does not call [rewind] (hypothesis [no_rewind] of the
    section) leaves every call answered in place. Started on a transcript in which each
    assistant message is directly followed by the results of its calls and by no others,
    a turn that answers, fails or is cancelled without a panic, at whatever point and
    after whatever retries, compactions, notices and steering, ends on such a
    transcript. *)
Theorem turn_pairs_up c l key sticky handoff fuel r (t : Turn) :
  transcript answers (messages (core_session c)) →
  turn_loop fuel (start_turn c l key sticky handoff) = Some (r, t) → r ≠ Panic →
  transcript answers (messages (core_session (core t))).
Proof. intros Hc. by apply loop_pairs. Qed.
End pairs.

(** Two calls, the second set aside, and a cancel while the answer streams. *)
Definition small_turn : list (@Opened JVal) :=
  [OStream [Demo.text "Look. "%string; Demo.call "c1"%string "read"%string [(lit "path", lit "a")]; Demo.call "c2"%string "grep"%string []];
   OStream [PEvent (SThinkingDelta (lit "hm")); Demo.text "Don"%string; PInterrupted]].
Definition small_agent : @AgentSettings str := Demo.agent_with [] [] 5.
Lemma small_no_rewind : @no_rewind JVal N N (Demo.env small_turn).
Proof.
  intros p m k ms w polls. cbn [open_turn Demo.env fst]. unfold Demo.reply, small_turn.
  destruct (N.to_nat w) as [|[|[|i]]]; cbn; intros [= <-]; repeat constructor; by vm_compute.
Qed.
Example small_turn_cancelled : fst <$> Demo.run_with small_agent 20 small_turn = Some (Failed cancelled_error).
Proof. vm_compute. reflexivity. Qed.
Lemma turn_pairs_up_witness :
  match Demo.run_with small_agent 20 small_turn with
  | Some (Panic, _) | None => True
  | Some (_, t) => transcript answers (messages (core_session (core t)))
  end.
Proof.
  unfold Demo.run_with, Demo.run_on. cbv zeta.
  pose proof (@turn_pairs_up JVal N N str _ _ _ (Demo.env small_turn) (Demo.setting_with small_agent) small_no_rewind
    (mkCore Demo.hi 0%N None) empty_ledger (lit "a") None None 20) as Ht.
  revert Ht. destruct (turn_loop _ _) as [[[] t]|]; intros Ht.
  - refine (Ht _ t _ eq_refl _); [|discriminate]. apply transcript_plain; [by left|constructor].
  - refine (Ht _ t _ eq_refl _); [|discriminate]. apply transcript_plain; [by left|constructor].
  - exact I.
  - exact I.
Defined.
