(* ===== verification/TurnText.v ===== *)
(** What a turn says: its reply is the texts of its steps; and which batches are taken
    for a loop of the model's. *)

From S2P Require Import Prelude RustStr Bytes Messages ToolPolicy Permission Paths Tokenize Parse Lower Assess ToolText Summary Session ErrorClass Retry Harmony Todo Schedule ToolStream Thinking StreamRules Models Control Compaction Turn TurnFacts.

(** ** Texts a blank line apart *)

(** The white space around a text. *)
Definition leading (s : str) : str := take_while is_whitespace s.
Definition trailing (s : str) : str := rev (take_while is_whitespace (rev s)).
Definition blank (s : str) : bool := trim s == [].
(** The texts that say something, trimmed, with an empty line between each and the next;
    what stands before the first and behind the last is kept. *)
Definition paragraphs (texts : list str) : str :=
  match List.filter (λ s, negb (blank s)) texts with
  | [] => []
  | x :: r => leading x ++ join [cLF; cLF] (trim <$> x :: r) ++ trailing (List.last (x :: r) x)
  end.

Definition white (s : str) : Prop := Forall (λ c, is_whitespace c = true) s.
(** Begins and ends with a character that is no white space. *)
Definition solid (s : str) : Prop :=
  (∃ c r, s = c :: r ∧ is_whitespace c = false) ∧ (∃ r c, s = r ++ [c] ∧ is_whitespace c = false).

Lemma white_rev s : white s → white (rev s).
Proof. unfold white. rewrite !List.Forall_forall. intros H c Hc. apply H. by apply in_rev. Qed.
Lemma solid_rev s : solid s → solid (rev s).
Proof.
  intros [(c & r & E & Hc) (r' & c' & E' & Hc')]. split.
  - exists c', (rev r'). by rewrite E', rev_app_distr.
  - exists (rev r), c. by rewrite E.
Qed.
Lemma solid_app a m b : solid a → solid b → solid (a ++ m ++ b).
Proof.
  intros [(c & r & -> & Hc) _] [_ (r' & c' & -> & Hc')]. split.
  - by exists c, (r ++ m ++ r' ++ [c']).
  - exists ((c :: r) ++ m ++ r'), c'. by rewrite <- !app_assoc.
Qed.
Lemma solid_not_nil s : solid s → s ≠ [].
Proof. by intros [(c & r & -> & _) _]. Qed.

Lemma take_while_white l t : white l → solid t → take_while is_whitespace (l ++ t) = l.
Proof. intros Hl [(c & r & -> & Hc) _]. by apply take_while_app. Qed.
Lemma drop_while_white l t : white l → solid t → drop_while is_whitespace (l ++ t) = t.
Proof. intros Hl [(c & r & -> & Hc) _]. by apply drop_while_app. Qed.

Section parts.
Context (l t b : str) (Hl : white l) (Ht : solid t) (Hb : white b).
Lemma solid_tail : solid (t ++ b) ∨ b ≠ [].
Proof. destruct b; [left; by rewrite app_nil_r|by right]. Qed.
Lemma drop_front : drop_while is_whitespace (l ++ t ++ b) = t ++ b.
Proof. destruct Ht as [(c & r & -> & Hc) _]. by apply drop_while_app. Qed.
Lemma trim_start_parts : trim_start (l ++ t ++ b) = t ++ b.
Proof. apply drop_front. Qed.
Lemma leading_parts : leading (l ++ t ++ b) = l.
Proof. unfold leading. destruct Ht as [(c & r & -> & Hc) _]. by apply take_while_app. Qed.
Lemma rev_parts : rev (l ++ t ++ b) = rev b ++ rev t ++ rev l.
Proof. by rewrite !rev_app_distr, <- app_assoc. Qed.
Lemma trim_end_parts : trim_end (l ++ t ++ b) = l ++ t.
Proof.
  unfold trim_end, trim_end_matches. rewrite rev_parts.
  destruct (proj1 (solid_rev _ Ht)) as (c & r & E & Hc). rewrite E. cbn [app].
  rewrite drop_while_app by (done || by apply white_rev). rewrite app_comm_cons, <- E, rev_app_distr, !rev_involutive. done.
Qed.
Lemma trailing_parts : trailing (l ++ t ++ b) = b.
Proof.
  unfold trailing. rewrite rev_parts.
  destruct (proj1 (solid_rev _ Ht)) as (c & r & E & Hc). rewrite E. cbn [app].
  rewrite take_while_app by (done || by apply white_rev). apply rev_involutive.
Qed.
End parts.
Lemma trim_parts l t b : white l → solid t → white b → trim (l ++ t ++ b) = t.
Proof.
  intros Hl Ht Hb. unfold trim. rewrite trim_start_parts by done. by apply (trim_end_parts [] t b).
Qed.
Lemma blank_parts l t b : white l → solid t → white b → blank (l ++ t ++ b) = false.
Proof. intros Hl Ht Hb. unfold blank. rewrite trim_parts by done. apply bool_decide_eq_false. by apply solid_not_nil. Qed.

Lemma not_blank s : blank s = false → ∃ l t b, s = l ++ t ++ b ∧ white l ∧ solid t ∧ white b.
Proof.
  intros H. exists (take_while is_whitespace s), (trim s). unfold blank in H. apply bool_decide_eq_false in H.
  assert (∃ b, trim_start s = trim s ++ b ∧ white b) as (b & Eb & Hb).
  { exists (rev (take_while is_whitespace (rev (trim_start s)))). split; [|apply white_rev, take_while_all].
    unfold trim, trim_end, trim_end_matches. by rewrite <- rev_app_distr, take_drop_while, rev_involutive. }
  exists b. split_and!; [rewrite <- Eb; symmetry; apply take_drop_while|apply take_while_all| |done]. split.
  - destruct (trim s) as [|c r] eqn:E; [done|]. exists c, r. split; [done|]. by apply trim_head in E.
  - destruct (trim s) as [|c r _] eqn:E using rev_ind; [done|]. exists r, c. split; [done|]. by apply trim_end_matches_last in E.
Qed.

(** *** What [append_step_text] adds up to *)

Lemma append_parts l t b l' t' b' : white l → solid t → white b → white l' → solid t' → white b' →
  append_step_text (l ++ t ++ b) (l' ++ t' ++ b') = l ++ (t ++ [cLF; cLF] ++ t') ++ b'.
Proof.
  intros. unfold append_step_text. rewrite !trim_parts, trim_end_parts, trim_start_parts by done.
  rewrite !(bool_decide_eq_false_2 (_ = [])) by (by apply solid_not_nil). by rewrite <- !app_assoc.
Qed.
Lemma join_snoc sep (ls : list str) x : ls ≠ [] → join sep (ls ++ [x]) = join sep ls ++ sep ++ x.
Proof.
  induction ls as [|y [|z ls] IH]; intros Hn; [done|done|]. cbn [app join] in *. rewrite IH by done. by rewrite <- !app_assoc.
Qed.
Lemma join_solid ls : ls ≠ [] → Forall solid ls → solid (join [cLF; cLF] ls).
Proof.
  induction ls as [|x ls IH] using rev_ind; intros Hn Hs; [done|].
  apply Forall_app in Hs as [Hs [Hx _]%Forall_cons].
  destruct ls as [|y ls]; [done|]. rewrite join_snoc by done. apply solid_app; [by apply IH|done].
Qed.

Lemma trim_solid s : blank s = false → solid (trim s).
Proof. intros (l & t & b & -> & ? & ? & ?)%not_blank. by rewrite trim_parts. Qed.
Lemma filtered_solid texts : Forall solid (trim <$> List.filter (λ s, negb (blank s)) texts).
Proof.
  apply Forall_fmap, List.Forall_forall. intros s [_ Hs]%filter_In. apply negb_true_iff in Hs. by apply trim_solid.
Qed.

Lemma append_paragraphs texts x : append_step_text (paragraphs texts) x = paragraphs (texts ++ [x]).
Proof.
  unfold paragraphs. rewrite List.filter_app. cbn [List.filter]. pose proof (filtered_solid texts) as Hs.
  destruct (blank x) eqn:Hx; cbn [negb].
  { rewrite app_nil_r. unfold append_step_text. unfold blank in Hx. by rewrite Hx. }
  destruct (not_blank x Hx) as (l' & t' & b' & -> & Hl' & Ht' & Hb').
  destruct (List.filter _ texts) as [|y r] eqn:Ef.
  - cbn [app List.last fmap list_fmap join]. rewrite leading_parts, trailing_parts, trim_parts by done. unfold append_step_text. rewrite trim_parts by done.
    by rewrite bool_decide_eq_false_2 by (by apply solid_not_nil).
  - assert (∀ z, z ∈ y :: r → blank z = false) as Hnb.
    { intros z Hz. rewrite <- Ef in Hz. apply list_elem_of_In, filter_In in Hz as [_ Hz]. by apply negb_true_iff in Hz. }
    cbn [app]. rewrite append_parts; [|apply take_while_all|apply join_solid; done|apply white_rev, take_while_all|done..].
    change (y :: r ++ [l' ++ t' ++ b']) with ((y :: r) ++ [l' ++ t' ++ b']).
    rewrite List.last_last, fmap_app. change (trim <$> [?x]) with [trim x]. rewrite join_snoc by done.
    rewrite trim_parts, trailing_parts by done. done.
Qed.

Section text.
Context {Value Time W Re : Type} `{!Json Value} `{!JsonMake Value} `{!EqDecision Time} `{!@TurnEnv Value Time W} `{!@TurnSetting Re}.
Notation Core := (@Core Value Time W).
Notation Turn := (@Turn Value Time W).
Notation ToolCall := (ToolCall Value).
Notation T := (M Turn Exit).

(** ** Loops of the model *)

Lemma repeated_spec n first back :
  repeated n first back = true ↔ ∃ k rest, back = replicate k first ++ rest ∧ DOOM_LOOP_THRESHOLD ≤ n + k.
Proof.
  revert n; induction back as [|sig back IH]; intros n; cbn [repeated].
  - rewrite Nat.leb_le. split.
    + intros Hn. exists 0, []. split; [done|lia].
    + intros (k & rest & E & Hk). destruct k; [lia|done].
  - destruct (sig == first) eqn:E; boolp.
    + subst sig. rewrite orb_true_iff, Nat.leb_le, IH. split.
      * intros [Hn|(k & rest & -> & Hk)]; [exists 1, back|exists (S k), rest]; (split; [done|lia]).
      * intros (k & rest & Eb & Hk). destruct k as [|k]; [left; lia|]. right. injection Eb as ->.
        exists k, rest. split; [done|lia].
    + rewrite Nat.leb_le. split; [intros Hn; exists 0, (sig :: back); split; [done|lia]|].
      intros (k & rest & Eb & Hk). destruct k; [lia|]. injection Eb as ? _. congruence.
Qed.

(** A batch is taken for a loop exactly when its calls are all the
    same, name and arguments, and with the equal calls run right before it there are
    three of them or more. *)
Theorem doom_loop_exact (recent : list str) (calls : list ToolCall) :
  would_doom_loop recent calls = true ↔
    ∃ sig before k, calls ≠ [] ∧ Forall (λ c, tool_call_signature c = sig) calls ∧
      recent = before ++ replicate k sig ∧ DOOM_LOOP_THRESHOLD ≤ length calls + k.
Proof.
  unfold would_doom_loop. destruct calls as [|c cs]; [split; [done|by intros (?&?&?&?&_)]|].
  set (calls := c :: cs). set (sig := tool_call_signature c).
  assert (Hall : forallb (λ c, tool_call_signature c == sig) calls = true ↔ Forall (λ c, tool_call_signature c = sig) calls).
  { rewrite forallb_forall, Forall_forall. split; intros Hc x Hx.
    - by apply list_elem_of_In, Hc, bool_decide_eq_true in Hx.
    - apply bool_decide_eq_true. by apply Hc, list_elem_of_In. }
  destruct (forallb _ calls) eqn:E; cbn [negb].
  - rewrite repeated_spec. assert (Hsig := proj1 Hall eq_refl). split.
    + intros (k & rest & Er & Hk). exists sig, (rev rest), k. split_and!; [done|done| |done].
      rewrite <- (rev_involutive recent), Er, rev_app_distr. f_equal. rewrite rev_alt. apply reverse_replicate.
    + intros (sig' & before & k & _ & Hs' & Er & Hk). exists k, (rev before). split; [|done].
      assert (sig' = sig) as -> by (by apply Forall_cons in Hs' as [<- _]).
      rewrite Er, rev_app_distr. f_equal. rewrite rev_alt. apply reverse_replicate.
  - split; [done|]. intros (sig' & before & k & _ & Hs' & _). exfalso.
    assert (sig' = sig) as -> by (by apply Forall_cons in Hs' as [<- _]). by apply Hall in Hs'.
Qed.

(** ** The reply *)

(** What a stream says: its text up to the end of the message. *)
Fixpoint said (polls : list (@Poll Value)) : str :=
  match polls with
  | [] | PEvent SMessageStop :: _ => []
  | PEvent (STextDelta text) :: rest => text ++ said rest
  | _ :: rest => said rest
  end.
(** A stream that the provider opens for some request says it. *)
Definition streamed (text : str) : Prop := ∃ provider model key request w polls,
  (open_turn provider model key request w).1 = OStream polls ∧ text = said polls.
(** The texts of the finished steps. *)
Definition step_texts (t : Turn) : list str := fst <$> finished_steps t.
Definition told (t : Turn) : Prop :=
  final_text t = paragraphs (step_texts t) ∧ length (finished_steps t) = turn_count t ∧ Forall streamed (step_texts t).
Definition limit_line (max : nat) : str := lit "[" ++ limit_note max ++ lit "]".
Definition limited (t : Turn) : Prop := ∃ max,
  max_turns agent = Some max ∧ max ≤ turn_count t ∧ length (finished_steps t) = turn_count t ∧
  final_text t = paragraphs (step_texts t ++ [limit_line max]) ∧ Forall streamed (step_texts t).
Definition ends_told (x : Exit) (t : Turn) : Prop :=
  match x with XContinue => told t | XBreak => told t ∨ limited t | XFail _ | XPanic => True end.
Notation keeps_told := (keeps told ends_told).
Notation quiet := (keeps (S := Turn) (λ _, True) (λ x _, x ≠ XContinue ∧ x ≠ XBreak)).

Lemma told_on_core {A} (m : M Core Halt A) : keeps_told (on_core m).
Proof.
  intros t Ht. unfold on_core. apply ctl_map_stop, ctl_zoom. unfold wp. destruct (m (core t)) as [[[]|a] c]; done.
Qed.
Lemma quiet_on_core {A} (m : M Core Halt A) : quiet (on_core m).
Proof.
  intros t Ht. unfold on_core. apply ctl_map_stop, ctl_zoom. unfold wp. by destruct (m (core t)) as [[[]|a] c].
Qed.
Ltac told_step :=
  match goal with
  | |- keeps_told (lift_turn ?o) => destruct o; [apply keeps_ret|apply keeps_stop]
  | |- keeps_told (on_core _) => apply told_on_core
  | |- keeps_told _ => keeps_step
  | |- keeps_told _ => progress unfold emit, cancel, agent_note, update_session, get_session, world, add_results, token_count_now,
      hand_off, remember_calls, auto_compact, compact_after_overflow, add_steered
  | |- ∀ _, told _ → ends_told XBreak _ => by (intros ? ?; left)
  | |- ∀ _, told _ → ends_told _ _ => by intros ? ?
  | |- ∀ _, told _ → told _ => intros ? ?; repeat case_match; done
  end.
Ltac tell := repeat told_step.
Lemma told_limit : keeps_told check_limit.
Proof.
  intros t (Ht & Hn & Hs). unfold check_limit. apply ctl_bind, ctl_gets. destruct (max_turns agent) as [max|] eqn:E; [|by apply ctl_ret].
  apply ctl_when; intros Hm; [|done]. apply Nat.leb_le in Hm. apply ctl_bind, ctl_modify, ctl_stop. right. exists max.
  split_and!; [done|done|done| |done]. transitivity (append_step_text (paragraphs (step_texts t)) (limit_line max)); [by rewrite <- Ht|apply append_paragraphs].
Qed.
Lemma told_prepare p m : keeps_told (prepare_context p m).
Proof. unfold prepare_context. tell. Qed.
Lemma told_request : keeps_told build_request.
Proof. unfold build_request. tell. Qed.
Lemma told_open_error {A} p m e : keeps_told (on_open_error (A := A) p m e).
Proof. unfold on_open_error. tell. Qed.
Lemma told_rules channel text : keeps_told (check_stream_rules channel text).
Proof. unfold check_stream_rules. tell. Qed.
Lemma told_event p m d e : keeps_told (on_event p m d e).
Proof.
  unfold on_event, on_thinking, check_tool_args_rules, on_stream_error, wait_stream_retry. repeat first [apply told_rules|told_step].
Qed.
(** What an interruption keeps of a draft is no step, and there is no reply. *)
Lemma told_interrupted {A} d : keeps_told (keep_draft d ;; cancel (A := A)).
Proof.
  assert (Hq : quiet (keep_draft d)).
  { unfold keep_draft, update_session. repeat first [apply quiet_on_core|keeps_step]; done. }
  intros t _. apply ctl_bind. eapply ctl_mono; [by apply Hq| |].
  - intros ? t' _. by apply ctl_bind, ctl_modify, ctl_stop.
  - by intros [] t' [].
Qed.
Lemma told_poll p m d q : keeps_told (on_poll p m d q).
Proof.
  unfold on_poll, failed_poll, on_stream_error, wait_stream_retry. apply keeps_bind; [apply told_on_core|]. intros _.
  destruct q; [apply told_event|tell..|apply told_interrupted].
Qed.
Lemma told_drain p m polls d : keeps_told (drain p m polls d).
Proof.
  revert d; induction polls as [|q polls IH]; intros d; cbn [drain]; [apply keeps_ret|].
  apply keeps_bind; [apply told_poll|]. intros []; [apply IH|apply keeps_ret..].
Qed.
(** What is read of a stream is what it says. *)
Definition heard (d : @Draft Value) (polls : list (@Poll Value)) (pr : @Progress Value) : Prop :=
  match pr with Complete d' => accumulated_text d' = accumulated_text d ++ said polls | Streaming _ => False | Retry _ => True end.
Definition heard_one (d : @Draft Value) (q : @Poll Value) (pr : @Progress Value) : Prop :=
  match pr with
  | Streaming d' => ∀ rest, accumulated_text d ++ said (q :: rest) = accumulated_text d' ++ said rest
  | Complete d' => accumulated_text d' = accumulated_text d ∧ ∀ rest, said (q :: rest) = []
  | Retry _ => True
  end.
Notation yields := (yields (S := Turn) (X := Exit)).
Lemma heard_retry d q p m kind e d' : yields (heard_one d q) (on_stream_error p m kind e d').
Proof. unfold on_stream_error. do 2 (apply yields_bind; intros). by apply yields_ret. Qed.
Lemma heard_checked d q hit d' : heard_one d q (Streaming d') → yields (heard_one d q) (mret (checked hit d')).
Proof. intros Hh. apply yields_ret. by destruct hit. Qed.
Lemma heard_event p m d e : yields (heard_one d (PEvent e)) (on_event p m d e).
Proof.
  destruct e; cbn [on_event]; unfold on_thinking; try (by apply yields_ret);
    repeat first [apply heard_retry|case_match; [by apply yields_ret|]|apply heard_checked|apply yields_bind; intros]; try done.
  intros rest. cbn. apply app_assoc.
Qed.
Lemma heard_poll p m d q : yields (heard_one d q) (on_poll p m d q).
Proof.
  unfold on_poll, failed_poll. apply yields_bind. intros _. destruct q; [apply heard_event|..];
    repeat first [apply heard_retry|apply yields_stop|apply yields_bind; intros].
Qed.
Lemma heard_drain p m polls d : yields (heard d polls) (drain p m polls d).
Proof.
  revert d; induction polls as [|q polls IH]; intros d; cbn [drain]; [apply yields_ret; cbn; by rewrite app_nil_r|].
  eapply yields_then; [apply heard_poll|]. intros [d'|d'|d'] Hd'.
  - intros t. eapply ctl_mono; [apply (IH d' t)| |done]. intros [d2|d2|d2] t2; cbn [heard]; [done| |done]. intros ->. by rewrite Hd'.
  - apply yields_ret. cbn [heard]. destruct Hd' as [-> Hs]. by rewrite Hs, app_nil_r.
  - by apply yields_ret.
Qed.

(** A step adds its text once, however it is kept. *)
Lemma told_record d calls : streamed (accumulated_text d) → keeps_told (record_step d calls).
Proof.
  intros Hd. unfold record_step. apply keeps_bind; [tell|]. intros _ t (Ht & Hn & Hf). do 2 apply ctl_bind, ctl_modify. apply ctl_bind.
  set (t1 := set_finished_steps _ _).
  assert (Hl : length (finished_steps t1) = turn_count t1) by (cbn; rewrite length_app; cbn; lia).
  assert (Hs : step_texts t1 = step_texts t ++ [accumulated_text d]) by (unfold step_texts, t1; cbn; by rewrite fmap_app).
  assert (Hf1 : Forall streamed (step_texts t1)) by (rewrite Hs; apply Forall_app; split; [done|by constructor]).
  assert (Hend : keeps_told (when (negb (length (step_blocks d calls) =? 0))
    (at_ ← on_core (look now); update_session (add_assistant_message at_ (step_blocks d calls))))) by tell.
  apply ctl_when; intros Hx.
  - apply ctl_modify. apply Hend. split; [|by split].
    transitivity (append_step_text (paragraphs (step_texts t)) (accumulated_text d)); [by rewrite <- Ht|].
    rewrite append_paragraphs, <- Hs. done.
  - apply Hend. split; [|by split]. apply negb_false_iff, bool_decide_eq_true in Hx.
    rewrite Hs, <- append_paragraphs, Hx, <- Ht. done.
Qed.
Lemma told_attach calls results : keeps_told (attach_nested_instructions calls results).
Proof. induction results as [|r rs IH]; cbn [attach_nested_instructions]; repeat first [apply IH|told_step]. Qed.
Lemma told_run_calls calls : keeps_told (run_calls calls).
Proof. unfold run_calls, after_batch, refuse_doom_loop, execute_batch. repeat first [apply told_attach|told_step]. Qed.
Lemma told_finish harmony d : streamed (accumulated_text d) → keeps_told (finish_step harmony d).
Proof.
  intros Hd. unfold finish_step, cut_calls, check_leak, remind_todos. repeat first [by apply told_record|apply told_run_calls|told_step].
Qed.
(** What the provider opens is a stream of its own. *)
Lemma open_streamed p m k ms :
  yields (λ o, ∀ polls, o = OStream polls → streamed (said polls)) (world (open_turn p m k ms)).
Proof.
  intros t. unfold world, on_core. apply ctl_map_stop, ctl_zoom. unfold wp, act.
  destruct (open_turn p m k ms (core_world (core t))) as [o w] eqn:E. intros polls ->.
  exists p, m, k, ms, (core_world (core t)), polls. by rewrite E.
Qed.
Lemma told_stream p m polls : streamed (said polls) →
  keeps_told (progress ← drain p m polls new_draft;
    match progress with
    | Retry d => discard d
    | Complete d | Streaming d => finish_step (uses_harmony_dialect p m) d
    end).
Proof.
  intros Hp. eapply keeps_then; [apply told_drain|apply heard_drain|].
  intros [d|d|d] Hd; [done| |unfold discard; tell]. cbn in Hd. apply told_finish. by rewrite Hd.
Qed.
Lemma told_iteration : keeps_told iteration.
Proof.
  unfold iteration, inject_background_completions, inject_steering.
  repeat first [apply told_limit|apply told_prepare|apply told_request|apply told_open_error|
    match goal with |- keeps _ _ (world (open_turn _ _ _ _) ≫= _) => eapply keeps_then; [tell|apply open_streamed|intros [] Ho] end
    |apply told_stream; by apply Ho|told_step].
Qed.
Lemma loop_tells fuel t text t' : told t → turn_loop fuel t = Some (Reply text, t') → text = final_text t' ∧ (told t' ∨ limited t').
Proof.
  revert t. induction fuel as [|fuel IH]; intros t Ht; [done|]. cbn [turn_loop].
  pose proof (told_iteration t Ht) as Hi. unfold wp in Hi.
  destruct (iteration t) as [[[| |e|]|] t1]; [by apply IH|by intros [= <- <-]|done|done|by apply IH].
Qed.

(** C10: The reply of a turn is made of the texts of its finished steps, in order and each
    once: the texts that say something, trimmed where they meet, an empty line between
    each and the next ([paragraphs]). The text of a finished step is what one opened stream says from its
    beginning to the end of its message, so drafts a rule discarded, a stream dropped or
    the dialect check refused leave nothing in the reply. At the step limit the note in
    brackets is one more paragraph, and the limit is at most the number of steps. *)
Theorem reply_is_the_steps c l key sticky handoff fuel text (t : Turn) :
  turn_loop fuel (start_turn c l key sticky handoff) = Some (Reply text, t) →
  Forall streamed (step_texts t) ∧
  (text = paragraphs (step_texts t) ∨
   ∃ max, max_turns agent = Some max ∧ max ≤ length (finished_steps t) ∧
     text = paragraphs (step_texts t ++ [limit_line max])).
Proof.
  intros Hl. apply loop_tells in Hl as [-> [(Ht & _ & Hs)|(max & Hm & Hle & Hn & Ht & Hs)]];
    [split; [done|by left]| |split; [done|split; [done|constructor]]].
  split; [done|]. right. exists max. split; [done|]. split; [lia|done].
Qed.
End text.

Example small_reply : paragraphs [lit " Look. "; lit "  "; lit "b" ++ [cLF]] = lit " Look." ++ [cLF; cLF] ++ lit "b" ++ [cLF].
Proof. vm_compute. reflexivity. Qed.
Lemma reply_is_the_steps_witness :
  match Demo.run_with (Demo.agent_with [] [] 5) 20
    [OStream [Demo.text "Look. "%string; Demo.call "c1"%string "read"%string []]; OStream [Demo.text "Done"%string]] with
  | Some (Reply text, t) => text = paragraphs (step_texts t) ∨
      ∃ max, Some 5 = Some max ∧ max ≤ length (finished_steps t) ∧ text = paragraphs (step_texts t ++ [limit_line max])
  | _ => True
  end.
Proof.
  unfold Demo.run_with, Demo.run_on. cbv zeta.
  match goal with |- match @turn_loop _ _ _ _ _ _ _ ?e ?s _ _ with _ => _ end =>
    pose proof (@reply_is_the_steps JVal N N str _ _ _ e s (mkCore Demo.hi 0%N None) empty_ledger (lit "a") None None 20) as Ht end.
  revert Ht. destruct (turn_loop _ _) as [[[text| |] t]|]; intros Ht; [exact (proj2 (Ht text t eq_refl))|exact I..].
Defined.
