(* ===== verification/FileClaims.v ===== *)
(** File claims of concurrent agents ([crates/core/src/file_claims.rs]): the
    registry, its operations on any interleaving of agents, and that a claim is
    exclusive while it is held and a stale read is reported exactly once.

    A claim holds the lock of the claims while it runs, and that of the last writes
    while it notes its write, so it is one step, as releasing and clearing are. A read
    looks up the last write under one lock and notes the reader under another: it is
    two steps, and those of several reads interleave. The listeners are the events an
    operation sends. *)

From S2P Require Import Prelude RustStr Paths.

Record FileClaim := mkClaim { owner_id : str; owner_label : str }.

Inductive ClaimResult :=
| Acquired
| Held
| Conflict (owner_id owner_label : str).

Record FileConflictEvent := mkConflict {
  conflict_path : str;
  claimant_id : str; claimant_label : str;
  conflict_owner_id : str; conflict_owner_label : str }.

Record FileStaleEvent := mkStale {
  stale_path : str; reader_id : str; writer_id : str; writer_label : str }.

Record WriteRecord := mkWrite { w_owner_id : str; w_owner_label : str; generation : N }.

(** [n.saturating_add(1)] on [u64]. *)
Definition saturating_succ (n : N) : N := if (n <? u64_max)%N then (n + 1)%N else u64_max.

(** The registry, and the conflicts and stale reads its listeners were told of. *)
Record Registry := mkRegistry {
  claims : gmap str FileClaim;
  last_write : gmap str WriteRecord;
  last_seen : gmap (str * str) N;
  conflicts : list FileConflictEvent;
  stales : list FileStaleEvent }.

Definition empty : Registry := mkRegistry ∅ ∅ ∅ [] [].

(** [apply_component], and the cleaning of a path that does not exist. *)
Definition apply_component (out : list component) (comp : component) : list component :=
  match comp with
  | ParentDir => path_pop out
  | CurDir => out
  | other => path_push out other
  end.

(** The key of a path; the current directory and [canonicalize] are arguments. *)
Definition claim_key (current_dir : option str) (canonicalize : str → option str) (path : str) : str :=
  let abs := if path_is_absolute path then path else path_join (default (lit ".") current_dir) path in
  match canonicalize abs with
  | Some c => c
  | None => path_to_str (foldl apply_component [] (components abs))
  end.

Definition record_write (reg : Registry) (key agent_id agent_label : str) : Registry :=
  let g := saturating_succ (default 0%N (generation <$> last_write reg !! key)) in
  mkRegistry (claims reg)
    (<[key := mkWrite agent_id agent_label g]> (last_write reg))
    (<[(agent_id, key) := g]> (last_seen reg))
    (conflicts reg) (stales reg).

Definition try_claim (reg : Registry) (agent_id agent_label key : str) : ClaimResult * Registry :=
  match claims reg !! key with
  | Some c =>
      if owner_id c == agent_id then (Held, record_write reg key agent_id agent_label)
      else
        let ev := mkConflict key agent_id agent_label (owner_id c) (owner_label c) in
        (Conflict (owner_id c) (owner_label c),
         mkRegistry (claims reg) (last_write reg) (last_seen reg) (conflicts reg ++ [ev]) (stales reg))
  | None =>
      let reg := mkRegistry (<[key := mkClaim agent_id agent_label]> (claims reg)) (last_write reg)
                   (last_seen reg) (conflicts reg) (stales reg) in
      (Acquired, record_write reg key agent_id agent_label)
  end.

(** The write a read by [agent_id] would be stale against. *)
Definition foreign_write (reg : Registry) (agent_id key : str) : option WriteRecord :=
  write ← last_write reg !! key;
  if w_owner_id write == agent_id then None else Some write.

(** The second half of [note_read]: note the reader, and whether it had seen it. *)
Definition note_seen (reg : Registry) (agent_id key : str) (write : WriteRecord)
    : option FileStaleEvent * Registry :=
  let last := last_seen reg !! (agent_id, key) in
  let seen := <[(agent_id, key) := generation write]> (last_seen reg) in
  if last == Some (generation write) then
    (None, mkRegistry (claims reg) (last_write reg) seen (conflicts reg) (stales reg))
  else
    let ev := mkStale key agent_id (w_owner_id write) (w_owner_label write) in
    (Some ev, mkRegistry (claims reg) (last_write reg) seen (conflicts reg) (stales reg ++ [ev])).

(** [note_read] when nothing comes between its two locks. *)
Definition note_read (reg : Registry) (agent_id key : str) : option FileStaleEvent * Registry :=
  match foreign_write reg agent_id key with
  | None => (None, reg)
  | Some write => note_seen reg agent_id key write
  end.

(** [map.retain(|_, c| c.owner_id != agent_id)]. *)
Definition release_agent (reg : Registry) (agent_id : str) : Registry :=
  mkRegistry (filter (λ e, owner_id e.2 ≠ agent_id) (claims reg)) (last_write reg) (last_seen reg)
    (conflicts reg) (stales reg).

Definition clear (reg : Registry) : Registry :=
  mkRegistry ∅ (last_write reg) (last_seen reg) (conflicts reg) (stales reg).

Definition len (reg : Registry) : nat := size (claims reg).
Definition is_empty (reg : Registry) : bool := len reg =? 0.

(** ** Interleavings *)

(** One whole operation of one agent on one key. *)
Inductive Op :=
| OClaim (agent label key : str)
| ORead (agent key : str)
| ORelease (agent : str)
| OClear.

Definition apply (reg : Registry) (op : Op) : Registry :=
  match op with
  | OClaim a l k => (try_claim reg a l k).2
  | ORead a k => (note_read reg a k).2
  | ORelease a => release_agent reg a
  | OClear => clear reg
  end.

(** A step: an operation that is not a read, or half of a read. Reads are numbered. *)
Inductive Step :=
| SOp (op : Op)
| SLook (r : nat) (agent key : str)
| SNote (r : nat).

(** The registry and the reads under way, each with its agent, its key and the foreign
    write it found. *)
Record State := mkState { reg : Registry; reads : gmap nat (str * str * option WriteRecord) }.
Definition init : State := mkState empty ∅.

(** The second half of a read: nothing to do if no other agent wrote the path last. *)
Definition finish_read (reg : Registry) (rd : str * str * option WriteRecord) : option FileStaleEvent * Registry :=
  match rd.2 with
  | None => (None, reg)
  | Some write => note_seen reg rd.1.1 rd.1.2 write
  end.
Definition step (st : State) (x : Step) : State :=
  match x with
  | SOp op => mkState (apply (reg st) op) (reads st)
  | SLook r a k => mkState (reg st) (<[r := (a, k, foreign_write (reg st) a k)]> (reads st))
  | SNote r =>
      match reads st !! r with
      | Some rd => mkState (finish_read (reg st) rd).2 (delete r (reads st))
      | None => st
      end
  end.
Definition run (st : State) (xs : list Step) : State := foldl step st xs.

Definition granted (r : ClaimResult) : bool := match r with Conflict _ _ => false | _ => true end.

(** [x] may end a claim of [agent]. *)
Definition ends_claims (agent : str) (x : Step) : Prop :=
  match x with SOp (ORelease a) => a = agent | SOp OClear => True | _ => False end.

Lemma claims_record_write reg k a l : claims (record_write reg k a l) = claims reg.
Proof. done. Qed.

Lemma claim_owns reg a l k :
  granted (try_claim reg a l k).1 = true →
  ∃ c, claims (try_claim reg a l k).2 !! k = Some c ∧ owner_id c = a.
Proof.
  unfold try_claim. destruct (claims reg !! k) as [c|] eqn:E.
  - case_bool_decide as Hc; simpl; [|done]. intros _. by exists c.
  - simpl. intros _. exists (mkClaim a l). by rewrite lookup_insert_eq.
Qed.

Lemma note_seen_claims reg a k w : claims (note_seen reg a k w).2 = claims reg.
Proof. unfold note_seen. by case_bool_decide. Qed.
Lemma finish_read_claims reg rd : claims (finish_read reg rd).2 = claims reg.
Proof. unfold finish_read. destruct (rd.2) as [w|]; [apply note_seen_claims|done]. Qed.
(** A claim survives every step that does not end claims of its owner. *)
Lemma apply_keeps reg op k c :
  claims reg !! k = Some c → ¬ ends_claims (owner_id c) (SOp op) → claims (apply reg op) !! k = Some c.
Proof.
  intros Hc Hop. destruct op as [a l k'|a k'|a|]; simpl in *.
  - unfold try_claim. destruct (claims reg !! k') as [c'|] eqn:E; [by case_bool_decide|].
    simpl. rewrite lookup_insert_ne; [done|]. intros ->. congruence.
  - unfold note_read, note_seen. destruct (foreign_write reg a k'); [by case_bool_decide|done].
  - apply map_lookup_filter_Some. split; [done|]. simpl. intros Ho. by apply Hop.
  - by destruct (Hop I).
Qed.
Lemma step_keeps st x k c :
  claims (reg st) !! k = Some c → ¬ ends_claims (owner_id c) x → claims (reg (step st x)) !! k = Some c.
Proof.
  intros Hc Hx. destruct x as [op|r a k'|r]; [by apply apply_keeps|done|]. simpl.
  destruct (reads st !! r) as [rd|]; simpl; by rewrite ?finish_read_claims.
Qed.
Lemma run_keeps st xs k c :
  claims (reg st) !! k = Some c → Forall (λ x, ¬ ends_claims (owner_id c) x) xs →
  claims (reg (run st xs)) !! k = Some c.
Proof.
  revert st. induction xs as [|x xs IH]; intros st Hc H; [done|].
  apply Forall_cons in H as [H1 H2]. simpl. apply IH; [|done]. by apply step_keeps.
Qed.

(** A claim is exclusive: from any registry, once an agent's claim of a path is
    granted, and whatever any agents do short of releasing that agent or clearing
    the registry, the path is granted to it again and refused to every other agent,
    with the owner named. *)
Theorem claim_exclusive st a l k xs b lb :
  granted (try_claim (reg st) a l k).1 = true →
  Forall (λ x, ¬ ends_claims a x) xs →
  let reg' := reg (run (step st (SOp (OClaim a l k))) xs) in
  (b = a → (try_claim reg' b lb k).1 = Held)
  ∧ (b ≠ a → ∃ label, (try_claim reg' b lb k).1 = Conflict a label
       ∧ claims (try_claim reg' b lb k).2 = claims reg').
Proof.
  intros Hg Hxs. destruct (claim_owns _ _ _ _ Hg) as (c & Hc & <-). cbv zeta.
  pose proof (run_keeps (step st (SOp (OClaim (owner_id c) l k))) xs _ _ Hc Hxs) as Hk.
  unfold try_claim. rewrite Hk. split.
  - intros ->. by rewrite bool_decide_eq_true_2.
  - intros Hb. rewrite bool_decide_eq_false_2 by congruence. by exists (owner_label c).
Qed.

(** ** What the registry promises

    Who holds a path, and for each path written who wrote it last and who has seen
    that write. No generations: a read is stale when another agent wrote last and
    the reader has not seen it. *)

Record Spec := mkSpec { holder : gmap str str; written : gmap str (str * gset str) }.
Definition spec_init : Spec := mkSpec ∅ ∅.

(** What an operation lets its caller see: the owner a claim conflicts with, the
    writer a read is stale against. *)
Inductive Obs :=
| SawClaim (conflict : option str)
| SawRead (writer : option str)
| SawNothing.

Definition spec_apply (s : Spec) (op : Op) : Obs * Spec :=
  match op with
  | OClaim a _ k =>
      match holder s !! k with
      | Some o => if o == a then (SawClaim None, mkSpec (holder s) (<[k := (a, {[a]})]> (written s)))
                  else (SawClaim (Some o), s)
      | None => (SawClaim None, mkSpec (<[k := a]> (holder s)) (<[k := (a, {[a]})]> (written s)))
      end
  | ORead a k =>
      match written s !! k with
      | Some (w, seen) =>
          if w == a then (SawRead None, s)
          else (SawRead (if bool_decide (a ∈ seen) then None else Some w),
                mkSpec (holder s) (<[k := (w, {[a]} ∪ seen)]> (written s)))
      | None => (SawRead None, s)
      end
  | ORelease a => (SawNothing, mkSpec (filter (λ e, e.2 ≠ a) (holder s)) (written s))
  | OClear => (SawNothing, mkSpec ∅ (written s))
  end.
(** A read takes effect in the specification at once, when it looks; what it will
    return is due when it ends. *)
Record SpecState := mkSpecState { spec : Spec; due : gmap nat Obs }.
Definition spec_step (s : SpecState) (x : Step) : Obs * SpecState :=
  match x with
  | SOp op => ((spec_apply (spec s) op).1, mkSpecState (spec_apply (spec s) op).2 (due s))
  | SLook r a k =>
      let '(o, s') := spec_apply (spec s) (ORead a k) in (SawNothing, mkSpecState s' (<[r := o]> (due s)))
  | SNote r => (default SawNothing (due s !! r), mkSpecState (spec s) (delete r (due s)))
  end.
Fixpoint spec_observe (s : SpecState) (xs : list Step) : list Obs :=
  match xs with
  | [] => []
  | x :: xs => (spec_step s x).1 :: spec_observe (spec_step s x).2 xs
  end.

Definition obs (reg : Registry) (op : Op) : Obs :=
  match op with
  | OClaim a l k =>
      SawClaim (match (try_claim reg a l k).1 with Conflict o _ => Some o | _ => None end)
  | ORead a k => SawRead (writer_id <$> (note_read reg a k).1)
  | _ => SawNothing
  end.
Definition step_obs (st : State) (x : Step) : Obs :=
  match x with
  | SOp op => obs (reg st) op
  | SLook _ _ _ => SawNothing
  | SNote r =>
      match reads st !! r with
      | Some rd => SawRead (writer_id <$> (finish_read (reg st) rd).1)
      | None => SawNothing
      end
  end.
Fixpoint observe (st : State) (xs : list Step) : list Obs :=
  match xs with
  | [] => []
  | x :: xs => step_obs st x :: observe (step st x) xs
  end.

(** No agent reads a path that a read of its own has under way, or writes it. *)
Definition apart_step (busy : gmap nat (str * str)) (x : Step) : Prop :=
  match x with
  | SOp (OClaim a _ k) | SOp (ORead a k) => map_Forall (λ _ y, y ≠ (a, k)) busy
  | SLook r a k => busy !! r = None ∧ map_Forall (λ _ y, y ≠ (a, k)) busy
  | _ => True
  end.
Fixpoint apart (busy : gmap nat (str * str)) (xs : list Step) : Prop :=
  match xs with
  | [] => True
  | x :: xs => apart_step busy x ∧
      apart (match x with SLook r a k => <[r := (a, k)]> busy | SNote r => delete r busy | _ => busy end) xs
  end.

(** The generations of a path against the agents that have seen its last write,
    after at most [n] writes. *)
Definition path_sim (n : N) (write : option WriteRecord) (seen : str → option N)
    (spec : option (str * gset str)) : Prop :=
  match write with
  | None => spec = None ∧ ∀ a, seen a = None
  | Some w => ∃ S, spec = Some (w_owner_id w, S) ∧ (generation w ≤ n)%N
      ∧ (∀ a, a ∈ S ↔ seen a = Some (generation w))
      ∧ ∀ a g, seen a = Some g → (g ≤ generation w)%N
  end.
Definition sim (n : N) (reg : Registry) (s : Spec) : Prop :=
  (∀ k, owner_id <$> claims reg !! k = holder s !! k)
  ∧ ∀ k, path_sim n (last_write reg !! k) (λ a, last_seen reg !! (a, k)) (written s !! k).

Lemma path_sim_mono n n' write seen spec :
  (n ≤ n')%N → path_sim n write seen spec → path_sim n' write seen spec.
Proof.
  unfold path_sim. destruct write as [w|]; [|done]. intros Hn (S & H1 & H2 & H3 & H4).
  exists S. split_and!; try done. lia.
Qed.

(** A write, on its path and on the others. *)
Lemma record_write_sim n reg s k a l :
  (n < u64_max)%N →
  (∀ k, path_sim n (last_write reg !! k) (λ b, last_seen reg !! (b, k)) (written s !! k)) →
  ∀ k', path_sim (n + 1) (last_write (record_write reg k a l) !! k')
    (λ b, last_seen (record_write reg k a l) !! (b, k')) (<[k := (a, {[a]})]> (written s) !! k').
Proof.
  intros Hn Hs k'. simpl. destruct (decide (k = k')) as [<-|Hk].
  - rewrite !lookup_insert_eq. simpl. set (g := saturating_succ _).
    assert ((g ≤ n + 1)%N ∧ ∀ b g', last_seen reg !! (b, k) = Some g' → (g' < g)%N) as [Hg Hlt].
    { specialize (Hs k). unfold path_sim in Hs. subst g. destruct (last_write reg !! k) as [w|]; simpl.
      - destruct Hs as (S & _ & Hw & _ & Hb). unfold saturating_succ.
        rewrite (proj2 (N.ltb_lt _ _)) by lia. split; [lia|]. intros b g' Hb'%Hb. lia.
      - split; [unfold saturating_succ; simpl; lia|]. intros b g' Hb. destruct Hs as [_ Hs].
        by rewrite Hs in Hb. }
    exists {[a]}. split_and!; [done|done| |].
    + intros b. rewrite elem_of_singleton. destruct (decide (b = a)) as [->|Hb].
      * by rewrite lookup_insert_eq.
      * rewrite lookup_insert_ne by congruence. split; [done|]. intros H%Hlt. lia.
    + intros b g'. destruct (decide (b = a)) as [->|Hb].
      * rewrite lookup_insert_eq. intros [= <-]. lia.
      * rewrite lookup_insert_ne by congruence. intros H%Hlt. lia.
  - rewrite !lookup_insert_ne by done. apply (path_sim_mono n); [lia|].
    specialize (Hs k'). unfold path_sim in *. destruct (last_write reg !! k') as [w|].
    + destruct Hs as (S & H1 & H2 & H3 & H4). exists S.
      setoid_rewrite lookup_insert_ne; [|congruence..]. done.
    + setoid_rewrite lookup_insert_ne; [done|congruence].
Qed.

Lemma claim_sim n reg s a l k :
  (n < u64_max)%N → sim n reg s →
  let op := OClaim a l k in
  obs reg op = (spec_apply s op).1 ∧ sim (n + 1) (apply reg op) (spec_apply s op).2.
Proof.
  intros Hn [Hh Hw]. cbv zeta. pose proof (Hh k) as Hk.
  simpl. unfold try_claim. destruct (claims reg !! k) as [c|] eqn:Ec; simpl in Hk; rewrite <- Hk.
  - case_bool_decide as Ho; simpl; (split; [done|]).
    + split; [exact Hh|]. by apply record_write_sim.
    + split; [exact Hh|]. intros k'. eapply path_sim_mono; [|apply Hw]. lia.
  - simpl. split; [done|]. split.
    + intros k'. simpl. destruct (decide (k = k')) as [<-|Hne].
      * by rewrite !lookup_insert_eq.
      * rewrite !lookup_insert_ne by done. apply Hh.
    + by apply (record_write_sim n (mkRegistry (<[k:=mkClaim a l]> (claims reg)) (last_write reg)
        (last_seen reg) (conflicts reg) (stales reg)) s k a l).
Qed.

(** Noting a reader, on its path and on the others. *)
Lemma note_seen_sim n reg s a k w S :
  sim n reg s → last_write reg !! k = Some w → written s !! k = Some (w_owner_id w, S) →
  sim n (note_seen reg a k w).2 (mkSpec (holder s) (<[k := (w_owner_id w, {[a]} ∪ S)]> (written s)))
  ∧ writer_id <$> (note_seen reg a k w).1 = if bool_decide (a ∈ S) then None else Some (w_owner_id w).
Proof.
  intros [Hh Hw] El Es. pose proof (Hw k) as Hk. rewrite El, Es in Hk. simpl in Hk.
  destruct Hk as (S' & [= <-] & Hg & Hin & Hb).
  assert ((note_seen reg a k w).2 = mkRegistry (claims reg) (last_write reg)
    (<[(a, k) := generation w]> (last_seen reg)) (conflicts reg) (stales (note_seen reg a k w).2)) as ->
    by (unfold note_seen; by case_bool_decide).
  split.
  - split; [exact Hh|]. intros k'. simpl. destruct (decide (k = k')) as [<-|Hne].
    + rewrite El, lookup_insert_eq. exists ({[a]} ∪ S). split_and!; [done|done| |].
      * intros b. rewrite elem_of_union, elem_of_singleton, Hin.
        destruct (decide (b = a)) as [->|Hb']; [rewrite lookup_insert_eq; naive_solver|].
        rewrite lookup_insert_ne by congruence. naive_solver.
      * intros b g. destruct (decide (b = a)) as [->|Hb'].
        -- rewrite lookup_insert_eq. intros [= <-]. lia.
        -- rewrite lookup_insert_ne by congruence. apply Hb.
    + rewrite lookup_insert_ne by done. specialize (Hw k'). unfold path_sim in *.
      destruct (last_write reg !! k') as [w'|].
      * destruct Hw as (S' & H1 & H2 & H3 & H4). exists S'.
        setoid_rewrite lookup_insert_ne; [|congruence..]. done.
      * setoid_rewrite lookup_insert_ne; [done|congruence].
  - unfold note_seen. rewrite (bool_decide_ext _ _ (iff_sym (Hin a))) . by case_bool_decide.
Qed.

Lemma read_sim n reg s a k :
  sim n reg s →
  let op := ORead a k in
  obs reg op = (spec_apply s op).1 ∧ sim n (apply reg op) (spec_apply s op).2.
Proof.
  intros Hsim. cbv zeta. pose proof (proj2 Hsim k) as Hk. simpl. unfold note_read, foreign_write.
  unfold path_sim in Hk. destruct (last_write reg !! k) as [w|] eqn:El; simpl.
  - destruct Hk as (S & Es & _). rewrite Es. case_bool_decide as Ho; simpl; [done|].
    destruct (note_seen_sim n reg s a k w S Hsim El Es) as [H1 H2]. split; [by rewrite H2|exact H1].
  - destruct Hk as [-> _]. done.
Qed.

Lemma release_sim n reg s a : sim n reg s → sim n (release_agent reg a) (spec_apply s (ORelease a)).2.
Proof.
  intros [Hh Hw]. split; [|exact Hw]. intros k. simpl. specialize (Hh k).
  destruct (claims reg !! k) as [c|] eqn:Ec; simpl in Hh; symmetry in Hh.
  - destruct (decide (owner_id c = a)) as [Ho|Ho].
    + rewrite (map_lookup_filter_None_2 _ (claims reg)), (map_lookup_filter_None_2 _ (holder s));
        [done| |]; right; intros x Hx; simplify_eq; by intros [].
    + rewrite (map_lookup_filter_Some_2 _ (claims reg) k c), (map_lookup_filter_Some_2 _ (holder s) k (owner_id c));
        done.
  - rewrite (map_lookup_filter_None_2 _ (claims reg)), (map_lookup_filter_None_2 _ (holder s));
      [done| |]; by left.
Qed.

Lemma sim_step n reg s op :
  (n < u64_max)%N → sim n reg s →
  obs reg op = (spec_apply s op).1 ∧ sim (n + 1) (apply reg op) (spec_apply s op).2.
Proof.
  intros Hn Hsim.
  assert (∀ reg' s', sim n reg' s' → sim (n + 1) reg' s') as Hm.
  { intros reg' s' [H1 H2]. split; [done|]. intros k. eapply path_sim_mono; [|apply H2]. lia. }
  destruct op as [a l k|a k|a|].
  - by apply claim_sim.
  - destruct (read_sim n reg s a k Hsim) as [H1 H2]. auto.
  - split; [done|]. apply Hm. by apply release_sim.
  - split; [done|]. apply Hm. split; [|apply Hsim]. intros k. simpl. by rewrite !lookup_empty.
Qed.

(** *** Reads under way

    [settled reg noted] is the registry as it will be once the reads under way noted
    what they saw. *)
Definition settled (reg : Registry) (noted : gmap (str * str) N) : Registry :=
  mkRegistry (claims reg) (last_write reg) noted (conflicts reg) (stales reg).

(** A read under way: what it will note is settled already, and what it will report is
    due. *)
Definition read_due (st : State) (noted : gmap (str * str) N) (rd : str * str * option WriteRecord) (o : Obs) : Prop :=
  o = SawRead (writer_id <$> (finish_read (reg st) rd).1) ∧
  ∀ w, rd.2 = Some w → noted !! rd.1 = Some (generation w).
Record state_sim (n : N) (st : State) (s : SpecState) (busy : gmap nat (str * str)) (noted : gmap (str * str) N) : Prop := {
  sim_settled : sim n (settled (reg st) noted) (spec s);
  sim_busy : busy = fst <$> reads st;
  sim_apart : ∀ r r' x, busy !! r = Some x → busy !! r' = Some x → r' = r;
  sim_noted : ∀ x, (∀ r w, reads st !! r ≠ Some (x, Some w)) → noted !! x = last_seen (reg st) !! x;
  sim_due : ∀ r, match reads st !! r with
                 | Some rd => ∃ o, due s !! r = Some o ∧ read_due st noted rd o
                 | None => due s !! r = None
                 end }.
Arguments sim_settled {_ _ _ _ _} _.
Arguments sim_busy {_ _ _ _ _} _.
Arguments sim_apart {_ _ _ _ _} _.
Arguments sim_noted {_ _ _ _ _} _.
Arguments sim_due {_ _ _ _ _} _.

Lemma sim_ext n reg reg' s :
  claims reg' = claims reg → last_write reg' = last_write reg → last_seen reg' = last_seen reg → sim n reg s → sim n reg' s.
Proof. unfold sim. by intros -> -> ->. Qed.
Lemma sim_mono n reg s : sim n reg s → sim (n + 1) reg s.
Proof. intros [H1 H2]. split; [done|]. intros k. eapply path_sim_mono; [|apply H2]. lia. Qed.

(** What an operation does to the notes of the readers, whatever they are. *)
Definition touch (u : option (str * str * N)) (seen : gmap (str * str) N) : gmap (str * str) N :=
  match u with Some (x, g) => <[x := g]> seen | None => seen end.
Lemma note_seen_touch reg a k w : last_seen (note_seen reg a k w).2 = touch (Some (a, k, generation w)) (last_seen reg).
Proof. unfold note_seen. by case_bool_decide. Qed.
Lemma apply_touch reg op : ∃ u, (∀ seen, last_seen (apply (settled reg seen) op) = touch u seen) ∧
  ∀ y g busy, u = Some (y, g) → apart_step busy (SOp op) → map_Forall (λ _ x, x ≠ y) busy.
Proof.
  destruct op as [a l k|a k|a|].
  - simpl. unfold try_claim. simpl. set (g := saturating_succ (default 0%N (generation <$> last_write reg !! k))).
    destruct (claims reg !! k) as [c|]; [case_bool_decide|].
    + exists (Some (a, k, g)). split; [done|]. by intros ? ? ? [= <- <-].
    + exists None. done.
    + exists (Some (a, k, g)). split; [done|]. by intros ? ? ? [= <- <-].
  - simpl. unfold note_read.
    destruct (foreign_write reg a k) as [w|] eqn:Ew.
    + exists (Some (a, k, generation w)). split; [|by intros ? ? ? [= <- <-]]. intros seen.
      change (foreign_write (settled reg seen) a k) with (foreign_write reg a k). rewrite Ew. apply note_seen_touch.
    + exists None. split; [|done]. intros seen.
      change (foreign_write (settled reg seen) a k) with (foreign_write reg a k). by rewrite Ew.
  - by exists None.
  - by exists None.
Qed.
Lemma touch_other u seen x : (∀ y g, u = Some (y, g) → x ≠ y) → touch u seen !! x = seen !! x.
Proof. intros Hu. destruct u as [[y g]|]; [|done]. simpl. rewrite lookup_insert_ne; [done|]. intros ->. by apply (Hu x g). Qed.
Lemma touch_same u seen seen' x : seen !! x = seen' !! x → touch u seen !! x = touch u seen' !! x.
Proof.
  intros H. destruct u as [[y g]|]; [|done]. simpl.
  destruct (decide (y = x)) as [->|Hne]; [by rewrite !lookup_insert_eq|by rewrite !lookup_insert_ne].
Qed.
Lemma settled_id reg : settled reg (last_seen reg) = reg.
Proof. by destruct reg. Qed.

(** What a read reports is decided by its agent's note of the path. *)
Lemma finish_read_result reg reg' rd : (rd.2 ≠ None → last_seen reg' !! rd.1 = last_seen reg !! rd.1) →
  (finish_read reg' rd).1 = (finish_read reg rd).1.
Proof.
  destruct rd as [[a k] [w|]]; [|done]. unfold finish_read, note_seen. cbn. intros H. rewrite H by done. by case_bool_decide.
Qed.
Lemma read_due_ext st st' noted noted' rd o :
  (rd.2 ≠ None → last_seen (reg st') !! rd.1 = last_seen (reg st) !! rd.1 ∧ noted' !! rd.1 = noted !! rd.1) →
  read_due st noted rd o → read_due st' noted' rd o.
Proof.
  intros H [-> Hw]. split.
  - by rewrite (finish_read_result (reg st) (reg st')) by (intros ?; by apply H).
  - intros w Ew. destruct H as [_ ->]; [by rewrite Ew|]. by apply Hw.
Qed.
Lemma obs_ext reg reg' op : claims reg' = claims reg → last_write reg' = last_write reg →
  (∀ a k, op = ORead a k → last_seen reg' !! (a, k) = last_seen reg !! (a, k)) → obs reg' op = obs reg op.
Proof.
  intros Hc Hl Hs. destruct op as [a l k|a k|a|]; [| |done..]; simpl.
  - unfold try_claim. rewrite Hc. destruct (claims reg !! k); [by case_bool_decide|done].
  - unfold note_read, foreign_write. rewrite Hl. destruct (last_write reg !! k) as [w|]; [|done]. simpl.
    case_bool_decide; [done|]. unfold note_seen. rewrite (Hs a k eq_refl). by case_bool_decide.
Qed.
Lemma apply_settled reg noted op :
  claims (apply reg op) = claims (apply (settled reg noted) op) ∧ last_write (apply reg op) = last_write (apply (settled reg noted) op).
Proof.
  destruct op as [a l k|a k|a|]; [| |done..]; simpl.
  - unfold try_claim. simpl. destruct (claims reg !! k); [by case_bool_decide|done].
  - unfold note_read. change (foreign_write (settled reg noted) a k) with (foreign_write reg a k).
    destruct (foreign_write reg a k); [|done]. unfold note_seen. simpl. by repeat case_bool_decide.
Qed.

(** The path of a read under way is not the one an operation kept apart from it touches. *)
Lemma busy_reading n st s busy noted r rd : state_sim n st s busy noted → reads st !! r = Some rd → busy !! r = Some rd.1.
Proof. intros H Hr. rewrite (sim_busy H), lookup_fmap, Hr. done. Qed.
Lemma not_busy n st s busy noted x : state_sim n st s busy noted → map_Forall (λ _ y, y ≠ x) busy → noted !! x = last_seen (reg st) !! x.
Proof.
  intros H Hx. apply (sim_noted H). intros r w Hr. apply (busy_reading _ _ _ _ _ _ _ H) in Hr. by apply (Hx r x).
Qed.

Lemma op_sim n st s busy noted op :
  (n < u64_max)%N → state_sim n st s busy noted → apart_step busy (SOp op) →
  step_obs st (SOp op) = (spec_step s (SOp op)).1 ∧ ∃ noted', state_sim (n + 1) (step st (SOp op)) (spec_step s (SOp op)).2 busy noted'.
Proof.
  intros Hn H Ha. destruct (apply_touch (reg st) op) as (u & Hu & Hbusy).
  destruct (sim_step n (settled (reg st) noted) (spec s) op Hn (sim_settled H)) as [Ho Hs]. simpl. split.
  - rewrite <- Ho. apply obs_ext; [done..|]. intros a k ->. symmetry. simpl. by eapply not_busy.
  - assert (Hl : last_seen (apply (reg st) op) = touch u (last_seen (reg st))) by (rewrite <- Hu; by rewrite settled_id).
    destruct (apply_settled (reg st) noted op) as [E1 E2]. exists (touch u noted). split; simpl.
    + eapply sim_ext; [..|exact Hs]; [exact E1|exact E2|by rewrite Hu].
    + apply (sim_busy H).
    + apply (sim_apart H).
    + intros x Hx. rewrite Hl. apply touch_same. by apply (sim_noted H).
    + intros r. pose proof (sim_due H r) as Hr. destruct (reads st !! r) as [rd|] eqn:Er; [|done].
      destruct Hr as (o & Hd & Hr). exists o. split; [done|]. eapply read_due_ext; [|exact Hr]. intros _. simpl. rewrite Hl.
      assert (Hx : ∀ y g, u = Some (y, g) → rd.1 ≠ y).
      { intros y g E. by apply (Hbusy y g busy E Ha r), (busy_reading _ _ _ _ _ _ _ H). }
      split; by apply touch_other.
Qed.

Lemma look_sim n st s busy noted r a k :
  state_sim n st s busy noted → apart_step busy (SLook r a k) →
  ∃ noted', state_sim n (step st (SLook r a k)) (spec_step s (SLook r a k)).2 (<[r := (a, k)]> busy) noted'.
Proof.
  intros H [Hr Ha]. pose proof (not_busy _ _ _ _ _ _ H Ha) as Hx.
  destruct (read_sim n (settled (reg st) noted) (spec s) a k (sim_settled H)) as [Ho Hs].
  pose proof (apply_settled (reg st) noted (ORead a k)) as [E1 E2].
  set (w := foreign_write (reg st) a k). set (u := (λ w, (a, k, generation w)) <$> w).
  assert (Eseen : last_seen (apply (settled (reg st) noted) (ORead a k)) = touch u noted).
  { simpl. unfold note_read. change (foreign_write _ a k) with w. destruct w; [apply note_seen_touch|done]. }
  assert (Hu : ∀ y g, u = Some (y, g) → y = (a, k)) by (unfold u; destruct w; simpl; congruence).
  unfold spec_step. destruct (spec_apply (spec s) (ORead a k)) as [o s'] eqn:Es. cbn [fst snd] in *. exists (touch u noted).
  unfold step. split; cbn [reg reads spec due].
  - eapply sim_ext; [..|exact Hs]; [..|by rewrite <- Eseen]; simpl; unfold note_read; change (foreign_write _ a k) with w;
      (destruct w; [|done]); unfold note_seen; by case_bool_decide.
  - by rewrite (sim_busy H), fmap_insert.
  - assert (Hne : ∀ r', busy !! r' ≠ Some (a, k)) by (intros r' Hr'; by apply (Ha r' (a, k))).
    intros r1 r2 x [[<- <-]|[_ H1]]%lookup_insert_Some [[<- Hx2]|[_ H2]]%lookup_insert_Some; [done| | |by apply (sim_apart H r1 r2 x)].
    + by destruct (Hne r2).
    + subst x. by destruct (Hne r1).
  - intros x Hno. rewrite touch_other.
    + apply (sim_noted H). intros r' w' Hr'. apply (Hno r' w'). rewrite lookup_insert_ne; [done|]. intros <-.
      apply (busy_reading _ _ _ _ _ _ _ H) in Hr'. congruence.
    + intros y g Eu ->. pose proof (Hu y g Eu) as ->. unfold u in Eu. destruct w as [w0|] eqn:Ew; [|done].
      apply (Hno r w0). rewrite lookup_insert_eq. unfold w in Ew. by rewrite Ew.
  - intros r'. destruct (decide (r' = r)) as [->|Hne].
    + rewrite !lookup_insert_eq. exists o. split; [done|]. split.
      * rewrite <- Ho. simpl. unfold note_read. change (foreign_write (settled (reg st) noted) a k) with w. fold w.
        destruct w as [w0|]; [|done]. unfold finish_read, note_seen. cbn. rewrite Hx. by case_bool_decide.
      * simpl. unfold u. fold w. intros w0 ->. simpl. by rewrite lookup_insert_eq.
    + rewrite !lookup_insert_ne by done. pose proof (sim_due H r') as Hr'. destruct (reads st !! r') as [rd|] eqn:Er; [|done].
      destruct Hr' as (o' & Hd & Hr'). exists o'. split; [done|]. eapply read_due_ext; [|exact Hr']. intros _. split; [done|].
      apply touch_other. intros y g ->%Hu. by apply (Ha r'), (busy_reading _ _ _ _ _ _ _ H).
Qed.

Lemma note_sim n st s busy noted r :
  state_sim n st s busy noted →
  step_obs st (SNote r) = (spec_step s (SNote r)).1 ∧
  state_sim n (step st (SNote r)) (spec_step s (SNote r)).2 (delete r busy) noted.
Proof.
  intros H. pose proof (sim_due H r) as Hr. simpl. destruct (reads st !! r) as [rd|] eqn:Er.
  - destruct Hr as (o & -> & Ho & Hw). split; [done|].
    assert (E : claims (finish_read (reg st) rd).2 = claims (reg st) ∧ last_write (finish_read (reg st) rd).2 = last_write (reg st)).
    { unfold finish_read. destruct (rd.2); [|done]. unfold note_seen. by case_bool_decide. }
    assert (Hseen : last_seen (finish_read (reg st) rd).2 = touch ((λ w, (rd.1, generation w)) <$> rd.2) (last_seen (reg st))).
    { destruct rd as [[a k] [w|]]; [|done]. apply note_seen_touch. }
    destruct E as [E1 E2]. split; simpl.
    + eapply sim_ext; [..|apply (sim_settled H)]; done.
    + by rewrite (sim_busy H), fmap_delete.
    + intros r1 r2 x [_ H1]%lookup_delete_Some [_ H2]%lookup_delete_Some. by apply (sim_apart H r1 r2 x).
    + intros x Hno. rewrite Hseen. 
      assert (Hd : (∃ w, rd = (x, Some w)) ∨ ¬ ∃ w, rd = (x, Some w)).
      { destruct rd as [y [w|]]; [destruct (decide (y = x)) as [->|]|]; [left; by exists w|right; naive_solver..]. }
      destruct Hd as [[w ->]|Hne].
      * simpl. rewrite lookup_insert_eq. by apply (Hw w).
      * rewrite touch_other.
        -- apply (sim_noted H). intros r' w Hr'. destruct (decide (r' = r)) as [->|Hd]; [apply Hne; exists w; congruence|].
           apply (Hno r' w). by rewrite lookup_delete_ne.
        -- intros y g Hy ->. destruct rd as [x [w|]]; [|done]. simpl in Hy. injection Hy as <- <-. apply Hne. by exists w.
    + intros r'. destruct (decide (r' = r)) as [->|Hne]; [by rewrite !lookup_delete_eq|]. rewrite !lookup_delete_ne by done.
      pose proof (sim_due H r') as Hr'. destruct (reads st !! r') as [rd'|] eqn:Er'; [|done].
      destruct Hr' as (o' & Hd & Hr'). exists o'. split; [done|]. eapply read_due_ext; [|exact Hr']. intros _. split; [|done]. simpl.
      rewrite Hseen. apply touch_other. intros y g Hy E. apply Hne.
      apply (sim_apart H r r' rd.1); [by eapply busy_reading|]. rewrite (busy_reading _ _ _ _ _ _ _ H Er'). f_equal.
      destruct (rd.2); [|done]. simpl in Hy. injection Hy as <- _. done.
  - rewrite Hr. split; [done|]. assert (Hb : busy !! r = None) by (rewrite (sim_busy H), lookup_fmap, Er; done).
    rewrite (delete_id (due s)) by exact Hr. rewrite (delete_id busy) by exact Hb. by destruct s.
Qed.

Lemma sim_observe xs n st s busy noted :
  (n + N.of_nat (length xs) ≤ u64_max)%N → state_sim n st s busy noted → apart busy xs → observe st xs = spec_observe s xs.
Proof.
  revert n st s busy noted. induction xs as [|x xs IH]; intros n st s busy noted Hn Hs Ha; [done|].
  simpl in Hn, Ha. destruct Ha as [Hx Ha]. cbn [observe spec_observe].
  assert (Hm : ∀ st s busy noted, state_sim n st s busy noted → state_sim (n + 1) st s busy noted).
  { intros ? ? ? ? [H1 H2 H3 H4 H5]. split; [by apply sim_mono|done..]. }
  destruct x as [op|r a k|r].
  - destruct (op_sim n st s busy noted op) as [-> [noted' H]]; [lia|done..|]. f_equal. apply (IH (n + 1)%N _ _ busy noted'); [lia|done..].
  - destruct (look_sim n st s busy noted r a k Hs Hx) as [noted' H]. f_equal.
    + unfold spec_step. by destruct (spec_apply (spec s) (ORead a k)).
    + apply (IH (n + 1)%N _ _ (<[r := (a, k)]> busy) noted'); [lia|by apply Hm|done].
  - destruct (note_sim n st s busy noted r Hs) as [-> H]. f_equal. apply (IH (n + 1)%N _ _ (delete r busy) noted); [lia|by apply Hm|done].
Qed.

(** C17: the registry keeps its promise on every interleaving of agents, reads being two
    steps: claims are granted and refused, and reads reported stale, exactly as in the
    specification without generations - a path has one holder, and a read is reported
    stale when and only when, as it looked, another agent had written the path last and
    the reader had not seen that write, hence once per write - as long as no agent reads
    a path while a read of its own of that path is under way, or writes it then, and
    fewer than 2^64 steps ran, where the generation counter would saturate. *)
Theorem registry_refines xs :
  (N.of_nat (length xs) ≤ u64_max)%N → apart ∅ xs → observe init xs = spec_observe (mkSpecState spec_init ∅) xs.
Proof.
  intros Hn Ha. apply (sim_observe xs 0%N _ _ ∅ ∅); [lia| |done]. split; simpl.
  - split; intros k; simpl; [by rewrite !lookup_empty|]. rewrite !lookup_empty. split; [done|]. intros a. by rewrite lookup_empty.
  - by rewrite fmap_empty.
  - intros r r' x. by rewrite lookup_empty.
  - done.
  - intros r. by rewrite !lookup_empty.
Qed.

(** ** The crate's own unit test, evaluated on the model, and reads that overlap *)

Definition w0 : str := lit "w0".
Definition w1 : str := lit "w1".
Definition a_rs : str := lit "/work/src/a.rs".

Example claim_tests :
  observe init (SOp <$>
    [OClaim w0 (lit "worker-0") a_rs; OClaim w0 (lit "worker-0") a_rs;
     OClaim w1 (lit "worker-1") a_rs; ORead w0 a_rs; ORead w1 a_rs; ORead w1 a_rs;
     ORelease w0; OClaim w1 (lit "worker-1") a_rs; ORead w0 a_rs])
  = [SawClaim None; SawClaim None; SawClaim (Some w0); SawRead None; SawRead (Some w0); SawRead None;
     SawNothing; SawClaim None; SawRead (Some w1)]
  ∧ claim_key (Some (lit "/work")) (λ _, None) (lit "src/../src/./a.rs") = a_rs.
Proof. split; vm_compute; reflexivity. Qed.

(** Two reads of one agent under way at once: the one that looked first may note the
    older write last, and the next read reports the newer write a second time. *)
Example overlapping_reads :
  observe init
    [SOp (OClaim w0 (lit "worker-0") a_rs); SLook 0 w1 a_rs; SOp (OClaim w0 (lit "worker-0") a_rs);
     SLook 1 w1 a_rs; SNote 1; SNote 0; SLook 2 w1 a_rs; SNote 2]
  = [SawClaim None; SawNothing; SawClaim None; SawNothing; SawRead (Some w0); SawRead (Some w0); SawNothing; SawRead (Some w0)].
Proof. vm_compute. reflexivity. Qed.

Lemma claim_exclusive_witness :
  ∃ label, (try_claim (reg (run (step init (SOp (OClaim w0 (lit "worker-0") a_rs))) [SLook 0 w1 a_rs; SOp (ORelease w1); SNote 0]))
              w1 (lit "worker-1") a_rs).1 = Conflict w0 label.
Proof.
  destruct (claim_exclusive init w0 (lit "worker-0") a_rs [SLook 0 w1 a_rs; SOp (ORelease w1); SNote 0] w1
    (lit "worker-1")) as [_ H].
  - reflexivity.
  - constructor; [intros []|constructor; [intros H; discriminate H|constructor; [intros []|constructor]]].
  - destruct H as (label & H & _); [intros H; discriminate H|]. by exists label.
Defined.

Definition sample_steps : list Step :=
  [SOp (OClaim w0 (lit "worker-0") a_rs); SLook 0 w1 a_rs; SOp (OClaim w0 (lit "worker-0") a_rs); SNote 0; SLook 1 w1 a_rs; SNote 1].
Lemma registry_refines_witness :
  observe init sample_steps = spec_observe (mkSpecState spec_init ∅) sample_steps.
Proof.
  apply registry_refines; [apply N.leb_le; vm_compute; reflexivity|].
  cbn [sample_steps apart apart_step]. split_and!; try exact I; try reflexivity; apply (bool_decide_unpack _); vm_compute; exact I.
Defined.
