(* ===== verification/ConfigTypes.v ===== *)
(** The configuration tree ([config/src/types.rs], with the leaf types of
    [core/src/types.rs] and [core/src/sandbox.rs]): every section with its defaults,
    the seven built-in agents, and the questions the program asks of a section.

    Hash maps are [gmap]s (their order is not used here); [serde_json::Value] and
    [toml::Value] inside custom tools, providers and language servers are the types
    [J] and [T]. Sections are modules, so that fields keep their names. *)

From Stdlib Require Import SpecFloat.
From coqutil Require Import Datatypes.RecordSetters.
From S2P Require Import Prelude RustStr Bytes F32 Permission Network StreamRules Hooks.

Export TriangleBracketNotations.

(** ** [f64], as [F32] for binary64 *)

Definition f64 : Type := spec_float.
Definition f64_of_Z (n : Z) : f64 := binary_normalize 53 1024 n 0 false.
Definition f64_lit (n d : Z) : f64 := SFdiv 53 1024 (f64_of_Z n) (f64_of_Z d).
(** [(a - b).abs() > EPSILON]. *)
Definition far32 (a b : f32) : bool := SFltb (f32_lit 1 8388608) (SFabs (SFsub 24 128 a b)).
Definition far64 (a b : f64) : bool := SFltb (f64_lit 1 4503599627370496) (SFabs (SFsub 53 1024 a b)).

#[global] Instance spec_float_eq_dec : EqDecision spec_float.
Proof. solve_decision. Defined.

(** ** Models, providers, agents ([core/src/types.rs]) *)

Module Model.
Record ModelConfig := mk {
  model_id : str; provider_id : str; max_tokens : option N; context_window : option N;
  temperature : option f32; top_p : option f32;
  thinking : option bool; supports_tools : option bool; supports_images : option bool }.
(** [ModelConfig { model_id, provider_id, .. None }]. *)
Definition bare (model_id provider_id : str) : ModelConfig := mk model_id provider_id None None None None None None None.
End Model.
Notation ModelConfig := Model.ModelConfig.

Inductive ToolArgumentsFormat := JsonString | ArgsObject.
Module Credentials.
Record ProviderCredentials := mk { order : list str; reserve : f64; env : gmap str str }.
Definition new : ProviderCredentials := mk [] (f64_lit 1 10) ∅.
Definition is_empty (c : ProviderCredentials) : bool := (order c == []) && bool_decide (env c = ∅).
End Credentials.
Notation ProviderCredentials := Credentials.ProviderCredentials.

Module Provider.
Record ProviderConfig {J : Type} := mk {
  name : str; api_key : option str; api_base : option str; base_url : option str;
  headers : option (gmap str str); models : list str; tool_arguments : option ToolArgumentsFormat;
  extra : gmap str J; credentials : ProviderCredentials }.
Arguments ProviderConfig : clear implicits.
(** [ProviderConfig { name, api_key, .. }] with nothing else. *)
Definition keyed {J} (name : str) (api_key : option str) : ProviderConfig J := mk J name api_key None None None [] None ∅ Credentials.new.
End Provider.
Notation ProviderConfig := Provider.ProviderConfig.

Inductive AgentMode := Primary | Subagent | AnyAgent.
Module Agent.
Record AgentInfo := mk {
  name : str; description : str; mode : AgentMode; permission : PermissionSet; model : option ModelConfig;
  system_prompt : option str; temperature : option f32; top_p : option f32 }.
End Agent.
Notation AgentInfo := Agent.AgentInfo.

(** ** Sandbox policy ([core/src/sandbox.rs]) *)

Inductive SandboxMode := SandboxOff | SandboxWorkspace.
Inductive SandboxFallback := FallbackAllow | FallbackDeny.
Definition sandbox_mode_parse (s : str) : result SandboxMode :=
  let l := to_ascii_lowercase s in
  if is_one_of l ["off"; "none"; "false"; "0"]%string then Ok SandboxOff
  else if is_one_of l ["workspace"; "on"; "true"; "1"]%string then Ok SandboxWorkspace
  else Err (lit "unknown sandbox mode '" ++ l ++ lit "' (expected off or workspace)").
Definition sandbox_fallback_parse (s : str) : result SandboxFallback :=
  let l := to_ascii_lowercase s in
  if is_one_of l ["allow"; "warn"; "host"]%string then Ok FallbackAllow
  else if is_one_of l ["deny"; "error"; "strict"]%string then Ok FallbackDeny
  else Err (lit "unknown sandbox_fallback '" ++ l ++ lit "' (expected allow or deny)").
Record SandboxSettings := mkSandbox { sandbox_mode : SandboxMode; network : bool; fallback : SandboxFallback }.
(** A value that does not parse is a warning and the default. *)
Definition from_raw (mode : str) (network : bool) (fallback : str) : SandboxSettings :=
  mkSandbox (match sandbox_mode_parse mode with Ok m => m | Err _ => SandboxWorkspace end) network
    (match sandbox_fallback_parse fallback with Ok f => f | Err _ => FallbackAllow end).

(** ** Small sections *)

Module Command.
Record CommandConfig := mk { model : option ModelConfig; agent : option str; max_turns : option N }.
End Command.
Notation CommandConfig := Command.CommandConfig.

Module Slop.
Record SlopConfig := mk {
  verbosity : f64; erosion : f64; delta_loc : Z; block_verbosity : f64; block_erosion : f64;
  block_delta_loc : Z; hotspots : N }.
Definition new : SlopConfig := mk (f64_lit 25 100) (f64_lit 50 100) 800 (f64_lit 40 100) (f64_lit 75 100) 5000 8.
(** [#[derive(PartialEq)]]: floats by IEEE equality. *)
Definition eqb (a b : SlopConfig) : bool :=
  SFeqb (verbosity a) (verbosity b) && SFeqb (erosion a) (erosion b) && bool_decide (delta_loc a = delta_loc b)
  && SFeqb (block_verbosity a) (block_verbosity b) && SFeqb (block_erosion a) (block_erosion b)
  && bool_decide (block_delta_loc a = block_delta_loc b) && bool_decide (hotspots a = hotspots b).
End Slop.
Notation SlopConfig := Slop.SlopConfig.

Module Swarm.
Record SwarmConfig := mk { enabled : bool; max_agents : N; worktrees : bool; isolation : option str }.
Definition default_swarm_max_agents : N := 4.
Definition new : SwarmConfig := mk true default_swarm_max_agents true None.
Definition use_worktrees (s : SwarmConfig) : bool :=
  match isolation s with
  | Some i => if eq_ignore_ascii_case i (lit "checkout") then false
              else if eq_ignore_ascii_case i (lit "worktree") then true else worktrees s
  | None => worktrees s
  end.
End Swarm.
Notation SwarmConfig := Swarm.SwarmConfig.

Module Security.
Record SecurityConfig := mk {
  bash_risk_threshold : str; sandbox : str; sandbox_network : bool; sandbox_fallback : str;
  network_allowlist : list str; network_denylist : list str; redact_secrets : bool }.
Definition default_risk_threshold : str := lit "destructive".
Definition default_sandbox_mode : str := lit "workspace".
Definition default_sandbox_fallback : str := lit "allow".
Definition new : SecurityConfig := mk default_risk_threshold default_sandbox_mode true default_sandbox_fallback [] [] true.
Definition network_policy (s : SecurityConfig) : NetworkPolicy := Network.mkPolicy (network_allowlist s) (network_denylist s).
Definition sandbox_settings (s : SecurityConfig) : SandboxSettings := from_raw (sandbox s) (sandbox_network s) (sandbox_fallback s).
End Security.
Notation SecurityConfig := Security.SecurityConfig.

Module CustomCommand.
Record CustomCommandConfig := mk { template : str; description : option str; agent : option str; model : option str; subtask : option bool }.
End CustomCommand.
Notation CustomCommandConfig := CustomCommand.CustomCommandConfig.

Module Price.
Record PriceConfig := mk { input : f64; output : f64; cache_read : option f64; cache_write : option f64 }.
End Price.
Notation PriceConfig := Price.PriceConfig.

Module Lsp.
Record LspServerConfig {T : Type} := mkServer {
  command : option str; args : list str; file_types : list str; language_id : option str; root_markers : list str;
  init_options : option T; settings : option T; disabled : option bool; is_linter : option bool }.
Arguments LspServerConfig : clear implicits.
Record LspConfig {T : Type} := mk {
  idle_timeout_ms : option N; edit_diagnostics_ms : option N; servers : gmap str (LspServerConfig T) }.
Arguments LspConfig : clear implicits.
Definition new {T} : LspConfig T := mk T None None ∅.
End Lsp.
Notation LspConfig := Lsp.LspConfig.

(** ** MCP servers *)

Inductive McpTransportKind := TStdio | THttp | TSse | TAuto.
#[global] Instance McpTransportKind_eq_dec : EqDecision McpTransportKind.
Proof. solve_decision. Defined.
(** [{kind:?}]. *)
Definition transport_debug (k : McpTransportKind) : str :=
  match k with TStdio => lit "Stdio" | THttp => lit "Http" | TSse => lit "Sse" | TAuto => lit "Auto" end.
Module Mcp.
Record McpServerConfig := mk {
  transport : option McpTransportKind; command : option str; args : list str; env : option (gmap str str);
  cwd : option str; url : option str; headers : option (gmap str str) }.
Definition resolved_transport (s : McpServerConfig) : result McpTransportKind :=
  match transport s with
  | Some TStdio => if command s is None then Err (lit "MCP transport 'stdio' requires `command`") else Ok TStdio
  | Some kind =>
      if url s is None then Err (lit "MCP transport '" ++ transport_debug kind ++ lit "' requires `url`") else Ok kind
  | None =>
      match url s, command s with
      | Some _, _ => Ok TAuto
      | None, Some _ => Ok TStdio
      | None, None => Err (lit "MCP server config needs either `command` (stdio) or `url` (http/sse)")
      end
  end.
Definition is_separator (c : rchar) : bool := (c =? chr "/")%N || (c =? cBS)%N.
Definition stdio_problem (s : McpServerConfig) : option str :=
  command ← command s;
  let command := trim command in
  if command == [] then Some (lit "MCP server `command` is empty")
  else
    let file := rsplit_next is_separator command in
    let stem := to_ascii_lowercase (default file (head (split_on (N.eqb (chr ".")) file))) in
    if is_one_of stem ["npx"; "pnpx"; "bunx"; "uvx"]%string && forallb (λ a, trim a == []) (args s)
    then Some (quoted command ++ lit " needs the package to run in `args` (e.g. args = [" ++ [cDQ] ++ lit "-y" ++ [cDQ]
               ++ lit ", " ++ [cDQ] ++ lit "<package>" ++ [cDQ] ++ lit "])")
    else None.
Definition is_remote (s : McpServerConfig) : bool :=
  match resolved_transport s with Ok (THttp | TSse | TAuto) => true | _ => false end.
End Mcp.
Notation McpServerConfig := Mcp.McpServerConfig.

(** ** Prompt overlays *)

Definition overlay_key (raw : str) : str := to_ascii_lowercase (trim raw).
Module Overlays.
Record SystemPromptOverlays := mk { providers : gmap str str; models : gmap str str }.
Definition new : SystemPromptOverlays := mk ∅ ∅.
Definition is_empty (o : SystemPromptOverlays) : bool := bool_decide (providers o = ∅) && bool_decide (models o = ∅).
Definition sections (o : SystemPromptOverlays) (provider model : str) : list (str * str) :=
  let p := overlay_key provider in
  let m := overlay_key model in
  (if p == [] then []
   else match providers o !! p with Some body => [(lit "Provider instructions (" ++ p ++ lit ")", body)] | None => [] end)
  ++ (if m == [] then []
      else
        let body := if p == [] then models o !! m
                    else match models o !! (p ++ lit "/" ++ m) with Some b => Some b | None => models o !! m end in
        match body with Some body => [(lit "Model instructions (" ++ m ++ lit ")", body)] | None => [] end).
End Overlays.
Notation SystemPromptOverlays := Overlays.SystemPromptOverlays.

Module Memory.
Record MemoryConfig := mk {
  enabled : bool; auto_inject : bool; auto_retain : bool; retain_llm : bool; retain_llm_always : bool;
  retain_every_n : N; retain_max_facts : N; max_index_lines : N; max_index_bytes : N; recall_top_k : N;
  recall_min_score : f32; recall_token_budget : N; embed_dim : N; scope : str; embed_backend : str;
  code_inject : bool; code_top_k : N; code_min_score : f32; subagent_banks : bool;
  auto_index : bool; auto_index_max_files : N; auto_index_max_chunks : N;
  session_inject : bool; session_top_k : N; session_min_score : f32; consolidate : bool; consolidate_max : N }.
Definition default_memory_min_score : f32 := f32_lit 28 100.
Definition default_code_min_score : f32 := f32_lit 22 100.
Definition default_session_min_score : f32 := f32_lit 22 100.
Definition new : MemoryConfig :=
  mk true true true true false 1 3 200 25600 5 default_memory_min_score 800 256 (lit "user") (lit "hash")
     true 4 default_code_min_score true true 1500 4000 true 3 default_session_min_score true 80.
End Memory.
Notation MemoryConfig := Memory.MemoryConfig.

(** ** Tools *)

Module Tools.
Record QuestionToolConfig := mkQuestion { timeout_enabled : bool; timeout_secs : N }.
Definition new_question : QuestionToolConfig := mkQuestion true 1800.
Record FormatConfig := mkFormat { enabled : bool }.
#[global] Instance FormatConfig_eq_dec : EqDecision FormatConfig.
Proof. solve_decision. Defined.
Definition new_format : FormatConfig := mkFormat true.
Record BashConfig := mkBash { auto_background : bool; auto_background_after_secs : N }.
Definition default_auto_background_after_secs : N := 20.
Definition new_bash : BashConfig := mkBash true default_auto_background_after_secs.
Record CustomToolConfig {J : Type} := mkTool { command : str; description : str; parameters : option J }.
Arguments CustomToolConfig : clear implicits.
Record ToolsConfig {J : Type} := mk {
  enable_read : bool; enable_write : bool; enable_edit : bool; enable_glob : bool; enable_grep : bool;
  enable_shell : bool; enable_webfetch : bool; enable_websearch : bool;
  question : QuestionToolConfig; disabled_tools : list str; custom_tools : gmap str (CustomToolConfig J);
  bash : BashConfig; format : FormatConfig }.
Arguments ToolsConfig : clear implicits.
(** [#[derive(Default)]]: [bool::default()] is [false], whatever [serde] gives a
    missing key of a table. *)
Definition new {J} : ToolsConfig J :=
  mk J false false false false false false false false new_question [] ∅ new_bash new_format.
End Tools.
Notation ToolsConfig := Tools.ToolsConfig.

(** ** Sessions *)

Inductive HeadlessAskMode := HeadlessDeny | HeadlessAllow.
Definition headless_parse (s : str) : option HeadlessAskMode :=
  let l := to_ascii_lowercase (trim s) in
  if is_one_of l ["deny"; "ask-fail"; "fail"; "fail-closed"]%string then Some HeadlessDeny
  else if is_one_of l ["allow"; "auto"; "approve"]%string then Some HeadlessAllow
  else None.
Definition headless_str (m : HeadlessAskMode) : str := match m with HeadlessDeny => lit "deny" | HeadlessAllow => lit "allow" end.

Module MagicKeywords.
Record MagicKeywordsConfig := mk { enabled : bool; ultrathink : bool; orchestrate : bool }.
#[global] Instance MagicKeywordsConfig_eq_dec : EqDecision MagicKeywordsConfig.
Proof. solve_decision. Defined.
Definition new : MagicKeywordsConfig := mk true true true.
End MagicKeywords.
Notation MagicKeywordsConfig := MagicKeywords.MagicKeywordsConfig.

Module Session.
Record SessionConfig := mk {
  max_context_tokens : N; compaction_threshold : N; compaction_buffer_percent : option N; store_path : option str;
  auto_title : bool; title_model : option str; tool_profile : str; prompt_cache : str; cache_warm_minutes : N;
  undo_depth : N; model_fast : option str; goal_max_turns : N; goal_model : option str; model_smol : option str;
  model_plan : option str; prewalk : option bool; model_race : str; race_after_ms : N; fallback_models : list str;
  stream_retry_secs : N; response_cache : str; preconnect : bool; intent_guidance : str; compaction_llm : str;
  compaction_method : str; reasoning_effort : option str; magic_keywords : MagicKeywordsConfig;
  stream_rules : list StreamRuleConfig; headless_ask : option HeadlessAskMode }.
Definition default_goal_max_turns : N := 30.
Definition default_compaction_llm : str := lit "auto".
Definition default_compaction_method : str := lit "local".
Definition default_tool_profile : str := lit "core".
Definition default_prompt_cache : str := lit "auto".
Definition default_model_race : str := lit "off".
Definition default_race_after_ms : N := 800.
Definition default_stream_retry_secs : N := 60.
Definition default_undo_depth : N := 50.
Definition default_response_cache : str := lit "auto".
Definition default_intent_guidance : str := lit "auto".
Definition default_max_tokens : N := 200000.
Definition default_compaction_threshold : N := 150000.
Definition new : SessionConfig :=
  mk default_max_tokens default_compaction_threshold None None
     true None default_tool_profile default_prompt_cache 0
     default_undo_depth None default_goal_max_turns None None
     None None default_model_race default_race_after_ms []
     default_stream_retry_secs default_response_cache true default_intent_guidance default_compaction_llm
     default_compaction_method None MagicKeywords.new [] None.
End Session.
Notation SessionConfig := Session.SessionConfig.

(** ** Notifications *)

Inductive NotifyEvent := TurnDone | NeedInput.
#[global] Instance NotifyEvent_eq_dec : EqDecision NotifyEvent.
Proof. solve_decision. Defined.
Definition notify_event_str (e : NotifyEvent) : str := match e with TurnDone => lit "turn_done" | NeedInput => lit "need_input" end.
Definition notify_event_parse (raw : str) : option NotifyEvent :=
  let l := to_ascii_lowercase (trim raw) in
  if is_one_of l ["turn_done"; "turn-done"; "done"]%string then Some TurnDone
  else if is_one_of l ["need_input"; "need-input"; "input"]%string then Some NeedInput
  else None.
Definition parse_notify_on_csv (raw : str) : list str :=
  to_ascii_lowercase <$> List.filter (λ s, negb (s == [])) (trim <$> split_on (N.eqb (chr ",")) raw).
(** [nonempty_str] and, on an owned string, [nonempty_opt]. *)
Definition nonempty_opt (s : str) : option str := let t := trim s in if t == [] then None else Some t.
Definition nonempty_str (s : option str) : option str := s ≫= nonempty_opt.
(** [None]: a panic of a slice, which [discord_total] excludes. *)
Definition is_discord_webhook_url (url : str) : option bool :=
  let url := trim url in
  if negb (starts_with url (lit "https://")) then Some false
  else
    host ← host_from_url url;
    match host with
    | Err _ => Some false
    | Ok host =>
        let host := to_ascii_lowercase host in
        if negb (host == lit "discord.com") && negb (host == lit "discordapp.com") then Some false
        else
          let rest := default url (strip_prefix (lit "https://") url) in
          let path_start := default (byte_len rest) (find_char rest (N.eqb (chr "/"))) in
          tail ← slice_from rest path_start;
          let path := default [] (head (split_on (λ c, (c =? chr "?")%N || (c =? chr "#")%N) tail)) in
          Some (starts_with path (lit "/api/webhooks/") && (byte_len (lit "/api/webhooks/") <? byte_len path))
    end.

Module Notify.
Record NotifyConfig := mk {
  on : list str; discord_webhook : option str; telegram_bot_token : option str; telegram_chat_id : option str;
  timeout_secs : N; desktop : option bool }.
Definition default_notify_timeout_secs : N := 8.
Definition new : NotifyConfig := mk [] None None None default_notify_timeout_secs None.
Definition wants (n : NotifyConfig) (event : NotifyEvent) : bool :=
  existsb (λ e, bool_decide (notify_event_parse e = Some event)) (on n).
Definition discord_webhook_url (n : NotifyConfig) : option str := nonempty_str (discord_webhook n).
Definition telegram_token (n : NotifyConfig) : option str := nonempty_str (telegram_bot_token n).
Definition telegram_chat (n : NotifyConfig) : option str := nonempty_str (telegram_chat_id n).
Definition has_channel (n : NotifyConfig) : bool :=
  bool_decide (is_Some (discord_webhook_url n))
  || (bool_decide (is_Some (telegram_token n)) && bool_decide (is_Some (telegram_chat n))).
Definition enabled_for (n : NotifyConfig) (event : NotifyEvent) : bool := wants n event && has_channel n.
Definition desktop_for (n : NotifyConfig) (event : NotifyEvent) : bool := bool_decide (desktop n = Some true) && wants n event.
End Notify.
Notation NotifyConfig := Notify.NotifyConfig.

(** ** Web search, terminal UI, general *)

Module WebSearch.
Record WebSearchCustomConfig := mkCustom {
  endpoint : str; method : str; query_param : str; count_param : option str; params : gmap str str;
  headers : gmap str str; header_env : gmap str str; results_pointer : str; title_pointer : str;
  url_pointer : str; snippet_pointer : str }.
Record WebSearchConfig := mk { engine : option str; fallback : list str; custom : option WebSearchCustomConfig }.
Definition new : WebSearchConfig := mk None [] None.
Definition is_custom_engine (name : str) : bool := eq_ignore_ascii_case (trim name) (lit "custom").
(** What a project layer may not set is dropped; the dropped keys are named. *)
Definition strip_project_only_keys (w : WebSearchConfig) : WebSearchConfig * list str :=
  let bad_engine := match engine w with Some e => is_custom_engine e | None => false end in
  let kept := List.filter (λ e, negb (is_custom_engine e)) (fallback w) in
  (mk (if bad_engine then None else engine w) kept None,
   (if custom w is Some _ then [lit "websearch.custom"] else [])
   ++ (if bad_engine then [lit "websearch.engine = " ++ [cDQ] ++ lit "custom" ++ [cDQ]] else [])
   ++ (if length kept =? length (fallback w) then [] else [[cDQ] ++ lit "custom" ++ [cDQ] ++ lit " in websearch.fallback"])).
End WebSearch.
Notation WebSearchConfig := WebSearch.WebSearchConfig.

Module Tui.
Record TuiConfig := mk {
  theme : option str; key_bindings : option (gmap str str); prompt_suggestions : str; show_sidebar : bool;
  agent_colors : gmap str str; skip_openrouter_key_prompt : bool }.
Definition default_prompt_suggestions : str := lit "off".
Definition new : TuiConfig := mk None None default_prompt_suggestions false ∅ false.
End Tui.
Notation TuiConfig := Tui.TuiConfig.

Module General.
Record GeneralConfig := mk {
  project_path : option str; log_level : option str; default_gcp_project : option str; auto_update : bool;
  approval_mode : option ApprovalMode }.
Definition new : GeneralConfig := mk None None None true None.
End General.
Notation GeneralConfig := General.GeneralConfig.

Module Automation.
Record AutomationConfig := mk { max_background_jobs : N }.
Definition default_max_background_jobs : N := 8.
Definition new : AutomationConfig := mk default_max_background_jobs.
End Automation.
Notation AutomationConfig := Automation.AutomationConfig.

(** ** The tree and its defaults *)

Definition DEFAULT_PROVIDER : str := lit "openrouter".
Definition DEFAULT_MODEL_ID : str := lit "anthropic/claude-sonnet-4.5".
Definition CONFIG_SCHEMA_VERSION : N := 1.
Definition names (ns : list string) : option (list str) := Some (lit <$> ns).

Definition build_agent : AgentInfo :=
  Agent.mk (lit "build")
    (ulit "Primary coding agent with full tool access — write, edit, shell, and network.") Primary
    (mkPermissionSet None
       None true true true None
       [])
    None None None None.
Definition plan_agent : AgentInfo :=
  Agent.mk (lit "plan")
    (ulit "Read-only planning agent — analyzes code and proposes changes but does not modify files.") Primary
    (mkPermissionSet (names ["read"; "grep"; "glob"; "list"; "repomap"; "webfetch"; "websearch"; "lsp"]%string)
       (names ["write"; "edit"; "bash"; "shell"; "apply_patch"; "todowrite"; "todo"; "git_commit"; "task"; "swarm"]%string) false true false None
       [])
    None None None None.
Definition ask_agent : AgentInfo :=
  Agent.mk (lit "ask")
    (ulit "Read-only Q&A agent — explains code and answers questions without modifying files.") Primary
    (mkPermissionSet (names ["read"; "grep"; "glob"; "list"; "repomap"; "webfetch"; "websearch"; "lsp"; "question"]%string)
       (names ["write"; "edit"; "bash"; "shell"; "apply_patch"; "todowrite"; "todo"; "git_commit"; "task"; "swarm"; "plan"]%string) false true false None
       [])
    None None None None.
Definition whycodes_agent : AgentInfo :=
  Agent.mk (lit "whycodes")
    (ulit "WhyCodes operator — explains WhyCodes and repairs its config; never writes project source.") Primary
    (mkPermissionSet (names ["read"; "grep"; "glob"; "list"; "write"; "edit"; "bash"; "skill"; "question"]%string)
       (names ["apply_patch"; "ast_edit"; "todowrite"; "todo"; "git_commit"; "task"; "swarm"]%string) true false true None
       [(lit "write(**)", PDeny); (lit "write(.whycodes/**)", PAllow); (lit "bash(*)", PDeny); (lit "bash(whycodes config *)", PAllow); (lit "bash(whycodes debug *)", PAllow)])
    None None None None.
Definition explore_agent : AgentInfo :=
  Agent.mk (lit "explore")
    (ulit "Fast read-only subagent for exploring codebases (find files, search keywords, answer questions).") Subagent
    (mkPermissionSet (names ["read"; "grep"; "glob"; "list"; "repomap"; "webfetch"; "websearch"; "lsp"]%string)
       (names ["write"; "edit"; "bash"; "shell"; "apply_patch"; "todowrite"; "todo"; "question"]%string) false true false None
       [])
    None (Some (ulit "You are a read-only exploration subagent. Find files, search code, answer questions. No file modifications. Do not call `question` — report findings to the parent.")) None None.
Definition general_agent : AgentInfo :=
  Agent.mk (lit "general")
    (ulit "General-purpose subagent for complex multi-step tasks. Full tools except todo. Use for parallel units of work.") Subagent
    (mkPermissionSet None
       (names ["todowrite"; "todo"; "todoread"]%string) true true true None
       [])
    None (Some (ulit "You are a general-purpose subagent for complex searches and multi-step tasks. Complete the goal thoroughly.")) None None.
Definition scout_agent : AgentInfo :=
  Agent.mk (lit "scout")
    (ulit "Read-only subagent for external docs and dependency research.") Subagent
    (mkPermissionSet (names ["read"; "grep"; "glob"; "list"; "repomap"; "webfetch"; "websearch"; "bash"]%string)
       (names ["write"; "edit"; "apply_patch"; "todowrite"; "todo"; "question"]%string) false true true None
       [])
    None (Some (ulit "You are a scout subagent. Research external docs and dependencies. Prefer webfetch/websearch. Do not modify the workspace project files. Do not call `question` — report findings to the parent.")) None None.

Module Config.
Record Config {J T : Type} := mk {
  providers : gmap str (ProviderConfig J); models : gmap str ModelConfig; pricing : gmap str PriceConfig;
  agents : list AgentInfo; default_agent : str; default_model : option ModelConfig;
  command_configs : gmap str CommandConfig; tools : ToolsConfig J; session : SessionConfig; tui : TuiConfig;
  general : GeneralConfig; schema_version : N; mcp_servers : gmap str McpServerConfig; lsp : LspConfig T;
  permission : gmap str PermissionAction; commands : gmap str CustomCommandConfig; security : SecurityConfig;
  hooks : list HookConfig; memory : MemoryConfig; swarm : SwarmConfig; automation : AutomationConfig;
  notify : NotifyConfig; slop : SlopConfig; websearch : WebSearchConfig; system_prompt_overlays : SystemPromptOverlays }.
Arguments Config : clear implicits.
Definition new {J T} : Config J T :=
  mk J T ∅ ∅ ∅
    [build_agent; plan_agent; ask_agent; whycodes_agent; explore_agent; general_agent; scout_agent]
    (lit "build") None ∅ Tools.new Session.new Tui.new General.new CONFIG_SCHEMA_VERSION ∅ Lsp.new ∅ ∅ Security.new []
    Memory.new Swarm.new Automation.new Notify.new Slop.new WebSearch.new Overlays.new.
(** The first-run configuration: OpenRouter without a key. *)
Definition seeded_openrouter {J T} : Config J T :=
  new <| providers := {[ DEFAULT_PROVIDER := Provider.keyed DEFAULT_PROVIDER None ]} |>
      <| default_model := Some (Model.bare DEFAULT_MODEL_ID DEFAULT_PROVIDER) |>.
End Config.
Notation Config := Config.Config.
