(* ===== verification/ConfigMerge.v ===== *)
(** Layers of configuration ([config/src/merge.rs] and the [merge_with]s of
    [types.rs]): how a higher layer overrides a lower one, section by section, and what
    that makes of any stack of layers. *)

From Stdlib Require Import SpecFloat.
From coqutil Require Import Datatypes.RecordSetters.
From S2P Require Import Prelude RustStr Bytes F32 Permission Network StreamRules Hooks ConfigTypes.

(** ** One setting *)

(** [if <other sets it> { self = other }]. *)
Definition over {A} (sets : A → bool) (self other : A) : A := if sets other then other else self.
Definition ne {A} `{!EqDecision A} (d x : A) : bool := negb (bool_decide (x = d)).
Definition some {A} (x : option A) : bool := if x is Some _ then true else false.
Definition full {A} (l : list A) : bool := if l is [] then false else true.
Definition full_map {A} (m : gmap str A) : bool := negb (bool_decide (m = ∅)).
(** [for (k, v) in &other { self.insert(k, v) }]. *)
Definition insert_all {A} (self other : gmap str A) : gmap str A := other ∪ self.
(** [for (k, v) in &other { self.entry(k).or_insert(v) }]. *)
Definition insert_new {A} (self other : gmap str A) : gmap str A := self ∪ other.
(** [self.entry(k).and_modify(merge v).or_insert(v)]. *)
Definition merge_entries {A} (merge : A → A → A) (self other : gmap str A) : gmap str A :=
  union_with (λ a b, Some (merge a b)) self other.

(** ** Sections *)

Definition merge_provider {J} (a b : ProviderConfig J) : ProviderConfig J :=
  Provider.mk J (Provider.name a)
    (over some (Provider.api_key a) (Provider.api_key b))
    (over some (Provider.api_base a) (Provider.api_base b))
    (over some (Provider.base_url a) (Provider.base_url b))
    (over some (Provider.headers a) (Provider.headers b))
    (over full (Provider.models a) (Provider.models b))
    (over some (Provider.tool_arguments a) (Provider.tool_arguments b))
    (over full_map (Provider.extra a) (Provider.extra b))
    (over (λ c, negb (Credentials.is_empty c)) (Provider.credentials a) (Provider.credentials b)).

Definition merge_model (a b : ModelConfig) : ModelConfig :=
  Model.mk (Model.model_id a) (Model.provider_id a)
    (over some (Model.max_tokens a) (Model.max_tokens b))
    (over some (Model.context_window a) (Model.context_window b))
    (over some (Model.temperature a) (Model.temperature b))
    (over some (Model.top_p a) (Model.top_p b))
    (over some (Model.thinking a) (Model.thinking b))
    (over some (Model.supports_tools a) (Model.supports_tools b))
    (over some (Model.supports_images a) (Model.supports_images b)).

(** The first agent of the name takes the model settings; none: appended. *)
Definition update_agent (a b : AgentInfo) : AgentInfo :=
  Agent.mk (Agent.name a) (Agent.description a) (Agent.mode a) (Agent.permission a)
    (over some (Agent.model a) (Agent.model b)) (Agent.system_prompt a)
    (over some (Agent.temperature a) (Agent.temperature b)) (over some (Agent.top_p a) (Agent.top_p b)).
Fixpoint merge_agent (agents : list AgentInfo) (agent : AgentInfo) : list AgentInfo :=
  match agents with
  | [] => [agent]
  | a :: rest => if Agent.name a == Agent.name agent then update_agent a agent :: rest else a :: merge_agent rest agent
  end.
Definition merge_agents (self other : list AgentInfo) : list AgentInfo := foldl merge_agent self other.

Definition merge_command (a b : CommandConfig) : CommandConfig :=
  Command.mk (over some (Command.model a) (Command.model b)) (over some (Command.agent a) (Command.agent b))
    (over some (Command.max_turns a) (Command.max_turns b)).

Definition merge_session (a b : SessionConfig) : SessionConfig :=
  Session.mk
    (over (ne Session.default_max_tokens) (Session.max_context_tokens a) (Session.max_context_tokens b))
    (over (ne Session.default_compaction_threshold) (Session.compaction_threshold a) (Session.compaction_threshold b))
    (over some (Session.compaction_buffer_percent a) (Session.compaction_buffer_percent b))
    (over some (Session.store_path a) (Session.store_path b))
    (over negb (Session.auto_title a) (Session.auto_title b))
    (over some (Session.title_model a) (Session.title_model b))
    (over (ne Session.default_tool_profile) (Session.tool_profile a) (Session.tool_profile b))
    (over (ne Session.default_prompt_cache) (Session.prompt_cache a) (Session.prompt_cache b))
    (over (ne 0%N) (Session.cache_warm_minutes a) (Session.cache_warm_minutes b))
    (over (ne Session.default_undo_depth) (Session.undo_depth a) (Session.undo_depth b))
    (over some (Session.model_fast a) (Session.model_fast b))
    (over (ne Session.default_goal_max_turns) (Session.goal_max_turns a) (Session.goal_max_turns b))
    (over some (Session.goal_model a) (Session.goal_model b))
    (over some (Session.model_smol a) (Session.model_smol b))
    (over some (Session.model_plan a) (Session.model_plan b))
    (over some (Session.prewalk a) (Session.prewalk b))
    (over (ne Session.default_model_race) (Session.model_race a) (Session.model_race b))
    (over (ne Session.default_race_after_ms) (Session.race_after_ms a) (Session.race_after_ms b))
    (over full (Session.fallback_models a) (Session.fallback_models b))
    (over (ne Session.default_stream_retry_secs) (Session.stream_retry_secs a) (Session.stream_retry_secs b))
    (over (ne Session.default_response_cache) (Session.response_cache a) (Session.response_cache b))
    (over negb (Session.preconnect a) (Session.preconnect b))
    (over (ne Session.default_intent_guidance) (Session.intent_guidance a) (Session.intent_guidance b))
    (over (ne Session.default_compaction_llm) (Session.compaction_llm a) (Session.compaction_llm b))
    (over (ne Session.default_compaction_method) (Session.compaction_method a) (Session.compaction_method b))
    (over some (Session.reasoning_effort a) (Session.reasoning_effort b))
    (over (ne MagicKeywords.new) (Session.magic_keywords a) (Session.magic_keywords b))
    (over full (Session.stream_rules a) (Session.stream_rules b))
    (over some (Session.headless_ask a) (Session.headless_ask b)).

Definition merge_tui (a b : TuiConfig) : TuiConfig :=
  Tui.mk (over some (Tui.theme a) (Tui.theme b)) (over some (Tui.key_bindings a) (Tui.key_bindings b))
    (over (ne Tui.default_prompt_suggestions) (Tui.prompt_suggestions a) (Tui.prompt_suggestions b))
    (Tui.show_sidebar a || Tui.show_sidebar b) (insert_all (Tui.agent_colors a) (Tui.agent_colors b))
    (Tui.skip_openrouter_key_prompt a || Tui.skip_openrouter_key_prompt b).

Definition merge_general (a b : GeneralConfig) : GeneralConfig :=
  General.mk (over some (General.project_path a) (General.project_path b)) (over some (General.log_level a) (General.log_level b))
    (over some (General.default_gcp_project a) (General.default_gcp_project b))
    (General.auto_update a && General.auto_update b) (over some (General.approval_mode a) (General.approval_mode b)).

Definition merge_lsp {T} (a b : LspConfig T) : LspConfig T :=
  Lsp.mk T (over some (Lsp.idle_timeout_ms a) (Lsp.idle_timeout_ms b))
    (over some (Lsp.edit_diagnostics_ms a) (Lsp.edit_diagnostics_ms b)) (insert_all (Lsp.servers a) (Lsp.servers b)).

Definition merge_security (a b : SecurityConfig) : SecurityConfig :=
  Security.mk
    (over (ne Security.default_risk_threshold) (Security.bash_risk_threshold a) (Security.bash_risk_threshold b))
    (over (ne Security.default_sandbox_mode) (Security.sandbox a) (Security.sandbox b))
    (over negb (Security.sandbox_network a) (Security.sandbox_network b))
    (over (ne Security.default_sandbox_fallback) (Security.sandbox_fallback a) (Security.sandbox_fallback b))
    (over full (Security.network_allowlist a) (Security.network_allowlist b))
    (over full (Security.network_denylist a) (Security.network_denylist b))
    (over negb (Security.redact_secrets a) (Security.redact_secrets b)).

(** [merge_memory], then [merge_memory_index]. *)
Definition merge_memory (a b : MemoryConfig) : MemoryConfig :=
  Memory.mk
    (over negb (Memory.enabled a) (Memory.enabled b))
    (over negb (Memory.auto_inject a) (Memory.auto_inject b))
    (over negb (Memory.auto_retain a) (Memory.auto_retain b))
    (over negb (Memory.retain_llm a) (Memory.retain_llm b))
    (over id (Memory.retain_llm_always a) (Memory.retain_llm_always b))
    (over (ne 1%N) (Memory.retain_every_n a) (Memory.retain_every_n b))
    (over (ne 3%N) (Memory.retain_max_facts a) (Memory.retain_max_facts b))
    (over (ne 200%N) (Memory.max_index_lines a) (Memory.max_index_lines b))
    (over (ne 25600%N) (Memory.max_index_bytes a) (Memory.max_index_bytes b))
    (over (ne 5%N) (Memory.recall_top_k a) (Memory.recall_top_k b))
    (over (λ x, far32 x Memory.default_memory_min_score) (Memory.recall_min_score a) (Memory.recall_min_score b))
    (over (ne 800%N) (Memory.recall_token_budget a) (Memory.recall_token_budget b))
    (over (ne 256%N) (Memory.embed_dim a) (Memory.embed_dim b))
    (over (ne (lit "user")) (Memory.scope a) (Memory.scope b))
    (over (ne (lit "hash")) (Memory.embed_backend a) (Memory.embed_backend b))
    (over negb (Memory.code_inject a) (Memory.code_inject b))
    (over (ne 4%N) (Memory.code_top_k a) (Memory.code_top_k b))
    (over (λ x, far32 x Memory.default_code_min_score) (Memory.code_min_score a) (Memory.code_min_score b))
    (over negb (Memory.subagent_banks a) (Memory.subagent_banks b))
    (over negb (Memory.auto_index a) (Memory.auto_index b))
    (over (ne 1500%N) (Memory.auto_index_max_files a) (Memory.auto_index_max_files b))
    (over (ne 4000%N) (Memory.auto_index_max_chunks a) (Memory.auto_index_max_chunks b))
    (over negb (Memory.session_inject a) (Memory.session_inject b))
    (over (ne 3%N) (Memory.session_top_k a) (Memory.session_top_k b))
    (over (λ x, far32 x Memory.default_session_min_score) (Memory.session_min_score a) (Memory.session_min_score b))
    (over negb (Memory.consolidate a) (Memory.consolidate b))
    (over (ne 80%N) (Memory.consolidate_max a) (Memory.consolidate_max b)).

Definition merge_swarm (a b : SwarmConfig) : SwarmConfig :=
  Swarm.mk (over negb (Swarm.enabled a) (Swarm.enabled b)) (over (ne Swarm.default_swarm_max_agents) (Swarm.max_agents a) (Swarm.max_agents b))
    (over negb (Swarm.worktrees a) (Swarm.worktrees b)) (over some (Swarm.isolation a) (Swarm.isolation b)).

Definition merge_automation (a b : AutomationConfig) : AutomationConfig :=
  Automation.mk (over (ne Automation.default_max_background_jobs) (Automation.max_background_jobs a) (Automation.max_background_jobs b)).

Definition slop_merge_with (self other : SlopConfig) : SlopConfig :=
  let d := Slop.new in
  Slop.mk
    (if far64 (Slop.verbosity other) (Slop.verbosity d) then Slop.verbosity other else Slop.verbosity self)
    (if far64 (Slop.erosion other) (Slop.erosion d) then Slop.erosion other else Slop.erosion self)
    (if ne (Slop.delta_loc d) (Slop.delta_loc other) then Slop.delta_loc other else Slop.delta_loc self)
    (if far64 (Slop.block_verbosity other) (Slop.block_verbosity d) then Slop.block_verbosity other else Slop.block_verbosity self)
    (if far64 (Slop.block_erosion other) (Slop.block_erosion d) then Slop.block_erosion other else Slop.block_erosion self)
    (if ne (Slop.block_delta_loc d) (Slop.block_delta_loc other) then Slop.block_delta_loc other else Slop.block_delta_loc self)
    (if ne (Slop.hotspots d) (Slop.hotspots other) then Slop.hotspots other else Slop.hotspots self).

Definition notify_merge_with (a b : NotifyConfig) : NotifyConfig :=
  Notify.mk (over full (Notify.on a) (Notify.on b)) (over some (Notify.discord_webhook a) (Notify.discord_webhook b))
    (over some (Notify.telegram_bot_token a) (Notify.telegram_bot_token b))
    (over some (Notify.telegram_chat_id a) (Notify.telegram_chat_id b))
    (over (ne Notify.default_notify_timeout_secs) (Notify.timeout_secs a) (Notify.timeout_secs b))
    (over some (Notify.desktop a) (Notify.desktop b)).

Definition websearch_merge_with (a b : WebSearchConfig) : WebSearchConfig :=
  WebSearch.mk (over some (WebSearch.engine a) (WebSearch.engine b)) (over full (WebSearch.fallback a) (WebSearch.fallback b))
    (over some (WebSearch.custom a) (WebSearch.custom b)).

(** A flag counts as set when it differs from [ToolsConfig::default()]. *)
Definition flag {J} (get : ToolsConfig J → bool) (a b : ToolsConfig J) : bool :=
  over (λ x, negb (bool_decide (x = get Tools.new))) (get a) (get b).
Definition tools_merge_with {J} (a b : ToolsConfig J) : ToolsConfig J :=
  Tools.mk J
    (flag Tools.enable_read a b) (flag Tools.enable_write a b) (flag Tools.enable_edit a b) (flag Tools.enable_glob a b)
    (flag Tools.enable_grep a b) (flag Tools.enable_shell a b) (flag Tools.enable_webfetch a b) (flag Tools.enable_websearch a b)
    (Tools.mkQuestion
       (over (ne true) (Tools.timeout_enabled (Tools.question a)) (Tools.timeout_enabled (Tools.question b)))
       (over (ne 1800%N) (Tools.timeout_secs (Tools.question a)) (Tools.timeout_secs (Tools.question b))))
    (over full (Tools.disabled_tools a) (Tools.disabled_tools b))
    (insert_new (Tools.custom_tools a) (Tools.custom_tools b))
    (Tools.mkBash
       (over (ne true) (Tools.auto_background (Tools.bash a)) (Tools.auto_background (Tools.bash b)))
       (over (ne Tools.default_auto_background_after_secs) (Tools.auto_background_after_secs (Tools.bash a)) (Tools.auto_background_after_secs (Tools.bash b))))
    (over (ne Tools.new_format) (Tools.format a) (Tools.format b)).

(** ** The whole tree *)

(** [Config::merge_with]: [b] is the layer of higher priority. *)
Definition merge_with {J T} (a b : Config J T) : Config J T :=
  Config.mk J T
    (merge_entries merge_provider (Config.providers a) (Config.providers b))
    (merge_entries merge_model (Config.models a) (Config.models b))
    (insert_all (Config.pricing a) (Config.pricing b))
    (merge_agents (Config.agents a) (Config.agents b))
    (over full (Config.default_agent a) (Config.default_agent b))
    (over some (Config.default_model a) (Config.default_model b))
    (merge_entries merge_command (Config.command_configs a) (Config.command_configs b))
    (tools_merge_with (Config.tools a) (Config.tools b))
    (merge_session (Config.session a) (Config.session b))
    (merge_tui (Config.tui a) (Config.tui b))
    (merge_general (Config.general a) (Config.general b))
    (if (Config.schema_version a <? Config.schema_version b)%N then Config.schema_version b else Config.schema_version a)
    (insert_all (Config.mcp_servers a) (Config.mcp_servers b))
    (merge_lsp (Config.lsp a) (Config.lsp b))
    (insert_all (Config.permission a) (Config.permission b))
    (insert_all (Config.commands a) (Config.commands b))
    (merge_security (Config.security a) (Config.security b))
    (over full (Config.hooks a) (Config.hooks b))
    (merge_memory (Config.memory a) (Config.memory b))
    (merge_swarm (Config.swarm a) (Config.swarm b))
    (merge_automation (Config.automation a) (Config.automation b))
    (notify_merge_with (Config.notify a) (Config.notify b))
    (if negb (Slop.eqb (Config.slop b) Slop.new) then slop_merge_with (Config.slop a) (Config.slop b) else Config.slop a)
    (websearch_merge_with (Config.websearch a) (Config.websearch b))
    (Overlays.mk
       (insert_all (Overlays.providers (Config.system_prompt_overlays a)) (Overlays.providers (Config.system_prompt_overlays b)))
       (insert_all (Overlays.models (Config.system_prompt_overlays a)) (Overlays.models (Config.system_prompt_overlays b)))).

(** Defaults, then the layers, lowest first: [Config::layered], and the first part of
    [load_layered]. *)
Definition layers {J T} (ls : list (Config J T)) : Config J T := foldl merge_with Config.new ls.
Definition layered {J T} (global : Config J T) (project : option (Config J T)) : Config J T :=
  let merged := merge_with Config.new global in
  match project with Some project => merge_with merged project | None => merged end.

(** ** The rules of an agent *)

Fixpoint rules_insert (rs : list (str * PermissionAction)) (k : str) (v : PermissionAction) : list (str * PermissionAction) :=
  match rs with
  | [] => [(k, v)]
  | r :: rs => if r.1 == k then (k, v) :: rs else r :: rules_insert rs k v
  end.
Definition rules_or_insert (rs : list (str * PermissionAction)) (k : str) (v : PermissionAction) : list (str * PermissionAction) :=
  match rules_get rs k with Some _ => rs | None => rs ++ [(k, v)] end.
Definition effective_permission {J T} (self : Config J T) (agent : PermissionSet) : PermissionSet :=
  let out := foldl (λ rs kv, rules_or_insert rs kv.1 kv.2) (rules agent) (map_to_list (Config.permission self)) in
  let out := foldl (λ rs kv, rules_insert rs kv.1 kv.2) out (rules agent) in
  mkPermissionSet (allowed_tools agent) (denied_tools agent) (allow_file_writes agent) (allow_network agent)
    (allow_shell agent) (allowed_paths agent) out.

(** ** What a stack of layers gives *)

(** The reference: of the layers that set a value the highest wins, else the base. *)
Definition winner {A} (sets : A → bool) (base : A) (ls : list A) : A := default base (last (List.filter sets ls)).

Record Setting {J T : Type} := setting { ty : Type; get : Config J T → ty; sets : ty → bool }.
Arguments Setting : clear implicits.
Arguments setting {J T ty} get sets.
Definition optional {J T A} (get : Config J T → option A) : Setting J T := setting get some.
Definition listed {J T A} (get : Config J T → list A) : Setting J T := setting get full.
Definition valued {J T A} `{!EqDecision A} (d : A) (get : Config J T → A) : Setting J T := setting get (ne d).
Definition turned_off {J T} (get : Config J T → bool) : Setting J T := setting get negb.
Definition turned_on {J T} (get : Config J T → bool) : Setting J T := setting get id.

Section settings.
Context {J T : Type}.
Notation C := (Config J T).

(** The credentials of a provider, when it names any. *)
Definition credential_pool (p : ProviderConfig J) : option ProviderCredentials :=
  if Credentials.is_empty (Provider.credentials p) then None else Some (Provider.credentials p).
(** The entries of a name [k]: a whole entry, or a field of one. *)
Definition keyed_settings (k : str) : list (Setting J T) :=
  [optional (λ c : C, Config.providers c !! k ≫= Provider.api_key);
   optional (λ c : C, Config.providers c !! k ≫= Provider.api_base);
   optional (λ c : C, Config.providers c !! k ≫= Provider.base_url);
   optional (λ c : C, Config.providers c !! k ≫= Provider.headers);
   optional (λ c : C, Config.providers c !! k ≫= Provider.tool_arguments);
   listed (λ c : C, from_option Provider.models [] (Config.providers c !! k));
   setting (λ c : C, from_option Provider.extra ∅ (Config.providers c !! k)) full_map;
   optional (λ c : C, Config.providers c !! k ≫= credential_pool);
   optional (λ c : C, Config.models c !! k ≫= Model.max_tokens);
   optional (λ c : C, Config.models c !! k ≫= Model.context_window);
   optional (λ c : C, Config.models c !! k ≫= Model.temperature);
   optional (λ c : C, Config.models c !! k ≫= Model.top_p);
   optional (λ c : C, Config.models c !! k ≫= Model.thinking);
   optional (λ c : C, Config.models c !! k ≫= Model.supports_tools);
   optional (λ c : C, Config.models c !! k ≫= Model.supports_images);
   optional (λ c : C, Config.command_configs c !! k ≫= Command.model);
   optional (λ c : C, Config.command_configs c !! k ≫= Command.agent);
   optional (λ c : C, Config.command_configs c !! k ≫= Command.max_turns);
   optional (λ c : C, Config.pricing c !! k);
   optional (λ c : C, Config.mcp_servers c !! k);
   optional (λ c : C, Lsp.servers (Config.lsp c) !! k);
   optional (λ c : C, Config.permission c !! k);
   optional (λ c : C, Config.commands c !! k);
   optional (λ c : C, Tui.agent_colors (Config.tui c) !! k);
   optional (λ c : C, Overlays.providers (Config.system_prompt_overlays c) !! k);
   optional (λ c : C, Overlays.models (Config.system_prompt_overlays c) !! k)].

Definition session_settings : list (Setting J T) :=
  let from {A} (f : SessionConfig → A) (c : C) : A := f (Config.session c) in
  [valued 200000%N (from Session.max_context_tokens); valued 150000%N (from Session.compaction_threshold);
   optional (from Session.compaction_buffer_percent); optional (from Session.store_path); turned_off (from Session.auto_title);
   optional (from Session.title_model); valued (lit "core") (from Session.tool_profile); valued (lit "auto") (from Session.prompt_cache);
   valued 0%N (from Session.cache_warm_minutes); valued 50%N (from Session.undo_depth); optional (from Session.model_fast);
   valued 30%N (from Session.goal_max_turns); optional (from Session.goal_model); optional (from Session.model_smol);
   optional (from Session.model_plan); optional (from Session.prewalk); valued (lit "off") (from Session.model_race);
   valued 800%N (from Session.race_after_ms); listed (from Session.fallback_models); valued 60%N (from Session.stream_retry_secs);
   valued (lit "auto") (from Session.response_cache); turned_off (from Session.preconnect);
   valued (lit "auto") (from Session.intent_guidance); valued (lit "auto") (from Session.compaction_llm);
   valued (lit "local") (from Session.compaction_method); optional (from Session.reasoning_effort);
   valued MagicKeywords.new (from Session.magic_keywords); listed (from Session.stream_rules); optional (from Session.headless_ask)].

Definition memory_settings : list (Setting J T) :=
  let from {A} (f : MemoryConfig → A) (c : C) : A := f (Config.memory c) in
  [turned_off (from Memory.enabled); turned_off (from Memory.auto_inject); turned_off (from Memory.auto_retain);
   turned_off (from Memory.retain_llm); turned_on (from Memory.retain_llm_always); valued 1%N (from Memory.retain_every_n);
   valued 3%N (from Memory.retain_max_facts); valued 200%N (from Memory.max_index_lines); valued 25600%N (from Memory.max_index_bytes);
   valued 5%N (from Memory.recall_top_k); setting (from Memory.recall_min_score) (λ x, far32 x (f32_lit 28 100));
   valued 800%N (from Memory.recall_token_budget); valued 256%N (from Memory.embed_dim); valued (lit "user") (from Memory.scope);
   valued (lit "hash") (from Memory.embed_backend); turned_off (from Memory.code_inject); valued 4%N (from Memory.code_top_k);
   setting (from Memory.code_min_score) (λ x, far32 x (f32_lit 22 100)); turned_off (from Memory.subagent_banks);
   turned_off (from Memory.auto_index); valued 1500%N (from Memory.auto_index_max_files);
   valued 4000%N (from Memory.auto_index_max_chunks); turned_off (from Memory.session_inject); valued 3%N (from Memory.session_top_k);
   setting (from Memory.session_min_score) (λ x, far32 x (f32_lit 22 100)); turned_off (from Memory.consolidate);
   valued 80%N (from Memory.consolidate_max)].

Definition tools_settings : list (Setting J T) :=
  let from {A} (f : ToolsConfig J → A) (c : C) : A := f (Config.tools c) in
  [turned_on (from Tools.enable_read); turned_on (from Tools.enable_write); turned_on (from Tools.enable_edit);
   turned_on (from Tools.enable_glob); turned_on (from Tools.enable_grep); turned_on (from Tools.enable_shell);
   turned_on (from Tools.enable_webfetch); turned_on (from Tools.enable_websearch);
   turned_off (from (λ t, Tools.timeout_enabled (Tools.question t))); valued 1800%N (from (λ t, Tools.timeout_secs (Tools.question t)));
   listed (from Tools.disabled_tools); turned_off (from (λ t, Tools.auto_background (Tools.bash t)));
   valued 20%N (from (λ t, Tools.auto_background_after_secs (Tools.bash t))); turned_off (from (λ t, Tools.enabled (Tools.format t)))].

Definition slop_settings : list (Setting J T) :=
  let from {A} (f : SlopConfig → A) (c : C) : A := f (Config.slop c) in
  [setting (from Slop.verbosity) (λ x, far64 x (f64_lit 25 100)); setting (from Slop.erosion) (λ x, far64 x (f64_lit 50 100));
   valued 800%Z (from Slop.delta_loc); setting (from Slop.block_verbosity) (λ x, far64 x (f64_lit 40 100));
   setting (from Slop.block_erosion) (λ x, far64 x (f64_lit 75 100)); valued 5000%Z (from Slop.block_delta_loc);
   valued 8%N (from Slop.hotspots)].

Definition other_settings : list (Setting J T) :=
  [listed Config.default_agent; optional Config.default_model; listed Config.hooks;
   optional (λ c : C, Tui.theme (Config.tui c)); optional (λ c : C, Tui.key_bindings (Config.tui c));
   valued (lit "off") (λ c : C, Tui.prompt_suggestions (Config.tui c)); turned_on (λ c : C, Tui.show_sidebar (Config.tui c));
   turned_on (λ c : C, Tui.skip_openrouter_key_prompt (Config.tui c));
   optional (λ c : C, General.project_path (Config.general c)); optional (λ c : C, General.log_level (Config.general c));
   optional (λ c : C, General.default_gcp_project (Config.general c)); turned_off (λ c : C, General.auto_update (Config.general c));
   optional (λ c : C, General.approval_mode (Config.general c));
   optional (λ c : C, Lsp.idle_timeout_ms (Config.lsp c)); optional (λ c : C, Lsp.edit_diagnostics_ms (Config.lsp c));
   valued (lit "destructive") (λ c : C, Security.bash_risk_threshold (Config.security c));
   valued (lit "workspace") (λ c : C, Security.sandbox (Config.security c));
   turned_off (λ c : C, Security.sandbox_network (Config.security c));
   valued (lit "allow") (λ c : C, Security.sandbox_fallback (Config.security c));
   listed (λ c : C, Security.network_allowlist (Config.security c)); listed (λ c : C, Security.network_denylist (Config.security c));
   turned_off (λ c : C, Security.redact_secrets (Config.security c));
   turned_off (λ c : C, Swarm.enabled (Config.swarm c)); valued 4%N (λ c : C, Swarm.max_agents (Config.swarm c));
   turned_off (λ c : C, Swarm.worktrees (Config.swarm c)); optional (λ c : C, Swarm.isolation (Config.swarm c));
   valued 8%N (λ c : C, Automation.max_background_jobs (Config.automation c));
   listed (λ c : C, Notify.on (Config.notify c)); optional (λ c : C, Notify.discord_webhook (Config.notify c));
   optional (λ c : C, Notify.telegram_bot_token (Config.notify c)); optional (λ c : C, Notify.telegram_chat_id (Config.notify c));
   valued 8%N (λ c : C, Notify.timeout_secs (Config.notify c)); optional (λ c : C, Notify.desktop (Config.notify c));
   optional (λ c : C, WebSearch.engine (Config.websearch c)); listed (λ c : C, WebSearch.fallback (Config.websearch c));
   optional (λ c : C, WebSearch.custom (Config.websearch c))].

Definition settings (k : str) : list (Setting J T) :=
  keyed_settings k ++ session_settings ++ memory_settings ++ tools_settings ++ slop_settings ++ other_settings.
End settings.

Section stacks.
Context {J T : Type}.
Implicit Types (c : Config J T).

Definition merges (s : Setting J T) : Prop :=
  ∀ a b, get s (merge_with a b) = over (sets s) (get s a) (get s b).

Lemma over_all {A} (P : A → bool) xs : ∀ x, foldl (over P) x xs = winner P x xs.
Proof.
  unfold winner. induction xs as [|y xs IH]; intros x; cbn; [done|]. rewrite IH. unfold over.
  destruct (P y); [|done]. rewrite last_cons. by destruct (last (List.filter P xs)).
Qed.
Lemma merges_stack s base ls : merges s →
  get s (foldl merge_with base ls) = winner (sets s) (get s base) (get s <$> ls).
Proof.
  intros H. rewrite <- over_all. revert base. induction ls as [|l ls IH]; intros base; cbn; [done|]. by rewrite IH, H.
Qed.

Lemma over_negb a b : over negb a b = a && b.
Proof. by destruct a, b. Qed.
Lemma over_id a b : over id a b = a || b.
Proof. by destruct a, b. Qed.
Lemma insert_all_lookup {A} (a b : gmap str A) k : insert_all a b !! k = over some (a !! k) (b !! k).
Proof. unfold insert_all, over. rewrite lookup_union. by destruct (b !! k), (a !! k). Qed.
Lemma merge_entries_field {A B} (merge : A → A → A) (f : A → option B) (a b : gmap str A) k :
  (∀ x y, f (merge x y) = over some (f x) (f y)) →
  merge_entries merge a b !! k ≫= f = over some (a !! k ≫= f) (b !! k ≫= f).
Proof.
  intros H. unfold merge_entries. rewrite lookup_union_with. destruct (a !! k) as [x|], (b !! k) as [y|]; cbn; [done|done| |done].
  by destruct (f y).
Qed.

Lemma merge_entries_default {A B} (merge : A → A → A) (f : A → B) (set : B → bool) (d : B) (a b : gmap str A) k :
  (∀ x y, f (merge x y) = over set (f x) (f y)) → (∀ z, set z = false ↔ z = d) →
  from_option f d (merge_entries merge a b !! k) = over set (from_option f d (a !! k)) (from_option f d (b !! k)).
Proof.
  intros H Hd. unfold merge_entries. rewrite lookup_union_with. unfold over in *.
  destruct (a !! k) as [x|], (b !! k) as [y|]; cbn; [done| | |]; rewrite ?(proj2 (Hd d) eq_refl); [done| |done].
  destruct (set (f y)) eqn:E; [done|]. by apply Hd.
Qed.
Lemma credential_pool_merge (a b : ProviderConfig J) : credential_pool (merge_provider a b) = over some (credential_pool a) (credential_pool b).
Proof.
  unfold credential_pool. cbn [merge_provider Provider.credentials]. unfold over.
  destruct (Credentials.is_empty (Provider.credentials b)) eqn:E; cbn [negb some]; [done|by rewrite E].
Qed.

Lemma keyed_merge k : Forall merges (keyed_settings k).
Proof.
  repeat (apply List.Forall_cons; [|]); [..|by constructor]; intros a b; cbn [get merge_with optional listed sets Config.providers
      Config.models Config.command_configs Config.pricing Config.mcp_servers Config.lsp Config.permission Config.commands Config.tui
      Config.system_prompt_overlays Overlays.providers Overlays.models];
    first [apply insert_all_lookup | apply merge_entries_field; solve [done|apply credential_pool_merge]
      | apply merge_entries_default; [done|by intros []]
      | apply merge_entries_default; [done|intros z; unfold full_map; by rewrite negb_false_iff, bool_decide_eq_true]].
Qed.

(** The guard around [slop] changes nothing: a layer equal to the defaults sets nothing. *)
Lemma SFeqb_finite x s m e : SFeqb x (S754_finite s m e) = true → x = S754_finite s m e.
Proof.
  unfold SFeqb. destruct x as [s0|s0| |s' m' e']; cbn; [by destruct s|by destruct s0|done|].
  destruct s', s; try done; cbn; destruct (Z.compare_spec e' e) as [->| |]; try done.
  all: change (Pos.compare_cont Eq m' m) with (Pos.compare m' m); destruct (Pos.compare_spec m' m) as [->| |]; done.
Qed.
Lemma slop_guard a b : (if negb (Slop.eqb b Slop.new) then slop_merge_with a b else a) = slop_merge_with a b.
Proof.
  destruct (Slop.eqb b Slop.new) eqn:E; [cbn [negb]|done].
  unfold Slop.eqb in E. rewrite !andb_true_iff in E. destruct E as [[[[[[E1 E2] E3] E4] E5] E6] E7].
  unfold slop_merge_with, ne. rewrite E3, E6, E7. cbn [negb].
  apply SFeqb_finite in E1, E2, E4, E5. rewrite E1, E2, E4, E5. by destruct a.
Qed.

Lemma over_ext {A} (P Q : A → bool) a b : (∀ x, P x = Q x) → over P a b = over Q a b.
Proof. unfold over. by intros ->. Qed.
Ltac one_setting := first [reflexivity | by apply over_ext; intros [] | by rewrite over_id | by rewrite over_negb].
Ltac each_setting := repeat (apply List.Forall_cons; [|]); [..|by constructor]; intros a b; cbn; unfold id, flag; try one_setting.
Lemma session_merge : Forall merges session_settings.
Proof. each_setting. Qed.
Lemma memory_merge : Forall merges memory_settings.
Proof. each_setting. Qed.
Lemma tools_merge : Forall merges tools_settings.
Proof. each_setting. by destruct (Tools.format (Config.tools a)) as [[]], (Tools.format (Config.tools b)) as [[]]. Qed.
Lemma slop_merge : Forall merges slop_settings.
Proof. unfold slop_settings. repeat (apply List.Forall_cons; [|]); [..|constructor]; intros a b; cbn [get merge_with Config.slop valued sets]; by rewrite slop_guard. Qed.
Lemma other_merge : Forall merges other_settings.
Proof. each_setting. Qed.

End stacks.

(** ** Agents *)

Definition find_agent (name : str) (agents : list AgentInfo) : option AgentInfo := List.find (λ a, Agent.name a == name) agents.
(** What only the lowest layer that has the agent decides. *)
Definition pinned (a : AgentInfo) : str * str * AgentMode * PermissionSet * option str :=
  (Agent.name a, Agent.description a, Agent.mode a, Agent.permission a, Agent.system_prompt a).

Lemma find_merge_agent name b agents : find_agent name (merge_agent agents b) =
  if Agent.name b == name then Some (match find_agent name agents with Some a => update_agent a b | None => b end)
  else find_agent name agents.
Proof.
  unfold find_agent. induction agents as [|a agents IH]; cbn [merge_agent List.find].
  { by destruct (Agent.name b == name). }
  destruct (Agent.name a == Agent.name b) eqn:E; cbn [List.find].
  - apply bool_decide_eq_true in E. cbn [Agent.name update_agent]. rewrite E. by destruct (Agent.name b == name).
  - rewrite IH. destruct (Agent.name b == name) eqn:Eb; [|by destruct (Agent.name a == name)].
    apply bool_decide_eq_true in Eb. rewrite <- Eb. by rewrite E.
Qed.
Notation named name := (List.filter (λ a, Agent.name a == name)).
(** The agent of a name, and those that are merged into it. *)
Definition updated (given : list AgentInfo) : option AgentInfo :=
  match given with [] => None | first :: later => Some (foldl update_agent first later) end.

Lemma updated_snoc (given : list AgentInfo) b :
  updated (given ++ [b]) = Some (match updated given with Some a => update_agent a b | None => b end).
Proof. destruct given as [|a given]; cbn; [done|]. by rewrite foldl_app. Qed.
Lemma find_merge_agents name bs : ∀ agents given, find_agent name agents = updated given →
  find_agent name (merge_agents agents bs) = updated (given ++ named name bs).
Proof.
  unfold merge_agents. induction bs as [|b bs IH]; intros agents given H; cbn [foldl List.filter]; [by rewrite app_nil_r|].
  pose proof (find_merge_agent name b agents) as Hm. rewrite H in Hm. destruct (Agent.name b == name).
  - change (b :: named name bs) with ([b] ++ named name bs). rewrite app_assoc. apply IH. by rewrite updated_snoc.
  - by apply IH.
Qed.
Lemma find_layers {J T} name (ls : list (Config J T)) : ∀ (c : Config J T) given, find_agent name (Config.agents c) = updated given →
  find_agent name (Config.agents (foldl merge_with c ls)) = updated (given ++ named name (concat (Config.agents <$> ls))).
Proof.
  induction ls as [|l ls IH]; intros c given H; cbn [foldl fmap list_fmap concat]; [by rewrite app_nil_r|].
  rewrite List.filter_app, app_assoc. apply IH. by apply find_merge_agents.
Qed.
Lemma updated_fields first later :
  let a := foldl update_agent first later in
  pinned a = pinned first ∧ Agent.model a = winner some (Agent.model first) (Agent.model <$> later)
  ∧ Agent.temperature a = winner some (Agent.temperature first) (Agent.temperature <$> later)
  ∧ Agent.top_p a = winner some (Agent.top_p first) (Agent.top_p <$> later).
Proof.
  cbv zeta. rewrite <- !over_all. revert first. induction later as [|b later IH]; intros first; cbn [foldl fmap list_fmap]; [done|].
  by destruct (IH (update_agent first b)) as (-> & -> & -> & ->).
Qed.
Lemma builtins_distinct {J T} (a : AgentInfo) :
  a ∈ Config.agents (Config.new (J:=J) (T:=T)) → find_agent (Agent.name a) (Config.agents (Config.new (J:=J) (T:=T))) = Some a.
Proof. intros Ha. cbn in Ha. repeat (apply elem_of_cons in Ha as [->|Ha]; [by vm_compute|]). by apply elem_of_nil in Ha. Qed.

(** C34: no layer can give a built-in agent other rules, another mode or another prompt:
    the agent of a built-in name is the built-in one up to its model settings, whatever
    layers there are and however often they name it. An agent of another name is there
    exactly when some layer names it; its rules, mode and prompt are those of the first
    entry of the name in the lowest such layer. Model, temperature and top-p are those of
    the last entry of the name that sets them. *)
Theorem builtin_agents_pinned {J T} (ls : list (Config J T)) (name : str) :
  let entries := option_list (find_agent name (Config.agents (Config.new (J:=J) (T:=T)))) ++ named name (concat (Config.agents <$> ls)) in
  (∀ a, a ∈ Config.agents (Config.new (J:=J) (T:=T)) → Agent.name a = name → head entries = Some a)
  ∧ match entries with
    | [] => find_agent name (Config.agents (layers ls)) = None
    | first :: later => ∃ a, find_agent name (Config.agents (layers ls)) = Some a ∧ pinned a = pinned first
        ∧ Agent.model a = winner some (Agent.model first) (Agent.model <$> later)
        ∧ Agent.temperature a = winner some (Agent.temperature first) (Agent.temperature <$> later)
        ∧ Agent.top_p a = winner some (Agent.top_p first) (Agent.top_p <$> later)
    end.
Proof.
  cbv zeta. split; [intros a Ha <-; by rewrite (builtins_distinct a Ha)|].
  unfold layers. set (builtin := find_agent name _). assert (builtin = updated (option_list builtin)) as H by by destruct builtin.
  rewrite (find_layers name ls _ _ H). destruct (option_list builtin ++ _) as [|first later]; [done|].
  eexists. split; [done|]. apply updated_fields.
Qed.
Definition mine : AgentInfo := Agent.mk (lit "mine") [] AnyAgent (mkPermissionSet None None true true true None []) None None None None.
Example an_agent_is_added :
  Agent.name <$> find_agent (lit "mine") (Config.agents (layers [Config.new (J:=nat) (T:=nat) <| Config.agents := [mine] |>])) = Some (lit "mine").
Proof. vm_compute. reflexivity. Qed.

(** ** Rules *)

Lemma rules_get_insert rs k v name : rules_get (rules_insert rs k v) name = if k == name then Some v else rules_get rs name.
Proof.
  unfold rules_get. induction rs as [|r rs IH]; cbn [rules_insert List.find]; [cbn; by destruct (k == name)|].
  destruct (r.1 == k) eqn:E; cbn [List.find]; cbn [fst].
  - apply bool_decide_eq_true in E. rewrite E. by destruct (k == name).
  - destruct (r.1 == name) eqn:Er; [|done]. apply bool_decide_eq_true in Er.
    destruct (k == name) eqn:Ek; [|done]. apply bool_decide_eq_true in Ek. apply bool_decide_eq_false in E. congruence.
Qed.
Lemma rules_get_app rs rs' name : rules_get (rs ++ rs') name = match rules_get rs name with Some v => Some v | None => rules_get rs' name end.
Proof. unfold rules_get. induction rs as [|r rs IH]; cbn; [done|]. by destruct (r.1 == name). Qed.
Lemma rules_get_or_insert rs k v name :
  rules_get (rules_or_insert rs k v) name = match rules_get rs name with Some a => Some a | None => if k == name then Some v else None end.
Proof.
  unfold rules_or_insert. destruct (rules_get rs k) as [a|] eqn:E.
  - destruct (rules_get rs name) eqn:En; [done|]. destruct (k == name) eqn:Ek; [|done]. apply bool_decide_eq_true in Ek. congruence.
  - rewrite rules_get_app. destruct (rules_get rs name); [done|]. unfold rules_get. cbn. by destruct (k == name).
Qed.
Lemma rules_get_in rs name v : rules_get rs name = Some v → (name, v) ∈ rs.
Proof.
  unfold rules_get. induction rs as [|r rs IH]; cbn; [done|]. destruct (r.1 == name) eqn:E; cbn.
  - intros [= <-]. apply bool_decide_eq_true in E. rewrite <- E. destruct r. left.
  - intros H. right. by apply IH.
Qed.
Lemma rules_get_head r rs name : rules_get (r :: rs) name = if r.1 == name then Some r.2 else rules_get rs name.
Proof. unfold rules_get. cbn. by destruct (r.1 == name). Qed.
Lemma fold_insert (rs : list (str * PermissionAction)) name : NoDup rs.*1 → ∀ out,
  rules_get (foldl (λ rs kv, rules_insert rs kv.1 kv.2) out rs) name =
  match rules_get rs name with Some a => Some a | None => rules_get out name end.
Proof.
  induction rs as [|r rs IH]; intros Hnd out; cbn [foldl fmap list_fmap] in *; [done|].
  apply NoDup_cons in Hnd as [Hr Hnd]. rewrite IH, rules_get_insert, rules_get_head by done.
  destruct (r.1 == name) eqn:E; [|done]. apply bool_decide_eq_true in E.
  destruct (rules_get rs name) as [a|] eqn:En; [|done]. apply rules_get_in in En. exfalso. apply Hr. rewrite E.
  by apply (list_elem_of_fmap_2 fst) in En.
Qed.
Lemma fold_or_insert name l : ∀ rs : list (str * PermissionAction),
  rules_get (foldl (λ rs kv, rules_or_insert rs kv.1 kv.2) rs l) name =
  match rules_get rs name with Some a => Some a | None => rules_get l name end.
Proof.
  induction l as [|kv l IH]; intros rs; cbn [foldl]; [by destruct (rules_get rs name)|].
  rewrite IH, rules_get_or_insert, rules_get_head. by destruct (rules_get rs name), (kv.1 == name).
Qed.
Lemma rules_get_map (m : gmap str PermissionAction) name : rules_get (map_to_list m) name = m !! name.
Proof.
  destruct (rules_get (map_to_list m) name) as [v|] eqn:E.
  - apply rules_get_in, elem_of_map_to_list in E. by rewrite E.
  - destruct (m !! name) as [v|] eqn:Em; [|done]. apply elem_of_map_to_list in Em.
    induction (map_to_list m) as [|r l IH]; [by apply elem_of_nil in Em|]. rewrite rules_get_head in E.
    destruct (r.1 == name) eqn:Er; [done|]. apply IH; [done|]. apply elem_of_cons in Em as [<-|Em]; [|done].
    apply bool_decide_eq_false in Er. done.
Qed.

(** An agent's own rule wins, else the global one applies; nothing else of the agent changes. *)
Lemma effective_permission_spec {J T} (c : Config J T) (agent : PermissionSet) name : NoDup (rules agent).*1 →
  rules_get (rules (effective_permission c agent)) name =
    match rules_get (rules agent) name with Some a => Some a | None => Config.permission c !! name end
  ∧ allowed_tools (effective_permission c agent) = allowed_tools agent
  ∧ denied_tools (effective_permission c agent) = denied_tools agent.
Proof.
  intros Hnd. split; [|done]. unfold effective_permission. cbn [rules].
  rewrite fold_insert, fold_or_insert, rules_get_map by done. by destruct (rules_get (rules agent) name).
Qed.

(** ** What a project may not choose *)

(** The part of a project layer that [parse_project_text] strips. *)
Definition strip_project {J T} (c : Config J T) : Config J T :=
  c <| Config.websearch := (WebSearch.strip_project_only_keys (Config.websearch c)).1 |>.
Definition uses_custom (w : WebSearchConfig) : Prop :=
  (∃ e, WebSearch.engine w = Some e ∧ WebSearch.is_custom_engine e = true)
  ∨ (∃ e, e ∈ WebSearch.fallback w ∧ WebSearch.is_custom_engine e = true).

(** The custom search endpoint stays that of the layers below, and the custom engine is
    used only where they use it. *)
Lemma merge_search_kept {J T} (below project : Config J T) :
  let merged := merge_with below (strip_project project) in
  WebSearch.custom (Config.websearch merged) = WebSearch.custom (Config.websearch below)
  ∧ (uses_custom (Config.websearch merged) → uses_custom (Config.websearch below)).
Proof.
  cbn. split; [done|]. unfold websearch_merge_with. cbn [WebSearch.strip_project_only_keys fst].
  intros [(e & He & Hc)|(e & He & Hc)]; cbn in He.
  - left. exists e. split; [|done]. unfold over, some in He.
    destruct (WebSearch.engine (Config.websearch project)) as [e'|] eqn:Ee; cbn in He; [|done].
    destruct (WebSearch.is_custom_engine e') eqn:Ee'; [done|]. congruence.
  - right. exists e. split; [|done]. unfold over, full in He.
    destruct (List.filter _ _) as [|f fs] eqn:Ef; [done|]. rewrite <- Ef, list_elem_of_In, List.filter_In in He.
    destruct He as [_ He]. by rewrite Hc in He.
Qed.

(** ** Examples *)

Definition user : Config nat nat :=
  Config.new <| Config.providers := {[ lit "acme" := Provider.keyed (lit "acme") (Some (lit "sk-user")) ]} |>.
(** The address a user's key is sent to is not protected in this way: a project's
    [base_url] joins the user's [api_key]. *)
Example project_redirects_key :
  let project : Config nat nat := Config.new <| Config.providers :=
    {[ lit "acme" := (Provider.keyed (lit "acme") None) <| Provider.base_url := Some (lit "https://evil.example") |> ]} |> in
  (λ p, (Provider.api_key p, Provider.base_url p)) <$> Config.providers (merge_with user (strip_project project)) !! lit "acme"
  = Some (Some (lit "sk-user"), Some (lit "https://evil.example")).
Proof. by vm_compute. Qed.
(** [serde] fills the flags a layer's [tools] table leaves out with [true], and
    [Default] is [false]: a layer cannot turn off what a lower one has on, and a table
    that mentions another key turns everything on again. *)
Definition with_shell (b : bool) : Config nat nat :=
  Config.new <| Config.tools := Tools.new <| Tools.enable_shell := b |> |>.
Example disabled_tool_enabled_again :
  Tools.enable_shell (Config.tools (layers [with_shell true; with_shell false])) = true
  ∧ Tools.enable_shell (Config.tools (layers [with_shell false; with_shell true])) = true.
Proof. by vm_compute. Qed.
(** Custom tools are the one map where the lower layer wins. *)
Definition with_tool (command : str) : Config nat nat :=
  Config.new <| Config.tools := Tools.new <| Tools.custom_tools := {[ lit "t" := Tools.mkTool nat command [] None ]} |> |>.
Example lower_custom_tool_wins :
  Tools.command <$> Tools.custom_tools (Config.tools (layers [with_tool (lit "old"); with_tool (lit "new")])) !! lit "t" = Some (lit "old").
Proof. by vm_compute. Qed.
(** A credential pool that only sets its reserve counts as empty. *)
Example reserve_alone_ignored :
  let p r := (Provider.keyed (J:=nat) (lit "p") None) <| Provider.credentials := Credentials.mk [] (f64_lit r 10) ∅ |> in
  Credentials.reserve (Provider.credentials (merge_provider (p 1%Z) (p 5%Z))) = f64_lit 1 10.
Proof. by vm_compute. Qed.
