(* ===== verification/ConfigFacts.v ===== *)
(** The built-in [whycodes] agent: what its rules, merged with those of a
    configuration, let it write and run ([Config::default], [effective_permission],
    [allow_config_file_write] and [apply_config] of [agent/src/agent/mod.rs]). *)

From coqutil Require Import Datatypes.RecordSetters.
From S2P Require Import Prelude RustStr Paths Permission PermissionFacts ConfigTypes ConfigMerge.

Definition with_rules (ps : PermissionSet) (rs : list (str * PermissionAction)) : PermissionSet :=
  mkPermissionSet (allowed_tools ps) (denied_tools ps) (allow_file_writes ps) (allow_network ps) (allow_shell ps) (allowed_paths ps) rs.
Definition allow_config_file_write (ps : PermissionSet) (config_file : str) : PermissionSet :=
  with_rules ps (rules_insert (rules ps) (lit "write(" ++ replace_char config_file cBS (lit "/") ++ lit ")") PAllow).
(** The permissions of [apply_config]. *)
Definition apply_permissions {J T} (config : Config J T) (name : str) (ps : PermissionSet) (config_file : str) : PermissionSet :=
  let ps := effective_permission config ps in
  if name == lit "whycodes" then allow_config_file_write ps config_file else ps.

Lemma elem_rules_insert rs k v r : r ∈ rules_insert rs k v → r = (k, v) ∨ r ∈ rs.
Proof.
  induction rs as [|x rs IH]; cbn; [by intros ->%list_elem_of_singleton; left|].
  destruct (x.1 == k); intros [->|H]%elem_of_cons; [by left|by right; right|right; left|].
  destruct (IH H) as [->|?]; [by left|by right; right].
Qed.
Lemma elem_rules_or_insert rs k v r : r ∈ rules_or_insert rs k v → r = (k, v) ∨ r ∈ rs.
Proof. unfold rules_or_insert. destruct (rules_get rs k); [by right|]. intros [H| ->%list_elem_of_singleton]%elem_of_app; [by right|by left]. Qed.
Lemma elem_fold_rules (f : list (str * PermissionAction) → str → PermissionAction → list (str * PermissionAction)) l r :
  (∀ rs k v, r ∈ f rs k v → r = (k, v) ∨ r ∈ rs) → ∀ rs, r ∈ foldl (λ rs kv, f rs kv.1 kv.2) rs l → r ∈ l ∨ r ∈ rs.
Proof.
  intros Hf. induction l as [|[k v] l IH]; intros rs; cbn [foldl]; [by right|].
  intros [H|H]%IH; [by left; right|]. apply Hf in H as [->|H]; [left; left|by right].
Qed.
Lemma elem_effective {J T} (c : Config J T) ps r : r ∈ rules (effective_permission c ps) →
  r ∈ rules ps ∨ Config.permission c !! r.1 = Some r.2.
Proof.
  unfold effective_permission. cbn [rules].
  intros [H|H]%(elem_fold_rules rules_insert); [by left| |by intros; apply elem_rules_insert].
  apply (elem_fold_rules rules_or_insert) in H as [H|H]; [|by left|by intros; apply elem_rules_or_insert].
  right. apply elem_of_map_to_list. by destruct r.
Qed.

Lemma whycodes_rules_distinct : NoDup (rules (Agent.permission whycodes_agent)).*1.
Proof. by apply (bool_decide_unpack _); vm_compute. Qed.
Definition in_overlay (path : str) : Prop :=
  let p := trim_start_str (lit "./") path in p = lit ".whycodes" ∨ starts_with p (lit ".whycodes/") = true.
Lemma overlay_glob p : path_glob_matches (lit ".whycodes/**") p = true → in_overlay p.
Proof.
  unfold path_glob_matches, in_overlay. cbv zeta. set (q := trim_start_str (lit "./") p).
  change (trim_start_str (lit "./") (lit ".whycodes/**")) with (lit ".whycodes/**").
  change (strip_suffix (lit "/**") (lit ".whycodes/**")) with (Some (lit ".whycodes")).
  change (trim_end_matches is_slash (lit ".whycodes")) with (lit ".whycodes").
  change (_ || _) with false at 1. change (contains_char _ _) with true. cbn [negb]. cbv iota.
  rewrite orb_true_iff, bool_decide_eq_true. done.
Qed.
(** A rule that lets a path through is the overlay rule or the one for the file. *)
Lemma allowed_candidate {J T} (c : Config J T) (config_file tool p pat : str) act s :
  (∀ k, is_Some (Config.permission c !! k) → parse_path_rule k = None) →
  (pat, act) ∈ rules (apply_permissions c (lit "whycodes") (Agent.permission whycodes_agent) config_file) →
  path_tool_ok (lit "write") tool = true →
  path_candidate tool p (pat, act) = Some (s, PAllow) →
  (in_overlay p ∧ path_escapes p = false)
  ∨ ∃ t glob, parse_path_rule (lit "write(" ++ replace_char config_file cBS (lit "/") ++ lit ")") = Some (t, glob)
              ∧ path_glob_matches glob p = true.
Proof.
  intros Hc Hin Hok Hcand. unfold path_candidate in Hcand. cbn [fst snd] in Hcand.
  destruct (parse_path_rule pat) as [[rt glob]|] eqn:Ep; [|done]. cbn in Hcand.
  destruct (path_tool_ok rt tool); [|done]. destruct (path_glob_matches glob p) eqn:Eg; [|done]. cbn in Hcand. injection Hcand as _ Ha.
  unfold apply_permissions in Hin. change (lit "whycodes" == lit "whycodes") with true in Hin. cbv iota in Hin.
  cbn [allow_config_file_write with_rules rules] in Hin. apply elem_rules_insert in Hin as [[= -> ->]|Hin].
  { right. eauto. }
  apply elem_effective in Hin as [Hin|Hin]; [|by rewrite Hc in Ep; [|eexists]].
  cbn in Hin. repeat (apply elem_of_cons in Hin as [[= -> ->]|Hin]); [..|by apply elem_of_nil in Hin].
  all: vm_compute in Ep; try done; injection Ep as <- <-.
  left. change (is_broad_glob _) with true in Ha. destruct (path_escapes p); [done|]. split; [|done].
  change (path_glob_matches (lit ".whycodes/**") p = true) in Eg. exact (overlay_glob p Eg).
Qed.


(** Commands are not confined in this way: a rule for [whycodes config *] reads the whole
    line as arguments, so what is chained behind it is allowed too. *)
Example whycodes_shell_chains :
  action_for_shell (Agent.permission whycodes_agent) (lit "whycodes config path && cp /tmp/new.rs src/main.rs") = Some PAllow
  ∧ action_for_shell (Agent.permission whycodes_agent) (lit "cp /tmp/new.rs src/main.rs") = Some PDeny.
Proof. by vm_compute. Qed.

(** [apply_config] on a live agent merges into permissions that already hold the rules of
    the last configuration, which count as the agent's own: a changed rule has no effect. *)
Definition with_rule (a : PermissionAction) : Config nat nat := Config.new <| Config.permission := {[ lit "websearch" := a ]} |>.
Example reapplied_rules_stale :
  let once := apply_permissions (with_rule PAllow) (lit "build") (Agent.permission build_agent) [] in
  rules_get (rules (apply_permissions (with_rule PDeny) (lit "build") once [])) (lit "websearch") = Some PAllow.
Proof. by vm_compute. Qed.
