(* ===== verification/ConfigLoad.v ===== *)
(** Loading a configuration ([config/src/load.rs]): the global file, the project's
    overlay, rule files, [WHYCODES_*] variables, secrets in [notify], the tripwire file;
    and what [load.rs] answers about a loaded one.

    The environment is a function, a file is what reading it gives, and [toml] is a
    parameter: how a text parses to a tree and which keys it has at the top. *)

From coqutil Require Import Datatypes.RecordSetters.
From S2P Require Import Prelude RustStr Bytes Permission Network StreamRules Hooks ConfigTypes ConfigMerge.

(** ** [${VAR}] and [$VAR] *)

Section vars.
Context (env : str → option str) (is_alphanumeric : rchar → bool).

Definition name_char (c : rchar) : bool := is_alphanumeric c || (c =? chr "_")%N.
Definition dollar : rchar := chr "$".
Definition braced (name : str) : str := default (lit "${" ++ name ++ lit "}") (env name).
Definition bare (name : str) : str := default (dollar :: name) (env name).

(** Where the scan of [substitute_vars] is. *)
Inductive scan := Plain | InBraces (name : str) | InName (name : str).
Fixpoint substitute (m : scan) (s : str) : str :=
  match s with
  | [] => match m with Plain => [] | InBraces name => braced name | InName name => bare name end
  | c :: rest =>
      let plain (_ : unit) :=
        if (c =? dollar)%N then
          match rest with
          | c' :: r => if (c' =? chr "{")%N then substitute (InBraces []) r
                       else if name_char c' then substitute (InName []) rest else dollar :: substitute Plain rest
          | [] => [dollar]
          end
        else c :: substitute Plain rest in
      match m with
      | Plain => plain ()
      | InBraces name => if (c =? chr "}")%N then braced name ++ substitute Plain rest else substitute (InBraces (name ++ [c])) rest
      | InName name => if name_char c then substitute (InName (name ++ [c])) rest else bare name ++ plain ()
      end
  end.
Definition substitute_vars (value : str) : str := substitute Plain value.

Definition expand_secret (s : option str) : option str := s ≫= λ s, nonempty_opt (substitute_vars s).
Definition expand_notify_secrets {J T} (c : Config J T) : Config J T :=
  c <| Config.notify -> Notify.discord_webhook ::= expand_secret |>
    <| Config.notify -> Notify.telegram_bot_token ::= expand_secret |>
    <| Config.notify -> Notify.telegram_chat_id ::= expand_secret |>.
End vars.

(** ** Environment variables *)

Section env.
Context {J T : Type} (env : str → option str) (to_uppercase : str → str).
Notation C := (Config J T).

Definition var (name : string) : option str := env (lit name).
(** [if let Ok(val) = env::var(name) { .. }]. *)
Definition on_var {A} (name : string) (f : str → A → A) (x : A) : A := match var name with Some v => f v x | None => x end.
Definition on_int {A} (name : string) (max : N) (f : N → A → A) (x : A) : A :=
  on_var name (λ v, match parse_uint max v with Some n => f n | None => id end) x.
Arguments var _%_string.
Arguments on_var {A} _%_string _ _.
Arguments on_int {A} _%_string _ _ _.
Definition yes (v : str) : bool := is_one_of v ["1"; "true"; "yes"; "on"]%string.
Definition no (v : str) : bool := is_one_of v ["0"; "false"; "no"; "off"]%string.
Definition on_switch {A} (name : string) (f : bool → A → A) (x : A) : A :=
  on_var name (λ v, let v := to_ascii_lowercase v in if no v then f false else if yes v then f true else id) x.
Arguments on_switch {A} _%_string _ _.
Definition clamp (n lo hi : N) : N := N.max lo (N.min n hi).

Definition apply_provider_model_env (c : C) : C :=
  match var "WHYCODES_PROVIDER" with
  | Some provider_name =>
      let c :=
        match Config.providers c !! provider_name with
        | Some _ => c
        | None =>
            let api_key := match env (to_uppercase provider_name ++ lit "_API_KEY") with
                           | Some k => Some k
                           | None => match var "OPENAI_API_KEY" with Some k => Some k | None => var "ANTHROPIC_API_KEY" end
                           end in
            c <| Config.providers ::= λ m, <[ provider_name := Provider.keyed provider_name api_key ]> m |>
        end in
      match Config.default_model c, var "WHYCODES_MODEL" with
      | None, Some model_name => c <| Config.default_model := Some (Model.bare model_name provider_name) |>
      | _, _ => c
      end
  | None =>
      match var "WHYCODES_MODEL" with
      | Some model_name =>
          c <| Config.default_model := Some (match Config.default_model c with
                                            | Some m => m <| Model.model_id := model_name |>
                                            | None => Model.bare model_name []
                                            end) |>
      | None => c
      end
  end.

Definition apply_session_env (c : C) : C :=
  let c := on_int "WHYCODES_MAX_TURNS" usize_max (λ n c, c <| Config.session -> Session.max_context_tokens := n |>) c in
  let c := on_int "WHYCODES_UNDO_DEPTH" usize_max (λ n c, c <| Config.session -> Session.undo_depth := n |>) c in
  let c := on_var "WHYCODES_LOG_LEVEL" (λ v c, c <| Config.general -> General.log_level := Some v |>) c in
  let c := on_var "WHYCODES_PROJECT_DIR" (λ v c, c <| Config.general -> General.project_path := Some v |>) c in
  on_var "WHYCODES_COMPACTION_METHOD"
    (λ v c, let v := to_ascii_lowercase (trim v) in
            if is_one_of v ["auto"; "local"]%string then c <| Config.session -> Session.compaction_method := v |> else c) c.

Definition apply_security_env (c : C) : C :=
  let c := on_var "WHYCODES_SANDBOX" (λ v c, c <| Config.security -> Security.sandbox := v |>) c in
  let c := on_var "WHYCODES_SANDBOX_NETWORK" (λ v c, c <| Config.security -> Security.sandbox_network := yes (to_ascii_lowercase v) |>) c in
  let c := on_var "WHYCODES_SANDBOX_FALLBACK" (λ v c, c <| Config.security -> Security.sandbox_fallback := v |>) c in
  let c := on_var "WHYCODES_REDACT_SECRETS" (λ v c, c <| Config.security -> Security.redact_secrets := yes (to_ascii_lowercase v) |>) c in
  let c := on_var "WHYCODES_NETWORK_ALLOWLIST" (λ v c, c <| Config.security -> Security.network_allowlist := parse_domain_list v |>) c in
  let c := on_var "WHYCODES_NETWORK_DENYLIST" (λ v c, c <| Config.security -> Security.network_denylist := parse_domain_list v |>) c in
  on_var "WHYCODES_WEBSEARCH_ENGINE"
    (λ v c, if trim v == [] then c else c <| Config.websearch -> WebSearch.engine := Some (to_ascii_lowercase (trim v)) |>) c.

Definition apply_feature_env (c : C) : C :=
  let c := on_var "WHYCODES_NO_MEMORY" (λ v c, if yes (to_ascii_lowercase v) then c <| Config.memory -> Memory.enabled := false |> else c) c in
  let c := on_var "WHYCODES_NO_AUTO_UPDATE" (λ v c, if yes (to_ascii_lowercase v) then c <| Config.general -> General.auto_update := false |> else c) c in
  let c := on_switch "WHYCODES_AUTO_UPDATE" (λ b c, c <| Config.general -> General.auto_update := b |>) c in
  let c := on_var "WHYCODES_APPROVAL_MODE"
    (λ v c, match approval_parse v with Some m => c <| Config.general -> General.approval_mode := Some m |> | None => c end) c in
  let c := on_var "WHYCODES_HEADLESS_ASK"
    (λ v c, match headless_parse v with Some m => c <| Config.session -> Session.headless_ask := Some m |> | None => c end) c in
  let c := on_switch "WHYCODES_PREWALK" (λ b c, c <| Config.session -> Session.prewalk := Some b |>) c in
  on_switch "WHYCODES_MEMORY" (λ b c, c <| Config.memory -> Memory.enabled := b |>) c.

Definition apply_swarm_env (c : C) : C :=
  let c := on_switch "WHYCODES_SWARM" (λ b c, c <| Config.swarm -> Swarm.enabled := b |>) c in
  let c := on_int "WHYCODES_SWARM_MAX_AGENTS" usize_max (λ n c, c <| Config.swarm -> Swarm.max_agents := clamp n 1 8 |>) c in
  on_switch "WHYCODES_SWARM_WORKTREES" (λ b c, c <| Config.swarm -> Swarm.worktrees := b |>) c.

Definition apply_notify_env (c : C) : C :=
  let c := on_var "WHYCODES_NOTIFY_ON" (λ v c, c <| Config.notify -> Notify.on := parse_notify_on_csv v |>) c in
  let c := on_var "WHYCODES_NOTIFY_DISCORD_WEBHOOK" (λ v c, c <| Config.notify -> Notify.discord_webhook := Some v |>) c in
  let c := on_var "WHYCODES_NOTIFY_TELEGRAM_BOT_TOKEN" (λ v c, c <| Config.notify -> Notify.telegram_bot_token := Some v |>) c in
  let c := on_var "WHYCODES_NOTIFY_TELEGRAM_CHAT_ID" (λ v c, c <| Config.notify -> Notify.telegram_chat_id := Some v |>) c in
  let c := on_int "WHYCODES_NOTIFY_TIMEOUT_SECS" u64_max (λ n c, c <| Config.notify -> Notify.timeout_secs := clamp n 1 60 |>) c in
  on_var "WHYCODES_NOTIFY_DESKTOP"
    (λ v c, let v := to_ascii_lowercase (trim v) in
            if yes v then c <| Config.notify -> Notify.desktop := Some true |>
            else if no v then c <| Config.notify -> Notify.desktop := Some false |> else c) c.

Definition apply_env_overrides (c : C) : C :=
  apply_notify_env (apply_swarm_env (apply_feature_env (apply_security_env (apply_session_env (apply_provider_model_env c))))).
End env.
Arguments var _ _%_string.

(** ** Files and layers *)

Inductive file := Missing | Unreadable (e : str) | Contents (text : str).

Section load.
Context {J T : Type} (env : str → option str) (to_uppercase : str → str) (is_alphanumeric : rchar → bool).
Context (toml_config : str → result (Config J T)) (toml_has_key : str → str → bool) (toml_slop : str → result SlopConfig).
Notation C := (Config J T).

(** A [providers] table without [name] takes its key. *)
Definition fill_names (c : C) : C :=
  c <| Config.providers ::= map_imap (λ k p, Some (if Provider.name p == [] then p <| Provider.name := k |> else p)) |>.
Definition parse_global_text (content : str) : result C :=
  match toml_config content with Ok c => Ok (fill_names c) | Err e => Err e end.

Definition clear_unset_default_agent (project : C) (content : str) : C :=
  if toml_has_key content (lit "default_agent") then project else project <| Config.default_agent := [] |>.
(** The layer, and the warning about keys a project may not set. *)
Definition project_websearch_warning (path : str) (dropped : list str) : option str :=
  if dropped is [] then None
  else Some (lit "Ignoring " ++ join (lit ", ") dropped ++ lit " from project config at " ++ path
             ++ lit ": the custom search endpoint, its headers and header_env are read only from the global config.").
Definition bump_schema (c : C) : C :=
  if (Config.schema_version c <? CONFIG_SCHEMA_VERSION)%N then c <| Config.schema_version := CONFIG_SCHEMA_VERSION |> else c.
Definition parse_project_text (content path : str) : result (C * option str) :=
  match toml_config content with
  | Err e => Err e
  | Ok project =>
      let project := bump_schema (clear_unset_default_agent project content) in
      let '(websearch, dropped) := WebSearch.strip_project_only_keys (Config.websearch project) in
      Ok (project <| Config.websearch := websearch |>, project_websearch_warning path dropped)
  end.

(** [read_raw]: a missing file is the seed; an older schema is bumped (here and, best
    effort, in the file). *)
Definition read_raw (f : file) : result C :=
  match f with
  | Missing => Ok Config.seeded_openrouter
  | Unreadable e => Err e
  | Contents text => match parse_global_text text with Ok c => Ok (bump_schema c) | Err e => Err e end
  end.
Definition read_or_seed (f : file) : result C :=
  match read_raw f with Ok c => Ok (expand_notify_secrets env is_alphanumeric c) | Err e => Err e end.
(** [load_or_create]: the first run writes the seed and uses it as it is, also when the
    write fails. *)
Definition load_or_create (f : file) : result C :=
  match f with Missing => Ok Config.seeded_openrouter | _ => read_or_seed f end.

Definition load_project_layer (f : file) (path : str) : option C :=
  match f with
  | Contents text => match parse_project_text text path with Ok (c, _) => Some c | Err _ => None end
  | Missing | Unreadable _ => None
  end.
Definition apply_slop_file (f : file) (c : C) : C :=
  match f with
  | Contents text => match toml_slop text with Ok overlay => c <| Config.slop ::= λ s, slop_merge_with s overlay |> | Err _ => c end
  | Missing | Unreadable _ => c
  end.

(** Defaults, global file, project file, rule files, environment, tripwires. *)
Definition load_layered (global project slop : file) (project_path : str) (rule_files : list StreamRuleConfig) : result C :=
  match load_or_create global with
  | Err e => Err e
  | Ok global =>
      let config := merge_with Config.new global in
      let config := match load_project_layer project project_path with Some p => merge_with config p | None => config end in
      let config := config <| Config.session -> Session.stream_rules ::= λ rs, load_stream_rule_files rs rule_files |> in
      let config := apply_env_overrides env to_uppercase config in
      let config := expand_notify_secrets env is_alphanumeric config in
      Ok (apply_slop_file slop config)
  end.

(** ** Questions *)

Definition put_openrouter_api_key (trimmed : str) (c : C) : C :=
  let entry := default (Provider.keyed DEFAULT_PROVIDER None) (Config.providers c !! DEFAULT_PROVIDER) in
  let entry := if Provider.name entry == [] then entry <| Provider.name := DEFAULT_PROVIDER |> else entry in
  let entry := entry <| Provider.api_key := Some trimmed |> in
  c <| Config.providers ::= λ m, <[ DEFAULT_PROVIDER := entry ]> m |>
    <| Config.default_model ::= λ m, match m with Some m => Some m | None => Some (Model.bare DEFAULT_MODEL_ID DEFAULT_PROVIDER) end |>.
(** The configuration of the run, and the change to the global file ([update_global]). *)
Definition set_openrouter_api_key (key : str) (run global : C) : result (C * C) :=
  let trimmed := trim key in
  if trimmed == [] then Err (lit "OpenRouter API key is empty")
  else Ok (put_openrouter_api_key trimmed run, put_openrouter_api_key trimmed global).
Definition get_model (c : C) (provider model : str) : option ModelConfig :=
  List.find (λ m, (Model.provider_id m == provider) && (Model.model_id m == model)) (map_to_list (Config.models c)).*2.
Definition configured_context_window (c : C) (provider model : str) : option N :=
  match get_model c provider model ≫= Model.context_window with
  | Some w => Some w
  | None =>
      m ← Config.default_model c;
      if (Model.model_id m == model) && ((Model.provider_id m == []) || (Model.provider_id m == provider))
      then Model.context_window m else None
  end.
Definition get_agent (c : C) (name : str) : option AgentInfo := find_agent name (Config.agents c).
Definition default_agent_of (c : C) : option AgentInfo := get_agent c (Config.default_agent c).
End load.

(** ** Substitution reads what is written *)

Inductive piece := Lit (t : str) | Braced (name : str) | Bare (name : str) | Lone.
Definition print_piece (p : piece) : str :=
  match p with Lit t => t | Braced n => lit "${" ++ n ++ lit "}" | Bare n => dollar :: n | Lone => [dollar] end.
Definition print_pieces (ps : list piece) : str := mjoin (print_piece <$> ps).

Section subst_facts.
Context (env : str → option str) (is_alphanumeric : rchar → bool).
(** Of [char::is_alphanumeric]. *)
Context (brace_plain : is_alphanumeric (chr "{") = false).
Notation subst := (substitute env is_alphanumeric).

Definition expand_piece (p : piece) : str :=
  match p with Lit t => t | Braced n => braced env n | Bare n => bare env n | Lone => [dollar] end.
Definition no_name_next (rest : str) : Prop := match rest with c :: _ => name_char is_alphanumeric c = false | [] => True end.
Fixpoint separated (ps : list piece) : Prop :=
  match ps with
  | [] => True
  | p :: ps =>
      separated ps ∧
      match p with
      | Lit t => dollar ∉ t
      | Braced n => chr "}" ∉ n
      | Bare n => n ≠ [] ∧ Forall (λ c, name_char is_alphanumeric c = true) n ∧ no_name_next (print_pieces ps)
      | Lone => no_name_next (print_pieces ps) ∧ head (print_pieces ps) ≠ Some (chr "{")
      end
  end.

Lemma subst_lit t r : dollar ∉ t → subst Plain (t ++ r) = t ++ subst Plain r.
Proof.
  induction t as [|c t IH]; intros H; [done|]. apply not_elem_of_cons in H as [Hc Ht]. cbn.
  destruct (c =? dollar)%N eqn:E; [apply N.eqb_eq in E; congruence|]. by rewrite IH.
Qed.
Lemma subst_braces n : ∀ a r, chr "}" ∉ n → subst (InBraces a) (n ++ chr "}" :: r) = braced env (a ++ n) ++ subst Plain r.
Proof.
  induction n as [|c n IH]; intros a r H; [by rewrite app_nil_r|].
  apply not_elem_of_cons in H as [Hc Hn]. cbn [app substitute].
  destruct (c =? chr "}")%N eqn:E; [apply N.eqb_eq in E; congruence|]. rewrite IH by done. by rewrite <- app_assoc.
Qed.
Lemma subst_name n : ∀ a r, Forall (λ c, name_char is_alphanumeric c = true) n → no_name_next r →
  subst (InName a) (n ++ r) = bare env (a ++ n) ++ subst Plain r.
Proof.
  induction n as [|c n IH]; intros a r H Hr.
  - rewrite app_nil_r. cbn [app]. destruct r as [|c r]; [cbn; by rewrite app_nil_r|]. cbn [no_name_next] in Hr.
    cbn [substitute]. by rewrite Hr.
  - apply Forall_cons in H as [Hc Hn]. cbn [app substitute]. rewrite Hc, IH by done. by rewrite <- app_assoc.
Qed.
Lemma subst_dollar c r : subst Plain (dollar :: c :: r) =
  if (c =? chr "{")%N then subst (InBraces []) r
  else if name_char is_alphanumeric c then subst (InName []) (c :: r) else dollar :: subst Plain (c :: r).
Proof. reflexivity. Qed.

(** A setting with variables expands piece by piece: text stays, [${NAME}] and
    [$NAME] become the variable's value once, or stay as written when it is not set, and
    a [$] before neither stays. *)
Theorem substitute_pieces (ps : list piece) : separated ps →
  substitute_vars env is_alphanumeric (print_pieces ps) = mjoin (expand_piece <$> ps).
Proof.
  unfold substitute_vars. induction ps as [|p ps IH]; intros Hs; [done|]. destruct Hs as [Hs Hp].
  change (print_pieces (p :: ps)) with (print_piece p ++ print_pieces ps). change (mjoin (expand_piece <$> p :: ps)) with (expand_piece p ++ mjoin (expand_piece <$> ps)).
  destruct p as [t|n|n|]; cbn [print_piece expand_piece]; rewrite <- (IH Hs).
  - by apply subst_lit.
  - change (lit "${" ++ n ++ lit "}") with (dollar :: chr "{" :: (n ++ [chr "}"])).
    cbn [app]. rewrite subst_dollar. rewrite N.eqb_refl, <- app_assoc. by apply (subst_braces n []).
  - destruct Hp as (Hn & Hall & Hnext). destruct n as [|c n]; [done|]. cbn [app]. rewrite subst_dollar.
    apply Forall_cons in Hall as Hc. destruct Hc as [Hc _]. rewrite Hc.
    destruct (c =? chr "{")%N eqn:E.
    { apply N.eqb_eq in E. subst c. unfold name_char in Hc. by rewrite brace_plain in Hc. }
    by apply (subst_name (c :: n) []).
  - destruct Hp as [Hnext Hb]. cbn [app]. destruct (print_pieces ps) as [|c r] eqn:Ep; [done|].
    rewrite subst_dollar. cbn [no_name_next] in Hnext. rewrite Hnext. cbn [head] in Hb.
    destruct (c =? chr "{")%N eqn:E; [|done]. apply N.eqb_eq in E. by rewrite E in Hb.
Qed.
End subst_facts.

Definition sample_env (name : str) : option str :=
  if name == lit "HOOK" then Some (lit "https://discord.com/api/webhooks/1/a$b") else if name == lit "b" then Some (lit "!") else None.
Lemma substitute_pieces_witness :
  substitute_vars sample_env is_ascii_alphanumeric (lit "x=${HOOK} $none $") = lit "x=https://discord.com/api/webhooks/1/a$b $none $".
Proof.
  refine (eq_trans (substitute_pieces sample_env is_ascii_alphanumeric eq_refl
    [Lit (lit "x="); Braced (lit "HOOK"); Lit (lit " "); Bare (lit "none"); Lit (lit " "); Lone] _) _); [|by vm_compute].
  - cbn. split_and!; try done; try (by intros H; vm_compute in H; repeat (apply elem_of_cons in H as [H|H]; [done|]); by apply elem_of_nil in H).
    repeat constructor.
Defined.
(** A brace that is never closed is not left as it is: one is added. *)
Example unclosed_brace : substitute_vars (λ _, None) is_ascii_alphanumeric (lit "a${b") = lit "a${b}".
Proof. by vm_compute. Qed.

(** ** Loading *)

Section load_facts.
Context {J T : Type} (env : str → option str) (to_uppercase : str → str) (is_alphanumeric : rchar → bool).
Context (toml_config : str → result (Config J T)) (toml_has_key : str → str → bool) (toml_slop : str → result SlopConfig).
Notation load := (load_layered env to_uppercase is_alphanumeric toml_config toml_has_key toml_slop).
Notation user_config := (load_or_create env is_alphanumeric toml_config).

Lemma on_var_keeps {A B} name (f : str → A → A) (g : A → B) : (∀ v x, g (f v x) = g x) → ∀ x, g (on_var env name f x) = g x.
Proof. intros H x. unfold on_var. by destruct (var env name). Qed.
Lemma on_int_keeps {A B} name max (f : N → A → A) (g : A → B) : (∀ n x, g (f n x) = g x) → ∀ x, g (on_int env name max f x) = g x.
Proof. intros H. apply on_var_keeps. intros v x. by destruct (parse_uint max v). Qed.
Lemma on_switch_keeps {A B} name (f : bool → A → A) (g : A → B) : (∀ b x, g (f b x) = g x) → ∀ x, g (on_switch env name f x) = g x.
Proof. intros H. apply on_var_keeps. intros v x. cbv zeta. destruct (no _); [done|]. by destruct (yes _). Qed.
(** The steps of an overlay that leave what [g] reads alone. *)
Ltac keeps g := cbv zeta; repeat first
  [ rewrite (on_int_keeps _ _ _ g) by done | rewrite (on_switch_keeps _ _ g) by done
  | rewrite (on_var_keeps _ _ g) by (intros ??; cbv zeta; repeat case_match; done) ].

(** The environment's part of the search settings. *)
Lemma env_websearch (c : Config J T) :
  Config.websearch (apply_env_overrides env to_uppercase c) =
  match var env "WHYCODES_WEBSEARCH_ENGINE" with
  | Some v => if trim v == [] then Config.websearch c
              else (Config.websearch c) <| WebSearch.engine := Some (to_ascii_lowercase (trim v)) |>
  | None => Config.websearch c
  end.
Proof.
  unfold apply_env_overrides, apply_notify_env. keeps (@Config.websearch J T).
  unfold apply_swarm_env. keeps (@Config.websearch J T).
  unfold apply_feature_env. keeps (@Config.websearch J T).
  assert (H : Config.websearch (apply_session_env env (apply_provider_model_env env to_uppercase c)) = Config.websearch c).
  { unfold apply_session_env. keeps (@Config.websearch J T). unfold apply_provider_model_env. by repeat case_match. }
  unfold apply_security_env. cbv zeta.
  match goal with |- Config.websearch (on_var _ _ _ ?x) = _ =>
    assert (Hx : Config.websearch x = Config.websearch c) by (keeps (@Config.websearch J T); exact H); generalize dependent x end.
  clear H. intros x Hx. unfold on_var. destruct (var env _) as [v|]; [|done]. destruct (trim v == []); [done|].
  transitivity ((Config.websearch x) <| WebSearch.engine := Some (to_ascii_lowercase (trim v)) |>); [done|by rewrite Hx].
Qed.

Lemma expand_keeps (c : Config J T) : Config.websearch (expand_notify_secrets env is_alphanumeric c) = Config.websearch c.
Proof. done. Qed.
Lemma slop_keeps f (c : Config J T) : Config.websearch (apply_slop_file toml_slop f c) = Config.websearch c.
Proof. destruct f as [| |text]; cbn; [done..|]. by destruct (toml_slop text). Qed.
Lemma project_layer_stripped f path p : load_project_layer toml_config toml_has_key f path = Some p → ∃ q : Config J T, Config.websearch p = Config.websearch (strip_project q).
Proof.
  unfold load_project_layer, parse_project_text. destruct f as [| |text]; [done..|]. destruct (toml_config text) as [q|]; [|done].
  cbn. intros [= <-]. eexists. cbn. reflexivity.
Qed.
Lemma merge_websearch (a b b' : Config J T) : Config.websearch b = Config.websearch b' → Config.websearch (merge_with a b) = Config.websearch (merge_with a b').
Proof. cbn. by intros ->. Qed.

(** C11: whatever the repository's file, rule files and tripwires hold, loading gives an
    error exactly when the user's own file cannot be read or parsed; the custom search
    endpoint is the user's; and the custom engine is used only if the user's file or the
    user's environment chose it. *)
Theorem load_trusts_user_only (global project slop : file) (path : str) (rule_files : list StreamRuleConfig) :
  match load global project slop path rule_files with
  | Err e => user_config global = Err e
  | Ok config =>
      ∃ user, user_config global = Ok user ∧
        WebSearch.custom (Config.websearch config) = WebSearch.custom (Config.websearch user) ∧
        (uses_custom (Config.websearch config) → uses_custom (Config.websearch user)
           ∨ ∃ v, var env "WHYCODES_WEBSEARCH_ENGINE" = Some v ∧ WebSearch.is_custom_engine (to_ascii_lowercase (trim v)) = true)
  end.
Proof.
  unfold load_layered. destruct (user_config global) as [user|e]; [|done]. exists user. split; [done|].
  set (merged := match load_project_layer _ _ _ _ with Some p => _ | None => _ end).
  assert (Hm : WebSearch.custom (Config.websearch merged) = WebSearch.custom (Config.websearch user)
               ∧ (uses_custom (Config.websearch merged) → uses_custom (Config.websearch user))).
  { assert (H0 : Config.websearch (merge_with Config.new user) = Config.websearch user).
    { cbn. unfold websearch_merge_with, over. cbn. destruct (Config.websearch user) as [[e|] [|f fs] [cu|]]; done. }
    unfold merged. destruct (load_project_layer _ _ project path) as [p|] eqn:Ep; [|by rewrite H0].
    apply project_layer_stripped in Ep as [q Hq]. rewrite (merge_websearch _ _ _ Hq).
    destruct (merge_search_kept (merge_with Config.new user) q) as [H1 H2]. rewrite H0 in H1, H2. done. }
  rewrite slop_keeps, expand_keeps, env_websearch.
  change (Config.websearch (merged <| Config.session -> Session.stream_rules ::= λ rs, load_stream_rule_files rs rule_files |>))
    with (Config.websearch merged).
  destruct (var env "WHYCODES_WEBSEARCH_ENGINE") as [v|] eqn:Ev; [|tauto].
  destruct (trim v == []); [tauto|]. destruct Hm as [Hm1 Hm2]. split; [exact Hm1|].
  intros [(e & He & Hc)|(e & He & Hc)].
  - right. exists v. split; [done|]. cbn in He. injection He as <-. exact Hc.
  - left. apply Hm2. right. exists e. split; [exact He|exact Hc].
Qed.
(** Limits set by the environment are within bounds. *)
Lemma env_limits (c : Config J T) :
  (∀ v n, var env "WHYCODES_SWARM_MAX_AGENTS" = Some v → parse_uint usize_max v = Some n →
     (1 ≤ Swarm.max_agents (Config.swarm (apply_env_overrides env to_uppercase c)) ≤ 8)%N)
  ∧ (∀ v n, var env "WHYCODES_NOTIFY_TIMEOUT_SECS" = Some v → parse_uint u64_max v = Some n →
     (1 ≤ Notify.timeout_secs (Config.notify (apply_env_overrides env to_uppercase c)) ≤ 60)%N).
Proof.
  assert (Hc : ∀ n lo hi, (lo ≤ hi → lo ≤ clamp n lo hi ≤ hi)%N) by (unfold clamp; lia).
  unfold apply_env_overrides. split; intros v n Hv Hn.
  - unfold apply_notify_env. keeps (λ c : Config J T, Swarm.max_agents (Config.swarm c)).
    unfold apply_swarm_env. keeps (λ c : Config J T, Swarm.max_agents (Config.swarm c)).
    unfold on_int, on_var. rewrite Hv, Hn. by apply Hc.
  - unfold apply_notify_env. keeps (λ c : Config J T, Notify.timeout_secs (Config.notify c)).
    match goal with |- context [on_int _ _ _ _ ?x] => generalize x end. intros x. unfold on_int, on_var. rewrite Hv, Hn. by apply Hc.
Qed.
End load_facts.

(** The user's file is expanded when it is read and once more after the layers: a [$] in
    the value of a variable is taken for another variable. *)
Example secrets_expanded_twice :
  let c : Config nat nat := Config.new <| Config.notify -> Notify.discord_webhook := Some (lit "${HOOK}") |> in
  let loaded := load_layered sample_env id is_ascii_alphanumeric (λ _, Ok c) (λ _ _, true) (λ _, Err []) (Contents []) Missing Missing [] [] in
  (Notify.discord_webhook (Config.notify (expand_notify_secrets sample_env is_ascii_alphanumeric c)),
   match loaded with Ok c => Notify.discord_webhook (Config.notify c) | Err _ => None end)
  = (Some (lit "https://discord.com/api/webhooks/1/a$b"), Some (lit "https://discord.com/api/webhooks/1/a!")).
Proof. by vm_compute. Qed.
