(* ===== verification/Commands.v ===== *)
(** Slash commands and prompt overlays ([config/src/load.rs], [CustomCommandConfig::render]
    of [types.rs]): reading them from markdown files, which file wins, and expanding a
    template, with the shell commands written in it.

    A directory is the list of its entries in the order the file system gives them; the
    shell is a parameter over an abstract world. *)

From coqutil Require Import Datatypes.RecordSetters.
From S2P Require Import Prelude RustStr Bytes F32 LineBuffer ConfigTypes ConfigMerge.

(** ** Markdown with a header *)

Definition trim_matches (c : rchar) (s : str) : str := trim_end_matches (N.eqb c) (trim_start_matches (N.eqb c) s).
(** A value: trimmed, double quotes off both ends, then single ones. *)
Definition front_value (v : str) : str := trim_matches cSQ (trim_matches cDQ (trim v)).
Definition is_true (v : str) : bool := is_one_of (to_ascii_lowercase v) ["true"; "yes"; "1"]%string.
Definition front_key (c : CustomCommandConfig) (line : str) : CustomCommandConfig :=
  match split_once (trim line) (lit ":") with
  | None => c
  | Some (k, v) =>
      let k := trim k in
      let v := front_value v in
      if k == lit "description" then c <| CustomCommand.description := Some v |>
      else if k == lit "agent" then c <| CustomCommand.agent := Some v |>
      else if k == lit "model" then c <| CustomCommand.model := Some v |>
      else if k == lit "subtask" then c <| CustomCommand.subtask := Some (is_true v) |>
      else c
  end.
Definition parse_command_markdown (content : str) : option CustomCommandConfig :=
  let content := trim content in
  if negb (starts_with content (lit "---")) then Some (CustomCommand.mk content None None None None)
  else
    rest ← strip_prefix (lit "---") content;
    '(front, body) ← split_once rest (lit "---");
    Some (foldl front_key (CustomCommand.mk (trim body) None None None None) (lines (trim front))).

Definition strip_overlay_frontmatter (content : str) : str :=
  let trimmed := trim content in
  match strip_prefix (lit "---") trimmed with
  | Some rest => match split_once rest (lit "---") with Some (_, body) => trim body | None => trimmed end
  | None => trimmed
  end.

(** ** Directories *)

(** [None] parts of a name are not UTF-8; [None] contents could not be read. *)
Record dir_file := mkFile { stem : option str; extension : option str; contents : option str }.
Inductive entry := EFile (f : dir_file) | EDir (name : option str) (entries : list entry).
(** [None]: the directory cannot be listed. *)
Definition dir : Type := option (list entry).

Definition is_md (f : dir_file) : bool := bool_decide (extension f = Some (lit "md")).
Definition load_command (into : gmap str CustomCommandConfig) (e : entry) : gmap str CustomCommandConfig :=
  match e with
  | EDir _ _ => into
  | EFile f =>
      if negb (is_md f) then into
      else match contents f ≫= parse_command_markdown with
           | Some cmd => <[ default (lit "cmd") (stem f) := cmd ]> into
           | None => into
           end
  end.
Definition load_commands_from_dir (into : gmap str CustomCommandConfig) (d : dir) : gmap str CustomCommandConfig :=
  foldl load_command into (default [] d).

Definition read_overlay_markdown (f : dir_file) : option str :=
  content ← contents f;
  let body := strip_overlay_frontmatter content in
  if body == [] then None else Some body.
(** The stem and the text of a markdown file that has both. *)
Definition overlay_file (f : dir_file) : option (str * str) :=
  if negb (is_md f) then None else stem ← stem f; body ← read_overlay_markdown f; Some (stem, body).
Definition load_model_overlay (into : SystemPromptOverlays) (e : entry) : SystemPromptOverlays :=
  match e with
  | EFile f => match overlay_file f with
               | Some (stem, body) => into <| Overlays.models ::= insert (overlay_key stem) body |>
               | None => into
               end
  | EDir _ _ => into
  end.
(** Below the directory of a provider. *)
Definition load_provider_overlay (provider : str) (into : SystemPromptOverlays) (e : entry) : SystemPromptOverlays :=
  match e with
  | EFile f => match overlay_file f with
               | Some (stem, body) => into <| Overlays.models ::= insert (overlay_key provider ++ lit "/" ++ overlay_key stem) body |>
               | None => into
               end
  | EDir _ _ => into
  end.
Definition load_overlay (into : SystemPromptOverlays) (e : entry) : SystemPromptOverlays :=
  match e with
  | EFile f => match overlay_file f with
               | Some (stem, body) => into <| Overlays.providers ::= insert (overlay_key stem) body |>
               | None => into
               end
  | EDir None _ => into
  | EDir (Some name) entries =>
      if eq_ignore_ascii_case name (lit "models") then foldl load_model_overlay into entries
      else foldl (load_provider_overlay name) into entries
  end.
Definition load_prompt_overlays (into : SystemPromptOverlays) (d : dir) : SystemPromptOverlays :=
  foldl load_overlay into (default [] d).

(** ** The commands that come with the program *)

Definition review_template : str :=
  join [cLF] [
    ulit "Review the current working tree changes for this project.";
    [];
    ulit "1. Run git_status and git_diff (unstaged and staged) to see what changed.";
    ulit "2. Read only the files that matter for the diff.";
    ulit "3. Produce a structured review:";
    ulit "   - Summary (2–4 sentences)";
    ulit "   - Strengths";
    ulit "   - Issues (severity: high / medium / low) with file:line when possible";
    ulit "   - Suggested follow-ups";
    ulit "4. Do NOT write or edit files unless the user explicitly asked to apply fixes.";
    ulit "5. Prefer read-only tools (git_*, read, grep, glob, list).";
    [];
    ulit "Extra context from the user: $ARGUMENTS"].
Definition security_review_template : str :=
  join [cLF] [
    ulit "Perform a security-focused review of the current git changes.";
    [];
    ulit "1. Inspect git_status / git_diff and relevant files.";
    ulit "2. Look for: secrets/credentials, injection (SQL/command/path), authz gaps,";
    ulit "   unsafe shell, SSRF, insecure deserialization, dependency risks, XSS.";
    ulit "3. Output:";
    ulit "   - Executive summary";
    ulit "   - Findings table: severity | location | issue | remediation";
    ulit "   - What looks safe";
    ulit "4. Do not modify files unless asked. Prefer read-only tools.";
    [];
    ulit "Focus / notes: $ARGUMENTS"].
Definition commit_template : str :=
  join [cLF] [
    ulit "Prepare a git commit for the current changes.";
    [];
    ulit "1. Run git_status and git_diff (include staged if any).";
    ulit "2. Draft a concise commit message (subject ≤72 chars; body if needed).";
    ulit "3. If the user asked to commit (or says " ++ [cDQ] ++ ulit "commit now" ++ [cDQ] ++ ulit " / " ++ [cDQ] ++ ulit "yes" ++ [cDQ] ++ ulit "), stage relevant";
    ulit "   files and use git_commit. Otherwise show the proposed message and ask.";
    ulit "4. Never force-push, never amend published history, never commit secrets (.env, keys).";
    [];
    ulit "User notes: $ARGUMENTS"].
Definition builtin_prompt_commands : list (str * CustomCommandConfig) :=
  [(lit "review", CustomCommand.mk review_template (Some (lit "AI code review of git changes")) (Some (lit "plan")) None None);
   (lit "security-review", CustomCommand.mk security_review_template (Some (lit "Security-focused review of changes")) (Some (lit "plan")) None None);
   (lit "commit", CustomCommand.mk commit_template (Some (lit "Draft a git commit message from the diff")) None None None)].

Definition ensure_builtin_prompt_commands (commands : gmap str CustomCommandConfig) : gmap str CustomCommandConfig :=
  foldl (λ m nc, match m !! nc.1 with Some _ => m | None => <[ nc.1 := nc.2 ]> m end) commands builtin_prompt_commands.

(** [Config::load_command_files] and [load_prompt_files]: the user's directory, then the
    project's; commands also from [.opencode]. *)
Definition load_prompt_files {J T} (c : Config J T) (user project : dir) : Config J T :=
  c <| Config.system_prompt_overlays ::= λ o, load_prompt_overlays (load_prompt_overlays o user) project |>.
Definition load_command_files {J T} (c : Config J T) (user project opencode user_prompts project_prompts : dir) : Config J T :=
  let c := c <| Config.commands ::= λ m,
    ensure_builtin_prompt_commands (load_commands_from_dir (load_commands_from_dir (load_commands_from_dir m user) project) opencode) |> in
  load_prompt_files c user_prompts project_prompts.

(** ** Expanding a template *)

(** [out.replace("$1", parts[0])], [$2], ... *)
Fixpoint replace_args (i : N) (parts : list str) (out : str) : str :=
  match parts with [] => out | p :: parts => replace_args (i + 1)%N parts (replace out (lit "$" ++ digits i) p) end.
Definition substituted (template args : str) : str :=
  replace_args 1 (split_whitespace args) (replace template (lit "$ARGUMENTS") args).

(** How the shell ends: it cannot be started, or with output. *)
Inductive shell_end := NotStarted (e : str) | Output (out err : list N).
Section render.
Context {World : Type} (sh : str → World → shell_end * World).

Definition run_inline_shell (cmd : str) (w : World) : str * World :=
  let '(e, w) := sh cmd w in
  (match e with
   | Output out err => from_utf8_lossy out ++ from_utf8_lossy err
   | NotStarted e => lit "(command failed: " ++ e ++ lit ")"
   end, w).

Definition open : str := [chr "!"; cBT].
(** [while let Some(start) = out.find("!`")]: [None] is fuel, [Some None] a panic. *)
Fixpoint expand_shell (fuel : nat) (out : str) (w : World) : option (option (str * World)) :=
  match fuel with
  | O => None
  | S fuel =>
      match find out open with
      | None => Some (Some (out, w))
      | Some start =>
          match slice_from out (start + 2) with
          | None => Some None
          | Some rest =>
              match find_char rest (N.eqb cBT) with
              | None => Some (Some (out, w))
              | Some rel_end =>
                  match slice out (start + 2) (start + 2 + rel_end), slice_to out start, slice_from out (start + 2 + rel_end + 1) with
                  | Some cmd, Some before, Some after =>
                      let '(output, w) := run_inline_shell cmd w in expand_shell fuel (before ++ output ++ after) w
                  | _, _, _ => Some None
                  end
              end
          end
      end
  end.
Definition render (fuel : nat) (c : CustomCommandConfig) (args : str) (w : World) : option (option (str * World)) :=
  expand_shell fuel (substituted (CustomCommand.template c) args) w.

(** One round of the loop, in pieces. *)
Lemma first_open a cmd b : cBT ∉ a → cBT ∉ cmd →
  find (a ++ open ++ cmd ++ cBT :: b) open = Some (byte_len a).
Proof.
  intros Ha Hc. apply find_Some. exists a, (cmd ++ cBT :: b). split_and!; [done|done|].
  intros a' b' E. destruct (Nat.le_gt_cases (length a) (length a')) as [?|Hl]; [done|]. exfalso.
  apply (f_equal (lookup (length a' + 1))) in E. rewrite (lookup_app_r a') in E by lia.
  replace (length a' + 1 - length a') with 1 in E by lia. cbn in E.
  destruct (Nat.eq_dec (length a' + 1) (length a)) as [He|He].
  - rewrite lookup_app_r in E by lia. rewrite He, Nat.sub_diag in E. by cbn in E.
  - rewrite lookup_app_l in E by lia. apply Ha. by apply list_elem_of_lookup_2 in E.
Qed.
Lemma expand_shell_step fuel a cmd b w : find (a ++ open ++ cmd ++ cBT :: b) open = Some (byte_len a) → cBT ∉ cmd →
  expand_shell (S fuel) (a ++ open ++ cmd ++ cBT :: b) w =
  let '(output, w) := run_inline_shell cmd w in expand_shell fuel (a ++ output ++ b) w.
Proof.
  intros Ha Hc. cbn [expand_shell]. rewrite Ha.
  assert (H2 : byte_len a + 2 = byte_len (a ++ open)) by (unfold byte_len, utf8; rewrite fmap_app, join_app, length_app; done).
  assert (E : slice_from (a ++ open ++ cmd ++ cBT :: b) (byte_len a + 2) = Some (cmd ++ cBT :: b)).
  { rewrite H2, app_assoc. apply slice_from_app. }
  rewrite E. rewrite find_char_app; [|by apply Forall_forall; intros x Hx; apply N.eqb_neq; intros <-|done].
  assert (E2 : slice (a ++ open ++ cmd ++ cBT :: b) (byte_len a + 2) (byte_len a + 2 + byte_len cmd) = Some cmd).
  { rewrite H2, app_assoc. apply slice_app. }
  rewrite E2, slice_to_app.
  assert (E3 : slice_from (a ++ open ++ cmd ++ cBT :: b) (byte_len a + 2 + byte_len cmd + 1) = Some b).
  { replace (byte_len a + 2 + byte_len cmd + 1) with (byte_len (a ++ open ++ cmd ++ [cBT])).
    - replace (a ++ open ++ cmd ++ cBT :: b) with ((a ++ open ++ cmd ++ [cBT]) ++ b) by (by rewrite <- !app_assoc). apply slice_from_app.
    - unfold byte_len, utf8 in *. rewrite !fmap_app, !join_app, !length_app in *. cbn in *. lia. }
  by rewrite E3.
Qed.

(** A template as texts, each followed by a command, and the text behind; and what a
    reader expects of it: each command once, from left to right. *)
Definition print_template (ps : list (str * str)) (tail : str) : str :=
  foldr (λ p r, p.1 ++ open ++ p.2 ++ cBT :: r) tail ps.
Fixpoint run_template (ps : list (str * str)) (tail : str) (w : World) : str * World :=
  match ps with
  | [] => (tail, w)
  | p :: ps =>
      let '(output, w) := run_inline_shell p.2 w in
      let '(r, w) := run_template ps tail w in
      (p.1 ++ output ++ r, w)
  end.
Context (quiet : ∀ cmd w, cBT ∉ (run_inline_shell cmd w).1).

Lemma no_open a : cBT ∉ a → find a open = None.
Proof. intros Ha. apply find_None. intros (x & y & ->). apply Ha. set_solver. Qed.
Lemma expand_template ps : ∀ a tail w fuel,
  cBT ∉ a → cBT ∉ tail → Forall (λ p, cBT ∉ p.1 ∧ cBT ∉ p.2) ps → length ps < fuel →
  expand_shell fuel (a ++ print_template ps tail) w = Some (Some (a ++ (run_template ps tail w).1, (run_template ps tail w).2)).
Proof.
  induction ps as [|[t c] ps IH]; intros a tail w fuel Ha Ht Hps Hf; destruct fuel as [|fuel]; cbn in Hf; [lia| |lia|].
  - cbn [expand_shell print_template foldr]. by rewrite no_open by (by apply not_elem_of_app).
  - apply Forall_cons in Hps as [[Hp Hc] Hps]. cbn [print_template foldr fst snd]. fold (print_template ps tail).
    assert (Hat : cBT ∉ a ++ t) by (by apply not_elem_of_app).
    rewrite app_assoc, expand_shell_step by (by try apply first_open). cbn [run_template fst snd].
    pose proof (quiet c w) as Hq. destruct (run_inline_shell c w) as [o w1]. cbn [fst] in Hq.
    rewrite (app_assoc (a ++ t)), IH; [|by apply not_elem_of_app|done|done|lia].
    destruct (run_template ps tail w1) as [r w2]. cbn. by rewrite <- !app_assoc.
Qed.

Definition backticks (s : str) : nat := length (List.filter (N.eqb cBT) s).
Lemma backticks_app a b : backticks (a ++ b) = backticks a + backticks b.
Proof. unfold backticks. by rewrite List.filter_app, length_app. Qed.
Lemma backticks_none a : cBT ∉ a → backticks a = 0.
Proof.
  unfold backticks. induction a as [|c a IH]; intros H; [done|]. apply not_elem_of_cons in H as [Hc H].
  cbn [List.filter]. destruct (N.eqb_spec cBT c); [done|]. by apply IH.
Qed.
Lemma expand_shell_ends n : ∀ out w fuel, backticks out ≤ n → n < fuel → ∃ s w', expand_shell fuel out w = Some (Some (s, w')).
Proof.
  induction n as [n IH] using lt_wf_ind. intros out w fuel Hn Hf. destruct fuel as [|fuel]; [lia|].
  destruct (find out open) as [start|] eqn:E; [|cbn [expand_shell]; rewrite E; eauto].
  pose proof E as E'. apply find_Some in E' as (a & b & -> & -> & _).
  destruct (decide (cBT ∈ b)) as [Hb|Hb].
  - apply list_elem_of_split_l in Hb as (cmd & b' & -> & Hcmd).
    rewrite expand_shell_step by done. pose proof (quiet cmd w) as Hq. destruct (run_inline_shell cmd w) as [o w1]. cbn [fst] in Hq.
    rewrite !backticks_app in Hn. change (backticks open) with 1 in Hn.
    change (cBT :: b') with ([cBT] ++ b') in Hn. rewrite backticks_app in Hn. change (backticks [cBT]) with 1 in Hn.
    apply (IH (backticks (a ++ o ++ b'))); [|done|]; rewrite !backticks_app, (backticks_none o) by done; lia.
  - cbn [expand_shell]. rewrite E.
    assert (H2 : byte_len a + 2 = byte_len (a ++ open)) by (unfold byte_len, utf8; rewrite fmap_app, join_app, length_app; done).
    rewrite H2, app_assoc, slice_from_app. rewrite find_char_none; [eauto|].
    apply Forall_forall. intros x Hx. apply N.eqb_neq. intros <-. done.
Qed.
End render.

(** C35: when no output holds a backtick, expanding a text always ends, without a panic
    and in at most one round per backtick; and a template of texts and shell commands
    becomes the texts with the outputs in between, each command run once, from left to
    right. *)
Theorem expand_shell_spec {World} (sh : str → World → shell_end * World) :
  (∀ cmd w, cBT ∉ (run_inline_shell sh cmd w).1) →
  (∀ out w, ∃ s w', expand_shell sh (S (backticks out)) out w = Some (Some (s, w')))
  ∧ ∀ ps tail w, cBT ∉ tail → Forall (λ p, cBT ∉ p.1 ∧ cBT ∉ p.2) ps →
      expand_shell sh (S (length ps)) (print_template ps tail) w = Some (Some (run_template sh ps tail w)).
Proof.
  intros quiet. split.
  - intros out w. apply (expand_shell_ends sh quiet (backticks out)); lia.
  - intros ps tail w Ht Hps. rewrite (expand_template sh quiet ps [] tail w) by (done || lia || apply not_elem_of_nil).
    by destruct (run_template sh ps tail w).
Qed.
(** A shell for examples: every command prints [ok]; the world is the commands run. *)
Definition ok_shell (cmd : str) (w : list str) : shell_end * list str := (Output (lit "ok") [], w ++ [cmd]).
Lemma expand_shell_spec_witness :
  expand_shell ok_shell 3 (lit "a !`date` b !`git log` c") [] = Some (Some (lit "a ok b ok c", [lit "date"; lit "git log"])).
Proof.
  assert (quiet : ∀ cmd w, cBT ∉ (run_inline_shell ok_shell cmd w).1).
  { intros cmd w. change (run_inline_shell ok_shell cmd w).1 with (lit "ok"). by apply (bool_decide_unpack _); vm_compute. }
  refine (eq_trans (proj2 (expand_shell_spec ok_shell quiet) [(lit "a ", lit "date"); (lit " b ", lit "git log")] (lit " c") [] _ _) _);
    [by apply (bool_decide_unpack _); vm_compute| |by vm_compute].
  repeat constructor; by apply (bool_decide_unpack _); vm_compute.
Defined.

(** What a command prints is searched for commands again: a page, a file or a log that
    holds one has it run, and one that prints itself never ends. *)
Definition cat_shell (cmd : str) (w : list str) : shell_end * list str :=
  (Output (if cmd == lit "cat notes" then lit "see !`rm -rf x`" else []) [], w ++ [cmd]).
Example output_is_run : expand_shell cat_shell 5 (lit "!`cat notes`") [] = Some (Some (lit "see ", [lit "cat notes"; lit "rm -rf x"])).
Proof. by vm_compute. Qed.
Definition self_shell (cmd : str) (w : unit) : shell_end * unit := (Output (open ++ cmd ++ [cBT]) [], w).
Lemma self_printing_never_ends fuel : expand_shell self_shell fuel (lit "!`x`") () = None.
Proof. induction fuel as [|fuel IH]; [done|]. exact IH. Qed.
(** [$1] is replaced inside [$10]; and arguments are put in before the commands are
    looked for, so a command among them runs. *)
Example tenth_argument : substituted (lit "$10") (lit "a b c d e f g h i j") = lit "a0".
Proof. by vm_compute. Qed.
Example argument_is_run :
  render ok_shell 3 (CustomCommand.mk (lit "Review: $ARGUMENTS") None None None None) (lit "!`reboot`") [] = Some (Some (lit "Review: ok", [lit "reboot"])).
Proof. by vm_compute. Qed.
(** The header ends at the first three dashes, also inside a value. *)
Example dashes_end_header : parse_command_markdown (lit "---" ++ [cLF] ++ lit "description: a --- b" ++ [cLF] ++ lit "---" ++ [cLF] ++ lit "body")
  = Some (CustomCommand.mk (lit "b" ++ [cLF] ++ lit "---" ++ [cLF] ++ lit "body") (Some (lit "a")) None None None).
Proof. by vm_compute. Qed.

(** ** Which file wins *)

(** What the entry gives the name, if anything. *)
Definition command_of (name : str) (e : entry) : option CustomCommandConfig :=
  match e with
  | EFile f => if is_md f && (default (lit "cmd") (stem f) == name) then contents f ≫= parse_command_markdown else None
  | EDir _ _ => None
  end.
Definition last_some {A} (xs : list (option A)) : option A := foldl (over some) None xs.
Lemma load_commands_lookup d into name :
  load_commands_from_dir into d !! name = match last_some (command_of name <$> default [] d) with Some c => Some c | None => into !! name end.
Proof.
  unfold load_commands_from_dir, last_some. generalize (default [] d) as es. intros es. revert into.
  induction es as [|e es IH] using rev_ind; intros into; [done|].
  rewrite fmap_app, !foldl_app. cbn [foldl fmap list_fmap]. set (m := foldl load_command into es) in *.
  assert (Hm : m !! name = match foldl (over some) None (command_of name <$> es) with Some c => Some c | None => into !! name end) by apply IH.
  destruct e as [f|n es']; cbn [load_command command_of]; [|by rewrite Hm].
  destruct (is_md f); cbn [negb andb]; [|by rewrite Hm].
  destruct (contents f ≫= parse_command_markdown) as [c|].
  - destruct (default (lit "cmd") (stem f) == name) eqn:E.
    + apply bool_decide_eq_true in E as <-. by rewrite lookup_insert_eq.
    + apply bool_decide_eq_false in E. rewrite lookup_insert_ne by done. by rewrite Hm.
  - destruct (_ == name); by rewrite Hm.
Qed.
Lemma builtin_lookup l name : ∀ m : gmap str CustomCommandConfig,
  foldl (λ m nc, match m !! nc.1 with Some _ => m | None => <[ nc.1 := nc.2 ]> m end) m l !! name =
  match m !! name with Some c => Some c | None => snd <$> List.find (λ nc, nc.1 == name) l end.
Proof.
  induction l as [|nc l IH]; intros m; cbn [foldl List.find]; [by destruct (m !! name)|]. rewrite IH.
  destruct (nc.1 == name) eqn:E.
  - apply bool_decide_eq_true in E as <-. destruct (m !! nc.1) as [c|] eqn:Em; [by rewrite Em|]. by rewrite lookup_insert_eq.
  - apply bool_decide_eq_false in E. destruct (m !! nc.1); [done|]. by rewrite lookup_insert_ne.
Qed.

(** A slash command is the last readable markdown file of its name in [.opencode],
    else in the project's directory, else in the user's, else the configuration's entry,
    else the built-in one; files that are not markdown, unreadable or without an end of
    their header count for nothing, and loading changes nothing but commands and prompts. *)
Theorem command_files_precedence {J T} (c : Config J T) (user project opencode user_prompts project_prompts : dir) (name : str) :
  let loaded := load_command_files c user project opencode user_prompts project_prompts in
  let file d := last_some (command_of name <$> default [] d) in
  Config.commands loaded !! name =
    last_some [snd <$> List.find (λ nc, nc.1 == name) builtin_prompt_commands; Config.commands c !! name; file user; file project; file opencode]
  ∧ loaded = c <| Config.commands := Config.commands loaded |> <| Config.system_prompt_overlays := Config.system_prompt_overlays loaded |>.
Proof.
  cbv zeta. split; [|done]. cbn [load_command_files]. unfold load_command_files, load_prompt_files.
  change (Config.commands _) with (ensure_builtin_prompt_commands (load_commands_from_dir (load_commands_from_dir (load_commands_from_dir (Config.commands c) user) project) opencode)) at 1.
  unfold ensure_builtin_prompt_commands. rewrite builtin_lookup, !load_commands_lookup.
  destruct (last_some (command_of name <$> default [] opencode)), (last_some (command_of name <$> default [] project)),
    (last_some (command_of name <$> default [] user)), (Config.commands c !! name); try done.
  by destruct (List.find _ _).
Qed.
