(* ===== verification/ConfigCheck.v ===== *)
(** Validation of a configuration ([config/src/validate.rs]): the issues it finds, which
    of them are errors, and when there are none.

    [fmt_f64] prints an [f64], [to_uppercase] is Unicode's; the environment is a function. *)

From Stdlib Require Import SpecFloat.
From coqutil Require Import Datatypes.RecordSetters.
From S2P Require Import Prelude RustStr Bytes F32 Permission StreamRules ConfigTypes ConfigMerge ConfigLoad.

Section check.
Context {J T : Type} (env : str → option str) (to_uppercase : str → str) (fmt_f64 : f64 → str).
Notation C := (Config J T).

Definition issue_if (b : bool) (text : str) : list str := if b then [text] else [].
Definition quote (s : str) : str := [cSQ] ++ s ++ [cSQ].

Definition key_in_env (name : str) : bool :=
  let set v := bool_decide (is_Some (env v)) in
  set (to_uppercase name ++ lit "_API_KEY") || set (lit "WHYCODES_" ++ to_uppercase name ++ lit "_API_KEY")
  || set (lit "OPENAI_API_KEY") || set (lit "ANTHROPIC_API_KEY").
Definition local_url (url : str) : bool := contains url (lit "localhost") || contains url (lit "127.0.0.1").
Definition provider_issues (np : str * ProviderConfig J) : list str :=
  let '(name, provider) := np in
  issue_if (negb (some (Provider.api_key provider)) && negb (key_in_env name))
    (lit "Provider " ++ quote name ++ lit " has no api_key configured and no matching environment variable found ("
     ++ to_uppercase name ++ lit "_API_KEY, OPENAI_API_KEY, or ANTHROPIC_API_KEY).")
  ++ match Provider.base_url provider with
     | Some url => issue_if (local_url url)
         (lit "Provider " ++ quote name ++ lit " base_url points to localhost (" ++ url
          ++ lit "). This is fine for local development but will not work in production.")
     | None => []
     end.
Definition collect_provider_issues (c : C) : list str :=
  let providers := map_to_list (Config.providers c) in
  issue_if ((providers == []) && negb (some (Config.default_model c)))
    (lit "No providers configured and no default model set. Configure at least one provider or set WHYCODES_PROVIDER / WHYCODES_MODEL.")
  ++ match Config.default_model c with
     | Some dm =>
         issue_if ((Model.provider_id dm == []) && negb (providers == []))
           (lit "Default model " ++ quote (Model.model_id dm) ++ lit " has no provider_id but " ++ digits (N.of_nat (length providers))
            ++ lit " provider(s) are configured. Specify a provider_id for the default model.")
         ++ issue_if (Model.model_id dm == []) (lit "Default model has an empty model_id.")
     | None => []
     end
  ++ mjoin (provider_issues <$> providers).

Definition given (s : option str) : bool := match s with Some s => negb (trim s == []) | None => false end.
(** [None]: a panic inside the URL check. *)
Definition collect_notify_issues (n : NotifyConfig) : option (list str) :=
  discord ← match Notify.discord_webhook n with
            | Some url => if trim url == [] then Some [] else
                ok ← is_discord_webhook_url url;
                Some (issue_if (negb ok)
                  (ulit "notify.discord_webhook is set but is not a Discord Incoming Webhook URL (https://discord.com/api/webhooks/… or https://discordapp.com/api/webhooks/…)."))
            | None => Some []
            end;
  Some (discord
    ++ issue_if (negb (bool_decide (given (Notify.telegram_bot_token n) = given (Notify.telegram_chat_id n))))
         (lit "Telegram notify needs both notify.telegram_bot_token and notify.telegram_chat_id (or WHYCODES_NOTIFY_TELEGRAM_BOT_TOKEN / WHYCODES_NOTIFY_TELEGRAM_CHAT_ID).")
    ++ issue_if ((Notify.timeout_secs n =? 0)%N || (60 <? Notify.timeout_secs n)%N)
         (lit "notify.timeout_secs is " ++ digits (Notify.timeout_secs n) ++ ulit " (expected 1–60).")
    ++ mjoin ((λ event, issue_if (negb (some (notify_event_parse event)))
         (lit "notify.on contains unknown event " ++ quote event ++ lit ". Expected turn_done and/or need_input.")) <$> Notify.on n)).

Definition outside_unit (x : f64) : bool := SFltb x (f64_of_Z 0) || SFltb (f64_of_Z 1) x.
Definition collect_slop_issues (s : SlopConfig) : list str :=
  issue_if (outside_unit (Slop.verbosity s)) (lit "slop.verbosity is " ++ fmt_f64 (Slop.verbosity s) ++ ulit " (expected 0–1).")
  ++ issue_if (outside_unit (Slop.erosion s)) (lit "slop.erosion is " ++ fmt_f64 (Slop.erosion s) ++ ulit " (expected 0–1).")
  ++ issue_if (Slop.hotspots s =? 0)%N (ulit "slop.hotspots is 0 (expected ≥ 1).").

Definition collect_session_issues (s : SessionConfig) : list str :=
  issue_if (Session.max_context_tokens s =? 0)%N (lit "session.max_context_tokens is set to 0. This will disable context.")
  ++ match Session.compaction_buffer_percent s with
     | Some p => issue_if (negb ((1 <=? p) && (p <=? 90))%N)
                   (lit "session.compaction_buffer_percent is " ++ digits p ++ ulit " (expected 1–90).")
     | None => []
     end
  ++ issue_if (30000 <? Session.race_after_ms s)%N
       (lit "session.race_after_ms is " ++ digits (Session.race_after_ms s) ++ lit " (>30s). First-token race will wait a long time.")
  ++ issue_if (600 <? Session.stream_retry_secs s)%N
       (lit "session.stream_retry_secs is " ++ digits (Session.stream_retry_secs s)
        ++ lit " (>600s). A dropped stream will be retried for a long time.")
  ++ issue_if (negb (is_one_of (to_ascii_lowercase (trim (Session.response_cache s)))
                      ["auto"; "on"; "true"; "1"; "off"; "false"; "0"; "none"]%string))
       (lit "session.response_cache is " ++ quote (Session.response_cache s) ++ lit "; expected auto or off.").

Definition collect_agent_issues (c : C) : list str :=
  issue_if (negb (full (Config.agents c))) (lit "No agents configured. At least one agent is recommended for proper operation.")
  ++ issue_if (full (Config.default_agent c) && negb (existsb (λ a, Agent.name a == Config.default_agent c) (Config.agents c)))
       (lit "Default agent " ++ quote (Config.default_agent c) ++ lit " not found in the agents list.").

Definition collect_issues (c : C) : option (list str) :=
  notify ← collect_notify_issues (Config.notify c);
  Some (collect_provider_issues c ++ notify ++ collect_slop_issues (Config.slop c)
        ++ collect_session_issues (Config.session c) ++ collect_agent_issues c).
Definition is_warning_only (issue : str) : bool := contains issue (lit "localhost") || contains issue (lit "127.0.0.1").
Definition validation_errors (c : C) : option (list str) :=
  List.filter (λ i, negb (is_warning_only i)) <$> collect_issues c.
Definition report_issues (issues : list str) : result unit :=
  match List.filter (λ i, negb (is_warning_only i)) issues with
  | [] => Ok ()
  | [e] => Err e
  | errors => Err (join (lit "; ") errors)
  end.
Definition validate (c : C) : outcome unit := report_issues <$> collect_issues c.
End check.

(** ** When there is nothing to report *)

Section facts.
Context {J T : Type} (env : str → option str) (to_uppercase : str → str) (fmt_f64 : f64 → str).
Implicit Types c : Config J T.

Lemma is_discord_total url : is_Some (is_discord_webhook_url url).
Proof.
  unfold is_discord_webhook_url. cbv zeta. destruct (negb (starts_with _ _)); [done|].
  destruct (Network.host_from_url_total (trim url)) as [h ->]. cbn. destruct h as [h|e]; [|done].
  destruct (_ && _); [done|]. set (rest := default _ _).
  pose proof (find_char_spec rest (N.eqb (chr "/"))) as H. destruct (find_char rest _) as [j|]; cbn [default].
  - destruct H as (a & x & b & -> & <- & _). rewrite slice_from_app. by eexists.
  - replace (slice_from rest (byte_len rest)) with (Some (@nil rchar)); [by eexists|].
    symmetry. apply slice_from_Some. exists rest. by rewrite app_nil_r.
Qed.

(** A configuration as the checks want it, but for the addresses of providers. *)
Record right (c : Config J T) : Prop := {
  valid_some : Config.providers c ≠ ∅ ∨ is_Some (Config.default_model c);
  valid_model : ∀ m, Config.default_model c = Some m →
    Model.model_id m ≠ [] ∧ (Model.provider_id m ≠ [] ∨ Config.providers c = ∅);
  valid_providers : ∀ k p, Config.providers c !! k = Some p →
    is_Some (Provider.api_key p) ∨ key_in_env env to_uppercase k = true;
  valid_discord : ∀ url, Notify.discord_webhook (Config.notify c) = Some url → trim url ≠ [] → is_discord_webhook_url url = Some true;
  valid_telegram : given (Notify.telegram_bot_token (Config.notify c)) = given (Notify.telegram_chat_id (Config.notify c));
  valid_timeout : (1 ≤ Notify.timeout_secs (Config.notify c) ≤ 60)%N;
  valid_events : ∀ e, e ∈ Notify.on (Config.notify c) → is_Some (notify_event_parse e);
  valid_slop : outside_unit (Slop.verbosity (Config.slop c)) = false ∧ outside_unit (Slop.erosion (Config.slop c)) = false
    ∧ Slop.hotspots (Config.slop c) ≠ 0%N;
  valid_tokens : Session.max_context_tokens (Config.session c) ≠ 0%N;
  valid_buffer : ∀ p, Session.compaction_buffer_percent (Config.session c) = Some p → (1 ≤ p ≤ 90)%N;
  valid_delays : (Session.race_after_ms (Config.session c) ≤ 30000)%N ∧ (Session.stream_retry_secs (Config.session c) ≤ 600)%N;
  valid_cache : is_one_of (to_ascii_lowercase (trim (Session.response_cache (Config.session c))))
    ["auto"; "on"; "true"; "1"; "off"; "false"; "0"; "none"]%string = true;
  valid_agents : Config.agents c ≠ [];
  valid_default_agent : Config.default_agent c = [] ∨ ∃ a, a ∈ Config.agents c ∧ Agent.name a = Config.default_agent c }.

(** No provider is at a local address. *)
Definition remote (c : Config J T) : Prop :=
  ∀ k p url, Config.providers c !! k = Some p → Provider.base_url p = Some url → local_url url = false.

(** *** Texts that mention no local address *)

Definition quiet (s : str) : Prop := ¬ infix_of (lit "localhost") s ∧ ¬ infix_of (lit "127.0.0.1") s.
(** The names and values that issues quote mention none. *)
Record quiet_names (c : Config J T) : Prop := {
  quiet_model : ∀ m, Config.default_model c = Some m → quiet (Model.model_id m);
  quiet_providers : ∀ k p, Config.providers c !! k = Some p → quiet k ∧ quiet (to_uppercase k);
  quiet_events : ∀ e, e ∈ Notify.on (Config.notify c) → quiet e;
  quiet_slop : quiet (fmt_f64 (Slop.verbosity (Config.slop c))) ∧ quiet (fmt_f64 (Slop.erosion (Config.slop c)));
  quiet_cache : quiet (Session.response_cache (Config.session c));
  quiet_agent : quiet (Config.default_agent c) }.

Lemma quiet_warning i : is_warning_only i = false ↔ quiet i.
Proof.
  unfold is_warning_only, quiet. rewrite orb_false_iff, <- !not_true_iff_false, !contains_true. done.
Qed.
Definition delimiter (c : rchar) : bool := negb (existsb (N.eqb c) (lit "localhost127.0")).
Lemma infix_at_delimiter (p a : str) (c : rchar) (b : str) : c ∉ p → infix_of p (a ++ c :: b) → infix_of p a ∨ infix_of p (c :: b) .
Proof.
  intros Hc (x & y & E). apply app_eq_inv in E as [(k & -> & Ek)|(k & -> & ->)].
  - apply app_eq_inv in Ek as [(k' & -> & Ek)|(k' & -> & _)]; [|left; by exists x, k'].
    destruct k' as [|d k']; [left; exists x, []; by rewrite !app_nil_r|].
    injection Ek as <- _. destruct Hc. apply elem_of_app. right. left.
  - right. by exists k, y.
Qed.
Lemma quiet_app a b : quiet a → quiet b →
  option_map delimiter (last a) = Some true ∨ option_map delimiter (head b) = Some true → quiet (a ++ b).
Proof.
  intros [A1 A2] [B1 B2] Hd.
  destruct a as [|c a _] using rev_ind; [done|]. destruct b as [|d b]; [by rewrite app_nil_r|]. rewrite last_snoc in Hd. cbn [head option_map] in Hd.
  assert (∀ p, p = lit "localhost" ∨ p = lit "127.0.0.1" → infix_of p ((a ++ [c]) ++ d :: b) → infix_of p (a ++ [c]) ∨ infix_of p (d :: b)) as H.
  { intros p Hp Hi. assert (∀ x, delimiter x = true → x ∉ p) as Hx.
    { intros x Hx Hin. unfold delimiter in Hx. rewrite negb_true_iff, existsb_false_iff in Hx.
      assert (x ∈ lit "localhost127.0") as Hin'; [|apply Hx in Hin'; by rewrite N.eqb_refl in Hin'].
      assert (Forall (λ y, y ∈ lit "localhost127.0") p) as Hall; [|rewrite Forall_forall in Hall; by apply Hall].
      destruct Hp as [-> | ->]; apply (bool_decide_unpack _); vm_compute; exact I. }
    destruct Hd as [[= Hd]|[= Hd]]; apply Hx in Hd.
    - rewrite <- app_assoc in Hi. cbn [app] in Hi. destruct (infix_at_delimiter p a c (d :: b) Hd Hi) as [(x & y & E)|(x & y & E)].
      + left. exists x, (y ++ [c]). by rewrite E, <- !app_assoc.
      + destruct x as [|e x]; [|right; exists x, y; by injection E].
        destruct p as [|q p]; [right; by exists [], (d :: b)|]. cbn in E. injection E as -> _. destruct Hd. left.
    - exact (infix_at_delimiter p (a ++ [c]) d b Hd Hi). }
  split; intros Hi; apply H in Hi as [?|?]; auto.
Qed.
Lemma quiet_const s : is_warning_only s = false → quiet s.
Proof. by rewrite quiet_warning. Qed.
Lemma quiet_digits n : quiet (digits n).
Proof.
  assert (∀ (p : str) (c : rchar), c ∈ p → is_ascii_digit c = false → ¬ infix_of p (digits n)) as H.
  { intros p c Hc Hd (x & y & E). pose proof (digits_all n) as Hall. rewrite E in Hall.
    apply Forall_app in Hall as [_ [Hall _]%Forall_app]. rewrite Forall_forall in Hall. apply Hall in Hc. congruence. }
  split; [apply (H _ (chr "l"))|apply (H _ (chr "."))]; try reflexivity; apply (bool_decide_unpack _); vm_compute; exact I.
Qed.
Lemma last_quote s : last (quote s) = Some cSQ.
Proof. unfold quote. by rewrite app_assoc, last_snoc. Qed.
Lemma quiet_quote s : quiet s → quiet (quote s).
Proof.
  intros Hs. unfold quote. apply quiet_app; [by apply quiet_const| |by left].
  apply quiet_app; [done|by apply quiet_const|by right].
Qed.

Lemma issue_if_nil b text : issue_if b text = [] ↔ b = false.
Proof. by destruct b. Qed.
Lemma app_nil {A} (a b : list A) : a ++ b = [] ↔ a = [] ∧ b = [].
Proof. split; [apply app_eq_nil|by intros [-> ->]]. Qed.
Lemma mjoin_nil {A B} (f : A → list B) l : mjoin (f <$> l) = [] ↔ ∀ x, x ∈ l → f x = [].
Proof.
  induction l as [|y l IH]; cbn; [split; [by intros _ x ?%elem_of_nil|done]|].
  change (mjoin (f y :: (f <$> l))) with (f y ++ mjoin (f <$> l)). rewrite app_nil, IH. set_solver.
Qed.
Lemma some_true {A} (x : option A) : some x = true ↔ is_Some x.
Proof. destruct x; split; try done; by intros [? ?]. Qed.
Lemma full_true {A} (x : list A) : full x = true ↔ x ≠ [].
Proof. by destruct x. Qed.

Lemma provider_issues_nil np : provider_issues env to_uppercase np = [] ↔
  (is_Some (Provider.api_key (J:=J) np.2) ∨ key_in_env env to_uppercase np.1 = true) ∧ ∀ url, Provider.base_url np.2 = Some url → local_url url = false.
Proof.
  destruct np as [k p]. cbn [provider_issues fst snd]. rewrite app_nil, issue_if_nil, andb_false_iff, !negb_false_iff, some_true.
  destruct (Provider.base_url p) as [url|]; [rewrite issue_if_nil|]; naive_solver.
Qed.
Lemma provider_part_all c : collect_provider_issues env to_uppercase c = [] ↔
  (Config.providers c ≠ ∅ ∨ is_Some (Config.default_model c))
  ∧ (∀ m, Config.default_model c = Some m → Model.model_id m ≠ [] ∧ (Model.provider_id m ≠ [] ∨ Config.providers c = ∅))
  ∧ (∀ k p, Config.providers c !! k = Some p →
      (is_Some (Provider.api_key p) ∨ key_in_env env to_uppercase k = true) ∧ ∀ url, Provider.base_url p = Some url → local_url url = false).
Proof.
  unfold collect_provider_issues. rewrite !app_nil, issue_if_nil, mjoin_nil, andb_false_iff, negb_false_iff, some_true, bool_decide_eq_false.
  rewrite map_to_list_empty_iff.
  assert (H : (∀ x, x ∈ map_to_list (Config.providers c) → provider_issues env to_uppercase x = []) ↔
    ∀ k p, Config.providers c !! k = Some p →
      (is_Some (Provider.api_key p) ∨ key_in_env env to_uppercase k = true) ∧ ∀ url, Provider.base_url p = Some url → local_url url = false).
  { setoid_rewrite provider_issues_nil. split.
    - intros H k p Hk. apply (H (k, p)). by apply elem_of_map_to_list.
    - intros H [k p] Hk. apply elem_of_map_to_list in Hk. by apply H. }
  rewrite H. destruct (Config.default_model c) as [m|].
  - rewrite app_nil, !issue_if_nil, andb_false_iff, negb_false_iff, !bool_decide_eq_false, bool_decide_eq_true, map_to_list_empty_iff. naive_solver.
  - naive_solver.
Qed.
Lemma notify_part n : ∃ issues, collect_notify_issues n = Some issues ∧ (issues = [] ↔
  (∀ url, Notify.discord_webhook n = Some url → trim url ≠ [] → is_discord_webhook_url url = Some true)
  ∧ given (Notify.telegram_bot_token n) = given (Notify.telegram_chat_id n)
  ∧ (1 ≤ Notify.timeout_secs n ≤ 60)%N
  ∧ ∀ e, e ∈ Notify.on n → is_Some (notify_event_parse e)).
Proof.
  assert (H : ∃ d, (match Notify.discord_webhook n with
            | Some url => if trim url == [] then Some [] else
                ok ← is_discord_webhook_url url;
                Some (issue_if (negb ok)
                  (ulit "notify.discord_webhook is set but is not a Discord Incoming Webhook URL (https://discord.com/api/webhooks/… or https://discordapp.com/api/webhooks/…)."))
            | None => Some [] end) = Some d ∧
     (d = [] ↔ ∀ url, Notify.discord_webhook n = Some url → trim url ≠ [] → is_discord_webhook_url url = Some true)).
  { destruct (Notify.discord_webhook n) as [url|]; [|by exists []].
    destruct (trim url == []) eqn:E; [apply bool_decide_eq_true in E; exists []; naive_solver|]. apply bool_decide_eq_false in E.
    destruct (is_discord_total url) as [ok Hok]. rewrite Hok. cbn. eexists. split; [done|]. rewrite issue_if_nil, negb_false_iff.
    split; [by intros -> u [= <-] _|]. intros H. specialize (H url eq_refl E). congruence. }
  destruct H as (d & Hd & Hd'). unfold collect_notify_issues. rewrite Hd. cbn. eexists. split; [done|].
  rewrite !app_nil, !issue_if_nil, mjoin_nil, Hd', negb_false_iff, bool_decide_eq_true, orb_false_iff, N.eqb_neq, N.ltb_ge.
  setoid_rewrite issue_if_nil. setoid_rewrite negb_false_iff. setoid_rewrite some_true.
  split; intros (H1 & H2 & H3 & H4); (split_and!; [done|done|lia|lia|done]).
Qed.
Lemma slop_part s : collect_slop_issues fmt_f64 s = [] ↔
  outside_unit (Slop.verbosity s) = false ∧ outside_unit (Slop.erosion s) = false ∧ Slop.hotspots s ≠ 0%N.
Proof. unfold collect_slop_issues. rewrite !app_nil, !issue_if_nil, N.eqb_neq. done. Qed.
Lemma session_part s : collect_session_issues s = [] ↔
  Session.max_context_tokens s ≠ 0%N
  ∧ (∀ p, Session.compaction_buffer_percent s = Some p → (1 ≤ p ≤ 90)%N)
  ∧ (Session.race_after_ms s ≤ 30000)%N ∧ (Session.stream_retry_secs s ≤ 600)%N
  ∧ is_one_of (to_ascii_lowercase (trim (Session.response_cache s))) ["auto"; "on"; "true"; "1"; "off"; "false"; "0"; "none"]%string = true.
Proof.
  unfold collect_session_issues. rewrite !app_nil, !issue_if_nil, N.eqb_neq, !N.ltb_ge, negb_false_iff.
  destruct (Session.compaction_buffer_percent s) as [q|]; [|naive_solver].
  rewrite issue_if_nil, negb_false_iff, andb_true_iff, !N.leb_le. naive_solver.
Qed.
Lemma agents_part c : collect_agent_issues c = [] ↔
  Config.agents c ≠ [] ∧ (Config.default_agent c = [] ∨ ∃ a, a ∈ Config.agents c ∧ Agent.name a = Config.default_agent c).
Proof.
  unfold collect_agent_issues. rewrite app_nil, !issue_if_nil, negb_false_iff, full_true, andb_false_iff, negb_false_iff, existsb_true_iff.
  setoid_rewrite bool_decide_eq_true. by destruct (Config.default_agent c); cbn; naive_solver.
Qed.

Lemma provider_part c : collect_provider_issues env to_uppercase c = [] ↔
  ((Config.providers c ≠ ∅ ∨ is_Some (Config.default_model c))
   ∧ (∀ m, Config.default_model c = Some m → Model.model_id m ≠ [] ∧ (Model.provider_id m ≠ [] ∨ Config.providers c = ∅))
   ∧ ∀ k p, Config.providers c !! k = Some p → is_Some (Provider.api_key p) ∨ key_in_env env to_uppercase k = true)
  ∧ remote c.
Proof. rewrite provider_part_all. unfold remote. naive_solver. Qed.

(** *** Errors: what is left of the issues *)

Notation errors := (List.filter (λ i, negb (is_warning_only i))).
Lemma errors_app a b : errors (a ++ b) = errors a ++ errors b.
Proof. apply List.filter_app. Qed.
Lemma errors_quiet l : Forall quiet l → errors l = l.
Proof. induction 1 as [|i l Hi _ IH]; [done|]. cbn. apply quiet_warning in Hi. by rewrite Hi, IH. Qed.
Lemma errors_nil l : l = [] → errors l = [].
Proof. by intros ->. Qed.
Lemma errors_silent l : Forall (λ i, is_warning_only i = true) l → errors l = [].
Proof. induction 1 as [|i l Hi _ IH]; [done|]. cbn. by rewrite Hi. Qed.
Lemma Forall_issue_if b text : quiet text → Forall quiet (issue_if b text).
Proof. intros H. destruct b; repeat constructor; apply H. Qed.
Lemma Forall_mjoin {A} (P : str → Prop) (f : A → list str) l : (∀ x, x ∈ l → Forall P (f x)) → Forall P (mjoin (f <$> l)).
Proof.
  induction l as [|x l IH]; intros H; [constructor|]. change (mjoin (f <$> x :: l)) with (f x ++ mjoin (f <$> l)).
  apply Forall_app. split; [apply H; left|apply IH; intros y Hy; apply H; by right].
Qed.

Ltac quiet_text :=
  first [ assumption | apply quiet_digits | apply quiet_const; vm_compute; reflexivity | apply quiet_quote; assumption
        | apply quiet_app; [quiet_text|quiet_text|first [left; reflexivity|right; reflexivity|left; rewrite last_quote; reflexivity]] ].
Ltac quiet_issues := repeat (apply Forall_app; split); try (apply Forall_issue_if; quiet_text).

Lemma errors_mjoin {A} (f : A → list str) l : errors (mjoin (f <$> l)) = mjoin ((λ x, errors (f x)) <$> l).
Proof.
  induction l as [|x l IH]; [done|]. change (errors (f x ++ mjoin (f <$> l)) = errors (f x) ++ mjoin ((λ x, errors (f x)) <$> l)).
  by rewrite errors_app, IH.
Qed.
(** The note about a local address is never an error. *)
Lemma errors_provider np : ∃ text, errors (provider_issues env to_uppercase (J:=J) np) =
    errors (issue_if (negb (some (Provider.api_key np.2)) && negb (key_in_env env to_uppercase np.1)) text)
  ∧ (quiet np.1 → quiet (to_uppercase np.1) → quiet text).
Proof.
  destruct np as [k p]. cbn [provider_issues fst snd]. eexists. rewrite errors_app. split.
  - rewrite <- (app_nil_r (errors (issue_if _ _))) at 2. f_equal. destruct (Provider.base_url p) as [url|]; [|done].
    apply errors_silent. destruct (local_url url) eqn:El; repeat constructor. unfold local_url in El.
    unfold is_warning_only. apply orb_true_iff in El as [El|El]; apply contains_true in El as (x & y & ->); apply orb_true_iff;
      [left|right]; apply contains_true; unfold infix_of;
      match goal with |- ∃ a b, ?A ++ ?B ++ ?D ++ (x ++ ?P ++ y) ++ ?E = a ++ ?P ++ b => exists (A ++ B ++ D ++ x), (y ++ E) end;
      by rewrite <- !app_assoc.
  - intros H1 H2. quiet_text.
Qed.

Lemma provider_errors c :
  ((Config.providers c ≠ ∅ ∨ is_Some (Config.default_model c))
   ∧ (∀ m, Config.default_model c = Some m → Model.model_id m ≠ [] ∧ (Model.provider_id m ≠ [] ∨ Config.providers c = ∅))
   ∧ (∀ k p, Config.providers c !! k = Some p → is_Some (Provider.api_key p) ∨ key_in_env env to_uppercase k = true) →
   errors (collect_provider_issues env to_uppercase c) = [])
  ∧ (quiet_names c → errors (collect_provider_issues env to_uppercase c) = [] →
   (Config.providers c ≠ ∅ ∨ is_Some (Config.default_model c))
   ∧ (∀ m, Config.default_model c = Some m → Model.model_id m ≠ [] ∧ (Model.provider_id m ≠ [] ∨ Config.providers c = ∅))
   ∧ (∀ k p, Config.providers c !! k = Some p → is_Some (Provider.api_key p) ∨ key_in_env env to_uppercase k = true)).
Proof.
  unfold collect_provider_issues. rewrite !errors_app, errors_mjoin. set (ps := Config.providers c). split.
  - intros (H1 & H2 & H3). rewrite !app_nil. split_and!.
    + apply errors_nil, issue_if_nil. rewrite andb_false_iff, negb_false_iff, some_true, bool_decide_eq_false, map_to_list_empty_iff. done.
    + apply errors_nil. destruct (Config.default_model c) as [m|]; [|done]. destruct (H2 m eq_refl) as [H4 H5].
      rewrite app_nil, !issue_if_nil, andb_false_iff, negb_false_iff, !bool_decide_eq_false, bool_decide_eq_true, map_to_list_empty_iff. done.
    + apply mjoin_nil. intros [k p] Hk%elem_of_map_to_list. destruct (errors_provider (k, p)) as (text & -> & _). apply errors_nil, issue_if_nil.
      cbn [fst snd]. rewrite andb_false_iff, !negb_false_iff, some_true. by apply H3.
  - intros Hq. rewrite !app_nil, mjoin_nil. intros (H1 & H2 & H3). split_and!.
    + rewrite errors_quiet in H1 by (apply Forall_issue_if; quiet_text). revert H1.
      rewrite issue_if_nil, andb_false_iff, negb_false_iff, some_true, bool_decide_eq_false, map_to_list_empty_iff. done.
    + intros m Em. rewrite Em in H2. pose proof (quiet_model _ Hq m Em) as Hm. rewrite errors_quiet in H2 by quiet_issues.
      revert H2. rewrite app_nil, !issue_if_nil, andb_false_iff, negb_false_iff, !bool_decide_eq_false, bool_decide_eq_true, map_to_list_empty_iff. tauto.
    + intros k p Hk. destruct (quiet_providers _ Hq k p Hk) as [Hk1 Hk2]. apply elem_of_map_to_list in Hk. specialize (H3 (k, p) Hk). cbn beta in H3.
      destruct (errors_provider (k, p)) as (text & E & Ht). rewrite E, errors_quiet in H3 by (apply Forall_issue_if, Ht; done). revert H3.
      rewrite issue_if_nil, andb_false_iff, !negb_false_iff, some_true. done.
Qed.
Lemma notify_quiet n issues : (∀ e, e ∈ Notify.on n → quiet e) → collect_notify_issues n = Some issues → Forall quiet issues.
Proof.
  intros He. unfold collect_notify_issues.
  assert (∀ o : option (list str), (match o with Some d => Forall quiet d | None => True end) →
    ∀ rest, Forall quiet rest → (discord ← o; Some (discord ++ rest)) = Some issues → Forall quiet issues) as H.
  { intros [d|] Hd rest Hr; [|done]. intros [= <-]. by apply Forall_app. }
  apply H.
  - destruct (Notify.discord_webhook n) as [url|]; [|constructor]. destruct (trim url == []); [constructor|].
    destruct (is_discord_webhook_url url); [|done]. cbn [mbind option_bind]. quiet_issues.
  - quiet_issues. apply Forall_mjoin. intros e Hin%He. apply Forall_issue_if. quiet_text.
Qed.
Lemma rest_quiet c : quiet_names c →
  Forall quiet (collect_slop_issues fmt_f64 (Config.slop c) ++ collect_session_issues (Config.session c) ++ collect_agent_issues c).
Proof.
  intros [_ _ _ [Hs1 Hs2] Hc Ha]. unfold collect_slop_issues, collect_session_issues, collect_agent_issues. quiet_issues.
  destruct (Session.compaction_buffer_percent _); [quiet_issues|constructor].
Qed.

(** C37: validation never panics; it reports nothing exactly about a configuration that
    meets every condition. Its message is that of all issues but those whose text
    mentions a local address. It succeeds on a configuration that meets every condition
    but for providers at local addresses; and, where no name or value that issues quote
    mentions a local address, on no other. (A name that does hides its error, see
    [local_name_hides_error].) *)
Theorem validate_spec c :
  ∃ issues, collect_issues env to_uppercase fmt_f64 c = Some issues
    ∧ (issues = [] ↔ right c ∧ remote c)
    ∧ (let told := List.filter (λ i, negb (contains i (lit "localhost") || contains i (lit "127.0.0.1"))) issues in
       validate env to_uppercase fmt_f64 c = Some (if told is [] then Ok () else Err (join (lit "; ") told)))
    ∧ (right c → validate env to_uppercase fmt_f64 c = Some (Ok ()))
    ∧ (quiet_names c → validate env to_uppercase fmt_f64 c = Some (Ok ()) → right c).
Proof.
  destruct (notify_part (Config.notify c)) as (ni & Hn & Hn'). unfold validate, collect_issues. rewrite Hn. cbn [mbind option_bind fmap option_fmap option_map].
  eexists. split; [done|].
  set (rest := collect_slop_issues fmt_f64 (Config.slop c) ++ collect_session_issues (Config.session c) ++ collect_agent_issues c).
  assert (rest = [] ↔ _) as Hrest by (unfold rest; rewrite !app_nil, slop_part, session_part, agents_part; reflexivity).
  assert (right c ↔ ((Config.providers c ≠ ∅ ∨ is_Some (Config.default_model c))
     ∧ (∀ m, Config.default_model c = Some m → Model.model_id m ≠ [] ∧ (Model.provider_id m ≠ [] ∨ Config.providers c = ∅))
     ∧ (∀ k p, Config.providers c !! k = Some p → is_Some (Provider.api_key p) ∨ key_in_env env to_uppercase k = true))
     ∧ ni = [] ∧ rest = []) as Hright.
  { rewrite Hn', Hrest. split; [intros []; destruct_and!; by split_and!|intros; destruct_and!; by split]. }
  assert (∀ l, report_issues l = Ok () ↔ errors l = []) as Hok.
  { intros l. unfold report_issues. destruct (errors l) as [|e [|e' es]]; split; try done; by intros ?%(f_equal (@length _)). }
  destruct (provider_errors c) as [He1 He2]. split_and!.
  - rewrite Hright, !app_nil, provider_part. tauto.
  - f_equal. unfold report_issues. change (is_warning_only) with (λ i, contains i (lit "localhost") || contains i (lit "127.0.0.1")). cbn beta.
    match goal with |- context [List.filter ?f ?l] => destruct (List.filter f l) as [|e [|e' es]] end; reflexivity.
  - intros (Hp & -> & ->)%Hright. f_equal. apply Hok. by rewrite errors_app, He1.
  - intros Hq [= E]. apply Hok in E. rewrite !errors_app in E. rewrite !app_nil in E. destruct E as (E1 & E2 & E3).
    apply Hright. split; [by apply He2|].
    rewrite errors_quiet in E2 by (eapply notify_quiet; [apply (quiet_events _ Hq)|done]). fold rest in E3.
    rewrite errors_quiet in E3 by by apply rest_quiet. done.
Qed.
End facts.

(** A default configuration with a key in the environment is valid, but what counts as a
    warning is read off the text of the issue: a name that contains [localhost] hides its
    error. *)
Definition misspelt (name : string) : Config nat nat :=
  Config.new <| Config.default_agent := lit name |> <| Config.providers := {[ lit "p" := Provider.keyed (lit "p") (Some (lit "k")) ]} |>.
Arguments misspelt _%_string.
Example local_name_hides_error :
  validate (λ _, None) id (λ _, []) (misspelt "build") = Some (Ok ())
  ∧ validate (λ _, None) id (λ _, []) (misspelt "bild") = Some (Err (lit "Default agent 'bild' not found in the agents list."))
  ∧ validate (λ _, None) id (λ _, []) (misspelt "localhost-agent") = Some (Ok ()).
Proof. by vm_compute. Qed.
