(* ===== verification/ConfigTree.v ===== *)
(** Dotted keys over a configuration ([config/src/dotted.rs]): reading a value by its
    path, listing the leaves, hiding secrets. [toml::Value] is the tree below; numbers,
    booleans and dates, which the code never looks into, are the type [X]. *)

From S2P Require Import Prelude RustStr.

Inductive value {X : Type} := VString (s : str) | VScalar (x : X) | VArray (items : list value) | VTable (entries : list (str * value)).
Arguments value : clear implicits.

Definition REDACTED : str := lit "<redacted>".
Definition SECRET_WORDS : list string :=
  ["api_key"; "apikey"; "token"; "secret"; "password"; "webhook"; "webhook_url"; "authorization"]%string.

Section tree.
Context {X : Type}.
Notation V := (value X).

(** ** Reading *)

Definition table_get {A} (entries : list (str * A)) (k : str) : option A := snd <$> List.find (λ e, e.1 == k) entries.
Definition element_name (item : V) : option str :=
  match item with
  | VTable entries => match table_get entries (lit "name") with Some (VString s) => Some s | _ => None end
  | _ => None
  end.
Definition child (node : V) (seg : str) : option V :=
  match node with
  | VTable entries => table_get entries seg
  | VArray items =>
      match parse_uint usize_max seg with
      | Some index => items !! N.to_nat index
      | None => List.find (λ item, bool_decide (element_name item = Some seg)) items
      end
  | _ => None
  end.
Definition lookup_path (root : V) (path : list str) : option V :=
  foldl (λ node seg, node ≫= λ n, child n seg) (Some root) path.

(** ** Leaves *)

Definition is_table (v : V) : bool := match v with VTable _ => true | _ => false end.
(** The segment of an element: its name, else its index. *)
Definition segment (i : nat) (item : V) : str := default (digits (N.of_nat i)) (element_name item).
Fixpoint collect_leaves (node : V) (path : list str) {struct node} : list (list str * V) :=
  let in_table := fix in_table (es : list (str * V)) : list (list str * V) :=
    match es with [] => [] | (k, v) :: es => collect_leaves v (path ++ [k]) ++ in_table es end in
  let in_array := fix in_array (i : nat) (items : list V) : list (list str * V) :=
    match items with [] => [] | v :: items => collect_leaves v (path ++ [segment i v]) ++ in_array (1 + i) items end in
  match node with
  | VTable ((_ :: _) as es) => in_table es
  | VArray ((_ :: _) as items) => if forallb is_table items then in_array 0 items else [(path, node)]
  | _ => [(path, node)]
  end.
(** [sort_by] on paths: strings compare by their bytes, which is by characters. *)
Fixpoint str_le (a b : str) : bool :=
  match a, b with [], _ => true | _, [] => false | x :: a, y :: b => if (x =? y)%N then str_le a b else (x <? y)%N end.
Fixpoint path_le (a b : list str) : bool :=
  match a, b with [], _ => true | _, [] => false | x :: a, y :: b => if x == y then path_le a b else str_le x y end.
Fixpoint insert_leaf (l : list str * V) (ls : list (list str * V)) : list (list str * V) :=
  match ls with [] => [l] | x :: ls' => if path_le l.1 x.1 then l :: ls else x :: insert_leaf l ls' end.
Definition leaves (root : V) : list (list str * V) := foldr insert_leaf [] (collect_leaves root []).

(** ** Secrets *)

Definition is_secret_key (path : list str) : bool :=
  match last path with
  | None => false
  | Some l =>
      let l := to_ascii_lowercase l in
      let in_headers := match last (removelast path) with Some parent => eq_ignore_ascii_case parent (lit "headers") | None => false end in
      let provider_key := (l == lit "key") && (head path == Some (lit "providers")) in
      in_headers || provider_key || existsb (λ word, (l == lit word) || ends_with l (lit "_" ++ lit word)) SECRET_WORDS
  end.
(** A whole-string [${NAME}]. *)
Definition is_env_ref (s : str) : bool :=
  match strip_prefix (lit "${") s ≫= strip_suffix (lit "}") with
  | Some name => negb (name == []) && negb (existsb (λ c, is_one_of [c] ["$"; "{"; "}"]%string) name)
  | None => false
  end.
Fixpoint redact_under (v : V) (path : list str) (inherited : bool) {struct v} : V :=
  let secret := inherited || is_secret_key path in
  match v with
  | VString s => if secret && negb (is_env_ref s) then VString REDACTED else VString s
  | VTable entries => VTable ((λ e, (e.1, redact_under e.2 (path ++ [e.1]) secret)) <$> entries)
  | VArray items => VArray ((λ item, redact_under item path secret) <$> items)
  | VScalar x => VScalar x
  end.
Definition redact (v : V) (path : list str) : V := redact_under v path false.

(** ** What [redact] hides *)

(** A place in a tree: keys of tables and indices of arrays. *)
Inductive step := Key (k : str) | Elem (i : nat).
Definition step_into (v : V) (s : step) : option V :=
  match v, s with
  | VTable entries, Key k => table_get entries k
  | VArray items, Elem i => items !! i
  | _, _ => None
  end.
Fixpoint at_place (v : V) (place : list step) : option V :=
  match place with [] => Some v | s :: place => v' ← step_into v s; at_place v' place end.
(** Whether some key on the way to the place, or the path of the tree itself, is secret. *)
Fixpoint secret_place (path : list str) (place : list step) : bool :=
  is_secret_key path ||
  match place with
  | [] => false
  | Key k :: place => secret_place (path ++ [k]) place
  | Elem _ :: place => secret_place path place
  end.
Lemma table_get_fmap {A B} (f : str * A → B) (entries : list (str * A)) k :
  table_get ((λ e, (e.1, f e)) <$> entries) k = f <$> (List.find (λ e, e.1 == k) entries).
Proof.
  unfold table_get. induction entries as [|e es IH]; [done|]. cbn [fmap list_fmap List.find fst]. by destruct (e.1 == k).
Qed.
Lemma find_key {A} (entries : list (str * A)) k e : List.find (λ e, e.1 == k) entries = Some e → e.1 = k.
Proof. intros H. apply List.find_some in H as [_ H]. by apply bool_decide_eq_true in H. Qed.

Fixpoint keys_of (place : list step) : list str :=
  match place with [] => [] | Key k :: place => k :: keys_of place | Elem _ :: place => keys_of place end.
Fixpoint secret_above (path : list str) (place : list step) : bool :=
  match place with
  | [] => false
  | Key k :: place => is_secret_key path || secret_above (path ++ [k]) place
  | Elem _ :: place => is_secret_key path || secret_above path place
  end.
Lemma secret_place_split place : ∀ path, secret_place path place = secret_above path place || is_secret_key (path ++ keys_of place).
Proof.
  induction place as [|[k|i] place IH]; intros path; cbn [secret_place secret_above keys_of].
  - by rewrite app_nil_r, orb_false_r.
  - by rewrite IH, <- app_assoc, orb_assoc.
  - by rewrite IH, orb_assoc.
Qed.
Lemma redact_at place : ∀ v path inherited,
  at_place (redact_under v path inherited) place =
  (λ w, redact_under w (path ++ keys_of place) (inherited || secret_above path place)) <$> at_place v place.
Proof.
  induction place as [|s place IH]; intros v path inherited; cbn [at_place keys_of secret_above].
  { by rewrite app_nil_r, orb_false_r. }
  destruct s as [k|i], v as [t|x|items|entries]; cbn [redact_under step_into];
    try (destruct (_ && _); done); try done; cbn [keys_of secret_above].
  - rewrite (table_get_fmap (λ e, redact_under e.2 (path ++ [e.1]) (inherited || is_secret_key path))). unfold table_get.
    destruct (List.find _ entries) as [e|] eqn:E; cbn; [|done]. apply find_key in E as <-.
    by rewrite IH, <- app_assoc, orb_assoc.
  - rewrite list_lookup_fmap. destruct (items !! i); cbn; [|done]. by rewrite IH, orb_assoc.
Qed.

(** C36: redaction keeps the shape of a tree and everything but strings; a string is
    replaced exactly when a key on the way to it, or the path of the tree, names a
    secret, unless it only refers to a variable. *)
Theorem redact_spec (v : V) (path : list str) (place : list step) :
  match at_place v place with
  | None => at_place (redact v path) place = None
  | Some w =>
      ∃ w', at_place (redact v path) place = Some w' ∧
      match w with
      | VString s => w' = VString (if secret_place path place && negb (is_env_ref s) then REDACTED else s)
      | VScalar x => w' = VScalar x
      | VTable entries => ∃ entries', w' = VTable entries' ∧ entries'.*1 = entries.*1
      | VArray items => ∃ items', w' = VArray items' ∧ length items' = length items
      end
  end.
Proof.
  unfold redact. rewrite redact_at. destruct (at_place v place) as [w|]; [|done]. cbn [fmap option_fmap option_map].
  eexists. split; [done|]. destruct w as [s|x|items|entries]; cbn [redact_under orb].
  - rewrite secret_place_split. by destruct (_ && _).
  - done.
  - eexists. split; [done|]. apply length_fmap.
  - eexists. split; [done|]. by rewrite <- list_fmap_compose.
Qed.

(** ** A listed leaf is where its path says *)

Section value_ind.
Context (P : V → Prop) (Hs : ∀ s, P (VString s)) (Hx : ∀ x, P (VScalar x))
  (Ha : ∀ items, Forall P items → P (VArray items)) (Ht : ∀ es, Forall (λ e, P e.2) es → P (VTable es)).
Fixpoint value_rec' (v : V) : P v :=
  match v with
  | VString s => Hs s
  | VScalar x => Hx x
  | VArray items => Ha items ((fix go l := match l return Forall P l with [] => List.Forall_nil _ | v :: l => @List.Forall_cons _ P v l (value_rec' v) (go l) end) items)
  | VTable es => Ht es ((fix go l := match l return Forall (λ e, P e.2) l with [] => List.Forall_nil _ | e :: l => @List.Forall_cons _ _ e l (value_rec' e.2) (go l) end) es)
  end.
End value_ind.

(** Keys once per table; in arrays the names once, and none of them a number. *)
Definition named (items : list V) : Prop :=
  NoDup (omap element_name items) ∧ Forall (λ n, parse_uint usize_max n = None) (omap element_name items)
  ∧ (N.of_nat (length items) ≤ usize_max)%N.
Fixpoint well_named (v : V) : Prop :=
  match v with
  | VArray items => named items ∧ foldr (λ item r, well_named item ∧ r) True items
  | VTable entries => NoDup entries.*1 ∧ foldr (λ e r, well_named e.2 ∧ r) True entries
  | _ => True
  end.
Lemma child_element items i item : named items → items !! i = Some item → child (VArray items) (segment i item) = Some item.
Proof.
  intros (Hnd & Hnum & Hlen) Hi. unfold segment. cbn [child]. destruct (element_name item) as [n|] eqn:En; cbn [from_option id].
  - assert (Hin : n ∈ omap element_name items) by (apply list_elem_of_omap; exists item; split; [by eapply list_elem_of_lookup_2|done]).
    rewrite Forall_forall in Hnum. rewrite (Hnum n Hin). revert i Hi. clear Hnum Hlen Hin.
    induction items as [|x items IH]; intros i Hi; [done|]. cbn [List.find]. destruct (bool_decide_reflect (element_name x = Some n)) as [Hx|Hx].
    + destruct i as [|i]; [by injection Hi|]. cbn [omap list_omap] in Hnd. rewrite Hx in Hnd. apply NoDup_cons in Hnd as [Hn _].
      destruct Hn. apply list_elem_of_omap. exists item. split; [|done]. by eapply list_elem_of_lookup_2.
    + destruct i as [|i]; [injection Hi as ->; congruence|]. cbn [omap list_omap] in Hnd.
      apply (IH ltac:(destruct (element_name x); [by apply NoDup_cons in Hnd as [_ ?]|done]) i Hi).
  - apply lookup_lt_Some in Hi as Hl. rewrite parse_uint_digits by lia. by rewrite Nat2N.id.
Qed.
Lemma foldr_forall {A} (P : A → Prop) l : foldr (λ x r, P x ∧ r) True l ↔ Forall P l.
Proof. induction l as [|x l IH]; cbn; [split; [constructor|done]|]. by rewrite IH, Forall_cons. Qed.
Lemma lookup_path_app root p q : lookup_path root (p ++ q) = lookup_path root p ≫= λ v, lookup_path v q.
Proof.
  unfold lookup_path. rewrite foldl_app. destruct (foldl _ (Some root) p) as [v|]; [done|]. cbn. by induction q.
Qed.
Lemma table_get_in {A} (es : list (str * A)) e : NoDup es.*1 → e ∈ es → table_get es e.1 = Some e.2.
Proof.
  unfold table_get. induction es as [|x es IH]; intros Hnd He; [by apply elem_of_nil in He|]. cbn [List.find].
  apply NoDup_cons in Hnd as [Hx Hnd]. apply elem_of_cons in He as [->|He]; [by rewrite bool_decide_true|].
  rewrite bool_decide_false; [by apply IH|]. intros E. apply Hx. rewrite E. by apply list_elem_of_fmap_2.
Qed.

(** Below [node], every listed leaf extends the path by the way to it. *)
Definition finds (node : V) : Prop :=
  ∀ path, well_named node → ∀ p v, (p, v) ∈ collect_leaves node path → ∃ q, p = path ++ q ∧ lookup_path node q = Some v.
Lemma leaf_finds node path p v : (p, v) ∈ [(path, node)] → ∃ q, p = path ++ q ∧ lookup_path node q = Some v.
Proof. intros [= -> ->]%list_elem_of_singleton. exists []. by rewrite app_nil_r. Qed.
Lemma child_finds node seg item path p v : child node seg = Some item → finds item → well_named item →
  (p, v) ∈ collect_leaves item (path ++ [seg]) → ∃ q, p = path ++ q ∧ lookup_path node q = Some v.
Proof.
  intros Hc Hf Hw Hin. destruct (Hf _ Hw _ _ Hin) as (q & -> & Hq). exists (seg :: q). split; [by rewrite <- app_assoc|].
  change (seg :: q) with ([seg] ++ q). rewrite lookup_path_app. unfold lookup_path at 1. cbn. by rewrite Hc.
Qed.
Lemma table_finds es : Forall (λ e, finds e.2) es → finds (VTable es).
Proof.
  intros HF path [Hnd Hw] p v Hin. rewrite foldr_forall in Hw. destruct es as [|e0 es0]; [by apply leaf_finds|].
  set (es := e0 :: es0) in *. cbn [collect_leaves] in Hin. unfold es in Hin. fold es in Hin.
  assert (G : ∀ l, (∀ e, e ∈ l → e ∈ es) → (p, v) ∈ (fix in_table (es : list (str * V)) : list (list str * V) :=
    match es with [] => [] | (k, v) :: es => collect_leaves v (path ++ [k]) ++ in_table es end) l → ∃ q, p = path ++ q ∧ lookup_path (VTable es) q = Some v).
  { induction l as [|[k x] l IH]; intros Hl Hp; [by apply elem_of_nil in Hp|]. apply elem_of_app in Hp as [Hp|Hp].
    - assert (He : (k, x) ∈ es) by (apply Hl; left). rewrite Forall_forall in HF, Hw.
      apply (child_finds _ k x path p v); [exact (table_get_in es (k, x) Hnd He)|exact (HF _ He)|exact (Hw _ He)|exact Hp].
    - apply IH; [|exact Hp]. intros e He. apply Hl. by right. }
  exact (G es (λ _ H, H) Hin).
Qed.
Lemma array_finds items : Forall finds items → finds (VArray items).
Proof.
  intros HF path [Hn Hw] p v Hin. rewrite foldr_forall in Hw. destruct items as [|i0 is0]; [by apply leaf_finds|].
  set (items := i0 :: is0) in *. cbn [collect_leaves] in Hin. unfold items in Hin. fold items in Hin.
  destruct (forallb is_table items); [|by apply leaf_finds].
  assert (G : ∀ l j, (∀ k x, l !! k = Some x → items !! (j + k) = Some x) → (p, v) ∈ (fix in_array (i : nat) (items : list V) : list (list str * V) :=
    match items with [] => [] | v :: items => collect_leaves v (path ++ [segment i v]) ++ in_array (1 + i) items end) j l →
    ∃ q, p = path ++ q ∧ lookup_path (VArray items) q = Some v).
  { induction l as [|x l IH]; intros j Hl Hp; [by apply elem_of_nil in Hp|]. apply elem_of_app in Hp as [Hp|Hp].
    - assert (Hx : items !! j = Some x) by (rewrite <- (Nat.add_0_r j); by apply Hl). rewrite Forall_forall in HF, Hw.
      apply list_elem_of_lookup_2 in Hx as He.
      apply (child_finds _ (segment j x) x path p v); [by apply child_element|exact (HF _ He)|exact (Hw _ He)|exact Hp].
    - apply (IH (1 + j)); [|exact Hp]. intros k y Hy. replace (1 + j + k) with (j + S k) by lia. by apply Hl. }
  exact (G items 0 (λ _ _ H, H) Hin).
Qed.
Lemma insert_leaf_in l ls x : x ∈ insert_leaf l ls ↔ x = l ∨ x ∈ ls.
Proof.
  induction ls as [|y ls IH]; cbn [insert_leaf]; [set_solver|]. destruct (path_le _ _); set_solver.
Qed.
Lemma leaves_in root l : l ∈ leaves root ↔ l ∈ collect_leaves root [].
Proof.
  unfold leaves. induction (collect_leaves root []) as [|x ls IH]; [done|]. cbn [foldr]. rewrite insert_leaf_in, IH. set_solver.
Qed.

(** Every leaf that is listed is found again by its path, in a tree whose tables have
    each key once and whose arrays of tables have distinct names that are no numbers. *)
Theorem leaves_found (root : V) (p : list str) (v : V) : well_named root → (p, v) ∈ leaves root → lookup_path root p = Some v.
Proof.
  intros Hw Hin. apply leaves_in in Hin.
  assert (Hf : finds root).
  { clear. induction root using value_rec'; [..|by apply array_finds|by apply table_finds]; intros path _ p v; apply leaf_finds. }
  destruct (Hf [] Hw p v Hin) as (q & -> & Hq). exact Hq.
Qed.
End tree.

Definition agent_tree (name : string) (x : nat) : value nat := VTable [(lit "name", VString (lit name)); (lit "top_p", VScalar x)].
Arguments agent_tree _%_string _.
Definition sample_tree : value nat :=
  VTable [(lit "agents", VArray [agent_tree "build" 1; agent_tree "plan" 2]);
          (lit "providers", VTable [(lit "p", VTable [(lit "api_key", VString (lit "sk-1")); (lit "base_url", VString (lit "https://p"))])])].
Lemma leaves_found_witness :
  well_named sample_tree ∧ ([lit "agents"; lit "plan"; lit "top_p"], VScalar 2) ∈ leaves sample_tree
  ∧ lookup_path sample_tree [lit "agents"; lit "plan"; lit "top_p"] = Some (VScalar 2).
Proof.
  assert (Hw : well_named sample_tree).
  { cbn. split_and!; try done; try (by apply (bool_decide_unpack _); vm_compute).
    all: try (unfold named; split_and!; [by apply (bool_decide_unpack _); vm_compute|repeat constructor; by vm_compute|by vm_compute]). }
  assert (Hin : ([lit "agents"; lit "plan"; lit "top_p"], VScalar 2) ∈ leaves sample_tree).
  { vm_compute. repeat first [by left|right]. }
  split; [exact Hw|]. split; [exact Hin|]. exact (leaves_found sample_tree _ _ Hw Hin).
Defined.
(** A name that is a number is taken for an index: the leaf listed for the first agent is
    read from the second. *)
Example numeric_name_misread :
  let root : value nat := VTable [(lit "agents", VArray [agent_tree "1" 7; agent_tree "x" 8])] in
  existsb (λ l, match l.2 with VScalar x => (l.1 == [lit "agents"; lit "1"; lit "top_p"]) && (x =? 7) | _ => false end) (leaves root) = true
  ∧ lookup_path root [lit "agents"; lit "1"; lit "top_p"] = Some (VScalar 8).
Proof. by vm_compute. Qed.
