(* ===== verification/ConfigEdit.v ===== *)
(** Writing one key ([set_in_document] of [config/src/dotted.rs], [config/src/edit.rs])
    and saving an edited configuration ([config/src/patch.rs]).

    A [toml_edit] document is a tree of tables whose values carry the spacing and comment
    around them ([decor]); parsing and printing it are parameters. *)

From coqutil Require Import Datatypes.RecordSetters.
From S2P Require Import Prelude RustStr F32 ConfigTypes ConfigMerge ConfigLoad ConfigCheck ConfigTree.

Inductive item {X : Type} :=
| IValue (v : value X) (decor : str)
| IInline (entries : list (str * item)) (decor : str)
| ITable (entries : list (str * item))
| IArray (tables : list (list (str * item))).
Arguments item : clear implicits.

Section doc.
Context {X : Type}.
Notation I := (item X).
Notation doc := (list (str * item X)).

(** ** One key *)

Definition set_decor (decor : str) (i : I) : I :=
  match i with IValue v _ => IValue v decor | IInline es _ => IInline es decor | _ => i end.
(** [item.as_value().map(|v| v.decor())]. *)
Definition value_decor (i : I) : option str := match i with IValue _ d | IInline _ d => Some d | _ => None end.
Definition item_str (i : I) : option str := match i with IValue (VString s) _ => Some s | _ => None end.
Definition new_table (inline : bool) : I := if inline then IInline [] [] else ITable [].
Definition not_a_table (seg : str) : str := quote seg ++ lit " is not a table".
(** Replace in place, or insert behind the other keys. *)
Fixpoint put {A} (t : list (str * A)) (k : str) (x : A) : list (str * A) :=
  match t with [] => [(k, x)] | e :: t => if e.1 == k then (e.1, x) :: t else e :: put t k x end.
(** The element of an array of tables a segment picks: an index, else a name. *)
Definition pick_table (tables : list doc) (pick : str) : option nat :=
  match parse_uint usize_max pick with
  | Some index => if N.to_nat index <? length tables then Some (N.to_nat index) else None
  | None => fst <$> list_find (λ t : doc, table_get t (lit "name") ≫= item_str = Some pick) tables
  end.
Definition set_last (last : str) (v : I) (t : doc) : doc :=
  put t last (set_decor (default [] (table_get t last ≫= value_decor)) v).
Fixpoint set_in (parents : list str) (last : str) (v : I) (inline : bool) (t : doc) {struct parents} : result doc :=
  match parents with
  | [] => Ok (set_last last v t)
  | seg :: rest =>
      match default (new_table inline) (table_get t seg) with
      | IArray tables =>
          match rest with
          | [] => Err (not_a_table seg)
          | pick :: rest =>
              match pick_table tables pick with
              | None => Err (lit "no " ++ quote seg ++ lit " entry named " ++ quote pick ++ lit " in this file")
              | Some i =>
                  match set_in rest last v false (tables !!! i) with
                  | Ok t' => Ok (put t seg (IArray (<[ i := t' ]> tables)))
                  | Err e => Err e
                  end
              end
          end
      | IInline es d => match set_in rest last v true es with Ok es' => Ok (put t seg (IInline es' d)) | Err e => Err e end
      | ITable es => match set_in rest last v false es with Ok es' => Ok (put t seg (ITable es')) | Err e => Err e end
      | IValue _ _ => Err (not_a_table seg)
      end
  end.
Definition set_in_document (d : doc) (path : list str) (v : I) : result doc :=
  match last path with
  | None => Err (lit "empty config key")
  | Some l => set_in (removelast path) l v false d
  end.

(** ** Saving a change *)

Definition table_of (i : I) : option doc := match i with IInline es _ | ITable es => Some es | _ => None end.
Definition put_table (i : I) (es : doc) : I := match i with IInline _ d => IInline es d | _ => ITable es end.
Definition remove_key {A} (t : list (str * A)) (k : str) : list (str * A) := List.filter (λ e, negb (e.1 == k)) t.
(** [to_item] writes a value the way [toml] does. *)
Context (to_item : value X → result I) (value_eqb : value X → value X → bool).
Fixpoint patch_in (after : value X) (before : list (str * value X)) (d : doc) {struct after} : result doc :=
  match after with
  | VTable entries =>
      let change (r : result doc) (e : str * value X) : result doc :=
        match r with
        | Err err => Err err
        | Ok d =>
            let old := table_get before e.1 in
            if match old with Some o => value_eqb o e.2 | None => false end then Ok d
            else
              let whole := match to_item e.2 with Ok i => Ok (put d e.1 i) | Err err => Err err end in
              match old, is_table e.2, table_get d e.1 with
              | Some (VTable o), true, Some i =>
                  match table_of i with
                  | Some es => match patch_in e.2 o es with Ok es' => Ok (put d e.1 (put_table i es')) | Err err => Err err end
                  | None => whole
                  end
              | _, _, _ => whole
              end
        end in
      match foldl change (Ok d) entries with
      | Ok d => Ok (foldl remove_key d (List.filter (λ k, negb (some (table_get entries k))) before.*1))
      | Err err => Err err
      end
  | _ => Ok d
  end.
Definition patch_table (d : doc) (before after : list (str * value X)) : result doc := patch_in (VTable after) before d.
Definition patched_text (parse_doc : str → result doc) (doc_text : doc → str) (text : str) (before after : value X) : result str :=
  match parse_doc text with
  | Err e => Err e
  | Ok d =>
      match before, after with
      | VTable before, VTable after => match patch_table d before after with Ok d => Ok (doc_text d) | Err e => Err e end
      | _, _ => Ok (doc_text d)
      end
  end.
End doc.

(** ** Only that key changes *)

Section frame.
Context {X : Type}.
Notation I := (item X).
Notation doc := (list (str * item X)).

Definition enter (i : I) (s : step) : option I :=
  match i, s with
  | ITable es, Key k | IInline es _, Key k => table_get es k
  | IArray ts, Elem n => ITable <$> ts !! n
  | _, _ => None
  end.
Fixpoint item_at (i : I) (place : list step) : option I :=
  match place with [] => Some i | s :: place => i' ← enter i s; item_at i' place end.
(** The place a path means in a document: an array of tables takes two segments. *)
Fixpoint place_of (parents : list str) (last : str) (t : doc) {struct parents} : list step :=
  match parents with
  | [] => [Key last]
  | seg :: rest =>
      match table_get t seg with
      | Some (IArray tables) =>
          match rest with
          | [] => []
          | pick :: rest => match pick_table tables pick with
                            | Some i => Key seg :: Elem i :: place_of rest last (tables !!! i)
                            | None => []
                            end
          end
      | Some (IInline es _) | Some (ITable es) => Key seg :: place_of rest last es
      | _ => Key seg :: place_of rest last []
      end
  end.
Definition apart (a b : list step) : Prop := ¬ a `prefix_of` b ∧ ¬ b `prefix_of` a.

Lemma table_get_put {A} (t : list (str * A)) k x k' : table_get (put t k x) k' = if k == k' then Some x else table_get t k'.
Proof.
  unfold table_get. induction t as [|e t IH]; cbn [put List.find]; [cbn; by destruct (k == k')|].
  destruct (e.1 == k) eqn:E; cbn [List.find]; cbn [fst].
  - apply bool_decide_eq_true in E. rewrite E. by destruct (k == k').
  - destruct (e.1 == k') eqn:Ek; [|done]. apply bool_decide_eq_true in Ek. destruct (k == k') eqn:Ekk; [|done].
    apply bool_decide_eq_true in Ekk. apply bool_decide_eq_false in E. congruence.
Qed.
Lemma item_at_app a b i : item_at i (a ++ b) = item_at i a ≫= λ j, item_at j b.
Proof. revert i. induction a as [|s a IH]; intros i; cbn; [done|]. destruct (enter i s); cbn; [apply IH|done]. Qed.
Lemma apart_cons s a b : apart (s :: a) (s :: b) → apart a b.
Proof. intros [H1 H2]. split; intros H; [apply H1|apply H2]; by apply prefix_cons. Qed.
Lemma apart_nonempty a b : apart a b → b ≠ [].
Proof. intros [_ H] ->. by destruct H; apply prefix_nil. Qed.
(** A change under a key, lifted to the table. *)
Lemma under_key (t : doc) seg (i' : I) p b :
  (∀ b, apart p b → item_at i' b = table_get t seg ≫= λ i, item_at i b) → apart (Key seg :: p) b →
  item_at (ITable (put t seg i')) b = item_at (ITable t) b.
Proof.
  intros H Hb. destruct b as [|[k|n] b]; [by apply apart_nonempty in Hb| |done]. cbn. rewrite table_get_put.
  destruct (seg == k) eqn:E; [|done]. apply bool_decide_eq_true in E as <-. apply apart_cons in Hb. by apply H.
Qed.
Lemma same_entries (i : I) (es : doc) b : (i = ITable es ∨ ∃ d, i = IInline es d) → b ≠ [] → item_at i b = item_at (ITable es) b.
Proof. intros [->|[d ->]] Hb; [done|]. by destruct b as [|s b]. Qed.
Lemma at_empty b : b ≠ [] → item_at (ITable ([] : doc)) b = None.
Proof. by destruct b as [|[]]. Qed.
Lemma pick_table_lt (ts : list doc) pick i : pick_table ts pick = Some i → i < length ts.
Proof.
  unfold pick_table. destruct (parse_uint usize_max pick) as [n|].
  - destruct (Nat.ltb_spec (N.to_nat n) (length ts)); [by intros [= <-]|done].
  - destruct (list_find _ ts) as [[j x]|] eqn:E; [|done]. cbn. intros [= <-]. apply list_find_Some in E as [E _]. by eapply lookup_lt_Some.
Qed.

Definition sets_only (parents : list str) (last : str) (v : I) (t t' : doc) : Prop :=
  place_of parents last t ≠ []
  ∧ (∃ d, item_at (ITable t') (place_of parents last t) = Some (set_decor d v))
  ∧ ∀ b, apart (place_of parents last t) b → item_at (ITable t') b = item_at (ITable t) b.
(** One level of tables. *)
Lemma sets_only_table seg rest last v (t es es' : doc) (i' : I) :
  place_of (seg :: rest) last t = Key seg :: place_of rest last es →
  (i' = ITable es' ∨ ∃ d, i' = IInline es' d) →
  (∀ b, b ≠ [] → table_get t seg ≫= (λ i, item_at i b) = item_at (ITable es) b) →
  sets_only rest last v es es' → sets_only (seg :: rest) last v t (put t seg i').
Proof.
  intros Hp Hi Hold (Hne & [d Hd] & Hf). unfold sets_only. rewrite Hp. split; [done|]. split.
  - exists d. cbn. rewrite table_get_put, bool_decide_true by done. cbn. by rewrite (same_entries i' es').
  - intros b Hb. apply (under_key _ _ _ (place_of rest last es)); [|done]. intros b' Hb'. apply apart_nonempty in Hb' as Hn.
    rewrite Hold, (same_entries i' es') by done. by apply Hf.
Qed.
Lemma set_in_only n : ∀ parents last v inline t t', length parents < n → set_in parents last v inline t = Ok t' → sets_only parents last v t t'.
Proof.
  induction n as [|n IH]; intros parents last v inline t t' Hn Hs; [lia|]. destruct parents as [|seg rest]; cbn [set_in] in Hs; cbn in Hn.
  { injection Hs as <-. unfold sets_only. cbn [place_of]. split; [done|]. split.
    - eexists. cbn. unfold set_last. by rewrite table_get_put, bool_decide_true.
    - intros b Hb. apply (under_key _ _ _ []); [|done]. intros b' Hb'. destruct Hb' as [[] _]. apply prefix_nil. }
  destruct (table_get t seg) as [i|] eqn:Eg; cbn [from_option id] in Hs.
  - destruct i as [x d|es d|es|ts]; [done| | |].
    + destruct (set_in rest last v true es) as [es'|] eqn:Es; [|done]. injection Hs as <-.
      apply (sets_only_table _ _ _ _ _ es es'); [cbn; by rewrite Eg|right; by eexists| |by (eapply IH; [|exact Es]; cbn in *; lia)].
      intros b Hb. rewrite Eg. cbn. apply same_entries; [right; by eexists|done].
    + destruct (set_in rest last v false es) as [es'|] eqn:Es; [|done]. injection Hs as <-.
      apply (sets_only_table _ _ _ _ _ es es'); [cbn; by rewrite Eg|by left| |by (eapply IH; [|exact Es]; cbn in *; lia)].
      intros b Hb. by rewrite Eg.
    + destruct rest as [|pick rest]; [done|]. destruct (pick_table ts pick) as [j|] eqn:Ep; [|done].
      destruct (set_in rest last v false (ts !!! j)) as [u|] eqn:Es; [|done]. injection Hs as <-. apply pick_table_lt in Ep as Hj.
      apply IH in Es; [|cbn in Hn; lia]. destruct Es as (Hne & [d Hd] & Hf).
      unfold sets_only. cbn [place_of]. rewrite Eg, Ep. split; [done|]. split.
      * exists d. cbn. rewrite table_get_put, bool_decide_true by done. cbn. by rewrite list_lookup_insert_eq.
      * intros b Hb. apply (under_key _ _ _ (Elem j :: place_of rest last (ts !!! j))); [|done]. intros b' Hb'. rewrite Eg. cbn.
        destruct b' as [|[k|m] b']; [by apply apart_nonempty in Hb'|done|]. cbn. destruct (base.decide (j = m)) as [<-|Hm].
        -- rewrite list_lookup_insert_eq by done. apply apart_cons in Hb'. cbn. rewrite (Hf _ Hb').
           by rewrite (list_lookup_lookup_total_lt ts j Hj).
        -- by rewrite list_lookup_insert_ne.
  - destruct inline; cbn [new_table] in Hs; (destruct (set_in rest last v _ []) as [es'|] eqn:Es; [|done]); injection Hs as <-.
    + apply (sets_only_table _ _ _ _ _ [] es'); [cbn; by rewrite Eg|right; by eexists| |by (eapply IH; [|exact Es]; cbn in *; lia)].
      intros b Hb. rewrite Eg. cbn. by rewrite at_empty.
    + apply (sets_only_table _ _ _ _ _ [] es'); [cbn; by rewrite Eg|by left| |by (eapply IH; [|exact Es]; cbn in *; lia)].
      intros b Hb. rewrite Eg. cbn. by rewrite at_empty.
Qed.

(** *** The edited document, written out

    [edits v inline parents last t t']: [t'] is the table [t] with [v] at the path
    [parents], [last], entry by entry. What is not on the path stays where and as it is;
    a table on the path keeps its place, its kind and the text around it. *)
Inductive wears (d : str) : I → I → Prop :=
| wears_value x e : wears d (IValue x e) (IValue x d)
| wears_inline es e : wears d (IInline es e) (IInline es d)
| wears_table es : wears d (ITable es) (ITable es)
| wears_array ts : wears d (IArray ts) (IArray ts).
(** The text around an old value: it goes to the new one. *)
Inductive worn : I → str → Prop :=
| worn_value x d : worn (IValue x d) d
| worn_inline es d : worn (IInline es d) d
| worn_table es : worn (ITable es) []
| worn_array ts : worn (IArray ts) [].
(** The element of an array of tables that a segment means: by number, else the first of
    that name. *)
Definition named (t : doc) (name : str) : Prop := ∃ d, table_get t (lit "name") = Some (IValue (VString name) d).
Definition picks (before : list doc) (t : doc) (pick : str) : Prop :=
  match parse_uint usize_max pick with
  | Some n => n = N.of_nat (length before)
  | None => named t pick ∧ Forall (λ u, ¬ named u pick) before
  end.
Inductive edits (v : I) : bool → list str → str → doc → doc → Prop :=
| edits_replace inline k a old b d v' : k ∉ a.*1 → worn old d → wears d v v' →
    edits v inline [] k (a ++ (k, old) :: b) (a ++ (k, v') :: b)
| edits_add inline k t v' : k ∉ t.*1 → wears [] v v' → edits v inline [] k t (t ++ [(k, v')])
| edits_table inline k rest l a es es' b : k ∉ a.*1 → edits v false rest l es es' →
    edits v inline (k :: rest) l (a ++ (k, ITable es) :: b) (a ++ (k, ITable es') :: b)
| edits_inline inline k rest l a es es' d b : k ∉ a.*1 → edits v true rest l es es' →
    edits v inline (k :: rest) l (a ++ (k, IInline es d) :: b) (a ++ (k, IInline es' d) :: b)
| edits_array inline k pick rest l a before t t' after b : k ∉ a.*1 → picks before t pick → edits v false rest l t t' →
    edits v inline (k :: pick :: rest) l (a ++ (k, IArray (before ++ t :: after)) :: b) (a ++ (k, IArray (before ++ t' :: after)) :: b)
| edits_new inline k rest l t es : k ∉ t.*1 → edits v inline rest l [] es →
    edits v inline (k :: rest) l t (t ++ [(k, if inline then IInline es [] else ITable es)]).

Lemma put_split {A} (t : list (str * A)) k x :
  match table_get t k with
  | Some old => ∃ a b, t = a ++ (k, old) :: b ∧ k ∉ a.*1 ∧ put t k x = a ++ (k, x) :: b
  | None => k ∉ t.*1 ∧ put t k x = t ++ [(k, x)]
  end.
Proof.
  unfold table_get. induction t as [|[k' y] t IH]; cbn [put List.find fst]; [by split; [apply not_elem_of_nil|]|].
  destruct (k' == k) eqn:E.
  - apply bool_decide_eq_true in E as ->. exists [], t. split_and!; [done|apply not_elem_of_nil|done].
  - apply bool_decide_eq_false in E. destruct (snd <$> List.find (λ e, e.1 == k) t) as [old|].
    + destruct IH as (a & b & -> & Ha & ->). exists ((k', y) :: a), b. split_and!; [done| |done]. cbn. by intros [<-|?]%elem_of_cons.
    + destruct IH as [Ha ->]. split; [|done]. cbn. by intros [<-|?]%elem_of_cons.
Qed.
Lemma set_decor_wears d v : wears d v (set_decor d v).
Proof. destruct v; constructor. Qed.
Lemma value_decor_worn i : worn i (default [] (value_decor i)).
Proof. destruct i; constructor. Qed.
Lemma item_str_named (t : doc) name : (table_get t (lit "name") ≫= item_str = Some name) ↔ named t name.
Proof.
  unfold named. destruct (table_get t (lit "name")) as [i|]; cbn; [|split; [done|by intros [? ?]]].
  split; [|by intros [d [= ->]]]. destruct i as [x d| | |]; try done. destruct x; try done. cbn. intros [= ->]. by exists d.
Qed.
Lemma pick_table_picks (ts : list doc) pick i : pick_table ts pick = Some i →
  ∃ before after, ts = before ++ (ts !!! i) :: after ∧ length before = i ∧ picks before (ts !!! i) pick.
Proof.
  intros H. pose proof (pick_table_lt ts pick i H) as Hi. exists (take i ts), (drop (S i) ts).
  split_and!; [symmetry; apply take_drop_middle; by apply list_lookup_lookup_total_lt|rewrite length_take; lia|].
  unfold pick_table, picks in *. destruct (parse_uint usize_max pick) as [n|].
  - destruct (Nat.ltb_spec (N.to_nat n) (length ts)); [|done]. injection H as <-. rewrite length_take. lia.
  - destruct (list_find _ ts) as [[j x]|] eqn:E; [|done]. cbn in H. injection H as ->. apply list_find_Some in E as (E & Hn & Hb).
    rewrite (list_lookup_total_correct _ _ _ E). split; [by apply item_str_named|]. apply Forall_forall. intros u [m Hm]%list_elem_of_lookup.
    apply lookup_take_Some in Hm as [Hm Hlt]. rewrite <- item_str_named. by eapply Hb.
Qed.
Lemma set_in_edits n : ∀ parents last v inline t t', length parents < n → set_in parents last v inline t = Ok t' → edits v inline parents last t t'.
Proof.
  induction n as [|n IH]; intros parents last v inline t t' Hn Hs; [lia|]. destruct parents as [|seg rest]; cbn [set_in] in Hs; cbn in Hn.
  { injection Hs as <-. unfold set_last. match goal with |- context [put t last ?x] => pose proof (put_split t last x) as H end.
    destruct (table_get t last) as [old|].
    - destruct H as (a & b & -> & Ha & ->). eapply edits_replace; [done|apply value_decor_worn|apply set_decor_wears].
    - destruct H as [Ha ->]. apply edits_add; [done|apply set_decor_wears]. }
  pose proof (λ x, put_split t seg x) as Hput. destruct (table_get t seg) as [i|] eqn:Eg; cbn [from_option id] in Hs.
  - destruct i as [x d|es d|es|ts]; [done| | |].
    + destruct (set_in rest last v true es) as [es'|] eqn:Es; [|done]. injection Hs as <-.
      destruct (Hput (IInline es' d)) as (a & b & -> & Ha & ->). apply edits_inline; [done|]. apply IH; [cbn in Hn; lia|done].
    + destruct (set_in rest last v false es) as [es'|] eqn:Es; [|done]. injection Hs as <-.
      destruct (Hput (ITable es')) as (a & b & -> & Ha & ->). apply edits_table; [done|]. apply IH; [cbn in Hn; lia|done].
    + destruct rest as [|pick rest]; [done|]. destruct (pick_table ts pick) as [j|] eqn:Ep; [|done].
      destruct (set_in rest last v false (ts !!! j)) as [u|] eqn:Es; [|done]. injection Hs as <-.
      destruct (Hput (IArray (<[j := u]> ts))) as (a & b & -> & Ha & ->).
      apply pick_table_picks in Ep as (before & after & E & Hj & Hp). set (x := ts !!! j) in *. rewrite E.
      rewrite <- Hj, <- (Nat.add_0_r (length before)), insert_app_r. cbn. apply edits_array; [done|done|]. apply IH; [cbn in Hn; lia|done].
  - destruct (set_in rest last v inline []) as [es|] eqn:Es.
    + assert (t' = put t seg (if inline then IInline es [] else ITable es)) as ->
        by (destruct inline; cbn [new_table] in Hs; rewrite Es in Hs; by injection Hs as <-).
      destruct (Hput (if inline then IInline es [] else ITable es)) as [Ha ->]. apply edits_new; [done|]. apply IH; [cbn in Hn; lia|done].
    + destruct inline; cbn [new_table] in Hs; by rewrite Es in Hs.
Qed.
End frame.

(** ** [whycodes config set] *)

Inductive ConfigTarget := Global | Project.
#[export] Instance ConfigTarget_eq_dec : EqDecision ConfigTarget.
Proof. solve_decision. Defined.
(** A configuration file and its [.bak]. *)
Record slot := mk_slot { stored : file; backup : option str }.
Definition slots := ConfigTarget → slot.
Definition set_slot (fs : slots) (t : ConfigTarget) (s : slot) : slots := λ t', if t' == t then s else fs t'.
Definition read_optional (f : file) : result (option str) :=
  match f with Missing => Ok None | Unreadable e => Err e | Contents text => Ok (Some text) end.
(** [backup_once], then [write_atomic]. *)
Definition backup_once (s : slot) : slot :=
  mk_slot (stored s) (match backup s, stored s with None, Contents text => Some text | b, _ => b end).
Definition write_slot (s : slot) (original : option str) (text : str) : slot :=
  mk_slot (Contents text) (backup (if original is Some _ then backup_once s else s)).

Section set.
Context {J T X : Type} (env : str → option str) (to_uppercase : str → str) (fmt_f64 : f64 → str).
Context (toml_config : str → result (Config J T)) (toml_has_key : str → str → bool).
Context (to_toml : Config J T → result (value X)) (value_eqb : value X → value X → bool).
(** [toml_edit]: keys, documents, literals. *)
Context (parse_key : str → result (list str)) (parse_doc : str → result (list (str * item X))).
Context (doc_text : list (str * item X) → str) (parse_value : str → option (item X)).
Notation C := (Config J T).

Definition try_value (doc : list (str * item X)) (path : list str) (v : item X) : result (str * C) :=
  match set_in_document doc path v with
  | Err e => Err e
  | Ok doc => match parse_global_text toml_config (doc_text doc) with Ok c => Ok (doc_text doc, c) | Err e => Err e end
  end.
Definition patch_text (original : str) (path : list str) (raw : str) : result (str * C) :=
  match parse_doc original with
  | Err e => Err e
  | Ok doc =>
      let as_string (_ : unit) := try_value doc path (IValue (VString raw) []) in
      match parse_value raw with
      | None => as_string ()
      | Some v => match try_value doc path v with
                  | Ok r => Ok r
                  | Err typed => match as_string () with Ok r => Ok r | Err _ => Err typed end
                  end
      end
  end.
Definition with_env (c : C) : option (list str) := validation_errors env to_uppercase fmt_f64 (apply_env_overrides env to_uppercase c).
Definition refuse_new_issues (before after : C) : outcome unit :=
  old ← with_env before;
  new ← with_env after;
  Some (match List.filter (λ i, negb (existsb (λ o, o == i) old)) new with
        | [] => Ok ()
        | issues => Err (join (lit "; ") issues)
        end).
Definition project_layer (text : option str) (path : str) : result (option C) :=
  match text with
  | None => Ok None
  | Some text => match parse_project_text toml_config toml_has_key text path with Ok (c, _) => Ok (Some c) | Err e => Err e end
  end.
(** The overlay a project edit is judged by, and what the project may not set in it. *)
Definition project_overlay (layer : C) (text : str) : C * list str :=
  let overlay := clear_unset_default_agent toml_has_key layer text in
  let '(websearch, dropped) := WebSearch.strip_project_only_keys (Config.websearch overlay) in
  (overlay <| Config.websearch := websearch |>, dropped).
Definition before_and_after (target : ConfigTarget) (key : str) (path : list str) (text : str) (layer global : C) (project : option C) : result (C * C) :=
  match target with
  | Global => Ok (layered global None, layered layer None)
  | Project =>
      let '(overlay, dropped) := project_overlay layer text in
      if full dropped && (head path == Some (lit "websearch"))
      then Err (key ++ lit " cannot be set in the project config: the custom search endpoint, its headers and header_env are read only from the global config.")
      else Ok (layered global project, layered global (Some overlay))
  end.
Definition set_dotted_in (file_name : ConfigTarget → str) (target : ConfigTarget) (key raw : str) (fs : slots) : outcome slots :=
  path <-? Some (parse_key key);
  global_text <-? Some (read_optional (stored (fs Global)));
  project_text <-? Some (read_optional (stored (fs Project)));
  let original := match target with Global => global_text | Project => project_text end in
  patched <-? Some (patch_text (default [] original) path raw);
  let '(text, layer) := patched in
  global <-? Some (parse_global_text toml_config (default [] global_text));
  project <-? Some (project_layer project_text (file_name Project));
  pair <-? Some (before_and_after target key path text layer global project);
  let '(before, after) := pair in
  tree <-? Some (to_toml layer);
  match lookup_path tree path with
  | None => Some (Err (lit "unknown config key: " ++ key))
  | Some wanted =>
      _ <-? refuse_new_issues before after;
      merged <-? Some (to_toml after);
      if match lookup_path merged path with Some v => value_eqb v wanted | None => false end
      then Some (Ok (set_slot fs target (write_slot (fs target) original text)))
      else Some (Err (key ++ lit " in " ++ file_name target
                      ++ lit " would have no effect: the merged config keeps the value from a lower layer."))
  end.
End set.

(** ** What a successful edit did *)

Section set_facts.
Context {J T X : Type} (env : str → option str) (to_uppercase : str → str) (fmt_f64 : f64 → str).
Context (toml_config : str → result (Config J T)) (toml_has_key : str → str → bool).
Context (to_toml : Config J T → result (value X)) (value_eqb : value X → value X → bool).
Context (parse_key : str → result (list str)) (parse_doc : str → result (list (str * item X))).
Context (doc_text : list (str * item X) → str) (parse_value : str → option (item X)) (file_name : ConfigTarget → str).
Notation C := (Config J T).
Notation set_dotted := (set_dotted_in env to_uppercase fmt_f64 toml_config toml_has_key to_toml value_eqb parse_key parse_doc doc_text parse_value file_name).

Definition text_of (f : file) : str := match f with Contents text => text | _ => [] end.
(** The value written: the literal, or the raw text as a string. *)
Definition written_value (raw : str) (v : item X) : Prop := parse_value raw = Some v ∨ v = IValue (VString raw) [].

Lemma patch_text_ok original path raw text layer :
  patch_text toml_config parse_doc doc_text parse_value original path raw = Ok (text, layer) →
  ∃ doc doc' v, parse_doc original = Ok doc ∧ written_value raw v ∧ set_in_document doc path v = Ok doc'
    ∧ text = doc_text doc' ∧ parse_global_text toml_config text = Ok layer.
Proof.
  unfold patch_text. destruct (parse_doc original) as [doc|]; [|done]. cbv zeta.
  assert (H : ∀ v, try_value toml_config doc_text doc path v = Ok (text, layer) → written_value raw v →
    ∃ doc0 doc' v, Ok doc = Ok doc0 ∧ written_value raw v ∧ set_in_document doc0 path v = Ok doc'
    ∧ text = doc_text doc' ∧ parse_global_text toml_config text = Ok layer).
  { intros v Hv Hw. unfold try_value in Hv. destruct (set_in_document doc path v) as [doc'|] eqn:Es; [|done].
    destruct (parse_global_text _ _) as [c|] eqn:Ep; [|done]. injection Hv as <- <-. by exists doc, doc', v. }
  destruct (parse_value raw) as [v|] eqn:Ev; [|intros Hs; apply (H _ Hs); by right].
  destruct (try_value _ _ doc path v) as [r|] eqn:Et; [intros [= ->]; apply (H v Et); by left|].
  destruct (try_value _ _ doc path (IValue _ _)) as [r|] eqn:Et2; [|done]. intros [= ->]. apply (H _ Et2). by right.
Qed.
Lemma refuse_new_issues_ok (before after : C) old new :
  with_env env to_uppercase fmt_f64 before = Some old → with_env env to_uppercase fmt_f64 after = Some new →
  refuse_new_issues env to_uppercase fmt_f64 before after = Some (Ok ()) → ∀ i, i ∈ new → i ∈ old.
Proof.
  intros Ho Hn. unfold refuse_new_issues. rewrite Ho, Hn. cbn. intros H i Hi.
  destruct (List.filter _ new) as [|x xs] eqn:Ef; [|done].
  destruct (existsb (λ o, o == i) old) eqn:E.
  - apply existsb_exists in E as (o & Ho' & Eo). apply bool_decide_eq_true in Eo as <-. by apply list_elem_of_In.
  - assert (In i (List.filter (λ i, negb (existsb (λ o, o == i) old)) new)) as Hin; [|by rewrite Ef in Hin].
    apply filter_In. split; [by apply list_elem_of_In|by rewrite E].
Qed.
(** The checks look at every configuration. *)
Lemma with_env_total (c : C) : is_Some (with_env env to_uppercase fmt_f64 c).
Proof.
  unfold with_env, validation_errors, collect_issues, collect_notify_issues. set (n := Config.notify _).
  destruct (Notify.discord_webhook n) as [url|]; [|by eexists]. destruct (trim url == []); [by eexists|].
  destruct (is_discord_total url) as [b ->]. by eexists.
Qed.
Lemma set_in_document_only doc path (v : item X) doc' :
  set_in_document doc path v = Ok doc' → ∃ l, last path = Some l ∧ sets_only (removelast path) l v doc doc' ∧ edits v false (removelast path) l doc doc'.
Proof.
  unfold set_in_document. destruct (last path) as [l|]; [|done]. intros H. exists l.
  split_and!; [done|apply (set_in_only (S (length (removelast path)))) in H; [done|lia]|apply (set_in_edits (S (length (removelast path)))) in H; [done|lia]].
Qed.

Definition backup_after (s : slot) : option str := match backup s with None => (if stored s is Contents text then Some text else None) | b => b end.
(** The configuration below and above the edit, the value the edited file holds for the
    key, and the one in force. *)
Definition in_force (target : ConfigTarget) (key : str) (path : list str) (fs : slots) (text : str) : Prop :=
  ∃ layer global project before after tree merged w w' old new,
    parse_global_text toml_config text = Ok layer ∧ parse_global_text toml_config (text_of (stored (fs Global))) = Ok global
    ∧ before_and_after toml_has_key target key path text layer global project = Ok (before, after)
    ∧ to_toml layer = Ok tree ∧ lookup_path tree path = Some w ∧ to_toml after = Ok merged ∧ lookup_path merged path = Some w'
    ∧ value_eqb w' w = true
    ∧ with_env env to_uppercase fmt_f64 before = Some old ∧ with_env env to_uppercase fmt_f64 after = Some new ∧ ∀ i, i ∈ new → i ∈ old.

End set_facts.

(** A project file with the one key [default_agent], edited. *)
Section example.
Definition agent_doc (text : str) : list (str * item unit) := if text == [] then [] else [(lit "default_agent", IValue (VString text) [])].
Definition agent_text (doc : list (str * item unit)) : str := default [] (table_get doc (lit "default_agent") ≫= item_str).
Definition agent_tree (c : Config unit unit) : value unit := VTable [(lit "default_agent", VString (Config.default_agent c))].
Definition string_eqb (a b : value unit) : bool := match a, b with VString a, VString b => a == b | _, _ => false end.
Definition edit_plan (fs : slots) : outcome slots :=
  set_dotted_in (J := unit) (T := unit) (λ _, None) id (λ _, []) (λ text, Ok (Config.new <| Config.default_agent := text |>)) (λ text _, full text)
    (λ c, Ok (agent_tree c)) string_eqb (λ k, Ok [k]) (λ text, Ok (agent_doc text)) agent_text (λ _, None) (λ _, lit "config.toml")
    Project (lit "default_agent") (lit "plan") fs.
Definition one_file (text : str) (t : ConfigTarget) : slot := match t with Project => mk_slot (Contents text) None | Global => mk_slot Missing None end.
End example.
