(* ===== verification/Secrets.v ===== *)
(** Redaction of secrets in what is sent to a provider ([llm/src/secrets.rs]): known
    values and token shapes become placeholders, placeholders in the arguments of a call
    become the values again.

    The [regex] crate and [Sha256] are parameters: a pattern gives, for a text, the last
    group of each of its matches with the text between them. JSON values are the trees of
    ConfigTree. Texts that are not read here (thinking, images) stay as they are. *)

From stdpp Require Import sorting.
From S2P Require Import Prelude RustStr Bytes Messages ConfigTree.

Definition PLACEHOLDER_PREFIX : str := lit "$$SECRET:".
Definition PLACEHOLDER_SUFFIX : str := lit "$$".
Definition MIN_ENV_SECRET_LEN : nat := 8.

(** ** The key file *)

Definition hex_digit (d : N) : rchar := if (d <? 10)%N then (48 + d)%N else (87 + d)%N.
(** [format!("{b:02x}")], byte by byte. *)
Definition hex (bytes : list N) : str := mjoin ((λ b, [hex_digit (b / 16); hex_digit (b mod 16)]) <$> bytes).
(** [u8::from_str_radix(s, 16)]: a sign is read. *)
Definition u8_from_hex (s : str) : option N :=
  n ← match s with
      | [] => None
      | [_] => from_digits 16 0 s
      | c :: r => from_digits 16 0 (if (c =? chr "+")%N then r else s)
      end;
  if (n <=? 255)%N then Some n else None.
(** The bytes from the [i]-th on, [n] of them: [None] is a slice off a character boundary. *)
Fixpoint key_bytes (text : str) (i n : nat) : option (option (list N)) :=
  match n with
  | O => Some (Some [])
  | S n =>
      digits ← slice text (i * 2) (i * 2 + 2);
      match u8_from_hex digits with
      | None => Some None
      | Some b => rest ← key_bytes text (S i) n; Some (cons b <$> rest)
      end
  end.
Definition parse_key_hex (text : str) : option (option (list N)) := if byte_len text =? 64 then key_bytes text 0 32 else Some None.

(** ** Placeholders *)

Section redactor.
Context (sha256 : list N → list N) (key : list N).

(** A block of 64 bytes [b], the key xored into its start. *)
Definition pad (b : N) : list N := zip_with N.lxor (replicate 64 b) (key ++ replicate (64 - length key) 0%N).
Definition hmac_sha256 (message : list N) : list N := sha256 (pad 92 ++ sha256 (pad 54 ++ message)).
(** [&hex(&tag)[..16]]: a tag has 32 bytes. *)
Definition tag_of (secret : str) : str := take 16 (hex (hmac_sha256 (utf8 secret))).
Definition placeholder_for (secret : str) : str := PLACEHOLDER_PREFIX ++ tag_of secret ++ PLACEHOLDER_SUFFIX.

Record State := mkState { by_secret : gmap str str; by_placeholder : gmap str str }.
Definition empty_state : State := mkState ∅ ∅.
Definition register (secret : str) (st : State) : str * State :=
  match by_secret st !! secret with
  | Some p => (p, st)
  | None =>
      let p := placeholder_for secret in
      (p, mkState (<[ secret := p ]> (by_secret st)) (<[ p := secret ]> (by_placeholder st)))
  end.

Definition looks_like_env_secret (value : str) : bool :=
  let v := trim value in
  (MIN_ENV_SECRET_LEN <=? byte_len v) && negb (existsb is_whitespace v)
  && negb (starts_with v (lit "/")) && negb (starts_with v (lit "~")) && negb (starts_with v (lit "."))
  && negb ((2 <? byte_len v) && match utf8 v with a :: b :: _ => (b =? 58)%N && is_ascii_alphabetic a | _ => false end).
(** [env_name] is the pattern for names of credentials. *)
Definition register_var (env_name : str → bool) (st : State) (var : str * str) : State :=
  if env_name var.1 && looks_like_env_secret var.2 then (register (trim var.2) st).2 else st.
Definition register_env (env_name : str → bool) (vars : list (str * str)) (st : State) : nat * State :=
  (length (List.filter (λ v, env_name v.1 && looks_like_env_secret v.2) vars), foldl (register_var env_name) st vars).

(** ** Redaction *)

(** [sort_by]: longest first, then by the bytes. *)
Definition before_in_order (a b : str * str) : bool :=
  (byte_len b.1 <? byte_len a.1) || ((byte_len b.1 =? byte_len a.1) && str_le a.1 b.1).
Definition in_order (a b : str * str) : Prop := before_in_order a b = true.
#[export] Instance in_order_dec a b : Decision (in_order a b) := bool_eq_dec _ _.
Definition replace_known (st : State) (text : str) : option str :=
  match List.filter (λ sp, contains text sp.1) (map_to_list (by_secret st)) with
  | [] => None
  | pairs => Some (foldl (λ out sp, replace out sp.1 sp.2) text (merge_sort in_order pairs))
  end.

(** The last group of a match, behind the text since the last one. *)
Record hit := mkHit { gap : str; found : str }.
(** The loop of [replace_pattern]: [written] is [out], [pending] the text from [last] on,
    [before] everything up to here. *)
Record scan := mkScan { written : str; pending : str; before : str; changed : bool; state : State }.
Definition scan_hit (s : scan) (h : hit) : scan :=
  let before := before s ++ gap h in
  if starts_with (found h) PLACEHOLDER_PREFIX || ends_with before PLACEHOLDER_PREFIX
  then mkScan (written s) (pending s ++ gap h ++ found h) (before ++ found h) (changed s) (state s)
  else
    let '(p, st) := register (found h) (state s) in
    mkScan (written s ++ pending s ++ gap h ++ p) [] (before ++ found h) true st.

Context (captures : list (str → list hit * str)).
Definition replace_pattern (st : State) (pattern : str → list hit * str) (text : str) : option str * State :=
  let '(hits, tail) := pattern text in
  let s := foldl scan_hit (mkScan [] [] [] false st) hits in
  (if changed s then Some (written s ++ pending s ++ tail) else None, state s).
Definition pattern_step (text : str) (acc : option str * State) (pattern : str → list hit * str) : option str * State :=
  let '(out, st) := acc in
  let '(next, st) := replace_pattern st pattern (default text out) in
  (match next with Some next => Some next | None => out end, st).
Definition redact_text (text : str) (st : State) : option str * State :=
  foldl (pattern_step text) (replace_known st text, st) captures.

(** ** JSON *)

Context {X : Type}.
Notation V := (value X).
(** [map_strings]: keys are not strings of the value. *)
Fixpoint map_strings (f : str → State → option str * State) (v : V) (st : State) {struct v} : V * bool * State :=
  let items := fix items (l : list V) (st : State) : list V * bool * State :=
    match l with
    | [] => ([], false, st)
    | v :: l =>
        let '(v, c, st) := map_strings f v st in
        let '(l, c', st) := items l st in
        (v :: l, c || c', st)
    end in
  let entries := fix entries (l : list (str * V)) (st : State) : list (str * V) * bool * State :=
    match l with
    | [] => ([], false, st)
    | (k, v) :: l =>
        let '(v, c, st) := map_strings f v st in
        let '(l, c', st) := entries l st in
        ((k, v) :: l, c || c', st)
    end in
  match v with
  | VString s => match f s st with (Some next, st) => (VString next, true, st) | (None, st) => (v, false, st) end
  | VArray l => let '(l, c, st) := items l st in (VArray l, c, st)
  | VTable es => let '(es, c, st) := entries es st in (VTable es, c, st)
  | VScalar _ => (v, false, st)
  end.
Definition redact_json (v : V) (st : State) : option V * State :=
  let '(v, c, st) := map_strings redact_text v st in (if c then Some v else None, st).

(** ** Requests *)

Context {Image Time Options : Type}.
Notation Block := (ContentBlock V Image).
Notation Msg := (Message V Image Time).
(** [options]: tools, sampling, thinking, stop sequences. *)
Record LlmRequest := mkRequest { system : str; messages : list Msg; options : Options }.

Definition redact_block (b : Block) (st : State) : option Block * State :=
  match b with
  | BText t => let '(t, st) := redact_text t st in (BText <$> t, st)
  | BToolUse id name input => let '(v, st) := redact_json input st in (BToolUse id name <$> v, st)
  | BToolResult id content e => let '(c, st) := redact_text content st in ((λ c, BToolResult id c e) <$> c, st)
  | BImage _ | BThinking _ _ | BRedactedThinking _ | BCompaction _ _ => (None, st)
  end.
(** [iter().map(|x| match redact(x) { Some(r) => { changed = true; r } None => x.clone() })]. *)
Fixpoint redact_all {A} (f : A → State → option A * State) (l : list A) (st : State) : list A * bool * State :=
  match l with
  | [] => ([], false, st)
  | x :: l =>
      let '(r, st) := f x st in
      let '(l, c, st) := redact_all f l st in
      (default x r :: l, bool_decide (is_Some r) || c, st)
  end.
Definition redact_message (m : Msg) (st : State) : option Msg * State :=
  match content m with
  | MText t => let '(t, st) := redact_text t st in ((λ t, set_content m (MText t)) <$> t, st)
  | MBlocks bs => let '(bs, c, st) := redact_all redact_block bs st in (if c : bool then Some (set_content m (MBlocks bs)) else None, st)
  end.
Definition redact_request (r : LlmRequest) (st : State) : LlmRequest * State :=
  let '(s, st) := redact_text (system r) st in
  let '(ms, c, st) := redact_all redact_message (messages r) st in
  (mkRequest (default (system r) s) (if c : bool then ms else messages r) (options r), st).

(** ** Restoring *)

(** The entries of [by_placeholder], in the order the map gives them. *)
Definition restore_step (acc : str * bool) (e : str * str) : str * bool :=
  if contains acc.1 e.1 then (replace acc.1 e.1 e.2, true) else acc.
Definition restore_text (entries : list (str * str)) (text : str) : option str :=
  if contains text PLACEHOLDER_PREFIX then
    let '(out, changed) := foldl restore_step (text, false) entries in if changed : bool then Some out else None
  else None.
Definition restore_json (entries : list (str * str)) (v : V) (st : State) : V * bool :=
  (map_strings (λ s st, (restore_text entries s, st)) v st).1.
End redactor.
