(* ===== verification/SecretsFacts.v ===== *)
(** What redaction hides and restoring brings back ([llm/src/secrets.rs]).

    A redacted text is seen as a list of atoms: characters of the original and secrets
    that stand behind a placeholder. *)

From stdpp Require Import sorting.
From S2P Require Import Prelude RustStr Bytes Messages ConfigTree Secrets.

Definition marked : Type := list (rchar + str).
Definition chars (t : str) : marked := inl <$> t.
(** [s] is in the text between placeholders. *)
Definition shows (m : marked) (s : str) : Prop := ∃ x y, m = x ++ chars s ++ y.
Definition original_atom (x : rchar + str) : str := match x with inl c => [c] | inr s => s end.
Definition original (m : marked) : str := mjoin (original_atom <$> m).
(** [m'] has some runs of [m] behind placeholders. *)
Inductive hides (K : str → Prop) : marked → marked → Prop :=
| hides_nil : hides K [] []
| hides_keep x m m' : hides K m m' → hides K (x :: m) (x :: m')
| hides_run s m m' : K s → hides K m m' → hides K (chars s ++ m) (inr s :: m').

Definition cDollar : rchar := chr "$".
Definition quiet (t : str) : Prop := ¬ infix_of (lit "SECRET:") t.

Lemma chars_app a b : chars (a ++ b) = chars a ++ chars b.
Proof. apply fmap_app. Qed.
Lemma mjoin_app {A} (a b : list (list A)) : mjoin (a ++ b) = mjoin a ++ mjoin b.
Proof. apply join_app. Qed.
Lemma original_app a b : original (a ++ b) = original a ++ original b.
Proof. unfold original. by rewrite fmap_app, mjoin_app. Qed.
Lemma original_chars t : original (chars t) = t.
Proof. induction t as [|c t IH]; [done|]. change (c :: original (chars t) = c :: t). by rewrite IH. Qed.
Lemma hides_refl K m : hides K m m.
Proof. induction m; by constructor. Qed.
Lemma hides_app K a a' b b' : hides K a a' → hides K b b' → hides K (a ++ b) (a' ++ b').
Proof. intros H Hb. induction H; cbn; [done|by constructor|]. rewrite <- app_assoc. by constructor. Qed.
Lemma hides_original K m m' : hides K m m' → original m' = original m.
Proof.
  induction 1 as [|x m m' _ IH|s m m' _ _ IH]; [done| |].
  - change (original (x :: m')) with (original_atom x ++ original m'). by rewrite IH.
  - change (original (inr s :: m')) with (s ++ original m'). by rewrite original_app, original_chars, IH.
Qed.
Lemma hides_secrets K m m' s : hides K m m' → inr s ∈ m' → K s ∨ inr s ∈ m.
Proof.
  induction 1 as [|x m m' _ IH|q m m' Hq _ IH]; [by intros ?%elem_of_nil| |].
  - intros [<-|H]%elem_of_cons; [right; left|]. destruct (IH H); [by left|right; by right].
  - intros [[= ->]|H]%elem_of_cons; [by left|]. destruct (IH H); [by left|right; apply elem_of_app; by right].
Qed.
Lemma shows_app_r a b s : shows b s → shows (a ++ b) s.
Proof. intros (x & y & ->). exists (a ++ x), y. by rewrite <- app_assoc. Qed.
Lemma shows_app_l a b s : shows a s → shows (a ++ b) s.
Proof. intros (x & y & ->). exists x, (y ++ b). by rewrite <- !app_assoc. Qed.
Lemma shows_chars t s : shows (chars t) s ↔ infix_of s t.
Proof.
  split; [|intros (a & b & ->); exists (chars a), (chars b); by rewrite !chars_app].
  intros (x & y & E). apply fmap_app_inv in E as (a & r & -> & E & ->). symmetry in E.
  apply fmap_app_inv in E as (f & b & E1 & -> & ->). exists a, b.
  apply (inj (fmap (inl : rchar → rchar + str))) in E1. by rewrite E1.
Qed.
(** A run behind [hides] was there before. *)
Lemma hides_prefix K u : ∀ m m' y, hides K m m' → m' = chars u ++ y → ∃ y0, m = chars u ++ y0 ∧ hides K y0 y.
Proof.
  induction u as [|c u IH]; intros m m' y H E; [exists m; by subst|].
  cbn in E. inversion H as [|x a a' Ha|q a a' _ _]; simplify_eq. destruct (IH _ _ _ Ha eq_refl) as (y0 & -> & Hy). by exists y0.
Qed.
Lemma hides_shows K m m' s : hides K m m' → s ≠ [] → shows m' s → shows m s.
Proof.
  intros H Hs. induction H as [|x m m' H IH|q m m' _ H IH]; intros (a & b & E).
  - by exists a, b.
  - destruct a as [|x' a]; cbn in E.
    + destruct (hides_prefix K s (x :: m) (x :: m') b) as (y0 & -> & _); [by constructor|done|]. by exists [], y0.
    + injection E as <- ->. apply (shows_app_r [x]), IH. by exists a, b.
  - destruct a as [|x' a]; [by destruct s|]. injection E as _ ->. apply shows_app_r, IH. by exists a, b.
Qed.
Lemma shows_secret a q b s : s ≠ [] → shows (a ++ inr q :: b) s → shows a s ∨ shows b s.
Proof.
  intros Hs (x & y & E). revert x E. induction a as [|c a IH]; intros x E.
  - destruct x as [|z x]; [by destruct s|]. injection E as _ ->. right. by exists x, y.
  - destruct x as [|z x]; cbn in E.
    + left. clear IH. revert s Hs y E. 
      enough (H : ∀ s y, (c :: a) ++ inr q :: b = chars s ++ y → ∃ z, c :: a = chars s ++ z) by (intros s _ y E; destruct (H s y E) as [z ->]; by exists [], z).
      generalize (c :: a). intros l. induction l as [|d l IHl]; intros s y E; [destruct s; [by exists []|done]|].
      destruct s as [|e s]; [by exists (d :: l)|]. injection E as -> E. destruct (IHl _ _ E) as [z ->]. by exists z.
    + injection E as <- E. destruct (IH _ E) as [H|H]; [left; by apply (shows_app_r [c])|by right].
Qed.

(** A listed element that is not in the list. *)
Ltac not_listed H := vm_compute in H; repeat (apply elem_of_cons in H as [H|H]; [discriminate H|]); by apply elem_of_nil in H.

Section facts.
Context (sha256 : list N → list N) (key : list N).
(** What [Sha256] gives is 32 bytes. *)
Hypothesis sha256_digest : ∀ m, length (sha256 m) = 32 ∧ Forall (λ b, (b < 256)%N) (sha256 m).
Notation P := (placeholder_for sha256 key).
Notation tag := (tag_of sha256 key).

Definition is_hex (c : rchar) : Prop := (48 ≤ c ≤ 57)%N ∨ (97 ≤ c ≤ 102)%N.
Lemma hex_digit_hex d : (d < 16)%N → is_hex (hex_digit d).
Proof. unfold hex_digit, is_hex. destruct (N.ltb_spec d 10); lia. Qed.
Lemma hex_hex bytes : Forall (λ b, (b < 256)%N) bytes → Forall is_hex (hex bytes) ∧ length (hex bytes) = 2 * length bytes.
Proof.
  induction 1 as [|b bytes Hb _ [IH1 IH2]]; [by split; [constructor|]|]. split.
  - change (hex (b :: bytes)) with ([hex_digit (b / 16); hex_digit (b mod 16)] ++ hex bytes).
    apply Forall_app. split; [|done]. apply Forall_cons. split; [|apply Forall_singleton]; apply hex_digit_hex;
      [by apply N.Div0.div_lt_upper_bound|by apply N.mod_lt].
  - change (hex (b :: bytes)) with ([hex_digit (b / 16); hex_digit (b mod 16)] ++ hex bytes). rewrite length_app, IH2. cbn. lia.
Qed.
Lemma tag_shape s : length (tag s) = 16 ∧ Forall is_hex (tag s).
Proof.
  unfold tag_of, hmac_sha256. set (d := sha256 _). destruct (sha256_digest (pad key 92 ++ sha256 (pad key 54 ++ utf8 s))) as [Hl Hb].
  fold d in Hl, Hb. destruct (hex_hex d Hb) as [Hh Hn]. split; [rewrite length_take, Hn; lia|]. by apply Forall_take.
Qed.
Lemma tag_no c s : ¬ is_hex c → c ∉ tag s.
Proof. intros Hc H. destruct (tag_shape s) as [_ Ht]. rewrite Forall_forall in Ht. by apply Hc, Ht. Qed.
Lemma P_shape s : P s = cDollar :: cDollar :: (lit "SECRET:" ++ tag s) ++ [cDollar; cDollar].
Proof. unfold placeholder_for. rewrite <- app_assoc. reflexivity. Qed.

Definition render_atom (x : rchar + str) : str := match x with inl c => [c] | inr s => P s end.
Definition render (m : marked) : str := mjoin (render_atom <$> m).
Lemma render_app a b : render (a ++ b) = render a ++ render b.
Proof. unfold render. by rewrite fmap_app, mjoin_app. Qed.
Lemma render_chars t : render (chars t) = t.
Proof. induction t as [|c t IH]; [done|]. change (c :: render (chars t) = c :: t). by rewrite IH. Qed.
Lemma render_nil m : render m = [] → m = [].
Proof. destruct m as [|[c|s] m]; [done..|]. unfold render. cbn. by rewrite P_shape. Qed.

Lemma render_one x m : render (x :: m) = render_atom x ++ render m.
Proof. done. Qed.
Lemma P_ends s : ∃ z, P s = z ++ [cDollar].
Proof. exists (cDollar :: cDollar :: (lit "SECRET:" ++ tag s) ++ [cDollar]). rewrite P_shape. cbn [app]. by rewrite <- (app_assoc (lit "SECRET:" ++ tag s)). Qed.
(** Where a text without [$] lies in a rendered one. *)
Lemma locate (m : marked) : ∀ a f b, render m = a ++ f ++ b → f ≠ [] → cDollar ∉ f →
  (∃ m1 m2, m = m1 ++ chars f ++ m2 ∧ a = render m1 ∧ b = render m2)
  ∨ (∃ m1 s m2 u v, m = m1 ++ inr s :: m2 ∧ P s = u ++ f ++ v ∧ a = render m1 ++ u ∧ b = v ++ render m2).
Proof.
  induction m as [|x m IH]; intros a f b E Hf Hd; [by destruct a, f|].
  change (render (x :: m)) with (render_atom x ++ render m) in E. destruct x as [c|s]; cbn [render_atom] in E.
  - destruct a as [|c' a].
    + destruct f as [|c' f]; [done|]. injection E as <- E. destruct (base.decide (f = [])) as [->|Hf'].
      * left. exists [], m. split_and!; [done..|]. symmetry. exact E.
      * destruct (IH [] f b E Hf') as [(m1 & m2 & -> & H1 & ->)|(m1 & s & m2 & u & v & _ & Hs & H1 & _)]; [set_solver|..].
        -- symmetry in H1. apply render_nil in H1 as ->. left. by exists [], m2.
        -- symmetry in H1. apply app_nil in H1 as [_ ->]. rewrite P_shape in Hs. destruct f; [done|]. injection Hs as <- _. set_solver.
    + injection E as <- E. destruct (IH a f b E Hf Hd) as [(m1 & m2 & -> & -> & ->)|(m1 & s & m2 & u & v & -> & Hs & -> & ->)].
      * left. by exists (inl c :: m1), m2.
      * right. by exists (inl c :: m1), s, m2, u, v.
  - apply app_eq_inv in E as [(k & EP & E)|(k & -> & E)].
    + destruct (base.decide (k = [])) as [->|Hk].
      * rewrite app_nil_r in EP. subst a. destruct (IH [] f b (eq_sym E) Hf Hd) as [(m1 & m2 & -> & H1 & ->)|(m1 & q & m2 & u & v & -> & Hs & H1 & ->)].
        -- left. exists (inr s :: m1), m2. split_and!; [done| |done]. rewrite render_one, <- H1. by rewrite app_nil_r.
        -- right. exists (inr s :: m1), q, m2, u, v. split_and!; [done..| |done]. rewrite render_one, <- app_assoc, <- H1. by rewrite app_nil_r.
      * apply app_eq_inv in E as [(k' & -> & _)|(v & -> & ->)]; [|right; by exists [], s, m, a, v].
        exfalso. apply Hd, elem_of_app. left. destruct (P_ends s) as [z Ez]. rewrite Ez in EP.
        destruct k as [|d k _] using rev_ind; [done|]. rewrite app_assoc in EP. apply app_inj_tail in EP as [_ <-].
        apply elem_of_app. right. left.
    + destruct (IH k f b E Hf Hd) as [(m1 & m2 & -> & -> & ->)|(m1 & q & m2 & u & v & -> & Hs & -> & ->)].
      * left. by exists (inr s :: m1), m2.
      * right. exists (inr s :: m1), q, m2, u, v. split_and!; try done. by rewrite app_assoc.
Qed.

(** A secret the structure can carry: without [$], and in no placeholder. *)
Definition plain (s : str) : Prop := s ≠ [] ∧ cDollar ∉ s.
Definition apart_from_tags (s : str) : Prop := ∀ q, ¬ infix_of s (lit "SECRET:" ++ tag q).

Lemma in_P s q u v : plain s → P q = u ++ s ++ v → infix_of s (lit "SECRET:" ++ tag q).
Proof.
  rewrite P_shape. generalize (lit "SECRET:" ++ tag q). intros body [Hs Hd] E. destruct u as [|c u]; [destruct s as [|c s]; [done|]; injection E as <- _; set_solver|].
  injection E as <- E. destruct u as [|c u]; [destruct s as [|c s]; [done|]; injection E as <- _; set_solver|]. injection E as <- E.
  apply app_eq_inv in E as [(k & -> & E)|(k & -> & E)].
  - symmetry in E. apply app_eq_inv in E as [(w & -> & _)|(w & -> & E)]; [by exists u, w|].
    destruct w as [|d w]; [rewrite app_nil_r; exists u, []; by rewrite app_nil_r|]. injection E as <- _. set_solver.
  - destruct k as [|d [|d' [|]]]; cbn in E; destruct s as [|e s]; simplify_eq; set_solver.
Qed.
(** A plain secret is in a rendered text only where the text between placeholders is it. *)
Lemma rendered_infix m s : plain s → apart_from_tags s → infix_of s (render m) → shows m s.
Proof.
  intros Hp Ha (a & b & E). destruct (locate m a s b E) as [(m1 & m2 & -> & _ & _)|(m1 & q & m2 & u & v & _ & Hq & _ & _)]; [apply Hp..| |].
  - by exists m1, m2.
  - destruct (Ha q). by eapply in_P.
Qed.

(** ** Placeholders in a text that does not speak of them *)

Lemma no_S s : chr "S" ∉ tag s ++ [cDollar; cDollar].
Proof.
  intros [H|H]%elem_of_app; [by apply tag_no in H; [|unfold is_hex; vm_compute; intuition congruence]|]. not_listed H.
Qed.
Lemma occurrence m s a b : quiet (original m) → render m = a ++ P s ++ b →
  ∃ m1 q m2, m = m1 ++ inr q :: m2 ∧ P q = P s ∧ a = render m1 ∧ b = render m2.
Proof.
  intros Hq E. rewrite P_shape in E.
  assert (E' : render m = (a ++ [cDollar; cDollar]) ++ lit "SECRET:" ++ tag s ++ [cDollar; cDollar] ++ b).
  { rewrite E. cbn. by rewrite <- !app_assoc. }
  destruct (locate m _ _ _ E') as [(m1 & m2 & -> & _ & _)|(m1 & q & m2 & u & v & -> & HP & Hu & Hv)]; [done|intros H; not_listed H| |].
  - destruct Hq. rewrite !original_app, original_chars. by exists (original m1), (original m2).
  - assert (u = [cDollar; cDollar] ∧ v = tag q ++ [cDollar; cDollar]) as [-> ->].
    { rewrite P_shape, <- app_assoc in HP. destruct u as [|c1 [|c2 [|c3 u]]]; [injection HP as H _; discriminate H|injection HP as _ H _; discriminate H| |].
      - injection HP as <- <- HP. by split.
      - exfalso. assert (H : chr "S" ∈ lit "ECRET:" ++ tag q ++ [cDollar; cDollar]).
        { injection HP as _ _ _ HP. change (lit "ECRET:" ++ tag q ++ [cDollar; cDollar] = u ++ lit "SECRET:" ++ v) in HP.
          rewrite HP. apply elem_of_app. right. left. }
        apply elem_of_app in H as [H|H]; [|by apply no_S in H]. not_listed H. }
    exists m1, q, m2. apply app_inv_tail in Hu. rewrite app_assoc in Hv. rewrite <- (app_assoc (tag q)) in Hv.
    rewrite <- app_assoc in Hv. apply app_inj_1 in Hv as [Ht Hv]; [|by rewrite !(proj1 (tag_shape _))].
    injection Hv as ->. split_and!; try done. unfold placeholder_for. by rewrite Ht.
Qed.

(** Putting one secret back. *)
Definition unmark_atom (s : str) (x : rchar + str) : marked := match x with inr q => if q == s then chars s else [x] | inl _ => [x] end.
Definition unmark (s : str) (m : marked) : marked := mjoin (unmark_atom s <$> m).
Lemma unmark_app s a b : unmark s (a ++ b) = unmark s a ++ unmark s b.
Proof. unfold unmark. rewrite fmap_app. apply mjoin_app. Qed.
Lemma unmark_original s m : original (unmark s m) = original m.
Proof.
  induction m as [|x m IH]; [done|]. change (unmark s (x :: m)) with (unmark_atom s x ++ unmark s m). rewrite original_app, IH.
  change (original (x :: m)) with (original_atom x ++ original m). f_equal. destruct x as [c|q]; cbn [unmark_atom]; [done|].
  destruct (q == s) eqn:E; [|exact (app_nil_r q)]. apply bool_decide_eq_true in E as ->. apply original_chars.
Qed.
Lemma unmark_none s m : inr s ∉ m → unmark s m = m.
Proof.
  induction m as [|x m IH]; intros H; [done|]. apply not_elem_of_cons in H as [Hx H].
  change (unmark s (x :: m)) with (unmark_atom s x ++ unmark s m). rewrite IH by done. destruct x as [c|q]; cbn [unmark_atom]; [done|].
  by rewrite bool_decide_false by congruence.
Qed.
Lemma unmark_secrets s m q : inr q ∈ unmark s m → inr q ∈ m ∧ q ≠ s.
Proof.
  unfold unmark. intros H. apply list_elem_of_join in H as (l & Hq & Hl). apply list_elem_of_fmap in Hl as (x & -> & Hx).
  destruct x as [c|q']; cbn [unmark_atom] in Hq; [by apply list_elem_of_singleton in Hq|]. destruct (q' == s) eqn:E.
  - apply list_elem_of_fmap in Hq as (? & [=] & _).
  - apply list_elem_of_singleton in Hq as [= ->]. apply bool_decide_eq_false in E. done.
Qed.
Lemma P_nonempty s : P s ≠ [].
Proof. by rewrite P_shape. Qed.

Definition no_collision (ss : list str) : Prop := ∀ a b, a ∈ ss → b ∈ ss → P a = P b → a = b.
Lemma render_le a b : length (render a) ≤ length (render (a ++ b)).
Proof. rewrite render_app, length_app. lia. Qed.
Lemma put_back m s : quiet (original m) → (∀ q, inr q ∈ m → P q = P s → q = s) → replace (render m) (P s) s = render (unmark s m).
Proof.
  induction m as [m IH] using (induction_ltof1 _ (@length _)). unfold ltof in IH. intros Hq Hc.
  destruct (base.decide (inr s ∈ m)) as [Hin|Hin].
  - apply list_elem_of_split_l in Hin as (m1 & m2 & -> & H1). rewrite render_app, unmark_app, render_one. cbn [render_atom]. unfold replace.
    rewrite replace_go_first.
    + change (unmark s (inr s :: m2)) with (unmark_atom s (inr s) ++ unmark s m2). cbn [unmark_atom]. rewrite bool_decide_true by done.
      rewrite (unmark_none s m1), !render_app, render_chars by done. do 2 f_equal.
      change (replace (render m2) (P s) s = render (unmark s m2)). apply IH.
      * rewrite length_app. cbn. lia.
      * intros H. apply Hq. rewrite original_app. change (original (inr s :: m2)) with (s ++ original m2).
        destruct H as (a & b & ->). exists (original m1 ++ s ++ a), b. by rewrite <- !app_assoc.
      * intros q Hm. apply Hc, elem_of_app. by right; right.
    + apply P_nonempty.
    + intros a' b' E. replace (render m1 ++ P s ++ render m2) with (render (m1 ++ inr s :: m2)) in E by (by rewrite render_app).
      destruct (occurrence _ _ _ _ Hq E) as (n1 & q & n2 & En & HP & -> & _).
      assert (q = s) as -> by (apply Hc; [rewrite En; apply elem_of_app; right; left|done]).
      apply app_eq_inv in En as [(k & -> & En)|(k & -> & _)]; [|apply render_le].
      destruct k as [|x k]; [rewrite app_nil_r; lia|]. injection En as <- _. destruct H1. apply elem_of_app. right. left.
  - rewrite unmark_none by done. apply replace_go_none. intros (a & b & E). destruct (occurrence _ _ _ _ Hq E) as (m1 & q & m2 & -> & HP & _ & _).
    apply Hin. rewrite <- (Hc q); [apply elem_of_app; right; left|apply elem_of_app; right; left|done].
Qed.

(** Every entry put back, in any order. *)
Lemma restore_unchanged es : ∀ x c y, foldl restore_step (x, c) es = (y, false) → y = x ∧ c = false.
Proof.
  induction es as [|e es IH]; intros x c y; cbn [foldl]; [by intros [= -> ->]|]. unfold restore_step at 2. cbn [fst].
  destruct (contains x e.1); intros H%IH; [by destruct H|done].
Qed.
Lemma put_all_back entries : ∀ m c, quiet (original m) → Forall (λ e, e.1 = P e.2) entries →
  (∀ q e, inr q ∈ m → e ∈ entries → P q = P e.2 → q = e.2) →
  (foldl restore_step (render m, c) entries).1 = render (foldl (λ m e, unmark e.2 m) m entries).
Proof.
  induction entries as [|e es IH]; intros m c Hq He Hc; [done|]. apply Forall_cons in He as [H1 He]. cbn [foldl].
  assert (Hb : replace (render m) (P e.2) e.2 = render (unmark e.2 m)) by (apply put_back; [done|]; intros q Hm; by apply Hc; [|left]).
  assert (Hone : (restore_step (render m, c) e).1 = render (unmark e.2 m)).
  { unfold restore_step. cbn [fst]. rewrite H1. destruct (contains (render m) (P e.2)) eqn:E; [done|].
    cbn [fst]. rewrite <- Hb. symmetry. apply replace_go_none. intros H%contains_true. by rewrite H in E. }
  destruct (restore_step (render m, c) e) as [x c'] eqn:Es. cbn [fst] in Hone. subst x. apply IH; [by rewrite unmark_original|done|].
  intros q e' [Hm _]%unmark_secrets He'. by apply Hc; [|right].
Qed.
Lemma unmark_all (entries : list (str * str)) : ∀ m q, inr q ∈ foldl (λ m e, unmark e.2 m) m entries → inr q ∈ m ∧ ∀ e, e ∈ entries → q ≠ e.2.
Proof.
  induction entries as [|e es IH]; intros m q; cbn [foldl]; [intros H; split; [done|by intros e ?%elem_of_nil]|].
  intros [[H1 H2]%unmark_secrets H]%IH. split; [done|]. intros e' [->|He]%elem_of_cons; [done|by apply H].
Qed.
Lemma unmark_all_original (entries : list (str * str)) : ∀ m, original (foldl (λ m e, unmark e.2 m) m entries) = original m.
Proof. induction entries as [|e es IH]; intros m; cbn [foldl]; [done|]. by rewrite IH, unmark_original. Qed.
Lemma no_secrets m : (∀ q, inr q ∉ m) → render m = original m.
Proof.
  induction m as [|[c|s] m IH]; intros H; [done| |].
  - change (c :: render m = c :: original m). rewrite IH; [done|]. intros q Hq. apply (H q). by right.
  - destruct (H s). left.
Qed.
(** What a model writes with placeholders it was shown is what it means. *)
Lemma restore_rendered entries m : quiet (original m) → Forall (λ e, e.1 = P e.2) entries →
  (∀ q e, inr q ∈ m → e ∈ entries → P q = P e.2 → q = e.2) → (∀ q, inr q ∈ m → (P q, q) ∈ entries) →
  default (render m) (restore_text entries (render m)) = original m.
Proof.
  intros Hq He Hc Hall. unfold restore_text. pose proof (put_all_back entries m false Hq He Hc) as Hf.
  assert (Hend : render (foldl (λ m e, unmark e.2 m) m entries) = original m).
  { rewrite no_secrets, unmark_all_original; [done|]. intros q [Hm Hn]%unmark_all. by apply (Hn (P q, q)); [apply Hall|]. }
  destruct (contains (render m) PLACEHOLDER_PREFIX) eqn:E.
  - destruct (foldl restore_step (render m, false) entries) as [y []] eqn:Er; cbn [fst] in Hf; cbn [default].
    + by rewrite Hf.
    + apply restore_unchanged in Er as [<- _]. by rewrite Hf.
  - cbn [default from_option]. apply no_secrets. intros q Hm. apply list_elem_of_split in Hm as (a & b & ->).
    assert (contains (render (a ++ inr q :: b)) PLACEHOLDER_PREFIX = true); [|congruence]. apply contains_true.
    rewrite render_app, render_one. cbn [render_atom]. exists (render a), (tag q ++ PLACEHOLDER_SUFFIX ++ render b).
    unfold placeholder_for. by rewrite <- !app_assoc.
Qed.

(** ** Hiding *)

(** Every [q] in a rest of the rendered text is a run of characters. *)
Definition findable (q : str) (m : marked) : Prop :=
  ∀ x m2 a b, m = x ++ m2 → render m2 = a ++ q ++ b → ∃ m1 m3, m2 = m1 ++ chars q ++ m3 ∧ a = render m1 ∧ b = render m3.
Lemma findable_plain q m : plain q → apart_from_tags q → findable q m.
Proof.
  intros Hp Ha x m2 a b _ E. destruct (locate m2 a q b E) as [H|(m1 & s & m3 & u & v & _ & Hs & _ & _)]; [apply Hp..|done|].
  destruct (Ha s). by eapply in_P.
Qed.
Lemma chars_split t x m2 : chars t = x ++ m2 → ∃ u, m2 = chars u.
Proof. intros E. apply fmap_app_inv in E as (? & u & _ & -> & _). by exists u. Qed.
Lemma findable_chars q t : findable q (chars t).
Proof.
  intros x m2 a b E H. destruct (chars_split _ _ _ E) as [u ->]. rewrite render_chars in H. subst u.
  exists (chars a), (chars b). by rewrite !chars_app, !render_chars.
Qed.
Lemma findable_suffix q x m : findable q (x ++ m) → findable q m.
Proof. intros H y m2 a b E. apply (H (x ++ y)). by rewrite E, app_assoc. Qed.
Lemma hide_one q m : q ≠ [] → findable q m →
  ∃ m', hides (eq q) m m' ∧ replace (render m) q (P q) = render m' ∧ ¬ shows m' q.
Proof.
  intros Hq. induction m as [m IH] using (induction_ltof1 _ (@length _)). unfold ltof in IH. intros Hf.
  destruct (find (render m) q) as [j|] eqn:E.
  - apply find_Some in E as (a & b & E & _ & Hfirst). destruct (Hf [] m a b eq_refl E) as (m1 & m2 & -> & -> & ->).
    destruct (IH m2) as (m2' & Hh & Hr & Hs).
    { rewrite !length_app. unfold chars. rewrite length_fmap. destruct q; [done|]. cbn. lia. }
    { rewrite app_assoc in Hf. by apply findable_suffix in Hf. }
    exists (m1 ++ inr q :: m2'). split_and!.
    + apply hides_app; [apply hides_refl|by constructor].
    + rewrite E. unfold replace in *. rewrite replace_go_first; [|done|by intros a' b'; rewrite <- E; apply Hfirst].
      by rewrite render_app, render_one, Hr.
    + intros [(x & y & ->)|H]%shows_secret; [|done|done].
      specialize (Hfirst (render x) (render y ++ q ++ render m2)). rewrite !render_app, render_chars, <- !app_assoc in Hfirst.
      specialize (Hfirst eq_refl). rewrite !length_app in Hfirst. destruct q; [done|]. cbn in Hfirst. lia.
  - apply find_None in E. exists m. split_and!; [apply hides_refl|by apply replace_go_none|].
    intros (x & y & ->). apply E. rewrite !render_app, render_chars. by exists (render x), (render y).
Qed.

(** ** What is registered *)

Definition known (st : State) (s : str) : Prop := is_Some (by_secret st !! s).
Record wf (st : State) : Prop := {
  wf_secret : ∀ s p, by_secret st !! s = Some p → p = P s ∧ s ≠ [];
  wf_back : ∀ p s, by_placeholder st !! p = Some s → p = P s ∧ known st s;
  wf_all : ∀ s, known st s → is_Some (by_placeholder st !! P s) }.
Definition grows (st st' : State) : Prop := ∀ s, known st s → known st' s.
Lemma grows_refl st : grows st st.
Proof. by intros s. Qed.
Lemma grows_trans a b c : grows a b → grows b c → grows a c.
Proof. unfold grows. naive_solver. Qed.
Lemma wf_empty : wf empty_state.
Proof. split; [intros s p H|intros p s H|intros s [p H]]; cbn in H; by rewrite lookup_empty in H. Qed.
Lemma register_spec s st : wf st → s ≠ [] →
  let '(p, st') := register sha256 key s st in p = P s ∧ wf st' ∧ grows st st' ∧ known st' s.
Proof.
  intros Hw Hs. unfold register. destruct (by_secret st !! s) as [p|] eqn:E.
  - split_and!; [by apply Hw in E as [-> _]|done|apply grows_refl|by exists p].
  - split_and!; [done| | |by eexists; apply lookup_insert_eq].
    + assert (Hk : ∀ q, known st q → known (mkState (<[s:=P s]> (by_secret st)) (<[P s:=s]> (by_placeholder st))) q).
      { intros q [p Hp]. unfold known. cbn. destruct (base.decide (s = q)) as [->|Hn]; [by rewrite lookup_insert_eq; eexists|].
        rewrite lookup_insert_ne by done. by exists p. }
      split; cbn.
      * intros q p H. apply lookup_insert_Some in H as [[<- <-]|[_ H]]; [done|by apply Hw in H].
      * intros p q H. apply lookup_insert_Some in H as [[<- <-]|[_ H]]; [split; [done|eexists; apply lookup_insert_eq]|].
        apply Hw in H as [-> H]. split; [done|by apply Hk].
      * intros q H. destruct (base.decide (P s = P q)) as [->|Hn]; [rewrite lookup_insert_eq; by eexists|].
        rewrite lookup_insert_ne by done. apply Hw. destruct H as [p H]. cbn in H.
        apply lookup_insert_Some in H as [[<- _]|[_ H]]; [done|by exists p].
    + intros q [p Hp]. unfold known. cbn. destruct (base.decide (s = q)) as [->|Hn]; [by rewrite lookup_insert_eq; eexists|].
      rewrite lookup_insert_ne by done. by exists p.
Qed.

(** A text with some of its runs behind placeholders of secrets in [K]. *)
Record covered (K : str → Prop) (m m' : marked) : Prop := {
  covered_original : original m' = original m;
  covered_shows : ∀ s, s ≠ [] → shows m' s → shows m s;
  covered_secrets : ∀ q, inr q ∈ m' → K q ∨ inr q ∈ m }.
Lemma covered_hides K m m' : hides K m m' → covered K m m'.
Proof. intros H. split; [by eapply hides_original|intros s; by eapply hides_shows|intros q; by eapply hides_secrets]. Qed.
Lemma covered_refl K m : covered K m m.
Proof. by split; [| |right]. Qed.
Lemma covered_trans (K K' : str → Prop) a b c : (∀ q, K q → K' q) → covered K a b → covered K' b c → covered K' a c.
Proof.
  intros HK [H1 H2 H3] [G1 G2 G3]. split; [congruence|eauto|]. intros q [?|[?|?]%H3]%G3; eauto.
Qed.
Lemma hides_mono (K K' : str → Prop) m m' : (∀ q, K q → K' q) → hides K m m' → hides K' m m'.
Proof. intros HK H. induction H; constructor; eauto. Qed.

(** Known secrets are replaced. *)
Lemma hide_pairs pairs : ∀ m, Forall (λ sp, sp.1 ≠ [] ∧ sp.2 = P sp.1) pairs →
  (∀ q, q ∈ pairs.*1 → plain q ∧ apart_from_tags q) →
  ∃ m', covered (λ q, q ∈ pairs.*1) m m' ∧ foldl (λ out sp, replace out sp.1 sp.2) (render m) pairs = render m'.
Proof.
  induction pairs as [|[q p] pairs IH]; intros m Hf Hp; [exists m; split; [apply covered_refl|done]|].
  apply Forall_cons in Hf as [[Hq HP] Hf]. cbn in Hq, HP. subst p. destruct (Hp q) as [Hpq Haq]; [left|].
  destruct (hide_one q m Hq (findable_plain q m Hpq Haq)) as (m1 & H1 & E1 & _).
  destruct (IH m1 Hf) as (m2 & H2 & E2); [by intros q' Hq'; apply Hp; right|]. exists m2. split.
  - eapply covered_trans; [|by apply covered_hides|].
    + intros q' <-. left.
    + destruct H2 as [G1 G2 G3]. split; [done..|]. intros q' [H|H]%G3; [left; by right|by right].
  - cbn. by rewrite E1.
Qed.
Lemma infix_replaced s q t : q ≠ [] → plain s → apart_from_tags s → ¬ infix_of s t ∨ s = q → ¬ infix_of s (replace t q (P q)).
Proof.
  intros Hq Hp Ha H Hi. destruct (hide_one q (chars t) Hq (findable_chars q t)) as (m & Hm & E & Hn). rewrite render_chars in E.
  rewrite E in Hi. apply rendered_infix in Hi; [|done..]. destruct H as [H| ->]; [|done].
  apply H, shows_chars. eapply hides_shows; [done|apply Hp|done].
Qed.
Lemma fold_replaced s pairs : plain s → apart_from_tags s → ∀ t, Forall (λ sp, sp.1 ≠ [] ∧ sp.2 = P sp.1) pairs →
  ¬ infix_of s t ∨ s ∈ pairs.*1 → ¬ infix_of s (foldl (λ out sp, replace out sp.1 sp.2) t pairs).
Proof.
  intros Hp Ha. induction pairs as [|[q p] pairs IH]; intros t Hf Hs; [by destruct Hs as [H|?%elem_of_nil]|].
  apply Forall_cons in Hf as [[Hq HP] Hf]. cbn in Hq, HP. subst p. cbn [foldl fst snd]. apply IH; [done|].
  destruct Hs as [H|[->|H]%elem_of_cons]; [left; apply infix_replaced; auto|left; apply infix_replaced; auto|by right].
Qed.
Definition pairs_of (st : State) (text : str) : list (str * str) :=
  merge_sort in_order (List.filter (λ sp, contains text sp.1) (map_to_list (by_secret st))).
Lemma replace_known_eq st text :
  default text (replace_known st text) = foldl (λ out sp, replace out sp.1 sp.2) text (pairs_of st text).
Proof. unfold replace_known, pairs_of. by destruct (List.filter _ _). Qed.
Lemma elem_pairs st text q p : (q, p) ∈ pairs_of st text ↔ contains text q = true ∧ by_secret st !! q = Some p.
Proof.
  unfold pairs_of. rewrite merge_sort_Permutation, list_elem_of_In, filter_In, <- list_elem_of_In, elem_of_map_to_list. naive_solver.
Qed.
Lemma pairs_good st text : wf st → Forall (λ sp, sp.1 ≠ [] ∧ sp.2 = P sp.1) (pairs_of st text).
Proof. intros Hw. apply Forall_forall. intros [q p] [_ H]%elem_pairs. apply Hw in H as [-> H]. done. Qed.
Lemma elem_pairs_known st text q : q ∈ (pairs_of st text).*1 ↔ contains text q = true ∧ known st q.
Proof.
  rewrite list_elem_of_fmap. split; [intros ([q' p] & -> & [H1 H2]%elem_pairs); split; [done|by exists p]|].
  intros [H [p Hp]]. exists (q, p). split; [done|by apply elem_pairs].
Qed.
Lemma replace_known_hides st text s : wf st → known st s → plain s → apart_from_tags s →
  ¬ infix_of s (default text (replace_known st text)).
Proof.
  intros Hw Hk Hp Ha. rewrite replace_known_eq. apply fold_replaced; [done..|by apply pairs_good|]. rewrite elem_pairs_known, <- contains_true.
  destruct (contains text s); [by right|by left].
Qed.

(** ** One pattern *)

Definition span (h : hit) : str := gap h ++ found h.
Definition skipped (before f : str) : bool := starts_with f PLACEHOLDER_PREFIX || ends_with before PLACEHOLDER_PREFIX.
Lemma prefix_render (m a b x y : marked) : m = a ++ x → m = b ++ y → length (render a) ≤ length (render b) → ∃ k, b = a ++ k.
Proof.
  intros -> E Hl. apply app_eq_inv in E as [(k & -> & _)|(k & -> & _)]; [|by exists k].
  rewrite render_app, length_app in Hl. destruct (render k) eqn:Ek; [|cbn in Hl; lia]. apply render_nil in Ek as ->. exists []. by rewrite !app_nil_r.
Qed.
Lemma scan_marks m hits tail st : wf st → render m = mjoin (span <$> hits) ++ tail → Forall (λ h, found h ≠ []) hits →
  (∀ hs1 h hs2, hits = hs1 ++ h :: hs2 → let before := mjoin (span <$> hs1) ++ gap h in
     skipped before (found h) = false → ∃ m1 m2, m = m1 ++ chars (found h) ++ m2 ∧ before = render m1) →
  let s := foldl (scan_hit sha256 key) (mkScan [] [] [] false st) hits in
  wf (state s) ∧ grows st (state s) ∧
  ∃ m', hides (known (state s)) m m' ∧ (changed s = false → m' = m) ∧ (changed s = true → written s ++ pending s ++ tail = render m').
Proof.
  intros Hw Hm Hne Hrun. cbv zeta. set (fold := foldl _ _).
  enough (H : ∀ hs2 hs1, hits = hs1 ++ hs2 → let s := fold hs1 in
    wf (state s) ∧ grows st (state s) ∧ before s = mjoin (span <$> hs1) ∧
    ∃ m1 m1' m2, m = m1 ++ m2 ∧ hides (known (state s)) m1 m1' ∧ written s = render m1' ∧ before s = render m1 ++ pending s
      ∧ (changed s = false → m1 = [] ∧ m1' = [])).
  { destruct (H [] hits) as (H1 & H2 & H3 & m1 & m1' & m2 & -> & H4 & H5 & H6 & H7); [by rewrite app_nil_r|].
    split_and!; [done..|]. exists (m1' ++ m2). split_and!.
    - apply hides_app; [done|apply hides_refl].
    - intros E. by destruct (H7 E) as [-> ->].
    - intros _. rewrite render_app, H5. f_equal. rewrite render_app, <- H3, H6, <- app_assoc in Hm. by apply app_inv_head in Hm. }
  intros hs2 hs1. revert hs2. induction hs1 as [|h hs1 IH] using rev_ind; intros hs2 E.
  { cbn. split_and!; [done|apply grows_refl|done|]. exists [], [], m. split_and!; try done. constructor. }
  rewrite <- app_assoc in E. destruct (IH _ E) as (H1 & H2 & H3 & m1 & m1' & m2 & Em & H4 & H5 & H6 & H7). clear IH.
  unfold fold in *. rewrite foldl_app. cbn [foldl]. set (s := foldl _ _ hs1) in *. unfold scan_hit. rewrite fmap_app, mjoin_app. cbn [fmap list_fmap].
  change (mjoin [span h]) with (span h ++ []). rewrite app_nil_r.
  destruct (starts_with (found h) PLACEHOLDER_PREFIX || ends_with (before s ++ gap h) PLACEHOLDER_PREFIX) eqn:Es.
  - cbn. split_and!; [done..| |].
    + rewrite H3. unfold span. by rewrite app_assoc.
    + exists m1, m1', m2. split_and!; try done. rewrite H6. by rewrite <- !app_assoc.
  - rewrite H3 in Es. destruct (Hrun _ _ _ E Es) as (n1 & n2 & En & Eb).
    assert (Hf : found h ≠ []) by (rewrite Forall_forall in Hne; apply Hne; rewrite E; apply elem_of_app; right; left).
    pose proof (register_spec (found h) (state s) H1 Hf) as Hreg.
    destruct (register sha256 key (found h) (state s)) as [p st'] eqn:Er. destruct Hreg as (-> & Hw' & Hg & Hk). cbn.
    destruct (prefix_render m m1 n1 m2 (chars (found h) ++ n2) Em En) as [k ->].
    { rewrite <- Eb, <- H3, H6, !length_app. lia. }
    rewrite render_app in Eb. rewrite <- H3, H6, <- app_assoc in Eb. apply app_inv_head in Eb.
    split_and!; [done|by eapply grows_trans|rewrite H3; unfold span; by rewrite app_assoc|].
    exists ((m1 ++ k) ++ chars (found h)), (m1' ++ k ++ [inr (found h)]), n2. split_and!.
    + by rewrite En, <- !app_assoc.
    + rewrite <- app_assoc. apply hides_app; [by eapply hides_mono|]. apply hides_app; [apply hides_refl|].
      rewrite <- (app_nil_r (chars (found h))). constructor; [done|constructor].
    + rewrite H5, !render_app, <- Eb. change (render [inr (found h)]) with (P (found h) ++ []). by rewrite app_nil_r, <- !app_assoc.
    + rewrite app_nil_r, !render_app, render_chars, H6, <- Eb. by rewrite <- !app_assoc.
    + done.
Qed.

(** What a scan makes of the table: every match that is not skipped is in it. *)
Lemma scan_state hits : ∀ s, wf (state s) → Forall (λ h, found h ≠ []) hits →
  let s' := foldl (scan_hit sha256 key) s hits in
  wf (state s') ∧ grows (state s) (state s') ∧ before s' = before s ++ mjoin (span <$> hits).
Proof.
  induction hits as [|h hits IH]; intros s Hw Hne; cbn [foldl]; [split_and!; [done|apply grows_refl|by rewrite app_nil_r]|].
  apply Forall_cons in Hne as [Hh Hne].
  assert (H : wf (state (scan_hit sha256 key s h)) ∧ grows (state s) (state (scan_hit sha256 key s h)) ∧ before (scan_hit sha256 key s h) = before s ++ span h).
  { unfold scan_hit, span. case_match; [split_and!; [done|apply grows_refl|cbn; by rewrite app_assoc]|].
    pose proof (register_spec (found h) (state s) Hw Hh) as Hr. destruct (register sha256 key (found h) (state s)) as [p st'].
    destruct Hr as (_ & H2 & H3 & _). cbn. by rewrite app_assoc. }
  destruct H as (H1 & H2 & H3). destruct (IH (scan_hit sha256 key s h) H1 Hne) as (G1 & G2 & G3). split_and!; [done|by eapply grows_trans|].
  rewrite G3, H3. change (mjoin (span <$> h :: hits)) with (span h ++ mjoin (span <$> hits)). by rewrite app_assoc.
Qed.
Lemma scan_registers hs1 h hs2 st : wf st → Forall (λ h, found h ≠ []) (hs1 ++ h :: hs2) →
  skipped (mjoin (span <$> hs1) ++ gap h) (found h) = false →
  known (state (foldl (scan_hit sha256 key) (mkScan [] [] [] false st) (hs1 ++ h :: hs2))) (found h).
Proof.
  intros Hw Hne Hs. apply Forall_app in Hne as [Hne1 [Hh Hne2]%Forall_cons]. rewrite foldl_app. cbn [foldl].
  destruct (scan_state hs1 (mkScan [] [] [] false st) Hw Hne1) as (H1 & _ & H3). set (s := foldl _ _ hs1) in *. cbn [before app] in H3.
  assert (H : wf (state (scan_hit sha256 key s h)) ∧ known (state (scan_hit sha256 key s h)) (found h)).
  { unfold scan_hit. rewrite H3. unfold skipped in Hs. rewrite Hs.
    pose proof (register_spec (found h) (state s) H1 Hh) as Hr. destruct (register sha256 key (found h) (state s)) as [p st'].
    destruct Hr as (_ & H2 & _ & H4). by split. }
  destruct H as [H4 H5]. by apply (scan_state hs2 (scan_hit sha256 key s h) H4 Hne2).
Qed.

(** ** A text through all patterns *)

Notation pattern := (str → list hit * str).
Notation scanned p st text := (replace_pattern sha256 key st p text).
(** What [captures_iter] gives: the text in pieces, no match empty. *)
Definition covers (p : pattern) : Prop :=
  ∀ text hits tail, p text = (hits, tail) → text = mjoin (span <$> hits) ++ tail ∧ Forall (λ h, found h ≠ []) hits.
(** A state whose secrets all fit the structure: none has a [$] or lies in a tag. *)
Definition good (st : State) : Prop := ∀ q, known st q → plain q ∧ apart_from_tags q.
Lemma good_before a b : grows a b → good b → good a.
Proof. intros Hg Hb q Hq. by apply Hb, Hg. Qed.

Lemma pattern_marks p st text m : wf st → covers p → text = render m →
  (∀ hs1 h hs2 tail, p text = (hs1 ++ h :: hs2, tail) → let before := mjoin (span <$> hs1) ++ gap h in
     skipped before (found h) = false → ∃ m1 m2, m = m1 ++ chars (found h) ++ m2 ∧ before = render m1) →
  let '(out, st') := scanned p st text in wf st' ∧ grows st st' ∧ ∃ m', hides (known st') m m' ∧ default text out = render m'.
Proof.
  intros Hw Hc -> Hrun. unfold replace_pattern. destruct (p (render m)) as [hits tail] eqn:E. destruct (Hc _ _ _ E) as [Et Hne].
  destruct (scan_marks m hits tail st Hw Et Hne) as (H1 & H2 & m' & H3 & H4 & H5); [intros hs1 h hs2 Eh; by apply (Hrun hs1 h hs2 tail); rewrite Eh|].
  split_and!; [done..|]. exists m'. split; [done|]. destruct (changed _) eqn:Ec; cbn; [by apply H5|by rewrite H4].
Qed.
Lemma pattern_hides p st text s : wf st → covers p →
  let '(out, st') := scanned p st text in wf st' ∧ grows st st' ∧
    (plain s → apart_from_tags s → ¬ infix_of s text → ¬ infix_of s (default text out)).
Proof.
  intros Hw Hc. pose proof (pattern_marks p st text (chars text) Hw Hc (eq_sym (render_chars text))) as H.
  destruct (scanned p st text) as [out st']. destruct H as (H1 & H2 & m' & H3 & H4).
  - intros hs1 h hs2 tail E before _. destruct (Hc _ _ _ E) as [Et _]. exists (chars (mjoin (span <$> hs1) ++ gap h)), (chars (mjoin (span <$> hs2) ++ tail)).
    rewrite render_chars. split; [|done]. rewrite Et, <- !chars_app, fmap_app, mjoin_app, <- !app_assoc. do 2 f_equal.
    change (mjoin (span <$> h :: hs2)) with (span h ++ mjoin (span <$> hs2)). unfold span. by rewrite <- !app_assoc.
  - split_and!; [done..|]. intros Hp Ha Hn Hi. rewrite H4 in Hi. apply rendered_infix in Hi; [|done..].
    eapply hides_shows in Hi; [|done|apply Hp]. by apply shows_chars in Hi.
Qed.
Lemma pattern_covered p st text m : wf st → covers p → text = render m →
  let '(out, st') := scanned p st text in good st' → ∃ m', covered (known st') m m' ∧ default text out = render m'.
Proof.
  intros Hw Hp E. pose proof (pattern_marks p st text m Hw Hp E) as H.
  destruct (scanned p st text) as [out st'] eqn:Er. intros Hgood.
  destruct H as (H1 & H2 & m' & H3 & H4); [|exists m'; split; [by apply covered_hides|done]].
  intros hs1 h hs2 tail Eh before Hs. destruct (Hp _ _ _ Eh) as [Et Hne].
  assert (Hk : known st' (found h)).
  { unfold replace_pattern in Er. rewrite Eh in Er. injection Er as _ <-. by apply scan_registers. }
  destruct (Hgood _ Hk) as [[Hf Hd] Ha].
  assert (Em : render m = before ++ found h ++ mjoin (span <$> hs2) ++ tail).
  { rewrite <- E, Et, fmap_app, mjoin_app. change (mjoin (span <$> h :: hs2)) with (span h ++ mjoin (span <$> hs2)).
    unfold before, span. by rewrite <- !app_assoc. }
  destruct (locate m _ _ _ Em Hf Hd) as [(m1 & m2 & -> & -> & _)|(m1 & q & m2 & u & v & _ & HP & _ & _)]; [by exists m1, m2|].
  destruct (Ha q). by eapply in_P.
Qed.

Lemma step_default (text : str) (out next : option str) : default text (match next with Some n => Some n | None => out end) = default (default text out) next.
Proof. by destruct next. Qed.
Lemma steps_hide text ps : Forall covers ps → ∀ out st, wf st →
  let '(out', st') := foldl (pattern_step sha256 key text) (out, st) ps in
  wf st' ∧ grows st st' ∧ ∀ s, plain s → apart_from_tags s → ¬ infix_of s (default text out) → ¬ infix_of s (default text out').
Proof.
  induction 1 as [|p ps Hp _ IH]; intros out st Hw; cbn [foldl]; [split_and!; [done|apply grows_refl|done]|].
  unfold pattern_step at 2. pose proof (λ s, pattern_hides p st (default text out) s Hw Hp) as H.
  destruct (scanned p st (default text out)) as [next st1]. destruct (H []) as (H1 & H2 & _).
  specialize (IH (match next with Some n => Some n | None => out end) st1 H1).
  destruct (foldl _ _ ps) as [out' st']. destruct IH as (G1 & G2 & G3). split_and!; [done|by eapply grows_trans|].
  intros s Hs Ha Hn. apply G3; [done..|]. rewrite step_default. destruct (H s) as (_ & _ & H'). by apply H'.
Qed.
Lemma steps_covered text ps : Forall covers ps → ∀ out st m, wf st → default text out = render m →
  let '(out', st') := foldl (pattern_step sha256 key text) (out, st) ps in
  good st' → ∃ m', covered (known st') m m' ∧ default text out' = render m'.
Proof.
  induction 1 as [|p ps Hp Hps IH]; intros out st m Hw E; cbn [foldl]; [intros _; exists m; split; [apply covered_refl|done]|].
  unfold pattern_step at 2. pose proof (pattern_covered p st (default text out) m Hw Hp E) as H.
  pose proof (pattern_hides p st (default text out) [] Hw Hp) as Hw1.
  destruct (scanned p st (default text out)) as [next st1]. destruct Hw1 as (H1 & H2 & _).
  pose proof (IH (match next with Some n => Some n | None => out end) st1) as IH1. rewrite step_default in IH1.
  pose proof (steps_hide text ps Hps (match next with Some n => Some n | None => out end) st1 H1) as Hg.
  destruct (foldl _ _ ps) as [out' st']. destruct Hg as (_ & Hg & _). intros Hgood.
  destruct (H (good_before _ _ Hg Hgood)) as (m1 & H3 & H4). destruct (IH1 m1 H1 H4 Hgood) as (m' & G1 & G2).
  exists m'. split; [|done]. by eapply covered_trans; [|exact H3|exact G1].
Qed.

Context (captures : list pattern).
Notation redact := (redact_text sha256 key captures).
(** No secret known before is in [t]. *)
Definition clear_of (st : State) (t : str) : Prop := ∀ s, known st s → plain s → apart_from_tags s → ¬ infix_of s t.
(** [t'] is [t] with secrets of [st] behind placeholders. *)
Definition stands_for (st : State) (t t' : str) : Prop := ∃ m, t' = render m ∧ original m = t ∧ ∀ q, inr q ∈ m → known st q.

Lemma redact_text_hides text st : Forall covers captures → wf st →
  let '(out, st') := redact text st in wf st' ∧ grows st st' ∧ clear_of st (default text out).
Proof.
  intros Hc Hw. unfold redact_text. pose proof (steps_hide text captures Hc (replace_known st text) st Hw) as H.
  destruct (foldl _ _ captures) as [out st']. destruct H as (H1 & H2 & H3). split_and!; [done..|].
  intros s Hk Hp Ha. apply H3; [done..|]. by apply replace_known_hides.
Qed.
Lemma redact_text_stands text st : Forall covers captures → wf st →
  let '(out, st') := redact text st in good st' → stands_for st' text (default text out).
Proof.
  intros Ht Hw. pose proof (steps_hide text captures Ht (replace_known st text) st Hw) as Hg.
  unfold redact_text. destruct (foldl _ _ captures) as [out st'] eqn:E. destruct Hg as (_ & Hg & _). intros Hgood.
  destruct (hide_pairs (pairs_of st text) (chars text)) as (m1 & C1 & E1); [by apply pairs_good| |].
  { intros q [_ Hq]%elem_pairs_known. by apply Hgood, Hg. }
  rewrite render_chars, <- replace_known_eq in E1. pose proof (steps_covered text captures Ht (replace_known st text) st m1 Hw E1) as H.
  rewrite E in H. destruct (H Hgood) as (m' & C2 & E2). exists m'.
  assert (C : covered (known st') (chars text) m').
  { eapply covered_trans; [|exact C1|exact C2]. intros q [_ Hq]%elem_pairs_known. by apply Hg. }
  split_and!; [done|by rewrite (covered_original _ _ _ C), original_chars|]. intros q Hq. apply (covered_secrets _ _ _ C) in Hq as [Hq|Hq]; [done|].
  by apply list_elem_of_fmap in Hq as (? & [=] & _).
Qed.

(** ** JSON *)

Context {X : Type}.
Notation V := (value X).
Fixpoint strings (v : V) : list str :=
  match v with
  | VString s => [s]
  | VScalar _ => []
  | VArray l => mjoin (strings <$> l)
  | VTable es => mjoin ((λ e, strings e.2) <$> es)
  end.
(** Values that differ in their strings, each pair of which is in [R]. *)
Inductive pairwise (R : str → str → Prop) : V → V → Prop :=
| pair_string s s' : R s s' → pairwise R (VString s) (VString s')
| pair_scalar x : pairwise R (VScalar x) (VScalar x)
| pair_array l l' : Forall2 (pairwise R) l l' → pairwise R (VArray l) (VArray l')
| pair_table es es' : Forall2 (λ e e', e.1 = e'.1 ∧ pairwise R e.2 e'.2) es es' → pairwise R (VTable es) (VTable es').

(** What one string does, done by [map_strings] to all of them, while the state grows. *)
Section strings_rule.
Context (f : str → State → option str * State) (Post : State → State → str → str → Prop).
Context (Post_mono : ∀ a a' b b' s t, grows a' a → grows b b' → Post a b s t → Post a' b' s t).
Context (Hf : ∀ s st, wf st → let '(o, st') := f s st in wf st' ∧ grows st st' ∧ Post st st' s (default s o)).
Definition outcome_of (v v' : V) (c : bool) (st st' : State) : Prop :=
  wf st' ∧ grows st st' ∧ pairwise (Post st st') v v' ∧ (c = false → v' = v).
Lemma pairwise_mono a' a b b' v : grows a' a → grows b b' → ∀ v', pairwise (Post a b) v v' → pairwise (Post a' b') v v'.
Proof.
  intros Ha Hb. induction v as [s|x|l IH|es IH] using value_rec'; intros v' H; inversion H as [? ? Hp| |? ? Hl|? ? Hl]; subst; constructor.
  - by eapply Post_mono.
  - clear H. induction Hl; [constructor|]. apply Forall_cons in IH as [IH1 IH]. constructor; auto.
  - clear H. induction Hl as [|e e' es es' [H1 H2]]; [constructor|]. apply Forall_cons in IH as [IH1 IH]. constructor; auto.
Qed.
Lemma map_strings_rule v : ∀ st, wf st → let '(v', c, st') := map_strings f v st in outcome_of v v' c st st'.
Proof.
  induction v as [s|x|l IH|es IH] using value_rec'; intros st Hw; cbn [map_strings].
  - pose proof (Hf s st Hw) as H. destruct (f s st) as [[t|] st']; destruct H as (H1 & H2 & H3).
    + split_and!; try done. by constructor.
    + split_and!; try done. by constructor.
  - split_and!; [done|apply grows_refl|constructor|done].
  - match goal with |- context [?g l st] => set (items := g) end.
    enough (H : let '(l', c, st') := items l st in wf st' ∧ grows st st' ∧ Forall2 (pairwise (Post st st')) l l' ∧ (c = false → l' = l)).
    { destruct (items l st) as [[l' c] st']. destruct H as (H1 & H2 & H3 & H4). split_and!; [done..|by constructor|]. intros E. by rewrite H4. }
    revert st Hw. induction IH as [|v l Hv _ IHl]; intros st Hw; [split_and!; [done|apply grows_refl|constructor|done]|].
    cbn. specialize (Hv st Hw). destruct (map_strings f v st) as [[v' c] st1]. destruct Hv as (H1 & H2 & H3 & H4).
    specialize (IHl st1 H1). fold items. destruct (items l st1) as [[l' c'] st2]. destruct IHl as (G1 & G2 & G3 & G4).
    split_and!; [done|by eapply grows_trans| |].
    + constructor; [by apply (pairwise_mono st st st1 st2); [apply grows_refl| |]|]. eapply Forall2_impl; [exact G3|]. intros ? ? ?. by apply (pairwise_mono st st1 st2 st2); [|apply grows_refl|].
    + intros [-> ->]%orb_false_iff. by rewrite H4, G4.
  - match goal with |- context [?g es st] => set (entries := g) end.
    enough (H : let '(l', c, st') := entries es st in wf st' ∧ grows st st' ∧ Forall2 (λ e e', e.1 = e'.1 ∧ pairwise (Post st st') e.2 e'.2) es l' ∧ (c = false → l' = es)).
    { destruct (entries es st) as [[l' c] st']. destruct H as (H1 & H2 & H3 & H4). split_and!; [done..|by constructor|]. intros E. by rewrite H4. }
    revert st Hw. induction IH as [|[k v] l Hv _ IHl]; intros st Hw; [split_and!; [done|apply grows_refl|constructor|done]|].
    cbn. cbn in Hv. specialize (Hv st Hw). destruct (map_strings f v st) as [[v' c] st1]. destruct Hv as (H1 & H2 & H3 & H4).
    specialize (IHl st1 H1). fold entries. destruct (entries l st1) as [[l' c'] st2]. destruct IHl as (G1 & G2 & G3 & G4).
    split_and!; [done|by eapply grows_trans| |].
    + constructor; [split; [done|by apply (pairwise_mono st st st1 st2); [apply grows_refl| |]]|]. eapply Forall2_impl; [exact G3|].
      intros ? ? [? ?]. split; [done|]. by apply (pairwise_mono st st1 st2 st2); [|apply grows_refl|].
    + intros [-> ->]%orb_false_iff. by rewrite H4, G4.
Qed.
End strings_rule.

(** What redaction does to a text, between two states. *)
Definition Redacts (a b : State) (t t' : str) : Prop := clear_of a t' ∧ (good b → stands_for b t t').
Lemma redacts_mono a a' b b' t t' : grows a' a → grows b b' → Redacts a b t t' → Redacts a' b' t t'.
Proof.
  intros Ha Hb [H1 H2]. split; [intros s Hk; by apply H1, Ha|]. intros Hg. destruct H2 as (m & H3 & H4 & H5); [by eapply good_before|].
  exists m. split_and!; [done..|]. intros q Hq. by apply Hb, H5.
Qed.
Lemma redact_text_rule t st : Forall covers captures → wf st →
  let '(o, st') := redact t st in wf st' ∧ grows st st' ∧ Redacts st st' t (default t o).
Proof.
  intros Hc Hw. pose proof (redact_text_hides t st Hc Hw) as H. pose proof (redact_text_stands t st Hc Hw) as Hs.
  destruct (redact t st) as [o st']. destruct H as (H1 & H2 & H3). by split_and!.
Qed.
Lemma redact_json_rule v st : Forall covers captures → wf st →
  let '(o, st') := redact_json sha256 key captures v st in wf st' ∧ grows st st' ∧ pairwise (Redacts st st') v (default v o).
Proof.
  intros Hc Hw. unfold redact_json. pose proof (map_strings_rule redact Redacts redacts_mono (λ t st, redact_text_rule t st Hc) v st Hw) as H.
  destruct (map_strings redact v st) as [[v' c] st']. destruct H as (H1 & H2 & H3 & H4). split_and!; [done..|].
  destruct c; [done|]. by rewrite <- H4 at 2.
Qed.

(** ** Putting back *)

Definition no_collisions (st : State) : Prop := ∀ a b, known st a → known st b → P a = P b → a = b.
Lemma stands_restored st entries t t' : wf st → no_collisions st → entries ≡ₚ map_to_list (by_placeholder st) →
  stands_for st t t' → quiet t → default t' (restore_text entries t') = t.
Proof.
  intros Hw Hn He (m & -> & <- & Hm) Hq.
  assert (Hin : ∀ p q, (p, q) ∈ entries ↔ by_placeholder st !! p = Some q) by (intros p q; by rewrite He, elem_of_map_to_list).
  apply restore_rendered; [done| | |].
  - apply Forall_forall. intros [p q] H%Hin. by apply Hw in H as [-> _].
  - intros q [p q'] Hmq [_ Hk]%Hin%Hw HP. apply Hn; [by apply Hm|done|done].
  - intros q Hmq. apply Hin. specialize (Hm q Hmq). destruct (wf_all st Hw q Hm) as [q' E]. rewrite E. f_equal.
    apply Hw in E as [E Hk]. symmetry. by apply Hn.
Qed.
Lemma pairwise_given (Q : str → Prop) (R S : str → str → Prop) v : (∀ s t, Q s → R s t → S s t) →
  ∀ v', Forall Q (strings v) → pairwise R v v' → pairwise S v v'.
Proof.
  intros Hs. induction v as [s|x|l IH|es IH] using value_rec'; intros v' HQ H; inversion H as [? ? Hp| |? ? Hl|? ? Hl]; subst; constructor; cbn in HQ.
  - rewrite Forall_singleton in HQ. by apply Hs.
  - clear H. induction Hl; [constructor|]. apply Forall_cons in IH as [IH1 IH]. cbn in HQ. apply Forall_app in HQ as [HQ1 HQ]. constructor; auto.
  - clear H. induction Hl as [|e e' es es' [H1 H2]]; [constructor|]. apply Forall_cons in IH as [IH1 IH]. cbn in HQ.
    apply Forall_app in HQ as [HQ1 HQ]. constructor; auto.
Qed.
Lemma restore_pairwise entries st v : ∀ v', pairwise (λ s t, default t (restore_text entries t) = s) v v' → (restore_json entries v' st).1 = v.
Proof.
  unfold restore_json. set (f := λ (s : str) (st : State), (restore_text entries s, st)).
  enough (H : ∀ v', pairwise (λ s t, default t (restore_text entries t) = s) v v' → ∃ c, map_strings f v' st = (v, c, st)).
  { intros v' Hv. destruct (H v' Hv) as [c E]. by rewrite E. }
  induction v as [s|x|l IH|es IH] using value_rec'; intros v' H; inversion H as [s0 t Hp| |l0 l' Hl|es0 es' Hl]; subst; cbn [map_strings].
  - unfold f. destruct (restore_text entries t) as [r|]; by eexists.
  - by eexists.
  - match goal with |- context [?g l' st] => set (items := g) end. enough (Hi : ∃ c, items l' st = (l, c, st)) by (destruct Hi as [c ->]; by eexists).
    clear H. induction Hl as [|v v' l l' Hv Hl IHl]; [by eexists|]. apply Forall_cons in IH as [IH1 IH]. destruct (IH1 _ Hv) as [c Ec], (IHl IH) as [c' Ec'].
    cbn. rewrite Ec. fold items. rewrite Ec'. by eexists.
  - match goal with |- context [?g es' st] => set (items := g) end. enough (Hi : ∃ c, items es' st = (es, c, st)) by (destruct Hi as [c ->]; by eexists).
    clear H. induction Hl as [|[k v] [k' v'] l l' [Hk Hv] Hl IHl]; [by eexists|]. apply Forall_cons in IH as [IH1 IH]. cbn in *. subst k'.
    destruct (IH1 _ Hv) as [c Ec], (IHl IH) as [c' Ec']. rewrite Ec. fold items. rewrite Ec'. by eexists.
Qed.

(** C14: Restoring brings back what redaction took, with the patterns as they are, when
    every secret the redactor knows at that time is free of [$] and in no tag ([good]) and
    no two share a placeholder, and in whatever order the table is read: redacted
    arguments become the arguments they were, and every text in which the model puts
    placeholders of known secrets becomes the text with the secrets. The texts themselves
    must not speak of [SECRET:]. *)
Theorem redact_then_restore (v : V) (st st' now : State) out entries (any : State) :
  Forall covers captures → wf st → redact_json sha256 key captures v st = (out, st') →
  wf now → grows st' now → good now → no_collisions now → entries ≡ₚ map_to_list (by_placeholder now) →
  (Forall quiet (strings v) → (restore_json entries (default v out) any).1 = v)
  ∧ ∀ m, (∀ q, inr q ∈ m → known now q) → quiet (original m) → default (render m) (restore_text entries (render m)) = original m.
Proof.
  intros Ht Hw E Hwn Hg Hgood Hn He. split.
  - intros Hq. apply restore_pairwise. pose proof (redact_json_rule v st Ht Hw) as H. rewrite E in H.
    destruct H as (H1 & H2 & H3). eapply pairwise_given; [|exact Hq|exact H3]. intros s t Hs [_ Hst]. apply (stands_restored now); [done..| |done].
    destruct Hst as (m & Hm & Ho & Hk); [by eapply good_before|]. exists m. split_and!; [done..|]. intros q Hqm. by apply Hg, Hk.
  - intros m Hm Hq. apply (stands_restored now); [done..| |done]. by exists m.
Qed.

(** ** Requests *)

Context {Image Time Options : Type}.
Notation Block := (ContentBlock V Image).
Notation Msg := (Message V Image Time).
Definition block_pair (R : str → str → Prop) (b b' : Block) : Prop :=
  match b, b' with
  | BText t, BText t' => R t t'
  | BToolUse i n v, BToolUse i' n' v' => i' = i ∧ n' = n ∧ pairwise R v v'
  | BToolResult i c e, BToolResult i' c' e' => i' = i ∧ e' = e ∧ R c c'
  | BText _, _ | BToolUse _ _ _, _ | BToolResult _ _ _, _ => False
  | _, _ => b' = b
  end.
Definition message_pair (R : str → str → Prop) (m m' : Msg) : Prop :=
  set_content m' (content m) = m
  ∧ match content m, content m' with
    | MText t, MText t' => R t t'
    | MBlocks bs, MBlocks bs' => Forall2 (block_pair R) bs bs'
    | _, _ => False
    end.

Section list_rule.
Context {A : Type} (f : A → State → option A * State) (Rel : (str → str → Prop) → A → A → Prop).
Context (Rel_mono : ∀ R R' x x', (∀ s t, R s t → R' s t : Prop) → Rel R x x' → Rel R' x x').
Context (Hf : ∀ x st, wf st → let '(o, st') := f x st in wf st' ∧ grows st st' ∧ Rel (Redacts st st') x (default x o)).
Lemma redact_all_rule l : ∀ st, wf st → let '(l', c, st') := redact_all f l st in
  wf st' ∧ grows st st' ∧ Forall2 (Rel (Redacts st st')) l l' ∧ (c = false → l' = l).
Proof.
  induction l as [|x l IH]; intros st Hw; cbn [redact_all]; [split_and!; [done|apply grows_refl|constructor|done]|].
  pose proof (Hf x st Hw) as H. destruct (f x st) as [o st1]. destruct H as (H1 & H2 & H3). specialize (IH st1 H1).
  destruct (redact_all f l st1) as [[l' c] st2]. destruct IH as (G1 & G2 & G3 & G4). split_and!; [done|by eapply grows_trans| |].
  - constructor; [|eapply Forall2_impl; [exact G3|]; intros x0 x0'].
    + eapply Rel_mono; [|exact H3]. intros s t. by apply redacts_mono; [apply grows_refl|].
    + apply Rel_mono. intros s t. by apply redacts_mono; [|apply grows_refl].
  - intros [Ho ->]%orb_false_iff. apply bool_decide_eq_false in Ho. destruct o; [by destruct Ho; eexists|]. cbn. by rewrite G4.
Qed.
End list_rule.

Lemma pairwise_impl (R R' : str → str → Prop) v v' : (∀ s t, R s t → R' s t) → pairwise R v v' → pairwise R' v v'.
Proof. intros H. apply (pairwise_given (λ _, True)); [by auto|]. apply Forall_true. done. Qed.
Lemma block_pair_mono R R' b b' : (∀ s t, R s t → R' s t : Prop) → block_pair R b b' → block_pair R' b b'.
Proof. intros H. destruct b, b'; cbn; try done; [apply H| |]; intros (-> & -> & Hp); split_and!; try done; [by eapply pairwise_impl|by apply H]. Qed.
Lemma message_pair_mono R R' m m' : (∀ s t, R s t → R' s t : Prop) → message_pair R m m' → message_pair R' m m'.
Proof.
  intros H [H1 H2]. split; [done|]. destruct (content m), (content m'); try done; [by apply H|].
  eapply Forall2_impl; [exact H2|]. intros b b'. by apply block_pair_mono.
Qed.
Lemma redact_block_rule (b : Block) st : Forall covers captures → wf st →
  let '(o, st') := redact_block sha256 key captures b st in wf st' ∧ grows st st' ∧ block_pair (Redacts st st') b (default b o).
Proof.
  intros Hc Hw. destruct b as [t|src|id name v|id t e|t sg|d|t raw]; cbn [redact_block];
    try (by split_and!; [done|apply grows_refl|done]).
  - pose proof (redact_text_rule t st Hc Hw) as H. destruct (redact t st) as [[t'|] st']; destruct H as (H1 & H2 & H3); by split_and!.
  - pose proof (redact_json_rule v st Hc Hw) as H. destruct (redact_json _ _ _ v st) as [[v'|] st']; destruct H as (H1 & H2 & H3); by split_and!.
  - pose proof (redact_text_rule t st Hc Hw) as H. destruct (redact t st) as [[t'|] st']; destruct H as (H1 & H2 & H3); by split_and!.
Qed.
Lemma redact_message_rule (m : Msg) st : Forall covers captures → wf st →
  let '(o, st') := redact_message sha256 key captures m st in wf st' ∧ grows st st' ∧ message_pair (Redacts st st') m (default m o).
Proof.
  intros Hc Hw. unfold redact_message, message_pair. destruct m as [r ct id n at_]. cbn [content]. destruct ct as [t|bs].
  - pose proof (redact_text_rule t st Hc Hw) as H. destruct (redact t st) as [[t'|] st']; destruct H as (H1 & H2 & H3); by split_and!.
  - pose proof (redact_all_rule _ block_pair block_pair_mono (λ b st, redact_block_rule b st Hc) bs st Hw) as H.
    destruct (redact_all _ bs st) as [[bs' c] st']. destruct H as (H1 & H2 & H3 & H4). destruct c; cbn; [by split_and!|].
    specialize (H4 eq_refl). subst bs'. by split_and!.
Qed.

(** The states a redactor gets into. *)
Notation Request := (LlmRequest (X := X) (Image := Image) (Time := Time) (Options := Options)).
Inductive reached : State → Prop :=
| reached_new : reached empty_state
| reached_env env_name vars st : reached st → reached (register_env sha256 key env_name vars st).2
| reached_request (r : Request) st : reached st → reached (redact_request sha256 key captures r st).2.
Lemma redact_request_rule (r : Request) st : Forall covers captures → wf st →
  let '(r', st') := redact_request sha256 key captures r st in wf st' ∧ grows st st'
    ∧ Redacts st st' (system r) (system r') ∧ Forall2 (message_pair (Redacts st st')) (messages r) (messages r') ∧ options r' = options r.
Proof.
  intros Hc Hw. unfold redact_request. pose proof (redact_text_rule (system r) st Hc Hw) as H.
  destruct (redact (system r) st) as [o st1]. destruct H as (H1 & H2 & H3).
  pose proof (redact_all_rule _ message_pair message_pair_mono (λ m st, redact_message_rule m st Hc) (messages r) st1 H1) as H.
  destruct (redact_all _ (messages r) st1) as [[ms c] st2]. destruct H as (G1 & G2 & G3 & G4). cbn. split_and!; [done|by eapply grows_trans| | |done].
  - by eapply redacts_mono; [apply grows_refl| |exact H3].
  - assert (Hms : (if c then ms else messages r) = ms) by (destruct c; [done|symmetry; by apply G4]). rewrite Hms.
    eapply Forall2_impl; [exact G3|]. intros m m'. apply message_pair_mono. intros s t. by apply redacts_mono; [|apply grows_refl].
Qed.
Lemma register_env_wf env_name vars : ∀ st, wf st → wf (foldl (register_var sha256 key env_name) st vars).
Proof.
  induction vars as [|v vars IH]; intros st Hw; cbn [foldl]; [done|]. apply IH. unfold register_var.
  destruct (env_name v.1 && looks_like_env_secret v.2) eqn:E; [|done]. apply andb_true_iff in E as [_ E].
  pose proof (register_spec (trim v.2) st Hw) as H. destruct (register _ _ _ st) as [p st']. apply H.
  intros Ht. unfold looks_like_env_secret in E. rewrite Ht in E. by vm_compute in E.
Qed.
Lemma reached_wf st : Forall covers captures → reached st → wf st.
Proof.
  intros Hc. induction 1 as [|env_name vars st _ IH|r st _ IH]; [apply wf_empty|by apply register_env_wf|].
  pose proof (redact_request_rule r st Hc IH) as H. destruct (redact_request _ _ _ r st) as [r' st']. apply H.
Qed.

(** C13: Whatever a redactor has seen before: the redacted request differs from the request
    in the system prompt, the texts, the tool results and the strings of tool arguments
    only, roles, ids, names, thinking and options stay; and none of these holds a secret
    that was known, if the secret is one text cannot confuse with a placeholder. *)
Theorem request_hides_known (r : Request) st s :
  Forall covers captures → reached st → known st s → plain s → apart_from_tags s →
  let r' := (redact_request sha256 key captures r st).1 in
  let hidden t' := ¬ infix_of s t' in
  hidden (system r') ∧ Forall2 (message_pair (λ _ t', hidden t')) (messages r) (messages r') ∧ options r' = options r.
Proof.
  intros Hc Hr Hk Hp Ha. cbv zeta. pose proof (redact_request_rule r st Hc (reached_wf st Hc Hr)) as H.
  destruct (redact_request _ _ _ r st) as [r' st']. destruct H as (_ & _ & [H1 _] & H2 & H3). split_and!; [by apply H1| |done].
  eapply Forall2_impl; [exact H2|]. intros m m'. apply message_pair_mono. intros t t' [Ht _]. by apply Ht.
Qed.
End facts.

(** ** The key file *)

Lemma hex_app a b : hex (a ++ b) = hex a ++ hex b.
Proof. unfold hex. by rewrite fmap_app, mjoin_app. Qed.
Lemma byte_digits b : (b < 256)%N → u8_from_hex (hex [b]) = Some b ∧ ascii (hex [b]).
Proof.
  intros Hb. assert (H : forallb (λ b, bool_decide (u8_from_hex (hex [b]) = Some b) && forallb (λ c, (c <? 128)%N) (hex [b])) (N.of_nat <$> seq 0 256) = true)
    by (by vm_compute).
  rewrite forallb_forall in H. specialize (H b). destruct (andb_true_iff (bool_decide (u8_from_hex (hex [b]) = Some b)) (forallb (λ c, (c <? 128)%N) (hex [b]))) as [H' _].
  destruct H' as [H1 H2].
  - apply H, list_elem_of_In, list_elem_of_fmap. exists (N.to_nat b). split; [by rewrite N2Nat.id|]. apply elem_of_seq. lia.
  - split; [by apply bool_decide_eq_true in H1|]. apply Forall_forall. intros c Hc. rewrite forallb_forall in H2. apply N.ltb_lt, H2. by apply list_elem_of_In.
Qed.
Lemma hex_ascii bytes : Forall (λ b, (b < 256)%N) bytes → ascii (hex bytes) ∧ byte_len (hex bytes) = 2 * length bytes.
Proof.
  intros H. assert (Ha : ascii (hex bytes)).
  { induction H as [|b bytes Hb _ IH]; [constructor|]. change (b :: bytes) with ([b] ++ bytes). rewrite hex_app. apply ascii_app. split; [by apply byte_digits|done]. }
  split; [done|]. rewrite ascii_byte_len by done. by apply hex_hex.
Qed.
Lemma key_bytes_hex bytes : Forall (λ b, (b < 256)%N) bytes → ∀ before, Forall (λ b, (b < 256)%N) before →
  key_bytes (hex (before ++ bytes)) (length before) (length bytes) = Some (Some bytes).
Proof.
  induction 1 as [|b bytes Hb Hbs IH]; intros before Hbe; [done|]. cbn [length key_bytes]. destruct (byte_digits b Hb) as [Hu Ha].
  assert (Hs : slice (hex (before ++ b :: bytes)) (length before * 2) (length before * 2 + 2) = Some (hex [b])).
  { change (b :: bytes) with ([b] ++ bytes). rewrite !hex_app. replace (length before * 2) with (byte_len (hex before)) by (rewrite (proj2 (hex_ascii _ Hbe)); lia).
    replace 2 with (byte_len (hex [b])) by (by rewrite ascii_byte_len). apply slice_app. }
  rewrite Hs. cbn [mbind option_bind]. rewrite Hu. replace (S (length before)) with (length (before ++ [b])) by (rewrite length_app; cbn; lia).
  change (b :: bytes) with ([b] ++ bytes). rewrite app_assoc, IH; [done|]. apply Forall_app. split; [done|by apply Forall_singleton].
Qed.
(** The key a first run writes is the key the next run reads. *)
Lemma key_round_trip key : length key = 32 → Forall (λ b, (b < 256)%N) key → parse_key_hex (hex key) = Some (Some key).
Proof.
  intros Hl Hb. unfold parse_key_hex. rewrite (proj2 (hex_ascii _ Hb)), Hl. cbn [Nat.eqb Nat.mul Nat.add].
  pose proof (key_bytes_hex key Hb [] ltac:(constructor)) as H. rewrite Hl in H. exact H.
Qed.
(** A key file of 64 bytes with a character of several is a panic, and a sign is read as a
    digit. *)
Example key_file_panics : parse_key_hex (replicate 31 (chr "0") ++ [233%N] ++ replicate 31 (chr "0")) = None.
Proof. by vm_compute. Qed.
Example key_file_signs : parse_key_hex (mjoin (replicate 32 (lit "+7"))) = Some (Some (replicate 32 7%N)).
Proof. by vm_compute. Qed.

(** ** Secrets a placeholder cannot hold *)

Lemma longer_apart sha256 key s : (∀ m, length (sha256 m) = 32 ∧ Forall (λ b, (b < 256)%N) (sha256 m)) → 23 < length s → apart_from_tags sha256 key s.
Proof.
  intros Hd Hl q (a & b & E). apply (f_equal length) in E. rewrite !length_app, (proj1 (tag_shape sha256 key Hd q)) in E.
  change (length (lit "SECRET:")) with 7 in E. lia.
Qed.
Lemma other_letter_apart sha256 key s c : (∀ m, length (sha256 m) = 32 ∧ Forall (λ b, (b < 256)%N) (sha256 m)) →
  c ∈ s → c ∉ lit "SECRET:" → ¬ is_hex c → apart_from_tags sha256 key s.
Proof.
  intros Hd Hc H1 H2 q (a & b & E). assert (H : c ∈ lit "SECRET:" ++ tag_of sha256 key q) by (rewrite E; set_solver).
  apply elem_of_app in H as [H|H]; [done|]. by apply (tag_no sha256 key Hd) in H.
Qed.

(** ** Examples *)

Section examples.
Definition sum_digest (m : list N) : list N := replicate 32 (foldl (λ a b, (31 * a + b) mod 251) 7 m mod 256)%N.
Lemma sum_digest_bytes m : length (sum_digest m) = 32 ∧ Forall (λ b, (b < 256)%N) (sum_digest m).
Proof. split; [done|]. apply Forall_replicate. by apply N.mod_lt. Qed.
Definition token : str := lit "tok-12345678".
(** A shape with one member. *)
Definition token_shape (text : str) : list hit * str :=
  match split_once text token with Some (a, b) => ([mkHit a token], b) | None => ([], text) end.
Lemma token_apart : apart_from_tags sum_digest [] token.
Proof.
  apply (other_letter_apart _ _ _ (chr "-")); [apply sum_digest_bytes|by apply (bool_decide_unpack _); vm_compute|intros H; not_listed H|].
  unfold is_hex. vm_compute. intuition congruence.
Qed.
Lemma token_covers : Forall covers [token_shape].
Proof.
  apply Forall_singleton. intros text hits tail. unfold token_shape.
  destruct (split_once text token) as [[a b]|] eqn:E; intros [= <- <-]; [|by split; [|constructor]].
  apply split_once_Some in E as [-> _]. split; [|by repeat constructor]. cbn. unfold span. cbn. by rewrite app_nil_r, <- app_assoc.
Qed.
Definition password : str := lit "hunter2hunter2".
Definition started : State := (register_env sum_digest [] (λ _, true) [(lit "DB_PASSWORD", password)] empty_state).2.
Lemma password_apart : apart_from_tags sum_digest [] password.
Proof.
  apply (other_letter_apart _ _ _ (chr "u")); [apply sum_digest_bytes|by apply (bool_decide_unpack _); vm_compute|intros H; not_listed H|].
  unfold is_hex. vm_compute. intuition congruence.
Qed.
Lemma password_plain : plain password.
Proof. split; [done|]. intros H. not_listed H. Qed.

Definition call : value nat := VTable [(lit "command", VString (lit "psql hunter2hunter2 && curl -H tok-12345678"))].
Definition redacted_call : option (value nat) * State := redact_json sum_digest [] [token_shape] call started.
Lemma registered_by_call : (map_to_list (by_secret redacted_call.2)).*1 = [token; password].
Proof. by vm_compute. Qed.
Lemma tags_differ : placeholder_for sum_digest [] token ≠ placeholder_for sum_digest [] password.
Proof. apply (bool_decide_unpack _). by vm_compute. Qed.
Lemma started_wf : wf sum_digest [] started.
Proof.
  apply (reached_wf sum_digest [] sum_digest_bytes [] (X := nat) (Image := nat) (Time := nat) (Options := nat)); [constructor|].
  apply reached_env, reached_new.
Qed.
Lemma registered q : known redacted_call.2 q → q = token ∨ q = password.
Proof.
  intros [p Hp]. apply elem_of_map_to_list in Hp. apply (list_elem_of_fmap_2 fst) in Hp. rewrite registered_by_call in Hp.
  apply elem_of_cons in Hp as [Hp|Hp%list_elem_of_singleton]; auto.
Qed.
Lemma registered_good : good sum_digest [] redacted_call.2.
Proof.
  intros q [->| ->]%registered; (split; [|first [apply token_apart|apply password_apart]]); [|apply password_plain].
  split; [done|]. intros H. not_listed H.
Qed.
Lemma registered_apart : no_collisions sum_digest [] redacted_call.2.
Proof.
  intros a b [->| ->]%registered [->| ->]%registered HP; [done|by apply tags_differ in HP|by symmetry in HP; apply tags_differ in HP|done].
Qed.
Lemma redacted_call_wf : wf sum_digest [] redacted_call.2.
Proof.
  pose proof (redact_json_rule sum_digest [] sum_digest_bytes [token_shape] call started token_covers started_wf) as H.
  fold redacted_call in H. destruct redacted_call as [out st']. apply H.
Qed.
Lemma redact_then_restore_witness :
  is_Some redacted_call.1
  ∧ (restore_json (map_to_list (by_placeholder redacted_call.2)) (default call redacted_call.1) empty_state).1 = call.
Proof.
  split; [by apply (bool_decide_unpack _); vm_compute|].
  refine (proj1 (redact_then_restore sum_digest [] sum_digest_bytes [token_shape] call started redacted_call.2 redacted_call.2 redacted_call.1 _ empty_state
    _ started_wf _ redacted_call_wf (grows_refl _) registered_good registered_apart _) _).
  - apply token_covers.
  - apply surjective_pairing.
  - reflexivity.
  - cbn. apply Forall_singleton. unfold quiet. rewrite <- contains_true. by vm_compute.
Defined.

Notation Req := (LlmRequest (X := nat) (Image := nat) (Time := nat) (Options := nat)).
Definition say (t : str) : Message (value nat) nat nat := mkMessage User (MText t) None None None.
Definition asking (texts : list str) : Req := mkRequest [] (say <$> texts) 0.
Definition texts_of (r : Req) : list str := (λ m, match content m with MText t => t | MBlocks _ => [] end) <$> messages r.
Definition sent (captures : list (str → list hit * str)) (texts : list str) (st : State) : list str * State :=
  let '(r, st) := redact_request sum_digest [] captures (asking texts) st in (texts_of r, st).
Lemma request_hides_known_witness :
  let r := (redact_request sum_digest [] [token_shape] (asking [lit "log in with hunter2hunter2"]) started).1 in
  texts_of r = [lit "log in with " ++ placeholder_for sum_digest [] password]
  ∧ Forall2 (message_pair (λ _ t, ¬ infix_of password t)) (messages (asking [lit "log in with hunter2hunter2"])) (messages r).
Proof.
  split; [by vm_compute|].
  refine (proj1 (proj2 (request_hides_known sum_digest [] sum_digest_bytes [token_shape] (asking [lit "log in with hunter2hunter2"]) started password
    token_covers _ _ password_plain password_apart))).
  - apply reached_env, reached_new.
  - by apply (bool_decide_unpack _); vm_compute.
Defined.

(** A secret that only its shape gives away is not hidden in the messages before the one
    that shows it; in the next request it is, and the sent prefix has changed. *)
Definition key_shape (text : str) : list hit * str :=
  match split_once text (lit "key=") with Some (a, (_ :: _) as b) => ([mkHit (a ++ lit "key=") b], []) | _ => ([], text) end.
Example learned_too_late :
  let texts := [lit "it is sesame-sesame"; lit "key=sesame-sesame"] in
  let '(once, st) := sent [key_shape] texts empty_state in
  let '(again, _) := sent [key_shape] texts st in
  head once = Some (lit "it is sesame-sesame")
  ∧ head again = Some (lit "it is " ++ placeholder_for sum_digest [] (lit "sesame-sesame")).
Proof. by vm_compute. Qed.
(** A URL password that holds a known secret has a placeholder around a placeholder:
    whether it is put back depends on the order of the table. *)
Definition url_shape (text : str) : list hit * str :=
  match split_once text (lit "//u:") with
  | Some (a, b) => match split_once b (lit "@") with Some (c, d) => ([mkHit (a ++ lit "//u:") c], lit "@" ++ d) | None => ([], text) end
  | None => ([], text)
  end.
Example order_decides :
  let text := lit "db//u:x-hunter2hunter2@h" in
  let '(out, st) := redact_text sum_digest [] [url_shape] text started in
  let entries := map_to_list (by_placeholder st) in
  let back es := default (default text out) (restore_text es (default text out)) in
  (back entries == text) ≠ (back (rev entries) == text).
Proof. by vm_compute. Qed.
(** Keys of objects are not read. *)
Example keys_are_sent : (redact_json sum_digest [] [token_shape] (VTable [(password, VString (X := nat) (lit "x"))]) started).1 = None.
Proof. by vm_compute. Qed.
End examples.
