(* ===== verification/Editor.v ===== *)
(** The prompt of the terminal ([tui/src/paste.rs], the editing actions of
    [tui/src/input.rs], the draft in [tui/src/app.rs]): a text with a cursor in bytes, and
    long pastes that stand in it as tokens [[pasted #N ~ L lines]].

    Suggestion popups, redraws, attached images and the sign-in code are not modelled, nor
    the timing that tells keys of an unbracketed paste from typing. Ids of pastes come from
    a counter of the process, here a field of the draft. *)

From coqutil Require Import Datatypes.RecordSetters.
From S2P Require Import Prelude RustStr Bytes ConfigTypes.

(** ** Cursor arithmetic *)

(** [while i > 0 && !s.is_char_boundary(i) { i -= 1 }]. *)
Fixpoint down (s : str) (i : nat) : nat := match i with O => O | S i' => if is_char_boundary s i then i else down s i' end.
Fixpoint up (fuel : nat) (s : str) (i : nat) : nat :=
  match fuel with O => i | S fuel => if (i <? byte_len s) && negb (is_char_boundary s i) then up fuel s (S i) else i end.
Definition prev_boundary (s : str) (idx : nat) : nat := if idx =? 0 then 0 else down s (idx `min` byte_len s - 1).
Definition next_boundary (s : str) (idx : nat) : nat := if byte_len s <=? idx then byte_len s else up (byte_len s) s (S idx).
Definition clamp_cursor (s : str) (idx : nat) : nat :=
  if byte_len s <=? idx then byte_len s else if is_char_boundary s idx then idx else prev_boundary s idx.
(** [s[i..j].chars().next().is_some_and(char::is_whitespace)]. *)
Definition blank_between (s : str) (i j : nat) : option bool := (λ t : str, match head t with Some c => is_whitespace c | None => false end) <$> slice s i j.
(** Back over characters of one kind. *)
Fixpoint back_while (fuel : nat) (blank : bool) (s : str) (i : nat) : option nat :=
  match fuel with
  | O => Some i
  | S fuel =>
      if i =? 0 then Some i else
      let prev := prev_boundary s i in
      b ← blank_between s prev i;
      if Bool.eqb b blank then back_while fuel blank s prev else Some i
  end.
Fixpoint forth_while (fuel : nat) (blank : bool) (s : str) (i : nat) : option nat :=
  match fuel with
  | O => Some i
  | S fuel =>
      if byte_len s <=? i then Some i else
      let next := next_boundary s i in
      b ← blank_between s i next;
      if Bool.eqb b blank then forth_while fuel blank s next else Some i
  end.
Definition prev_word_boundary (s : str) (idx : nat) : option nat :=
  i ← back_while (byte_len s) true s (clamp_cursor s idx); back_while (byte_len s) false s i.
Definition next_word_boundary (s : str) (idx : nat) : option nat :=
  i ← forth_while (byte_len s) true s (clamp_cursor s idx); forth_while (byte_len s) false s i.
(** [String::insert_str] and [replace_range(i..j, "")]: [None] is a panic. *)
Definition insert_str (s : str) (pos : nat) (t : str) : option str := a ← slice_to s pos; b ← slice_from s pos; Some (a ++ t ++ b).
Definition remove_range (s : str) (i j : nat) : option str :=
  if i <=? j then a ← slice_to s i; b ← slice_from s j; Some (a ++ b) else None.

(** ** Tokens of pastes *)

Definition COLLAPSE_MIN_LINES : nat := 2.
Definition COLLAPSE_MIN_CHARS : nat := 160.
Record PastedBlock := mkBlock { block_id : N; block_content : str }.
Definition line_count (text : str) : nat := if text is [] then 0 else S (length (List.filter (N.eqb cLF) text)).
Definition should_collapse (text : str) : bool :=
  match text with [] => false | _ => (COLLAPSE_MIN_LINES <=? line_count text) || (COLLAPSE_MIN_CHARS <=? length text) end.
Definition placeholder (id : N) (lines : nat) : str :=
  let n := 1 `max` lines in
  lit "[pasted #" ++ digits id ++ lit " ~ " ++ digits (N.of_nat n) ++ (if n =? 1 then lit " line" else lit " lines") ++ lit "]".

Record PlaceholderSpan := mkSpan { start : nat; end_ : nat; span_id : N }.
Definition u32_max : N := 4294967295.
(** Digits with something behind them. *)
Definition some_digits (s : str) : option (str * str) :=
  match take_while is_ascii_digit s, drop_while is_ascii_digit s with
  | (_ :: _) as ds, (_ :: _) as rest => Some (ds, rest)
  | _, _ => None
  end.
Definition parse_placeholder_at (s : str) : option (N * nat) :=
  after_prefix ← strip_prefix (lit "[pasted #") s;
  '(ids, after_id) ← some_digits after_prefix;
  id ← parse_uint u32_max ids;
  after_tilde ← strip_prefix (lit " ~ ") after_id;
  '(ns, after_n) ← some_digits after_tilde;
  unit ← (if starts_with after_n (lit " lines]") then Some (length (lit " lines]"))
          else if starts_with after_n (lit " line]") then Some (length (lit " line]")) else None);
  Some (id, length (lit "[pasted #") + length ids + 3 + length ns + unit).
(** The scan by bytes: a [[] is a character of its own, the other bytes are passed over.
    [skip] counts characters of a token still to be passed, all of one byte. *)
Fixpoint scan_placeholders (skip i : nat) (s : str) : list PlaceholderSpan :=
  match s with
  | [] => []
  | c :: r =>
      match skip with
      | S k => scan_placeholders k (i + len_utf8 c) r
      | O =>
          match (if (c =? chr "[")%N then parse_placeholder_at s else None) with
          | Some (id, len) => mkSpan i (i + len) id :: scan_placeholders (pred len) (i + len_utf8 c) r
          | None => scan_placeholders 0 (i + len_utf8 c) r
          end
      end
  end.
Definition find_placeholders (buf : str) : list PlaceholderSpan := scan_placeholders 0 0 buf.
Definition placeholder_at (buf : str) (pos : nat) : option PlaceholderSpan :=
  List.find (λ p, (start p <=? pos) && (pos <? end_ p)) (find_placeholders buf).
Definition placeholder_ending_at (buf : str) (pos : nat) : option PlaceholderSpan := List.find (λ p, end_ p =? pos) (find_placeholders buf).
Definition placeholder_starting_at (buf : str) (pos : nat) : option PlaceholderSpan := List.find (λ p, start p =? pos) (find_placeholders buf).
Definition find_block (blocks : list PastedBlock) (id : N) : option PastedBlock := List.find (λ b, (block_id b =? id)%N) blocks.
Fixpoint expand_spans (buf : str) (blocks : list PastedBlock) (cursor : nat) (spans : list PlaceholderSpan) : option str :=
  match spans with
  | [] => slice_from buf cursor
  | p :: spans =>
      before ← slice buf cursor (start p);
      body ← match find_block blocks (span_id p) with Some b => Some (block_content b) | None => slice buf (start p) (end_ p) end;
      rest ← expand_spans buf blocks (end_ p) spans;
      Some (before ++ body ++ rest)
  end.
Definition expand (buf : str) (blocks : list PastedBlock) : option str :=
  match find_placeholders buf with [] => Some buf | spans => expand_spans buf blocks 0 spans end.
Definition prune_unused (blocks : list PastedBlock) (buf : str) : list PastedBlock :=
  List.filter (λ b, existsb (λ p, (span_id p =? block_id b)%N) (find_placeholders buf)) blocks.

(** ** The draft *)

Definition INPUT_HISTORY_MAX : nat := 1000.
Module Draft.
Record Draft := mk { buffer : str; cursor : nat; pastes : list PastedBlock; history : list str; history_idx : nat; next_id : N }.
Definition new : Draft := mk [] 0 [] [] 0 1.
End Draft.
Notation Draft := Draft.Draft.

(** A change of the text and the cursor; unused pastes go. *)
Definition edited (d : Draft) (buffer : str) (cursor : nat) : Draft :=
  d <| Draft.buffer := buffer |> <| Draft.cursor := cursor |> <| Draft.pastes ::= λ b, prune_unused b buffer |>.
Definition without_block (id : N) (d : Draft) : Draft := d <| Draft.pastes ::= List.filter (λ b, negb (block_id b =? id)%N) |>.
Definition remove_paste_span (d : Draft) (p : PlaceholderSpan) : option Draft :=
  if (end_ p <? start p) || (byte_len (Draft.buffer d) <? end_ p) then Some d
  else buffer ← remove_range (Draft.buffer d) (start p) (end_ p); Some (edited (without_block (span_id p) d) buffer (start p)).
Definition widen (acc : nat * nat * Draft) (p : PlaceholderSpan) : nat * nat * Draft :=
  let '(lo, hi, d) := acc in
  if (lo <? end_ p) && (start p <? hi) then (lo `min` start p, hi `max` end_ p, without_block (span_id p) d) else acc.
Definition delete_range_expanding_placeholders (d : Draft) (i j : nat) : option Draft :=
  let '(lo, hi, d') := foldl widen (i `min` j, i `max` j, d) (find_placeholders (Draft.buffer d)) in
  if (lo <? hi) && (hi <=? byte_len (Draft.buffer d)) then buffer ← remove_range (Draft.buffer d) lo hi; Some (edited d' buffer lo)
  else Some (edited d' (Draft.buffer d) lo).
Definition next_paste_id (n : N) : N := ((n + 1) mod 4294967296)%N.
Definition insert_paste_text (d : Draft) (text : str) : option Draft :=
  match text with
  | [] => Some d
  | _ =>
      let pos := let idx := Draft.cursor d `min` byte_len (Draft.buffer d) in if is_char_boundary (Draft.buffer d) idx then idx else down (Draft.buffer d) idx in
      if should_collapse text then
        let id := Draft.next_id d in
        let token := placeholder id (line_count text) in
        buffer ← insert_str (Draft.buffer d) pos token;
        Some (edited (d <| Draft.pastes ::= λ b, b ++ [mkBlock id text] |> <| Draft.next_id ::= next_paste_id |>) buffer (pos + byte_len token))
      else
        buffer ← insert_str (Draft.buffer d) pos text;
        Some (edited d buffer (pos + byte_len text))
  end.
Definition remember_input (text : str) (d : Draft) : Draft :=
  d <| Draft.history ::= λ h, let h := h ++ [text] in drop (length h - INPUT_HISTORY_MAX) h |>.
Definition emptied (d : Draft) : Draft := d <| Draft.buffer := [] |> <| Draft.cursor := 0 |> <| Draft.pastes := [] |>.

(** ** Actions *)

(** [flood]: the key comes in the flood of an unbracketed paste, as its timing tells. *)
Inductive Action :=
| InputChar (c : rchar) (flood : bool) | InputPaste (text : str)
| InputBackspace | InputDelete | InputClear | InputKillWordBack | InputKillWordForward
| InputWordLeft | InputWordRight | InputLeft | InputRight | InputHome | InputEnd | InputNewline
| InputHistoryPrev | InputHistoryNext | ClearDraft | Submit.

(** The token a backward or a forward action takes as one unit. *)
Definition chip_before (d : Draft) (pos : nat) : option PlaceholderSpan :=
  match placeholder_ending_at (Draft.buffer d) pos with Some p => Some p | None => placeholder_at (Draft.buffer d) (pos - 1) end.
Definition chip_behind (d : Draft) (pos : nat) : option PlaceholderSpan :=
  match placeholder_starting_at (Draft.buffer d) pos with Some p => Some p | None => placeholder_at (Draft.buffer d) pos end.
Definition is_bare_slash_draft (buf : str) : bool := match buf with [] => false | _ => forallb (N.eqb (chr "/")) buf end.
Definition insert_at_cursor (d : Draft) (c : rchar) : option Draft :=
  let pos := clamp_cursor (Draft.buffer d) (Draft.cursor d) in
  buffer ← insert_str (Draft.buffer d) pos [c];
  Some (d <| Draft.buffer := buffer |> <| Draft.cursor := pos + len_utf8 c |>).
(** A typed character; a second slash on a bare one reopens the menu of commands. *)
Definition insert_char (d : Draft) (c : rchar) (flood : bool) : option Draft :=
  if (c =? chr "/")%N && is_bare_slash_draft (Draft.buffer d) && negb flood
  then Some (d <| Draft.buffer := lit "/" |> <| Draft.cursor := 1 |>)
  else insert_at_cursor d c.
Definition recall (d : Draft) (idx : nat) (text : str) : Draft :=
  d <| Draft.history_idx := idx |> <| Draft.pastes := [] |> <| Draft.buffer := text |> <| Draft.cursor := byte_len text |>.
Definition handle_input_action (d : Draft) (a : Action) : option Draft :=
  let s := Draft.buffer d in
  let pos := clamp_cursor s (Draft.cursor d) in
  let go (cursor : nat) := Some (d <| Draft.cursor := cursor |>) in
  match a with
  | InputChar c flood => insert_char d c flood
  | InputPaste text => insert_paste_text d text
  | InputBackspace =>
      if Draft.cursor d =? 0 then Some d else
      match chip_before d pos with
      | Some p => remove_paste_span d p
      | None => let i := prev_boundary s pos in buffer ← remove_range s i pos; Some (edited d buffer i)
      end
  | InputDelete =>
      if byte_len s <=? Draft.cursor d then Some d else
      match chip_behind d pos with
      | Some p => remove_paste_span d p
      | None => buffer ← remove_range s pos (next_boundary s pos); Some (edited d buffer pos)
      end
  | InputClear => Some (emptied d)
  | InputKillWordBack =>
      if Draft.cursor d =? 0 then Some d else
      match chip_before d pos with
      | Some p => remove_paste_span d p
      | None => i ← prev_word_boundary s pos; delete_range_expanding_placeholders d i pos
      end
  | InputKillWordForward =>
      if byte_len s <=? Draft.cursor d then Some d else
      match chip_behind d pos with
      | Some p => remove_paste_span d p
      | None => j ← next_word_boundary s pos; delete_range_expanding_placeholders d pos j
      end
  | InputWordLeft => match chip_before d pos with Some p => go (start p) | None => i ← prev_word_boundary s pos; go i end
  | InputWordRight =>
      if byte_len s <=? Draft.cursor d then Some d else
      match chip_behind d pos with Some p => go (end_ p) | None => j ← next_word_boundary s pos; go j end
  | InputLeft => match chip_before d pos with Some p => go (start p) | None => go (prev_boundary s (Draft.cursor d)) end
  | InputRight =>
      if byte_len s <=? Draft.cursor d then Some d else
      match chip_behind d pos with Some p => go (end_ p) | None => go (next_boundary s (Draft.cursor d)) end
  | InputHome => go 0
  | InputEnd => go (byte_len s)
  | InputNewline => insert_at_cursor d cLF
  | InputHistoryPrev =>
      if (length (Draft.history d) =? 0) || (Draft.history_idx d =? 0) then Some d else
      let idx := Draft.history_idx d - 1 in text ← Draft.history d !! idx; Some (recall d idx text)
  | InputHistoryNext =>
      if length (Draft.history d) <=? Draft.history_idx d then Some d else
      let idx := Draft.history_idx d + 1 in Some (recall d idx (default [] (Draft.history d !! idx)))
  | ClearDraft =>
      match trim s with
      | [] => Some (emptied d)
      | text => expanded ← expand text (Draft.pastes d);
                let d := remember_input expanded d in Some (emptied (d <| Draft.history_idx := length (Draft.history d) |>))
      end
  | Submit =>
      match trim s with
      | [] => Some d
      | (c :: _) as text =>
          if (c =? chr "/")%N then Some d else
          expanded ← expand text (Draft.pastes d);
          let d := match expanded with [] => d | _ => remember_input expanded d end in
          Some (emptied (d <| Draft.history_idx := length (Draft.history d) |>))
      end
  end.
(** The text a submitted draft gives the agent. *)
Definition submitted (d : Draft) : option str := expand (trim (Draft.buffer d)) (Draft.pastes d).
Definition run (actions : list Action) (d : Draft) : option Draft := foldl (λ d a, d ← d; handle_input_action d a) (Some d) actions.
