(* ===== verification/DraftFacts.v ===== *)
(** What holds of the prompt: motions by words are those of the text, every sequence of
    actions keeps the cursor on a character, and a collapsed paste is given back whole. *)

From coqutil Require Import Datatypes.RecordSetters.
From S2P Require Import Prelude RustStr Bytes ConfigTypes Editor.

(** ** Boundaries *)

Lemma boundary_split a b : is_char_boundary (a ++ b) (byte_len a) = true.
Proof. apply is_char_boundary_true. eauto. Qed.

Lemma boundary_inside a c b i : byte_len a < i < byte_len a + len_utf8 c → is_char_boundary (a ++ c :: b) i = false.
Proof.
  intros Hi. apply not_true_is_false. intros (p & r & E & <-)%is_char_boundary_true.
  destruct (byte_split_le a p (c :: b) r E ltac:(lia)) as ([|d m] & -> & E'); [blia|]. simplify_eq/=. blia.
Qed.

Lemma down_char a c b k : k < len_utf8 c → down (a ++ c :: b) (byte_len a + k) = byte_len a.
Proof.
  induction k as [|k IH]; intros Hk.
  - rewrite Nat.add_0_r. destruct (byte_len a) as [|n] eqn:E; [done|]. cbn [down]. by rewrite <-E, boundary_split.
  - rewrite Nat.add_succ_r. cbn [down]. rewrite boundary_inside by lia. apply IH. lia.
Qed.

Lemma up_char fuel a c b i :
  byte_len a < i ≤ byte_len a + len_utf8 c → byte_len a + len_utf8 c ≤ fuel + i → up fuel (a ++ c :: b) i = byte_len a + len_utf8 c.
Proof.
  revert i; induction fuel as [|fuel IH]; intros i Hi Hf; cbn [up]; [lia|].
  destruct (decide (i = byte_len a + len_utf8 c)) as [->|].
  - assert (is_char_boundary (a ++ c :: b) (byte_len a + len_utf8 c) = true) as ->.
    { apply is_char_boundary_true. exists (a ++ [c]), b. rewrite <-app_assoc. split; [done|blia]. }
    by rewrite andb_false_r.
  - rewrite boundary_inside by lia. rewrite (proj2 (Nat.ltb_lt _ _)) by blia. apply IH; lia.
Qed.

Lemma prev_boundary_snoc a c b : prev_boundary ((a ++ [c]) ++ b) (byte_len (a ++ [c])) = byte_len a.
Proof.
  pose proof (len_utf8_pos c). unfold prev_boundary. rewrite (proj2 (Nat.eqb_neq _ _)) by blia.
  replace (_ - 1) with (byte_len a + (len_utf8 c - 1)) by blia. rewrite <-app_assoc. apply down_char. lia.
Qed.

Lemma next_boundary_cons a c b : next_boundary (a ++ c :: b) (byte_len a) = byte_len (a ++ [c]).
Proof.
  pose proof (len_utf8_pos c). unfold next_boundary. rewrite (proj2 (Nat.leb_gt _ _)) by blia.
  rewrite up_char; blia.
Qed.

Lemma clamp_split a b : clamp_cursor (a ++ b) (byte_len a) = byte_len a.
Proof. unfold clamp_cursor. rewrite boundary_split. destruct (Nat.leb_spec (byte_len (a ++ b)) (byte_len a)); [blia|done]. Qed.

Lemma blank_between_char a c b : blank_between (a ++ c :: b) (byte_len a) (byte_len (a ++ [c])) = Some (is_whitespace c).
Proof.
  unfold blank_between. change (a ++ c :: b) with (a ++ [c] ++ b).
  by rewrite (proj2 (slice_Some (a ++ [c] ++ b) _ _ [c])) by (exists a, b; done).
Qed.

(** ** Motions by words *)

Lemma trim_end_snoc f a c : trim_end_matches f (a ++ [c]) = if f c then trim_end_matches f a else a ++ [c].
Proof. unfold trim_end_matches. rewrite rev_app_distr. simpl. case_match; [done|]. simpl. by rewrite rev_involutive. Qed.
Lemma trim_end_ext f g a : (∀ c, f c = g c) → trim_end_matches f a = trim_end_matches g a.
Proof. intros E. induction a as [|c a IH] using rev_ind; [done|]. by rewrite !trim_end_snoc, E, IH. Qed.

Lemma back_while_spec fuel blank a b : byte_len a ≤ fuel →
  back_while fuel blank (a ++ b) (byte_len a) = Some (byte_len (trim_end_matches (λ c, Bool.eqb (is_whitespace c) blank) a)).
Proof.
  revert b fuel; induction a as [|c a IH] using rev_ind; intros b fuel Hf; [by destruct fuel|].
  pose proof (len_utf8_pos c). destruct fuel as [|fuel]; [blia|]. cbn [back_while].
  rewrite (proj2 (Nat.eqb_neq _ _)) by blia. rewrite prev_boundary_snoc, <-app_assoc. cbn [app].
  rewrite blank_between_char. cbn. rewrite trim_end_snoc. case_match; [|done]. apply IH. blia.
Qed.

Lemma forth_while_spec fuel blank a b : byte_len b ≤ fuel →
  forth_while fuel blank (a ++ b) (byte_len a) = Some (byte_len (a ++ take_while (λ c, Bool.eqb (is_whitespace c) blank) b)).
Proof.
  revert a fuel; induction b as [|c b IH]; intros a fuel Hf.
  - rewrite !app_nil_r. destruct fuel; [done|]. cbn [forth_while]. by rewrite Nat.leb_refl.
  - pose proof (len_utf8_pos c). destruct fuel as [|fuel]; [blia|]. cbn [forth_while take_while].
    rewrite (proj2 (Nat.leb_gt _ _)) by blia. rewrite next_boundary_cons, blank_between_char. cbn.
    case_match; [|by rewrite app_nil_r]. change (c :: b) with ([c] ++ b). rewrite app_assoc, IH by blia.
    by rewrite <-app_assoc.
Qed.

(** The text before and behind a word's boundary. *)
Definition before_word (a : str) : str := trim_end_matches (λ c, negb (is_whitespace c)) (trim_end a).
Definition blanks_and_word (b : str) : str :=
  take_while is_whitespace b ++ take_while (λ c, negb (is_whitespace c)) (drop_while is_whitespace b).

Lemma eqb_true b : Bool.eqb b true = b. Proof. by destruct b. Qed.
Lemma take_while_ext {A} (f g : A → bool) s : (∀ c, f c = g c) → take_while f s = take_while g s.
Proof. intros E. induction s as [|c s IH]; simpl; [done|]. by rewrite E, IH. Qed.

Lemma prev_word_spec a b : prev_word_boundary (a ++ b) (byte_len a) = Some (byte_len (before_word a)).
Proof.
  unfold prev_word_boundary. rewrite clamp_split, back_while_spec by blia. cbn.
  rewrite (trim_end_ext _ is_whitespace) by (intros; apply eqb_true). fold (trim_end a).
  destruct (trim_end_matches_prefix is_whitespace a) as [w E]. fold (trim_end a) in E. rewrite E at 1 2.
  rewrite <-!app_assoc, back_while_spec by blia. done.
Qed.

Lemma next_word_spec a b : next_word_boundary (a ++ b) (byte_len a) = Some (byte_len (a ++ blanks_and_word b)).
Proof.
  unfold next_word_boundary. rewrite clamp_split, forth_while_spec by blia. cbn.
  rewrite (take_while_ext _ is_whitespace) by (intros; apply eqb_true).
  unfold blanks_and_word. set (w := take_while is_whitespace b).
  replace (a ++ b) with ((a ++ w) ++ drop_while is_whitespace b) by (by rewrite <-app_assoc; unfold w; rewrite take_drop_while).
  rewrite forth_while_spec by (rewrite <-(take_drop_while is_whitespace b); blia). by rewrite <-app_assoc.
Qed.

(** ** Tokens *)

Definition is_digits (ds : str) : Prop := ds ≠ [] ∧ Forall (λ c, is_ascii_digit c = true) ds.
(** A token of a paste. *)
Inductive token (id : N) : str → Prop :=
| is_token ds ns u : is_digits ds → is_digits ns → parse_uint u32_max ds = Some id → u = lit " lines]" ∨ u = lit " line]" →
    token id (lit "[pasted #" ++ ds ++ lit " ~ " ++ ns ++ u).

Lemma strip_prefix_app p r : strip_prefix p (p ++ r) = Some r.
Proof. by apply strip_prefix_Some. Qed.
Lemma digit_range c : is_ascii_digit c = true → (48 ≤ c ≤ 57)%N.
Proof. unfold is_ascii_digit. rewrite andb_true_iff, !N.leb_le. done. Qed.

Lemma is_digits_weaken ds (P : rchar → Prop) : is_digits ds → (∀ c, (48 ≤ c ≤ 57)%N → P c) → Forall P ds.
Proof. intros [_ H] HP. eapply Forall_impl; [exact H|]. intros c Hc. by apply HP, digit_range. Qed.

Lemma some_digits_app ds c r : is_digits ds → is_ascii_digit c = false → some_digits (ds ++ c :: r) = Some (ds, c :: r).
Proof.
  intros [Hn Hd] Hc. unfold some_digits. rewrite take_while_app, drop_while_app by done. by destruct ds.
Qed.
Lemma some_digits_Some s ds r : some_digits s = Some (ds, r) → s = ds ++ r ∧ is_digits ds.
Proof.
  unfold some_digits. pose proof (take_while_all is_ascii_digit s). pose proof (take_drop_while is_ascii_digit s) as E.
  repeat case_match; [done..|]. intros [= <- <-]. rewrite E. done.
Qed.

Lemma parse_placeholder_spec s id len :
  parse_placeholder_at s = Some (id, len) ↔ ∃ t r, s = t ++ r ∧ token id t ∧ len = length t.
Proof.
  unfold parse_placeholder_at. split.
  - intros (s1 & ->%strip_prefix_Some & ([ds s2] & [-> Hd]%some_digits_Some & (i & Hi & (s3 & ->%strip_prefix_Some &
      ([ns s4] & [-> Hn]%some_digits_Some & (u & Hu & [= <- <-])%bind_Some)%bind_Some)%bind_Some)%bind_Some)%bind_Some)%bind_Some.
    assert (∃ w r, s4 = w ++ r ∧ u = length w ∧ (w = lit " lines]" ∨ w = lit " line]")) as (w & r & -> & -> & Hw).
    { repeat case_match; simplify_eq/=; match goal with H : starts_with _ _ = true |- _ => apply starts_with_true in H as [r ->] end; eauto 6. }
    exists (lit "[pasted #" ++ ds ++ lit " ~ " ++ ns ++ w), r. split_and!; [by rewrite <-!app_assoc|by constructor|].
    rewrite !length_app. change (length (lit "[pasted #")) with 9. change (length (lit " ~ ")) with 3. lia.
  - intros (t & r & -> & [ds ns u Hd Hn Hi Hu] & ->). rewrite <-!app_assoc.
    rewrite !strip_prefix_app. cbn [mbind option_bind].
    assert (some_digits (ds ++ lit " ~ " ++ ns ++ u ++ r) = Some (ds, lit " ~ " ++ ns ++ u ++ r)) as -> by (by apply some_digits_app).
    cbn [mbind option_bind]. rewrite Hi. cbn [mbind option_bind].
    rewrite strip_prefix_app. cbn [mbind option_bind].
    assert (∃ u', u = 32%N :: u') as [u' Eu] by (destruct Hu as [-> | ->]; eexists; reflexivity).
    assert (some_digits (ns ++ u ++ r) = Some (ns, u ++ r)) as -> by (rewrite Eu; by apply some_digits_app).
    cbn [mbind option_bind]. rewrite !length_app. change (length (lit " ~ ")) with 3.
    destruct Hu as [-> | ->].
    + rewrite starts_with_app. cbn [mbind option_bind]. do 2 f_equal. lia.
    + change (starts_with (lit " line]" ++ r) (lit " lines]")) with false. rewrite starts_with_app. cbn [mbind option_bind]. do 2 f_equal. lia.
Qed.

(** The characters of a token behind its [[]. *)
Definition inner (c : rchar) : bool := (c <? 128)%N && negb (c =? chr "[")%N.
Lemma inner_lit l : forallb inner l = true → Forall (λ c, inner c = true) l.
Proof. rewrite forallb_forall, List.Forall_forall. done. Qed.
Lemma inner_digits ds : is_digits ds → Forall (λ c, inner c = true) ds.
Proof. intros H. apply is_digits_weaken; [done|]. intros c Hc. unfold inner. rewrite andb_true_iff, N.ltb_lt, negb_true_iff, N.eqb_neq. change (chr "[") with 91%N. lia. Qed.

Lemma token_shape id t : token id t → ∃ t', t = chr "[" :: t' ∧ Forall (λ c, inner c = true) t'.
Proof.
  intros [ds ns u Hd Hn _ Hu]. exists (lit "pasted #" ++ ds ++ lit " ~ " ++ ns ++ u). split; [reflexivity|].
  rewrite !Forall_app. split_and!; [by apply inner_lit|by apply inner_digits|by apply inner_lit|by apply inner_digits|].
  destruct Hu as [-> | ->]; by apply inner_lit.
Qed.

Lemma token_ascii id t : token id t → ascii t.
Proof.
  intros (t' & -> & H)%token_shape. constructor; [done|]. eapply Forall_impl; [exact H|].
  intros c [Hc _]%andb_true_iff. by apply N.ltb_lt.
Qed.

Lemma token_len id t : token id t → byte_len t = length t ∧ 0 < byte_len t.
Proof. intros H. rewrite (ascii_byte_len t) by (by eapply token_ascii). destruct (token_shape _ _ H) as (t' & -> & _). simpl. split; lia. Qed.

(** The token of a paste, read back. *)
Lemma placeholder_token id n : (id ≤ u32_max)%N → token id (placeholder id n).
Proof.
  intros Hid. unfold placeholder. set (m := 1 `max` n).
  apply is_token; [split; [apply digits_nonnil|apply digits_all]..|by apply parse_uint_digits|].
  destruct (m =? 1); [by right|by left].
Qed.

(** *** A text as plain characters and tokens *)

Inductive piece := Plain (c : rchar) | Chip (id : N) (t : str).
Definition spelling (p : piece) : str := match p with Plain c => [c] | Chip _ t => t end.
(** A token counts wherever one starts. *)
Inductive pieces : str → list piece → Prop :=
| pieces_nil : pieces [] []
| pieces_chip id t s ps : token id t → pieces s ps → pieces (t ++ s) (Chip id t :: ps)
| pieces_plain c s ps : (∀ id t r, c :: s = t ++ r → ¬ token id t) → pieces s ps → pieces (c :: s) (Plain c :: ps).

Fixpoint spans_at (i : nat) (ps : list piece) : list PlaceholderSpan :=
  match ps with
  | [] => []
  | Plain c :: ps => spans_at (i + len_utf8 c) ps
  | Chip id t :: ps => mkSpan i (i + byte_len t) id :: spans_at (i + byte_len t) ps
  end.

Lemma pieces_spelling s ps : pieces s ps → s = concat (spelling <$> ps).
Proof. induction 1 as [|id t s ps _ _ IH|c s ps _ _ IH]; cbn; [done|by rewrite IH at 1..]. Qed.

Lemma scan_skip k i a s : length a = k → scan_placeholders k i (a ++ s) = scan_placeholders 0 (i + byte_len a) s.
Proof.
  revert k i; induction a as [|c a IH]; intros k i <-; cbn [app length scan_placeholders].
  - by rewrite byte_len_nil, Nat.add_0_r.
  - rewrite IH by done. f_equal. blia.
Qed.

Lemma scan_chip id t s i : token id t → scan_placeholders 0 i (t ++ s) = mkSpan i (i + byte_len t) id :: scan_placeholders 0 (i + byte_len t) s.
Proof.
  intros Ht. pose proof (proj2 (parse_placeholder_spec (t ++ s) id (length t)) ltac:(eauto)) as Hp.
  destruct (token_len _ _ Ht) as [-> _]. pose proof (ascii_byte_len t (token_ascii _ _ Ht)) as Hb.
  destruct (token_shape _ _ Ht) as (t' & -> & _). cbn [app scan_placeholders] in *. rewrite N.eqb_refl, Hp.
  f_equal. cbn [length pred] in *. rewrite scan_skip by done. f_equal. rewrite byte_len_cons in Hb. lia.
Qed.

Lemma scan_plain c s i : (∀ id t r, c :: s = t ++ r → ¬ token id t) → scan_placeholders 0 i (c :: s) = scan_placeholders 0 (i + len_utf8 c) s.
Proof.
  intros H. cbn [scan_placeholders]. destruct (c =? chr "[")%N; [|done].
  destruct (parse_placeholder_at (c :: s)) as [[id len]|] eqn:E; [|done].
  apply parse_placeholder_spec in E as (t & r & E & Ht & _). by destruct (H id t r E).
Qed.

Lemma scan_pieces s ps i : pieces s ps → scan_placeholders 0 i s = spans_at i ps.
Proof.
  intros H. revert i. induction H as [|id t s ps Ht _ IH|c s ps Hc _ IH]; intros i; cbn [spans_at]; [done| |].
  - by rewrite (scan_chip id), IH.
  - by rewrite scan_plain, IH.
Qed.

Lemma pieces_total s : ∃ ps, pieces s ps.
Proof.
  induction s as [s IH] using (induction_ltof1 _ (@length N)). unfold ltof in IH. destruct s as [|c s]; [eexists; constructor|].
  destruct (parse_placeholder_at (c :: s)) as [[id len]|] eqn:E.
  - apply parse_placeholder_spec in E as (t & r & E & Ht & _). destruct (token_len _ _ Ht) as [Hl Hp].
    destruct (IH r) as [ps Hps]; [rewrite E, length_app; lia|]. rewrite E. eexists. by constructor.
  - destruct (IH s) as [ps Hps]; [simpl; lia|]. eexists. constructor; [|done].
    intros id t r Et Ht. assert (parse_placeholder_at (c :: s) = Some (id, length t)) as E' by (apply parse_placeholder_spec; eauto). congruence.
Qed.

(** *** Expansion *)

(** What a piece becomes: the paste, or the token itself. *)
Definition body (blocks : list PastedBlock) (p : piece) : str :=
  match p with Plain c => [c] | Chip id t => match find_block blocks id with Some b => block_content b | None => t end end.
Definition bodies (blocks : list PastedBlock) (ps : list piece) : str := concat (body blocks <$> ps).

Lemma bodies_app blocks ps qs : bodies blocks (ps ++ qs) = bodies blocks ps ++ bodies blocks qs.
Proof. unfold bodies. by rewrite fmap_app, concat_app. Qed.

Lemma expand_spans_pieces blocks s ps p m : pieces s ps →
  expand_spans (p ++ m ++ s) blocks (byte_len p) (spans_at (byte_len (p ++ m)) ps) = Some (m ++ bodies blocks ps).
Proof.
  intros H. revert p m. induction H as [|id t s ps Ht _ IH|c s ps Hc _ IH]; intros p m; cbn [spans_at].
  - cbn [expand_spans]. by rewrite slice_from_app.
  - cbn [expand_spans start end_ span_id]. rewrite byte_len_app, slice_app. cbn [mbind option_bind].
    assert (slice (p ++ m ++ t ++ s) (byte_len p + byte_len m) (byte_len p + byte_len m + byte_len t) = Some t) as ->.
    { rewrite (app_assoc p), <-byte_len_app. apply slice_app. }
    specialize (IH (p ++ m ++ t) []). rewrite app_nil_r, <-!app_assoc, !byte_len_app, Nat.add_assoc in IH. cbn [app] in IH. rewrite IH.
    unfold bodies. cbn. by destruct (find_block blocks id).
  - specialize (IH p (m ++ [c])). rewrite <-!app_assoc, !byte_len_app, byte_len_cons, byte_len_nil in IH. cbn [app] in IH.
    rewrite byte_len_app, <-Nat.add_assoc. rewrite Nat.add_0_r in IH. rewrite Nat.add_assoc in IH. rewrite <-Nat.add_assoc in IH. exact IH.
Qed.

Lemma expand_pieces blocks s ps : pieces s ps → expand s blocks = Some (bodies blocks ps).
Proof.
  intros H. pose proof (expand_spans_pieces blocks s ps [] [] H) as E. cbn [app] in E. rewrite byte_len_nil in E.
  unfold expand, find_placeholders. rewrite (scan_pieces s ps 0 H). destruct (spans_at 0 ps); [|exact E]. rewrite <-E. by destruct s.
Qed.

(** A token between two texts leaves their pieces alone. *)
Lemma pieces_around a b id t pa pb : token id t → pieces a pa → pieces b pb → pieces (a ++ t ++ b) (pa ++ Chip id t :: pb).
Proof.
  intros Ht Ha Hb. induction Ha as [|id' t' s ps Ht' _ IH|c s ps Hc _ IH]; cbn [app].
  - by constructor.
  - rewrite <-app_assoc. by constructor.
  - constructor; [|done]. intros i u r E Hu. destruct (token_shape _ _ Hu) as (u' & -> & Hin).
    destruct (token_shape _ _ Ht) as (t' & -> & _). cbn [app] in E. injection E as Ec E.
    assert (∃ k, s = u' ++ k) as [k ->].
    { apply app_eq_inv in E as [(k & Es & _)|([|d k] & Eu & Ek)]; [by exists k|exists []; by rewrite Eu, !app_nil_r|].
      cbn [app] in Ek. injection Ek as <- _. rewrite Eu in Hin. by apply Forall_app in Hin as [_ [? _]%Forall_cons]. }
    subst c. by destruct (Hc i (chr "[" :: u') k eq_refl).
Qed.

(** ** What a paste becomes *)

(** Which pastes a text has tokens of. *)
Lemma chip_found s ps id : pieces s ps → existsb (λ p, (span_id p =? id)%N) (find_placeholders s) = true ↔ ∃ t, In (Chip id t) ps.
Proof.
  intros H. unfold find_placeholders. rewrite (scan_pieces s ps 0 H). clear H. generalize 0 at 1.
  induction ps as [|[c|i u] ps IH]; intros n; cbn.
  - split; [done|]. by intros [? []].
  - rewrite IH. split; intros [t Ht]; exists t; [by right|by destruct Ht].
  - rewrite orb_true_iff, IH, N.eqb_eq. split.
    + intros [->|[t Ht]]; [exists u; by left|exists t; by right].
    + intros [t [[= -> _]|Ht]]; [by left|right; by exists t].
Qed.

Lemma prune_bodies blocks s ps qs : pieces s ps → incl qs ps → bodies (prune_unused blocks s) qs = bodies blocks qs.
Proof.
  intros H Hi. unfold bodies. f_equal. apply map_ext_in. intros [c|id t] Hp%Hi; [done|]. cbn [body].
  enough (find_block (prune_unused blocks s) id = find_block blocks id) as -> by done.
  pose proof (proj2 (chip_found s ps id H) ltac:(eauto)) as Hid.
  unfold find_block, prune_unused. induction blocks as [|[i u] blocks IH]; [done|]. cbn [List.filter List.find block_id] in *.
  destruct (N.eqb_spec i id) as [->|Hne].
  - rewrite Hid. cbn. by rewrite N.eqb_refl.
  - case_match; [|done]. cbn. by rewrite (proj2 (N.eqb_neq _ _)) by done.
Qed.

Lemma find_block_snoc blocks id text i : find_block blocks id = None →
  find_block (blocks ++ [mkBlock id text]) i = if (i =? id)%N then Some (mkBlock id text) else find_block blocks i.
Proof.
  intros Hn. unfold find_block in *. induction blocks as [|b blocks IH]; cbn in *.
  - by rewrite N.eqb_sym.
  - destruct (block_id b =? id)%N eqn:E; [done|]. rewrite IH by done. destruct (N.eqb_spec (block_id b) i) as [<-|]; [|done]. by rewrite E.
Qed.

(** [id] occurs in none of the tokens of a text. *)
Definition unused (id : N) (s : str) : Prop := existsb (λ p, (span_id p =? id)%N) (find_placeholders s) = false.

Lemma unused_bodies id blocks text s ps qs : find_block blocks id = None → pieces s ps → unused id s → incl qs ps →
  bodies (blocks ++ [mkBlock id text]) qs = bodies blocks qs.
Proof.
  intros Hn H Hu Hi. unfold bodies. f_equal. apply map_ext_in. intros [c|i t] Hp%Hi; [done|]. cbn [body].
  rewrite find_block_snoc by done. destruct (N.eqb_spec i id) as [->|]; [|done].
  unfold unused in Hu. rewrite (proj2 (chip_found s ps id H)) in Hu by eauto. done.
Qed.

(** Blanks around a text are pieces of their own. *)
Lemma pieces_blank_before w s ps : Forall (λ c, is_whitespace c = true) w → pieces s ps → pieces (w ++ s) ((Plain <$> w) ++ ps).
Proof.
  intros Hw H. induction Hw as [|c w Hc _ IH]; [done|]. cbn. constructor; [|done].
  intros id t r E (t' & -> & _)%token_shape. injection E as -> _. done.
Qed.
Lemma token_last id t : token id t → ∃ t', t = t' ++ lit "]".
Proof.
  intros [ds ns u _ _ _ [-> | ->]].
  - exists (lit "[pasted #" ++ ds ++ lit " ~ " ++ ns ++ lit " lines"). by rewrite <-!app_assoc.
  - exists (lit "[pasted #" ++ ds ++ lit " ~ " ++ ns ++ lit " line"). by rewrite <-!app_assoc.
Qed.
Lemma pieces_blank_behind w s ps : Forall (λ c, is_whitespace c = true) w → pieces s ps → pieces (s ++ w) (ps ++ (Plain <$> w)).
Proof.
  intros Hw H. induction H as [|id t s ps Ht _ IH|c s ps Hc _ IH]; cbn [app].
  - rewrite <-(app_nil_r w) at 1. rewrite <-(app_nil_r (Plain <$> w)). apply pieces_blank_before; [done|constructor].
  - rewrite <-app_assoc. by constructor.
  - constructor; [|done]. intros i u r E Hu. destruct (token_last _ _ Hu) as [v Ev].
    change (c :: s ++ w) with ((c :: s) ++ w) in E. apply app_eq_inv in E as [(k & Es & _)|(k & Eu & Ek)].
    + by apply (Hc i u k).
    + destruct k as [|d k _] using rev_ind; [apply (Hc i u []); [by rewrite Eu, !app_nil_r|done]|].
      rewrite Eu, app_assoc in Ev. apply app_inj_tail in Ev as [_ ->]. rewrite Ek in Hw.
      by apply Forall_app in Hw as [[_ [? _]%Forall_cons]%Forall_app _].
Qed.
Lemma trim_start_split (s : str) : ∃ w, s = w ++ trim_start s ∧ Forall (λ c, is_whitespace c = true) w.
Proof.
  unfold trim_start, trim_start_matches. induction s as [|c s [w [E Hw]]]; [by exists []|]. cbn [drop_while].
  destruct (is_whitespace c) eqn:Ec; [|by exists []]. exists (c :: w). split; [by rewrite E at 1|by constructor].
Qed.
Lemma trim_end_split (s : str) : ∃ w, s = trim_end s ++ w ∧ Forall (λ c, is_whitespace c = true) w.
Proof.
  destruct (trim_start_split (rev s)) as (w & E & Hw). exists (rev w). split.
  - unfold trim_end, trim_end_matches. rewrite <-rev_app_distr. unfold trim_start, trim_start_matches in E. by rewrite <-E, rev_involutive.
  - by apply Forall_rev.
Qed.
Lemma drop_while_app_stop f (s r : str) c : f c = false → drop_while f (s ++ c :: r) = drop_while f s ++ c :: r.
Proof. intros Hc. induction s as [|d s IH]; cbn; [by rewrite Hc|]. by destruct (f d). Qed.
(** Trimming a prompt does not reach a token of it. *)
Lemma trim_around a b id t : token id t → trim (a ++ t ++ b) = trim_start a ++ t ++ trim_end b.
Proof.
  intros Ht. destruct (token_shape _ _ Ht) as (u & E & _), (token_last _ _ Ht) as (v & E').
  assert (trim_start (a ++ t ++ b) = trim_start a ++ t ++ b) as H1 by (rewrite E; by apply drop_while_app_stop).
  unfold trim. rewrite H1. unfold trim_end, trim_end_matches. rewrite E' at 1. rewrite !rev_app_distr. cbn [rev app lit].
  rewrite <-!app_assoc. change (rev (lit "]")) with [chr "]"]. cbn [app]. rewrite drop_while_app_stop by done.
  rewrite rev_app_distr. cbn [rev]. rewrite rev_app_distr, !rev_involutive, E', <-!app_assoc. done.
Qed.

Lemma insert_str_app a b t : insert_str (a ++ b) (byte_len a) t = Some (a ++ t ++ b).
Proof. unfold insert_str. by rewrite slice_to_app, slice_from_app. Qed.
Lemma remove_range_app a m b : remove_range (a ++ m ++ b) (byte_len a) (byte_len (a ++ m)) = Some (a ++ b).
Proof.
  unfold remove_range. rewrite (proj2 (Nat.leb_le _ _)) by blia. rewrite slice_to_app, app_assoc, slice_from_app. done.
Qed.

Lemma edited_buffer d s i : Draft.buffer (edited d s i) = s. Proof. done. Qed.
Lemma edited_pastes d s i : Draft.pastes (edited d s i) = prune_unused (Draft.pastes d) s. Proof. done. Qed.

(** The place of a paste. *)
Lemma paste_pos a b :
  let pos := byte_len a `min` byte_len (a ++ b) in (if is_char_boundary (a ++ b) pos then pos else down (a ++ b) pos) = byte_len a.
Proof. cbn. rewrite Nat.min_l by blia. by rewrite boundary_split. Qed.

(** A long paste stands in the prompt as a token, at the cursor. *)
Lemma paste_inserted d a b text : Draft.buffer d = a ++ b → Draft.cursor d = byte_len a → should_collapse text = true →
  let tok := placeholder (Draft.next_id d) (line_count text) in
  ∃ d', insert_paste_text d text = Some d' ∧ Draft.buffer d' = a ++ tok ++ b ∧ Draft.cursor d' = byte_len (a ++ tok)
    ∧ Draft.pastes d' = prune_unused (Draft.pastes d ++ [mkBlock (Draft.next_id d) text]) (a ++ tok ++ b).
Proof.
  intros Hb Hc Hl. unfold insert_paste_text. destruct text as [|c0 text0] eqn:Et; [done|]. rewrite <-Et in *. clear Et.
  rewrite Hb, Hc, paste_pos, Hl, insert_str_app. cbn [mbind option_bind]. eexists. split_and!; [done|done|by rewrite byte_len_app|].
  by rewrite edited_pastes.
Qed.
(** What pieces around the new token expand to. *)
Lemma expand_around a b id tok text pa pb s qa t qb blocks :
  token id tok → pieces a pa → pieces b pb → find_block blocks id = None → unused id a → unused id b →
  pieces s qa → pieces t qb → incl qa pa → incl qb pb →
  expand (s ++ tok ++ t) (prune_unused (blocks ++ [mkBlock id text]) (a ++ tok ++ b)) = Some (bodies blocks qa ++ text ++ bodies blocks qb).
Proof.
  intros Ht Ha Hb Hn Hua Hub Hs Htt Hqa Hqb.
  rewrite (expand_pieces _ _ _ (pieces_around _ _ _ _ _ _ Ht Hs Htt)), (prune_bodies _ _ _ _ (pieces_around _ _ _ _ _ _ Ht Ha Hb)).
  - change (Chip id tok :: qb) with ([Chip id tok] ++ qb).
    rewrite !bodies_app, (unused_bodies _ _ _ a pa qa), (unused_bodies _ _ _ b pb qb) by done.
    do 2 f_equal. unfold bodies. cbn. rewrite find_block_snoc by done. rewrite N.eqb_refl. cbn. by rewrite app_nil_r.
  - apply incl_app; [by apply incl_appl|]. apply incl_appr. apply incl_cons; [by left|by apply incl_tl].
Qed.

(** C40: A long paste stands in the prompt as a token at the cursor, and submitting the
    prompt then gives the paste back in its place, unchanged, between what the texts
    before and behind it stand for, blanks at the ends of the prompt removed; tokens of
    earlier pastes there keep their own pastes. The paste's number has to be fresh: of no
    paste of the draft, and in no token of the texts. *)
Theorem paste_given_back (d : Draft) (a b text : str) :
  Draft.buffer d = a ++ b → Draft.cursor d = byte_len a → should_collapse text = true →
  (Draft.next_id d ≤ u32_max)%N → find_block (Draft.pastes d) (Draft.next_id d) = None →
  unused (Draft.next_id d) a → unused (Draft.next_id d) b →
  let tok := placeholder (Draft.next_id d) (line_count text) in
  ∃ d', insert_paste_text d text = Some d' ∧ Draft.buffer d' = a ++ tok ++ b ∧ Draft.cursor d' = byte_len (a ++ tok)
    ∧ (∃ x y, expand a (Draft.pastes d) = Some x ∧ expand b (Draft.pastes d) = Some y
        ∧ expand (Draft.buffer d') (Draft.pastes d') = Some (x ++ text ++ y))
    ∧ ∃ x y, expand (trim_start a) (Draft.pastes d) = Some x ∧ expand (trim_end b) (Draft.pastes d) = Some y
        ∧ submitted d' = Some (x ++ text ++ y).
Proof.
  intros Hb Hc Hl Hid Hn Ha Hub tok. destruct (paste_inserted d a b text Hb Hc Hl) as (d' & E & Eb & Ec & Ep).
  exists d'. split; [exact E|split; [exact Eb|split; [exact Ec|]]]. unfold submitted. fold tok in Eb, Ep. rewrite Eb, Ep.
  pose proof (placeholder_token _ (line_count text) Hid) as Ht. fold tok in Ht. rewrite (trim_around a b _ tok Ht).
  destruct (trim_start_split a) as (w & Ea & Hw), (trim_end_split b) as (v & Ebv & Hv).
  destruct (pieces_total (trim_start a)) as [qa Hqa], (pieces_total (trim_end b)) as [qb Hqb].
  pose proof (pieces_blank_before w _ qa Hw Hqa) as Hpa. rewrite <-Ea in Hpa.
  pose proof (pieces_blank_behind v _ qb Hv Hqb) as Hpb. rewrite <-Ebv in Hpb.
  split; (eexists _, _; split; [by apply expand_pieces|split; [by apply expand_pieces|]]).
  - apply (expand_around a b _ tok text _ _ a _ b _ _ Ht Hpa Hpb); try done; apply incl_refl.
  - apply (expand_around a b _ tok text _ _ _ qa _ qb _ Ht Hpa Hpb); try done; [by apply incl_appr, incl_refl|by apply incl_appl, incl_refl].
Qed.

Example paste_draft := Draft.mk (lit "fix this: [pasted #1 ~ 2 lines] please") 31 [mkBlock 1 (lit "a" ++ cLF :: lit "b")] [] 0 2.
Lemma paste_given_back_witness :
  ∃ d', insert_paste_text paste_draft (lit "x" ++ cLF :: lit "y") = Some d'
    ∧ Draft.buffer d' = lit "fix this: [pasted #1 ~ 2 lines]" ++ placeholder 2 (line_count (lit "x" ++ cLF :: lit "y")) ++ lit " please"
    ∧ submitted d' = Some ((lit "fix this: a" ++ cLF :: lit "b") ++ (lit "x" ++ cLF :: lit "y") ++ lit " please").
Proof.
  destruct (paste_given_back paste_draft (lit "fix this: [pasted #1 ~ 2 lines]") (lit " please") (lit "x" ++ cLF :: lit "y"))
    as (d' & E & Eb & _ & _ & x & y & Ex & Ey & Es); [first [vm_compute; reflexivity|vm_compute; discriminate]..|].
  exists d'. split; [exact E|split; [exact Eb|]]. rewrite Es. vm_compute in Ex, Ey. injection Ex as <-. injection Ey as <-.
  vm_compute. reflexivity.
Defined.

(** ** The cursor *)

Definition in_text (s : str) (i : nat) : Prop := ∃ a b, s = a ++ b ∧ i = byte_len a.
(** The cursor is on a character, and the place in the history is one of it or its end. *)
Definition draft_ok (d : Draft) : Prop := in_text (Draft.buffer d) (Draft.cursor d) ∧ Draft.history_idx d ≤ length (Draft.history d).

Lemma in_text_end s : in_text s (byte_len s).
Proof. exists s, []. by rewrite app_nil_r. Qed.
Lemma in_text_start s : in_text s 0.
Proof. by exists [], s. Qed.
Lemma in_text_split s i j : in_text s i → in_text s j → i ≤ j → ∃ a m b, s = a ++ m ++ b ∧ i = byte_len a ∧ j = byte_len (a ++ m).
Proof.
  intros (a & b & -> & ->) (p & q & E & ->) Hij. destruct (byte_split_le a p b q E Hij) as (m & -> & ->). by exists a, m, q.
Qed.
Lemma in_text_min s i j : in_text s i → in_text s j → in_text s (i `min` j).
Proof. intros Hi Hj. by destruct (Nat.min_spec i j) as [[_ ->]|[_ ->]]. Qed.
Lemma in_text_max s i j : in_text s i → in_text s j → in_text s (i `max` j).
Proof. intros Hi Hj. by destruct (Nat.max_spec i j) as [[_ ->]|[_ ->]]. Qed.
Lemma in_text_le s i : in_text s i → i ≤ byte_len s.
Proof. intros (a & b & -> & ->). blia. Qed.
Lemma clamp_in_text s i : in_text s i → clamp_cursor s i = i.
Proof. intros (a & b & -> & ->). apply clamp_split. Qed.
Lemma prev_boundary_in s i : in_text s i → in_text s (prev_boundary s i) ∧ prev_boundary s i ≤ i.
Proof.
  intros (a & b & -> & ->). destruct a as [|c a _] using rev_ind; [split; [apply in_text_start|done]|].
  rewrite prev_boundary_snoc. split; [|blia]. exists a, ([c] ++ b). by rewrite <-app_assoc.
Qed.
Lemma next_boundary_in s i : in_text s i → in_text s (next_boundary s i) ∧ i ≤ next_boundary s i.
Proof.
  intros (a & [|c b] & -> & ->).
  - rewrite app_nil_r. unfold next_boundary. rewrite Nat.leb_refl. split; [apply in_text_end|done].
  - rewrite next_boundary_cons. split; [|blia]. exists (a ++ [c]), b. by rewrite <-app_assoc.
Qed.
Lemma prev_word_in s i : in_text s i → ∃ j, prev_word_boundary s i = Some j ∧ in_text s j ∧ j ≤ i.
Proof.
  intros (a & b & -> & ->). rewrite prev_word_spec. eexists. split; [done|]. unfold before_word.
  destruct (trim_end_matches_prefix is_whitespace a) as [w E]. fold (trim_end a) in E.
  destruct (trim_end_matches_prefix (λ c, negb (is_whitespace c)) (trim_end a)) as [v E']. rewrite E' in E.
  set (u := trim_end_matches _ _) in *. clearbody u. subst a. split; [|blia]. exists u, (v ++ w ++ b). by rewrite <-!app_assoc.
Qed.
Lemma next_word_in s i : in_text s i → ∃ j, next_word_boundary s i = Some j ∧ in_text s j ∧ i ≤ j.
Proof.
  intros (a & b & -> & ->). rewrite next_word_spec. eexists. split; [done|]. split; [|blia].
  exists (a ++ blanks_and_word b), (drop_while (λ c, negb (is_whitespace c)) (drop_while is_whitespace b)).
  split; [|done]. unfold blanks_and_word. by rewrite <-!app_assoc, take_drop_while, take_drop_while.
Qed.

Lemma span_in s p : In p (find_placeholders s) → in_text s (start p) ∧ in_text s (end_ p) ∧ start p ≤ end_ p.
Proof.
  destruct (pieces_total s) as [ps H]. unfold find_placeholders. rewrite (scan_pieces s ps 0 H).
  enough (∀ a, In p (spans_at (byte_len a) ps) → in_text (a ++ s) (start p) ∧ in_text (a ++ s) (end_ p) ∧ start p ≤ end_ p) as He by apply (He []).
  induction H as [|id t s ps Ht _ IH|c s ps Hc _ IH]; intros a; cbn [spans_at]; [done| |].
  - rewrite <-byte_len_app, app_assoc. intros [<-|Hp]; [|by apply IH]. cbn. split_and!; [|by exists (a ++ t), s|blia].
    exists a, (t ++ s). by rewrite app_assoc.
  - intros Hp. specialize (IH (a ++ [c])). rewrite <-app_assoc, byte_len_app, byte_len_cons, byte_len_nil, Nat.add_0_r in IH. by apply IH.
Qed.

(** ** Actions *)

(** Blocks may go; the rest of the draft stays. *)
Definition same_but_pastes (d d' : Draft) : Prop :=
  Draft.buffer d' = Draft.buffer d ∧ Draft.history d' = Draft.history d ∧ Draft.history_idx d' = Draft.history_idx d.
Definition goes_well (o : option Draft) : Prop := ∃ d, o = Some d ∧ draft_ok d.

Lemma edited_ok d d' s i : draft_ok d → same_but_pastes d d' → in_text s i → goes_well (Some (edited d' s i)).
Proof. intros [_ Hh] (_ & Eh & Ei) Hi. eexists. split; [done|]. split; [done|].
  change (Draft.history_idx d' ≤ length (Draft.history d')). by rewrite Eh, Ei.
Qed.

Lemma removed_ok d d' s i j : draft_ok d → same_but_pastes d d' → in_text s i → in_text s j → i ≤ j →
  goes_well (buffer ← remove_range s i j; Some (edited d' buffer i)).
Proof.
  intros Hd Hs Hi Hj Hij. destruct (in_text_split s i j Hi Hj Hij) as (a & m & b & -> & -> & ->).
  rewrite remove_range_app. cbn. eapply edited_ok; [done..|]. by exists a, b.
Qed.

Lemma inserted_ok s t i : in_text s i → ∃ s', insert_str s i t = Some s' ∧ in_text s' (i + byte_len t).
Proof.
  intros (a & b & -> & ->). rewrite insert_str_app. eexists. split; [done|]. exists (a ++ t), b. split; [by rewrite <-app_assoc|blia].
Qed.

Lemma find_In {A} f (l : list A) x : List.find f l = Some x → In x l.
Proof. intros H. by apply find_some in H as [H _]. Qed.
Lemma chip_before_in d pos p : chip_before d pos = Some p → In p (find_placeholders (Draft.buffer d)).
Proof.
  unfold chip_before, placeholder_ending_at, placeholder_at. case_match eqn:E; [intros [= <-]; by eapply find_In|apply find_In].
Qed.
Lemma chip_behind_in d pos p : chip_behind d pos = Some p → In p (find_placeholders (Draft.buffer d)).
Proof.
  unfold chip_behind, placeholder_starting_at, placeholder_at. case_match eqn:E; [intros [= <-]; by eapply find_In|apply find_In].
Qed.

Lemma remove_paste_ok d p : draft_ok d → In p (find_placeholders (Draft.buffer d)) → goes_well (remove_paste_span d p).
Proof.
  intros Hd (Hs & He & Hle)%span_in. unfold remove_paste_span. case_match; [by eexists|]. by eapply removed_ok.
Qed.

(** The range stays one of the text while it is widened. *)
Definition ranged (d : Draft) (acc : nat * nat * Draft) : Prop :=
  in_text (Draft.buffer d) acc.1.1 ∧ in_text (Draft.buffer d) acc.1.2 ∧ acc.1.1 ≤ acc.1.2 ∧ same_but_pastes d acc.2.
Lemma widen_ok d acc p : In p (find_placeholders (Draft.buffer d)) → ranged d acc → ranged d (widen acc p).
Proof.
  intros (Hs & He & Hle)%span_in. destruct acc as [[lo hi] d']. intros (Hlo & Hhi & Hr & Hb). unfold widen. case_match; [|done].
  split_and!; [by apply in_text_min|by apply in_text_max|simpl in *; lia|]. by destruct Hb.
Qed.
Lemma widened_ok d l acc : (∀ p, In p l → In p (find_placeholders (Draft.buffer d))) → ranged d acc → ranged d (foldl widen acc l).
Proof.
  revert acc; induction l as [|p l IH]; intros acc Hl H; cbn [foldl]; [done|].
  apply IH; [intros q Hq; apply Hl; by right|]. apply widen_ok; [apply Hl; by left|done].
Qed.

Lemma delete_range_ok d i j : draft_ok d → in_text (Draft.buffer d) i → in_text (Draft.buffer d) j →
  goes_well (delete_range_expanding_placeholders d i j).
Proof.
  intros Hd Hi Hj. unfold delete_range_expanding_placeholders.
  pose proof (widened_ok d (find_placeholders (Draft.buffer d)) (i `min` j, i `max` j, d) ltac:(done)) as Hw.
  destruct (foldl widen _ _) as [[lo hi] d'].
  destruct Hw as (Hlo & Hhi & Hle & Hs); [split_and!; [by apply in_text_min|by apply in_text_max|simpl; lia|done]|].
  case_match; [by eapply removed_ok|by eapply edited_ok].
Qed.

Lemma moved_ok d i : draft_ok d → in_text (Draft.buffer d) i → goes_well (Some (d <| Draft.cursor := i |>)).
Proof. intros [_ Hh] Hi. eexists. split; [done|]. by split. Qed.
Lemma insert_at_ok d c : draft_ok d → goes_well (insert_at_cursor d c).
Proof.
  intros [Hc Hh]. unfold insert_at_cursor. rewrite clamp_in_text by done. destruct (inserted_ok _ [c] _ Hc) as (s' & -> & Hs). cbn.
  eexists. split; [done|]. split; [|done]. by rewrite byte_len_cons, byte_len_nil, Nat.add_0_r in Hs.
Qed.
Lemma insert_char_ok d c flood : draft_ok d → goes_well (insert_char d c flood).
Proof.
  intros Hd. unfold insert_char. case_match; [|by apply insert_at_ok]. eexists. split; [done|]. split; [|apply Hd].
  by exists (lit "/"), [].
Qed.
Lemma insert_paste_ok d text : draft_ok d → goes_well (insert_paste_text d text).
Proof.
  intros Hd. pose proof Hd as [(a & b & Hb & Hc) Hh]. unfold insert_paste_text. destruct text as [|c t] eqn:Et; [by eexists|]. rewrite <-Et. clear Et.
  rewrite Hb, Hc, paste_pos. case_match; rewrite insert_str_app; cbn [mbind option_bind];
    (eapply edited_ok; [exact Hd|done|eexists (_ ++ _), _; rewrite <-app_assoc, byte_len_app; done]).
Qed.
Lemma recalled_ok d i text : i ≤ length (Draft.history d) → goes_well (Some (recall d i text)).
Proof. intros Hi. eexists. split; [done|]. split; [apply in_text_end|done]. Qed.
Lemma emptied_ok d : Draft.history_idx d ≤ length (Draft.history d) → goes_well (Some (emptied d)).
Proof. intros H. eexists. split; [done|]. split; [apply in_text_start|done]. Qed.
Lemma expanded s blocks : ∃ t, expand s blocks = Some t.
Proof. destruct (pieces_total s) as [ps H]. eexists. by apply expand_pieces. Qed.

Lemma remembered_ok d text : goes_well (Some (emptied ((remember_input text d) <| Draft.history_idx := length (Draft.history (remember_input text d)) |>))).
Proof. apply emptied_ok. done. Qed.

#[local] Hint Resolve remove_paste_ok chip_before_in chip_behind_in moved_ok insert_at_ok insert_char_ok insert_paste_ok emptied_ok in_text_start in_text_end : draft.

Lemma action_ok d a : draft_ok d → goes_well (handle_input_action d a).
Proof.
  intros Hd. pose proof Hd as [Hc Hh]. assert (goes_well (Some d)) as Hsame by by eexists.
  assert (∀ p, In p (find_placeholders (Draft.buffer d)) → goes_well (Some (d <| Draft.cursor := start p |>)) ∧ goes_well (Some (d <| Draft.cursor := end_ p |>))) as Hgo.
  { intros p (? & ? & _)%span_in. by split; apply moved_ok. }
  destruct (prev_boundary_in _ _ Hc) as [Hp1 Hp2], (next_boundary_in _ _ Hc) as [Hn1 Hn2],
    (prev_word_in _ _ Hc) as (i & Ei & Hi1 & Hi2), (next_word_in _ _ Hc) as (j & Ej & Hj1 & Hj2).
  unfold handle_input_action. rewrite (clamp_in_text _ _ Hc), Ei, Ej. cbn [mbind option_bind].
  destruct a; auto with draft.
  - (* Backspace *) case_match; [done|]. case_match; [eauto with draft|]. by eapply removed_ok.
  - (* Delete *) case_match; [done|]. case_match; [eauto with draft|]. by eapply removed_ok.
  - (* KillWordBack *) case_match; [done|]. case_match; [eauto with draft|]. by apply delete_range_ok.
  - (* KillWordForward *) case_match; [done|]. case_match; [eauto with draft|]. by apply delete_range_ok.
  - (* WordLeft *) case_match; [eapply Hgo; eauto with draft|]. by apply moved_ok.
  - (* WordRight *) case_match; [done|]. case_match; [eapply Hgo; eauto with draft|]. by apply moved_ok.
  - (* Left *) case_match; [eapply Hgo; eauto with draft|]. by apply moved_ok.
  - (* Right *) case_match; [done|]. case_match; [eapply Hgo; eauto with draft|]. by apply moved_ok.
  - (* HistoryPrev *) case_match eqn:E; [done|]. apply orb_false_iff in E as [E1%Nat.eqb_neq E2%Nat.eqb_neq].
    destruct (lookup_lt_is_Some_2 (Draft.history d) (Draft.history_idx d - 1)) as [text ->]; [lia|]. apply recalled_ok. lia.
  - (* HistoryNext *) case_match eqn:E; [done|]. apply Nat.leb_gt in E. apply recalled_ok. lia.
  - (* ClearDraft *) case_match; [by apply emptied_ok|]. match goal with |- context [expand ?s ?b] => destruct (expanded s b) as [t ->] end. apply remembered_ok.
  - (* Submit *) case_match; [done|]. case_match; [done|]. match goal with |- context [expand ?s ?b] => destruct (expanded s b) as [[|c' t] ->] end; [by apply emptied_ok|apply remembered_ok].
Qed.

Lemma run_ok actions : ∀ d, draft_ok d → goes_well (run actions d).
Proof.
  unfold run. induction actions as [|a l IH]; intros d Hd; cbn [foldl]; [by eexists|].
  destruct (action_ok d a Hd) as (d' & E & Hd'). cbn [mbind option_bind]. rewrite E. by apply IH.
Qed.

(** C39: Whatever is typed, pasted, moved over, deleted, recalled or submitted, no slice of
    the prompt cuts a character and no entry of the history is out of range: every
    sequence of actions runs, and leaves the cursor on a character of the text. *)
Theorem prompt_never_panics (actions : list Action) :
  ∃ d, run actions Draft.new = Some d ∧ is_char_boundary (Draft.buffer d) (Draft.cursor d) = true
    ∧ Draft.cursor d ≤ byte_len (Draft.buffer d) ∧ Draft.history_idx d ≤ length (Draft.history d).
Proof.
  destruct (run_ok actions Draft.new) as (d & -> & (a & b & E & Ec) & Hh); [by split; [apply in_text_start|]|].
  exists d. rewrite E, Ec, boundary_split. split_and!; [done|done|blia|done].
Qed.

(** The motions by words stop where the text says: back past blanks and then past one
    word, and forward past blanks and then past one word, in bytes. *)
Theorem word_motions (a b : str) :
  prev_word_boundary (a ++ b) (byte_len a) = Some (byte_len (trim_end_matches (λ c, negb (is_whitespace c)) (trim_end a)))
  ∧ next_word_boundary (a ++ b) (byte_len a)
    = Some (byte_len (a ++ take_while is_whitespace b ++ take_while (λ c, negb (is_whitespace c)) (drop_while is_whitespace b))).
Proof. split; [apply prev_word_spec|apply next_word_spec]. Qed.

(** The word left of a letter typed behind a token begins inside the token: it holds
    blanks. A letter typed there breaks it, and the paste is lost with the next deletion. *)
Example paste_lost_by_word_left :
  (d ← run [InputPaste (lit "x" ++ cLF :: lit "y"); InputChar (chr "z") false; InputWordLeft] Draft.new; Some (Draft.buffer d, Draft.cursor d))
    = Some (lit "[pasted #1 ~ 2 lines]z", 15)
  ∧ (d ← run [InputPaste (lit "x" ++ cLF :: lit "y"); InputChar (chr "z") false; InputWordLeft; InputChar (chr "z") false; InputEnd; InputBackspace] Draft.new;
     Some (Draft.buffer d, Draft.pastes d)) = Some (lit "[pasted #1 ~ 2 zlines]", []).
Proof. split; vm_compute; reflexivity. Qed.

(** A second slash is the first again, a slash of a paste is one more. *)
Example bare_slash :
  (d ← run [InputChar (chr "/") false; InputChar (chr "/") false] Draft.new; Some (Draft.buffer d, Draft.cursor d)) = Some (lit "/", 1)
  ∧ (d ← run [InputChar (chr "/") false; InputChar (chr "/") true] Draft.new; Some (Draft.buffer d, Draft.cursor d)) = Some (lit "//", 2).
Proof. split; vm_compute; reflexivity. Qed.

(** Removing one of two tokens of a paste drops the paste of the other. *)
Example paste_lost_by_copy :
  (d ← run [InputPaste (lit "x" ++ cLF :: lit "y"); InputPaste (lit "[pasted #1 ~ 2 lines]"); InputBackspace] Draft.new;
   t ← submitted d; Some (Draft.pastes d, t)) = Some ([], lit "[pasted #1 ~ 2 lines]").
Proof. vm_compute. reflexivity. Qed.
